(* ===== verification/_CoqProject ===== *)
-Q . S2P
Prelude.v
Str.v
Domain.v
Policy.v
Token.v
Lease.v
Identity.v
Namespace.v
MountRouter.v
KvEngine.v
Operator.v
ServiceCore.v
ServiceSpec.v
ServiceTheorems.v
Gf256.v
Shamir.v
Bytes.v
Json.v
Engine.v
Kv2.v
Kv2Spec.v
EngineState.v
EngineStateSpec.v
Base32.v
Totp.v
TotpSpec.v
Federated.v
FederatedSpec.v
Acl.v
AuthState.v
AuthRoutes.v
AuthLogin.v
AclSpec.v
AclParse.v
AuthLive.v
AuthEffects.v
AuthSpec.v
AuthReplay.v
DurableCodec.v
Durable.v
DurableCodecSpec.v
DurableSpec.v
DurableRecovery.v
DurableReopen.v
DurableSystem.v
DurableTheorems.v
Seal.v
Transit.v
TransitSpec.v
TransitTheorems.v
RateLimit.v
Http.v
HttpSpec.v
AuditChain.v
AuditChainSpec.v
AuditRotation.v
AuditRotationSpec.v
AuditRotationSteps.v
AuditToy.v
AuditTheorems.v
ServerBase.v
ServerSeal.v
ServerRekey.v
ServerInit.v
Server.v
ServerSpec.v
ServerSound.v
ServerStore.v
ServerToy.v
ServerAudit.v
HttpServer.v
HaService.v
HaTheorems.v
HaState.v
Contracts.v
OperationLedger.v
JournaledCore.v
JournaledSpec.v
JournaledTheorems.v
ServerTheorems.v
