(* ===== verification/Prelude.v ===== *)
(** * HeptaBao: a verified model of the secrets service

    HeptaBao is a secrets service written in Rust.  This library models its core
    as executable definitions, translated from the sources under [src/crates],
    and proves the properties that make them correct.

    ** The program's parts

    The request service ([heptabao-service-core]) composes small in-memory
    components: identifiers and canonical paths ([heptabao-domain]), policies,
    tokens, leases, identities, namespaces, a mount router, a versioned KV
    engine, outcome reconciliation ([heptabao-operator-api]) and telemetry.  A
    request is admitted (token, identity, policy, namespace, mount), registered
    by its identifier, applied to the backend, and confirmed; a lost
    confirmation leaves an outcome that an operator resolves.

    The running server ([heptabao-server]) has its own secret engines
    ([engines.rs], [engines/kv.rs], [engines/totp.rs], [engines/transit.rs]), which hold namespaces of
    mounts and commit a request's working copy only when it succeeds, and its
    own key handling ([crypto.rs]): Shamir sharing over GF(256), a share format,
    key wrapping and a sealed barrier.  Its callers are authenticated by
    [auth.rs], which keeps the tree of tokens, the ACL policies, the auth mounts
    and the userpass, AppRole and JWT accounts behind them, and by
    [federated_auth.rs], which verifies signed assertions and second-factor
    proofs and keeps a crash-safe ledger of the ones already used.

    What the server acknowledges is stored by the durable service
    ([heptabao-durable-service]): three sealed files (snapshot, journal, request
    ledger) in one directory, written in a fixed order so that any crash leaves
    them recoverable, with a ledger that recognises repeated requests.

    The running server ([service.rs]) composes these: it is initialized with a
    barrier key split into shares, unsealed by a threshold of them, and then
    authenticates each request, dispatches it to the auth state and the engines,
    and stores the changed state as one value of the durable service before it
    answers.  Every request and every answer is first recorded in an
    authenticated, hash-chained audit file, which [audit_rotation.rs] archives in
    segments behind a signed manifest.  Connections arrive through [http.rs], which
    limits the rate of each peer, reads one request per connection and writes the
    answer.  In a cluster the state is replicated as sealed envelopes through the
    consensus library ([ha_state.rs], [ha.rs], [heptabao-raft-runtime]), and
    [heptabao-ha-service] authenticates the frames between nodes and answers repeated
    operations.

    A second composition of durable state is built from contracts: a journal, a generation
    store and a barrier are traits ([heptabao-journal-api], [heptabao-storage-api],
    [heptabao-barrier-api]); [heptabao-operation-ledger] records the phases of every operation
    in a journal, [heptabao-durable-core] seals a state and commits it to a store, and
    [heptabao-journaled-core] runs a mutation through both and resolves the ones that were
    interrupted.

    ** Files

    - [Prelude]: [Result] and the [?] operator, methods that mutate ([M]), 64-bit
      arithmetic, ordered iteration over maps, executions ([run]) and their
      invariants, tactics.  [Str]: byte strings, splitting, decimal rendering,
      the character tests of Rust strings.  [Bytes]: big-endian integers
      and slices.
    - [Domain]: identifiers, canonical paths, ticks, secret values.
      A checked string is a record with the proof that the check passed.
    - [Policy], [Token], [Lease], [Identity], [Namespace], [MountRouter]: one
      file per crate, definitions first, then theorems on sequences of calls.
    - [KvEngine]: the in-memory KV engine.  [Operator]: outcomes and
      telemetry.
    - [ServiceCore]: the whole request pipeline, for an arbitrary post-commit
      hook (a class).  [ServiceSpec]: its invariant and the abstract outcomes
      [handle_outcome]; [ServiceTheorems]: refinement and the
      end-to-end theorems.
    - [Gf256], [Shamir]: field arithmetic, secret sharing, share format, sealing.
      The AEAD cipher, the checksum's hash and the random generator are
      parameters; the cipher's laws are the class [AeadLaws].
    - [Json], [Engine], [Kv2], [Kv2Spec], [EngineState], [EngineStateSpec]: the
      server's engines.  Backends enter the front end through the class
      [EngineOps].
    - [Base32], [Totp], [TotpSpec]: the TOTP engine.  HMAC (class
      [Hmac], tag lengths [HmacLaws]) and the random generator are parameters.

    - [Transit]: the transit engine (named keys with versions; encryption, signing,
      MACs, data keys, batches).  The ciphers, MACs and signatures are the class
      [TransitCrypto], randomness the numbered draws of a request ([Draws]).
      [TransitSpec]: what any request does to a key ([key_inv], [key_evolves]);
      [TransitTheorems]: round trips over histories of requests.

    - [Federated], [FederatedSpec]: [federated_auth.rs].  The primitives are the
      class [FederatedCrypto]; a write to the ledger's file either arrives or
      fails after some of its bytes ([WriteOutcome]).
    - [Acl]: the policy language of [auth.rs], its lexer, parsers and path
      patterns; [AclSpec]: what a decision means; [AclParse]: printing and
      reading.  [AuthState]: tokens, accounts and mounts; [AuthRoutes]: the token,
      policy and mount routes; [AuthLogin]: the account routes, the logins and the
      dispatch [handle].  Hashing, base64 and password derivation are the class
      [AuthCrypto], JSON text the class [JsonText], randomness a stream [Rng].
    - [AuthLive]: liveness of tokens in the tree and revocation; [AuthEffects]:
      what any request can do to the state; [AuthSpec], [AuthReplay]: the safety
      theorems over histories of requests; the second factor computes the codes of
      the TOTP engine.

    - [DurableCodec]: the file formats of the durable service,
      its payloads and sealed, checksummed frames.  [Durable]: the service.  The
      directory is a map from names to contents; every call takes an [Io] with the
      answers of the directory guard, the nonces, and the fate of each write, which
      may stop after any byte.  The barrier and the hash are the classes [Barrier]
      and [Sha256], with the laws [BarrierLaws] and [Sha256Laws].
    - [DurableCodecSpec]: the codecs are exact, also on a torn journal.
      [DurableSpec]: the abstract state, a history of changes;
      reading a journal recovers the history it was written for.
      [DurableRecovery]: what the files hold at every point ([stored], [holds]);
      [DurableRecovery], [DurableReopen]: every operation, with every
      failure, keeps it.  [DurableSystem]: runs with crashes.  [DurableTheorems]:
      the guarantees, and a concrete instance that runs.

    - [Seal]: seal metadata, key material and the collection of shares; JSON
      encoding ([Serde]) and base64 ([Base64]) are classes with laws.
      [AuditChain]: audit records and their chain.  [AuditRotation]: the audit
      files, a map of sidecars and an active file, with a fate for each file
      operation, the recording of an event and the start.
      [AuditChainSpec], [AuditRotationSpec], [AuditRotationSteps]:
      what the files hold at every point and that every step
      keeps it.  [AuditToy]: concrete encodings.  [AuditTheorems]: the guarantees.
    - [ServerBase]: the state of [Service], the data directory, and [World], the
      answers of the operating system, the random generator and the HA process
      during one request.  [ServerSeal]: persistence, seal and unseal;
      [ServerRekey]: the rekey routes; [ServerInit]: initialization; [Server]:
      maintenance routes, dispatch, the whole request [handle_at_mode], wire
      rejections and [start].
    - [ServerSpec], [ServerSound]: invariants of the memory under every request.
      [ServerStore]: the data directory implements the history of the durable
      service ([backed]) and every request moves it by complete states.
      [ServerToy]: concrete libraries and an installation.  [ServerAudit],
      [ServerTheorems]: the guarantees.
    - [RateLimit]: the token buckets of [http.rs].  [Http]: reading a request from
      bytes that arrive on an arbitrary schedule, with time-outs and failures, and
      writing a response; [HttpSpec]: the messages it accepts.  [HttpServer]: one
      connection, from the limiter to the response.
    - [HaService]: operations, peer frames, sequence numbers, snapshot manifests and
      quorums of [heptabao-ha-service]; the consensus driver and the forwarder are
      classes, as its traits.  [HaTheorems]: nodes that restart and lose writes.
    - [HaState]: the proposals of [ha_state.rs], their text form, and the commits and
      reads of [ha.rs]; OpenRaft is the class [OpenRaft] with the laws
      [OpenRaftLaws], and the specification is a register ([register_run]).

    - [Contracts]: the checked types and the traits of the contract crates; what a provider
      promises is a class of laws over an abstract state ([JournalLaws], [StoreLaws]).
      [OperationLedger]: events, their binary form and the ledger.  [JournaledCore]: the
      durable and the journaled core.  [JournaledSpec]: the invariant that relates recorded
      events and published generations, kept by every call.  [JournaledTheorems]: histories
      with crashes and restarts, and providers in memory that keep the laws.

    ** Conventions

    A [BTreeMap] is a [gmap], iterated in key order where the code iterates.  A
    method [&mut self] returns the state together with its result, on errors
    too.  Strings are byte strings; [u8] is [Byte.byte]; [u64] and [u32] values
    are [N] with the checked, saturating or wrapping operations of the source
    written out.  JSON numbers keep [serde_json]'s three cases.

    Fuel appears where a Rust loop is not structural: [render_digits] (20 digits
    hold any [u64]), [gf_inverse_loop] (16 halvings of a [u16]), [emit] (at most
    [bits] rounds), [ancestors_ok] and [revoke_loop] (a round per stored token),
    [lex_loop] (a round per byte), [recover_loop] and [journal_loop] (a round per
    frame, at most one per byte), [read_head] and [read_body] (a round per byte),
    [handle_crypto] (two levels: a batch has no nested batch); each comes with a lemma that it is enough
    ([ancestors_fuel], [revoke_fuel], [lex_fuel], [recover_fuel], [journal_fuel],
    [read_head_fuel], [crypto_depth] and the like).

    ** What the theorems show

    Requests to the service commit at most once, are completely mediated, fail
    without effect, and unknown outcomes are recovered exactly once; the
    pipeline refines an abstract relation; namespaces do not interfere.  Shares
    at the threshold reconstruct and fewer reveal nothing; the codecs are exact.
    Engine requests are all-or-nothing, mounts never overlap, destroyed versions
    stay destroyed, written secrets read back.  What the transit engine encrypts,
    signs or authenticates it decrypts and verifies after any later requests, keys
    never lose a version, and a batch on an existing key is its items in sequence.  One-time codes are accepted once,
    guesses are bounded, codes follow RFC 4226.  Tokens that died stay dead, no
    token is stronger than its parent, root cannot be obtained by requests, a
    decision is the meaning of the policies, revocation removes exactly a
    subtree; assertions and second factors are used once, also across crashes of
    the ledger; policies are read back as printed.  The durable service
    recovers from any sequence of failed writes, crashes and failed recoveries with
    every acknowledged change and no part of any other, answers a repeated request
    with its first outcome, is never in doubt while storage works, refuses service
    while it is, and restores backups exactly.  Assumed of its mutations is only that
    their digests and recovery references collide with none in its files
    ([no_collision] of [DurableSystem]); that an aborted request retried after a
    compaction may be given its old reference is covered.  An audit trail loses no
    acknowledged event whatever fails while it is written and rotated, and its
    frontier commits to its contents: a change behind an unchanged frontier shows two
    events at one position with one tag.  A connection's bytes are read as
    the one request they spell, however they arrive; a peer is admitted no more often
    than its rate and burst allow; no answer is written that was not recorded.
    The replicated state behaves as one register whose writes are derived from its
    present content; a peer's frame is admitted once over all restarts, and arrives as
    it was sealed, or is a forgery whose body has the tag of the sealed one; an answered operation never runs again.  The
    server's directory always recovers to one well-formed state, the one it
    serves from; a request takes effect completely or not at all; a threshold of
    issued shares opens it and fewer do not.  The generations that a
    journaled core has published are those its ledger reports, each once, up to one
    operation in doubt, and an answered mutation stays so.  Each small component has its
    invariant and the exact behaviour of its operations.

    The theorems on the running server are about one node ([life] and [reachable]
    of [ServerTheorems]): any sequence of requests, wire rejections and restarts
    after an installation, except restoring a backup (which replaces three files one by
    one and, interrupted, leaves a set that is refused on reopening); the answers of the HA process are
    arbitrary in a request.  They assume what the
    libraries promise (an authenticated cipher that opens only what was sealed
    under the same key, [AeadLaws] and [AeadTotal]) and, of a request, that it draws
    an operation identifier not used before and that the digests it meets do not
    collide ([calm]).  The theorems on tokens assume that the clock does not go back
    and that drawn identifiers are fresh ([history] of [AuthSpec]), and the one on the
    replay ledger that it is opened anew after each failed write ([ledger_run]).

    ** Not modelled

    Input and output, threads and sockets (TLS, the listener, Raft transport, plugin
    processes), cryptographic primitives, erasure of
    memory, and the contract crates outside the running service. *)
From Stdlib Require Import Ascii NArith.
From stdpp Require Export base gmap strings list sorting fin_maps option sets.

(** * Results

    Rust's [Result<A, E>], with [map_err] and the [?] operator as a bind. *)
Inductive Result (A E : Type) : Type :=
| Ok (a : A)
| Err (e : E).
Arguments Ok {A E} a.
Arguments Err {A E} e.

Declare Scope rust_scope.
Delimit Scope rust_scope with rust.
Open Scope rust_scope.

#[export] Instance Result_eq_dec {A E} `{EqDecision A, EqDecision E} :
  EqDecision (Result A E).
Proof. solve_decision. Defined.

Definition map_err {A E F} (f : E → F) (r : Result A E) : Result A F :=
  match r with Ok a => Ok a | Err e => Err (f e) end.

Definition map_ok {A B E} (f : A → B) (r : Result A E) : Result B E :=
  match r with Ok a => Ok (f a) | Err e => Err e end.

(** [option::ok_or]. *)
Definition ok_or {A E} (o : option A) (e : E) : Result A E :=
  match o with Some a => Ok a | None => Err e end.

Definition is_ok {A E} (r : Result A E) : bool :=
  match r with Ok _ => true | Err _ => false end.

(** [let? x := c in k] is [let x = c?; k] in a function that touches no state. *)
Notation "'let?' x := c 'in' k" :=
  (match c with Ok x => k | Err e => Err e end)
  (at level 10, x pattern, c at level 200, k at level 200) : rust_scope.

(** * Mutating methods

    A method [fn m(&mut self, ..) -> Result<A, E>] is a function from the state
    to the new state and the result.  The state reached when an error is
    returned is part of the result: Rust does not roll mutations back. *)
Definition M (S E A : Type) : Type := S → S * Result A E.

Definition mret {S E A} (a : A) : M S E A := λ s, (s, Ok a).
Definition mfail {S E A} (e : E) : M S E A := λ s, (s, Err e).
Definition mbind {S E A B} (m : M S E A) (k : A → M S E B) : M S E B :=
  λ s, match m s with
       | (s', Ok a) => k a s'
       | (s', Err e) => (s', Err e)
       end.
(** A pure [Result] computed from the current state. *)
Definition mpure {S E A} (f : S → Result A E) : M S E A := λ s, (s, f s).

Notation "'do?' x := m 'in' k" := (mbind m (λ x, k))
  (at level 10, x pattern, m at level 200, k at level 200) : rust_scope.
Notation "m ;;? k" := (mbind m (λ _, k))
  (at level 100, right associativity) : rust_scope.

(** * Unsigned 64-bit integers *)
Definition U64_MAX : N := 18446744073709551615.

Definition checked_add (a b : N) : option N :=
  if (a + b <=? U64_MAX)%N then Some (a + b)%N else None.

Definition saturating_add (a b : N) : N := N.min (a + b) U64_MAX.

Lemma checked_add_Some a b c :
  checked_add a b = Some c ↔ c = (a + b)%N ∧ (a + b ≤ U64_MAX)%N.
Proof.
  unfold checked_add. destruct (N.leb_spec (a + b) U64_MAX).
  - split; [intros [= <-]; done | by intros [-> _]].
  - split; [done | lia].
Qed.

Lemma checked_add_None a b : checked_add a b = None ↔ (U64_MAX < a + b)%N.
Proof.
  unfold checked_add. destruct (N.leb_spec (a + b) U64_MAX); split; (done || lia).
Qed.

Lemma saturating_add_le a b : (a ≤ U64_MAX → a ≤ saturating_add a b)%N.
Proof. unfold saturating_add; lia. Qed.

Lemma saturating_add_max a b : (saturating_add a b ≤ U64_MAX)%N.
Proof. unfold saturating_add; lia. Qed.

(** * Ordered maps

    [BTreeMap] is a [gmap]; where the code iterates, it does so in ascending
    key order, which [btree_iter] makes explicit. *)
Class RustOrd (K : Type) := rust_le : relation K.
Class RustOrdLaws (K : Type) `{RustOrd K} := {
  #[global] rust_le_dec :: RelDecision (rust_le (K := K));
  #[global] rust_le_total :: Total (rust_le (K := K));
  #[global] rust_le_trans :: Transitive (rust_le (K := K));
  #[global] rust_le_antisymm :: AntiSymm (=) (rust_le (K := K));
}.

Section btree.
Context {K V : Type} `{Countable K} `{RustOrdLaws K}.

Definition btree_keys (m : gmap K V) : list K :=
  merge_sort rust_le (elements (dom m)).

Definition btree_values (m : gmap K V) : list V :=
  omap (λ k, m !! k) (btree_keys m).

Lemma elem_of_btree_keys (m : gmap K V) k : k ∈ btree_keys m ↔ is_Some (m !! k).
Proof.
  unfold btree_keys. rewrite merge_sort_Permutation, elem_of_elements.
  apply elem_of_dom.
Qed.

Lemma btree_keys_Sorted (m : gmap K V) : StronglySorted rust_le (btree_keys m).
Proof. apply StronglySorted_merge_sort; apply _. Qed.

Lemma btree_keys_NoDup (m : gmap K V) : NoDup (btree_keys m).
Proof. unfold btree_keys. rewrite merge_sort_Permutation. apply NoDup_elements. Qed.

Lemma elem_of_btree_values (m : gmap K V) v :
  v ∈ btree_values m ↔ ∃ k, m !! k = Some v.
Proof.
  unfold btree_values. rewrite list_elem_of_omap. split.
  - intros (k & _ & Hk). eauto.
  - intros (k & Hk). exists k. rewrite elem_of_btree_keys. eauto.
Qed.
End btree.

(** Iteration over a [BTreeSet], in ascending order. *)
Definition btree_elems {K} `{Countable K, RustOrdLaws K} (s : gset K) : list K :=
  merge_sort rust_le (elements s).

Lemma elem_of_btree_elems {K} `{Countable K, RustOrdLaws K} (s : gset K) k :
  k ∈ btree_elems s ↔ k ∈ s.
Proof. unfold btree_elems. by rewrite merge_sort_Permutation, elem_of_elements. Qed.

(** [Iterator::max_by_key]: among the elements of largest key, the last one. *)
Definition max_by_key {A} (key : A → nat) (l : list A) : option A :=
  foldl (λ acc x, match acc with
                  | None => Some x
                  | Some y => if decide (key y ≤ key x) then Some x else Some y
                  end) None l.

Lemma max_by_key_snoc {A} (key : A → nat) l x :
  max_by_key key (l ++ [x]) =
  match max_by_key key l with
  | None => Some x
  | Some y => if decide (key y ≤ key x) then Some x else Some y
  end.
Proof. unfold max_by_key. by rewrite foldl_snoc. Qed.

Lemma max_by_key_None {A} (key : A → nat) l : max_by_key key l = None ↔ l = [].
Proof.
  split; [|by intros ->].
  induction l as [|x l _] using rev_ind; [done|].
  rewrite max_by_key_snoc. repeat case_match; done.
Qed.

Lemma max_by_key_Some {A} (key : A → nat) l x :
  max_by_key key l = Some x → x ∈ l ∧ ∀ y, y ∈ l → key y ≤ key x.
Proof.
  revert x. induction l as [|z l IH] using rev_ind; intros x; [done|].
  rewrite max_by_key_snoc. destruct (max_by_key key l) as [y|] eqn:E.
  - destruct (IH y eq_refl) as [Hin Hmax]. case_decide; intros [= <-]; split.
    + set_solver.
    + intros w [Hw| ->%list_elem_of_singleton]%elem_of_app; [|done].
      specialize (Hmax w Hw). lia.
    + set_solver.
    + intros w [Hw| ->%list_elem_of_singleton]%elem_of_app; [by apply Hmax|lia].
  - apply max_by_key_None in E as ->. intros [= <-]. split; [set_solver|].
    intros w ->%list_elem_of_singleton. done.
Qed.

(** * Executions

    A component is a state machine: [exec] runs one call of its API and [run] a
    sequence of them.  An invariant of [exec] holds after every sequence. *)
Section machine.
Context {S Op : Type} (exec : Op → S → S).

Definition run (ops : list Op) (s : S) : S := foldl (λ s o, exec o s) s ops.

Lemma run_cons o ops s : run (o :: ops) s = run ops (exec o s).
Proof. done. Qed.

Lemma run_app ops1 ops2 s : run (ops1 ++ ops2) s = run ops2 (run ops1 s).
Proof. apply foldl_app. Qed.

(** Invariance, for calls that satisfy a side condition [P]. *)
Lemma run_invariant_if (P : Op → Prop) (I : S → Prop) :
  (∀ o s, P o → I s → I (exec o s)) →
  ∀ ops s, Forall P ops → I s → I (run ops s).
Proof.
  intros Hstep ops. induction ops as [|o ops IH]; intros s HP HI; [done|].
  apply Forall_cons in HP as [Ho HP]. rewrite run_cons. eauto.
Qed.

Lemma run_invariant (I : S → Prop) :
  (∀ o s, I s → I (exec o s)) → ∀ ops s, I s → I (run ops s).
Proof.
  intros Hstep ops s. apply (run_invariant_if (λ _, True)); [auto|].
  by apply Forall_true.
Qed.
End machine.

(** * Counting map entries *)
Definition count_if {K V} `{Countable K} (f : V → bool) (m : gmap K V) : nat :=
  size (filter (λ kv, f kv.2) m).

Lemma count_if_0 {K V} `{Countable K} (f : V → bool) (m : gmap K V) :
  count_if f m = 0 ↔ ∀ k v, m !! k = Some v → ¬ f v.
Proof.
  unfold count_if. rewrite map_size_empty_iff, map_empty_filter. done.
Qed.

(** The outcome of a call, given by its answer. *)
Lemma call_answer {S A} (x : S * A) a : x.2 = a → x = (x.1, a).
Proof. by destruct x; simpl; intros ->. Qed.

(** * Automation *)
Create HintDb hepta.

(** Break every [match] of a hypothesis or goal and clean up. *)
Ltac split_matches :=
  repeat (case_match || case_decide || simplify_eq/=).

(** Invert the equation [H : match .. with .. end = _] of an executed method. *)
Ltac run_in H :=
  cbv beta iota delta [mbind mpure mret mfail] in H;
  repeat (first [case_match | case_decide]; simplify_eq/=; try done).

#[export] Hint Resolve saturating_add_le saturating_add_max : hepta.
