(* ===== verification/Str.v ===== *)
(** Rust's [str] operations as byte-string functions.

    A Rust [String] is a UTF-8 byte sequence.  Every test the modelled code
    makes is against ASCII patterns, which in UTF-8 match exactly the same
    bytes, so a [string] of 8-bit characters is a faithful carrier.  The file
    holds [starts_with], [ends_with], [strip_prefix], [split] and
    [trim_end_matches], the decimal rendering of [format!("{n}")], and the
    lemmas that relate splitting to concatenation. *)
From Stdlib Require Import Ascii NArith.
From S2P Require Import Prelude.

#[export] Instance string_rust_ord : RustOrd string := String.le.
#[export] Instance string_rust_ord_laws : RustOrdLaws string.
Proof. split; unfold rust_le, string_rust_ord; apply _. Defined.

(** [str::starts_with(char)]. *)
Definition starts_with (c : ascii) (s : string) : bool :=
  match s with
  | EmptyString => false
  | String a _ => bool_decide (a = c)
  end.

(** [str::ends_with(char)]. *)
Fixpoint ends_with (c : ascii) (s : string) : bool :=
  match s with
  | EmptyString => false
  | String a EmptyString => bool_decide (a = c)
  | String _ s' => ends_with c s'
  end.

(** [str::bytes().all(f)]. *)
Fixpoint str_all (f : ascii → bool) (s : string) : bool :=
  match s with
  | EmptyString => true
  | String a s' => f a && str_all f s'
  end.

(** [str::strip_prefix(&str)]. *)
Fixpoint strip_prefix (pre s : string) : option string :=
  match pre, s with
  | EmptyString, _ => Some s
  | String a pre', String b s' =>
      if decide (a = b) then strip_prefix pre' s' else None
  | String _ _, EmptyString => None
  end.

(** [str::split(char)]: at least one piece, pieces may be empty. *)
Fixpoint split (c : ascii) (s : string) : list string :=
  match s with
  | EmptyString => [""]
  | String a s' =>
      if decide (a = c) then "" :: split c s'
      else match split c s' with
           | h :: t => String a h :: t
           | [] => [String a ""]
           end
  end.

(** The inverse of [split]: pieces separated by one [c]. *)
Fixpoint join (c : ascii) (l : list string) : string :=
  match l with
  | [] => ""
  | [s] => s
  | s :: l' => s +:+ String c (join c l')
  end.

(** [str::trim_end_matches(char)]. *)
Fixpoint trim_end_matches (c : ascii) (s : string) : string :=
  match s with
  | EmptyString => ""
  | String a s' =>
      match trim_end_matches c s' with
      | EmptyString => if decide (a = c) then "" else String a ""
      | t => String a t
      end
  end.

(** * Concatenation *)
Lemma str_app_nil_r (s : string) : s +:+ "" = s.
Proof. induction s as [|a s IH]; [done|]. change (String a (s +:+ "") = String a s). by rewrite IH. Qed.

Lemma str_app_cons (a : ascii) s t : String a s +:+ t = String a (s +:+ t).
Proof. done. Qed.

Lemma str_app_assoc (s t u : string) : (s +:+ t) +:+ u = s +:+ (t +:+ u).
Proof. induction s as [|a s IH]; [done|]. rewrite !str_app_cons. by rewrite IH. Qed.

Lemma str_length_app (s t : string) :
  String.length (s +:+ t) = String.length s + String.length t.
Proof. induction s as [|a s IH]; [done|]. rewrite str_app_cons. simpl. by rewrite IH. Qed.

Lemma str_app_inj_l (s t u : string) : s +:+ t = s +:+ u → t = u.
Proof. induction s as [|a s IH]; [done|]. rewrite !str_app_cons. by intros [= ?%IH]. Qed.

(** * Predicates on every byte *)
Lemma str_all_app f s t : str_all f (s +:+ t) = str_all f s && str_all f t.
Proof.
  induction s as [|a s IH]; [done|]. rewrite str_app_cons. simpl.
  by rewrite IH, andb_assoc.
Qed.

Lemma str_all_impl (f g : ascii → bool) s :
  (∀ a, f a → g a) → str_all f s → str_all g s.
Proof. intros Hfg. induction s; simpl; [done|]. rewrite !andb_True. naive_solver. Qed.

(** * Prefixes *)
Lemma strip_prefix_Some pre s r : strip_prefix pre s = Some r ↔ s = pre +:+ r.
Proof.
  revert s. induction pre as [|a pre IH]; intros s.
  - simpl. change ("" +:+ r) with r. naive_solver.
  - rewrite str_app_cons. destruct s as [|b s]; simpl; [naive_solver|].
    case_decide as Hab; subst; [rewrite IH; naive_solver|naive_solver].
Qed.

Lemma strip_prefix_app pre r : strip_prefix pre (pre +:+ r) = Some r.
Proof. by apply strip_prefix_Some. Qed.

Lemma starts_with_true c s : starts_with c s ↔ ∃ r, s = String c r.
Proof.
  destruct s as [|a s]; simpl; [naive_solver|].
  rewrite bool_decide_spec. naive_solver.
Qed.

Lemma ends_with_true c s : ends_with c s ↔ ∃ r, s = r +:+ String c "".
Proof.
  induction s as [|a s IH].
  { split; [done|]. intros ([|b r] & Hr); discriminate Hr. }
  destruct s as [|b s].
  - simpl. rewrite bool_decide_spec. split.
    + intros ->. by exists "".
    + intros ([|b r] & Hr); [by injection Hr|].
      rewrite str_app_cons in Hr. injection Hr as _ Hr. by destruct r.
  - change (ends_with c (String b s) ↔ ∃ r, String a (String b s) = r +:+ String c "").
    rewrite IH. split.
    + intros (r & ->). exists (String a r). by rewrite str_app_cons.
    + intros ([|b' r] & Hr); [discriminate Hr|].
      rewrite str_app_cons in Hr. injection Hr as -> Hr. eauto.
Qed.

Lemma ends_with_app c s t : t ≠ "" → ends_with c (s +:+ t) = ends_with c t.
Proof.
  intros Ht. induction s as [|a s IH]; [done|]. rewrite str_app_cons, <- IH.
  destruct s as [|b s]; [by destruct t|done].
Qed.

Lemma ends_with_all (f : ascii → bool) c t : str_all f t → ends_with c t → f c.
Proof.
  intros Hf (r & ->)%ends_with_true. rewrite str_all_app in Hf. simpl in Hf.
  rewrite !andb_True in Hf. tauto.
Qed.

(** * Splitting *)
Lemma split_nonempty c s : split c s ≠ [].
Proof. destruct s; simpl; [done|]. repeat case_match; done. Qed.

Lemma split_app c s t : split c (s +:+ String c t) = split c s ++ split c t.
Proof.
  induction s as [|a s IH].
  - simpl. by rewrite decide_True by done.
  - rewrite str_app_cons. simpl. rewrite IH. case_decide; [done|].
    destruct (split c s) eqn:E; [by apply split_nonempty in E|done].
Qed.

Lemma join_split c s : join c (split c s) = s.
Proof.
  induction s as [|a s IH]; [done|]. simpl.
  case_decide; subst.
  - destruct (split c s) eqn:E; [by apply split_nonempty in E|].
    simpl in *. by rewrite IH.
  - destruct (split c s) as [|h [|h' t]] eqn:E; [by apply split_nonempty in E| |];
      simpl in *; [by subst|]. rewrite str_app_cons. by f_equal.
Qed.

(** A piece that does not contain the separator. *)
Definition lacks (c : ascii) (s : string) : bool :=
  str_all (λ a, negb (bool_decide (a = c))) s.

Lemma split_lacks c s : lacks c s → split c s = [s].
Proof.
  unfold lacks. induction s as [|a s IH]; simpl; [done|].
  rewrite andb_True, negb_True, bool_decide_spec. intros [Hne Hs].
  rewrite decide_False by done. by rewrite IH.
Qed.

Lemma split_pieces_lack c s : Forall (λ p, lacks c p) (split c s).
Proof.
  unfold lacks. induction s as [|a s IH]; simpl; [by constructor|].
  case_decide; [by constructor|].
  destruct (split c s); inversion IH; subst; constructor; simpl; auto.
  - rewrite andb_True, negb_True, bool_decide_spec. done.
  - rewrite andb_True, negb_True, bool_decide_spec. done.
Qed.

Lemma split_join c l : l ≠ [] → Forall (λ p, lacks c p) l → split c (join c l) = l.
Proof.
  induction l as [|s l IH]; [done|]. intros _ [Hs Hl]%Forall_cons.
  destruct l as [|s' l]; [by apply split_lacks|].
  change (split c (s +:+ String c (join c (s' :: l))) = s :: s' :: l).
  rewrite split_app, (split_lacks c s), IH; done.
Qed.

Lemma join_cons c s l : l ≠ [] → join c (s :: l) = s +:+ String c (join c l).
Proof. by destruct l. Qed.

Lemma join_app c l1 l2 :
  l1 ≠ [] → l2 ≠ [] → join c (l1 ++ l2) = join c l1 +:+ String c (join c l2).
Proof.
  intros H1 H2. induction l1 as [|s l1 IH]; [done|].
  destruct l1 as [|s' l1].
  - simpl app. by rewrite join_cons.
  - change ((s :: s' :: l1) ++ l2) with (s :: ((s' :: l1) ++ l2)).
    rewrite (join_cons c s ((s' :: l1) ++ l2)) by done.
    rewrite (join_cons c s (s' :: l1)) by done.
    rewrite IH by done. by rewrite str_app_assoc, str_app_cons.
Qed.

Lemma trim_end_matches_id c s : ¬ ends_with c s → trim_end_matches c s = s.
Proof.
  induction s as [|a s IH]; [done|]. destruct s as [|b s].
  - simpl. rewrite bool_decide_spec. intros Hne. by rewrite decide_False.
  - intros Hne. specialize (IH Hne).
    change (match trim_end_matches c (String b s) with
            | EmptyString => if decide (a = c) then "" else String a ""
            | t => String a t
            end = String a (String b s)).
    by rewrite IH.
Qed.

(** * Decimal rendering of an unsigned integer ([format!("{n}")]) *)
Definition digit (d : N) : ascii := ascii_of_N (48 + d).

(** Digits of [n], most significant first; [fuel] bounds the number of digits. *)
Fixpoint render_digits (fuel : nat) (n : N) (acc : string) : string :=
  match fuel with
  | O => acc
  | S fuel =>
      let acc' := String (digit (n mod 10)) acc in
      if (n <? 10)%N then acc' else render_digits fuel (n / 10) acc'
  end.

(** 20 digits are enough for every [u64]. *)
Definition render_u64 (n : N) : string := render_digits 20 n "".

(** The value a digit string denotes; [render_u64] is a right inverse of it. *)
Fixpoint read_digits (acc : N) (s : string) : N :=
  match s with
  | EmptyString => acc
  | String a s' => read_digits (acc * 10 + (N_of_ascii a - 48)) s'
  end.

Definition is_ascii_digit (a : ascii) : bool :=
  (48 <=? N_of_ascii a)%N && (N_of_ascii a <=? 57)%N.

Lemma N_of_digit d : (d < 10)%N → N_of_ascii (digit d) = (48 + d)%N.
Proof. intros Hd. unfold digit. apply N_ascii_embedding. lia. Qed.

Lemma digit_is_digit d : (d < 10)%N → is_ascii_digit (digit d).
Proof.
  intros Hd. unfold is_ascii_digit. rewrite N_of_digit by done.
  rewrite andb_True, !Is_true_true, !N.leb_le. lia.
Qed.

Lemma read_render_digits fuel n acc :
  (0 < fuel)%nat → (n < 10 ^ N.of_nat fuel)%N →
  read_digits 0 (render_digits fuel n acc) = read_digits n acc.
Proof.
  revert n acc. induction fuel as [|fuel IH]; intros n acc Hf Hn; [lia|].
  cbn [render_digits]. destruct (N.ltb_spec n 10).
  - cbn [read_digits]. rewrite N_of_digit by (apply N.mod_lt; lia).
    rewrite N.mod_small by done. f_equal. lia.
  - assert (Hn' : (n < 10 * 10 ^ N.of_nat fuel)%N).
    { by rewrite <- N.pow_succ_r', <- Nat2N.inj_succ. }
    destruct fuel as [|fuel]; [change (10 ^ N.of_nat 0)%N with 1%N in Hn'; lia|].
    rewrite IH; [|lia|by apply N.Div0.div_lt_upper_bound].
    cbn [read_digits]. rewrite N_of_digit by (apply N.mod_lt; lia).
    f_equal. rewrite (N.add_comm 48), N.add_sub, N.mul_comm. symmetry. apply N.div_mod'.
Qed.

Lemma u64_fuel n : (n ≤ U64_MAX → n < 10 ^ N.of_nat 20)%N.
Proof. intros H. eapply N.le_lt_trans; [apply H|]. done. Qed.

Lemma read_render_u64 n : (n ≤ U64_MAX)%N → read_digits 0 (render_u64 n) = n.
Proof. intros H. unfold render_u64. rewrite read_render_digits; [done|lia|by apply u64_fuel]. Qed.

Lemma render_u64_inj n m :
  (n ≤ U64_MAX)%N → (m ≤ U64_MAX)%N → render_u64 n = render_u64 m → n = m.
Proof. intros Hn Hm Heq. by rewrite <- (read_render_u64 n), <- (read_render_u64 m), Heq. Qed.

Lemma render_digits_length fuel n acc :
  String.length (render_digits fuel n acc) ≤ fuel + String.length acc.
Proof.
  revert n acc. induction fuel as [|fuel IH]; intros n acc; simpl; [lia|].
  case_match; simpl; [lia|]. etrans; [apply IH|]. simpl. lia.
Qed.

Lemma render_u64_length n : String.length (render_u64 n) ≤ 20.
Proof. etrans; [apply render_digits_length|]. done. Qed.

Lemma render_digits_all fuel n acc :
  str_all is_ascii_digit acc → str_all is_ascii_digit (render_digits fuel n acc).
Proof.
  revert n acc. induction fuel as [|fuel IH]; intros n acc Hacc; simpl; [done|].
  assert (str_all is_ascii_digit (String (digit (n mod 10)) acc)).
  { simpl. rewrite andb_True. split; [|done]. apply digit_is_digit, N.mod_lt. lia. }
  case_match; [done|]. by apply IH.
Qed.

Lemma render_u64_all n : str_all is_ascii_digit (render_u64 n).
Proof. by apply render_digits_all. Qed.

Lemma render_digits_nonempty fuel n acc : 0 < fuel → render_digits fuel n acc ≠ "".
Proof.
  intros Hf. destruct fuel as [|fuel]; [lia|]. clear Hf. cbn [render_digits].
  revert n acc. induction fuel as [|fuel IH]; intros n acc; case_match; try done.
  cbn [render_digits]. apply IH.
Qed.

Lemma render_u64_nonempty n : render_u64 n ≠ "".
Proof. apply render_digits_nonempty. lia. Qed.

(** * UTF-8 byte strings: validity, control characters, character classes and
    trimming of white space, as Rust's [str] and [u8] methods define them. *)

(** * UTF-8 validity ([String::from_utf8]) *)
Definition byte_in (lo hi : N) (c : ascii) : bool := (lo <=? N_of_ascii c)%N && (N_of_ascii c <=? hi)%N.

Fixpoint utf8_valid (s : string) : bool :=
  let tail := byte_in 128 191 in
  match s with
  | EmptyString => true
  | String a s =>
      if byte_in 0 127 a then utf8_valid s
      else match s with
      | EmptyString => false
      | String b s =>
          if byte_in 194 223 a then tail b && utf8_valid s
          else match s with
          | EmptyString => false
          | String c s =>
              if byte_in 224 239 a then
                tail b && tail c && (negb (byte_in 224 224 a) || byte_in 160 191 b)
                && (negb (byte_in 237 237 a) || byte_in 128 159 b) && utf8_valid s
              else match s with
              | EmptyString => false
              | String d s =>
                  byte_in 240 244 a && tail b && tail c && tail d
                  && (negb (byte_in 240 240 a) || byte_in 144 191 b)
                  && (negb (byte_in 244 244 a) || byte_in 128 143 b) && utf8_valid s
              end
          end
      end
  end.

Definition is_ascii_alphanumeric (c : ascii) : bool :=
  byte_in 48 57 c || byte_in 65 90 c || byte_in 97 122 c.

Definition is_ascii_alphabetic (c : ascii) : bool := byte_in 65 90 c || byte_in 97 122 c.

(** [u8::is_ascii_whitespace]. *)
Definition is_ascii_whitespace (c : ascii) : bool :=
  byte_in 9 10 c || byte_in 12 13 c || byte_in 32 32 c.

(** [chars().any(char::is_control)] on a UTF-8 string. *)
Fixpoint has_control (s : string) : bool :=
  match s with
  | EmptyString => false
  | String a rest =>
      byte_in 0 31 a || byte_in 127 127 a
      || (byte_in 194 194 a && match rest with String b _ => byte_in 128 159 b | EmptyString => false end)
      || has_control rest
  end.

(** * [str::trim]

    The characters with the Unicode property White_Space, by their encodings. *)
Definition white_space : list string :=
  (λ c, String (ascii_of_N c) "") <$> [9; 10; 11; 12; 13; 32]%N.
Definition bytes_of (l : list N) : string := foldr (λ n s, String (ascii_of_N n) s) "" l.
Definition wide_space : list string :=
  bytes_of <$> ([[194; 133]; [194; 160]; [225; 154; 128]; [226; 128; 168]; [226; 128; 169];
                 [226; 128; 175]; [226; 129; 159]; [227; 128; 128]]
                ++ ((λ n, [226; 128; n]) <$> [128; 129; 130; 131; 132; 133; 134; 135; 136; 137; 138]))%N.

(** The text after the first listed piece it starts with. *)
Fixpoint strip_any (pieces : list string) (s : string) : option string :=
  match pieces with
  | [] => None
  | p :: pieces => match strip_prefix p s with Some r => Some r | None => strip_any pieces s end
  end.

(** Every round removes at least one byte. *)
Fixpoint trim_loop (fuel : nat) (pieces : list string) (s : string) : string :=
  match fuel with
  | O => s
  | S fuel => match strip_any pieces s with Some r => trim_loop fuel pieces r | None => s end
  end.

Fixpoint str_rev (s acc : string) : string :=
  match s with EmptyString => acc | String c s => str_rev s (String c acc) end.

Definition trim_start (s : string) : string :=
  trim_loop (String.length s) (white_space ++ wide_space) s.
Definition trim_end (s : string) : string :=
  str_rev (trim_loop (String.length s) ((λ p, str_rev p "") <$> (white_space ++ wide_space)) (str_rev s "")) "".
Definition str_trim (s : string) : string := trim_end (trim_start s).

(** A valid string stays a prefix of its extensions. *)
Lemma utf8_app s t : utf8_valid s → utf8_valid (s +:+ t) = utf8_valid t.
Proof.
  remember (String.length s) as n eqn:Hn. revert s Hn.
  induction (lt_wf n) as [n _ IH]. intros s -> Hs.
  assert (∀ s', String.length s' < String.length s → utf8_valid s' → utf8_valid (s' +:+ t) = utf8_valid t)
    as IH' by eauto. clear IH.
  destruct s as [|a s]; [done|]. simpl in *. destruct (byte_in 0 127 a); [apply IH'; [lia|done]|].
  destruct s as [|b s]; [done|]. simpl in *.
  destruct (byte_in 194 223 a).
  { apply andb_True in Hs as [Hb Hs]. apply Is_true_true in Hb as ->. apply IH'; [lia|done]. }
  destruct s as [|c s]; [done|]. simpl in *.
  destruct (byte_in 224 239 a).
  { apply andb_True in Hs as [Hb Hs]. apply Is_true_true in Hb as ->. apply IH'; [lia|done]. }
  destruct s as [|d s]; [done|]. simpl in *.
  apply andb_True in Hs as [Hb Hs]. apply Is_true_true in Hb as ->. apply IH'; [lia|done].
Qed.

