(* ===== verification/Domain.v ===== *)
(** The shared domain values of [crates/heptabao-domain]: bounded identifiers,
    canonical paths, ticks and secret values.

    [Id], [CanonicalPath] and [SecretValue] are Rust newtypes with private
    fields, so every value in a running program has passed its constructor's
    checks.  Each is a record of the string and the evidence that the check
    accepts it; [parse] is the only way to build one.

    The reference view of a path is its list of segments ([segments]).  The
    lemmas below show that the byte-level operations of the source compute on
    segment lists: [matches_prefix] is the list prefix order, [relative_to] is
    list subtraction and [child] appends one segment. *)
From Stdlib Require Import Ascii NArith.
From S2P Require Import Prelude Str.

Definition MAX_ID_BYTES : nat := 64.
Definition MAX_PATH_BYTES : nat := 1024.
Definition MAX_SECRET_BYTES : N := 1024 * 1024.

Inductive DomainError : Type :=
| EmptyIdentifier
| IdentifierTooLong
| InvalidIdentifierCharacter
| InvalidIdentifierBoundary
| EmptyPath
| PathTooLong
| PathMustBeAbsolute
| InvalidPathSegment
| InvalidPathCharacter
| EmptySecret
| SecretTooLarge
| TickOverflow.

#[export] Instance DomainError_eq_dec : EqDecision DomainError.
Proof. solve_decision. Defined.

(** [u8::is_ascii_lowercase]. *)
Definition is_ascii_lowercase (a : ascii) : bool := byte_in 97 122 a.

(** The constructor of a newtype: run the check, keep the evidence. *)
Definition checked {T E} (r : Result unit E) (build : Is_true (is_ok r) → T) :
  Result T E :=
  match r as r' return (Is_true (is_ok r') → T) → Result T E with
  | Ok _ => λ k, Ok (k I)
  | Err e => λ _, Err e
  end build.

Lemma checked_Ok {T E} (r : Result unit E) (build : Is_true (is_ok r) → T) H :
  checked r build = Ok (build H).
Proof. destruct r as [[]|]; [|done]. simpl. by destruct H. Qed.

Lemma checked_inv {T E} (r : Result unit E) (build : Is_true (is_ok r) → T) t :
  checked r build = Ok t → ∃ H, t = build H.
Proof. destruct r as [[]|]; simpl; [|done]. intros [= <-]. eauto. Qed.

Lemma checked_Err {T E} (r : Result unit E) (build : Is_true (is_ok r) → T) e :
  checked r build = Err e ↔ r = Err e.
Proof. destruct r as [[]|]; simpl; split; congruence. Qed.

(** * Identifiers *)
Module Id.

Definition id_byte (a : ascii) : bool :=
  is_ascii_lowercase a || is_ascii_digit a
  || bool_decide (a = "-"%char) || bool_decide (a = "_"%char).

(** The checks of [Id::parse], in order. *)
Definition check (value : string) : Result unit DomainError :=
  if bool_decide (value = "") then Err EmptyIdentifier
  else if MAX_ID_BYTES <? String.length value then Err IdentifierTooLong
  else if starts_with "-" value || starts_with "_" value
          || ends_with "-" value || ends_with "_" value
       then Err InvalidIdentifierBoundary
  else if negb (str_all id_byte value) then Err InvalidIdentifierCharacter
  else Ok tt.

Record t := mk { as_str : string; valid : Is_true (is_ok (check as_str)) }.

Definition parse (value : string) : Result t DomainError :=
  checked (check value) (mk value).

End Id.
Notation Id := Id.t.

Lemma Id_ext (i j : Id) : Id.as_str i = Id.as_str j → i = j.
Proof. destruct i, j; simpl. intros ->. f_equal. apply proof_irrel. Qed.

Lemma Id_parse_Ok s i : Id.parse s = Ok i → Id.as_str i = s.
Proof. by intros [H ->]%checked_inv. Qed.

(** Parsing the text of an identifier gives the identifier back. *)
Lemma Id_parse_as_str i : Id.parse (Id.as_str i) = Ok i.
Proof. destruct i as [s H]. apply checked_Ok. Qed.

#[export] Instance Id_eq_dec : EqDecision Id.
Proof.
  intros i j. destruct (decide (Id.as_str i = Id.as_str j)) as [E|E].
  - left. by apply Id_ext.
  - right. congruence.
Defined.

#[export] Instance Id_countable : Countable Id.
Proof.
  apply (inj_countable Id.as_str
           (λ s, match Id.parse s with Ok i => Some i | Err _ => None end)).
  intros i. by rewrite Id_parse_as_str.
Defined.

#[export] Instance Id_rust_ord : RustOrd Id := λ i j, rust_le (Id.as_str i) (Id.as_str j).
#[export] Instance Id_rust_ord_laws : RustOrdLaws Id.
Proof.
  split; unfold rust_le, Id_rust_ord.
  - intros i j. apply _.
  - intros i j. apply total, _.
  - intros i j k. apply transitivity.
  - intros i j Hij Hji. apply Id_ext. by apply (anti_symm rust_le).
Defined.

(** * Canonical paths *)
Module CanonicalPath.

Definition segment_byte (a : ascii) : bool :=
  is_ascii_alphanumeric a
  || bool_decide (a = "-"%char) || bool_decide (a = "_"%char)
  || bool_decide (a = "."%char) || bool_decide (a = ":"%char).

(** The loop of [CanonicalPath::parse] over the segments. *)
Fixpoint check_segments (l : list string) : Result unit DomainError :=
  match l with
  | [] => Ok tt
  | segment :: l' =>
      if bool_decide (segment = "") || bool_decide (segment = ".")
         || bool_decide (segment = "..")
      then Err InvalidPathSegment
      else if negb (str_all segment_byte segment) then Err InvalidPathCharacter
      else check_segments l'
  end.

Definition check (value : string) : Result unit DomainError :=
  if bool_decide (value = "") then Err EmptyPath
  else if MAX_PATH_BYTES <? String.length value then Err PathTooLong
  else if negb (starts_with "/" value) then Err PathMustBeAbsolute
  else if bool_decide (value = "/") then Ok tt
  else if ends_with "/" value then Err InvalidPathSegment
  else check_segments (drop 1 (split "/" value)).

Record t := mk { as_str : string; valid : Is_true (is_ok (check as_str)) }.

Definition parse (value : string) : Result t DomainError :=
  checked (check value) (mk value).

Definition root : t := mk "/" I.

Definition child (self : t) (c : Id) : Result t DomainError :=
  let value := if bool_decide (as_str self = "/") then "/" +:+ Id.as_str c
               else as_str self +:+ "/" +:+ Id.as_str c in
  parse value.

Definition matches_prefix (self prefix : t) : bool :=
  if bool_decide (as_str prefix = "/") then true
  else bool_decide (as_str self = as_str prefix)
       || match strip_prefix (as_str prefix) (as_str self) with
          | Some suffix => starts_with "/" suffix
          | None => false
          end.

Definition relative_to (self prefix : t) : option string :=
  if bool_decide (as_str self = as_str prefix) then Some ""
  else if bool_decide (as_str prefix = "/") then strip_prefix "/" (as_str self)
  else match strip_prefix (as_str prefix) (as_str self) with
       | Some suffix => strip_prefix "/" suffix
       | None => None
       end.

End CanonicalPath.
Notation CanonicalPath := CanonicalPath.t.
Notation path_str := CanonicalPath.as_str.

(** * Ticks: a [u64] newtype *)
Module Tick.
Definition checked_add (self delta : N) : Result N DomainError :=
  ok_or (Prelude.checked_add self delta) TickOverflow.
End Tick.
Notation Tick := N.

(** * Secret values: bounded non-empty byte strings *)
Module SecretValue.

Definition check (bytes : string) : Result unit DomainError :=
  if bool_decide (bytes = "") then Err EmptySecret
  else if (MAX_SECRET_BYTES <? N.of_nat (String.length bytes))%N then Err SecretTooLarge
  else Ok tt.

Record t := mk { expose : string; valid : Is_true (is_ok (check expose)) }.

Definition new (bytes : string) : Result t DomainError :=
  checked (check bytes) (mk bytes).

End SecretValue.
Notation SecretValue := SecretValue.t.

(** * Specification of [heptabao-domain]: what the byte-level checks accept and
    what the path operations compute, on the reference view of a path as its
    list of segments. *)

Lemma path_ext (p q : CanonicalPath) : path_str p = path_str q → p = q.
Proof. destruct p, q; simpl. intros ->. f_equal. apply proof_irrel. Qed.

Lemma path_parse_Ok s p : CanonicalPath.parse s = Ok p → path_str p = s.
Proof. by intros [H ->]%checked_inv. Qed.

Lemma path_parse_as_str p : CanonicalPath.parse (path_str p) = Ok p.
Proof. destruct p. apply checked_Ok. Qed.

#[export] Instance CanonicalPath_eq_dec : EqDecision CanonicalPath.
Proof.
  intros p q. destruct (decide (path_str p = path_str q)) as [E|E].
  - left. by apply path_ext.
  - right. congruence.
Defined.

#[export] Instance CanonicalPath_countable : Countable CanonicalPath.
Proof.
  apply (inj_countable path_str
           (λ s, match CanonicalPath.parse s with Ok i => Some i | Err _ => None end)).
  intros i. by rewrite path_parse_as_str.
Defined.

#[export] Instance CanonicalPath_rust_ord : RustOrd CanonicalPath :=
  λ p q, rust_le (path_str p) (path_str q).
#[export] Instance CanonicalPath_rust_ord_laws : RustOrdLaws CanonicalPath.
Proof.
  split; unfold rust_le, CanonicalPath_rust_ord.
  - intros i j. apply _.
  - intros i j. apply total, _.
  - intros i j k. apply transitivity.
  - intros i j Hij Hji. apply path_ext. by apply (anti_symm rust_le).
Defined.

Lemma SecretValue_ext (v w : SecretValue) :
  SecretValue.expose v = SecretValue.expose w → v = w.
Proof. destruct v, w; simpl. intros ->. f_equal. apply proof_irrel. Qed.

#[export] Instance SecretValue_eq_dec : EqDecision SecretValue.
Proof.
  intros p q. destruct (decide (SecretValue.expose p = SecretValue.expose q)) as [E|E].
  - left. by apply SecretValue_ext.
  - right. congruence.
Defined.

(** Re-wrapping exposed bytes never fails. *)
Lemma SecretValue_new_expose v : SecretValue.new (SecretValue.expose v) = Ok v.
Proof. destruct v. apply checked_Ok. Qed.

(** * The reference grammar *)
Definition valid_segment (s : string) : bool :=
  negb (bool_decide (s = "") || bool_decide (s = ".") || bool_decide (s = ".."))
  && str_all CanonicalPath.segment_byte s.

(** ["/a/b"] for [["a"; "b"]], ["/"] for [[]]. *)
Definition render (segs : list string) : string := String "/" (join "/" segs).

Definition segments_of (s : string) : list string :=
  if bool_decide (s = "/") then [] else drop 1 (split "/" s).

Definition segments (p : CanonicalPath) : list string := segments_of (path_str p).

Lemma segment_byte_not_slash a :
  CanonicalPath.segment_byte a → negb (bool_decide (a = "/"%char)).
Proof.
  intros H. rewrite negb_True, bool_decide_spec. intros ->. by vm_compute in H.
Qed.

Lemma valid_segment_lacks s : valid_segment s → lacks "/" s.
Proof.
  unfold valid_segment. rewrite andb_True. intros [_ H].
  eapply str_all_impl; [|done]. intros a. apply segment_byte_not_slash.
Qed.

Lemma valid_segments_lack segs :
  Forall valid_segment segs → Forall (λ s, lacks "/" s) segs.
Proof. intros H. eapply Forall_impl; [done|]. apply valid_segment_lacks. Qed.

Lemma valid_segment_nonempty s : valid_segment s → s ≠ "".
Proof. intros H ->. done. Qed.

Lemma check_segments_Ok l :
  CanonicalPath.check_segments l = Ok tt ↔ Forall valid_segment l.
Proof.
  induction l as [|s l IH]; simpl; [split; [constructor|done]|].
  rewrite Forall_cons, <- IH. unfold valid_segment.
  destruct (_ || _ || bool_decide (s = "..")); simpl; [naive_solver|].
  destruct (str_all CanonicalPath.segment_byte s); simpl; naive_solver.
Qed.

Lemma join_valid_nonempty segs :
  segs ≠ [] → Forall valid_segment segs → join "/" segs ≠ "".
Proof.
  destruct segs as [|s [|s' segs]]; [done| |];
    intros _ [Hs _]%Forall_cons; apply valid_segment_nonempty in Hs.
  - done.
  - simpl. by destruct s.
Qed.

Lemma render_not_root segs :
  segs ≠ [] → Forall valid_segment segs → render segs ≠ "/".
Proof. intros H1 H2. unfold render. intros [= E]. by eapply join_valid_nonempty. Qed.

Lemma segments_of_render segs :
  Forall valid_segment segs → segments_of (render segs) = segs.
Proof.
  intros Hv. unfold segments_of. destruct (decide (segs = [])) as [->|Hne]; [done|].
  rewrite bool_decide_eq_false_2 by by apply render_not_root.
  unfold render. change (String "/" (join "/" segs)) with ("" +:+ String "/" (join "/" segs)).
  rewrite split_app, split_join by auto using valid_segments_lack. done.
Qed.

Lemma split_last_empty c r : ∃ l, split c (r +:+ String c "") = l ++ [""].
Proof. exists (split c r). by rewrite split_app. Qed.

(** What [CanonicalPath::check] accepts: exactly the renderings of lists of
    valid segments within the length bound. *)
Lemma path_check_Ok s :
  CanonicalPath.check s = Ok tt ↔
  ∃ segs, s = render segs ∧ Forall valid_segment segs ∧ String.length s ≤ MAX_PATH_BYTES.
Proof.
  unfold CanonicalPath.check. case_bool_decide as E0.
  { subst. split; [done|]. by intros (segs & ? & _). }
  destruct (Nat.ltb_spec MAX_PATH_BYTES (String.length s)) as [Hl|Hl].
  { split; [done|]. intros (segs & _ & _ & ?). lia. }
  destruct (starts_with "/" s) eqn:Es; cycle 1.
  { split; [done|]. intros (segs & -> & _). done. }
  apply Is_true_true, starts_with_true in Es as (r & ->). simpl negb. cbn iota.
  case_bool_decide as E1.
  { split; [|done]. intros _. exists []. split; [done|]. by split. }
  destruct (ends_with "/" (String "/" r)) eqn:Ee.
  { split; [done|]. intros (segs & E & Hv & _). exfalso.
    apply Is_true_true, ends_with_true in Ee as (q & Ee). rewrite E in Ee.
    pose proof (segments_of_render segs Hv) as Hseg. unfold segments_of in Hseg.
    rewrite <- E, bool_decide_eq_false_2, E, Ee, split_app in Hseg by done.
    destruct (split "/" q) as [|x l] eqn:Eq; [by apply split_nonempty in Eq|].
    simpl in Hseg. rewrite drop_0 in Hseg. subst segs.
    apply Forall_app in Hv as [_ [Hv _]%Forall_cons]. done. }
  change (String "/" r) with ("" +:+ String "/" r). rewrite split_app. simpl drop.
  rewrite check_segments_Ok, drop_0. split.
  - intros Hv. exists (split "/" r). split; [|done]. unfold render.
    by rewrite join_split.
  - intros (segs & E & Hv & _). injection E as ->.
    rewrite split_join; [done| |by apply valid_segments_lack].
    intros ->. done.
Qed.

(** * Paths and segment lists are in bijection *)
Lemma path_render p :
  path_str p = render (segments p) ∧ Forall valid_segment (segments p)
  ∧ String.length (path_str p) ≤ MAX_PATH_BYTES.
Proof.
  destruct p as [s H]. unfold segments. simpl.
  destruct (CanonicalPath.check s) as [[]|] eqn:E; [|done].
  apply path_check_Ok in E as (segs & -> & Hv & Hl).
  by rewrite segments_of_render.
Qed.

Lemma path_str_segments p : path_str p = render (segments p).
Proof. apply path_render. Qed.

Lemma segments_valid p : Forall valid_segment (segments p).
Proof. apply path_render. Qed.

Lemma segments_inj p q : segments p = segments q → p = q.
Proof. intros E. apply path_ext. by rewrite !path_str_segments, E. Qed.

Lemma segments_root : segments CanonicalPath.root = [].
Proof. done. Qed.

Lemma path_is_root p : path_str p = "/" ↔ segments p = [].
Proof.
  split.
  - intros E. unfold segments. by rewrite E.
  - intros E. by rewrite path_str_segments, E.
Qed.

(** Parsing a rendering succeeds exactly when it fits the length bound. *)
Lemma path_parse_render segs :
  Forall valid_segment segs →
  (String.length (render segs) ≤ MAX_PATH_BYTES ∧
   ∃ p, CanonicalPath.parse (render segs) = Ok p ∧ segments p = segs) ∨
  (MAX_PATH_BYTES < String.length (render segs) ∧
   CanonicalPath.parse (render segs) = Err PathTooLong).
Proof.
  intros Hv. destruct (Nat.le_gt_cases (String.length (render segs)) MAX_PATH_BYTES).
  - left. split; [done|].
    assert (CanonicalPath.check (render segs) = Ok tt) as E
      by (apply path_check_Ok; eauto).
    assert (Is_true (is_ok (CanonicalPath.check (render segs)))) as H' by by rewrite E.
    exists (CanonicalPath.mk _ H'). split; [apply checked_Ok|].
    unfold segments. simpl. by apply segments_of_render.
  - right. split; [done|]. apply checked_Err. unfold CanonicalPath.check.
    rewrite bool_decide_eq_false_2 by done. by rewrite (proj2 (Nat.ltb_lt _ _)) by lia.
Qed.

(** An identifier is a valid path segment. *)
Lemma id_valid_segment (i : Id) : valid_segment (Id.as_str i).
Proof.
  destruct i as [s H]. simpl. unfold Id.check in H.
  case_bool_decide; [done|]. case_match; [done|]. case_match; [done|].
  destruct (str_all Id.id_byte s) eqn:E; [|done]. clear H H1 H2.
  assert (∀ a, Id.id_byte a → CanonicalPath.segment_byte a ∧ a ≠ "."%char) as Hb.
  { intros a Ha. split; [|by intros ->].
    revert Ha. unfold Id.id_byte, CanonicalPath.segment_byte, is_ascii_alphanumeric.
    repeat rewrite orb_True. tauto. }
  unfold valid_segment. apply Is_true_true in E. rewrite andb_True. split.
  - rewrite negb_True, !orb_True, !bool_decide_spec.
    intros [[->| ->]| ->]; by vm_compute in E.
  - eapply str_all_impl; [|done]. naive_solver.
Qed.

Lemma render_app segs1 segs2 :
  segs2 ≠ [] →
  render (segs1 ++ segs2) =
  (if bool_decide (segs1 = []) then "" else render segs1) +:+ String "/" (join "/" segs2).
Proof.
  intros H. case_bool_decide as E; subst; [done|].
  unfold render. rewrite join_app by done. done.
Qed.

(** * [matches_prefix] is the prefix order on segments *)
Lemma strip_segments p q :
  segments q ≠ [] →
  (∃ rest, path_str p = path_str q +:+ String "/" rest) ↔
  ∃ k, k ≠ [] ∧ segments p = segments q ++ k.
Proof.
  intros Hq. rewrite !path_str_segments. split.
  - intros (rest & E). exists (split "/" rest). split; [apply split_nonempty|].
    unfold render in E. rewrite str_app_cons in E. injection E as E.
    assert (segments p ≠ []) as Hp.
    { intros Hp. rewrite Hp in E. simpl in E.
      destruct (join "/" (segments q)); discriminate E. }
    rewrite <- (split_join "/" (segments p)) by eauto using valid_segments_lack, segments_valid.
    by rewrite E, split_app, split_join by eauto using valid_segments_lack, segments_valid.
  - intros (k & Hk & ->). exists (join "/" k). rewrite render_app by done.
    by rewrite bool_decide_eq_false_2.
Qed.

Lemma matches_prefix_segments p q :
  CanonicalPath.matches_prefix p q ↔ segments q `prefix_of` segments p.
Proof.
  unfold CanonicalPath.matches_prefix. case_bool_decide as Hr.
  { apply path_is_root in Hr as ->. split; [|done]. intros _. apply prefix_nil. }
  rewrite path_is_root in Hr. rewrite orb_True, bool_decide_spec. split.
  - intros [E|E].
    + apply path_ext in E as ->. done.
    + destruct (strip_prefix _ _) eqn:Es; [|done].
      apply strip_prefix_Some in Es. apply starts_with_true in E as (rest & ->).
      destruct (proj1 (strip_segments p q Hr)) as (k & _ & ->); [by eexists|].
      by apply prefix_app_r.
  - intros (k & E). destruct (decide (k = [])) as [->|Hk].
    + left. rewrite app_nil_r in E. f_equal. by apply segments_inj.
    + right. destruct (proj2 (strip_segments p q Hr)) as (rest & ->); [by exists k|].
      by rewrite strip_prefix_app.
Qed.

(** * [relative_to] subtracts the prefix *)
Lemma relative_to_segments p q r :
  CanonicalPath.relative_to p q = Some r ↔
  ∃ k, segments p = segments q ++ k ∧ r = join "/" k.
Proof.
  unfold CanonicalPath.relative_to. case_bool_decide as E.
  { apply path_ext in E as ->. split.
    - intros [= <-]. exists []. by rewrite app_nil_r.
    - intros (k & E & ->). rewrite <- (app_nil_r (segments q)) in E at 1.
      apply app_inv_head in E as <-. done. }
  case_bool_decide as Hr.
  { apply path_is_root in Hr. rewrite strip_prefix_Some, path_str_segments, Hr. simpl.
    unfold render. rewrite str_app_cons. change ("" +:+ r) with r. naive_solver. }
  rewrite path_is_root in Hr.
  assert (segments p ≠ segments q) as Hne by (intros ?%segments_inj; congruence).
  transitivity (path_str p = path_str q +:+ String "/" r).
  - destruct (strip_prefix (path_str q) _) as [s|] eqn:Es.
    + apply strip_prefix_Some in Es. rewrite strip_prefix_Some, Es. simpl.
      rewrite str_app_cons. change ("" +:+ r) with r. split; [by intros ->|].
      apply str_app_inj_l.
    + split; [done|]. intros E'. by rewrite E', strip_prefix_app in Es.
  - split.
    + intros E'. destruct (proj1 (strip_segments p q Hr)) as (k & Hk & Hs); [by eexists|].
      exists k. split; [done|]. rewrite !path_str_segments, Hs, render_app in E' by done.
      rewrite bool_decide_eq_false_2 in E' by done.
      apply str_app_inj_l in E'. by injection E'.
    + intros (k & Hs & ->). rewrite !path_str_segments, Hs.
      rewrite render_app, bool_decide_eq_false_2; [done..|].
      intros ->. by rewrite app_nil_r in Hs.
Qed.

(** * [child] appends one segment *)
Lemma child_render p (i : Id) :
  CanonicalPath.child p i = CanonicalPath.parse (render (segments p ++ [Id.as_str i])).
Proof.
  unfold CanonicalPath.child. f_equal. rewrite render_app by done.
  destruct (decide (segments p = [])) as [E|E].
  - rewrite !bool_decide_eq_true_2; [done..|]. by apply path_is_root.
  - rewrite !bool_decide_eq_false_2; [|done|by rewrite path_is_root].
    by rewrite path_str_segments.
Qed.

Lemma child_Ok p i p' :
  CanonicalPath.child p i = Ok p' → segments p' = segments p ++ [Id.as_str i].
Proof.
  rewrite child_render. intros H.
  destruct (path_parse_render (segments p ++ [Id.as_str i])) as [(_ & q & Hq & ?)|[_ Hq]];
    [|congruence..].
  apply Forall_app; split; [apply segments_valid|].
  constructor; [apply id_valid_segment|done].
Qed.

(** * Longest-prefix selection

    Two prefixes of one path are ordered by their byte length exactly as by
    their segments, so selecting the longest text selects the deepest prefix. *)
Lemma join_length_pos k :
  k ≠ [] → Forall valid_segment k → 0 < String.length (join "/" k).
Proof.
  intros H1 H2. pose proof (join_valid_nonempty k H1 H2).
  destruct (join "/" k); [done|]. simpl. lia.
Qed.

Lemma path_length_strict p q k :
  segments q = segments p ++ k → k ≠ [] →
  String.length (path_str p) < String.length (path_str q).
Proof.
  intros E Hk. pose proof (segments_valid q) as Hv. rewrite E, Forall_app in Hv.
  destruct Hv as [_ Hv]. rewrite !path_str_segments, E, render_app by done.
  rewrite str_length_app. pose proof (join_length_pos k Hk Hv).
  case_bool_decide as Hp; [rewrite Hp|]; cbn [String.length render join]; lia.
Qed.

Lemma path_length_prefix p q path :
  segments p `prefix_of` segments path → segments q `prefix_of` segments path →
  String.length (path_str p) ≤ String.length (path_str q) →
  segments p `prefix_of` segments q.
Proof.
  intros Hp Hq Hle. destruct (prefix_weak_total _ _ _ Hp Hq) as [?|[k E]]; [done|].
  destruct (decide (k = [])) as [->|Hk].
  - exists []. by rewrite app_nil_r in *.
  - pose proof (path_length_strict q p k E Hk). lia.
Qed.

(** [values().filter(f).max_by_key(|v| path(v).len())] over candidates whose
    paths are prefixes of one path picks the deepest of them. *)
Section longest.
Context {V : Type} (path_of : V → CanonicalPath) (f : V → bool) (path : CanonicalPath).
Context (Hf : ∀ v, f v → segments (path_of v) `prefix_of` segments path).

Definition longest_match (m : gmap Id V) : option V :=
  max_by_key (λ v, String.length (path_str (path_of v)))
    (filter (λ v, Is_true (f v)) (btree_values m)).

Lemma longest_match_Some m v :
  longest_match m = Some v →
  (∃ k, m !! k = Some v) ∧ f v ∧
  ∀ k w, m !! k = Some w → f w → segments (path_of w) `prefix_of` segments (path_of v).
Proof.
  intros [Hin Hmax]%max_by_key_Some.
  apply list_elem_of_filter in Hin as [Hv (k & Hk)%elem_of_btree_values].
  split; [eauto|]. split; [done|]. intros k' w Hw Hfw.
  apply (path_length_prefix _ _ path); [by apply Hf..|].
  apply Hmax, list_elem_of_filter. split; [done|]. apply elem_of_btree_values. eauto.
Qed.

Lemma longest_match_None m :
  longest_match m = None ↔ ∀ k w, m !! k = Some w → ¬ f w.
Proof using Type.
  clear Hf path. unfold longest_match. rewrite max_by_key_None. split.
  - intros E k w Hw Hfw. apply (not_elem_of_nil w). rewrite <- E.
    apply list_elem_of_filter. split; [done|]. apply elem_of_btree_values. eauto.
  - intros H. destruct (filter _ _) as [|w l] eqn:E; [done|].
    assert (w ∈ w :: l) as Hin by set_solver. rewrite <- E in Hin.
    apply list_elem_of_filter in Hin as [Hfw (k & Hk)%elem_of_btree_values]. naive_solver.
Qed.
End longest.

(** ** Properties *)

(** [CanonicalPath::parse] accepts exactly the reference grammar: a byte
    string is accepted, as a path with segments [segs], if and only if it is the
    rendering of [segs], every segment is non-empty, is neither [.] nor [..] and
    uses only the permitted bytes, and the whole string fits [MAX_PATH_BYTES]. *)
Theorem canonical_path_grammar (s : string) (segs : list string) :
  (∃ p, CanonicalPath.parse s = Ok p ∧ segments p = segs) ↔
  s = render segs ∧ Forall valid_segment segs ∧ String.length s ≤ MAX_PATH_BYTES.
Proof.
  split.
  - intros (p & H & <-). apply path_parse_Ok in H as <-. apply path_render.
  - intros (-> & Hv & Hl).
    destruct (path_parse_render segs Hv) as [(_ & ?)|[? _]]; [done|lia].
Qed.

(** On paths, prefix matching and relativisation respect segment
    boundaries: [matches_prefix p q] holds exactly when the segments of [q] are
    a list prefix of those of [p] (so [/secret/app] never matches
    [/secret/application]), and [relative_to p q] is defined exactly then, with
    the remaining segments joined by [/] as its value. *)
Theorem path_prefix_spec (p q : CanonicalPath) :
  (CanonicalPath.matches_prefix p q ↔ segments q `prefix_of` segments p) ∧
  (∀ r, CanonicalPath.relative_to p q = Some r ↔
        ∃ k, segments p = segments q ++ k ∧ r = join "/" k).
Proof. split; [apply matches_prefix_segments|]. intros r. apply relative_to_segments. Qed.
