(* ===== verification/Policy.v ===== *)
(** [crates/heptabao-policy]: default-deny path policies.

    A [PolicyStore] maps policy identifiers to rule lists; [authorize] grants a
    capability on a path when some assigned policy has a rule whose prefix
    covers the path and whose capability set holds the capability or [Sudo]. *)
From S2P Require Import Prelude Str Domain.

Inductive Capability : Type := Create | Read | Update | Delete | List | Sudo.

#[export] Instance Capability_eq_dec : EqDecision Capability.
Proof. solve_decision. Defined.

#[export] Instance Capability_countable : Countable Capability.
Proof.
  apply (inj_countable'
    (λ c, match c with Create => 0 | Read => 1 | Update => 2 | Delete => 3 | List => 4 | Sudo => 5 end)
    (λ n, match n with 0 => Create | 1 => Read | 2 => Update | 3 => Delete | 4 => List | _ => Sudo end)).
  by intros [].
Defined.

Inductive PolicyError : Type :=
| EmptyCapabilities | EmptyRules | DuplicatePolicy | MissingPolicy.

Module PolicyRule.

Record t := mk { path_prefix : CanonicalPath; capabilities : gset Capability }.

Definition new (path_prefix : CanonicalPath) (capabilities : gset Capability) :
  Result t PolicyError :=
  if bool_decide (capabilities = ∅) then Err EmptyCapabilities
  else Ok (mk path_prefix capabilities).

Definition permits (self : t) (capability : Capability) (path : CanonicalPath) : bool :=
  CanonicalPath.matches_prefix path (path_prefix self)
  && (bool_decide (capability ∈ capabilities self)
      || bool_decide (Sudo ∈ capabilities self)).

End PolicyRule.
Notation PolicyRule := PolicyRule.t.

Module Policy.

Record t := mk { id : Id; rules : list PolicyRule }.

Definition new (id : Id) (rules : list PolicyRule) : Result t PolicyError :=
  if bool_decide (length rules = 0) then Err EmptyRules else Ok (mk id rules).

End Policy.
Notation Policy := Policy.t.

Module PolicyStore.

Record t := mk { policies : gmap Id Policy }.

Definition default : t := mk ∅.

Definition insert (policy : Policy) : M t PolicyError unit := λ self,
  match policies self !! Policy.id policy with
  | Some _ => (self, Err DuplicatePolicy)
  | None => (mk (<[Policy.id policy := policy]> (policies self)), Ok tt)
  end.

Definition remove (id : Id) : M t PolicyError Policy := λ self,
  match policies self !! id with
  | Some p => (mk (delete id (policies self)), Ok p)
  | None => (self, Err MissingPolicy)
  end.

Definition get (self : t) (id : Id) : Result Policy PolicyError :=
  ok_or (policies self !! id) MissingPolicy.

Definition authorize (self : t) (policy_ids : gset Id) (capability : Capability)
    (path : CanonicalPath) : bool :=
  existsb (λ id, match policies self !! id with
                 | Some policy =>
                     existsb (λ rule, PolicyRule.permits rule capability path)
                             (Policy.rules policy)
                 | None => false
                 end) (btree_elems policy_ids).

End PolicyStore.
Notation PolicyStore := PolicyStore.t.

(** * The abstract access relation *)

(** Rule [r] grants capability [c] at [path]. *)
Definition rule_grants (r : PolicyRule) (c : Capability) (path : CanonicalPath) : Prop :=
  segments (PolicyRule.path_prefix r) `prefix_of` segments path
  ∧ (c ∈ PolicyRule.capabilities r ∨ Sudo ∈ PolicyRule.capabilities r).

(** Some assigned, stored policy has a granting rule. *)
Definition grants (s : PolicyStore) (ids : gset Id) (c : Capability) (path : CanonicalPath) : Prop :=
  ∃ i p r, i ∈ ids ∧ PolicyStore.policies s !! i = Some p
           ∧ r ∈ Policy.rules p ∧ rule_grants r c path.

Lemma existsb_True {A} (f : A → bool) l : existsb f l ↔ ∃ x, x ∈ l ∧ f x.
Proof.
  rewrite Is_true_true, existsb_exists.
  setoid_rewrite list_elem_of_In. by setoid_rewrite Is_true_true.
Qed.

Lemma permits_spec r c path : PolicyRule.permits r c path ↔ rule_grants r c path.
Proof.
  unfold PolicyRule.permits, rule_grants.
  by rewrite andb_True, orb_True, !bool_decide_spec, matches_prefix_segments.
Qed.

Lemma authorize_grants s ids c path :
  PolicyStore.authorize s ids c path ↔ grants s ids c path.
Proof.
  unfold PolicyStore.authorize, grants. rewrite existsb_True.
  setoid_rewrite elem_of_btree_elems. split.
  - intros (i & Hi & H). destruct (PolicyStore.policies s !! i) as [p|] eqn:E; [|done].
    apply existsb_True in H as (r & Hr & H%permits_spec). naive_solver.
  - intros (i & p & r & Hi & E & Hr & H%permits_spec). exists i. split; [done|].
    rewrite E. apply existsb_True. eauto.
Qed.

Lemma grants_mono s ids ids' c path :
  ids ⊆ ids' → grants s ids c path → grants s ids' c path.
Proof. intros Hsub (i & p & r & Hi & H). exists i, p, r. set_solver. Qed.

Lemma grants_empty s c path : ¬ grants s ∅ c path.
Proof. intros (i & p & r & Hi & _). set_solver. Qed.

Lemma grants_descendant s ids c p q :
  segments p `prefix_of` segments q → grants s ids c p → grants s ids c q.
Proof.
  intros Hpq (i & pol & r & Hi & E & Hr & Hpre & Hc). exists i, pol, r.
  do 3 (split; [done|]). split; [|done]. by etrans.
Qed.

(** Two policy stores with the same contents decide alike. *)
Lemma grants_lookup s s' ids c path :
  (∀ i, i ∈ ids → PolicyStore.policies s !! i = PolicyStore.policies s' !! i) →
  grants s ids c path → grants s' ids c path.
Proof. intros Heq (i & p & r & Hi & E & H). exists i, p, r. rewrite <- Heq by done. done. Qed.

(** ** Properties *)

(** [authorize] decides the abstract access relation: it returns [true]
    exactly when some assigned policy that is in the store has a rule whose
    path prefix is a segment prefix of the path and whose capability set holds
    the capability or [Sudo].  Hence it is default-deny (no assigned policies,
    no access), ignores assigned identifiers that are not in the store, is
    monotone in the assigned set, and extends to every descendant path. *)
Theorem authorize_spec (s : PolicyStore) (ids : gset Id) (c : Capability) (path : CanonicalPath) :
  (PolicyStore.authorize s ids c path ↔ grants s ids c path)
  ∧ PolicyStore.authorize s ∅ c path = false
  ∧ (∀ ids', ids ⊆ ids' →
       PolicyStore.authorize s ids c path → PolicyStore.authorize s ids' c path)
  ∧ (∀ below, segments path `prefix_of` segments below →
       PolicyStore.authorize s ids c path → PolicyStore.authorize s ids c below).
Proof.
  split; [apply authorize_grants|]. split; [done|].
  setoid_rewrite authorize_grants. split.
  - intros ids' ?. by apply grants_mono.
  - intros below ?. by apply grants_descendant.
Qed.

(** Removing a policy revokes exactly what only that policy granted: after
    [remove id] succeeds, access is granted if and only if it was granted by
    the assigned policies other than [id]. *)
Theorem policy_remove_revokes (s s' : PolicyStore) (id : Id) (p : Policy) :
  PolicyStore.remove id s = (s', Ok p) →
  ∀ ids c path,
    PolicyStore.authorize s' ids c path ↔ PolicyStore.authorize s (ids ∖ {[id]}) c path.
Proof.
  unfold PolicyStore.remove. intros H ids c path. rewrite !authorize_grants.
  destruct (_ !! id) eqn:E; simplify_eq/=. split.
  - intros (i & q & r & Hi & Hl & H). simpl in Hl.
    apply lookup_delete_Some in Hl as [Hne Hl]. exists i, q, r. set_solver.
  - intros (i & q & r & [Hi Hne]%elem_of_difference & Hl & H). exists i, q, r.
    split; [done|]. split; [|done]. simpl. rewrite lookup_delete_ne; [done|set_solver].
Qed.

Lemma policy_remove_revokes_witness :
  let pol := Policy.mk (Id.mk "rw" I) [PolicyRule.mk CanonicalPath.root {[Read]}] in
  ∀ ids c path,
    PolicyStore.authorize (PolicyStore.mk (delete (Id.mk "rw" I) {[Id.mk "rw" I := pol]})) ids c path ↔
    PolicyStore.authorize (PolicyStore.mk {[Id.mk "rw" I := pol]}) (ids ∖ {[Id.mk "rw" I]}) c path.
Proof.
  intros pol. apply (policy_remove_revokes _ _ (Id.mk "rw" I) pol). reflexivity.
Defined.
