(* ===== verification/Token.v ===== *)
(** [crates/heptabao-token]: the opaque-token lifecycle.

    [TokenStore] is the state; [issue], [renew], [revoke] and [revoke_entity]
    are its mutating calls and [validate] the check every request starts with.
    [TokenOp] and [token_exec] make the API a state machine, so that lifecycle
    theorems range over arbitrary sequences of calls. *)
From Stdlib Require Import NArith.
From S2P Require Import Prelude Str Domain.

(** [struct TokenId(Id)]: a newtype without checks of its own. *)
Notation TokenId := Id.

Inductive TokenError : Type :=
| InvalidTtl | DuplicateToken | MissingToken | Revoked | Expired | NotRenewable.

#[export] Instance TokenError_eq_dec : EqDecision TokenError.
Proof. solve_decision. Defined.

Module TokenView.
Record t := mk {
  entity_id : Id;
  policy_ids : gset Id;
  issued_at : Tick;
  expires_at : Tick;
  renewable : bool;
  generation : N;
}.
End TokenView.
Notation TokenView := TokenView.t.

Module TokenRecord.
Record t := mk {
  entity_id : Id;
  policy_ids : gset Id;
  issued_at : Tick;
  expires_at : Tick;
  renewable : bool;
  revoked_at : option Tick;
  generation : N;
}.

Definition view (self : t) : TokenView :=
  TokenView.mk (entity_id self) (policy_ids self) (issued_at self) (expires_at self)
    (renewable self) (generation self).

(** [record.revoked_at = Some(now); record.generation += 1 (saturating)]. *)
Definition set_revoked (now : Tick) (self : t) : t :=
  mk (entity_id self) (policy_ids self) (issued_at self) (expires_at self)
    (renewable self) (Some now) (saturating_add (generation self) 1).

(** [record.expires_at = e; record.generation += 1 (saturating)]. *)
Definition set_expires (e : Tick) (self : t) : t :=
  mk (entity_id self) (policy_ids self) (issued_at self) e
    (renewable self) (revoked_at self) (saturating_add (generation self) 1).
End TokenRecord.
Notation TokenRecord := TokenRecord.t.

Module TokenStore.

Record t := mk { tokens : gmap TokenId TokenRecord }.

Definition default : t := mk ∅.

Definition issue (token_id : TokenId) (entity_id : Id) (policy_ids : gset Id)
    (issued_at : Tick) (ttl : N) (renewable : bool) : M t TokenError TokenView := λ self,
  if (ttl =? 0)%N then (self, Err InvalidTtl)
  else match tokens self !! token_id with
  | Some _ => (self, Err DuplicateToken)
  | None =>
      match Tick.checked_add issued_at ttl with
      | Err _ => (self, Err InvalidTtl)
      | Ok expires_at =>
          let record := TokenRecord.mk entity_id policy_ids issued_at expires_at
                          renewable None 1 in
          (mk (<[token_id := record]> (tokens self)), Ok (TokenRecord.view record))
      end
  end.

Definition validate (self : t) (token_id : TokenId) (now : Tick) : Result TokenView TokenError :=
  let? record := ok_or (tokens self !! token_id) MissingToken in
  if bool_decide (is_Some (TokenRecord.revoked_at record)) then Err Revoked
  else if (TokenRecord.expires_at record <=? now)%N then Err Expired
  else Ok (TokenRecord.view record).

Definition renew (token_id : TokenId) (now : Tick) (ttl : N) : M t TokenError TokenView := λ self,
  if (ttl =? 0)%N then (self, Err InvalidTtl)
  else match tokens self !! token_id with
  | None => (self, Err MissingToken)
  | Some record =>
      if bool_decide (is_Some (TokenRecord.revoked_at record)) then (self, Err Revoked)
      else if (TokenRecord.expires_at record <=? now)%N then (self, Err Expired)
      else if negb (TokenRecord.renewable record) then (self, Err NotRenewable)
      else match Tick.checked_add now ttl with
           | Err _ => (self, Err InvalidTtl)
           | Ok e =>
               let record' := TokenRecord.set_expires e record in
               (mk (<[token_id := record']> (tokens self)), Ok (TokenRecord.view record'))
           end
  end.

Definition revoke (token_id : TokenId) (now : Tick) : M t TokenError unit := λ self,
  match tokens self !! token_id with
  | None => (self, Err MissingToken)
  | Some record =>
      if bool_decide (is_Some (TokenRecord.revoked_at record)) then (self, Err Revoked)
      else (mk (<[token_id := TokenRecord.set_revoked now record]> (tokens self)), Ok tt)
  end.

(** The loop condition of [revoke_entity]. *)
Definition revocable (entity_id : Id) (record : TokenRecord) : bool :=
  bool_decide (TokenRecord.entity_id record = entity_id)
  && bool_decide (TokenRecord.revoked_at record = None).

Definition revoke_entity (entity_id : Id) (now : Tick) (self : t) : t * nat :=
  (mk ((λ r, if revocable entity_id r then TokenRecord.set_revoked now r else r) <$> tokens self),
   count_if (revocable entity_id) (tokens self)).

End TokenStore.
Notation TokenStore := TokenStore.t.

(** * The API as a state machine *)
Inductive TokenOp : Type :=
| OpIssue (token_id : TokenId) (entity_id : Id) (policy_ids : gset Id)
    (issued_at : Tick) (ttl : N) (renewable : bool)
| OpRenew (token_id : TokenId) (now : Tick) (ttl : N)
| OpRevoke (token_id : TokenId) (now : Tick)
| OpRevokeEntity (entity_id : Id) (now : Tick).

Definition token_exec (o : TokenOp) (s : TokenStore) : TokenStore :=
  match o with
  | OpIssue t e p i ttl r => (TokenStore.issue t e p i ttl r s).1
  | OpRenew t now ttl => (TokenStore.renew t now ttl s).1
  | OpRevoke t now => (TokenStore.revoke t now s).1
  | OpRevokeEntity e now => (TokenStore.revoke_entity e now s).1
  end.

(** The clock reading a call was made with. *)
Definition token_time (o : TokenOp) : Tick :=
  match o with
  | OpIssue _ _ _ i _ _ => i
  | OpRenew _ now _ => now
  | OpRevoke _ now => now
  | OpRevokeEntity _ now => now
  end.

(** * How one call changes one record *)
Inductive record_step (now : Tick) (r : TokenRecord) : TokenRecord → Prop :=
| step_same : record_step now r r
| step_revoked :
    TokenRecord.revoked_at r = None →
    record_step now r (TokenRecord.set_revoked now r)
| step_renewed ttl :
    TokenRecord.revoked_at r = None →
    (now < TokenRecord.expires_at r)%N →
    TokenRecord.renewable r = true →
    (0 < ttl)%N → (now + ttl ≤ U64_MAX)%N →
    record_step now r (TokenRecord.set_expires (now + ttl) r).

Lemma tick_checked_add_Ok a b c :
  Tick.checked_add a b = Ok c ↔ c = (a + b)%N ∧ (a + b ≤ U64_MAX)%N.
Proof.
  unfold Tick.checked_add. rewrite <- checked_add_Some.
  destruct (checked_add a b); simpl; naive_solver.
Qed.

Lemma not_is_Some_None {A} (o : option A) : ¬ is_Some o ↔ o = None.
Proof. by rewrite eq_None_not_Some. Qed.

(** Every call keeps every record, and changes it by one [record_step]. *)
Lemma token_exec_record o s tid r :
  TokenStore.tokens s !! tid = Some r →
  ∃ r', TokenStore.tokens (token_exec o s) !! tid = Some r' ∧ record_step (token_time o) r r'.
Proof.
  intros Hr. destruct o as [t e p i ttl b|t now ttl|t now|e now]; simpl.
  - unfold TokenStore.issue. destruct (_ =? _)%N; [by eauto using record_step|].
    destruct (_ !! t) eqn:E; [by eauto using record_step|].
    destruct (Tick.checked_add i ttl); [|by eauto using record_step].
    simpl. exists r. rewrite lookup_insert_ne by congruence. eauto using record_step.
  - unfold TokenStore.renew. destruct (N.eqb_spec ttl 0); [by eauto using record_step|].
    destruct (_ !! t) as [r0|] eqn:E; [|by eauto using record_step].
    case_bool_decide as Hrev; [by eauto using record_step|]. rewrite not_is_Some_None in Hrev.
    destruct (N.leb_spec (TokenRecord.expires_at r0) now); [by eauto using record_step|].
    destruct (TokenRecord.renewable r0) eqn:Hren; simpl; [|by eauto using record_step].
    destruct (Tick.checked_add now ttl) eqn:Ha; simpl; [|by eauto using record_step].
    apply tick_checked_add_Ok in Ha as [-> Hmax].
    destruct (decide (t = tid)) as [->|Hne]; simplify_eq.
    + rewrite lookup_insert_eq. eexists; split; [done|]. apply step_renewed; auto; lia.
    + rewrite lookup_insert_ne by done. eauto using record_step.
  - unfold TokenStore.revoke. destruct (_ !! t) as [r0|] eqn:E; [|by eauto using record_step].
    case_bool_decide as Hrev; [by eauto using record_step|]. rewrite not_is_Some_None in Hrev.
    simpl. destruct (decide (t = tid)) as [->|Hne]; simplify_eq.
    + rewrite lookup_insert_eq. eauto using record_step.
    + rewrite lookup_insert_ne by done. eauto using record_step.
  - rewrite lookup_fmap, Hr. simpl. unfold TokenStore.revocable.
    eexists; split; [done|]. repeat case_bool_decide; simpl; eauto using record_step.
Qed.

(** * Well-formedness *)
Definition token_wf (r : TokenRecord) : Prop :=
  (TokenRecord.expires_at r ≤ U64_MAX ∧ 1 ≤ TokenRecord.generation r ≤ U64_MAX)%N.

Lemma record_step_wf now r r' : token_wf r → record_step now r r' → token_wf r'.
Proof.
  unfold token_wf. intros [He Hg] []; simpl; [done| |];
    unfold saturating_add; unfold U64_MAX in *; lia.
Qed.

(** A record is dead at [now] when it is revoked or has expired. *)
Definition dead (now : Tick) (r : TokenRecord) : Prop :=
  is_Some (TokenRecord.revoked_at r) ∨ (TokenRecord.expires_at r ≤ now)%N.

Lemma record_step_dead t now r r' :
  (t ≤ now)%N → dead t r → record_step now r r' → dead t r'.
Proof.
  unfold dead. intros Hle Hd [ | | ttl Hn Hlt]; simpl; [done|eauto|].
  destruct Hd as [[x Hx]|Hd]; [congruence|lia].
Qed.

Lemma validate_dead s tid r now :
  TokenStore.tokens s !! tid = Some r → dead now r →
  TokenStore.validate s tid now = Err Revoked ∨ TokenStore.validate s tid now = Err Expired.
Proof.
  intros Hr Hd. unfold TokenStore.validate. rewrite Hr. simpl.
  case_bool_decide as Hrev; [by left|]. destruct Hd as [?|Hle]; [done|].
  rewrite (proj2 (N.leb_le _ _)) by done. by right.
Qed.

Lemma validate_Ok s tid now v :
  TokenStore.validate s tid now = Ok v ↔
  ∃ r, TokenStore.tokens s !! tid = Some r ∧ ¬ dead now r ∧ v = TokenRecord.view r.
Proof.
  unfold TokenStore.validate, dead. destruct (_ !! tid) as [r|]; simpl; [|naive_solver].
  case_bool_decide as Hrev; [naive_solver|].
  destruct (N.leb_spec (TokenRecord.expires_at r) now); [naive_solver|].
  split; [intros [= <-]; exists r|intros (r' & ? & _ & ->); by simplify_eq].
  split; [done|]. split; [|done]. intros [?|?]; [done|lia].
Qed.

Lemma token_dead_run s tid r t ops :
  TokenStore.tokens s !! tid = Some r → dead t r → Forall (λ o, (t ≤ token_time o)%N) ops →
  ∃ r', TokenStore.tokens (run token_exec ops s) !! tid = Some r' ∧ dead t r'.
Proof.
  intros Hr Hd Hops.
  apply (run_invariant_if token_exec (λ o, (t ≤ token_time o)%N)
           (λ s, ∃ r', TokenStore.tokens s !! tid = Some r' ∧ dead t r')); [|done|eauto].
  intros o s' Ho (r0 & Hr0 & Hd0).
  destruct (token_exec_record o s' tid r0 Hr0) as (r' & Hr' & Hstep).
  eauto using record_step_dead.
Qed.

(** ** Properties *)

(** Dead tokens stay dead.  If a token is revoked, or has expired by
    tick [t], then after any sequence of store calls made at or after [t] it is
    still in the store and [validate] at any tick from [t] on fails with
    [Revoked] or [Expired]: neither re-issuing the identifier nor renewing can
    bring it back. *)
Theorem token_dead_forever (s : TokenStore) (tid : TokenId) (r : TokenRecord) (t : Tick)
    (ops : list TokenOp) (now : Tick) :
  TokenStore.tokens s !! tid = Some r → dead t r →
  Forall (λ o, (t ≤ token_time o)%N) ops → (t ≤ now)%N →
  TokenStore.validate (run token_exec ops s) tid now = Err Revoked
  ∨ TokenStore.validate (run token_exec ops s) tid now = Err Expired.
Proof.
  intros Hr Hd Hops Hnow.
  destruct (token_dead_run s tid r t ops Hr Hd Hops) as (r' & Hr' & Hd').
  eapply validate_dead; [done|]. destruct Hd'; [by left|right; lia].
Qed.

(** Issuing opens exactly the window [\[issued_at, issued_at + ttl)]: a
    successful [issue] returns the view with generation 1, stores it under the
    identifier and changes no other token, and from then on [validate] at [now]
    succeeds, with that view, if and only if [now < issued_at + ttl]; [issue]
    fails without changing the store exactly when the ttl is zero, the
    identifier is taken or the deadline overflows 64 bits. *)
Theorem token_issue_window (s s' : TokenStore) (tid e : Id) (ps : gset Id) (i : Tick)
    (ttl : N) (b : bool) (res : Result TokenView TokenError) :
  TokenStore.issue tid e ps i ttl b s = (s', res) →
  match res with
  | Ok v => v = TokenView.mk e ps i (i + ttl) b 1
            ∧ (∀ now, TokenStore.validate s' tid now
                      = if (now <? i + ttl)%N then Ok v else Err Expired)
            ∧ (∀ tid', tid' ≠ tid → TokenStore.tokens s' !! tid' = TokenStore.tokens s !! tid')
            ∧ TokenStore.tokens s !! tid = None ∧ (0 < ttl)%N ∧ (i + ttl ≤ U64_MAX)%N
  | Err err => s' = s ∧
      ((err = InvalidTtl ∧ (ttl = 0 ∨ U64_MAX < i + ttl)%N)
       ∨ (err = DuplicateToken ∧ is_Some (TokenStore.tokens s !! tid)))
  end.
Proof.
  unfold TokenStore.issue. destruct (N.eqb_spec ttl 0); [intros; simplify_eq; auto|].
  destruct (_ !! tid) eqn:E; [intros; simplify_eq; eauto 10|].
  destruct (Tick.checked_add i ttl) as [c|] eqn:Ha; intros; simplify_eq.
  - apply tick_checked_add_Ok in Ha as [-> Hmax]. split; [done|].
    split; [|split; [|split_and!; auto; lia]].
    + intros now. unfold TokenStore.validate. simpl. rewrite lookup_insert_eq. simpl.
      rewrite N.leb_antisym. by destruct (now <? i + ttl)%N.
    + intros tid' Hne. simpl. by rewrite lookup_insert_ne.
  - split; [done|]. left. split; [done|]. right.
    unfold Tick.checked_add in Ha.
    destruct (checked_add i ttl) eqn:Hc; [done|]. by apply checked_add_None in Hc.
Qed.

(** Revoking an entity: [revoke_entity] reports exactly the number of that
    entity's unrevoked tokens, afterwards none of the entity's tokens validates
    at any tick, and every token of another entity is untouched. *)
Theorem revoke_entity_complete (s s' : TokenStore) (e : Id) (now : Tick) (n : nat) :
  TokenStore.revoke_entity e now s = (s', n) →
  n = count_if (λ r, bool_decide (TokenRecord.entity_id r = e)
                     && bool_decide (TokenRecord.revoked_at r = None)) (TokenStore.tokens s)
  ∧ (∀ tid r, TokenStore.tokens s !! tid = Some r → TokenRecord.entity_id r = e →
              ∀ later, TokenStore.validate s' tid later = Err Revoked)
  ∧ (∀ tid r, TokenStore.tokens s !! tid = Some r → TokenRecord.entity_id r ≠ e →
              TokenStore.tokens s' !! tid = Some r).
Proof.
  unfold TokenStore.revoke_entity. intros H; simplify_eq. split; [done|].
  unfold TokenStore.validate, TokenStore.revocable. simpl. setoid_rewrite lookup_fmap. split.
  - intros tid r -> <- later. simpl. rewrite (bool_decide_eq_true_2 (_ = _)) by done. simpl.
    destruct (TokenRecord.revoked_at r) as [x|] eqn:Hx; simpl; [|done].
    by rewrite Hx.
  - intros tid r -> Hne. simpl. by rewrite bool_decide_eq_false_2.
Qed.

(** * Concrete instances *)
Module TokenDemo.
Definition alice : Id := Id.mk "alice" I.
Definition tok : TokenId := Id.mk "tok-1" I.
Definition store : TokenStore := run token_exec [OpIssue tok alice ∅ 5 10 true] TokenStore.default.
Definition rec : TokenRecord := TokenRecord.mk alice ∅ 5 15 true None 1.
End TokenDemo.

Lemma token_dead_forever_witness :
  let s := run token_exec [OpRenew TokenDemo.tok 20 100] TokenDemo.store in
  TokenStore.validate s TokenDemo.tok 21 = Err Revoked
  ∨ TokenStore.validate s TokenDemo.tok 21 = Err Expired.
Proof.
  apply (token_dead_forever TokenDemo.store TokenDemo.tok TokenDemo.rec 15
           [OpRenew TokenDemo.tok 20 100] 21).
  - vm_compute. reflexivity.
  - right. vm_compute. discriminate.
  - constructor; [vm_compute; discriminate|constructor].
  - vm_compute. discriminate.
Defined.

Lemma token_issue_window_witness :
  TokenStore.validate TokenDemo.store TokenDemo.tok 14 =
    if (14 <? 15)%N then Ok (TokenView.mk TokenDemo.alice ∅ 5 15 true 1) else Err Expired.
Proof.
  apply (token_issue_window TokenStore.default TokenDemo.store TokenDemo.tok TokenDemo.alice ∅ 5 10
           true (Ok (TokenView.mk TokenDemo.alice ∅ 5 15 true 1))).
  reflexivity.
Defined.

Lemma revoke_entity_complete_witness :
  TokenStore.validate (TokenStore.revoke_entity TokenDemo.alice 7 TokenDemo.store).1
    TokenDemo.tok 8 = Err Revoked.
Proof.
  destruct (revoke_entity_complete TokenDemo.store
    (TokenStore.revoke_entity TokenDemo.alice 7 TokenDemo.store).1 TokenDemo.alice 7
    (TokenStore.revoke_entity TokenDemo.alice 7 TokenDemo.store).2) as (_ & Hr & _); [reflexivity|].
  apply (Hr TokenDemo.tok TokenDemo.rec); [vm_compute; reflexivity|reflexivity].
Defined.
