(* ===== verification/Lease.v ===== *)
(** [crates/heptabao-lease]: lease issue, renewal, expiry and revocation.

    Unlike token validation, [validate] is itself a mutating call: it moves an
    overdue lease to [Expired].  [lease_exec] makes the API a state machine. *)
From Stdlib Require Import NArith.
From S2P Require Import Prelude Str Domain.

Inductive LeaseKind : Type := Secret | Authentication.
Inductive LeaseState : Type := LActive | LRevoked | LExpired.

#[export] Instance LeaseKind_eq_dec : EqDecision LeaseKind.
Proof. solve_decision. Defined.
#[export] Instance LeaseState_eq_dec : EqDecision LeaseState.
Proof. solve_decision. Defined.

Inductive LeaseError : Type :=
| LeaseInvalidTtl | DuplicateLease | MissingLease | LeaseRevoked | LeaseExpired
| LeaseNotRenewable.

#[export] Instance LeaseError_eq_dec : EqDecision LeaseError.
Proof. solve_decision. Defined.

Module LeaseIssue.
Record t := mk {
  id : Id;
  owner_entity : Id;
  scope : CanonicalPath;
  kind : LeaseKind;
  issued_at : Tick;
  ttl : N;
  renewable : bool;
}.
End LeaseIssue.
Notation LeaseIssue := LeaseIssue.t.

(** [LeaseRecord] and [LeaseView] have the same fields; [LeaseRecord::view]
    copies them, so one record type stands for both. *)
Module LeaseRecord.
Record t := mk {
  id : Id;
  owner_entity : Id;
  scope : CanonicalPath;
  kind : LeaseKind;
  state : LeaseState;
  issued_at : Tick;
  expires_at : Tick;
  renewable : bool;
  generation : N;
}.

Definition view (self : t) : t :=
  mk (id self) (owner_entity self) (scope self) (kind self) (state self)
    (issued_at self) (expires_at self) (renewable self) (generation self).

Definition set_state (st : LeaseState) (self : t) : t :=
  mk (id self) (owner_entity self) (scope self) (kind self) st
    (issued_at self) (expires_at self) (renewable self) (generation self).

Definition bump (self : t) : t :=
  mk (id self) (owner_entity self) (scope self) (kind self) (state self)
    (issued_at self) (expires_at self) (renewable self) (saturating_add (generation self) 1).

Definition set_expires (e : Tick) (self : t) : t :=
  mk (id self) (owner_entity self) (scope self) (kind self) (state self)
    (issued_at self) e (renewable self) (generation self).
End LeaseRecord.
Notation LeaseRecord := LeaseRecord.t.
Notation LeaseView := LeaseRecord.t.

Module LeaseStore.

Record t := mk { leases : gmap Id LeaseRecord }.

Definition default : t := mk ∅.

Definition issue (command : LeaseIssue) : M t LeaseError LeaseView := λ self,
  if (LeaseIssue.ttl command =? 0)%N then (self, Err LeaseInvalidTtl)
  else match leases self !! LeaseIssue.id command with
  | Some _ => (self, Err DuplicateLease)
  | None =>
      match Tick.checked_add (LeaseIssue.issued_at command) (LeaseIssue.ttl command) with
      | Err _ => (self, Err LeaseInvalidTtl)
      | Ok expires_at =>
          let record := LeaseRecord.mk (LeaseIssue.id command) (LeaseIssue.owner_entity command)
            (LeaseIssue.scope command) (LeaseIssue.kind command) LActive
            (LeaseIssue.issued_at command) expires_at (LeaseIssue.renewable command) 1 in
          (mk (<[LeaseIssue.id command := record]> (leases self)), Ok (LeaseRecord.view record))
      end
  end.

Definition validate (id : Id) (now : Tick) : M t LeaseError LeaseView := λ self,
  match leases self !! id with
  | None => (self, Err MissingLease)
  | Some record =>
      let record :=
        if bool_decide (LeaseRecord.state record = LActive)
           && (LeaseRecord.expires_at record <=? now)%N
        then LeaseRecord.bump (LeaseRecord.set_state LExpired record)
        else record in
      (mk (<[id := record]> (leases self)),
       match LeaseRecord.state record with
       | LActive => Ok (LeaseRecord.view record)
       | LRevoked => Err LeaseRevoked
       | LExpired => Err LeaseExpired
       end)
  end.

Definition renew (id : Id) (now : Tick) (ttl : N) : M t LeaseError LeaseView := λ self,
  if (ttl =? 0)%N then (self, Err LeaseInvalidTtl)
  else match leases self !! id with
  | None => (self, Err MissingLease)
  | Some record =>
      if bool_decide (LeaseRecord.state record = LRevoked) then (self, Err LeaseRevoked)
      else if bool_decide (LeaseRecord.state record = LExpired)
              || (LeaseRecord.expires_at record <=? now)%N
      then (mk (<[id := LeaseRecord.set_state LExpired record]> (leases self)), Err LeaseExpired)
      else if negb (LeaseRecord.renewable record) then (self, Err LeaseNotRenewable)
      else match Tick.checked_add now ttl with
           | Err _ => (self, Err LeaseInvalidTtl)
           | Ok e =>
               let record := LeaseRecord.bump (LeaseRecord.set_expires e record) in
               (mk (<[id := record]> (leases self)), Ok (LeaseRecord.view record))
           end
  end.

Definition revoke (id : Id) : M t LeaseError unit := λ self,
  match leases self !! id with
  | None => (self, Err MissingLease)
  | Some record =>
      match LeaseRecord.state record with
      | LRevoked => (self, Err LeaseRevoked)
      | LExpired => (self, Err LeaseExpired)
      | LActive =>
          (mk (<[id := LeaseRecord.bump (LeaseRecord.set_state LRevoked record)]> (leases self)),
           Ok tt)
      end
  end.

(** The loop condition of [revoke_prefix]. *)
Definition in_prefix (prefix : CanonicalPath) (record : LeaseRecord) : bool :=
  bool_decide (LeaseRecord.state record = LActive)
  && CanonicalPath.matches_prefix (LeaseRecord.scope record) prefix.

Definition revoke_prefix (prefix : CanonicalPath) (self : t) : t * nat :=
  (mk ((λ r, if in_prefix prefix r
             then LeaseRecord.bump (LeaseRecord.set_state LRevoked r) else r) <$> leases self),
   count_if (in_prefix prefix) (leases self)).

End LeaseStore.
Notation LeaseStore := LeaseStore.t.

Inductive LeaseOp : Type :=
| LOpIssue (command : LeaseIssue)
| LOpValidate (id : Id) (now : Tick)
| LOpRenew (id : Id) (now : Tick) (ttl : N)
| LOpRevoke (id : Id)
| LOpRevokePrefix (prefix : CanonicalPath).

Definition lease_exec (o : LeaseOp) (s : LeaseStore) : LeaseStore :=
  match o with
  | LOpIssue c => (LeaseStore.issue c s).1
  | LOpValidate id now => (LeaseStore.validate id now s).1
  | LOpRenew id now ttl => (LeaseStore.renew id now ttl s).1
  | LOpRevoke id => (LeaseStore.revoke id s).1
  | LOpRevokePrefix p => (LeaseStore.revoke_prefix p s).1
  end.

(** * How one call changes one record *)
Inductive lease_step (r : LeaseRecord) : LeaseRecord → Prop :=
| lease_same : lease_step r r
| lease_expire_bump :
    LeaseRecord.state r = LActive →
    lease_step r (LeaseRecord.bump (LeaseRecord.set_state LExpired r))
| lease_expire :
    LeaseRecord.state r ≠ LRevoked →
    lease_step r (LeaseRecord.set_state LExpired r)
| lease_renew e :
    LeaseRecord.state r = LActive → LeaseRecord.renewable r = true → (e ≤ U64_MAX)%N →
    lease_step r (LeaseRecord.bump (LeaseRecord.set_expires e r))
| lease_revoke :
    LeaseRecord.state r = LActive →
    lease_step r (LeaseRecord.bump (LeaseRecord.set_state LRevoked r)).
#[export] Hint Constructors lease_step : hepta.

Lemma lookup_insert_step (m : gmap Id LeaseRecord) k k' r r0 r1 :
  m !! k = Some r → m !! k' = Some r0 → lease_step r0 r1 →
  ∃ r', <[k' := r1]> m !! k = Some r' ∧ lease_step r r'.
Proof.
  intros Hk Hk' Hs. destruct (decide (k' = k)) as [->|Hne]; simplify_eq.
  - rewrite lookup_insert_eq. eauto.
  - rewrite lookup_insert_ne by done. eauto with hepta.
Qed.

Lemma lease_exec_record o s id r :
  LeaseStore.leases s !! id = Some r →
  ∃ r', LeaseStore.leases (lease_exec o s) !! id = Some r' ∧ lease_step r r'.
Proof.
  intros Hr. destruct o as [c|i now|i now ttl|i|p]; simpl.
  - unfold LeaseStore.issue. destruct (_ =? _)%N; [by eauto with hepta|].
    destruct (_ !! LeaseIssue.id c) eqn:E; [by eauto with hepta|].
    destruct (Tick.checked_add _ _); [|by eauto with hepta].
    simpl. exists r. rewrite lookup_insert_ne by congruence. eauto with hepta.
  - unfold LeaseStore.validate. destruct (_ !! i) as [r0|] eqn:E; [|by eauto with hepta].
    simpl. eapply lookup_insert_step; [done..|].
    case_bool_decide; simpl; [case_match|]; eauto with hepta.
  - unfold LeaseStore.renew. destruct (_ =? _)%N; [by eauto with hepta|].
    destruct (_ !! i) as [r0|] eqn:E; [|by eauto with hepta].
    case_bool_decide; [by eauto with hepta|].
    case_bool_decide; simpl.
    { eapply lookup_insert_step; eauto with hepta. }
    destruct (_ <=? now)%N; simpl.
    { eapply lookup_insert_step; eauto with hepta. }
    destruct (LeaseRecord.renewable r0) eqn:Hren; simpl; [|by eauto with hepta].
    destruct (Tick.checked_add now ttl) eqn:Ha; simpl; [|by eauto with hepta].
    eapply lookup_insert_step; [done..|]. apply lease_renew; [|done|].
    + by destruct (LeaseRecord.state r0).
    + unfold Tick.checked_add in Ha. destruct (checked_add now ttl) eqn:Hc; [|done].
      apply checked_add_Some in Hc. naive_solver.
  - unfold LeaseStore.revoke. destruct (_ !! i) as [r0|] eqn:E; [|by eauto with hepta].
    destruct (LeaseRecord.state r0) eqn:Hst; simpl; [|by eauto with hepta..].
    eapply lookup_insert_step; eauto with hepta.
  - rewrite lookup_fmap, Hr. simpl. unfold LeaseStore.in_prefix.
    eexists; split; [done|]. case_bool_decide; simpl; [case_match|]; eauto with hepta.
Qed.

Lemma lease_step_terminal r r' :
  lease_step r r' → LeaseRecord.state r ≠ LActive → LeaseRecord.state r' = LeaseRecord.state r.
Proof.
  intros [] Ht; simpl; [done|congruence| |congruence|congruence].
  by destruct (LeaseRecord.state r).
Qed.

Lemma lease_step_generation r r' :
  lease_step r r' → (LeaseRecord.generation r ≤ U64_MAX)%N →
  (LeaseRecord.generation r ≤ LeaseRecord.generation r' ≤ U64_MAX)%N.
Proof. intros [] Hg; simpl; unfold saturating_add; lia. Qed.

Lemma lease_run_record ops s id r :
  LeaseStore.leases s !! id = Some r →
  ∃ r', LeaseStore.leases (run lease_exec ops s) !! id = Some r' ∧ rtc lease_step r r'.
Proof.
  revert s r. induction ops as [|o ops IH]; intros s r Hr; [eexists; split; [done|constructor]|].
  destruct (lease_exec_record o s id r Hr) as (r1 & Hr1 & Hs).
  rewrite run_cons. destruct (IH _ _ Hr1) as (r' & Hr' & Hrtc).
  exists r'. split; [done|]. by econstructor.
Qed.

Lemma lease_rtc_terminal r r' :
  rtc lease_step r r' → LeaseRecord.state r ≠ LActive → LeaseRecord.state r' = LeaseRecord.state r.
Proof.
  induction 1 as [|r r1 r' Hs _ IH]; intros Ht; [done|].
  pose proof (lease_step_terminal _ _ Hs Ht) as E. rewrite IH; congruence.
Qed.

Lemma lease_rtc_generation r r' :
  rtc lease_step r r' → (LeaseRecord.generation r ≤ U64_MAX)%N →
  (LeaseRecord.generation r ≤ LeaseRecord.generation r')%N.
Proof.
  intros Hrtc Hg.
  enough (LeaseRecord.generation r ≤ LeaseRecord.generation r' ≤ U64_MAX)%N by lia.
  induction Hrtc as [|r r1 r' Hs _ IH]; [lia|].
  pose proof (lease_step_generation _ _ Hs Hg). lia.
Qed.

Lemma lease_renew_state s id now ttl r :
  LeaseStore.leases s !! id = Some r → LeaseRecord.state r ≠ LActive → (0 < ttl)%N →
  (LeaseStore.renew id now ttl s).2
  = Err (if bool_decide (LeaseRecord.state r = LRevoked) then LeaseRevoked else LeaseExpired).
Proof.
  intros Hr Ht Httl. unfold LeaseStore.renew. rewrite Hr.
  destruct (N.eqb_spec ttl 0); [lia|]. by destruct (LeaseRecord.state r).
Qed.

(** ** Properties *)

(** Revocation and expiry are final.  A lease that has left [Active] keeps
    its state through every sequence of calls (issue, validate, renew, revoke
    and prefix revocation, of any lease), its generation never decreases, and
    both [validate] and [renew] keep failing with the error of that state. *)
Theorem lease_terminal_is_final (s : LeaseStore) (id : Id) (r : LeaseRecord)
    (ops : list LeaseOp) (now : Tick) (ttl : N) :
  LeaseStore.leases s !! id = Some r →
  LeaseRecord.state r ≠ LActive → (LeaseRecord.generation r ≤ U64_MAX)%N → (0 < ttl)%N →
  let s' := run lease_exec ops s in
  let err := if bool_decide (LeaseRecord.state r = LRevoked) then LeaseRevoked else LeaseExpired in
  (∃ r', LeaseStore.leases s' !! id = Some r' ∧ LeaseRecord.state r' = LeaseRecord.state r
         ∧ (LeaseRecord.generation r ≤ LeaseRecord.generation r')%N)
  ∧ (LeaseStore.validate id now s').2 = Err err
  ∧ (LeaseStore.renew id now ttl s').2 = Err err.
Proof.
  intros Hr Ht Hg Httl s' err.
  destruct (lease_run_record ops s id r Hr) as (r' & Hr' & Hrtc).
  pose proof (lease_rtc_terminal _ _ Hrtc Ht) as Hst.
  split; [eauto using lease_rtc_generation|]. subst err. rewrite <- Hst. split.
  - unfold LeaseStore.validate. fold s' in Hr'. rewrite Hr'. simpl.
    rewrite <- Hst in Ht. destruct (LeaseRecord.state r') eqn:E; simpl; rewrite ?E; done.
  - apply lease_renew_state; [done| |done]. by rewrite Hst.
Qed.

(** Prefix revocation is complete and respects segment boundaries:
    [revoke_prefix] returns the number of active leases whose scope lies under
    the prefix (segment-wise), leaves no active lease there, and does not touch
    leases that are outside the prefix or already inactive. *)
Theorem revoke_prefix_complete (s s' : LeaseStore) (prefix : CanonicalPath) (n : nat) :
  LeaseStore.revoke_prefix prefix s = (s', n) →
  n = count_if (λ r, bool_decide (LeaseRecord.state r = LActive
                                  ∧ segments prefix `prefix_of` segments (LeaseRecord.scope r)))
        (LeaseStore.leases s)
  ∧ (∀ id r', LeaseStore.leases s' !! id = Some r' →
       segments prefix `prefix_of` segments (LeaseRecord.scope r') → LeaseRecord.state r' ≠ LActive)
  ∧ (∀ id r, LeaseStore.leases s !! id = Some r →
       ¬ (segments prefix `prefix_of` segments (LeaseRecord.scope r)) ∨ LeaseRecord.state r ≠ LActive →
       LeaseStore.leases s' !! id = Some r).
Proof.
  assert (∀ r, LeaseStore.in_prefix prefix r ↔
    LeaseRecord.state r = LActive ∧ segments prefix `prefix_of` segments (LeaseRecord.scope r)) as Hin.
  { intros r. unfold LeaseStore.in_prefix.
    by rewrite andb_True, bool_decide_spec, matches_prefix_segments. }
  unfold LeaseStore.revoke_prefix. intros H; simplify_eq. split; [|split].
  - unfold count_if. f_equal. apply map_filter_ext. intros i x _. simpl.
    by rewrite Hin, bool_decide_spec.
  - intros id r'. simpl. rewrite lookup_fmap. intros (r & Hr & ->)%fmap_Some_1.
    destruct (LeaseStore.in_prefix prefix r) eqn:E; simpl; [done|].
    intros Hp Ha. rewrite <- not_true_iff_false, <- Is_true_true, Hin in E. naive_solver.
  - intros id r Hr Hout. simpl. rewrite lookup_fmap, Hr. simpl.
    destruct (LeaseStore.in_prefix prefix r) eqn:E; [|done].
    apply Is_true_true, Hin in E. naive_solver.
Qed.

(** * Concrete instances *)
Module LeaseDemo.
Definition lease : Id := Id.mk "lease-1" I.
Definition scope : CanonicalPath := CanonicalPath.mk "/db/creds" I.
Definition prefix : CanonicalPath := CanonicalPath.mk "/db" I.
Definition store : LeaseStore :=
  run lease_exec [LOpIssue (LeaseIssue.mk lease (Id.mk "alice" I) scope Secret 5 10 true)]
    LeaseStore.default.
Definition revoked : LeaseStore := (LeaseStore.revoke lease store).1.
Definition rec : LeaseRecord :=
  LeaseRecord.mk lease (Id.mk "alice" I) scope Secret LRevoked 5 15 true 2.
End LeaseDemo.

Lemma lease_terminal_is_final_witness :
  (LeaseStore.renew LeaseDemo.lease 6 100
     (run lease_exec [LOpRenew LeaseDemo.lease 6 50] LeaseDemo.revoked)).2 = Err LeaseRevoked.
Proof.
  apply (lease_terminal_is_final LeaseDemo.revoked LeaseDemo.lease LeaseDemo.rec
           [LOpRenew LeaseDemo.lease 6 50] 6 100).
  - vm_compute. reflexivity.
  - discriminate.
  - vm_compute. discriminate.
  - vm_compute. reflexivity.
Defined.

Lemma revoke_prefix_complete_witness :
  let out := LeaseStore.revoke_prefix LeaseDemo.prefix LeaseDemo.store in
  LeaseStore.leases out.1 !! LeaseDemo.lease = Some LeaseDemo.rec ∧ LeaseRecord.state LeaseDemo.rec ≠ LActive.
Proof.
  intros out. assert (LeaseStore.leases out.1 !! LeaseDemo.lease = Some LeaseDemo.rec) as Hrec
    by (vm_compute; reflexivity).
  split; [exact Hrec|].
  destruct (revoke_prefix_complete LeaseDemo.store out.1 LeaseDemo.prefix out.2) as (_ & Hnone & _);
    [reflexivity|].
  apply (Hnone _ _ Hrec). exists ["creds"]. vm_compute. reflexivity.
Defined.
