(* ===== verification/Identity.v ===== *)
(** [crates/heptabao-identity]: entities, aliases and groups.

    The store keeps three maps that index each other: an entity lists its
    aliases and groups, [aliases] maps an alias back to its entity and a group
    lists its members.  [identity_inv] states that the indexes agree; it is what
    makes policy expansion total on every store the API can build. *)
From S2P Require Import Prelude Str Domain.

Inductive IdentityError : Type :=
| DuplicateEntity | DuplicateAlias | DuplicateGroup
| MissingEntity | MissingAlias | MissingGroup | EntityDisabled.

#[export] Instance IdentityError_eq_dec : EqDecision IdentityError.
Proof. solve_decision. Defined.

Module Entity.
Record t := mk {
  id : Id;
  aliases : gset Id;
  direct_policies : gset Id;
  groups : gset Id;
  disabled : bool;
}.
End Entity.
Notation Entity := Entity.t.

Module Group.
Record t := mk { id : Id; policies : gset Id; members : gset Id }.
End Group.
Notation Group := Group.t.

Module IdentityStore.

Record t := mk {
  entities : gmap Id Entity;
  aliases : gmap Id Id;
  groups : gmap Id Group;
}.

Definition default : t := mk ∅ ∅ ∅.

Definition create_entity (id : Id) : M t IdentityError unit := λ self,
  match entities self !! id with
  | Some _ => (self, Err DuplicateEntity)
  | None => (mk (<[id := Entity.mk id ∅ ∅ ∅ false]> (entities self))
                (aliases self) (groups self), Ok tt)
  end.

Definition create_group (id : Id) (policies : gset Id) : M t IdentityError unit := λ self,
  match groups self !! id with
  | Some _ => (self, Err DuplicateGroup)
  | None => (mk (entities self) (aliases self)
                (<[id := Group.mk id policies ∅]> (groups self)), Ok tt)
  end.

Definition add_alias (entity_id alias : Id) : M t IdentityError unit := λ self,
  match aliases self !! alias with
  | Some _ => (self, Err DuplicateAlias)
  | None =>
      match entities self !! entity_id with
      | None => (self, Err MissingEntity)
      | Some e =>
          let e' := Entity.mk (Entity.id e) ({[alias]} ∪ Entity.aliases e)
                      (Entity.direct_policies e) (Entity.groups e) (Entity.disabled e) in
          (mk (<[entity_id := e']> (entities self))
              (<[alias := entity_id]> (aliases self)) (groups self), Ok tt)
      end
  end.

Definition attach_policy (entity_id policy_id : Id) : M t IdentityError unit := λ self,
  match entities self !! entity_id with
  | None => (self, Err MissingEntity)
  | Some e =>
      let e' := Entity.mk (Entity.id e) (Entity.aliases e)
                  ({[policy_id]} ∪ Entity.direct_policies e) (Entity.groups e)
                  (Entity.disabled e) in
      (mk (<[entity_id := e']> (entities self)) (aliases self) (groups self), Ok tt)
  end.

Definition add_entity_to_group (entity_id group_id : Id) : M t IdentityError unit := λ self,
  match entities self !! entity_id with
  | None => (self, Err MissingEntity)
  | Some e =>
      match groups self !! group_id with
      | None => (self, Err MissingGroup)
      | Some g =>
          let g' := Group.mk (Group.id g) (Group.policies g) ({[entity_id]} ∪ Group.members g) in
          let e' := Entity.mk (Entity.id e) (Entity.aliases e) (Entity.direct_policies e)
                      ({[group_id]} ∪ Entity.groups e) (Entity.disabled e) in
          (mk (<[entity_id := e']> (entities self)) (aliases self)
              (<[group_id := g']> (groups self)), Ok tt)
      end
  end.

Definition set_disabled (entity_id : Id) (disabled : bool) : M t IdentityError unit := λ self,
  match entities self !! entity_id with
  | None => (self, Err MissingEntity)
  | Some e =>
      let e' := Entity.mk (Entity.id e) (Entity.aliases e) (Entity.direct_policies e)
                  (Entity.groups e) disabled in
      (mk (<[entity_id := e']> (entities self)) (aliases self) (groups self), Ok tt)
  end.

Definition resolve_alias (self : t) (alias : Id) : Result Entity IdentityError :=
  let? entity_id := ok_or (aliases self !! alias) MissingAlias in
  ok_or (entities self !! entity_id) MissingEntity.

Definition entity (self : t) (entity_id : Id) : Result Entity IdentityError :=
  ok_or (entities self !! entity_id) MissingEntity.

(** The loop of [effective_policy_ids] over the entity's groups. *)
Fixpoint extend_groups (self : t) (gs : list Id) (policies : gset Id) :
  Result (gset Id) IdentityError :=
  match gs with
  | [] => Ok policies
  | g :: gs =>
      let? group := ok_or (groups self !! g) MissingGroup in
      extend_groups self gs (policies ∪ Group.policies group)
  end.

Definition effective_policy_ids (self : t) (entity_id : Id) : Result (gset Id) IdentityError :=
  let? e := entity self entity_id in
  if Entity.disabled e then Err EntityDisabled
  else extend_groups self (btree_elems (Entity.groups e)) (Entity.direct_policies e).

End IdentityStore.
Notation IdentityStore := IdentityStore.t.

Inductive IdentityOp : Type :=
| IOpCreateEntity (id : Id)
| IOpCreateGroup (id : Id) (policies : gset Id)
| IOpAddAlias (entity_id alias : Id)
| IOpAttachPolicy (entity_id policy_id : Id)
| IOpAddToGroup (entity_id group_id : Id)
| IOpSetDisabled (entity_id : Id) (disabled : bool).

Definition identity_exec (o : IdentityOp) (s : IdentityStore) : IdentityStore :=
  match o with
  | IOpCreateEntity i => (IdentityStore.create_entity i s).1
  | IOpCreateGroup i p => (IdentityStore.create_group i p s).1
  | IOpAddAlias e a => (IdentityStore.add_alias e a s).1
  | IOpAttachPolicy e p => (IdentityStore.attach_policy e p s).1
  | IOpAddToGroup e g => (IdentityStore.add_entity_to_group e g s).1
  | IOpSetDisabled e d => (IdentityStore.set_disabled e d s).1
  end.

(** * The index invariant *)
Record identity_inv (s : IdentityStore) : Prop := {
  inv_entity_key : ∀ i e, IdentityStore.entities s !! i = Some e → Entity.id e = i;
  inv_group_key : ∀ i g, IdentityStore.groups s !! i = Some g → Group.id g = i;
  inv_alias : ∀ a i, IdentityStore.aliases s !! a = Some i ↔
    ∃ e, IdentityStore.entities s !! i = Some e ∧ a ∈ Entity.aliases e;
  inv_member : ∀ i g,
    (∃ e, IdentityStore.entities s !! i = Some e ∧ g ∈ Entity.groups e) ↔
    (∃ grp, IdentityStore.groups s !! g = Some grp ∧ i ∈ Group.members grp);
}.

Lemma identity_inv_default : identity_inv IdentityStore.default.
Proof. split; simpl; setoid_rewrite lookup_empty; naive_solver. Qed.

(** Membership facts about one entity after replacing another. *)
Lemma exists_insert {V} (m : gmap Id V) k v k' (P : V → Prop) :
  (∃ w, <[k := v]> m !! k' = Some w ∧ P w) ↔
  (k' = k ∧ P v) ∨ (k' ≠ k ∧ ∃ w, m !! k' = Some w ∧ P w).
Proof.
  destruct (decide (k' = k)) as [->|Hne].
  - setoid_rewrite lookup_insert_eq. naive_solver.
  - setoid_rewrite lookup_insert_ne; [|done]. naive_solver.
Qed.

Lemma lookup_insert_iff {V} (m : gmap Id V) k v k' w :
  <[k := v]> m !! k' = Some w ↔ (k' = k ∧ v = w) ∨ (k' ≠ k ∧ m !! k' = Some w).
Proof.
  destruct (decide (k' = k)) as [->|Hne].
  - rewrite lookup_insert_eq. naive_solver.
  - rewrite lookup_insert_ne by done. naive_solver.
Qed.

(** Replacing an entity by one with the same key, aliases and groups. *)
Lemma identity_inv_replace s i e e' :
  identity_inv s → IdentityStore.entities s !! i = Some e →
  Entity.id e' = Entity.id e → Entity.aliases e' = Entity.aliases e →
  Entity.groups e' = Entity.groups e →
  identity_inv (IdentityStore.mk (<[i := e']> (IdentityStore.entities s))
                  (IdentityStore.aliases s) (IdentityStore.groups s)).
Proof.
  intros [Hek Hgk Ha Hm] Hi Eid Eal Egr. split; simpl.
  - intros j e0 [[-> <-]|[_ ?]]%lookup_insert_iff; [|eauto]. rewrite Eid. eauto.
  - done.
  - intros a j. rewrite Ha, exists_insert, Eal.
    destruct (decide (j = i)) as [->|]; [|naive_solver].
    rewrite Hi. naive_solver.
  - intros j g. rewrite <- Hm, exists_insert, Egr.
    destruct (decide (j = i)) as [->|]; [|naive_solver]. rewrite Hi. naive_solver.
Qed.

Lemma create_entity_inv i s : identity_inv s → identity_inv (IdentityStore.create_entity i s).1.
Proof.
  intros [Hek Hgk Ha Hm]. unfold IdentityStore.create_entity.
  destruct (_ !! i) eqn:E; [by split|]. split; simpl.
  - intros j e [[-> <-]|[_ ?]]%lookup_insert_iff; eauto.
  - done.
  - intros a j. rewrite Ha, exists_insert. simpl.
    destruct (decide (j = i)) as [->|]; [rewrite E|]; set_solver.
  - intros j g. rewrite <- Hm, exists_insert. simpl.
    destruct (decide (j = i)) as [->|]; [rewrite E|]; set_solver.
Qed.

Lemma create_group_inv i p s : identity_inv s → identity_inv (IdentityStore.create_group i p s).1.
Proof.
  intros [Hek Hgk Ha Hm]. unfold IdentityStore.create_group.
  destruct (_ !! i) eqn:E; [by split|]. split; simpl; [done| |done|].
  - intros j e [[-> <-]|[_ ?]]%lookup_insert_iff; eauto.
  - intros j g. rewrite Hm, exists_insert. simpl.
    destruct (decide (g = i)) as [->|]; [rewrite E|]; set_solver.
Qed.

Lemma add_alias_inv e a s : identity_inv s → identity_inv (IdentityStore.add_alias e a s).1.
Proof.
  intros [Hek Hgk Ha Hm]. unfold IdentityStore.add_alias.
  destruct (_ !! a) eqn:Ea; [by split|]. destruct (_ !! e) as [ent|] eqn:E; [|by split].
  split; simpl.
  - intros j e0 [[-> <-]|[_ ?]]%lookup_insert_iff; simpl; eauto.
  - done.
  - intros b j. rewrite lookup_insert_iff, exists_insert, Ha. simpl.
    assert (∀ k, ¬ ∃ e1, IdentityStore.entities s !! k = Some e1 ∧ a ∈ Entity.aliases e1) as Hno.
    { intros k Hk%Ha. congruence. }
    destruct (decide (j = e)) as [->|].
    + rewrite E. specialize (Hno e). rewrite E in Hno. set_solver.
    + split; [|naive_solver].
      intros [[-> <-]|[Hb Hex]]; [congruence|]. right. split; [done|]. done.
  - intros j g. rewrite <- Hm, exists_insert. simpl.
    destruct (decide (j = e)) as [->|]; [rewrite E|]; naive_solver.
Qed.

Lemma add_entity_to_group_inv e g s :
  identity_inv s → identity_inv (IdentityStore.add_entity_to_group e g s).1.
Proof.
  intros [Hek Hgk Ha Hm]. unfold IdentityStore.add_entity_to_group.
  destruct (_ !! e) as [ent|] eqn:E; [|by split].
  destruct (_ !! g) as [grp|] eqn:G; [|by split]. split; simpl.
  - intros j e0 [[-> <-]|[_ ?]]%lookup_insert_iff; simpl; eauto.
  - intros j e0 [[-> <-]|[_ ?]]%lookup_insert_iff; simpl; eauto.
  - intros b j. rewrite Ha, exists_insert. simpl.
    destruct (decide (j = e)) as [->|]; [rewrite E|]; naive_solver.
  - intros j h. rewrite !exists_insert. simpl. specialize (Hm j h).
    rewrite !elem_of_union, !elem_of_singleton.
    destruct (decide (j = e)) as [->|], (decide (h = g)) as [->|];
      rewrite ?E, ?G in Hm; naive_solver.
Qed.

Lemma identity_exec_inv o s : identity_inv s → identity_inv (identity_exec o s).
Proof.
  intros Hinv. destruct o as [i|i p|e a|e p|e g|e d]; simpl.
  - by apply create_entity_inv.
  - by apply create_group_inv.
  - by apply add_alias_inv.
  - unfold IdentityStore.attach_policy. destruct (_ !! e) eqn:E; [|done].
    by eapply identity_inv_replace.
  - by apply add_entity_to_group_inv.
  - unfold IdentityStore.set_disabled. destruct (_ !! e) eqn:E; [|done].
    by eapply identity_inv_replace.
Qed.

(** * Policy expansion *)
Lemma extend_groups_Ok s gs acc :
  (∀ g, g ∈ gs → is_Some (IdentityStore.groups s !! g)) →
  ∃ res, IdentityStore.extend_groups s gs acc = Ok res ∧
    ∀ p, p ∈ res ↔ p ∈ acc ∨ ∃ g grp, g ∈ gs ∧ IdentityStore.groups s !! g = Some grp
                                       ∧ p ∈ Group.policies grp.
Proof.
  revert acc. induction gs as [|g gs IH]; intros acc Hgs; simpl.
  { exists acc. split; [done|]. set_solver. }
  destruct (Hgs g) as [grp Hg]; [set_solver|]. rewrite Hg. simpl.
  destruct (IH (acc ∪ Group.policies grp)) as (res & Hres & Hin); [set_solver|].
  exists res. split; [done|]. intros p. rewrite Hin, elem_of_union.
  setoid_rewrite elem_of_cons. naive_solver.
Qed.

(** The policies an entity holds directly or through a group. *)
Definition holds_policy (s : IdentityStore) (e : Entity) (p : Id) : Prop :=
  p ∈ Entity.direct_policies e ∨
  ∃ g grp, g ∈ Entity.groups e ∧ IdentityStore.groups s !! g = Some grp ∧ p ∈ Group.policies grp.

Lemma effective_policy_ids_inv s i :
  identity_inv s →
  match IdentityStore.entities s !! i with
  | None => IdentityStore.effective_policy_ids s i = Err MissingEntity
  | Some e =>
      if Entity.disabled e then IdentityStore.effective_policy_ids s i = Err EntityDisabled
      else ∃ ps, IdentityStore.effective_policy_ids s i = Ok ps
                 ∧ ∀ p, p ∈ ps ↔ holds_policy s e p
  end.
Proof.
  intros [_ _ _ Hm]. unfold IdentityStore.effective_policy_ids, IdentityStore.entity.
  destruct (_ !! i) as [e|] eqn:E; simpl; [|done]. destruct (Entity.disabled e); [done|].
  destruct (extend_groups_Ok s (btree_elems (Entity.groups e)) (Entity.direct_policies e))
    as (ps & Hps & Hin).
  { intros g Hg%elem_of_btree_elems. destruct (proj1 (Hm i g)) as (grp & ? & _); eauto. }
  exists ps. split; [done|]. intros p. rewrite Hin.
  by setoid_rewrite elem_of_btree_elems.
Qed.

(** ** Properties *)

(** The identity indexes agree on every store the API can build: each
    record sits under its own identifier, [aliases] maps an alias to an entity
    exactly when that entity lists it, and an entity lists a group exactly when
    the group lists the entity. *)
Theorem identity_indexes_agree (ops : list IdentityOp) :
  identity_inv (run identity_exec ops IdentityStore.default).
Proof. apply run_invariant; [apply identity_exec_inv|apply identity_inv_default]. Qed.

(** Policy expansion is total and exact on every store the API can build:
    [effective_policy_ids] fails only for a missing or disabled entity (never
    with [MissingGroup]), and otherwise returns exactly the policies the entity
    holds directly or through one of its groups. *)
Theorem effective_policies_exact (ops : list IdentityOp) (i : Id) :
  let s := run identity_exec ops IdentityStore.default in
  match IdentityStore.entities s !! i with
  | None => IdentityStore.effective_policy_ids s i = Err MissingEntity
  | Some e =>
      if Entity.disabled e then IdentityStore.effective_policy_ids s i = Err EntityDisabled
      else ∃ ps, IdentityStore.effective_policy_ids s i = Ok ps
                 ∧ ∀ p, p ∈ ps ↔ holds_policy s e p
  end.
Proof.
  apply effective_policy_ids_inv, run_invariant;
    [apply identity_exec_inv|apply identity_inv_default].
Qed.
