(* ===== verification/Namespace.v ===== *)
(** [crates/heptabao-namespace]: hierarchical namespaces.

    Namespaces form a tree; each carries the path from the root.  [path_index]
    maps a path back to its namespace.  [qualify] turns a request path into the
    path policies are evaluated on, [resolve] finds the deepest active
    namespace that contains a path. *)
From Stdlib Require Import Ascii NArith.
From S2P Require Import Prelude Str Domain.

Inductive NamespaceState : Type := Active | Disabled.

#[export] Instance NamespaceState_eq_dec : EqDecision NamespaceState.
Proof. solve_decision. Defined.

Inductive NamespaceError : Type :=
| RootAlreadyExists | DuplicateNamespace | NsDuplicatePath | MissingNamespace
| MissingParent | ParentDisabled | NamespaceDisabled | CannotDisableRoot
| AlreadyDisabled | InvalidResourcePath | NsDomain (e : DomainError).

#[export] Instance NamespaceError_eq_dec : EqDecision NamespaceError.
Proof. solve_decision. Defined.

Module Namespace.
Record t := mk {
  id : Id;
  parent_id : option Id;
  path : CanonicalPath;
  state : NamespaceState;
  generation : N;
}.
End Namespace.
Notation Namespace := Namespace.t.

Module NamespaceStore.

Record t := mk {
  namespaces : gmap Id Namespace;
  path_index : gmap CanonicalPath Id;
}.

Definition default : t := mk ∅ ∅.

Definition bootstrap_root (id : Id) : M t NamespaceError unit := λ self,
  if bool_decide (namespaces self ≠ ∅) then (self, Err RootAlreadyExists)
  else
    let path := CanonicalPath.root in
    (mk (<[id := Namespace.mk id None path Active 1]> (namespaces self))
        (<[path := id]> (path_index self)), Ok tt).

Definition create (id parent_id : Id) : M t NamespaceError Namespace := λ self,
  match namespaces self !! id with
  | Some _ => (self, Err DuplicateNamespace)
  | None =>
      match namespaces self !! parent_id with
      | None => (self, Err MissingParent)
      | Some parent =>
          if bool_decide (Namespace.state parent ≠ Active) then (self, Err ParentDisabled)
          else match CanonicalPath.child (Namespace.path parent) id with
               | Err e => (self, Err (NsDomain e))
               | Ok path =>
                   match path_index self !! path with
                   | Some _ => (self, Err NsDuplicatePath)
                   | None =>
                       let namespace := Namespace.mk id (Some parent_id) path Active 1 in
                       (mk (<[id := namespace]> (namespaces self))
                           (<[path := id]> (path_index self)), Ok namespace)
                   end
               end
      end
  end.

Definition get (self : t) (id : Id) : Result Namespace NamespaceError :=
  ok_or (namespaces self !! id) MissingNamespace.

Definition disable (id : Id) : M t NamespaceError unit := λ self,
  match namespaces self !! id with
  | None => (self, Err MissingNamespace)
  | Some ns =>
      if bool_decide (Namespace.parent_id ns = None) then (self, Err CannotDisableRoot)
      else if bool_decide (Namespace.state ns = Disabled) then (self, Err AlreadyDisabled)
      else
        let ns' := Namespace.mk (Namespace.id ns) (Namespace.parent_id ns) (Namespace.path ns)
                     Disabled (saturating_add (Namespace.generation ns) 1) in
        (mk (<[id := ns']> (namespaces self)) (path_index self), Ok tt)
  end.

(** The filter of [resolve]. *)
Definition resolves (path : CanonicalPath) (ns : Namespace) : bool :=
  bool_decide (Namespace.state ns = Active)
  && CanonicalPath.matches_prefix path (Namespace.path ns).

Definition resolve (self : t) (path : CanonicalPath) : Result Namespace NamespaceError :=
  ok_or (longest_match Namespace.path (resolves path) (namespaces self)) MissingNamespace.

Definition qualify (self : t) (namespace_id : Id) (resource_path : CanonicalPath) :
  Result CanonicalPath NamespaceError :=
  let? ns := get self namespace_id in
  if bool_decide (Namespace.state ns ≠ Active) then Err NamespaceDisabled
  else if bool_decide (path_str resource_path = "/") then Ok (Namespace.path ns)
  else
    let? suffix := ok_or (strip_prefix "/" (path_str resource_path)) InvalidResourcePath in
    map_err NsDomain
      (CanonicalPath.parse
         (trim_end_matches "/" (path_str (Namespace.path ns)) +:+ "/" +:+ suffix)).

End NamespaceStore.
Notation NamespaceStore := NamespaceStore.t.

Inductive NamespaceOp : Type :=
| NOpBootstrapRoot (id : Id)
| NOpCreate (id parent_id : Id)
| NOpDisable (id : Id).

Definition namespace_exec (o : NamespaceOp) (s : NamespaceStore) : NamespaceStore :=
  match o with
  | NOpBootstrapRoot i => (NamespaceStore.bootstrap_root i s).1
  | NOpCreate i p => (NamespaceStore.create i p s).1
  | NOpDisable i => (NamespaceStore.disable i s).1
  end.

(** * The tree invariant *)

(** A namespace's place in the tree: the root sits at [/], any other namespace
    one segment, its own identifier, below its parent. *)
Definition placed (m : gmap Id Namespace) (i : Id) (ns : Namespace) : Prop :=
  match Namespace.parent_id ns with
  | None => Namespace.path ns = CanonicalPath.root ∧ Namespace.state ns = Active
  | Some pi => ∃ pn, m !! pi = Some pn ∧
      segments (Namespace.path ns) = segments (Namespace.path pn) ++ [Id.as_str i]
  end.

Record namespace_inv (s : NamespaceStore) : Prop := {
  inv_ns_key : ∀ i n, NamespaceStore.namespaces s !! i = Some n → Namespace.id n = i;
  inv_ns_index : ∀ p i, NamespaceStore.path_index s !! p = Some i ↔
    ∃ n, NamespaceStore.namespaces s !! i = Some n ∧ Namespace.path n = p;
  inv_ns_placed : ∀ i n, NamespaceStore.namespaces s !! i = Some n →
    placed (NamespaceStore.namespaces s) i n;
  inv_ns_root : NamespaceStore.namespaces s ≠ ∅ →
    ∃ i n, NamespaceStore.namespaces s !! i = Some n ∧ Namespace.parent_id n = None;
}.

Lemma namespace_inv_default : namespace_inv NamespaceStore.default.
Proof. split; simpl; setoid_rewrite lookup_empty; naive_solver. Qed.

(** Replacing or adding a namespace keeps the others placed, if the new record
    keeps the path of the one it replaces. *)
Lemma placed_insert m k n' i n :
  (∀ n0, m !! k = Some n0 → Namespace.path n' = Namespace.path n0) →
  placed m i n → placed (<[k := n']> m) i n.
Proof.
  unfold placed. intros Hk Hp. destruct (Namespace.parent_id n) as [pi|]; [|done].
  destruct Hp as (pn & Hpn & E). destruct (decide (k = pi)) as [->|Hne].
  - rewrite lookup_insert_eq. exists n'. split; [done|]. by rewrite (Hk pn Hpn).
  - rewrite lookup_insert_ne by done. eauto.
Qed.

Lemma lookup_insert_cases {K V} `{Countable K} (m : gmap K V) k v k' w :
  <[k := v]> m !! k' = Some w → (k' = k ∧ v = w) ∨ (k' ≠ k ∧ m !! k' = Some w).
Proof.
  destruct (decide (k' = k)) as [->|Hne].
  - rewrite lookup_insert_eq. naive_solver.
  - rewrite lookup_insert_ne by done. naive_solver.
Qed.

(** A path that continues below a namespace with an unused identifier is free. *)
Lemma child_path_free s i pi pn p :
  namespace_inv s → NamespaceStore.namespaces s !! i = None →
  NamespaceStore.namespaces s !! pi = Some pn →
  CanonicalPath.child (Namespace.path pn) i = Ok p →
  NamespaceStore.path_index s !! p = None.
Proof.
  intros [_ Hix Hpl _] Hi Hpi Hc%child_Ok.
  destruct (NamespaceStore.path_index s !! p) as [j|] eqn:E; [exfalso|done].
  apply Hix in E as (n & Hn & Hp). specialize (Hpl j n Hn). unfold placed in Hpl.
  destruct (Namespace.parent_id n) as [qi|].
  - destruct Hpl as (qn & _ & Hq). rewrite Hp, Hc in Hq.
    apply app_inj_tail in Hq as [_ Hq]. apply Id_ext in Hq as ->. congruence.
  - destruct Hpl as [Hr _]. subst p. rewrite Hr in Hc.
    symmetry in Hc. apply app_eq_nil in Hc. naive_solver.
Qed.

Lemma bootstrap_root_inv i s :
  namespace_inv s → namespace_inv (NamespaceStore.bootstrap_root i s).1.
Proof.
  intros Hinv. unfold NamespaceStore.bootstrap_root.
  case_bool_decide as He; [done|]. simpl.
  destruct Hinv as [_ Hix _ _].
  assert (NamespaceStore.path_index s = ∅) as Hpe.
  { apply map_empty. intros p. destruct (_ !! p) as [j|] eqn:E; [|done].
    apply Hix in E as (n & Hn & _). by rewrite He in Hn. }
  rewrite He, Hpe. split; simpl.
  - intros j n [[-> <-]|[_ H]]%lookup_insert_cases; done.
  - intros p j. split.
    + intros [[-> <-]|[_ H]]%lookup_insert_cases; [|done].
      eexists. by rewrite lookup_insert_eq.
    + intros (n & [[-> <-]|[_ H]]%lookup_insert_cases & <-); [|done].
      simpl. by rewrite lookup_insert_eq.
  - intros j n [[-> <-]|[_ H]]%lookup_insert_cases; done.
  - intros _. exists i. eexists. by rewrite lookup_insert_eq.
Qed.

Lemma create_inv i pi s : namespace_inv s → namespace_inv (NamespaceStore.create i pi s).1.
Proof.
  intros Hinv. unfold NamespaceStore.create.
  destruct (_ !! i) eqn:Ei; [done|]. destruct (_ !! pi) as [pn|] eqn:Epi; [|done].
  case_bool_decide; [done|]. destruct (CanonicalPath.child _ i) as [p|] eqn:Ec; [|done].
  rewrite (child_path_free s i pi pn p) by done. simpl.
  pose proof (child_path_free s i pi pn p Hinv Ei Epi Ec) as Hfree.
  destruct Hinv as [Hk Hix Hpl Hr]. split; simpl.
  - intros j n [[-> <-]|[_ ?]]%lookup_insert_cases; simpl; eauto.
  - intros q j. split.
    + intros [[-> <-]|[Hq Hj]]%lookup_insert_cases.
      * eexists. by rewrite lookup_insert_eq.
      * apply Hix in Hj as (n & Hn & <-). exists n.
        rewrite lookup_insert_ne by congruence. done.
    + intros (n & [[-> <-]|[Hj Hn]]%lookup_insert_cases & <-); simpl.
      * by rewrite lookup_insert_eq.
      * rewrite lookup_insert_ne; [apply Hix; eauto|]. intros ->.
        assert (NamespaceStore.path_index s !! Namespace.path n = Some j) by (apply Hix; eauto).
        congruence.
  - intros j n [[-> <-]|[_ Hn]]%lookup_insert_cases.
    + unfold placed. simpl. exists pn. rewrite lookup_insert_ne by congruence.
      split; [done|]. by apply child_Ok.
    + apply placed_insert; [|by apply Hpl]. congruence.
  - intros _. destruct Hr as (j & n & Hj & Hn).
    { intros He. by rewrite He in Epi. }
    exists j, n. rewrite lookup_insert_ne by congruence. done.
Qed.

Lemma disable_inv i s : namespace_inv s → namespace_inv (NamespaceStore.disable i s).1.
Proof.
  intros Hinv. unfold NamespaceStore.disable. destruct (_ !! i) as [n0|] eqn:Ei; [|done].
  case_bool_decide as Hroot; [done|]. case_bool_decide; [done|]. simpl.
  destruct Hinv as [Hk Hix Hpl Hr]. split; simpl.
  - intros j n [[-> <-]|[_ ?]]%lookup_insert_cases; simpl; eauto.
  - intros p j. rewrite Hix. split.
    + intros (n & Hn & <-). destruct (decide (i = j)) as [->|Hne].
      * eexists. rewrite lookup_insert_eq. split; [done|]. simpl. by simplify_eq.
      * exists n. by rewrite lookup_insert_ne.
    + intros (n & [[-> <-]|[Hj Hn]]%lookup_insert_cases & <-); eauto.
  - intros j n [[-> <-]|[_ Hn]]%lookup_insert_cases.
    + specialize (Hpl i n0 Ei). unfold placed in *. simpl.
      destruct (Namespace.parent_id n0) as [pi|]; [|done].
      destruct Hpl as (pn & Hpn & E). destruct (decide (i = pi)) as [->|Hne].
      * rewrite lookup_insert_eq. eexists. split; [done|]. simpl. by simplify_eq.
      * rewrite lookup_insert_ne by done. eauto.
    + apply placed_insert; [|by apply Hpl]. intros n1 ?. simpl. by simplify_eq.
  - intros _. destruct Hr as (j & n & Hj & Hn).
    { intros He. by rewrite He in Ei. }
    exists j, n. rewrite lookup_insert_ne by congruence. done.
Qed.

Lemma namespace_exec_inv o s : namespace_inv s → namespace_inv (namespace_exec o s).
Proof.
  destruct o; simpl; [apply bootstrap_root_inv|apply create_inv|apply disable_inv].
Qed.

Lemma namespace_reachable_inv ops :
  namespace_inv (run namespace_exec ops NamespaceStore.default).
Proof. apply run_invariant; [apply namespace_exec_inv|apply namespace_inv_default]. Qed.

(** * Qualification *)
Lemma trim_path p :
  trim_end_matches "/" (path_str p) = if bool_decide (segments p = []) then "" else path_str p.
Proof.
  case_bool_decide as E.
  - apply path_is_root in E as ->. done.
  - apply trim_end_matches_id. rewrite <- path_is_root in E.
    destruct p as [s H]. simpl in *. unfold CanonicalPath.check in H.
    case_bool_decide; [done|]. repeat (case_match; [done|]).
    rewrite bool_decide_eq_false_2 in H by done. destruct (ends_with "/" s); [done|]. tauto.
Qed.

(** The path [qualify] builds for an active namespace, as segments. *)
Lemma qualify_segments s i n p :
  NamespaceStore.namespaces s !! i = Some n → Namespace.state n = Active →
  NamespaceStore.qualify s i p =
  map_err NsDomain (CanonicalPath.parse (render (segments (Namespace.path n) ++ segments p))).
Proof.
  intros Hn Ha. unfold NamespaceStore.qualify, NamespaceStore.get. rewrite Hn. simpl.
  rewrite Ha, bool_decide_eq_false_2 by (intros []; done).
  case_bool_decide as Hr.
  - apply path_is_root in Hr as ->. rewrite app_nil_r, <- path_str_segments.
    by rewrite path_parse_as_str.
  - rewrite path_is_root in Hr. rewrite path_str_segments at 1. unfold render at 1.
    simpl. rewrite trim_path, render_app by done. case_bool_decide; [done|].
    by rewrite path_str_segments.
Qed.

Lemma qualify_Ok s i p q :
  NamespaceStore.qualify s i p = Ok q →
  ∃ n, NamespaceStore.namespaces s !! i = Some n ∧ Namespace.state n = Active
       ∧ segments q = segments (Namespace.path n) ++ segments p.
Proof.
  intros H. destruct (NamespaceStore.namespaces s !! i) as [n|] eqn:Hn.
  2:{ unfold NamespaceStore.qualify, NamespaceStore.get in H. by rewrite Hn in H. }
  destruct (decide (Namespace.state n = Active)) as [Ha|Ha].
  2:{ unfold NamespaceStore.qualify, NamespaceStore.get in H. rewrite Hn in H. simpl in H.
      by rewrite bool_decide_eq_true_2 in H. }
  exists n. split; [done|]. split; [done|]. rewrite (qualify_segments s i n p Hn Ha) in H.
  destruct (CanonicalPath.parse _) as [q'|] eqn:E; simplify_eq/=.
  destruct (path_parse_render (segments (Namespace.path n) ++ segments p))
    as [(_ & q' & Hq & ?)|[_ Hq]]; [|congruence..].
  apply Forall_app; split; apply segments_valid.
Qed.

Lemma resolves_prefix path n :
  NamespaceStore.resolves path n → segments (Namespace.path n) `prefix_of` segments path.
Proof. unfold NamespaceStore.resolves. rewrite andb_True, matches_prefix_segments. tauto. Qed.

(** ** Properties *)

(** The namespace tree invariant holds on every store the API can build:
    each namespace sits under its identifier, the path index is exactly the
    inverse of the namespaces' paths (so no two namespaces share a path), the
    only parentless namespace is the active root at [/], and every other
    namespace lives exactly one segment, its own identifier, below an existing
    parent.  Consequently [create] never fails with [DuplicatePath]. *)
Theorem namespace_tree_invariant (ops : list NamespaceOp) (i pi : Id) :
  let s := run namespace_exec ops NamespaceStore.default in
  namespace_inv s ∧ (NamespaceStore.create i pi s).2 ≠ Err NsDuplicatePath.
Proof.
  intros s. pose proof (namespace_reachable_inv ops) as Hinv. fold s in Hinv.
  split; [done|]. unfold NamespaceStore.create.
  destruct (_ !! i) eqn:Ei; [done|]. destruct (_ !! pi) as [pn|] eqn:Epi; [|done].
  case_bool_decide; [done|]. destruct (CanonicalPath.child _ i) as [p|] eqn:Ec; [|done].
  by rewrite (child_path_free s i pi pn p).
Qed.

(** Qualification concatenates segments and nothing else: for an existing
    active namespace, [qualify] returns the path whose segments are the
    namespace's followed by the request's, failing only when that path is over
    the length bound; a disabled or missing namespace is refused.  It never
    returns [InvalidResourcePath]. *)
Theorem qualify_spec (s : NamespaceStore) (i : Id) (p : CanonicalPath) :
  match NamespaceStore.namespaces s !! i with
  | None => NamespaceStore.qualify s i p = Err MissingNamespace
  | Some n =>
      match Namespace.state n with
      | Disabled => NamespaceStore.qualify s i p = Err NamespaceDisabled
      | Active =>
          let segs := segments (Namespace.path n) ++ segments p in
          if decide (String.length (render segs) ≤ MAX_PATH_BYTES)
          then ∃ q, NamespaceStore.qualify s i p = Ok q ∧ segments q = segs
          else NamespaceStore.qualify s i p = Err (NsDomain PathTooLong)
      end
  end.
Proof.
  destruct (_ !! i) as [n|] eqn:Hn; cycle 1.
  { unfold NamespaceStore.qualify, NamespaceStore.get. by rewrite Hn. }
  destruct (Namespace.state n) eqn:Hs; cycle 1.
  { unfold NamespaceStore.qualify, NamespaceStore.get. rewrite Hn. simpl.
    by rewrite Hs, bool_decide_eq_true_2. }
  intros segs. rewrite (qualify_segments s i n p Hn Hs). fold segs.
  destruct (path_parse_render segs) as [(Hl & q & -> & ?)|[Hl ->]].
  { apply Forall_app; split; apply segments_valid. }
  - rewrite decide_True by done. eauto.
  - by rewrite decide_False by lia.
Qed.

(** Resolution picks the deepest active namespace.  On a store the API
    built after bootstrapping a root, [resolve] always succeeds: its result is
    an active namespace of the store whose path is a segment prefix of the
    argument, and every other active namespace with that property lies at or
    above it. *)
Theorem resolve_deepest (ops : list NamespaceOp) (path : CanonicalPath) :
  let s := run namespace_exec ops NamespaceStore.default in
  NamespaceStore.namespaces s ≠ ∅ →
  ∃ i n, NamespaceStore.resolve s path = Ok n
    ∧ NamespaceStore.namespaces s !! i = Some n ∧ Namespace.state n = Active
    ∧ segments (Namespace.path n) `prefix_of` segments path
    ∧ ∀ j n', NamespaceStore.namespaces s !! j = Some n' → Namespace.state n' = Active →
        segments (Namespace.path n') `prefix_of` segments path →
        segments (Namespace.path n') `prefix_of` segments (Namespace.path n).
Proof.
  intros s Hne. pose proof (namespace_reachable_inv ops) as Hinv. fold s in Hinv.
  unfold NamespaceStore.resolve. destruct (longest_match _ _ _) as [n|] eqn:E; simpl.
  - apply (longest_match_Some _ _ path (resolves_prefix path)) in E as ((i & Hi) & Hf & Hmax).
    unfold NamespaceStore.resolves in Hf. rewrite andb_True, bool_decide_spec, matches_prefix_segments in Hf.
    destruct Hf as [Hst Hpre]. exists i, n. split_and!; [done..|].
    intros j n' Hj Ha Hp. apply (Hmax j); [done|]. unfold NamespaceStore.resolves.
    by rewrite andb_True, bool_decide_spec, matches_prefix_segments.
  - exfalso. destruct (inv_ns_root s Hinv Hne) as (i & n & Hi & Hp).
    rewrite longest_match_None in E. apply (E i n Hi).
    pose proof (inv_ns_placed s Hinv i n Hi) as Hpl. unfold placed in Hpl. rewrite Hp in Hpl.
    destruct Hpl as [Hpath Hact]. unfold NamespaceStore.resolves.
    rewrite andb_True, bool_decide_spec, matches_prefix_segments, Hpath.
    split; [done|]. apply prefix_nil.
Qed.

Lemma resolve_deepest_witness :
  let s := run namespace_exec [NOpBootstrapRoot (Id.mk "root" I)] NamespaceStore.default in
  ∃ n, NamespaceStore.resolve s CanonicalPath.root = Ok n.
Proof.
  intros s. destruct (resolve_deepest [NOpBootstrapRoot (Id.mk "root" I)] CanonicalPath.root)
    as (i & n & Hn & _).
  - intros E. apply (f_equal (λ m, bool_decide (is_Some (m !! Id.mk "root" I)))) in E.
    vm_compute in E. discriminate E.
  - exists n. exact Hn.
Defined.
