(* ===== verification/MountRouter.v ===== *)
(** [crates/heptabao-mount-router]: namespace-scoped longest-prefix routing. *)
From Stdlib Require Import Ascii NArith.
From S2P Require Import Prelude Str Domain.

Inductive Backend : Type := Kv | Plugin (id : Id).

#[export] Instance Backend_eq_dec : EqDecision Backend.
Proof. solve_decision. Defined.

Inductive MountError : Type :=
| DuplicateMount | MountDuplicatePath | MissingMount | NoRoute | NoStateChange.

#[export] Instance MountError_eq_dec : EqDecision MountError.
Proof. solve_decision. Defined.

Module Mount.
Record t := mk {
  id : Id;
  namespace_id : Id;
  path : CanonicalPath;
  backend : Backend;
  enabled : bool;
  generation : N;
}.
End Mount.
Notation Mount := Mount.t.

Module Route.
Record t := mk {
  mount_id : Id;
  backend : Backend;
  relative_path : string;
  mount_generation : N;
}.
End Route.
Notation Route := Route.t.

Module MountRouter.

Record t := mk { mounts : gmap Id Mount }.

Definition default : t := mk ∅.

Definition mount (id namespace_id : Id) (path : CanonicalPath) (backend : Backend) :
  M t MountError Mount := λ self,
  match mounts self !! id with
  | Some _ => (self, Err DuplicateMount)
  | None =>
      if existsb (λ m, bool_decide (Mount.namespace_id m = namespace_id)
                       && bool_decide (Mount.path m = path)) (btree_values (mounts self))
      then (self, Err MountDuplicatePath)
      else
        let m := Mount.mk id namespace_id path backend true 1 in
        (mk (<[id := m]> (mounts self)), Ok m)
  end.

Definition set_enabled (id : Id) (enabled : bool) : M t MountError unit := λ self,
  match mounts self !! id with
  | None => (self, Err MissingMount)
  | Some m =>
      if bool_decide (Mount.enabled m = enabled) then (self, Err NoStateChange)
      else
        let m' := Mount.mk (Mount.id m) (Mount.namespace_id m) (Mount.path m) (Mount.backend m)
                    enabled (saturating_add (Mount.generation m) 1) in
        (mk (<[id := m']> (mounts self)), Ok tt)
  end.

Definition unmount (id : Id) : M t MountError Mount := λ self,
  match mounts self !! id with
  | None => (self, Err MissingMount)
  | Some m => (mk (delete id (mounts self)), Ok m)
  end.

(** The filter of [route]. *)
Definition routes (namespace_id : Id) (path : CanonicalPath) (m : Mount) : bool :=
  Mount.enabled m && bool_decide (Mount.namespace_id m = namespace_id)
  && CanonicalPath.matches_prefix path (Mount.path m).

Definition route (self : t) (namespace_id : Id) (path : CanonicalPath) : Result Route MountError :=
  let? m := ok_or (longest_match Mount.path (routes namespace_id path) (mounts self)) NoRoute in
  let? relative := ok_or (CanonicalPath.relative_to path (Mount.path m)) NoRoute in
  Ok (Route.mk (Mount.id m) (Mount.backend m) relative (Mount.generation m)).

End MountRouter.
Notation MountRouter := MountRouter.t.

Inductive MountOp : Type :=
| MOpMount (id namespace_id : Id) (path : CanonicalPath) (backend : Backend)
| MOpSetEnabled (id : Id) (enabled : bool)
| MOpUnmount (id : Id).

Definition mount_exec (o : MountOp) (s : MountRouter) : MountRouter :=
  match o with
  | MOpMount i n p b => (MountRouter.mount i n p b s).1
  | MOpSetEnabled i e => (MountRouter.set_enabled i e s).1
  | MOpUnmount i => (MountRouter.unmount i s).1
  end.

(** * Invariant: keys, and one mount per namespace and path *)
Record mount_inv (s : MountRouter) : Prop := {
  inv_mount_key : ∀ i m, MountRouter.mounts s !! i = Some m → Mount.id m = i;
  inv_mount_unique : ∀ i j m n,
    MountRouter.mounts s !! i = Some m → MountRouter.mounts s !! j = Some n →
    Mount.namespace_id m = Mount.namespace_id n → Mount.path m = Mount.path n → i = j;
}.

Lemma mount_inv_default : mount_inv MountRouter.default.
Proof. split; simpl; setoid_rewrite lookup_empty; naive_solver. Qed.

Lemma existsb_values_false {V} (f : V → bool) (m : gmap Id V) :
  existsb f (btree_values m) = false → ∀ k v, m !! k = Some v → ¬ f v.
Proof.
  intros H k v Hk Hf. apply not_true_iff_false in H. apply H, existsb_exists.
  exists v. split; [|by apply Is_true_true]. apply list_elem_of_In, elem_of_btree_values. eauto.
Qed.

Lemma mount_exec_inv o s : mount_inv s → mount_inv (mount_exec o s).
Proof.
  intros [Hk Hu]. destruct o as [i n p b|i e|i]; simpl.
  - unfold MountRouter.mount. destruct (_ !! i) eqn:Ei; [by split|].
    destruct (existsb _ _) eqn:Ex; [by split|]. simpl.
    assert (∀ j m, MountRouter.mounts s !! j = Some m →
              Mount.namespace_id m = n → Mount.path m = p → False) as Hfree.
    { intros j m Hj Hn Hp. apply (existsb_values_false _ _ Ex j m Hj).
      by rewrite andb_True, !bool_decide_spec. }
    split; simpl.
    + intros j m. rewrite lookup_insert_Some. naive_solver.
    + intros j k m m'. rewrite !lookup_insert_Some.
      intros [[<- <-]|[? Hm]] [[<- <-]|[? Hm']]; simpl; intros En Ep; [done| | |eauto];
        exfalso; eauto.
  - unfold MountRouter.set_enabled. destruct (_ !! i) as [m0|] eqn:Ei; [|by split].
    case_bool_decide; [by split|]. split; simpl.
    + intros j m. rewrite lookup_insert_Some. intros [[<- <-]|[? ?]]; simpl; eauto.
    + intros j k m m'. rewrite !lookup_insert_Some.
      intros [[<- <-]|[? Hm]] [[<- <-]|[? Hm']]; simpl; eauto.
  - unfold MountRouter.unmount. destruct (_ !! i) eqn:Ei; [|by split]. split; simpl.
    + intros j m [_ ?]%lookup_delete_Some. eauto.
    + intros j k m m' [_ ?]%lookup_delete_Some [_ ?]%lookup_delete_Some. eauto.
Qed.

Lemma mount_reachable_inv ops : mount_inv (run mount_exec ops MountRouter.default).
Proof. apply run_invariant; [apply mount_exec_inv|apply mount_inv_default]. Qed.

(** * Routing *)
Lemma routes_spec ns path m :
  MountRouter.routes ns path m ↔
  Mount.enabled m = true ∧ Mount.namespace_id m = ns
  ∧ segments (Mount.path m) `prefix_of` segments path.
Proof.
  unfold MountRouter.routes.
  rewrite !andb_True, bool_decide_spec, matches_prefix_segments, Is_true_true. tauto.
Qed.

Lemma route_Ok s ns path r :
  MountRouter.route s ns path = Ok r →
  ∃ k m rel, MountRouter.mounts s !! k = Some m ∧ MountRouter.routes ns path m
    ∧ r = Route.mk (Mount.id m) (Mount.backend m) (join "/" rel) (Mount.generation m)
    ∧ segments path = segments (Mount.path m) ++ rel
    ∧ ∀ j n, MountRouter.mounts s !! j = Some n → MountRouter.routes ns path n →
             segments (Mount.path n) `prefix_of` segments (Mount.path m).
Proof.
  unfold MountRouter.route. destruct (longest_match _ _ _) as [m|] eqn:E; simpl; [|done].
  apply (longest_match_Some _ _ path) in E as ((k & Hk) & Hf & Hmax).
  2:{ intros v Hv%routes_spec. naive_solver. }
  destruct (CanonicalPath.relative_to _ _) as [rel|] eqn:Er; simpl; [|done].
  intros [= <-]. apply relative_to_segments in Er as (l & Hs & ->). by exists k, m, l.
Qed.

(** [route] fails only when no enabled mount of the namespace covers the path. *)
Lemma route_Err s ns path e :
  MountRouter.route s ns path = Err e →
  e = NoRoute ∧ ∀ k m, MountRouter.mounts s !! k = Some m → ¬ MountRouter.routes ns path m.
Proof.
  unfold MountRouter.route. destruct (longest_match _ _ _) as [m|] eqn:E; simpl.
  - apply (longest_match_Some _ _ path) in E as (_ & (_ & _ & l & Hs)%routes_spec & _).
    2:{ intros v Hv%routes_spec. naive_solver. }
    destruct (CanonicalPath.relative_to _ _) eqn:Er; simpl; [done|].
    rewrite (proj2 (relative_to_segments path (Mount.path m) (join "/" l))) in Er; eauto.
    discriminate.
  - intros [= <-]. split; [done|]. by rewrite longest_match_None in E.
Qed.

(** ** Properties *)

(** Routing is longest-prefix and unambiguous.  On every router the API
    can build, a successful [route] names the one enabled mount of the
    namespace that covers the path and is deepest among those that do, returns
    the rest of the path below it (joined segments), and no other mount of the
    namespace has the same path; [route] fails, always with [NoRoute], exactly
    when no enabled mount of the namespace covers the path. *)
Theorem route_longest_prefix (ops : list MountOp) (ns : Id) (path : CanonicalPath) :
  let s := run mount_exec ops MountRouter.default in
  match MountRouter.route s ns path with
  | Ok r => ∃ m rel,
      MountRouter.mounts s !! Route.mount_id r = Some m
      ∧ Mount.enabled m = true ∧ Mount.namespace_id m = ns ∧ Route.backend r = Mount.backend m
      ∧ segments path = segments (Mount.path m) ++ rel ∧ Route.relative_path r = join "/" rel
      ∧ (∀ j n, MountRouter.mounts s !! j = Some n → Mount.enabled n = true →
           Mount.namespace_id n = ns → segments (Mount.path n) `prefix_of` segments path →
           segments (Mount.path n) `prefix_of` segments (Mount.path m))
      ∧ (∀ j n, MountRouter.mounts s !! j = Some n → Mount.namespace_id n = ns →
           Mount.path n = Mount.path m → j = Route.mount_id r)
  | Err e => e = NoRoute ∧
      ∀ j n, MountRouter.mounts s !! j = Some n → Mount.enabled n = true →
        Mount.namespace_id n = ns → ¬ segments (Mount.path n) `prefix_of` segments path
  end.
Proof.
  intros s. pose proof (mount_reachable_inv ops) as [Hk Hu]. fold s in Hk, Hu.
  destruct (MountRouter.route s ns path) as [r|e] eqn:E.
  - apply route_Ok in E as (k & m & rel & Hm & (He & Hn & Hp)%routes_spec & -> & Hs & Hmax).
    exists m, rel. simpl. rewrite (Hk k m Hm). split_and!; [done..| |].
    + intros j n Hj He' Hn' Hp'. apply (Hmax j n Hj). by apply routes_spec.
    + intros j n Hj Hn' Hp'. apply (Hu j k n m Hj Hm); [congruence|done].
  - apply route_Err in E as [-> Hno]. split; [done|].
    intros j n Hj He Hn Hp. apply (Hno j n Hj). by apply routes_spec.
Qed.
