(* ===== verification/KvEngine.v ===== *)
(** [crates/heptabao-kv-engine]: the versioned key-value engine.

    Each path has a history of version records, oldest first.  [write] appends
    the next version under an optional compare-and-set guard and trims the
    history to [max_versions]; [delete_latest] and [undelete] toggle a tombstone;
    [destroy] erases values for good. *)
From Stdlib Require Import Ascii NArith.
From S2P Require Import Prelude Str Domain.

Inductive KvError : Type :=
| InvalidMaxVersions | MissingKey | MissingVersion | CasMismatch
| VersionOverflow | Deleted | Destroyed | NotDeleted.

#[export] Instance KvError_eq_dec : EqDecision KvError.
Proof. solve_decision. Defined.

Module KvMetadata.
Record t := mk {
  version : N;
  created_at : Tick;
  deleted : bool;
  destroyed : bool;
}.
End KvMetadata.
Notation KvMetadata := KvMetadata.t.

#[export] Instance KvMetadata_eq_dec : EqDecision KvMetadata.
Proof. solve_decision. Defined.

Module VersionRecord.
Record t := mk { metadata : KvMetadata; value : option SecretValue }.

Definition version (r : t) : N := KvMetadata.version (metadata r).

(** [record.metadata.deleted = b]. *)
Definition set_deleted (b : bool) (r : t) : t :=
  mk (KvMetadata.mk (KvMetadata.version (metadata r)) (KvMetadata.created_at (metadata r))
        b (KvMetadata.destroyed (metadata r))) (value r).

(** [record.value = None; destroyed = true; deleted = true]. *)
Definition erase (r : t) : t :=
  mk (KvMetadata.mk (KvMetadata.version (metadata r)) (KvMetadata.created_at (metadata r))
        true true) None.
End VersionRecord.
Notation VersionRecord := VersionRecord.t.

Module KvRead.
Record t := mk { metadata : KvMetadata; value : string }.
End KvRead.
Notation KvRead := KvRead.t.

(** [history.iter().find(|r| r.metadata.version == v)]. *)
Fixpoint find_version (v : N) (h : list VersionRecord) : option VersionRecord :=
  match h with
  | [] => None
  | r :: h => if (VersionRecord.version r =? v)%N then Some r else find_version v h
  end.

(** Assignment through [history.iter_mut().find(..)]: the first match changes. *)
Fixpoint update_version (v : N) (f : VersionRecord → VersionRecord)
    (h : list VersionRecord) : list VersionRecord :=
  match h with
  | [] => []
  | r :: h => if (VersionRecord.version r =? v)%N then f r :: h
              else r :: update_version v f h
  end.

(** Assignment through [history.last_mut()]. *)
Fixpoint update_last (f : VersionRecord → VersionRecord) (h : list VersionRecord) :
  list VersionRecord :=
  match h with
  | [] => []
  | [r] => [f r]
  | r :: h => r :: update_last f h
  end.

(** [while history.len() > max { history.remove(0); }]. *)
Fixpoint trim (max : nat) (h : list VersionRecord) : list VersionRecord :=
  match h with
  | [] => []
  | r :: h' => if max <? length h then trim max h' else h
  end.

Module KvStore.

Record t := mk {
  entries : gmap CanonicalPath (list VersionRecord);
  max_versions : nat;
}.

Definition new (max_versions : nat) : Result t KvError :=
  if max_versions =? 0 then Err InvalidMaxVersions else Ok (mk ∅ max_versions).

Definition current_version (self : t) (path : CanonicalPath) : N :=
  match entries self !! path with
  | Some history => match last history with
                    | Some record => VersionRecord.version record
                    | None => 0
                    end
  | None => 0
  end.

Definition write (path : CanonicalPath) (value : SecretValue) (now : Tick) (cas : option N) :
  M t KvError KvMetadata := λ self,
  let current := current_version self path in
  if match cas with Some expected => negb (expected =? current)%N | None => false end
  then (self, Err CasMismatch)
  else match checked_add current 1 with
  | None => (self, Err VersionOverflow)
  | Some version =>
      let metadata := KvMetadata.mk version now false false in
      let history := default [] (entries self !! path) in
      let history := history ++ [VersionRecord.mk metadata (Some value)] in
      let history := trim (max_versions self) history in
      (mk (<[path := history]> (entries self)) (max_versions self), Ok metadata)
  end.

Definition read (self : t) (path : CanonicalPath) (version : option N) : Result KvRead KvError :=
  let? history := ok_or (entries self !! path) MissingKey in
  let? record := match version with
                 | Some expected => ok_or (find_version expected history) MissingVersion
                 | None => ok_or (last history) MissingVersion
                 end in
  if KvMetadata.destroyed (VersionRecord.metadata record) then Err Destroyed
  else if KvMetadata.deleted (VersionRecord.metadata record) then Err Deleted
  else let? value := ok_or (VersionRecord.value record) Destroyed in
       Ok (KvRead.mk (VersionRecord.metadata record) (SecretValue.expose value)).

Definition delete_latest (path : CanonicalPath) : M t KvError KvMetadata := λ self,
  match entries self !! path with
  | None => (self, Err MissingKey)
  | Some history =>
      match last history with
      | None => (self, Err MissingVersion)
      | Some record =>
          if KvMetadata.destroyed (VersionRecord.metadata record) then (self, Err Destroyed)
          else if KvMetadata.deleted (VersionRecord.metadata record) then (self, Err Deleted)
          else (mk (<[path := update_last (VersionRecord.set_deleted true) history]>
                      (entries self)) (max_versions self),
                Ok (VersionRecord.metadata (VersionRecord.set_deleted true record)))
      end
  end.

Definition undelete (path : CanonicalPath) (version : N) : M t KvError KvMetadata := λ self,
  match entries self !! path with
  | None => (self, Err MissingKey)
  | Some history =>
      match find_version version history with
      | None => (self, Err MissingVersion)
      | Some record =>
          if KvMetadata.destroyed (VersionRecord.metadata record) then (self, Err Destroyed)
          else if negb (KvMetadata.deleted (VersionRecord.metadata record))
          then (self, Err NotDeleted)
          else (mk (<[path := update_version version (VersionRecord.set_deleted false) history]>
                      (entries self)) (max_versions self),
                Ok (VersionRecord.metadata (VersionRecord.set_deleted false record)))
      end
  end.

(** The loop of [destroy]: the history and the count so far, or the error with
    the history as it was when the loop stopped. *)
Fixpoint destroy_loop (versions : list N) (history : list VersionRecord) (changed : nat) :
  list VersionRecord * Result nat KvError :=
  match versions with
  | [] => (history, Ok changed)
  | version :: versions =>
      match find_version version history with
      | None => (history, Err MissingVersion)
      | Some record =>
          if negb (KvMetadata.destroyed (VersionRecord.metadata record))
          then destroy_loop versions (update_version version VersionRecord.erase history)
                 (changed + 1)
          else destroy_loop versions history changed
      end
  end.

Definition destroy (path : CanonicalPath) (versions : list N) : M t KvError nat := λ self,
  if bool_decide (length versions = 0) then (self, Err MissingVersion)
  else match entries self !! path with
  | None => (self, Err MissingKey)
  | Some history =>
      if existsb (λ version,
            negb (existsb (λ record, (VersionRecord.version record =? version)%N) history))
           versions
      then (self, Err MissingVersion)
      else let '(history', r) := destroy_loop versions history 0 in
           (mk (<[path := history']> (entries self)) (max_versions self), r)
  end.

Definition list (self : t) (prefix : CanonicalPath) : list CanonicalPath :=
  filter (λ path, Is_true (CanonicalPath.matches_prefix path prefix))
    (btree_keys (entries self)).

End KvStore.
Notation KvStore := KvStore.t.

Inductive KvOp : Type :=
| KOpWrite (path : CanonicalPath) (value : SecretValue) (now : Tick) (cas : option N)
| KOpDeleteLatest (path : CanonicalPath)
| KOpUndelete (path : CanonicalPath) (version : N)
| KOpDestroy (path : CanonicalPath) (versions : list N).

Definition kv_exec (o : KvOp) (s : KvStore) : KvStore :=
  match o with
  | KOpWrite p v now cas => (KvStore.write p v now cas s).1
  | KOpDeleteLatest p => (KvStore.delete_latest p s).1
  | KOpUndelete p v => (KvStore.undelete p v s).1
  | KOpDestroy p vs => (KvStore.destroy p vs s).1
  end.

(** * Correctness of the versioned key-value engine.

    The reference view of a history is the partial map from version numbers to
    records, [λ v, find_version v h]; [numbered] says the stored versions are
    consecutive, which is what lets positions, [last] and the map agree. *)

(** * Consecutive histories *)
Fixpoint numbered (first : N) (h : list VersionRecord) : Prop :=
  match h with
  | [] => True
  | r :: h => VersionRecord.version r = first ∧ numbered (first + 1) h
  end.

Definition hlen (h : list VersionRecord) : N := N.of_nat (length h).

Lemma hlen_cons r h : hlen (r :: h) = (hlen h + 1)%N.
Proof. unfold hlen. simpl. lia. Qed.

Lemma numbered_app f h1 h2 :
  numbered f (h1 ++ h2) ↔ numbered f h1 ∧ numbered (f + hlen h1) h2.
Proof.
  revert f. induction h1 as [|r h1 IH]; intros f; simpl.
  - unfold hlen. simpl. rewrite N.add_0_r. tauto.
  - rewrite IH, hlen_cons. replace (f + 1 + hlen h1)%N with (f + (hlen h1 + 1))%N by lia. tauto.
Qed.

Lemma numbered_drop f n h : numbered f h → numbered (f + N.of_nat n) (drop n h).
Proof.
  revert f h. induction n as [|n IH]; intros f h H.
  - rewrite drop_0. by rewrite N.add_0_r.
  - destruct h as [|r h]; [done|]. simpl in *. destruct H as [_ H].
    specialize (IH _ _ H). by replace (f + N.of_nat (S n))%N with (f + 1 + N.of_nat n)%N by lia.
Qed.

Lemma find_version_range f h v r :
  numbered f h → find_version v h = Some r →
  VersionRecord.version r = v ∧ (f ≤ v < f + hlen h)%N.
Proof.
  revert f. induction h as [|x h IH]; intros f; simpl; [done|]. intros [Hx Hn].
  rewrite hlen_cons. destruct (N.eqb_spec (VersionRecord.version x) v) as [E|E].
  - intros [= <-]. lia.
  - intros H. destruct (IH _ Hn H). lia.
Qed.

Lemma find_version_Some f h v :
  numbered f h → (f ≤ v < f + hlen h)%N → is_Some (find_version v h).
Proof.
  revert f. induction h as [|x h IH]; intros f; simpl; [unfold hlen; simpl; lia|].
  intros [Hx Hn]. rewrite hlen_cons. intros Hv.
  destruct (N.eqb_spec (VersionRecord.version x) v); [eauto|]. apply (IH (f + 1)%N Hn). lia.
Qed.

Lemma find_version_None f h v :
  numbered f h → (v < f ∨ f + hlen h ≤ v)%N → find_version v h = None.
Proof.
  intros Hn Hv. destruct (find_version v h) eqn:E; [|done].
  destruct (find_version_range _ _ _ _ Hn E). lia.
Qed.

Lemma find_version_drop f h n v :
  numbered f h →
  find_version v (drop n h) = if (v <? f + N.of_nat n)%N then None else find_version v h.
Proof.
  revert f h. induction n as [|n IH]; intros f h Hn.
  - rewrite drop_0, N.add_0_r. destruct (N.ltb_spec v f); [|done].
    apply (find_version_None f); auto.
  - destruct h as [|r h]; [by destruct (_ <? _)%N|].
    simpl in Hn. destruct Hn as [Hr Hn]. simpl drop. rewrite (IH _ _ Hn).
    replace (f + N.of_nat (S n))%N with (f + 1 + N.of_nat n)%N by lia.
    destruct (N.ltb_spec v (f + 1 + N.of_nat n)); [done|]. simpl.
    by destruct (N.eqb_spec (VersionRecord.version r) v); [lia|].
Qed.

Lemma find_version_snoc f h r v :
  numbered f (h ++ [r]) →
  find_version v (h ++ [r]) = if (v =? f + hlen h)%N then Some r else find_version v h.
Proof.
  revert f. induction h as [|x h IH]; intros f; simpl.
  - unfold hlen. simpl. rewrite N.add_0_r. intros [-> _]. by rewrite N.eqb_sym.
  - intros [Hx Hn]. rewrite (IH _ Hn), hlen_cons.
    replace (f + 1 + hlen h)%N with (f + (hlen h + 1))%N by lia.
    destruct (N.eqb_spec (VersionRecord.version x) v), (N.eqb_spec v (f + (hlen h + 1)));
      [lia|done..].
Qed.

(** The last record is the one with the current version. *)
Lemma last_numbered f h r :
  numbered f h → last h = Some r →
  VersionRecord.version r = (f + hlen h - 1)%N ∧ find_version (VersionRecord.version r) h = Some r.
Proof.
  intros Hn Hl. apply last_Some in Hl as (l & ->).
  pose proof Hn as Hn'. apply numbered_app in Hn' as [_ [Hr _]].
  assert (hlen (l ++ [r]) = hlen l + 1)%N as Hlen by (unfold hlen; rewrite length_app; simpl; lia).
  split; [lia|]. rewrite (find_version_snoc f) by done. by rewrite Hr, N.eqb_refl.
Qed.

(** * Updates keep the shape and change one version *)
Section update.
Context (f : VersionRecord → VersionRecord).
Context (Hver : ∀ r, VersionRecord.version (f r) = VersionRecord.version r).

Lemma find_update v w h :
  find_version w (update_version v f h) =
  if (w =? v)%N then f <$> find_version w h else find_version w h.
Proof using Hver.
  induction h as [|r h IH]; simpl; [by destruct (_ =? _)%N|].
  destruct (N.eqb_spec (VersionRecord.version r) v) as [Ev|Ev]; simpl.
  - rewrite Hver. destruct (N.eqb_spec w v) as [->|Hw].
    + by rewrite Ev, N.eqb_refl.
    + by destruct (N.eqb_spec (VersionRecord.version r) w); [congruence|].
  - rewrite IH. destruct (N.eqb_spec (VersionRecord.version r) w); [|done].
    by destruct (N.eqb_spec w v); [congruence|].
Qed.

Lemma numbered_update first v h : numbered first h → numbered first (update_version v f h).
Proof using Hver.
  revert first. induction h as [|r h IH]; intros first; simpl; [done|].
  intros [Hr Hn]. destruct (_ =? v)%N; simpl; [|auto]. by rewrite Hver.
Qed.

Lemma length_update v h : length (update_version v f h) = length h.
Proof using Type. induction h as [|r h IH]; simpl; [done|]. by destruct (_ =? v)%N; simpl; rewrite ?IH. Qed.

Lemma Forall_update (P : VersionRecord → Prop) v h :
  Forall P h → (∀ r, find_version v h = Some r → P r → P (f r)) →
  Forall P (update_version v f h).
Proof using Type.
  intros HP. induction HP as [|r h Hr HP IH]; simpl; [done|].
  destruct (_ =? v)%N; intros Hf; constructor; auto.
Qed.

Lemma update_last_version first h r :
  numbered first h → last h = Some r →
  update_last f h = update_version (VersionRecord.version r) f h.
Proof using Type.
  clear Hver. revert first. induction h as [|x h IH]; intros first Hn Hl; [done|].
  destruct h as [|y h].
  - simpl in *. simplify_eq. by rewrite N.eqb_refl.
  - assert (Hl' : last (y :: h) = Some r) by done.
    simpl in Hn. destruct Hn as [Hx Hn].
    assert (Hn' : numbered (first + 1) (y :: h)) by done.
    destruct (last_numbered _ _ _ Hn' Hl') as [Hr _]. rewrite hlen_cons in Hr.
    change (update_last f (x :: y :: h)) with (x :: update_last f (y :: h)).
    rewrite (IH _ Hn' Hl'). cbn [update_version].
    destruct (N.eqb_spec (VersionRecord.version x) (VersionRecord.version r)); [lia|done].
Qed.
End update.

Lemma update_version_ext f g v h :
  (∀ r, find_version v h = Some r → f r = g r) → update_version v f h = update_version v g h.
Proof.
  induction h as [|r h IH]; simpl; [done|].
  destruct (_ =? v)%N; intros H; f_equal; auto.
Qed.

Lemma update_version_id v h : update_version v (λ r, r) h = h.
Proof. induction h as [|r h IH]; simpl; [done|]. destruct (_ =? v)%N; congruence. Qed.

Lemma update_update f g v h :
  (∀ r, VersionRecord.version (g r) = VersionRecord.version r) →
  update_version v f (update_version v g h) = update_version v (λ r, f (g r)) h.
Proof.
  intros Hg. induction h as [|r h IH]; simpl; [done|].
  destruct (_ =? v)%N eqn:E; simpl; rewrite ?Hg, E; [done|]. by rewrite IH.
Qed.

Lemma trim_drop max h : trim max h = drop (length h - max) h.
Proof.
  induction h as [|r h IH]; [done|]. cbn [trim].
  destruct (Nat.ltb_spec max (length (r :: h))) as [Hlt|Hge]; cbn [length] in *.
  - rewrite IH. by replace (S (length h) - max) with (S (length h - max)) by lia.
  - by replace (S (length h) - max) with 0 by lia.
Qed.

(** * The store invariant *)

(** A destroyed version has no value and is marked deleted; any other has one. *)
Definition record_wf (r : VersionRecord) : Prop :=
  let m := VersionRecord.metadata r in
  if KvMetadata.destroyed m
  then KvMetadata.deleted m = true ∧ VersionRecord.value r = None
  else is_Some (VersionRecord.value r).

Record hist_inv (max : nat) (h : list VersionRecord) : Prop := {
  hist_nonempty : h ≠ [];
  hist_bound : length h ≤ max;
  hist_numbered : ∃ first, (1 ≤ first)%N ∧ numbered first h ∧ (first + hlen h - 1 ≤ U64_MAX)%N;
  hist_records : Forall record_wf h;
}.

Definition kv_inv (s : KvStore) : Prop :=
  0 < KvStore.max_versions s ∧
  ∀ p h, KvStore.entries s !! p = Some h → hist_inv (KvStore.max_versions s) h.

Lemma kv_new_inv max s : KvStore.new max = Ok s → kv_inv s.
Proof.
  unfold KvStore.new. destruct (Nat.eqb_spec max 0); [done|]. intros [= <-].
  split; simpl; [lia|]. by setoid_rewrite lookup_empty.
Qed.

Lemma kv_inv_insert s p h :
  kv_inv s → hist_inv (KvStore.max_versions s) h →
  kv_inv (KvStore.mk (<[p := h]> (KvStore.entries s)) (KvStore.max_versions s)).
Proof.
  intros [Hmax Hinv] Hh. split; [done|]. simpl. intros q k.
  rewrite lookup_insert_Some. intros [[<- <-]|[_ ?]]; eauto.
Qed.

(** Changing one version in place keeps the history invariant. *)
Lemma hist_inv_update max f v h :
  (∀ r, VersionRecord.version (f r) = VersionRecord.version r) →
  (∀ r, find_version v h = Some r → record_wf r → record_wf (f r)) →
  hist_inv max h → hist_inv max (update_version v f h).
Proof.
  intros Hver Hwf [Hne Hb (first & H1 & Hn & Hmax) HF]. split.
  - intros E. apply Hne, length_zero_iff_nil. by rewrite <- (length_update f v h), E.
  - by rewrite length_update.
  - exists first. unfold hlen. rewrite length_update. auto using numbered_update.
  - by apply Forall_update.
Qed.

(** What a path's history contains, for an existing path or a fresh one. *)
Lemma current_version_numbered s p h :
  kv_inv s → KvStore.entries s !! p = Some h →
  ∃ first r, (1 ≤ first)%N ∧ numbered first h ∧ last h = Some r ∧
    KvStore.current_version s p = VersionRecord.version r ∧
    VersionRecord.version r = (first + hlen h - 1)%N ∧
    find_version (VersionRecord.version r) h = Some r ∧ (0 < hlen h)%N
    ∧ (VersionRecord.version r ≤ U64_MAX)%N.
Proof.
  intros [_ Hinv] Hp. destruct (Hinv p h Hp) as [Hne _ (first & H1 & Hn & Hm) _].
  destruct (last h) as [r|] eqn:Hl; [|by apply last_None in Hl].
  destruct (last_numbered _ _ _ Hn Hl) as [Hv Hf].
  exists first, r. split_and!; auto; [|by destruct h; [|rewrite hlen_cons; lia]|lia].
  unfold KvStore.current_version. by rewrite Hp, Hl.
Qed.

(** The history after a write, before trimming. *)
Lemma write_history s p rec :
  kv_inv s → (KvStore.current_version s p + 1 ≤ U64_MAX)%N →
  VersionRecord.version rec = (KvStore.current_version s p + 1)%N →
  let h := default [] (KvStore.entries s !! p) in
  ∃ first, (1 ≤ first)%N ∧ numbered first (h ++ [rec])
           ∧ (KvStore.current_version s p + 1 = first + hlen h)%N.
Proof.
  intros Hinv Hmax Hv h. destruct (KvStore.entries s !! p) as [h0|] eqn:Hp; subst h; simpl.
  - destruct (current_version_numbered s p h0 Hinv Hp)
      as (first & r & H1 & Hn & Hl & Hc & Hr & _ & Hpos & _).
    exists first. rewrite numbered_app. simpl. rewrite Hv, Hc, Hr. split_and!; auto; lia.
  - unfold KvStore.current_version in *. rewrite Hp in *. exists 1%N. simpl.
    unfold hlen. simpl. lia.
Qed.

Lemma kv_write_inv p v now cas s :
  kv_inv s → kv_inv (KvStore.write p v now cas s).1.
Proof.
  intros Hinv. unfold KvStore.write. case_match; [done|].
  destruct (checked_add _ _) as [ver|] eqn:Hadd; [|done]. simpl.
  apply checked_add_Some in Hadd as [-> Hmax].
  set (rec := VersionRecord.mk _ _).
  destruct (write_history s p rec Hinv Hmax eq_refl) as (first & H1 & Hn & Hcur).
  apply kv_inv_insert; [done|]. set (h := default [] _) in *.
  destruct Hinv as [Hmv Hinv]. rewrite trim_drop, length_app. simpl.
  set (d := length h + 1 - KvStore.max_versions s).
  assert (length (h ++ [rec]) = length h + 1) as Hlen by by rewrite length_app.
  split.
  - intros E%(f_equal length). rewrite length_drop, Hlen in E. simpl in E. subst d. lia.
  - rewrite length_drop, Hlen. subst d. lia.
  - exists (first + N.of_nat d)%N. split; [lia|]. split; [by apply numbered_drop|].
    unfold hlen in *. rewrite length_drop, Hlen. subst d. lia.
  - apply Forall_drop, Forall_app. split; [|repeat constructor; by eexists].
    subst h. destruct (_ !! p) as [h0|] eqn:Hp; [|constructor].
    apply (Hinv p h0 Hp).
Qed.

Lemma kv_delete_latest_inv p s : kv_inv s → kv_inv (KvStore.delete_latest p s).1.
Proof.
  intros Hinv. unfold KvStore.delete_latest. destruct (_ !! p) as [h|] eqn:Hp; [|done].
  destruct (last h) as [r|] eqn:Hl; [|done].
  case_match eqn:Hd; [done|]. case_match; [done|]. simpl.
  destruct (current_version_numbered s p h Hinv Hp) as (first & r' & _ & Hn & Hl' & _ & _ & Hf & _).
  assert (r' = r) as -> by congruence. apply kv_inv_insert; [done|].
  rewrite (update_last_version _ first h r) by done.
  apply hist_inv_update; [done| |by apply Hinv in Hp].
  intros r0 Hr0. assert (r0 = r) as -> by congruence.
  unfold record_wf. simpl. by rewrite Hd.
Qed.

Lemma kv_undelete_inv p v s : kv_inv s → kv_inv (KvStore.undelete p v s).1.
Proof.
  intros Hinv. unfold KvStore.undelete. destruct (_ !! p) as [h|] eqn:Hp; [|done].
  destruct (find_version v h) as [r|] eqn:Hf; [|done].
  case_match eqn:Hd; [done|]. case_match; [done|]. simpl.
  apply kv_inv_insert; [done|]. apply hist_inv_update; [done| |by apply Hinv in Hp].
  intros r0 Hr0. assert (r0 = r) as -> by congruence.
  unfold record_wf. simpl. by rewrite Hd.
Qed.

(** * Destruction *)
Lemma erase_wf r : record_wf (VersionRecord.erase r).
Proof. done. Qed.

(** Erasing a well-formed destroyed record changes nothing. *)
Lemma erase_destroyed r :
  record_wf r → KvMetadata.destroyed (VersionRecord.metadata r) = true → VersionRecord.erase r = r.
Proof.
  destruct r as [[ver c del des] val]. unfold record_wf. simpl. intros H ->.
  destruct H as [-> ->]. done.
Qed.

(** The loop erases exactly the listed versions, if all of them exist. *)
Lemma destroy_loop_spec max versions h n :
  hist_inv max h → (∀ v, v ∈ versions → is_Some (find_version v h)) →
  ∃ h' k, KvStore.destroy_loop versions h n = (h', Ok k) ∧ hist_inv max h' ∧
    (∀ w, find_version w h' = if bool_decide (w ∈ versions)
                              then VersionRecord.erase <$> find_version w h
                              else find_version w h).
Proof.
  revert h n. induction versions as [|v versions IH]; intros h n Hh Hall; cbn [KvStore.destroy_loop].
  { exists h, n. split; [done|]. split; [done|]. intros w. by rewrite bool_decide_eq_false_2 by set_solver. }
  destruct (Hall v) as [r Hr]; [set_solver|]. rewrite Hr.
  assert (record_wf r) as Hwf.
  { destruct Hh as [_ _ _ HF]. rewrite Forall_forall in HF. apply HF.
    clear -Hr. induction h as [|x h IHh]; simpl in Hr; [done|].
    destruct (_ =? v)%N; simplify_eq; set_solver. }
  destruct (KvMetadata.destroyed (VersionRecord.metadata r)) eqn:Hd; simpl.
  - destruct (IH h n Hh) as (h' & k & E & Hinv' & Hf); [set_solver|].
    exists h', k. split; [done|]. split; [done|]. intros w. rewrite Hf.
    destruct (decide (w = v)) as [->|Hne].
    + rewrite (bool_decide_eq_true_2 (v ∈ v :: versions)) by set_solver. rewrite Hr. simpl.
      rewrite erase_destroyed by done. by case_bool_decide.
    + repeat case_bool_decide; set_solver.
  - destruct (IH (update_version v VersionRecord.erase h) (n + 1)) as (h' & k & E & Hinv' & Hf).
    { apply hist_inv_update; [done| |done]. intros. apply erase_wf. }
    { intros w Hw. rewrite find_update by done. destruct (_ =? v)%N.
      - rewrite fmap_is_Some. apply Hall. set_solver.
      - apply Hall. set_solver. }
    exists h', k. split; [done|]. split; [done|]. intros w. rewrite Hf, find_update by done.
    destruct (N.eqb_spec w v) as [->|Hne].
    + rewrite (bool_decide_eq_true_2 (v ∈ v :: versions)) by set_solver. rewrite Hr. simpl.
      by case_bool_decide.
    + repeat case_bool_decide; set_solver.
Qed.

(** The guard of [destroy] is that every listed version exists. *)
Lemma destroy_guard versions h :
  existsb (λ v, negb (existsb (λ r, (VersionRecord.version r =? v)%N) h)) versions = false →
  ∀ v, v ∈ versions → is_Some (find_version v h).
Proof.
  intros H v Hv. apply not_true_iff_false in H.
  destruct (existsb (λ r, (VersionRecord.version r =? v)%N) h) eqn:E.
  - clear -E. induction h as [|r h IH]; simpl in *; [done|].
    destruct (_ =? v)%N; [eauto|]. auto.
  - exfalso. apply H, existsb_exists. exists v. rewrite E. split; [|done].
    by apply list_elem_of_In.
Qed.

Lemma kv_destroy_cases p vs s s' res :
  kv_inv s → KvStore.destroy p vs s = (s', res) →
  match res with
  | Err _ => s' = s
  | Ok n => kv_inv s' ∧ ∃ h h', KvStore.entries s !! p = Some h ∧
      s' = KvStore.mk (<[p := h']> (KvStore.entries s)) (KvStore.max_versions s) ∧
      (∀ v, v ∈ vs → is_Some (find_version v h)) ∧
      ∀ w, find_version w h' = if bool_decide (w ∈ vs)
                               then VersionRecord.erase <$> find_version w h
                               else find_version w h
  end.
Proof.
  intros Hinv. unfold KvStore.destroy. case_bool_decide; [by intros; simplify_eq|].
  destruct (_ !! p) as [h|] eqn:Hp; [|by intros; simplify_eq].
  destruct (existsb _ vs) eqn:Hg; [by intros; simplify_eq|].
  pose proof (destroy_guard vs h Hg) as Hall.
  destruct (destroy_loop_spec (KvStore.max_versions s) vs h 0) as (h' & k & -> & Hh' & Hf);
    [by apply Hinv in Hp|done|].
  intros; simplify_eq. split; [by apply kv_inv_insert|]. eauto 10.
Qed.

Lemma kv_exec_inv o s : kv_inv s → kv_inv (kv_exec o s).
Proof.
  intros Hinv. destruct o as [p v now cas|p|p v|p vs]; simpl.
  - by apply kv_write_inv.
  - by apply kv_delete_latest_inv.
  - by apply kv_undelete_inv.
  - destruct (KvStore.destroy p vs s) as [s' res] eqn:E.
    pose proof (kv_destroy_cases p vs s s' res Hinv E). simpl. destruct res; naive_solver.
Qed.

(** * Reading through the reference view *)
Definition read_record (o : option VersionRecord) : Result KvRead KvError :=
  let? record := ok_or o MissingVersion in
  if KvMetadata.destroyed (VersionRecord.metadata record) then Err Destroyed
  else if KvMetadata.deleted (VersionRecord.metadata record) then Err Deleted
  else let? value := ok_or (VersionRecord.value record) Destroyed in
       Ok (KvRead.mk (VersionRecord.metadata record) (SecretValue.expose value)).

Lemma read_version s p h v :
  KvStore.entries s !! p = Some h →
  KvStore.read s p (Some v) = read_record (find_version v h).
Proof. intros Hp. unfold KvStore.read. by rewrite Hp. Qed.

(** Without an explicit version, [read] reads the current version. *)
Lemma read_latest s p :
  kv_inv s → KvStore.read s p None = KvStore.read s p (Some (KvStore.current_version s p)).
Proof.
  intros Hinv. destruct (KvStore.entries s !! p) as [h|] eqn:Hp.
  - destruct (current_version_numbered s p h Hinv Hp) as (? & r & _ & _ & Hl & Hc & _ & Hf & _).
    rewrite (read_version s p h) by done. rewrite Hc, Hf.
    unfold KvStore.read. rewrite Hp. simpl. by rewrite Hl.
  - unfold KvStore.read. by rewrite Hp.
Qed.

Lemma write_Ok p v now cas s s' md :
  kv_inv s → KvStore.write p v now cas s = (s', Ok md) →
  let cur := KvStore.current_version s p in
  let rec := VersionRecord.mk md (Some v) in
  md = KvMetadata.mk (cur + 1) now false false
  ∧ (∀ expected, cas = Some expected → expected = cur)
  ∧ ∃ h', s' = KvStore.mk (<[p := h']> (KvStore.entries s)) (KvStore.max_versions s)
    ∧ (∀ w, find_version w h' =
            if (w =? cur + 1)%N then Some rec
            else if (w + N.of_nat (KvStore.max_versions s) <=? cur + 1)%N then None
            else find_version w (default [] (KvStore.entries s !! p))).
Proof.
  intros Hinv Hw cur rec. unfold KvStore.write in Hw. fold cur in Hw.
  destruct (match cas with Some e => negb (e =? cur)%N | None => false end) eqn:Hcas; [done|].
  destruct (checked_add cur 1) as [ver|] eqn:Hadd; [|done].
  apply checked_add_Some in Hadd as [-> Hmax]. injection Hw as <- <-.
  split; [done|]. split.
  { intros e ->. apply negb_false_iff, N.eqb_eq in Hcas. done. }
  eexists. split; [done|]. intros w.
  destruct (write_history s p rec Hinv Hmax eq_refl) as (first & H1 & Hn & Hcur). fold cur in Hcur.
  set (h := default [] _) in *. rewrite trim_drop, (find_version_drop first) by done.
  rewrite (find_version_snoc first) by done. fold rec. rewrite <- Hcur, length_app. simpl.
  destruct Hinv as [Hpos _]. unfold hlen in Hcur.
  destruct (N.ltb_spec w (first + N.of_nat (length h + 1 - KvStore.max_versions s)));
    destruct (N.eqb_spec w (cur + 1)), (N.leb_spec (w + N.of_nat (KvStore.max_versions s)) (cur + 1));
    try lia; try done.
  apply numbered_app in Hn as [Hn _]. symmetry. apply (find_version_None first); [done|]. lia.
Qed.

(** * Destroyed versions *)

(** Version [v] of [p] has been reached and holds no value. *)
Definition erased (p : CanonicalPath) (v : N) (s : KvStore) : Prop :=
  kv_inv s ∧ (v ≤ KvStore.current_version s p)%N ∧
  ∃ h, KvStore.entries s !! p = Some h ∧
    ∀ r, find_version v h = Some r →
      KvMetadata.destroyed (VersionRecord.metadata r) = true ∧ VersionRecord.value r = None.

Lemma current_version_update s p f v h q :
  (∀ r, VersionRecord.version (f r) = VersionRecord.version r) →
  KvStore.entries s !! p = Some h →
  KvStore.current_version
    (KvStore.mk (<[p := update_version v f h]> (KvStore.entries s)) (KvStore.max_versions s)) q
  = KvStore.current_version s q.
Proof.
  intros Hf Hp. unfold KvStore.current_version. simpl. rewrite lookup_insert.
  case_decide as Hq; [subst q|done]. rewrite Hp. clear Hp.
  induction h as [|r h IH]; [done|]. simpl update_version.
  destruct (_ =? v)%N.
  - destruct h; simpl; [by rewrite Hf|done].
  - destruct h as [|r' h]; [done|]. simpl in *. by destruct (_ =? v)%N.
Qed.

Lemma erased_insert_ne s p q v h :
  p ≠ q → erased p v s → hist_inv (KvStore.max_versions s) h →
  erased p v (KvStore.mk (<[q := h]> (KvStore.entries s)) (KvStore.max_versions s)).
Proof.
  intros Hne (Hinv & Hcur & h0 & Hh0 & He) Hh. split; [by apply kv_inv_insert|].
  unfold KvStore.current_version in *. simpl. rewrite lookup_insert_ne by done.
  split; [done|]. eauto.
Qed.

(** An in-place change of a version that is not destroyed keeps [v] erased. *)
Lemma erased_update s p q v w f h r :
  (∀ r, VersionRecord.version (f r) = VersionRecord.version r) →
  KvStore.entries s !! q = Some h → find_version w h = Some r →
  KvMetadata.destroyed (VersionRecord.metadata r) = false →
  (record_wf r → record_wf (f r)) →
  erased p v s →
  erased p v (KvStore.mk (<[q := update_version w f h]> (KvStore.entries s)) (KvStore.max_versions s)).
Proof.
  intros Hf Hq Hw Hd Hwf Her. pose proof Her as (Hinv & Hcur & h0 & Hh0 & He).
  assert (hist_inv (KvStore.max_versions s) (update_version w f h)).
  { apply hist_inv_update; [done| |by apply Hinv in Hq]. intros r0 Hr0.
    assert (r0 = r) as -> by congruence. done. }
  destruct (decide (p = q)) as [<-|Hne]; [|by apply erased_insert_ne].
  split; [by apply kv_inv_insert|]. rewrite current_version_update by done.
  split; [done|]. simplify_eq. eexists. simpl. rewrite lookup_insert_eq. split; [done|].
  intros r'. rewrite find_update by done. destruct (N.eqb_spec v w) as [->|]; [|auto].
  rewrite Hw. simpl. destruct (He r Hw). congruence.
Qed.

Lemma kv_exec_erased o s p v : erased p v s → erased p v (kv_exec o s).
Proof.
  intros Her. pose proof Her as (Hinv & Hcur & h0 & Hh0 & He).
  pose proof (kv_exec_inv o s Hinv) as Hinv'.
  destruct o as [q val now cas|q|q w|q vs]; simpl in *.
  - destruct (KvStore.write q val now cas s) as [s' [md|err]] eqn:E; simpl in *; cycle 1.
    { unfold KvStore.write in E. repeat case_match; by simplify_eq. }
    destruct (write_Ok q val now cas s s' md Hinv E) as (-> & _ & h' & -> & Hf).
    destruct (decide (p = q)) as [<-|Hne].
    2:{ apply erased_insert_ne; [done..|]. destruct Hinv' as [_ Hi].
        apply (Hi q). simpl. by rewrite lookup_insert_eq. }
    split; [done|]. set (s' := KvStore.mk _ _) in *.
    assert (KvStore.entries s' !! p = Some h') as Hp' by (simpl; by rewrite lookup_insert_eq).
    split.
    + destruct (current_version_numbered s' p h' Hinv' Hp')
        as (first & r & _ & Hn & _ & -> & Hr & _ & _).
      assert (is_Some (find_version (KvStore.current_version s p + 1) h')) as [r' Hr'].
      { rewrite Hf, N.eqb_refl. eauto. }
      destruct (find_version_range _ _ _ _ Hn Hr'). lia.
    + exists h'. split; [done|]. intros r. rewrite Hf, Hh0. simpl.
      destruct (N.eqb_spec v (KvStore.current_version s p + 1)); [lia|].
      case_match; [done|]. apply He.
  - unfold KvStore.delete_latest in *. destruct (_ !! q) as [h|] eqn:Hq; [|done].
    destruct (last h) as [r|] eqn:Hl; [|done]. case_match eqn:Hd; [done|]. case_match; [done|].
    destruct (current_version_numbered s q h Hinv Hq) as (first & r' & _ & Hn & Hl' & _ & _ & Hf & _).
    assert (r' = r) as -> by congruence. simpl.
    rewrite (update_last_version _ first h r) by done.
    eapply erased_update; [done..| |done]. unfold record_wf. simpl. by rewrite Hd.
  - unfold KvStore.undelete in *. destruct (_ !! q) as [h|] eqn:Hq; [|done].
    destruct (find_version w h) as [r|] eqn:Hw; [|done].
    case_match eqn:Hd; [done|]. case_match; [done|]. simpl.
    eapply erased_update; [done..| |done]. unfold record_wf. simpl. by rewrite Hd.
  - destruct (KvStore.destroy q vs s) as [s' [n|err]] eqn:E; simpl in *.
    2:{ by rewrite (kv_destroy_cases q vs s s' _ Hinv E). }
    destruct (kv_destroy_cases q vs s s' _ Hinv E) as (_ & h & h' & Hq & -> & _ & Hf).
    destruct (decide (p = q)) as [<-|Hne].
    2:{ apply erased_insert_ne; [done..|]. destruct Hinv' as [_ Hi].
        apply (Hi q). simpl. by rewrite lookup_insert_eq. }
    assert (h0 = h) as -> by congruence. split; [done|]. set (s' := KvStore.mk _ _) in *.
    assert (KvStore.entries s' !! p = Some h') as Hp' by (simpl; by rewrite lookup_insert_eq).
    split.
    + destruct (current_version_numbered s p h Hinv Hq) as (f1 & r1 & _ & Hn1 & _ & Hc1 & _ & Hf1 & _).
      destruct (current_version_numbered s' p h' Hinv' Hp') as (f2 & r2 & _ & Hn2 & _ & -> & Hr2 & _ & _).
      rewrite Hc1 in *.
      assert (is_Some (find_version (VersionRecord.version r1) h')) as [r' Hr'].
      { rewrite Hf, Hf1. case_bool_decide; simpl; eauto. }
      destruct (find_version_range _ _ _ _ Hn2 Hr'). lia.
    + exists h'. split; [done|]. intros r. rewrite Hf.
      case_bool_decide; [|by apply He]. intros (r0 & ? & ->)%fmap_Some_1. done.
Qed.

(** ** Properties *)

(** The history invariant holds after any sequence of writes, deletes,
    undeletes and destroys from a fresh store: every stored history is
    non-empty, holds at most [max_versions] records with consecutive versions
    starting at 1 or later and not exceeding 64 bits, and a record lacks a
    value exactly when it is destroyed (and is then also marked deleted). *)
Theorem kv_history_invariant (max : nat) (s : KvStore) (ops : list KvOp) :
  KvStore.new max = Ok s → kv_inv (run kv_exec ops s).
Proof. intros H. eapply run_invariant; [apply kv_exec_inv|]. by eapply kv_new_inv. Qed.

(** What a failed and a successful write leave. *)
Lemma write_Err p v now cas s s' err :
  kv_inv s → KvStore.write p v now cas s = (s', Err err) →
  let cur := KvStore.current_version s p in
  s' = s ∧ ((∃ e, cas = Some e ∧ e ≠ cur) ∨ cur = U64_MAX).
Proof.
  intros Hinv Hw cur. unfold KvStore.write in Hw. fold cur in Hw.
  destruct (match cas with Some e => negb (e =? cur)%N | None => false end) eqn:Hcas.
  - simplify_eq. split; [done|]. left. destruct cas as [e|]; [|done].
    exists e. split; [done|]. by apply negb_true_iff, N.eqb_neq in Hcas.
  - destruct (checked_add cur 1) eqn:Hadd; [done|]. simplify_eq. split; [done|]. right.
    apply checked_add_None in Hadd.
    enough (cur ≤ U64_MAX)%N by lia.
    destruct (KvStore.entries s' !! p) as [h|] eqn:Hp.
    + destruct (current_version_numbered s' p h Hinv Hp) as (f & r & H1 & Hn & _ & Hc & Hr & _ & _ & Hmax).
      subst cur. rewrite Hc. done.
    + subst cur. unfold KvStore.current_version. rewrite Hp. unfold U64_MAX. lia.
Qed.

Lemma write_reads p v now cas s s' md :
  kv_inv s → KvStore.write p v now cas s = (s', Ok md) →
  let cur := KvStore.current_version s p in
  KvStore.current_version s' p = (cur + 1)%N
  ∧ KvStore.read s' p (Some (cur + 1)%N) = Ok (KvRead.mk md (SecretValue.expose v))
  ∧ KvStore.read s' p None = Ok (KvRead.mk md (SecretValue.expose v)).
Proof.
  intros Hinv Hw cur.
  pose proof (kv_write_inv p v now cas s Hinv) as Hinv'. rewrite Hw in Hinv'. simpl in Hinv'.
  destruct (write_Ok p v now cas s s' md Hinv Hw) as (Hmd & Hcas & h' & -> & Hf).
  fold cur in Hmd, Hcas, Hf. set (s' := KvStore.mk _ _) in *.
  assert (KvStore.entries s' !! p = Some h') as Hp' by (simpl; by rewrite lookup_insert_eq).
  assert (KvStore.current_version s' p = (cur + 1)%N) as Hcur'.
  { destruct (current_version_numbered s' p h' Hinv' Hp') as (f & r & H1 & Hn & _ & -> & Hr & Hfr & _).
    assert (is_Some (find_version (cur + 1) h')) as [r1 Hr1] by (rewrite Hf, N.eqb_refl; eauto).
    destruct (find_version_range _ _ _ _ Hn Hr1) as [_ ?].
    rewrite Hf in Hfr. destruct (N.eqb_spec (VersionRecord.version r) (cur + 1)); [done|].
    case_match; [done|]. destruct (KvStore.entries s !! p) as [h|] eqn:Hp; [|done].
    destruct (current_version_numbered s p h Hinv Hp) as (f2 & r2 & _ & Hn2 & _ & Hc2 & Hr2 & _).
    destruct (find_version_range _ _ _ _ Hn2 Hfr). subst cur. lia. }
  assert (KvStore.read s' p (Some (cur + 1)%N) = Ok (KvRead.mk md (SecretValue.expose v))) as Hread.
  { rewrite (read_version s' p h') by done. rewrite Hf, N.eqb_refl. unfold read_record. simpl.
    by rewrite Hmd. }
  split_and!; [done|done|]. by rewrite read_latest, Hcur' by done.
Qed.

(** A successful write creates the next version and loses nothing it
    should keep: the new version is current + 1, a compare-and-set guard must
    name the current version, reading the new version (or the latest) gives
    exactly the written bytes and metadata, versions older than the retention
    window are gone, every younger version reads as before, and other paths
    are untouched.  A failed write changes nothing. *)
Theorem kv_write_spec (s s' : KvStore) (p : CanonicalPath) (v : SecretValue) (now : Tick)
    (cas : option N) (res : Result KvMetadata KvError) :
  kv_inv s → KvStore.write p v now cas s = (s', res) →
  let cur := KvStore.current_version s p in
  match res with
  | Err _ => s' = s ∧ ((∃ e, cas = Some e ∧ e ≠ cur) ∨ cur = U64_MAX)
  | Ok md => md = KvMetadata.mk (cur + 1) now false false
      ∧ (∀ e, cas = Some e → e = cur)
      ∧ KvStore.current_version s' p = (cur + 1)%N
      ∧ KvStore.read s' p None = Ok (KvRead.mk md (SecretValue.expose v))
      ∧ KvStore.read s' p (Some (cur + 1)%N) = Ok (KvRead.mk md (SecretValue.expose v))
      ∧ (∀ w, (w ≤ cur)%N → KvStore.read s' p (Some w) =
            if (w + N.of_nat (KvStore.max_versions s) <=? cur + 1)%N then Err MissingVersion
            else match KvStore.read s p (Some w) with
                 | Err MissingKey => Err MissingVersion
                 | r => r
                 end)
      ∧ (∀ q, q ≠ p → KvStore.entries s' !! q = KvStore.entries s !! q)
  end.
Proof.
  intros Hinv Hw cur. destruct res as [md|err]; [|by eapply write_Err].
  destruct (write_reads p v now cas s s' md Hinv Hw) as (Hcur' & Hread & Hlatest).
  destruct (write_Ok p v now cas s s' md Hinv Hw) as (Hmd & Hcas & h' & -> & Hf).
  fold cur in Hmd, Hcas, Hf, Hcur', Hread. set (s' := KvStore.mk _ _) in *.
  split_and!; [done..| |].
  - intros w Hle. rewrite (read_version s' p h') by (simpl; by rewrite lookup_insert_eq). rewrite Hf.
    destruct (N.eqb_spec w (cur + 1)); [lia|]. case_match; [done|].
    destruct (KvStore.entries s !! p) as [h|] eqn:Hp; simpl.
    + rewrite (read_version s p h) by done. unfold read_record.
      destruct (find_version w h) as [r|]; simpl; [|done].
      destruct (KvMetadata.destroyed _); [done|]. destruct (KvMetadata.deleted _); [done|].
      by destruct (VersionRecord.value r).
    + unfold KvStore.read. by rewrite Hp.
  - intros q Hq. simpl. by rewrite lookup_insert_ne.
Qed.

(** Destruction is irrevocable.  Once [destroy] has succeeded for a
    version, no later sequence of writes, deletes, undeletes or destroys makes
    it readable again, and no record of that version in the store holds a
    value: the secret bytes are gone. *)
Theorem kv_destroy_irrevocable (s s' : KvStore) (p : CanonicalPath) (vs : list N) (n : nat)
    (v : N) (ops : list KvOp) :
  kv_inv s → KvStore.destroy p vs s = (s', Ok n) → v ∈ vs →
  let t := run kv_exec ops s' in
  (KvStore.read t p (Some v) = Err Destroyed ∨ KvStore.read t p (Some v) = Err MissingVersion)
  ∧ ∀ h r, KvStore.entries t !! p = Some h → find_version v h = Some r →
      VersionRecord.value r = None.
Proof.
  intros Hinv Hd Hv t.
  destruct (kv_destroy_cases p vs s s' _ Hinv Hd) as (Hinv' & h & h' & Hp & -> & Hall & Hf).
  assert (erased p v t) as (_ & _ & h2 & Hh2 & He).
  { apply run_invariant; [intros; by apply kv_exec_erased|]. split; [done|].
    set (s' := KvStore.mk _ _) in *.
    assert (KvStore.entries s' !! p = Some h') as Hp' by (simpl; by rewrite lookup_insert_eq).
    destruct (current_version_numbered s' p h' Hinv' Hp') as (f2 & r2 & _ & Hn2 & _ & -> & Hr2 & _ & _).
    destruct (Hall v Hv) as [r Hr].
    assert (find_version v h' = Some (VersionRecord.erase r)) as Hr'.
    { rewrite Hf, Hr. by rewrite bool_decide_eq_true_2. }
    destruct (find_version_range _ _ _ _ Hn2 Hr'). split; [lia|].
    exists h'. split; [done|]. intros r0 ?. by simplify_eq. }
  split; [|naive_solver].
  rewrite (read_version t p h2) by done. unfold read_record.
  destruct (find_version v h2) as [r|] eqn:Hr; simpl; [|by right].
  destruct (He r eq_refl) as [-> _]. by left.
Qed.

(** Deleting and undeleting round-trips: after a successful
    [delete_latest] the version reads as [Deleted], and [undelete] of that
    version restores the store to exactly what it was before the delete. *)
Theorem kv_delete_undelete_roundtrip (s s' : KvStore) (p : CanonicalPath) (md : KvMetadata) :
  kv_inv s → KvStore.delete_latest p s = (s', Ok md) →
  KvStore.read s' p (Some (KvMetadata.version md)) = Err Deleted
  ∧ (KvStore.undelete p (KvMetadata.version md) s').1 = s
  ∧ is_ok (KvStore.undelete p (KvMetadata.version md) s').2 = true.
Proof.
  intros Hinv. unfold KvStore.delete_latest. destruct (_ !! p) as [h|] eqn:Hp; [|done].
  destruct (last h) as [r|] eqn:Hl; [|done].
  destruct (KvMetadata.destroyed (VersionRecord.metadata r)) eqn:Hd; [done|].
  destruct (KvMetadata.deleted (VersionRecord.metadata r)) eqn:Hdel; [done|].
  destruct (current_version_numbered s p h Hinv Hp) as (first & r' & _ & Hn & Hl' & _ & _ & Hf & _).
  assert (r' = r) as -> by congruence. rewrite (update_last_version _ first h r) by done.
  intros [= <- <-]. simpl. fold (VersionRecord.version r).
  set (h' := update_version _ _ h).
  assert (find_version (VersionRecord.version r) h' = Some (VersionRecord.set_deleted true r)) as Hf'.
  { subst h'. rewrite find_update by done. by rewrite N.eqb_refl, Hf. }
  split.
  - rewrite (read_version _ p h') by (simpl; by rewrite lookup_insert_eq). rewrite Hf'.
    unfold read_record. simpl. by rewrite Hd.
  - unfold KvStore.undelete. simpl. rewrite lookup_insert_eq, Hf'. simpl. rewrite Hd. simpl.
    split; [|done]. rewrite insert_insert_eq. subst h'. rewrite update_update by done.
    rewrite (update_version_ext _ (λ r, r)).
    + rewrite update_version_id, insert_id by done. by destruct s.
    + intros r0 ?. assert (r0 = r) as -> by congruence.
      destruct r as [[ver c del des] val]. simpl in *. by subst.
Qed.

(** Failed operations have no effect, on a store satisfying the history
    invariant: [write], [delete_latest], [undelete] and [destroy] leave the
    store exactly as it was whenever they return an error. *)
Theorem kv_failure_atomic (s : KvStore) (p : CanonicalPath) (val : SecretValue) (now : Tick)
    (cas : option N) (v : N) (vs : list N) :
  kv_inv s →
  (∀ s' e, KvStore.write p val now cas s = (s', Err e) → s' = s)
  ∧ (∀ s' e, KvStore.delete_latest p s = (s', Err e) → s' = s)
  ∧ (∀ s' e, KvStore.undelete p v s = (s', Err e) → s' = s)
  ∧ (∀ s' e, KvStore.destroy p vs s = (s', Err e) → s' = s).
Proof.
  intros Hinv. split_and!; intros s' e H.
  - unfold KvStore.write in H. repeat case_match; by simplify_eq.
  - unfold KvStore.delete_latest in H. repeat case_match; by simplify_eq.
  - unfold KvStore.undelete in H. repeat case_match; by simplify_eq.
  - apply (kv_destroy_cases p vs s s' _ Hinv H).
Qed.

(** Two stores that agree below a prefix list it alike. *)
Lemma kv_list_elem s prefix p :
  p ∈ KvStore.list s prefix ↔
  is_Some (KvStore.entries s !! p) ∧ segments prefix `prefix_of` segments p.
Proof.
  unfold KvStore.list. rewrite list_elem_of_filter, elem_of_btree_keys, matches_prefix_segments. tauto.
Qed.

Lemma kv_list_NoDup s prefix : NoDup (KvStore.list s prefix).
Proof. apply NoDup_filter, btree_keys_NoDup. Qed.

Lemma kv_list_sorted s prefix : StronglySorted rust_le (KvStore.list s prefix).
Proof.
  unfold KvStore.list. pose proof (btree_keys_Sorted (KvStore.entries s)) as HS.
  induction HS as [|k l HS IH Hk]; [constructor|]. rewrite filter_cons.
  case_decide; [|done]. constructor; [done|].
  rewrite Forall_forall in *. intros x [_ ?]%list_elem_of_filter. auto.
Qed.

Lemma kv_list_ext s s' prefix :
  (∀ p, segments prefix `prefix_of` segments p →
        KvStore.entries s' !! p = KvStore.entries s !! p) →
  KvStore.list s' prefix = KvStore.list s prefix.
Proof.
  intros E. eapply (StronglySorted_unique rust_le); [apply kv_list_sorted..|].
  apply NoDup_Permutation; [apply kv_list_NoDup..|]. intros p. rewrite !kv_list_elem.
  split; intros [? Hp]; (split; [|done]); [rewrite <- (E p Hp)|rewrite (E p Hp)]; done.
Qed.

(** Listing is exact and ordered: [list] returns, in ascending byte order
    and without duplicates, exactly the stored paths whose segments extend the
    prefix's. *)
Theorem kv_list_spec (s : KvStore) (prefix : CanonicalPath) :
  (∀ p, p ∈ KvStore.list s prefix ↔
        is_Some (KvStore.entries s !! p) ∧ segments prefix `prefix_of` segments p)
  ∧ NoDup (KvStore.list s prefix)
  ∧ StronglySorted rust_le (KvStore.list s prefix).
Proof. auto using kv_list_elem, kv_list_NoDup, kv_list_sorted. Qed.

(** * Concrete instances *)
Module KvDemo.
Definition path : CanonicalPath := CanonicalPath.mk "/app/db" I.
Definition value : SecretValue := SecretValue.mk "hunter2" I.
Definition empty_store : KvStore := KvStore.mk ∅ 3.
Definition store : KvStore := run kv_exec [KOpWrite path value 5 None] empty_store.

Lemma store_inv : kv_inv store.
Proof. apply (run_invariant kv_exec kv_inv); [apply kv_exec_inv|]. by apply (kv_new_inv 3). Qed.
End KvDemo.

Lemma kv_history_invariant_witness :
  kv_inv (run kv_exec [KOpWrite KvDemo.path KvDemo.value 5 None; KOpDeleteLatest KvDemo.path]
            KvDemo.empty_store).
Proof. apply (kv_history_invariant 3). reflexivity. Defined.

Lemma kv_write_spec_witness :
  KvStore.read (KvStore.write KvDemo.path KvDemo.value 6 (Some 1%N) KvDemo.store).1 KvDemo.path None =
  Ok (KvRead.mk (KvMetadata.mk 2 6 false false) "hunter2").
Proof.
  destruct (kv_write_spec KvDemo.store (KvStore.write KvDemo.path KvDemo.value 6 (Some 1%N) KvDemo.store).1
    KvDemo.path KvDemo.value 6 (Some 1%N) (Ok (KvMetadata.mk 2 6 false false)))
    as (_ & _ & _ & Hr & _); [exact KvDemo.store_inv| |exact Hr].
  apply (call_answer (KvStore.write KvDemo.path KvDemo.value 6 (Some 1%N) KvDemo.store)).
  vm_compute. reflexivity.
Defined.

Lemma kv_destroy_irrevocable_witness :
  let t := run kv_exec [KOpUndelete KvDemo.path 1] (KvStore.destroy KvDemo.path [1%N] KvDemo.store).1 in
  KvStore.read t KvDemo.path (Some 1%N) = Err Destroyed
  ∨ KvStore.read t KvDemo.path (Some 1%N) = Err MissingVersion.
Proof.
  apply (kv_destroy_irrevocable KvDemo.store (KvStore.destroy KvDemo.path [1%N] KvDemo.store).1
           KvDemo.path [1%N] 1 1 [KOpUndelete KvDemo.path 1]);
    [exact KvDemo.store_inv| |left].
  apply (call_answer (KvStore.destroy KvDemo.path [1%N] KvDemo.store)). vm_compute. reflexivity.
Defined.

Lemma kv_delete_undelete_roundtrip_witness :
  (KvStore.undelete KvDemo.path 1 (KvStore.delete_latest KvDemo.path KvDemo.store).1).1 = KvDemo.store.
Proof.
  apply (kv_delete_undelete_roundtrip KvDemo.store (KvStore.delete_latest KvDemo.path KvDemo.store).1
           KvDemo.path (KvMetadata.mk 1 5 true false)); [exact KvDemo.store_inv|].
  apply (call_answer (KvStore.delete_latest KvDemo.path KvDemo.store)). vm_compute. reflexivity.
Defined.

Lemma kv_failure_atomic_witness :
  ∀ s' e, KvStore.write KvDemo.path KvDemo.value 6 (Some 9%N) KvDemo.store = (s', Err e) →
          s' = KvDemo.store.
Proof.
  apply (kv_failure_atomic KvDemo.store KvDemo.path KvDemo.value 6 (Some 9%N) 1 [1%N]).
  exact KvDemo.store_inv.
Defined.
