(* ===== verification/Operator.v ===== *)
(** [crates/heptabao-operator-api] and [crates/heptabao-telemetry]: the outcome
    records an operator reconciles, and the bounded telemetry events. *)
From S2P Require Import Prelude Str Domain.

(** * Outcome classification *)
Inductive EffectPhase : Type := BeforeEntry | Entered.
Inductive CommitState : Type := NotCommitted | Committed | Unknown.
Inductive OperatorAction : Type := RetryAllowed | DoNotRetry | AuthoritativeReadback | Reconcile.
Inductive Resolution : Type := ConfirmedCommitted | ConfirmedNotCommitted | Compensated.

Inductive OperatorError : Type := OpDuplicateRequest | MissingRecord | AlreadyResolved.

#[export] Instance OperatorError_eq_dec : EqDecision OperatorError.
Proof. solve_decision. Defined.

Module OutcomeRecord.
Record t := mk {
  request_id : Id;
  phase : EffectPhase;
  commit_state : CommitState;
  recovery_reference : option Id;
  resolution : option Resolution;
}.

Definition before_entry (request_id : Id) : t := mk request_id BeforeEntry NotCommitted None None.
Definition committed (request_id : Id) : t := mk request_id Entered Committed None None.
Definition unknown_after_entry (request_id recovery_reference : Id) : t :=
  mk request_id Entered Unknown (Some recovery_reference) None.

Definition action (self : t) : OperatorAction :=
  match phase self, commit_state self, resolution self with
  | _, _, Some _ => DoNotRetry
  | BeforeEntry, NotCommitted, None => RetryAllowed
  | Entered, Unknown, None => AuthoritativeReadback
  | Entered, Committed, None => DoNotRetry
  | _, _, _ => Reconcile
  end.

Definition set_resolution (r : Resolution) (self : t) : t :=
  mk (request_id self) (phase self) (commit_state self) (recovery_reference self) (Some r).
End OutcomeRecord.
Notation OutcomeRecord := OutcomeRecord.t.

Module ReconciliationStore.

Record t := mk { records : gmap Id OutcomeRecord }.

Definition default : t := mk ∅.

Definition record (rec : OutcomeRecord) : M t OperatorError unit := λ self,
  let key := from_option id (OutcomeRecord.request_id rec) (OutcomeRecord.recovery_reference rec) in
  match records self !! key with
  | Some _ => (self, Err OpDuplicateRequest)
  | None => (mk (<[key := rec]> (records self)), Ok tt)
  end.

Definition get (self : t) (reference : Id) : Result OutcomeRecord OperatorError :=
  ok_or (records self !! reference) MissingRecord.

Definition resolve (reference : Id) (resolution : Resolution) : M t OperatorError unit := λ self,
  match records self !! reference with
  | None => (self, Err MissingRecord)
  | Some rec =>
      if bool_decide (is_Some (OutcomeRecord.resolution rec)) then (self, Err AlreadyResolved)
      else (mk (<[reference := OutcomeRecord.set_resolution resolution rec]> (records self)), Ok tt)
  end.

End ReconciliationStore.
Notation ReconciliationStore := ReconciliationStore.t.

(** * Telemetry *)
Inductive TelemetryError : Type := ForbiddenLabel.

#[export] Instance TelemetryError_eq_dec : EqDecision TelemetryError.
Proof. solve_decision. Defined.

Definition ALLOWED_LABELS : list string :=
  ["backend"; "kind"; "operation"; "outcome"; "state"; "generation_bucket"].

Module TelemetryEvent.
Record t := mk { name : Id; labels : gmap Id Id }.

Definition new (name : Id) (labels : gmap Id Id) : Result t TelemetryError :=
  if forallb (λ key, bool_decide (Id.as_str key ∈ ALLOWED_LABELS)) (btree_keys labels)
  then Ok (mk name labels) else Err ForbiddenLabel.
End TelemetryEvent.
Notation TelemetryEvent := TelemetryEvent.t.

Module MemoryTelemetry.
Record t := mk { events : list TelemetryEvent }.
Definition default : t := mk [].
Definition record (event : TelemetryEvent) (self : t) : t := mk (events self ++ [event]).
End MemoryTelemetry.
Notation MemoryTelemetry := MemoryTelemetry.t.
