(* ===== verification/ServiceCore.v ===== *)
(** [crates/heptabao-service-core]: the mandatory request pipeline.

    [ServiceCore.handle] composes the components of this library in the order
    of the source: token validation, identity expansion, namespace
    qualification, policy decision, mount routing, request-identifier
    admission, KV dispatch, post-commit confirmation and outcome recording.

    The post-commit hook is a trait in the source; here it is the class
    [PostCommitHook], and every theorem about the pipeline holds for all its
    instances.  The accessors [identities_mut], [policies_mut], ... hand out the
    components for arbitrary administration; [ServiceOp] models them as
    replacing a component by any value. *)
From Stdlib Require Import Ascii NArith.
From S2P Require Import Prelude Str Domain Policy Token Identity Namespace MountRouter KvEngine Operator.

(** * Requests *)
Inductive ServiceOperation : Type :=
| KvRead (version : option N)
| KvWrite (value : SecretValue) (cas : option N)
| KvDelete
| KvList.

#[export] Instance ServiceOperation_eq_dec : EqDecision ServiceOperation.
Proof. solve_decision. Defined.

Module Operation.
Definition capability (self : ServiceOperation) : Capability :=
  match self with
  | KvRead _ => Read
  | KvWrite _ _ => Update
  | KvDelete => Delete
  | KvList => List
  end.

Definition label (self : ServiceOperation) : string :=
  match self with
  | KvRead _ => "kv_read"
  | KvWrite _ _ => "kv_write"
  | KvDelete => "kv_delete"
  | KvList => "kv_list"
  end.

Definition is_commit (self : ServiceOperation) : bool :=
  match self with KvWrite _ _ | KvDelete => true | _ => false end.
End Operation.

Module ServiceRequest.
Record t := mk {
  request_id : Id;
  token_id : TokenId;
  namespace_id : Id;
  path : CanonicalPath;
  operation : ServiceOperation;
}.
End ServiceRequest.
Notation ServiceRequest := ServiceRequest.t.

Definition DEFAULT_REQUEST_REGISTRY_CAPACITY : nat := 256.

Module RequestKey.
Record t := mk { principal_id : Id; namespace_id : Id; request_id : Id }.
End RequestKey.
Notation RequestKey := RequestKey.t.

#[export] Instance RequestKey_eq_dec : EqDecision RequestKey.
Proof. solve_decision. Defined.

#[export] Instance RequestKey_countable : Countable RequestKey.
Proof.
  apply (inj_countable' (λ k, (RequestKey.principal_id k, RequestKey.namespace_id k, RequestKey.request_id k))
           (λ '(p, n, r), RequestKey.mk p n r)).
  by intros [].
Defined.

Module RequestBinding.
Record t := mk { path : CanonicalPath; operation : ServiceOperation }.
End RequestBinding.
Notation RequestBinding := RequestBinding.t.

#[export] Instance RequestBinding_eq_dec : EqDecision RequestBinding.
Proof. solve_decision. Defined.

Inductive ServiceError : Type :=
| DuplicateRequest
| RequestBindingMismatch
| RequestRegistrySaturated
| RequestRegistryInvariant
| InvalidRequestRegistryCapacity
| MissingRecoveryReference
| RecoveryReferenceOverflow
| Unauthorized
| UnsupportedBackend
| EDomain (e : DomainError)
| EIdentity (e : IdentityError)
| EToken (e : TokenError)
| ENamespace (e : NamespaceError)
| EMount (e : MountError)
| EKv (e : KvError)
| ETelemetry (e : TelemetryError)
| EOperator (e : OperatorError).

#[export] Instance ServiceError_eq_dec : EqDecision ServiceError.
Proof. solve_decision. Defined.

(** * The request registry *)
Module RequestRegistryCounts.
Record t := mk { capacity : nat; pending : nat; unresolved : nat; resolved : nat }.
Definition total (self : t) : nat := pending self + unresolved self + resolved self.
End RequestRegistryCounts.

Module RequestRegistry.

Record t := mk {
  capacity : nat;
  pending : gmap RequestKey RequestBinding;
  unresolved : gmap RequestKey RequestBinding;
  resolved : gset RequestKey;
}.

Definition new (capacity : nat) : Result t ServiceError :=
  if capacity =? 0 then Err InvalidRequestRegistryCapacity else Ok (mk capacity ∅ ∅ ∅).

Definition counts (self : t) : RequestRegistryCounts.t :=
  RequestRegistryCounts.mk (capacity self) (size (pending self)) (size (unresolved self))
    (size (resolved self)).

Definition existing_binding (self : t) (key : RequestKey) : option RequestBinding :=
  match pending self !! key with
  | Some b => Some b
  | None => unresolved self !! key
  end.

Definition retained_len (self : t) : nat := size (unresolved self) + size (resolved self).

Definition begin (key : RequestKey) (binding : RequestBinding) : M t ServiceError unit := λ self,
  if bool_decide (key ∈ resolved self) then (self, Err DuplicateRequest)
  else match existing_binding self key with
  | Some existing =>
      (self, Err (if bool_decide (existing = binding) then DuplicateRequest
                  else RequestBindingMismatch))
  | None =>
      if capacity self <=? retained_len self then (self, Err RequestRegistrySaturated)
      else
        let self' := mk (capacity self) (<[key := binding]> (pending self))
                       (unresolved self) (resolved self) in
        match pending self !! key with
        | Some _ => (self', Err RequestRegistryInvariant)
        | None => (self', Ok tt)
        end
  end.

Definition abort (key : RequestKey) : M t ServiceError unit := λ self,
  let self' := mk (capacity self) (delete key (pending self)) (unresolved self) (resolved self) in
  match pending self !! key with
  | None => (self', Err RequestRegistryInvariant)
  | Some _ => (self', Ok tt)
  end.

Definition mark_resolved (key : RequestKey) : M t ServiceError unit := λ self,
  let pending' := delete key (pending self) in
  match pending self !! key with
  | None => (mk (capacity self) pending' (unresolved self) (resolved self),
             Err RequestRegistryInvariant)
  | Some _ =>
      let self' := mk (capacity self) pending' (unresolved self) ({[key]} ∪ resolved self) in
      if bool_decide (key ∈ resolved self) then (self', Err RequestRegistryInvariant)
      else (self', Ok tt)
  end.

Definition mark_unresolved (key : RequestKey) : M t ServiceError unit := λ self,
  let pending' := delete key (pending self) in
  match pending self !! key with
  | None => (mk (capacity self) pending' (unresolved self) (resolved self),
             Err RequestRegistryInvariant)
  | Some binding =>
      let self' := mk (capacity self) pending' (<[key := binding]> (unresolved self))
                     (resolved self) in
      match unresolved self !! key with
      | Some _ => (self', Err RequestRegistryInvariant)
      | None => (self', Ok tt)
      end
  end.

Definition resolve_unresolved (key : RequestKey) : M t ServiceError unit := λ self,
  match unresolved self !! key with
  | None => (self, Err RequestRegistryInvariant)
  | Some _ =>
      let self' := mk (capacity self) (pending self) (delete key (unresolved self))
                     ({[key]} ∪ resolved self) in
      if bool_decide (key ∈ resolved self) then (self', Err RequestRegistryInvariant)
      else (self', Ok tt)
  end.

End RequestRegistry.
Notation RequestRegistry := RequestRegistry.t.

(** * Responses *)
Inductive ServiceOutput : Type :=
| OutRead (metadata : KvMetadata) (value : SecretValue)
| Written (metadata : KvMetadata)
| OutDeleted (metadata : KvMetadata)
| Listed (paths : list CanonicalPath).

Inductive ServiceResponse : Type :=
| Completed (output : ServiceOutput)
| OutcomeUnknownAfterEntry (recovery_reference : Id).

(** * The post-commit hook *)
Inductive PostCommitErrorT : Type := PostCommitError.

Class PostCommitHook (H : Type) : Type :=
  after_commit : Id → H → H * Result unit PostCommitErrorT.

Inductive NoopPostCommitHook : Type := Noop.
#[export] Instance noop_hook : PostCommitHook NoopPostCommitHook := λ _ h, (h, Ok tt).

Record FailOncePostCommitHook : Type := FailOnce { failed : bool }.
#[export] Instance fail_once_hook : PostCommitHook FailOncePostCommitHook :=
  λ _ h, if failed h then (h, Ok tt) else (FailOnce true, Err PostCommitError).

(** [engine_path]: the storage key of a request, from namespace, mount and the
    path below the mount. *)
Definition engine_path (namespace_id mount_id : Id) (relative_path : string) :
  Result CanonicalPath ServiceError :=
  let value :=
    if bool_decide (relative_path = "")
    then "/" +:+ Id.as_str namespace_id +:+ "/" +:+ Id.as_str mount_id
    else "/" +:+ Id.as_str namespace_id +:+ "/" +:+ Id.as_str mount_id +:+ "/" +:+ relative_path in
  map_err EDomain (CanonicalPath.parse value).

(** [telemetry_event]. *)
Definition telemetry_event (operation outcome : string) : Result TelemetryEvent ServiceError :=
  let? k1 := map_err EDomain (Id.parse "operation") in
  let? v1 := map_err EDomain (Id.parse operation) in
  let? k2 := map_err EDomain (Id.parse "outcome") in
  let? v2 := map_err EDomain (Id.parse outcome) in
  let? name := map_err EDomain (Id.parse "request_completed") in
  map_err ETelemetry (TelemetryEvent.new name (<[k2 := v2]> (<[k1 := v1]> ∅))).

Module ServiceCore.
Section service.
Context {H : Type} `{PostCommitHook H}.

Record t := mk {
  identities : IdentityStore;
  policies : PolicyStore;
  tokens : TokenStore;
  namespaces : NamespaceStore;
  mounts : MountRouter;
  kv : KvStore;
  telemetry : MemoryTelemetry;
  reconciliation : ReconciliationStore;
  request_registry : RequestRegistry;
  recovery_requests : gmap Id RequestKey;
  next_recovery_sequence : N;
  post_commit : H;
}.

Definition new_with_request_capacity (max_versions request_registry_capacity : nat)
    (post_commit : H) : Result t ServiceError :=
  let? kv := map_err EKv (KvStore.new max_versions) in
  let? registry := RequestRegistry.new request_registry_capacity in
  Ok (mk IdentityStore.default PolicyStore.default TokenStore.default NamespaceStore.default
        MountRouter.default kv MemoryTelemetry.default ReconciliationStore.default registry
        ∅ 0 post_commit).

Definition new (max_versions : nat) (post_commit : H) : Result t ServiceError :=
  new_with_request_capacity max_versions DEFAULT_REQUEST_REGISTRY_CAPACITY post_commit.

(** Field assignment. *)
Definition set_kv (x : KvStore) (s : t) : t :=
  mk (identities s) (policies s) (tokens s) (namespaces s) (mounts s) x (telemetry s)
    (reconciliation s) (request_registry s) (recovery_requests s) (next_recovery_sequence s)
    (post_commit s).
Definition set_telemetry (x : MemoryTelemetry) (s : t) : t :=
  mk (identities s) (policies s) (tokens s) (namespaces s) (mounts s) (kv s) x
    (reconciliation s) (request_registry s) (recovery_requests s) (next_recovery_sequence s)
    (post_commit s).
Definition set_reconciliation (x : ReconciliationStore) (s : t) : t :=
  mk (identities s) (policies s) (tokens s) (namespaces s) (mounts s) (kv s) (telemetry s)
    x (request_registry s) (recovery_requests s) (next_recovery_sequence s) (post_commit s).
Definition set_registry (x : RequestRegistry) (s : t) : t :=
  mk (identities s) (policies s) (tokens s) (namespaces s) (mounts s) (kv s) (telemetry s)
    (reconciliation s) x (recovery_requests s) (next_recovery_sequence s) (post_commit s).
Definition set_recovery (x : gmap Id RequestKey) (s : t) : t :=
  mk (identities s) (policies s) (tokens s) (namespaces s) (mounts s) (kv s) (telemetry s)
    (reconciliation s) (request_registry s) x (next_recovery_sequence s) (post_commit s).
Definition set_sequence (x : N) (s : t) : t :=
  mk (identities s) (policies s) (tokens s) (namespaces s) (mounts s) (kv s) (telemetry s)
    (reconciliation s) (request_registry s) (recovery_requests s) x (post_commit s).
Definition set_hook (x : H) (s : t) : t :=
  mk (identities s) (policies s) (tokens s) (namespaces s) (mounts s) (kv s) (telemetry s)
    (reconciliation s) (request_registry s) (recovery_requests s) (next_recovery_sequence s) x.

(** Calling a method of a component, with its error wrapped. *)
Definition on_registry {A} (m : M RequestRegistry ServiceError A) : M t ServiceError A := λ s,
  let '(r, res) := m (request_registry s) in (set_registry r s, res).
Definition on_kv {A} (m : M KvStore KvError A) : M t ServiceError (Result A ServiceError) := λ s,
  let '(k, res) := m (kv s) in (set_kv k s, Ok (map_err EKv res)).
Definition on_reconciliation {A} (m : M ReconciliationStore OperatorError A) : M t ServiceError A :=
  λ s, let '(r, res) := m (reconciliation s) in (set_reconciliation r s, map_err EOperator res).

Definition resolve_unknown (recovery_reference : Id) (resolution : Resolution) :
  M t ServiceError unit :=
  do? key := mpure (λ s, ok_or (recovery_requests s !! recovery_reference)
                           MissingRecoveryReference) in
  do? _ := on_reconciliation (ReconciliationStore.resolve recovery_reference resolution) in
  do? _ := on_registry (RequestRegistry.resolve_unresolved key) in
  λ s, match recovery_requests s !! recovery_reference with
       | None => (s, Err RequestRegistryInvariant)
       | Some _ => (set_recovery (delete recovery_reference (recovery_requests s)) s, Ok tt)
       end.

Definition allocate_recovery_reference : M t ServiceError Id := λ s,
  match checked_add (next_recovery_sequence s) 1 with
  | None => (s, Err RecoveryReferenceOverflow)
  | Some sequence =>
      match Id.parse ("recovery_" +:+ render_u64 sequence) with
      | Err e => (s, Err (EDomain e))
      | Ok reference => (set_sequence sequence s, Ok reference)
      end
  end.

(** The admission part of [handle]: lines up to the choice of the engine path.
    It reads the state only. *)
Record admission := mk_admission {
  adm_principal : Id;
  adm_engine_path : CanonicalPath;
  adm_success_event : TelemetryEvent;
  adm_unknown_event : TelemetryEvent;
}.

Definition admission_check (request : ServiceRequest) (now : Tick) (s : t) : Result admission ServiceError :=
  let? token := map_err EToken
    (TokenStore.validate (tokens s) (ServiceRequest.token_id request) now) in
  let principal_id := TokenView.entity_id token in
  let? effective := map_err EIdentity
    (IdentityStore.effective_policy_ids (identities s) principal_id) in
  let effective := effective ∪ TokenView.policy_ids token in
  let? qualified_path := map_err ENamespace
    (NamespaceStore.qualify (namespaces s) (ServiceRequest.namespace_id request)
       (ServiceRequest.path request)) in
  if negb (PolicyStore.authorize (policies s) effective
             (Operation.capability (ServiceRequest.operation request)) qualified_path)
  then Err Unauthorized
  else
  let? route := map_err EMount
    (MountRouter.route (mounts s) (ServiceRequest.namespace_id request)
       (ServiceRequest.path request)) in
  if bool_decide (Route.backend route ≠ Kv) then Err UnsupportedBackend
  else
  let operation_label := Operation.label (ServiceRequest.operation request) in
  let? success_event := telemetry_event operation_label "completed" in
  let? unknown_event := telemetry_event operation_label "outcome_unknown" in
  let? path := engine_path (ServiceRequest.namespace_id request) (Route.mount_id route)
                 (Route.relative_path route) in
  Ok (mk_admission principal_id path success_event unknown_event).

(** Registering a commit under its request key, and reserving its recovery
    reference; [None] for reads and lists. *)
Definition register (request : ServiceRequest) (principal_id : Id) :
  M t ServiceError (option (RequestKey * Id)) :=
  if Operation.is_commit (ServiceRequest.operation request) then
    let key := RequestKey.mk principal_id (ServiceRequest.namespace_id request)
                 (ServiceRequest.request_id request) in
    let binding := RequestBinding.mk (ServiceRequest.path request)
                     (ServiceRequest.operation request) in
    do? _ := on_registry (RequestRegistry.begin key binding) in
    λ s, match allocate_recovery_reference s with
         | (s, Ok reference) => (s, Ok (Some (key, reference)))
         | (s, Err error) => (do? _ := on_registry (RequestRegistry.abort key) in mfail error) s
         end
  else mret None.

(** [output_result]: the backend call.  A failed [read] leaves [handle] at once
    (the [?] of the source), a failed write or delete is returned as a value. *)
Definition dispatch (operation : ServiceOperation) (path : CanonicalPath) (now : Tick) :
  M t ServiceError (Result ServiceOutput ServiceError) :=
  match operation with
  | KvRead version =>
      do? read := mpure (λ s, map_err EKv (KvStore.read (kv s) path version)) in
      do? value := mpure (λ _, map_err EDomain (SecretValue.new (KvEngine.KvRead.value read))) in
      mret (Ok (OutRead (KvEngine.KvRead.metadata read) value))
  | KvWrite value cas =>
      do? r := on_kv (KvStore.write path value now cas) in mret (map_ok Written r)
  | KvDelete =>
      do? r := on_kv (KvStore.delete_latest path) in mret (map_ok OutDeleted r)
  | KvList => λ s, (s, Ok (Ok (Listed (KvStore.list (kv s) path))))
  end.

(** Recording an outcome whose confirmation failed. *)
Definition record_unknown (request : ServiceRequest) (key : RequestKey) (reference : Id)
    (unknown_event : TelemetryEvent) : M t ServiceError ServiceResponse :=
  do? _ := on_registry (RequestRegistry.mark_unresolved key) in
  λ s,
  let s' := set_recovery (<[reference := key]> (recovery_requests s)) s in
  match recovery_requests s !! reference with
  | Some _ => (s', Err RequestRegistryInvariant)
  | None =>
      (do? _ := on_reconciliation
          (ReconciliationStore.record
             (OutcomeRecord.unknown_after_entry (ServiceRequest.request_id request) reference)) in
       λ s, (set_telemetry (MemoryTelemetry.record unknown_event (telemetry s)) s,
             Ok (OutcomeUnknownAfterEntry reference))) s'
  end.

Definition handle (request : ServiceRequest) (now : Tick) : M t ServiceError ServiceResponse :=
  do? adm := mpure (admission_check request now) in
  do? registered := register request (adm_principal adm) in
  do? output_result := dispatch (ServiceRequest.operation request) (adm_engine_path adm) now in
  match output_result with
  | Err error =>
      match registered with
      | Some (key, _) => do? _ := on_registry (RequestRegistry.abort key) in mfail error
      | None => mfail error
      end
  | Ok output =>
      let finish := λ s,
        (set_telemetry (MemoryTelemetry.record (adm_success_event adm) (telemetry s)) s,
         Ok (Completed output)) in
      match registered with
      | None => finish
      | Some (key, reference) => λ s,
          let '(h, confirmed) := after_commit (ServiceRequest.request_id request) (post_commit s) in
          let s := set_hook h s in
          match confirmed with
          | Err _ => record_unknown request key reference (adm_unknown_event adm) s
          | Ok _ => (do? _ := on_registry (RequestRegistry.mark_resolved key) in finish) s
          end
      end
  end.

End service.
Arguments t H : clear implicits.
End ServiceCore.
Notation ServiceCore := ServiceCore.t.
