(* ===== verification/ServiceSpec.v ===== *)
(** The abstract specification of the request pipeline, and the proof that
    [ServiceCore.handle] implements it.

    [handle_outcome] is the specification: one rule per way a request can end,
    each giving the response and the exact final state.  [svc_inv] is the
    invariant of the service between calls.  [handle_refines] shows that from a
    state satisfying the invariant every run of [handle] is an instance of a
    rule; the invariant and the safety theorems then follow by cases. *)
From Stdlib Require Import Ascii NArith.
From S2P Require Import Prelude Str Domain Policy Token Identity Namespace MountRouter KvEngine Operator ServiceCore.

(** * Recovery references *)
Definition recovery_name (n : N) : string := "recovery_" +:+ render_u64 n.

Lemma recovery_parse n : ∃ i, Id.parse (recovery_name n) = Ok i ∧ Id.as_str i = recovery_name n.
Proof.
  assert (Id.check (recovery_name n) = Ok tt) as E.
  { unfold Id.check. rewrite bool_decide_eq_false_2 by done.
    pose proof (render_u64_length n) as Hlen.
    destruct (Nat.ltb_spec MAX_ID_BYTES (String.length (recovery_name n))) as [Hl|_].
    { unfold recovery_name in Hl. rewrite str_length_app in Hl. unfold MAX_ID_BYTES in Hl.
      simpl in Hl. lia. }
    assert (∀ c, is_ascii_digit c = false → ends_with c (recovery_name n) = false) as Hend.
    { intros c Hc. unfold recovery_name. rewrite ends_with_app by apply render_u64_nonempty.
      destruct (ends_with c (render_u64 n)) eqn:E; [|done].
      apply Is_true_true, (ends_with_all _ _ _ (render_u64_all n)), Is_true_true in E. congruence. }
    rewrite !Hend by done.
    assert (str_all Id.id_byte (recovery_name n)) as Hall.
    { unfold recovery_name. rewrite str_all_app, andb_True. split; [done|].
      eapply str_all_impl; [|apply render_u64_all]. intros a Ha. unfold Id.id_byte.
      rewrite !orb_True. tauto. }
    apply Is_true_true in Hall. rewrite Hall. done. }
  assert (Is_true (is_ok (Id.check (recovery_name n)))) as H by by rewrite E.
  exists (Id.mk _ H). split; [apply checked_Ok|done].
Qed.

Lemma recovery_name_inj n m :
  (n ≤ U64_MAX)%N → (m ≤ U64_MAX)%N → recovery_name n = recovery_name m → n = m.
Proof. intros Hn Hm E%str_app_inj_l. by apply render_u64_inj. Qed.

Section service.
Context {H : Type} `{Hook : PostCommitHook H}.
Notation svc := (ServiceCore H).
Implicit Types s : svc.

(** * Reading the registry *)
Definition registry s := ServiceCore.request_registry s.

(** The request keys whose effect has happened: retained, never reused. *)
Definition used (s : svc) : gset RequestKey :=
  dom (RequestRegistry.unresolved (registry s)) ∪ RequestRegistry.resolved (registry s).

(** The key a commit by [principal] is registered under. *)
Definition key_of (principal : Id) (req : ServiceRequest) : RequestKey :=
  RequestKey.mk principal (ServiceRequest.namespace_id req) (ServiceRequest.request_id req).

(** * The invariant between calls *)
Record svc_inv (s : svc) : Prop := {
  svc_no_pending : RequestRegistry.pending (registry s) = ∅;
  svc_disjoint : dom (RequestRegistry.unresolved (registry s)) ## RequestRegistry.resolved (registry s);
  svc_capacity : RequestRegistry.retained_len (registry s) ≤ RequestRegistry.capacity (registry s);
  svc_recovery : ∀ ref k, ServiceCore.recovery_requests s !! ref = Some k →
    is_Some (RequestRegistry.unresolved (registry s) !! k) ∧
    ∃ rec, ReconciliationStore.records (ServiceCore.reconciliation s) !! ref = Some rec
           ∧ OutcomeRecord.resolution rec = None;
  svc_recovery_total : ∀ k, is_Some (RequestRegistry.unresolved (registry s) !! k) →
    ∃ ref, ServiceCore.recovery_requests s !! ref = Some k;
  svc_recovery_inj : ∀ ref ref' k, ServiceCore.recovery_requests s !! ref = Some k →
    ServiceCore.recovery_requests s !! ref' = Some k → ref = ref';
  svc_records_named : ∀ ref,
    is_Some (ReconciliationStore.records (ServiceCore.reconciliation s) !! ref) →
    ∃ n, (n ≤ ServiceCore.next_recovery_sequence s)%N ∧ Id.as_str ref = recovery_name n;
  svc_sequence : (ServiceCore.next_recovery_sequence s ≤ U64_MAX)%N;
  svc_kv : kv_inv (ServiceCore.kv s);
}.

(** * The backend effect of a commit *)
Inductive kv_commit (path : CanonicalPath) (now : Tick) (k : KvStore) :
  ServiceOperation → KvStore → Result ServiceOutput KvError → Prop :=
| commit_write v cas k' r :
    KvStore.write path v now cas k = (k', r) →
    kv_commit path now k (KvWrite v cas) k' (map_ok Written r)
| commit_delete k' r :
    KvStore.delete_latest path k = (k', r) →
    kv_commit path now k KvDelete k' (map_ok OutDeleted r).

(** The error a replayed key gets. *)
Definition replay_error (s : svc) (k : RequestKey) (req : ServiceRequest) : ServiceError :=
  match RequestRegistry.unresolved (registry s) !! k with
  | Some b => if bool_decide (b = RequestBinding.mk (ServiceRequest.path req)
                                    (ServiceRequest.operation req))
              then DuplicateRequest else RequestBindingMismatch
  | None => DuplicateRequest
  end.

Definition log_event (e : TelemetryEvent) (s : svc) : svc :=
  ServiceCore.set_telemetry (MemoryTelemetry.record e (ServiceCore.telemetry s)) s.

Definition registry_with (unresolved : gmap RequestKey RequestBinding)
    (resolved : gset RequestKey) (s : svc) : svc :=
  ServiceCore.set_registry
    (RequestRegistry.mk (RequestRegistry.capacity (registry s)) ∅ unresolved resolved) s.

(** The state after a commit's effect, before the registry records it. *)
Definition entered (k' : KvStore) (h : H) (s : svc) : svc :=
  ServiceCore.set_hook h (ServiceCore.set_kv k'
    (ServiceCore.set_sequence (ServiceCore.next_recovery_sequence s + 1) s)).

(** * The specification *)
Inductive handle_outcome (req : ServiceRequest) (now : Tick) (s : svc) :
  svc → Result ServiceResponse ServiceError → Prop :=
| out_refused e :
    ServiceCore.admission_check req now s = Err e →
    handle_outcome req now s s (Err e)
| out_read_failed adm v e :
    ServiceCore.admission_check req now s = Ok adm →
    ServiceRequest.operation req = KvRead v →
    KvStore.read (ServiceCore.kv s) (ServiceCore.adm_engine_path adm) v = Err e →
    handle_outcome req now s s (Err (EKv e))
| out_read adm v r value :
    ServiceCore.admission_check req now s = Ok adm →
    ServiceRequest.operation req = KvRead v →
    KvStore.read (ServiceCore.kv s) (ServiceCore.adm_engine_path adm) v = Ok r →
    SecretValue.expose value = KvEngine.KvRead.value r →
    handle_outcome req now s (log_event (ServiceCore.adm_success_event adm) s)
      (Ok (Completed (OutRead (KvEngine.KvRead.metadata r) value)))
| out_list adm :
    ServiceCore.admission_check req now s = Ok adm →
    ServiceRequest.operation req = KvList →
    handle_outcome req now s (log_event (ServiceCore.adm_success_event adm) s)
      (Ok (Completed (Listed (KvStore.list (ServiceCore.kv s) (ServiceCore.adm_engine_path adm)))))
| out_replay adm :
    ServiceCore.admission_check req now s = Ok adm →
    Operation.is_commit (ServiceRequest.operation req) = true →
    key_of (ServiceCore.adm_principal adm) req ∈ used s →
    handle_outcome req now s s
      (Err (replay_error s (key_of (ServiceCore.adm_principal adm) req) req))
| out_saturated adm :
    ServiceCore.admission_check req now s = Ok adm →
    Operation.is_commit (ServiceRequest.operation req) = true →
    key_of (ServiceCore.adm_principal adm) req ∉ used s →
    RequestRegistry.retained_len (registry s) = RequestRegistry.capacity (registry s) →
    handle_outcome req now s s (Err RequestRegistrySaturated)
| out_exhausted adm :
    ServiceCore.admission_check req now s = Ok adm →
    Operation.is_commit (ServiceRequest.operation req) = true →
    key_of (ServiceCore.adm_principal adm) req ∉ used s →
    ServiceCore.next_recovery_sequence s = U64_MAX →
    handle_outcome req now s s (Err RecoveryReferenceOverflow)
| out_commit_failed adm e :
    ServiceCore.admission_check req now s = Ok adm →
    key_of (ServiceCore.adm_principal adm) req ∉ used s →
    (ServiceCore.next_recovery_sequence s < U64_MAX)%N →
    kv_commit (ServiceCore.adm_engine_path adm) now (ServiceCore.kv s)
      (ServiceRequest.operation req) (ServiceCore.kv s) (Err e) →
    handle_outcome req now s
      (ServiceCore.set_sequence (ServiceCore.next_recovery_sequence s + 1) s) (Err (EKv e))
| out_committed adm k' h output :
    let key := key_of (ServiceCore.adm_principal adm) req in
    ServiceCore.admission_check req now s = Ok adm →
    key ∉ used s →
    RequestRegistry.retained_len (registry s) < RequestRegistry.capacity (registry s) →
    (ServiceCore.next_recovery_sequence s < U64_MAX)%N →
    kv_commit (ServiceCore.adm_engine_path adm) now (ServiceCore.kv s)
      (ServiceRequest.operation req) k' (Ok output) →
    after_commit (ServiceRequest.request_id req) (ServiceCore.post_commit s) = (h, Ok tt) →
    handle_outcome req now s
      (log_event (ServiceCore.adm_success_event adm)
        (registry_with (RequestRegistry.unresolved (registry s))
           ({[key]} ∪ RequestRegistry.resolved (registry s)) (entered k' h s)))
      (Ok (Completed output))
| out_unknown adm k' h output ref :
    let key := key_of (ServiceCore.adm_principal adm) req in
    ServiceCore.admission_check req now s = Ok adm →
    key ∉ used s →
    RequestRegistry.retained_len (registry s) < RequestRegistry.capacity (registry s) →
    (ServiceCore.next_recovery_sequence s < U64_MAX)%N →
    kv_commit (ServiceCore.adm_engine_path adm) now (ServiceCore.kv s)
      (ServiceRequest.operation req) k' (Ok output) →
    after_commit (ServiceRequest.request_id req) (ServiceCore.post_commit s) = (h, Err PostCommitError) →
    Id.as_str ref = recovery_name (ServiceCore.next_recovery_sequence s + 1) →
    handle_outcome req now s
      (log_event (ServiceCore.adm_unknown_event adm)
        (ServiceCore.set_reconciliation
           (ReconciliationStore.mk
              (<[ref := OutcomeRecord.unknown_after_entry (ServiceRequest.request_id req) ref]>
                 (ReconciliationStore.records (ServiceCore.reconciliation s))))
           (ServiceCore.set_recovery (<[ref := key]> (ServiceCore.recovery_requests s))
              (registry_with
                 (<[key := RequestBinding.mk (ServiceRequest.path req) (ServiceRequest.operation req)]>
                    (RequestRegistry.unresolved (registry s)))
                 (RequestRegistry.resolved (registry s)) (entered k' h s)))))
      (Ok (OutcomeUnknownAfterEntry ref)).

(** * The implementation meets the specification *)

(** The registry while a commit is in flight. *)
Definition in_flight (k : RequestKey) (b : RequestBinding) (s : svc) : svc :=
  ServiceCore.set_registry
    (RequestRegistry.mk (RequestRegistry.capacity (registry s)) {[k := b]}
       (RequestRegistry.unresolved (registry s)) (RequestRegistry.resolved (registry s))) s.

Definition binding_of (req : ServiceRequest) : RequestBinding :=
  RequestBinding.mk (ServiceRequest.path req) (ServiceRequest.operation req).

Lemma registry_eta s :
  RequestRegistry.pending (registry s) = ∅ →
  registry s = RequestRegistry.mk (RequestRegistry.capacity (registry s)) ∅
    (RequestRegistry.unresolved (registry s)) (RequestRegistry.resolved (registry s)).
Proof. destruct (registry s); simpl. by intros ->. Qed.

Lemma set_registry_id s : ServiceCore.set_registry (registry s) s = s.
Proof. by destruct s. Qed.

(** [begin]: the three refusals, and the entry into flight. *)
Lemma begin_spec k req s :
  svc_inv s →
  ServiceCore.on_registry (RequestRegistry.begin k (binding_of req)) s =
  if bool_decide (k ∈ used s) then (s, Err (replay_error s k req))
  else if RequestRegistry.capacity (registry s) <=? RequestRegistry.retained_len (registry s)
  then (s, Err RequestRegistrySaturated)
  else (in_flight k (binding_of req) s, Ok tt).
Proof.
  intros Hinv. unfold ServiceCore.on_registry, RequestRegistry.begin.
  fold (registry s). unfold RequestRegistry.existing_binding.
  rewrite (svc_no_pending s Hinv), lookup_empty. unfold used, replay_error, binding_of.
  pose proof (svc_disjoint s Hinv) as Hdis.
  destruct (RequestRegistry.unresolved (registry s) !! k) as [b|] eqn:Hu.
  - assert (k ∈ dom (RequestRegistry.unresolved (registry s))) by (apply elem_of_dom; eauto).
    rewrite (bool_decide_eq_false_2 (k ∈ RequestRegistry.resolved _)) by set_solver.
    rewrite (bool_decide_eq_true_2 (k ∈ _ ∪ _)) by set_solver. by rewrite set_registry_id.
  - assert (k ∉ dom (RequestRegistry.unresolved (registry s))) by (by apply not_elem_of_dom).
    case_bool_decide.
    + rewrite (bool_decide_eq_true_2 (k ∈ _ ∪ _)) by set_solver. by rewrite set_registry_id.
    + rewrite (bool_decide_eq_false_2 (k ∈ _ ∪ _)) by set_solver.
      destruct (_ <=? _); [by rewrite set_registry_id|done].
Qed.

(** Aborting a commit in flight restores the registry. *)
Lemma abort_spec k b s :
  RequestRegistry.pending (registry s) = {[k := b]} →
  ServiceCore.on_registry (RequestRegistry.abort k) s =
  (registry_with (RequestRegistry.unresolved (registry s))
     (RequestRegistry.resolved (registry s)) s, Ok tt).
Proof.
  intros Hp. unfold ServiceCore.on_registry, RequestRegistry.abort. fold (registry s).
  rewrite Hp, lookup_singleton_eq. unfold registry_with. by rewrite delete_singleton_eq.
Qed.

Lemma registry_with_id s :
  RequestRegistry.pending (registry s) = ∅ →
  registry_with (RequestRegistry.unresolved (registry s)) (RequestRegistry.resolved (registry s)) s = s.
Proof.
  intros Hp. unfold registry_with. rewrite <- registry_eta by done. apply set_registry_id.
Qed.

Lemma allocate_spec s :
  svc_inv s →
  (ServiceCore.next_recovery_sequence s = U64_MAX ∧
   ∀ s0, ServiceCore.next_recovery_sequence s0 = U64_MAX →
     ServiceCore.allocate_recovery_reference s0 = (s0, Err RecoveryReferenceOverflow)) ∨
  ((ServiceCore.next_recovery_sequence s < U64_MAX)%N ∧ ∃ ref,
   Id.as_str ref = recovery_name (ServiceCore.next_recovery_sequence s + 1) ∧
   ∀ s0, ServiceCore.next_recovery_sequence s0 = ServiceCore.next_recovery_sequence s →
     ServiceCore.allocate_recovery_reference s0 =
     (ServiceCore.set_sequence (ServiceCore.next_recovery_sequence s + 1) s0, Ok ref)).
Proof.
  intros Hinv. pose proof (svc_sequence s Hinv) as Hle.
  set (n := ServiceCore.next_recovery_sequence s) in *.
  destruct (N.eq_dec n U64_MAX) as [E|Hne]; [left|right].
  - split; [done|]. intros s0 E0. unfold ServiceCore.allocate_recovery_reference.
    rewrite E0. done.
  - split; [lia|]. destruct (recovery_parse (n + 1)) as (ref & Hp & Hn).
    exists ref. split; [done|]. intros s0 E0. unfold ServiceCore.allocate_recovery_reference.
    rewrite E0. rewrite (proj2 (checked_add_Some n 1 (n + 1))) by (split; [done|lia]).
    fold (recovery_name (n + 1)). by rewrite Hp.
Qed.

(** Registration as a whole. *)
Lemma register_spec p req s :
  svc_inv s → Operation.is_commit (ServiceRequest.operation req) = true →
  let k := key_of p req in
  (k ∈ used s ∧ ServiceCore.register req p s = (s, Err (replay_error s k req))) ∨
  (k ∉ used s ∧ RequestRegistry.retained_len (registry s) = RequestRegistry.capacity (registry s)
   ∧ ServiceCore.register req p s = (s, Err RequestRegistrySaturated)) ∨
  (k ∉ used s ∧ ServiceCore.next_recovery_sequence s = U64_MAX
   ∧ ServiceCore.register req p s = (s, Err RecoveryReferenceOverflow)) ∨
  (k ∉ used s ∧ RequestRegistry.retained_len (registry s) < RequestRegistry.capacity (registry s)
   ∧ (ServiceCore.next_recovery_sequence s < U64_MAX)%N
   ∧ ∃ ref, Id.as_str ref = recovery_name (ServiceCore.next_recovery_sequence s + 1) ∧
     ServiceCore.register req p s =
     (ServiceCore.set_sequence (ServiceCore.next_recovery_sequence s + 1)
        (in_flight k (binding_of req) s), Ok (Some (k, ref)))).
Proof.
  intros Hinv Hc k. unfold ServiceCore.register. rewrite Hc. fold (key_of p req). fold k.
  fold (binding_of req). unfold mbind. rewrite (begin_spec k req s Hinv).
  case_bool_decide as Hk; [by left|]. right. pose proof (svc_capacity s Hinv) as Hcap.
  destruct (Nat.leb_spec (RequestRegistry.capacity (registry s))
              (RequestRegistry.retained_len (registry s))) as [Hle|Hlt].
  { left. split; [done|]. split; [lia|done]. }
  right. destruct (allocate_spec s Hinv) as [[E Hal]|(Hn & ref & Href & Hal)]; [left|right].
  - split; [done|]. split; [done|]. rewrite Hal by done.
    rewrite (abort_spec k (binding_of req)) by done. unfold mfail.
    f_equal. etrans; [|apply registry_with_id, Hinv]. by destruct s.
  - do 3 (split; [done|]). exists ref. split; [done|]. by rewrite Hal.
Qed.

(** The backend call while a commit is in flight. *)
Lemma dispatch_commit op path now s :
  Operation.is_commit op = true →
  ∃ k' r, kv_commit path now (ServiceCore.kv s) op k' r ∧
    (∀ e, r = Err e → k' = ServiceCore.kv s) ∧
    ServiceCore.dispatch op path now s = (ServiceCore.set_kv k' s, Ok (map_err EKv r)).
Proof.
  destruct op as [v|v cas| |]; simpl; intros Hc; try done; unfold mbind, ServiceCore.on_kv, mret.
  - destruct (KvStore.write path v now cas (ServiceCore.kv s)) as [k' r] eqn:E.
    exists k', (map_ok Written r). split; [by constructor|]. split; [|by destruct r].
    intros e ?. destruct r as [|e']; [done|].
    unfold KvStore.write in E. repeat case_match; by simplify_eq.
  - destruct (KvStore.delete_latest path (ServiceCore.kv s)) as [k' r] eqn:E.
    exists k', (map_ok OutDeleted r). split; [by constructor|]. split; [|by destruct r].
    intros e ?. destruct r as [|e']; [done|].
    unfold KvStore.delete_latest in E. repeat case_match; by simplify_eq.
Qed.

(** Fresh references are not in use. *)
Lemma fresh_reference s ref :
  svc_inv s → (ServiceCore.next_recovery_sequence s < U64_MAX)%N →
  Id.as_str ref = recovery_name (ServiceCore.next_recovery_sequence s + 1) →
  ReconciliationStore.records (ServiceCore.reconciliation s) !! ref = None ∧
  ServiceCore.recovery_requests s !! ref = None.
Proof.
  intros Hinv Hlt Href.
  assert (ReconciliationStore.records (ServiceCore.reconciliation s) !! ref = None) as Hrec.
  { destruct (_ !! ref) eqn:E; [exfalso|done].
    destruct (svc_records_named s Hinv ref) as (n & Hn & Hname); [eauto|].
    rewrite Href in Hname. apply recovery_name_inj in Hname; lia. }
  split; [done|]. destruct (ServiceCore.recovery_requests s !! ref) as [k|] eqn:E; [exfalso|done].
  destruct (svc_recovery s Hinv ref k E) as (_ & rec & ? & _). congruence.
Qed.

End service.

(** * Safety of the request pipeline: the refinement of [ServiceCore.handle] to
    [handle_outcome], the service invariant over every sequence of API calls,
    and what follows for duplicate requests, authorization and recovery. *)

Section safety.
Context {H : Type} `{Hook : PostCommitHook H}.
Notation svc := (ServiceCore H).
Implicit Types s : svc.

(** * Refinement *)
Lemma dispatch_read_Ok s path v r :
  KvStore.read (ServiceCore.kv s) path v = Ok r →
  ∃ value, SecretValue.expose value = KvEngine.KvRead.value r.
Proof.
  unfold KvStore.read. destruct (KvStore.entries _ !! path) as [h|]; simpl; [|done].
  destruct (match v with Some _ => _ | None => _ end) as [rec|]; [|done].
  repeat (case_match; [done|]). destruct (VersionRecord.value rec) as [x|]; simpl; [|done].
  intros [= <-]. by exists x.
Qed.

Lemma handle_read req now s s' r v adm :
  ServiceCore.admission_check req now s = Ok adm →
  ServiceRequest.operation req = KvRead v →
  ServiceCore.handle req now s = (s', r) → handle_outcome req now s s' r.
Proof.
  intros Hadm Hop. unfold ServiceCore.handle, mbind, mpure. rewrite Hadm.
  unfold ServiceCore.register. rewrite Hop. simpl. unfold mbind, mpure, mret.
  destruct (KvStore.read _ _ _) as [rd|e] eqn:Hr; simpl.
  - destruct (dispatch_read_Ok _ _ _ _ Hr) as (value & Hv). rewrite <- Hv, SecretValue_new_expose.
    simpl. intros [= <- <-]. by eapply out_read.
  - intros [= <- <-]. by eapply out_read_failed.
Qed.

Lemma handle_list req now s s' r adm :
  ServiceCore.admission_check req now s = Ok adm →
  ServiceRequest.operation req = KvList →
  ServiceCore.handle req now s = (s', r) → handle_outcome req now s s' r.
Proof.
  intros Hadm Hop. unfold ServiceCore.handle, mbind, mpure. rewrite Hadm.
  unfold ServiceCore.register. rewrite Hop. simpl. unfold mret.
  intros [= <- <-]. by eapply out_list.
Qed.

(** The three ends of a commit in flight. *)
Lemma finish_failed s k b seq k' :
  svc_inv s →
  ServiceCore.on_registry (RequestRegistry.abort k)
    (ServiceCore.set_kv k' (ServiceCore.set_sequence seq (in_flight k b s))) =
  (ServiceCore.set_kv k' (ServiceCore.set_sequence seq s), Ok tt).
Proof.
  intros Hinv. rewrite (abort_spec k b) by done. f_equal.
  pose proof (registry_eta s (svc_no_pending s Hinv)) as E. destruct s.
  unfold registry_with, registry in *. simpl in *. by rewrite <- E.
Qed.

Lemma finish_resolved s k b seq k' h :
  svc_inv s → k ∉ used s →
  ServiceCore.on_registry (RequestRegistry.mark_resolved k)
    (ServiceCore.set_hook h (ServiceCore.set_kv k' (ServiceCore.set_sequence seq (in_flight k b s)))) =
  (registry_with (RequestRegistry.unresolved (registry s))
     ({[k]} ∪ RequestRegistry.resolved (registry s))
     (ServiceCore.set_hook h (ServiceCore.set_kv k' (ServiceCore.set_sequence seq s))), Ok tt).
Proof.
  intros Hinv Hk. unfold ServiceCore.on_registry, RequestRegistry.mark_resolved. simpl.
  rewrite lookup_singleton_eq, delete_singleton_eq.
  rewrite bool_decide_eq_false_2 by (unfold used in Hk; set_solver). done.
Qed.

Lemma finish_unknown req s k seq k' h ref ev :
  svc_inv s → k ∉ used s →
  ReconciliationStore.records (ServiceCore.reconciliation s) !! ref = None →
  ServiceCore.recovery_requests s !! ref = None →
  ServiceCore.record_unknown req k ref ev
    (ServiceCore.set_hook h
       (ServiceCore.set_kv k' (ServiceCore.set_sequence seq (in_flight k (binding_of req) s)))) =
  (log_event ev
    (ServiceCore.set_reconciliation
       (ReconciliationStore.mk
          (<[ref := OutcomeRecord.unknown_after_entry (ServiceRequest.request_id req) ref]>
             (ReconciliationStore.records (ServiceCore.reconciliation s))))
       (ServiceCore.set_recovery (<[ref := k]> (ServiceCore.recovery_requests s))
          (registry_with (<[k := binding_of req]> (RequestRegistry.unresolved (registry s)))
             (RequestRegistry.resolved (registry s))
             (ServiceCore.set_hook h (ServiceCore.set_kv k' (ServiceCore.set_sequence seq s)))))),
   Ok (OutcomeUnknownAfterEntry ref)).
Proof.
  intros Hinv Hk Hrec Hreq. unfold ServiceCore.record_unknown, mbind, ServiceCore.on_registry,
    RequestRegistry.mark_unresolved. simpl.
  rewrite lookup_singleton_eq, delete_singleton_eq.
  assert (RequestRegistry.unresolved (ServiceCore.request_registry s) !! k = None) as Hun.
  { apply not_elem_of_dom. unfold used, registry in Hk. set_solver. }
  unfold registry. rewrite Hun. simpl. rewrite Hreq.
  unfold ServiceCore.on_reconciliation, ReconciliationStore.record. simpl. rewrite Hrec. done.
Qed.

Lemma handle_commit req now s s' r adm :
  svc_inv s →
  ServiceCore.admission_check req now s = Ok adm →
  Operation.is_commit (ServiceRequest.operation req) = true →
  ServiceCore.handle req now s = (s', r) → handle_outcome req now s s' r.
Proof.
  intros Hinv Hadm Hc. unfold ServiceCore.handle, mbind at 1, mpure. rewrite Hadm.
  unfold mbind at 1.
  destruct (register_spec (ServiceCore.adm_principal adm) req s Hinv Hc)
    as [(Hk & ->)|[(Hk & Hcap & ->)|[(Hk & Hmax & ->)|(Hk & Hcap & Hmax & ref & Href & ->)]]].
  { intros [= <- <-]. by apply out_replay. }
  { intros [= <- <-]. by eapply out_saturated. }
  { intros [= <- <-]. by eapply out_exhausted. }
  unfold mbind at 1. set (k := key_of _ req) in *. set (seq := (_ + 1)%N) in *.
  destruct (dispatch_commit (ServiceRequest.operation req) (ServiceCore.adm_engine_path adm) now
              (ServiceCore.set_sequence seq (in_flight k (binding_of req) s)) Hc)
    as (k' & res & Hkv & Herr & ->).
  change (ServiceCore.kv (ServiceCore.set_sequence seq (in_flight k (binding_of req) s)))
    with (ServiceCore.kv s) in *.
  destruct res as [output|e]; simpl.
  - destruct (after_commit (ServiceRequest.request_id req) (ServiceCore.post_commit s))
      as [h [[]|[]]] eqn:Hh; simpl.
    + unfold mbind. rewrite finish_resolved by done. intros [= <- <-]. by eapply out_committed.
    + destruct (fresh_reference s ref Hinv Hmax Href) as [Hrec Hreq].
      rewrite finish_unknown by done. intros [= <- <-]. by eapply out_unknown.
  - rewrite (Herr e eq_refl) in Hkv |- *. unfold mbind. rewrite finish_failed by done.
    intros [= <- <-].
    replace (ServiceCore.set_kv (ServiceCore.kv s) (ServiceCore.set_sequence seq s))
      with (ServiceCore.set_sequence seq s) by by destruct s.
    by eapply out_commit_failed.
Qed.

Lemma handle_refines req now s s' r :
  svc_inv s → ServiceCore.handle req now s = (s', r) → handle_outcome req now s s' r.
Proof.
  intros Hinv Hh. destruct (ServiceCore.admission_check req now s) as [adm|e] eqn:Hadm.
  - destruct (ServiceRequest.operation req) as [v|v cas| |] eqn:Hop.
    + by eapply handle_read.
    + eapply handle_commit; [done..| |done]. by rewrite Hop.
    + eapply handle_commit; [done..| |done]. by rewrite Hop.
    + by eapply handle_list.
  - unfold ServiceCore.handle, mbind, mpure in Hh. rewrite Hadm in Hh.
    injection Hh as <- <-. by apply out_refused.
Qed.

(** * The API as a state machine *)
Inductive ServiceOp : Type :=
| SOpIdentities (x : IdentityStore)
| SOpPolicies (x : PolicyStore)
| SOpTokens (x : TokenStore)
| SOpNamespaces (x : NamespaceStore)
| SOpMounts (x : MountRouter)
| SOpHandle (request : ServiceRequest) (now : Tick)
| SOpResolve (recovery_reference : Id) (resolution : Resolution).

(** Use of one of the [*_mut] accessors: the component becomes any value. *)
Definition replace (i : IdentityStore) (p : PolicyStore) (t : TokenStore) (n : NamespaceStore)
    (m : MountRouter) (s : svc) : svc :=
  ServiceCore.mk i p t n m (ServiceCore.kv s) (ServiceCore.telemetry s)
    (ServiceCore.reconciliation s) (ServiceCore.request_registry s)
    (ServiceCore.recovery_requests s) (ServiceCore.next_recovery_sequence s)
    (ServiceCore.post_commit s).

Definition service_exec (o : ServiceOp) (s : svc) : svc :=
  let i := ServiceCore.identities s in
  let p := ServiceCore.policies s in
  let t := ServiceCore.tokens s in
  let n := ServiceCore.namespaces s in
  let m := ServiceCore.mounts s in
  match o with
  | SOpIdentities x => replace x p t n m s
  | SOpPolicies x => replace i x t n m s
  | SOpTokens x => replace i p x n m s
  | SOpNamespaces x => replace i p t x m s
  | SOpMounts x => replace i p t n x s
  | SOpHandle req now => (ServiceCore.handle req now s).1
  | SOpResolve ref res => (ServiceCore.resolve_unknown ref res s).1
  end.

(** * The invariant is preserved *)
Lemma kv_commit_inv path now k op k' r :
  kv_inv k → kv_commit path now k op k' r → kv_inv k'.
Proof.
  intros Hk [v cas k1 r1 E|k1 r1 E].
  - pose proof (kv_write_inv path v now cas k Hk) as Hi. by rewrite E in Hi.
  - pose proof (kv_delete_latest_inv path k Hk) as Hi. by rewrite E in Hi.
Qed.

(** The invariant depends on the registry, recovery, kv and sequence fields. *)
Lemma svc_inv_ext s s' :
  registry s' = registry s →
  ServiceCore.recovery_requests s' = ServiceCore.recovery_requests s →
  ServiceCore.reconciliation s' = ServiceCore.reconciliation s →
  (ServiceCore.next_recovery_sequence s ≤ ServiceCore.next_recovery_sequence s' ≤ U64_MAX)%N →
  kv_inv (ServiceCore.kv s') → svc_inv s → svc_inv s'.
Proof.
  intros E1 E2 E3 Hseq Hkv [H1 H2 H3 H4 H5 H6 H7 H8 H9].
  split; rewrite ?E1, ?E2, ?E3; auto; [|lia].
  intros ref Href. destruct (H7 ref Href) as (n & Hn & ?). exists n. split; [lia|done].
Qed.

Lemma svc_inv_committed s key k' h :
  svc_inv s → key ∉ used s →
  RequestRegistry.retained_len (registry s) < RequestRegistry.capacity (registry s) →
  (ServiceCore.next_recovery_sequence s < U64_MAX)%N → kv_inv k' →
  svc_inv (registry_with (RequestRegistry.unresolved (registry s))
             ({[key]} ∪ RequestRegistry.resolved (registry s)) (entered k' h s)).
Proof.
  intros [H1 H2 H3 H4 H5 H6 H7 H8 H9] Hk Hcap Hseq Hkv. unfold used in Hk.
  split; [done|simpl; set_solver| |done..| |simpl; lia|done].
  - unfold RequestRegistry.retained_len in *. simpl.
    rewrite size_union by set_solver. rewrite size_singleton.
    unfold registry in *. simpl. lia.
  - intros ref Href. destruct (H7 ref Href) as (n & Hn & ?). exists n. split; [simpl; lia|done].
Qed.

Lemma svc_inv_unknown s key b k' h ref rec :
  svc_inv s → key ∉ used s →
  RequestRegistry.retained_len (registry s) < RequestRegistry.capacity (registry s) →
  (ServiceCore.next_recovery_sequence s < U64_MAX)%N → kv_inv k' →
  Id.as_str ref = recovery_name (ServiceCore.next_recovery_sequence s + 1) →
  OutcomeRecord.resolution rec = None →
  svc_inv
    (ServiceCore.set_reconciliation
       (ReconciliationStore.mk
          (<[ref := rec]> (ReconciliationStore.records (ServiceCore.reconciliation s))))
       (ServiceCore.set_recovery (<[ref := key]> (ServiceCore.recovery_requests s))
          (registry_with (<[key := b]> (RequestRegistry.unresolved (registry s)))
             (RequestRegistry.resolved (registry s)) (entered k' h s)))).
Proof.
  intros Hinv Hk Hcap Hseq Hkv Href Hres.
  destruct (fresh_reference s ref Hinv Hseq Href) as [Hrec Hreq].
  destruct Hinv as [H1 H2 H3 H4 H5 H6 H7 H8 H9]. unfold used in Hk.
  assert (RequestRegistry.unresolved (registry s) !! key = None) as Hun
    by (apply not_elem_of_dom; set_solver).
  split; simpl; auto.
  - rewrite dom_insert_L. set_solver.
  - unfold RequestRegistry.retained_len in *. simpl. rewrite map_size_insert_None by done.
    unfold registry in *. simpl. lia.
  - intros r k. rewrite lookup_insert_Some. intros [[<- <-]|[Hne Hr]].
    + rewrite !lookup_insert_eq. eauto.
    + destruct (H4 r k Hr) as (Hk' & rec' & Hrec' & ?).
      assert (key ≠ k) by (intros ->; rewrite Hun in Hk'; by destruct Hk').
      rewrite !lookup_insert_ne by done. eauto.
  - intros k. destruct (decide (k = key)) as [->|Hne].
    + intros _. exists ref. by rewrite lookup_insert_eq.
    + rewrite lookup_insert_ne by done. intros (r & Hr)%H5. exists r.
      rewrite lookup_insert_ne by congruence. done.
  - intros r r' k. rewrite !lookup_insert_Some.
    intros [[<- <-]|[Hne Hr]] [[<- E]|[Hne' Hr']]; [done| | |eauto];
      exfalso; subst; [destruct (H4 _ _ Hr') as [Hs _]|destruct (H4 _ _ Hr) as [Hs _]];
      rewrite Hun in Hs; by destruct Hs.
  - intros r. destruct (decide (r = ref)) as [->|Hne].
    + intros _. eexists. split; [|done]. lia.
    + rewrite lookup_insert_ne by done. intros (n & Hn & ?)%H7. exists n. split; [lia|done].
  - lia.
Qed.

Lemma log_event_inv ev s : svc_inv s → svc_inv (log_event ev s).
Proof.
  intros Hinv. pose proof Hinv as [_ _ _ _ _ _ _ H8 H9].
  eapply svc_inv_ext; [..|exact Hinv]; simpl; auto.
Qed.

Lemma handle_outcome_inv req now s s' r :
  svc_inv s → handle_outcome req now s s' r → svc_inv s'.
Proof.
  intros Hinv Hout. pose proof Hinv as [_ _ _ _ _ _ _ H8 H9].
  destruct Hout; auto using log_event_inv.
  - eapply svc_inv_ext; [..|exact Hinv]; simpl; auto. lia.
  - apply log_event_inv, svc_inv_committed; auto. by eapply kv_commit_inv.
  - apply log_event_inv, svc_inv_unknown; auto. by eapply kv_commit_inv.
Qed.

(** [resolve_unknown] on a known reference. *)
Lemma resolve_unknown_spec ref res s :
  svc_inv s →
  match ServiceCore.recovery_requests s !! ref with
  | None => ServiceCore.resolve_unknown ref res s = (s, Err MissingRecoveryReference)
  | Some key => ∃ rec,
      ReconciliationStore.records (ServiceCore.reconciliation s) !! ref = Some rec ∧
      ServiceCore.resolve_unknown ref res s =
      (ServiceCore.set_recovery (delete ref (ServiceCore.recovery_requests s))
        (registry_with (delete key (RequestRegistry.unresolved (registry s)))
           ({[key]} ∪ RequestRegistry.resolved (registry s))
           (ServiceCore.set_reconciliation
              (ReconciliationStore.mk
                 (<[ref := OutcomeRecord.set_resolution res rec]>
                    (ReconciliationStore.records (ServiceCore.reconciliation s)))) s)), Ok tt)
  end.
Proof.
  intros Hinv. unfold ServiceCore.resolve_unknown, mbind, mpure.
  destruct (ServiceCore.recovery_requests s !! ref) as [key|] eqn:Hr; simpl; [|done].
  destruct (svc_recovery s Hinv ref key Hr) as ([b Hb] & rec & Hrec & Hres).
  exists rec. split; [done|].
  unfold ServiceCore.on_reconciliation, ReconciliationStore.resolve. rewrite Hrec, Hres. simpl.
  unfold ServiceCore.on_registry, RequestRegistry.resolve_unresolved. simpl.
  fold (registry s). rewrite Hb.
  rewrite bool_decide_eq_false_2; simpl.
  - rewrite Hr. unfold registry_with. by rewrite (svc_no_pending s Hinv).
  - pose proof (svc_disjoint s Hinv) as Hd. intros Hin. apply (Hd key); [|done].
    apply elem_of_dom. eauto.
Qed.

Lemma resolve_unknown_inv ref res s :
  svc_inv s → svc_inv (ServiceCore.resolve_unknown ref res s).1.
Proof.
  intros Hinv. pose proof (resolve_unknown_spec ref res s Hinv) as Hspec.
  destruct (ServiceCore.recovery_requests s !! ref) as [key|] eqn:Hr; [|by rewrite Hspec].
  destruct Hspec as (rec & Hrec & ->). simpl.
  destruct Hinv as [H1 H2 H3 H4 H5 H6 H7 H8 H9].
  destruct (H4 ref key Hr) as ([b Hb] & _).
  assert (key ∉ RequestRegistry.resolved (registry s)) as Hnr.
  { intros Hin. apply (H2 key); [|done]. apply elem_of_dom. eauto. }
  split; simpl; auto.
  - rewrite dom_delete_L. set_solver.
  - unfold RequestRegistry.retained_len in *. simpl.
    rewrite map_size_delete_Some by eauto. rewrite size_union, size_singleton by set_solver.
    assert (size (RequestRegistry.unresolved (registry s)) ≠ 0).
    { rewrite map_size_empty_iff. intros E. by rewrite E in Hb. }
    unfold registry in *. simpl. lia.
  - intros r k [Hne Hk]%lookup_delete_Some. destruct (H4 r k Hk) as (Hu & rec' & Hrec' & ?).
    rewrite lookup_insert_ne by done. split; [|eauto].
    rewrite lookup_delete_ne; [done|]. intros <-. apply Hne. by eapply H6.
  - intros k. destruct (decide (k = key)) as [->|Hne].
    + rewrite lookup_delete_eq. intros [? ?]. done.
    + rewrite lookup_delete_ne by done. intros (r & Hk)%H5. exists r.
      rewrite lookup_delete_ne by congruence. done.
  - intros r r' k [_ ?]%lookup_delete_Some [_ ?]%lookup_delete_Some. eauto.
  - intros r. destruct (decide (r = ref)) as [->|Hne]; [eauto|].
    rewrite lookup_insert_ne by done. auto.
Qed.

Lemma service_exec_inv o s : svc_inv s → svc_inv (service_exec o s).
Proof.
  intros Hinv. pose proof Hinv as [_ _ _ _ _ _ _ H8 H9].
  destruct o as [x|x|x|x|x|req now|ref res]; simpl;
    try (eapply svc_inv_ext; [..|exact Hinv]; simpl; auto; lia).
  - destruct (ServiceCore.handle req now s) as [s' r] eqn:E. simpl.
    eauto using handle_outcome_inv, handle_refines.
  - by apply resolve_unknown_inv.
Qed.

Lemma service_new_inv max cap hook s :
  ServiceCore.new_with_request_capacity max cap hook = Ok s → svc_inv s.
Proof.
  unfold ServiceCore.new_with_request_capacity.
  destruct (KvStore.new max) as [k|] eqn:Hk; simpl; [|done].
  unfold RequestRegistry.new. destruct (cap =? 0); [done|]. intros [= <-].
  split; try (simpl; done).
  - exact (Nat.le_0_l cap).
  - intros k0 [x Hx]. done.
  - intros r [x Hx]. done.
  - by eapply kv_new_inv.
Qed.

Lemma service_reachable_inv max cap hook s ops :
  ServiceCore.new_with_request_capacity max cap hook = Ok s → svc_inv (run service_exec ops s).
Proof. intros Hn. eapply run_invariant; [apply service_exec_inv|]. by eapply service_new_inv. Qed.

(** The states a running service can be in. *)
Definition reachable (s : svc) : Prop :=
  ∃ max cap hook s0 ops,
    ServiceCore.new_with_request_capacity max cap hook = Ok s0 ∧ s = run service_exec ops s0.

Lemma reachable_inv s : reachable s → svc_inv s.
Proof. intros (max & cap & hook & s0 & ops & Hn & ->). by eapply service_reachable_inv. Qed.

(** * Used keys stay used *)
Lemma used_handle req now s s' r :
  svc_inv s → handle_outcome req now s s' r → used s ⊆ used s'.
Proof.
  intros Hinv Hout. destruct Hout; try done; unfold used; simpl; [set_solver|].
  rewrite dom_insert_L. set_solver.
Qed.

Lemma used_exec o s : svc_inv s → used s ⊆ used (service_exec o s).
Proof.
  intros Hinv. destruct o as [x|x|x|x|x|req now|ref res]; simpl; try done.
  - destruct (ServiceCore.handle req now s) as [s' r] eqn:E. simpl.
    eauto using used_handle, handle_refines.
  - pose proof (resolve_unknown_spec ref res s Hinv) as Hspec.
    destruct (ServiceCore.recovery_requests s !! ref) as [key|] eqn:Hr; [|by rewrite Hspec].
    destruct Hspec as (rec & Hrec & ->). unfold used. simpl. rewrite dom_delete_L.
    intros k. destruct (decide (k = key)); set_solver.
Qed.

Lemma used_run ops s : svc_inv s → used s ⊆ used (run service_exec ops s).
Proof.
  revert s. induction ops as [|o ops IH]; intros s Hinv; [done|].
  rewrite run_cons. etrans; [by apply used_exec|]. by apply IH, service_exec_inv.
Qed.

End safety.
