(* ===== verification/ServiceTheorems.v ===== *)
(** Properties of the request pipeline over every sequence of API calls:
    at-most-once commits, complete mediation, failure atomicity, recovery of
    unknown outcomes, read-your-writes and isolation between namespaces. *)
From Stdlib Require Import Ascii NArith.
From S2P Require Import Prelude Str Domain Policy Token Identity Namespace MountRouter KvEngine Operator ServiceCore ServiceSpec.

(** * Engine paths *)
Lemma engine_path_segments ns m rel p :
  Forall valid_segment rel → engine_path ns m (join "/" rel) = Ok p →
  segments p = Id.as_str ns :: Id.as_str m :: rel.
Proof.
  intros Hrel. unfold engine_path.
  assert (Forall valid_segment (Id.as_str ns :: Id.as_str m :: rel)) as Hall
    by (repeat constructor; auto using id_valid_segment).
  set (value := if bool_decide _ then _ else _).
  assert (value = render (Id.as_str ns :: Id.as_str m :: rel)) as ->.
  { subst value. unfold render. destruct (decide (rel = [])) as [->|Hne]; [done|].
    rewrite bool_decide_eq_false_2 by by apply join_valid_nonempty.
    rewrite !join_cons by done. done. }
  destruct (CanonicalPath.parse _) as [q|] eqn:E; simpl; [|done]. intros [= <-].
  apply path_parse_Ok in E. unfold segments. rewrite E. by apply segments_of_render.
Qed.

Section theorems.
Context {H : Type} `{Hook : PostCommitHook H}.
Notation svc := (ServiceCore H).
Implicit Types s : svc.

(** * Admission *)

(** What admission establishes, in terms of the components' specifications. *)
Record admitted_by (req : ServiceRequest) (now : Tick) (s : svc) (principal : Id)
    (engine : CanonicalPath) : Prop := {
  adm_authority : ∃ rec e ps q,
    TokenStore.tokens (ServiceCore.tokens s) !! ServiceRequest.token_id req = Some rec
    ∧ ¬ dead now rec ∧ principal = TokenRecord.entity_id rec
    ∧ IdentityStore.entities (ServiceCore.identities s) !! principal = Some e
    ∧ Entity.disabled e = false
    ∧ IdentityStore.effective_policy_ids (ServiceCore.identities s) principal = Ok ps
    ∧ NamespaceStore.qualify (ServiceCore.namespaces s) (ServiceRequest.namespace_id req)
        (ServiceRequest.path req) = Ok q
    ∧ grants (ServiceCore.policies s) (ps ∪ TokenRecord.policy_ids rec)
        (Operation.capability (ServiceRequest.operation req)) q;
  adm_mount : ∃ k m rel, MountRouter.mounts (ServiceCore.mounts s) !! k = Some m
    ∧ Mount.enabled m = true ∧ Mount.namespace_id m = ServiceRequest.namespace_id req
    ∧ Mount.backend m = Kv
    ∧ segments (ServiceRequest.path req) = segments (Mount.path m) ++ rel
    ∧ segments engine =
      Id.as_str (ServiceRequest.namespace_id req) :: Id.as_str (Mount.id m) :: rel;
}.

Lemma effective_policy_ids_enabled ids i ps :
  IdentityStore.effective_policy_ids ids i = Ok ps →
  ∃ e, IdentityStore.entities ids !! i = Some e ∧ Entity.disabled e = false.
Proof.
  unfold IdentityStore.effective_policy_ids, IdentityStore.entity.
  destruct (_ !! i) as [e|]; simpl; [|done].
  destruct (Entity.disabled e) eqn:Hd; [done|]. eauto.
Qed.

(** The engine path depends on the mounts, the namespace and the path only. *)
Definition target (m : MountRouter) (req : ServiceRequest) : Result CanonicalPath ServiceError :=
  let? route := map_err EMount
    (MountRouter.route m (ServiceRequest.namespace_id req) (ServiceRequest.path req)) in
  engine_path (ServiceRequest.namespace_id req) (Route.mount_id route) (Route.relative_path route).

Lemma admission_Ok req now s adm :
  ServiceCore.admission_check req now s = Ok adm →
  admitted_by req now s (ServiceCore.adm_principal adm) (ServiceCore.adm_engine_path adm)
  ∧ target (ServiceCore.mounts s) req = Ok (ServiceCore.adm_engine_path adm).
Proof.
  unfold ServiceCore.admission_check, target.
  destruct (TokenStore.validate _ _ _) as [tok|] eqn:Ht; simpl; [|done].
  apply validate_Ok in Ht as (rec & Hrec & Hlive & ->).
  destruct (IdentityStore.effective_policy_ids _ _) as [ps|] eqn:Hps; simpl; [|done].
  destruct (effective_policy_ids_enabled _ _ _ Hps) as (e & He & Hen).
  destruct (NamespaceStore.qualify _ _ _) as [q|] eqn:Hq; simpl; [|done].
  destruct (PolicyStore.authorize _ _ _ _) eqn:Hauth; simpl; [|done].
  apply Is_true_true, authorize_grants in Hauth.
  destruct (MountRouter.route _ _ _) as [r|] eqn:Hr; simpl; [|done].
  apply route_Ok in Hr as (k & m & rel & Hk & (Hon & Hns & _)%routes_spec & -> & Hseg & _).
  case_bool_decide as Hb; [done|]. simpl in *.
  destruct (telemetry_event _ "completed"); simpl; [|done].
  destruct (telemetry_event _ "outcome_unknown"); simpl; [|done].
  destruct (engine_path _ _ _) as [p|] eqn:Hp; simpl; [|done]. intros [= <-]. simpl.
  split; [|done]. apply engine_path_segments in Hp.
  2:{ pose proof (segments_valid (ServiceRequest.path req)) as Hv. rewrite Hseg in Hv.
      by apply Forall_app in Hv as [_ ?]. }
  split; [by exists rec, e, ps, q|]. exists k, m, rel. split_and!; done.
Qed.

(** * Which parts of the state a call can change *)

(** The administrative components. *)
Definition admin_of (s : svc) :=
  (ServiceCore.identities s, ServiceCore.policies s, ServiceCore.tokens s,
   ServiceCore.namespaces s, ServiceCore.mounts s).

Lemma handle_outcome_admin req now s s' r : handle_outcome req now s s' r → admin_of s' = admin_of s.
Proof. by destruct 1. Qed.

Lemma admission_admin req now s s' :
  admin_of s' = admin_of s →
  ServiceCore.admission_check req now s' = ServiceCore.admission_check req now s.
Proof. intros [= E1 E2 E3 E4 E5]. unfold ServiceCore.admission_check. by rewrite E1, E2, E3, E4, E5. Qed.

(** A commit changes one path of the backend. *)
Lemma kv_commit_frame path now k op k' r :
  kv_commit path now k op k' r →
  ∀ p, p ≠ path → KvStore.entries k' !! p = KvStore.entries k !! p.
Proof.
  intros [v cas k1 r1 E|k1 r1 E] p Hp.
  - unfold KvStore.write in E. repeat case_match; simplify_eq/=; by rewrite ?lookup_insert_ne.
  - unfold KvStore.delete_latest in E. repeat case_match; simplify_eq/=; by rewrite ?lookup_insert_ne.
Qed.

(** The backend after a request: unchanged, or changed by an admitted commit. *)
Lemma handle_outcome_kv req now s s' r :
  handle_outcome req now s s' r →
  ServiceCore.kv s' = ServiceCore.kv s ∨
  ∃ adm output, ServiceCore.admission_check req now s = Ok adm ∧
    kv_commit (ServiceCore.adm_engine_path adm) now (ServiceCore.kv s)
      (ServiceRequest.operation req) (ServiceCore.kv s') (Ok output).
Proof. destruct 1; eauto; right; simpl; eauto. Qed.

Lemma handle_outcome_Ok req now s s' resp :
  handle_outcome req now s s' (Ok resp) → ∃ adm, ServiceCore.admission_check req now s = Ok adm.
Proof. inversion 1; eauto. Qed.

(** A successful commit leaves its key used. *)
Lemma handle_outcome_used req now s s' resp adm :
  handle_outcome req now s s' (Ok resp) →
  Operation.is_commit (ServiceRequest.operation req) = true →
  ServiceCore.admission_check req now s = Ok adm →
  key_of (ServiceCore.adm_principal adm) req ∈ used s'.
Proof.
  inversion 1; intros Hc Hadm; try congruence;
    try (match goal with E : ServiceRequest.operation req = _ |- _ => by rewrite E in Hc end).
  - assert (adm0 = adm) as -> by congruence. unfold used. simpl. set_solver.
  - assert (adm0 = adm) as -> by congruence. unfold used. simpl. rewrite dom_insert_L. set_solver.
Qed.

Lemma handle_outcome_replay req now s s' r adm :
  handle_outcome req now s s' r →
  Operation.is_commit (ServiceRequest.operation req) = true →
  ServiceCore.admission_check req now s = Ok adm →
  key_of (ServiceCore.adm_principal adm) req ∈ used s →
  s' = s ∧ (r = Err DuplicateRequest ∨ r = Err RequestBindingMismatch).
Proof.
  intros Hout Hc Hadm Hk. destruct Hout as [e Hr|adm' v e Ha Ho|adm' v rd value Ha Ho|adm' Ha Ho
    |adm' Ha _ _|adm' Ha _ Hn|adm' Ha _ Hn|adm' e Ha Hn|adm' k' h out key Ha Hn
    |adm' k' h out ref key Ha Hn]; try congruence;
    try (rewrite Ho in Hc; done); assert (adm' = adm) as -> by congruence; try done.
  split; [done|]. unfold replay_error. destruct (_ !! _); [case_bool_decide|]; auto.
Qed.

(** * Recovery references over time *)
Definition resolves (ref : Id) (o : ServiceOp) : bool :=
  match o with SOpResolve ref' _ => bool_decide (ref' = ref) | _ => false end.

(** The reference has been issued and resolved. *)
Definition settled (ref : Id) (s : svc) : Prop :=
  svc_inv s ∧ ServiceCore.recovery_requests s !! ref = None
  ∧ is_Some (ReconciliationStore.records (ServiceCore.reconciliation s) !! ref).

Lemma handle_outcome_recovery req now s s' r ref :
  svc_inv s → handle_outcome req now s s' r →
  is_Some (ReconciliationStore.records (ServiceCore.reconciliation s) !! ref) →
  ServiceCore.recovery_requests s' !! ref = ServiceCore.recovery_requests s !! ref
  ∧ is_Some (ReconciliationStore.records (ServiceCore.reconciliation s') !! ref).
Proof.
  intros Hinv Hout Hrec. destruct Hout as [| | | | | | | | |adm k' h out ref' key Ha Hn Hc Hs _ _ Href];
    try done. simpl.
  destruct (fresh_reference s ref' Hinv Hs Href) as [Hf _].
  assert (ref' ≠ ref) by (intros ->; rewrite Hf in Hrec; by destruct Hrec).
  by rewrite !lookup_insert_ne.
Qed.

Lemma resolve_recovery_ne ref ref' res s :
  svc_inv s → ref' ≠ ref →
  is_Some (ReconciliationStore.records (ServiceCore.reconciliation s) !! ref) →
  let s' := (ServiceCore.resolve_unknown ref' res s).1 in
  ServiceCore.recovery_requests s' !! ref = ServiceCore.recovery_requests s !! ref
  ∧ is_Some (ReconciliationStore.records (ServiceCore.reconciliation s') !! ref).
Proof.
  intros Hinv Hne Hrec. pose proof (resolve_unknown_spec ref' res s Hinv) as Hspec.
  destruct (ServiceCore.recovery_requests s !! ref'); [|by rewrite Hspec].
  destruct Hspec as (rec & _ & ->). simpl. by rewrite lookup_delete_ne, lookup_insert_ne.
Qed.

(** Calls other than the resolution of [ref] leave it as it is. *)
Lemma exec_recovery o ref s :
  svc_inv s → resolves ref o = false →
  is_Some (ReconciliationStore.records (ServiceCore.reconciliation s) !! ref) →
  ServiceCore.recovery_requests (service_exec o s) !! ref = ServiceCore.recovery_requests s !! ref
  ∧ is_Some (ReconciliationStore.records (ServiceCore.reconciliation (service_exec o s)) !! ref).
Proof.
  intros Hinv Ho Hrec. destruct o as [x|x|x|x|x|req now|ref' res]; try done; simpl in *.
  - destruct (ServiceCore.handle req now s) as [s' r] eqn:E.
    eapply handle_outcome_recovery; eauto using handle_refines.
  - apply bool_decide_eq_false in Ho. by apply resolve_recovery_ne.
Qed.

Lemma exec_settled o ref s : settled ref s → settled ref (service_exec o s).
Proof.
  intros (Hinv & Hnone & Hrec). split; [by apply service_exec_inv|].
  destruct (resolves ref o) eqn:Ho.
  - destruct o; try done. apply bool_decide_eq_true in Ho as ->. simpl.
    pose proof (resolve_unknown_spec ref resolution s Hinv) as Hspec.
    rewrite Hnone in Hspec. by rewrite Hspec.
  - destruct (exec_recovery o ref s) as [-> ?]; auto.
Qed.

Lemma run_recovery ops ref key s :
  svc_inv s → ServiceCore.recovery_requests s !! ref = Some key →
  Forall (λ o, resolves ref o = false) ops →
  svc_inv (run service_exec ops s)
  ∧ ServiceCore.recovery_requests (run service_exec ops s) !! ref = Some key.
Proof.
  intros Hinv Hr Hops.
  apply (run_invariant_if service_exec (λ o, resolves ref o = false)
    (λ s, svc_inv s ∧ ServiceCore.recovery_requests s !! ref = Some key)); [|done|done].
  intros o s' Ho [Hinv' Hr']. split; [by apply service_exec_inv|].
  destruct (svc_recovery s' Hinv' ref key Hr') as (_ & rec & Hrec & _).
  destruct (exec_recovery o ref s') as [-> _]; eauto.
Qed.

Lemma resolve_settles ref key res s :
  svc_inv s → ServiceCore.recovery_requests s !! ref = Some key →
  (ServiceCore.resolve_unknown ref res s).2 = Ok tt
  ∧ settled ref (ServiceCore.resolve_unknown ref res s).1.
Proof.
  intros Hinv Hr. pose proof (resolve_unknown_inv ref res s Hinv) as Hinv'.
  pose proof (resolve_unknown_spec ref res s Hinv) as Hspec. rewrite Hr in Hspec.
  destruct Hspec as (rec & Hrec & E). rewrite E in *. split; [done|]. split; [done|].
  simpl. rewrite lookup_delete_eq, lookup_insert_eq. eauto.
Qed.

Lemma settled_refuses ref res s :
  settled ref s → ServiceCore.resolve_unknown ref res s = (s, Err MissingRecoveryReference).
Proof.
  intros (Hinv & Hnone & _). pose proof (resolve_unknown_spec ref res s Hinv) as Hspec.
  by rewrite Hnone in Hspec.
Qed.

(** * Queries *)

(** The answer to a read or list, from the backend at the engine path. *)
Definition query (k : KvStore) (op : ServiceOperation) (path : CanonicalPath) :
  Result ServiceResponse ServiceError :=
  match op with
  | KvRead v =>
      let? read := map_err EKv (KvStore.read k path v) in
      let? value := map_err EDomain (SecretValue.new (KvEngine.KvRead.value read)) in
      Ok (Completed (OutRead (KvEngine.KvRead.metadata read) value))
  | KvList => Ok (Completed (Listed (KvStore.list k path)))
  | _ => Err UnsupportedBackend
  end.

Lemma handle_query req now s :
  Operation.is_commit (ServiceRequest.operation req) = false →
  (ServiceCore.handle req now s).2 =
  let? adm := ServiceCore.admission_check req now s in
  query (ServiceCore.kv s) (ServiceRequest.operation req) (ServiceCore.adm_engine_path adm).
Proof.
  intros Hc. unfold ServiceCore.handle, mbind, mpure.
  destruct (ServiceCore.admission_check req now s) as [adm|e]; simpl; [|done].
  unfold ServiceCore.register. destruct (ServiceRequest.operation req) as [v|v cas| |]; try done.
  simpl. unfold mbind, mpure, mret.
  destruct (KvStore.read _ _ _) as [rd|e]; simpl; [|done].
  by destruct (SecretValue.new _).
Qed.

Lemma query_ext k k' op path :
  (∀ p, segments path `prefix_of` segments p → KvStore.entries k' !! p = KvStore.entries k !! p) →
  query k' op path = query k op path.
Proof.
  intros E. destruct op as [v|v cas| |]; try done; simpl.
  - unfold KvStore.read. by rewrite (E path).
  - by rewrite (kv_list_ext k k').
Qed.

(** A sequence of requests. *)
Definition requests (l : list (ServiceRequest * Tick)) : svc → svc :=
  run service_exec ((λ x, SOpHandle x.1 x.2) <$> l).

(** Requests leave the administrative components and the entries of other
    namespaces alone. *)
Lemma requests_frame l s (ns : Id) :
  svc_inv s → Forall (λ x, ServiceRequest.namespace_id x.1 ≠ ns) l →
  svc_inv (requests l s) ∧ admin_of (requests l s) = admin_of s ∧
  ∀ p rest, segments p = Id.as_str ns :: rest →
    KvStore.entries (ServiceCore.kv (requests l s)) !! p = KvStore.entries (ServiceCore.kv s) !! p.
Proof.
  revert s. induction l as [|[req now] l IH]; intros s Hinv Hl; [done|].
  apply Forall_cons in Hl as [Hne Hl]. unfold requests. rewrite fmap_cons, run_cons. simpl.
  destruct (ServiceCore.handle req now s) as [s1 r] eqn:E. simpl.
  apply handle_refines in E; [|done].
  destruct (IH s1) as (Hi & Ha & Hk); [by eapply handle_outcome_inv|done|].
  fold (requests l s1). split; [done|]. split; [rewrite Ha; by eapply handle_outcome_admin|].
  intros p rest Hp. rewrite (Hk p rest Hp).
  destruct (handle_outcome_kv _ _ _ _ _ E) as [->|(adm & out & Hadm & Hc)]; [done|].
  apply (kv_commit_frame _ _ _ _ _ _ Hc). intros ->.
  destruct (admission_Ok _ _ _ _ Hadm) as [[_ (k & m & rel & _ & _ & _ & _ & _ & Hs)] _].
  simpl in *. rewrite Hp in Hs. injection Hs as Hns _. apply Id_ext in Hns. by subst.
Qed.

Lemma query_noninterference l s req now :
  svc_inv s →
  Forall (λ x, ServiceRequest.namespace_id x.1 ≠ ServiceRequest.namespace_id req) l →
  Operation.is_commit (ServiceRequest.operation req) = false →
  (ServiceCore.handle req now (requests l s)).2 = (ServiceCore.handle req now s).2.
Proof.
  intros Hinv Hl Hc. destruct (requests_frame l s _ Hinv Hl) as (_ & Ha & Hk).
  rewrite !handle_query, (admission_admin _ _ _ _ Ha) by done.
  destruct (ServiceCore.admission_check req now s) as [adm|] eqn:Hadm; simpl; [|done].
  destruct (admission_Ok _ _ _ _ Hadm) as [[_ (k & m & rel & _ & _ & _ & _ & _ & Hs)] _].
  apply query_ext. intros p [rest Hp]. rewrite Hs in Hp. by eapply Hk.
Qed.

(** The backend after a successful write. *)
Lemma kv_commit_write_read path now k v cas k' out :
  kv_inv k → kv_commit path now k (KvWrite v cas) k' (Ok out) →
  let md := KvMetadata.mk (KvStore.current_version k path + 1) now false false in
  out = Written md ∧ query k' (KvRead None) path = Ok (Completed (OutRead md v)).
Proof.
  intros Hk Hc. inversion Hc as [v' cas' k1 r1 E|]; subst. destruct r1 as [md'|]; [|done].
  assert (out = Written md') as -> by (simpl in *; congruence).
  destruct (write_Ok _ _ _ _ _ _ _ Hk E) as (-> & _).
  destruct (write_reads _ _ _ _ _ _ _ Hk E) as (_ & _ & Hr).
  intros md. split; [done|]. simpl. rewrite Hr. simpl. by rewrite SecretValue_new_expose.
Qed.

(** Errors that only a broken registry could produce. *)
Definition internal_error (e : ServiceError) : bool :=
  match e with RequestRegistryInvariant | EOperator _ => true | _ => false end.

Lemma map_err_internal {A E} (wrap : E → ServiceError) (r : Result A E) e :
  map_err wrap r = Err e → (∀ x, internal_error (wrap x) = false) → internal_error e = false.
Proof. destruct r; simpl; [done|]. intros [= <-]. auto. Qed.

Lemma telemetry_event_internal a b e : telemetry_event a b = Err e → internal_error e = false.
Proof.
  unfold telemetry_event. intros He.
  repeat (match type of He with
          | (match ?c with Ok _ => _ | Err _ => _ end) = _ =>
              let E := fresh "E" in destruct c eqn:E; simpl in He
          end; [|injection He as <-; by (eapply map_err_internal; [eassumption|])]).
  by (eapply map_err_internal; [eassumption|]).
Qed.

Lemma admission_internal req now s e :
  ServiceCore.admission_check req now s = Err e → internal_error e = false.
Proof.
  unfold ServiceCore.admission_check, engine_path. intros He.
  repeat (match type of He with
          | (if ?c then Err _ else _) = _ => destruct c; [by injection He as <-|]
          | (match ?c with Ok _ => _ | Err _ => _ end) = _ =>
              let E := fresh "E" in destruct c eqn:E; simpl in He;
              [|injection He as <-;
                first [by (eapply map_err_internal; [eassumption|])|by eapply telemetry_event_internal]]
          end).
  done.
Qed.

Lemma handle_outcome_internal req now s s' e :
  handle_outcome req now s s' (Err e) → internal_error e = false.
Proof.
  inversion 1; subst; try done; [by eapply admission_internal|].
  unfold replay_error. destruct (_ !! _); [case_bool_decide|]; done.
Qed.

(** ** Properties *)

(** The service invariant holds in every reachable state, for every
    post-commit hook and every interleaving of administration, requests and
    resolutions: no request is left pending, the retained keys never exceed the
    registry's capacity, and unresolved requests, recovery references and
    unresolved outcome records correspond one to one.  Hence the registry's
    internal-consistency errors are unreachable: no request reports
    [RequestRegistryInvariant] or an operator error, and resolving a reference
    either succeeds or reports [MissingRecoveryReference]. *)
Theorem service_invariant (s : svc) :
  reachable s →
  svc_inv s
  ∧ (∀ req now e, (ServiceCore.handle req now s).2 = Err e → internal_error e = false)
  ∧ (∀ ref res, (ServiceCore.resolve_unknown ref res s).2 = Ok tt
                ∨ (ServiceCore.resolve_unknown ref res s).2 = Err MissingRecoveryReference).
Proof.
  intros Hinv%reachable_inv. split; [done|]. split.
  - intros req now e He. destruct (ServiceCore.handle req now s) as [s' r] eqn:E. simpl in He.
    subst. by eapply handle_outcome_internal, handle_refines.
  - intros ref res. pose proof (resolve_unknown_spec ref res s Hinv) as Hspec.
    destruct (ServiceCore.recovery_requests s !! ref); [|by right; rewrite Hspec].
    left. by destruct Hspec as (rec & _ & ->).
Qed.

(** C21: The pipeline refines its specification.  From every reachable state the
    result and the whole final state of [handle] are those of one of the ten
    rules of [handle_outcome]: refused admission, failed or successful read,
    list, replay, saturation, sequence exhaustion, failed commit, confirmed
    commit, or commit with unknown outcome. *)
Theorem handle_refines_outcome (s s' : svc) (req : ServiceRequest) (now : Tick)
    (r : Result ServiceResponse ServiceError) :
  reachable s → ServiceCore.handle req now s = (s', r) → handle_outcome req now s s' r.
Proof. intros Hinv%reachable_inv. by apply handle_refines. Qed.

(** C1: A commit takes effect at most once.  After a write or delete has been
    answered (completed or with unknown outcome), and after any further calls,
    a commit by the same principal in the same namespace with the same request
    identifier is rejected as a duplicate or a binding mismatch and leaves the
    whole state unchanged. *)
Theorem commit_at_most_once (s s1 : svc) (req req2 : ServiceRequest) (now now2 : Tick)
    (resp : ServiceResponse) (adm adm2 : ServiceCore.admission) (ops : list ServiceOp) :
  reachable s →
  ServiceCore.handle req now s = (s1, Ok resp) →
  Operation.is_commit (ServiceRequest.operation req) = true →
  Operation.is_commit (ServiceRequest.operation req2) = true →
  let s2 := run service_exec ops s1 in
  ServiceCore.admission_check req now s = Ok adm →
  ServiceCore.admission_check req2 now2 s2 = Ok adm2 →
  key_of (ServiceCore.adm_principal adm2) req2 = key_of (ServiceCore.adm_principal adm) req →
  ServiceCore.handle req2 now2 s2 = (s2, Err DuplicateRequest)
  ∨ ServiceCore.handle req2 now2 s2 = (s2, Err RequestBindingMismatch).
Proof.
  intros Hinv%reachable_inv Hh%handle_refines Hc Hc2 s2 Hadm Hadm2 Hkey; [|done].
  pose proof (handle_outcome_inv _ _ _ _ _ Hinv Hh) as Hinv1.
  assert (svc_inv s2) as Hinv2 by (apply run_invariant; [apply service_exec_inv|done]).
  assert (key_of (ServiceCore.adm_principal adm2) req2 ∈ used s2) as Hused.
  { rewrite Hkey. apply (used_run ops s1 Hinv1). by eapply handle_outcome_used. }
  destruct (ServiceCore.handle req2 now2 s2) as [s3 r] eqn:E. apply handle_refines in E; [|done].
  destruct (handle_outcome_replay _ _ _ _ _ _ E Hc2 Hadm2 Hused) as [-> [->| ->]]; auto.
Qed.

(** C2: Complete mediation.  A request that is answered, or that changes the
    secret store, was admitted: its token exists and is neither revoked nor
    expired, the token's entity is enabled, its effective policies together with
    the token's grant the operation's capability on the namespace-qualified
    path, and an enabled KV mount of that namespace covers the path.  The store
    changes at most at the engine path of that mount. *)
Theorem complete_mediation (s s' : svc) (req : ServiceRequest) (now : Tick)
    (r : Result ServiceResponse ServiceError) :
  reachable s → ServiceCore.handle req now s = (s', r) →
  is_ok r = true ∨ ServiceCore.kv s' ≠ ServiceCore.kv s →
  ∃ principal engine, admitted_by req now s principal engine
    ∧ ∀ p, p ≠ engine →
        KvStore.entries (ServiceCore.kv s') !! p = KvStore.entries (ServiceCore.kv s) !! p.
Proof.
  intros Hinv%reachable_inv Hh%handle_refines Heff; [|done].
  pose proof (handle_outcome_kv _ _ _ _ _ Hh) as [Hkv|(adm & out & Hadm & Hc)].
  - destruct Heff as [Hok|Hne]; [|done]. destruct r as [resp|]; [|done].
    destruct (handle_outcome_Ok _ _ _ _ _ Hh) as [adm Hadm].
    eexists _, _. split; [by eapply admission_Ok|]. intros p _. by rewrite Hkv.
  - eexists _, _. split; [by eapply admission_Ok|]. by eapply kv_commit_frame.
Qed.

(** Failure is atomic.  A request answered with an error leaves every part
    of the service as it was; only a commit refused by the backend has consumed
    one recovery sequence number.  A query never changes anything but the
    telemetry log. *)
Theorem failure_atomic (s s' : svc) (req : ServiceRequest) (now : Tick)
    (r : Result ServiceResponse ServiceError) :
  reachable s → ServiceCore.handle req now s = (s', r) →
  match r with
  | Err e => s' = s ∨ (∃ k, e = EKv k)
      ∧ s' = ServiceCore.set_sequence (ServiceCore.next_recovery_sequence s + 1) s
  | Ok _ => Operation.is_commit (ServiceRequest.operation req) = false →
      ∃ ev, s' = log_event ev s
  end.
Proof.
  intros Hinv%reachable_inv Hh%handle_refines; [|done].
  destruct Hh as [| | | | | | | |adm k' h out key Ha Hn Hcap Hs Hc
    |adm k' h out ref key Ha Hn Hcap Hs Hc]; eauto; intros Hnc; destruct Hc; done.
Qed.

(** C22: An unknown outcome is applied and recovered exactly once.  When the
    confirmation of a commit fails, the backend effect has happened, and the
    returned reference stays resolvable through any calls that do not resolve
    it; resolving it then succeeds, and every later attempt is refused without
    any change. *)
Theorem unknown_outcome_recovery (s s1 : svc) (req : ServiceRequest) (now : Tick) (ref : Id)
    (ops : list ServiceOp) (res res' : Resolution) (later : list ServiceOp) :
  reachable s →
  ServiceCore.handle req now s = (s1, Ok (OutcomeUnknownAfterEntry ref)) →
  Forall (λ o, resolves ref o = false) ops →
  (∃ adm output, ServiceCore.admission_check req now s = Ok adm ∧
     kv_commit (ServiceCore.adm_engine_path adm) now (ServiceCore.kv s)
       (ServiceRequest.operation req) (ServiceCore.kv s1) (Ok output))
  ∧ ∃ s3, ServiceCore.resolve_unknown ref res (run service_exec ops s1) = (s3, Ok tt)
    ∧ let s4 := run service_exec later s3 in
      ServiceCore.resolve_unknown ref res' s4 = (s4, Err MissingRecoveryReference).
Proof.
  intros Hinv%reachable_inv Hh%handle_refines Hops; [|done].
  pose proof (handle_outcome_inv _ _ _ _ _ Hinv Hh) as Hinv1.
  inversion Hh as [| | | | | | | | |adm k' h out ref' key Ha Hn Hcap Hs Hc Hf Href E1]. subst ref'.
  split; [by exists adm, out|]. rewrite E1.
  destruct (run_recovery ops ref key s1 Hinv1) as [Hinv2 Hr]; [|done|].
  { rewrite <- E1. simpl. apply lookup_insert_eq. }
  destruct (resolve_settles ref key res _ Hinv2 Hr) as [Hok Hset].
  destruct (ServiceCore.resolve_unknown ref res (run service_exec ops s1)) as [s3 r3].
  simpl in *. subst. exists s3. split; [done|]. apply settled_refuses.
  apply (run_invariant service_exec (settled ref)); [intros; by apply exec_settled|done].
Qed.

(** C23: Namespaces do not interfere.  No sequence of requests in other
    namespaces, whatever their operations and principals, changes the answer to
    a read or list request in a namespace: data, metadata and errors are the
    same. *)
Theorem namespace_noninterference (s : svc) (others : list (ServiceRequest * Tick))
    (req : ServiceRequest) (now : Tick) :
  reachable s →
  Forall (λ x, ServiceRequest.namespace_id x.1 ≠ ServiceRequest.namespace_id req) others →
  Operation.is_commit (ServiceRequest.operation req) = false →
  (ServiceCore.handle req now (requests others s)).2 = (ServiceCore.handle req now s).2.
Proof. intros Hinv%reachable_inv. by apply query_noninterference. Qed.

(** Read your writes, end to end.  After an answered write (even one with
    unknown outcome) and any requests in other namespaces, an authorized read of
    the same path returns exactly the written value, with the next version
    number and the write's time; a completed write has reported that metadata. *)
Theorem read_your_writes (s s1 : svc) (wreq rreq : ServiceRequest) (now now2 : Tick)
    (v : SecretValue) (cas : option N) (resp : ServiceResponse)
    (others : list (ServiceRequest * Tick)) (adm : ServiceCore.admission) :
  reachable s →
  ServiceRequest.operation wreq = KvWrite v cas →
  ServiceCore.handle wreq now s = (s1, Ok resp) →
  ServiceRequest.operation rreq = KvRead None →
  ServiceRequest.namespace_id rreq = ServiceRequest.namespace_id wreq →
  ServiceRequest.path rreq = ServiceRequest.path wreq →
  ServiceCore.admission_check rreq now2 s1 = Ok adm →
  Forall (λ x, ServiceRequest.namespace_id x.1 ≠ ServiceRequest.namespace_id rreq) others →
  ∃ md, KvMetadata.created_at md = now
    ∧ KvMetadata.version md =
        (KvStore.current_version (ServiceCore.kv s) (ServiceCore.adm_engine_path adm) + 1)%N
    ∧ (resp = Completed (Written md) ∨ ∃ ref, resp = OutcomeUnknownAfterEntry ref)
    ∧ (ServiceCore.handle rreq now2 (requests others s1)).2 = Ok (Completed (OutRead md v)).
Proof.
  intros Hinv%reachable_inv Hw Hh%handle_refines Hr Hns Hpath Hadm Hoth; [|done].
  pose proof (handle_outcome_inv _ _ _ _ _ Hinv Hh) as Hinv1.
  pose proof (handle_outcome_admin _ _ _ _ _ Hh) as Hadmin.
  rewrite query_noninterference, handle_query, Hadm, Hr by (try rewrite Hr; done).
  pose proof (admission_Ok _ _ _ _ Hadm) as [_ Htgt]. injection Hadmin as _ _ _ _ Em.
  rewrite Em in Htgt. unfold target in Htgt. rewrite Hns, Hpath in Htgt. simpl.
  pose proof (svc_kv s Hinv) as Hkv.
  inversion Hh as [|adm' v' ? ? ? Ho|adm' v' ? ? ? Ho|adm' ? Ho| | | | |
    adm' k' h out key Ha Hn Hcap Hs Hc Hf E1|adm' k' h out ref key Ha Hn Hcap Hs Hc Hf Href E1];
    try congruence; subst; rewrite Hw in Hc;
    pose proof (admission_Ok _ _ _ _ Ha) as [_ Htgt']; unfold target in Htgt';
    rewrite Htgt in Htgt'; injection Htgt' as Hpe; rewrite <- Hpe in Hc;
    destruct (kv_commit_write_read _ _ _ _ _ _ _ Hkv Hc) as [-> Hq];
    exists (KvMetadata.mk (KvStore.current_version (ServiceCore.kv s)
              (ServiceCore.adm_engine_path adm) + 1) now false false);
    (split_and!; [reflexivity|reflexivity| |exact Hq]); eauto.
Qed.

End theorems.

(** * A concrete service *)
Module Demo.
Definition alice : Id := Id.mk "alice" I.
Definition bob : Id := Id.mk "bob" I.
Definition pol : Id := Id.mk "rw" I.
Definition tok : Id := Id.mk "tok-1" I.
Definition root : Id := Id.mk "root" I.
Definition team : Id := Id.mk "team" I.
Definition kv_root : Id := Id.mk "kv-root" I.
Definition kv_team : Id := Id.mk "kv-team" I.
Definition secret_path : CanonicalPath := CanonicalPath.mk "/secret" I.
Definition db_path : CanonicalPath := CanonicalPath.mk "/secret/db" I.
Definition value : SecretValue := SecretValue.mk "hunter2" I.

Definition identities : IdentityStore :=
  run identity_exec [IOpCreateEntity alice; IOpAttachPolicy alice pol] IdentityStore.default.
Definition policies : PolicyStore :=
  (PolicyStore.insert (Policy.mk pol [PolicyRule.mk CanonicalPath.root {[Read; Update; Delete; List]}])
     PolicyStore.default).1.
Definition tokens : TokenStore :=
  run token_exec [OpIssue tok alice ∅ 0 100 true] TokenStore.default.
Definition namespaces : NamespaceStore :=
  run namespace_exec [NOpBootstrapRoot root; NOpCreate team root] NamespaceStore.default.
Definition mounts : MountRouter :=
  run mount_exec [MOpMount kv_root root secret_path Kv; MOpMount kv_team team secret_path Kv]
    MountRouter.default.

Definition setup : list ServiceOp :=
  [SOpIdentities identities; SOpPolicies policies; SOpTokens tokens;
   SOpNamespaces namespaces; SOpMounts mounts].

Definition start (hook : FailOncePostCommitHook) : ServiceCore FailOncePostCommitHook :=
  run service_exec setup
    (ServiceCore.mk IdentityStore.default PolicyStore.default TokenStore.default
       NamespaceStore.default MountRouter.default (KvStore.mk ∅ 3) MemoryTelemetry.default
       ReconciliationStore.default (RequestRegistry.mk 4 ∅ ∅ ∅) ∅ 0 hook).

(** A service that confirms its commits, and one that loses a confirmation. *)
Definition steady := start (FailOnce true).
Definition flaky := start (FailOnce false).

Lemma start_reachable hook : reachable (start hook).
Proof. by exists 3, 4, hook; eexists _, _. Qed.

Definition request (id ns : Id) (op : ServiceOperation) : ServiceRequest :=
  ServiceRequest.mk id tok ns db_path op.
Definition write := request (Id.mk "req-1" I) root (KvWrite value None).
Definition read := request (Id.mk "req-2" I) root (KvRead None).
Definition other := request (Id.mk "req-1" I) team (KvWrite value None).
Definition remove := request (Id.mk "req-1" I) root KvDelete.
Definition reference : Id := Id.mk "recovery_1" I.
Definition written : ServiceCore FailOncePostCommitHook := (ServiceCore.handle write 5 steady).1.
End Demo.

(** * Instances on the concrete service *)
Lemma Demo_write_answer :
  ServiceCore.handle Demo.write 5 Demo.steady =
  (Demo.written, Ok (Completed (Written (KvMetadata.mk 1 5 false false)))).
Proof.
  apply (call_answer (ServiceCore.handle Demo.write 5 Demo.steady)). vm_compute. reflexivity.
Qed.

Lemma Demo_admitted req :
  req = Demo.write ∨ req = Demo.remove ∨ req = Demo.read →
  ∃ adm, ServiceCore.admission_check req 5 Demo.steady = Ok adm
    ∧ ServiceCore.admission_check req 5 Demo.written = Ok adm
    ∧ ServiceCore.adm_principal adm = Demo.alice.
Proof.
  intros Hreq.
  assert (map_ok ServiceCore.adm_principal (ServiceCore.admission_check req 5 Demo.steady)
          = Ok Demo.alice) as Hp by (destruct Hreq as [->|[->| ->]]; vm_compute; reflexivity).
  rewrite (admission_admin req 5 Demo.steady Demo.written).
  - destruct (ServiceCore.admission_check req 5 Demo.steady) as [adm|]; [|discriminate Hp].
    injection Hp as Hp. eauto.
  - eapply handle_outcome_admin, handle_refines, Demo_write_answer.
    apply reachable_inv, Demo.start_reachable.
Qed.

Lemma service_invariant_witness :
  (ServiceCore.resolve_unknown (Id.mk "ref-1" I) ConfirmedCommitted Demo.steady).2 = Ok tt
  ∨ (ServiceCore.resolve_unknown (Id.mk "ref-1" I) ConfirmedCommitted Demo.steady).2 = Err MissingRecoveryReference.
Proof. apply (service_invariant Demo.steady), Demo.start_reachable. Defined.

Lemma handle_refines_outcome_witness :
  handle_outcome Demo.write 5 Demo.steady Demo.written
    (Ok (Completed (Written (KvMetadata.mk 1 5 false false)))).
Proof.
  apply (handle_refines_outcome Demo.steady); [apply Demo.start_reachable|apply Demo_write_answer].
Defined.

Lemma commit_at_most_once_witness :
  let s := Demo.written in
  ServiceCore.handle Demo.remove 5 s = (s, Err DuplicateRequest)
  ∨ ServiceCore.handle Demo.remove 5 s = (s, Err RequestBindingMismatch).
Proof.
  destruct (Demo_admitted Demo.write) as (adm & Ha & _ & Hp); [auto|].
  destruct (Demo_admitted Demo.remove) as (adm2 & _ & Ha2 & Hp2); [auto|].
  apply (commit_at_most_once Demo.steady Demo.written Demo.write Demo.remove 5 5
           (Completed (Written (KvMetadata.mk 1 5 false false))) adm adm2 []);
    [apply Demo.start_reachable|apply Demo_write_answer|reflexivity..|exact Ha|exact Ha2|].
  rewrite Hp, Hp2. reflexivity.
Defined.

Lemma complete_mediation_witness :
  ∃ principal engine, admitted_by Demo.write 5 Demo.steady principal engine.
Proof.
  destruct (complete_mediation Demo.steady Demo.written Demo.write 5
              (Ok (Completed (Written (KvMetadata.mk 1 5 false false)))))
    as (p & e & Hadm & _);
    [apply Demo.start_reachable|apply Demo_write_answer|left; reflexivity|].
  exists p, e. exact Hadm.
Defined.

Lemma failure_atomic_witness :
  let s' := (ServiceCore.handle Demo.remove 5 Demo.written).1 in
  s' = Demo.written ∨ (∃ k, DuplicateRequest = EKv k)
    ∧ s' = ServiceCore.set_sequence (ServiceCore.next_recovery_sequence Demo.written + 1) Demo.written.
Proof.
  apply (failure_atomic Demo.written (ServiceCore.handle Demo.remove 5 Demo.written).1 Demo.remove 5
           (Err DuplicateRequest)).
  - exists 3, 4, (FailOnce true). eexists _, (Demo.setup ++ [SOpHandle Demo.write 5]).
    split; reflexivity.
  - apply call_answer. vm_compute. reflexivity.
Defined.

Lemma unknown_outcome_recovery_witness :
  ∃ s3, ServiceCore.resolve_unknown Demo.reference ConfirmedCommitted
          (ServiceCore.handle Demo.write 5 Demo.flaky).1 = (s3, Ok tt)
    ∧ ServiceCore.resolve_unknown Demo.reference ConfirmedCommitted s3
      = (s3, Err MissingRecoveryReference).
Proof.
  apply (unknown_outcome_recovery Demo.flaky (ServiceCore.handle Demo.write 5 Demo.flaky).1
           Demo.write 5 Demo.reference [] ConfirmedCommitted ConfirmedCommitted []).
  - apply Demo.start_reachable.
  - apply call_answer. vm_compute. reflexivity.
  - constructor.
Defined.

Lemma namespace_noninterference_witness :
  (ServiceCore.handle Demo.read 5 (requests [(Demo.other, 5%N)] Demo.steady)).2 =
  (ServiceCore.handle Demo.read 5 Demo.steady).2.
Proof.
  apply (namespace_noninterference Demo.steady [(Demo.other, 5%N)] Demo.read 5).
  - apply Demo.start_reachable.
  - constructor; [intros E; discriminate (f_equal Id.as_str E)|constructor].
  - reflexivity.
Defined.

Lemma read_your_writes_witness :
  ∃ md, (ServiceCore.handle Demo.read 5 (requests [(Demo.other, 5%N)] Demo.written)).2 =
        Ok (Completed (OutRead md Demo.value)).
Proof.
  destruct (Demo_admitted Demo.read) as (adm & _ & Ha & _); [auto|].
  destruct (read_your_writes Demo.steady Demo.written Demo.write Demo.read 5 5 Demo.value None
              (Completed (Written (KvMetadata.mk 1 5 false false))) [(Demo.other, 5%N)] adm)
    as (md & _ & _ & _ & Hr);
    [apply Demo.start_reachable|reflexivity|apply Demo_write_answer|reflexivity..|exact Ha| |].
  - constructor; [intros E; discriminate (f_equal Id.as_str E)|constructor].
  - exists md. exact Hr.
Defined.
