(* ===== verification/Gf256.v ===== *)
(** Arithmetic of GF(256), from [crates/heptabao-server/src/crypto.rs].

    [gf_mul] and [gf_inverse] are the source's loops on bytes, with shifts that
    drop the bits leaving the byte.  The file shows that these loops, with
    exclusive or as addition, form a field, and proves on that field the
    interpolation identity on which secret sharing rests. *)
From Stdlib Require Import NArith Strings.Byte Field.
From S2P Require Import Prelude.

Notation u8 := Byte.byte.

(** * Bytes *)
Module U8.
Definition to_N (b : u8) : N := Byte.to_N b.

(** Truncation to eight bits. *)
Definition wrap (n : N) : u8 :=
  match Byte.of_N (n mod 256) with Some b => b | None => x00 end.

Definition xor (a b : u8) : u8 := wrap (N.lxor (to_N a) (to_N b)).
Definition and (a b : u8) : u8 := wrap (N.land (to_N a) (to_N b)).
Definition shl1 (a : u8) : u8 := wrap (N.shiftl (to_N a) 1).
Definition shr1 (a : u8) : u8 := wrap (N.shiftr (to_N a) 1).
Definition eqb (a b : u8) : bool := Byte.eqb a b.
End U8.

Lemma to_N_wrap n : (n < 256)%N → Byte.to_N (U8.wrap n) = n.
Proof.
  intros Hn. unfold U8.wrap. rewrite N.mod_small by done.
  destruct (Byte.of_N n) as [b|] eqn:E; [by apply Byte.to_of_N|].
  apply Byte.of_N_None_iff in E. lia.
Qed.

#[export] Instance u8_eq_dec : EqDecision u8 := Byte.byte_eq_dec.

(** [gf_mul]: one round, then eight of them. *)
Fixpoint gf_mul_loop (rounds : nat) (left right product : u8) : u8 :=
  match rounds with
  | O => product
  | S rounds =>
      let product := if negb (U8.eqb (U8.and right x01) x00) then U8.xor product left else product in
      let high := U8.and left x80 in
      let left := U8.shl1 left in
      let left := if negb (U8.eqb high x00) then U8.xor left x1b else left in
      gf_mul_loop rounds left (U8.shr1 right) product
  end.

Definition gf_mul (left right : u8) : u8 := gf_mul_loop 8 left right x00.

(** [gf_inverse]: square and multiply with the exponent 254 in a [u16]; sixteen
    halvings bring any 16-bit exponent to zero. *)
Fixpoint gf_inverse_loop (fuel : nat) (result base : u8) (exponent : N) : option u8 :=
  if (exponent =? 0)%N then Some result
  else match fuel with
  | O => None
  | S fuel =>
      let result := if negb (N.land exponent 1 =? 0)%N then gf_mul result base else result in
      gf_inverse_loop fuel result (gf_mul base base) (N.shiftr exponent 1)
  end.

Definition gf_inverse (value : u8) : Result u8 string :=
  if U8.eqb value x00 then Err "zero has no inverse in GF(256)"
  else ok_or (gf_inverse_loop 16 x01 value 254) "unreachable".

(** * Bytes as a vector space over the bits *)
Definition all_bytes : list u8 := omap Byte.of_N (N.of_nat <$> seq 0 256).

Lemma all_bytes_complete b : b ∈ all_bytes.
Proof.
  apply list_elem_of_omap. exists (Byte.to_N b). split; [|apply Byte.of_to_N].
  pose proof (Byte.to_N_bounded b) as Hb. apply list_elem_of_fmap.
  exists (N.to_nat (Byte.to_N b)). split; [by rewrite N2Nat.id|].
  apply elem_of_seq. lia.
Qed.

Lemma forall_bytes (P : u8 → bool) : forallb P all_bytes = true → ∀ b, P b = true.
Proof. intros HP b. apply (proj1 (forallb_forall P _) HP), list_elem_of_In, all_bytes_complete. Qed.

Lemma forall_bytes2 (P : u8 → u8 → bool) :
  forallb (λ a, forallb (P a) all_bytes) all_bytes = true → ∀ a b, P a b = true.
Proof. intros HP a. apply forall_bytes. apply (forall_bytes _ HP a). Qed.

Lemma u8_eqb_eq a b : U8.eqb a b = true → a = b.
Proof. apply Byte.byte_dec_bl. Qed.

Definition xtime (left : u8) : u8 :=
  if negb (U8.eqb (U8.and left x80) x00) then U8.xor (U8.shl1 left) x1b else U8.shl1 left.
Definition low_bit (right : u8) : bool := negb (U8.eqb (U8.and right x01) x00).

(** ** Addition *)
Lemma to_N_xor a b : U8.to_N (U8.xor a b) = N.lxor (U8.to_N a) (U8.to_N b).
Proof.
  apply N.eqb_eq. revert a b.
  apply (forall_bytes2 (λ a b, U8.to_N (U8.xor a b) =? N.lxor (U8.to_N a) (U8.to_N b))%N).
  vm_compute. reflexivity.
Qed.

Lemma to_N_inj a b : U8.to_N a = U8.to_N b → a = b.
Proof.
  intros E. pose proof (Byte.of_to_N a) as Ha. pose proof (Byte.of_to_N b) as Hb.
  unfold U8.to_N in E. rewrite E in Ha. congruence.
Qed.

Lemma xor_comm a b : U8.xor a b = U8.xor b a.
Proof. apply to_N_inj. rewrite !to_N_xor. apply N.lxor_comm. Qed.
Lemma xor_assoc a b c : U8.xor a (U8.xor b c) = U8.xor (U8.xor a b) c.
Proof. apply to_N_inj. by rewrite !to_N_xor, N.lxor_assoc. Qed.
Lemma xor_nil a : U8.xor a a = x00.
Proof. apply to_N_inj. rewrite to_N_xor. apply N.lxor_nilpotent. Qed.
Lemma xor_0_l a : U8.xor x00 a = a.
Proof. apply to_N_inj. by rewrite to_N_xor. Qed.
Lemma xor_0_r a : U8.xor a x00 = a.
Proof. by rewrite xor_comm, xor_0_l. Qed.
Lemma xor_swap a b c d : U8.xor (U8.xor a b) (U8.xor c d) = U8.xor (U8.xor a c) (U8.xor b d).
Proof. rewrite <- !xor_assoc. f_equal. rewrite !xor_assoc. by rewrite (xor_comm b c). Qed.

(** ** The rounds are linear in both factors *)
Lemma xtime_xor a b : xtime (U8.xor a b) = U8.xor (xtime a) (xtime b).
Proof.
  apply u8_eqb_eq. revert a b.
  apply (forall_bytes2 (λ a b, U8.eqb (xtime (U8.xor a b)) (U8.xor (xtime a) (xtime b)))).
  vm_compute. reflexivity.
Qed.

Lemma shr1_xor a b : U8.shr1 (U8.xor a b) = U8.xor (U8.shr1 a) (U8.shr1 b).
Proof.
  apply u8_eqb_eq. revert a b.
  apply (forall_bytes2 (λ a b, U8.eqb (U8.shr1 (U8.xor a b)) (U8.xor (U8.shr1 a) (U8.shr1 b)))).
  vm_compute. reflexivity.
Qed.

Lemma low_bit_xor a b : low_bit (U8.xor a b) = xorb (low_bit a) (low_bit b).
Proof.
  apply eqb_prop. revert a b.
  apply (forall_bytes2 (λ a b, eqb (low_bit (U8.xor a b)) (xorb (low_bit a) (low_bit b)))).
  vm_compute. reflexivity.
Qed.

Lemma gf_mul_loop_S n l r p :
  gf_mul_loop (S n) l r p =
  gf_mul_loop n (xtime l) (U8.shr1 r) (if low_bit r then U8.xor p l else p).
Proof. done. Qed.

Lemma loop_left n l1 l2 r p1 p2 :
  gf_mul_loop n (U8.xor l1 l2) r (U8.xor p1 p2) =
  U8.xor (gf_mul_loop n l1 r p1) (gf_mul_loop n l2 r p2).
Proof.
  revert l1 l2 r p1 p2. induction n as [|n IH]; intros l1 l2 r p1 p2; [done|].
  rewrite !gf_mul_loop_S, xtime_xor. destruct (low_bit r); [|apply IH].
  by rewrite xor_swap, IH.
Qed.

Lemma loop_right n l r1 r2 p1 p2 :
  gf_mul_loop n l (U8.xor r1 r2) (U8.xor p1 p2) =
  U8.xor (gf_mul_loop n l r1 p1) (gf_mul_loop n l r2 p2).
Proof.
  revert l r1 r2 p1 p2. induction n as [|n IH]; intros l r1 r2 p1 p2; [done|].
  rewrite !gf_mul_loop_S, shr1_xor, low_bit_xor.
  destruct (low_bit r1), (low_bit r2); simpl; rewrite <- IH; f_equal.
  - by rewrite xor_swap, xor_nil, xor_0_r.
  - by rewrite <- xor_assoc, (xor_comm p2), xor_assoc.
  - by rewrite xor_assoc.
Qed.

Lemma gf_mul_add_l a b c : gf_mul (U8.xor a b) c = U8.xor (gf_mul a c) (gf_mul b c).
Proof. unfold gf_mul. by rewrite <- loop_left. Qed.
Lemma gf_mul_add_r a b c : gf_mul a (U8.xor b c) = U8.xor (gf_mul a b) (gf_mul a c).
Proof. unfold gf_mul. by rewrite <- loop_right. Qed.

(** ** Additive functions are determined by the eight basis bytes *)
Definition basis : list u8 := [x01; x02; x04; x08; x10; x20; x40; x80].

Definition additive (f : u8 → u8) : Prop := ∀ a b, f (U8.xor a b) = U8.xor (f a) (f b).

(** The sum of the basis bytes whose bit is set. *)
Definition recompose (f : u8 → u8) (a : u8) : u8 :=
  foldr (λ b acc, if U8.eqb (U8.and a b) x00 then acc else U8.xor (f b) acc) x00 basis.

Lemma recompose_id a : recompose (λ b, b) a = a.
Proof.
  apply u8_eqb_eq. revert a. apply (forall_bytes (λ a, U8.eqb (recompose (λ b, b) a) a)).
  vm_compute. reflexivity.
Qed.

Lemma additive_0 f : additive f → f x00 = x00.
Proof.
  intros Hf. pose proof (Hf x00 x00) as E. rewrite xor_0_l in E. rewrite E at 1. apply xor_nil.
Qed.

Lemma additive_recompose f a : additive f → f a = recompose f a.
Proof.
  intros Hf. rewrite <- (recompose_id a) at 1. unfold recompose.
  induction basis as [|b l IH]; simpl; [by apply additive_0|].
  destruct (U8.eqb _ _); [done|]. by rewrite Hf, IH.
Qed.

Lemma additive_ext f g :
  additive f → additive g → Forall (λ b, f b = g b) basis → ∀ a, f a = g a.
Proof.
  intros Hf Hg Hb a. rewrite (additive_recompose f), (additive_recompose g) by done.
  unfold recompose. induction Hb as [|b l Hb _ IH]; simpl; [done|]. by rewrite Hb, IH.
Qed.

(** ** The multiplicative laws *)
Lemma additive_mul_l c : additive (λ a, gf_mul a c).
Proof. intros a b. apply gf_mul_add_l. Qed.
Lemma additive_mul_r c : additive (gf_mul c).
Proof. intros a b. apply gf_mul_add_r. Qed.
Lemma additive_comp f g : additive f → additive g → additive (λ a, f (g a)).
Proof. intros Hf Hg a b. by rewrite Hg, Hf. Qed.
#[local] Hint Resolve additive_mul_l additive_mul_r additive_comp : hepta.

Lemma gf_mul_comm a b : gf_mul a b = gf_mul b a.
Proof.
  revert a. apply additive_ext; [auto with hepta..|]. repeat constructor; revert b;
    (apply additive_ext; [auto with hepta..|]; repeat constructor; reflexivity).
Qed.

Lemma gf_mul_assoc a b c : gf_mul a (gf_mul b c) = gf_mul (gf_mul a b) c.
Proof.
  revert a. apply additive_ext; [auto with hepta| |].
  { apply (additive_comp (λ x, gf_mul x c)); auto with hepta. }
  unfold basis. rewrite !Forall_cons. split_and!; try done; revert b;
    (apply additive_ext;
     [apply (additive_comp (gf_mul _) (λ x, gf_mul x c)); auto with hepta
     |apply (additive_comp (λ x, gf_mul x c)); auto with hepta
     |]; unfold basis; rewrite !Forall_cons; split_and!; try done; revert c;
     (apply additive_ext; [apply (additive_comp (gf_mul _)); auto with hepta|auto with hepta|];
      repeat constructor; vm_compute; reflexivity)).
Qed.

Lemma gf_mul_1_l a : gf_mul x01 a = a.
Proof.
  revert a. apply (additive_ext (gf_mul x01) (λ a, a)); [auto with hepta|by intros a b|].
  repeat constructor.
Qed.

(** [gf_inverse] is total on nonzero bytes. *)
Definition gf_inv (a : u8) : u8 := match gf_inverse a with Ok b => b | Err _ => x00 end.

Lemma gf_inverse_Ok a : a ≠ x00 → gf_inverse a = Ok (gf_inv a) ∧ gf_mul (gf_inv a) a = x01.
Proof.
  assert (∀ a, U8.eqb a x00 || (is_ok (gf_inverse a) && U8.eqb (gf_mul (gf_inv a) a) x01) = true)
    as Hall by (apply forall_bytes; vm_compute; reflexivity).
  intros Ha. specialize (Hall a). apply orb_true_iff in Hall as [E|[Hok E]%andb_true_iff].
  - by apply u8_eqb_eq in E.
  - apply u8_eqb_eq in E. split; [|done]. unfold gf_inv. by destruct (gf_inverse a).
Qed.

(** ** The field *)
Lemma gf_ring : ring_theory x00 x01 U8.xor gf_mul U8.xor (λ a, a) eq.
Proof.
  split; intros; try done.
  - apply xor_0_l.
  - apply xor_comm.
  - apply xor_assoc.
  - apply gf_mul_1_l.
  - apply gf_mul_comm.
  - apply gf_mul_assoc.
  - apply gf_mul_add_l.
  - apply xor_nil.
Qed.

Lemma gf_field_theory :
  field_theory x00 x01 U8.xor gf_mul U8.xor (λ a, a) (λ a b, gf_mul a (gf_inv b)) gf_inv eq.
Proof. split; [apply gf_ring|done|done|]. intros a Ha. by apply gf_inverse_Ok. Qed.

Add Field gf256 : gf_field_theory.

(** From here on the operations are used through their laws. *)
#[global] Opaque gf_mul gf_inv gf_inverse U8.xor.

(** * Interpolation at zero *)
Section interpolation.

#[local] Infix "+" := U8.xor.
#[local] Infix "*" := gf_mul.

(** The factor of node [y] in the weight of node [x]. *)
Definition factor (y x : u8) : u8 := if decide (y = x) then x01 else y * gf_inv (y + x).
Definition weight (xs : list u8) (x : u8) : u8 := foldr (λ y acc, factor y x * acc) x01 xs.
Definition weighted (xs pts : list u8) (f : u8 → u8) : u8 :=
  foldr (λ x acc, f x * weight xs x + acc) x00 pts.

(** The weighted sum of the values at the nodes. *)
Definition interpolate (xs : list u8) (f : u8 → u8) : u8 := weighted xs xs f.

Lemma weighted_ext xs xs' pts f g :
  (∀ x, x ∈ pts → f x * weight xs x = g x * weight xs' x) →
  weighted xs pts f = weighted xs' pts g.
Proof.
  induction pts as [|p pts IH]; intros E; simpl; [done|].
  rewrite (E p), IH by set_solver. done.
Qed.

Lemma weighted_add xs pts f g :
  weighted xs pts (λ x, f x + g x) = weighted xs pts f + weighted xs pts g.
Proof. induction pts as [|p pts IH]; simpl; [done|]. rewrite IH. ring. Qed.

Lemma weighted_scale xs pts c f : weighted xs pts (λ x, c * f x) = c * weighted xs pts f.
Proof. induction pts as [|p pts IH]; simpl; [ring|]. rewrite IH. ring. Qed.

Lemma sum_nonzero y x : y ≠ x → y + x ≠ x00.
Proof.
  intros Hne E. apply Hne. rewrite <- (xor_0_r y), <- (xor_nil x), xor_assoc, E. apply xor_0_l.
Qed.

(** A factor that vanishes at a node removes the node. *)
Lemma weighted_drop z ys pts q :
  z ∉ pts → weighted (z :: ys) pts (λ x, (x + z) * q x) = z * weighted ys pts q.
Proof.
  induction pts as [|p pts IH]; intros Hz; simpl; [ring|].
  rewrite IH by set_solver. unfold factor. rewrite decide_False by set_solver.
  assert (z + p ≠ x00) by (apply sum_nonzero; set_solver). field. done.
Qed.

Lemma interpolate_drop z ys q :
  z ∉ ys → interpolate (z :: ys) (λ x, (x + z) * q x) = z * interpolate ys q.
Proof.
  intros Hz. unfold interpolate. simpl. rewrite xor_nil, weighted_drop by done. ring.
Qed.

Lemma interpolate_swap a b ys f : interpolate (a :: b :: ys) f = interpolate (b :: a :: ys) f.
Proof.
  unfold interpolate.
  assert (∀ pts, weighted (a :: b :: ys) pts f = weighted (b :: a :: ys) pts f) as E.
  { intros pts. apply weighted_ext. intros x _. simpl. ring. }
  rewrite E. simpl. ring.
Qed.

Lemma interpolate_one xs : NoDup xs → xs ≠ [] → interpolate xs (λ _, x01) = x01.
Proof.
  intros Hnd. remember (length xs) as n eqn:Hn. revert xs Hnd Hn.
  induction n as [|n IH]; intros [|a [|b ys]] Hnd Hn Hne; try done.
  { unfold interpolate. simpl. unfold factor. rewrite decide_True by done. ring. }
  simpl in Hn. apply NoDup_cons in Hnd as [Ha Hnd]. pose proof Hnd as Hbs.
  apply NoDup_cons in Hnd as [Hb Hnd].
  assert (interpolate (a :: b :: ys) (λ x, (x + a) * x01) = a) as E1.
  { rewrite interpolate_drop, IH by (done || simpl; lia). ring. }
  assert (interpolate (a :: b :: ys) (λ x, (x + b) * x01) = b) as E2.
  { rewrite interpolate_swap, interpolate_drop; [|set_solver].
    rewrite IH; [ring| |simpl; lia|done]. apply NoDup_cons. split; [set_solver|done]. }
  assert (a + b ≠ x00) as Hab by (apply sum_nonzero; set_solver).
  transitivity (interpolate (a :: b :: ys)
                  (λ x, gf_inv (a + b) * ((x + a) * x01 + (x + b) * x01))).
  { unfold interpolate. apply weighted_ext. intros x _. f_equal.
    transitivity (gf_inv (a + b) * (a + b + (x + x))); [rewrite xor_nil; field; done|ring]. }
  unfold interpolate in *. rewrite weighted_scale, weighted_add, E1, E2. field. done.
Qed.

(** Polynomials by their coefficients, lowest first. *)
Fixpoint eval (cs : list u8) (x : u8) : u8 :=
  match cs with [] => x00 | c :: cs => c + x * eval cs x end.

Lemma eval_divide cs z :
  ∃ q, length q ≤ pred (length cs) ∧ ∀ x, eval cs x = eval cs z + (x + z) * eval q x.
Proof.
  induction cs as [|c cs (q & Hq & E)]; simpl.
  { exists []. split; [simpl; lia|]. intros x. simpl. ring. }
  destruct cs as [|c' cs].
  { exists []. split; [simpl; lia|]. intros x. simpl. ring. }
  exists (eval (c' :: cs) z :: q). split; [simpl in *; lia|].
  intros x. rewrite (E x). cbn [eval]. set (e := c' + z * eval cs z). set (r := eval q x).
  transitivity (c + x * (e + (x + z) * r) + (z * e + z * e)); [rewrite xor_nil; ring|ring].
Qed.

(** Interpolating a polynomial of lower degree than the number of nodes gives
    its value at zero. *)
Lemma interpolate_eval xs cs :
  NoDup xs → length cs ≤ length xs → interpolate xs (eval cs) = eval cs x00.
Proof.
  intros Hnd. revert cs. induction Hnd as [|z ys Hz Hnd IH]; intros cs Hlen.
  { by destruct cs; [|simpl in Hlen; lia]. }
  destruct (eval_divide cs z) as (q & Hq & E). simpl in Hlen.
  transitivity (interpolate (z :: ys) (λ x, eval cs z * x01 + (x + z) * eval q x)).
  { unfold interpolate. apply weighted_ext. intros x _. rewrite (E x). ring. }
  unfold interpolate. rewrite weighted_add, weighted_scale.
  fold (interpolate (z :: ys) (λ _, x01)) (interpolate (z :: ys) (λ x, (x + z) * eval q x)).
  rewrite interpolate_one, interpolate_drop, IH by (done || lia || by constructor).
  rewrite (E x00). ring.
Qed.

End interpolation.
