(* ===== verification/Shamir.v ===== *)
(** Shamir secret sharing and key wrapping, from
    [crates/heptabao-server/src/crypto.rs].

    The operating system's randomness, SHA-256 and AES-256-GCM are outside the
    repository: they are the parameters [random_fill], [sha256] and the class
    [Aead].  Rust arrays [[u8; 32]] are lists of 32 bytes. *)
From Stdlib Require Import NArith Strings.Byte Field.
From S2P Require Import Prelude Gf256.

Definition SHARE_MAGIC : list u8 := String.list_byte_of_string "HBS1".
Definition SHARE_SECRET_BYTES : nat := 32.
Definition SHARE_CHECKSUM_BYTES : nat := 4.
Definition SHARE_BYTES : nat :=
  length SHARE_MAGIC + 3 + SHARE_SECRET_BYTES + SHARE_CHECKSUM_BYTES.
Definition WRAPPED_KEY_MAGIC : list u8 := String.list_byte_of_string "HBK1".
Definition BARRIER_MAGIC : list u8 := String.list_byte_of_string "HBA1".

Definition u8_nat (b : u8) : nat := N.to_nat (Byte.to_N b).

Module SecretShare.
Record t := mk { total : u8; threshold : u8; index : u8; value : list u8 }.

(** [share.value[byte_index] = v]. *)
Definition set_byte (byte_index : nat) (v : u8) (self : t) : t :=
  mk (total self) (threshold self) (index self) (<[byte_index := v]> (value self)).
End SecretShare.
Notation SecretShare := SecretShare.t.

Definition validate_share_parameters (total threshold : u8) : Result unit string :=
  if (u8_nat total =? 0) || (u8_nat threshold =? 0) || (u8_nat total <? u8_nat threshold)
  then Err "invalid Shamir share parameters" else Ok tt.

(** * Splitting *)
Section split.
(** The bytes the system's generator delivers for the [byte_index]-th request
    of [n] bytes, or [None] when it fails. *)
Variable random_fill : nat → nat → option (list u8).

(** The inner loop over the coefficients: value and power of [x]. *)
Definition share_byte (secret_byte : u8) (coefficients : list u8) (x : u8) : u8 :=
  (foldl (λ '(value, power) coefficient,
            (U8.xor value (gf_mul coefficient power), gf_mul power x))
         (secret_byte, x) coefficients).1.

Fixpoint split_loop (coefficient_count byte_index : nat) (secret : list u8)
    (shares : list SecretShare) : Result (list SecretShare) string :=
  match secret with
  | [] => Ok shares
  | secret_byte :: secret =>
      match random_fill byte_index coefficient_count with
      | None => Err "operating system randomness unavailable"
      | Some coefficients =>
          split_loop coefficient_count (S byte_index) secret
            ((λ share, SecretShare.set_byte byte_index
                 (share_byte secret_byte coefficients (SecretShare.index share)) share) <$> shares)
      end
  end.

(** The blank shares, [(1..=total).map(...)]. *)
Definition blank_shares (total threshold : u8) : list SecretShare :=
  (λ i, SecretShare.mk total threshold (U8.wrap (N.of_nat i)) (repeat x00 SHARE_SECRET_BYTES))
    <$> seq 1 (u8_nat total).

Definition split_secret (secret : list u8) (total threshold : u8) :
  Result (list SecretShare) string :=
  let? _ := validate_share_parameters total threshold in
  split_loop (u8_nat threshold - 1) 0 secret (blank_shares total threshold).
End split.

(** * Combining *)

(** The parameter and duplicate checks over the selected shares. *)
Fixpoint check_selected (first : SecretShare) (seen rest : list SecretShare) : Result unit string :=
  match rest with
  | [] => Ok tt
  | share :: rest =>
      if negb (U8.eqb (SecretShare.total share) (SecretShare.total first))
         || negb (U8.eqb (SecretShare.threshold share) (SecretShare.threshold first))
      then Err "Shamir share parameter mismatch"
      else if existsb (λ existing, U8.eqb (SecretShare.index existing) (SecretShare.index share)) seen
      then Err "duplicate Shamir share index"
      else check_selected first (seen ++ [share]) rest
  end.

(** The basis of the share at [position]. *)
Fixpoint basis_loop (position : nat) (index : u8) (other_position : nat)
    (others : list SecretShare) (basis : u8) : Result u8 string :=
  match others with
  | [] => Ok basis
  | other :: others =>
      if position =? other_position
      then basis_loop position index (S other_position) others basis
      else
        let denominator := U8.xor (SecretShare.index other) index in
        if U8.eqb denominator x00 then Err "duplicate Shamir share index"
        else
          let? inverse := gf_inverse denominator in
          basis_loop position index (S other_position) others
            (gf_mul basis (gf_mul (SecretShare.index other) inverse))
  end.

(** One output byte. *)
Fixpoint value_loop (byte_index : nat) (selected : list SecretShare) (position : nat)
    (rest : list SecretShare) (value : u8) : Result u8 string :=
  match rest with
  | [] => Ok value
  | share :: rest =>
      let? basis := basis_loop position (SecretShare.index share) 0 selected x01 in
      value_loop byte_index selected (S position) rest
        (U8.xor value (gf_mul (default x00 (SecretShare.value share !! byte_index)) basis))
  end.

(** All output bytes, in order. *)
Fixpoint secret_loop (selected : list SecretShare) (byte_indexes : list nat) :
  Result (list u8) string :=
  match byte_indexes with
  | [] => Ok []
  | byte_index :: byte_indexes =>
      let? output := value_loop byte_index selected 0 selected x00 in
      let? rest := secret_loop selected byte_indexes in
      Ok (output :: rest)
  end.

Definition combine_shares (shares : list SecretShare) : Result (list u8) string :=
  let? first := ok_or (head shares) "no Shamir shares supplied" in
  let? _ := validate_share_parameters (SecretShare.total first) (SecretShare.threshold first) in
  if length shares <? u8_nat (SecretShare.threshold first)
  then Err "insufficient Shamir shares"
  else
    let selected := take (u8_nat (SecretShare.threshold first)) shares in
    let? _ := check_selected first [] selected in
    secret_loop selected (seq 0 SHARE_SECRET_BYTES).

(** * The share format *)
Section encoding.
Variable sha256 : list u8 → list u8.

Definition share_checksum (encoded_without_checksum : list u8) : list u8 :=
  sha256 (String.list_byte_of_string "heptabao.shamir-share.v1" ++ [x00] ++ encoded_without_checksum).

Definition encode (self : SecretShare) : list u8 :=
  let encoded := SHARE_MAGIC
    ++ [SecretShare.total self; SecretShare.threshold self; SecretShare.index self]
    ++ SecretShare.value self in
  encoded ++ take SHARE_CHECKSUM_BYTES (share_checksum encoded).

Definition decode (encoded : list u8) : Result SecretShare string :=
  if negb (length encoded =? SHARE_BYTES)
     || negb (bool_decide (take (length SHARE_MAGIC) encoded = SHARE_MAGIC))
  then Err "invalid Shamir share format"
  else
    let checksum_offset := SHARE_BYTES - SHARE_CHECKSUM_BYTES in
    let expected := share_checksum (take checksum_offset encoded) in
    if negb (bool_decide (drop checksum_offset encoded = take SHARE_CHECKSUM_BYTES expected))
    then Err "invalid Shamir share checksum"
    else
      let total := default x00 (encoded !! 4) in
      let threshold := default x00 (encoded !! 5) in
      let index := default x00 (encoded !! 6) in
      let? _ := validate_share_parameters total threshold in
      if (u8_nat index =? 0) || (u8_nat total <? u8_nat index)
      then Err "invalid Shamir share index"
      else Ok (SecretShare.mk total threshold index (take SHARE_SECRET_BYTES (drop 7 encoded))).
End encoding.

(** * Reference semantics *)

(** A share byte is the polynomial with the secret byte as constant term and
    the random coefficients, at the share's index. *)
Lemma share_byte_eval s cs x : share_byte s cs x = eval (s :: cs) x.
Proof.
  unfold share_byte. simpl.
  assert (∀ v p, (foldl (λ '(value, power) coefficient,
            (U8.xor value (gf_mul coefficient power), gf_mul power x)) (v, p) cs).1
          = U8.xor v (gf_mul p (eval cs x))) as E; [|apply E].
  induction cs as [|c cs IH]; intros v p; simpl; [ring|]. rewrite IH. ring.
Qed.

Lemma u8_eqb_refl a : U8.eqb a a = true.
Proof. by apply Byte.byte_dec_lb. Qed.

Lemma u8_eqb_spec a b : reflect (a = b) (U8.eqb a b).
Proof.
  destruct (U8.eqb a b) eqn:E; constructor; [by apply u8_eqb_eq|].
  intros ->. by rewrite u8_eqb_refl in E.
Qed.

Lemma validate_Ok_iff total threshold :
  validate_share_parameters total threshold = Ok tt ↔
  1 ≤ u8_nat threshold ≤ u8_nat total.
Proof.
  unfold validate_share_parameters.
  destruct (Nat.eqb_spec (u8_nat total) 0), (Nat.eqb_spec (u8_nat threshold) 0),
    (Nat.ltb_spec (u8_nat total) (u8_nat threshold)); simpl; split; (done || lia).
Qed.

(** ** The checks of [combine_shares] *)
Notation indexes := (fmap (M:=list) SecretShare.index).

Definition same_parameters (first share : SecretShare) : Prop :=
  SecretShare.total share = SecretShare.total first
  ∧ SecretShare.threshold share = SecretShare.threshold first.

Lemma check_selected_Ok first seen rest :
  NoDup (indexes seen) →
  check_selected first seen rest = Ok tt ↔
  Forall (same_parameters first) rest ∧ NoDup (indexes (seen ++ rest)).
Proof.
  revert seen. induction rest as [|sh rest IH]; intros seen Hseen; simpl.
  { rewrite app_nil_r. naive_solver. }
  rewrite Forall_cons. unfold same_parameters at 1.
  destruct (u8_eqb_spec (SecretShare.total sh) (SecretShare.total first)); simpl; [|naive_solver].
  destruct (u8_eqb_spec (SecretShare.threshold sh) (SecretShare.threshold first)); simpl; [|naive_solver].
  destruct (existsb _ seen) eqn:Hex.
  - split; [done|]. intros [_ Hnd]. exfalso.
    apply existsb_exists in Hex as (o & Ho%list_elem_of_In & E%u8_eqb_eq).
    rewrite fmap_app, NoDup_app in Hnd. destruct Hnd as (_ & Hd & _).
    apply (Hd (SecretShare.index o)); [by apply list_elem_of_fmap_2|]. simpl. rewrite E. left.
  - rewrite IH.
    + rewrite <- app_assoc. simpl. naive_solver.
    + rewrite fmap_app, NoDup_app. split_and!; [done| |apply NoDup_singleton].
      intros i Hi ->%list_elem_of_singleton. apply list_elem_of_fmap in Hi as (o & E & Ho).
      apply not_true_iff_false in Hex. apply Hex, existsb_exists.
      exists o. split; [by apply list_elem_of_In|]. rewrite <- E. apply u8_eqb_refl.
Qed.

(** ** The loops compute interpolation *)
Lemma basis_loop_weight position index op others b :
  (∀ i o, others !! i = Some o → op + i = position ↔ SecretShare.index o = index) →
  basis_loop position index op others b = Ok (gf_mul b (weight (indexes others) index)).
Proof.
  revert op b. induction others as [|o others IH]; intros op b Hpos; csimpl; [f_equal; ring|].
  pose proof (Hpos 0 o eq_refl) as H0. rewrite Nat.add_0_r in H0.
  assert (∀ i o', others !! i = Some o' → S op + i = position ↔ SecretShare.index o' = index) as Hrest.
  { intros i o' Hi. rewrite <- (Hpos (S i) o' Hi). lia. }
  unfold factor. destruct (Nat.eqb_spec position op) as [->|Hne].
  - rewrite IH by done. rewrite decide_True by by apply H0. f_equal. ring.
  - assert (SecretShare.index o ≠ index) as Hi by (intros E; apply Hne; symmetry; by apply H0).
    destruct (u8_eqb_spec (U8.xor (SecretShare.index o) index) x00) as [E|Hnz].
    { by apply sum_nonzero in Hi. }
    destruct (gf_inverse_Ok _ Hnz) as [-> _]. rewrite IH by done.
    rewrite decide_False by done. f_equal. ring.
Qed.

(** The byte a set of shares interpolates to. *)
Definition interpolated (byte_index : nat) (selected pts : list SecretShare) : u8 :=
  foldr (λ sh acc, U8.xor (gf_mul (default x00 (SecretShare.value sh !! byte_index))
                             (weight (indexes selected) (SecretShare.index sh))) acc) x00 pts.

Lemma value_loop_interpolated byte_index selected pre rest v :
  selected = pre ++ rest → NoDup (indexes selected) →
  value_loop byte_index selected (length pre) rest v =
  Ok (U8.xor v (interpolated byte_index selected rest)).
Proof.
  revert pre v. induction rest as [|sh rest IH]; intros pre v Hsel Hnd; simpl.
  { f_equal. ring. }
  rewrite basis_loop_weight.
  - replace (S (length pre)) with (length (pre ++ [sh])) by (rewrite length_app; simpl; lia).
    rewrite IH by (done || by rewrite <- app_assoc). f_equal. ring.
  - intros i o Hi. simpl.
    assert (selected !! length pre = Some sh) as Hp by (rewrite Hsel; by apply list_lookup_middle).
    split; [intros ->; congruence|]. intros E.
    apply (NoDup_lookup _ i (length pre) (SecretShare.index sh) Hnd);
      rewrite list_lookup_fmap; [rewrite Hi|rewrite Hp]; simpl; congruence.
Qed.

Lemma secret_loop_interpolated selected bs :
  NoDup (indexes selected) →
  secret_loop selected bs = Ok ((λ b, interpolated b selected selected) <$> bs).
Proof.
  intros Hnd. induction bs as [|b bs IH]; simpl; [done|].
  change 0 with (length (A:=SecretShare) []).
  rewrite (value_loop_interpolated b selected [] selected x00) by done. simpl.
  rewrite IH. by rewrite xor_0_l.
Qed.

(** Shares that lie on polynomials combine to the constant terms. *)
Lemma interpolated_eval byte_index selected cs :
  NoDup (indexes selected) → length cs ≤ length selected →
  (∀ sh, sh ∈ selected →
     SecretShare.value sh !! byte_index = Some (eval cs (SecretShare.index sh))) →
  interpolated byte_index selected selected = eval cs x00.
Proof.
  intros Hnd Hlen Hval. rewrite <- (interpolate_eval (indexes selected)) by (by rewrite ?length_fmap).
  unfold interpolate, interpolated. set (xs := indexes selected) at 1 2.
  generalize xs as ys. intros ys.
  assert (∀ l, (∀ sh, sh ∈ l → sh ∈ selected) →
    foldr (λ sh acc, U8.xor (gf_mul (default x00 (SecretShare.value sh !! byte_index))
                             (weight ys (SecretShare.index sh))) acc) x00 l
    = weighted ys (indexes l) (eval cs)) as E; [|by apply E].
  induction l as [|sh l IH]; intros Hl; csimpl; [done|].
  rewrite (Hval sh), IH by (set_solver by eauto). done.
Qed.

(** ** What [split_secret] deals *)

(** The share of one party, given the coefficients [css j] of byte [j]. *)
Fixpoint deal (css : nat → list u8) (k : nat) (secret : list u8) (sh : SecretShare) : SecretShare :=
  match secret with
  | [] => sh
  | s :: secret =>
      deal css (S k) secret
        (SecretShare.set_byte k (share_byte s (css k) (SecretShare.index sh)) sh)
  end.

Lemma deal_fields css k secret sh :
  SecretShare.total (deal css k secret sh) = SecretShare.total sh
  ∧ SecretShare.threshold (deal css k secret sh) = SecretShare.threshold sh
  ∧ SecretShare.index (deal css k secret sh) = SecretShare.index sh
  ∧ length (SecretShare.value (deal css k secret sh)) = length (SecretShare.value sh).
Proof.
  revert k sh. induction secret as [|s secret IH]; intros k sh; simpl; [done|].
  destruct (IH (S k) (SecretShare.set_byte k (share_byte s (css k) (SecretShare.index sh)) sh))
    as (-> & -> & -> & ->). simpl. by rewrite length_insert.
Qed.

Lemma deal_before css k secret sh j :
  j < k → SecretShare.value (deal css k secret sh) !! j = SecretShare.value sh !! j.
Proof.
  revert k sh. induction secret as [|s secret IH]; intros k sh Hj; simpl; [done|].
  rewrite IH by lia. simpl. by rewrite list_lookup_insert_ne by lia.
Qed.

Lemma deal_lookup css k secret sh j s :
  secret !! j = Some s → k + length secret ≤ length (SecretShare.value sh) →
  SecretShare.value (deal css k secret sh) !! (k + j) =
  Some (eval (s :: css (k + j)) (SecretShare.index sh)).
Proof.
  revert k sh j. induction secret as [|s0 secret IH]; intros k sh j Hj Hlen; [done|].
  simpl in Hlen. destruct j as [|j]; simpl in Hj.
  - simplify_eq. rewrite Nat.add_0_r. simpl deal. rewrite deal_before by lia. simpl.
    rewrite list_lookup_insert_eq by lia. by rewrite share_byte_eval.
  - simpl deal. replace (k + S j) with (S k + j) by lia.
    rewrite IH; [done|done|]. simpl. rewrite length_insert. lia.
Qed.

Lemma deal_byte css secret sh j s :
  secret !! j = Some s → length secret ≤ length (SecretShare.value sh) →
  SecretShare.value (deal css 0 secret sh) !! j = Some (eval (s :: css j) (SecretShare.index sh)).
Proof. apply (deal_lookup css 0). Qed.

Lemma split_loop_Ok rand c k secret shares shares' :
  split_loop rand c k secret shares = Ok shares' ↔
  (∀ j, j < length secret → is_Some (rand (k + j) c))
  ∧ shares' = deal (λ j, default [] (rand j c)) k secret <$> shares.
Proof.
  revert k shares. induction secret as [|s secret IH]; intros k shares; simpl.
  { rewrite list_fmap_id. split; [intros [= <-]; split; [lia|done]|naive_solver]. }
  destruct (rand k c) as [cs|] eqn:Hr.
  - rewrite IH, <- list_fmap_compose. split.
    + intros [Hall ->]. split.
      * intros [|j] Hj; [rewrite Nat.add_0_r; eauto|].
        replace (k + S j) with (S k + j) by lia. apply Hall. lia.
      * apply list_fmap_ext. intros i x _. unfold compose. simpl. by rewrite ?Hr.
    + intros [Hall ->]. split.
      * intros j Hj. replace (S k + j) with (k + S j) by lia. apply Hall. lia.
      * apply list_fmap_ext. intros i x _. unfold compose. simpl. by rewrite ?Hr.
  - split; [done|]. intros [Hall _]. destruct (Hall 0) as [x Hx]; [lia|].
    rewrite Nat.add_0_r in Hx. congruence.
Qed.

Lemma split_secret_Ok rand secret total threshold shares :
  split_secret rand secret total threshold = Ok shares ↔
  1 ≤ u8_nat threshold ≤ u8_nat total
  ∧ (∀ j, j < length secret → is_Some (rand j (u8_nat threshold - 1)))
  ∧ shares = deal (λ j, default [] (rand j (u8_nat threshold - 1))) 0 secret
               <$> blank_shares total threshold.
Proof.
  unfold split_secret. rewrite <- validate_Ok_iff.
  destruct (validate_share_parameters total threshold) as [[]|]; simpl; [|naive_solver].
  rewrite split_loop_Ok. naive_solver.
Qed.

(** ** The indexes dealt *)
Lemma u8_nat_bound b : u8_nat b < 256.
Proof. unfold u8_nat. pose proof (Byte.to_N_bounded b). lia. Qed.

Lemma elem_of_blank total threshold sh :
  sh ∈ blank_shares total threshold →
  SecretShare.total sh = total ∧ SecretShare.threshold sh = threshold
  ∧ length (SecretShare.value sh) = SHARE_SECRET_BYTES ∧ SecretShare.index sh ≠ x00.
Proof.
  intros (i & -> & Hi%elem_of_seq)%list_elem_of_fmap. simpl.
  split_and!; [done..|]. intros E%(f_equal Byte.to_N).
  pose proof (u8_nat_bound total). rewrite to_N_wrap in E by lia. simpl in E. lia.
Qed.

(** ** Masking polynomials, for secrecy *)

(** The coefficients of [k + (x + z) * p(x)]. *)
Fixpoint mul_linear (z carry : u8) (p : list u8) : list u8 :=
  match p with
  | [] => [carry]
  | c :: p => U8.xor (gf_mul z c) carry :: mul_linear z c p
  end.

Lemma eval_mul_linear z k p x :
  eval (mul_linear z k p) x = U8.xor k (gf_mul (U8.xor x z) (eval p x)).
Proof. revert k. induction p as [|c p IH]; intros k; simpl; [ring|]. rewrite IH. ring. Qed.

Lemma length_mul_linear z k p : length (mul_linear z k p) = S (length p).
Proof. revert k. induction p as [|c p IH]; intros k; simpl; [done|]. by rewrite IH. Qed.

(** A polynomial with value [c0] at zero that vanishes on [xs]. *)
Fixpoint mask (c0 : u8) (xs : list u8) : list u8 :=
  match xs with
  | [] => [c0]
  | z :: xs => mul_linear z x00 (gf_mul (gf_inv z) <$> mask c0 xs)
  end.

Lemma eval_scale c p x : eval (gf_mul c <$> p) x = gf_mul c (eval p x).
Proof. induction p as [|a p IH]; csimpl; [ring|]. rewrite IH. ring. Qed.

Lemma length_mask c0 xs : length (mask c0 xs) = S (length xs).
Proof. induction xs as [|z xs IH]; simpl; [done|]. by rewrite length_mul_linear, length_fmap, IH. Qed.

Lemma eval_mask_0 c0 xs : x00 ∉ xs → eval (mask c0 xs) x00 = c0.
Proof.
  induction xs as [|z xs IH]; intros Hz; csimpl; [ring|].
  rewrite eval_mul_linear, eval_scale, IH by set_solver.
  assert (z ≠ x00) by set_solver. field. done.
Qed.

Lemma eval_mask c0 xs x : x ∈ xs → eval (mask c0 xs) x = x00.
Proof.
  induction xs as [|z xs IH]; intros Hx; [by apply not_elem_of_nil in Hx|]. csimpl.
  rewrite eval_mul_linear, eval_scale. apply elem_of_cons in Hx as [->|Hx].
  - rewrite xor_nil. ring.
  - rewrite IH by done. ring.
Qed.

Lemma eval_zip p q x :
  length p = length q → eval (zip_with U8.xor p q) x = U8.xor (eval p x) (eval q x).
Proof.
  revert q. induction p as [|a p IH]; intros [|b q] Hlen; try done; simpl.
  simpl in Hlen. rewrite IH by lia. ring.
Qed.

Lemma eval_pad p n x : eval (p ++ repeat x00 n) x = eval p x.
Proof.
  induction p as [|a p IH]; simpl; [|by rewrite IH].
  induction n as [|n IH]; simpl; [done|]. rewrite IH. ring.
Qed.

(** Fewer than [t] points say nothing about the constant term: a shift of the
    coefficients that depends on the points and the two secrets only turns the
    shares of one secret into those of the other. *)
Definition shift (s s' : u8) (xs : list u8) (t : nat) : list u8 :=
  tail (mask (U8.xor s s') xs) ++ repeat x00 (t - 1 - length xs).

Lemma length_shift s s' xs t : length xs < t → length (shift s s' xs t) = t - 1.
Proof.
  intros Hlen. unfold shift. pose proof (length_mask (U8.xor s s') xs) as Hl.
  destruct (mask _ xs); [done|]. simpl in *. rewrite length_app, repeat_length. lia.
Qed.

Lemma eval_shift s s' xs t cs x :
  x00 ∉ xs → length xs < t → length cs = t - 1 → x ∈ xs →
  eval (s' :: zip_with U8.xor cs (shift s s' xs t)) x = eval (s :: cs) x.
Proof.
  intros Hz Hlen Hcs Hin. pose proof (length_shift s s' xs t Hlen) as Hd.
  pose proof (eval_mask_0 (U8.xor s s') xs Hz) as H0.
  pose proof (eval_mask (U8.xor s s') xs x Hin) as Hx. simpl. rewrite eval_zip by lia.
  pose proof (length_mask (U8.xor s s') xs) as Hl.
  unfold shift in *. destruct (mask (U8.xor s s') xs) as [|d0 d]; simpl in *; [done|].
  rewrite eval_pad. assert (d0 = U8.xor s s') as -> by (rewrite <- H0; ring).
  transitivity (U8.xor (U8.xor s (gf_mul x (eval cs x)))
                  (U8.xor (U8.xor s s') (gf_mul x (eval d x)))).
  - transitivity (U8.xor (U8.xor s' (gf_mul x (U8.xor (eval cs x) (eval d x)))) (U8.xor s s));
      [rewrite xor_nil; ring|ring].
  - rewrite Hx. ring.
Qed.

(** Two dealings with equal bytes give equal shares. *)
Lemma deal_ext css css' secret secret' b :
  length secret = length (SecretShare.value b) → length secret' = length (SecretShare.value b) →
  (∀ j s s', secret !! j = Some s → secret' !! j = Some s' →
     eval (s :: css j) (SecretShare.index b) = eval (s' :: css' j) (SecretShare.index b)) →
  deal css 0 secret b = deal css' 0 secret' b.
Proof.
  intros Hl Hl' E.
  pose proof (deal_fields css 0 secret b) as (F1 & F2 & F3 & F4).
  pose proof (deal_fields css' 0 secret' b) as (G1 & G2 & G3 & G4).
  assert (SecretShare.value (deal css 0 secret b) = SecretShare.value (deal css' 0 secret' b)) as Ev.
  { apply list_eq. intros j. destruct (decide (j < length secret)) as [Hj|Hj].
    - destruct (lookup_lt_is_Some_2 secret j Hj) as [s Hs].
      destruct (lookup_lt_is_Some_2 secret' j) as [s' Hs']; [lia|].
      rewrite (deal_byte css secret b j s Hs), (deal_byte css' secret' b j s' Hs') by lia.
      f_equal. by apply E.
    - rewrite !lookup_ge_None_2 by lia. done. }
  destruct (deal css 0 secret b), (deal css' 0 secret' b). simpl in *. congruence.
Qed.

(** ** Properties *)

(** The byte loops are field arithmetic: with exclusive or as addition,
    [gf_mul] is associative, commutative, distributes over addition and has unit
    1; [gf_inverse] terminates, fails exactly on zero, and otherwise returns the
    multiplicative inverse. *)
Theorem gf256_field (a b c : u8) :
  gf_mul a (gf_mul b c) = gf_mul (gf_mul a b) c
  ∧ gf_mul a b = gf_mul b a
  ∧ gf_mul a (U8.xor b c) = U8.xor (gf_mul a b) (gf_mul a c)
  ∧ gf_mul x01 a = a
  ∧ match gf_inverse a with
    | Ok i => a ≠ x00 ∧ gf_mul i a = x01
    | Err e => a = x00 ∧ e = "zero has no inverse in GF(256)"
    end.
Proof.
  split_and!; [apply gf_mul_assoc|apply gf_mul_comm|apply gf_mul_add_r|apply gf_mul_1_l|].
  destruct (decide (a = x00)) as [->|Ha]; [by vm_compute|].
  by destruct (gf_inverse_Ok a Ha) as [-> ?].
Qed.

(** Shares of one split determine the secret. *)
Lemma combine_dealt (rand : nat → nat → option (list u8)) (secret : list u8)
    (total threshold : u8) (shares sel : list SecretShare) :
  (∀ i n l, rand i n = Some l → length l = n) →
  length secret = SHARE_SECRET_BYTES →
  split_secret rand secret total threshold = Ok shares →
  (∀ sh, sh ∈ sel → sh ∈ shares) → NoDup (indexes sel) →
  u8_nat threshold ≤ length sel →
  combine_shares sel = Ok secret.
Proof.
  intros Hrand Hsecret (Hpar & Hav & ->)%split_secret_Ok Hsel Hnd Hlen.
  set (css := λ j, default [] (rand j (u8_nat threshold - 1))) in *.
  assert (∀ sh, sh ∈ sel → ∃ b, sh = deal css 0 secret b ∧
    SecretShare.total b = total ∧ SecretShare.threshold b = threshold
    ∧ length (SecretShare.value b) = SHARE_SECRET_BYTES) as Hsh.
  { intros sh (b & -> & Hb)%Hsel%list_elem_of_fmap. exists b.
    destruct (elem_of_blank _ _ _ Hb) as (? & ? & ? & _). done. }
  destruct sel as [|first sel']; [simpl in Hlen; lia|]. set (sel := first :: sel') in *.
  assert (SecretShare.total first = total ∧ SecretShare.threshold first = threshold) as [Ht Hth].
  { destruct (Hsh first) as (b & -> & <- & <- & _); [subst sel; left|].
    destruct (deal_fields css 0 secret b) as (? & ? & _). done. }
  unfold combine_shares. cbn [head ok_or sel]. rewrite Ht, Hth, (proj2 (validate_Ok_iff _ _) Hpar).
  destruct (Nat.ltb_spec (length sel) (u8_nat threshold)); [lia|]. set (selected := take (u8_nat threshold) sel).
  assert (∀ sh, sh ∈ selected → sh ∈ sel) as Hsub by (intros sh; apply subseteq_take).
  assert (NoDup (indexes selected)) as Hnd'.
  { subst selected. rewrite fmap_take. eapply sublist_NoDup; [exact Hnd|apply sublist_take]. }
  rewrite (proj2 (check_selected_Ok first [] selected (NoDup_nil_2))).
  2:{ split; [|done]. apply Forall_forall. intros sh (b & -> & Hbt & Hbh & _)%Hsub%Hsh.
      destruct (deal_fields css 0 secret b) as (E1 & E2 & _). split; congruence. }
  rewrite secret_loop_interpolated by done. f_equal.
  apply list_eq. intros j. rewrite list_lookup_fmap, <- Hsecret.
  destruct (decide (j < length secret)) as [Hj|Hj].
  2:{ rewrite lookup_ge_None_2 by (rewrite length_seq; lia). by rewrite lookup_ge_None_2 by lia. }
  rewrite lookup_seq_lt by done. simpl.
  destruct (lookup_lt_is_Some_2 secret j Hj) as [s Hs]. rewrite Hs. f_equal.
  destruct (Hav j Hj) as [cs Hcs].
  rewrite (interpolated_eval j selected (s :: css j)); [simpl; ring|done| |].
  - subst css. simpl. rewrite Hcs. simpl. rewrite (Hrand _ _ _ Hcs).
    subst selected. rewrite length_take. simpl in *. lia.
  - intros sh (b & -> & _ & _ & Hb)%Hsub%Hsh.
    destruct (deal_fields css 0 secret b) as (_ & _ & -> & _).
    apply (deal_byte css secret b j s Hs). by rewrite Hb, Hsecret.
Qed.

(** C10: Any threshold of distinct shares reconstructs the secret.  Whatever
    coefficients the generator delivered, combining shares dealt by
    [split_secret], in any order and any number at or above the threshold, with
    distinct indexes, returns exactly the secret that was split. *)
Theorem shamir_reconstruction (rand : nat → nat → option (list u8)) (secret : list u8)
    (total threshold : u8) (shares sel : list SecretShare) :
  (∀ i n l, rand i n = Some l → length l = n) →
  length secret = SHARE_SECRET_BYTES →
  split_secret rand secret total threshold = Ok shares →
  (∀ sh, sh ∈ sel → sh ∈ shares) → NoDup (indexes sel) →
  u8_nat threshold ≤ length sel →
  combine_shares sel = Ok secret.
Proof. intros Hrand Hsecret Hsplit Hsel Hnd Hlen. by eapply (combine_dealt rand). Qed.

(** C35: Fewer shares than the threshold carry no information.  For any two
    secrets and any set of fewer than [threshold] parties there is a fixed shift
    of the random coefficients, independent of their values, that turns every
    split of the first secret into a split of the second in which these parties
    hold identical shares; as a shift permutes the coefficients, the shares the
    parties see are equally likely for both secrets. *)
Theorem shamir_secrecy (secret secret' : list u8) (total threshold : u8) (parties : list nat) :
  length secret = SHARE_SECRET_BYTES → length secret' = SHARE_SECRET_BYTES →
  length parties < u8_nat threshold →
  ∃ d : nat → list u8, (∀ j, length (d j) = u8_nat threshold - 1) ∧
    ∀ rand shares, (∀ i n l, rand i n = Some l → length l = n) →
      split_secret rand secret total threshold = Ok shares →
      ∃ shares',
        split_secret (λ j n, (λ cs, zip_with U8.xor cs (d j)) <$> rand j n)
          secret' total threshold = Ok shares'
        ∧ ∀ i, i ∈ parties → shares' !! i = shares !! i.
Proof.
  intros Hs Hs' Hp.
  set (xs := (λ i, default x01 (SecretShare.index <$> blank_shares total threshold !! i)) <$> parties).
  assert (length xs < u8_nat threshold) as Hlx by (subst xs; by rewrite length_fmap).
  assert (x00 ∉ xs) as Hxs.
  { intros (i & E & _)%list_elem_of_fmap. destruct (_ !! i) as [b|] eqn:Hb; [|done].
    apply list_elem_of_lookup_2, elem_of_blank in Hb as (_ & _ & _ & Hne). simpl in E. congruence. }
  exists (λ j, shift (default x00 (secret !! j)) (default x00 (secret' !! j)) xs (u8_nat threshold)).
  split; [intros j; by apply length_shift|].
  intros rand shares Hrand (Hpar & Hav & ->)%split_secret_Ok.
  eexists. split; [apply split_secret_Ok; split_and!; [lia..| |reflexivity]|].
  { intros j Hj. rewrite fmap_is_Some. apply Hav. lia. }
  intros i Hi. rewrite !list_lookup_fmap.
  destruct (blank_shares total threshold !! i) as [b|] eqn:Hb; [|done]. simpl. f_equal.
  pose proof (list_elem_of_lookup_2 _ _ _ Hb) as (_ & _ & Hlen & _)%elem_of_blank.
  apply deal_ext; [congruence..|]. intros j s' s Hj' Hj. rewrite Hj, Hj'. simpl default.
  destruct (Hav j) as [cs Hcs]; [by eapply lookup_lt_Some|]. rewrite Hcs. csimpl.
  apply (eval_shift s s' xs (u8_nat threshold)); [done..|by eapply Hrand|].
  apply list_elem_of_fmap. exists i. by rewrite Hb.
Qed.

(** [combine_shares] succeeds exactly on usable inputs: a first share with
    valid parameters, at least its threshold of shares, and among the first
    threshold many equal parameters and distinct indexes.  In particular a
    duplicate among them is always refused, the field inversions never fail,
    and the result has 32 bytes. *)
Theorem combine_shares_accepts (shares : list SecretShare) :
  match combine_shares shares with
  | Ok secret => length secret = SHARE_SECRET_BYTES ∧ ∃ first rest, shares = first :: rest
      ∧ 1 ≤ u8_nat (SecretShare.threshold first) ≤ u8_nat (SecretShare.total first)
      ∧ u8_nat (SecretShare.threshold first) ≤ length shares
      ∧ Forall (same_parameters first) (take (u8_nat (SecretShare.threshold first)) shares)
      ∧ NoDup (indexes (take (u8_nat (SecretShare.threshold first)) shares))
  | Err _ => ∀ first rest, shares = first :: rest →
      1 ≤ u8_nat (SecretShare.threshold first) ≤ u8_nat (SecretShare.total first) →
      u8_nat (SecretShare.threshold first) ≤ length shares →
      Forall (same_parameters first) (take (u8_nat (SecretShare.threshold first)) shares) →
      ¬ NoDup (indexes (take (u8_nat (SecretShare.threshold first)) shares))
  end.
Proof.
  destruct shares as [|first rest]; [done|]. unfold combine_shares. cbn [head ok_or].
  set (shares := first :: rest). set (t := u8_nat (SecretShare.threshold first)).
  destruct (validate_share_parameters _ _) as [[]|] eqn:Hv.
  2:{ intros ? ? [= <- <-] Hpar. apply validate_Ok_iff in Hpar. congruence. }
  apply validate_Ok_iff in Hv. destruct (Nat.ltb_spec (length shares) t) as [Hl|Hl].
  { intros ? ? [= <- <-] _. fold t. lia. }
  pose proof (check_selected_Ok first [] (take t shares) NoDup_nil_2) as Hc.
  destruct (check_selected first [] (take t shares)) as [[]|].
  - destruct (proj1 Hc eq_refl) as [Hpar Hnd]. rewrite secret_loop_interpolated by done.
    split; [by rewrite length_fmap, length_seq|]. by exists first, rest.
  - intros ? ? [= <- <-] _ _ Hpar Hnd. fold t in Hpar, Hnd. discriminate (proj2 Hc (conj Hpar Hnd)).
Qed.

(** * The share format *)
Record share_wf (sh : SecretShare) : Prop := {
  wf_value : length (SecretShare.value sh) = SHARE_SECRET_BYTES;
  wf_parameters :
    1 ≤ u8_nat (SecretShare.threshold sh) ≤ u8_nat (SecretShare.total sh);
  wf_index : 1 ≤ u8_nat (SecretShare.index sh) ≤ u8_nat (SecretShare.total sh);
}.

(** The layout of an accepted encoding. *)
Lemma decode_layout (e : list u8) :
  length e = SHARE_BYTES → take (length SHARE_MAGIC) e = SHARE_MAGIC →
  ∃ total threshold index value check,
    e = (SHARE_MAGIC ++ [total; threshold; index] ++ value) ++ check
    ∧ length value = SHARE_SECRET_BYTES ∧ length check = SHARE_CHECKSUM_BYTES.
Proof.
  intros Hlen Hmagic. rewrite <- (take_drop (length SHARE_MAGIC) e), Hmagic.
  remember (drop (length SHARE_MAGIC) e) as rest eqn:Hr.
  assert (length rest = 39) as Hl by (subst; rewrite length_drop, Hlen; reflexivity).
  destruct rest as [|a [|b [|c rest]]]; try discriminate Hl.
  exists a, b, c, (take 32 rest), (drop 32 rest). simpl in Hl.
  split; [rewrite <- !app_assoc; simpl; by rewrite take_drop|].
  rewrite length_take, length_drop. unfold SHARE_SECRET_BYTES, SHARE_CHECKSUM_BYTES. lia.
Qed.

Definition share_body (sh : SecretShare) : list u8 :=
  SHARE_MAGIC ++ [SecretShare.total sh; SecretShare.threshold sh; SecretShare.index sh]
  ++ SecretShare.value sh.

(** [decode] on a body with its checksum field. *)
Lemma decode_body sha256 sh check :
  length (SecretShare.value sh) = SHARE_SECRET_BYTES → length check = SHARE_CHECKSUM_BYTES →
  decode sha256 (share_body sh ++ check) =
  if negb (bool_decide (check = take SHARE_CHECKSUM_BYTES (share_checksum sha256 (share_body sh))))
  then Err "invalid Shamir share checksum"
  else
    let? _ := validate_share_parameters (SecretShare.total sh) (SecretShare.threshold sh) in
    if (u8_nat (SecretShare.index sh) =? 0)
       || (u8_nat (SecretShare.total sh) <? u8_nat (SecretShare.index sh))
    then Err "invalid Shamir share index" else Ok sh.
Proof.
  intros Hv Hc. destruct sh as [t th i value]. simpl in Hv.
  assert (length (share_body (SecretShare.mk t th i value)) = SHARE_BYTES - SHARE_CHECKSUM_BYTES) as Hb.
  { unfold share_body. rewrite !length_app. simpl SecretShare.value. rewrite Hv. reflexivity. }
  unfold decode. rewrite (proj2 (Nat.eqb_eq _ _)) by (rewrite length_app, Hb, Hc; reflexivity).
  rewrite <- Hb, take_app_length, drop_app_length.
  rewrite (bool_decide_eq_true_2 (take _ _ = SHARE_MAGIC)) by reflexivity. simpl negb at 1 2.
  cbv beta iota delta [orb]. destruct (negb _); [reflexivity|].
  change (drop 7 (share_body (SecretShare.mk t th i value) ++ check)) with (value ++ check).
  rewrite take_app_le, take_ge by lia. reflexivity.
Qed.

Lemma share_wf_checks sh :
  length (SecretShare.value sh) = SHARE_SECRET_BYTES →
  (let? _ := validate_share_parameters (SecretShare.total sh) (SecretShare.threshold sh) in
   if (u8_nat (SecretShare.index sh) =? 0)
      || (u8_nat (SecretShare.total sh) <? u8_nat (SecretShare.index sh))
   then Err "invalid Shamir share index" else Ok sh) = Ok sh ↔ share_wf sh.
Proof.
  intros Hv. pose proof (validate_Ok_iff (SecretShare.total sh) (SecretShare.threshold sh)) as Hp.
  destruct (validate_share_parameters _ _) as [[]|].
  - destruct (Nat.eqb_spec (u8_nat (SecretShare.index sh)) 0),
      (Nat.ltb_spec (u8_nat (SecretShare.total sh)) (u8_nat (SecretShare.index sh)));
      simpl; (split; [try done|intros [_ _ ?]; try done; lia]).
    intros _. split; [done|by apply Hp|lia].
  - split; [done|]. intros [_ Hpar _]. by apply Hp in Hpar.
Qed.

(** The share format round-trips and is canonical: decoding an encoded
    share gives the share back, and whatever [decode] accepts is the encoding of
    the well-formed share it returns, so a share has exactly one accepted
    encoding and every other byte string is refused. *)
Theorem share_codec (sha256 : list u8 → list u8) (sh : SecretShare) (e : list u8) :
  (∀ b, length (sha256 b) = 32) →
  (share_wf sh → decode sha256 (encode sha256 sh) = Ok sh)
  ∧ (decode sha256 e = Ok sh → share_wf sh ∧ e = encode sha256 sh).
Proof.
  intros Hsha.
  assert (∀ b, length (take SHARE_CHECKSUM_BYTES (share_checksum sha256 b)) = SHARE_CHECKSUM_BYTES)
    as Hck by (intros b; rewrite length_take; unfold share_checksum; by rewrite Hsha).
  split.
  - intros Hwf. pose proof (wf_value sh Hwf) as Hv.
    change (encode sha256 sh) with (share_body sh ++
      take SHARE_CHECKSUM_BYTES (share_checksum sha256 (share_body sh))).
    rewrite decode_body, bool_decide_eq_true_2 by done. by apply share_wf_checks.
  - intros Hd. assert (length e = SHARE_BYTES ∧ take (length SHARE_MAGIC) e = SHARE_MAGIC) as [Hl Hm].
    { unfold decode in Hd. destruct (Nat.eqb_spec (length e) SHARE_BYTES); [|done].
      case_bool_decide; done. }
    destruct (decode_layout e Hl Hm) as (t & th & i & value & check & -> & Hv & Hc).
    pose (sh0 := SecretShare.mk t th i value). change (SHARE_MAGIC ++ [t; th; i] ++ value) with (share_body sh0) in *.
    rewrite decode_body in Hd by done. case_bool_decide as Hcheck; [|done]. simpl negb in Hd.
    assert (sh0 = sh) as <-.
    { destruct (validate_share_parameters _ _); [|done]. destruct (_ || _); [done|]. congruence. }
    apply share_wf_checks in Hd; [|done]. split; [done|]. by rewrite Hcheck.
Qed.

(** * Key wrapping and the barrier *)

(** AES-256-GCM as the source uses it: key setup, sealing with an appended
    16-byte tag, and opening. *)
Class Aead := {
  Key : Type;
  unbound_key : list u8 → option Key;
  seal_in_place_append_tag : Key → list u8 → list u8 → list u8 → option (list u8);
  open_in_place : Key → list u8 → list u8 → list u8 → option (list u8);
}.

(** Documented behaviour: opening with the same key, nonce and associated data
    recovers the plaintext, and sealing adds the tag. *)
Class AeadLaws `(A : Aead) : Prop := {
  aead_open_seal : ∀ key nonce aad plain c,
    seal_in_place_append_tag key nonce aad plain = Some c →
    open_in_place key nonce aad c = Some plain;
  aead_seal_length : ∀ key nonce aad plain c,
    seal_in_place_append_tag key nonce aad plain = Some c → length c = length plain + 16;
}.

Section wrap.
Context `{A : Aead}.
(** The twelve random bytes of the call's nonce. *)
Variable random_nonce : option (list u8).

Definition wrap_barrier_key (seal_key context barrier_key : list u8) : Result (list u8) string :=
  let? key := ok_or (unbound_key seal_key) "invalid seal key" in
  let? nonce := ok_or random_nonce "operating system randomness unavailable" in
  let? ciphertext := ok_or (seal_in_place_append_tag key nonce context barrier_key)
    "cannot wrap barrier key" in
  Ok (WRAPPED_KEY_MAGIC ++ nonce ++ ciphertext).

Definition unwrap_barrier_key (seal_key context encoded : list u8) : Result (list u8) string :=
  if negb (length encoded =? length WRAPPED_KEY_MAGIC + 12 + 32 + 16)
     || negb (bool_decide (take (length WRAPPED_KEY_MAGIC) encoded = WRAPPED_KEY_MAGIC))
  then Err "invalid wrapped barrier key format"
  else
    let? key := ok_or (unbound_key seal_key) "invalid seal key" in
    let nonce := take 12 (drop 4 encoded) in
    let ciphertext := drop 16 encoded in
    let? result := ok_or (open_in_place key nonce context ciphertext)
      "seal key authentication failed" in
    if negb (length result =? 32) then Err "invalid wrapped barrier key length"
    else Ok result.

(** [AeadBarrier::seal] and [AeadBarrier::open]; [None] is [BarrierError]. *)
Definition barrier_seal (key : Key) (context plaintext : list u8) : option (list u8) :=
  match random_nonce with
  | None => None
  | Some nonce =>
      match seal_in_place_append_tag key nonce context plaintext with
      | None => None
      | Some output => Some (BARRIER_MAGIC ++ nonce ++ output)
      end
  end.

Definition barrier_open (key : Key) (context protected : list u8) : option (list u8) :=
  if (length protected <? 32) || negb (bool_decide (take 4 protected = BARRIER_MAGIC)) then None
  else open_in_place key (take 12 (drop 4 protected)) context (drop 16 protected).

(** A magic, a nonce of twelve bytes and the rest. *)
Lemma envelope_parts (magic nonce rest : list u8) :
  length magic = 4 → length nonce = 12 →
  take 4 (magic ++ nonce ++ rest) = magic
  ∧ take 12 (drop 4 (magic ++ nonce ++ rest)) = nonce
  ∧ drop 16 (magic ++ nonce ++ rest) = rest.
Proof.
  intros Hm Hn. split_and!.
  - pose proof (take_app_length magic (nonce ++ rest)) as E. by rewrite Hm in E.
  - pose proof (drop_app_length magic (nonce ++ rest)) as E. rewrite Hm in E. rewrite E.
    pose proof (take_app_length nonce rest) as E'. by rewrite Hn in E'.
  - replace 16 with (length (magic ++ nonce)) by (rewrite length_app; lia).
    rewrite app_assoc. apply drop_app_length.
Qed.

Lemma unwrap_wrapped (Laws : AeadLaws A) seal_key context bk e :
  (∀ n, random_nonce = Some n → length n = 12) → length bk = 32 →
  wrap_barrier_key seal_key context bk = Ok e → unwrap_barrier_key seal_key context e = Ok bk.
Proof.
  intros Hn Hbk Hw. unfold wrap_barrier_key in Hw. unfold unwrap_barrier_key.
  destruct (unbound_key seal_key) as [key|]; simpl in Hw; [|discriminate Hw].
  destruct random_nonce as [n|]; simpl in Hw; [|discriminate Hw]. specialize (Hn n eq_refl).
  destruct (seal_in_place_append_tag key n context bk) as [c|] eqn:Hs; simpl in Hw;
    [|discriminate Hw].
  assert (e = WRAPPED_KEY_MAGIC ++ n ++ c) as -> by (injection Hw as <-; done).
  pose proof (aead_seal_length _ _ _ _ _ Hs) as Hc.
  destruct (envelope_parts WRAPPED_KEY_MAGIC n c eq_refl Hn) as (E1 & E2 & E3).
  change (length WRAPPED_KEY_MAGIC) with 4. rewrite E1, E2, E3, bool_decide_eq_true_2 by done.
  rewrite (proj2 (Nat.eqb_eq _ _)) by (rewrite !length_app, Hn, Hc, Hbk; reflexivity).
  simpl. rewrite (aead_open_seal _ _ _ _ _ Hs). simpl. by rewrite Hbk.
Qed.

(** Sealed keys and records open again.  With an AEAD cipher that recovers
    what it sealed, a barrier key wrapped under a seal key and context is
    unwrapped to itself, and what the barrier seals it opens, whatever the
    nonce; everything [unwrap_barrier_key] returns has been authenticated by
    the cipher under that context and has 32 bytes. *)
Theorem barrier_key_roundtrip (Laws : AeadLaws A) (seal_key context : list u8) :
  (∀ n, random_nonce = Some n → length n = 12) →
  (∀ barrier_key e, length barrier_key = 32 →
     wrap_barrier_key seal_key context barrier_key = Ok e →
     unwrap_barrier_key seal_key context e = Ok barrier_key)
  ∧ (∀ key plain p, barrier_seal key context plain = Some p →
       barrier_open key context p = Some plain)
  ∧ (∀ e k, unwrap_barrier_key seal_key context e = Ok k →
       length k = 32 ∧ ∃ key, unbound_key seal_key = Some key
         ∧ open_in_place key (take 12 (drop 4 e)) context (drop 16 e) = Some k).
Proof.
  intros Hn. split_and!.
  - intros bk e. by apply unwrap_wrapped.
  - intros key plain p. unfold barrier_seal, barrier_open.
    destruct random_nonce as [n|]; [|done]. specialize (Hn n eq_refl).
    destruct (seal_in_place_append_tag key n context plain) as [c|] eqn:Hs; [|done]. intros Hp.
    assert (p = BARRIER_MAGIC ++ n ++ c) as -> by (injection Hp as <-; done).
    pose proof (aead_seal_length _ _ _ _ _ Hs) as Hc.
    destruct (envelope_parts BARRIER_MAGIC n c eq_refl Hn) as (E1 & E2 & E3).
    rewrite E1, E2, E3, bool_decide_eq_true_2 by done.
    rewrite (proj2 (Nat.ltb_ge _ _)) by (rewrite !length_app, Hn, Hc; simpl; lia).
    by apply aead_open_seal.
  - intros e k. unfold unwrap_barrier_key. destruct (_ || _); [done|].
    destruct (unbound_key seal_key) as [key|]; [|done]. simpl.
    destruct (open_in_place _ _ _ _) as [r|] eqn:Ho; [|done]. simpl.
    destruct (Nat.eqb_spec (length r) 32); [|done]. intros [= <-]. eauto.
Qed.
End wrap.

(** * Concrete instances *)
Module ShamirDemo.
Definition rand (i n : nat) : option (list u8) := Some (repeat x5a n).
Definition secret : list u8 := repeat x41 32.
Definition shares : list SecretShare :=
  match split_secret rand secret x03 x02 with Ok l => l | Err _ => [] end.
Definition sel : list SecretShare := reverse (drop 1 shares).
Definition hash (b : list u8) : list u8 := repeat (foldr U8.xor x00 b) 32.

(** A cipher that authenticates by a tag only: enough to show the laws hold of
    something. *)
Definition tag (key nonce aad : list u8) : list u8 :=
  repeat (foldr U8.xor x00 (key ++ nonce ++ aad)) 16.
#[export] Instance toy_aead : Aead := {|
  Key := list u8;
  unbound_key k := if length k =? 32 then Some k else None;
  seal_in_place_append_tag k n a p := Some (p ++ tag k n a);
  open_in_place k n a c :=
    if bool_decide (drop (length c - 16) c = tag k n a) then Some (take (length c - 16) c) else None;
|}.

#[export] Instance toy_laws : AeadLaws toy_aead.
Proof.
  split; simpl; intros key nonce aad plain c [= <-].
  - assert (length (plain ++ tag key nonce aad) - 16 = length plain) as ->.
    { rewrite length_app. unfold tag. rewrite repeat_length. lia. }
    rewrite drop_app_length, take_app_length. by rewrite bool_decide_eq_true_2.
  - rewrite length_app. unfold tag. by rewrite repeat_length.
Qed.
End ShamirDemo.

Lemma shamir_reconstruction_witness : combine_shares ShamirDemo.sel = Ok ShamirDemo.secret.
Proof.
  apply (shamir_reconstruction ShamirDemo.rand ShamirDemo.secret x03 x02 ShamirDemo.shares).
  - intros i n l E. injection E as <-. apply repeat_length.
  - reflexivity.
  - vm_compute. reflexivity.
  - unfold ShamirDemo.sel. generalize ShamirDemo.shares. intros l sh Hsh.
    apply (subseteq_drop 1 l). set_unfold in Hsh. exact Hsh.
  - refine (bool_decide_unpack _ _). vm_compute. exact I.
  - vm_compute. repeat constructor.
Defined.

Lemma shamir_secrecy_witness :
  ∃ d : nat → list u8, ∀ j, length (d j) = u8_nat x02 - 1.
Proof.
  destruct (shamir_secrecy ShamirDemo.secret (repeat x42 32) x03 x02 [1]) as (d & Hd & _);
    [reflexivity|reflexivity|vm_compute; repeat constructor|].
  exists d. exact Hd.
Defined.

Lemma share_codec_witness :
  decode ShamirDemo.hash (encode ShamirDemo.hash (SecretShare.mk x03 x02 x01 ShamirDemo.secret))
  = Ok (SecretShare.mk x03 x02 x01 ShamirDemo.secret).
Proof.
  apply (share_codec ShamirDemo.hash (SecretShare.mk x03 x02 x01 ShamirDemo.secret) []).
  - intros b. apply repeat_length.
  - split; [reflexivity|vm_compute; split; repeat constructor..].
Defined.

Definition demo_wrapped : list u8 :=
  match wrap_barrier_key (A:=ShamirDemo.toy_aead) (Some (repeat x07 12)) (repeat x01 32) [x09] (repeat x02 32) with
  | Ok e => e | Err _ => []
  end.

Lemma barrier_key_roundtrip_witness :
  unwrap_barrier_key (A:=ShamirDemo.toy_aead) (repeat x01 32) [x09] demo_wrapped = Ok (repeat x02 32).
Proof.
  destruct (barrier_key_roundtrip (Some (repeat x07 12)) ShamirDemo.toy_laws (repeat x01 32) [x09])
    as (Hw & _); [intros n E; injection E as <-; reflexivity|].
  apply Hw; [reflexivity|]. vm_compute. reflexivity.
Defined.
