(* ===== verification/Bytes.v ===== *)
(** Fixed-width integers in either byte order, [to_be_bytes], [to_le_bytes] and
    their inverses, and slices of byte strings, shared by the binary formats. *)
From Stdlib Require Import Ascii NArith Strings.Byte.
From S2P Require Import Prelude Gf256.

(** [uW::to_be_bytes] for [W = 8 * width]; higher bits are lost, as in a cast. *)
Fixpoint be_bytes (width : nat) (n : N) : list u8 :=
  match width with
  | O => []
  | S width => be_bytes width (n / 256) ++ [U8.wrap n]
  end.

(** [uW::from_be_bytes]. *)
Definition of_be (bytes : list u8) : N := foldl (λ acc b, (acc * 256 + U8.to_N b)%N) 0%N bytes.

(** [uW::to_le_bytes] and [uW::from_le_bytes]. *)
Fixpoint le_bytes (width : nat) (n : N) : list u8 :=
  match width with
  | O => []
  | S width => U8.wrap n :: le_bytes width (n / 256)
  end.

Definition of_le (bytes : list u8) : N := foldr (λ b acc, (U8.to_N b + 256 * acc)%N) 0%N bytes.

(** [&bytes[from..from + len]]; the callers check the bounds. *)
Definition slice (from len : nat) (bytes : list u8) : list u8 := take len (drop from bytes).

Lemma be_bytes_length width n : length (be_bytes width n) = width.
Proof. revert n. induction width as [|w IH]; intros n; simpl; [done|]. rewrite length_app, IH. simpl. lia. Qed.

Lemma wrap_to_N n : U8.to_N (U8.wrap n) = (n mod 256)%N.
Proof.
  assert (U8.wrap n = U8.wrap (n mod 256)) as -> by (unfold U8.wrap; by rewrite N.Div0.mod_mod).
  apply to_N_wrap. by apply N.mod_lt.
Qed.

Lemma of_be_snoc l b : of_be (l ++ [b]) = (of_be l * 256 + U8.to_N b)%N.
Proof. unfold of_be. by rewrite foldl_app. Qed.

Lemma of_be_bytes width n : of_be (be_bytes width n) = (n mod 256 ^ N.of_nat width)%N.
Proof.
  revert n. induction width as [|w IH]; intros n; [symmetry; apply N.mod_1_r|].
  cbn [be_bytes]. rewrite of_be_snoc, IH, wrap_to_N, Nat2N.inj_succ, N.pow_succ_r'.
  rewrite N.Div0.mod_mul_r. lia.
Qed.

Lemma of_be_bytes_small width n : (n < 256 ^ N.of_nat width)%N → of_be (be_bytes width n) = n.
Proof. intros. rewrite of_be_bytes. by apply N.mod_small. Qed.

Lemma be_bytes_inj width m n :
  (m < 256 ^ N.of_nat width)%N → (n < 256 ^ N.of_nat width)%N → be_bytes width m = be_bytes width n → m = n.
Proof. intros Hm Hn He. by rewrite <- (of_be_bytes_small width m), <- (of_be_bytes_small width n), He. Qed.

Lemma le_bytes_length width n : length (le_bytes width n) = width.
Proof. revert n. induction width as [|w IH]; intros n; simpl; [done|]. by rewrite IH. Qed.

Lemma of_le_bytes width n : of_le (le_bytes width n) = (n mod 256 ^ N.of_nat width)%N.
Proof.
  revert n. induction width as [|w IH]; intros n; [symmetry; apply N.mod_1_r|].
  cbn [le_bytes of_le foldr]. fold (of_le (le_bytes w (n / 256))).
  rewrite IH, wrap_to_N, Nat2N.inj_succ, N.pow_succ_r', N.Div0.mod_mul_r. lia.
Qed.

Lemma of_le_bytes_small width n : (n < 256 ^ N.of_nat width)%N → of_le (le_bytes width n) = n.
Proof. intros. rewrite of_le_bytes. by apply N.mod_small. Qed.

(** Reading back a field of a record that starts with [pre]. *)
Lemma slice_app pre mid post n len :
  length pre = n → length mid = len → slice n len (pre ++ mid ++ post) = mid.
Proof. intros <- <-. unfold slice. by rewrite drop_app_length, take_app_length. Qed.

Lemma slice_length from len bytes : from + len ≤ length bytes → length (slice from len bytes) = len.
Proof. intros. unfold slice. rewrite length_take, length_drop. lia. Qed.

#[export] Instance u8_countable : Countable u8.
Proof.
  apply (inj_countable Byte.to_N Byte.of_N). intros b. apply Byte.of_to_N.
Defined.
