(* ===== verification/Json.v ===== *)
(** JSON values as the secret engines use them ([serde_json::Value]), and the
    two recursive operations of [engines/kv.rs] on them: [merge_patch] and
    [strip_values].

    An object is [serde_json]'s default map, a [BTreeMap<String, Value>]; here it
    is an association list in strictly ascending key order ([value_wf]).
    Numbers keep the three cases of [serde_json::Number]; a float is kept as its
    text, since the engines never compute with one. *)
From Stdlib Require Import Ascii NArith ZArith.
From S2P Require Import Prelude Str.

Inductive Number : Type :=
| PosInt (n : N)
| NegInt (z : Z)
| Float (text : string).

Inductive Value : Type :=
| Null
| VBool (b : bool)
| VNumber (n : Number)
| VString (s : string)
| VArray (items : list Value)
| VObject (map : list (string * Value)).

#[export] Instance Number_eq_dec : EqDecision Number.
Proof. solve_decision. Defined.

(** Equality of values, [==] on [serde_json::Value]. *)
#[export] Instance Value_eq_dec : EqDecision Value.
Proof.
  refine (fix go (x y : Value) : Decision (x = y) :=
    let _ : EqDecision Value := go in
    match x, y with
    | Null, Null => left eq_refl
    | VBool a, VBool b => cast_if (decide (a = b))
    | VNumber a, VNumber b => cast_if (decide (a = b))
    | VString a, VString b => cast_if (decide (a = b))
    | VArray a, VArray b => cast_if (decide (a = b))
    | VObject a, VObject b => cast_if (decide (a = b))
    | _, _ => right _
    end); congruence.
Defined.

(** * Ordered maps *)
Section omap.
Context {V : Type}.

Fixpoint obj_get (k : string) (m : list (string * V)) : option V :=
  match m with
  | [] => None
  | (k', v) :: m => if decide (k = k') then Some v else obj_get k m
  end.

Fixpoint obj_insert (k : string) (v : V) (m : list (string * V)) : list (string * V) :=
  match m with
  | [] => [(k, v)]
  | (k', v') :: m' =>
      if decide (k = k') then (k, v) :: m'
      else if decide (rust_le k k') then (k, v) :: m
      else (k', v') :: obj_insert k v m'
  end.

Fixpoint obj_remove (k : string) (m : list (string * V)) : list (string * V) :=
  match m with
  | [] => []
  | (k', v') :: m' => if decide (k = k') then m' else (k', v') :: obj_remove k m'
  end.

Definition obj_of (l : list (string * V)) : list (string * V) :=
  foldl (λ m kv, obj_insert kv.1 kv.2 m) [] l.

(** Strictly ascending keys. *)
Definition key_lt (x y : string * V) : Prop := rust_le x.1 y.1 ∧ x.1 ≠ y.1.
Definition obj_sorted (m : list (string * V)) : Prop := StronglySorted key_lt m.

Lemma key_lt_trans x y z : key_lt x y → key_lt y z → key_lt x z.
Proof.
  intros [H1 N1] [H2 N2]. split; [by etrans|]. intros E. apply N1. rewrite <- E in H2.
  by apply (anti_symm rust_le).
Qed.

Lemma obj_get_None_lt k m : Forall (λ x, rust_le k x.1 ∧ k ≠ x.1) m → obj_get k m = None.
Proof.
  induction 1 as [|[k' v] m [_ Hne] _ IH]; simpl; [done|]. by rewrite decide_False.
Qed.

Lemma obj_get_insert k v m k' :
  obj_get k' (obj_insert k v m) = if decide (k' = k) then Some v else obj_get k' m.
Proof.
  induction m as [|[j w] m IH]; simpl; [done|].
  destruct (decide (k = j)) as [->|Hkj]; simpl; [by case_decide|].
  destruct (decide (rust_le k j)); simpl; [done|].
  destruct (decide (k' = j)) as [->|]; [by rewrite decide_False by done|done].
Qed.

Lemma obj_insert_Forall (P : string * V → Prop) k v m :
  P (k, v) → Forall P m → Forall P (obj_insert k v m).
Proof.
  intros Hk HP. induction HP as [|[j w] m Hj HP IH]; simpl; [by constructor|].
  repeat case_decide; repeat constructor; auto.
Qed.

Lemma obj_insert_sorted k v m : obj_sorted m → obj_sorted (obj_insert k v m).
Proof.
  intros HS. induction HS as [|[j w] m HS IH Hj]; simpl; [repeat constructor|].
  destruct (decide (k = j)) as [->|Hkj]; [by constructor|].
  destruct (decide (rust_le k j)) as [Hle|Hle].
  - constructor; [by constructor|]. constructor; [done|].
    eapply Forall_impl; [exact Hj|]. intros x Hx. by eapply (key_lt_trans _ (j, w)).
  - constructor; [done|]. apply obj_insert_Forall; [|done].
    split; simpl; [|done]. destruct (total rust_le k j); done.
Qed.

Lemma obj_remove_Forall (P : string * V → Prop) k m : Forall P m → Forall P (obj_remove k m).
Proof. induction 1 as [|[j w] m]; simpl; [done|]. case_decide; [done|]. by constructor. Qed.

Lemma obj_remove_sorted k m : obj_sorted m → obj_sorted (obj_remove k m).
Proof.
  induction 1 as [|[j w] m HS IH Hj]; simpl; [constructor|]. case_decide; [done|].
  constructor; [done|]. by apply obj_remove_Forall.
Qed.

Lemma obj_get_remove k m k' :
  obj_sorted m → obj_get k' (obj_remove k m) = if decide (k' = k) then None else obj_get k' m.
Proof.
  induction 1 as [|[j w] m HS IH Hj]; simpl; [by case_decide|].
  destruct (decide (k = j)) as [->|Hne]; simpl.
  - case_decide as E; [subst|done]. by apply obj_get_None_lt.
  - rewrite IH. destruct (decide (k' = j)) as [->|]; [by rewrite decide_False by done|done].
Qed.

(** Two ordered maps with the same lookups are the same list. *)
Lemma obj_ext m m' :
  obj_sorted m → obj_sorted m' → (∀ k, obj_get k m = obj_get k m') → m = m'.
Proof.
  intros HS. revert m'. induction HS as [|[j w] m HS IH Hj]; intros m' HS' E.
  - destruct m' as [|[j' w'] m']; [done|]. specialize (E j'). simpl in E.
    by rewrite decide_True in E.
  - destruct HS' as [|[j' w'] m' HS' Hj'].
    { specialize (E j). simpl in E. by rewrite decide_True in E. }
    assert (j = j') as <-.
    { destruct (decide (j = j')) as [|Hne]; [done|exfalso].
      pose proof (E j) as E1. pose proof (E j') as E2. simpl in E1, E2.
      rewrite decide_True, decide_False in E1 by done.
      rewrite decide_False, decide_True in E2 by done.
      destruct (total rust_le j j') as [Hle|Hle].
      - rewrite obj_get_None_lt in E1; [done|]. eapply Forall_impl; [exact Hj'|].
        intros x Hx. apply (key_lt_trans (j, w) (j', w') x); [by split|done].
      - rewrite obj_get_None_lt in E2; [done|]. eapply Forall_impl; [exact Hj|].
        intros x Hx. apply (key_lt_trans (j', w') (j, w) x); [split; simpl; congruence|done]. }
    pose proof (E j) as E1. simpl in E1. rewrite !decide_True in E1 by done.
    injection E1 as <-. f_equal. apply IH; [done|]. intros k.
    specialize (E k). simpl in E. destruct (decide (k = j)) as [->|]; [|done].
    by rewrite !obj_get_None_lt.
Qed.

Lemma obj_get_Some_In k v m : obj_get k m = Some v → (k, v) ∈ m.
Proof.
  induction m as [|[j w] m IH]; simpl; [done|]. case_decide as E; [|by right; auto].
  intros [= <-]. subst. by left.
Qed.

Lemma obj_In_get k v m : obj_sorted m → (k, v) ∈ m → obj_get k m = Some v.
Proof.
  induction 1 as [|[j w] m HS IH Hj]; [by intros ?%not_elem_of_nil|].
  intros [[= -> ->]|Hin]%elem_of_cons; simpl; [by rewrite decide_True|].
  rewrite decide_False; [auto|]. rewrite Forall_forall in Hj. by destruct (Hj _ Hin) as [_ ?%not_eq_sym].
Qed.

Lemma obj_Forall_get (P : V → Prop) m :
  obj_sorted m → Forall (λ x, P x.2) m ↔ ∀ k v, obj_get k m = Some v → P v.
Proof.
  intros HS. rewrite Forall_forall. split.
  - intros HP k v Hk. by apply (HP (k, v)), obj_get_Some_In.
  - intros HP [k v] Hin. eapply HP. by apply obj_In_get.
Qed.
End omap.

(** * Values *)
Module Json.
Definition get (self : Value) (name : string) : option Value :=
  match self with VObject m => obj_get name m | _ => None end.
Definition as_u64 (self : Value) : option N :=
  match self with VNumber (PosInt n) => Some n | _ => None end.
Definition as_str (self : Value) : option string :=
  match self with VString s => Some s | _ => None end.
Definition as_bool (self : Value) : option bool :=
  match self with VBool b => Some b | _ => None end.
Definition as_array (self : Value) : option (list Value) :=
  match self with VArray l => Some l | _ => None end.
Definition as_object (self : Value) : option (list (string * Value)) :=
  match self with VObject m => Some m | _ => None end.
Definition is_object (self : Value) : bool := match self with VObject _ => true | _ => false end.
Definition is_null (self : Value) : bool := match self with Null => true | _ => false end.

(** [json!({...})]. *)
Definition object (l : list (string * Value)) : Value := VObject (obj_of l).
Definition u64 (n : N) : Value := VNumber (PosInt n).

(** [value[name] = x] on an object. *)
Definition set (self : Value) (name : string) (x : Value) : Value :=
  match self with VObject m => VObject (obj_insert name x m) | _ => self end.
End Json.

(** Induction that reaches into arrays and objects. *)
Section value_ind.
Context (P : Value → Prop) (Hnull : P Null) (Hbool : ∀ b, P (VBool b))
  (Hnum : ∀ n, P (VNumber n)) (Hstr : ∀ s, P (VString s))
  (Harr : ∀ l, Forall P l → P (VArray l))
  (Hobj : ∀ m, Forall (λ x, P x.2) m → P (VObject m)).

Fixpoint Value_deep_ind (v : Value) : P v :=
  match v with
  | Null => Hnull
  | VBool b => Hbool b
  | VNumber n => Hnum n
  | VString s => Hstr s
  | VArray l => Harr l ((fix go l := match l return Forall P l with
                           | [] => Forall_nil_2 P
                           | x :: l => Forall_cons_2 P x l (Value_deep_ind x) (go l)
                           end) l)
  | VObject m => Hobj m ((fix go m := match m return Forall (λ x, P x.2) m with
                            | [] => Forall_nil_2 _
                            | x :: m => Forall_cons_2 (λ x, P x.2) x m (Value_deep_ind x.2) (go m)
                            end) m)
  end.
End value_ind.

(** Well-formed: objects are ordered maps, at every level. *)
Fixpoint value_wf (v : Value) : Prop :=
  match v with
  | VArray l => (fix go l := match l with [] => True | x :: l => value_wf x ∧ go l end) l
  | VObject m => obj_sorted m ∧
      (fix go m := match m with [] => True | (_, x) :: m => value_wf x ∧ go m end) m
  | _ => True
  end.

Lemma value_wf_object m : value_wf (VObject m) ↔ obj_sorted m ∧ Forall (λ x, value_wf x.2) m.
Proof.
  simpl. apply and_iff_compat_l. induction m as [|[k x] m IH]; simpl.
  - split; [constructor|done].
  - by rewrite Forall_cons, IH.
Qed.

(** * [merge_patch] *)

(** The loop over the patch's members is the inner fixpoint. *)
Fixpoint merge_patch (target patch : Value) {struct patch} : Value :=
  match patch with
  | VObject patch_map =>
      let target_map := match target with VObject m => m | _ => [] end in
      VObject
        ((fix members pm tm := match pm with
          | [] => tm
          | (key, value) :: pm =>
              match value with
              | Null => members pm (obj_remove key tm)
              | _ => members pm
                  (obj_insert key (merge_patch (default Null (obj_get key tm)) value) tm)
              end
          end) patch_map target_map)
  | _ => patch
  end.

Fixpoint merge_members (pm tm : list (string * Value)) : list (string * Value) :=
  match pm with
  | [] => tm
  | (key, value) :: pm =>
      match value with
      | Null => merge_members pm (obj_remove key tm)
      | _ => merge_members pm
               (obj_insert key (merge_patch (default Null (obj_get key tm)) value) tm)
      end
  end.

Definition target_map (target : Value) : list (string * Value) :=
  match target with VObject m => m | _ => [] end.

Lemma merge_patch_object target pm :
  merge_patch target (VObject pm) = VObject (merge_members pm (target_map target)).
Proof. reflexivity. Qed.

(** What one member of the patch makes of a key. *)
Definition patched (old new : option Value) : option Value :=
  match new with
  | None => old
  | Some Null => None
  | Some v => Some (merge_patch (default Null old) v)
  end.

Lemma merge_members_get pm tm k :
  obj_sorted pm → obj_sorted tm →
  obj_sorted (merge_members pm tm) ∧
  obj_get k (merge_members pm tm) = patched (obj_get k tm) (obj_get k pm).
Proof.
  intros HS. revert tm. induction HS as [|[j v] pm HS IH Hj]; intros tm Htm; simpl; [done|].
  assert (∀ w, obj_sorted w → (∀ k', k' ≠ j → obj_get k' w = obj_get k' tm) →
    obj_get j w = patched (obj_get j tm) (Some v) →
    obj_sorted (merge_members pm w) ∧
    obj_get k (merge_members pm w) =
      patched (obj_get k tm) (if decide (k = j) then Some v else obj_get k pm)) as Hstep.
  { intros w Hw Hother Hthis. destruct (IH w Hw) as [Hs ->]. split; [done|].
    destruct (decide (k = j)) as [->|Hne]; [|by rewrite Hother].
    rewrite (obj_get_None_lt j pm), Hthis; [done|].
    eapply Forall_impl; [exact Hj|]. intros x [? ?]. done. }
  assert (v = Null ∨ v ≠ Null) as [->|Hv] by (destruct v; auto).
  - apply Hstep; [by apply obj_remove_sorted| |].
    + intros k' Hk'. by rewrite obj_get_remove, decide_False.
    + by rewrite obj_get_remove, decide_True.
  - replace (match v with Null => _ | _ => _ end) with
      (merge_members pm (obj_insert j (merge_patch (default Null (obj_get j tm)) v) tm))
      by by destruct v.
    apply Hstep; [by apply obj_insert_sorted| |].
    + intros k' Hk'. by rewrite obj_get_insert, decide_False.
    + rewrite obj_get_insert, decide_True by done. by destruct v.
Qed.

Lemma value_wf_get m k v : value_wf (VObject m) → obj_get k m = Some v → value_wf v.
Proof. rewrite value_wf_object. intros [HS HF]. by apply obj_Forall_get. Qed.

Lemma target_map_sorted t : value_wf t → obj_sorted (target_map t).
Proof. destruct t; simpl; try (intros; constructor). by intros [? _]. Qed.

Lemma target_map_get t k v : value_wf t → obj_get k (target_map t) = Some v → value_wf v.
Proof. destruct t; try done. apply value_wf_get. Qed.

Lemma target_old_wf t k : value_wf t → value_wf (default Null (obj_get k (target_map t))).
Proof.
  intros Ht. destruct (obj_get k (target_map t)) eqn:E; [exact (target_map_get _ _ _ Ht E)|done].
Qed.

(** The value under each key of a patched object. *)
Lemma merge_patch_get t pm k :
  value_wf t → value_wf (VObject pm) →
  obj_sorted (merge_members pm (target_map t)) ∧
  obj_get k (merge_members pm (target_map t)) = patched (obj_get k (target_map t)) (obj_get k pm).
Proof.
  intros Ht [Hpm _]%value_wf_object. apply merge_members_get; [done|by apply target_map_sorted].
Qed.

Lemma merge_patch_wf t p : value_wf t → value_wf p → value_wf (merge_patch t p).
Proof.
  revert t. induction p as [| | | | |pm IH] using Value_deep_ind; intros t Ht Hp; try done.
  rewrite merge_patch_object. apply value_wf_object.
  split; [by apply (merge_patch_get t pm "")|].
  apply obj_Forall_get; [by apply (merge_patch_get t pm "")|].
  intros k v. destruct (merge_patch_get t pm k Ht Hp) as [_ ->].
  destruct (obj_get k pm) as [x|] eqn:Hx; simpl; [|by apply target_map_get].
  pose proof (value_wf_get _ _ _ Hp Hx) as Hwx.
  pose proof (target_old_wf t k Ht) as Hold.
  rewrite Forall_forall in IH. specialize (IH (k, x) (obj_get_Some_In _ _ _ Hx) _ Hold Hwx).
  simpl in IH. destruct x; intros [= <-]; done.
Qed.

Lemma merge_patch_idem t p :
  value_wf t → value_wf p → merge_patch (merge_patch t p) p = merge_patch t p.
Proof.
  revert t. induction p as [| | | | |pm IH] using Value_deep_ind; intros t Ht Hp; try done.
  pose proof (merge_patch_wf t (VObject pm) Ht Hp) as Hm. rewrite merge_patch_object in Hm |- *.
  rewrite merge_patch_object. f_equal. cbn [target_map].
  set (r := merge_members pm (target_map t)) in *.
  pose proof (merge_patch_get (VObject r) pm) as Hg. cbn [target_map] in Hg.
  apply obj_ext; [by apply (Hg "")|by apply value_wf_object in Hm as [? _]|]. intros k.
  destruct (Hg k Hm Hp) as [_ ->]. unfold r at 1 2.
  destruct (merge_patch_get t pm k Ht Hp) as [_ ->].
  destruct (obj_get k pm) as [x|] eqn:Hx; simpl; [|done].
  pose proof (value_wf_get _ _ _ Hp Hx) as Hwx.
  pose proof (target_old_wf t k Ht) as Hold.
  rewrite Forall_forall in IH. specialize (IH (k, x) (obj_get_Some_In _ _ _ Hx) _ Hold Hwx).
  simpl in IH. destruct x; simpl in *; try done; f_equal; exact IH.
Qed.

(** * [strip_values] *)
Fixpoint strip_values (value : Value) (depth level : N) : Value :=
  match value with
  | VObject map =>
      if negb (bool_decide (map = [])) && ((depth =? 0)%N || (level <? depth)%N)
      then VObject ((fix members m := match m with
             | [] => []
             | (key, value) :: m => (key, strip_values value depth (level + 1)%N) :: members m
             end) map)
      else Null
  | _ => Null
  end.

Lemma strip_values_object m d l :
  strip_values (VObject m) d l =
  if negb (bool_decide (m = [])) && ((d =? 0)%N || (l <? d)%N)
  then VObject ((λ x, (x.1, strip_values x.2 d (l + 1)%N)) <$> m) else Null.
Proof.
  cbn [strip_values]. destruct (_ && _); [|done]. f_equal.
  induction m as [|[k v] m IH]; csimpl; [done|]. by rewrite IH.
Qed.

(** Objects and nulls only: no scalar and no array. *)
Fixpoint only_keys (v : Value) : Prop :=
  match v with
  | Null => True
  | VObject m => (fix go m := match m with [] => True | (_, x) :: m => only_keys x ∧ go m end) m
  | _ => False
  end.

(** How many objects are nested. *)
Fixpoint nesting (v : Value) : nat :=
  match v with
  | VObject m =>
      S ((fix go m := match m with [] => 0 | (_, x) :: m => nesting x `max` go m end) m)
  | _ => 0
  end.

Lemma strip_only_keys v d l : only_keys (strip_values v d l).
Proof.
  revert l. induction v as [| | | |items _|m IH] using Value_deep_ind; intros l; try done.
  rewrite strip_values_object. destruct (_ && _); [|done].
  induction IH as [|[k x] m Hx _ IH]; csimpl; [done|]. split; [apply Hx|apply IH].
Qed.

Lemma strip_nesting v d l :
  d ≠ 0%N → nesting (strip_values v d l) ≤ N.to_nat (d - l).
Proof.
  intros Hd. revert l. induction v as [| | | |items _|m IH] using Value_deep_ind; intros l; try (simpl; lia).
  rewrite strip_values_object. destruct (N.eqb_spec d 0); [done|].
  destruct (N.ltb_spec l d); [|rewrite andb_false_r; simpl; lia].
  destruct (negb _); [|simpl; lia]. simpl.
  enough (∀ m', Forall (λ x, ∀ l, nesting (strip_values x.2 d l) ≤ N.to_nat (d - l)) m' →
    (fix go (m : list (string * Value)) := match m with [] => 0 | (_, x) :: m => nesting x `max` go m end)
      ((λ x, (x.1, strip_values x.2 d (l + 1)%N)) <$> m') ≤ N.to_nat (d - (l + 1))) as Hle
    by (specialize (Hle m IH); lia).
  induction 1 as [|[k x] m' Hx _ IHm]; csimpl; [lia|]. specialize (Hx (l + 1)%N). simpl in Hx. lia.
Qed.

Lemma strip_get m d l k :
  is_Some (obj_get k (target_map (strip_values (VObject m) d l))) ↔
  is_Some (obj_get k m) ∧ (d = 0 ∨ l < d)%N.
Proof.
  rewrite strip_values_object.
  assert (∀ f : string * Value → Value,
    is_Some (obj_get k ((λ x, (x.1, f x)) <$> m)) ↔ is_Some (obj_get k m)) as Hf.
  { intros f. induction m as [|[j v] m IH]; csimpl; [done|]. case_decide; [|done].
    split; eauto. }
  destruct (N.eqb_spec d 0) as [->|Hd]; [|destruct (N.ltb_spec l d)]; simpl.
  - rewrite andb_true_r. case_bool_decide as E; simpl; [subst|rewrite Hf; naive_solver].
    split; [by intros [? ?]|by intros [[? ?] _]].
  - rewrite andb_true_r. case_bool_decide as E; simpl; [subst|rewrite Hf; naive_solver].
    split; [by intros [? ?]|by intros [[? ?] _]].
  - rewrite andb_false_r. simpl. split; [by intros [? ?]|lia].
Qed.

(** ** Properties *)

(** [merge_patch] is the JSON merge patch: a non-object patch replaces the
    target; an object patch yields an object in which each key named by the
    patch is removed (null) or recursively merged, and every other key of the
    target is kept.  The result is again an ordered map, and applying the same
    patch twice changes nothing more. *)
Theorem merge_patch_spec (t p : Value) :
  value_wf t → value_wf p →
  value_wf (merge_patch t p)
  ∧ merge_patch (merge_patch t p) p = merge_patch t p
  ∧ match p with
    | VObject pm => ∃ r, merge_patch t p = VObject r ∧
        ∀ k, obj_get k r = match obj_get k pm with
                           | None => obj_get k (target_map t)
                           | Some Null => None
                           | Some v => Some (merge_patch (default Null (obj_get k (target_map t))) v)
                           end
    | _ => merge_patch t p = p
    end.
Proof.
  intros Ht Hp. split_and!; [by apply merge_patch_wf|by apply merge_patch_idem|].
  destruct p as [| | | | |pm]; try done. eexists. split; [apply merge_patch_object|].
  intros k. by destruct (merge_patch_get t pm k Ht Hp) as [_ ->].
Qed.

(** The subkeys view reveals no secret values: whatever the data, the
    result of [strip_values] holds object keys and nulls only, is nested at most
    [depth] levels when a depth is given, and at the top level names exactly the
    keys of the data. *)
Theorem strip_values_spec (v : Value) (depth : N) :
  only_keys (strip_values v depth 0)
  ∧ (depth ≠ 0%N → nesting (strip_values v depth 0) ≤ N.to_nat depth)
  ∧ ∀ k, is_Some (Json.get (strip_values v depth 0) k) ↔ is_Some (Json.get v k).
Proof.
  split_and!; [apply strip_only_keys| |].
  - intros Hd. pose proof (strip_nesting v depth 0 Hd). by rewrite N.sub_0_r in H.
  - intros k. destruct v as [| | | | |m]; try done.
    transitivity (is_Some (obj_get k (target_map (strip_values (VObject m) depth 0)))).
    + by destruct (strip_values _ _ _).
    + rewrite strip_get. simpl. split; [by intros [? _]|]. intros ?. split; [done|lia].
Qed.

Lemma merge_patch_spec_witness :
  let t := Json.object [("a", VBool true); ("b", VString "x")] in
  let p := Json.object [("b", Null); ("c", VObject [("d", Null)])] in
  value_wf (merge_patch t p) ∧ merge_patch (merge_patch t p) p = merge_patch t p.
Proof.
  destruct (merge_patch_spec (Json.object [("a", VBool true); ("b", VString "x")])
              (Json.object [("b", Null); ("c", VObject [("d", Null)])])) as (Hw & Hi & _).
  - vm_compute. repeat constructor; discriminate.
  - vm_compute. repeat constructor; discriminate.
  - split; [exact Hw|exact Hi].
Defined.
