(* ===== verification/Engine.v ===== *)
(** The shared parts of the secret engines,
    [crates/heptabao-server/src/engines.rs]: responses and errors, parameter
    access, path validation, listing, durations and timestamps. *)
From Stdlib Require Import Ascii NArith ZArith.
From S2P Require Import Prelude Str Json.

Module EngineError.
Record t := mk { status : N; message : string }.
End EngineError.
Notation EngineError := EngineError.t.

Module EngineResponse.
Record t := mk { status : N; body : Value; mutated : bool }.
End EngineResponse.
Notation EngineResponse := EngineResponse.t.

Notation EResult A := (Result A EngineError).

(** * Byte-string helpers of the standard library *)

(** [str::split_once(char)]. *)
Fixpoint split_once (c : ascii) (s : string) : option (string * string) :=
  match s with
  | EmptyString => None
  | String a s' =>
      if decide (a = c) then Some ("", s')
      else match split_once c s' with
           | Some (h, t) => Some (String a h, t)
           | None => None
           end
  end.

(** The first separator ends a piece without one. *)
Lemma split_once_app c s t : lacks c s → split_once c (s +:+ String c t) = Some (s, t).
Proof.
  unfold lacks. induction s as [|a s IH]; simpl; [by rewrite decide_True|].
  rewrite andb_True, negb_True, bool_decide_spec. intros [Hne Hs].
  rewrite decide_False by done. by rewrite IH.
Qed.

Lemma split_once_Some c t h r : split_once c t = Some (h, r) → t = h +:+ String c r ∧ lacks c h.
Proof.
  revert h. induction t as [|a t IH]; intros h; simpl; [done|]. case_decide as E.
  - intros [= <- <-]. by subst.
  - destruct (split_once c t) as [[h' r']|]; [|done]. intros [= <- <-].
    destruct (IH h' eq_refl) as [-> Hl]. split; [done|]. unfold lacks in *. simpl.
    by rewrite bool_decide_false.
Qed.

(** [str::trim_start_matches(char)]. *)
Fixpoint trim_start_matches (c : ascii) (s : string) : string :=
  match s with
  | String a s' => if decide (a = c) then trim_start_matches c s' else s
  | EmptyString => ""
  end.

(** [str::strip_suffix(&str)]. *)
Definition strip_suffix (suf s : string) : option string :=
  let n := String.length s - String.length suf in
  if bool_decide (String.substring n (String.length suf) s = suf)
     && (String.length suf <=? String.length s)
  then Some (String.substring 0 n s) else None.

(** [str::parse::<u64>]: an optional [+], then at least one digit, in range. *)
Definition parse_u64 (s : string) : option N :=
  let digits := match s with String "+" rest => rest | _ => s end in
  if bool_decide (digits = "") || negb (str_all is_ascii_digit digits) then None
  else if (read_digits 0 digits <=? U64_MAX)%N then Some (read_digits 0 digits) else None.

(** A rendered integer is read back. *)
Lemma parse_render n : (n ≤ U64_MAX)%N → parse_u64 (render_u64 n) = Some n.
Proof.
  intros Hn. unfold parse_u64. pose proof (render_u64_all n) as Hall. pose proof (render_u64_nonempty n) as Hne.
  assert (E : (match render_u64 n with String "+" rest => rest | _ => render_u64 n end) = render_u64 n).
  { destruct (render_u64 n) as [|a rest]; [done|]. simpl in Hall. apply andb_True in Hall as [Ha _].
    destruct a as [[] [] [] [] [] [] [] []]; done. }
  rewrite E, bool_decide_false by done. destruct (str_all _ _); [|done]. simpl. rewrite read_render_u64 by done.
  by rewrite (proj2 (N.leb_le _ _)).
Qed.

(** [chars().any(|c| c.is_control() || ...)]: the C0 controls and DEL are one
    byte, the C1 controls are the byte 194 followed by one in 128..=159. *)
Fixpoint has_forbidden (s : string) : bool :=
  match s with
  | EmptyString => false
  | String a rest =>
      (N_of_ascii a <? 32)%N || (N_of_ascii a =? 127)%N
      || ((N_of_ascii a =? 194)%N
          && match rest with
             | String b _ => (128 <=? N_of_ascii b)%N && (N_of_ascii b <=? 159)%N
             | EmptyString => false
             end)
      || bool_decide (a = "\"%char) || bool_decide (a = "%"%char)
      || bool_decide (a = "?"%char) || bool_decide (a = "#"%char)
      || has_forbidden rest
  end.

Module Engine.
Definition error (status : N) (message : string) : EngineError := EngineError.mk status message.
Definition bad (message : string) : EngineError := error 400 message.
Definition not_found : EngineError := error 404 "no value found".
Definition unsupported : EngineError := error 405 "operation is not supported by this engine".
Definition ok (data : Value) (mutated : bool) : EngineResponse :=
  EngineResponse.mk 200 (Json.object [("data", data)]) mutated.
Definition empty (mutated : bool) : EngineResponse := EngineResponse.mk 204 Null mutated.
Definition write_method (method : string) : bool :=
  bool_decide (method = "POST") || bool_decide (method = "PUT").

Definition valid_path (path : string) : EResult unit :=
  if bool_decide (path = "") || (1024 <? String.length path) || has_forbidden path
     || existsb (λ s, bool_decide (s = "") || bool_decide (s = ".") || bool_decide (s = ".."))
          (split "/" path)
  then Err (bad "path must contain canonical, nonempty path segments")
  else Ok tt.

Definition optional_u64 (body : Value) (name : string) : EResult (option N) :=
  match Json.get body name with
  | None => Ok None
  | Some v =>
      match Json.as_u64 v with
      | Some n => Ok (Some n)
      | None =>
          match Json.as_str v with
          | Some s => map_ok Some (ok_or (parse_u64 s) (bad "expected a nonnegative integer parameter"))
          | None => Err (bad "expected a nonnegative integer parameter")
          end
      end
  end.

Definition optional_bool (body : Value) (name : string) : EResult (option bool) :=
  match Json.get body name with
  | None => Ok None
  | Some v => map_ok Some (ok_or (Json.as_bool v) (bad "expected a boolean parameter"))
  end.

(** [string] of the source. *)
Definition string_param (body : Value) (name : string) : EResult string :=
  match Json.get body name with
  | Some v => ok_or (Json.as_str v) (bad "required string parameter is missing or invalid")
  | None => Err (bad "required string parameter is missing or invalid")
  end.

Definition reject_unknown (body : Value) (allowed : list string) : EResult unit :=
  let? map := ok_or (Json.as_object body) (bad "request body must be an object") in
  if existsb (λ kv, negb (bool_decide (kv.1 ∈ allowed))) map
  then Err (bad "unsupported parameter; no state was changed") else Ok tt.

(** The name under which [list_keys] reports the part of a key below the prefix. *)
Definition listed_name (recursive : bool) (rest : string) : string :=
  if recursive then rest
  else match split_once "/" rest with
       | Some (first, _) => first +:+ "/"
       | None => rest
       end.

Definition list_prefix (prefix : string) : string :=
  if bool_decide (prefix = "") then "" else trim_end_matches "/" prefix +:+ "/".

(** The loop collecting the names in a [BTreeSet]. *)
Definition found_keys (keys : list string) (prefix : string) (recursive : bool) : gset string :=
  foldl (λ found key,
           match strip_prefix (list_prefix prefix) key with
           | Some rest => if bool_decide (rest = "") then found
                          else {[listed_name recursive rest]} ∪ found
           | None => found
           end) ∅ keys.

Definition list_keys (keys : list string) (prefix : string) (recursive : bool) (body : Value) :
  EResult (list string) :=
  let found := found_keys keys prefix recursive in
  let after := default "" (match Json.get body "after" with
                           | Some v => Json.as_str v | None => None end) in
  let? limit := optional_u64 body "limit" in
  let limit := default 0%N limit in
  let names := filter (λ s, ¬ rust_le s after) (btree_elems found) in
  Ok (if (limit =? 0)%N then names else take (N.to_nat limit) names).

(** * Durations *)
Definition checked_mul (a b : N) : option N :=
  if (a * b <=? U64_MAX)%N then Some (a * b)%N else None.

Definition unit_seconds (ch : ascii) : option N :=
  if bool_decide (ch = "s"%char) then Some 1%N
  else if bool_decide (ch = "m"%char) then Some 60%N
  else if bool_decide (ch = "h"%char) then Some 3600%N
  else None.

(** The loop over the characters; [number] holds the digits read so far. *)
Fixpoint duration_loop (text number : string) (total : N) : EResult (string * N) :=
  match text with
  | EmptyString => Ok (number, total)
  | String ch text =>
      if is_ascii_digit ch then duration_loop text (number +:+ String ch "") total
      else
        let? multiplier := ok_or (unit_seconds ch) (bad "duration supports integer s, m and h units") in
        let? count := ok_or (parse_u64 number) (bad "invalid duration") in
        let? total := ok_or (match checked_mul count multiplier with
                             | Some n => checked_add total n
                             | None => None
                             end) (bad "duration overflow") in
        duration_loop text "" total
  end.

Definition MAX_DURATION : N := 315360000.

Definition duration_seconds (value : Value) : EResult N :=
  let? text := ok_or (Json.as_str value) (bad "duration must be a string") in
  if bool_decide (text = "0") then Ok 0%N
  else
    let? r := duration_loop text "" 0 in
    let '(number, total) := r in
    if negb (bool_decide (number = "")) || bool_decide (text = "") || (MAX_DURATION <? total)%N
    then Err (bad "invalid duration or duration exceeds ten years")
    else Ok total.

(** * Timestamps *)

(** [{n:0w$}]: at least [width] digits. *)
Definition padded (width : nat) (n : Z) : string :=
  let s := render_u64 (Z.to_N n) in
  String.concat "" (repeat "0" (width - String.length s)) +:+ s.

(** The calendar date of a day number since 1970-01-01. *)
Definition civil (days : Z) : Z * Z * Z :=
  (let z := days + 719468 in
   let era := z / 146097 in
   let doe := z - era * 146097 in
   let yoe := (doe - doe / 1460 + doe / 36524 - doe / 146096) / 365 in
   let year := yoe + era * 400 in
   let doy := doe - (365 * yoe + yoe / 4 - yoe / 100) in
   let mp := (5 * doy + 2) / 153 in
   let day := doy - (153 * mp + 2) / 5 + 1 in
   let month := mp + (if mp <? 10 then 3 else -9) in
   (year + (if month <=? 2 then 1 else 0), month, day))%Z.

Definition timestamp (seconds : N) : string :=
  let seconds := Z.of_N (N.min seconds 253402300799) in
  let '(year, month, day) := civil (seconds / 86400) in
  let day_seconds := (seconds mod 86400)%Z in
  padded 4 year +:+ "-" +:+ padded 2 month +:+ "-" +:+ padded 2 day +:+ "T"
  +:+ padded 2 (day_seconds / 3600) +:+ ":" +:+ padded 2 (day_seconds / 60 mod 60)
  +:+ ":" +:+ padded 2 (day_seconds mod 60) +:+ "Z".
End Engine.
