(* ===== verification/Kv2.v ===== *)
(** The key-value engines of the running service,
    [crates/heptabao-server/src/engines/kv.rs]: the unversioned [handle_v1] and
    the versioned [Kv2].

    Methods that mutate in place are state transformers whose result also
    carries the state reached on an error path: a failing [Config::update] or
    [write_metadata] has already made its earlier assignments, and a write that
    fails on the deletion deadline has already created an empty entry.
    Discarding such a state is the caller's job (see [EngineState]).  Erasure of
    dropped values from memory ([zeroize], [wipe_json]) has no counterpart. *)
From Stdlib Require Import Ascii NArith.
From S2P Require Import Prelude Str Json Engine.
Import Engine.

Definition MAX_RETAINED_VERSIONS : N := 10000.

Module Config.
Record t := mk { max_versions : N; cas_required : bool; delete_version_after : N }.
Definition default : t := mk 0 false 0.

Definition update (body : Value) : M t EngineError unit := λ self,
  match optional_u64 body "max_versions" with
  | Err e => (self, Err e)
  | Ok max =>
      if match max with Some max => (MAX_RETAINED_VERSIONS <? max)%N | None => false end
      then (self, Err (bad "max_versions exceeds the supported retention bound"))
      else
        let self := match max with
                    | Some max => mk max (cas_required self) (delete_version_after self)
                    | None => self
                    end in
        match optional_bool body "cas_required" with
        | Err e => (self, Err e)
        | Ok cas =>
            let self := match cas with
                        | Some cas => mk (max_versions self) cas (delete_version_after self)
                        | None => self
                        end in
            match Json.get body "delete_version_after" with
            | None => (self, Ok tt)
            | Some after =>
                match duration_seconds after with
                | Err e => (self, Err e)
                | Ok secs => (mk (max_versions self) (cas_required self) secs, Ok tt)
                end
            end
        end
  end.

Definition json (self : t) : Value :=
  Json.object [("max_versions", Json.u64 (max_versions self));
               ("cas_required", VBool (cas_required self));
               ("delete_version_after", VString (render_u64 (delete_version_after self) +:+ "s"))].
End Config.
Notation Config := Config.t.

(** [json!] of an optional string map. *)
Definition custom_json (custom : option (gmap string string)) : Value :=
  match custom with
  | None => Null
  | Some m => Json.object (omap (λ k, (λ v, (k, VString v)) <$> m !! k) (btree_keys m))
  end.

Module Version.
Record t := mk {
  created_at : N;
  deletion_at : option N;
  destroyed : bool;
  data : option Value;
}.

Definition deletion_time (self : t) : Value :=
  VString (match deletion_at self with Some at_ => timestamp at_ | None => "" end).

Definition metadata (self : t) (version : N) (custom_metadata : option (gmap string string)) : Value :=
  Json.object [("version", Json.u64 version); ("created_time", VString (timestamp (created_at self)));
               ("deletion_time", deletion_time self); ("destroyed", VBool (destroyed self));
               ("custom_metadata", custom_json custom_metadata)].

(** [deletion_at.is_none_or(|at| now < at)]. *)
Definition undeleted (self : t) (now : N) : bool :=
  match deletion_at self with None => true | Some at_ => (now <? at_)%N end.

Definition readable (self : t) (now : N) : bool :=
  negb (destroyed self) && bool_decide (is_Some (data self)) && undeleted self now.

Definition set_deletion (at_ : option N) (self : t) : t :=
  mk (created_at self) at_ (destroyed self) (data self).
Definition destroy (self : t) : t := mk (created_at self) (deletion_at self) true None.
End Version.
Notation Version := Version.t.

Module Entry.
Record t := mk {
  config : Config;
  current_version : N;
  oldest_version : N;
  created_at : N;
  updated_at : N;
  custom_metadata : option (gmap string string);
  versions : gmap N Version;
}.

Definition new (now : N) : t := mk Config.default 0 0 now now None ∅.

Definition set_config (c : Config) (self : t) : t :=
  mk c (current_version self) (oldest_version self) (created_at self) (updated_at self)
    (custom_metadata self) (versions self).
Definition set_custom (c : option (gmap string string)) (self : t) : t :=
  mk (config self) (current_version self) (oldest_version self) (created_at self)
    (updated_at self) c (versions self).
Definition set_versions (v : gmap N Version) (self : t) : t :=
  mk (config self) (current_version self) (oldest_version self) (created_at self)
    (updated_at self) (custom_metadata self) v.

Definition version_summary (v : Version) : Value :=
  Json.object [("created_time", VString (timestamp (Version.created_at v)));
               ("deletion_time", Version.deletion_time v);
               ("destroyed", VBool (Version.destroyed v))].

Definition metadata (self : t) : Value :=
  let m := Config.json (config self) in
  let m := Json.set m "created_time" (VString (timestamp (created_at self))) in
  let m := Json.set m "updated_time" (VString (timestamp (updated_at self))) in
  let m := Json.set m "current_version" (Json.u64 (current_version self)) in
  let m := Json.set m "oldest_version" (Json.u64 (oldest_version self)) in
  let m := Json.set m "custom_metadata" (custom_json (custom_metadata self)) in
  Json.set m "versions"
    (Json.object ((λ kv, (render_u64 kv.1, version_summary kv.2)) <$> map_to_list (versions self))).
End Entry.
Notation Entry := Entry.t.

(** * The unversioned engine *)
Definition is_list (method : string) : bool :=
  bool_decide (method = "LIST") || bool_decide (method = "SCAN").

Definition keys_json (keys : list string) : Value := VArray (VString <$> keys).

(** [if !path.is_empty() { valid_path(path.trim_end_matches('/'))?; }]. *)
Definition valid_prefix (path : string) : EResult unit :=
  if bool_decide (path = "") then Ok tt else valid_path (trim_end_matches "/" path).

Definition handle_v1 (method path : string) (body : Value) :
  M (gmap string Value) EngineError EngineResponse := λ entries,
  if is_list method then
    (entries,
     let? _ := valid_prefix path in
     let? keys := list_keys (btree_keys entries) path (bool_decide (method = "SCAN")) body in
     if bool_decide (keys = []) then Err not_found
     else Ok (ok (Json.object [("keys", keys_json keys)]) false))
  else match valid_path path with
  | Err e => (entries, Err e)
  | Ok _ =>
      if bool_decide (method = "GET") then
        (entries, map_ok (λ data, ok data false) (ok_or (entries !! path) not_found))
      else if write_method method then
        if negb (Json.is_object body) then (entries, Err (bad "secret data must be an object"))
        else (<[path := body]> entries, Ok (empty true))
      else if bool_decide (method = "DELETE") then
        match entries !! path with
        | Some _ => (delete path entries, Ok (empty true))
        | None => (entries, Ok (empty false))
        end
      else (entries, Err unsupported)
  end.

(** * The versioned engine *)
Module Kv2.
Record t := mk { config : Config; entries : gmap string Entry }.
Definition default : t := mk Config.default ∅.

Definition contains (self : t) (path : string) : bool :=
  match entries self !! path with
  | Some e => (0 <? Entry.current_version e)%N
  | None => false
  end.

Definition set_entry (resource : string) (e : Entry) (self : t) : t :=
  mk (config self) (<[resource := e]> (entries self)).

(** [read]; reads and errors touch no state. *)
Definition read (self : t) (resource : string) (body : Value) (now : N) (subkeys : bool) :
  EResult EngineResponse :=
  let? entry := ok_or (entries self !! resource) not_found in
  let? requested := optional_u64 body "version" in
  let selected := match requested with
                  | Some v => if (v =? 0)%N then Entry.current_version entry else v
                  | None => Entry.current_version entry
                  end in
  let? version := ok_or (Entry.versions entry !! selected) not_found in
  let metadata := Version.metadata version selected (Entry.custom_metadata entry) in
  if negb (Version.readable version now) then
    Ok (EngineResponse.mk 404
          (Json.object [("data", Json.object [("data", Null); ("metadata", metadata)])]) false)
  else
    let? data := ok_or (Version.data version) not_found in
    if subkeys then
      let? depth := optional_u64 body "depth" in
      let depth := option.default 0%N depth in
      Ok (ok (Json.object [("subkeys", strip_values data depth 0); ("metadata", metadata)]) false)
    else Ok (ok (Json.object [("data", data); ("metadata", metadata)]) false).

(** The effective lifetime and retention of a key: key and engine settings. *)
Definition effective_after (entry engine : Config) : N :=
  match Config.delete_version_after entry, Config.delete_version_after engine with
  | 0%N, engine => engine
  | key, 0%N => key
  | key, engine => N.min key engine
  end.

Definition effective_retention (entry engine : Config) : N :=
  match Config.max_versions entry, Config.max_versions engine with
  | 0%N, 0%N => 10
  | 0%N, engine => engine
  | key, _ => key
  end.

(** The check-and-set parameter of a write. *)
Definition cas_param (body : Value) : EResult (option N) :=
  match Json.get body "options" with
  | Some options =>
      let? _ := reject_unknown options ["cas"] in
      optional_u64 options "cas"
  | None => Ok None
  end.

(** Everything [write] checks before it touches the state: the data to store
    and the number of the new version. *)
Definition write_checks (self : t) (resource : string) (body : Value) (now : N) (patch : bool) :
  EResult (Value * N) :=
  let? _ := reject_unknown body ["data"; "options"] in
  let? new_data := ok_or (match Json.get body "data" with
                          | Some value => if Json.is_object value then Some value else None
                          | None => None
                          end) (bad "data must be a JSON object") in
  let? cas := cas_param body in
  let current := entries self !! resource in
  let current_version := match current with Some e => Entry.current_version e | None => 0%N end in
  if (Config.cas_required (config self)
      || match current with Some e => Config.cas_required (Entry.config e) | None => false end)
     && bool_decide (cas = None)
  then Err (bad "check-and-set parameter is required for this key")
  else if match cas with Some expected => negb (expected =? current_version)%N | None => false end
          || (patch && bool_decide (cas = Some 0%N))
  then Err (bad "check-and-set parameter did not match the current version")
  else
    let? data :=
      if patch then
        let? current_value := ok_or
          (match current with
           | Some e => match Entry.versions e !! current_version with
                       | Some v => if Version.readable v now then Version.data v else None
                       | None => None
                       end
           | None => None
           end) not_found in
        Ok (merge_patch current_value new_data)
      else Ok new_data in
    let? next := ok_or (checked_add current_version 1) (bad "version limit reached") in
    Ok (data, next).

(** The entry after version [next] has been stored, and its metadata. *)
Definition store_version (entry : Entry) (engine : Config) (next now : N) (version : Version) : Entry :=
  let retained := effective_retention (Entry.config entry) engine in
  let floor := saturating_add (next - retained) 1 in
  Entry.mk (Entry.config entry) next (if (1 <? floor)%N then floor else 0)
    (Entry.created_at entry) now (Entry.custom_metadata entry)
    (filter (λ kv, (floor ≤ kv.1)%N) (<[next := version]> (Entry.versions entry))).

Definition write (resource : string) (body : Value) (now : N) (patch : bool) :
  M t EngineError EngineResponse := λ self,
  match write_checks self resource body now patch with
  | Err e => (self, Err e)
  | Ok (data, next) =>
      let entry := option.default (Entry.new now) (entries self !! resource) in
      let self := set_entry resource entry self in
      let after := effective_after (Entry.config entry) (config self) in
      match (if (after =? 0)%N then Ok None
             else map_ok Some (ok_or (checked_add now after) (bad "deletion deadline overflow"))) with
      | Err e => (self, Err e)
      | Ok deletion_at =>
          let version := Version.mk now deletion_at false (Some data) in
          let metadata := Version.metadata version next (Entry.custom_metadata entry) in
          (set_entry resource (store_version entry (config self) next now version) self,
           Ok (ok metadata true))
      end
  end.

(** The version numbers of a delete, undelete or destroy request. *)
Fixpoint version_numbers (l : list Value) : EResult (list N) :=
  match l with
  | [] => Ok []
  | v :: l =>
      let? n := ok_or (match Json.as_u64 v with
                       | Some n => if (0 <? n)%N then Some n else None
                       | None => None
                       end) (bad "version numbers must be positive integers") in
      let? rest := version_numbers l in
      Ok (n :: rest)
  end.

(** One version under an operation, and whether it changed. *)
Definition change_version (operation : string) (now : N) (version : Version) : option Version :=
  if Version.destroyed version then None
  else if bool_decide (operation = "destroy") then Some (Version.destroy version)
  else if bool_decide (operation = "delete") && Version.undeleted version now
  then Some (Version.set_deletion (Some now) version)
  else if bool_decide (operation = "undelete") && bool_decide (is_Some (Version.deletion_at version))
  then Some (Version.set_deletion None version)
  else None.

Fixpoint change_loop (operation : string) (now : N) (numbers : list N)
    (versions : gmap N Version) (changed : bool) : gmap N Version * bool :=
  match numbers with
  | [] => (versions, changed)
  | number :: numbers =>
      match versions !! number with
      | None => change_loop operation now numbers versions changed
      | Some version =>
          match change_version operation now version with
          | None => change_loop operation now numbers versions changed
          | Some version' => change_loop operation now numbers (<[number := version']> versions) true
          end
      end
  end.

Definition change_versions (resource operation : string) (body : Value) (now : N) :
  M t EngineError EngineResponse := λ self,
  match (let? _ := reject_unknown body ["versions"] in
         let? versions := ok_or (match Json.get body "versions" with
                                 | Some v => match Json.as_array v with
                                             | Some (x :: l) => Some (x :: l)
                                             | _ => None
                                             end
                                 | None => None
                                 end) (bad "versions must be a nonempty integer array") in
         version_numbers versions) with
  | Err e => (self, Err e)
  | Ok numbers =>
      match entries self !! resource with
      | None => (self, Ok (empty false))
      | Some entry =>
          let '(versions, changed) := change_loop operation now numbers (Entry.versions entry) false in
          (set_entry resource (Entry.set_versions versions entry) self, Ok (empty changed))
      end
  end.

(** The loop over the members of [custom_metadata]. *)
Fixpoint custom_loop (patch : bool) (l : list (string * Value)) (next : gmap string string) :
  EResult (gmap string string) :=
  match l with
  | [] => Ok next
  | (key, value) :: l =>
      if bool_decide (key = "") || (128 <? String.length key)
      then Err (bad "custom metadata key exceeds supported limits")
      else if patch && Json.is_null value then custom_loop patch l (delete key next)
      else
        let? value := ok_or (Json.as_str value) (bad "custom_metadata values must be strings") in
        if 512 <? String.length value
        then Err (bad "custom metadata value exceeds supported limits")
        else custom_loop patch l (<[key := value]> next)
  end.

(** The new [custom_metadata] of an entry. *)
Definition new_custom (patch : bool) (metadata : Value) (old : option (gmap string string)) :
  EResult (option (gmap string string)) :=
  if Json.is_null metadata then Ok None
  else
    let? metadata := ok_or (Json.as_object metadata) (bad "custom_metadata must be a string map") in
    let? next := custom_loop patch metadata
      (if patch then option.default ∅ old else ∅) in
    if 64 <? size next then Err (bad "too many custom metadata entries")
    else Ok (Some next).

Definition write_metadata (resource : string) (body : Value) (now : N) (patch : bool) :
  M t EngineError EngineResponse := λ self,
  match reject_unknown body ["max_versions"; "cas_required"; "delete_version_after"; "custom_metadata"] with
  | Err e => (self, Err e)
  | Ok _ =>
      if patch && bool_decide (entries self !! resource = None) then (self, Err not_found)
      else
        let entry := option.default (Entry.new now) (entries self !! resource) in
        let '(config, res) := Config.update body (Entry.config entry) in
        let entry := Entry.set_config config entry in
        match res with
        | Err e => (set_entry resource entry self, Err e)
        | Ok _ =>
            match Json.get body "custom_metadata" with
            | None => (set_entry resource entry self, Ok (empty true))
            | Some metadata =>
                match new_custom patch metadata (Entry.custom_metadata entry) with
                | Err e => (set_entry resource entry self, Err e)
                | Ok custom =>
                    (set_entry resource (Entry.set_custom custom entry) self, Ok (empty true))
                end
            end
        end
  end.

(** Listing of [metadata] and [detailed-metadata]. *)
Definition list_metadata (self : t) (operation method resource : string) (body : Value) :
  EResult EngineResponse :=
  let? _ := valid_prefix resource in
  let? keys := list_keys (btree_keys (entries self)) resource (bool_decide (method = "SCAN")) body in
  if bool_decide (keys = []) then Err not_found
  else
    let data := Json.object [("keys", keys_json keys)] in
    if bool_decide (operation = "detailed-metadata") then
      let info := omap (λ key, (λ entry, (key, Entry.metadata entry))
                    <$> entries self !! (list_prefix resource +:+ key)) keys in
      Ok (ok (Json.set data "key_info" (Json.object info)) false)
    else Ok (ok data false).

(** [DELETE data/...]: mark the current version deleted. *)
Definition delete_current (resource : string) (now : N) : t → t * bool := λ self,
  match entries self !! resource with
  | None => (self, false)
  | Some entry =>
      match Entry.versions entry !! Entry.current_version entry with
      | None => (self, false)
      | Some version =>
          if negb (Version.destroyed version) && Version.undeleted version now
          then (set_entry resource
                  (Entry.set_versions
                     (<[Entry.current_version entry := Version.set_deletion (Some now) version]>
                        (Entry.versions entry)) entry) self, true)
          else (self, false)
      end
  end.

Definition handle_config (method : string) (body : Value) : M t EngineError EngineResponse := λ self,
  if bool_decide (method = "GET") then (self, Ok (ok (Config.json (config self)) false))
  else if negb (write_method method) then (self, Err unsupported)
  else match reject_unknown body ["max_versions"; "cas_required"; "delete_version_after"] with
  | Err e => (self, Err e)
  | Ok _ =>
      let '(config, res) := Config.update body (config self) in
      (mk config (entries self), map_ok (λ _, empty true) res)
  end.

Definition handle_resource (operation method resource : string) (body : Value) (now : N) :
  M t EngineError EngineResponse := λ self,
  let patch := bool_decide (method = "PATCH") in
  if (bool_decide (operation = "data") || bool_decide (operation = "subkeys"))
     && bool_decide (method = "GET")
  then (self, read self resource body now (bool_decide (operation = "subkeys")))
  else if bool_decide (operation = "data") && (write_method method || patch)
  then write resource body now patch self
  else if bool_decide (operation = "data") && bool_decide (method = "DELETE")
  then let '(self, changed) := delete_current resource now self in (self, Ok (empty changed))
  else if (bool_decide (operation = "delete") || bool_decide (operation = "undelete")
           || bool_decide (operation = "destroy")) && write_method method
  then change_versions resource operation body now self
  else if bool_decide (operation = "metadata") && bool_decide (method = "GET")
  then (self, map_ok (λ e, ok (Entry.metadata e) false)
                (ok_or (entries self !! resource) not_found))
  else if bool_decide (operation = "metadata") && bool_decide (method = "DELETE")
  then (mk (config self) (delete resource (entries self)),
        Ok (empty (bool_decide (is_Some (entries self !! resource)))))
  else if bool_decide (operation = "metadata") && (write_method method || patch)
  then write_metadata resource body now patch self
  else (self, Err unsupported).

Definition handle (method path : string) (body : Value) (now : N) :
  M t EngineError EngineResponse := λ self,
  if bool_decide (path = "config") then handle_config method body self
  else
    let '(operation, resource) := option.default (path, "") (split_once "/" path) in
    if (bool_decide (operation = "metadata") || bool_decide (operation = "detailed-metadata"))
       && is_list method
    then (self, list_metadata self operation method resource body)
    else if negb (bool_decide (operation ∈ ["data"; "subkeys"; "metadata"; "delete"; "undelete"; "destroy"]))
    then (self, Err (error 404 "unknown KV v2 operation"))
    else match valid_path resource with
    | Err e => (self, Err e)
    | Ok _ => handle_resource operation method resource body now self
    end.
End Kv2.
Notation Kv2 := Kv2.t.
