(* ===== verification/Kv2Spec.v ===== *)
(** Specification of the versioned key-value engine: how a request changes the
    entry of a key ([entry_step]), the engine's invariant over every sequence of
    requests, and the behaviour of writes, reads and destruction. *)
From Stdlib Require Import Ascii NArith.
From S2P Require Import Prelude Str Json Engine Kv2.
Import Engine.

(** * Settings *)
Definition config_ok (c : Config) : Prop :=
  (Config.max_versions c ≤ MAX_RETAINED_VERSIONS ∧ Config.delete_version_after c ≤ MAX_DURATION)%N.

Lemma duration_seconds_bound v n : duration_seconds v = Ok n → (n ≤ MAX_DURATION)%N.
Proof.
  unfold duration_seconds. destruct (Json.as_str v) as [text|]; simpl; [|done].
  case_bool_decide; [intros [= <-]; unfold MAX_DURATION; lia|].
  destruct (duration_loop _ _ _) as [[number total]|]; [|done].
  destruct (N.ltb_spec MAX_DURATION total); [by rewrite orb_true_r|].
  destruct (_ || _); [done|]. by intros [= <-].
Qed.

Lemma config_update_ok body c : config_ok c → config_ok (Config.update body c).1.
Proof.
  intros [H1 H2]. unfold Config.update.
  destruct (optional_u64 _ _) as [max|]; [|done].
  destruct (match max with Some _ => _ | None => _ end) eqn:Hmax; [done|].
  destruct max as [max|]; [apply N.ltb_ge in Hmax|];
    (destruct (optional_bool _ _) as [[cas|]|]; [| |by split]);
    (destruct (Json.get _ _) as [after|]; [|by split]);
    (destruct (duration_seconds after) as [secs|] eqn:Hd; [|by split]);
    split; simpl; eauto using duration_seconds_bound.
Qed.

Lemma effective_retention_bounds e c :
  config_ok e → config_ok c →
  (1 ≤ Kv2.effective_retention e c ≤ MAX_RETAINED_VERSIONS)%N.
Proof.
  intros [H1 _] [H2 _]. unfold Kv2.effective_retention, MAX_RETAINED_VERSIONS in *.
  destruct (Config.max_versions e), (Config.max_versions c); lia.
Qed.

Definition custom_ok (m : option (gmap string string)) : Prop :=
  ∀ c, m = Some c → size c ≤ 64 ∧
    ∀ k v, c !! k = Some v → 1 ≤ String.length k ≤ 128 ∧ String.length v ≤ 512.

Lemma custom_loop_ok patch l next r :
  (∀ k v, next !! k = Some v → 1 ≤ String.length k ≤ 128 ∧ String.length v ≤ 512) →
  Kv2.custom_loop patch l next = Ok r →
  ∀ k v, r !! k = Some v → 1 ≤ String.length k ≤ 128 ∧ String.length v ≤ 512.
Proof.
  revert next. induction l as [|[key value] l IH]; intros next Hn; simpl; [by intros [= <-]|].
  case_bool_decide as Hk; simpl; [done|].
  destruct (Nat.ltb_spec 128 (String.length key)); [done|].
  destruct (patch && Json.is_null value).
  - apply IH. intros k v [_ ?]%lookup_delete_Some. eauto.
  - destruct (Json.as_str value) as [s|]; simpl; [|done].
    destruct (Nat.ltb_spec 512 (String.length s)); [done|]. apply IH.
    intros k v [[<- <-]|[_ ?]]%lookup_insert_Some; [|eauto].
    split; [|lia]. destruct key; simpl in *; [done|lia].
Qed.

Lemma new_custom_ok patch metadata old r :
  custom_ok old → Kv2.new_custom patch metadata old = Ok r → custom_ok r.
Proof.
  intros Hold. unfold Kv2.new_custom. destruct (Json.is_null metadata); [by intros [= <-] ?|].
  destruct (Json.as_object metadata) as [l|]; simpl; [|done].
  destruct (Kv2.custom_loop _ _ _) as [next|] eqn:Hl; [|done].
  destruct (Nat.ltb_spec 64 (size next)); [done|]. intros [= <-] c [= <-]. split; [lia|].
  eapply custom_loop_ok; [|exact Hl]. destruct patch; [|done].
  destruct old as [o|]; simpl; [by apply Hold|done].
Qed.

(** * How a request changes an entry *)
Inductive entry_step (engine : Config) (now : N) (o : option Entry) : option Entry → Prop :=
| es_same : entry_step engine now o o
| es_removed : entry_step engine now o None
| es_created : o = None → entry_step engine now o (Some (Entry.new now))
| es_stored e deletion data :
    e = default (Entry.new now) o → (Entry.current_version e + 1 ≤ U64_MAX)%N →
    entry_step engine now o
      (Some (Kv2.store_version e engine (Entry.current_version e + 1) now
               (Version.mk now deletion false (Some data))))
| es_changed e operation numbers :
    o = Some e →
    entry_step engine now o
      (Some (Entry.set_versions
               (Kv2.change_loop operation now numbers (Entry.versions e) false).1 e))
| es_metadata e body custom :
    e = default (Entry.new now) o → (custom_ok (Entry.custom_metadata e) → custom_ok custom) →
    entry_step engine now o
      (Some (Entry.set_custom custom
               (Entry.set_config (Config.update body (Entry.config e)).1 e))).

Lemma set_custom_id e : Entry.set_custom (Entry.custom_metadata e) e = e.
Proof. by destruct e. Qed.

(** A call that leaves everything, or replaces the entry of one key. *)
Definition sets (resource : string) (now : N) (s s' : Kv2) : Prop :=
  s' = s ∨ ∃ e, s' = Kv2.set_entry resource e s
                ∧ entry_step (Kv2.config s) now (Kv2.entries s !! resource) (Some e).

Lemma sets_refl r now s : sets r now s s.
Proof. by left. Qed.

Lemma sets_set r now s e :
  entry_step (Kv2.config s) now (Kv2.entries s !! r) (Some e) → sets r now s (Kv2.set_entry r e s).
Proof. intros Hs. right. eauto. Qed.

Lemma set_entry_twice r e e' s : Kv2.set_entry r e' (Kv2.set_entry r e s) = Kv2.set_entry r e' s.
Proof. unfold Kv2.set_entry. simpl. by rewrite insert_insert_eq. Qed.

Lemma write_checks_next s r body now patch data next :
  Kv2.write_checks s r body now patch = Ok (data, next) →
  let e := default (Entry.new now) (Kv2.entries s !! r) in
  next = (Entry.current_version e + 1)%N ∧ (Entry.current_version e + 1 ≤ U64_MAX)%N.
Proof.
  unfold Kv2.write_checks. destruct (reject_unknown _ _); [|done].
  destruct (ok_or _ _) as [new|]; [|done]. destruct (Kv2.cas_param body); [|done].
  destruct (_ && _); [done|]. destruct (_ || _); [done|].
  destruct (if patch then _ else _) as [d|]; [|done].
  destruct (ok_or (checked_add _ 1) _) as [n|] eqn:Hn; [|done]. intros [= -> ->].
  destruct (checked_add _ 1) as [m|] eqn:Hadd; [|done]. injection Hn as ->.
  apply checked_add_Some in Hadd as [-> Hle]. by destruct (Kv2.entries s !! r).
Qed.

Lemma write_sets r body now patch s : sets r now s (Kv2.write r body now patch s).1.
Proof.
  unfold Kv2.write. destruct (Kv2.write_checks _ _ _ _ _) as [[data next]|] eqn:Hc; [|apply sets_refl].
  apply write_checks_next in Hc as [-> Hmax]. simpl in Hmax.
  set (e := default _ _) in *. destruct (if (_ =? 0)%N then _ else _) as [deletion|].
  - simpl. rewrite set_entry_twice. apply sets_set. by apply es_stored.
  - apply sets_set. subst e. destruct (Kv2.entries s !! r) as [e|]; [constructor|by apply es_created].
Qed.

Lemma change_versions_sets r op body now s :
  sets r now s (Kv2.change_versions r op body now s).1.
Proof.
  unfold Kv2.change_versions. destruct (let? _ := _ in _) as [numbers|]; [|apply sets_refl].
  destruct (Kv2.entries s !! r) as [e|] eqn:He; [|apply sets_refl].
  pose proof (es_changed (Kv2.config s) now (Kv2.entries s !! r) e op numbers He) as Hs.
  destruct (Kv2.change_loop _ _ _ _ _) as [vs ch]. by apply sets_set.
Qed.

(** Deleting the current version is the version loop on one number. *)
Lemma delete_current_loop r now s :
  (Kv2.delete_current r now s).1 = s ∨
  ∃ e, Kv2.entries s !! r = Some e ∧
    (Kv2.delete_current r now s).1 =
    Kv2.set_entry r (Entry.set_versions
      (Kv2.change_loop "delete" now [Entry.current_version e] (Entry.versions e) false).1 e) s.
Proof.
  unfold Kv2.delete_current. destruct (Kv2.entries s !! r) as [e|]; [|by left].
  destruct (Entry.versions e !! Entry.current_version e) as [v|] eqn:Hv; [|by left].
  destruct (negb (Version.destroyed v) && Version.undeleted v now) eqn:Hd; [|by left].
  right. exists e. split; [done|]. simpl. rewrite Hv. unfold Kv2.change_version.
  apply andb_true_iff in Hd as [->%negb_true_iff ->]. done.
Qed.

Lemma delete_current_sets r now s : sets r now s (Kv2.delete_current r now s).1.
Proof.
  destruct (delete_current_loop r now s) as [->|(e & He & ->)]; [apply sets_refl|].
  apply sets_set. by apply es_changed.
Qed.

Lemma write_metadata_sets r body now patch s :
  sets r now s (Kv2.write_metadata r body now patch s).1.
Proof.
  unfold Kv2.write_metadata. destruct (reject_unknown _ _); [|apply sets_refl].
  destruct (_ && _); [apply sets_refl|].
  pose proof (λ c Hc, es_metadata (Kv2.config s) now (Kv2.entries s !! r) _ body c eq_refl Hc) as Hs.
  set (e := default (Entry.new now) (Kv2.entries s !! r)) in *.
  destruct (Config.update body (Entry.config e)) as [c res]. simpl in Hs.
  assert (sets r now s (Kv2.set_entry r (Entry.set_config c e) s)) as Hsame.
  { apply sets_set. specialize (Hs (Entry.custom_metadata e) (λ x, x)).
    by destruct e. }
  destruct res as [[]|]; [|done]. destruct (Json.get _ _) as [md|]; [|done].
  destruct (Kv2.new_custom _ _ _) as [custom|] eqn:Hn; [|done].
  apply sets_set, Hs. intros Hc. by eapply new_custom_ok.
Qed.

(** A request on a key sets its entry, unless it removes the key. *)
Lemma handle_resource_cases op method r body now s :
  let s' := (Kv2.handle_resource op method r body now s).1 in
  sets r now s s'
  ∨ op = "metadata" ∧ method = "DELETE" ∧ s' = Kv2.mk (Kv2.config s) (delete r (Kv2.entries s)).
Proof.
  unfold Kv2.handle_resource.
  destruct (_ && bool_decide (method = "GET")); [left; apply sets_refl|].
  destruct (bool_decide (op = "data") && _); [left; apply write_sets|].
  destruct (bool_decide (op = "data") && _).
  { left. pose proof (delete_current_sets r now s) as Ht. by destruct (Kv2.delete_current r now s). }
  destruct (_ && write_method method); [left; apply change_versions_sets|].
  destruct (bool_decide (op = "metadata") && _); [left; apply sets_refl|].
  destruct (bool_decide (op = "metadata") && bool_decide (method = "DELETE")) eqn:Hdel.
  { right. apply andb_true_iff in Hdel as [H1%bool_decide_eq_true H2%bool_decide_eq_true]. done. }
  left. clear Hdel. destruct (_ && _); [apply write_metadata_sets|apply sets_refl].
Qed.

(** In either case one entry takes a step. *)
Lemma handle_resource_touches op method r body now s :
  let s' := (Kv2.handle_resource op method r body now s).1 in
  Kv2.config s' = Kv2.config s
  ∧ (∀ r', r' ≠ r → Kv2.entries s' !! r' = Kv2.entries s !! r')
  ∧ entry_step (Kv2.config s) now (Kv2.entries s !! r) (Kv2.entries s' !! r)
  ∧ (is_Some (Kv2.entries s !! r) → Kv2.entries s' !! r = None → op = "metadata" ∧ method = "DELETE").
Proof.
  destruct (handle_resource_cases op method r body now s) as [[E|(e & E & Hs)]|(-> & -> & E)];
    rewrite E; simpl.
  - split_and!; [done|done|constructor|]. intros [? ?]. congruence.
  - rewrite lookup_insert_eq. split_and!; [done| |done|done].
    intros r' Hr'. by rewrite lookup_insert_ne.
  - rewrite lookup_delete_eq. split_and!; [done| |constructor|done].
    intros r' Hr'. by rewrite lookup_delete_ne.
Qed.

(** A request changes the engine's settings, or one key. *)
Lemma handle_cases method path body now s :
  let s' := (Kv2.handle method path body now s).1 in
  (Kv2.entries s' = Kv2.entries s ∧ Kv2.config s' = (Config.update body (Kv2.config s)).1)
  ∨ s' = s
  ∨ ∃ op r, path = op +:+ "/" +:+ r ∧ s' = (Kv2.handle_resource op method r body now s).1.
Proof.
  unfold Kv2.handle. case_bool_decide as Hp.
  { unfold Kv2.handle_config. case_bool_decide; [by right; left|].
    destruct (negb _); [by right; left|]. destruct (reject_unknown _ _); [|by right; left].
    left. by destruct (Config.update body (Kv2.config s)). }
  right. destruct (split_once "/" path) as [[op r]|] eqn:Hs; simpl.
  - apply split_once_Some in Hs as [Hs _]. destruct (_ && is_list method); [by left|].
    destruct (negb _); [by left|]. destruct (valid_path r); [|by left].
    right. by exists op, r.
  - destruct (_ && is_list method); [by left|]. destruct (negb _); [by left|]. by left.
Qed.

(** * The invariant *)
Definition version_ok (v : Version) : Prop :=
  if Version.destroyed v then Version.data v = None else is_Some (Version.data v).

Record entry_inv (e : Entry) : Prop := {
  ei_config : config_ok (Entry.config e);
  ei_custom : custom_ok (Entry.custom_metadata e);
  ei_current : (Entry.current_version e ≤ U64_MAX)%N;
  ei_versions : ∀ n v, Entry.versions e !! n = Some v →
    (1 ≤ n ≤ Entry.current_version e)%N ∧ version_ok v;
  ei_latest : Entry.current_version e = 0%N ∨ is_Some (Entry.versions e !! Entry.current_version e);
  ei_size : size (Entry.versions e) ≤ N.to_nat MAX_RETAINED_VERSIONS;
}.

Record kv2_inv (s : Kv2) : Prop := {
  kv2_config : config_ok (Kv2.config s);
  kv2_entries : ∀ r e, Kv2.entries s !! r = Some e → entry_inv e;
}.

Lemma config_default_ok : config_ok Config.default.
Proof. split; simpl; unfold MAX_RETAINED_VERSIONS, MAX_DURATION; lia. Qed.

Lemma entry_new_inv now : entry_inv (Entry.new now).
Proof.
  split; [apply config_default_ok|done|simpl; unfold U64_MAX; lia| |by left|].
  - intros n v. simpl. by rewrite lookup_empty.
  - apply Nat.le_0_l.
Qed.

Definition version_step (op : string) (now : N) : relation Version :=
  λ v v', Kv2.change_version op now v = Some v'.

Lemma change_loop_lookup op now numbers vs b n :
  match vs !! n with
  | None => (Kv2.change_loop op now numbers vs b).1 !! n = None
  | Some v => ∃ v', (Kv2.change_loop op now numbers vs b).1 !! n = Some v'
                    ∧ rtc (version_step op now) v v'
  end.
Proof.
  revert vs b. induction numbers as [|k numbers IH]; intros vs b; simpl.
  { destruct (vs !! n); eauto using rtc_refl. }
  destruct (vs !! k) as [w|] eqn:Hk; [|apply IH].
  destruct (Kv2.change_version op now w) as [w'|] eqn:Hw; [|apply IH].
  specialize (IH (<[k := w']> vs) true). rewrite lookup_insert in IH.
  case_decide as E; [subst|done]. rewrite Hk. destruct IH as (v' & Hv' & Hr).
  exists v'. split; [done|]. by eapply rtc_l.
Qed.

Lemma change_loop_dom op now numbers vs b :
  dom (Kv2.change_loop op now numbers vs b).1 = dom vs.
Proof.
  apply set_eq. intros n. rewrite !elem_of_dom.
  pose proof (change_loop_lookup op now numbers vs b n) as Hn.
  destruct (vs !! n); [|by rewrite Hn]. destruct Hn as (v' & -> & _). split; eauto.
Qed.

(** A version in a loop stays well-formed, and a destroyed one does not change. *)
Lemma version_step_ok op now v v' : version_step op now v v' → version_ok v → version_ok v'.
Proof.
  unfold version_step, Kv2.change_version, version_ok.
  destruct (Version.destroyed v) eqn:Hd; [done|]. case_bool_decide.
  { by intros [= <-]. }
  destruct (_ && _); [intros [= <-]; simpl; by rewrite Hd|].
  destruct (_ && _); [intros [= <-]; simpl; by rewrite Hd|done].
Qed.

Lemma version_steps_ok op now v v' :
  rtc (version_step op now) v v' → version_ok v → version_ok v'.
Proof. induction 1; eauto using version_step_ok. Qed.

Lemma version_steps_destroyed op now v v' :
  rtc (version_step op now) v v' → Version.destroyed v = true → v' = v.
Proof.
  intros Hr Hd. destruct Hr as [|v v1 v' Hs _]; [done|].
  unfold version_step, Kv2.change_version in Hs. by rewrite Hd in Hs.
Qed.

Lemma size_in_range {V} (m : gmap N V) (a r : N) :
  (∀ k, is_Some (m !! k) → a < k ≤ a + r)%N → size m ≤ N.to_nat r.
Proof.
  intros Hk. rewrite <- (size_dom (D:=gset N) m).
  pose (l := (λ i, (a + N.of_nat i)%N) <$> seq 1 (N.to_nat r)).
  assert (length l = N.to_nat r) as <- by (subst l; by rewrite length_fmap, length_seq).
  apply submseteq_length, NoDup_submseteq; [apply NoDup_elements|].
  intros k Hin%elem_of_elements%elem_of_dom. specialize (Hk k Hin).
  apply list_elem_of_fmap. exists (N.to_nat (k - a)). split; [lia|]. apply elem_of_seq. lia.
Qed.

Lemma store_version_inv e engine now deletion data :
  entry_inv e → config_ok engine → (Entry.current_version e + 1 ≤ U64_MAX)%N →
  entry_inv (Kv2.store_version e engine (Entry.current_version e + 1) now
               (Version.mk now deletion false (Some data))).
Proof.
  intros [H1 H2 H3 H4 H5 H6] Hc Hmax.
  pose proof (effective_retention_bounds _ _ H1 Hc) as [Hr1 Hr2].
  unfold Kv2.store_version. set (next := (Entry.current_version e + 1)%N) in *.
  set (ret := Kv2.effective_retention _ _) in *. set (floor := saturating_add _ 1).
  assert (floor = next - ret + 1)%N as Hfloor by (subst floor; unfold saturating_add; lia).
  assert (∀ n v, filter (λ kv, (floor ≤ kv.1)%N)
      (<[next := Version.mk now deletion false (Some data)]> (Entry.versions e)) !! n = Some v →
    (floor ≤ n ≤ next ∧ 1 ≤ n)%N ∧ version_ok v) as Hlook.
  { intros n v [Hl Hf]%map_lookup_filter_Some. simpl in Hf.
    apply lookup_insert_Some in Hl as [[<- <-]|[_ Hl]]; [split; [lia|by eexists]|].
    destruct (H4 n v Hl). split; [lia|done]. }
  split; simpl; try done.
  - intros n v Hv%Hlook. destruct Hv as [Hv ?]. split; [lia|done].
  - right. exists (Version.mk now deletion false (Some data)). apply map_lookup_filter_Some. rewrite lookup_insert_eq.
    split; [done|]. simpl. lia.
  - etrans; [apply (size_in_range _ (next - ret) ret)|lia].
    intros k [v Hv]. apply Hlook in Hv as [Hv _]. lia.
Qed.

Lemma set_versions_inv e op now numbers b :
  entry_inv e →
  entry_inv (Entry.set_versions (Kv2.change_loop op now numbers (Entry.versions e) b).1 e).
Proof.
  intros [H1 H2 H3 H4 H5 H6]. pose proof (change_loop_lookup op now numbers (Entry.versions e) b) as Hl.
  pose proof (change_loop_dom op now numbers (Entry.versions e) b) as Hd.
  split; simpl; try done.
  - intros n v Hv. specialize (Hl n). destruct (Entry.versions e !! n) as [v0|] eqn:Hn; [|congruence].
    destruct Hl as (v' & Hv' & Hr). destruct (H4 n v0 Hn). split; [done|].
    assert (v' = v) as -> by congruence. by eapply version_steps_ok.
  - destruct H5 as [|Hs]; [by left|right]. by rewrite <- elem_of_dom, Hd, elem_of_dom.
  - by rewrite <- (size_dom (D:=gset N)), Hd, size_dom.
Qed.

Lemma entry_step_inv engine now o o' :
  config_ok engine → entry_step engine now o o' →
  (∀ e, o = Some e → entry_inv e) → ∀ e', o' = Some e' → entry_inv e'.
Proof.
  intros Hc Hs Ho e' He'.
  assert (entry_inv (default (Entry.new now) o)) as Hdef.
  { destruct o as [e|]; simpl; [by apply Ho|apply entry_new_inv]. }
  destruct Hs as [| |_|e deletion data -> Hmax|e op numbers E|e body custom -> Hcu];
    simplify_eq; auto using entry_new_inv.
  - by apply store_version_inv.
  - apply set_versions_inv. auto.
  - destruct Hdef as [H1 H2 H3 H4 H5 H6]. split; simpl; auto. by apply config_update_ok.
Qed.

(** * Sequences of requests *)
Record Kv2Op := kv2_op { op_method : string; op_path : string; op_body : Value; op_now : N }.

Definition kv2_exec (o : Kv2Op) (s : Kv2) : Kv2 :=
  (Kv2.handle (op_method o) (op_path o) (op_body o) (op_now o) s).1.

Lemma kv2_exec_inv o s : kv2_inv s → kv2_inv (kv2_exec o s).
Proof.
  intros [Hc He]. unfold kv2_exec.
  destruct (handle_cases (op_method o) (op_path o) (op_body o) (op_now o) s)
    as [[E1 E2]|[->|(op & r & _ & ->)]]; [| done |].
  - split; [rewrite E2; by apply config_update_ok|]. rewrite E1. done.
  - pose proof (handle_resource_touches op (op_method o) r (op_body o) (op_now o) s) as (T1 & T2 & T3 & _).
    split; [by rewrite T1|]. intros r' e'. destruct (decide (r' = r)) as [->|Hne].
    + intros E. eapply entry_step_inv; [exact Hc|exact T3| |exact E]. eauto.
    + rewrite T2 by done. apply He.
Qed.

Lemma kv2_default_inv : kv2_inv Kv2.default.
Proof. split; [apply config_default_ok|]. intros r e. simpl. by rewrite lookup_empty. Qed.

Lemma kv2_reachable_inv ops : kv2_inv (run kv2_exec ops Kv2.default).
Proof. apply run_invariant; [apply kv2_exec_inv|apply kv2_default_inv]. Qed.

(** * Destruction *)

(** Version [n] of [r] has existed and holds no data any more. *)
Definition gone (r : string) (n : N) (s : Kv2) : Prop :=
  kv2_inv s ∧ ∃ e, Kv2.entries s !! r = Some e ∧ (n ≤ Entry.current_version e)%N ∧
    ∀ v, Entry.versions e !! n = Some v → Version.destroyed v = true.

Lemma store_version_lookup e engine next now v n :
  Entry.versions (Kv2.store_version e engine next now v) !! n =
  if decide (saturating_add (next - Kv2.effective_retention (Entry.config e) engine) 1 ≤ n)%N
  then <[next := v]> (Entry.versions e) !! n else None.
Proof.
  unfold Kv2.store_version. simpl. case_decide as Hf.
  - destruct (<[next := v]> (Entry.versions e) !! n) eqn:E.
    + by apply map_lookup_filter_Some.
    + apply map_lookup_filter_None. by left.
  - apply map_lookup_filter_None. right. intros x _. done.
Qed.

Lemma entry_step_gone engine now e e' n :
  entry_step engine now (Some e) (Some e') → (n ≤ Entry.current_version e)%N →
  (∀ v, Entry.versions e !! n = Some v → Version.destroyed v = true) →
  (n ≤ Entry.current_version e')%N
  ∧ ∀ v, Entry.versions e' !! n = Some v → Version.destroyed v = true.
Proof.
  intros Hs Hn Hd. inversion Hs as [| |?|e0 deletion data E Hmax|e0 op numbers E|e0 body custom E Hcu];
    simplify_eq; [done| | |done].
  - cbn [from_option id] in *. split; [simpl; lia|]. intros v. rewrite store_version_lookup. case_decide; [|done].
    rewrite lookup_insert_ne by (simpl in Hn; lia). apply Hd.
  - split; [done|]. intros v Hv. cbn [Entry.versions Entry.set_versions] in Hv.
    pose proof (change_loop_lookup op now numbers (Entry.versions e0) false n) as Hl.
    destruct (Entry.versions e0 !! n) as [v0|] eqn:Hv0; [|congruence].
    destruct Hl as (v' & Hv' & Hr). assert (v' = v) as -> by congruence.
    apply version_steps_destroyed in Hr as ->; auto.
Qed.

Definition removes (r : string) (o : Kv2Op) : Prop :=
  op_method o = "DELETE" ∧ op_path o = "metadata/" +:+ r.

Lemma kv2_exec_gone o r n s : ¬ removes r o → gone r n s → gone r n (kv2_exec o s).
Proof.
  intros Ho (Hinv & e & He & Hn & Hd). split; [by apply kv2_exec_inv|]. unfold kv2_exec.
  destruct (handle_cases (op_method o) (op_path o) (op_body o) (op_now o) s)
    as [[E1 E2]|[->|(op & r' & Hp & ->)]]; [rewrite E1; eauto|eauto|].
  destruct (handle_resource_touches op (op_method o) r' (op_body o) (op_now o) s)
    as (T1 & T2 & T3 & T4).
  destruct (decide (r = r')) as [<-|Hne]; [|rewrite T2 by done; eauto].
  rewrite He in T3, T4.
  destruct (Kv2.entries (Kv2.handle_resource _ _ _ _ _ _).1 !! r) as [e'|] eqn:He'.
  - exists e'. split; [done|]. by eapply entry_step_gone.
  - destruct T4 as [-> Hm]; [eauto|done|]. by destruct Ho.
Qed.

Lemma change_loop_destroys now numbers vs b n v :
  n ∈ numbers → (Kv2.change_loop "destroy" now numbers vs b).1 !! n = Some v →
  Version.destroyed v = true.
Proof.
  revert vs b. induction numbers as [|k numbers IH]; intros vs b; [by intros ?%not_elem_of_nil|].
  simpl. destruct (decide (n = k)) as [<-|Hne].
  2:{ intros [?|Hin]%elem_of_cons; [done|].
      destruct (vs !! k) as [w|]; [|by apply IH].
      destruct (Kv2.change_version _ _ _); by apply IH. }
  intros _ Hv. assert (∀ vs' b' w, vs' !! n = Some w → Version.destroyed w = true →
    (Kv2.change_loop "destroy" now numbers vs' b').1 !! n = Some v → v = w) as Hstay.
  { intros vs' b' w Hw Hdw Hv'. pose proof (change_loop_lookup "destroy" now numbers vs' b' n) as Hl.
    rewrite Hw in Hl. destruct Hl as (v' & Hv'' & Hr). apply version_steps_destroyed in Hr; congruence. }
  destruct (vs !! n) as [w|] eqn:Hw.
  - unfold Kv2.change_version in Hv. destruct (Version.destroyed w) eqn:Hdw.
    + by rewrite (Hstay _ _ _ Hw Hdw Hv).
    + simpl in Hv. by rewrite (Hstay _ _ (Version.destroy w) (lookup_insert_eq _ _ _) eq_refl Hv).
  - pose proof (change_loop_lookup "destroy" now numbers vs b n) as Hl. rewrite Hw in Hl. congruence.
Qed.

(** What a read of a version that is gone answers. *)
Lemma read_gone r n s body now sub resp :
  gone r n s → n ≠ 0%N → optional_u64 body "version" = Ok (Some n) →
  Kv2.read s r body now sub = Ok resp → EngineResponse.status resp = 404%N.
Proof.
  intros (_ & e & He & _ & Hd) Hn Hb. unfold Kv2.read. rewrite He, Hb. simpl.
  rewrite (proj2 (N.eqb_neq n 0) Hn).
  destruct (Entry.versions e !! n) as [v|] eqn:Hv; simpl; [|done].
  unfold Version.readable. rewrite (Hd v eq_refl). simpl. by intros [= <-].
Qed.

(** * Requests on one key *)

(** A request on ["op/r"] that is not a listing reaches [handle_resource], or
    fails without effect. *)
Lemma handle_on op method r body now s :
  op ∈ ["data"; "subkeys"; "metadata"; "delete"; "undelete"; "destroy"] →
  is_list method = false →
  Kv2.handle method (op +:+ "/" +:+ r) body now s =
  match valid_path r with
  | Err e => (s, Err e)
  | Ok _ => Kv2.handle_resource op method r body now s
  end.
Proof.
  intros Hop Hm. unfold Kv2.handle.
  assert (split_once "/" (op +:+ "/" +:+ r) = Some (op, r)) as ->.
  { repeat (apply elem_of_cons in Hop as [->|Hop]; [done|]). by apply not_elem_of_nil in Hop. }
  rewrite bool_decide_eq_false_2.
  - cbn [from_option id]. rewrite Hm, andb_false_r.
    by rewrite (bool_decide_eq_true_2 (op ∈ _)) by done.
  - intros E. repeat (apply elem_of_cons in Hop as [->|Hop]; [done|]). by apply not_elem_of_nil in Hop.
Qed.

Lemma write_Ok_entry r body now patch s s' resp :
  Kv2.write r body now patch s = (s', Ok resp) →
  let e := default (Entry.new now) (Kv2.entries s !! r) in
  let after := Kv2.effective_after (Entry.config e) (Kv2.config s) in
  ∃ data, Kv2.write_checks s r body now patch = Ok (data, (Entry.current_version e + 1)%N)
    ∧ let v := Version.mk now (if (after =? 0)%N then None else Some (now + after)%N) false (Some data) in
      s' = Kv2.set_entry r (Kv2.store_version e (Kv2.config s) (Entry.current_version e + 1) now v) s
      ∧ resp = ok (Version.metadata v (Entry.current_version e + 1) (Entry.custom_metadata e)) true
      ∧ (after ≠ 0 → now + after ≤ U64_MAX)%N.
Proof.
  intros Hw e after. unfold Kv2.write in Hw.
  destruct (Kv2.write_checks s r body now patch) as [[data next]|] eqn:Hc; [|done].
  pose proof Hc as [-> _]%write_checks_next. exists data. split; [done|].
  fold e in Hw. cbn [Kv2.config Kv2.set_entry] in Hw. fold after in Hw.
  destruct (N.eqb_spec after 0) as [E|E].
  - rewrite set_entry_twice in Hw. simplify_eq. done.
  - destruct (checked_add now after) as [d|] eqn:Hd; [|done]. simpl in Hw.
    apply checked_add_Some in Hd as [-> Hd]. rewrite set_entry_twice in Hw. simplify_eq. done.
Qed.

(** The current version is always retained. *)
Lemma store_version_current e engine now v :
  config_ok (Entry.config e) → config_ok engine → (Entry.current_version e + 1 ≤ U64_MAX)%N →
  Entry.versions (Kv2.store_version e engine (Entry.current_version e + 1) now v)
    !! (Entry.current_version e + 1)%N = Some v.
Proof.
  intros He Hc Hmax. pose proof (effective_retention_bounds _ _ He Hc) as [? ?].
  rewrite store_version_lookup, decide_True; [apply lookup_insert_eq|].
  unfold saturating_add. lia.
Qed.

(** The current version of a key, 0 if it does not exist. *)
Definition current_of (s : Kv2) (r : string) : N :=
  match Kv2.entries s !! r with Some e => Entry.current_version e | None => 0%N end.

(** The data a read of the current version returns. *)
Definition current_data (s : Kv2) (r : string) (now : N) : option Value :=
  match Kv2.entries s !! r with
  | Some e => match Entry.versions e !! Entry.current_version e with
              | Some v => if Version.readable v now then Version.data v else None
              | None => None
              end
  | None => None
  end.

Definition cas_needed (s : Kv2) (r : string) : bool :=
  Config.cas_required (Kv2.config s)
  || match Kv2.entries s !! r with Some e => Config.cas_required (Entry.config e) | None => false end.

Lemma write_checks_Ok s r body now patch data next :
  Kv2.write_checks s r body now patch = Ok (data, next) →
  ∃ new cas, Json.get body "data" = Some new ∧ Json.is_object new = true
    ∧ Kv2.cas_param body = Ok cas
    ∧ (∀ x, cas = Some x → x = current_of s r)
    ∧ (cas_needed s r = true → cas ≠ None)
    ∧ if patch then ∃ old, current_data s r now = Some old ∧ data = merge_patch old new
      else data = new.
Proof.
  unfold Kv2.write_checks. destruct (reject_unknown _ _); [|done].
  destruct (Json.get body "data") as [new|]; [|done].
  destruct (Json.is_object new) eqn:Hobj; [|done]. cbn [ok_or].
  destruct (Kv2.cas_param body) as [cas|]; [|done]. fold (cas_needed s r).
  fold (current_of s r).
  destruct (cas_needed s r && bool_decide (cas = None)) eqn:Hneed; [done|].
  destruct (_ || _) eqn:Hcas; [done|]. apply orb_false_iff in Hcas as [Hcas _].
  destruct (if patch then _ else _) as [d|] eqn:Hd; [|done].
  destruct (ok_or (checked_add _ _) _) as [n|]; [|discriminate]. intros [= -> ->].
  exists new, cas. split_and!; try done.
  - intros x ->. by apply negb_false_iff, N.eqb_eq in Hcas.
  - intros Hn ->. rewrite Hn in Hneed. by rewrite bool_decide_eq_true_2 in Hneed.
  - destruct patch; [|by injection Hd as ->]. unfold current_data, current_of in *.
    destruct (Kv2.entries s !! r) as [e|]; [|done].
    destruct (Entry.versions e !! Entry.current_version e) as [v|]; [|done].
    destruct (Version.readable v now); [|done]. destruct (Version.data v) as [old|]; [|done].
    injection Hd as <-. eauto.
Qed.

(** Reading what [store_version] has put in place. *)
Lemma read_stored s r e v n body now sub :
  Kv2.entries s !! r = Some e → Entry.current_version e = n → Entry.versions e !! n = Some v →
  optional_u64 body "version" = Ok None → Version.readable v now = true → sub = false →
  ∃ data, Version.data v = Some data ∧
    Kv2.read s r body now sub =
    Ok (ok (Json.object [("data", data); ("metadata", Version.metadata v n (Entry.custom_metadata e))]) false).
Proof.
  intros He Hn Hv Hb Hr ->. pose proof Hr as Hdata. unfold Version.readable in Hdata.
  apply andb_true_iff in Hdata as [[_ [data Hdata]%bool_decide_eq_true]%andb_true_iff _].
  exists data. split; [done|]. unfold Kv2.read. rewrite He. cbn [ok_or]. rewrite Hb, Hn, Hv. cbn [ok_or].
  by rewrite Hr, Hdata.
Qed.

(** ** Properties *)

(** The engine's invariant holds after any sequence of requests, failed
    ones included: settings stay within the retention and ten-year bounds, each
    key keeps at most 10,000 versions, numbered from 1 up to its current
    version, the current version is always retained, a version has data exactly
    until it is destroyed, and custom metadata respects its size limits. *)
Theorem kv2_invariant (ops : list Kv2Op) : kv2_inv (run kv2_exec ops Kv2.default).
Proof. apply kv2_reachable_inv. Qed.

(** Destroying a version is irrevocable.  After a destroy request for an
    existing version number has succeeded, no later sequence of requests short of
    removing the whole key makes a read of that version answer anything but 404,
    and no record of it in the store holds data. *)
Theorem kv2_destroy_irrevocable (s s' : Kv2) (r : string) (e : Entry) (body : Value)
    (l : list Value) (numbers : list N) (n now : N) (resp : EngineResponse) (ops : list Kv2Op) :
  kv2_inv s → Kv2.entries s !! r = Some e → (n ≤ Entry.current_version e)%N →
  Json.get body "versions" = Some (VArray l) → Kv2.version_numbers l = Ok numbers → n ∈ numbers →
  Kv2.handle "POST" ("destroy/" +:+ r) body now s = (s', Ok resp) →
  Forall (λ o, ¬ removes r o) ops →
  let t := run kv2_exec ops s' in
  (∀ body2 now2 sub resp2, n ≠ 0%N → optional_u64 body2 "version" = Ok (Some n) →
     Kv2.read t r body2 now2 sub = Ok resp2 → EngineResponse.status resp2 = 404%N)
  ∧ ∀ e' v, Kv2.entries t !! r = Some e' → Entry.versions e' !! n = Some v → Version.data v = None.
Proof.
  intros Hinv He Hn Hb Hl Hin Hh Hops t.
  assert (gone r n s') as Hgone.
  { pose proof (kv2_exec_inv (kv2_op "POST" ("destroy/" +:+ r) body now) s Hinv) as Hinv'.
    unfold kv2_exec in Hinv'. simpl op_method in Hinv'. simpl op_body in Hinv'.
    simpl op_now in Hinv'. simpl op_path in Hinv'. change ("destroy/" +:+ r) with ("destroy" +:+ "/" +:+ r) in *.
    rewrite handle_on in Hh, Hinv' by (done || by do 5 right; left).
    destruct (valid_path r); [|done].
    change (Kv2.handle_resource "destroy" "POST" r body now s)
      with (Kv2.change_versions r "destroy" body now s) in *.
    unfold Kv2.change_versions in *. destruct (reject_unknown _ _); [|done].
    rewrite Hb in Hh, Hinv'. simpl in Hh, Hinv'. destruct l as [|x l]; [done|]. cbn [ok_or] in Hh, Hinv'.
    rewrite Hl, He in Hh, Hinv'. cbv beta iota in Hh, Hinv'.
    pose proof (λ v, change_loop_destroys now numbers (Entry.versions e) false n v Hin) as Hd.
    destruct (Kv2.change_loop _ _ _ _ _) as [vs ch]. simplify_eq. split; [done|].
    eexists. split; [apply lookup_insert_eq|]. done. }
  assert (gone r n t) as Ht.
  { apply (run_invariant_if kv2_exec (λ o, ¬ removes r o) (gone r n)); [|done|done].
    intros o u Ho Hu. by apply kv2_exec_gone. }
  split.
  - intros body2 now2 sub resp2 Hn0 Hb2 Hr. by eapply read_gone.
  - intros e' v He' Hv. destruct Ht as (Hi & e2 & He2 & _ & Hd). assert (e2 = e') as -> by congruence.
    destruct (ei_versions e' (kv2_entries t Hi r e' He') n v Hv) as [_ Hok].
    unfold version_ok in Hok. by rewrite (Hd v Hv) in Hok.
Qed.

(** A successful write stores exactly the next version.  It needs a
    check-and-set value when the engine or the key requires one, any given value
    must name the current version, and for a patch the current version must be
    readable.  The new version holds the request's data (for a patch, merged
    into the current data) with the deadline of the effective settings; of the
    older versions exactly those inside the retention window are kept,
    unchanged, and no other key is affected. *)
Theorem kv2_write_spec (s s' : Kv2) (r : string) (body : Value) (now : N) (patch : bool)
    (resp : EngineResponse) :
  kv2_inv s → Kv2.write r body now patch s = (s', Ok resp) →
  let cur := current_of s r in
  (∃ cas, Kv2.cas_param body = Ok cas ∧ (∀ x, cas = Some x → x = cur)
     ∧ (cas_needed s r = true → cas ≠ None))
  ∧ (∃ new data e, Json.get body "data" = Some new
     ∧ (if patch then ∃ old, current_data s r now = Some old ∧ data = merge_patch old new
        else data = new)
     ∧ Kv2.entries s' !! r = Some e ∧ Entry.current_version e = (cur + 1)%N
     ∧ let after := Kv2.effective_after (Entry.config e) (Kv2.config s) in
       Entry.versions e !! (cur + 1)%N =
         Some (Version.mk now (if (after =? 0)%N then None else Some (now + after)%N) false (Some data))
     ∧ ∀ n, (1 ≤ n ≤ cur)%N → Entry.versions e !! n =
         if decide (cur + 1 < n + Kv2.effective_retention (Entry.config e) (Kv2.config s))%N
         then match Kv2.entries s !! r with Some old => Entry.versions old !! n | None => None end
         else None)
  ∧ (∀ r', r' ≠ r → Kv2.entries s' !! r' = Kv2.entries s !! r')
  ∧ EngineResponse.mutated resp = true.
Proof.
  intros Hinv Hw cur. destruct (write_Ok_entry _ _ _ _ _ _ _ Hw) as (data & Hc & -> & -> & _).
  pose proof Hc as [_ Hmax]%write_checks_next.
  apply write_checks_Ok in Hc as (new & cas & Hnew & _ & Hcas & Heq & Hneed & Hdata).
  set (e := default (Entry.new now) (Kv2.entries s !! r)) in *.
  assert (cur = Entry.current_version e) as Hcur by (subst cur e; unfold current_of; by destruct (_ !! r)).
  assert (entry_inv e) as He.
  { subst e. destruct (Kv2.entries s !! r) as [e|] eqn:E; [by eapply kv2_entries|apply entry_new_inv]. }
  fold cur in Heq. rewrite Hcur in *. split; [by exists cas|]. split; [|split; [intros r' Hr'; simpl; by rewrite lookup_insert_ne|done]].
  eexists new, data, _. split; [done|]. split; [done|]. split; [apply lookup_insert_eq|].
  split; [done|]. split.
  - apply store_version_current; [by apply ei_config|by apply kv2_config|done].
  - intros n Hn. rewrite store_version_lookup.
    pose proof (effective_retention_bounds _ _ (ei_config e He) (kv2_config s Hinv)) as [? ?].
    cbn [Entry.config Kv2.store_version]. set (ret := Kv2.effective_retention _ _) in *.
    unfold saturating_add. rewrite lookup_insert_ne by lia.
    destruct (decide (Entry.current_version e + 1 < n + ret)%N).
    + rewrite decide_True by lia. subst e. destruct (Kv2.entries s !! r); [done|].
      simpl. apply lookup_empty.
    + by rewrite decide_False by lia.
Qed.

(** A written secret reads back.  After a successful write of a key, and
    until the deadline of the effective deletion setting, a read of the key
    without a version answers 200 with exactly the written data and the metadata
    the write reported, and changes nothing. *)
Theorem kv2_read_your_writes (s s' : Kv2) (r : string) (body new : Value) (now now2 : N)
    (resp : EngineResponse) :
  kv2_inv s → Json.get body "data" = Some new →
  Kv2.handle "POST" ("data/" +:+ r) body now s = (s', Ok resp) →
  let after := Kv2.effective_after (Entry.config (default (Entry.new now) (Kv2.entries s !! r)))
                 (Kv2.config s) in
  after = 0%N ∨ (now2 < now + after)%N →
  ∃ metadata, resp = ok metadata true
    ∧ Kv2.handle "GET" ("data/" +:+ r) (Json.object []) now2 s' =
      (s', Ok (ok (Json.object [("data", new); ("metadata", metadata)]) false)).
Proof.
  intros Hinv Hnew Hh after Hlive. change ("data/" +:+ r) with ("data" +:+ "/" +:+ r) in *.
  assert ("data" ∈ ["data"; "subkeys"; "metadata"; "delete"; "undelete"; "destroy"]) as Hop by left.
  rewrite (handle_on "data" "POST" r body now s Hop) in Hh by done.
  destruct (valid_path r) eqn:Hvalid; [|done].
  change (Kv2.handle_resource "data" "POST" r body now s) with (Kv2.write r body now false s) in Hh.
  destruct (write_Ok_entry _ _ _ _ _ _ _ Hh) as (data & Hc & -> & -> & _).
  pose proof Hc as [_ Hmax]%write_checks_next.
  apply write_checks_Ok in Hc as (new' & cas & Hnew' & _ & _ & _ & _ & ->).
  assert (new' = new) as -> by congruence. fold after.
  set (e := default (Entry.new now) (Kv2.entries s !! r)) in *.
  assert (entry_inv e) as He.
  { subst e. destruct (Kv2.entries s !! r) as [e|] eqn:E; [by eapply kv2_entries|apply entry_new_inv]. }
  set (v := Version.mk now _ false (Some new)).
  eexists. split; [done|].
  rewrite (handle_on "data" "GET" r _ now2 _ Hop), Hvalid by done.
  change (Kv2.handle_resource "data" "GET" r (Json.object []) now2 ?t)
    with (t, Kv2.read t r (Json.object []) now2 false).
  destruct (read_stored (Kv2.set_entry r (Kv2.store_version e (Kv2.config s)
      (Entry.current_version e + 1) now v) s) r
      (Kv2.store_version e (Kv2.config s) (Entry.current_version e + 1) now v) v
      (Entry.current_version e + 1)%N (Json.object []) now2 false) as (data & Hdata & Hread);
    try done.
  - simpl. apply lookup_insert_eq.
  - apply store_version_current; [by apply ei_config|by apply kv2_config|done].
  - subst v. unfold Version.readable, Version.undeleted. simpl.
    destruct (N.eqb_spec after 0); [done|]. destruct Hlive as [|Hl]; [done|]. by apply N.ltb_lt.
  - simpl in Hdata. injection Hdata as <-. f_equal. exact Hread.
Qed.

(** * Concrete instances *)
Module Kv2Demo.
Definition body : Value := Json.object [("data", Json.object [("pw", VString "x")])].
Definition write := kv2_op "POST" "data/app/db" body 100.
Definition empty_engine : Kv2 := run kv2_exec [] Kv2.default.
Definition written : Kv2 := run kv2_exec [write] Kv2.default.
Definition destroy_body : Value := Json.object [("versions", VArray [Json.u64 1])].
Definition entry : Entry := default (Entry.new 0) (Kv2.entries written !! "app/db").
Definition stored : EngineResponse :=
  ok (Version.metadata (Version.mk 100 None false (Some (Json.object [("pw", VString "x")]))) 1 None) true.

End Kv2Demo.

Lemma kv2_destroy_irrevocable_witness :
  let t := run kv2_exec [Kv2Demo.write]
    (Kv2.handle "POST" "destroy/app/db" Kv2Demo.destroy_body 101 Kv2Demo.written).1 in
  match Kv2.read t "app/db" (Json.object [("version", Json.u64 1)]) 200 false with
  | Ok resp2 => EngineResponse.status resp2 = 404%N
  | Err _ => False
  end.
Proof.
  destruct (kv2_destroy_irrevocable Kv2Demo.written
    (Kv2.handle "POST" "destroy/app/db" Kv2Demo.destroy_body 101 Kv2Demo.written).1 "app/db"
    Kv2Demo.entry Kv2Demo.destroy_body [Json.u64 1] [1%N] 1 101 (empty true) [Kv2Demo.write])
    as [Hr _].
  - apply kv2_reachable_inv.
  - vm_compute. reflexivity.
  - vm_compute. discriminate.
  - vm_compute. reflexivity.
  - vm_compute. reflexivity.
  - left.
  - apply (call_answer (Kv2.handle "POST" "destroy/app/db" Kv2Demo.destroy_body 101 Kv2Demo.written)).
    vm_compute. reflexivity.
  - constructor; [intros [E _]; discriminate E|constructor].
  - intros t. destruct (Kv2.read t "app/db" (Json.object [("version", Json.u64 1)]) 200 false) eqn:E.
    + revert E. apply Hr; [discriminate|reflexivity].
    + vm_compute in E. discriminate E.
Defined.

Lemma kv2_write_spec_witness :
  EngineResponse.mutated Kv2Demo.stored = true.
Proof.
  apply (kv2_write_spec Kv2Demo.empty_engine
    (Kv2.write "app/db" Kv2Demo.body 100 false Kv2Demo.empty_engine).1 "app/db" Kv2Demo.body 100 false
    Kv2Demo.stored).
  - apply kv2_reachable_inv.
  - apply (call_answer (Kv2.write "app/db" Kv2Demo.body 100 false Kv2Demo.empty_engine)).
    vm_compute. reflexivity.
Defined.

Lemma kv2_read_your_writes_witness :
  ∃ metadata, Kv2Demo.stored = ok metadata true ∧
  let s' := (Kv2.handle "POST" "data/app/db" Kv2Demo.body 100 Kv2Demo.empty_engine).1 in
  Kv2.handle "GET" "data/app/db" (Json.object []) 200 s' =
  (s', Ok (ok (Json.object [("data", Json.object [("pw", VString "x")]); ("metadata", metadata)]) false)).
Proof.
  apply (kv2_read_your_writes Kv2Demo.empty_engine
    (Kv2.handle "POST" "data/app/db" Kv2Demo.body 100 Kv2Demo.empty_engine).1 "app/db" Kv2Demo.body
    (Json.object [("pw", VString "x")]) 100 200).
  - apply kv2_reachable_inv.
  - vm_compute. reflexivity.
  - apply (call_answer (Kv2.handle "POST" "data/app/db" Kv2Demo.body 100 Kv2Demo.empty_engine)).
    vm_compute. reflexivity.
  - left. vm_compute. reflexivity.
Defined.
