(* ===== verification/EngineState.v ===== *)
(** The engine front end of [crates/heptabao-server/src/engines.rs]:
    namespaces, mounts, request parameters, routing to a backend and the
    all-or-nothing commit of [EngineState::handle].

    The key-value backends are the ones of [Kv2].  The transit and TOTP
    backends enter through the class [EngineOps]: every theorem here holds for
    any backend with that interface. *)
From Stdlib Require Import Ascii NArith.
From S2P Require Import Prelude Str Json Engine Kv2 Kv2Spec.
Import Engine.

(** What the front end needs of a backend. *)
Class EngineOps (T : Type) := {
  engine_default : T;
  engine_contains : T → string → bool;
  engine_handle : string → string → string → string → Value → N → M T EngineError EngineResponse;
}.

(** [str::starts_with(&str)] and [str::contains(char)]. *)
Definition has_prefix (pre s : string) : bool := bool_decide (is_Some (strip_prefix pre s)).
Definition str_contains (c : ascii) (s : string) : bool := negb (str_all (λ a, negb (bool_decide (a = c))) s).

(** [&path[mount_path.len()..]] of a path that starts with [mount_path]. *)
Definition after_prefix (pre s : string) : string := default s (strip_prefix pre s).

Section engines.
Context {Transit Totp : Type} `{EngineOps Transit} `{EngineOps Totp}.

Inductive Backend : Type :=
| Kv1 (entries : gmap string Value)
| BKv2 (engine : Kv2)
| BTransit (engine : Transit)
| BTotp (engine : Totp).

Record Mount := mk_mount { description : string; backend : Backend }.

(** [NamespaceState]: the mounts of a namespace. *)
#[local] Notation NamespaceState := (gmap string Mount).

Definition namespace_default : NamespaceState :=
  <["secret/" := mk_mount "Versioned secrets" (BKv2 Kv2.default)]>
  (<["transit/" := mk_mount "Cryptographic operations" (BTransit engine_default)]> ∅).

#[local] Notation EngineState := (gmap string NamespaceState).

Definition mount_options (m : Mount) : Value :=
  match backend m with
  | Kv1 _ => Json.object [("version", VString "1")]
  | BKv2 _ => Json.object [("version", VString "2")]
  | _ => Json.object []
  end.

Definition descriptor (m : Mount) : Value :=
  let kind := match backend m with
              | Kv1 _ | BKv2 _ => "kv" | BTransit _ => "transit" | BTotp _ => "totp" end in
  Json.object [("type", VString kind); ("description", VString (description m));
    ("options", mount_options m); ("local", VBool false); ("seal_wrap", VBool false);
    ("external_entropy_access", VBool false);
    ("config", Json.object [("default_lease_ttl", Json.u64 0); ("max_lease_ttl", Json.u64 0);
                            ("force_no_cache", VBool false)])].

(** [mounts.keys().find(|m| path.starts_with(m))]. *)
Definition find_mount (state : NamespaceState) (path : string) : option string :=
  find (λ m, has_prefix m path) (btree_keys state).

Definition required_capability (self : EngineState) (namespace method path : string) : option string :=
  let path := trim_start_matches "/" (default path (head (split "?" path))) in
  let state := default namespace_default (self !! namespace) in
  match find_mount state path with
  | None => None
  | Some mount_path =>
      match state !! mount_path with
      | None => None
      | Some m =>
          let relative := after_prefix mount_path path in
          let named := λ o : option string,
            match o with
            | Some name => if str_contains "/" name then None else Some name
            | None => None
            end in
          let exists_ :=
            if write_method method then
              match backend m with
              | Kv1 entries => Some (bool_decide (is_Some (entries !! relative)))
              | BKv2 engine => Kv2.contains engine <$> strip_prefix "data/" relative
              | BTotp engine => engine_contains engine <$> named (strip_prefix "keys/" relative)
              | BTransit engine =>
                  engine_contains engine <$>
                    named (match strip_prefix "encrypt/" relative with
                           | Some n => Some n
                           | None => strip_prefix "keys/" relative
                           end)
              end
            else None in
          match exists_ with
          | Some true => Some "update"
          | Some false => Some "create"
          | None =>
              Some (if bool_decide (method = "GET") || bool_decide (method = "HEAD") then "read"
                    else if is_list method then "list"
                    else if bool_decide (method = "DELETE") then "delete"
                    else if bool_decide (method = "PATCH") then "patch"
                    else "update")
          end
      end
  end.

(** The query parameters added to the body's members. *)
Fixpoint add_params (pairs : list string) (map : list (string * Value)) :
  EResult (list (string * Value)) :=
  match pairs with
  | [] => Ok map
  | p :: pairs =>
      let? kv := ok_or (split_once "=" p) (bad "invalid query parameter") in
      let '(key, value) := kv in
      if bool_decide (is_Some (obj_get key map)) then Err (bad "duplicate request parameter")
      else add_params pairs (obj_insert key (VString value) map)
  end.

Definition request_params (body : Value) (query : string) : EResult Value :=
  let params := if Json.is_null body then Json.object [] else body in
  let? map := ok_or (Json.as_object params) (bad "request body must be an object") in
  let? map := add_params (filter (λ p, p ≠ "") (split "&" query)) map in
  Ok (VObject map).

(** Whether an object option is absent or empty: [is_some_and(|v|
    v.as_object().is_none_or(|m| !m.is_empty()))], negated. *)
Definition absent_or_empty (body : Value) (name : string) : bool :=
  match Json.get body name with
  | None => true
  | Some v => match Json.as_object v with Some [] => true | _ => false end
  end.

(** [sys/mounts/<path>/tune]. *)
Definition handle_tune (method name : string) (body : Value) :
  M NamespaceState EngineError EngineResponse := λ state,
  match state !! name with
  | None => (state, Err not_found)
  | Some m =>
      if bool_decide (method = "GET") then
        (state, Ok (ok (Json.object [("description", VString (description m));
                          ("options", mount_options m); ("default_lease_ttl", Json.u64 0);
                          ("max_lease_ttl", Json.u64 0)]) false))
      else if negb (write_method method) then (state, Err unsupported)
      else match reject_unknown body ["description"; "options"] with
      | Err e => (state, Err e)
      | Ok _ =>
          match (match Json.get body "description" with
                 | None => Ok (description m)
                 | Some d => ok_or (Json.as_str d) (bad "description must be a string")
                 end) with
          | Err e => (state, Err e)
          | Ok d =>
              let m' := mk_mount d (backend m) in
              let state := <[name := m']> state in
              match Json.get body "options" with
              | None => (state, Ok (empty true))
              | Some options =>
                  (state,
                   let? _ := reject_unknown options ["version"] in
                   let? version := ok_or (match Json.get options "version" with
                                          | Some v => Json.as_str v | None => None end)
                                     (bad "KV version must be a string") in
                   match backend m with
                   | Kv1 _ => if bool_decide (version = "1") then Ok (empty true)
                              else Err (error 501 "online KV format conversion is not implemented; migrate through explicit API export/import")
                   | BKv2 _ => if bool_decide (version = "2") then Ok (empty true)
                               else Err (error 501 "online KV format conversion is not implemented; migrate through explicit API export/import")
                   | _ => Err (error 501 "online KV format conversion is not implemented; migrate through explicit API export/import")
                   end)
              end
          end
      end
  end.

(** The backend a mount request asks for. *)
Definition new_backend (body : Value) : EResult Backend :=
  let? kind := string_param body "type" in
  if bool_decide (kind ∈ ["kv"; "kv-v1"; "kv-v2"]) then
    let? version :=
      match Json.get body "options" with
      | Some options =>
          let? _ := reject_unknown options ["version"] in
          match Json.get options "version" with
          | None => Ok None
          | Some v => map_ok Some (ok_or (Json.as_str v) (bad "KV version must be a string"))
          end
      | None => Ok None
      end in
    let version := default (if bool_decide (kind = "kv-v2") then "2" else "1") version in
    if bool_decide (version = "1") then Ok (Kv1 ∅)
    else if bool_decide (version = "2") then Ok (BKv2 Kv2.default)
    else Err (bad "KV version must be 1 or 2")
  else if bool_decide (kind = "transit") then
    if absent_or_empty body "options" then Ok (BTransit engine_default)
    else Err (bad "transit mount options are not supported")
  else if bool_decide (kind = "totp") then
    if absent_or_empty body "options" then Ok (BTotp engine_default)
    else Err (bad "TOTP mount options are not supported")
  else Err (error 501 "secret engine type is not implemented").

Fixpoint reject_flags (body : Value) (flags : list string) : EResult unit :=
  match flags with
  | [] => Ok tt
  | flag :: flags =>
      let? v := optional_bool body flag in
      if default false v then Err (error 501 "requested mount option is not implemented")
      else reject_flags body flags
  end.

(** The mount a request creates, after all its checks. *)
Definition new_mount (state : NamespaceState) (name : string) (body : Value) : EResult Mount :=
  let? _ := reject_unknown body ["type"; "description"; "options"; "config"; "local"; "seal_wrap";
                                 "external_entropy_access"] in
  if existsb (λ existing, has_prefix name existing || has_prefix existing name) (btree_keys state)
  then Err (bad "mount path conflicts with an existing mount")
  else
    let? _ := reject_flags body ["local"; "seal_wrap"; "external_entropy_access"] in
    if negb (absent_or_empty body "config")
    then Err (error 501 "nondefault mount lease configuration is not implemented")
    else
      let? b := new_backend body in
      let? d := match Json.get body "description" with
                | None => Ok ""
                | Some v => ok_or (Json.as_str v) (bad "description must be a string")
                end in
      Ok (mk_mount d b).

Definition handle_mounts (method requested : string) (body : Value) :
  M NamespaceState EngineError EngineResponse := λ state,
  let requested := trim_end_matches "/" requested in
  match strip_suffix "/tune" requested with
  | Some mount_path => handle_tune method (mount_path +:+ "/") body state
  | None =>
      match valid_path requested with
      | Err e => (state, Err e)
      | Ok _ =>
          if bool_decide (default "" (head (split "/" requested)) ∈ ["sys"; "auth"; "identity"; "cubbyhole"])
          then (state, Err (bad "reserved mount path"))
          else
            let name := requested +:+ "/" in
            if bool_decide (method = "GET") then
              (state, map_ok (λ m, ok (descriptor m) false) (ok_or (state !! name) not_found))
            else if bool_decide (method = "DELETE") then
              (delete name state, Ok (empty (bool_decide (is_Some (state !! name)))))
            else if negb (write_method method) then (state, Err unsupported)
            else match new_mount state name body with
            | Err e => (state, Err e)
            | Ok m => (<[name := m]> state, Ok (empty true))
            end
      end
  end.

(** A request on the backend of one mount. *)
Definition handle_backend (namespace mount_path method relative : string) (params : Value) (now : N) :
  M Backend EngineError EngineResponse := λ b,
  match b with
  | Kv1 entries => let '(e, r) := handle_v1 method relative params entries in (Kv1 e, r)
  | BKv2 engine => let '(e, r) := Kv2.handle method relative params now engine in (BKv2 e, r)
  | BTotp engine =>
      let '(e, r) := engine_handle namespace mount_path method relative params now engine in (BTotp e, r)
  | BTransit engine =>
      let '(e, r) := engine_handle namespace mount_path method relative params now engine in (BTransit e, r)
  end.

(** [EngineState::handle] on the candidate copy of the namespace. *)
Definition handle_candidate (namespace method path : string) (params : Value) (now : N)
    (candidate : NamespaceState) : NamespaceState * EResult (option EngineResponse) :=
  if bool_decide (path = "sys/mounts") || bool_decide (path = "sys/mounts/") then
    (candidate,
     if negb (bool_decide (method = "GET")) then Err unsupported
     else Ok (Some (ok (Json.object (omap (λ name, (λ m, (name, descriptor m)) <$> candidate !! name)
                                       (btree_keys candidate))) false)))
  else match strip_prefix "sys/mounts/" path with
  | Some mount_path =>
      let '(candidate, r) := handle_mounts method mount_path params candidate in
      (candidate, map_ok Some r)
  | None =>
      match find_mount candidate path with
      | None => (candidate, Ok None)
      | Some mount_path =>
          match candidate !! mount_path with
          | None => (candidate, Err not_found)
          | Some m =>
              let '(b, r) := handle_backend namespace mount_path method
                               (after_prefix mount_path path) params now (backend m) in
              (<[mount_path := mk_mount (description m) b]> candidate, map_ok Some r)
          end
      end
  end.

(** [GET] with a true [list] parameter is a listing. *)
Definition effective_method (method : string) (params : Value) : string :=
  if bool_decide (method = "GET")
     && match Json.get params "list" with
        | Some (VString s) => bool_decide (s = "true")
        | Some (VBool b) => b
        | _ => false
        end
  then "LIST" else method.

Definition handle (namespace method path : string) (body : Value) (now : N) :
  M EngineState EngineError (option EngineResponse) := λ self,
  let '(path, query) := default (path, "") (split_once "?" path) in
  let path := trim_start_matches "/" path in
  match request_params body query with
  | Err e => (self, Err e)
  | Ok params =>
      let method := effective_method method params in
      let candidate := default namespace_default (self !! namespace) in
      let '(candidate, r) := handle_candidate namespace method path params now candidate in
      match r with
      | Err e => (self, Err e)
      | Ok None => (self, Ok None)
      | Ok (Some response) =>
          (if EngineResponse.mutated response then <[namespace := candidate]> self else self,
           Ok (Some response))
      end
  end.
End engines.
Arguments Backend : clear implicits.
Arguments Mount : clear implicits.
Notation NamespaceState Transit Totp := (gmap string (Mount Transit Totp)).
Notation EngineState Transit Totp := (gmap string (NamespaceState Transit Totp)).
