(* ===== verification/EngineStateSpec.v ===== *)
(** Properties of the engine front end: requests are all-or-nothing and stay in
    their namespace and mount, mounts never overlap, and the invariant of the
    versioned engine holds in every mount. *)
From Stdlib Require Import Ascii NArith.
From S2P Require Import Prelude Str Json Engine Kv2 Kv2Spec EngineState.
Import Engine.

Lemma has_prefix_spec pre s : has_prefix pre s = true ↔ ∃ rest, s = pre +:+ rest.
Proof.
  unfold has_prefix. rewrite bool_decide_eq_true. split.
  - intros [r Hr%strip_prefix_Some]. eauto.
  - intros [r ->]. rewrite strip_prefix_app. eauto.
Qed.

Section spec.
Context {Transit Totp : Type} `{EngineOps Transit} `{EngineOps Totp}.
Implicit Types (ns : NamespaceState Transit Totp) (s : EngineState Transit Totp).

(** * Invariant of the mounts of a namespace *)
Definition backend_ok (b : Backend Transit Totp) : Prop :=
  match b with BKv2 e => kv2_inv e | _ => True end.

Record ns_inv ns : Prop := {
  ns_prefix_free : ∀ a b, is_Some (ns !! a) → is_Some (ns !! b) → has_prefix a b = true → a = b;
  ns_slash : ∀ a, is_Some (ns !! a) → ends_with "/" a = true;
  ns_backends : ∀ a m, ns !! a = Some m → backend_ok (backend m);
}.

Definition engine_inv s : Prop := ∀ n ns, s !! n = Some ns → ns_inv ns.

Lemma ns_inv_replace ns a m m' :
  ns_inv ns → ns !! a = Some m → backend_ok (backend m') → ns_inv (<[a := m']> ns).
Proof.
  intros [H1 H2 H3] Ha Hb.
  assert (∀ k, is_Some (<[a := m']> ns !! k) → is_Some (ns !! k)) as Hdom.
  { intros k. destruct (decide (a = k)) as [<-|]; [eauto|by rewrite lookup_insert_ne]. }
  split; [eauto..|]. intros k x [[<- <-]|[_ ?]]%lookup_insert_Some; [done|eauto].
Qed.

Lemma ns_inv_delete ns a : ns_inv ns → ns_inv (delete a ns).
Proof.
  intros [H1 H2 H3].
  assert (∀ k, is_Some (delete a ns !! k) → is_Some (ns !! k)) as Hdom.
  { intros k [x [_ Hx]%lookup_delete_Some]. eauto. }
  split; [eauto..|]. intros k x [_ ?]%lookup_delete_Some. eauto.
Qed.

Lemma ns_inv_insert ns a m :
  ns_inv ns → ends_with "/" a = true → backend_ok (backend m) →
  (∀ k, is_Some (ns !! k) → has_prefix a k = false ∧ has_prefix k a = false) →
  ns_inv (<[a := m]> ns).
Proof.
  intros [H1 H2 H3] Ha Hb Hfree.
  assert (∀ k, is_Some (<[a := m]> ns !! k) → k = a ∨ is_Some (ns !! k)) as Hdom.
  { intros k. destruct (decide (a = k)) as [<-|]; [by left|rewrite lookup_insert_ne by done; by right]. }
  split.
  - intros x y [->|Hx]%Hdom [->|Hy]%Hdom Hp; [done| | |eauto].
    + destruct (Hfree y Hy). congruence.
    + destruct (Hfree x Hx). congruence.
  - intros x [->|Hx]%Hdom; auto.
  - intros k x [[<- <-]|[_ ?]]%lookup_insert_Some; [done|eauto].
Qed.

Lemma ns_inv_default : ns_inv namespace_default.
Proof.
  unfold namespace_default. apply ns_inv_insert; [apply ns_inv_insert|done|apply kv2_default_inv|];
    [split|done|done| |].
  - intros a b [x Hx]. done.
  - intros a [x Hx]. done.
  - intros a m Hm. done.
  - intros k [x Hx]. done.
  - intros k [x Hx]. apply lookup_insert_Some in Hx as [[<- _]|[_ Hx]]; done.
Qed.

(** * The steps of a request preserve it *)
Lemma handle_tune_inv method name body ns : ns_inv ns → ns_inv (handle_tune method name body ns).1.
Proof.
  intros Hinv. unfold handle_tune. destruct (ns !! name) as [m|] eqn:Hm; [|done].
  case_bool_decide; [done|]. destruct (negb _); [done|].
  destruct (reject_unknown _ _); [|done].
  destruct (match Json.get body "description" with Some _ => _ | None => _ end) as [d|]; [|done].
  assert (ns_inv (<[name := mk_mount d (backend m)]> ns)).
  { eapply ns_inv_replace; [done|done|]. simpl. by eapply ns_backends. }
  by destruct (Json.get body "options").
Qed.

Lemma new_backend_ok body b : new_backend body = Ok b → backend_ok b.
Proof.
  unfold new_backend. destruct (string_param _ _); [|done]. intros Hb.
  repeat case_match; simplify_eq; try done; apply kv2_default_inv.
Qed.

Lemma new_mount_Ok ns name body m :
  new_mount ns name body = Ok m →
  backend_ok (backend m) ∧
  ∀ k, is_Some (ns !! k) → has_prefix name k = false ∧ has_prefix k name = false.
Proof.
  unfold new_mount. destruct (reject_unknown _ _); [|done].
  destruct (existsb _ _) eqn:Hex; [done|]. destruct (reject_flags _ _); [|done].
  destruct (negb _); [done|]. destruct (new_backend body) as [b|] eqn:Hb; [|done].
  destruct (match Json.get body "description" with Some _ => _ | None => _ end); [|done].
  intros [= <-].
  split; [by eapply new_backend_ok|]. intros k Hk.
  apply not_true_iff_false in Hex. apply orb_false_iff, not_true_iff_false. intros Hp.
  apply Hex, existsb_exists. exists k. split; [|done].
  by apply list_elem_of_In, elem_of_btree_keys.
Qed.

Lemma ends_with_slash (s : string) : ends_with "/" (s +:+ "/") = true.
Proof. apply Is_true_true, ends_with_true. by exists s. Qed.

Lemma handle_mounts_inv method req body ns : ns_inv ns → ns_inv (handle_mounts method req body ns).1.
Proof.
  intros Hinv. unfold handle_mounts. destruct (strip_suffix _ _); [by apply handle_tune_inv|].
  destruct (valid_path _); [|done]. case_bool_decide; [done|]. case_bool_decide; [done|].
  case_bool_decide; [by apply ns_inv_delete|]. destruct (negb _); [done|].
  destruct (new_mount _ _ _) as [m|] eqn:Hm; [|done]. apply new_mount_Ok in Hm as [Hb Hfree].
  apply ns_inv_insert; auto using ends_with_slash.
Qed.

Lemma handle_backend_ok n p method rel params now b :
  backend_ok b → backend_ok (handle_backend n p method rel params now b).1.
Proof.
  unfold handle_backend. destruct b as [e|e|e|e]; intros Hb.
  - by destruct (handle_v1 _ _ _ _).
  - pose proof (kv2_exec_inv (kv2_op method rel params now) e Hb) as He. unfold kv2_exec in He.
    cbn [op_method op_path op_body op_now] in He. by destruct (Kv2.handle method rel params now e).
  - by destruct (engine_handle _ _ _ _ _ _ _).
  - by destruct (engine_handle _ _ _ _ _ _ _).
Qed.

Lemma handle_candidate_inv n method path params now ns :
  ns_inv ns → ns_inv (handle_candidate n method path params now ns).1.
Proof.
  intros Hinv. unfold handle_candidate. destruct (_ || _); [done|].
  destruct (strip_prefix _ _) as [mp|].
  { pose proof (handle_mounts_inv method mp params ns Hinv). by destruct (handle_mounts _ _ _ _). }
  destruct (find_mount ns path) as [mp|]; [|done]. destruct (ns !! mp) as [m|] eqn:Hm; [|done].
  pose proof (handle_backend_ok n mp method (after_prefix mp path) params now (backend m)
                (ns_backends ns Hinv mp m Hm)) as Hb.
  destruct (handle_backend _ _ _ _ _ _ _) as [b r]. by eapply ns_inv_replace.
Qed.

(** * Requests as a whole *)

(** What [handle] does to the state: commit of the candidate, or nothing. *)
Lemma engine_handle_commit n method path body now s :
  let '(s', r) := handle n method path body now s in
  (s' = s ∧ ∀ resp, r = Ok (Some resp) → EngineResponse.mutated resp = false) ∨
  ∃ resp path' params method',
    r = Ok (Some resp) ∧ EngineResponse.mutated resp = true
    ∧ path' = trim_start_matches "/" (default (path, "") (split_once "?" path)).1
    ∧ let c := handle_candidate n method' path' params now (default namespace_default (s !! n)) in
      s' = <[n := c.1]> s ∧ c.2 = Ok (Some resp).
Proof.
  unfold handle. destruct (default (path, "") (split_once "?" path)) as [p query] eqn:Hp.
  destruct (request_params body query) as [params|]; [|by left].
  destruct (handle_candidate _ _ _ _ _ _) as [c r] eqn:Hc.
  destruct r as [[resp|]|]; [|by left|by left].
  destruct (EngineResponse.mutated resp) eqn:Hm; [right|left; split; [done|congruence]].
  eexists resp, _, params, _. do 2 (split; [done|]). split; [reflexivity|].
  simpl. by rewrite Hc.
Qed.

Record EngineReq := engine_req {
  er_namespace : string; er_method : string; er_path : string; er_body : Value; er_now : N }.

Definition engine_exec (o : EngineReq) (s : EngineState Transit Totp) : EngineState Transit Totp :=
  (handle (er_namespace o) (er_method o) (er_path o) (er_body o) (er_now o) s).1.

Lemma engine_exec_inv o s : engine_inv s → engine_inv (engine_exec o s).
Proof.
  intros Hinv. unfold engine_exec.
  pose proof (engine_handle_commit (er_namespace o) (er_method o) (er_path o) (er_body o) (er_now o) s) as Hh.
  destruct (handle _ _ _ _ _ _) as [s' r].
  destruct Hh as [[-> _]|(resp & p & params & m & _ & _ & _ & -> & _)]; [done|].
  cbn [fst]. intros n ns [[<- <-]|[_ ?]]%lookup_insert_Some; [|by eapply Hinv].
  apply handle_candidate_inv.
  destruct (s !! er_namespace o) as [x|] eqn:Hx; simpl; [by eapply Hinv|apply ns_inv_default].
Qed.

Lemma engine_reachable_inv ops : engine_inv (run engine_exec ops ∅).
Proof. apply run_invariant; [apply engine_exec_inv|]. intros n ns. by rewrite lookup_empty. Qed.

(** Two prefixes of one path are prefixes of each other. *)
Lemma has_prefix_common a b path :
  has_prefix a path = true → has_prefix b path = true →
  has_prefix a b = true ∨ has_prefix b a = true.
Proof.
  rewrite !has_prefix_spec. intros [x ->] [y E]. revert b E.
  induction a as [|c a IH]; intros b E; [left; by exists b|].
  destruct b as [|c' b]; [right; by eexists|]. injection E as <- E.
  destruct (IH b E) as [[r ->]|[r ->]]; [left|right]; by exists r.
Qed.

Lemma find_mount_Some ns path mp :
  find_mount ns path = Some mp → is_Some (ns !! mp) ∧ has_prefix mp path = true.
Proof.
  unfold find_mount. intros Hf. apply find_some in Hf as [Hin Hp].
  split; [|done]. by apply elem_of_btree_keys, list_elem_of_In.
Qed.

(** A request outside mount administration changes one mount, a prefix of its path. *)
Lemma handle_candidate_frame n method path params now ns k :
  strip_prefix "sys/mounts/" path = None → path ≠ "sys/mounts" → has_prefix k path = false →
  (handle_candidate n method path params now ns).1 !! k = ns !! k.
Proof.
  intros Hsys Hp Hk. unfold handle_candidate. destruct (_ || _); [done|]. rewrite Hsys.
  destruct (find_mount ns path) as [mp|] eqn:Hf; [|done]. destruct (ns !! mp) as [m|]; [|done].
  apply find_mount_Some in Hf as [_ Hmp].
  destruct (handle_backend _ _ _ _ _ _ _) as [b r]. simpl.
  rewrite lookup_insert_ne; [done|]. intros ->. congruence.
Qed.

(** ** Properties *)

(** C11: Engine requests are all-or-nothing and contained.  A request that fails,
    finds no engine, or reports no mutation leaves the state exactly as it was,
    even where a backend had already changed its working copy; a request never
    changes another namespace; and unless it administers mounts, within its
    namespace it changes no mount but one whose path is a prefix of the request
    path. *)
Theorem engine_request_atomic (s s' : EngineState Transit Totp) (n method path : string) (body : Value)
    (now : N) (r : EResult (option EngineResponse)) :
  handle n method path body now s = (s', r) →
  (match r with Ok (Some resp) => EngineResponse.mutated resp = false | _ => True end → s' = s)
  ∧ (∀ n', n' ≠ n → s' !! n' = s !! n')
  ∧ let p := trim_start_matches "/" (default (path, "") (split_once "?" path)).1 in
    (strip_prefix "sys/mounts/" p = None → p ≠ "sys/mounts" → ∀ k, has_prefix k p = false →
     default namespace_default (s' !! n) !! k = default namespace_default (s !! n) !! k).
Proof.
  intros Hh. pose proof (engine_handle_commit n method path body now s) as Hc. rewrite Hh in Hc.
  destruct Hc as [[-> _]|(resp & p & params & m & -> & Hmut & Hp & -> & _)]; [done|].
  split; [congruence|]. split; [intros n' Hn'; by rewrite lookup_insert_ne|].
  rewrite <- Hp. cbv zeta. intros Hsys Hpe k Hk. rewrite lookup_insert_eq. cbn [from_option id].
  by apply handle_candidate_frame.
Qed.

(** Mounts never overlap, so routing is unambiguous: after any sequence of
    requests, in every namespace no mount path is a prefix of another, at most
    one mount matches a request path, and that mount is the one [find_mount]
    selects; every versioned key-value mount satisfies the engine's invariant. *)
Theorem mounts_never_overlap (ops : list EngineReq) (n : string) (ns : NamespaceState Transit Totp) :
  run engine_exec ops ∅ !! n = Some ns →
  (∀ a b, is_Some (ns !! a) → is_Some (ns !! b) → has_prefix a b = true → a = b)
  ∧ (∀ path k, is_Some (ns !! k) → has_prefix k path = true → find_mount ns path = Some k)
  ∧ (∀ k d e, ns !! k = Some (mk_mount d (BKv2 e)) → kv2_inv e).
Proof.
  intros Hns. apply engine_reachable_inv in Hns as [Hpf Hslash Hb]. split; [done|]. split.
  - intros path k Hk Hp. destruct (find_mount ns path) as [mp|] eqn:Hf.
    + apply find_mount_Some in Hf as [Hmp Hp']. f_equal.
      destruct (has_prefix_common mp k path) as [?|?]; [done|done|auto|symmetry; auto].
    + unfold find_mount in Hf. eapply find_none in Hf; [|by apply list_elem_of_In, elem_of_btree_keys].
      simpl in Hf. congruence.
  - intros k d e Hk. by apply (Hb k _ Hk).
Qed.

End spec.

(** * Concrete instances *)
Module EngineDemo.
(** A backend that refuses every request. *)
#[export] Instance refusing : EngineOps unit := {|
  engine_default := tt;
  engine_contains _ _ := false;
  engine_handle _ _ _ _ _ _ := λ e, (e, Err unsupported);
|}.
Definition write : EngineReq :=
  engine_req "" "POST" "secret/data/app" (Json.object [("data", Json.object [("pw", VString "x")])]) 100.
Definition mount_kv : EngineReq :=
  engine_req "" "POST" "sys/mounts/kv" (Json.object [("type", VString "kv")]) 100.
Definition state : EngineState unit unit := run engine_exec [write; mount_kv] ∅.
Definition mounts : NamespaceState unit unit := default ∅ (state !! "").
End EngineDemo.

(** A write of a secret leaves the other namespaces and mounts alone, and one without
    data fails and leaves everything. *)
Lemma engine_request_atomic_witness :
  let write body := handle (H:=EngineDemo.refusing) (H0:=EngineDemo.refusing) "" "POST" "secret/data/app" body 101 EngineDemo.state in
  let good := write (Json.object [("data", Json.object [("pw", VString "y")])]) in
  let bad := write (Json.object []) in
  is_ok good.2 = true ∧ good.1 !! "team" = EngineDemo.state !! "team" ∧
  (default (namespace_default (H:=EngineDemo.refusing)) (good.1 !! "") : NamespaceState unit unit) !! "kv/" =
    EngineDemo.mounts !! "kv/" ∧
  is_ok bad.2 = false ∧ bad.1 = EngineDemo.state.
Proof.
  intros write good bad. split; [vm_compute; reflexivity|].
  destruct (engine_request_atomic (H:=EngineDemo.refusing) (H0:=EngineDemo.refusing) EngineDemo.state good.1 "" "POST" "secret/data/app"
    (Json.object [("data", Json.object [("pw", VString "y")])]) 101 good.2) as (_ & Hn & Hm); [exact (surjective_pairing good)|].
  destruct (engine_request_atomic (H:=EngineDemo.refusing) (H0:=EngineDemo.refusing) EngineDemo.state bad.1 "" "POST" "secret/data/app"
    (Json.object []) 101 bad.2) as (Hs & _); [exact (surjective_pairing bad)|].
  split; [apply Hn; discriminate|]. split; [apply Hm; [reflexivity|discriminate|reflexivity]|].
  assert (Hbad : is_ok bad.2 = false) by (vm_compute; reflexivity). split; [exact Hbad|].
  apply Hs. destruct bad.2 as [r|err]; [discriminate Hbad|exact I].
Defined.

Lemma mounts_never_overlap_witness :
  find_mount EngineDemo.mounts "kv/app" = Some "kv/".
Proof.
  apply (mounts_never_overlap (H:=EngineDemo.refusing) (H0:=EngineDemo.refusing)
           [EngineDemo.write; EngineDemo.mount_kv] "" EngineDemo.mounts).
  - vm_compute. reflexivity.
  - vm_compute. eexists. reflexivity.
  - vm_compute. reflexivity.
Defined.
