(* ===== verification/Base32.v ===== *)
(** The base32 codec of [crates/heptabao-server/src/engines/totp.rs]
    ([encode_base32], [decode_base32]) and its correctness.

    Both loops keep an accumulator of pending bits.  The proofs read a digit
    list as a number: the digits written so far, followed by the pending bits,
    denote the same number as the digits read so far. *)
From Stdlib Require Import Ascii NArith Strings.Byte.
From S2P Require Import Prelude Str Gf256 Json Engine.

Import Engine.

(** * Definitions *)

(** [accumulator << k] on a [u32] and the mask [(1 << bits) - 1]. *)
Definition shl32 (a k : N) : N := (N.shiftl a k mod 2 ^ 32)%N.
Definition mask (bits : N) : N := (N.shiftl 1 bits - 1)%N.

Definition BASE32 : string := "ABCDEFGHIJKLMNOPQRSTUVWXYZ234567".

(** [BASE32[i] as char]; every index is masked with 31. *)
Definition symbol (i : N) : ascii := default "A"%char (String.get (N.to_nat i) BASE32).

(** The [while bits >= 5] loop; a byte adds eight bits to at most four, so two
    rounds suffice and [bits] rounds always do. *)
Fixpoint emit (fuel : nat) (accumulator bits : N) (output : string) : N * string :=
  match fuel with
  | O => (bits, output)
  | S fuel =>
      if (5 <=? bits)%N then
        let bits := (bits - 5)%N in
        emit fuel accumulator bits
          (output +:+ String (symbol (N.land (N.shiftr accumulator bits) 31)) "")
      else (bits, output)
  end.

Fixpoint encode_loop (bytes : list u8) (accumulator bits : N) (output : string) : string :=
  match bytes with
  | [] =>
      if (0 <? bits)%N
      then output +:+ String (symbol (N.land (shl32 accumulator (5 - bits)) 31)) ""
      else output
  | byte :: bytes =>
      let accumulator := N.lor (shl32 accumulator 8) (U8.to_N byte) in
      let bits := (bits + 8)%N in
      let '(bits, output) := emit (N.to_nat bits) accumulator bits output in
      encode_loop bytes (N.land accumulator (mask bits)) bits output
  end.

Definition encode_base32 (bytes : list u8) : string := encode_loop bytes 0 0 "".

(** [u8::to_ascii_uppercase]. *)
Definition to_ascii_uppercase (c : ascii) : ascii :=
  if (97 <=? N_of_ascii c)%N && (N_of_ascii c <=? 122)%N
  then ascii_of_N (N_of_ascii c - 32) else c.

(** [BASE32.iter().position(|candidate| *candidate == c)]. *)
Fixpoint position (c : ascii) (s : string) : option N :=
  match s with
  | EmptyString => None
  | String a s => if decide (a = c) then Some 0%N else N.succ <$> position c s
  end.

Fixpoint decode_loop (text : string) (bytes : list u8) (accumulator bits : N) :
  EResult (list u8 * N * N) :=
  match text with
  | EmptyString => Ok (bytes, accumulator, bits)
  | String ch text =>
      let? value := ok_or (position (to_ascii_uppercase ch) BASE32) (bad "invalid base32 TOTP key") in
      let accumulator := N.lor (shl32 accumulator 5) value in
      let bits := (bits + 5)%N in
      if (8 <=? bits)%N then
        let bits := (bits - 8)%N in
        decode_loop text (bytes ++ [U8.wrap (N.shiftr accumulator bits)])
          (N.land accumulator (mask bits)) bits
      else decode_loop text bytes accumulator bits
  end.

Definition decode_base32 (text : string) : EResult (list u8) :=
  if 256 <? String.length text then Err (bad "TOTP key encoding exceeds supported size")
  else
    let unpadded := trim_end_matches "=" text in
    if negb (String.length text =? String.length unpadded)
       && (negb (String.length text mod 8 =? 0)
           || (6 <? String.length text - String.length unpadded))
    then Err (bad "invalid base32 padding")
    else
      let? r := decode_loop unpadded [] 0 0 in
      let '(bytes, accumulator, bits) := r in
      if negb (accumulator =? 0)%N || (5 <=? bits)%N
      then Err (bad "noncanonical base32 TOTP key") else Ok bytes.

(** * Digit lists as numbers *)
Section digits.
Open Scope N_scope.

Definition num (base : N) (l : list N) : N := foldl (λ a d, a * base + d) 0 l.

Lemma num_snoc base l d : num base (l ++ [d]) = num base l * base + d.
Proof. unfold num. by rewrite foldl_snoc. Qed.

Lemma num_app base l m : num base (l ++ m) = num base l * base ^ N.of_nat (length m) + num base m.
Proof.
  induction m as [|d m IH] using rev_ind.
  - rewrite app_nil_r. simpl. change (num base []) with 0. rewrite N.pow_0_r. lia.
  - rewrite app_assoc, !num_snoc, IH, length_app. simpl.
    replace (N.of_nat (length m + 1)) with (N.succ (N.of_nat (length m))) by lia.
    rewrite N.pow_succ_r'. lia.
Qed.

(** Equal numbers of equally many digits have equal digits. *)
Lemma num_inj base l m :
  length l = length m → Forall (λ d, d < base) l → Forall (λ d, d < base) m →
  num base l = num base m → l = m.
Proof.
  revert m. induction l as [|d l IH] using rev_ind; intros m Hlen Hl Hm E.
  - destruct m; [done|discriminate Hlen].
  - destruct m as [|e m _] using rev_ind; [rewrite length_app in Hlen; simpl in Hlen; lia|].
    rewrite !length_app in Hlen. simpl in Hlen. rewrite !num_snoc in E.
    apply Forall_app in Hl as [Hl [Hd _]%Forall_cons].
    apply Forall_app in Hm as [Hm [He _]%Forall_cons].
    assert (num base l = num base m ∧ d = e) as [En ->].
    { apply (N.div_mod_unique base); [done|done|]. lia. }
    f_equal. apply IH; [lia|done|done|done].
Qed.
End digits.

(** * Shifts and masks as arithmetic *)
Section bits.
Open Scope N_scope.

Lemma shl32_small a k : a * 2 ^ k < 2 ^ 32 → shl32 a k = a * 2 ^ k.
Proof. intros. unfold shl32. rewrite N.shiftl_mul_pow2. by apply N.mod_small. Qed.

Lemma lor_low a b k : b < 2 ^ k → N.lor (a * 2 ^ k) b = a * 2 ^ k + b.
Proof.
  intros Hb. assert (N.land (a * 2 ^ k) b = 0) as Hland.
  { apply N.bits_inj. intros i. rewrite N.land_spec, N.bits_0.
    destruct (N.lt_ge_cases i k) as [Hi|Hi].
    - by rewrite N.mul_pow2_bits_low.
    - rewrite <- (N.mod_small b (2 ^ k)) by done.
      rewrite N.mod_pow2_bits_high by done. apply andb_false_r. }
  rewrite <- N.lxor_lor by done. symmetry. by apply N.add_nocarry_lxor.
Qed.

Lemma land_mask a k : N.land a (mask k) = a mod 2 ^ k.
Proof.
  unfold mask. rewrite N.sub_1_r. change (N.pred (N.shiftl 1 k)) with (N.ones k).
  apply N.land_ones.
Qed.

Lemma land_31 a : N.land a 31 = a mod 32.
Proof. change 31 with (N.ones 5). by rewrite N.land_ones. Qed.

Lemma push_bits a b acc bits :
  acc < 2 ^ bits → b < 2 ^ a → bits + a <= 32 →
  N.lor (shl32 acc a) b = acc * 2 ^ a + b ∧ acc * 2 ^ a + b < 2 ^ (bits + a).
Proof.
  intros Hacc Hb Hbits. assert (acc * 2 ^ a + 2 ^ a <= 2 ^ (bits + a)) as Hle.
  { rewrite N.pow_add_r. nia. }
  assert (2 ^ (bits + a) <= 2 ^ 32) by (apply N.pow_le_mono_r; lia).
  assert (0 < 2 ^ a) by (apply N.neq_0_lt_0, N.pow_nonzero; lia).
  split; [|lia]. rewrite shl32_small by lia. by apply lor_low.
Qed.
End bits.

(** * The alphabet *)

(** The text of a digit list. *)
Fixpoint text (D : list N) : string :=
  match D with [] => "" | d :: D => String (symbol d) (text D) end.

Lemma text_snoc D d : text (D ++ [d]) = text D +:+ String (symbol d) "".
Proof. induction D as [|e D IH]; simpl; [done|]. by rewrite IH. Qed.

Lemma text_length D : String.length (text D) = length D.
Proof. induction D; simpl; auto. Qed.

Definition digits32 : list N := N.of_nat <$> seq 0 32.

Lemma elem_digits32 d : (d < 32)%N → d ∈ digits32.
Proof.
  intros Hd. apply list_elem_of_fmap. exists (N.to_nat d).
  rewrite elem_of_seq. lia.
Qed.

(** A fact on every digit, by evaluation. *)
Lemma all_digits (f : N → bool) : forallb f digits32 = true → ∀ d, (d < 32)%N → f d.
Proof.
  intros Hf d Hd%elem_digits32. apply Is_true_true. rewrite forallb_forall in Hf.
  by apply Hf, list_elem_of_In.
Qed.

Lemma position_symbol d :
  (d < 32)%N → position (to_ascii_uppercase (symbol d)) BASE32 = Some d.
Proof.
  intros Hd.
  pose proof (all_digits (λ d, bool_decide (position (to_ascii_uppercase (symbol d)) BASE32 = Some d))
                eq_refl d Hd) as Hp.
  by apply bool_decide_unpack in Hp.
Qed.

Lemma position_Some c s d : position c s = Some d → String.get (N.to_nat d) s = Some c.
Proof.
  revert d. induction s as [|a s IH]; intros d; simpl; [done|].
  case_decide as E; [by intros [= <-]; subst|].
  destruct (position c s) as [e|]; [|done]. intros [= <-]. rewrite N2Nat.inj_succ. by apply IH.
Qed.

Lemma get_bound n s c : String.get n s = Some c → n < String.length s.
Proof.
  revert n. induction s as [|a s IH]; intros [|n]; simpl; try done; [lia|].
  intros Hn%IH. lia.
Qed.

Lemma position_inv c d : position c BASE32 = Some d → (d < 32)%N ∧ symbol d = c.
Proof.
  intros Hp%position_Some. split.
  - apply get_bound in Hp. change (String.length BASE32) with 32 in Hp. lia.
  - unfold symbol. by rewrite Hp.
Qed.

Lemma text_no_pad D : Forall (λ d, (d < 32)%N) D → trim_end_matches "=" (text D) = text D.
Proof.
  intros HD. apply trim_end_matches_id. intros He.
  assert (str_all (λ c, negb (Ascii.eqb c "=")) (text D)) as Hall.
  { clear He. induction HD as [|d D Hd HD IH]; simpl; [done|]. apply andb_True. split; [|done].
    exact (all_digits (λ d, negb (Ascii.eqb (symbol d) "=")) eq_refl d Hd). }
  by apply (ends_with_all _ _ _ Hall) in He.
Qed.

(** * The loops *)
Section loops.
Open Scope N_scope.
#[local] Notation len l := (N.of_nat (length l)).
#[local] Notation is32 := (Forall (λ d, d < 32)).

Lemma emit_spec fuel acc bits D :
  bits ≤ N.of_nat fuel →
  ∃ E r, emit fuel acc bits (text D) = (r, text (D ++ E)) ∧ r < 5 ∧ is32 E ∧
    bits = 5 * len E + r ∧ num 32 E = (acc / 2 ^ r) mod 32 ^ len E.
Proof.
  revert bits D. induction fuel as [|fuel IH]; intros bits D Hfuel; simpl.
  { exists [], bits. rewrite app_nil_r. simpl. rewrite N.mod_1_r. repeat split; (lia || done). }
  destruct (N.leb_spec 5 bits) as [H5|H5].
  2:{ exists [], bits. rewrite app_nil_r. simpl. rewrite N.mod_1_r. repeat split; (lia || done). }
  rewrite <- text_snoc. destruct (IH (bits - 5) (D ++ [N.land (N.shiftr acc (bits - 5)) 31]))
    as (E & r & Hemit & Hr & HE & Hbits & Hnum); [lia|].
  rewrite land_31 in *. set (d := N.shiftr acc (bits - 5) mod 32) in *.
  exists (d :: E), r. rewrite Hemit, <- app_assoc. split; [done|]. split; [done|].
  split; [constructor; [apply N.mod_lt; lia|done]|].
  cbn [length]. rewrite Nat2N.inj_succ. split; [lia|].
  change (d :: E) with ([d] ++ E). rewrite num_app.
  replace (num 32 [d]) with d by (unfold num; simpl; lia).
  rewrite Hnum, N.pow_succ_r'. rewrite (N.mul_comm 32).
  rewrite N.Div0.mod_mul_r. subst d. rewrite N.shiftr_div_pow2.
  replace (bits - 5) with (r + 5 * len E) by lia.
  rewrite N.pow_add_r, N.pow_mul_r, <- N.Div0.div_div. change (2 ^ 5) with 32. lia.
Qed.

Lemma byte_lt b : U8.to_N b < 256.
Proof. unfold U8.to_N. pose proof (Byte.to_N_bounded b). lia. Qed.

#[local] Instance to_N_inj : Inj (=) (=) U8.to_N.
Proof.
  intros a b Hab. unfold U8.to_N in Hab. apply (f_equal Byte.of_N) in Hab.
  rewrite !Byte.of_to_N in Hab. by injection Hab.
Qed.

Lemma byte_values_lt (bs : list u8) : Forall (λ n, n < 256) (U8.to_N <$> bs).
Proof. apply Forall_fmap, Forall_true. apply byte_lt. Qed.

(** What the encoder writes: the digits of the input's bits, completed with zero bits. *)
Lemma encode_loop_spec bytes seen acc bits D :
  acc < 2 ^ bits → bits < 5 → is32 D →
  num 256 (U8.to_N <$> seen) = num 32 D * 2 ^ bits + acc → 8 * len seen = 5 * len D + bits →
  ∃ D' pad, encode_loop bytes acc bits (text D) = text D' ∧ is32 D' ∧ pad < 5 ∧
    num 32 D' = num 256 (U8.to_N <$> seen ++ bytes) * 2 ^ pad ∧
    5 * len D' = 8 * len (seen ++ bytes) + pad.
Proof.
  revert seen acc bits D. induction bytes as [|b bytes IH];
    intros seen acc bits D Hacc Hbits HD Hnum Hlen; simpl.
  - rewrite app_nil_r. destruct (N.ltb_spec 0 bits) as [H0|H0].
    + rewrite <- text_snoc, land_31.
      assert (acc * 2 ^ (5 - bits) < 32) as Hlt.
      { replace 32 with (2 ^ bits * 2 ^ (5 - bits)) by (rewrite <- N.pow_add_r; by replace (bits + (5 - bits)) with 5 by lia).
        apply N.mul_lt_mono_pos_r; [|done]. apply N.neq_0_lt_0, N.pow_nonzero. lia. }
      rewrite shl32_small, N.mod_small by lia.
      exists (D ++ [acc * 2 ^ (5 - bits)]), (5 - bits). split; [done|].
      split; [apply Forall_app; split; [done|by constructor]|]. split; [lia|].
      rewrite num_snoc, Hnum, length_app. simpl. split; [|lia].
      rewrite N.mul_add_distr_r, <- N.mul_assoc, <- N.pow_add_r.
      replace (bits + (5 - bits)) with 5 by lia. done.
    + assert (bits = 0) as -> by lia. exists D, 0. rewrite N.pow_0_r in *.
      repeat split; try done; lia.
  - destruct (push_bits 8 (U8.to_N b) acc bits) as [-> Hlt]; [done|apply byte_lt|lia|].
    set (x := acc * 2 ^ 8 + U8.to_N b) in *.
    destruct (emit_spec (N.to_nat (bits + 8)) x (bits + 8) D) as (E & r & -> & Hr & HE & Hb & HnumE);
      [lia|].
    rewrite land_mask. destruct (IH (seen ++ [b]) (x mod 2 ^ r) r (D ++ E)) as (D' & pad & HD' & Hrest).
    + apply N.mod_lt, N.pow_nonzero. lia.
    + done.
    + by apply Forall_app.
    + rewrite fmap_app. simpl. rewrite num_snoc, Hnum, num_app, HnumE.
      assert (2 ^ (bits + 8) = 32 ^ len E * 2 ^ r) as Hpow.
      { rewrite Hb, N.pow_add_r, N.pow_mul_r. done. }
      rewrite N.mod_small by (apply N.Div0.div_lt_upper_bound; lia).
      pose proof (N.div_mod x (2 ^ r) ltac:(apply N.pow_nonzero; lia)) as Hx.
      trans (num 32 D * 2 ^ (bits + 8) + x); [rewrite N.pow_add_r; unfold x; lia|].
      rewrite Hpow. lia.
    + rewrite !length_app. simpl. lia.
    + rewrite <- app_assoc in Hrest. eauto.
Qed.

(** The digits a text denotes, whatever the case of its letters. *)
Fixpoint read_symbols (t : string) : option (list N) :=
  match t with
  | EmptyString => Some []
  | String c t =>
      match position (to_ascii_uppercase c) BASE32, read_symbols t with
      | Some d, Some D => Some (d :: D)
      | _, _ => None
      end
  end.

(** The decoder's invariant: [D] is read, [B] is written, [bits] bits are pending. *)
Record decoded (D : list N) (B : list u8) (acc bits : N) : Prop := {
  dec_acc : acc < 2 ^ bits;
  dec_bits : bits < 8;
  dec_num : num 32 D = num 256 (U8.to_N <$> B) * 2 ^ bits + acc;
  dec_len : 5 * len D = 8 * len B + bits;
}.

Lemma decode_loop_spec t D B acc bits :
  decoded D B acc bits →
  match read_symbols t with
  | None => decode_loop t B acc bits = Err (bad "invalid base32 TOTP key")
  | Some E => ∃ B' acc' bits', decode_loop t B acc bits = Ok (B', acc', bits') ∧
                decoded (D ++ E) B' acc' bits'
  end.
Proof.
  revert D B acc bits. induction t as [|c t IH]; intros D B acc bits HI; cbn [read_symbols decode_loop].
  { exists B, acc, bits. by rewrite app_nil_r. }
  destruct (position (to_ascii_uppercase c) BASE32) as [d|] eqn:Hd; [|done].
  apply position_inv in Hd as [Hd _]. destruct HI as [H1 H2 H3 H4]. cbn [ok_or].
  destruct (push_bits 5 d acc bits) as [-> Hlt]; [done|done|lia|].
  set (x := acc * 2 ^ 5 + d) in *.
  assert (num 32 (D ++ [d]) = num 256 (U8.to_N <$> B) * 2 ^ (bits + 5) + x) as Hx.
  { rewrite num_snoc, H3, N.pow_add_r. unfold x. lia. }
  assert (∀ B' acc' bits', decoded (D ++ [d]) B' acc' bits' →
    match match read_symbols t with Some D => Some (d :: D) | None => None end with
    | None => decode_loop t B' acc' bits' = Err (bad "invalid base32 TOTP key")
    | Some E => ∃ B'' acc'' bits'', decode_loop t B' acc' bits' = Ok (B'', acc'', bits'') ∧
                  decoded (D ++ E) B'' acc'' bits''
    end) as Hgo.
  { intros B' acc' bits' HI%IH. destruct (read_symbols t); [|done].
    by rewrite <- app_assoc in HI. }
  destruct (N.leb_spec 8 (bits + 5)) as [H8|H8]; apply Hgo; split;
    rewrite ?length_app; simpl; try lia; try done.
  all: assert (2 ^ (bits + 5) = 256 * 2 ^ (bits + 5 - 8)) as Hpow
    by (change 256 with (2 ^ 8); rewrite <- N.pow_add_r; f_equal; lia).
  all: pose proof (N.div_mod x (2 ^ (bits + 5 - 8)) ltac:(apply N.pow_nonzero; lia)) as Hdm.
  - rewrite land_mask. apply N.mod_lt, N.pow_nonzero. lia.
  - rewrite Hx, land_mask, fmap_app. simpl. rewrite num_snoc, N.shiftr_div_pow2.
    assert (U8.to_N (U8.wrap (x / 2 ^ (bits + 5 - 8))) = x / 2 ^ (bits + 5 - 8)) as ->.
    { apply to_N_wrap, N.Div0.div_lt_upper_bound. lia. }
    rewrite Hpow. lia.
Qed.

Lemma read_symbols_text D : is32 D → read_symbols (text D) = Some D.
Proof.
  induction 1 as [|d D Hd HD IH]; cbn [read_symbols text]; [done|]. by rewrite position_symbol, IH.
Qed.

(** Uppercase of every letter. *)
Fixpoint upper (t : string) : string :=
  match t with EmptyString => "" | String c t => String (to_ascii_uppercase c) (upper t) end.

Lemma read_symbols_Some t D : read_symbols t = Some D → is32 D ∧ text D = upper t.
Proof.
  revert D. induction t as [|c t IH]; intros D; cbn [read_symbols upper]; [by intros [= <-]|].
  destruct (position _ _) as [d|] eqn:Hd; [|done]. apply position_inv in Hd as [Hd Hs].
  destruct (read_symbols t) as [D'|]; [|done]. intros [= <-].
  destruct (IH D' eq_refl) as [HD HT]. split; [by constructor|]. simpl. by rewrite HT, Hs.
Qed.

(** The digits written for some bytes and the bytes read from these digits. *)
Lemma decoded_unique D B acc bits bytes pad :
  decoded D B acc bits → pad < 5 →
  num 32 D = num 256 (U8.to_N <$> bytes) * 2 ^ pad → 5 * len D = 8 * len bytes + pad →
  B = bytes ∧ acc = 0 ∧ bits = pad.
Proof.
  intros [H1 H2 H3 H4] Hpad Hnum Hlen. assert (bits = pad) as -> by lia.
  destruct (N.div_mod_unique (2 ^ pad) (num 256 (U8.to_N <$> B)) (num 256 (U8.to_N <$> bytes)) acc 0)
    as [E ->]; [done|apply N.neq_0_lt_0, N.pow_nonzero; lia|lia|].
  split; [|done]. apply num_inj in E; [|rewrite !length_fmap; lia|apply byte_values_lt..].
  by apply (inj (fmap U8.to_N)) in E.
Qed.

Lemma decoded_start : decoded [] [] 0 0.
Proof. by split. Qed.

Lemma encode_base32_spec bytes :
  ∃ D pad, encode_base32 bytes = text D ∧ is32 D ∧ pad < 5 ∧
    num 32 D = num 256 (U8.to_N <$> bytes) * 2 ^ pad ∧ 5 * len D = 8 * len bytes + pad.
Proof. by apply (encode_loop_spec bytes [] 0 0 []). Qed.

Lemma decode_encode_base32 bytes :
  (length bytes ≤ 160)%nat → decode_base32 (encode_base32 bytes) = Ok bytes.
Proof.
  intros Hlen. destruct (encode_base32_spec bytes) as (D & pad & -> & HD & Hpad & Hnum & HlenD).
  unfold decode_base32. rewrite text_no_pad, text_length, Nat.eqb_refl by done. simpl.
  destruct (Nat.ltb_spec 256 (length D)); [lia|].
  pose proof (decode_loop_spec (text D) [] [] 0 0 decoded_start) as Hdec.
  rewrite read_symbols_text in Hdec by done. destruct Hdec as (B & acc & bits & -> & HI).
  destruct (decoded_unique D B acc bits bytes pad HI Hpad Hnum HlenD) as (-> & -> & ->). simpl.
  by destruct (N.leb_spec 5 pad); [lia|].
Qed.

Lemma encode_decode_base32 t bytes :
  decode_base32 t = Ok bytes → encode_base32 bytes = upper (trim_end_matches "=" t).
Proof.
  unfold decode_base32. case_match; [done|]. case_match; [done|].
  pose proof (decode_loop_spec (trim_end_matches "=" t) [] [] 0 0 decoded_start) as Hdec.
  destruct (read_symbols _) as [E|] eqn:HE; [|by rewrite Hdec].
  destruct Hdec as (B & acc & bits & -> & HI).
  destruct (N.eqb_spec acc 0) as [->|]; [|done].
  destruct (N.leb_spec 5 bits) as [|Hb]; [done|]. intros [= ->].
  apply read_symbols_Some in HE as [HE HT]. rewrite <- HT.
  destruct (encode_base32_spec bytes) as (D & pad & -> & HD & Hpad & Hnum & Hlen).
  simpl in HI. destruct HI as [_ _ H3 H4]. f_equal. assert (bits = pad) as -> by lia.
  apply (num_inj 32); [lia|done|done|]. lia.
Qed.
End loops.

(** The base32 codec is exact: every secret of at most 160 bytes survives
    encoding and decoding, and a text is accepted only if it is, up to letter
    case and padding, the encoding of the bytes it decodes to, so that no two
    canonical texts denote the same secret. *)
Theorem base32_codec :
  (∀ bytes, length bytes ≤ 160 → decode_base32 (encode_base32 bytes) = Ok bytes) ∧
  (∀ t bytes, decode_base32 t = Ok bytes →
     encode_base32 bytes = upper (trim_end_matches "=" t)).
Proof. split; [exact decode_encode_base32 | exact encode_decode_base32]. Qed.

Lemma base32_codec_witness :
  decode_base32 (encode_base32 [x66; x6f; x6f]) = Ok [x66; x6f; x6f].
Proof. apply (proj1 base32_codec). repeat constructor. Defined.

(** * The [otpauth] URLs of [crates/heptabao-server/src/engines/totp.rs]:
    percent encoding, [parse_url], and the URL that [Totp::write] exports.

    A Rust string is a UTF-8 byte string; [percent_decode] is the one place
    where bytes become a string, and checks it with [String::from_utf8]. *)

Import Engine.

(** * Percent encoding *)

(** [u8::from_str_radix(pair, 16)] on two characters; it takes a leading [+]. *)
Definition hex_digit (c : ascii) : option N :=
  let n := N_of_ascii c in
  if byte_in 48 57 c then Some (n - 48)%N
  else if byte_in 65 70 c then Some (n - 55)%N
  else if byte_in 97 102 c then Some (n - 87)%N
  else None.

Definition hex_pair (a b : ascii) : option N :=
  match hex_digit a, hex_digit b with
  | Some h, Some l => Some (h * 16 + l)%N
  | None, Some l => if decide (a = "+"%char) then Some l else None
  | _, None => None
  end.

Definition bad_percent : EngineError := bad "invalid URL percent encoding".

(** The loop of [percent_decode]. *)
Fixpoint percent_bytes (bytes : string) : EResult string :=
  match bytes with
  | EmptyString => Ok ""
  | String c rest =>
      if decide (c = "%"%char) then
        match rest with
        | String a (String b rest) =>
            let? v := ok_or (hex_pair a b) bad_percent in
            let? output := percent_bytes rest in
            Ok (String (ascii_of_N v) output)
        | _ => Err bad_percent
        end
      else
        let? output := percent_bytes rest in
        Ok (String (if decide (c = "+"%char) then " "%char else c) output)
  end.

Definition percent_decode (text : string) : EResult string :=
  let? output := percent_bytes text in
  if utf8_valid output then Ok output else Err (bad "URL values must be UTF-8").

Definition unreserved (c : ascii) : bool :=
  is_ascii_alphanumeric c
  || bool_decide (c ∈ ["-"%char; "."%char; "_"%char; "~"%char]).

(** An uppercase hexadecimal digit of [{byte:02X}]. *)
Definition hex_upper (n : N) : ascii := ascii_of_N (if (n <? 10)%N then 48 + n else 55 + n).

Definition encode_byte (c : ascii) : string :=
  if unreserved c then String c ""
  else String "%" (String (hex_upper (N_of_ascii c / 16)) (String (hex_upper (N_of_ascii c mod 16)) "")).

Fixpoint percent_encode (text : string) : string :=
  match text with
  | EmptyString => ""
  | String c text => encode_byte c +:+ percent_encode text
  end.

(** * [parse_url] *)
Definition mapped_field (field : string) : option string :=
  if bool_decide (field = "secret") then Some "key"
  else if bool_decide (field ∈ ["issuer"; "algorithm"; "digits"; "period"]) then Some field
  else None.

(** The loop over [query.split('&')]. *)
Fixpoint parse_pairs (pairs : list string) (params : Value) : EResult Value :=
  match pairs with
  | [] => Ok params
  | p :: pairs =>
      let? fv := ok_or (split_once "=" p) (bad "invalid TOTP URL parameter") in
      let? field := percent_decode fv.1 in
      let? value := percent_decode fv.2 in
      let? mapped := ok_or (mapped_field field) (bad "unsupported TOTP URL parameter") in
      if bool_decide (is_Some (Json.get params mapped))
      then Err (bad "duplicate TOTP URL parameter")
      else parse_pairs pairs (Json.set params mapped (VString value))
  end.

Definition parse_url (url : string) : EResult Value :=
  if (2048 <? String.length url) || negb (lacks "#" url) then Err (bad "invalid TOTP URL")
  else
    let? rest := ok_or (strip_prefix "otpauth://totp/" url) (bad "only otpauth TOTP URLs are supported") in
    let? lq := ok_or (split_once "?" rest) (bad "TOTP URL has no key parameters") in
    let? label := percent_decode lq.1 in
    let? params := parse_pairs (split "&" lq.2) (Json.object []) in
    match split_once ":" label with
    | Some (issuer, account) =>
        if match Json.get params "issuer" with
           | Some v => negb (bool_decide (v = VString issuer))
           | None => false
           end
        then Err (bad "TOTP URL label and issuer disagree")
        else Ok (Json.set (Json.set params "issuer" (VString issuer)) "account_name" (VString account))
    | None => Ok (Json.set params "account_name" (VString label))
    end.

(** The URL that [Totp::write] returns for a generated, exported key. *)
Definition export_url (issuer account algorithm : string) (digits period : N) (encoded_secret : string) :
  string :=
  "otpauth://totp/" +:+ percent_encode issuer +:+ ":" +:+ percent_encode account +:+ "?algorithm="
  +:+ algorithm +:+ "&digits=" +:+ render_u64 digits +:+ "&issuer=" +:+ percent_encode issuer
  +:+ "&period=" +:+ render_u64 period +:+ "&secret=" +:+ encoded_secret.

(** * Round trip *)

(** The characters of an exported URL's components. *)
Definition url_safe (c : ascii) : bool := unreserved c || bool_decide (c = "%"%char).

Lemma encode_byte_safe c : str_all url_safe (encode_byte c).
Proof. by destruct c as [[] [] [] [] [] [] [] []]. Qed.

Lemma percent_encode_safe s : str_all url_safe (percent_encode s).
Proof.
  induction s as [|c s IH]; simpl; [done|]. rewrite str_all_app. apply andb_True.
  split; [apply encode_byte_safe|done].
Qed.

Lemma percent_bytes_encode_byte c t :
  percent_bytes (encode_byte c +:+ t) = map_ok (String c) (percent_bytes t).
Proof.
  destruct c as [[] [] [] [] [] [] [] []]; simpl; change ("" +:+ t) with t; by destruct (percent_bytes t).
Qed.

Lemma percent_bytes_encode s : percent_bytes (percent_encode s) = Ok s.
Proof.
  induction s as [|c s IH]; simpl; [done|]. by rewrite percent_bytes_encode_byte, IH.
Qed.

Lemma percent_bytes_encode_app s u :
  percent_bytes (percent_encode s +:+ u) = map_ok (λ v, s +:+ v) (percent_bytes u).
Proof.
  induction s as [|c s IH]; simpl.
  { change ("" +:+ u) with u. by destruct (percent_bytes u). }
  rewrite str_app_assoc, percent_bytes_encode_byte, IH. by destruct (percent_bytes u).
Qed.

Lemma percent_encode_plain s : str_all unreserved s → percent_encode s = s.
Proof.
  induction s as [|c s IH]; simpl; [done|]. intros [Hc Hs]%andb_True.
  unfold encode_byte. apply Is_true_true in Hc as ->. by rewrite IH.
Qed.

Lemma unreserved_ascii c : unreserved c → byte_in 0 127 c = true.
Proof. by destruct c as [[] [] [] [] [] [] [] []]. Qed.

Lemma utf8_plain_app s t : str_all unreserved s → utf8_valid (s +:+ t) = utf8_valid t.
Proof.
  induction s as [|c s IH]; simpl; [done|]. intros [Hc Hs]%andb_True.
  by rewrite unreserved_ascii, IH.
Qed.

Lemma percent_decode_encode s : utf8_valid s → percent_decode (percent_encode s) = Ok s.
Proof.
  intros Hs%Is_true_true. unfold percent_decode. by rewrite percent_bytes_encode, Hs.
Qed.

Lemma percent_decode_plain s : str_all unreserved s → percent_decode s = Ok s.
Proof.
  intros Hs. rewrite <- (percent_encode_plain s) at 1 by done. apply percent_decode_encode.
  rewrite <- (str_app_nil_r s), utf8_plain_app; done.
Qed.

Lemma safe_lacks c s : ¬ url_safe c → str_all url_safe s → lacks c s.
Proof.
  intros Hc. apply str_all_impl. intros a Ha.
  apply negb_True. rewrite bool_decide_spec. by intros ->.
Qed.

Lemma plain_safe s : str_all unreserved s → str_all url_safe s.
Proof. apply str_all_impl. intros a Ha. unfold url_safe. by apply orb_True; left. Qed.

Lemma lacks_app c s t : lacks c s → lacks c t → lacks c (s +:+ t).
Proof. unfold lacks. rewrite str_all_app, andb_True. done. Qed.

Lemma split_safe_app s t :
  lacks "&" s → split "&" (s +:+ "&" +:+ t) = s :: split "&" t.
Proof. intros Hs. change ("&" +:+ t) with (String "&" t). by rewrite split_app, split_lacks. Qed.

Lemma digits_unreserved s : str_all is_ascii_digit s → str_all unreserved s.
Proof.
  apply str_all_impl. intros a. by destruct a as [[] [] [] [] [] [] [] []].
Qed.

Lemma encoded_unreserved bytes : str_all unreserved (encode_base32 bytes).
Proof.
  destruct (encode_base32_spec bytes) as (D & pad & -> & HD & _).
  induction HD as [|d D Hd HD IH]; cbn [text str_all]; [done|]. apply andb_True. split; [|done].
  exact (all_digits (λ d, unreserved (symbol d)) eq_refl d Hd).
Qed.

Section url.
Context (issuer account algorithm secret : string) (digits period : N).
Context (Hissuer : utf8_valid issuer) (Haccount : utf8_valid account) (Hcolon : lacks ":" issuer)
  (Halg : str_all unreserved algorithm) (Hsecret : str_all unreserved secret).

Lemma label_decodes :
  percent_decode (percent_encode issuer +:+ ":" +:+ percent_encode account)
  = Ok (issuer +:+ ":" +:+ account).
Proof.
  unfold percent_decode. rewrite percent_bytes_encode_app.
  change (percent_bytes (":" +:+ percent_encode account))
    with (let? output := percent_bytes (percent_encode account) in Ok (String ":" output)).
  rewrite percent_bytes_encode. cbn [map_ok]. rewrite utf8_app by done.
  change (utf8_valid (String ":" account)) with (utf8_valid account).
  by apply Is_true_true in Haccount as ->.
Qed.

Lemma parse_pair field mapped value text pairs params :
  percent_decode text = Ok value → lacks "=" field → percent_decode field = Ok field →
  mapped_field field = Some mapped → Json.get params mapped = None →
  parse_pairs ((field +:+ "=" +:+ text) :: pairs) params
  = parse_pairs pairs (Json.set params mapped (VString value)).
Proof.
  intros Ht Hl Hf Hm Hg. cbn [parse_pairs]. change ("=" +:+ text) with (String "=" text).
  rewrite split_once_app by done. cbn [ok_or fst snd]. rewrite Hf, Ht, Hm. cbn [ok_or]. by rewrite Hg.
Qed.

Lemma export_lacks c : ¬ url_safe c → c ∉ [":"; "/"; "?"; "&"; "="]%char →
  lacks c (export_url issuer account algorithm digits period secret).
Proof.
  intros Hc Hin. unfold export_url.
  assert (∀ s, str_all url_safe s → lacks c s) as Hsafe by (intros; by apply safe_lacks).
  pose proof (λ n, Hsafe _ (plain_safe _ (digits_unreserved _ (render_u64_all n)))).
  pose proof (λ s, Hsafe _ (percent_encode_safe s)).
  pose proof (Hsafe _ (plain_safe _ Halg)). pose proof (Hsafe _ (plain_safe _ Hsecret)).
  assert (∀ s, str_all (λ a, url_safe a || bool_decide (a ∈ [":"; "/"; "?"; "&"; "="]%char)) s → lacks c s)
    as Hfixed.
  { intros s. apply str_all_impl. intros a Ha. apply negb_True. rewrite bool_decide_spec. intros ->.
    apply orb_True in Ha as [|Ha%bool_decide_unpack]; done. }
  repeat (apply lacks_app; [first [by auto | by apply Hfixed; vm_compute]|]). done.
Qed.

Lemma parse_export_pairs :
  parse_pairs (split "&" ("algorithm=" +:+ algorithm +:+ "&digits=" +:+ render_u64 digits +:+ "&issuer="
    +:+ percent_encode issuer +:+ "&period=" +:+ render_u64 period +:+ "&secret=" +:+ secret)) (Json.object [])
  = Ok (Json.object [("algorithm", VString algorithm); ("digits", VString (render_u64 digits));
          ("issuer", VString issuer); ("period", VString (render_u64 period)); ("key", VString secret)]).
Proof.
  assert (∀ s, str_all url_safe s → lacks "&" s) as Hsafe.
  { intros s. apply safe_lacks. by intros []. }
  pose proof (λ n, digits_unreserved _ (render_u64_all n)) as Hdigits.
  set (pieces := ["algorithm" +:+ "=" +:+ algorithm; "digits" +:+ "=" +:+ render_u64 digits;
    "issuer" +:+ "=" +:+ percent_encode issuer; "period" +:+ "=" +:+ render_u64 period;
    "secret" +:+ "=" +:+ secret]).
  match goal with |- parse_pairs (split "&" ?q) _ = _ => change q with (join "&" pieces) end.
  rewrite split_join; [|done|].
  - subst pieces. do 5 (erewrite parse_pair; [|first [by apply percent_decode_encode
      | by apply percent_decode_plain]|done|done|done|done]). done.
  - repeat constructor; (apply lacks_app; [done|]; apply lacks_app; [done|]; apply Hsafe);
      first [apply percent_encode_safe | by apply plain_safe].
Qed.
End url.

(** The URL handed out for an exported key can be imported again: parsing
    it gives back the issuer, account, algorithm, digits, period and secret,
    for all UTF-8 labels (the issuer without a colon) whose URL is within the
    importer's limit of 2048 bytes. *)
Theorem otp_url_roundtrip (issuer account algorithm : string) (digits period : N) (bytes : list u8) :
  utf8_valid issuer → utf8_valid account → lacks ":" issuer →
  algorithm ∈ ["SHA1"; "SHA256"; "SHA512"] →
  let secret := encode_base32 bytes in
  let url := export_url issuer account algorithm digits period secret in
  String.length url ≤ 2048 →
  parse_url url =
    Ok (Json.object [("key", VString secret); ("issuer", VString issuer);
                     ("account_name", VString account); ("algorithm", VString algorithm);
                     ("digits", VString (render_u64 digits)); ("period", VString (render_u64 period))]).
Proof.
  intros Hi Ha Hc Halg secret url Hlen.
  assert (str_all unreserved algorithm) as Hplain by (by set_unfold in Halg; destruct_or! Halg; subst).
  assert (str_all unreserved secret) as Hsecret by apply encoded_unreserved.
  unfold parse_url. destruct (Nat.ltb_spec 2048 (String.length url)); [lia|].
  assert (lacks "#" url) as Hhash%Is_true_true.
  { apply export_lacks; [done|done|by intros []|]. by apply (bool_decide_unpack _). }
  rewrite Hhash. cbn [orb negb]. unfold url, export_url. rewrite strip_prefix_app. cbn [ok_or].
  rewrite <- (str_app_assoc ":"), <- (str_app_assoc (percent_encode issuer)).
  match goal with |- context [split_once "?" (?l +:+ ?r)] =>
    change r with (String "?" ("algorithm=" +:+ algorithm +:+ "&digits=" +:+ render_u64 digits +:+ "&issuer="
    +:+ percent_encode issuer +:+ "&period=" +:+ render_u64 period +:+ "&secret=" +:+ secret)) end.
  rewrite split_once_app.
  2:{ apply lacks_app; [|apply lacks_app; [done|]]; (apply safe_lacks; [by intros []|apply percent_encode_safe]). }
  cbn [ok_or fst snd]. rewrite label_decodes by done. rewrite parse_export_pairs by done.
  change (":" +:+ account) with (String ":" account). rewrite split_once_app by done.
  change (Json.get _ "issuer") with (Some (VString issuer)). cbv beta iota. by rewrite bool_decide_true.
Qed.

Lemma otp_url_roundtrip_witness :
  parse_url (export_url "Acme Inc" "a:b@c" "SHA1" 6 30 (encode_base32 [x66; x6f; x6f]))
  = Ok (Json.object [("key", VString "MZXW6"); ("issuer", VString "Acme Inc");
                     ("account_name", VString "a:b@c"); ("algorithm", VString "SHA1");
                     ("digits", VString "6"); ("period", VString "30")]).
Proof.
  apply (otp_url_roundtrip "Acme Inc" "a:b@c" "SHA1" 6 30 [x66; x6f; x6f]).
  - vm_compute. exact I.
  - vm_compute. exact I.
  - vm_compute. exact I.
  - left.
  - apply Nat.leb_le. vm_compute. reflexivity.
Defined.
