(* ===== verification/Totp.v ===== *)
(** The TOTP engine, [crates/heptabao-server/src/engines/totp.rs]: key import
    and generation, code generation, and validation with replay and guessing
    protection.

    HMAC and the system's random generator are not part of this code: they are
    the parameters [hmac_sign] (class [Hmac], with the tag lengths of the three
    hash functions as [HmacLaws]) and [fill].  Erasure of secrets from memory
    has no counterpart. *)
From Stdlib Require Import Ascii NArith ZArith Strings.Byte.
From S2P Require Import Prelude Str Json Engine Gf256 Base32 EngineState.
Import Engine.

Inductive Algorithm : Type := HMAC_SHA1 | HMAC_SHA256 | HMAC_SHA512.

(** [hmac::sign(&hmac::Key::new(algorithm, key), message)]. *)
Class Hmac := hmac_sign : Algorithm → list u8 → list u8 → list u8.

Definition tag_length (a : Algorithm) : nat :=
  match a with HMAC_SHA1 => 20 | HMAC_SHA256 => 32 | HMAC_SHA512 => 64 end.

Class HmacLaws `{Hmac} : Prop :=
  hmac_length : ∀ a key message, length (hmac_sign a key message) = tag_length a.

Module Key.
Record t := mk {
  secret : list u8;
  issuer : string;
  account_name : string;
  algorithm : string;
  digits : N;
  period : N;
  skew : N;
  last_accepted_counter : option N;
  failed_window : N;
  failures : N;
}.
End Key.
Notation Key := Key.t.

(** [struct Totp { keys: BTreeMap<String, Key> }]. *)
Notation Totp := (gmap string Key).

(** [u64::to_be_bytes]. *)
Definition to_be_bytes (n : N) : list u8 :=
  (λ i, U8.wrap (N.shiftr n (8 * N.of_nat (7 - i)))) <$> seq 0 8.

Module Totp.
Section totp.
Context `{Hmac} (fill : N → option (list u8)).

Definition contains (self : Totp) (name : string) : bool := bool_decide (is_Some (self !! name)).

Definition hmac_algorithm (algorithm : string) : EResult Algorithm :=
  if bool_decide (algorithm = "SHA1") then Ok HMAC_SHA1
  else if bool_decide (algorithm = "SHA256") then Ok HMAC_SHA256
  else if bool_decide (algorithm = "SHA512") then Ok HMAC_SHA512
  else Err (bad "TOTP algorithm must be SHA1, SHA256 or SHA512").

(** Dynamic truncation; [None] where an index would be out of range. *)
Definition truncate (bytes : list u8) : option N :=
  match last bytes with
  | None => None
  | Some b =>
      let offset := N.to_nat (N.land (U8.to_N b) 15) in
      match bytes !! offset, bytes !! (offset + 1), bytes !! (offset + 2), bytes !! (offset + 3) with
      | Some b0, Some b1, Some b2, Some b3 =>
          Some (N.lor (N.lor (N.lor (shl32 (N.land (U8.to_N b0) 127) 24) (shl32 (U8.to_N b1) 16))
                        (shl32 (U8.to_N b2) 8)) (U8.to_N b3))
      | _, _, _, _ => None
      end
  end.

(** Every index is in range of a tag of at least 20 bytes, so the default is
    never used. *)
Definition code (key : Key) (counter : N) : EResult string :=
  let? a := hmac_algorithm (Key.algorithm key) in
  let truncated := default 0%N (truncate (hmac_sign a (Key.secret key) (to_be_bytes counter))) in
  Ok (padded (N.to_nat (Key.digits key)) (Z.of_N (truncated mod 10 ^ Key.digits key))).

(** * [write] *)

(** The parameters of the body, completed by those of its URL. *)
Fixpoint merge_url (map : list (string * Value)) (parameters : Value) : EResult Value :=
  match map with
  | [] => Ok parameters
  | (field, value) :: map =>
      if match Json.get parameters field with
         | Some existing => negb (bool_decide (existing = value))
         | None => false
         end
      then Err (bad "TOTP URL conflicts with an explicit parameter")
      else merge_url map (Json.set parameters field value)
  end.

Definition is_some {A} (o : option A) : bool := match o with Some _ => true | None => false end.

Definition write_parameters (body : Value) (generated : bool) : EResult Value :=
  match Json.get body "url" with
  | None => Ok body
  | Some url =>
      if bool_decide (Json.as_str url = Some "") then Ok body
      else if generated || is_some (Json.get body "key")
      then Err (bad "specify exactly one TOTP secret source")
      else
        let? url := ok_or (Json.as_str url) (bad "TOTP URL must be a string") in
        let? parsed := parse_url url in
        let? map := ok_or (Json.as_object parsed) (bad "invalid TOTP URL parameters") in
        merge_url map body
  end.

(** An optional string parameter with its default. *)
Definition text_param (parameters : Value) (name otherwise : string) : EResult string :=
  match Json.get parameters name with
  | None => Ok otherwise
  | Some v => ok_or (Json.as_str v) (bad (name +:+ " must be a string"))
  end.

(** The secret, from the generator or from the [key] parameter. *)
Definition write_secret (body parameters : Value) (generated : bool) : EResult (list u8) :=
  if generated then
    let? size := optional_u64 body "key_size" in
    let size := default 20%N size in
    if negb ((10 <=? size)%N && (size <=? 128)%N)
    then Err (bad "TOTP key_size must be between 10 and 128 bytes")
    else ok_or (fill size) (error 503 "system entropy is unavailable")
  else
    let? key := string_param parameters "key" in
    decode_base32 key.

(** The key a request describes, before the previous key is consulted. *)
Definition new_key (body parameters : Value) (generated exported : bool) : EResult Key :=
  let? issuer := text_param parameters "issuer" "" in
  let? account := text_param parameters "account_name" "" in
  if (256 <? String.length issuer) || (256 <? String.length account) || negb (lacks ":" issuer)
     || has_control issuer || has_control account
  then Err (bad "invalid TOTP issuer or account label")
  else if generated && (bool_decide (issuer = "") || bool_decide (account = ""))
  then Err (bad "generated TOTP keys require issuer and account_name")
  else if generated && (is_some (Json.get body "key") || is_some (Json.get body "url"))
  then Err (bad "generated TOTP keys cannot also import a key")
  else
    let? qr := if generated && exported then optional_u64 body "qr_size" else Ok (Some 0%N) in
    if generated && exported && negb (default 200 qr =? 0)%N
    then Err (error 501 "QR image generation is not implemented; set qr_size=0 for an otpauth URL")
    else
      let? algorithm := text_param parameters "algorithm" "SHA1" in
      let? _ := hmac_algorithm algorithm in
      let? digits := optional_u64 parameters "digits" in
      let digits := default 6%N digits in
      if negb ((digits =? 6)%N || (digits =? 8)%N) then Err (bad "TOTP digits must be 6 or 8")
      else
        let? period := optional_u64 parameters "period" in
        let period := default 30%N period in
        if negb ((1 <=? period)%N && (period <=? 3600)%N)
        then Err (bad "TOTP period must be between 1 and 3600 seconds")
        else
          let? skew := optional_u64 parameters "skew" in
          let skew := default 1%N skew in
          if (1 <? skew)%N then Err (bad "TOTP skew must be 0 or 1")
          else
            let? secret := write_secret body parameters generated in
            if negb ((10 <=? length secret) && (length secret <=? 128))
            then Err (bad "TOTP secrets must contain between 10 and 128 bytes")
            else Ok (Key.mk secret issuer account algorithm digits period skew None 0 0).

(** Whether two keys are the same credential. *)
Definition same_credential (previous key : Key) : bool :=
  bool_decide (Key.secret previous = Key.secret key)
  && bool_decide (Key.algorithm previous = Key.algorithm key)
  && bool_decide (Key.period previous = Key.period key)
  && bool_decide (Key.digits previous = Key.digits key).

(** Re-importing the same credential keeps its replay and guessing protection. *)
Definition carry_over (previous : option Key) (key : Key) : Key :=
  match previous with
  | Some previous =>
      if same_credential previous key then
        Key.mk (Key.secret key) (Key.issuer key) (Key.account_name key) (Key.algorithm key)
          (Key.digits key) (Key.period key) (Key.skew key)
          (Key.last_accepted_counter previous) (Key.failed_window previous) (Key.failures previous)
      else key
  | None => key
  end.

Definition key_url (key : Key) : string :=
  export_url (Key.issuer key) (Key.account_name key) (Key.algorithm key) (Key.digits key)
    (Key.period key) (encode_base32 (Key.secret key)).

Definition write (name : string) (body : Value) : M Totp EngineError EngineResponse := λ self,
  let r :=
    let? _ := reject_unknown body ["generate"; "exported"; "key_size"; "url"; "key"; "issuer";
                "account_name"; "period"; "algorithm"; "digits"; "skew"; "qr_size"] in
    let? generated := optional_bool body "generate" in
    let generated := default false generated in
    let? exported := optional_bool body "exported" in
    let exported := default true exported in
    let? parameters := write_parameters body generated in
    let? key := new_key body parameters generated exported in
    Ok (key, if generated && exported
             then ok (Json.object [("url", VString (key_url key))]) true else empty true) in
  match r with
  | Err e => (self, Err e)
  | Ok (key, response) => (<[name := carry_over (self !! name) key]> self, Ok response)
  end.

(** * [validate] *)

(** [current.saturating_sub(skew)..=current.saturating_add(skew)]. *)
Definition window (current skew : N) : list N :=
  let lo := (current - skew)%N in
  let hi := saturating_add current skew in
  (λ i, lo + N.of_nat i)%N <$> seq 0 (N.to_nat (hi + 1 - lo)).

(** The comparison of the submitted and the expected code, by the equality of
    their HMAC-SHA256 tags under the secret. *)
Definition matches (key : Key) (submitted expected : string) : bool :=
  bool_decide (hmac_sign HMAC_SHA256 (Key.secret key) (String.list_byte_of_string submitted)
               = hmac_sign HMAC_SHA256 (Key.secret key) (String.list_byte_of_string expected)).

Fixpoint match_loop (key : Key) (submitted : string) (counters : list N) (matched : option N) :
  EResult (option N) :=
  match counters with
  | [] => Ok matched
  | counter :: counters =>
      let? expected := code key counter in
      let fresh := match Key.last_accepted_counter key with
                   | None => true
                   | Some accepted => (accepted <? counter)%N
                   end in
      match_loop key submitted counters
        (if matches key submitted expected && fresh then Some counter else matched)
  end.

Definition set_protection (key : Key) (last : option N) (window failures : N) : Key :=
  Key.mk (Key.secret key) (Key.issuer key) (Key.account_name key) (Key.algorithm key)
    (Key.digits key) (Key.period key) (Key.skew key) last window failures.

(** The start of a new period clears the failure count. *)
Definition enter_window (key : Key) (current : N) : Key :=
  if (Key.failed_window key <? current)%N
  then set_protection key (Key.last_accepted_counter key) current 0 else key.

Definition validate_key (submitted : string) (now : N) : M Key EngineError EngineResponse := λ key,
  if negb (String.length submitted =? N.to_nat (Key.digits key)) || negb (str_all is_ascii_digit submitted)
  then (key, Err (bad "TOTP code must contain exactly the configured number of decimal digits"))
  else
    let current := (now / Key.period key)%N in
    let key := enter_window key current in
    if (10 <=? Key.failures key)%N
    then (key, Err (error 429 "TOTP validation attempt limit reached for this period"))
    else match match_loop key submitted (window current (Key.skew key)) None with
    | Err e => (key, Err e)
    | Ok (Some counter) =>
        (set_protection key (Some counter) (Key.failed_window key) 0,
         Ok (ok (Json.object [("valid", VBool true)]) true))
    | Ok None =>
        (set_protection key (Key.last_accepted_counter key) (Key.failed_window key) (Key.failures key + 1),
         Ok (ok (Json.object [("valid", VBool false)]) true))
    end.

Definition validate (name : string) (body : Value) (now : N) : M Totp EngineError EngineResponse := λ self,
  match (let? _ := reject_unknown body ["code"] in string_param body "code") with
  | Err e => (self, Err e)
  | Ok submitted =>
      match self !! name with
      | None => (self, Err not_found)
      | Some key =>
          let '(key, r) := validate_key submitted now key in
          (<[name := key]> self, r)
      end
  end.

(** * [handle] *)
Definition generate_code (key : Key) (now : N) : EResult EngineResponse :=
  let counter := (now / Key.period key)%N in
  let? expiry := ok_or (match checked_add counter 1 with
                        | Some counter => checked_mul counter (Key.period key)
                        | None => None
                        end) (bad "TOTP time overflow") in
  let? code := code key counter in
  Ok (ok (Json.object [("code", VString code); ("generated", Json.u64 now);
                       ("expire_time", Json.u64 expiry);
                       ("period", VString (render_u64 (Key.period key) +:+ "s"))]) false).

Definition list_names (self : Totp) (method : string) (body : Value) : EResult EngineResponse :=
  if negb (bool_decide (method = "LIST")) then Err unsupported
  else
    let? keys := list_keys (btree_keys self) "" false body in
    if bool_decide (keys = []) then Err not_found
    else Ok (ok (Json.object [("keys", VArray (VString <$> keys))]) false).

Definition handle_key (operation name method : string) (body : Value) (now : N) :
  M Totp EngineError EngineResponse := λ self,
  if bool_decide (operation = "keys") && write_method method then write name body self
  else if bool_decide (operation = "keys") && bool_decide (method = "DELETE") then
    (delete name self, Ok (empty (bool_decide (is_Some (self !! name)))))
  else if bool_decide (operation = "keys") && bool_decide (method = "GET") then
    (self,
     let? key := ok_or (self !! name) not_found in
     Ok (ok (Json.object [("issuer", VString (Key.issuer key)); ("account_name", VString (Key.account_name key));
                          ("algorithm", VString (Key.algorithm key)); ("digits", Json.u64 (Key.digits key));
                          ("period", Json.u64 (Key.period key))]) false))
  else if bool_decide (operation = "code") && bool_decide (method = "GET") then
    (self, let? key := ok_or (self !! name) not_found in generate_code key now)
  else if bool_decide (operation = "code") && write_method method then validate name body now self
  else (self, Err unsupported).

Definition handle (method path : string) (body : Value) (now : N) :
  M Totp EngineError EngineResponse := λ self,
  if bool_decide (path = "keys") || bool_decide (path = "keys/")
  then (self, list_names self method body)
  else
    match (let? on := ok_or (split_once "/" path) (error 404 "unknown TOTP operation") in
           let? _ := valid_path on.2 in
           if negb (lacks "/" on.2) then Err (bad "TOTP key names must be a single path segment")
           else Ok on) with
    | Err e => (self, Err e)
    | Ok (operation, name) => handle_key operation name method body now self
    end.

(** The TOTP engine as a backend of the engine front end. *)
#[export] Instance totp_ops : EngineOps Totp := {|
  engine_default := ∅;
  engine_contains := contains;
  engine_handle _ _ method path body now := handle method path body now;
|}.
End totp.
End Totp.
