(* ===== verification/TotpSpec.v ===== *)
(** Properties of the TOTP engine: the invariant of stored keys, the form of
    generated codes, acceptance of a current code, protection against replay
    and the bound on guesses within one period. *)
From Stdlib Require Import Ascii NArith ZArith Strings.Byte.
From S2P Require Import Prelude Str Json Engine Gf256 Base32 EngineState Totp.
Import Engine Totp.

(** * Requests

    A request is committed the way the front end does it: when it succeeds and
    reports a mutation. *)
Record TotpReq := totp_req {
  rq_fill : N → option (list u8);
  rq_method : string;
  rq_path : string;
  rq_body : Value;
  rq_now : N;
}.

#[export] Instance EngineResponse_eq_dec : EqDecision EngineResponse.
Proof. solve_decision. Defined.

(** * Zero-padded decimals *)
Lemma render_digits_width fuel n w acc :
  (0 < w)%nat → (n < 10 ^ N.of_nat w)%N → String.length (render_digits fuel n acc) ≤ w + String.length acc.
Proof.
  revert n w acc. induction fuel as [|fuel IH]; intros n w acc Hw Hn; simpl; [lia|].
  destruct (N.ltb_spec n 10); simpl; [lia|]. destruct w as [|[|w]]; [lia|simpl in Hn; lia|].
  etrans; [apply (IH _ (S w)); [lia|]|simpl; lia].
  apply N.Div0.div_lt_upper_bound. by rewrite (Nat2N.inj_succ (S w)), N.pow_succ_r' in Hn.
Qed.

(** [n] zeros. *)
Fixpoint zeros (n : nat) : string := match n with O => "" | S n => String "0" (zeros n) end.

Lemma concat_zeros n : String.concat "" (repeat "0" n) = zeros n.
Proof.
  induction n as [|[|n] IH]; [done..|].
  change (String "0" (String.concat "" (repeat "0" (S n))) = zeros (S (S n))). by rewrite IH.
Qed.

Lemma zeros_spec n s :
  String.length (zeros n +:+ s) = n + String.length s ∧
  str_all is_ascii_digit (zeros n +:+ s) = str_all is_ascii_digit s ∧
  read_digits 0 (zeros n +:+ s) = read_digits 0 s.
Proof. induction n as [|n (IH1 & IH2 & IH3)]; [done|].
  split_and!; [simpl; by rewrite IH1|exact IH2|exact IH3].
Qed.

Lemma padded_spec w n :
  0 < w ≤ 19 → (n < 10 ^ N.of_nat w)%N →
  String.length (padded w (Z.of_N n)) = w ∧ str_all is_ascii_digit (padded w (Z.of_N n)) ∧
  read_digits 0 (padded w (Z.of_N n)) = n.
Proof.
  intros Hw Hn. unfold padded. rewrite N2Z.id, concat_zeros.
  destruct (zeros_spec (w - String.length (render_u64 n)) (render_u64 n)) as (-> & -> & ->).
  pose proof (render_digits_width 20 n w "" ltac:(lia) Hn) as Hlen. fold (render_u64 n) in Hlen. simpl in Hlen.
  split; [lia|]. split; [apply render_u64_all|]. apply read_render_u64.
  assert (10 ^ N.of_nat w <= 10 ^ 19)%N by (apply N.pow_le_mono_r; lia).
  change U64_MAX with 18446744073709551615%N. change (10 ^ 19)%N with 10000000000000000000%N in *. lia.
Qed.

Section spec.
Context `{Hmac}.
Implicit Types (s : Totp) (k : Key).

Definition totp_call (o : TotpReq) (s : Totp) : Totp * EResult EngineResponse :=
  handle (rq_fill o) (rq_method o) (rq_path o) (rq_body o) (rq_now o) s.

Definition totp_exec (o : TotpReq) (s : Totp) : Totp :=
  match totp_call o s with
  | (s', Ok r) => if EngineResponse.mutated r then s' else s
  | (_, Err _) => s
  end.

(** * The invariant of stored keys *)
Record key_ok (k : Key) : Prop := {
  ok_digits : Key.digits k = 6%N ∨ Key.digits k = 8%N;
  ok_period : (1 ≤ Key.period k ≤ 3600)%N;
  ok_skew : (Key.skew k ≤ 1)%N;
  ok_secret : 10 ≤ length (Key.secret k) ≤ 128;
  ok_algorithm : is_ok (hmac_algorithm (Key.algorithm k)) = true;
  ok_failures : (Key.failures k ≤ 10)%N;
}.

Definition totp_inv (s : Totp) : Prop := map_Forall (λ _ k, key_ok k) s.

(** Boolean guards as propositions. *)
Ltac guards :=
  repeat match goal with
  | H : negb _ = false |- _ => apply negb_false_iff in H
  | H : negb _ = true |- _ => apply negb_true_iff in H
  | H : _ && _ = true |- _ => apply andb_true_iff in H as [? ?]
  | H : _ || _ = false |- _ => apply orb_false_iff in H as [? ?]
  | H : (_ <=? _)%N = true |- _ => apply N.leb_le in H
  | H : (_ <=? _)%N = false |- _ => apply N.leb_gt in H
  | H : (_ <? _)%N = true |- _ => apply N.ltb_lt in H
  | H : (_ <? _)%N = false |- _ => apply N.ltb_ge in H
  | H : (_ =? _)%N = true |- _ => apply N.eqb_eq in H
  | H : (_ <=? _) = true |- _ => apply Nat.leb_le in H
  | H : bool_decide _ = true |- _ => apply bool_decide_eq_true in H
  | H : bool_decide _ = false |- _ => apply bool_decide_eq_false in H
  end.

Lemma new_key_ok fill body parameters generated exported k :
  new_key fill body parameters generated exported = Ok k → key_ok k.
Proof.
  unfold new_key. intros Hk. repeat case_match; simplify_eq; guards.
  all: match goal with H : hmac_algorithm _ = Ok _ |- _ => rename H into Halg end.
  all: split; simpl; [|lia..|by rewrite Halg|lia].
  all: match goal with H : _ || _ = true |- _ => apply orb_true_iff in H as [?|?] end; guards; auto.
Qed.

Lemma key_ok_protection k last w f : key_ok k → (f ≤ 10)%N → key_ok (set_protection k last w f).
Proof. intros [? ? ? ? ? ?] ?. by split. Qed.

Lemma key_ok_carry previous k :
  key_ok k → (∀ p, previous = Some p → key_ok p) → key_ok (carry_over previous k).
Proof.
  intros Hk Hp. destruct previous as [p|]; simpl; [|done]. case_match; [|done].
  apply (key_ok_protection k); [done|]. by apply Hp.
Qed.

Lemma key_ok_enter k c : key_ok k → key_ok (enter_window k c).
Proof. intros Hk. unfold enter_window. case_match; [|done]. by apply key_ok_protection. Qed.

Lemma validate_key_ok sub now k : key_ok k → key_ok (validate_key sub now k).1.
Proof.
  intros Hk. unfold validate_key. case_match; [done|].
  set (k' := enter_window k _). assert (key_ok k') as Hk' by by apply key_ok_enter.
  case_match; [done|]. guards. repeat case_match; simplify_eq/=; try done;
    apply key_ok_protection; (done || lia).
Qed.

Lemma write_inv fill name body s : totp_inv s → totp_inv (write fill name body s).1.
Proof.
  intros Hs. unfold write. case_match ; [|done]. destruct a as [k r]. simpl.
  apply map_Forall_insert_2; [|done]. apply key_ok_carry; [|intros p Hp; by eapply Hs].
  repeat (case_match; simplify_eq/=; try done); by eapply new_key_ok.
Qed.

Lemma validate_inv name body now s : totp_inv s → totp_inv (validate name body now s).1.
Proof.
  intros Hs. unfold validate. case_match; [|done]. destruct (s !! name) as [k|] eqn:Hk; [|done].
  destruct (validate_key a now k) as [k' r] eqn:E. simpl. apply map_Forall_insert_2; [|done].
  change k' with (k', r).1. rewrite <- E. by apply validate_key_ok, (Hs name).
Qed.

Lemma totp_exec_inv o s : totp_inv s → totp_inv (totp_exec o s).
Proof.
  intros Hs. assert (totp_inv (totp_call o s).1) as Hc.
  { unfold totp_call, handle. case_match; [done|]. case_match; [|done]. destruct a as [op name].
    unfold handle_key. repeat case_match; try done; simpl.
    - by apply write_inv.
    - by apply map_Forall_delete.
    - by apply validate_inv. }
  unfold totp_exec. destruct (totp_call o s) as [s' [r|e]]; [|done]. by case_match.
Qed.

(** * One request, seen from one key *)
Definition valid_response (b : bool) : EngineResponse :=
  ok (Json.object [("valid", VBool b)]) true.

(** The verdict a request gives on a code submitted for [name], if any. *)
Definition verdict (name : string) (o : TotpReq) (s : Totp) : option bool :=
  if bool_decide (rq_path o = "code/" +:+ name) && write_method (rq_method o) then
    match (totp_call o s).2 with
    | Ok r => if decide (r = valid_response true) then Some true
              else if decide (r = valid_response false) then Some false else None
    | Err _ => None
    end
  else None.

Definition current (k : Key) (now : N) : N := (now / Key.period k)%N.

Definition fresh (k : Key) (c : N) : Prop :=
  match Key.last_accepted_counter k with None => True | Some a => (a < c)%N end.

(** A counter of the window whose code the submission matches. *)
Definition hit (k : Key) (now : N) (submitted : string) (c : N) : Prop :=
  c ∈ window (current k now) (Key.skew k) ∧ fresh k c ∧
  ∃ expected, code k c = Ok expected ∧ matches k submitted expected = true.

(** The effect of one request on the protection of a key; [P] holds of the code
    submitted with it. *)
Inductive key_step (P : string → Prop) (now : N) (k : Key) : option bool → Key → Prop :=
| step_same k' :
    Key.last_accepted_counter k' = Key.last_accepted_counter k →
    Key.failed_window k' = Key.failed_window k → Key.failures k' = Key.failures k →
    key_step P now k None k'
| step_miss e :
    e = enter_window k (current k now) → (Key.failures e < 10)%N →
    key_step P now k (Some false)
      (set_protection e (Key.last_accepted_counter e) (Key.failed_window e) (Key.failures e + 1))
| step_hit e submitted c :
    e = enter_window k (current k now) → (Key.failures e < 10)%N → P submitted → hit k now submitted c →
    key_step P now k (Some true) (set_protection e (Some c) (Key.failed_window e) 0).

Lemma code_protection k last w f c : code (set_protection k last w f) c = code k c.
Proof. done. Qed.

Lemma match_loop_Some k sub counters m c :
  match_loop k sub counters m = Ok (Some c) →
  m = Some c ∨ c ∈ counters ∧ fresh k c ∧
    ∃ expected, code k c = Ok expected ∧ matches k sub expected = true.
Proof.
  revert m. induction counters as [|d ds IH]; intros m; cbn [match_loop]; [by intros [= ->]; left|].
  destruct (code k d) as [e|] eqn:Hcode; [|done]. intros [Hm|(Hin & Hrest)]%IH.
  - destruct (matches k sub e && _) eqn:Hmatch; [|by left]. injection Hm as ->. right.
    apply andb_true_iff in Hmatch as [Hmatch Hfresh]. split; [by left|]. split; [|by eauto].
    unfold fresh. destruct (Key.last_accepted_counter k); [by apply N.ltb_lt|done].
  - right. split; [by right|done].
Qed.

Lemma enter_window_protection k c :
  enter_window k c = set_protection k (Key.last_accepted_counter k)
    (N.max (Key.failed_window k) c) (if (Key.failed_window k <? c)%N then 0 else Key.failures k)%N.
Proof.
  unfold enter_window. destruct (N.ltb_spec (Key.failed_window k) c) as [Hlt|Hge].
  - by rewrite N.max_r by lia.
  - rewrite N.max_l by lia. by destruct k.
Qed.

(** A validation answers with a verdict and records it, or fails. *)
Lemma validate_key_step (P : string → Prop) sub now k k' r :
  P sub → validate_key sub now k = (k', r) →
  match r with
  | Ok resp => ∃ b, resp = valid_response b ∧ key_step P now k (Some b) k'
  | Err _ => True
  end.
Proof.
  intros HP. unfold validate_key. case_match; [by intros [= <- <-]|].
  fold (current k now). destruct (N.leb_spec 10 (Key.failures (enter_window k (current k now)))) as [|Hf];
    [by intros [= <- <-]|].
  destruct (match_loop _ _ _ _) as [[c|]|e] eqn:Hm; intros [= <- <-]; [| |done].
  - apply match_loop_Some in Hm as [|Hm]; [done|]. rewrite enter_window_protection in Hm.
    exists true. split; [done|]. by econstructor.
  - exists false. split; [done|]. by econstructor.
Qed.

(** The request a path stands for. *)
Lemma code_path_spec path op nm name :
  split_once "/" path = Some (op, nm) →
  bool_decide (path = "code/" +:+ name) = bool_decide (op = "code") && bool_decide (nm = name).
Proof.
  intros E. apply eq_true_iff_eq. rewrite andb_true_iff, !bool_decide_eq_true. split.
  - intros ->. change ("code/" +:+ name) with ("code" +:+ String "/" name) in E.
    rewrite split_once_app in E by done. by injection E.
  - intros [-> ->]. by apply split_once_Some in E as [-> _].
Qed.

Lemma write_step fill nm name body s s' r k k' now :
  write fill nm body s = (s', r) → s !! name = Some k → s' !! name = Some k' →
  same_credential k k' = true → ∀ P, key_step P now k None k'.
Proof.
  unfold write. destruct (let? _ := reject_unknown _ _ in _) as [[key resp]|e]; intros [= <- <-] Hk.
  2:{ rewrite Hk. intros [= <-] _ P. by constructor. }
  destruct (decide (nm = name)) as [->|Hne].
  2:{ rewrite lookup_insert_ne, Hk by done. intros [= <-] _ P. by constructor. }
  rewrite lookup_insert_eq, Hk. intros [= <-]. unfold carry_over.
  destruct (same_credential k key) eqn:Hsame; [by constructor|].
  by rewrite Hsame.
Qed.

Definition response_verdict (r : EngineResponse) : option bool :=
  if decide (r = valid_response true) then Some true
  else if decide (r = valid_response false) then Some false else None.

Lemma response_verdict_valid b : response_verdict (valid_response b) = Some b.
Proof. by destruct b. Qed.

(** The code a request submits. *)
Definition submits (body : Value) (submitted : string) : Prop :=
  Json.get body "code" = Some (VString submitted).

Lemma submitted_code body sub :
  (let? _ := reject_unknown body ["code"] in string_param body "code") = Ok sub → submits body sub.
Proof.
  unfold string_param, submits. case_match; [|done]. destruct (Json.get body "code") as [[]|]; try done.
  by intros [= ->].
Qed.

Lemma validate_mutated nm body now s s' resp :
  validate nm body now s = (s', Ok resp) → EngineResponse.mutated resp = true.
Proof.
  unfold validate. case_match; [|done]. destruct (s !! nm) as [k0|]; [|done].
  destruct (validate_key a now k0) as [k1 r] eqn:Hv. intros [= <- ->].
  by apply (validate_key_step (λ _, True)) in Hv as (b & -> & _).
Qed.

Lemma validate_step nm name body now s s' resp k k' :
  validate nm body now s = (s', Ok resp) → s !! name = Some k → s' !! name = Some k' →
  key_step (submits body) now k (if bool_decide (nm = name) then response_verdict resp else None) k'.
Proof.
  unfold validate. case_match eqn:Hsub; [|done]. destruct (s !! nm) as [k0|] eqn:Hk0; [|done].
  destruct (validate_key a now k0) as [k1 r] eqn:Hv. intros [= <- ->] Hk.
  apply (validate_key_step (submits body)) in Hv as (b & -> & Hstep); [|by apply submitted_code].
  destruct (decide (nm = name)) as [->|Hne].
  - rewrite bool_decide_true, response_verdict_valid, lookup_insert_eq by done.
    rewrite Hk0 in Hk. by intros [= <-]; injection Hk as <-.
  - rewrite bool_decide_false, lookup_insert_ne, Hk by done. intros [= <-]. by constructor.
Qed.

Lemma handle_key_step fill op nm method body now name s s' resp k k' :
  handle_key fill op nm method body now s = (s', Ok resp) → s !! name = Some k →
  (if EngineResponse.mutated resp then s' else s) !! name = Some k' → same_credential k k' = true →
  key_step (submits body) now k (if bool_decide (op = "code") && bool_decide (nm = name) && write_method method
                  then response_verdict resp else None) k'.
Proof.
  intros Hcall Hk Hk' Hsame. unfold handle_key in Hcall.
  assert (s !! name = Some k' → key_step (submits body) now k None k') as Hidle.
  { intros Hs. rewrite Hk in Hs. injection Hs as <-. by constructor. }
  destruct (decide (op = "code")) as [->|Hop].
  - rewrite (bool_decide_true ("code" = "code")) by done. cbn [andb] in *.
    rewrite bool_decide_false in Hcall by done. cbn [andb] in Hcall.
    destruct (bool_decide (method = "GET")) eqn:Hget.
    { injection Hcall as <- _. guards. subst. change (write_method "GET") with false. rewrite andb_false_r.
      apply Hidle. by destruct (EngineResponse.mutated resp). }
    destruct (write_method method) eqn:Hw; [|done]. rewrite andb_true_r.
    rewrite (validate_mutated _ _ _ _ _ _ Hcall) in Hk'. exact (validate_step _ _ _ _ _ _ _ _ _ Hcall Hk Hk').
  - rewrite (bool_decide_false (op = "code")) in * by done. cbn [andb] in *.
    destruct (EngineResponse.mutated resp); [|by apply Hidle].
    case_match; [by eapply write_step|]. case_match; simplify_eq.
    { apply Hidle. by apply lookup_delete_Some in Hk' as [_ ?]. }
    case_match; simplify_eq. by apply Hidle.
Qed.

(** Every committed request that keeps the credential is a step of the key. *)
Lemma exec_step name o s k k' :
  s !! name = Some k → totp_exec o s !! name = Some k' → same_credential k k' = true →
  key_step (submits (rq_body o)) (rq_now o) k (verdict name o s) k'.
Proof.
  intros Hk. unfold totp_exec, verdict. destruct (totp_call o s) as [s' r] eqn:Hcall. simpl.
  assert (∀ v, v = None → s !! name = Some k' →
    key_step (submits (rq_body o)) (rq_now o) k v k') as Hidle.
  { intros v -> Hk'. rewrite Hk in Hk'. injection Hk' as <-. by constructor. }
  destruct r as [resp|e]; [|intros; apply Hidle; [by case_match|done]].
  fold (response_verdict resp). unfold totp_call, handle in Hcall. case_match eqn:Hkeys.
  { injection Hcall as <- Hr. intros Hk' _. apply Hidle; [|by case_match].
    rewrite bool_decide_false; [done|]. intros Hp. rewrite Hp in Hkeys.
    apply orb_true_iff in Hkeys as [E|E]; by apply bool_decide_eq_true in E. }
  destruct (split_once "/" (rq_path o)) as [[op nm]|] eqn:Hsplit; [|done]. cbn [ok_or snd] in Hcall.
  destruct (valid_path nm); [|done]. destruct (negb (lacks "/" nm)); [done|].
  rewrite (code_path_spec _ _ _ name Hsplit). intros. by eapply handle_key_step.
Qed.

(** * Sequences of requests *)

(** No request of [ops] removes the key [name] or replaces its credential. *)
Fixpoint keeps (name : string) (ops : list TotpReq) (s : Totp) : bool :=
  match ops with
  | [] => true
  | o :: ops =>
      match s !! name, totp_exec o s !! name with
      | Some k, Some k' => same_credential k k'
      | _, _ => false
      end && keeps name ops (totp_exec o s)
  end.

(** The verdicts given on codes submitted for [name], in order. *)
Fixpoint verdicts (name : string) (ops : list TotpReq) (s : Totp) : list bool :=
  match ops with
  | [] => []
  | o :: ops => option_list (verdict name o s) ++ verdicts name ops (totp_exec o s)
  end.

Lemma keeps_cons name o ops s :
  keeps name (o :: ops) s = true →
  ∃ k k', s !! name = Some k ∧ totp_exec o s !! name = Some k' ∧ same_credential k k' = true ∧
    key_step (submits (rq_body o)) (rq_now o) k (verdict name o s) k' ∧
    keeps name ops (totp_exec o s) = true.
Proof.
  cbn [keeps]. intros [Hk Hrest]%andb_true_iff.
  destruct (s !! name) as [k|] eqn:E1; [|done]. destruct (totp_exec o s !! name) as [k'|] eqn:E2; [|done].
  exists k, k'. split_and!; try done. by apply exec_step.
Qed.

Lemma keeps_app name ops1 ops2 s :
  keeps name (ops1 ++ ops2) s = keeps name ops1 s && keeps name ops2 (run totp_exec ops1 s).
Proof.
  revert s. induction ops1 as [|o ops1 IH]; intros s; cbn [keeps app]; [done|].
  by rewrite IH, andb_assoc, run_cons.
Qed.

(** The last accepted counter never decreases. *)
Definition accepted_upto (c : N) (k : Key) : Prop :=
  ∃ c', Key.last_accepted_counter k = Some c' ∧ (c ≤ c')%N.

Lemma key_step_monotone P now k v k' c :
  key_step P now k v k' → accepted_upto c k → accepted_upto c k'.
Proof.
  intros Hstep (a & Ha & Hle). destruct Hstep as [k' Hlast _ _|e -> _|e sub d -> _ _ (_ & Hfresh & _)].
  - exists a. by rewrite Hlast.
  - exists a. by rewrite enter_window_protection.
  - exists d. split; [done|]. unfold fresh in Hfresh. rewrite Ha in Hfresh. lia.
Qed.

Lemma run_accepted name ops s c :
  keeps name ops s = true → (∃ k, s !! name = Some k ∧ accepted_upto c k) →
  ∃ k, run totp_exec ops s !! name = Some k ∧ accepted_upto c k.
Proof.
  revert s. induction ops as [|o ops IH]; intros s Hkeeps Hs; [done|].
  apply keeps_cons in Hkeeps as (k & k' & Hk & Hk' & _ & Hstep & Hrest).
  rewrite run_cons. apply IH; [done|]. destruct Hs as (k0 & Hk0 & Hacc).
  rewrite Hk in Hk0. injection Hk0 as <-. eauto using key_step_monotone.
Qed.

(** C36: A one-time code is accepted once: after a request for [name] was
    answered [valid], and as long as the key's credential stays in place (it may
    be re-imported), any later request answered [valid] used a strictly later
    counter of the then current window, whose code is the one submitted (its
    HMAC agrees with it). *)
Theorem totp_no_replay (name : string) (o1 o2 : TotpReq) (ops : list TotpReq) (s : Totp) :
  let s1 := totp_exec o1 s in
  let s2 := run totp_exec ops s1 in
  keeps name (o1 :: ops ++ [o2]) s = true →
  verdict name o1 s = Some true → verdict name o2 s2 = Some true →
  ∃ k1 k2 k3 c1 c3 submitted,
    s1 !! name = Some k1 ∧ Key.last_accepted_counter k1 = Some c1 ∧
    s2 !! name = Some k2 ∧
    totp_exec o2 s2 !! name = Some k3 ∧ Key.last_accepted_counter k3 = Some c3 ∧
    (c1 < c3)%N ∧ submits (rq_body o2) submitted ∧ hit k2 (rq_now o2) submitted c3.
Proof.
  intros s1 s2 Hkeeps Hv1 Hv2.
  apply keeps_cons in Hkeeps as (k & k1 & Hk & Hk1 & _ & Hstep1 & Hrest). rewrite Hv1 in Hstep1.
  rewrite keeps_app in Hrest. apply andb_true_iff in Hrest as [Hops Hlast].
  assert (∃ c1, Key.last_accepted_counter k1 = Some c1) as [c1 Hc1] by (inversion Hstep1; subst; eauto).
  destruct (run_accepted name ops s1 c1 Hops) as (k2 & Hk2 & a & Ha & Hle).
  { exists k1. split; [done|]. exists c1. split; [done|lia]. }
  apply keeps_cons in Hlast as (k2' & k3 & Hk2' & Hk3 & _ & Hstep3 & _).
  pose proof (eq_trans (eq_sym Hk2) Hk2') as E. injection E as <-.
  change (verdict name o2 _) with (verdict name o2 s2) in Hstep3. rewrite Hv2 in Hstep3.
  inversion Hstep3 as [| |e sub c3 He Hf Hsub Hhit]; subst.
  eexists k1, k2, _, c1, c3, sub. split_and!; [done|done|done|exact Hk3|done| |done|done].
  destruct Hhit as (_ & Hfresh & _). unfold fresh in Hfresh. rewrite Ha in Hfresh. lia.
Qed.

(** * Guessing *)
Section guessing.
Context (w : N).
Open Scope N_scope.

(** Failures that count in period [w], and the counters of its window that are
    still open. *)
Definition failures_in (k : Key) : N := if Key.failed_window k <? w then 0 else Key.failures k.
Definition open_counters (k : Key) : N :=
  match Key.last_accepted_counter k with
  | None => 3
  | Some c => N.min 3 (w + 1 - c)
  end.

Lemma window_bounds c skew :
  c ∈ window w skew → w - skew <= c <= w + skew.
Proof.
  unfold window, saturating_add. intros (i & -> & Hi%elem_of_seq)%list_elem_of_fmap. lia.
Qed.

(** What a step in period [w] does to both. *)
Lemma key_step_budget P now k v k' :
  key_ok k → current k now = w → key_step P now k v k' →
  match v with
  | None => failures_in k' = failures_in k ∧ open_counters k' = open_counters k
  | Some false => failures_in k < 10 ∧ failures_in k' = failures_in k + 1 ∧ open_counters k' = open_counters k
  | Some true => failures_in k' = 0 ∧ open_counters k' < open_counters k
  end.
Proof.
  intros Hok Hw Hstep. destruct Hstep as [k' E1 E2 E3|e -> Hf|e sub c -> Hf _ (Hin & Hfresh & _)].
  - unfold failures_in, open_counters. by rewrite E1, E2, E3.
  - revert Hf. rewrite Hw, enter_window_protection. unfold failures_in, open_counters. simpl.
    destruct (N.ltb_spec (Key.failed_window k) w); destruct (N.ltb_spec (N.max (Key.failed_window k) w) w);
      intros Hf; split_and!; (done || lia).
  - rewrite Hw, enter_window_protection. unfold failures_in, open_counters. simpl.
    rewrite Hw in Hin. apply window_bounds in Hin. pose proof (ok_skew k Hok). unfold fresh in Hfresh.
    split; [by destruct (_ <? w)|]. destruct (Key.last_accepted_counter k); lia.
Qed.

Lemma failures_in_le k : key_ok k → failures_in k <= 10.
Proof. intros Hk. unfold failures_in. pose proof (ok_failures k Hk). case_match; lia. Qed.

Definition count (b : bool) (l : list bool) : N := N.of_nat (length (filter (λ x, x = b) l)).

Lemma count_cons b x l : count b (x :: l) = (if bool_decide (x = b) then 1 else 0) + count b l.
Proof. unfold count. rewrite filter_cons. case_decide; case_bool_decide; simpl; (done || lia). Qed.

Lemma guesses_bounded name ops s k :
  s !! name = Some k → totp_inv s → keeps name ops s = true →
  Forall (λ o, rq_now o / Key.period k = w) ops →
  let v := verdicts name ops s in
  count true v <= open_counters k ∧ failures_in k + count false v <= 10 + 10 * count true v.
Proof.
  revert s k. induction ops as [|o ops IH]; intros s k Hk Hinv Hkeeps Hops; cbn [verdicts].
  all: pose proof (failures_in_le k (Hinv _ _ Hk)).
  { unfold count. simpl. lia. }
  apply keeps_cons in Hkeeps as (k0 & k' & Hk0 & Hk' & Hsame & Hstep & Hrest).
  rewrite Hk in Hk0. injection Hk0 as <-. apply Forall_cons in Hops as [Hw Hops].
  apply (key_step_budget _ _ _ _ _ (Hinv _ _ Hk) Hw) in Hstep.
  assert (Key.period k' = Key.period k) as Hperiod.
  { unfold same_credential in Hsame. by guards. }
  destruct (IH (totp_exec o s) k' Hk' (totp_exec_inv _ _ Hinv) Hrest) as [IHt IHf]; [by rewrite Hperiod|].
  destruct (verdict name o s) as [[]|]; simpl; rewrite ?count_cons; simpl; lia.
Qed.

(** C37: Guessing is bounded: within one period at most 43 submitted codes
    get a verdict for a key whose credential stays in place (ten wrong ones, and
    ten more for each of the at most three counters of the window accepted);
    every further submission is refused without one. *)
Theorem totp_guess_limit (name : string) (ops : list TotpReq) (s : Totp) (k : Key) :
  s !! name = Some k → totp_inv s → keeps name ops s = true →
  Forall (λ o, rq_now o / Key.period k = w) ops →
  count true (verdicts name ops s) <= 3 ∧
  count false (verdicts name ops s) <= 10 + 10 * count true (verdicts name ops s).
Proof.
  intros Hk Hinv Hkeeps Hops. destruct (guesses_bounded name ops s k Hk Hinv Hkeeps Hops) as [Ht Hf].
  split; [|lia]. unfold open_counters in Ht. case_match; lia.
Qed.
End guessing.

(** * Generated codes *)
Section codes.
Context `{!HmacLaws}.

Lemma truncate_spec tag :
  20 ≤ length tag →
  ∃ b o b0 b1 b2 b3, last tag = Some b ∧ o = N.to_nat (U8.to_N b mod 16) ∧
    tag !! o = Some b0 ∧ tag !! (o + 1) = Some b1 ∧ tag !! (o + 2) = Some b2 ∧ tag !! (o + 3) = Some b3 ∧
    truncate tag = Some ((U8.to_N b0 mod 128) * 2 ^ 24 + U8.to_N b1 * 2 ^ 16 + U8.to_N b2 * 2 ^ 8 + U8.to_N b3)%N.
Proof.
  intros Hlen. destruct (last tag) as [b|] eqn:Hb; [|apply last_None in Hb; subst; simpl in Hlen; lia].
  set (o := N.to_nat (U8.to_N b mod 16)).
  assert (o < 16) as Ho by (pose proof (N.mod_lt (U8.to_N b) 16); lia).
  destruct (lookup_lt_is_Some_2 tag o) as [b0 E0]; [lia|].
  destruct (lookup_lt_is_Some_2 tag (o + 1)) as [b1 E1]; [lia|].
  destruct (lookup_lt_is_Some_2 tag (o + 2)) as [b2 E2]; [lia|].
  destruct (lookup_lt_is_Some_2 tag (o + 3)) as [b3 E3]; [lia|].
  exists b, o, b0, b1, b2, b3. split_and!; try done.
  unfold truncate. rewrite Hb. change 15%N with (N.ones 4). rewrite N.land_ones. change (2 ^ 4)%N with 16%N.
  fold o. rewrite E0, E1, E2, E3. f_equal. change 127%N with (N.ones 7). rewrite N.land_ones. change (2 ^ 7)%N with 128%N.
  pose proof (byte_lt b1). pose proof (byte_lt b2). pose proof (byte_lt b3).
  pose proof (N.mod_lt (U8.to_N b0) 128 ltac:(lia)). rewrite !shl32_small by lia.
  rewrite (lor_low _ (U8.to_N b1 * 2 ^ 16) 24) by lia.
  replace ((U8.to_N b0 mod 128) * 2 ^ 24 + U8.to_N b1 * 2 ^ 16)%N
    with (((U8.to_N b0 mod 128) * 2 ^ 8 + U8.to_N b1) * 2 ^ 16)%N by lia.
  rewrite (lor_low _ (U8.to_N b2 * 2 ^ 8) 16) by lia.
  replace (((U8.to_N b0 mod 128) * 2 ^ 8 + U8.to_N b1) * 2 ^ 16 + U8.to_N b2 * 2 ^ 8)%N
    with ((((U8.to_N b0 mod 128) * 2 ^ 8 + U8.to_N b1) * 2 ^ 8 + U8.to_N b2) * 2 ^ 8)%N by lia.
  rewrite (lor_low _ (U8.to_N b3) 8) by done. lia.
Qed.

(** The number RFC 4226 truncates a tag to. *)
Definition truncated_value (tag : list u8) (v : N) : Prop :=
  ∃ b o b0 b1 b2 b3, last tag = Some b ∧ o = N.to_nat (U8.to_N b mod 16) ∧
    tag !! o = Some b0 ∧ tag !! (o + 1) = Some b1 ∧ tag !! (o + 2) = Some b2 ∧ tag !! (o + 3) = Some b3 ∧
    v = ((U8.to_N b0 mod 128) * 2 ^ 24 + U8.to_N b1 * 2 ^ 16 + U8.to_N b2 * 2 ^ 8 + U8.to_N b3)%N.

Lemma code_spec k c :
  key_ok k →
  ∃ a t v, hmac_algorithm (Key.algorithm k) = Ok a ∧ code k c = Ok t ∧
    truncated_value (hmac_sign a (Key.secret k) (to_be_bytes c)) v ∧
    String.length t = N.to_nat (Key.digits k) ∧ str_all is_ascii_digit t ∧
    read_digits 0 t = (v mod 10 ^ Key.digits k)%N.
Proof.
  intros Hk. pose proof (ok_algorithm k Hk) as Ha.
  destruct (hmac_algorithm (Key.algorithm k)) as [a|] eqn:Halg; [|done].
  destruct (truncate_spec (hmac_sign a (Key.secret k) (to_be_bytes c)))
    as (b & o & b0 & b1 & b2 & b3 & H1 & H2 & H3 & H4 & H5 & H6 & Htr).
  { rewrite hmac_length. destruct a; simpl; lia. }
  match type of Htr with _ = Some ?x => set (v := x) in Htr end.
  eexists a, _, v. unfold code. rewrite Halg, Htr. split; [done|]. split; [done|].
  split; [by exists b, o, b0, b1, b2, b3|]. change (default 0%N (Some v)) with v.
  destruct (padded_spec (N.to_nat (Key.digits k)) (v mod 10 ^ Key.digits k)) as (-> & Hall & ->); [| |done].
  - destruct (ok_digits k Hk) as [-> | ->]; simpl; lia.
  - rewrite N2Nat.id. by apply N.mod_lt, N.pow_nonzero.
Qed.

(** Every key the engine holds can generate its codes: in any reachable
    state and for any counter, [code] returns exactly the configured number of
    decimal digits, whose value is the RFC 4226 truncation of the HMAC of the
    counter, modulo that power of ten; no index of the tag is out of range. *)
Theorem totp_code_rfc (ops : list TotpReq) (name : string) (k : Key) (c : N) :
  run totp_exec ops ∅ !! name = Some k →
  ∃ a t v, hmac_algorithm (Key.algorithm k) = Ok a ∧ code k c = Ok t ∧
    truncated_value (hmac_sign a (Key.secret k) (to_be_bytes c)) v ∧
    String.length t = N.to_nat (Key.digits k) ∧ str_all is_ascii_digit t ∧
    read_digits 0 t = (v mod 10 ^ Key.digits k)%N.
Proof.
  intros Hk. apply code_spec. revert name k Hk.
  exact (run_invariant totp_exec totp_inv totp_exec_inv ops ∅ (map_Forall_empty _)).
Qed.

Lemma match_loop_total k sub counters m :
  key_ok k → ∃ r, match_loop k sub counters m = Ok r ∧ (m ≠ None → r ≠ None).
Proof.
  intros Hk. revert m. induction counters as [|d ds IH]; intros m; cbn [match_loop]; [by exists m|].
  destruct (code_spec k d Hk) as (a & t & v & _ & -> & _).
  match goal with |- context [match_loop k sub ds ?m'] => destruct (IH m') as (r & -> & Hr) end.
  exists r. split; [done|]. intros Hm. apply Hr. by case_match.
Qed.

(** A fresh counter whose code is submitted is not missed. *)
Lemma match_loop_complete k counters m c t :
  key_ok k → c ∈ counters → fresh k c → code k c = Ok t →
  ∃ r, match_loop k t counters m = Ok (Some r).
Proof.
  intros Hk Hin Hfresh Ht. revert m. induction Hin as [c ds|c d ds Hin IH]; intros m; cbn [match_loop].
  - rewrite Ht. unfold matches. rewrite bool_decide_true by done.
    replace (match Key.last_accepted_counter k with None => true | Some a => (a <? c)%N end) with true.
    2:{ unfold fresh in Hfresh. destruct (Key.last_accepted_counter k); [|done]. symmetry. by apply N.ltb_lt. }
    simpl. destruct (match_loop_total k t ds (Some c) Hk) as ([r|] & -> & Hr); [by exists r|].
    by destruct Hr.
  - destruct (code_spec k d Hk) as (a & t' & v & _ & -> & _). by apply IH.
Qed.

Lemma window_current w skew : (w ≤ U64_MAX)%N → w ∈ window w skew.
Proof.
  intros Hw. unfold window, saturating_add. apply list_elem_of_fmap.
  exists (N.to_nat (w - (w - skew))). rewrite elem_of_seq. lia.
Qed.

(** A genuine code is accepted: submitting the code of the current counter
    for a stored key, when that counter is later than the last accepted one and
    the failure limit is not reached, is answered [valid] and commits a last
    accepted counter. *)
Theorem totp_accepts_current (name : string) (s : Totp) (k : Key) (fill : N → option (list u8)) (now : N) (t : string) :
  totp_inv s → s !! name = Some k → valid_path name = Ok tt → lacks "/" name = true → (now ≤ U64_MAX)%N →
  fresh k (current k now) → (Key.failures (enter_window k (current k now)) < 10)%N →
  code k (current k now) = Ok t →
  let o := totp_req fill "POST" ("code/" +:+ name) (Json.object [("code", VString t)]) now in
  verdict name o s = Some true ∧
  ∃ k', totp_exec o s !! name = Some k' ∧ is_Some (Key.last_accepted_counter k').
Proof.
  intros Hinv Hk Hvalid Hlacks Hnow Hfresh Hfail Ht o. pose proof (Hinv _ _ Hk) as Hok.
  assert (∃ k', validate name (rq_body o) now s = (<[name := k']> s, Ok (valid_response true)) ∧
            is_Some (Key.last_accepted_counter k')) as (k' & Hval & Hlast).
  { unfold validate. change (let? _ := _ in _) with (@Ok string EngineError t). rewrite Hk. unfold validate_key.
    destruct (code_spec k (current k now) Hok) as (a & t' & v & _ & Ht' & _ & Hlen & Hdig & _).
    rewrite Ht in Ht'. injection Ht' as <-. apply Is_true_true in Hdig. rewrite Hdig, Hlen, Nat.eqb_refl. simpl.
    fold (current k now). destruct (N.leb_spec 10 (Key.failures (enter_window k (current k now)))); [lia|].
    destruct (match_loop_complete (enter_window k (current k now))
      (window (current k now) (Key.skew (enter_window k (current k now)))) None (current k now) t)
      as [r ->].
    - by apply key_ok_enter.
    - apply window_current. unfold current. etrans; [apply N.Div0.div_le_upper_bound with (q := now)|exact Hnow].
      pose proof (ok_period k Hok). nia.
    - by rewrite enter_window_protection.
    - by rewrite enter_window_protection.
    - eexists. split; [done|]. by eexists. }
  assert (totp_call o s = (<[name := k']> s, Ok (valid_response true))) as Hcall.
  { unfold totp_call, handle. cbn [rq_path o]. rewrite bool_decide_false, bool_decide_false by done. simpl orb.
    change ("code/" +:+ name) with ("code" +:+ String "/" name). rewrite split_once_app by done.
    cbn [ok_or snd]. rewrite Hvalid, Hlacks. exact Hval. }
  unfold verdict, totp_exec. rewrite Hcall. cbn [rq_path o]. rewrite bool_decide_true by done.
  split; [done|]. exists k'. split; [exact (lookup_insert_eq s name k')|done].
Qed.
End codes.
End spec.

(** * Concrete instances *)
Module TotpDemo.
(** A keyed function with the tag lengths of HMAC. *)
#[export] Instance toy_hmac : Hmac := λ a key message,
  take (tag_length a) (rev message ++ key ++ repeat x00 64).
#[export] Instance toy_hmac_laws : HmacLaws.
Proof.
  intros a key message. unfold hmac_sign, toy_hmac. rewrite length_take, !length_app, repeat_length.
  destruct a; cbn [tag_length]; lia.
Qed.

Definition no_entropy : N → option (list u8) := λ _, None.
Definition import : TotpReq :=
  totp_req no_entropy "POST" "keys/app" (Json.object [("key", VString "GEZDGNBVGY3TQOJQ")]) 0.
Definition state : Totp := run totp_exec [import] ∅.
Definition key : Key := default (Key.mk [] "" "" "" 0 0 0 None 0 0) (state !! "app").
Definition code_at (now : N) : string :=
  match code key (current key now) with Ok t => t | Err _ => "" end.
Definition submit (now : N) (t : string) : TotpReq :=
  totp_req no_entropy "POST" "code/app" (Json.object [("code", VString t)]) now.
End TotpDemo.
#[local] Existing Instance TotpDemo.toy_hmac.
#[local] Existing Instance TotpDemo.toy_hmac_laws.

Lemma totp_no_replay_witness :
  let o1 := TotpDemo.submit 300 (TotpDemo.code_at 300) in
  let o2 := TotpDemo.submit 330 (TotpDemo.code_at 330) in
  verdict "app" o2 (totp_exec o1 TotpDemo.state) = Some true ∧
  ∃ c1 c3 k1 k3, totp_exec o1 TotpDemo.state !! "app" = Some k1 ∧
    totp_exec o2 (totp_exec o1 TotpDemo.state) !! "app" = Some k3 ∧
    Key.last_accepted_counter k1 = Some c1 ∧ Key.last_accepted_counter k3 = Some c3 ∧ (c1 < c3)%N.
Proof.
  intros o1 o2.
  assert (verdict "app" o2 (totp_exec o1 TotpDemo.state) = Some true) as Hv by (vm_compute; reflexivity).
  split; [exact Hv|].
  destruct (totp_no_replay "app" o1 o2 [] TotpDemo.state) as (k1 & k2 & k3 & c1 & c3 & t & H1 & H2 & _ & H4 & H5 & H6 & _).
  - vm_compute. reflexivity.
  - vm_compute. reflexivity.
  - exact Hv.
  - exists c1, c3, k1, k3. split_and!; assumption.
Defined.

Lemma totp_guess_limit_witness :
  let ops := repeat (TotpDemo.submit 300 "000001") 20 in
  verdicts "app" ops TotpDemo.state = repeat false 10 ∧
  (count true (verdicts "app" ops TotpDemo.state) <= 3)%N.
Proof.
  intros ops. split; [vm_compute; reflexivity|].
  refine (proj1 (totp_guess_limit 10 "app" ops TotpDemo.state TotpDemo.key _ _ _ _)).
  - vm_compute. reflexivity.
  - exact (run_invariant totp_exec totp_inv totp_exec_inv [TotpDemo.import] ∅ (map_Forall_empty _)).
  - vm_compute. reflexivity.
  - apply (bool_decide_unpack _). vm_compute. exact I.
Defined.

Lemma totp_code_rfc_witness :
  ∃ t, code TotpDemo.key 10 = Ok t ∧ String.length t = 6.
Proof.
  destruct (totp_code_rfc [TotpDemo.import] "app" TotpDemo.key 10) as (a & t & v & _ & Ht & _ & Hlen & _).
  - vm_compute. reflexivity.
  - exists t. split; [exact Ht|]. rewrite Hlen. vm_compute. reflexivity.
Defined.

Lemma totp_accepts_current_witness :
  verdict "app" (TotpDemo.submit 300 (TotpDemo.code_at 300)) TotpDemo.state = Some true.
Proof.
  refine (proj1 (totp_accepts_current "app" TotpDemo.state TotpDemo.key TotpDemo.no_entropy 300
    (TotpDemo.code_at 300) _ _ _ _ _ _ _ _)).
  - exact (run_invariant totp_exec totp_inv totp_exec_inv [TotpDemo.import] ∅ (map_Forall_empty _)).
  - vm_compute. reflexivity.
  - vm_compute. reflexivity.
  - vm_compute. reflexivity.
  - vm_compute. discriminate.
  - vm_compute. exact I.
  - vm_compute. reflexivity.
  - vm_compute. reflexivity.
Defined.
