(* ===== verification/Federated.v ===== *)
(** Signed external identities and the durable replay ledger,
    [crates/heptabao-server/src/federated_auth.rs].

    Library code enters as parameters ([FederatedCrypto]): base64 decoding, the
    JSON reader, signature verification and SHA-256; HMAC is the class of the TOTP
    engine.  The ledger's file is its content; directories, permissions and the
    writer lock are not modelled.  Fixed-size arrays are byte lists. *)
From Stdlib Require Import Ascii NArith Strings.Byte.
From S2P Require Import Prelude Str Json Gf256 Bytes EngineState Totp.

Definition MAX_TOKEN_BYTES : N := 32 * 1024.
Definition MAX_JSON_BYTES : N := 12 * 1024.
Definition MAX_KEY_BYTES : N := 16 * 1024.
Definition MAX_STRING_BYTES : nat := 1024.
Definition MAX_GROUPS : nat := 512.
Definition MAX_REPLAY_ENTRIES : N := 1000000.
Definition REPLAY_MAGIC : list u8 := [x48; x42; x52; x4c; x31].
Definition REPLAY_BODY_BYTES : nat := 5 + 8 + 32 + 8 + 32.
Definition REPLAY_TAG_BYTES : nat := 32.
Definition REPLAY_FRAME_BYTES : nat := REPLAY_BODY_BYTES + REPLAY_TAG_BYTES.

(** [AuthError]. *)
Inductive FedError : Type :=
| MalformedToken | DuplicateJsonKey | InvalidJson | MissingClaim | InvalidClaim | InvalidPolicy
| InvalidKey | DuplicateKeyId | UnknownKeyId | AlgorithmDenied | SignatureInvalid | ClaimDenied
| TokenTimeInvalid | ReplayDetected | ReplayRecordInvalid | InvalidMfaProof | WriterBusy | Tampered
| CapacityExceeded | OutcomeUnknown | InvalidRoot | FedIo.
#[export] Instance FedError_eq_dec : EqDecision FedError.
Proof. solve_decision. Defined.
Notation FResult A := (Result A FedError).

Inductive JwtAlgorithm : Type := Ed25519 | Es256.
#[export] Instance JwtAlgorithm_eq_dec : EqDecision JwtAlgorithm.
Proof. solve_decision. Defined.
Definition header_name (a : JwtAlgorithm) : string :=
  match a with Ed25519 => "EdDSA" | Es256 => "ES256" end.

(** [zeros n] is [[0; n]]. *)
Definition zeros_n (n : nat) : list u8 := repeat x00 n.

(** What the JSON reader yields of a document: the members of the top-level
    object in order, and whether the object and the document ended well. *)
Class FederatedCrypto := {
  base64url_decode : string → option (list u8);
  json_members : list u8 → list (string * Value) * bool;
  signature_ok : JwtAlgorithm → list u8 → list u8 → list u8 → bool;
  sha256 : list u8 → list u8;
}.

(** * Claims *)
Definition checked_string (value : string) : FResult string :=
  if bool_decide (value = "") || (MAX_STRING_BYTES <? String.length value)
     || str_contains (ascii_of_N 0) value || has_control value
  then Err InvalidClaim else Ok value.

(** A reader removes the member it reads. *)
Notation Members := (gmap string Value).

Definition take_string (values : Members) (name : string) : FResult (string * Members) :=
  match values !! name with
  | Some (VString value) => map_ok (λ s, (s, delete name values)) (checked_string value)
  | Some _ => Err InvalidClaim
  | None => Err MissingClaim
  end.

Definition take_optional_string (values : Members) (name : string) : FResult (option string * Members) :=
  match values !! name with
  | Some (VString value) => map_ok (λ s, (Some s, delete name values)) (checked_string value)
  | Some Null | None => Ok (None, delete name values)
  | Some _ => Err InvalidClaim
  end.

Definition take_u64 (values : Members) (name : string) : FResult (N * Members) :=
  match values !! name with
  | Some (VNumber value) => map_ok (λ n, (n, delete name values)) (ok_or (Json.as_u64 (VNumber value)) InvalidClaim)
  | Some _ => Err InvalidClaim
  | None => Err MissingClaim
  end.

Definition take_optional_u64 (values : Members) (name : string) : FResult (option N * Members) :=
  match values !! name with
  | Some (VNumber value) => map_ok (λ n, (Some n, delete name values)) (ok_or (Json.as_u64 (VNumber value)) InvalidClaim)
  | Some Null | None => Ok (None, delete name values)
  | Some _ => Err InvalidClaim
  end.

(** The loop over an array of strings; [limit] is checked after every insertion. *)
Fixpoint string_items (values : list Value) (limit : option nat) (output : gset string) : FResult (gset string) :=
  match values with
  | [] => Ok output
  | VString value :: values =>
      let? value := checked_string value in
      let output := {[value]} ∪ output in
      if match limit with Some n => n <? size output | None => false end then Err InvalidClaim
      else string_items values limit output
  | _ :: _ => Err InvalidClaim
  end.

Definition take_audiences (values : Members) : FResult (gset string * Members) :=
  match values !! "aud" with
  | Some (VString value) =>
      let? value := checked_string value in Ok ({[value]}, delete "aud" values)
  | Some (VArray items) =>
      let? audiences := string_items items None ∅ in
      if bool_decide (audiences = ∅) || (64 <? size audiences) then Err InvalidClaim
      else Ok (audiences, delete "aud" values)
  | Some _ => Err InvalidClaim
  | None => Err MissingClaim
  end.

Definition take_string_set (values : Members) (name : string) : FResult (gset string * Members) :=
  match values !! name with
  | None | Some Null => Ok (∅, delete name values)
  | Some (VArray items) =>
      map_ok (λ s, (s, delete name values)) (string_items items (Some MAX_GROUPS) ∅)
  | Some _ => Err InvalidClaim
  end.

(** * Keys and policy *)
Module VerificationKey.
Record t := mk { key_id : string; algorithm : JwtAlgorithm; bytes : list u8 }.
Definition new (key_id : string) (algorithm : JwtAlgorithm) (bytes : list u8) : FResult t :=
  let? key_id := checked_string key_id in
  let valid_encoding := match algorithm with
                        | Ed25519 => length bytes =? 32
                        | Es256 => (length bytes =? 65) && bool_decide (head bytes = Some x04)
                        end in
  if negb valid_encoding || (MAX_KEY_BYTES <? N.of_nat (length bytes))%N then Err InvalidKey
  else Ok (mk key_id algorithm bytes).
End VerificationKey.
Notation VerificationKey := VerificationKey.t.

Module TrustPolicy.
Record t := mk {
  issuer : string;
  audiences : gset string;
  required_namespace : option string;
  clock_skew_seconds : N;
  maximum_token_lifetime_seconds : N;
}.
Definition new (issuer : string) (audiences : gset string) (required_namespace : option string)
    (clock_skew_seconds maximum_token_lifetime_seconds : N) : FResult t :=
  let? issuer := checked_string issuer in
  if bool_decide (audiences = ∅) || (64 <? size audiences)
     || existsb (λ a, negb (is_ok (checked_string a))) (elements audiences)
     || (300 <? clock_skew_seconds)%N
     || negb ((1 <=? maximum_token_lifetime_seconds)%N && (maximum_token_lifetime_seconds <=? 86400)%N)
  then Err InvalidPolicy
  else
    let? required_namespace := match required_namespace with
                               | Some n => map_ok Some (checked_string n)
                               | None => Ok None
                               end in
    Ok (mk issuer audiences required_namespace clock_skew_seconds maximum_token_lifetime_seconds).
End TrustPolicy.
Notation TrustPolicy := TrustPolicy.t.

(** * Verification *)
Module VerifiedPrincipal.
Record t := mk {
  issuer : string;
  subject : string;
  audiences : gset string;
  namespace : option string;
  groups : gset string;
  token_id : string;
  issued_at : N;
  expires_at : N;
}.
(** Every component followed by a zero byte. *)
Definition replay_identity (p : t) : list u8 :=
  concat ((λ value, String.list_byte_of_string value ++ [x00]) <$>
    [issuer p; subject p; default "" (namespace p); token_id p]).
Definition replay_fingerprint `{FederatedCrypto} (p : t) : list u8 := sha256 (replay_identity p).
End VerifiedPrincipal.
Notation VerifiedPrincipal := VerifiedPrincipal.t.

Module JwtVerifier.
Record t := mk { policy : TrustPolicy; keys : gmap string VerificationKey }.

Fixpoint index_keys (keys : list VerificationKey) (by_id : gmap string VerificationKey) :
  FResult (gmap string VerificationKey) :=
  match keys with
  | [] => Ok by_id
  | key :: keys =>
      if bool_decide (is_Some (by_id !! VerificationKey.key_id key)) then Err DuplicateKeyId
      else index_keys keys (<[VerificationKey.key_id key := key]> by_id)
  end.

Definition new (policy : TrustPolicy) (keys : list VerificationKey) : FResult t :=
  let? by_id := index_keys keys ∅ in
  if bool_decide (by_id = ∅) then Err InvalidKey else Ok (mk policy by_id).

Section verify.
Context `{FederatedCrypto}.

(** [UniqueVisitor::visit_map]. *)
Fixpoint visit_map (members : list (string * Value)) (complete : bool) (values : Members) : FResult Members :=
  match members with
  | [] => if complete then Ok values else Err InvalidJson
  | (key, value) :: members =>
      if bool_decide (is_Some (values !! key)) then Err DuplicateJsonKey
      else visit_map members complete (<[key := value]> values)
  end.

Definition parse_unique_object (bytes : list u8) : FResult Members :=
  let '(members, complete) := json_members bytes in visit_map members complete ∅.

Definition decode_segment (value : string) : FResult (list u8) :=
  ok_or (base64url_decode value) MalformedToken.

Definition verify_signature (key : VerificationKey) (message signature : list u8) : FResult unit :=
  if signature_ok (VerificationKey.algorithm key) (VerificationKey.bytes key) message signature
  then Ok tt else Err SignatureInvalid.

(** The three non-empty parts of a token. *)
Definition token_parts (token : string) : FResult (string * string * string) :=
  if bool_decide (token = "") || (MAX_TOKEN_BYTES <? N.of_nat (String.length token))%N
     || negb (str_all (byte_in 0 127) token)
  then Err MalformedToken
  else match split "." token with
  | [h; c; s] =>
      if bool_decide (h = "") || bool_decide (c = "") || bool_decide (s = "") then Err MalformedToken
      else Ok (h, c, s)
  | _ => Err MalformedToken
  end.

(** The header: the key that must have signed the token. *)
Definition header_key (self : t) (header : Members) : FResult VerificationKey :=
  let? ah := take_string header "alg" in
  let '(algorithm_name, header) := ah in
  let? kh := take_string header "kid" in
  let '(key_id, header) := kh in
  let? th := take_optional_string header "typ" in
  let '(typ, header) := th in
  if match typ with Some typ => negb (bool_decide (typ = "JWT")) | None => false end then Err MalformedToken
  else if negb (bool_decide (header = ∅)) then Err MalformedToken
  else
    let? key := ok_or (keys self !! key_id) UnknownKeyId in
    if negb (bool_decide (algorithm_name = header_name (VerificationKey.algorithm key))) then Err AlgorithmDenied
    else Ok key.

(** The claims and the [nbf] bound. *)
Definition read_claims (claims : Members) : FResult (VerifiedPrincipal * N) :=
  let? r := take_string claims "iss" in let '(issuer, claims) := r in
  let? r := take_string claims "sub" in let '(subject, claims) := r in
  let? r := take_audiences claims in let '(audiences, claims) := r in
  let? r := take_u64 claims "exp" in let '(expires_at, claims) := r in
  let? r := take_u64 claims "iat" in let '(issued_at, claims) := r in
  let? r := take_optional_u64 claims "nbf" in let '(not_before, claims) := r in
  let not_before := default issued_at not_before in
  let? r := take_string claims "jti" in let '(token_id, claims) := r in
  let? r := take_optional_string claims "heptabao_namespace" in let '(namespace, claims) := r in
  let? r := take_string_set claims "groups" in let '(groups, _) := r in
  Ok (VerifiedPrincipal.mk issuer subject audiences namespace groups token_id issued_at expires_at, not_before).

Definition claims_denied (policy : TrustPolicy) (p : VerifiedPrincipal) : bool :=
  negb (bool_decide (VerifiedPrincipal.issuer p = TrustPolicy.issuer policy))
  || bool_decide (VerifiedPrincipal.audiences p ∩ TrustPolicy.audiences policy = ∅)
  || match TrustPolicy.required_namespace policy with
     | Some required => negb (bool_decide (VerifiedPrincipal.namespace p = Some required))
     | None => false
     end.

Definition time_invalid (policy : TrustPolicy) (p : VerifiedPrincipal) (not_before now : N) : bool :=
  let skew := TrustPolicy.clock_skew_seconds policy in
  let issued_at := VerifiedPrincipal.issued_at p in
  let expires_at := VerifiedPrincipal.expires_at p in
  (saturating_add now skew <? not_before)%N || (saturating_add now skew <? issued_at)%N
  || (expires_at <=? now)%N || (expires_at <=? issued_at)%N || (expires_at <=? not_before)%N
  || (TrustPolicy.maximum_token_lifetime_seconds policy <? expires_at - issued_at)%N.

Definition verify (self : t) (token : string) (now : N) : FResult VerifiedPrincipal :=
  let? parts := token_parts token in
  let '(encoded_header, encoded_claims, encoded_signature) := parts in
  let? header_bytes := decode_segment encoded_header in
  let? claims_bytes := decode_segment encoded_claims in
  let? signature_bytes := decode_segment encoded_signature in
  if (MAX_JSON_BYTES <? N.of_nat (length header_bytes))%N || (MAX_JSON_BYTES <? N.of_nat (length claims_bytes))%N
  then Err MalformedToken
  else
    let? header := parse_unique_object header_bytes in
    let? key := header_key self header in
    let signing_input := encoded_header +:+ "." +:+ encoded_claims in
    let? _ := verify_signature key (String.list_byte_of_string signing_input) signature_bytes in
    let? claims := parse_unique_object claims_bytes in
    let? pn := read_claims claims in
    let '(principal, not_before) := pn in
    if claims_denied (policy self) principal then Err ClaimDenied
    else if time_invalid (policy self) principal not_before now then Err TokenTimeInvalid
    else Ok principal.
End verify.
End JwtVerifier.
Notation JwtVerifier := JwtVerifier.t.

(** * Second-factor proofs *)
Module MfaProof.
Record t := mk {
  subject : string;
  factor_id : string;
  issued_at : N;
  expires_at : N;
  nonce : list u8;            (** 16 bytes *)
  channel_binding : list u8;  (** 32 bytes *)
  tag : list u8;              (** 32 bytes *)
}.
End MfaProof.
Notation MfaProof := MfaProof.t.

Definition encode_mfa_body (subject factor_id : string) (issued_at expires_at : N)
    (nonce channel_binding : list u8) : FResult (list u8) :=
  let len (s : string) := N.of_nat (String.length s) in
  if (65535 <? len subject)%N then Err InvalidMfaProof
  else if (65535 <? len factor_id)%N then Err InvalidMfaProof
  else Ok (be_bytes 2 (len subject) ++ String.list_byte_of_string subject ++
           be_bytes 2 (len factor_id) ++ String.list_byte_of_string factor_id ++
           be_bytes 8 issued_at ++ be_bytes 8 expires_at ++ nonce ++ channel_binding).

Section mfa.
Context `{Hmac, FederatedCrypto}.

Definition mfa_sign (subject factor_id : string) (issued_at expires_at : N)
    (nonce channel_binding secret : list u8) : FResult MfaProof :=
  let? subject := checked_string subject in
  let? factor_id := checked_string factor_id in
  if bool_decide (secret = zeros_n 32) || bool_decide (nonce = zeros_n 16)
     || bool_decide (channel_binding = zeros_n 32) || (expires_at <=? issued_at)%N
     || (300 <? expires_at - issued_at)%N
  then Err InvalidMfaProof
  else
    let? body := encode_mfa_body subject factor_id issued_at expires_at nonce channel_binding in
    let tag := hmac_sign HMAC_SHA256 secret body in
    if length tag =? 32
    then Ok (MfaProof.mk subject factor_id issued_at expires_at nonce channel_binding tag)
    else Err InvalidMfaProof.

Record MfaVerifier := mk_mfa_verifier { mfa_secret : list u8; mfa_clock_skew : N }.

Definition mfa_verifier_new (secret : list u8) (clock_skew_seconds : N) : FResult MfaVerifier :=
  if bool_decide (secret = zeros_n 32) || (60 <? clock_skew_seconds)%N then Err InvalidPolicy
  else Ok (mk_mfa_verifier secret clock_skew_seconds).

Definition mfa_verify (self : MfaVerifier) (proof : MfaProof) (expected_subject : string)
    (expected_channel_binding : list u8) (now : N) : FResult (list u8) :=
  let skew := mfa_clock_skew self in
  if negb (bool_decide (MfaProof.subject proof = expected_subject))
     || negb (bool_decide (MfaProof.channel_binding proof = expected_channel_binding))
     || bool_decide (MfaProof.nonce proof = zeros_n 16)
     || bool_decide (expected_channel_binding = zeros_n 32)
     || (MfaProof.expires_at proof <=? MfaProof.issued_at proof)%N
     || (300 <? MfaProof.expires_at proof - MfaProof.issued_at proof)%N
     || (saturating_add now skew <? MfaProof.issued_at proof)%N
     || (saturating_add (MfaProof.expires_at proof) skew <? now)%N
  then Err InvalidMfaProof
  else
    let? body := encode_mfa_body (MfaProof.subject proof) (MfaProof.factor_id proof) (MfaProof.issued_at proof)
                   (MfaProof.expires_at proof) (MfaProof.nonce proof) (MfaProof.channel_binding proof) in
    if bool_decide (hmac_sign HMAC_SHA256 (mfa_secret self) body = MfaProof.tag proof)
    then Ok (sha256 (body ++ MfaProof.tag proof))
    else Err InvalidMfaProof.
End mfa.

(** * The replay ledger *)
Module ReplayLedger.
Record t := mk {
  key : list u8;
  next_sequence : N;
  previous_tag : list u8;
  entries : gmap (list u8) N;
  ledger : list u8;  (** the content of the file *)
}.

Record RecoveredReplay := mk_recovered {
  valid_bytes : nat;
  last_sequence : N;
  recovered_tag : list u8;
  recovered_entries : gmap (list u8) N;
}.

Definition encode_replay_body (sequence : N) (fingerprint : list u8) (expires_at : N) (previous_tag : list u8) : list u8 :=
  REPLAY_MAGIC ++ be_bytes 8 sequence ++ fingerprint ++ be_bytes 8 expires_at ++ previous_tag.

(** What becomes of a write: everything reached the disk, or the call failed
    with that many bytes of the frame in the file. *)
Inductive WriteOutcome : Type := Synced | Failed (written : nat).

Section ledger.
Context `{Hmac}.

(** One iteration of [recover_replay] at the rest of the file: nothing at a torn
    end, otherwise the record and the tag. *)
Definition recover_frame (key rest previous_tag : list u8) (expected_sequence : N) :
  FResult (option (list u8 * N * list u8)) :=
  if length rest <? 4 then Ok None
  else
    let len := N.to_nat (of_be (slice 0 4 rest)) in
    if negb (len =? REPLAY_FRAME_BYTES) then Err Tampered
    else if length rest - 4 <? len then Ok None
    else
      let body := slice 4 REPLAY_BODY_BYTES rest in
      let tag := slice (4 + REPLAY_BODY_BYTES) REPLAY_TAG_BYTES rest in
      if negb (bool_decide (hmac_sign HMAC_SHA256 key body = tag)) then Err Tampered
      else if negb (bool_decide (slice 0 5 body = REPLAY_MAGIC)) then Err Tampered
      else
        let sequence := of_be (slice 5 8 body) in
        let fingerprint := slice 13 32 body in
        let expires_at := of_be (slice 45 8 body) in
        let recorded_previous := slice 53 32 body in
        if negb (sequence =? expected_sequence)%N || negb (bool_decide (recorded_previous = previous_tag))
           || bool_decide (fingerprint = zeros_n 32)
        then Err Tampered
        else Ok (Some (fingerprint, expires_at, tag)).

(** The [while offset < bytes.len()] loop; every frame has bytes, so the length
    of the file is fuel enough ([recover_fuel]). *)
Fixpoint recover_loop (fuel : nat) (key bytes : list u8) (offset : nat) (expected_sequence : N)
    (previous_tag : list u8) (entries : gmap (list u8) N) : FResult RecoveredReplay :=
  let stop := Ok (mk_recovered offset (expected_sequence - 1) previous_tag entries) in
  if length bytes <=? offset then stop
  else match fuel with
  | O => Err FedIo
  | S fuel =>
      let? frame := recover_frame key (drop offset bytes) previous_tag expected_sequence in
      match frame with
      | None => stop
      | Some (fingerprint, expires_at, tag) =>
          let? next := ok_or (checked_add expected_sequence 1) CapacityExceeded in
          recover_loop fuel key bytes (offset + 4 + REPLAY_FRAME_BYTES) next tag (<[fingerprint := expires_at]> entries)
      end
  end.

Definition recover_replay (key bytes : list u8) : FResult RecoveredReplay :=
  recover_loop (length bytes) key bytes 0 1 (zeros_n 32) ∅.

(** [open] on a file with this content; a torn end is cut off. *)
Definition open (key bytes : list u8) : FResult t :=
  if bool_decide (key = zeros_n 32) then Err InvalidKey
  else
    let? recovered := recover_replay key bytes in
    let? next := ok_or (checked_add (last_sequence recovered) 1) CapacityExceeded in
    Ok (mk key next (recovered_tag recovered) (recovered_entries recovered) (take (valid_bytes recovered) bytes)).

Definition frame (self : t) (fingerprint : list u8) (expires_at : N) : list u8 :=
  let body := encode_replay_body (next_sequence self) fingerprint expires_at (previous_tag self) in
  be_bytes 4 (N.of_nat REPLAY_FRAME_BYTES) ++ body ++ hmac_sign HMAC_SHA256 (key self) body.

Definition record_once (fingerprint : list u8) (expires_at now : N) (write : WriteOutcome) : M t FedError unit := λ self,
  if bool_decide (fingerprint = zeros_n 32) || (expires_at <? now)%N then (self, Err ReplayRecordInvalid)
  else
    let retained := filter (λ kv, (now ≤ kv.2)%N) (entries self) in
    let self := mk (key self) (next_sequence self) (previous_tag self) retained (ledger self) in
    if match retained !! fingerprint with Some expiry => (now <=? expiry)%N | None => false end
    then (self, Err ReplayDetected)
    else if (MAX_REPLAY_ENTRIES <=? N.of_nat (size retained))%N then (self, Err CapacityExceeded)
    else
      let tag := hmac_sign HMAC_SHA256 (key self)
                   (encode_replay_body (next_sequence self) fingerprint expires_at (previous_tag self)) in
      let bytes := frame self fingerprint expires_at in
      match write with
      | Failed written =>
          (mk (key self) (next_sequence self) (previous_tag self) retained (ledger self ++ take written bytes),
           Err OutcomeUnknown)
      | Synced =>
          let file := ledger self ++ bytes in
          match checked_add (next_sequence self) 1 with
          | None => (mk (key self) (next_sequence self) tag retained file, Err CapacityExceeded)
          | Some next => (mk (key self) next tag (<[fingerprint := expires_at]> retained) file, Ok tt)
          end
      end.

Context `{FederatedCrypto}.
Definition verify_and_record (verifier : JwtVerifier) (token : string) (now : N) (write : WriteOutcome) :
  M t FedError VerifiedPrincipal :=
  do? principal := mpure (λ _, JwtVerifier.verify verifier token now) in
  do? _ := record_once (VerifiedPrincipal.replay_fingerprint principal) (VerifiedPrincipal.expires_at principal) now write in
  mret principal.

Definition mfa_verify_and_record (verifier : MfaVerifier) (proof : MfaProof) (expected_subject : string)
    (expected_channel_binding : list u8) (now : N) (write : WriteOutcome) : M t FedError unit :=
  do? fingerprint := mpure (λ _, mfa_verify verifier proof expected_subject expected_channel_binding now) in
  record_once fingerprint (MfaProof.expires_at proof) now write.
End ledger.
End ReplayLedger.
Notation ReplayLedger := ReplayLedger.t.
