(* ===== verification/FederatedSpec.v ===== *)
(** Correctness of the external identities and the replay ledger of
    [crates/heptabao-server/src/federated_auth.rs]: what a verified token
    guarantees, that signed second-factor proofs verify and their encoding is
    unambiguous, and that the ledger survives crashes and admits a fingerprint once. *)
From Stdlib Require Import Ascii NArith Strings.Byte.
From S2P Require Import Prelude Str Json Gf256 Bytes EngineState Totp TotpSpec Federated.

(** * Second-factor proofs *)
Lemma list_byte_length s : length (String.list_byte_of_string s) = String.length s.
Proof. unfold String.list_byte_of_string. rewrite length_map. induction s; simpl; by f_equal. Qed.

Lemma list_byte_inj s s' : String.list_byte_of_string s = String.list_byte_of_string s' → s = s'.
Proof.
  intros Hs. by rewrite <- (String.string_of_list_byte_of_string s), Hs, String.string_of_list_byte_of_string.
Qed.

(** A length-prefixed string in front of the rest of a message. *)
Lemma prefixed_inj s s' (r r' : list u8) :
  (N.of_nat (String.length s) ≤ 65535)%N → (N.of_nat (String.length s') ≤ 65535)%N →
  be_bytes 2 (N.of_nat (String.length s)) ++ String.list_byte_of_string s ++ r =
  be_bytes 2 (N.of_nat (String.length s')) ++ String.list_byte_of_string s' ++ r' → s = s' ∧ r = r'.
Proof.
  intros Hs Hs' He. apply app_inj_1 in He as [Hlen He]; [|by rewrite !be_bytes_length].
  apply be_bytes_inj in Hlen; [|lia..].
  apply app_inj_1 in He as [Hb ->]; [|rewrite !list_byte_length; lia]. by apply list_byte_inj in Hb as ->.
Qed.

(** The authenticated encoding of second-factor proofs is unambiguous: two
    proofs whose encoded bodies agree agree in subject, factor, issue and expiry
    times, nonce and channel binding, so a tag computed for one proof cannot be
    presented with the fields of another. *)
Theorem mfa_body_injective (sub sub' fac fac' : string) (iss iss' ex ex' : N) (nonce nonce' cb cb' body : list u8) :
  (iss ≤ U64_MAX)%N → (iss' ≤ U64_MAX)%N → (ex ≤ U64_MAX)%N → (ex' ≤ U64_MAX)%N →
  length nonce = 16 → length nonce' = 16 →
  encode_mfa_body sub fac iss ex nonce cb = Ok body →
  encode_mfa_body sub' fac' iss' ex' nonce' cb' = Ok body →
  sub = sub' ∧ fac = fac' ∧ iss = iss' ∧ ex = ex' ∧ nonce = nonce' ∧ cb = cb'.
Proof.
  intros Hi Hi' He He' Hn Hn'. unfold encode_mfa_body, U64_MAX in *.
  assert (∀ a b : list u8, Ok (E:=FedError) a = Ok b → a = b) as Hok by congruence.
  destruct (65535 <? N.of_nat (String.length sub))%N eqn:H1; [done|].
  destruct (65535 <? N.of_nat (String.length fac))%N eqn:H2; [done|]. intros <-%Hok.
  destruct (65535 <? N.of_nat (String.length sub'))%N eqn:H3; [done|].
  destruct (65535 <? N.of_nat (String.length fac'))%N eqn:H4; [done|]. intros Hb%Hok.
  apply N.ltb_ge in H1, H2, H3, H4. symmetry in Hb.
  apply prefixed_inj in Hb as [-> Hb]; [|done..]. apply prefixed_inj in Hb as [-> Hb]; [|done..].
  apply app_inj_1 in Hb as [Hiss Hb]; [|by rewrite !be_bytes_length]. apply be_bytes_inj in Hiss as ->; [|lia..].
  apply app_inj_1 in Hb as [Hex Hb]; [|by rewrite !be_bytes_length]. apply be_bytes_inj in Hex as ->; [|lia..].
  by apply app_inj_1 in Hb as [-> ->]; [|congruence].
Qed.

Lemma mfa_body_injective_witness :
  encode_mfa_body "alice" "phone" 5 10 (repeat x01 16) [] = encode_mfa_body "alice" "phone" 5 10 (repeat x01 16) [] ∧
  "alice" = "alice".
Proof.
  split; [reflexivity|].
  destruct (encode_mfa_body "alice" "phone" 5 10 (repeat x01 16) []) as [body|] eqn:Hb; [|vm_compute in Hb; discriminate].
  refine (proj1 (mfa_body_injective "alice" "alice" "phone" "phone" 5 5 10 10 (repeat x01 16) (repeat x01 16) [] [] body
    _ _ _ _ eq_refl eq_refl Hb Hb)); done.
Defined.

Section proofs.
Context `{Hmac, FederatedCrypto}.

(** A signed proof verifies for its subject and channel during its lifetime. *)
Lemma mfa_sign_verifies sub fac iss ex nonce cb secret proof skew now :
  mfa_sign sub fac iss ex nonce cb secret = Ok proof →
  (iss ≤ saturating_add now skew)%N → (now ≤ saturating_add ex skew)%N →
  is_ok (mfa_verify (mk_mfa_verifier secret skew) proof sub cb now) = true.
Proof.
  unfold mfa_sign. destruct (checked_string sub) as [sub'|] eqn:Hs; [|done].
  destruct (checked_string fac) as [fac'|] eqn:Hf; [|done].
  assert (sub' = sub) as -> by (unfold checked_string in Hs; case_match; congruence).
  destruct (_ || _) eqn:Hg; [done|]. rewrite !orb_false_iff in Hg.
  destruct Hg as [[[[Hsec Hnon] Hcb] Hexp] Hlife].
  destruct (encode_mfa_body sub fac' iss ex nonce cb) as [body|] eqn:Hb; [|done].
  case_match; [|done]. intros [= <-] Hi Hn. unfold mfa_verify.
  cbn [MfaProof.subject MfaProof.channel_binding MfaProof.nonce MfaProof.expires_at MfaProof.issued_at
       MfaProof.factor_id MfaProof.tag mfa_clock_skew mfa_secret].
  rewrite !bool_decide_eq_true_2 by done. rewrite Hnon, Hcb, Hexp, Hlife.
  rewrite (proj2 (N.ltb_ge _ _) Hi), (proj2 (N.ltb_ge _ _) Hn). cbn [negb orb].
  rewrite Hb. by rewrite bool_decide_eq_true_2.
Qed.

(** * Verified tokens *)

(** The reader of a claim returns what the object holds. *)
Lemma take_string_spec m name x m' :
  take_string m name = Ok (x, m') → m !! name = Some (VString x) ∧ m' = delete name m.
Proof.
  unfold take_string, checked_string. intros Hx. repeat (case_match; simplify_eq/=); done.
Qed.

Lemma header_key_spec v header key :
  JwtVerifier.header_key v header = Ok key →
  ∃ kid, header !! "kid" = Some (VString kid) ∧ JwtVerifier.keys v !! kid = Some key
    ∧ header !! "alg" = Some (VString (header_name (VerificationKey.algorithm key))).
Proof.
  unfold JwtVerifier.header_key. intros Hk.
  destruct (take_string header "alg") as [[alg h1]|] eqn:Ha; [|done]. apply take_string_spec in Ha as [Ha ->].
  destruct (take_string _ "kid") as [[kid h2]|] eqn:Hd; [|done]. apply take_string_spec in Hd as [Hd ->].
  rewrite lookup_delete_ne in Hd by done.
  destruct (take_optional_string _ _) as [[typ h3]|]; [|done].
  destruct (match typ with Some _ => _ | None => false end); [done|].
  destruct (negb (bool_decide (h3 = ∅))); [done|].
  destruct (JwtVerifier.keys v !! kid) as [key'|] eqn:Hk'; [|done]. simpl in Hk.
  destruct (negb (bool_decide (alg = _))) eqn:Halg; [done|]. simplify_eq.
  apply negb_false_iff, bool_decide_eq_true in Halg as ->. eauto.
Qed.

Lemma token_parts_spec token h c sg : JwtVerifier.token_parts token = Ok (h, c, sg) → split "." token = [h; c; sg].
Proof.
  unfold JwtVerifier.token_parts. intros Hp. destruct (_ || _); [done|].
  destruct (split "." token) as [|h' [|c' [|s' []]]]; try done. destruct (_ || _); [done|]. by simplify_eq.
Qed.

Definition within_policy (policy : TrustPolicy) (p : VerifiedPrincipal) (now : N) : Prop :=
  VerifiedPrincipal.issuer p = TrustPolicy.issuer policy
  ∧ (∃ a, a ∈ VerifiedPrincipal.audiences p ∧ a ∈ TrustPolicy.audiences policy)
  ∧ (∀ ns, TrustPolicy.required_namespace policy = Some ns → VerifiedPrincipal.namespace p = Some ns)
  ∧ (VerifiedPrincipal.issued_at p ≤ now + TrustPolicy.clock_skew_seconds policy)%N
  ∧ (now < VerifiedPrincipal.expires_at p)%N
  ∧ (VerifiedPrincipal.expires_at p - VerifiedPrincipal.issued_at p ≤ TrustPolicy.maximum_token_lifetime_seconds policy)%N.

Lemma checks_within policy p nbf now :
  JwtVerifier.claims_denied policy p = false → JwtVerifier.time_invalid policy p nbf now = false →
  within_policy policy p now.
Proof.
  unfold JwtVerifier.claims_denied, JwtVerifier.time_invalid, within_policy.
  rewrite !orb_false_iff, !N.leb_gt, !N.ltb_ge, negb_false_iff, bool_decide_eq_true, bool_decide_eq_false.
  unfold saturating_add. intros [[Hi Ha] Hns] [[[[[_ Hiat] Hexp] ?] ?] Hlife].
  split; [done|]. split; [by apply set_choose_L in Ha as [a ?]; exists a; set_solver|]. split; [|lia].
  intros ns Hr. rewrite Hr in Hns. by apply negb_false_iff, bool_decide_eq_true in Hns.
Qed.

(** An accepted token was signed by a configured key under the algorithm that
    key is configured for: the header's [alg] cannot select another one.  Its issuer
    is the trusted one, one of its audiences is ours, a required namespace is the
    token's, and it is inside its time window and its maximal lifetime. *)
Theorem jwt_verify_sound (v : JwtVerifier) (token : string) (now : N) (p : VerifiedPrincipal) :
  JwtVerifier.verify v token now = Ok p →
  ∃ h c sg signature header kid key,
    split "." token = [h; c; sg] ∧ base64url_decode sg = Some signature ∧
    JwtVerifier.decode_segment h = Ok header.1 ∧ JwtVerifier.parse_unique_object header.1 = Ok header.2 ∧
    header.2 !! "kid" = Some (VString kid) ∧ JwtVerifier.keys v !! kid = Some key ∧
    header.2 !! "alg" = Some (VString (header_name (VerificationKey.algorithm key))) ∧
    signature_ok (VerificationKey.algorithm key) (VerificationKey.bytes key)
      (String.list_byte_of_string (h +:+ "." +:+ c)) signature = true ∧
    within_policy (JwtVerifier.policy v) p now.
Proof.
  unfold JwtVerifier.verify. intros Hv.
  destruct (JwtVerifier.token_parts token) as [[[h c] sg]|] eqn:Hp; [|done]. apply token_parts_spec in Hp.
  destruct (JwtVerifier.decode_segment h) as [hb|] eqn:Hh; [|done].
  destruct (JwtVerifier.decode_segment c) as [cb|]; [|done].
  unfold JwtVerifier.decode_segment at 1 in Hv. destruct (base64url_decode sg) as [signature|] eqn:Hs; [|done].
  cbn [ok_or] in Hv. destruct (_ || _); [done|].
  destruct (JwtVerifier.parse_unique_object hb) as [header|] eqn:Hhd; [|done].
  destruct (JwtVerifier.header_key v header) as [key|] eqn:Hk; [|done].
  apply header_key_spec in Hk as (kid & Hkid & Hkey & Halg).
  unfold JwtVerifier.verify_signature in Hv. destruct (signature_ok _ _ _ _) eqn:Hsig; [|done].
  destruct (JwtVerifier.parse_unique_object cb) as [claims|]; [|done].
  destruct (JwtVerifier.read_claims claims) as [[pr nbf]|]; [|done].
  destruct (JwtVerifier.claims_denied _ _) eqn:Hc; [done|]. destruct (JwtVerifier.time_invalid _ _ _ _) eqn:Ht; [done|].
  injection Hv as <-.
  exists h, c, sg, signature, (hb, header), kid, key. repeat split; try done. all: by eapply checks_within.
Qed.
End proofs.

(** A token whose three parts name their own content. *)
Module FederatedDemo.
#[export] Instance federated : FederatedCrypto := {|
  base64url_decode := λ s, Some (String.list_byte_of_string s);
  json_members := λ bytes,
    if bool_decide (bytes = String.list_byte_of_string "h")
    then ([("alg", VString "EdDSA"); ("kid", VString "k")], true)
    else ([("iss", VString "idp"); ("sub", VString "alice"); ("aud", VString "bao"); ("exp", Json.u64 100);
           ("iat", Json.u64 10); ("jti", VString "1")], true);
  signature_ok := λ _ _ _ _, true;
  sha256 := λ bytes, take 32 (bytes ++ zeros_n 32);
|}.
Definition key : VerificationKey := VerificationKey.mk "k" Ed25519 (zeros_n 32).
Definition v : JwtVerifier := JwtVerifier.mk (TrustPolicy.mk "idp" {["bao"]} None 30 3600) {["k" := key]}.
Definition principal : VerifiedPrincipal := VerifiedPrincipal.mk "idp" "alice" {["bao"]} None ∅ "1" 10 100.
End FederatedDemo.

Lemma jwt_verify_sound_witness :
  JwtVerifier.verify (H:=FederatedDemo.federated) FederatedDemo.v "h.c.s" 20 = Ok FederatedDemo.principal ∧
  ∃ h c sg, split "." "h.c.s" = [h; c; sg] ∧
    within_policy (JwtVerifier.policy FederatedDemo.v) FederatedDemo.principal 20.
Proof.
  assert (JwtVerifier.verify (H:=FederatedDemo.federated) FederatedDemo.v "h.c.s" 20 = Ok FederatedDemo.principal) as Hv
    by (vm_compute; reflexivity).
  split; [exact Hv|].
  destruct (jwt_verify_sound (H0:=FederatedDemo.federated) FederatedDemo.v "h.c.s" 20 FederatedDemo.principal Hv)
    as (h & c & sg & _ & _ & _ & _ & Hs & _ & _ & _ & _ & _ & _ & _ & Hw).
  exists h, c, sg. split; [exact Hs|exact Hw].
Defined.

(** * The file format of the ledger *)
Module LedgerSpec.
Import ReplayLedger.
Notation Rec := (list u8 * N)%type.

Definition rec_ok (r : Rec) : Prop := length r.1 = 32 ∧ r.1 ≠ zeros_n 32 ∧ (r.2 ≤ U64_MAX)%N.

Section format.
Context `{HmacLaws} (key : list u8).

Definition tag_of (seq : N) (prev : list u8) (r : Rec) : list u8 :=
  hmac_sign HMAC_SHA256 key (encode_replay_body seq r.1 r.2 prev).
Definition frame_of (seq : N) (prev : list u8) (r : Rec) : list u8 :=
  be_bytes 4 (N.of_nat REPLAY_FRAME_BYTES) ++ encode_replay_body seq r.1 r.2 prev ++ tag_of seq prev r.

(** The file holding the records [rs], and the tag of the last. *)
Fixpoint file_of (seq : N) (prev : list u8) (rs : list Rec) : list u8 :=
  match rs with [] => [] | r :: rs => frame_of seq prev r ++ file_of (seq + 1) (tag_of seq prev r) rs end.
Fixpoint last_tag (seq : N) (prev : list u8) (rs : list Rec) : list u8 :=
  match rs with [] => prev | r :: rs => last_tag (seq + 1) (tag_of seq prev r) rs end.
Definition entries_of (rs : list Rec) (m : gmap (list u8) N) : gmap (list u8) N :=
  foldl (λ m r, <[r.1 := r.2]> m) m rs.

Lemma tag_length seq prev r : length (tag_of seq prev r) = 32.
Proof. apply hmac_length. Qed.
Lemma last_tag_length seq prev rs : length prev = 32 → length (last_tag seq prev rs) = 32.
Proof. revert seq prev. induction rs; intros seq prev Hp; simpl; [done|]. auto using tag_length. Qed.

Lemma body_length seq r prev :
  length r.1 = 32 → length prev = 32 → length (encode_replay_body seq r.1 r.2 prev) = REPLAY_BODY_BYTES.
Proof. intros Hr Hp. unfold encode_replay_body. by rewrite !length_app, !be_bytes_length, Hr, Hp. Qed.
Lemma frame_length seq prev r :
  length r.1 = 32 → length prev = 32 → length (frame_of seq prev r) = 4 + REPLAY_FRAME_BYTES.
Proof.
  intros Hr Hp. unfold frame_of. by rewrite !length_app, body_length, tag_length, be_bytes_length by done.
Qed.

Lemma file_of_snoc seq prev rs r :
  file_of seq prev (rs ++ [r]) =
  file_of seq prev rs ++ frame_of (seq + N.of_nat (length rs)) (last_tag seq prev rs) r.
Proof.
  revert seq prev. induction rs as [|r0 rs IH]; intros seq prev; cbn [app file_of last_tag length].
  - by rewrite app_nil_r, N.add_0_r.
  - rewrite IH, <- app_assoc. do 3 f_equal. lia.
Qed.
Lemma last_tag_snoc seq prev rs r :
  last_tag seq prev (rs ++ [r]) = tag_of (seq + N.of_nat (length rs)) (last_tag seq prev rs) r.
Proof.
  revert seq prev. induction rs as [|r0 rs IH]; intros seq prev; cbn [app last_tag length].
  - by rewrite N.add_0_r.
  - rewrite IH. f_equal. lia.
Qed.
Lemma entries_of_snoc rs r m : entries_of (rs ++ [r]) m = <[r.1 := r.2]> (entries_of rs m).
Proof. unfold entries_of. by rewrite foldl_app. Qed.

(** ** Reading one frame *)
Lemma of_be_frame_bytes : of_be (be_bytes 4 (N.of_nat REPLAY_FRAME_BYTES)) = N.of_nat REPLAY_FRAME_BYTES.
Proof. vm_compute. reflexivity. Qed.

Lemma body_fields seq r prev :
  length r.1 = 32 → length prev = 32 →
  let body := encode_replay_body seq r.1 r.2 prev in
  slice 0 5 body = REPLAY_MAGIC ∧ slice 5 8 body = be_bytes 8 seq ∧ slice 13 32 body = r.1
  ∧ slice 45 8 body = be_bytes 8 r.2 ∧ slice 53 32 body = prev.
Proof.
  intros Hr Hp. unfold encode_replay_body. cbv zeta.
  set (M := REPLAY_MAGIC). set (S := be_bytes 8 seq). set (E := be_bytes 8 r.2).
  assert (length M = 5) by done.
  assert (length S = 8) by apply be_bytes_length. assert (length E = 8) by apply be_bytes_length.
  split; [|split; [|split; [|split]]].
  - by apply (slice_app [] M).
  - by apply (slice_app M S).
  - rewrite app_assoc. apply (slice_app (M ++ S) r.1); [rewrite length_app; lia|done].
  - replace (M ++ S ++ r.1 ++ E ++ prev) with ((M ++ S ++ r.1) ++ E ++ prev) by by rewrite <- !app_assoc.
    apply slice_app; [rewrite !length_app; lia|done].
  - replace (M ++ S ++ r.1 ++ E ++ prev) with ((M ++ S ++ r.1 ++ E) ++ prev ++ [])
      by by rewrite <- !app_assoc, app_nil_r.
    apply slice_app; [rewrite !length_app; lia|done].
Qed.

Lemma recover_frame_ok seq prev r rest :
  rec_ok r → length prev = 32 → (seq ≤ U64_MAX)%N →
  recover_frame key (frame_of seq prev r ++ rest) prev seq = Ok (Some (r.1, r.2, tag_of seq prev r)).
Proof.
  intros (Hr & Hnz & He) Hp Hseq. unfold recover_frame.
  pose proof (frame_length seq prev r Hr Hp) as Hfl.
  assert (length (frame_of seq prev r ++ rest) = 4 + REPLAY_FRAME_BYTES + length rest) as Hlen
    by (rewrite length_app; lia).
  rewrite Hlen. rewrite (proj2 (Nat.ltb_ge _ 4)) by lia.
  assert (slice 0 4 (frame_of seq prev r ++ rest) = be_bytes 4 (N.of_nat REPLAY_FRAME_BYTES)) as ->.
  { unfold frame_of. rewrite <- app_assoc. apply (slice_app []); [done|apply be_bytes_length]. }
  rewrite of_be_frame_bytes, Nat2N.id, Nat.eqb_refl. cbn [negb].
  rewrite (proj2 (Nat.ltb_ge _ REPLAY_FRAME_BYTES)) by lia.
  assert (slice 4 REPLAY_BODY_BYTES (frame_of seq prev r ++ rest) = encode_replay_body seq r.1 r.2 prev) as ->.
  { unfold frame_of. rewrite <- !app_assoc. apply slice_app; [apply be_bytes_length|by apply body_length]. }
  assert (slice (4 + REPLAY_BODY_BYTES) REPLAY_TAG_BYTES (frame_of seq prev r ++ rest) = tag_of seq prev r) as ->.
  { unfold frame_of. rewrite app_assoc, <- app_assoc.
    apply slice_app; [by rewrite length_app, be_bytes_length, body_length|apply tag_length]. }
  destruct (body_fields seq r prev Hr Hp) as (-> & -> & -> & -> & ->).
  rewrite !of_be_bytes_small by (unfold U64_MAX in *; lia). rewrite N.eqb_refl.
  rewrite !bool_decide_eq_true_2, bool_decide_eq_false_2 by done. done.
Qed.

(** A torn frame is recognised by its missing bytes. *)
Lemma recover_frame_torn seq prev r n :
  length r.1 = 32 → length prev = 32 → n < 4 + REPLAY_FRAME_BYTES →
  recover_frame key (take n (frame_of seq prev r)) prev seq = Ok None.
Proof.
  intros Hr Hp Hn. unfold recover_frame. pose proof (frame_length seq prev r Hr Hp) as Hfl.
  rewrite length_take, Hfl, Nat.min_l by lia.
  destruct (Nat.ltb_spec n 4); [done|].
  assert (slice 0 4 (take n (frame_of seq prev r)) = be_bytes 4 (N.of_nat REPLAY_FRAME_BYTES)) as ->.
  { unfold slice, frame_of. rewrite drop_0, take_take, Nat.min_l by lia. by apply take_app_length'. }
  rewrite of_be_frame_bytes, Nat2N.id, Nat.eqb_refl. cbn [negb].
  by rewrite (proj2 (Nat.ltb_lt _ REPLAY_FRAME_BYTES)) by lia.
Qed.

(** ** Reading the file *)
Lemma recover_fuel fuel pre rs seq prev entries torn r n :
  Forall rec_ok rs → length prev = 32 → length r.1 = 32 →
  (seq + N.of_nat (length rs) ≤ U64_MAX)%N →
  torn = take n (frame_of (seq + N.of_nat (length rs)) (last_tag seq prev rs) r) → n < 4 + REPLAY_FRAME_BYTES →
  length rs + length torn ≤ fuel →
  (1 ≤ seq)%N →
  recover_loop fuel key (pre ++ file_of seq prev rs ++ torn) (length pre) seq prev entries =
  Ok (mk_recovered (length pre + length (file_of seq prev rs)) (seq + N.of_nat (length rs) - 1)
        (last_tag seq prev rs) (entries_of rs entries)).
Proof.
  intros Hok. revert fuel pre seq prev entries.
  induction Hok as [|r0 rs Hr0 _ IH]; intros fuel pre seq prev entries Hprev Hr Hseq Ht Hn Hf Hs1;
    cbn [file_of length last_tag] in *.
  - rewrite app_nil_l, Nat.add_0_r, N.add_0_r in *. destruct torn as [|b torn'] eqn:Htorn.
    { rewrite app_nil_r. destruct fuel; cbn [recover_loop]; by rewrite Nat.leb_refl. }
    destruct fuel as [|fuel]; [simpl in Hf; lia|]. cbn [recover_loop].
    rewrite (proj2 (Nat.leb_gt _ _)) by (rewrite length_app; simpl; lia).
    by rewrite drop_app_length, Ht, recover_frame_torn by done.
  - destruct fuel as [|fuel]; [lia|]. cbn [recover_loop].
    assert (length (frame_of seq prev r0) = 4 + REPLAY_FRAME_BYTES) as Hfl by (apply frame_length; [apply Hr0|done]).
    rewrite (proj2 (Nat.leb_gt _ _)) by (rewrite !length_app; lia).
    rewrite drop_app_length, <- app_assoc, recover_frame_ok by (done || lia).
    unfold checked_add. destruct (N.leb_spec (seq + 1) U64_MAX); [|lia]. cbn [ok_or].
    rewrite app_assoc. replace (length pre + 4 + REPLAY_FRAME_BYTES) with (length (pre ++ frame_of seq prev r0))
      by (rewrite length_app; lia).
    rewrite IH; [|by apply tag_length|done|lia| |done|lia|lia].
    + do 2 f_equal; [rewrite !length_app; lia|lia].
    + rewrite Ht. do 2 f_equal. lia.
Qed.
End format.

(** * Runs of the ledger *)
Section runs.
Context `{HmacLaws} (key : list u8).
Implicit Types (L : ReplayLedger) (rs : list Rec).

(** The ledger is the one whose file holds exactly the records [rs]. *)
Record ledger_inv L rs : Prop := {
  li_key : ReplayLedger.key L = key;
  li_nonzero : key ≠ zeros_n 32;
  li_ok : Forall rec_ok rs;
  li_file : ledger L = file_of key 1 (zeros_n 32) rs;
  li_tag : previous_tag L = last_tag key 1 (zeros_n 32) rs;
  li_seq : next_sequence L = (1 + N.of_nat (length rs))%N;
  li_bound : (1 + N.of_nat (length rs) ≤ U64_MAX)%N;
}.

Lemma file_length rs seq prev :
  Forall rec_ok rs → length prev = 32 → length (file_of key seq prev rs) = length rs * (4 + REPLAY_FRAME_BYTES).
Proof.
  intros Hok. revert seq prev. induction Hok as [|r rs Hr _ IH]; intros seq prev Hp; [done|].
  cbn [file_of length]. rewrite length_app, frame_length, IH by (done || apply tag_length || apply Hr). lia.
Qed.

Lemma inv_frame L rs fp e :
  ledger_inv L rs → frame L fp e = frame_of key (1 + N.of_nat (length rs)) (last_tag key 1 (zeros_n 32) rs) (fp, e).
Proof. intros []. unfold frame, frame_of, tag_of. simpl. congruence. Qed.

Lemma zeros_length : length (zeros_n 32) = 32.
Proof. done. Qed.

(** Opening a file that ends in a torn frame. *)
Lemma open_file rs r n :
  Forall rec_ok rs → key ≠ zeros_n 32 → (1 + N.of_nat (length rs) ≤ U64_MAX)%N → length r.1 = 32 →
  n < 4 + REPLAY_FRAME_BYTES →
  open key (file_of key 1 (zeros_n 32) rs ++
            take n (frame_of key (1 + N.of_nat (length rs)) (last_tag key 1 (zeros_n 32) rs) r)) =
  Ok (ReplayLedger.mk key (1 + N.of_nat (length rs)) (last_tag key 1 (zeros_n 32) rs) (entries_of rs ∅)
        (file_of key 1 (zeros_n 32) rs)).
Proof.
  intros Hok Hk Hb Hr Hn. unfold open, recover_replay. rewrite bool_decide_eq_false_2 by done.
  pose proof (recover_fuel key (length (file_of key 1 (zeros_n 32) rs ++
      take n (frame_of key (1 + N.of_nat (length rs)) (last_tag key 1 (zeros_n 32) rs) r))) []
      rs 1 (zeros_n 32) ∅ _ r n Hok zeros_length Hr Hb eq_refl Hn) as Hrec.
  cbn [app length] in Hrec. rewrite Hrec; [|rewrite length_app, file_length by done; lia|lia].
  cbn [ok_or last_sequence recovered_tag recovered_entries valid_bytes].
  unfold checked_add. replace (1 + N.of_nat (length rs) - 1 + 1)%N with (1 + N.of_nat (length rs))%N by lia.
  rewrite (proj2 (N.leb_le _ _)) by done. cbn [ok_or]. rewrite Nat.add_0_l. by rewrite take_app_length.
Qed.

Lemma open_zero_key bytes : open (zeros_n 32) bytes = Err InvalidKey.
Proof. unfold open. by rewrite bool_decide_eq_true_2. Qed.

(** What [record_once] does. *)
Lemma record_once_cases fp e now w L L' res :
  record_once fp e now w L = (L', res) →
  (** refused: the file and the chain stay *)
  (ReplayLedger.key L' = ReplayLedger.key L ∧ ledger L' = ledger L ∧ previous_tag L' = previous_tag L
   ∧ next_sequence L' = next_sequence L ∧ is_ok res = false ∧ res ≠ Err OutcomeUnknown
   ∧ (entries L' = entries L ∨ entries L' = filter (λ kv, (now ≤ kv.2)%N) (entries L))) ∨
  (** written *)
  (fp ≠ zeros_n 32 ∧ (now ≤ e)%N ∧ (∀ x, entries L !! fp = Some x → (x < now)%N) ∧
   match w with
   | Failed n => res = Err OutcomeUnknown ∧ ledger L' = ledger L ++ take n (frame L fp e)
   | Synced =>
       ReplayLedger.key L' = ReplayLedger.key L ∧ ledger L' = ledger L ++ frame L fp e ∧
       (res = Err CapacityExceeded ∨ res = Ok tt ∧ next_sequence L' = (next_sequence L + 1)%N
        ∧ (next_sequence L + 1 ≤ U64_MAX)%N
        ∧ previous_tag L' = hmac_sign HMAC_SHA256 (ReplayLedger.key L)
                              (encode_replay_body (next_sequence L) fp e (previous_tag L))
        ∧ entries L' = <[fp := e]> (filter (λ kv, (now ≤ kv.2)%N) (entries L)))
   end).
Proof.
  unfold record_once. cbn [ReplayLedger.key next_sequence previous_tag ledger entries].
  destruct (bool_decide (fp = zeros_n 32) || (e <? now)%N) eqn:Hg.
  { intros [= <- <-]. left. repeat split; auto. }
  apply orb_false_iff in Hg as [Hnz%bool_decide_eq_false He%N.ltb_ge].
  set (retained := filter _ _).
  destruct (match retained !! fp with Some _ => _ | None => _ end) eqn:Hd.
  { intros [= <- <-]. left. repeat split; auto. }
  destruct (MAX_REPLAY_ENTRIES <=? _)%N; [intros [= <- <-]; left; repeat split; auto|].
  assert (∀ x, entries L !! fp = Some x → (x < now)%N) as Hold.
  { intros x Hx. destruct (N.lt_ge_cases x now); [done|exfalso].
    assert (retained !! fp = Some x) as Hr by (by apply map_lookup_filter_Some).
    rewrite Hr in Hd. by apply N.leb_gt in Hd; lia. }
  destruct w as [|n]; [|intros [= <- <-]; right; by repeat split].
  unfold checked_add. destruct (N.leb_spec (next_sequence L + 1) U64_MAX); intros [= <- <-]; right; repeat split; auto.
  right. by repeat split.
Qed.

(** A life of the ledger with the records [rs] in its file: opened on an empty
    file, used at times up to [T], and, after each failed write, not used again but
    opened anew from its file.  The code does not enforce the last: a ledger goes on
    after a failed write ([ledger_continues_after_failure]). *)
Inductive ledger_run (T : N) : ReplayLedger → list Rec → Prop :=
| run_new L : open key [] = Ok L → ledger_run T L []
| run_recorded L rs fp e now L' :
    ledger_run T L rs → (now ≤ T)%N → length fp = 32 → (e ≤ U64_MAX)%N →
    record_once fp e now Synced L = (L', Ok tt) → ledger_run T L' (rs ++ [(fp, e)])
| run_refused L rs fp e now w L' err :
    ledger_run T L rs → (now ≤ T)%N → record_once fp e now w L = (L', Err err) →
    ledger L' = ledger L → err ≠ OutcomeUnknown →
    ledger_run T L' rs
| run_crashed L rs fp e now n L1 L' :
    ledger_run T L rs → (now ≤ T)%N → length fp = 32 → (e ≤ U64_MAX)%N →
    (2 + N.of_nat (length rs) ≤ U64_MAX)%N →
    record_once fp e now (Failed n) L = (L1, Err OutcomeUnknown) → open key (ledger L1) = Ok L' →
    ledger_run T L' (if decide (length (frame L fp e) ≤ n) then rs ++ [(fp, e)] else rs).

(** The records of [rs] that are still valid at [T] are remembered. *)
Definition remembers (T : N) rs (m : gmap (list u8) N) : Prop :=
  ∀ fp e, (fp, e) ∈ rs → (T ≤ e)%N → m !! fp = Some e.

Lemma remembers_filter T rs m now :
  (now ≤ T)%N → remembers T rs m → remembers T rs (filter (λ kv, (now ≤ kv.2)%N) m).
Proof. intros Hn Hr fp e Hin Ht. apply map_lookup_filter_Some. split; [by apply Hr|]. simpl. lia. Qed.

Lemma remembers_insert T rs m m' fp e now :
  (now ≤ T)%N → (∀ x, m !! fp = Some x → (x < now)%N) → remembers T rs m → remembers T rs m' →
  remembers T (rs ++ [(fp, e)]) (<[fp := e]> m').
Proof.
  intros Hn Hold Hr Hr' fp' e' Hin Ht. apply elem_of_app in Hin as [Hin|[= -> ->]%list_elem_of_singleton].
  - rewrite lookup_insert_ne; [by apply Hr'|]. intros ->. specialize (Hold _ (Hr _ _ Hin Ht)). lia.
  - by rewrite lookup_insert_eq.
Qed.

(** A file with the records [rs] cut in the frame of another record, opened. *)
Lemma crashed_file L rs fp e n :
  ledger_inv L rs → rec_ok (fp, e) → (2 + N.of_nat (length rs) ≤ U64_MAX)%N →
  let rs' := if decide (length (frame L fp e) ≤ n) then rs ++ [(fp, e)] else rs in
  ∃ L', open key (ledger L ++ take n (frame L fp e)) = Ok L' ∧ ledger_inv L' rs' ∧ entries L' = entries_of rs' ∅.
Proof.
  intros Hi Hr Hb. rewrite (inv_frame _ _ _ _ Hi), (li_file _ _ Hi). cbv zeta.
  pose proof (li_nonzero _ _ Hi) as Hk. pose proof (li_ok _ _ Hi) as Hok.
  rewrite frame_length; [|apply Hr|by apply last_tag_length].
  destruct (decide (4 + REPLAY_FRAME_BYTES ≤ n)) as [Hn|Hn].
  - assert (Forall rec_ok (rs ++ [(fp, e)])) as Hok' by (apply Forall_app; split; [done|by apply Forall_singleton]).
    rewrite take_ge by (rewrite frame_length; [done|apply Hr|by apply last_tag_length]).
    rewrite <- file_of_snoc. eexists. split.
    + rewrite <- (app_nil_r (file_of key 1 (zeros_n 32) (rs ++ [(fp, e)]))).
      apply (open_file (rs ++ [(fp, e)]) (fp, e) 0); [done|done| |apply Hr|lia]. rewrite length_app. simpl. lia.
    + split; [|done]. split; try done. rewrite length_app. simpl. lia.
  - eexists. split; [apply open_file; [done|done|lia|apply Hr|lia]|]. split; [|done]. split; try done. lia.
Qed.

Lemma run_inv T L rs :
  ledger_run T L rs →
  ledger_inv L rs ∧ remembers T rs (entries L) ∧ remembers T rs (entries_of rs ∅).
Proof.
  induction 1 as [L Ho|L rs fp e now L' _ [Hi [Hr Hr2]] Hn Hfp He Hrec|L rs fp e now w L' er _ [Hi [Hr Hr2]] Hn Hrec Hl Her
                 |L rs fp e now n L1 L' _ [Hi [Hr Hr2]] Hn Hfp He Hb Hrec Ho].
  - assert (key ≠ zeros_n 32) as Hk by (intros ->; by rewrite open_zero_key in Ho).
    assert (open key [] = Ok (ReplayLedger.mk key 1 (zeros_n 32) ∅ [])) as Hnew
      by (apply (open_file [] (zeros_n 32, 0%N) 0); [by constructor|done|done|done|lia]).
    rewrite Hnew in Ho. injection Ho as <-.
    split; [|split; by intros ? ? ?%elem_of_nil]. by split.
  - apply record_once_cases in Hrec as [(_&_&_&_&?&_)|(Hnz & Hne & Hold & Hk & Hf & [?|(_ & Hseq & Hsb & Htag & Hent)])]; [done..|].
    assert (rec_ok (fp, e)) by done.
    split; [|split].
    + pose proof (inv_frame _ _ fp e Hi) as Hfr. destruct Hi. split; try done; rewrite ?length_app; simpl.
      * congruence.
      * by apply Forall_app; split; [|apply Forall_singleton].
      * rewrite Hf, Hfr, file_of_snoc, li_file0. done.
      * rewrite Htag, last_tag_snoc. unfold tag_of. simpl. congruence.
      * lia.
      * lia.
    + rewrite Hent. eapply remembers_insert; [done..|]. by apply remembers_filter.
    + rewrite entries_of_snoc. by eapply remembers_insert.
  - apply record_once_cases in Hrec as [(Hk & Hf & Htag & Hseq & _ & _ & Hent)|(Hnz & Hne & Hold & Hw)].
    + split; [|split; [|done]].
      * destruct Hi. split; try done; congruence.
      * destruct Hent as [-> | ->]; [done|]. by apply remembers_filter.
    + exfalso. destruct w as [|k]; [|by destruct Hw as [[= ?] _]].
      destruct Hw as (_ & Hf & _). rewrite Hl in Hf. apply (f_equal length) in Hf. rewrite length_app in Hf.
      unfold frame in Hf. rewrite length_app, be_bytes_length in Hf. lia.
  - apply record_once_cases in Hrec as [(_&_&_&_&_&?&_)|(Hnz & Hne & Hold & _ & Hf)]; [done|].
    rewrite Hf in Ho. destruct (crashed_file L rs fp e n) as (L'' & Ho' & Hi' & Hent); [done|done|done|].
    rewrite Ho in Ho'. injection Ho' as <-. split; [done|]. rewrite Hent.
    assert (remembers T (if decide (length (frame L fp e) ≤ n) then rs ++ [(fp, e)] else rs)
             (entries_of (if decide (length (frame L fp e) ≤ n) then rs ++ [(fp, e)] else rs) ∅)); [|done].
    case_decide; [|done]. rewrite entries_of_snoc. by eapply remembers_insert.
Qed.
End runs.

Section theorems.
Context `{HmacLaws}.


(** A fingerprint is admitted once.  Once a fingerprint is in the ledger's
    file, by an acknowledged record or by a write whose outcome was reported as
    unknown, every later attempt to record it before it expires is refused as a
    replay, and leaves the file as it is: over any sequence of further records, failed
    writes, crashes and restarts up to that time. *)
Theorem ledger_admits_once (key : list u8) (T : N) (L : ReplayLedger) (rs : list Rec)
    (fp : list u8) (e e' now : N) (w : WriteOutcome) :
  ledger_run key T L rs → (fp, e) ∈ rs → (T ≤ e)%N → (now ≤ T)%N → (now ≤ e')%N →
  (record_once fp e' now w L).2 = Err ReplayDetected ∧ ledger (record_once fp e' now w L).1 = ledger L.
Proof.
  intros (Hi & Hr & _)%run_inv Hin Ht Hn He. specialize (Hr fp e Hin Ht).
  assert (fp ≠ zeros_n 32) as Hnz.
  { pose proof (li_ok _ _ _ Hi) as Hok. rewrite Forall_forall in Hok. by apply Hok in Hin as (_ & ? & _). }
  unfold record_once. rewrite bool_decide_eq_false_2, (proj2 (N.ltb_ge _ _)) by done. cbn [orb].
  assert (filter (λ kv : list u8 * N, (now ≤ kv.2)%N) (entries L) !! fp = Some e) as Hf.
  { apply map_lookup_filter_Some. split; [done|]. simpl. lia. }
  rewrite Hf, (proj2 (N.leb_le _ _)) by lia. done.
Qed.
End theorems.


End LedgerSpec.

(** * A concrete ledger *)
Module LedgerDemo.
Import ReplayLedger LedgerSpec TotpDemo.
Definition key : list u8 := repeat x07 32.
Definition fp1 : list u8 := repeat x01 32.
Definition fp2 : list u8 := repeat x02 32.
Definition fp3 : list u8 := repeat x03 32.
Definition nothing : ReplayLedger := ReplayLedger.mk [] 0 [] ∅ [].
Definition opened (bytes : list u8) : ReplayLedger := match open key bytes with Ok L => L | Err _ => nothing end.
Definition L0 : ReplayLedger := opened [].
Definition L1 : ReplayLedger := (record_once fp1 100 10 Synced L0).1.
(** The write of a second record fails although all of it has reached the file. *)
Definition L2 : ReplayLedger := (record_once fp2 90 20 (Failed 121) L1).1.
Definition L3 : ReplayLedger := opened (ledger L2).

Lemma run1 : ledger_run key 30 L1 [(fp1, 100%N)].
Proof.
  refine (run_recorded key 30 L0 [] fp1 100 10 L1 _ _ eq_refl _ _); [|done|done|vm_compute; reflexivity].
  apply run_new. vm_compute. reflexivity.
Qed.

Lemma run3 : ledger_run key 30 L3 [(fp1, 100%N); (fp2, 90%N)].
Proof.
  refine (run_crashed key 30 L1 [(fp1, 100%N)] fp2 90 20 121 L2 L3 run1 _ eq_refl _ _ _ _);
    [done|done|done|vm_compute; reflexivity|vm_compute; reflexivity].
Qed.

(** After a failed write the ledger goes on: a later record is acknowledged, but
    it follows the bytes of the failed one with their sequence number, and the file
    can no longer be opened. *)
Lemma ledger_continues_after_failure :
  (record_once fp2 90 20 (Failed 10) L1).2 = Err OutcomeUnknown ∧
  (record_once fp3 90 21 Synced (record_once fp2 90 20 (Failed 10) L1).1).2 = Ok tt ∧
  open key (ledger (record_once fp3 90 21 Synced (record_once fp2 90 20 (Failed 10) L1).1).1) = Err Tampered ∧
  (record_once fp3 90 21 Synced L2).2 = Ok tt ∧
  open key (ledger (record_once fp3 90 21 Synced L2).1) = Err Tampered.
Proof. vm_compute. repeat split. Qed.
End LedgerDemo.


Lemma ledger_admits_once_witness :
  (ReplayLedger.record_once (H:=TotpDemo.toy_hmac) LedgerDemo.fp2 80 25 ReplayLedger.Synced LedgerDemo.L3).2 = Err ReplayDetected ∧
  ReplayLedger.ledger (ReplayLedger.record_once (H:=TotpDemo.toy_hmac) LedgerDemo.fp2 80 25 ReplayLedger.Synced LedgerDemo.L3).1
    = ReplayLedger.ledger LedgerDemo.L3.
Proof.
  refine (LedgerSpec.ledger_admits_once (H0:=TotpDemo.toy_hmac_laws) LedgerDemo.key 30 LedgerDemo.L3
    [(LedgerDemo.fp1, 100%N); (LedgerDemo.fp2, 90%N)] LedgerDemo.fp2 90 80 25 ReplayLedger.Synced LedgerDemo.run3 _ _ _ _);
    [|lia..]. apply elem_of_cons; right; apply elem_of_cons; left; reflexivity.
Defined.
