(* ===== verification/Acl.v ===== *)
(** The ACL dialect of the running server, [crates/heptabao-server/src/auth.rs]:
    request parameters, names and paths, path patterns, and the parser of
    policies in HCL or JSON.

    JSON text is handled by a library: decoding a quoted string, reading a document
    and printing a value are the parameters of the class [JsonText]; what the code
    does with the document that is read, refusing duplicate keys, is [strict_json]. *)
From Stdlib Require Import Ascii NArith.
From S2P Require Import Prelude Str Json Engine EngineState.

Module AuthError.
Record t := mk { status : N; message : string }.
End AuthError.
Notation AuthError := AuthError.t.
Notation AResult A := (Result A AuthError).

Module AuthResponse.
Record t := mk { status : N; body : Value; mutated : bool }.
End AuthResponse.
Notation AuthResponse := AuthResponse.t.

(** The double quote and the backslash. *)
Definition quote : ascii := ascii_of_N 34.
Definition backslash : ascii := ascii_of_N 92.

(** [str::contains(&str)]. *)
Fixpoint contains_sub (sub s : string) : bool :=
  has_prefix sub s || match s with EmptyString => false | String _ s => contains_sub sub s end.

(** [str::matches(char).count()]. *)
Fixpoint char_count (c : ascii) (s : string) : nat :=
  match s with
  | EmptyString => 0
  | String a s => (if decide (a = c) then 1 else 0) + char_count c s
  end.

(** [str::strip_suffix(char)]. *)
Definition strip_suffix_char (c : ascii) (s : string) : option string := strip_suffix (String c "") s.

Module Auth.
Definition DEFAULT_TTL : N := 3600.
Definition MAX_TTL : N := 32 * 24 * 3600.
Definition CAPABILITIES : list string :=
  ["create"; "read"; "update"; "delete"; "list"; "patch"; "sudo"; "deny"].

Definition err (status : N) (message : string) : AuthError := AuthError.mk status message.
Definition bad (message : string) : AuthError := err 400 message.
Definition denied : AuthError := err 403 "permission denied".
Definition response (data : Value) (mutated : bool) : AuthResponse :=
  AuthResponse.mk 200 (Json.object [("data", data)]) mutated.
Definition empty (mutated : bool) : AuthResponse := AuthResponse.mk 204 Null mutated.

Definition checked_expiry (now ttl : N) : AResult N := ok_or (checked_add now ttl) (bad "TTL overflows timestamp").
Definition unlimited_zero (value : N) : option N := if (value =? 0)%N then None else Some value.

(** * Names and paths *)
Definition name_byte (b : ascii) : bool :=
  is_ascii_alphanumeric b || bool_decide (b ∈ ["_"; "-"; "."]%char).

Definition valid_name (name : string) : bool :=
  negb (bool_decide (name = "")) && (String.length name <=? 128)
  && negb (bool_decide (name = ".")) && negb (bool_decide (name = "..")) && str_all name_byte name.

Definition validate_namespace (namespace : string) : AResult unit :=
  if bool_decide (namespace = "") then Ok tt
  else if (512 <? String.length namespace) || existsb (λ s, negb (valid_name s)) (split "/" namespace)
  then Err (bad "invalid namespace") else Ok tt.

(** A byte no ACL path may hold. *)
Definition path_bad_byte (b : ascii) : bool :=
  byte_in 0 32 b || byte_in 127 127 b || bool_decide (b = backslash) || bool_decide (b = "%"%char).

Definition validate_path (path : string) (pattern : bool) : AResult unit :=
  if bool_decide (path = "") || (2048 <? String.length path) || starts_with "/" path
     || contains_sub "//" path || negb (str_all (λ b, negb (path_bad_byte b)) path)
     || existsb (λ s, bool_decide (s = ".") || bool_decide (s = "..")) (split "/" path)
  then Err (bad "invalid ACL path")
  else if pattern then
    if contains_sub "{{" path || contains_sub "${" path || (1 <? char_count "*" path)
       || (str_contains "*" path && negb (ends_with "*" path))
       || existsb (λ s, str_contains "+" s && negb (bool_decide (s = "+"))) (split "/" path)
    then Err (bad "only whole-segment + and terminal * ACL wildcards are supported")
    else Ok tt
  else if str_contains "*" path || str_contains "+" path
  then Err (bad "wildcards are not permitted in request paths")
  else Ok tt.

(** * Request parameters *)
Definition string_field (body : Value) (field : string) : AResult string :=
  ok_or (match Json.get body field with Some v => Json.as_str v | None => None end)
    (bad "required string field missing or invalid").

Definition number (body : Value) (field : string) (default : N) : AResult N :=
  match Json.get body field with
  | None => Ok default
  | Some value => ok_or (Json.as_u64 value) (bad "expected nonnegative integer")
  end.

Definition boolean (body : Value) (field : string) (default : bool) : AResult bool :=
  match Json.get body field with
  | None => Ok default
  | Some value => ok_or (Json.as_bool value) (bad "expected boolean")
  end.

(** The unit at the end of a duration: the digits before it and its seconds. *)
Definition duration_unit (value : string) : option (string * N) :=
  match strip_suffix_char "s" value with
  | Some digits => Some (digits, 1%N)
  | None => match strip_suffix_char "m" value with
  | Some digits => Some (digits, 60%N)
  | None => match strip_suffix_char "h" value with
  | Some digits => Some (digits, 3600%N)
  | None => match strip_suffix_char "d" value with
  | Some digits => Some (digits, 86400%N)
  | None => None
  end end end end.

Definition duration (body : Value) (field : string) (default : N) : AResult N :=
  match Json.get body field with
  | None => Ok default
  | Some (VNumber (PosInt n)) => Ok n
  | Some (VString value) =>
      match parse_u64 value with
      | Some seconds => Ok seconds
      | None =>
          let? du := ok_or (duration_unit value) (bad "duration must be whole seconds or integer s/m/h/d") in
          ok_or (match parse_u64 du.1 with
                 | Some n => Engine.checked_mul n du.2
                 | None => None
                 end) (bad "invalid duration")
      end
  | _ => Err (bad "invalid duration")
  end.

Definition reject_unknown (body : Value) (allowed : list string) : AResult unit :=
  let? object := ok_or (Json.as_object body) (bad "request body must be an object") in
  if existsb (λ kv, negb (bool_decide (kv.1 ∈ allowed))) object
  then Err (bad "unsupported request field") else Ok tt.

(** [values.iter().map(as_str).collect::<Result<_, _>>()]. *)
Fixpoint strings_of (values : list Value) (message : string) : AResult (list string) :=
  match values with
  | [] => Ok []
  | v :: values =>
      let? s := ok_or (Json.as_str v) (bad message) in
      let? rest := strings_of values message in
      Ok (s :: rest)
  end.

Definition policies (body : Value) (field : string) (default : gset string) (add_default : bool) :
  AResult (gset string) :=
  let? result :=
    match Json.get body field with
    | None => Ok default
    | Some (VString value) =>
        Ok (list_to_set (filter (λ s, s ≠ "") (str_trim <$> split "," value)) : gset string)
    | Some (VArray values) => map_ok list_to_set (strings_of values "policies must contain strings")
    | _ => Err (bad "policies must be an array or comma-separated string")
    end in
  if existsb (λ name, negb (valid_name name)) (elements result) then Err (bad "invalid policy name")
  else Ok (if add_default && negb (bool_decide ("root" ∈ result)) then {["default"]} ∪ result else result).

Definition claim_values (body : Value) (name : string) : AResult (gset string) :=
  let? values :=
    match Json.get body name with
    | None => Ok []
    | Some (VString value) => Ok (str_trim <$> split "," value)
    | Some (VArray values) => strings_of values "claim bindings must be strings"
    | _ => Err (bad "claim bindings must be a string or array")
    end in
  if (64 <? length values)
     || existsb (λ v, bool_decide (v = "") || (1024 <? String.length v) || has_control v) values
  then Err (bad "claim bindings exceed bounds or contain invalid strings")
  else Ok (list_to_set values).

Definition route_capability (method : string) (collection : bool) : AResult string :=
  if bool_decide (method = "GET") then Ok (if collection then "list" else "read")
  else if bool_decide (method = "LIST") then Ok "list"
  else if bool_decide (method = "POST") || bool_decide (method = "PUT") then Ok "update"
  else if bool_decide (method = "DELETE") then Ok "delete"
  else Err (err 405 "method not allowed").

Definition has_field (body : Value) (field : string) : bool :=
  match Json.get body field with Some _ => true | None => false end.

Definition reject_alias_pair (body : Value) (a b : string) : AResult unit :=
  if has_field body a && has_field body b then Err (bad "conflicting aliases") else Ok tt.

Definition normalize_ttl (ttl max_ttl : N) : AResult (N * N) :=
  let ttl := if (ttl =? 0)%N then DEFAULT_TTL else ttl in
  let max_ttl := if (max_ttl =? 0)%N then MAX_TTL else max_ttl in
  if (max_ttl <? ttl)%N || (MAX_TTL <? max_ttl)%N then Err (bad "invalid token TTL limits")
  else Ok (ttl, max_ttl).

(** * Patterns *)
Fixpoint match_parts (prefix : bool) (pattern path : list string) : bool :=
  match pattern with
  | [] => true
  | segment :: pattern =>
      match path with
      | [] => false
      | actual :: path =>
          if prefix && bool_decide (pattern = []) then
            if bool_decide (segment = "+") then negb (bool_decide (actual = ""))
            else has_prefix segment actual
          else if bool_decide (segment = "+") then
            if bool_decide (actual = "") then false else match_parts prefix pattern path
          else if negb (bool_decide (segment = actual)) then false
          else match_parts prefix pattern path
      end
  end.

Definition path_matches (pattern path : string) : bool :=
  let prefix := strip_suffix_char "*" pattern in
  let pattern := default pattern prefix in
  let pattern_parts := split "/" pattern in
  let path_parts := split "/" path in
  let is_prefix := match prefix with Some _ => true | None => false end in
  if negb is_prefix && negb (length pattern_parts =? length path_parts) then false
  else if length path_parts <? length pattern_parts then false
  else match_parts is_prefix pattern_parts path_parts.

Definition default_grants (path capability : string) : bool :=
  bool_decide ((path, capability) ∈
    [("auth/token/lookup-self", "read"); ("auth/token/renew-self", "update");
     ("auth/token/revoke-self", "update")]).
End Auth.

Module Rule.
Record t := mk { path : string; capabilities : gset string }.
End Rule.
Notation Rule := Rule.t.

Module AclPolicy.
Record t := mk { source : string; rules : list Rule }.
End AclPolicy.
Notation AclPolicy := AclPolicy.t.

(** * The policy parser *)
Class JsonText := {
  json_string : string → option string;        (** [serde_json::from_str::<String>] *)
  json_document : string → option Value;       (** the document, members in the order of the text *)
  json_to_string : Value → string;             (** [serde_json::to_string] *)
}.

(** [StrictJson]: the visitor's loops over arrays and objects.  A member that
    repeats a key of its object is refused. *)
Section strict.
Context (strict : Value → option Value).
Fixpoint strict_items (items : list Value) : option (list Value) :=
  match items with
  | [] => Some []
  | value :: items =>
      match strict value with
      | Some value => cons value <$> strict_items items
      | None => None
      end
  end.
Fixpoint strict_members (members : list (string * Value)) (values : list (string * Value)) :
  option (list (string * Value)) :=
  match members with
  | [] => Some values
  | (key, value) :: members =>
      match obj_get key values with
      | Some _ => None
      | None => match strict value with
                | Some value => strict_members members (obj_insert key value values)
                | None => None
                end
      end
  end.
End strict.

Fixpoint strict_json (value : Value) : option Value :=
  match value with
  | VArray items => VArray <$> strict_items strict_json items
  | VObject members => VObject <$> strict_members strict_json members []
  | _ => Some value
  end.

Definition parse_strict_json `{JsonText} (text : string) : option Value := json_document text ≫= strict_json.

Inductive Lex : Type :=
| LWord (s : string)
| LString (s : string)
| LSymbol (c : ascii).

#[export] Instance Lex_eq_dec : EqDecision Lex.
Proof. solve_decision. Defined.

Module Hcl.
Import Auth.

(** The rest of the text from the end of the line on. *)
Fixpoint skip_line (s : string) : string :=
  match s with
  | EmptyString => ""
  | String c rest => if decide (c = ascii_of_N 10) then s else skip_line rest
  end.

(** The text after the end of a block comment. *)
Fixpoint skip_block (s : string) : option string :=
  match s with
  | String a ((String b rest) as s') =>
      if decide (a = "*"%char ∧ b = "/"%char) then Some rest else skip_block s'
  | _ => None
  end.

(** The literal up to its closing quote, and the text after it. *)
Fixpoint scan_string (escaped : bool) (s : string) : option (string * string) :=
  match s with
  | EmptyString => None
  | String c rest =>
      if bool_decide (c = quote) && negb escaped then Some (String c "", rest)
      else match scan_string (bool_decide (c = backslash) && negb escaped) rest with
           | Some (lit, rest) => Some (String c lit, rest)
           | None => None
           end
  end.

Definition word_byte (c : ascii) : bool := is_ascii_alphanumeric c || bool_decide (c = "_"%char).

Fixpoint scan_word (s : string) : string * string :=
  match s with
  | String c rest =>
      if word_byte c then let '(w, rest) := scan_word rest in (String c w, rest) else ("", s)
  | EmptyString => ("", "")
  end.

Section parser.
Context `{JsonText}.

(** The lexer's loop.  Every round reads at least one byte, so a fuel of the
    text's length is enough ([lex_fuel]). *)
Fixpoint lex_loop (fuel : nat) (s : string) : AResult (list Lex) :=
  match fuel, s with
  | _, EmptyString => Ok []
  | O, _ => Err (bad "unreachable")
  | S fuel, String c rest =>
      if is_ascii_whitespace c then lex_loop fuel rest
      else if bool_decide (c = "#"%char) || has_prefix "//" s then lex_loop fuel (skip_line s)
      else if has_prefix "/*" s then
        let? rest := ok_or (skip_block (after_prefix "/*" s)) (bad "unterminated HCL comment") in
        lex_loop fuel rest
      else if bool_decide (c ∈ ["{"; "}"; "["; "]"; "="; ","]%char) then
        map_ok (cons (LSymbol c)) (lex_loop fuel rest)
      else if bool_decide (c = quote) then
        let? lr := ok_or (scan_string false rest) (bad "unterminated HCL string") in
        let? value := ok_or (json_string (String c lr.1)) (bad "invalid HCL string escape") in
        map_ok (cons (LString value)) (lex_loop fuel lr.2)
      else if is_ascii_alphabetic c || bool_decide (c = "_"%char) then
        let '(w, rest) := scan_word s in
        map_ok (cons (LWord w)) (lex_loop fuel rest)
      else Err (bad "unsupported character in HCL policy")
  end.

Definition lex_hcl (source : string) : AResult (list Lex) := lex_loop (String.length source) source.

(** The cursor is the list of tokens still to read. *)
Definition take (tokens : list Lex) (wanted : Lex) : AResult (list Lex) :=
  match tokens with
  | t :: rest => if decide (t = wanted) then Ok rest else Err (bad "unsupported or malformed HCL policy")
  | [] => Err (bad "unsupported or malformed HCL policy")
  end.

Definition take_string (tokens : list Lex) : AResult (string * list Lex) :=
  match tokens with
  | LString value :: rest => Ok (value, rest)
  | _ => Err (bad "quoted string required in HCL policy")
  end.

(** The [loop] over the capabilities of a rule. *)
Fixpoint caps_loop (tokens : list Lex) (caps : gset string) : AResult (gset string * list Lex) :=
  match tokens with
  | LString value :: rest =>
      let caps := {[value]} ∪ caps in
      match rest with
      | LSymbol "," :: rest =>
          match rest with
          | LSymbol "]" :: _ => Ok (caps, rest)
          | _ => caps_loop rest caps
          end
      | _ => Ok (caps, rest)
      end
  | _ => Err (bad "quoted string required in HCL policy")
  end.

Definition rule (path : string) (capabilities : gset string) : AResult Rule :=
  let? _ := validate_path path true in
  if existsb (λ capability, negb (bool_decide (capability ∈ CAPABILITIES))) (elements capabilities)
  then Err (bad "unsupported ACL capability") else Ok (Rule.mk path capabilities).

(** One [path] block. *)
Definition parse_block (tokens : list Lex) (seen : gset string) : AResult (Rule * string * list Lex) :=
  let? tokens := take tokens (LWord "path") in
  let? pt := take_string tokens in
  let '(path, tokens) := pt in
  if bool_decide (path ∈ seen) then Err (bad "duplicate ACL path")
  else
    let? tokens := take tokens (LSymbol "{") in
    let? tokens := take tokens (LWord "capabilities") in
    let? tokens := take tokens (LSymbol "=") in
    let? tokens := take tokens (LSymbol "[") in
    let? ct := match tokens with
               | LSymbol "]" :: _ => Ok (∅, tokens)
               | _ => caps_loop tokens ∅
               end in
    let '(caps, tokens) := ct in
    let? tokens := take tokens (LSymbol "]") in
    let? tokens := take tokens (LSymbol "}") in
    let? r := rule path caps in
    Ok (r, path, tokens).

(** The [while cursor < tokens.len()] loop; a block reads several tokens. *)
Fixpoint parse_blocks (fuel : nat) (tokens : list Lex) (seen : gset string) : AResult (list Rule) :=
  match fuel, tokens with
  | _, [] => Ok []
  | O, _ => Err (bad "unreachable")
  | S fuel, _ =>
      let? b := parse_block tokens seen in
      let '(r, path, tokens) := b in
      map_ok (cons r) (parse_blocks fuel tokens ({[path]} ∪ seen))
  end.

(** The rules of a JSON policy, in key order. *)
Fixpoint json_rules (paths : list (string * Value)) : AResult (list Rule) :=
  match paths with
  | [] => Ok []
  | (path, config) :: paths =>
      let? _ := reject_unknown config ["capabilities"] in
      let? caps := ok_or (match Json.get config "capabilities" with
                          | Some v => Json.as_array v | None => None end)
                     (bad "capabilities array is required") in
      let? caps := strings_of caps "capability must be a string" in
      let? r := rule path (list_to_set caps) in
      map_ok (cons r) (json_rules paths)
  end.

Definition parse_json_policy (text : string) : AResult (list Rule) :=
  let? parsed := ok_or (parse_strict_json text) (bad "invalid JSON or duplicate object key") in
  let? _ := reject_unknown parsed ["path"] in
  let? paths := ok_or (match Json.get parsed "path" with
                       | Some v => Json.as_object v | None => None end)
                  (bad "policy path object is required") in
  json_rules paths.

Definition parse_hcl_policy (text : string) : AResult (list Rule) :=
  let? tokens := lex_hcl text in
  parse_blocks (length tokens) tokens ∅.

Definition parse_policy (input : Value) : AResult AclPolicy :=
  let source := match Json.as_str input with Some s => s | None => json_to_string input end in
  if (262144 <? N.of_nat (String.length source))%N then Err (bad "policy too large")
  else
    let trimmed := str_trim source in
    let? rules := if starts_with "{" trimmed then parse_json_policy trimmed else parse_hcl_policy trimmed in
    if (4096 <? N.of_nat (length rules))%N then Err (bad "too many policy rules")
    else Ok (AclPolicy.mk source rules).
End parser.
End Hcl.
