(* ===== verification/AuthState.v ===== *)
(** Authentication state of the running server, [crates/heptabao-server/src/auth.rs]:
    the records kept, authentication, authorization, issuing and revoking.

    Library code enters as parameters ([AuthCrypto]): [hash] (SHA-256 in base64),
    the password function and base64; the random values a request draws are an
    argument ([Rng]).  Erasure has no counterpart. *)
From Stdlib Require Import Ascii NArith.
From S2P Require Import Prelude Str Json Engine Gf256 EngineState Acl.
Import Auth.

(** * Records *)
Module AuthToken.
Record t := mk {
  accessor : string;
  namespace : string;
  policies : gset string;
  root : bool;
  parent : option string;
  created_at : N;
  expires_at : option N;
  max_expires_at : option N;
  period : N;
  renewable : bool;
  uses_remaining : option N;
  display_name : string;
  auth_mount : option string;
  auth_origin_known : bool;
}.

Definition set_expires (e : option N) (k : t) : t :=
  mk (accessor k) (namespace k) (policies k) (root k) (parent k) (created_at k) e (max_expires_at k)
    (period k) (renewable k) (uses_remaining k) (display_name k) (auth_mount k) (auth_origin_known k).
Definition set_uses (u : option N) (k : t) : t :=
  mk (accessor k) (namespace k) (policies k) (root k) (parent k) (created_at k) (expires_at k)
    (max_expires_at k) (period k) (renewable k) u (display_name k) (auth_mount k) (auth_origin_known k).
Definition set_mount (m : option string) (k : t) : t :=
  mk (accessor k) (namespace k) (policies k) (root k) (parent k) (created_at k) (expires_at k)
    (max_expires_at k) (period k) (renewable k) (uses_remaining k) (display_name k) m (auth_origin_known k).
End AuthToken.
Notation AuthToken := AuthToken.t.

Module Principal.
Record t := mk { digest : string; token : AuthToken }.
Definition is_root (p : t) : bool := AuthToken.root (token p).
Definition policies (p : t) : gset string := AuthToken.policies (token p).
Definition consumed_use (p : t) : bool :=
  match AuthToken.uses_remaining (token p) with Some _ => true | None => false end.
End Principal.
Notation Principal := Principal.t.

Module TotpEnrollment.
Record t := mk { secret : list u8; period_seconds : N; digits : N; last_accepted_counter : option N }.
End TotpEnrollment.
Notation TotpEnrollment := TotpEnrollment.t.

Module User.
Record t := mk {
  salt : list u8;
  verifier : list u8;
  rounds : N;
  policies : gset string;
  token_ttl : N;
  token_max_ttl : N;
  token_num_uses : N;
  mfa : option TotpEnrollment;
}.
End User.
Notation User := User.t.

Module SecretId.
Record t := mk { accessor : string; expires_at : option N; uses_remaining : option N }.
End SecretId.
Notation SecretId := SecretId.t.

Module Role.
Record t := mk {
  role_id : string;
  policies : gset string;
  token_ttl : N;
  token_max_ttl : N;
  token_num_uses : N;
  secret_id_ttl : N;
  secret_id_num_uses : N;
  secret_ids : gmap string SecretId;
}.
End Role.
Notation Role := Role.t.

Module AuthMount.
Record t := mk { kind : string; description : string }.
Definition descriptor (m : t) : Value :=
  Json.object [("type", VString (kind m)); ("description", VString (description m));
    ("local", VBool false); ("seal_wrap", VBool false); ("options", Json.object []);
    ("config", Json.object [("default_lease_ttl", Json.u64 0); ("max_lease_ttl", Json.u64 0);
                            ("force_no_cache", VBool false)])].
End AuthMount.
Notation AuthMount := AuthMount.t.

#[export] Instance AuthMount_eq_dec : EqDecision AuthMount.
Proof. solve_decision. Defined.

Definition legacy_auth_mounts : gmap string AuthMount :=
  <["token" := AuthMount.mk "token" "token based credentials"]>
  (<["userpass" := AuthMount.mk "userpass" "username and password credentials"]>
   {["approle" := AuthMount.mk "approle" "machine role credentials"]}).

Module JwtKeyRecord.
Record t := mk { algorithm : string; bytes : list u8 }.
End JwtKeyRecord.
Module JwtConfig.
Record t := mk {
  issuer : string;
  audiences : gset string;
  required_namespace : option string;
  clock_skew_seconds : N;
  maximum_token_lifetime_seconds : N;
  keys : gmap string JwtKeyRecord.t;
}.
End JwtConfig.
Notation JwtConfig := JwtConfig.t.
Module JwtRole.
Record t := mk {
  bound_groups : gset string;
  bound_subject : option string;
  bound_audiences : gset string;
  policies : gset string;
  token_ttl : N;
  token_max_ttl : N;
  token_num_uses : N;
}.
End JwtRole.
Notation JwtRole := JwtRole.t.
Module ExternalIdentity.
Record t := mk { issuer : string; subject : string; namespace : string; groups : gset string; last_seen : N }.
End ExternalIdentity.
Notation ExternalIdentity := ExternalIdentity.t.
Module JwtMountState.
Record t := mk {
  config : option JwtConfig;
  roles : gmap string JwtRole;
  identities : gmap string ExternalIdentity;
  replay : gmap string N;
  last_admission_time : N;
}.
Definition default : t := mk None ∅ ∅ ∅ 0.
End JwtMountState.
Notation JwtMountState := JwtMountState.t.

#[export] Instance JwtKeyRecord_eq_dec : EqDecision JwtKeyRecord.t.
Proof. solve_decision. Defined.
#[export] Instance JwtConfig_eq_dec : EqDecision JwtConfig.
Proof. solve_decision. Defined.
#[export] Instance JwtRole_eq_dec : EqDecision JwtRole.
Proof. solve_decision. Defined.

(** * Parameters *)
Class AuthCrypto := {
  hash : string → string;
  pbkdf2_derive : N → list u8 → string → list u8;
  pbkdf2_verify : N → list u8 → string → list u8 → bool;
  base64_decode : string → option (list u8);
  base64url_encode : list u8 → string;
}.

(** The [i]-th identifier (32 random bytes in base64) and byte string drawn by
    a request; [None] when the generator fails. *)
Record Rng := mk_rng { rng_id : nat → option string; rng_bytes : nat → nat → option (list u8) }.

Definition random_id (rng : Rng) (i : nat) (prefix : string) : AResult string :=
  ok_or ((λ s, prefix +:+ s) <$> rng_id rng i) (err 500 "secure randomness unavailable").
Definition random_bytes (rng : Rng) (i len : nat) : AResult (list u8) :=
  ok_or (rng_bytes rng i len) (err 500 "secure randomness unavailable").

(** [json!] of a set of strings. *)
Definition set_json (s : gset string) : Value := VArray (VString <$> btree_elems s).
(** [json!] of an optional integer. *)
Definition opt_json (o : option N) : Value := match o with Some n => Json.u64 n | None => Null end.

Record AuthScope := mk_scope { scope_namespace : string; scope_mount : string }.
#[export] Instance AuthScope_eq_dec : EqDecision AuthScope.
Proof. solve_decision. Defined.

Module AuthState.
Record t := mk {
  tokens : gmap string AuthToken;
  policies : gmap string (gmap string AclPolicy);
  users : gmap string (gmap string User);
  roles : gmap string (gmap string Role);
  mounted_users : gmap string (gmap string (gmap string User));
  mounted_roles : gmap string (gmap string (gmap string Role));
  auth_mounts : gmap string (gmap string AuthMount);
  jwt_mounts : gmap string (gmap string JwtMountState);
}.

Definition set_tokens (x : gmap string AuthToken) (s : t) : t :=
  mk x (policies s) (users s) (roles s) (mounted_users s) (mounted_roles s) (auth_mounts s) (jwt_mounts s).
Definition set_policies x (s : t) : t :=
  mk (tokens s) x (users s) (roles s) (mounted_users s) (mounted_roles s) (auth_mounts s) (jwt_mounts s).
Definition set_users x (s : t) : t :=
  mk (tokens s) (policies s) x (roles s) (mounted_users s) (mounted_roles s) (auth_mounts s) (jwt_mounts s).
Definition set_roles x (s : t) : t :=
  mk (tokens s) (policies s) (users s) x (mounted_users s) (mounted_roles s) (auth_mounts s) (jwt_mounts s).
Definition set_mounted_users x (s : t) : t :=
  mk (tokens s) (policies s) (users s) (roles s) x (mounted_roles s) (auth_mounts s) (jwt_mounts s).
Definition set_mounted_roles x (s : t) : t :=
  mk (tokens s) (policies s) (users s) (roles s) (mounted_users s) x (auth_mounts s) (jwt_mounts s).
Definition set_auth_mounts x (s : t) : t :=
  mk (tokens s) (policies s) (users s) (roles s) (mounted_users s) (mounted_roles s) x (jwt_mounts s).
Definition set_jwt_mounts x (s : t) : t :=
  mk (tokens s) (policies s) (users s) (roles s) (mounted_users s) (mounted_roles s) (auth_mounts s) x.

Section auth.
Context `{AuthCrypto}.

Definition bootstrap (rng : Rng) (now : N) : AResult (t * string) :=
  let? accessor := random_id rng 0 "a." in
  let token := AuthToken.mk accessor "" {["root"]} true None now None None 0 false None "root" None true in
  let? raw := random_id rng 1 "hvs." in
  Ok (mk {[hash raw := token]} ∅ ∅ ∅ ∅ ∅ ∅ ∅, raw).

(** [token.expires_at.is_some_and(|t| now >= t)]. *)
Definition expired (token : AuthToken) (now : N) : bool :=
  match AuthToken.expires_at token with Some e => (e <=? now)%N | None => false end.
Definition exhausted (token : AuthToken) : bool := bool_decide (AuthToken.uses_remaining token = Some 0%N).

(** The walk over the ancestors.  Each round adds a stored token to [seen], so
    one round more than there are tokens is enough ([ancestors_fuel]). *)
Fixpoint ancestors_ok (fuel : nat) (self : t) (now : N) (seen : gset string) (parent : option string) : bool :=
  match parent with
  | None => true
  | Some parent_id =>
      if bool_decide (parent_id ∈ seen) then false
      else match fuel with
      | O => false
      | S fuel =>
          match tokens self !! parent_id with
          | None => false
          | Some ancestor =>
              if expired ancestor now || exhausted ancestor then false
              else ancestors_ok fuel self now ({[parent_id]} ∪ seen) (AuthToken.parent ancestor)
          end
      end
  end.

Definition active_token (self : t) (id : string) (now : N) (consume_check : bool) : AResult AuthToken :=
  let? token := ok_or (tokens self !! id) denied in
  if expired token now || (consume_check && exhausted token) then Err denied
  else if ancestors_ok (S (size (tokens self))) self now {[id]} (AuthToken.parent token)
  then Ok token else Err denied.

Definition authenticate (raw : string) (now : N) : M t AuthError Principal := λ self,
  if (256 <? String.length raw) || negb (has_prefix "hvs." raw) then (self, Err denied)
  else
    let id := hash raw in
    match active_token self id now true with
    | Err e => (self, Err e)
    | Ok _ =>
        match tokens self !! id with
        | None => (self, Err denied)
        | Some token =>
            let token := match AuthToken.uses_remaining token with
                         | Some remaining => AuthToken.set_uses (Some (remaining - 1)%N) token
                         | None => token
                         end in
            (set_tokens (<[id := token]> (tokens self)) self, Ok (Principal.mk id token))
        end
    end.

Definition check_principal (self : t) (principal : Principal) (namespace : string) (now : N) :
  AResult AuthToken :=
  let? _ := validate_namespace namespace in
  let? token := active_token self (Principal.digest principal) now false in
  if negb (bool_decide (AuthToken.accessor token = AuthToken.accessor (Principal.token principal)))
     || (negb (AuthToken.root token) && negb (bool_decide (AuthToken.namespace token = namespace)))
  then Err denied else Ok token.

(** One policy's rules: [None] when a matching rule denies, otherwise whether
    the capability is granted so far. *)
Fixpoint scan_rules (rules : list Rule) (path capability : string) (granted : bool) : option bool :=
  match rules with
  | [] => Some granted
  | rule :: rules =>
      if path_matches (Rule.path rule) path then
        if bool_decide ("deny" ∈ Rule.capabilities rule) then None
        else scan_rules rules path capability
               (granted || bool_decide (capability ∈ Rule.capabilities rule))
      else scan_rules rules path capability granted
  end.

(** The loop over the token's policies. *)
Fixpoint scan_policies (entries : option (gmap string AclPolicy)) (names : list string)
    (path capability : string) (granted : bool) : option bool :=
  match names with
  | [] => Some granted
  | policy_name :: names =>
      match entries ≫= (λ entries, entries !! policy_name) with
      | Some policy =>
          match scan_rules (AclPolicy.rules policy) path capability granted with
          | None => None
          | Some granted => scan_policies entries names path capability granted
          end
      | None =>
          scan_policies entries names path capability
            (if bool_decide (policy_name = "default") && default_grants path capability
             then true else granted)
      end
  end.

Definition authorize_request (self : t) (principal : Principal) (namespace path capability : string) (now : N) :
  AResult unit :=
  let? _ := validate_path path false in
  if negb (bool_decide (capability ∈ CAPABILITIES)) || bool_decide (capability = "deny") then Err denied
  else
    let? token := check_principal self principal namespace now in
    if AuthToken.root token then Ok tt
    else match scan_policies (policies self !! namespace) (btree_elems (AuthToken.policies token))
                 path capability false with
         | Some true => Ok tt
         | _ => Err denied
         end.

Definition permission (self : t) (principal : option Principal) (namespace path cap : string) (now : N) :
  AResult Principal :=
  let? principal := ok_or principal denied in
  let? _ := authorize_request self principal namespace path cap now in
  Ok principal.

Definition prepare_issue (rng : Rng) (i : nat) (token : AuthToken) (now : N) :
  AResult (string * AuthToken * AuthResponse) :=
  let? raw := random_id rng i "hvs." in
  let result := AuthResponse.mk 200 (Json.object [("auth", Json.object [
      ("client_token", VString raw); ("accessor", VString (AuthToken.accessor token));
      ("policies", set_json (AuthToken.policies token)); ("token_policies", set_json (AuthToken.policies token));
      ("metadata", Json.object []);
      ("lease_duration", Json.u64 (match AuthToken.expires_at token with
                                   | Some expiry => (expiry - now)%N | None => 0%N end));
      ("renewable", VBool (AuthToken.renewable token)); ("token_type", VString "service");
      ("orphan", VBool (bool_decide (AuthToken.parent token = None)));
      ("num_uses", Json.u64 (default 0%N (AuthToken.uses_remaining token)))])]) true in
  Ok (hash raw, token, result).

Definition issue (rng : Rng) (i : nat) (token : AuthToken) (now : N) : M t AuthError AuthResponse := λ self,
  match prepare_issue rng i token now with
  | Err e => (self, Err e)
  | Ok (token_id, token, result) => (set_tokens (<[token_id := token]> (tokens self)) self, Ok result)
  end.

(** The tokens whose parent is in [removed]. *)
Definition child_of (removed : gset string) (token : AuthToken) : bool :=
  match AuthToken.parent token with Some p => bool_decide (p ∈ removed) | None => false end.
Definition children (self : t) (removed : gset string) : gset string :=
  dom (filter (λ kv, Is_true (child_of removed kv.2)) (tokens self)).

(** [revoke]'s loop; every round but the last adds a stored token
    ([revoke_fuel]). *)
Fixpoint revoke_loop (fuel : nat) (self : t) (removed : gset string) : gset string :=
  let removed' := removed ∪ children self removed in
  if size removed' =? size removed then removed'
  else match fuel with O => removed' | S fuel => revoke_loop fuel self removed' end.

Definition revoke (id : string) (self : t) : t :=
  let removed := revoke_loop (S (size (tokens self))) self {[id]} in
  set_tokens (filter (λ kv, kv.1 ∉ removed) (tokens self)) self.

(** * Mounts *)
Definition effective_auth_mounts (self : t) (namespace : string) : gmap string AuthMount :=
  default legacy_auth_mounts (auth_mounts self !! namespace).

Definition users_at (self : t) (scope : AuthScope) : option (gmap string User) :=
  if bool_decide (scope_mount scope = "userpass") then users self !! scope_namespace scope
  else mounted_users self !! scope_namespace scope ≫= (λ m, m !! scope_mount scope).

(** [*self.users_at_mut(scope) = f(..)]. *)
Definition update_users_at (scope : AuthScope) (f : gmap string User → gmap string User) (self : t) : t :=
  if bool_decide (scope_mount scope = "userpass") then
    set_users (<[scope_namespace scope := f (default ∅ (users self !! scope_namespace scope))]> (users self)) self
  else
    let mounts := default ∅ (mounted_users self !! scope_namespace scope) in
    set_mounted_users
      (<[scope_namespace scope := <[scope_mount scope := f (default ∅ (mounts !! scope_mount scope))]> mounts]>
         (mounted_users self)) self.

Definition roles_at (self : t) (scope : AuthScope) : option (gmap string Role) :=
  if bool_decide (scope_mount scope = "approle") then roles self !! scope_namespace scope
  else mounted_roles self !! scope_namespace scope ≫= (λ m, m !! scope_mount scope).

(** [*self.roles_at_mut(scope) = f(..)]. *)
Definition update_roles_at (scope : AuthScope) (f : gmap string Role → gmap string Role) (self : t) : t :=
  if bool_decide (scope_mount scope = "approle") then
    set_roles (<[scope_namespace scope := f (default ∅ (roles self !! scope_namespace scope))]> (roles self)) self
  else
    let mounts := default ∅ (mounted_roles self !! scope_namespace scope) in
    set_mounted_roles
      (<[scope_namespace scope := <[scope_mount scope := f (default ∅ (mounts !! scope_mount scope))]> mounts]>
         (mounted_roles self)) self.

(** Whether disabling the mount revokes the token. *)
Definition issued_by (scope : AuthScope) (token : AuthToken) : bool :=
  bool_decide (AuthToken.namespace token = scope_namespace scope) && negb (AuthToken.root token)
  && (bool_decide (AuthToken.auth_mount token = Some (scope_mount scope))
      || (negb (AuthToken.auth_origin_known token)
          && bool_decide (scope_mount scope ∈ ["userpass"; "approle"]))).

Definition disable_auth_mount (scope : AuthScope) (self : t) : t :=
  let self := update_users_at scope (λ _, ∅) self in
  let self := update_roles_at scope (λ _, ∅) self in
  let self := match jwt_mounts self !! scope_namespace scope with
              | Some mounts => set_jwt_mounts
                  (<[scope_namespace scope := delete (scope_mount scope) mounts]> (jwt_mounts self)) self
              | None => self
              end in
  let revoked := filter (λ id, Is_true (match tokens self !! id with
                                        | Some token => issued_by scope token
                                        | None => false end)) (btree_keys (tokens self)) in
  foldl (λ self digest, revoke digest self) self revoked.

Definition jwt_at (self : t) (scope : AuthScope) : option JwtMountState :=
  jwt_mounts self !! scope_namespace scope ≫= (λ m, m !! scope_mount scope).

(** [*self.jwt_at_mut(scope) = f(..)]. *)
Definition update_jwt_at (scope : AuthScope) (f : JwtMountState → JwtMountState) (self : t) : t :=
  let mounts := default ∅ (jwt_mounts self !! scope_namespace scope) in
  set_jwt_mounts
    (<[scope_namespace scope :=
         <[scope_mount scope := f (default JwtMountState.default (mounts !! scope_mount scope))]> mounts]>
       (jwt_mounts self)) self.
End auth.
End AuthState.
Notation AuthState := AuthState.t.
