(* ===== verification/AuthRoutes.v ===== *)
(** Administration of tokens, policies and authentication mounts,
    [crates/heptabao-server/src/auth.rs]: [token_route] with [create_token] and
    renewal, [policy_route] and [auth_mount_route]. *)
From Stdlib Require Import Ascii NArith.
From S2P Require Import Prelude Str Json Engine Gf256 EngineState Acl AuthState.
Import Auth.

(** A step that neither reads nor changes the state. *)
Definition lift {S E A} (r : Result A E) : M S E A := λ s, (s, r).
(** A guard. *)
Definition guard {S} (b : bool) (e : AuthError) : M S AuthError unit := lift (if b then Ok tt else Err e).
Definition modify {S E} (f : S → S) : M S E unit := λ s, (f s, Ok tt).

Module AuthRoutes.
Import AuthState.
Section routes.
Context `{AuthCrypto, JsonText}.
Implicit Types (rng : Rng) (principal : option Principal).

Definition token_info (token : AuthToken) (now : N) : Value :=
  Json.object [("accessor", VString (AuthToken.accessor token));
    ("policies", set_json (AuthToken.policies token));
    ("display_name", VString (AuthToken.display_name token));
    ("creation_time", Json.u64 (AuthToken.created_at token));
    ("ttl", Json.u64 (match AuthToken.expires_at token with Some t => (t - now)%N | None => 0%N end));
    ("expire_time_unix", opt_json (AuthToken.expires_at token));
    ("explicit_max_ttl", Json.u64 (match AuthToken.max_expires_at token with
                                   | Some t => (t - AuthToken.created_at token)%N | None => 0%N end));
    ("period", Json.u64 (AuthToken.period token));
    ("num_uses", Json.u64 (default 0%N (AuthToken.uses_remaining token)));
    ("renewable", VBool (AuthToken.renewable token));
    ("orphan", VBool (bool_decide (AuthToken.parent token = None))); ("type", VString "service");
    ("namespace", VString (AuthToken.namespace token))].

(** [self.tokens.iter().find(..)] by accessor, in key order. *)
Definition find_accessor (self : AuthState) (namespace wanted : string) : option string :=
  find (λ id, match tokens self !! id with
              | Some t => bool_decide (AuthToken.namespace t = namespace) && bool_decide (AuthToken.accessor t = wanted)
              | None => false
              end) (btree_keys (tokens self)).

Definition target_token (self : AuthState) (namespace : string) (body : Value) (accessor : bool) : AResult string :=
  let? id :=
    if accessor then
      let? wanted := string_field body "accessor" in
      ok_or (find_accessor self namespace wanted) denied
    else
      let? token := string_field body "token" in
      Ok (hash token) in
  if match tokens self !! id with
     | None => true
     | Some token => negb (bool_decide (AuthToken.namespace token = namespace))
     end
  then Err denied else Ok id.

(** * [create_token] *)
Definition opt_min (a b : option N) : option N :=
  match a, b with
  | Some x, Some y => Some (N.min x y)
  | Some x, None => Some x
  | None, y => y
  end.

(** The deadlines of a new token: [expires_at] and [max_expires_at]. *)
Definition token_deadlines (parent : AuthToken) (body : Value) (now period : N) (root no_parent : bool) :
  AResult (option N * option N) :=
  let? ttl := duration body "ttl" DEFAULT_TTL in
  let ttl := if (0 <? period)%N then period
             else if (ttl =? 0)%N && negb root then DEFAULT_TTL else ttl in
  if (MAX_TTL <? ttl)%N then Err (bad "TTL exceeds maximum")
  else
    let? explicit_max := duration body "explicit_max_ttl" 0 in
    if (MAX_TTL <? explicit_max)%N then Err (bad "explicit maximum TTL exceeds service maximum")
    else
      let? max_expires_at :=
        if (0 <? explicit_max)%N then map_ok Some (checked_expiry now explicit_max)
        else if (period =? 0)%N && negb (root && (ttl =? 0)%N) then map_ok Some (checked_expiry now MAX_TTL)
        else Ok None in
      let? expires_at :=
        if root && (ttl =? 0)%N then Ok None else map_ok Some (checked_expiry now ttl) in
      let expires_at := match expires_at, max_expires_at with
                        | Some expiry, Some max => Some (N.min expiry max)
                        | _, _ => expires_at
                        end in
      let expires_at := match no_parent, AuthToken.expires_at parent with
                        | false, Some parent_expiry => opt_min expires_at (Some parent_expiry)
                        | _, _ => expires_at
                        end in
      Ok (expires_at, max_expires_at).

(** The token to issue, after all checks. *)
Definition new_token (self : AuthState) rng (actor : Principal) (namespace path : string) (body : Value)
    (now : N) (force_orphan : bool) : AResult AuthToken :=
  let? _ := reject_unknown body ["policies"; "ttl"; "explicit_max_ttl"; "period"; "num_uses"; "renewable";
                                 "no_parent"; "no_default_policy"; "display_name"; "type"] in
  if match Json.get body "type" with
     | Some value => negb (bool_decide (Json.as_str value = Some "service"))
     | None => false
     end
  then Err (bad "only service tokens are supported")
  else
  let? parent := check_principal self actor namespace now in
  if match AuthToken.uses_remaining parent with Some _ => true | None => false end
  then Err (bad "limited-use tokens cannot create child tokens")
  else
  let? no_default := boolean body "no_default_policy" false in
  let? requested := Auth.policies body "policies" (AuthToken.policies parent) (negb no_default) in
  if negb (AuthToken.root parent)
     && (negb (bool_decide (requested ⊆ AuthToken.policies parent)) || bool_decide ("root" ∈ requested))
  then Err denied
  else
  let root := bool_decide ("root" ∈ requested) in
  if root && (negb (size requested =? 1) || negb (bool_decide (namespace = "")))
  then Err (bad "root policy must be exclusive and in root namespace")
  else
  let? no_parent := if force_orphan then Ok true else boolean body "no_parent" false in
  let? period := duration body "period" 0 in
  let? _ := if no_parent || (0 <? period)%N
            then authorize_request self actor namespace path "sudo" now else Ok tt in
  if (MAX_TTL <? period)%N then Err (bad "period exceeds maximum TTL")
  else
  let? deadlines := token_deadlines parent body now period root no_parent in
  let '(expires_at, max_expires_at) := deadlines in
  let? display_name := match Json.get body "display_name" with
                       | Some v => ok_or (Json.as_str v) (bad "display name must be a string")
                       | None => Ok "token"
                       end in
  if 128 <? String.length display_name then Err (bad "display name too long")
  else
  let? accessor := random_id rng 0 "a." in
  let? renewable := boolean body "renewable" true in
  let? num_uses := number body "num_uses" 0 in
  Ok (AuthToken.mk accessor namespace requested root
        (if no_parent then None else Some (Principal.digest actor)) now expires_at max_expires_at period
        (renewable && match expires_at with Some _ => true | None => false end)
        (unlimited_zero num_uses) display_name (AuthToken.auth_mount parent)
        (AuthToken.root parent || AuthToken.auth_origin_known parent)).

Definition create_token rng (actor : Principal) (namespace path : string) (body : Value)
    (now : N) (force_orphan : bool) : M AuthState AuthError AuthResponse :=
  do? token := mpure (λ self, new_token self rng actor namespace path body now force_orphan) in
  issue rng 1 token now.

(** * Renewal *)

(** The earliest expiry among the ancestors.  The code's loop has no bound of its
    own; [active_token] has just found the chain free of cycles. *)
Fixpoint ancestor_limit (fuel : nat) (self : AuthState) (parent : option string) (limit : option N) :
  AResult (option N) :=
  match parent with
  | None => Ok limit
  | Some parent =>
      match fuel with
      | O => Err (err 0 "does not terminate")
      | S fuel =>
          let? ancestor := ok_or (tokens self !! parent) denied in
          ancestor_limit fuel self (AuthToken.parent ancestor) (opt_min limit (AuthToken.expires_at ancestor))
      end
  end.

(** The new expiry of a renewed token. *)
Definition renewed_expiry (token : AuthToken) (increment now : N) (limit : option N) : AResult N :=
  if negb (AuthToken.renewable token) then Err (bad "token is not renewable")
  else
    let ttl := if (0 <? AuthToken.period token)%N then AuthToken.period token
               else if (increment =? 0)%N then DEFAULT_TTL else N.min increment MAX_TTL in
    let? proposed := checked_expiry now ttl in
    let expires_at := match AuthToken.max_expires_at token with Some max => N.min proposed max | None => proposed end in
    let expires_at := match limit with Some l => N.min expires_at l | None => expires_at end in
    if (expires_at <=? now)%N then Err denied else Ok expires_at.

Definition renew_token (id : string) (body : Value) (now : N) : M AuthState AuthError AuthResponse :=
  do? _ := mpure (λ self, active_token self id now false) in
  do? limit := mpure (λ self, ancestor_limit (S (size (tokens self))) self
                                (tokens self !! id ≫= AuthToken.parent) None) in
  do? increment := lift (duration body "increment" DEFAULT_TTL) in
  do? token := mpure (λ self, ok_or (tokens self !! id) denied) in
  do? expires_at := lift (renewed_expiry token increment now limit) in
  do? _ := modify (λ self, set_tokens (<[id := AuthToken.set_expires (Some expires_at) token]> (tokens self)) self) in
  mret (AuthResponse.mk 200 (Json.object [("auth", Json.object [
      ("accessor", VString (AuthToken.accessor token)); ("policies", set_json (AuthToken.policies token));
      ("token_policies", set_json (AuthToken.policies token)); ("lease_duration", Json.u64 (expires_at - now));
      ("renewable", VBool true); ("token_type", VString "service")])]) true).

(** * [token_route] *)
Definition one_of (s : string) (l : list string) : bool := bool_decide (s ∈ l).

Definition allowed_method (operation method : string) : bool :=
  if one_of operation ["lookup-self"; "lookup"; "lookup-accessor"] then one_of method ["GET"; "POST"]
  else if bool_decide (operation = "accessors") then one_of method ["LIST"; "GET"]
  else one_of method ["POST"; "PUT"].

Definition token_capability (operation : string) : string :=
  if one_of operation ["lookup-self"; "lookup"; "lookup-accessor"] then "read"
  else if bool_decide (operation = "accessors") then "list" else "update".

(** Whether a stored token is no longer active. *)
Definition stale (self : AuthState) (namespace : string) (now : N) (kv : string * AuthToken) : bool :=
  bool_decide (AuthToken.namespace kv.2 = namespace) && negb (is_ok (active_token self kv.1 now true)).

Definition tidy_tokens (namespace : string) (now : N) : M AuthState AuthError AuthResponse := λ self,
  let stale_tokens := filter (λ kv, Is_true (stale self namespace now kv)) (tokens self) in
  let removed := N.of_nat (size stale_tokens) in
  (set_tokens (filter (λ kv, ¬ Is_true (stale self namespace now kv)) (tokens self)) self,
   Ok (response (Json.object [("removed_tokens", Json.u64 removed)]) (0 <? removed)%N)).

Definition accessor_keys (self : AuthState) (namespace : string) (now : N) : list string :=
  AuthToken.accessor <$> filter (λ t, AuthToken.namespace t = namespace ∧ expired t now = false)
    (btree_values (tokens self)).

Definition token_operation rng (actor : Principal) (namespace path operation : string) (body : Value) (now : N) :
  M AuthState AuthError AuthResponse :=
  if one_of operation ["create"; "create-orphan"] then
    create_token rng actor namespace path body now (bool_decide (operation = "create-orphan"))
  else if bool_decide (operation = "lookup-self") then
    do? _ := lift (reject_unknown body []) in
    do? token := mpure (λ self, ok_or (tokens self !! Principal.digest actor) denied) in
    mret (response (token_info token now) false)
  else if one_of operation ["lookup"; "lookup-accessor"] then
    do? _ := lift (reject_unknown body (if bool_decide (operation = "lookup") then ["token"] else ["accessor"])) in
    do? id := mpure (λ self, target_token self namespace body (bool_decide (operation = "lookup-accessor"))) in
    do? token := mpure (λ self, active_token self id now true) in
    mret (response (token_info token now) false)
  else if bool_decide (operation = "accessors") then
    do? _ := mpure (λ self, authorize_request self actor namespace path "sudo" now) in
    mpure (λ self, Ok (response (Json.object [("keys", VArray (VString <$> accessor_keys self namespace now))]) false))
  else if bool_decide (operation = "tidy") then
    do? _ := lift (reject_unknown body []) in
    do? _ := mpure (λ self, authorize_request self actor namespace path "sudo" now) in
    tidy_tokens namespace now
  else if bool_decide (operation = "revoke-self") then
    do? _ := lift (reject_unknown body []) in
    do? _ := modify (revoke (Principal.digest actor)) in
    mret (empty true)
  else if one_of operation ["revoke"; "revoke-accessor"] then
    do? _ := lift (reject_unknown body (if bool_decide (operation = "revoke") then ["token"] else ["accessor"])) in
    do? id := mpure (λ self, target_token self namespace body (bool_decide (operation = "revoke-accessor"))) in
    do? _ := modify (revoke id) in
    mret (empty true)
  else if bool_decide (operation = "renew-self") then
    do? _ := lift (reject_unknown body ["increment"]) in
    renew_token (Principal.digest actor) body now
  else if one_of operation ["renew"; "renew-accessor"] then
    do? _ := lift (reject_unknown body
                     (if bool_decide (operation = "renew") then ["token"; "increment"] else ["accessor"; "increment"])) in
    do? id := mpure (λ self, target_token self namespace body (bool_decide (operation = "renew-accessor"))) in
    renew_token id body now
  else mfail (err 404 "unsupported token operation").

Definition token_route rng principal (namespace method path : string) (body : Value) (now : N) :
  M AuthState AuthError AuthResponse :=
  do? operation := lift (ok_or (strip_prefix "auth/token/" path) (bad "invalid token path")) in
  do? _ := guard (allowed_method operation method) (err 405 "method not allowed") in
  do? actor := mpure (λ self, permission self principal namespace path (token_capability operation) now) in
  token_operation rng actor namespace path operation body now.

(** * [policy_route] *)
Definition nl : string := String (ascii_of_N 10) "".
Definition q (s : string) : string := String quote (s +:+ String quote "").
Definition default_policy_source : string :=
  "path " +:+ q "auth/token/lookup-self" +:+ " { capabilities = [" +:+ q "read" +:+ "] }" +:+ nl
  +:+ "path " +:+ q "auth/token/renew-self" +:+ " { capabilities = [" +:+ q "update" +:+ "] }" +:+ nl
  +:+ "path " +:+ q "auth/token/revoke-self" +:+ " { capabilities = [" +:+ q "update" +:+ "] }" +:+ nl.

Definition policy_capability (method name : string) : AResult string :=
  if bool_decide (method = "GET") then Ok (if bool_decide (name = "") then "list" else "read")
  else if bool_decide (method = "LIST") then Ok "list"
  else if bool_decide (method = "DELETE") then Ok "delete"
  else if one_of method ["POST"; "PUT"] then Ok "update"
  else Err (err 405 "method not allowed").

Definition policy_names (self : AuthState) (namespace : string) : gset string :=
  {["default"]} ∪ (if bool_decide (namespace = "") then {["root"]} else ∅)
  ∪ (match policies self !! namespace with Some p => dom p | None => ∅ end).

Definition read_policy (self : AuthState) (namespace name : string) : AResult AuthResponse :=
  let? source :=
    match policies self !! namespace ≫= (λ entries, entries !! name) with
    | Some policy => Ok (AclPolicy.source policy)
    | None => if bool_decide (name = "default") then Ok default_policy_source else Err (err 404 "policy not found")
    end in
  Ok (response (Json.object [("name", VString name); ("policy", VString source); ("rules", VString source)]) false).

Definition store_policy (namespace name : string) (policy : AclPolicy) (self : AuthState) : AuthState :=
  set_policies (<[namespace := <[name := policy]> (default ∅ (policies self !! namespace))]> (policies self)) self.

Definition delete_policy (namespace name : string) (self : AuthState) : AuthState :=
  match policies self !! namespace with
  | Some entries => set_policies (<[namespace := delete name entries]> (policies self)) self
  | None => self
  end.

Definition change_policy (actor : Principal) (namespace name capability path : string) (body : Value) (now : N) :
  M AuthState AuthError AuthResponse :=
  do? _ := mpure (λ self, authorize_request self actor namespace path "sudo" now) in
  if bool_decide (capability = "delete") then
    do? _ := guard (negb (bool_decide (name = "default"))) (bad "default policy cannot be deleted") in
    do? _ := modify (delete_policy namespace name) in
    mret (empty true)
  else
    do? _ := guard (bool_decide (capability = "update")) (err 405 "method not allowed") in
    do? _ := lift (reject_unknown body ["policy"]) in
    do? input := lift (ok_or (Json.get body "policy") (bad "policy is required")) in
    do? policy := lift (Hcl.parse_policy input) in
    do? _ := modify (store_policy namespace name policy) in
    mret (empty true).

Definition policy_route principal (namespace method path : string) (body : Value) (now : N) :
  M AuthState AuthError AuthResponse :=
  do? suffix := lift (ok_or (match strip_prefix "sys/policies/acl" path with
                             | Some s => Some s
                             | None => strip_prefix "sys/policy" path
                             end) (bad "invalid policy route")) in
  let name := default suffix (strip_prefix "/" suffix) in
  do? capability := lift (policy_capability method name) in
  do? actor := mpure (λ self, permission self principal namespace path capability now) in
  if bool_decide (name = "") then
    do? _ := guard (bool_decide (capability = "list")) (bad "policy name required") in
    mpure (λ self, let keys := set_json (policy_names self namespace) in
                   Ok (response (Json.object [("keys", keys); ("policies", keys)]) false))
  else
    do? _ := guard (valid_name name) (bad "invalid policy name") in
    do? _ := guard (negb (bool_decide (name = "root"))) (bad "root policy cannot be read, changed, or deleted") in
    if bool_decide (capability = "read") then mpure (λ self, read_policy self namespace name)
    else change_policy actor namespace name capability path body now.

(** * [auth_mount_route] *)
Definition mount_kind (body : Value) : AResult string :=
  let? kind := ok_or (match Json.get body "type" with Some v => Json.as_str v | None => None end)
                 (bad "auth mount type is required") in
  if one_of kind ["userpass"; "approle"; "jwt"] then Ok kind
  else Err (err 501 "auth method type is not implemented").

Definition mount_description (body : Value) : AResult string :=
  let? description := match Json.get body "description" with
                      | Some v => ok_or (Json.as_str v) (bad "description must be a string")
                      | None => Ok ""
                      end in
  if (512 <? String.length description) || has_control description
  then Err (bad "invalid auth mount description") else Ok description.

(** The mounts after enabling one. *)
Definition enable_mount (entries : gmap string AuthMount) (mount kind description : string) :
  AResult (gmap string AuthMount * bool) :=
  if bool_decide (mount = "token")
     || match entries !! mount with
        | Some old => negb (bool_decide (AuthMount.kind old = kind))
        | None => false
        end
  then Err (bad "auth mount is already in use by another method")
  else if existsb (λ name, negb (bool_decide (name = mount))
                           && (has_prefix (mount +:+ "/") name || has_prefix (name +:+ "/") mount))
            (btree_keys entries)
  then Err (bad "auth mount paths cannot overlap")
  else
    let next := AuthMount.mk kind description in
    Ok (<[mount := next]> entries, negb (bool_decide (entries !! mount = Some next))).

Definition set_mounts_of (namespace : string) (entries : gmap string AuthMount) (self : AuthState) : AuthState :=
  set_auth_mounts (<[namespace := entries]> (auth_mounts self)) self.

(** [POST] and [DELETE] need [update] and [sudo] on the mount's route. *)
Definition mount_admin (self : AuthState) principal (namespace route : string) (now : N) : AResult unit :=
  let? actor := permission self principal namespace route "update" now in
  authorize_request self actor namespace route "sudo" now.

Definition auth_mount_change principal (namespace method mount : string) (body : Value) (now : N) :
  M AuthState AuthError AuthResponse :=
  let route := "sys/auth/" +:+ mount in
  if bool_decide (method = "GET") then
    do? _ := mpure (λ self, permission self principal namespace route "read" now) in
    do? _ := lift (reject_unknown body []) in
    do? entry := mpure (λ self, ok_or (effective_auth_mounts self namespace !! mount) (err 404 "auth mount not found")) in
    mret (response (AuthMount.descriptor entry) false)
  else if one_of method ["POST"; "PUT"] then
    do? _ := mpure (λ self, mount_admin self principal namespace route now) in
    do? _ := lift (reject_unknown body ["type"; "description"]) in
    do? kind := lift (mount_kind body) in
    do? description := lift (mount_description body) in
    do? em := mpure (λ self, enable_mount (effective_auth_mounts self namespace) mount kind description) in
    do? _ := modify (set_mounts_of namespace em.1) in
    mret (empty em.2)
  else if bool_decide (method = "DELETE") then
    do? _ := mpure (λ self, mount_admin self principal namespace route now) in
    do? _ := lift (reject_unknown body []) in
    do? _ := guard (negb (bool_decide (mount = "token"))) (bad "the built-in token auth method cannot be disabled") in
    λ self,
    let entries := effective_auth_mounts self namespace in
    let mutated := bool_decide (is_Some (entries !! mount)) in
    let self := set_mounts_of namespace (delete mount entries) self in
    if mutated then (disable_auth_mount (mk_scope namespace mount) self, Ok (empty true))
    else (self, Err (err 404 "auth mount not found"))
  else mfail (err 405 "method not allowed").

Definition mounts_json (mounts : gmap string AuthMount) : Value :=
  Json.object (omap (λ name, (λ m, (name +:+ "/", AuthMount.descriptor m)) <$> mounts !! name) (btree_keys mounts)).

Definition auth_mount_route principal (namespace method path : string) (body : Value) (now : N) :
  M AuthState AuthError AuthResponse :=
  do? suffix := lift (ok_or (strip_prefix "sys/auth" path) (bad "invalid auth mount path")) in
  if one_of suffix [""; "/"] then
    do? _ := guard (one_of method ["GET"; "LIST"]) (err 405 "method not allowed") in
    do? _ := mpure (λ self, permission self principal namespace "sys/auth" "read" now) in
    do? _ := lift (reject_unknown body []) in
    mpure (λ self, Ok (response (mounts_json (effective_auth_mounts self namespace)) false))
  else
    let mount := trim_end_matches "/" (trim_start_matches "/" suffix) in
    do? _ := guard (negb (bool_decide (mount = "")) && (String.length mount <=? 256)
                    && forallb valid_name (split "/" mount))
               (bad "auth mount path must contain canonical segments") in
    auth_mount_change principal namespace method mount body now.
End routes.
End AuthRoutes.
