(* ===== verification/AuthLogin.v ===== *)
(** Password, role and external logins, [crates/heptabao-server/src/auth.rs]:
    [user_route], [login_userpass] with its second factor, [role_route],
    [login_approle], the JWT routes, and [handle], which dispatches every
    request of the authentication subsystem. *)
From Stdlib Require Import Ascii NArith Strings.Byte.
From S2P Require Import Prelude Str Json Engine Gf256 Base32 EngineState Totp Federated Acl AuthState AuthRoutes.
Import Auth.

Module AuthLogin.
Import AuthState AuthRoutes.

Definition PASSWORD_ROUNDS : N := 600000.
Definition MFA_SEED_BYTES : nat := 32.
Definition MFA_PERIOD_SECONDS : N := 30.
Definition MFA_DIGITS : nat := 6.
Definition MFA_DRIFT_STEPS : N := 1.
Definition MAX_EXTERNAL_REPLAY_ENTRIES : nat := N.to_nat 32000.

(** * Second factor *)

(** [base32_no_padding]: the [u32] buffer is never masked, shifts drop its high bits. *)
Fixpoint base32_loop (bytes : list u8) (buffer bits : N) (output : string) : string :=
  match bytes with
  | [] =>
      if (0 <? bits)%N
      then output +:+ String (symbol (N.land (shl32 buffer (5 - bits)) 31)) ""
      else output
  | byte :: bytes =>
      let buffer := N.lor (shl32 buffer 8) (U8.to_N byte) in
      let bits := (bits + 8)%N in
      let '(bits, output) := emit (N.to_nat bits) buffer bits output in
      base32_loop bytes buffer bits output
  end.
Definition base32_no_padding (bytes : list u8) : string := base32_loop bytes 0 0 "".

(** The loop filling the digits from the last position on. *)
Fixpoint code_digits (positions : nat) (value : N) (code : string) : string :=
  match positions with
  | O => code
  | S positions => code_digits positions (value / 10) (String (digit (value mod 10)) code)
  end.

Section login.
Context `{AuthCrypto, JsonText, Hmac, FederatedCrypto}.
Implicit Types (rng : Rng) (principal : option Principal) (scope : AuthScope).

Definition totp_code (secret : list u8) (counter : N) : string :=
  let binary := default 0%N (Totp.truncate (hmac_sign HMAC_SHA256 secret (to_be_bytes counter))) in
  code_digits MFA_DIGITS (binary mod 1000000) "".

(** [hmac::verify] of the supplied digits against the tag of the expected ones. *)
Definition same_code (secret : list u8) (supplied expected : string) : bool :=
  bool_decide (hmac_sign HMAC_SHA256 secret (String.list_byte_of_string supplied)
               = hmac_sign HMAC_SHA256 secret (String.list_byte_of_string expected)).

Fixpoint verify_loop (enrollment : TotpEnrollment) (supplied : string) (counters : list N) (accepted : option N) :
  option N :=
  match counters with
  | [] => accepted
  | counter :: counters =>
      if match TotpEnrollment.last_accepted_counter enrollment with
         | Some last => (counter <=? last)%N | None => false end
      then verify_loop enrollment supplied counters accepted
      else verify_loop enrollment supplied counters
        (if same_code (TotpEnrollment.secret enrollment) supplied (totp_code (TotpEnrollment.secret enrollment) counter)
         then Some (match accepted with Some found => N.max found counter | None => counter end)
         else accepted)
  end.

Definition verify_totp (enrollment : TotpEnrollment) (supplied : string) (now : N) : AResult N :=
  if negb (length (TotpEnrollment.secret enrollment) =? MFA_SEED_BYTES)
     || negb (TotpEnrollment.period_seconds enrollment =? MFA_PERIOD_SECONDS)%N
     || negb (TotpEnrollment.digits enrollment =? N.of_nat MFA_DIGITS)%N
     || negb (String.length supplied =? MFA_DIGITS) || negb (str_all is_ascii_digit supplied)
  then Err denied
  else
    let current := (now / TotpEnrollment.period_seconds enrollment)%N in
    ok_or (verify_loop enrollment supplied (Totp.window current MFA_DRIFT_STEPS) None) denied.

(** * Users *)
Definition set_mfa (mfa : option TotpEnrollment) (u : User) : User :=
  User.mk (User.salt u) (User.verifier u) (User.rounds u) (User.policies u) (User.token_ttl u)
    (User.token_max_ttl u) (User.token_num_uses u) mfa.

Definition validate_assignment (actor : Principal) (requested : gset string) : AResult unit :=
  if bool_decide ("root" ∈ requested)
     || (negb (Principal.is_root actor) && negb (bool_decide (requested ⊆ Principal.policies actor)))
  then Err denied else Ok tt.

Definition insert_user scope (name : string) (u : User) : AuthState → AuthState :=
  update_users_at scope (λ users, <[name := u]> users).

Definition existing_user (self : AuthState) scope (name : string) : option User :=
  users_at self scope ≫= (λ users, users !! name).

Definition user_mfa rng (actor : Principal) scope (path name capability : string) (user : User) (body : Value) (now : N) :
  M AuthState AuthError AuthResponse :=
  if bool_decide (capability = "read") then
    do? _ := lift (reject_unknown body []) in
    do? e := lift (ok_or (User.mfa user) (err 404 "MFA enrollment not found")) in
    mret (response (Json.object [("enabled", VBool true); ("type", VString "totp"); ("algorithm", VString "SHA256");
      ("digits", Json.u64 (TotpEnrollment.digits e)); ("period", Json.u64 (TotpEnrollment.period_seconds e));
      ("last_counter_present", VBool (match TotpEnrollment.last_accepted_counter e with Some _ => true | None => false end))])
      false)
  else if bool_decide (capability = "delete") then
    do? _ := lift (reject_unknown body []) in
    do? _ := mpure (λ self, authorize_request self actor (scope_namespace scope) path "sudo" now) in
    do? _ := modify (insert_user scope name (set_mfa None user)) in
    mret (empty (match User.mfa user with Some _ => true | None => false end))
  else if bool_decide (capability = "update") then
    do? _ := lift (reject_unknown body ["regenerate"]) in
    do? _ := mpure (λ self, authorize_request self actor (scope_namespace scope) path "sudo" now) in
    do? regenerate := lift (boolean body "regenerate" false) in
    do? _ := guard (match User.mfa user with Some _ => regenerate | None => true end)
               (bad "MFA is already enrolled; explicit regenerate=true is required") in
    do? secret := lift (random_bytes rng 0 MFA_SEED_BYTES) in
    do? _ := modify (insert_user scope name
               (set_mfa (Some (TotpEnrollment.mk secret MFA_PERIOD_SECONDS (N.of_nat MFA_DIGITS) None)) user)) in
    mret (response (Json.object [("enabled", VBool true); ("type", VString "totp"); ("algorithm", VString "SHA256");
      ("digits", Json.u64 (N.of_nat MFA_DIGITS)); ("period", Json.u64 MFA_PERIOD_SECONDS);
      ("secret_base32", VString (base32_no_padding secret))]) true)
  else mfail (err 405 "method not allowed").

(** The password of an updated user: salt, verifier and rounds. *)
Definition new_password rng (existing : option User) (user : User) (body : Value) : AResult (list u8 * list u8 * N) :=
  match Json.get body "password" with
  | Some password =>
      let? password := ok_or (Json.as_str password) (bad "password must be a string") in
      if (String.length password <? 12) || (1024 <? String.length password)
      then Err (bad "password must be 12 to 1024 bytes")
      else
        let? salt := random_bytes rng 0 32 in
        Ok (salt, pbkdf2_derive PASSWORD_ROUNDS salt password, PASSWORD_ROUNDS)
  | None =>
      match existing with
      | None => Err (bad "password is required for new user")
      | Some _ => Ok (User.salt user, User.verifier user, User.rounds user)
      end
  end.

(** The field named by the newer spelling when it is present. *)
Definition alias (body : Value) (new old : string) : string := if has_field body new then new else old.

Definition default_user : User :=
  User.mk [] [] PASSWORD_ROUNDS {["default"]} DEFAULT_TTL MAX_TTL 0 None.

Definition updated_user rng (actor : Principal) (subpath : string) (existing : option User) (body : Value) : AResult User :=
  let? _ := reject_unknown body ["password"; "policies"; "token_policies"; "ttl"; "max_ttl"; "token_ttl";
                                 "token_max_ttl"; "token_num_uses"] in
  if bool_decide (subpath = "password")
     && (match Json.as_object body with Some o => negb (length o =? 1) | None => true end
         || negb (has_field body "password"))
  then Err (bad "password endpoint accepts only password")
  else if bool_decide (subpath = "policies")
     && match Json.as_object body with
        | Some o => existsb (λ kv, negb (one_of kv.1 ["policies"; "token_policies"])) o
        | None => false
        end
  then Err (bad "policies endpoint accepts only policy fields")
  else
  let user := default default_user existing in
  let? pw := new_password rng existing user body in
  let '(salt, verifier, rounds) := pw in
  let? _ := reject_alias_pair body "policies" "token_policies" in
  let? _ := reject_alias_pair body "ttl" "token_ttl" in
  let? _ := reject_alias_pair body "max_ttl" "token_max_ttl" in
  let? pols := Auth.policies body (alias body "token_policies" "policies") (User.policies user) true in
  let? _ := validate_assignment actor pols in
  let? ttl := duration body (alias body "token_ttl" "ttl") (User.token_ttl user) in
  let? max_ttl := duration body (alias body "token_max_ttl" "max_ttl") (User.token_max_ttl user) in
  let? limits := normalize_ttl ttl max_ttl in
  let? num_uses := number body "token_num_uses" (User.token_num_uses user) in
  Ok (User.mk salt verifier rounds pols limits.1 limits.2 num_uses (User.mfa user)).

Definition user_json (u : User) : Value :=
  Json.object [("policies", set_json (User.policies u)); ("token_policies", set_json (User.policies u));
    ("token_ttl", Json.u64 (User.token_ttl u)); ("token_max_ttl", Json.u64 (User.token_max_ttl u));
    ("token_num_uses", Json.u64 (User.token_num_uses u))].

Definition keys_json {A} (m : option (gmap string A)) : Value :=
  Json.object [("keys", VArray (VString <$> match m with Some m => btree_keys m | None => [] end))].

Definition user_route rng principal scope (method path : string) (body : Value) (now : N) :
  M AuthState AuthError AuthResponse :=
  do? suffix := lift (ok_or (strip_prefix ("auth/" +:+ scope_mount scope +:+ "/users") path) (bad "invalid user route")) in
  let suffix := trim_start_matches "/" suffix in
  let '(name, subpath) := default (suffix, "") (split_once "/" suffix) in
  do? capability := lift (route_capability method (bool_decide (suffix = ""))) in
  do? actor := mpure (λ self, permission self principal (scope_namespace scope) path capability now) in
  if bool_decide (name = "") && bool_decide (capability = "list") then
    mpure (λ self, Ok (response (keys_json (users_at self scope)) false))
  else
  do? _ := guard (valid_name name && one_of subpath [""; "password"; "policies"; "mfa"]) (bad "invalid user route") in
  do? existing := mpure (λ self, Ok (existing_user self scope name)) in
  if bool_decide (subpath = "mfa") then
    do? user := lift (ok_or existing (err 404 "user not found")) in
    user_mfa rng actor scope path name capability user body now
  else if bool_decide (capability = "read") && bool_decide (subpath = "") then
    do? user := lift (ok_or existing (err 404 "user not found")) in
    mret (response (user_json user) false)
  else if bool_decide (capability = "delete") && bool_decide (subpath = "") then
    do? _ := modify (update_users_at scope (delete name)) in
    mret (empty true)
  else
    do? _ := guard (bool_decide (capability = "update")) (err 405 "method not allowed") in
    do? user := lift (updated_user rng actor subpath existing body) in
    do? _ := modify (insert_user scope name user) in
    mret (empty true).

(** * Login tokens *)
Definition login_token rng (i : nat) (namespace : string) (pols : gset string) (ttl max_ttl uses : N)
    (display_name : string) (now : N) : AResult AuthToken :=
  if bool_decide ("root" ∈ pols) then Err denied
  else
    let? accessor := random_id rng i "a." in
    let? expires_at := checked_expiry now ttl in
    let? max_expires_at := checked_expiry now max_ttl in
    Ok (AuthToken.mk accessor namespace pols false None now (Some expires_at) (Some max_expires_at) 0 true
          (unlimited_zero uses) display_name None true).

(** Password and second factor: the counter to record, if any. *)
Definition check_password (user : option User) (password : string) : AResult User :=
  let dummy := repeat x00 32 in
  let '(rounds, salt, verifier) := match user with
                                   | Some u => (User.rounds u, User.salt u, User.verifier u)
                                   | None => (PASSWORD_ROUNDS, dummy, dummy)
                                   end in
  if (rounds =? 0)%N then Err denied
  else match user with
  | Some u => if pbkdf2_verify rounds salt password verifier then Ok u else Err denied
  | None => Err denied
  end.

Definition check_factor (user : User) (body : Value) (now : N) : AResult (option N) :=
  match User.mfa user with
  | Some enrollment =>
      let? supplied := ok_or (match Json.get body "totp_code" with Some v => Json.as_str v | None => None end) denied in
      map_ok Some (verify_totp enrollment supplied now)
  | None => if has_field body "totp_code" then Err (bad "MFA is not configured for this user") else Ok None
  end.

(** Recording the accepted counter; a counter implies an enrollment. *)
Definition record_counter (counter : option N) (user : User) : User :=
  match counter, User.mfa user with
  | Some c, Some e => set_mfa (Some (TotpEnrollment.mk (TotpEnrollment.secret e) (TotpEnrollment.period_seconds e)
                                       (TotpEnrollment.digits e) (Some c))) user
  | _, _ => user
  end.

Definition store_token (id : string) (token : AuthToken) (self : AuthState) : AuthState :=
  set_tokens (<[id := token]> (tokens self)) self.

Definition login_userpass rng scope (method name : string) (body : Value) (now : N) :
  M AuthState AuthError AuthResponse :=
  do? _ := guard (one_of method ["POST"; "PUT"]) (err 405 "method not allowed") in
  do? _ := guard (valid_name name) denied in
  do? _ := lift (reject_unknown body ["password"; "totp_code"]) in
  do? password := lift (string_field body "password") in
  do? _ := guard (String.length password <=? 1024) denied in
  do? user := mpure (λ self, check_password (existing_user self scope name) password) in
  do? accepted_counter := lift (check_factor user body now) in
  do? token := lift (login_token rng 0 (scope_namespace scope) (User.policies user) (User.token_ttl user)
                       (User.token_max_ttl user) (User.token_num_uses user) ("userpass-" +:+ name) now) in
  let token := AuthToken.set_mount (Some (scope_mount scope)) token in
  do? issued := lift (prepare_issue rng 1 token now) in
  let '(token_id, token, response) := issued in
  do? _ := modify (insert_user scope name (record_counter accepted_counter user)) in
  do? _ := modify (store_token token_id token) in
  mret response.

(** * Roles *)
Definition insert_role scope (name : string) (r : Role) : AuthState → AuthState :=
  update_roles_at scope (λ roles, <[name := r]> roles).

Definition set_role_id (id : string) (r : Role) : Role :=
  Role.mk id (Role.policies r) (Role.token_ttl r) (Role.token_max_ttl r) (Role.token_num_uses r)
    (Role.secret_id_ttl r) (Role.secret_id_num_uses r) (Role.secret_ids r).
Definition set_secret_ids (m : gmap string SecretId) (r : Role) : Role :=
  Role.mk (Role.role_id r) (Role.policies r) (Role.token_ttl r) (Role.token_max_ttl r) (Role.token_num_uses r)
    (Role.secret_id_ttl r) (Role.secret_id_num_uses r) m.

Definition updated_role rng (actor : Principal) (existing : option Role) (body : Value) : AResult Role :=
  let? _ := reject_unknown body ["bind_secret_id"; "policies"; "token_policies"; "token_ttl"; "token_max_ttl";
                                 "token_num_uses"; "secret_id_ttl"; "secret_id_num_uses"] in
  let? bind := boolean body "bind_secret_id" true in
  if negb bind then Err (bad "AppRole requires secret_id binding")
  else
  let? _ := reject_alias_pair body "policies" "token_policies" in
  let? fresh := random_id rng 0 "role." in
  let role := default (Role.mk fresh {["default"]} DEFAULT_TTL MAX_TTL 0 DEFAULT_TTL 1 ∅) existing in
  let? pols := Auth.policies body (alias body "token_policies" "policies") (Role.policies role) true in
  let? _ := validate_assignment actor pols in
  let? ttl := duration body "token_ttl" (Role.token_ttl role) in
  let? max_ttl := duration body "token_max_ttl" (Role.token_max_ttl role) in
  let? limits := normalize_ttl ttl max_ttl in
  let? num_uses := number body "token_num_uses" (Role.token_num_uses role) in
  let? secret_id_ttl := duration body "secret_id_ttl" (Role.secret_id_ttl role) in
  if (MAX_TTL <? secret_id_ttl)%N then Err (bad "secret_id TTL exceeds maximum")
  else
  let? secret_id_num_uses := number body "secret_id_num_uses" (Role.secret_id_num_uses role) in
  Ok (Role.mk (Role.role_id role) pols limits.1 limits.2 num_uses secret_id_ttl secret_id_num_uses (Role.secret_ids role)).

Definition role_json (r : Role) : Value :=
  Json.object [("bind_secret_id", VBool true); ("token_policies", set_json (Role.policies r));
    ("token_ttl", Json.u64 (Role.token_ttl r)); ("token_max_ttl", Json.u64 (Role.token_max_ttl r));
    ("token_num_uses", Json.u64 (Role.token_num_uses r)); ("secret_id_ttl", Json.u64 (Role.secret_id_ttl r));
    ("secret_id_num_uses", Json.u64 (Role.secret_id_num_uses r))].

(** Whether a secret is still usable. *)
Definition secret_usable (now : N) (s : SecretId) : bool :=
  negb (match SecretId.expires_at s with Some t => (t <=? now)%N | None => false end)
  && negb (bool_decide (SecretId.uses_remaining s = Some 0%N)).

(** A new secret for a role: the role, the secret, and the answer. *)
Definition new_secret rng (role : Role) (body : Value) (now : N) : AResult (Role * AuthResponse) :=
  let? _ := reject_unknown body ["ttl"; "num_uses"] in
  let? ttl := duration body "ttl" (Role.secret_id_ttl role) in
  let? num_uses := number body "num_uses" (Role.secret_id_num_uses role) in
  if (MAX_TTL <? ttl)%N
     || ((0 <? Role.secret_id_ttl role)%N && ((ttl =? 0)%N || (Role.secret_id_ttl role <? ttl)%N))
     || ((0 <? Role.secret_id_num_uses role)%N && ((num_uses =? 0)%N || (Role.secret_id_num_uses role <? num_uses)%N))
  then Err (bad "secret_id constraints exceed role limits")
  else
  let? raw := random_id rng 0 "secret." in
  let? accessor := random_id rng 1 "sa." in
  let? expires_at := if (ttl =? 0)%N then Ok None else map_ok Some (checked_expiry now ttl) in
  Ok (set_secret_ids (<[hash raw := SecretId.mk accessor expires_at (unlimited_zero num_uses)]> (Role.secret_ids role)) role,
      response (Json.object [("secret_id", VString raw); ("secret_id_accessor", VString accessor);
                             ("secret_id_ttl", Json.u64 ttl); ("secret_id_num_uses", Json.u64 num_uses)]) true).

(** The identifier of the secret a request names. *)
Definition target_secret (role : Role) (body : Value) (by_accessor : bool) : AResult (string * SecretId) :=
  let? _ := reject_unknown body (if by_accessor then ["secret_id_accessor"] else ["secret_id"]) in
  let? id :=
    if by_accessor then
      let? wanted := string_field body "secret_id_accessor" in
      ok_or (find (λ id, match Role.secret_ids role !! id with
                         | Some s => bool_decide (SecretId.accessor s = wanted) | None => false end)
               (btree_keys (Role.secret_ids role))) (err 404 "secret_id not found")
    else
      let? raw := string_field body "secret_id" in Ok (hash raw) in
  let? secret := ok_or (Role.secret_ids role !! id) (err 404 "secret_id not found") in
  Ok (id, secret).

Definition role_id_taken (self : AuthState) scope (name value : string) : bool :=
  match roles_at self scope with
  | Some roles => existsb (λ kv, negb (bool_decide (kv.1 = name)) && bool_decide (Role.role_id kv.2 = value)) (map_to_list roles)
  | None => false
  end.

Definition role_operation rng scope (name operation capability : string) (role : Role) (body : Value) (now : N) :
  M AuthState AuthError AuthResponse :=
  if bool_decide (operation = "role-id") && bool_decide (capability = "read") then
    mret (response (Json.object [("role_id", VString (Role.role_id role))]) false)
  else if bool_decide (operation = "role-id") && bool_decide (capability = "update") then
    do? _ := lift (reject_unknown body ["role_id"]) in
    do? value := lift (string_field body "role_id") in
    do? taken := mpure (λ self, Ok (role_id_taken self scope name value)) in
    do? _ := guard (negb (bool_decide (value = "") || (256 <? String.length value) || taken))
               (bad "invalid or duplicate role_id") in
    do? _ := modify (insert_role scope name (set_role_id value role)) in
    mret (empty true)
  else if bool_decide (operation = "secret-id") && bool_decide (capability = "list") then
    mret (response (Json.object [("keys", VArray (VString <$> (SecretId.accessor <$>
      filter (λ s, Is_true (secret_usable now s)) (btree_values (Role.secret_ids role)))))]) false)
  else if bool_decide (operation = "secret-id") && bool_decide (capability = "update") then
    do? rr := lift (new_secret rng role body now) in
    do? _ := modify (insert_role scope name rr.1) in
    mret rr.2
  else if one_of operation ["secret-id/lookup"; "secret-id-accessor/lookup"; "secret-id/destroy";
                            "secret-id-accessor/destroy"] && bool_decide (capability = "update") then
    do? found := lift (target_secret role body (has_prefix "secret-id-accessor/" operation)) in
    let '(id, secret) := found in
    if one_of operation ["secret-id/lookup"; "secret-id-accessor/lookup"] then
      mret (response (Json.object [("secret_id_accessor", VString (SecretId.accessor secret));
        ("secret_id_num_uses", Json.u64 (default 0%N (SecretId.uses_remaining secret)));
        ("expiration_time_unix", opt_json (SecretId.expires_at secret))]) false)
    else
      do? _ := modify (insert_role scope name (set_secret_ids (delete id (Role.secret_ids role)) role)) in
      mret (empty true)
  else mfail (err 404 "unsupported AppRole operation").

Definition role_route rng principal scope (method path : string) (body : Value) (now : N) :
  M AuthState AuthError AuthResponse :=
  do? suffix := lift (ok_or (strip_prefix ("auth/" +:+ scope_mount scope +:+ "/role") path) (bad "invalid role route")) in
  let suffix := trim_start_matches "/" suffix in
  let '(name, operation) := default (suffix, "") (split_once "/" suffix) in
  do? capability := lift (route_capability method
    (bool_decide (suffix = "") || (bool_decide (operation = "secret-id") && bool_decide (method = "LIST")))) in
  do? actor := mpure (λ self, permission self principal (scope_namespace scope) path capability now) in
  if bool_decide (name = "") && bool_decide (capability = "list") then
    mpure (λ self, Ok (response (keys_json (roles_at self scope)) false))
  else
  do? _ := guard (valid_name name) (bad "invalid role name") in
  do? existing := mpure (λ self, Ok (roles_at self scope ≫= (λ roles, roles !! name))) in
  if bool_decide (operation = "") then
    if bool_decide (capability = "read") then
      do? role := lift (ok_or existing (err 404 "role not found")) in
      mret (response (role_json role) false)
    else if bool_decide (capability = "delete") then
      do? _ := modify (update_roles_at scope (delete name)) in
      mret (empty true)
    else
      do? _ := guard (bool_decide (capability = "update")) (err 405 "method not allowed") in
      do? role := lift (updated_role rng actor existing body) in
      do? _ := modify (insert_role scope name role) in
      mret (empty true)
  else
    do? role := lift (ok_or existing (err 404 "role not found")) in
    role_operation rng scope name operation capability role body now.

(** One use of a secret. *)
Definition use_secret (role : Role) (id : string) (now : N) : AResult Role :=
  let? secret := ok_or (Role.secret_ids role !! id) denied in
  if negb (secret_usable now secret) then Err denied
  else
    let uses := match SecretId.uses_remaining secret with Some n => Some (n - 1)%N | None => None end in
    Ok (set_secret_ids (<[id := SecretId.mk (SecretId.accessor secret) (SecretId.expires_at secret) uses]>
                          (Role.secret_ids role)) role).

Definition find_role (self : AuthState) scope (role_id : string) : option (string * Role) :=
  roles_at self scope ≫= (λ roles,
    find (λ kr, bool_decide (Role.role_id kr.2 = role_id))
      (omap (λ name, (λ r, (name, r)) <$> roles !! name) (btree_keys roles))).

Definition login_approle rng scope (method : string) (body : Value) (now : N) : M AuthState AuthError AuthResponse :=
  do? _ := guard (one_of method ["POST"; "PUT"]) (err 405 "method not allowed") in
  do? _ := lift (reject_unknown body ["role_id"; "secret_id"]) in
  do? role_id := lift (string_field body "role_id") in
  do? secret_id := lift (string_field body "secret_id") in
  do? _ := guard ((String.length role_id <=? 256) && (String.length secret_id <=? 256)) denied in
  do? nr := mpure (λ self, ok_or (find_role self scope role_id) denied) in
  let '(name, role) := nr in
  do? role := lift (use_secret role (hash secret_id) now) in
  do? token := lift (login_token rng 0 (scope_namespace scope) (Role.policies role) (Role.token_ttl role)
                       (Role.token_max_ttl role) (Role.token_num_uses role) ("approle-" +:+ name) now) in
  do? issued := issue rng 1 (AuthToken.set_mount (Some (scope_mount scope)) token) now in
  do? _ := modify (insert_role scope name role) in
  mret issued.

Definition tidy_secret_ids principal scope (method path : string) (body : Value) (now : N) :
  M AuthState AuthError AuthResponse :=
  do? _ := guard (one_of method ["POST"; "PUT"]) (err 405 "method not allowed") in
  do? _ := lift (reject_unknown body []) in
  do? actor := mpure (λ self, permission self principal (scope_namespace scope) path "update" now) in
  do? _ := mpure (λ self, authorize_request self actor (scope_namespace scope) path "sudo" now) in
  λ self,
  let keep := λ role, set_secret_ids (filter (λ kv, Is_true (secret_usable now kv.2)) (Role.secret_ids role)) role in
  let removed := map_fold (λ _ role n, n + (size (Role.secret_ids role) - size (Role.secret_ids (keep role))))%nat 0
                   (default ∅ (roles_at self scope)) in
  (update_roles_at scope (fmap keep) self,
   Ok (response (Json.object [("removed_secret_ids", Json.u64 (N.of_nat removed))]) (0 <? removed))).

(** * External identities *)
Definition admit_external_replay scope (fingerprint : string) (expires_at now : N) : M AuthState AuthError unit := λ self,
  let self := update_jwt_at scope id self in
  let state := default JwtMountState.default (jwt_at self scope) in
  if (expires_at <=? now)%N || (now <? JwtMountState.last_admission_time state)%N then (self, Err denied)
  else if match JwtMountState.replay state !! fingerprint with Some expiry => (now <? expiry)%N | None => false end
  then (self, Err denied)
  else if MAX_EXTERNAL_REPLAY_ENTRIES <=? size (filter (λ kv, (now < kv.2)%N) (JwtMountState.replay state))
  then (self, Err (err 503 "external replay registry capacity exhausted"))
  else
    let retained := filter (λ kv, (now < kv.2)%N) (JwtMountState.replay state) in
    (update_jwt_at scope (λ st, JwtMountState.mk (JwtMountState.config st) (JwtMountState.roles st)
        (JwtMountState.identities st) (<[fingerprint := expires_at]> retained) now) self, Ok tt).

(** The keys of a verifier, in the order of their identifiers. *)
Fixpoint verification_keys (keys : list (string * JwtKeyRecord.t)) : AResult (list VerificationKey) :=
  match keys with
  | [] => Ok []
  | (key_id, record) :: keys =>
      let? algorithm :=
        if bool_decide (JwtKeyRecord.algorithm record = "EdDSA") then Ok Ed25519
        else if bool_decide (JwtKeyRecord.algorithm record = "ES256") then Ok Es256
        else Err (bad "unsupported JWT algorithm") in
      let? key := map_err (λ _, bad "invalid JWT verification key")
                    (VerificationKey.new key_id algorithm (JwtKeyRecord.bytes record)) in
      let? rest := verification_keys keys in
      Ok (key :: rest)
  end.

(** [JwtConfig::verifier]. *)
Definition verifier (c : JwtConfig) : AResult JwtVerifier :=
  let? policy := map_err (λ _, bad "invalid JWT trust policy")
    (TrustPolicy.new (JwtConfig.issuer c) (JwtConfig.audiences c)
       (match JwtConfig.required_namespace c with
        | Some value => if bool_decide (value = "") then None else Some value
        | None => None
        end) (JwtConfig.clock_skew_seconds c) (JwtConfig.maximum_token_lifetime_seconds c)) in
  let? keys := verification_keys
    (omap (λ kid, (λ k, (kid, k)) <$> JwtConfig.keys c !! kid) (btree_keys (JwtConfig.keys c))) in
  map_err (λ _, bad "invalid JWT verifier configuration") (JwtVerifier.new policy keys).

(** The role's bindings against the verified claims. *)
Definition bindings_refuse (role : JwtRole) (verified : VerifiedPrincipal) (namespace : string) : bool :=
  negb (bool_decide (default "" (VerifiedPrincipal.namespace verified) = namespace))
  || negb (bool_decide (JwtRole.bound_groups role ⊆ VerifiedPrincipal.groups verified))
  || match JwtRole.bound_subject role with
     | Some subject => negb (bool_decide (subject = VerifiedPrincipal.subject verified))
     | None => false
     end
  || (negb (bool_decide (JwtRole.bound_audiences role = ∅))
      && bool_decide (JwtRole.bound_audiences role ∩ VerifiedPrincipal.audiences verified = ∅))
  || bool_decide ("root" ∈ JwtRole.policies role).

(** [display_hash.get(..16).unwrap_or(display_hash)]. *)
Definition first16 (s : string) : string := if String.length s <? 16 then s else String.substring 0 16 s.

(** The token a verified identity receives, bounded by the identity's own expiry. *)
Definition jwt_token rng scope (role : JwtRole) (verified : VerifiedPrincipal) (now : N) : AResult AuthToken :=
  let remaining := (VerifiedPrincipal.expires_at verified - now)%N in
  if (remaining =? 0)%N then Err denied
  else
    let ttl := N.max (N.min (JwtRole.token_ttl role) remaining) 1 in
    let max_ttl := N.max (N.min (JwtRole.token_max_ttl role) remaining) ttl in
    let? accessor := random_id rng 0 "a." in
    let? expires_at := checked_expiry now ttl in
    let? max_expires_at := checked_expiry now max_ttl in
    Ok (AuthToken.mk accessor (scope_namespace scope) (JwtRole.policies role) false None now (Some expires_at)
          (Some max_expires_at) 0 true (unlimited_zero (JwtRole.token_num_uses role))
          ("jwt-" +:+ first16 (hash (VerifiedPrincipal.subject verified))) (Some (scope_mount scope)) true).

Definition add_identity (key : string) (i : ExternalIdentity) (st : JwtMountState) : JwtMountState :=
  JwtMountState.mk (JwtMountState.config st) (JwtMountState.roles st) (<[key := i]> (JwtMountState.identities st))
    (JwtMountState.replay st) (JwtMountState.last_admission_time st).

Definition jwt_login rng scope (method : string) (body : Value) (now : N) : M AuthState AuthError AuthResponse :=
  do? _ := guard (one_of method ["POST"; "PUT"]) (err 405 "method not allowed") in
  do? _ := lift (reject_unknown body ["role"; "jwt"]) in
  do? role_name := lift (string_field body "role") in
  do? _ := guard (valid_name role_name) (bad "invalid JWT role name") in
  do? jwt := lift (string_field body "jwt") in
  do? config := mpure (λ self, ok_or (jwt_at self scope ≫= JwtMountState.config) (err 503 "JWT auth is not configured")) in
  do? role := mpure (λ self, ok_or (jwt_at self scope ≫= (λ st, JwtMountState.roles st !! role_name)) denied) in
  do? v := lift (verifier config) in
  do? verified := lift (map_err (λ _, denied) (JwtVerifier.verify v jwt now)) in
  do? _ := guard (negb (bindings_refuse role verified (scope_namespace scope))) denied in
  do? token := lift (jwt_token rng scope role verified now) in
  let identity_key := hash (VerifiedPrincipal.issuer verified +:+ String (ascii_of_N 0) (VerifiedPrincipal.subject verified)) in
  let identity := ExternalIdentity.mk (VerifiedPrincipal.issuer verified) (VerifiedPrincipal.subject verified)
                    (scope_namespace scope) (VerifiedPrincipal.groups verified) now in
  do? issued := lift (prepare_issue rng 1 token now) in
  let '(token_id, token, response) := issued in
  do? _ := admit_external_replay scope (base64url_encode (VerifiedPrincipal.replay_fingerprint verified))
             (VerifiedPrincipal.expires_at verified) now in
  do? _ := modify (update_jwt_at scope (add_identity identity_key identity)) in
  do? _ := modify (store_token token_id token) in
  mret response.

(** The keys of a JWT configuration. *)
Fixpoint jwt_keys (values : list Value) (keys : gmap string JwtKeyRecord.t) : AResult (gmap string JwtKeyRecord.t) :=
  match values with
  | [] => Ok keys
  | value :: values =>
      let? _ := reject_unknown value ["kid"; "algorithm"; "key_base64"] in
      let? kid := string_field value "kid" in
      if bool_decide (kid = "") || (1024 <? String.length kid) || has_control kid || bool_decide (is_Some (keys !! kid))
      then Err (bad "invalid or duplicate JWT key id")
      else
      let? algorithm := string_field value "algorithm" in
      if negb (one_of algorithm ["EdDSA"; "ES256"]) then Err (bad "unsupported JWT algorithm")
      else
      let? encoded := string_field value "key_base64" in
      let? bytes := ok_or (base64_decode encoded) (bad "invalid JWT key encoding") in
      if (length bytes =? 0) || (16384 <? N.of_nat (length bytes))%N then Err (bad "JWT key is outside bounds")
      else jwt_keys values (<[kid := JwtKeyRecord.mk algorithm bytes]> keys)
  end.

Definition new_jwt_config (namespace : string) (body : Value) : AResult JwtConfig :=
  let? _ := reject_unknown body ["issuer"; "audiences"; "required_namespace"; "clock_skew_seconds";
                                 "maximum_token_lifetime_seconds"; "keys"] in
  let? issuer := string_field body "issuer" in
  let? audiences := claim_values body "audiences" in
  let? required_namespace := match Json.get body "required_namespace" with
                             | Some v => map_ok Some (ok_or (Json.as_str v) (bad "required_namespace must be a string"))
                             | None => Ok None
                             end in
  if match required_namespace with Some value => negb (bool_decide (value = namespace)) | None => false end
  then Err (bad "required_namespace must equal the configured auth namespace")
  else
  let? skew := number body "clock_skew_seconds" 30 in
  let? lifetime := number body "maximum_token_lifetime_seconds" 3600 in
  let? key_values := ok_or (match Json.get body "keys" with Some v => Json.as_array v | None => None end)
                       (bad "JWT keys must be an array") in
  if (length key_values =? 0) || (64 <? length key_values) then Err (bad "JWT key count is outside bounds")
  else
  let? keys := jwt_keys key_values ∅ in
  let config := JwtConfig.mk issuer audiences required_namespace skew lifetime keys in
  let? _ := verifier config in
  Ok config.

Definition config_json (c : JwtConfig) : Value :=
  Json.object [("issuer", VString (JwtConfig.issuer c)); ("audiences", set_json (JwtConfig.audiences c));
    ("required_namespace", match JwtConfig.required_namespace c with Some n => VString n | None => Null end);
    ("clock_skew_seconds", Json.u64 (JwtConfig.clock_skew_seconds c));
    ("maximum_token_lifetime_seconds", Json.u64 (JwtConfig.maximum_token_lifetime_seconds c));
    ("keys", VArray (omap (λ kid, (λ k, Json.object [("kid", VString kid); ("algorithm", VString (JwtKeyRecord.algorithm k))])
                                    <$> JwtConfig.keys c !! kid) (btree_keys (JwtConfig.keys c))))].

Definition set_config (c : JwtConfig) (st : JwtMountState) : JwtMountState :=
  JwtMountState.mk (Some c) (JwtMountState.roles st) (JwtMountState.identities st) (JwtMountState.replay st)
    (JwtMountState.last_admission_time st).
Definition set_jwt_roles (r : gmap string JwtRole) (st : JwtMountState) : JwtMountState :=
  JwtMountState.mk (JwtMountState.config st) r (JwtMountState.identities st) (JwtMountState.replay st)
    (JwtMountState.last_admission_time st).

Definition jwt_config_route principal scope (method : string) (body : Value) (now : N) :
  M AuthState AuthError AuthResponse :=
  let path := "auth/" +:+ scope_mount scope +:+ "/config" in
  if bool_decide (method = "GET") then
    do? _ := mpure (λ self, permission self principal (scope_namespace scope) path "read" now) in
    do? _ := lift (reject_unknown body []) in
    do? config := mpure (λ self, ok_or (jwt_at self scope ≫= JwtMountState.config) (err 404 "JWT auth is not configured")) in
    mret (response (config_json config) false)
  else if one_of method ["POST"; "PUT"] then
    do? _ := mpure (λ self, mount_admin self principal (scope_namespace scope) path now) in
    do? config := lift (new_jwt_config (scope_namespace scope) body) in
    do? mutated := mpure (λ self, Ok (negb (bool_decide (jwt_at self scope ≫= JwtMountState.config = Some config)))) in
    do? _ := modify (update_jwt_at scope (set_config config)) in
    mret (empty mutated)
  else mfail (err 405 "method not allowed").

Definition new_jwt_role (actor : Principal) (body : Value) : AResult JwtRole :=
  let? _ := reject_unknown body ["bound_groups"; "bound_subject"; "bound_audiences"; "policies"; "token_policies";
                                 "token_ttl"; "token_max_ttl"; "token_num_uses"] in
  let? bound_groups := claim_values body "bound_groups" in
  let? bound_audiences := claim_values body "bound_audiences" in
  let? bound_subject :=
    match Json.get body "bound_subject" with
    | None => Ok None
    | Some v => match Json.as_str v with
                | Some s => if negb (bool_decide (s = "")) && (String.length s <=? 1024) && negb (has_control s)
                            then Ok (Some s) else Err (bad "invalid bound subject")
                | None => Err (bad "invalid bound subject")
                end
    end in
  let? _ := reject_alias_pair body "policies" "token_policies" in
  let? pols := Auth.policies body (alias body "token_policies" "policies") ∅ true in
  let? _ := validate_assignment actor pols in
  let? ttl := duration body "token_ttl" DEFAULT_TTL in
  let? max_ttl := duration body "token_max_ttl" ttl in
  let? uses := number body "token_num_uses" 0 in
  if (ttl =? 0)%N || (MAX_TTL <? ttl)%N || (max_ttl <? ttl)%N || (MAX_TTL <? max_ttl)%N
  then Err (bad "JWT role token TTL is outside bounds")
  else Ok (JwtRole.mk bound_groups bound_subject bound_audiences pols ttl max_ttl uses).

Definition jwt_role_json (r : JwtRole) : Value :=
  Json.object [("bound_groups", set_json (JwtRole.bound_groups r));
    ("bound_subject", match JwtRole.bound_subject r with Some s => VString s | None => Null end);
    ("bound_audiences", set_json (JwtRole.bound_audiences r)); ("policies", set_json (JwtRole.policies r));
    ("token_ttl", Json.u64 (JwtRole.token_ttl r)); ("token_max_ttl", Json.u64 (JwtRole.token_max_ttl r));
    ("token_num_uses", Json.u64 (JwtRole.token_num_uses r))].

Definition jwt_roles (self : AuthState) scope : gmap string JwtRole :=
  match jwt_at self scope with Some st => JwtMountState.roles st | None => ∅ end.

Definition jwt_role_route principal scope (method name : string) (body : Value) (now : N) :
  M AuthState AuthError AuthResponse :=
  let path := "auth/" +:+ scope_mount scope +:+ "/role/" +:+ name in
  if bool_decide (method = "GET") then
    do? _ := mpure (λ self, permission self principal (scope_namespace scope) path "read" now) in
    do? _ := lift (reject_unknown body []) in
    do? role := mpure (λ self, ok_or (jwt_roles self scope !! name) (err 404 "JWT role not found")) in
    mret (response (jwt_role_json role) false)
  else if one_of method ["POST"; "PUT"] then
    do? actor := mpure (λ self, permission self principal (scope_namespace scope) path "update" now) in
    do? _ := mpure (λ self, authorize_request self actor (scope_namespace scope) path "sudo" now) in
    do? role := lift (new_jwt_role actor body) in
    do? mutated := mpure (λ self, Ok (negb (bool_decide (jwt_roles self scope !! name = Some role)))) in
    do? _ := modify (update_jwt_at scope (λ st, set_jwt_roles (<[name := role]> (JwtMountState.roles st)) st)) in
    mret (empty mutated)
  else if bool_decide (method = "DELETE") then
    do? _ := mpure (λ self, mount_admin self principal (scope_namespace scope) path now) in
    do? _ := lift (reject_unknown body []) in
    do? removed := mpure (λ self, Ok (bool_decide (is_Some (jwt_roles self scope !! name)))) in
    do? _ := modify (update_jwt_at scope (λ st, set_jwt_roles (delete name (JwtMountState.roles st)) st)) in
    do? _ := guard removed (err 404 "JWT role not found") in
    mret (empty true)
  else mfail (err 405 "method not allowed").

Definition jwt_route rng principal scope (method path : string) (body : Value) (now : N) :
  M AuthState AuthError AuthResponse :=
  let base := "auth/" +:+ scope_mount scope in
  if bool_decide (path = base +:+ "/config") then jwt_config_route principal scope method body now
  else if bool_decide (path = base +:+ "/login") then jwt_login rng scope method body now
  else if bool_decide (path = base +:+ "/role") then
    do? _ := guard (one_of method ["GET"; "LIST"]) (err 405 "method not allowed") in
    do? _ := mpure (λ self, permission self principal (scope_namespace scope) path "list" now) in
    do? _ := lift (reject_unknown body []) in
    mpure (λ self, Ok (response (keys_json (JwtMountState.roles <$> jwt_at self scope)) false))
  else match strip_prefix (base +:+ "/role/") path with
  | Some name =>
      do? _ := guard (valid_name name) (bad "invalid JWT role name") in
      jwt_role_route principal scope method name body now
  | None => mfail (err 404 "JWT auth path is not implemented")
  end.

(** * Dispatch *)

(** The mount that owns a path below [auth/]: the first, in key order. *)
Definition find_auth_mount (mounts : gmap string AuthMount) (auth_path : string) : option (string * AuthMount * string) :=
  head (omap (λ mount, match mounts !! mount, strip_prefix (mount +:+ "/") auth_path with
                       | Some entry, Some suffix => Some (mount, entry, suffix)
                       | _, _ => None
                       end) (btree_keys mounts)).

Definition mount_request rng principal (namespace method path mount kind suffix : string) (body : Value) (now : N) :
  M AuthState AuthError AuthResponse :=
  let scope := mk_scope namespace mount in
  if bool_decide (kind = "token") && bool_decide (mount = "token") then
    token_route rng principal namespace method path body now
  else if bool_decide (kind = "userpass") && has_prefix "login/" suffix then
    login_userpass rng scope method (after_prefix "login/" suffix) body now
  else if bool_decide (kind = "userpass") && (bool_decide (suffix = "users") || has_prefix "users/" suffix) then
    user_route rng principal scope method path body now
  else if bool_decide (kind = "approle") && bool_decide (suffix = "login") then
    login_approle rng scope method body now
  else if bool_decide (kind = "approle") && bool_decide (suffix = "tidy/secret-id") then
    tidy_secret_ids principal scope method path body now
  else if bool_decide (kind = "approle") && (bool_decide (suffix = "role") || has_prefix "role/" suffix) then
    role_route rng principal scope method path body now
  else if bool_decide (kind = "jwt") then jwt_route rng principal scope method path body now
  else mfail (err 404 "unsupported auth route").

Definition handle rng principal (namespace method path : string) (body : Value) (now : N) :
  M AuthState AuthError (option AuthResponse) :=
  do? _ := lift (validate_namespace namespace) in
  do? _ := lift (validate_path path false) in
  let some := λ m : M AuthState AuthError AuthResponse, do? r := m in mret (Some r) in
  if bool_decide (path = "sys/auth") || has_prefix "sys/auth/" path then
    some (auth_mount_route principal namespace method path body now)
  else match strip_prefix "auth/" path with
  | Some auth_path =>
      do? found := mpure (λ self, ok_or (find_auth_mount (effective_auth_mounts self namespace) auth_path)
                                    (err 404 "auth mount not found")) in
      let '(mount, entry, suffix) := found in
      some (mount_request rng principal namespace method path mount (AuthMount.kind entry) suffix body now)
  | None =>
      if bool_decide (path = "sys/policies/acl") || has_prefix "sys/policies/acl/" path
         || bool_decide (path = "sys/policy") || has_prefix "sys/policy/" path
      then some (policy_route principal namespace method path body now)
      else mret None
  end.
End login.
End AuthLogin.
