(* ===== verification/AclSpec.v ===== *)
(** The meaning of ACL patterns and of an authorization decision, and the
    correctness of the policy parser on printed policies. *)
From Stdlib Require Import Ascii NArith.
From S2P Require Import Prelude Str Json Engine Gf256 EngineState EngineStateSpec Acl AuthState.
Import Auth.

(** * Patterns *)

(** A pattern segment against a path segment. *)
Definition segment_matches (pat seg : string) : Prop := if decide (pat = "+") then seg ≠ "" else seg = pat.

(** The last segment of a pattern that ends in a star. *)
Definition open_matches (pat seg : string) : Prop :=
  if decide (pat = "+") then seg ≠ "" else ∃ rest, seg = pat +:+ rest.

(** What a pattern denotes: without a star, all segments match one by one; with
    one, the last segment is a prefix and any segments may follow. *)
Definition pattern_denotes (pattern path : string) : Prop :=
  match strip_suffix_char "*" pattern with
  | None => Forall2 segment_matches (split "/" pattern) (split "/" path)
  | Some p => ∃ pats pat segs seg rest,
      split "/" p = pats ++ [pat] ∧ split "/" path = segs ++ seg :: rest ∧
      Forall2 segment_matches pats segs ∧ open_matches pat seg
  end.

Lemma match_parts_exact pats segs :
  length pats = length segs → match_parts false pats segs = true ↔ Forall2 segment_matches pats segs.
Proof.
  revert segs. induction pats as [|p pats IH]; intros [|s segs] Hlen; try done; simpl.
  rewrite Forall2_cons, <- IH by (simpl in Hlen; lia). unfold segment_matches.
  repeat case_bool_decide; case_decide; naive_solver.
Qed.

Lemma match_parts_open pats pat segs :
  match_parts true (pats ++ [pat]) segs = true ↔
  ∃ qs seg rest, segs = qs ++ seg :: rest ∧ Forall2 segment_matches pats qs ∧ open_matches pat seg.
Proof.
  revert segs. induction pats as [|p pats IH]; intros segs.
  - destruct segs as [|s segs]; simpl.
    { split; [done|]. intros ([|] & ? & ? & ? & _); done. }
    split.
    + intros Hm. exists [], s, segs. split; [done|]. split; [constructor|]. unfold open_matches.
      repeat case_bool_decide; case_decide; try done. by apply has_prefix_spec.
    + intros ([|] & seg & rest & [= -> ->] & Hq & Ho); [|by inversion Hq]. unfold open_matches in Ho.
      case_bool_decide; case_decide; try done; [by rewrite bool_decide_false|]. by apply has_prefix_spec.
  - destruct segs as [|s segs]; cbn [app match_parts].
    { split; [done|]. intros ([|] & ? & ? & ? & _); done. }
    rewrite (bool_decide_false (pats ++ [pat] = [])) by (by destruct pats). cbn [andb].
    trans (segment_matches p s ∧ match_parts true (pats ++ [pat]) segs = true).
    { unfold segment_matches. repeat case_bool_decide; case_decide; naive_solver. }
    rewrite IH. split.
    + intros (Hs & qs & seg & rest & -> & Hq & Ho). exists (s :: qs), seg, rest. split; [done|].
      split; [by constructor|done].
    + intros ([|q qs] & seg & rest & E & Hq & Ho); [by inversion Hq|].
      injection E as <- ->. apply Forall2_cons in Hq as [Hs Hq]. split; [done|]. by exists qs, seg, rest.
Qed.

Lemma path_matches_spec pattern path : path_matches pattern path = true ↔ pattern_denotes pattern path.
Proof.
  unfold path_matches, pattern_denotes. destruct (strip_suffix_char "*" pattern) as [p|]; cbn [negb andb].
  - destruct (exists_last (split_nonempty "/" p)) as (pats & pat & E). change (default pattern (Some p)) with p.
    rewrite E. destruct (Nat.ltb_spec (length (split "/" path)) (length (pats ++ [pat]))) as [Hlt|Hge].
    + split; [discriminate|]. intros (pats' & pat' & segs & seg & rest & [-> ->]%app_inj_tail & E2 & Hf & _).
      rewrite E2 in Hlt. rewrite !length_app in Hlt. simpl in Hlt. apply Forall2_length in Hf. lia.
    + rewrite match_parts_open. split.
      * intros (qs & seg & rest & ? & ? & ?). by exists pats, pat, qs, seg, rest.
      * intros (pats' & pat' & segs & seg & rest & [-> ->]%app_inj_tail & ? & ? & ?). by exists segs, seg, rest.
  - change (default pattern None) with pattern.
    destruct (Nat.eqb_spec (length (split "/" pattern)) (length (split "/" path))) as [Heq|Hne]; simpl.
    + destruct (Nat.ltb_spec (length (split "/" path)) (length (split "/" pattern))); [lia|].
      by apply match_parts_exact.
    + split; [done|]. by intros Hf%Forall2_length.
Qed.

(** * Decisions *)
Section decision.
Context (entries : option (gmap string AclPolicy)).

(** A rule of one of the named policies that covers the path. *)
Definition covers (pols : gset string) (path : string) (r : Rule) : Prop :=
  ∃ name policy, name ∈ pols ∧ entries ≫= (λ e, e !! name) = Some policy ∧
    r ∈ AclPolicy.rules policy ∧ pattern_denotes (Rule.path r) path.

(** The built-in [default] policy applies unless the namespace redefines it. *)
Definition builtin_grants (pols : gset string) (path capability : string) : Prop :=
  "default" ∈ pols ∧ entries ≫= (λ e, e !! "default") = None ∧ default_grants path capability = true.

(** Deny overrides; otherwise some covering rule or the built-in policy grants. *)
Definition acl_allows (pols : gset string) (path capability : string) : Prop :=
  (∀ r, covers pols path r → "deny" ∉ Rule.capabilities r) ∧
  ((∃ r, covers pols path r ∧ capability ∈ Rule.capabilities r) ∨ builtin_grants pols path capability).

Definition covering (rules : list Rule) (path : string) : list Rule :=
  filter (λ r, path_matches (Rule.path r) path = true) rules.

Lemma scan_rules_spec rules path capability granted :
  AuthState.scan_rules rules path capability granted =
  if decide (Exists (λ r, "deny" ∈ Rule.capabilities r) (covering rules path)) then None
  else Some (granted || bool_decide (Exists (λ r, capability ∈ Rule.capabilities r) (covering rules path))).
Proof.
  unfold covering. revert granted. induction rules as [|r rules IH]; intros granted; cbn [AuthState.scan_rules].
  { assert (∀ P : Rule → Prop, ¬ Exists P []) as Hnil by (intros P HP; inversion HP).
    rewrite decide_False by apply Hnil. rewrite bool_decide_false by apply Hnil. by rewrite orb_false_r. }
  rewrite filter_cons. destruct (path_matches (Rule.path r) path) eqn:Hm; simpl.
  2: apply IH.
  destruct (decide ("deny" ∈ Rule.capabilities r)) as [Hd|Hd].
  { rewrite bool_decide_true by done. rewrite decide_True; [done|]. by apply Exists_cons_hd. }
  rewrite bool_decide_false by done. rewrite IH.
  destruct (decide (Exists _ _)) as [He|He].
  { rewrite decide_True; [done|]. rewrite Exists_cons. by right. }
  rewrite decide_False by (rewrite Exists_cons; tauto). f_equal. rewrite <- orb_assoc. f_equal.
  apply eq_true_iff_eq. rewrite orb_true_iff, !bool_decide_eq_true, Exists_cons. done.
Qed.

Definition listed (names : list string) (path : string) (r : Rule) : Prop :=
  ∃ name policy, name ∈ names ∧ entries ≫= (λ e, e !! name) = Some policy ∧ r ∈ covering (AclPolicy.rules policy) path.

Definition listed_builtin (names : list string) (path capability : string) : Prop :=
  "default" ∈ names ∧ entries ≫= (λ e, e !! "default") = None ∧ default_grants path capability = true.

(** Adding a name to the list adds the rules of its policy. *)
Lemma listed_cons name names path r :
  listed (name :: names) path r ↔
  (∃ policy, entries ≫= (λ e, e !! name) = Some policy ∧ r ∈ covering (AclPolicy.rules policy) path)
  ∨ listed names path r.
Proof. unfold listed. setoid_rewrite elem_of_cons. naive_solver. Qed.

Lemma scan_policies_spec names path capability granted :
  AuthState.scan_policies entries names path capability granted = Some true ↔
  (∀ r, listed names path r → "deny" ∉ Rule.capabilities r) ∧
  (granted = true ∨ (∃ r, listed names path r ∧ capability ∈ Rule.capabilities r)
   ∨ listed_builtin names path capability).
Proof.
  revert granted. induction names as [|name names IH]; intros granted; cbn [AuthState.scan_policies].
  { unfold listed, listed_builtin. split.
    - intros [= ->]. split; [|by left]. by intros r (? & ? & ?%elem_of_nil & _).
    - intros [_ [-> | [(r & (? & ? & ?%elem_of_nil & _) & _)|(?%elem_of_nil & _)]]]; done. }
  setoid_rewrite listed_cons. destruct (entries ≫= (λ e, e !! name)) as [policy|] eqn:Hpol.
  - rewrite scan_rules_spec. case_decide as Hdeny.
    { split; [done|]. intros [Hd _]. exfalso. apply Exists_exists in Hdeny as (r & Hr & Hd').
      apply (Hd r); [|done]. left. eauto. }
    rewrite IH. setoid_rewrite Exists_exists in Hdeny.
    rewrite orb_true_iff, bool_decide_eq_true, Exists_exists.
    assert (listed_builtin (name :: names) path capability ↔ listed_builtin names path capability) as ->.
    { unfold listed_builtin. rewrite elem_of_cons. naive_solver. }
    split.
    + intros [Hd Hg]. split.
      * intros r [(p & [= <-] & Hr)|Hr]; [|by apply Hd]. intros ?. apply Hdeny. eauto.
      * destruct Hg as [[?|(r & Hr & ?)]|[(r & Hr & ?)|?]]; [by left|right; left; exists r; split; [left|]; eauto
          |right; left; exists r; split; [by right|done]|by right; right].
    + intros [Hd Hg]. split; [by intros r ?; apply Hd; right|].
      destruct Hg as [?|[(r & [(p & [= <-] & Hr)|Hr] & ?)|?]]; [by left; left|left; right; eauto|right; left; eauto|by right; right].
  - rewrite IH.
    assert ((if bool_decide (name = "default") && default_grants path capability then true else granted) = true ↔
            granted = true ∨ (name = "default" ∧ default_grants path capability = true)) as ->.
    { case_bool_decide; destruct (default_grants path capability); simpl; naive_solver. }
    assert (listed_builtin (name :: names) path capability ↔
            (name = "default" ∧ default_grants path capability = true) ∨ listed_builtin names path capability) as ->.
    { unfold listed_builtin. rewrite elem_of_cons. split; [naive_solver|].
      intros [[-> ?]|(?&?&?)]; naive_solver. }
    naive_solver.
Qed.

Lemma listed_covers (pols : gset string) path r : listed (btree_elems pols) path r ↔ covers pols path r.
Proof.
  unfold listed, covers, covering. setoid_rewrite elem_of_btree_elems.
  setoid_rewrite list_elem_of_filter. setoid_rewrite path_matches_spec. naive_solver.
Qed.

Lemma scan_policies_allows (pols : gset string) path capability :
  AuthState.scan_policies entries (btree_elems pols) path capability false = Some true ↔
  acl_allows pols path capability.
Proof.
  rewrite scan_policies_spec. unfold acl_allows, listed_builtin, builtin_grants.
  setoid_rewrite listed_covers. rewrite elem_of_btree_elems. naive_solver.
Qed.
End decision.

(** C30: An authorization decision is exactly the ACL semantics.  A request is
    allowed if and only if its path is a valid request path, the capability is a
    known one other than [deny], the principal's token is active in the
    namespace, and the token is root or its policies allow the path: no covering
    rule of any of its policies denies, and some covering rule grants the
    capability (or the built-in default policy does).  Covering is the segment-wise
    meaning of patterns, so the decision does not depend on the order of rules or
    policies. *)
Theorem acl_decision `{AuthCrypto} (s : AuthState) (principal : Principal) (namespace path capability : string) (now : N) :
  AuthState.authorize_request s principal namespace path capability now = Ok tt ↔
  validate_path path false = Ok tt ∧ capability ∈ CAPABILITIES ∧ capability ≠ "deny" ∧
  ∃ token, AuthState.check_principal s principal namespace now = Ok token ∧
    (AuthToken.root token = true ∨
     acl_allows (AuthState.policies s !! namespace) (AuthToken.policies token) path capability).
Proof.
  unfold AuthState.authorize_request. destruct (validate_path path false) as [[]|e]; [|naive_solver].
  destruct (bool_decide (capability ∈ CAPABILITIES)) eqn:Hc; [|apply bool_decide_eq_false in Hc; naive_solver].
  apply bool_decide_eq_true in Hc. case_bool_decide as Hd; [naive_solver|].
  destruct (AuthState.check_principal s principal namespace now) as [token|e]; [|naive_solver]. simpl.
  pose proof (scan_policies_allows (AuthState.policies s !! namespace) (AuthToken.policies token) path capability) as Hs.
  transitivity (AuthToken.root token = true ∨
     acl_allows (AuthState.policies s !! namespace) (AuthToken.policies token) path capability).
  - rewrite <- Hs. destruct (AuthToken.root token); [naive_solver|].
    destruct (AuthState.scan_policies _ _ _ _ _) as [[]|]; naive_solver.
  - split; [intros ?; repeat split; [done..|]; by exists token|]. by intros (_ & _ & _ & ? & [= <-] & ?).
Qed.
