(* ===== verification/AclParse.v ===== *)
(** The policy parser of [crates/heptabao-server/src/auth.rs] reads back what a
    policy prints to, and its lexer always ends.

    [print_policy] writes one [path] block per rule; the round trip is stated for
    rules the parser itself would accept and whose path needs no escapes. *)
From Stdlib Require Import Ascii NArith.
From S2P Require Import Prelude Str Json Engine EngineState EngineStateSpec Acl.
Import Auth Hcl.

(** * Progress of the lexer *)
Lemma skip_line_length s : String.length (skip_line s) ≤ String.length s.
Proof. induction s as [|c s IH]; simpl; [done|]. case_decide; simpl; lia. Qed.

Lemma skip_block_length s s' : skip_block s = Some s' → String.length s' < String.length s.
Proof.
  induction s as [|a s IH]; [done|]. destruct s as [|b s]; [done|].
  change (skip_block (String a (String b s))) with
    (if decide (a = "*"%char ∧ b = "/"%char) then Some s else skip_block (String b s)).
  case_decide; [intros [= <-]; simpl; lia|]. intros Hs%IH. simpl in *. lia.
Qed.

Lemma scan_string_length escaped s lit s' :
  scan_string escaped s = Some (lit, s') → String.length s' < String.length s.
Proof.
  revert escaped lit. induction s as [|c s IH]; intros escaped lit; simpl; [done|].
  case_match; [intros [= _ <-]; lia|]. destruct (scan_string _ s) as [[lit' r]|] eqn:Hs; [|done].
  intros [= _ <-]. apply IH in Hs. lia.
Qed.

Lemma scan_word_length s w s' : scan_word s = (w, s') → String.length s' ≤ String.length s.
Proof.
  revert w. induction s as [|c s IH]; intros w; simpl; [by intros [= _ <-]|].
  case_match; [|by intros [= _ <-]]. destruct (scan_word s) as [w' r]. intros [= _ <-]. specialize (IH w' eq_refl). lia.
Qed.

Lemma word_start c : is_ascii_alphabetic c || bool_decide (c = "_"%char) = true → word_byte c = true.
Proof.
  unfold word_byte, is_ascii_alphanumeric, is_ascii_alphabetic.
  intros [[?|?]%orb_true_iff|?]%orb_true_iff; rewrite ?orb_true_iff; auto.
Qed.

Section lexer.
Context `{JsonText}.

(** Every round reads at least one byte, so the length of the text is fuel enough. *)
Lemma lex_fuel f1 f2 s :
  String.length s ≤ f1 → String.length s ≤ f2 → lex_loop f1 s = lex_loop f2 s.
Proof.
  revert f2 s. induction f1 as [|f1 IH]; intros f2 s H1 H2.
  { destruct s; [by destruct f2|simpl in H1; lia]. }
  destruct s as [|c rest]; [by destruct f2|]. destruct f2 as [|f2]; [simpl in H2; lia|].
  simpl in H1, H2. cbn [lex_loop].
  destruct (is_ascii_whitespace c) eqn:Hws; [apply IH; lia|].
  assert (∀ s', String.length s' ≤ String.length rest → lex_loop f1 s' = lex_loop f2 s') as IH'
    by (intros s' Hs'; apply IH; lia). clear IH.
  destruct (bool_decide (c = "#"%char) || has_prefix "//" (String c rest)) eqn:Hc.
  { apply IH'. cbn [skip_line]. destruct (decide (c = ascii_of_N 10)) as [->|_]; [vm_compute in Hws; done|].
    apply skip_line_length. }
  destruct (has_prefix "/*" (String c rest)) eqn:Hb.
  { apply has_prefix_spec in Hb as [r Hr].
    assert (after_prefix "/*" (String c rest) = r) as -> by (rewrite Hr; unfold after_prefix; by destruct r).
    destruct (skip_block r) as [r'|] eqn:Hs; simpl; [|done]. apply skip_block_length in Hs. apply IH'.
    injection Hr as _ ->. change (String.length r' ≤ S (String.length r)). lia. }
  destruct (bool_decide (c ∈ _)); [by rewrite IH'|].
  destruct (bool_decide (c = quote)).
  { destruct (scan_string false rest) as [[lit r]|] eqn:Hs; simpl; [|done]. apply scan_string_length in Hs.
    destruct (json_string _); simpl; [|done]. by rewrite IH' by lia. }
  destruct (is_ascii_alphabetic c || _) eqn:Hw; [|done]. apply word_start in Hw.
  cbn [scan_word]. rewrite Hw. destruct (scan_word rest) as [w r] eqn:Hs. apply scan_word_length in Hs.
  by rewrite IH'.
Qed.

(** [s] is a text with these tokens. *)
Definition lexes (s : string) (tokens : list Lex) : Prop := lex_hcl s = Ok tokens.

Lemma lex_rest n s tokens : lexes s tokens → String.length s ≤ n → lex_loop n s = Ok tokens.
Proof. intros <- Hn. by apply lex_fuel. Qed.

Lemma lexes_nil : lexes "" [].
Proof. done. Qed.
Lemma lexes_space s tokens : lexes s tokens → lexes (String " " s) tokens.
Proof. intros Hs. by apply lex_rest. Qed.
Lemma lexes_newline s tokens : lexes s tokens → lexes (String (ascii_of_N 10) s) tokens.
Proof. intros Hs. by apply lex_rest. Qed.
Lemma lexes_symbol c s tokens :
  c ∈ ["{"; "}"; "["; "]"; "="; ","]%char → lexes s tokens → lexes (String c s) (LSymbol c :: tokens).
Proof.
  intros Hc Hs. unfold lexes, lex_hcl. cbn [String.length lex_loop].
  assert (lex_loop (String.length s) s = Ok tokens) as Hr by by apply lex_rest.
  repeat (apply elem_of_cons in Hc as [->|Hc]; [simpl; by rewrite Hr|]). by apply elem_of_nil in Hc.
Qed.

(** ** Words *)
Lemma scan_word_app w s :
  str_all word_byte w = true → match s with String c _ => word_byte c = false | EmptyString => True end →
  scan_word (w +:+ s) = (w, s).
Proof.
  intros Hw Hs. induction w as [|c w IH]; simpl.
  - destruct s; simpl; [done|]. by rewrite Hs.
  - simpl in Hw. apply andb_true_iff in Hw as [-> Hw]. by rewrite IH.
Qed.

(** A letter starts nothing but a word. *)
Lemma alphabetic_start c :
  is_ascii_alphabetic c = true →
  is_ascii_whitespace c = false ∧ bool_decide (c = "#"%char) = false ∧ bool_decide (c = "/"%char) = false
  ∧ bool_decide (c ∈ ["{"; "}"; "["; "]"; "="; ","]%char) = false ∧ bool_decide (c = quote) = false.
Proof. destruct c as [[] [] [] [] [] [] [] []]; vm_compute; (discriminate || auto). Qed.

Lemma no_slash_prefix c s x : bool_decide (c = "/"%char) = false → has_prefix (String "/" x) (String c s) = false.
Proof.
  intros Hc%bool_decide_eq_false. destruct (has_prefix _ _) eqn:Hp; [|done].
  apply has_prefix_spec in Hp as [r Hr]. exfalso. apply Hc. by injection Hr.
Qed.

Lemma lexes_word c w s tokens :
  is_ascii_alphabetic c = true → str_all word_byte w = true →
  match s with String c _ => word_byte c = false | EmptyString => True end →
  lexes s tokens → lexes (String c w +:+ s) (LWord (String c w) :: tokens).
Proof.
  intros Hc Hw Hs Hl. pose proof (alphabetic_start c Hc) as (H1 & H2 & H3 & H4 & H5).
  unfold lexes, lex_hcl. change (String c w +:+ s) with (String c (w +:+ s)). cbn [String.length lex_loop].
  rewrite H1, H2, H4, H5, !no_slash_prefix, Hc by done. cbn [orb].
  change (String c (w +:+ s)) with (String c w +:+ s). rewrite scan_word_app; [|simpl; by rewrite word_start, Hw by by rewrite Hc|done].
  rewrite (lex_rest _ _ tokens) by (done || rewrite str_length_app; lia). done.
Qed.

(** ** Strings *)

(** Characters a JSON string holds as themselves. *)
Definition plain_byte (c : ascii) : bool :=
  byte_in 32 126 c && negb (bool_decide (c = quote)) && negb (bool_decide (c = backslash)).
Definition plain (s : string) : bool := str_all plain_byte s.
Definition quoted (s : string) : string := String quote (s +:+ String quote "").

(** A string without escapes denotes itself. *)
Class JsonTextLaws : Prop := json_string_plain : ∀ s, plain s = true → json_string (quoted s) = Some s.

Lemma scan_string_plain v s :
  plain v = true → scan_string false (v +:+ String quote s) = Some (v +:+ String quote "", s).
Proof.
  unfold plain. induction v as [|c v IH]; intros Hv; [done|].
  simpl in Hv. apply andb_true_iff in Hv as [Hc Hv]. unfold plain_byte in Hc.
  rewrite !andb_true_iff, !negb_true_iff in Hc. destruct Hc as [[_ Hq] Hb].
  change (String c v +:+ ?x) with (String c (v +:+ x)). cbn [scan_string]. rewrite Hq, Hb. cbn [andb negb].
  by rewrite IH.
Qed.

Lemma lexes_string `{!JsonTextLaws} v s tokens :
  plain v = true → lexes s tokens → lexes (quoted v +:+ s) (LString v :: tokens).
Proof.
  intros Hv Hs. unfold lexes, lex_hcl, quoted.
  assert ((v +:+ String quote "") +:+ s = v +:+ String quote s) as Happ by by rewrite str_app_assoc.
  change (String quote (v +:+ String quote "") +:+ s) with (String quote ((v +:+ String quote "") +:+ s)). rewrite Happ.
  cbn [String.length lex_loop]. rewrite !no_slash_prefix by done.
  change (is_ascii_whitespace quote) with false. change (bool_decide (quote = "#"%char)) with false.
  change (bool_decide (quote ∈ ["{"; "}"; "["; "]"; "="; ","]%char)) with false.
  rewrite (bool_decide_eq_true_2 (quote = quote)) by done. cbn [orb].
  rewrite scan_string_plain by done. cbn [ok_or fst snd].
  change (String quote (v +:+ String quote "")) with (quoted v). rewrite json_string_plain by done. cbn [ok_or].
  rewrite (lex_rest _ _ tokens); [done|done|]. rewrite str_length_app. simpl. lia.
Qed.
End lexer.

(** * Printing *)
Fixpoint print_caps (caps : list string) : string :=
  match caps with
  | [] => ""
  | [c] => quoted c
  | c :: caps => quoted c +:+ ", " +:+ print_caps caps
  end.

Definition print_rule (r : Rule) (rest : string) : string :=
  "path " +:+ quoted (Rule.path r) +:+ " { capabilities = [" +:+ print_caps (btree_elems (Rule.capabilities r))
  +:+ "] }" +:+ String (ascii_of_N 10) rest.

Definition print_policy (rules : list Rule) : string := foldr print_rule "" rules.

Fixpoint caps_tokens (caps : list string) : list Lex :=
  match caps with
  | [] => []
  | [c] => [LString c]
  | c :: caps => LString c :: LSymbol "," :: caps_tokens caps
  end.

Definition rule_tokens (r : Rule) : list Lex :=
  [LWord "path"; LString (Rule.path r); LSymbol "{"; LWord "capabilities"; LSymbol "="; LSymbol "["]
  ++ caps_tokens (btree_elems (Rule.capabilities r)) ++ [LSymbol "]"; LSymbol "}"].

(** A rule the parser accepts, with a path that needs no escapes. *)
Definition rule_ok (r : Rule) : Prop :=
  rule (Rule.path r) (Rule.capabilities r) = Ok r ∧ plain (Rule.path r) = true.

Lemma capability_plain c : c ∈ CAPABILITIES → plain c = true.
Proof.
  intros Hc. repeat (apply elem_of_cons in Hc as [->|Hc]; [vm_compute; reflexivity|]). by apply elem_of_nil in Hc.
Qed.

Lemma rule_ok_caps r : rule_ok r → Forall (λ c, plain c = true) (btree_elems (Rule.capabilities r)).
Proof.
  intros [Hr _]. unfold rule in Hr. destruct (validate_path _ _); [|done].
  destruct (existsb _ _) eqn:He; [done|]. apply Forall_forall. intros c Hc%elem_of_btree_elems.
  apply capability_plain. destruct (decide (c ∈ CAPABILITIES)) as [|Hn]; [done|exfalso].
  assert (existsb (λ capability, negb (bool_decide (capability ∈ CAPABILITIES))) (elements (Rule.capabilities r)) = true); [|congruence].
  apply existsb_exists. exists c. split; [by apply list_elem_of_In, elem_of_elements|].
  by rewrite bool_decide_eq_false_2.
Qed.

Section roundtrip.
Context `{JsonText, !JsonTextLaws}.

(** ** Reading the text *)
Lemma lexes_caps caps s tokens :
  Forall (λ c, plain c = true) caps → lexes s tokens → lexes (print_caps caps +:+ s) (caps_tokens caps ++ tokens).
Proof.
  intros Hc Hs. induction Hc as [|c caps Hc Hcs IH]; [done|].
  destruct caps as [|c' caps]; [by apply lexes_string|].
  change (print_caps (c :: c' :: caps)) with (quoted c +:+ ", " +:+ print_caps (c' :: caps)).
  change (caps_tokens (c :: c' :: caps)) with (LString c :: LSymbol "," :: caps_tokens (c' :: caps)).
  rewrite !str_app_assoc. cbn [app]. apply lexes_string; [done|].
  apply (lexes_symbol ","); [set_solver|]. apply lexes_space. exact IH.
Qed.

Lemma lexes_rule r s tokens : rule_ok r → lexes s tokens → lexes (print_rule r s) (rule_tokens r ++ tokens).
Proof.
  intros Hr Hs. unfold print_rule, rule_tokens. rewrite <- !app_assoc. cbn [app].
  apply (lexes_word "p" "ath"); [done..|]. apply lexes_space.
  apply lexes_string; [apply Hr|]. apply lexes_space, (lexes_symbol "{"); [set_solver|]. apply lexes_space.
  apply (lexes_word "c" "apabilities"); [done..|]. apply lexes_space, (lexes_symbol "="); [set_solver|].
  apply lexes_space, (lexes_symbol "["); [set_solver|]. apply lexes_caps; [by apply rule_ok_caps|].
  apply (lexes_symbol "]"); [set_solver|]. apply lexes_space, (lexes_symbol "}"); [set_solver|].
  by apply lexes_newline.
Qed.

Lemma lexes_policy rules : Forall rule_ok rules → lexes (print_policy rules) (concat (rule_tokens <$> rules)).
Proof. induction 1; simpl; [apply lexes_nil|by apply lexes_rule]. Qed.

(** ** Reading the tokens *)
Lemma caps_loop_tokens c caps rest acc :
  caps_loop (caps_tokens (c :: caps) ++ LSymbol "]" :: rest) acc = Ok (list_to_set (c :: caps) ∪ acc, LSymbol "]" :: rest).
Proof.
  revert c acc. induction caps as [|c' caps IH]; intros c acc.
  - simpl. do 2 f_equal. set_solver.
  - change (caps_tokens (c :: c' :: caps)) with (LString c :: LSymbol "," :: caps_tokens (c' :: caps)).
    cbn [app caps_loop]. destruct caps as [|c'' caps]; cbn [caps_tokens app] in *; rewrite IH; do 2 f_equal; set_solver.
Qed.

Lemma take_cons t rest : Hcl.take (t :: rest) t = Ok rest.
Proof. unfold Hcl.take. by rewrite decide_True. Qed.

(** The reader of the capabilities, whether the list is empty or not. *)
Lemma caps_tokens_read (caps : gset string) rest :
  (match caps_tokens (btree_elems caps) ++ LSymbol "]" :: rest with
   | LSymbol "]" :: _ => Ok (∅, caps_tokens (btree_elems caps) ++ LSymbol "]" :: rest)
   | _ => caps_loop (caps_tokens (btree_elems caps) ++ LSymbol "]" :: rest) ∅
   end) = Ok (caps, LSymbol "]" :: rest).
Proof.
  assert (list_to_set (btree_elems caps) = caps) as Hset
    by (apply set_eq; intros x; by rewrite elem_of_list_to_set, elem_of_btree_elems).
  destruct (btree_elems caps) as [|c l] eqn:Hl; [simpl; do 2 f_equal; set_solver|].
  rewrite caps_loop_tokens. rewrite <- Hset.
  assert (∃ more, caps_tokens (c :: l) = LString c :: more) as [more ->] by (destruct l; simpl; eauto).
  cbn [app]. do 2 f_equal. set_solver.
Qed.

Lemma parse_block_tokens r rest seen :
  rule_ok r → Rule.path r ∉ seen → parse_block (rule_tokens r ++ rest) seen = Ok (r, Rule.path r, rest).
Proof.
  intros [Hr _] Hseen. unfold parse_block, rule_tokens. rewrite <- !app_assoc. cbn [app].
  rewrite take_cons. cbn [take_string]. rewrite bool_decide_eq_false_2 by done. rewrite !take_cons.
  rewrite caps_tokens_read, !take_cons, Hr. done.
Qed.

Lemma parse_blocks_tokens rules fuel seen :
  Forall rule_ok rules → NoDup (Rule.path <$> rules) → (∀ r, r ∈ rules → Rule.path r ∉ seen) → length rules ≤ fuel →
  parse_blocks fuel (concat (rule_tokens <$> rules)) seen = Ok rules.
Proof.
  intros Hok. revert fuel seen. induction Hok as [|r rules Hr _ IH]; intros fuel seen Hnd Hseen Hf; [by destruct fuel|].
  destruct fuel as [|fuel]; [simpl in Hf; lia|]. cbn [fmap list_fmap concat] in *. apply NoDup_cons in Hnd as [Hnew Hnd].
  assert (∃ t more, rule_tokens r ++ concat (rule_tokens <$> rules) = t :: more) as (t & more & Htm) by (do 2 eexists; reflexivity).
  cbn [parse_blocks]. rewrite Htm. cbn. rewrite <- Htm.
  rewrite parse_block_tokens by (done || apply Hseen; set_solver). rewrite IH; [done|done| |simpl in Hf; lia].
  intros r' Hr' [Heq%elem_of_singleton|Hin]%elem_of_union; [|by apply (Hseen r'); [set_solver|]].
  apply Hnew. rewrite <- Heq. apply list_elem_of_fmap. eauto.
Qed.

(** C34: A printed policy is read back as itself.  For every list of rules that the
    parser itself would accept (valid patterns, known capabilities, no path twice)
    and whose paths need no escapes, parsing the HCL text of the rules succeeds and
    yields the same rules in the same order with the same capabilities.  In
    particular the lexer and the block loop end on it.  The limits on the size of the
    text and the number of rules are checks of [parse_policy] before and after it. *)
Theorem hcl_roundtrip (rules : list Rule) :
  Forall rule_ok rules → NoDup (Rule.path <$> rules) → parse_hcl_policy (print_policy rules) = Ok rules.
Proof.
  intros Hok Hnd. unfold parse_hcl_policy. rewrite (lexes_policy rules Hok).
  apply parse_blocks_tokens; [done|done|set_solver|].
  clear. induction rules as [|r rules IH]; [done|]. cbn [fmap list_fmap concat length]. rewrite length_app.
  assert (1 ≤ length (rule_tokens r)) by (unfold rule_tokens; simpl; lia). unfold fmap in *. lia.
Qed.
End roundtrip.

Module ParseDemo.
#[export] Instance text : JsonText := {|
  json_string := λ s, Some (String.substring 1 (String.length s - 2) s);
  json_document := λ _, None; json_to_string := λ _, "";
|}.
Lemma substring_app a b : String.substring 0 (String.length a) (a +:+ b) = a.
Proof. induction a as [|c a IH]; simpl; [by destruct b|]. f_equal. exact IH. Qed.
#[export] Instance text_laws : JsonTextLaws.
Proof.
  intros s _. unfold json_string, text, quoted. cbn [String.length String.substring].
  rewrite str_length_app. simpl. replace (String.length s + 1 - 1) with (String.length s) by lia.
  by rewrite substring_app.
Qed.
Definition rules : list Rule := [Rule.mk "secret/data/+" {["read"; "list"]}; Rule.mk "sys/*" ∅].
End ParseDemo.

Lemma hcl_roundtrip_witness :
  parse_hcl_policy (H:=ParseDemo.text) (print_policy ParseDemo.rules) = Ok ParseDemo.rules.
Proof.
  refine (hcl_roundtrip (H0:=ParseDemo.text_laws) ParseDemo.rules _ _).
  - repeat constructor; vm_compute; reflexivity.
  - apply (bool_decide_unpack _). vm_compute. exact I.
Defined.

(** * Strict JSON *)

(** No object, at any depth, has a key twice. *)
Fixpoint unique_keys (v : Value) : Prop :=
  match v with
  | VArray l => (fix go l := match l with [] => True | x :: l => unique_keys x ∧ go l end) l
  | VObject m => NoDup m.*1 ∧ (fix go m := match m with [] => True | (_, x) :: m => unique_keys x ∧ go m end) m
  | _ => True
  end.
Lemma unique_keys_array l : unique_keys (VArray l) ↔ Forall unique_keys l.
Proof. simpl. induction l as [|x l IH]; [by rewrite Forall_nil|]. by rewrite Forall_cons, IH. Qed.
Lemma unique_keys_object m : unique_keys (VObject m) ↔ NoDup m.*1 ∧ Forall (λ x, unique_keys x.2) m.
Proof.
  simpl. apply and_iff_compat_l. induction m as [|[k x] m IH]; [by rewrite Forall_nil|]. by rewrite Forall_cons, IH.
Qed.
Lemma value_wf_array l : value_wf (VArray l) ↔ Forall value_wf l.
Proof. simpl. induction l as [|x l IH]; [by rewrite Forall_nil|]. by rewrite Forall_cons, IH. Qed.

(** What the reader makes of a value. *)
Definition strict_ok (v : Value) : Prop :=
  match strict_json v with Some w => unique_keys v ∧ value_wf w | None => ¬ unique_keys v end.

Lemma strict_items_spec l :
  Forall strict_ok l →
  match strict_items strict_json l with
  | Some l' => Forall unique_keys l ∧ Forall value_wf l'
  | None => ¬ Forall unique_keys l
  end.
Proof.
  unfold strict_ok. induction 1 as [|v l Hv _ IH]; simpl; [done|].
  destruct (strict_json v) as [w|]; [|by rewrite Forall_cons; intros [? _]].
  destruct (strict_items strict_json l) as [l'|]; simpl; rewrite !Forall_cons; naive_solver.
Qed.

Lemma strict_members_spec m acc :
  Forall (λ x, strict_ok x.2) m → obj_sorted acc → Forall (λ x, value_wf x.2) acc →
  match strict_members strict_json m acc with
  | Some m' => (NoDup m.*1 ∧ (∀ k, k ∈ m.*1 → obj_get k acc = None) ∧ Forall (λ x, unique_keys x.2) m)
               ∧ obj_sorted m' ∧ Forall (λ x, value_wf x.2) m'
               ∧ ∀ k, obj_get k m' = match obj_get k m with Some v => strict_json v | None => obj_get k acc end
  | None => ¬ (NoDup m.*1 ∧ (∀ k, k ∈ m.*1 → obj_get k acc = None) ∧ Forall (λ x, unique_keys x.2) m)
  end.
Proof.
  intros Hm. revert acc. induction Hm as [|[k v] m Hv _ IH]; intros acc Hs Hw; cbn [strict_members].
  { split; [|done]. split; [constructor|]. split; [by intros k ?%elem_of_nil|constructor]. }
  unfold strict_ok in Hv. cbn [fmap list_fmap fst snd] in *.
  destruct (obj_get k acc) as [old|] eqn:Hk.
  { intros (_ & Ha & _). rewrite (Ha k) in Hk; [done|by left]. }
  destruct (strict_json v) as [w|] eqn:Hsv; [|intros (_ & _ & [? _]%Forall_cons); tauto].
  destruct Hv as [Huv Hwf]. specialize (IH (obj_insert k w acc)).
  destruct (strict_members strict_json m (obj_insert k w acc)) as [m'|].
  - destruct IH as ((Hnd & Hdis & Hu) & Hs' & Hw' & Hget);
      [by apply obj_insert_sorted|by apply obj_insert_Forall|].
    assert (k ∉ m.*1) as Hkm.
    { intros Hin. specialize (Hdis k Hin). rewrite obj_get_insert, decide_True in Hdis by done. done. }
    split; [split; [by constructor|split; [|by constructor]]|].
    + intros k' [->|Hin]%elem_of_cons; [done|]. specialize (Hdis k' Hin).
      rewrite obj_get_insert in Hdis. by case_decide.
    + split; [done|]. split; [done|]. intros k'. rewrite Hget, obj_get_insert. cbn [obj_get].
      destruct (decide (k' = k)) as [->|]; [|done].
      assert (obj_get k m = None) as ->; [|done].
      destruct (obj_get k m) eqn:He; [|done]. exfalso. apply Hkm.
      apply obj_get_Some_In in He. apply list_elem_of_fmap. by eexists (k, _).
  - intros ([Hnin Hnd]%NoDup_cons & Hdis & [_ Hu]%Forall_cons). apply IH;
      [by apply obj_insert_sorted|by apply obj_insert_Forall|].
    split; [done|]. split; [|done]. intros k' Hin. rewrite obj_get_insert, decide_False.
    + apply Hdis. by right.
    + by intros ->.
Qed.

Lemma strict_json_ok v : strict_ok v.
Proof.
  induction v as [| | | |l IH|m IH] using Value_deep_ind; try done; unfold strict_ok; cbn [strict_json].
  - apply strict_items_spec in IH.
    destruct (strict_items _ l); cbn [fmap option_fmap option_map]; by rewrite unique_keys_array, ?value_wf_array.
  - apply (strict_members_spec m []) in IH; [|constructor..].
    destruct (strict_members _ m []) as [m'|]; cbn [fmap option_fmap option_map];
      rewrite unique_keys_object, ?value_wf_object; [naive_solver|].
    intros [Hnd Hu]. by apply IH.
Qed.

(** The strict reader accepts a JSON document exactly when no object of it, at
    any depth, repeats a key; what it returns is a well-formed value (ordered maps at
    every depth) in which every member of the document's top-level object is found
    under its key. *)
Theorem strict_json_spec (v : Value) :
  (is_Some (strict_json v) ↔ unique_keys v) ∧
  ∀ w, strict_json v = Some w → value_wf w ∧
    ∀ m, v = VObject m → ∀ k, Json.get w k = obj_get k m ≫= strict_json.
Proof.
  pose proof (strict_json_ok v) as Hok. unfold strict_ok in Hok. split.
  { destruct (strict_json v) as [w|]; [naive_solver|]. split; [by intros [? ?]|done]. }
  intros w Hw. rewrite Hw in Hok. split; [apply Hok|]. intros m -> k.
  cbn [strict_json] in Hw. pose proof (strict_members_spec m []) as Hm.
  destruct (strict_members _ m []) as [m'|]; [|done]. injection Hw as <-.
  destruct Hm as (_ & _ & _ & Hget); [apply Forall_true; intros; apply strict_json_ok|constructor..|].
  change (obj_get k m' = obj_get k m ≫= strict_json). rewrite Hget. by destruct (obj_get k m).
Qed.
