(* ===== verification/AuthLive.v ===== *)
(** Live tokens of the running server, [crates/heptabao-server/src/auth.rs].

    [live] says when a stored token counts: it has neither expired nor run out of
    uses, and its parent, if any, is live.  [active_token] with its walk over the
    ancestors and its set of visited tokens decides it, and [revoke] with its
    fixpoint loop removes exactly a token and its descendants. *)
From Stdlib Require Import Ascii NArith.
From S2P Require Import Prelude Str Json Engine Gf256 EngineState Acl AuthState.
Import Auth AuthState.

(** * Liveness *)

(** A token that would count if its ancestors did. *)
Definition usable (t : AuthToken) (now : N) : Prop := expired t now = false ∧ exhausted t = false.

Inductive live (s : AuthState) (now : N) : string → Prop :=
| live_orphan id t :
    tokens s !! id = Some t → usable t now → AuthToken.parent t = None → live s now id
| live_child id t p :
    tokens s !! id = Some t → usable t now → AuthToken.parent t = Some p → live s now p → live s now id.

(** Every link of a chain of ancestors is live. *)
Definition chain_live (s : AuthState) (now : N) (parent : option string) : Prop :=
  match parent with Some p => live s now p | None => True end.

Lemma live_unfold s now id :
  live s now id ↔ ∃ t, tokens s !! id = Some t ∧ usable t now ∧ chain_live s now (AuthToken.parent t).
Proof.
  split.
  - intros [? t ? ? Hp | ? t p ? ? Hp ?]; exists t; rewrite Hp; simpl; auto.
  - intros (t & Ht & Hu & Hc). destruct (AuthToken.parent t) as [p|] eqn:Hp;
      [eapply live_child | eapply live_orphan]; eauto.
Qed.

(** The number of ancestors of a live token; it is unique. *)
Inductive height (s : AuthState) : option string → nat → Prop :=
| height_none : height s None 0
| height_some id t n :
    tokens s !! id = Some t → height s (AuthToken.parent t) n → height s (Some id) (S n).

Lemma height_unique s p n m : height s p n → height s p m → n = m.
Proof.
  intros Hn. revert m. induction Hn as [|id t n Ht _ IH]; intros m Hm; inversion Hm; simplify_eq; auto.
Qed.

Lemma live_height s now id : live s now id → ∃ n, height s (Some id) n.
Proof.
  induction 1 as [id t Ht _ Hp|id t p Ht _ Hp _ [n IH]].
  - exists 1. apply (height_some s id t); [done|]. rewrite Hp. constructor.
  - exists (S n). apply (height_some s id t); [done|]. by rewrite Hp.
Qed.

(** The walk over the ancestors answers within one round more than there are tokens:
    each of the tokens seen is stored and higher than the current one. *)
Lemma ancestors_fuel s now fuel seen parent n :
  height s parent n → chain_live s now parent →
  (∀ x, x ∈ seen → x ∈ dom (tokens s) ∧ ∀ m, height s (Some x) m → n < m) →
  size (tokens s) ≤ fuel + size seen →
  ancestors_ok fuel s now seen parent = true.
Proof.
  intros Hh. revert fuel seen. induction Hh as [|p t n Ht Hh IH]; intros fuel seen Hl Hseen Hf.
  { by destruct fuel. }
  assert (p ∉ seen) as Hfresh.
  { intros [_ Hlt]%Hseen. specialize (Hlt (S n) (height_some _ _ _ _ Ht Hh)). lia. }
  assert (size seen < size (tokens s)).
  { rewrite <- size_dom. apply subset_size. split; [by intros x [? _]%Hseen|].
    intros Hsub. apply Hfresh, Hsub, elem_of_dom. eauto. }
  destruct fuel as [|fuel]; [lia|]. cbn [ancestors_ok].
  rewrite bool_decide_eq_false_2, Ht by done.
  simpl in Hl. apply live_unfold in Hl as (t' & ? & [He Hx] & Hc). simplify_eq.
  rewrite He, Hx. simpl.
  apply IH; [done| |].
  - intros x [->%elem_of_singleton|[? Hlt]%Hseen]%elem_of_union; split; try done.
    + apply elem_of_dom; eauto.
    + intros m Hm. rewrite (height_unique _ _ _ _ Hm (height_some _ _ _ _ Ht Hh)). lia.
    + intros m Hm. specialize (Hlt m Hm). lia.
  - rewrite size_union, size_singleton by set_solver. lia.
Qed.

Lemma ancestors_ok_live s now fuel seen parent :
  ancestors_ok fuel s now seen parent = true → chain_live s now parent.
Proof.
  revert seen parent. induction fuel as [|fuel IH]; intros seen [p|]; simpl; try done.
  { by case_bool_decide. }
  case_bool_decide; [done|]. destruct (tokens s !! p) as [t|] eqn:Ht; [|done].
  destruct (expired t now) eqn:?; [done|]. destruct (exhausted t) eqn:?; [done|]. simpl.
  intros Hp%IH. apply live_unfold. exists t. by repeat split.
Qed.

(** [active_token] decides liveness; without [consume_check] the last use of the
    token itself may have been spent. *)
Lemma active_token_spec s id now consume t :
  active_token s id now consume = Ok t ↔
  tokens s !! id = Some t ∧ expired t now = false ∧ (consume = true → exhausted t = false)
  ∧ chain_live s now (AuthToken.parent t).
Proof.
  unfold active_token. destruct (tokens s !! id) as [t'|] eqn:Ht; cbn [ok_or]; [|naive_solver].
  transitivity (t' = t ∧ expired t' now = false ∧ (consume = true → exhausted t' = false)
                ∧ chain_live s now (AuthToken.parent t')); [|naive_solver].
  destruct (expired t' now) eqn:He; [naive_solver|]. rewrite orb_false_l.
  destruct (consume && exhausted t') eqn:Hx.
  { apply andb_true_iff in Hx as [-> Hx]. naive_solver congruence. }
  assert (consume = true → exhausted t' = false) by (intros ->; done).
  destruct (ancestors_ok _ _ _ _ _) eqn:Ha.
  - apply ancestors_ok_live in Ha. naive_solver.
  - split; [done|]. intros (<- & _ & _ & Hc). exfalso.
    enough (ancestors_ok (S (size (tokens s))) s now {[id]} (AuthToken.parent t') = true) by congruence.
    assert (∃ n, height s (AuthToken.parent t') n) as [n Hn].
    { destruct (AuthToken.parent t'); [by eapply live_height|eexists; constructor]. }
    eapply ancestors_fuel; [done..| |lia].
    intros x ->%elem_of_singleton. split; [apply elem_of_dom; eauto|].
    intros m Hm. rewrite (height_unique _ _ _ _ Hm (height_some _ _ _ _ Ht Hn)). lia.
Qed.

Lemma active_token_live s id now : is_ok (active_token s id now true) = true ↔ live s now id.
Proof.
  rewrite live_unfold. destruct (active_token s id now true) as [t|e] eqn:Ha; simpl.
  - apply active_token_spec in Ha as (?&?&?&?). unfold usable. naive_solver.
  - split; [done|]. intros (t & Ht & [? ?] & ?).
    enough (active_token s id now true = Ok t) by congruence. by apply active_token_spec.
Qed.

Lemma active_token_err s id now consume e : active_token s id now consume = Err e → e = denied.
Proof.
  unfold active_token. destruct (tokens s !! id) as [t|]; cbn [ok_or]; [|congruence].
  destruct (_ || _); [congruence|]. destruct (ancestors_ok _ _ _ _ _); congruence.
Qed.

#[export] Instance live_dec s now id : Decision (live s now id).
Proof.
  refine (cast_if (decide (is_ok (active_token s id now true) = true))); by rewrite <- active_token_live.
Defined.

(** Time only ends liveness. *)
Lemma expired_mono t now now' : (now ≤ now')%N → expired t now' = false → expired t now = false.
Proof. unfold expired. destruct (AuthToken.expires_at t); [|done]. rewrite !N.leb_gt. lia. Qed.

Lemma live_mono s now now' id : (now ≤ now')%N → live s now' id → live s now id.
Proof.
  intros Hle. induction 1 as [id t ? [? ?] ?|id t p ? [? ?] ? ? IH];
    [eapply live_orphan | eapply live_child]; eauto; split; eauto using expired_mono.
Qed.

(** * Revocation *)

(** The token itself and the tokens derived from it, however many steps away. *)
Inductive descends (s : AuthState) (root : string) : string → Prop :=
| descends_self : descends s root root
| descends_child id t p :
    tokens s !! id = Some t → AuthToken.parent t = Some p → descends s root p → descends s root id.

Lemma elem_of_children s removed id :
  id ∈ children s removed ↔
  ∃ t p, tokens s !! id = Some t ∧ AuthToken.parent t = Some p ∧ p ∈ removed.
Proof.
  unfold children. rewrite elem_of_dom. unfold is_Some. setoid_rewrite map_lookup_filter_Some.
  unfold child_of. simpl. split.
  - intros (t & Ht & Hc). destruct (AuthToken.parent t) as [p|] eqn:Hp; [|done].
    apply bool_decide_unpack in Hc. eauto.
  - intros (t & p & Ht & Hp & Hr). exists t. rewrite Hp. split; [done|]. by apply bool_decide_pack.
Qed.

(** The loop ends at the set of all descendants. *)
Lemma revoke_fuel s id fuel removed :
  id ∈ removed → (∀ x, x ∈ removed → descends s id x) →
  S (size (tokens s)) ≤ fuel + size removed →
  ∀ x, x ∈ revoke_loop fuel s removed ↔ descends s id x.
Proof.
  revert removed. induction fuel as [|fuel IH]; intros removed Hid Hsub Hf; cbn [revoke_loop];
    set (removed' := removed ∪ children s removed);
    assert (∀ x, x ∈ removed' → descends s id x) as Hsub'
      by (intros x [?|(t & p & ? & ? & ?)%elem_of_children]%elem_of_union; [|eapply descends_child]; eauto).
  all: assert (size removed' = size removed → ∀ x, x ∈ removed' ↔ descends s id x) as Hdone.
  1,3: intros Hsize x; split; [by apply Hsub'|]; intros Hd;
      assert (removed' ≡ removed) as Heq
        by (symmetry; apply set_subseteq_size_equiv; [set_solver|lia]);
      rewrite Heq; induction Hd as [|x t p Hx Hp _ IHd]; [done|];
      rewrite <- Heq; apply elem_of_union_r, elem_of_children; eauto.
  all: assert (removed' ⊆ {[id]} ∪ dom (tokens s)) as Hdom
    by (intros x [| x' t p Hx _ _]%Hsub'; [set_solver|apply elem_of_union_r, elem_of_dom; eauto]).
  all: assert (size removed' ≤ S (size (tokens s))) as Hle
    by (etrans; [by apply subseteq_size|]; rewrite size_union_alt, size_singleton, <- size_dom;
        pose proof (subseteq_size (dom (tokens s) ∖ {[id]}) (dom (tokens s)) ltac:(set_solver)); lia).
  all: assert (size removed ≤ size removed') by (apply subseteq_size; set_solver).
  - destruct (Nat.eqb_spec (size removed') (size removed)); apply Hdone; lia.
  - destruct (Nat.eqb_spec (size removed') (size removed)); [by apply Hdone|].
    apply IH; [set_solver|done|lia].
Qed.

Lemma revoked_set s id x : x ∈ revoke_loop (S (size (tokens s))) s {[id]} ↔ descends s id x.
Proof. apply revoke_fuel; [set_solver| |lia]. intros y ->%elem_of_singleton. constructor. Qed.

(** Revocation keeps a token as it was or removes it. *)
Lemma lookup_revoke s id x t :
  tokens (revoke id s) !! x = Some t ↔ tokens s !! x = Some t ∧ ¬ descends s id x.
Proof. unfold revoke. cbn [tokens set_tokens]. rewrite map_lookup_filter_Some. cbn [fst]. by rewrite revoked_set. Qed.

(** The other tokens keep their ancestors and their liveness. *)
Lemma live_revoke s id now x : live (revoke id s) now x ↔ live s now x ∧ ¬ descends s id x.
Proof.
  split.
  - induction 1 as [x t [Ht ?]%lookup_revoke ? ?|x t p [Ht ?]%lookup_revoke ? ? _ [IH _]]; split; try done.
    + by eapply live_orphan.
    + by eapply live_child.
  - intros [Hl Hd]. induction Hl as [x t Ht ? ?|x t p Ht ? Hp _ IH].
    + eapply live_orphan; [by apply lookup_revoke|done..].
    + eapply live_child; [by apply lookup_revoke|done..|]. apply IH. intros ?. apply Hd. by eapply descends_child.
Qed.

(** * Authentication *)

(** The token with one use less, when its uses are counted. *)
Definition spend (t : AuthToken) : AuthToken :=
  match AuthToken.uses_remaining t with
  | Some remaining => AuthToken.set_uses (Some (remaining - 1)%N) t
  | None => t
  end.

Section authentication.
Context `{AuthCrypto}.

(** Authentication accepts a presented token exactly when it is a service
    token of at most 256 bytes whose stored record is live: neither expired nor out
    of uses, with every ancestor stored, unexpired and not out of uses (a chain that
    does not end is never accepted).  Accepting spends one use of that token and
    changes nothing else; refusing changes nothing and always answers with the same
    error, so a caller cannot tell an unknown token from an expired one. *)
Theorem authenticate_exact (s : AuthState) (raw : string) (now : N) :
  authenticate raw now s =
    match decide (String.length raw ≤ 256 ∧ has_prefix "hvs." raw = true ∧ live s now (hash raw)),
          tokens s !! hash raw with
    | left _, Some t => (set_tokens (<[hash raw := spend t]> (tokens s)) s, Ok (Principal.mk (hash raw) (spend t)))
    | _, _ => (s, Err denied)
    end.
Proof.
  unfold authenticate. case_decide as Hd.
  - destruct Hd as (Hlen & Hpre & Hl).
    rewrite Hpre, (proj2 (Nat.ltb_ge _ _) Hlen). cbn [orb negb].
    apply active_token_live in Hl. destruct (active_token s (hash raw) now true) as [t|]; [|done].
    by destruct (tokens s !! hash raw).
  - destruct ((256 <? String.length raw) || negb (has_prefix "hvs." raw)) eqn:Hg; [done|].
    apply orb_false_iff in Hg as [Hlen%Nat.ltb_ge Hpre%negb_false_iff].
    destruct (active_token s (hash raw) now true) as [t|e] eqn:Ha.
    + exfalso. apply Hd. repeat split; [done..|]. apply active_token_live. by rewrite Ha.
    + by rewrite (active_token_err _ _ _ _ _ Ha).
Qed.
End authentication.

(** C32: Revocation removes exactly a token and its descendants, and its search
    through the generations ends.  Whatever the depth of the tree (and even if the
    parent links had a cycle), a token is still stored after [revoke] exactly when it
    was stored and does not descend from the revoked one; every other token keeps its
    record, its ancestors and its liveness. *)
Theorem revoke_exact (s : AuthState) (id : string) :
  (∀ x t, tokens (revoke id s) !! x = Some t ↔ tokens s !! x = Some t ∧ ¬ descends s id x) ∧
  (∀ now x, live (revoke id s) now x ↔ live s now x ∧ ¬ descends s id x).
Proof. split; intros; [apply lookup_revoke|apply live_revoke]. Qed.
