(* ===== verification/AuthEffects.v ===== *)
(** What the requests of the authentication subsystem can do to its state.

    [effect] is a step relation: one constructor per way in which the state of
    [crates/heptabao-server/src/auth.rs] changes, with the guards under which the
    code makes the change.  [handle_effects] shows that every request, whatever its
    outcome, is a sequence of effects; the safety properties of the later files are
    then proved once per effect instead of once per route. *)
From Stdlib Require Import Ascii NArith.
From S2P Require Import Prelude Str Json Engine Gf256 Base32 EngineState Totp Federated Acl AuthState AuthRoutes AuthLogin AuthLive.
Import Auth AuthState AuthRoutes AuthLogin.

(** * Effects *)

(** A token record as the code builds them: root is a property of the root
    namespace, and the root policy belongs to root tokens alone. *)
Definition token_wf (t : AuthToken) : Prop :=
  if AuthToken.root t then AuthToken.namespace t = "" ∧ AuthToken.policies t = {["root"]}
  else "root" ∉ AuthToken.policies t.

(** [t] is no stronger than [actor], the token it is created with. *)
Definition attenuates (actor t : AuthToken) : Prop :=
  AuthToken.root actor = false →
  AuthToken.root t = false ∧ AuthToken.policies t ⊆ AuthToken.policies actor
  ∧ AuthToken.namespace t = AuthToken.namespace actor.

(** [t] expires no later than [p]. *)
Definition expires_within (p t : AuthToken) : Prop :=
  ∀ e, AuthToken.expires_at p = Some e → ∃ e', AuthToken.expires_at t = Some e' ∧ (e' ≤ e)%N.

(** The identifiers under which a request with these random values can store a
    new token. *)
Definition issuable `{AuthCrypto} (rng : Rng) (id : string) : Prop :=
  ∃ i raw, random_id rng i "hvs." = Ok raw ∧ hash raw = id.

(** The state names a token: it is stored, or is the parent of a stored one. *)
Definition mentions (s : AuthState) (id : string) : Prop :=
  is_Some (tokens s !! id) ∨ ∃ x t, tokens s !! x = Some t ∧ AuthToken.parent t = Some id.

(** The random values are new: they collide with no token the state names. *)
Definition fresh `{AuthCrypto} (rng : Rng) (s : AuthState) : Prop := ∀ id, issuable rng id → ¬ mentions s id.

(** The two ways to obtain a new token: from an active token without a use
    limit, or by a login. *)
Inductive grantable `{AuthCrypto} (rng : Rng) (s : AuthState) (now : N) (t : AuthToken) : Prop :=
| grant_create id actor :
    ¬ issuable rng id → active_token s id now false = Ok actor → AuthToken.uses_remaining actor = None →
    attenuates actor t →
    (AuthToken.parent t = None ∨ AuthToken.parent t = Some id ∧ expires_within actor t) →
    grantable rng s now t
| grant_login :
    AuthToken.parent t = None → AuthToken.root t = false → (∃ e, AuthToken.expires_at t = Some e) →
    grantable rng s now t.

(** The authentication mount a request disables. *)
Definition disables_of (namespace method path : string) (scope : AuthScope) : Prop :=
  method = "DELETE" ∧ scope_namespace scope = namespace ∧
  ∃ suffix, strip_prefix "sys/auth" path = Some suffix ∧
            scope_mount scope = trim_end_matches "/" (trim_start_matches "/" suffix).

(** A change of a JWT mount that leaves the replay registry alone. *)
Definition keeps_replay (f : JwtMountState → JwtMountState) : Prop :=
  ∀ st, JwtMountState.replay (f st) = JwtMountState.replay st
      ∧ JwtMountState.last_admission_time (f st) = JwtMountState.last_admission_time st.

(** The accepted counter is newer than the last one. *)
Definition newer (u : User) (counter : option N) : Prop :=
  ∀ e c, User.mfa u = Some e → counter = Some c →
    ∀ last, TotpEnrollment.last_accepted_counter e = Some last → (last < c)%N.

(** Every second factor of [s'] is one of [s], unchanged, or has a newly drawn
    secret. *)
Definition keeps_factors (rng : Rng) (s s' : AuthState) : Prop :=
  ∀ scope name u' e', existing_user s' scope name = Some u' → User.mfa u' = Some e' →
    (∃ i, random_bytes rng i MFA_SEED_BYTES = Ok (TotpEnrollment.secret e')) ∨
    ∃ u, existing_user s scope name = Some u ∧ User.mfa u = Some e'.

Section effects.
Context `{AuthCrypto, JsonText, Hmac, FederatedCrypto}.
Context (rng : Rng) (now : N) (disables : AuthScope → Prop).

Inductive effect : AuthState → AuthState → Prop :=
| eff_issue s i raw t :
    random_id rng i "hvs." = Ok raw → token_wf t → grantable rng s now t → effect s (store_token (hash raw) t s)
| eff_renew s id t e :
    active_token s id now false = Ok t → (now < e)%N →
    effect s (store_token id (AuthToken.set_expires (Some e) t) s)
| eff_revoke s id : effect s (revoke id s)
| eff_tidy s namespace :
    effect s (set_tokens (filter (λ kv, ¬ Is_true (stale s namespace now kv)) (tokens s)) s)
| eff_policies s x : effect s (set_policies x s)
| eff_mounts s x : effect s (set_auth_mounts x s)
| eff_login s scope name u counter :
    existing_user s scope name = Some u → newer u counter →
    effect s (insert_user scope name (record_counter counter u) s)
| eff_users s scope f :
    keeps_factors rng s (update_users_at scope f s) → effect s (update_users_at scope f s)
| eff_roles s scope f : effect s (update_roles_at scope f s)
| eff_jwt s scope f : keeps_replay f → effect s (update_jwt_at scope f s)
| eff_admit s scope fingerprint expires_at :
    (admit_external_replay scope fingerprint expires_at now s).2 = Ok tt →
    effect s (admit_external_replay scope fingerprint expires_at now s).1
| eff_disable s scope :
    disables scope → effect s (disable_auth_mount scope s).

(** [m], started in [s], is a sequence of effects. *)
Definition reach {A} (s : AuthState) (m : M AuthState AuthError A) : Prop := rtc effect s (m s).1.

Lemma reach_pure {A} s (f : AuthState → AResult A) : reach s (mpure f).
Proof. apply rtc_refl. Qed.
Lemma reach_mret {A} s (a : A) : reach s (mret a).
Proof. apply rtc_refl. Qed.
Lemma reach_mfail {A} s e : reach (A:=A) s (mfail e).
Proof. apply rtc_refl. Qed.
Lemma reach_pure_bind {A B} s f (k : A → M AuthState AuthError B) :
  (∀ a, f s = Ok a → reach s (k a)) → reach s (mbind (mpure f) k).
Proof. unfold reach, mbind, mpure. destruct (f s); [by auto|]. intros _. apply rtc_refl. Qed.
Lemma reach_lift_bind {A B} s r (k : A → M AuthState AuthError B) :
  (∀ a, r = Ok a → reach s (k a)) → reach s (mbind (lift r) k).
Proof. unfold reach, mbind, lift. destruct r; [by auto|]. intros _. apply rtc_refl. Qed.
Lemma reach_guard_bind {B} s b e (k : unit → M AuthState AuthError B) :
  (b = true → reach s (k tt)) → reach s (mbind (guard b e) k).
Proof. unfold reach, mbind, guard, lift. destruct b; [by auto|]. intros _. apply rtc_refl. Qed.
Lemma reach_modify_bind {B} s f (k : unit → M AuthState AuthError B) :
  effect s (f s) → reach (f s) (k tt) → reach s (mbind (modify f) k).
Proof. intros ? Hk. eapply rtc_l; [done|]. apply Hk. Qed.
Lemma reach_bind {A B} s (m : M AuthState AuthError A) (k : A → M AuthState AuthError B) :
  reach s m → (∀ s' a, reach s' (k a)) → reach s (mbind m k).
Proof.
  unfold reach, mbind. intros Hm Hk. destruct (m s) as [s' [a|e]]; [|done]. etrans; [done|]. apply Hk.
Qed.
End effects.

(** Inverting a request that succeeds. *)
Section runs.
Context {S A B : Type}.
Implicit Types (s : S) (b : B).

Lemma run_pure s f (k : A → M S AuthError B) s' b :
  mbind (mpure f) k s = (s', Ok b) → ∃ a, f s = Ok a ∧ k a s = (s', Ok b).
Proof. unfold mbind, mpure. destruct (f s); naive_solver. Qed.
Lemma run_lift s r (k : A → M S AuthError B) s' b :
  mbind (lift r) k s = (s', Ok b) → ∃ a, r = Ok a ∧ k a s = (s', Ok b).
Proof. unfold mbind, lift. destruct r; naive_solver. Qed.
Lemma run_guard s c e (k : unit → M S AuthError B) s' b :
  mbind (guard c e) k s = (s', Ok b) → c = true ∧ k tt s = (s', Ok b).
Proof. unfold mbind, guard, lift. destruct c; naive_solver. Qed.
Lemma run_modify s f (k : unit → M S AuthError B) s' b :
  mbind (modify f) k s = (s', Ok b) → k tt (f s) = (s', Ok b).
Proof. done. Qed.
Lemma run_bind s m (k : A → M S AuthError B) s' b :
  mbind m k s = (s', Ok b) → ∃ a, (m s).2 = Ok a ∧ k a (m s).1 = (s', Ok b).
Proof. unfold mbind. destruct (m s) as [? []]; naive_solver. Qed.
End runs.

(** Walk through the body of a request. *)
Ltac walk_step :=
  lazymatch goal with
  | |- reach _ _ _ _ (mpure _) => apply reach_pure
  | |- reach _ _ _ _ (mret _) => apply reach_mret
  | |- reach _ _ _ _ (mfail _) => apply reach_mfail
  | |- reach _ _ _ _ (mbind (mpure _) _) => apply reach_pure_bind; intros ? ?
  | |- reach _ _ _ _ (mbind (lift _) _) => apply reach_lift_bind; intros ? ?
  | |- reach _ _ _ _ (mbind (guard _ _) _) => apply reach_guard_bind; intros ?
  | |- reach _ _ _ _ (mbind (modify _) _) => apply reach_modify_bind; [|]
  | |- reach _ _ _ _ (if ?b then _ else _) => destruct b eqn:?
  | |- reach _ _ _ _ (match ?x with _ => _ end) => destruct x eqn:?
  | |- reach _ _ _ _ (let _ := _ in _) => cbv zeta
  | |- reach _ _ _ _ (mbind _ _) => apply reach_bind; [|intros ? ?]
  end.
(** Invert one step of the run [H]. *)
Ltac run_step H :=
  lazymatch type of H with
  | mbind (mpure _) _ _ = _ => apply run_pure in H as (? & ? & H)
  | mbind (lift _) _ _ = _ => apply run_lift in H as (? & ? & H)
  | mbind (guard _ _) _ _ = _ => apply run_guard in H as (? & H)
  | mbind (modify _) _ _ = _ => apply run_modify in H
  | mbind _ _ _ = _ => apply run_bind in H as (? & ? & H)
  end.
Ltac walk := repeat walk_step; eauto with effects.

Create HintDb effects.
#[export] Hint Resolve eff_revoke eff_policies eff_mounts eff_roles eff_jwt : effects.

(** * Routes *)
Section routes.
Context `{AuthCrypto, JsonText, Hmac, FederatedCrypto}.
Context (rng : Rng) (now : N) (disables : AuthScope → Prop).

(** ** Tokens *)
Lemma check_principal_active s p ns t :
  check_principal s p ns now = Ok t →
  active_token s (Principal.digest p) now false = Ok t ∧ (AuthToken.root t = false → AuthToken.namespace t = ns).
Proof.
  unfold check_principal. intros Hc. destruct (validate_namespace ns); [|done].
  destruct (active_token _ _ _ _) as [t'|]; [|done]. case_match eqn:Hb; simplify_eq. split; [done|].
  intros Hr. rewrite Hr, orb_false_iff in Hb. destruct Hb as [_ Hb]. simpl in Hb.
  by apply negb_false_iff, bool_decide_eq_true in Hb.
Qed.

Lemma token_deadlines_within parent body period root no_parent d :
  token_deadlines parent body now period root no_parent = Ok d → no_parent = false →
  ∀ e, AuthToken.expires_at parent = Some e → ∃ e', d.1 = Some e' ∧ (e' ≤ e)%N.
Proof.
  intros Hd -> e He. unfold token_deadlines in Hd. rewrite He in Hd.
  repeat (case_match; try done). simplify_eq/=.
  all: unfold opt_min in *; repeat case_match; simplify_eq; eexists; split; [done|lia].
Qed.

Lemma new_token_grantable s actor ns path body orphan t :
  fresh rng s → new_token s rng actor ns path body now orphan = Ok t → token_wf t ∧ grantable rng s now t.
Proof.
  intros Hfresh Hn. unfold new_token in Hn.
  destruct (reject_unknown _ _); [|done]. destruct (match Json.get body "type" with Some _ => _ | None => false end); [done|].
  destruct (check_principal s actor ns now) as [p|] eqn:Hp; [|done].
  apply check_principal_active in Hp as [Hact Hns].
  destruct (AuthToken.uses_remaining p) eqn:Hu; [done|].
  destruct (boolean body "no_default_policy" false) as [nd|]; [|done].
  destruct (Auth.policies body "policies" _ _) as [req|]; [|done].
  destruct (negb (AuthToken.root p) && _) eqn:Hsub; [done|].
  destruct (bool_decide ("root" ∈ req) && _) eqn:Hroot; [done|].
  destruct (if orphan then _ else _) as [no_parent|]; [|done].
  destruct (duration body "period" 0) as [period|]; [|done].
  destruct (if no_parent || _ then _ else _); [|done].
  destruct (MAX_TTL <? period)%N; [done|].
  destruct (token_deadlines _ _ _ _ _ _) as [[ex mx]|] eqn:Hd; [|done].
  destruct (match Json.get body "display_name" with Some _ => _ | None => Ok "token" end) as [dn|]; [|done].
  destruct (128 <? String.length dn); [done|].
  destruct (random_id _ _ _) as [acc|]; [|done]. destruct (boolean body "renewable" true) as [rn|]; [|done].
  destruct (number body "num_uses" 0) as [nu|]; [|done]. injection Hn as <-. split.
  - unfold token_wf. simpl. case_bool_decide as Hin; [|done]. simpl in Hroot.
    apply orb_false_iff in Hroot as [Hs%negb_false_iff%Nat.eqb_eq ->%negb_false_iff%bool_decide_eq_true].
    split; [done|]. apply size_1_elem_of in Hs as [x Hx]. set_solver.
  - eapply grant_create; [|exact Hact|done| |].
    { intros Hi. apply (Hfresh _ Hi). left. apply active_token_spec in Hact as [? _]. eauto. }
    + intros Hr. rewrite Hr in Hsub. simpl in *.
      apply orb_false_iff in Hsub as [Hsub%negb_false_iff%bool_decide_eq_true Hno]. rewrite Hno, (Hns Hr). auto.
    + simpl. destruct no_parent; [by left|]. right. split; [done|].
      intros e He. by apply (token_deadlines_within _ _ _ _ _ _ Hd eq_refl e He).
Qed.

Lemma create_token_effects s actor ns path body orphan :
  fresh rng s → reach rng now disables s (create_token rng actor ns path body now orphan).
Proof.
  intros Hfresh.
  unfold create_token. walk_step.
  unfold reach, issue. destruct (prepare_issue rng 1 a now) as [[[id t] r]|] eqn:Hi; [|apply rtc_refl].
  unfold prepare_issue in Hi. destruct (random_id rng 1 "hvs.") as [raw|] eqn:Hr; [|done]. simplify_eq.
  rename select (new_token _ _ _ _ _ _ _ _ = Ok _) into Hn.
  apply new_token_grantable in Hn as [? ?]; [|done]. apply rtc_once. by eapply eff_issue.
Qed.

Lemma renew_token_effects s id body : reach rng now disables s (renew_token id body now).
Proof.
  unfold renew_token. do 4 walk_step. walk_step. rename select (renewed_expiry _ _ _ _ = Ok _) into He.
  rename select (ok_or _ _ = Ok _) into Ht. rename select (active_token _ _ _ _ = Ok _) into Ha.
  apply reach_modify_bind; [|apply reach_mret].
  assert (tokens s !! id = Some a2) as Hid by (destruct (tokens s !! id); by simplify_eq/=).
  eapply eff_renew.
  - rewrite Ha. apply active_token_spec in Ha as [? _]. by simplify_eq.
  - unfold renewed_expiry in He. repeat (case_match; try done); simplify_eq; by apply N.leb_gt.
Qed.

#[local] Hint Resolve create_token_effects renew_token_effects : effects.

Lemma token_route_effects s principal ns method path body :
  fresh rng s → reach rng now disables s (token_route rng principal ns method path body now).
Proof.
  intros Hfresh.
  unfold token_route, token_operation. walk.
  apply rtc_once, eff_tidy.
Qed.

(** ** Policies and mounts *)
Lemma delete_policy_effect s ns name : effect rng now disables s (delete_policy ns name s).
Proof.
  unfold delete_policy. destruct (policies s !! ns); [apply eff_policies|].
  replace s with (set_policies (policies s) s) at 2 by by destruct s. apply eff_policies.
Qed.

Lemma policy_route_effects s principal ns method path body :
  reach rng now disables s (policy_route principal ns method path body now).
Proof.
  unfold policy_route, change_policy. walk. apply delete_policy_effect.
Qed.

Lemma auth_mount_route_effects s principal ns method path body :
  (∀ scope, disables_of ns method path scope → disables scope) →
  reach rng now disables s (auth_mount_route principal ns method path body now).
Proof.
  intros Hdis.
  unfold auth_mount_route, auth_mount_change. walk.
  unfold reach. cbv zeta.
  destruct (bool_decide (is_Some _)); cbn [fst].
  - eapply rtc_l; [apply eff_mounts|]. apply rtc_once, eff_disable, Hdis.
    rename select (bool_decide (method = "DELETE") = true) into Hm. apply bool_decide_eq_true in Hm.
    rename select (ok_or (strip_prefix _ _) _ = Ok _) into Hs.
    destruct (strip_prefix "sys/auth" path) eqn:Hp; simplify_eq/=. split; [done|]. split; [done|]. eauto.
  - apply rtc_once, eff_mounts.
Qed.

(** ** Users *)
Lemma existing_user_update scope f s scope' name :
  existing_user (update_users_at scope f s) scope' name =
  if decide (scope' = scope) then f (default ∅ (users_at s scope)) !! name else existing_user s scope' name.
Proof.
  destruct scope as [ns m], scope' as [ns' m']. unfold existing_user, users_at, update_users_at. cbn.
  destruct (bool_decide (m = "userpass")) eqn:Hm; destruct (bool_decide (m' = "userpass")) eqn:Hm'; cbn.
  - apply bool_decide_eq_true in Hm as ->, Hm' as ->. destruct (decide (ns' = ns)) as [->|].
    + by rewrite lookup_insert_eq, decide_True by done.
    + by rewrite lookup_insert_ne, decide_False by congruence.
  - apply bool_decide_eq_true in Hm. apply bool_decide_eq_false in Hm'. by rewrite decide_False by congruence.
  - apply bool_decide_eq_true in Hm'. apply bool_decide_eq_false in Hm. by rewrite decide_False by congruence.
  - destruct (decide (ns' = ns)) as [->|].
    + rewrite lookup_insert_eq. cbn. destruct (decide (m' = m)) as [->|].
      * rewrite lookup_insert_eq, decide_True by done. cbn. by destruct (mounted_users s !! ns).
      * rewrite lookup_insert_ne, decide_False by congruence. destruct (mounted_users s !! ns); cbn; [done|].
        by rewrite lookup_empty.
    + by rewrite lookup_insert_ne, decide_False by congruence.
Qed.

(** The ways in which administration changes a user's factor. *)
Lemma keeps_factors_insert s scope name u :
  (∀ e, User.mfa u = Some e →
     (∃ i, random_bytes rng i MFA_SEED_BYTES = Ok (TotpEnrollment.secret e)) ∨
     ∃ u0, existing_user s scope name = Some u0 ∧ User.mfa u0 = Some e) →
  keeps_factors rng s (insert_user scope name u s).
Proof.
  intros Hu sc n u' e'. unfold insert_user. rewrite existing_user_update.
  destruct (decide (sc = scope)) as [->|]; [|by eauto].
  intros [[<- <-]|[? Hn]]%lookup_insert_Some He; [by apply Hu|]. right. exists u'. split; [|done].
  unfold existing_user. by destruct (users_at s scope).
Qed.

Lemma keeps_factors_delete s scope name : keeps_factors rng s (update_users_at scope (delete name) s).
Proof.
  intros sc n u' e'. rewrite existing_user_update. destruct (decide (sc = scope)) as [->|]; [|by eauto].
  intros [? Hn]%lookup_delete_Some He. right. exists u'. split; [|done].
  unfold existing_user. by destruct (users_at s scope).
Qed.

Lemma updated_user_mfa actor subpath existing body u :
  updated_user rng actor subpath existing body = Ok u → User.mfa u = existing ≫= User.mfa.
Proof.
  unfold updated_user. intros Hu. repeat (case_match; try done). all: simplify_eq/=; by destruct existing.
Qed.

Lemma user_route_effects s principal scope method path body :
  reach rng now disables s (user_route rng principal scope method path body now).
Proof.
  unfold user_route, user_mfa. walk.
  - apply eff_users, keeps_factors_insert. done.
  - apply eff_users, keeps_factors_insert. simpl. intros e [= <-]. left. by exists 0.
  - apply eff_users, keeps_factors_delete.
  - apply eff_users, keeps_factors_insert. intros e He. right.
    rename select (updated_user _ _ _ _ _ = Ok _) into Hu. apply updated_user_mfa in Hu.
    rename select (Ok _ = Ok _) into Hx. injection Hx as <-.
    rewrite He in Hu. symmetry in Hu. by apply bind_Some in Hu.
Qed.

Lemma login_token_spec i ns pols ttl max uses name t :
  login_token rng i ns pols ttl max uses name now = Ok t →
  AuthToken.parent t = None ∧ AuthToken.root t = false ∧ (∃ e, AuthToken.expires_at t = Some e)
  ∧ "root" ∉ AuthToken.policies t ∧ AuthToken.namespace t = ns ∧ AuthToken.policies t = pols.
Proof.
  unfold login_token. case_bool_decide; [done|]. intros Ht.
  repeat (case_match; try done). simplify_eq/=. naive_solver.
Qed.

Lemma prepare_issue_spec i t id t' r :
  prepare_issue rng i t now = Ok (id, t', r) → t' = t ∧ ∃ raw, random_id rng i "hvs." = Ok raw ∧ id = hash raw.
Proof. unfold prepare_issue. destruct (random_id _ _ _); [|done]. intros [=]. eauto. Qed.

(** Storing a login's token is an effect. *)
Lemma store_login_effect s i t id t' r :
  prepare_issue rng i t now = Ok (id, t', r) → AuthToken.parent t = None → AuthToken.root t = false →
  (∃ e, AuthToken.expires_at t = Some e) → "root" ∉ AuthToken.policies t → effect rng now disables s (store_token id t' s).
Proof.
  intros [-> (raw & Hr & ->)]%prepare_issue_spec ????. eapply eff_issue; [done| |by apply grant_login].
  unfold token_wf. by case_match.
Qed.

(** An accepted counter is newer than the last, and at most one period away. *)
Lemma verify_loop_spec e supplied counters accepted c :
  verify_loop e supplied counters accepted = Some c →
  accepted = Some c ∨ c ∈ counters ∧
    (∀ last, TotpEnrollment.last_accepted_counter e = Some last → (last < c)%N) ∧
    same_code (TotpEnrollment.secret e) supplied (totp_code (TotpEnrollment.secret e) c) = true.
Proof.
  revert accepted. induction counters as [|x counters IH]; intros accepted; simpl; [by left|].
  assert (∀ o, verify_loop e supplied counters o = Some c → o = Some c ∨ (c ∈ x :: counters ∧
    (∀ last, TotpEnrollment.last_accepted_counter e = Some last → (last < c)%N) ∧
    same_code (TotpEnrollment.secret e) supplied (totp_code (TotpEnrollment.secret e) c) = true)) as IH'.
  { intros o [?|(?&?&?)]%IH; [by left|right]. rewrite elem_of_cons. auto. }
  clear IH. case_match eqn:Hold; [apply IH'|].
  destruct (same_code _ _ (totp_code _ x)) eqn:Hs; [|apply IH'].
  intros Hv. apply IH' in Hv as [Hv|]; [|by right].
  assert (c = x ∨ accepted = Some c) as [->|]; [|right|by left].
  { destruct accepted; simplify_eq; [|by left]. destruct (N.max_spec n x) as [[_ ->]|[_ ->]]; auto. }
  split; [set_solver|]. split; [|done]. intros last Hl. rewrite Hl in Hold. by apply N.leb_gt in Hold.
Qed.

Lemma check_factor_newer u body counter : check_factor u body now = Ok counter → newer u counter.
Proof.
  unfold check_factor. intros Hc e c He -> last Hl. rewrite He in Hc.
  destruct (ok_or _ _) as [supplied|]; [|done]. unfold verify_totp in Hc.
  destruct (_ || _); [done|]. destruct (verify_loop _ _ _ _) eqn:Hv; simplify_eq/=.
  apply verify_loop_spec in Hv as [?|(_&Hn&_)]; [done|]. by apply Hn.
Qed.

Lemma check_password_user u password u' : check_password u password = Ok u' → u = Some u'.
Proof. unfold check_password. intros ?. repeat (case_match; try done); simplify_eq/=; done. Qed.

Lemma login_userpass_effects s scope method name body :
  reach rng now disables s (login_userpass rng scope method name body now).
Proof.
  unfold login_userpass. do 9 walk_step. cbv zeta. walk_step.
  rename select (check_password _ _ = Ok _) into Hu. apply check_password_user in Hu.
  rename select (check_factor _ _ _ = Ok _) into Hf. apply check_factor_newer in Hf.
  rename select (login_token _ _ _ _ _ _ _ _ _ = Ok _) into Ht.
  apply login_token_spec in Ht as (?&?&?&?&_&_).
  walk_step. walk_step; [by apply eff_login|].
  walk_step; [by eapply store_login_effect|apply reach_mret].
Qed.

(** ** Roles *)
Lemma role_route_effects s principal scope method path body :
  reach rng now disables s (role_route rng principal scope method path body now).
Proof. unfold role_route, role_operation. walk. Qed.

Lemma login_approle_effects s scope method body : reach rng now disables s (login_approle rng scope method body now).
Proof.
  unfold login_approle. do 9 walk_step.
  rename select (login_token _ _ _ _ _ _ _ _ _ = Ok _) into Ht.
  apply login_token_spec in Ht as (?&?&?&?&_&_).
  walk_step; [|walk]. unfold reach, issue.
  destruct (prepare_issue _ _ _ _) as [[[id t'] r]|] eqn:Hi; [|apply rtc_refl].
  apply rtc_once. by eapply store_login_effect.
Qed.

Lemma tidy_secret_ids_effects s principal scope method path body :
  reach rng now disables s (tidy_secret_ids principal scope method path body now).
Proof. unfold tidy_secret_ids. walk. apply rtc_once, eff_roles. Qed.

(** ** External identities *)
Lemma jwt_token_spec scope role verified t :
  jwt_token rng scope role verified now = Ok t →
  AuthToken.parent t = None ∧ AuthToken.root t = false ∧ (∃ e, AuthToken.expires_at t = Some e)
  ∧ AuthToken.policies t = JwtRole.policies role.
Proof.
  unfold jwt_token. intros Ht. repeat (case_match; try done). simplify_eq/=. eauto.
Qed.

Lemma bindings_no_root role verified ns :
  bindings_refuse role verified ns = false → "root" ∉ JwtRole.policies role.
Proof. unfold bindings_refuse. rewrite !orb_false_iff, bool_decide_eq_false. tauto. Qed.

Lemma keeps_replay_id : keeps_replay id.
Proof. done. Qed.
Lemma keeps_replay_config c : keeps_replay (set_config c).
Proof. done. Qed.
Lemma keeps_replay_identity k i : keeps_replay (add_identity k i).
Proof. done. Qed.
Lemma keeps_replay_roles f : keeps_replay (λ st, set_jwt_roles (f st) st).
Proof. done. Qed.
#[local] Hint Resolve keeps_replay_id keeps_replay_config keeps_replay_identity keeps_replay_roles : effects.

Lemma admit_effects s scope fingerprint expires_at :
  reach rng now disables s (admit_external_replay scope fingerprint expires_at now).
Proof.
  unfold reach. destruct (admit_external_replay scope fingerprint expires_at now s).2 as [[]|e] eqn:Ha.
  - apply rtc_once. by apply eff_admit.
  - unfold admit_external_replay in *. cbv zeta in *.
    repeat (case_match; cbn [fst snd] in *; try (apply rtc_once, eff_jwt, keeps_replay_id)). all: done.
Qed.

Lemma jwt_login_effects s scope method body : reach rng now disables s (jwt_login rng scope method body now).
Proof.
  unfold jwt_login. do 11 walk_step. cbv zeta.
  rename select (negb _ = true) into Hb. apply negb_true_iff, bindings_no_root in Hb.
  rename select (jwt_token _ _ _ _ _ = Ok _) into Ht. apply jwt_token_spec in Ht as (?&?&?&Hpol).
  do 3 walk_step. walk_step; [apply admit_effects|].
  walk_step; [apply eff_jwt, keeps_replay_identity|].
  walk_step; [|apply reach_mret]. eapply store_login_effect; [done..|]. by rewrite Hpol.
Qed.

Lemma jwt_route_effects s principal scope method path body :
  reach rng now disables s (jwt_route rng principal scope method path body now).
Proof.
  unfold jwt_route, jwt_config_route, jwt_role_route. walk; [apply jwt_login_effects|..].
  all: apply eff_jwt; done.
Qed.

(** Every request with new random values is, whatever its outcome, a sequence
    of effects. *)
Lemma handle_effects s principal ns method path body :
  fresh rng s → (∀ scope, disables_of ns method path scope → disables scope) →
  reach rng now disables s (handle rng principal ns method path body now).
Proof.
  intros Hfresh Hdis.
  unfold handle, mount_request. do 2 walk_step. cbv zeta.
  walk; eauto using auth_mount_route_effects, token_route_effects, login_userpass_effects, user_route_effects,
    login_approle_effects, tidy_secret_ids_effects, role_route_effects, jwt_route_effects, policy_route_effects.
Qed.
End routes.
