(* ===== verification/AuthSpec.v ===== *)
(** Safety of the authentication subsystem over arbitrary histories of requests:
    dead tokens stay dead, derived tokens are never stronger than the tokens they
    come from, and root cannot be obtained without root. *)
From Stdlib Require Import Ascii NArith.
From S2P Require Import Prelude Str Json Engine Gf256 Base32 EngineState Totp Federated FederatedSpec Acl AuthState AuthRoutes AuthLogin AuthLive AuthEffects.
Import Auth AuthState AuthRoutes AuthLogin.
Create HintDb auth.

(** * Evolution of the token table *)

(** What a stored token keeps for its whole life. *)
Definition same_identity (t t' : AuthToken) : Prop :=
  AuthToken.parent t' = AuthToken.parent t ∧ AuthToken.root t' = AuthToken.root t ∧
  AuthToken.policies t' = AuthToken.policies t ∧ AuthToken.namespace t' = AuthToken.namespace t.

(** [t'] is what [t] becomes by [now]: it can only lose its usability. *)
Definition ages (now : N) (t t' : AuthToken) : Prop :=
  same_identity t t' ∧ (usable t' now → usable t now).

Lemma ages_refl now t : ages now t t.
Proof. split; [by repeat split|done]. Qed.
Lemma ages_trans now t1 t2 t3 : ages now t1 t2 → ages now t2 t3 → ages now t1 t3.
Proof. unfold ages, same_identity. intros [(?&?&?&?) ?] [(?&?&?&?) ?]. split; [repeat split; congruence|auto]. Qed.

(** Every token of [T'] is new, with an identifier of [new], or an aged token of [T]. *)
Definition evolves (new : string → Prop) (now : N) (T T' : gmap string AuthToken) : Prop :=
  ∀ x t', T' !! x = Some t' → new x ∨ ∃ t, T !! x = Some t ∧ ages now t t'.

Lemma evolves_refl new now T : evolves new now T T.
Proof. intros x t ?. right. eauto using ages_refl. Qed.
Lemma evolves_trans new now T1 T2 T3 : evolves new now T1 T2 → evolves new now T2 T3 → evolves new now T1 T3.
Proof.
  intros H12 H23 x t3 [?|(t2 & [?|(t1 & ? & ?)]%H12 & ?)]%H23; [by left..|]. right. eauto using ages_trans.
Qed.
(** Removing tokens. *)
Lemma evolves_sub new now T T' : T' ⊆ T → evolves new now T T'.
Proof. intros Hsub x t Hx. right. exists t. split; [by eapply lookup_weaken|apply ages_refl]. Qed.
(** Changing one token. *)
Lemma evolves_insert new now T x t t' :
  T !! x = Some t → ages now t t' → evolves new now T (<[x := t']> T).
Proof.
  intros Hx Ha y u [[<- <-]|[? ?]]%lookup_insert_Some; right; eauto using ages_refl.
Qed.
(** Storing a new one. *)
Lemma evolves_new (new : string → Prop) now T x t : new x → evolves new now T (<[x := t]> T).
Proof.
  intros Hx y u [[<- <-]|[? ?]]%lookup_insert_Some; [by left|right]. eauto using ages_refl.
Qed.
#[export] Hint Resolve evolves_refl evolves_sub evolves_insert evolves_new : auth.

(** Liveness follows evolution backwards, for tokens whose ancestors are not new. *)
Lemma evolves_live new now s s' x :
  (∀ y t p, tokens s !! y = Some t → AuthToken.parent t = Some p → ¬ new p) →
  evolves new now (tokens s) (tokens s') → ¬ new x → live s' now x → live s now x.
Proof.
  intros Hclean Hev Hx Hl. induction Hl as [x t Ht Hu Hp|x t p Ht Hu Hp _ IH].
  - apply Hev in Ht as [?|(t0 & ? & [(Hpar&_) ?])]; [done|]. eapply live_orphan; eauto; congruence.
  - apply Hev in Ht as [?|(t0 & ? & [(Hpar&_) ?])]; [done|].
    assert (AuthToken.parent t0 = Some p) by congruence. eapply live_child; eauto.
Qed.

(** ** The effects *)
Lemma tokens_update_users scope f s : tokens (update_users_at scope f s) = tokens s.
Proof. unfold update_users_at. by case_bool_decide. Qed.
Lemma tokens_update_roles scope f s : tokens (update_roles_at scope f s) = tokens s.
Proof. unfold update_roles_at. by case_bool_decide. Qed.

Lemma tokens_revoke_sub id s : tokens (revoke id s) ⊆ tokens s.
Proof. apply map_subseteq_spec. by intros x t [? _]%lookup_revoke. Qed.
Lemma tokens_revoke_all_sub ids s : tokens (foldl (λ s id, revoke id s) s ids) ⊆ tokens s.
Proof. revert s. induction ids as [|id ids IH]; intros s; simpl; [done|]. etrans; [apply IH|apply tokens_revoke_sub]. Qed.

Lemma tokens_disable_sub scope s : tokens (disable_auth_mount scope s) ⊆ tokens s.
Proof.
  unfold disable_auth_mount. cbv zeta. etrans; [apply tokens_revoke_all_sub|].
  case_match; simpl; by rewrite tokens_update_roles, tokens_update_users.
Qed.

Section effects.
Context `{AuthCrypto, JsonText, Hmac, FederatedCrypto}.

Lemma tokens_admit scope fp e now s : tokens (admit_external_replay scope fp e now s).1 = tokens s.
Proof. unfold admit_external_replay. cbv zeta. by repeat case_match. Qed.

(** Every effect but issuing a token ages the table. *)
Lemma effect_cases rng now dis s s' :
  effect rng now dis s s' →
  evolves (λ _, False) now (tokens s) (tokens s') ∨
  ∃ id t, issuable rng id ∧ token_wf t ∧ grantable rng s now t ∧ s' = store_token id t s.
Proof.
  destruct 1; [right; eexists (hash raw), _; repeat split; try done; by exists i, raw|left..]; try apply evolves_refl.
  - rename select (active_token _ _ _ _ = Ok _) into Ha.
    apply active_token_spec in Ha as (? & ? & _ & _). eapply evolves_insert; [done|].
    split; [done|]. intros [_ ?]. done.
  - apply evolves_sub, tokens_revoke_sub.
  - apply evolves_sub, map_filter_subseteq.
  - unfold insert_user. rewrite tokens_update_users. apply evolves_refl.
  - rewrite tokens_update_users. apply evolves_refl.
  - rewrite tokens_update_roles. apply evolves_refl.
  - rewrite tokens_admit. apply evolves_refl.
  - apply evolves_sub, tokens_disable_sub.
Qed.

Lemma effect_evolves rng now dis s s' :
  effect rng now dis s s' → evolves (issuable rng) now (tokens s) (tokens s').
Proof.
  intros [Hev|(id & t & ? & _ & _ & ->)]%effect_cases; [|by apply evolves_new].
  intros x t Hx. right. by destruct (Hev x t Hx) as [[]|?].
Qed.

Lemma effects_evolve rng now dis s s' :
  rtc (effect rng now dis) s s' → evolves (issuable rng) now (tokens s) (tokens s').
Proof. induction 1; [apply evolves_refl|]. eapply evolves_trans; [by eapply effect_evolves|done]. Qed.

Lemma authenticate_evolves new raw now s : evolves new now (tokens s) (tokens (authenticate raw now s).1).
Proof.
  rewrite authenticate_exact. case_decide as Hd; [|apply evolves_refl].
  destruct (tokens s !! hash raw) as [t|] eqn:Ht; [|apply evolves_refl]. simpl.
  eapply evolves_insert; [done|]. destruct Hd as (_ & _ & Hl).
  apply live_unfold in Hl as (t' & ? & ? & _). simplify_eq.
  split; [|done]. unfold spend. by destruct (AuthToken.uses_remaining _).
Qed.

(** * Histories *)

(** A sequence of authentications and requests, with arbitrary arguments, made
    at non-decreasing times; the random values a request draws are new, and none is
    the identifier [avoid]. *)
Inductive history (avoid : string → Prop) : AuthState → N → AuthState → N → Prop :=
| history_nil s now : history avoid s now s now
| history_auth s now raw now1 s' now' :
    (now ≤ now1)%N → history avoid (authenticate raw now1 s).1 now1 s' now' → history avoid s now s' now'
| history_request s now rng principal ns method path body now1 s' now' :
    (now ≤ now1)%N → fresh rng s → (∀ id, issuable rng id → ¬ avoid id) →
    history avoid (handle rng principal ns method path body now1 s).1 now1 s' now' →
    history avoid s now s' now'.
End effects.

Section safety.
Context `{AuthCrypto, JsonText, Hmac, FederatedCrypto}.

(** ** Dead tokens *)
Lemma fresh_parent rng s y t p :
  fresh rng s → tokens s !! y = Some t → AuthToken.parent t = Some p → ¬ issuable rng p.
Proof. intros Hf Hy Hp Hi. apply (Hf _ Hi). right. eauto. Qed.

Lemma handle_live rng principal ns method path body now s x :
  fresh rng s → ¬ issuable rng x →
  live (handle rng principal ns method path body now s).1 now x → live s now x.
Proof.
  intros Hf Hx. apply (evolves_live (issuable rng)); [by eauto using fresh_parent| |done].
  eapply effects_evolve, handle_effects; [done|]. intros scope Hs. exact Hs.
Qed.

Lemma authenticate_live raw now s x : live (authenticate raw now s).1 now x → live s now x.
Proof. apply (evolves_live (λ _, False)); [by auto|apply authenticate_evolves|auto]. Qed.

Lemma history_live avoid s now s' now' x :
  history avoid s now s' now' → avoid x → live s' now' x → live s now x.
Proof.
  induction 1 as [|s now raw now1 s' now' Hle _ IH|s now rng pr ns me pa bo now1 s' now' Hle Hf Ha _ IH]; [done|..];
    intros Hx Hl; apply (live_mono _ _ now1); try done.
  - eapply authenticate_live. by apply IH.
  - eapply handle_live; [done| |by apply IH]. intros Hi. by apply (Ha x).
Qed.

(** C27: A token that stops being live never comes back.  Once a token has been
    revoked, has expired, has spent its last use, or has lost an ancestor in one of
    these ways, then after any sequence of authentications and requests (of any
    principal, in any namespace, valid or not: renewals, logins, token creation,
    tidying, mount changes) it is still not live, and presenting it is refused
    without any change of the state.  Times do not decrease along the sequence and
    the random identifiers drawn collide with no token the state names. *)
Theorem auth_dead_forever (s : AuthState) (now : N) (s' : AuthState) (now' : N) (raw : string) :
  ¬ live s now (hash raw) →
  history (eq (hash raw)) s now s' now' →
  ∀ later, (now' ≤ later)%N → ¬ live s' later (hash raw) ∧ authenticate raw later s' = (s', Err denied).
Proof.
  intros Hd Hh later Hle.
  assert (¬ live s' later (hash raw)) as Hdead.
  { intros Hl. apply Hd. eapply history_live; [done|done|]. by apply (live_mono _ _ later). }
  split; [done|]. rewrite authenticate_exact. case_decide as Hc; [|done]. by destruct Hc as (_ & _ & ?).
Qed.

(** ** Attenuation *)

(** The invariant of the token table: records are well formed, and no token is
    stronger than its parent. *)
Record auth_inv (s : AuthState) : Prop := {
  inv_wf x t : tokens s !! x = Some t → token_wf t;
  inv_attenuates x t p pt :
    tokens s !! x = Some t → AuthToken.parent t = Some p → tokens s !! p = Some pt → attenuates pt t;
}.

(** What every step keeps while a request with the random values [rng] runs. *)
Definition clean (rng : Rng) (s : AuthState) : Prop :=
  ∀ y t p, tokens s !! y = Some t → AuthToken.parent t = Some p → ¬ issuable rng p.

(** Steps that issue nothing. *)
Lemma evolves_inv now s s' :
  evolves (λ _, False) now (tokens s) (tokens s') → auth_inv s → auth_inv s'.
Proof.
  intros Hev [Hwf Hat]. split.
  - intros x t Ht. apply Hev in Ht as [[]|(t0 & Ht & [(_&Hr&Hp&Hn) _])].
    apply Hwf in Ht. unfold token_wf in *. by rewrite Hr, Hp, Hn.
  - intros x t p pt Ht Hpar Hpt.
    apply Hev in Ht as [[]|(t0 & Ht & [(Hpar'&Hr&Hp&Hn) _])].
    apply Hev in Hpt as [[]|(pt0 & Hpt & [(_&Hr'&Hp'&Hn') _])].
    rewrite Hpar' in Hpar. specialize (Hat _ _ _ _ Ht Hpar Hpt). unfold attenuates in *.
    by rewrite Hr, Hp, Hn, Hr', Hp', Hn'.
Qed.
Lemma evolves_clean rng now s s' :
  evolves (λ _, False) now (tokens s) (tokens s') → clean rng s → clean rng s'.
Proof.
  intros Hev Hc y t p Ht Hp. apply Hev in Ht as [[]|(t0 & Ht & [(Hpar&_) _])]. eapply Hc; [done|]. congruence.
Qed.

(** The parent of a new token is stored, is not new, and is no weaker. *)
Lemma grantable_parent rng s now t p :
  grantable rng s now t → AuthToken.parent t = Some p →
  ¬ issuable rng p ∧ ∃ pt, tokens s !! p = Some pt ∧ attenuates pt t.
Proof.
  intros Hg Hp. destruct Hg as [aid actor Hni Hact _ Hat [?|[? _]]|?]; simplify_eq; try congruence.
  apply active_token_spec in Hact as [? _]. eauto.
Qed.

Lemma store_token_clean rng s now id t :
  grantable rng s now t → clean rng s → clean rng (store_token id t s).
Proof.
  intros Hg Hc y t' p. unfold store_token. cbn [tokens set_tokens].
  intros [[<- <-]|[? Hy]]%lookup_insert_Some Hp; [by eapply grantable_parent|by eapply Hc].
Qed.

(** A new token joins the table: nothing has it as its parent. *)
Lemma store_token_inv rng s now id t :
  issuable rng id → token_wf t → grantable rng s now t → clean rng s → auth_inv s →
  auth_inv (store_token id t s).
Proof.
  intros Hi Hwf Hg Hc [Hw Ha].
  split; unfold store_token; cbn [tokens set_tokens].
  - intros x t' [[<- <-]|[? ?]]%lookup_insert_Some; eauto.
  - intros x t' p pt Hx Hp Hpt. apply lookup_insert_Some in Hx as [[<- <-]|[? Hx]].
    + destruct (grantable_parent _ _ _ _ _ Hg Hp) as (? & pt' & ? & ?). rewrite lookup_insert_ne in Hpt by congruence. by simplify_eq.
    + rewrite lookup_insert_ne in Hpt; [by eauto|]. intros ->. by eapply Hc.
Qed.

Lemma effects_inv rng now dis s s' :
  rtc (effect rng now dis) s s' → clean rng s → auth_inv s → auth_inv s'.
Proof.
  induction 1 as [|s s1 s' Hstep _ IH]; [done|]. intros Hc Hi.
  apply effect_cases in Hstep as [Hev|(id & t & ? & ? & ? & ->)].
  - apply IH; [by eapply evolves_clean|by eapply evolves_inv].
  - apply IH; [by eapply store_token_clean|by eapply store_token_inv].
Qed.

Lemma history_inv avoid s now s' now' : history avoid s now s' now' → auth_inv s → auth_inv s'.
Proof.
  induction 1 as [|s now raw now1 s' now' Hle _ IH|s now rng pr ns me pa bo now1 s' now' Hle Hf Ha _ IH]; [done|..];
    intros Hi; apply IH.
  - eapply evolves_inv; [apply authenticate_evolves|done].
  - eapply effects_inv; [apply handle_effects; [done|intros scope Hs; exact Hs]| |done]. intros y t p. by apply fresh_parent.
Qed.

Lemma bootstrap_inv rng now s raw : bootstrap rng now = Ok (s, raw) → auth_inv s.
Proof.
  unfold bootstrap. intros Hb. repeat (case_match; try done). simplify_eq/=.
  split; simpl; intros x t.
  - intros [<- <-]%lookup_singleton_Some. done.
  - intros p pt [<- <-]%lookup_singleton_Some. done.
Qed.

Lemma descends_attenuates s anc x at' t :
  auth_inv s → descends s anc x → tokens s !! anc = Some at' → tokens s !! x = Some t → attenuates at' t.
Proof.
  intros Hi Hd Ha. revert t. induction Hd as [|x tx p Hx Hp Hd IH]; intros t Ht Hr; simplify_eq; [by rewrite Hr|].
  assert (∃ pt, tokens s !! p = Some pt) as [pt Hpt] by (inversion Hd; simplify_eq; eauto).
  destruct (IH pt Hpt Hr) as (Hr' & Hpol & Hns).
  destruct (inv_attenuates _ Hi _ _ _ _ Hx Hp Hpt Hr') as (? & ? & ?).
  split; [done|]. split; [set_solver|congruence].
Qed.

(** C28: Derived tokens are never stronger than the tokens they come from.  In
    every state reached from a fresh installation by any sequence of
    authentications and requests, a root token lives in the root namespace and holds
    the root policy alone, no other token holds the root policy, and a token derived,
    directly or through any number of generations, from a non-root token is not
    root, is confined to that token's namespace and holds only policies that token
    holds.  Times do not decrease along the sequence and the random identifiers drawn
    collide with no token the state names. *)
Theorem auth_no_escalation (rng : Rng) (now : N) (s0 : AuthState) (raw : string) (s : AuthState) (now' : N) :
  bootstrap rng now = Ok (s0, raw) →
  history (λ _, False) s0 now s now' →
  ∀ x t, tokens s !! x = Some t →
    (if AuthToken.root t then AuthToken.namespace t = "" ∧ AuthToken.policies t = {["root"]}
     else "root" ∉ AuthToken.policies t) ∧
    ∀ ancestor ta, descends s ancestor x → tokens s !! ancestor = Some ta → AuthToken.root ta = false →
      AuthToken.root t = false ∧ AuthToken.policies t ⊆ AuthToken.policies ta
      ∧ AuthToken.namespace t = AuthToken.namespace ta.
Proof.
  intros Hb Hh x t Ht. assert (auth_inv s) as Hi by (eapply history_inv; [done|by eapply bootstrap_inv]).
  split; [by apply (inv_wf _ Hi x)|].
  intros anc ta Hd Hta. by apply (descends_attenuates s anc x ta t).
Qed.

(** ** Root *)
Definition no_live_root (s : AuthState) (now : N) : Prop :=
  ∀ x t, tokens s !! x = Some t → live s now x → AuthToken.root t = false.

Lemma no_live_root_mono s now now' : (now ≤ now')%N → no_live_root s now → no_live_root s now'.
Proof. intros Hle Hn x t Hx Hl. apply (Hn x); [done|]. by apply (live_mono _ _ now'). Qed.

Lemma evolves_no_root now s s' :
  evolves (λ _, False) now (tokens s) (tokens s') → no_live_root s now → no_live_root s' now.
Proof.
  intros Hev Hn x t Hx Hl. pose proof Hx as Hx'. apply Hev in Hx' as [[]|(t0 & Ht & [(_ & Hr & _) _])].
  rewrite Hr. apply (Hn x); [done|]. by apply (evolves_live (λ _, False) now s s'); auto.
Qed.

(** A root token is created with a live root token only. *)
Lemma store_token_no_root rng s now id t :
  issuable rng id → grantable rng s now t → clean rng s → no_live_root s now →
  no_live_root (store_token id t s) now.
Proof.
  intros Hi Hg Hc Hn x t' Hx Hl. unfold store_token in Hx. cbn [tokens set_tokens] in Hx.
  apply lookup_insert_Some in Hx as [[<- <-]|[Hne Hx]].
  - destruct Hg as [aid actor _ Hact Hu Hat _|]; [|done]. apply Hat.
    apply active_token_spec in Hact as (Ha & He & _ & Hch). apply (Hn aid); [done|].
    apply live_unfold. exists actor. split; [done|]. split; [|done]. split; [done|].
    unfold exhausted. by rewrite Hu.
  - destruct (AuthToken.root t') eqn:Hr; [|done]. rewrite <- Hr. apply (Hn x); [done|].
    apply (evolves_live (λ y, y = id) now s (store_token id t s)).
    + intros y u p Hy Hp ->. by apply (Hc y u id).
    + by apply evolves_new.
    + done.
    + done.
Qed.

Lemma effects_no_root rng now dis s s' :
  rtc (effect rng now dis) s s' → clean rng s → no_live_root s now → no_live_root s' now.
Proof.
  induction 1 as [|s s1 s' Hstep _ IH]; [done|]. intros Hc Hn.
  apply effect_cases in Hstep as [Hev|(id & t & ? & ? & Hg & ->)].
  - apply IH; [by eapply evolves_clean|by eapply evolves_no_root].
  - apply IH; [|by eapply store_token_no_root]. by eapply store_token_clean.
Qed.

(** C29: Root cannot be obtained without root.  If at some moment no live token is
    a root token (they have expired or have been revoked), then no sequence of
    authentications and requests ever produces a live root token again, provided that
    times do not decrease along the sequence (a clock set back revives a token that
    expired) and the random identifiers drawn collide with no token the state
    names. *)
Theorem root_unobtainable (s : AuthState) (now : N) (s' : AuthState) (now' : N) :
  no_live_root s now → history (λ _, False) s now s' now' → no_live_root s' now'.
Proof.
  intros Hn Hh. revert Hn.
  induction Hh as [|s now raw now1 s' now' Hle _ IH|s now rng pr ns me pa bo now1 s' now' Hle Hf Ha _ IH]; [done|..];
    intros Hn%(no_live_root_mono _ _ now1); try done; apply IH.
  - eapply evolves_no_root; [apply authenticate_evolves|done].
  - eapply effects_no_root; [apply handle_effects; [done|intros scope Hs; exact Hs]| |done]. intros y t p. by apply fresh_parent.
Qed.
End safety.

(** * A concrete installation *)
Module AuthDemo.
#[export] Instance crypto : AuthCrypto := {|
  hash := λ s, s;
  pbkdf2_derive := λ _ salt password, salt ++ String.list_byte_of_string password;
  pbkdf2_verify := λ _ salt password v, bool_decide (salt ++ String.list_byte_of_string password = v);
  base64_decode := λ s, Some (String.list_byte_of_string s);
  base64url_encode := String.string_of_list_byte;
|}.
#[export] Instance federated : FederatedCrypto := FederatedDemo.federated.
#[export] Instance json : JsonText := {|
  json_string := λ s, Some (String.substring 1 (String.length s - 2) s);
  json_document := λ _, None; json_to_string := λ _, "";
|}.
#[export] Instance hmac : Hmac := λ _ key msg, msg ++ key.

(** A generator that returns the same identifier and bytes every time. *)
Definition rng (x : string) : Rng := mk_rng (λ _, Some x) (λ _ n, Some (repeat Byte.x01 n)).

Lemma issuable_rng x id : issuable (rng x) id → id = "hvs." +:+ x.
Proof. intros (i & raw & Hr & <-). unfold random_id in Hr. simpl in *. congruence. Qed.

(** A value is fresh when no token or parent has it, which evaluation decides. *)
Lemma fresh_rng x s :
  bool_decide (tokens s !! ("hvs." +:+ x) = None) = true →
  forallb (λ kv, negb (bool_decide (AuthToken.parent kv.2 = Some ("hvs." +:+ x)))) (map_to_list (tokens s)) = true →
  fresh (rng x) s.
Proof.
  intros Hd%bool_decide_eq_true Hp id ->%issuable_rng [[t Ht]|(y & t & Hy & Ht)]; [congruence|].
  rewrite forallb_forall in Hp. specialize (Hp (y, t)). simpl in Hp.
  rewrite bool_decide_eq_true_2 in Hp by done. apply elem_of_map_to_list, list_elem_of_In in Hy. by apply Hp in Hy.
Qed.

Definition source : string :=
  "path " +:+ q "auth/token/create" +:+ " { capabilities = [" +:+ q "update" +:+ "] } # tokens".
Definition with_policies (policies : list string) : Value :=
  Json.object [("policies", VArray (VString <$> policies)); ("no_default_policy", VBool true)].

Definition installed : AuthState :=
  match bootstrap (rng "root") 10 with Ok (s, _) => s | Err _ => mk ∅ ∅ ∅ ∅ ∅ ∅ ∅ ∅ end.
Definition post (x : string) (s : AuthState) (who path : string) (b : Value) (now : N) : AuthState :=
  (handle (rng x) (Principal.mk who <$> tokens s !! who) "" "POST" path b now s).1.

(** The administrator stores a policy and creates a token with it, which creates
    another. *)
Definition s1 : AuthState :=
  post "x" installed "hvs.root" "sys/policies/acl/dev" (Json.object [("policy", VString source)]) 11.
Definition s2 : AuthState := post "child" s1 "hvs.root" "auth/token/create" (with_policies ["dev"; "ops"]) 12.
Definition s3 : AuthState := post "grandchild" s2 "hvs.child" "auth/token/create" (with_policies ["dev"]) 13.
(** The child is revoked. *)
Definition s4 : AuthState := post "y" s3 "hvs.root" "auth/token/revoke" (Json.object [("token", VString "hvs.child")]) 14.
(** Someone tries to use the grandchild and to renew it. *)
Definition s5 : AuthState := (authenticate "hvs.grandchild" 15 s4).1.
Definition s6 : AuthState := post "z" s5 "hvs.root" "auth/token/renew" (Json.object [("token", VString "hvs.grandchild")]) 16.

(** An orphan outlives its creator and asks for root. *)
Definition r1 : AuthState := post "orphan" s1 "hvs.root" "auth/token/create-orphan" (with_policies ["dev"]) 12.
Definition r2 : AuthState := post "y" r1 "hvs.root" "auth/token/revoke-self" (Json.object []) 13.
Definition r3 : AuthState := post "new" r2 "hvs.orphan" "auth/token/create" (with_policies ["root"]) 14.

Lemma history_post avoid x s who path b now0 now s' now' :
  (now0 ≤ now)%N → fresh (rng x) s → ¬ avoid ("hvs." +:+ x) →
  history avoid (post x s who path b now) now s' now' → history avoid s now0 s' now'.
Proof. intros ? ? Ha Hh. eapply history_request; [done..| |exact Hh]. by intros id ->%issuable_rng. Qed.

(** The demonstration histories. *)
Ltac demo_step x s who path b now :=
  apply (history_post _ x s who path b _ now); [lia|apply fresh_rng; vm_compute; reflexivity|first [done|by intros []]|].

Lemma history_s3 : history (λ _, False) installed 10 s3 13.
Proof.
  demo_step "x" installed "hvs.root" "sys/policies/acl/dev" (Json.object [("policy", VString source)]) 11%N.
  demo_step "child" s1 "hvs.root" "auth/token/create" (with_policies ["dev"; "ops"]) 12%N.
  demo_step "grandchild" s2 "hvs.child" "auth/token/create" (with_policies ["dev"]) 13%N.
  apply history_nil.
Qed.

Lemma history_s6 : history (eq "hvs.grandchild") s4 14 s6 16.
Proof.
  apply (history_auth _ s4 14 "hvs.grandchild" 15); [lia|].
  demo_step "z" s5 "hvs.root" "auth/token/renew" (Json.object [("token", VString "hvs.grandchild")]) 16%N.
  apply history_nil.
Qed.
End AuthDemo.

Lemma auth_dead_forever_witness :
  ¬ live AuthDemo.s6 20 "hvs.grandchild" ∧
  authenticate (H:=AuthDemo.crypto) "hvs.grandchild" 20 AuthDemo.s6 = (AuthDemo.s6, Err denied).
Proof.
  refine (auth_dead_forever (H:=AuthDemo.crypto) AuthDemo.s4 14 AuthDemo.s6 16 "hvs.grandchild" _ AuthDemo.history_s6 20 _).
  - refine (bool_decide_eq_false_1 _ _). vm_compute. reflexivity.
  - lia.
Defined.

Lemma auth_no_escalation_witness :
  ∃ child grandchild,
    tokens AuthDemo.s3 !! "hvs.child" = Some child ∧ tokens AuthDemo.s3 !! "hvs.grandchild" = Some grandchild ∧
    AuthToken.root grandchild = false ∧ AuthToken.policies grandchild ⊆ AuthToken.policies child
    ∧ AuthToken.namespace grandchild = AuthToken.namespace child.
Proof.
  destruct (tokens AuthDemo.s3 !! "hvs.child") as [child|] eqn:Hc; [|vm_compute in Hc; discriminate].
  destruct (tokens AuthDemo.s3 !! "hvs.grandchild") as [g|] eqn:Hg; [|vm_compute in Hg; discriminate].
  exists child, g. split; [reflexivity|]. split; [reflexivity|].
  refine (proj2 (auth_no_escalation (H:=AuthDemo.crypto) (AuthDemo.rng "root") 10 AuthDemo.installed "hvs.root" AuthDemo.s3 13
    _ AuthDemo.history_s3 "hvs.grandchild" g Hg) "hvs.child" child _ Hc _).
  - vm_compute. reflexivity.
  - apply (descends_child _ _ _ g "hvs.child"); [done| |apply descends_self].
    enough (AuthToken.parent <$> tokens AuthDemo.s3 !! "hvs.grandchild" = Some (Some "hvs.child")) as He
      by (rewrite Hg in He; by injection He). vm_compute. reflexivity.
  - enough (AuthToken.root <$> tokens AuthDemo.s3 !! "hvs.child" = Some false) as He
      by (rewrite Hc in He; by injection He). vm_compute. reflexivity.
Defined.

Lemma root_unobtainable_witness : no_live_root AuthDemo.r2 13 ∧ no_live_root AuthDemo.r3 14.
Proof.
  assert (no_live_root AuthDemo.r2 13) as Hr.
  { assert (map_Forall (λ _ t, AuthToken.root t = false) (tokens AuthDemo.r2)) as Hf
      by (apply (bool_decide_unpack _); vm_compute; exact I).
    intros x t Hx _. exact (Hf x t Hx). }
  split; [exact Hr|].
  refine (root_unobtainable (H:=AuthDemo.crypto) AuthDemo.r2 13 AuthDemo.r3 14 Hr _).
  apply (AuthDemo.history_post _ "new" AuthDemo.r2 "hvs.orphan" "auth/token/create" (AuthDemo.with_policies ["root"]) _ 14);
    [lia|apply AuthDemo.fresh_rng; vm_compute; reflexivity|by intros []|apply history_nil].
Defined.
