(* ===== verification/AuthReplay.v ===== *)
(** Replay protection of the logins of [crates/heptabao-server/src/auth.rs]: an
    external assertion is admitted once, whatever the clock does, and an accepted
    second factor is never accepted again. *)
From Stdlib Require Import Ascii NArith Strings.Byte.
From S2P Require Import Prelude Str Gf256 Json Engine EngineState Base32 Totp TotpSpec Federated Acl AuthState AuthRoutes AuthLogin AuthLive AuthEffects AuthSpec.

Import Auth AuthState AuthRoutes AuthLogin.

Lemma jwt_at_update scope f s scope' :
  jwt_at (update_jwt_at scope f s) scope' =
  if decide (scope' = scope) then Some (f (default JwtMountState.default (jwt_at s scope))) else jwt_at s scope'.
Proof.
  destruct scope as [ns m], scope' as [ns' m']. unfold jwt_at, update_jwt_at. cbn.
  destruct (decide (ns' = ns)) as [->|Hns].
  - rewrite lookup_insert_eq. cbn. destruct (decide (m' = m)) as [->|Hm].
    + rewrite lookup_insert_eq, decide_True by done. by destruct (jwt_mounts s !! ns).
    + rewrite lookup_insert_ne, decide_False by congruence.
      destruct (jwt_mounts s !! ns); simpl; [done|]. apply lookup_empty.
  - by rewrite lookup_insert_ne, decide_False by congruence.
Qed.

Lemma jwt_mounts_update_users scope f s : jwt_mounts (update_users_at scope f s) = jwt_mounts s.
Proof. unfold update_users_at. by case_bool_decide. Qed.
Lemma jwt_mounts_update_roles scope f s : jwt_mounts (update_roles_at scope f s) = jwt_mounts s.
Proof. unfold update_roles_at. by case_bool_decide. Qed.
Lemma jwt_mounts_revoke_all ids s : jwt_mounts (foldl (λ s id, revoke id s) s ids) = jwt_mounts s.
Proof. revert s. induction ids as [|id ids IH]; intros s; simpl; [done|]. by rewrite IH. Qed.

(** Disabling a mount leaves the others alone. *)
Lemma jwt_at_disable scope s scope' :
  scope' ≠ scope → jwt_at (disable_auth_mount scope s) scope' = jwt_at s scope'.
Proof.
  intros Hne. unfold disable_auth_mount, jwt_at. cbv zeta. rewrite jwt_mounts_revoke_all.
  rewrite jwt_mounts_update_roles, jwt_mounts_update_users.
  destruct scope as [ns m], scope' as [ns' m']; cbn.
  destruct (jwt_mounts s !! ns) as [mounts|] eqn:Hm; cbn;
    [|by rewrite jwt_mounts_update_roles, jwt_mounts_update_users].
  rewrite ?jwt_mounts_update_roles, ?jwt_mounts_update_users.
  destruct (decide (ns' = ns)) as [->|Hns].
  - rewrite lookup_insert_eq, Hm. cbn. by rewrite lookup_delete_ne by congruence.
  - by rewrite lookup_insert_ne by congruence.
Qed.

Section replay.
Context `{AuthCrypto, JsonText, Hmac, FederatedCrypto}.

(** * External assertions *)

(** The registry refuses the fingerprint from now on: it is recorded with an
    expiry no earlier than the assertion's, or the watermark has passed that. *)
Definition spent (s : AuthState) (scope : AuthScope) (fingerprint : string) (expiry : N) : Prop :=
  ∃ st, jwt_at s scope = Some st ∧
    ((∃ e, JwtMountState.replay st !! fingerprint = Some e ∧ (expiry ≤ e)%N)
     ∨ (expiry ≤ JwtMountState.last_admission_time st)%N).

Lemma admit_ok scope fp e now s :
  (admit_external_replay scope fp e now s).2 = Ok tt →
  let st := default JwtMountState.default (jwt_at s scope) in
  (now < e)%N ∧ (JwtMountState.last_admission_time st ≤ now)%N ∧
  (∀ e', JwtMountState.replay st !! fp = Some e' → (e' ≤ now)%N) ∧
  ∀ scope', jwt_at (admit_external_replay scope fp e now s).1 scope' =
    if decide (scope' = scope) then
      Some (JwtMountState.mk (JwtMountState.config st) (JwtMountState.roles st) (JwtMountState.identities st)
              (<[fp := e]> (filter (λ kv, (now < kv.2)%N) (JwtMountState.replay st))) now)
    else jwt_at s scope'.
Proof.
  unfold admit_external_replay. cbv zeta. rewrite jwt_at_update, decide_True by done. cbn [default].
  set (st := option.default JwtMountState.default (jwt_at s scope)). cbn [id].
  destruct ((e <=? now)%N || _) eqn:Ht; [done|]. apply orb_false_iff in Ht as [He%N.leb_gt Hl%N.ltb_ge].
  destruct (match JwtMountState.replay st !! fp with Some _ => _ | None => _ end) eqn:Hr; [done|].
  destruct (MAX_EXTERNAL_REPLAY_ENTRIES <=? _); [done|]. intros _. cbn [fst].
  split; [done|]. split; [done|]. split.
  - intros e' He'. rewrite He' in Hr. by apply N.ltb_ge in Hr.
  - intros scope'. rewrite !jwt_at_update. destruct (decide (scope' = scope)); [|done].
    rewrite decide_True by done. done.
Qed.

(** An admitted fingerprint is spent. *)
Lemma admit_spends scope fp e now s :
  (admit_external_replay scope fp e now s).2 = Ok tt → spent (admit_external_replay scope fp e now s).1 scope fp e.
Proof.
  intros (_ & _ & _ & Hst)%admit_ok. specialize (Hst scope). rewrite decide_True in Hst by done.
  eexists. split; [exact Hst|]. left. exists e. cbn. by rewrite lookup_insert_eq.
Qed.

(** A spent fingerprint is not admitted, at any time. *)
Lemma spent_refused scope fp e e' now s :
  spent s scope fp e → (e' ≤ e)%N → (admit_external_replay scope fp e' now s).2 ≠ Ok tt.
Proof.
  intros (st & Hst & Hsp) Hle (Hnow & Hl & Hr & _)%admit_ok. rewrite Hst in *. cbn [default] in *.
  destruct Hsp as [(x & Hx & Hex)|Hw]; [specialize (Hr x Hx)|]; simpl in *; lia.
Qed.

Lemma spent_at s s' scope fp e : jwt_at s' scope = jwt_at s scope → spent s scope fp e → spent s' scope fp e.
Proof. unfold spent. by intros ->. Qed.

Lemma effect_spent rng now dis s s' scope fp e :
  effect rng now dis s s' → ¬ dis scope → spent s scope fp e → spent s' scope fp e.
Proof.
  destruct 1; intros Hdis Hsp; try (by apply (spent_at s)).
  - apply (spent_at s); [|done]. unfold insert_user, jwt_at. by rewrite jwt_mounts_update_users.
  - apply (spent_at s); [|done]. unfold jwt_at. by rewrite jwt_mounts_update_users.
  - apply (spent_at s); [|done]. unfold jwt_at. by rewrite jwt_mounts_update_roles.
  - destruct Hsp as (st & Hst & Hsp). unfold spent. rewrite jwt_at_update. destruct (decide _) as [<-|]; [|eauto].
    rewrite Hst. cbn. eexists; split; [done|].
    match goal with Hk : keeps_replay _ |- _ => destruct (Hk st) as [-> ->] end. done.
  - destruct Hsp as (st & Hst & Hsp). rename select (_ = Ok tt) into Ha.
    destruct (admit_ok _ _ _ _ _ Ha) as (Hnow & Hl & Hr & Hat).
    unfold spent. rewrite Hat. destruct (decide _) as [<-|]; [|eauto].
    rewrite Hst in *. cbn [option.default] in *. eexists; split; [done|]. cbn.
    destruct Hsp as [(x & Hx & Hex)|Hw]; [|right; simpl in *; lia].
    destruct (decide (fp = fingerprint)) as [<-|].
    + right. specialize (Hr x Hx). lia.
    + destruct (decide (now < x)%N); [|right; lia]. left. exists x. split; [|done].
      rewrite lookup_insert_ne by done. apply map_lookup_filter_Some. done.
  - apply (spent_at s); [|done]. apply jwt_at_disable. by intros ->.
Qed.

(** One authentication or request at any time, which does not disable a mount
    of [kept]. *)
Inductive auth_step (kept : AuthScope → Prop) : AuthState → AuthState → Prop :=
| step_authenticate s raw now : auth_step kept s (authenticate raw now s).1
| step_request s rng principal ns method path body now :
    fresh rng s → (∀ scope, kept scope → ¬ disables_of ns method path scope) →
    auth_step kept s (handle rng principal ns method path body now s).1.

Lemma jwt_mounts_authenticate raw now s : jwt_mounts (authenticate raw now s).1 = jwt_mounts s.
Proof. rewrite authenticate_exact. case_decide; [|done]. by case_match. Qed.

Lemma effects_spent rng now dis s s' scope fp e :
  rtc (effect rng now dis) s s' → ¬ dis scope → spent s scope fp e → spent s' scope fp e.
Proof. induction 1; eauto using effect_spent. Qed.

Lemma steps_spent kept s s' scope fp e :
  rtc (auth_step kept) s s' → kept scope → spent s scope fp e → spent s' scope fp e.
Proof.
  intros Hsteps Hk. induction Hsteps as [|s s1 s' Hstep _ IH]; [done|]. intros Hsp. apply IH.
  destruct Hstep as [s raw now|s rng pr ns me pa bo now Hf Hd].
  - apply (spent_at s); [|done]. unfold jwt_at. by rewrite jwt_mounts_authenticate.
  - eapply effects_spent; [apply handle_effects; [done|intros sc Hs; exact Hs]|by apply Hd|done].
Qed.

(** The principal the assertion of a login request verifies to. *)
Definition login_principal (s : AuthState) (scope : AuthScope) (body : Value) (now : N) : option VerifiedPrincipal :=
  match string_field body "jwt", jwt_at s scope ≫= JwtMountState.config with
  | Ok jwt, Some config =>
      match verifier config with
      | Ok v => match JwtVerifier.verify v jwt now with Ok p => Some p | Err _ => None end
      | Err _ => None
      end
  | _, _ => None
  end.

(** The registry's key of a principal. *)
Definition replay_key (p : VerifiedPrincipal) : string := base64url_encode (VerifiedPrincipal.replay_fingerprint p).

(** A login that is answered with a token has admitted its assertion, which is
    spent afterwards. *)
Lemma jwt_login_admits rng scope method body now s s' r :
  jwt_login rng scope method body now s = (s', Ok r) →
  ∃ p, login_principal s scope body now = Some p ∧
    (admit_external_replay scope (replay_key p) (VerifiedPrincipal.expires_at p) now s).2 = Ok tt ∧
    spent s' scope (replay_key p) (VerifiedPrincipal.expires_at p).
Proof.
  intros Hl. unfold jwt_login in Hl. do 11 run_step Hl. cbv zeta in Hl. run_step Hl.
  destruct x7 as [[token_id token] resp]. do 3 run_step Hl. injection Hl as <- <-.
  rename select (_.2 = Ok _) into Ha. match type of Ha with _ = Ok ?u => destruct u end.
  exists x5. split; [|split].
  - unfold login_principal. rename select (string_field body "jwt" = _) into Hj. rewrite Hj.
    destruct (jwt_at s scope ≫= _) as [c|]; simplify_eq/=.
    rename select (verifier _ = _) into Hv. rewrite Hv. by destruct (JwtVerifier.verify _ _ _); simplify_eq/=.
  - exact Ha.
  - eapply spent_at; [|eapply (effect_spent rng now (λ _, False)); [apply eff_jwt, keeps_replay_identity|by intros []|by apply admit_spends]].
    reflexivity.
Qed.

(** C31: An external assertion buys one token.  When a JWT login has been answered
    with a token, no later login at that mount with an assertion of the same identity
    (issuer, subject, namespace and token id) that expires no later succeeds again:
    not after any sequence of authentications and requests that keeps the mount
    enabled, and not even if the clock is set back.  The registry may drop the
    record once the assertion has expired; the admission time it keeps then refuses
    the assertion for good. *)
Theorem jwt_no_replay (rng rng' : Rng) (scope : AuthScope) (method method' : string) (body body' : Value)
    (now now' : N) (s s1 s2 : AuthState) (r : AuthResponse) (p p' : VerifiedPrincipal) :
  jwt_login rng scope method body now s = (s1, Ok r) →
  login_principal s scope body now = Some p →
  rtc (auth_step (eq scope)) s1 s2 →
  login_principal s2 scope body' now' = Some p' →
  VerifiedPrincipal.replay_identity p' = VerifiedPrincipal.replay_identity p →
  (VerifiedPrincipal.expires_at p' ≤ VerifiedPrincipal.expires_at p)%N →
  is_ok (jwt_login rng' scope method' body' now' s2).2 = false.
Proof.
  intros Hl Hp Hsteps Hp' Hid Hle. apply jwt_login_admits in Hl as (p0 & ? & _ & Hsp).
  assert (p0 = p) as -> by congruence.
  eapply steps_spent in Hsp; [|done|done].
  destruct (jwt_login rng' scope method' body' now' s2) as [s3 [r'|e]] eqn:Hl'; [|done].
  apply jwt_login_admits in Hl' as (q & Hq & Ha & _).
  assert (q = p') as -> by congruence. exfalso.
  eapply (spent_refused scope (replay_key p)); [done|exact Hle|].
  unfold replay_key, VerifiedPrincipal.replay_fingerprint. rewrite <- Hid. exact Ha.
Qed.

(** * The second factor *)

(** Every enrollment of the user with this secret has accepted a counter of at
    least [c]. *)
Definition factor_used (s : AuthState) (scope : AuthScope) (name : string) (secret : list u8) (c : N) : Prop :=
  ∀ u e, existing_user s scope name = Some u → User.mfa u = Some e → TotpEnrollment.secret e = secret →
    ∃ last, TotpEnrollment.last_accepted_counter e = Some last ∧ (c ≤ last)%N.

(** The request draws another secret. *)
Definition avoids_secret (secret : list u8) (rng : Rng) : Prop :=
  ∀ i, random_bytes rng i MFA_SEED_BYTES ≠ Ok secret.

Lemma existing_user_same s s' scope name :
  users s' = users s → mounted_users s' = mounted_users s → existing_user s' scope name = existing_user s scope name.
Proof. unfold existing_user, users_at. by intros -> ->. Qed.

Lemma factor_used_same s s' scope name secret c :
  users s' = users s → mounted_users s' = mounted_users s →
  factor_used s scope name secret c → factor_used s' scope name secret c.
Proof. intros Hu Hm. unfold factor_used. by setoid_rewrite (existing_user_same s s' scope name Hu Hm). Qed.

Lemma factor_used_keeps rng s s' scope name secret c :
  keeps_factors rng s s' → avoids_secret secret rng →
  factor_used s scope name secret c → factor_used s' scope name secret c.
Proof.
  intros Hk Ha Hf u e Hu He Hs. destruct (Hk _ _ _ _ Hu He) as [[i Hi]|(u0 & Hu0 & He0)]; [|by eapply Hf].
  exfalso. apply (Ha i). by rewrite <- Hs.
Qed.

(** Recording a newer counter. *)
Lemma record_counter_mfa counter u e :
  User.mfa (record_counter counter u) = Some e →
  ∃ e0, User.mfa u = Some e0 ∧ TotpEnrollment.secret e = TotpEnrollment.secret e0 ∧
    TotpEnrollment.last_accepted_counter e =
      match counter with Some c => Some c | None => TotpEnrollment.last_accepted_counter e0 end.
Proof.
  unfold record_counter. destruct counter as [c|]; [|by eauto].
  destruct (User.mfa u) as [e0|] eqn:He; simpl; [|congruence]. intros [= <-]. eauto.
Qed.

Lemma existing_user_insert scope name u s scope' name' :
  existing_user (insert_user scope name u s) scope' name' =
  if decide (scope' = scope ∧ name' = name) then Some u else existing_user s scope' name'.
Proof.
  unfold insert_user. rewrite existing_user_update.
  destruct (decide (scope' = scope)) as [->|]; [|rewrite decide_False by naive_solver; done].
  destruct (decide (name' = name)) as [->|].
  - by rewrite decide_True, lookup_insert_eq by done.
  - rewrite decide_False, lookup_insert_ne by naive_solver. unfold existing_user. by destruct (users_at s scope).
Qed.

Lemma factor_used_login s scope0 name0 u counter scope name secret c :
  existing_user s scope0 name0 = Some u → newer u counter →
  factor_used s scope name secret c →
  factor_used (insert_user scope0 name0 (record_counter counter u) s) scope name secret c.
Proof.
  intros Hu Hn Hf u' e. rewrite existing_user_insert. case_decide as Hd; [|by apply Hf].
  destruct Hd as [-> ->]. intros [= <-] He Hs.
  apply record_counter_mfa in He as (e0 & He0 & Hs0 & Hl).
  destruct (Hf u e0 Hu He0) as (last & Hlast & Hle); [congruence|].
  destruct counter as [c'|]; rewrite Hl; [|eauto]. exists c'. split; [done|].
  specialize (Hn e0 c' He0 eq_refl last Hlast). lia.
Qed.

Lemma keeps_factors_disable rng scope s : keeps_factors rng s (disable_auth_mount scope s).
Proof.
  assert (∀ ids s0, users (foldl (λ s id, revoke id s) s0 ids) = users s0 ∧
                    mounted_users (foldl (λ s id, revoke id s) s0 ids) = mounted_users s0) as Hr.
  { induction ids as [|id ids IH]; intros s0; [done|]. cbn. destruct (IH (revoke id s0)) as [-> ->]. done. }
  intros sc n u e Hu He. right. exists u. split; [|done]. revert Hu. unfold disable_auth_mount. cbv zeta.
  match goal with |- existing_user (foldl _ ?s1 ?ids) _ _ = _ → _ => destruct (Hr ids s1) as [Hu1 Hm1] end.
  rewrite (existing_user_same _ _ _ _ Hu1 Hm1). clear.
  intros Hu. assert (existing_user (update_users_at scope (λ _, ∅) s) sc n = Some u) as Hx.
  { rewrite <- Hu. apply existing_user_same; case_match; unfold update_roles_at; by case_bool_decide. }
  rewrite existing_user_update in Hx. destruct (decide (sc = scope)); [by rewrite lookup_empty in Hx|done].
Qed.

Lemma effect_factor rng now dis s s' scope name secret c :
  effect rng now dis s s' → avoids_secret secret rng →
  factor_used s scope name secret c → factor_used s' scope name secret c.
Proof.
  destruct 1; intros Ha Hf; try (by apply (factor_used_same s)).
  - by apply factor_used_login.
  - by eapply factor_used_keeps.
  - apply (factor_used_same s); [..|done]; unfold update_roles_at; by case_bool_decide.
  - apply (factor_used_same s); [..|done]; unfold admit_external_replay; cbv zeta; by repeat case_match.
  - eapply factor_used_keeps; [apply keeps_factors_disable|done..].
Qed.

Lemma effects_factor rng now dis s s' scope name secret c :
  rtc (effect rng now dis) s s' → avoids_secret secret rng →
  factor_used s scope name secret c → factor_used s' scope name secret c.
Proof. induction 1; eauto using effect_factor. Qed.

(** One authentication or request at any time, whose random values avoid the
    secret of an enrollment. *)
Inductive factor_step (secret : list u8) : AuthState → AuthState → Prop :=
| fstep_authenticate s raw now : factor_step secret s (authenticate raw now s).1
| fstep_request s rng principal ns method path body now :
    fresh rng s → avoids_secret secret rng →
    factor_step secret s (handle rng principal ns method path body now s).1.

Lemma steps_factor s s' scope name secret c :
  rtc (factor_step secret) s s' → factor_used s scope name secret c → factor_used s' scope name secret c.
Proof.
  induction 1 as [|s s1 s' Hstep _ IH]; [done|]. intros Hf. apply IH.
  destruct Hstep as [s raw now|s rng pr ns me pa bo now Hfr Ha].
  - apply (factor_used_same s); [..|done]; rewrite authenticate_exact; (case_decide; [|done]); by case_match.
  - eapply effects_factor; [apply handle_effects; [done|intros sc Hs; exact Hs]|done..].
Qed.

(** The user and the counter a password login accepts. *)
Definition login_counter (s : AuthState) (scope : AuthScope) (name : string) (body : Value) (now : N) :
  option (TotpEnrollment * N) :=
  match existing_user s scope name with
  | Some u => match User.mfa u, check_factor u body now with Some e, Ok (Some c) => Some (e, c) | _, _ => None end
  | None => None
  end.

Lemma login_records rng scope method name body now s s' r e c :
  login_userpass rng scope method name body now s = (s', Ok r) →
  login_counter s scope name body now = Some (e, c) →
  factor_used s' scope name (TotpEnrollment.secret e) c ∧
  ∀ last, TotpEnrollment.last_accepted_counter e = Some last → (last < c)%N.
Proof.
  intros Hl Hc. unfold login_userpass in Hl. do 9 run_step Hl. cbv zeta in Hl.
  destruct x4 as [[id t] resp]. do 2 run_step Hl. injection Hl as <- <-.
  rename select (check_password _ _ = Ok _) into Hu. apply check_password_user in Hu.
  unfold login_counter in Hc. rewrite Hu in Hc.
  rename select (check_factor _ _ _ = Ok _) into Hf. rewrite Hf in Hc.
  destruct (User.mfa _) as [e0|] eqn:He; [|done]. case_match; simplify_eq.
  apply check_factor_newer in Hf. split; [|by intros last; apply (Hf e c He eq_refl)].
  intros u' e' Hu' He' Hs. unfold store_token, existing_user in Hu'.
  change (existing_user (insert_user scope name (record_counter (Some c) x1) s) scope name = Some u') in Hu'.
  rewrite existing_user_insert, decide_True in Hu' by done. simplify_eq.
  apply record_counter_mfa in He' as (? & ? & ? & Hlast). rewrite Hlast. eauto.
Qed.

(** A one-time code is accepted at most once.  Between two accepted logins of
    the same user with the same enrolled secret, whatever authentications and
    requests (of any principal, at any time, the clock may go back) come in between,
    the time step accepted by the second is strictly later than the one accepted by
    the first; so neither the same code nor an older one opens a second session.
    The random bytes drawn in between are assumed not to repeat the secret. *)
Theorem mfa_no_replay (rng rng' : Rng) (scope : AuthScope) (method method' name : string) (body body' : Value)
    (now now' : N) (s s1 s2 : AuthState) (r r' : AuthResponse) (e e' : TotpEnrollment) (c c' : N) :
  login_userpass rng scope method name body now s = (s1, Ok r) →
  login_counter s scope name body now = Some (e, c) →
  rtc (factor_step (TotpEnrollment.secret e)) s1 s2 →
  (login_userpass rng' scope method' name body' now' s2).2 = Ok r' →
  login_counter s2 scope name body' now' = Some (e', c') →
  TotpEnrollment.secret e' = TotpEnrollment.secret e →
  (c < c')%N.
Proof.
  intros Hl Hc Hsteps Hl' Hc' Hs.
  eapply login_records in Hl as [Hf _]; [|done]. eapply steps_factor in Hf; [|done].
  apply call_answer in Hl'. eapply login_records in Hl' as [_ Hlt]; [|done].
  unfold login_counter in Hc'. destruct (existing_user s2 scope name) as [u|] eqn:Hu; [|done].
  destruct (User.mfa u) as [e0|] eqn:He; [|done]. assert (e0 = e') as -> by (repeat case_match; congruence).
  destruct (Hf u e' Hu He Hs) as (last & Hlast & ?). specialize (Hlt last Hlast). lia.
Qed.
End replay.

Module ReplayDemo.
Import AuthDemo.
Definition scope : AuthScope := mk_scope "" "jwt".
Definition config : JwtConfig :=
  JwtConfig.mk "idp" {["bao"]} None 30 3600 {["k" := JwtKeyRecord.mk "EdDSA" (zeros_n 32)]}.
Definition role : JwtRole := JwtRole.mk ∅ (Some "alice") ∅ {["dev"]} 60 600 0.
Definition configured : AuthState :=
  update_jwt_at scope (λ _, JwtMountState.mk (Some config) {["ops" := role]} ∅ ∅ 0) installed.
Definition login : Value := Json.object [("role", VString "ops"); ("jwt", VString "h.c.s")].
Definition first : AuthState * AResult AuthResponse := jwt_login (rng "a") scope "POST" login 20 configured.
(** The new token is used, and an administrator lists the mounts. *)
Definition used : AuthState := (authenticate "hvs.a" 21 first.1).1.
Definition later : AuthState :=
  (handle (rng "b") (Principal.mk "hvs.root" <$> tokens used !! "hvs.root") "" "GET" "sys/auth" (Json.object []) 150 used).1.
Definition principal : VerifiedPrincipal :=
  VerifiedPrincipal.mk "idp" "alice" {["bao"]} None ∅ "1" 10 100.

Lemma later_steps : rtc (auth_step (eq scope)) first.1 later.
Proof.
  eapply rtc_l; [apply (step_authenticate _ first.1 "hvs.a" 21)|].
  apply rtc_once. apply (step_request _ used).
  - apply fresh_rng; vm_compute; reflexivity.
  - intros sc <- (Hm & _). discriminate Hm.
Qed.
End ReplayDemo.
Import AuthDemo.

Lemma jwt_no_replay_witness :
  is_ok ReplayDemo.first.2 = true ∧
  is_ok (jwt_login (AuthDemo.rng "c") ReplayDemo.scope "PUT" ReplayDemo.login 30 ReplayDemo.later).2 = false.
Proof.
  split; [vm_compute; reflexivity|].
  destruct ReplayDemo.first.2 as [r|e] eqn:Hr; [|vm_compute in Hr; discriminate].
  refine (jwt_no_replay (AuthDemo.rng "a") (AuthDemo.rng "c") ReplayDemo.scope "POST" "PUT" ReplayDemo.login
    ReplayDemo.login 20 30 ReplayDemo.configured ReplayDemo.first.1 ReplayDemo.later r ReplayDemo.principal
    ReplayDemo.principal _ _ ReplayDemo.later_steps _ eq_refl _).
  - transitivity (ReplayDemo.first.1, ReplayDemo.first.2); [reflexivity|]. f_equal. exact Hr.
  - vm_compute. reflexivity.
  - vm_compute. reflexivity.
  - lia.
Defined.

Module FactorDemo.
Definition scope : AuthScope := mk_scope "" "userpass".
Definition secret : list u8 := repeat Byte.x04 32.
Definition bob : User :=
  User.mk [] (String.list_byte_of_string "correct horse") 1 {["dev"]} 60 600 0 (Some (TotpEnrollment.mk secret 30 6 None)).
Definition enrolled : AuthState := insert_user scope "bob" bob installed.
Definition login (counter : N) : Value :=
  Json.object [("password", VString "correct horse"); ("totp_code", VString (totp_code secret counter))].
Definition first : AuthState * AResult AuthResponse := login_userpass (rng "a") scope "POST" "bob" (login 100) 3000 enrolled.
(** The password is changed in between. *)
Definition later : AuthState :=
  (handle (rng "b") (Principal.mk "hvs.root" <$> tokens first.1 !! "hvs.root") "" "POST" "auth/userpass/users/bob/password"
     (Json.object [("password", VString "battery staple")]) 3010 first.1).1.
Definition login2 : Value :=
  Json.object [("password", VString "battery staple"); ("totp_code", VString (totp_code secret 102))].
Definition accepted : TotpEnrollment := TotpEnrollment.mk secret 30 6 (Some 100%N).

Lemma factor_steps : rtc (factor_step secret) first.1 later.
Proof.
  apply rtc_once. apply (fstep_request _ first.1).
  - apply fresh_rng; vm_compute; reflexivity.
  - intros i. vm_compute. discriminate.
Qed.
End FactorDemo.

Lemma mfa_no_replay_witness :
  is_ok FactorDemo.first.2 = true ∧
  is_ok (login_userpass (rng "c") FactorDemo.scope "POST" "bob" FactorDemo.login2 3060 FactorDemo.later).2 = true ∧
  (100 < 102)%N.
Proof.
  split; [vm_compute; reflexivity|]. split; [vm_compute; reflexivity|].
  destruct FactorDemo.first.2 as [r|er] eqn:Hr; [|vm_compute in Hr; discriminate].
  destruct (login_userpass (rng "c") FactorDemo.scope "POST" "bob" FactorDemo.login2 3060 FactorDemo.later).2
    as [r'|er] eqn:Hr'; [|vm_compute in Hr'; discriminate].
  refine (mfa_no_replay (rng "a") (rng "c") FactorDemo.scope "POST" "POST" "bob" (FactorDemo.login 100) FactorDemo.login2
    3000 3060 FactorDemo.enrolled FactorDemo.first.1 FactorDemo.later r r'
    (TotpEnrollment.mk FactorDemo.secret 30 6 None) FactorDemo.accepted 100 102 _ _ FactorDemo.factor_steps Hr' _ eq_refl).
  - transitivity (FactorDemo.first.1, FactorDemo.first.2); [reflexivity|]. f_equal. exact Hr.
  - vm_compute. reflexivity.
  - vm_compute. reflexivity.
Defined.

(** * The second factor of [crates/heptabao-server/src/auth.rs] has its own Base32
    encoder and one-time codes; they agree with those of the TOTP engine, which are
    the ones of RFC 4648 and RFC 6238. *)

Import AuthLogin.

(** * Base32 *)

Lemma mod_pow_twice a k j : (j ≤ k → (a mod 2 ^ k) mod 2 ^ j = a mod 2 ^ j)%N.
Proof.
  intros Hj. replace k with (j + (k - j))%N by lia. rewrite N.pow_add_r, N.Div0.mod_mul_r.
  rewrite (N.mul_comm (2 ^ j)), N.Div0.mod_add, N.Div0.mod_mod. done.
Qed.
Lemma mod_pow_le a b k j : (j ≤ k → a mod 2 ^ k = b mod 2 ^ k → a mod 2 ^ j = b mod 2 ^ j)%N.
Proof. intros Hj He. by rewrite <- (mod_pow_twice a k), He, mod_pow_twice. Qed.

(** Emitting symbols looks at the low bits of the accumulator only. *)
Lemma emit_low fuel acc acc' bits out :
  (acc mod 2 ^ bits = acc' mod 2 ^ bits)%N → emit fuel acc bits out = emit fuel acc' bits out.
Proof.
  revert bits out. induction fuel as [|fuel IH]; intros bits out Heq; cbn [emit]; [done|].
  destruct (N.leb_spec 5 bits); [|done]. cbv zeta.
  assert (∀ a, N.land (N.shiftr a (bits - 5)) 31 = (a mod 2 ^ bits) / 2 ^ (bits - 5))%N as Hs.
  { intros a. rewrite land_31, N.shiftr_div_pow2. change 32%N with (2 ^ 5)%N.
    replace bits with (bits - 5 + 5)%N at 2 by lia. rewrite N.pow_add_r, N.Div0.mod_mul_r.
    rewrite N.add_comm, N.mul_comm, N.div_add_l by (apply N.pow_nonzero; lia).
    rewrite (N.div_small (a mod _)) by (apply N.mod_lt, N.pow_nonzero; lia). lia. }
  rewrite !Hs, Heq. apply IH. apply (mod_pow_le _ _ bits); [lia|done].
Qed.

Lemma emit_bits fuel acc bits out : (bits ≤ N.of_nat fuel → (emit fuel acc bits out).1 < 5)%N.
Proof.
  revert bits out. induction fuel as [|fuel IH]; intros bits out Hf; cbn [emit fst]; [lia|].
  destruct (N.leb_spec 5 bits); [|done]. apply IH. lia.
Qed.
Lemma emit_bits_le fuel acc bits out : ((emit fuel acc bits out).1 ≤ bits)%N.
Proof.
  revert bits out. induction fuel as [|fuel IH]; intros bits out; cbn [emit fst]; [lia|].
  destruct (N.leb_spec 5 bits); [|done]. etrans; [apply IH|lia].
Qed.

(** Pushing a byte keeps accumulators equal in their low bits. *)
Lemma push_byte acc b : N.lor (shl32 acc 8) (U8.to_N b) = ((acc mod 2 ^ 24) * 2 ^ 8 + U8.to_N b)%N.
Proof.
  unfold shl32. rewrite N.shiftl_mul_pow2. change (2 ^ 32)%N with (2 ^ 24 * 2 ^ 8)%N.
  rewrite N.Div0.mul_mod_distr_r. apply lor_low. pose proof (Byte.to_N_bounded b). unfold U8.to_N. lia.
Qed.
Lemma push_low acc acc' bits b :
  (bits ≤ 24)%N → (acc mod 2 ^ bits = acc' mod 2 ^ bits)%N →
  (N.lor (shl32 acc 8) (U8.to_N b) mod 2 ^ (bits + 8) = N.lor (shl32 acc' 8) (U8.to_N b) mod 2 ^ (bits + 8))%N.
Proof.
  intros Hb Heq. rewrite !push_byte, (N.add_comm bits 8), N.pow_add_r, !N.Div0.mod_mul_r.
  assert (U8.to_N b < 2 ^ 8)%N by (pose proof (Byte.to_N_bounded b); unfold U8.to_N; lia).
  rewrite !N.div_add_l, (N.div_small (U8.to_N b)), !N.add_0_r, !mod_pow_twice by lia. rewrite Heq.
  f_equal. rewrite !(N.add_comm (_ * _)), !N.Div0.mod_add. done.
Qed.

Lemma base32_loop_encode bytes buffer acc bits out :
  (bits < 5)%N → acc = (buffer mod 2 ^ bits)%N → base32_loop bytes buffer bits out = encode_loop bytes acc bits out.
Proof.
  revert buffer acc bits out. induction bytes as [|b bytes IH]; intros buffer acc bits out Hb ->;
    cbn [base32_loop encode_loop].
  - destruct (N.ltb_spec 0 bits); [|done]. do 3 f_equal. rewrite !land_31. change 32%N with (2 ^ 5)%N.
    unfold shl32. rewrite !N.shiftl_mul_pow2, !mod_pow_twice by lia.
    replace (2 ^ 5)%N with (2 ^ bits * 2 ^ (5 - bits))%N by (rewrite <- N.pow_add_r; f_equal; lia).
    by rewrite !N.Div0.mul_mod_distr_r, N.Div0.mod_mod.
  - cbv zeta.
    assert (N.lor (shl32 buffer 8) (U8.to_N b) mod 2 ^ (bits + 8) =
            N.lor (shl32 (buffer mod 2 ^ bits) 8) (U8.to_N b) mod 2 ^ (bits + 8))%N as Hpush
      by (apply push_low; [lia|by rewrite N.Div0.mod_mod]).
    rewrite (emit_low _ _ _ _ _ Hpush).
    pose proof (emit_bits (N.to_nat (bits + 8)) (N.lor (shl32 (buffer mod 2 ^ bits) 8) (U8.to_N b)) (bits + 8) out ltac:(lia)) as Hlt.
    pose proof (emit_bits_le (N.to_nat (bits + 8)) (N.lor (shl32 (buffer mod 2 ^ bits) 8) (U8.to_N b)) (bits + 8) out) as Hle.
    destruct (emit _ _ _ _) as [bits' out']. cbn [fst] in *. apply IH; [done|].
    rewrite land_mask. symmetry. by apply (mod_pow_le _ _ (bits + 8)).
Qed.

Lemma base32_agrees bytes : base32_no_padding bytes = encode_base32 bytes.
Proof. by apply base32_loop_encode. Qed.

(** * One-time codes *)
Lemma read_digits_acc a s : read_digits a s = (a * 10 ^ N.of_nat (String.length s) + read_digits 0 s)%N.
Proof.
  revert a. induction s as [|c s IH]; intros a; cbn [read_digits String.length]; [lia|].
  rewrite IH, (IH (0 * 10 + _)%N), Nat2N.inj_succ, N.pow_succ_r'. lia.
Qed.

Lemma read_digits_bound s :
  str_all is_ascii_digit s = true → (read_digits 0 s < 10 ^ N.of_nat (String.length s))%N.
Proof.
  induction s as [|c s IH]; intros Hs; [done|]. simpl in Hs. apply andb_true_iff in Hs as [Hc Hs].
  cbn [read_digits String.length]. rewrite read_digits_acc, Nat2N.inj_succ, N.pow_succ_r'. specialize (IH Hs).
  unfold is_ascii_digit in Hc. apply andb_true_iff in Hc as [?%N.leb_le ?%N.leb_le]. nia.
Qed.

(** Digits of a fixed length are determined by their value. *)
Lemma read_digits_inj s t :
  str_all is_ascii_digit s = true → str_all is_ascii_digit t = true → String.length s = String.length t →
  read_digits 0 s = read_digits 0 t → s = t.
Proof.
  revert t. induction s as [|c s IH]; intros [|d t] Hs Ht Hlen Hr; try done.
  simpl in Hs, Ht, Hlen. apply andb_true_iff in Hs as [Hc Hs], Ht as [Hd Ht].
  cbn [read_digits] in Hr. rewrite read_digits_acc, (read_digits_acc (0 * 10 + _) t) in Hr.
  assert (String.length s = String.length t) as Hl by lia. rewrite Hl in Hr.
  pose proof (read_digits_bound s Hs) as Hbs. pose proof (read_digits_bound t Ht) as Hbt. rewrite Hl in Hbs.
  unfold is_ascii_digit in *. apply andb_true_iff in Hc as [?%N.leb_le ?%N.leb_le], Hd as [?%N.leb_le ?%N.leb_le].
  destruct (N.div_mod_unique (10 ^ N.of_nat (String.length t)) (0 * 10 + (N_of_ascii c - 48)) (0 * 10 + (N_of_ascii d - 48))
    (read_digits 0 s) (read_digits 0 t)) as [Hq Hst]; [done|done|lia|].
  assert (N_of_ascii c = N_of_ascii d) as Hcd by lia.
  f_equal; [|by apply IH]. by rewrite <- (ascii_N_embedding c), Hcd, ascii_N_embedding.
Qed.

Lemma code_digits_spec w v acc :
  str_all is_ascii_digit acc = true →
  String.length (code_digits w v acc) = w + String.length acc ∧ str_all is_ascii_digit (code_digits w v acc) = true ∧
  read_digits 0 (code_digits w v acc) =
    ((v mod 10 ^ N.of_nat w) * 10 ^ N.of_nat (String.length acc) + read_digits 0 acc)%N.
Proof.
  revert v acc. induction w as [|w IH]; intros v acc Ha; cbn [code_digits].
  - split; [done|]. split; [done|]. rewrite N.mod_1_r. lia.
  - assert (v mod 10 < 10)%N as Hlt by (apply N.mod_lt; lia).
    destruct (IH (v / 10)%N (String (digit (v mod 10)) acc)) as (-> & -> & ->).
    { simpl. rewrite Ha, andb_true_r. by apply Is_true_true, digit_is_digit. }
    simpl String.length. split; [lia|]. split; [done|]. cbn [read_digits].
    rewrite read_digits_acc, N_of_digit, !Nat2N.inj_succ, !N.pow_succ_r', N.Div0.mod_mul_r by done.
    assert (∀ x, 48 + x - 48 = x)%N as -> by (intros x; lia). ring.
Qed.

Section codes.
Context `{Hmac}.

(** The two implementations of one-time passwords in the server agree.  For
    every key, the code the login's second factor computes is the code the TOTP
    engine computes for a key with SHA-256 and six digits, at every counter; and the
    enrollment secret is shown in the same Base32 the engine reads back. *)
Theorem totp_implementations_agree (key : Key) (counter : N) (secret : list u8) :
  Key.algorithm key = "SHA256" → Key.digits key = 6%N → Key.secret key = secret →
  Totp.code key counter = Ok (totp_code secret counter) ∧ base32_no_padding secret = encode_base32 secret.
Proof.
  intros Ha Hd <-. split; [|apply base32_agrees].
  unfold Totp.code, Totp.hmac_algorithm, totp_code. rewrite Ha, Hd. f_equal.
  set (v := option.default 0%N (Totp.truncate _)). change (10 ^ 6)%N with 1000000%N. change (N.to_nat 6) with 6.
  assert (v mod 1000000 < 10 ^ N.of_nat 6)%N as Hv by (change (10 ^ N.of_nat 6)%N with 1000000%N; apply N.mod_lt; lia).
  destruct (padded_spec 6 (v mod 1000000) ltac:(lia) Hv) as (Hl & Had & Hr).
  destruct (code_digits_spec MFA_DIGITS (v mod 1000000) "") as (Hl' & Had' & Hr'); [done|].
  apply read_digits_inj; [by apply Is_true_true|done| |].
  - by rewrite Hl, Hl'.
  - rewrite Hr, Hr'. unfold MFA_DIGITS. rewrite (N.mod_small _ _ Hv). simpl. lia.
Qed.
End codes.

Lemma totp_implementations_agree_witness :
  let key := Key.mk (repeat x04 32) "" "" "SHA256" 6 30 1 None 0 0 in
  Totp.code (H:=TotpDemo.toy_hmac) key 7 = Ok (totp_code (H1:=TotpDemo.toy_hmac) (repeat x04 32) 7)
  ∧ base32_no_padding (repeat x04 32) = encode_base32 (repeat x04 32).
Proof.
  refine (totp_implementations_agree (H:=TotpDemo.toy_hmac) (Key.mk (repeat x04 32) "" "" "SHA256" 6 30 1 None 0 0) 7
    (repeat x04 32) eq_refl eq_refl eq_refl).
Defined.
