(* ===== verification/DurableCodec.v ===== *)
(** The persistent formats of [crates/heptabao-durable-service/src/lib.rs]: request
    keys, commit markers, snapshots, the replay ledger, journal events, their
    sealed frames and the backup bundle, with the validation every reader does.

    Encoders return the bytes they append.  A [Cursor] is the part of the input
    that is not read yet.  SHA-256 and the sealing provider are parameters. *)
From Stdlib Require Import Ascii NArith Strings.Byte.
From S2P Require Import Prelude Str Gf256 Bytes.

(** Lexicographic order, the derived [Ord] of tuples and records. *)
#[export] Instance prod_rust_ord {A B} `{RustOrd A, RustOrd B} : RustOrd (A * B) :=
  λ p q, (rust_le p.1 q.1 ∧ p.1 ≠ q.1) ∨ (p.1 = q.1 ∧ rust_le p.2 q.2).
#[export] Instance prod_rust_ord_laws {A B} `{EqDecision A, EqDecision B, RustOrdLaws A, RustOrdLaws B} :
  RustOrdLaws (A * B).
Proof.
  split; unfold rust_le at 1, prod_rust_ord.
  - intros p q. apply _.
  - intros [a b] [a' b']; simpl. destruct (decide (a = a')) as [->|Hne].
    + destruct (total rust_le b b'); auto.
    + destruct (total rust_le a a'); auto.
  - intros [a b] [a' b'] [a'' b'']; simpl. intros [[Hle Hne]|[-> Hle]] [[Hle' Hne']|[-> Hle']]; auto.
    + left. split; [by trans a'|]. intros ->. apply Hne. by apply (anti_symm rust_le).
    + right. split; [done|by trans b'].
  - intros [a b] [a' b']; simpl. intros [[Hle Hne]|[-> Hle]] [[Hle' Hne']|[? Hle']]; try done.
    + destruct Hne. by apply (anti_symm rust_le).
    + f_equal. by apply (anti_symm rust_le).
Defined.

(** * Limits *)
Definition SNAPSHOT_MAGIC : list u8 := String.list_byte_of_string "HBS2".
Definition SNAPSHOT_PLAINTEXT_MAGIC : list u8 := String.list_byte_of_string "HBP2".
Definition JOURNAL_MAGIC : list u8 := String.list_byte_of_string "HBJ2".
Definition LEDGER_MAGIC : list u8 := String.list_byte_of_string "HBL2".
Definition LEDGER_PLAINTEXT_MAGIC : list u8 := String.list_byte_of_string "HBC2".
Definition BACKUP_MAGIC : list u8 := String.list_byte_of_string "HBB2".
Definition MAX_FILE_BYTES : N := 64 * 1024 * 1024.
Definition BACKUP_VERSION : N := 1.
Definition MAX_BACKUP_BYTES : N := MAX_FILE_BYTES * 2 + 2 * 1024 * 1024.
Definition MAX_STRING_BYTES : N := 4 * 1024.
Definition MAX_SECRET_BYTES : N := 1024 * 1024.
Definition MAX_RECORDS : N := 1000000.
Definition U32_MAX : N := 4294967295.

Inductive ServiceError : Type :=
| InvalidRoot | RootNotEmpty | WriterLocked | UnsupportedProfile | LegacySchema | RecoveryRequired
| JournalCapacityExhausted | InvalidIdentifier | InvalidNamespace | InvalidResource | InvalidSecret
| InvalidAuthorizationDigest | RequestBindingConflict | RequestCapacityExhausted | BackupRollbackRejected
| GenerationOverflow | OutcomeUnknown (recovery_reference : string) | CorruptState | BarrierFailure | Io.

#[export] Instance ServiceError_eq_dec : EqDecision ServiceError.
Proof. solve_decision. Defined.

Definition SResult (A : Type) : Type := Result A ServiceError.

Definition len {A} (l : list A) : N := N.of_nat (length l).
Definition slen (s : string) : N := N.of_nat (String.length s).
Definition zero32 : list u8 := repeat x00 32.

(** * Parameters *)

(** The [Barrier] trait.  Sealing draws a nonce, which is an argument here; [None]
    is a failing random generator or [BarrierError]. *)
Class Barrier := {
  seal : option (list u8) → list u8 → list u8 → option (list u8);
  open : list u8 → list u8 → option (list u8);
}.

Class Sha256 := sha256 : list u8 → list u8.

(** * Validation *)
Definition validate_capacity (capacity : N) : SResult unit :=
  if (capacity =? 0)%N || (MAX_RECORDS <? capacity)%N then Err RequestCapacityExhausted else Ok tt.

Definition identifier_byte (c : ascii) : bool :=
  is_ascii_alphanumeric c || bool_decide (c ∈ ["-"; "_"; "."; ":"]%char).

Definition validate_identifier (value : string) : SResult unit :=
  if bool_decide (value = "") || (256 <? slen value)%N || negb (str_all identifier_byte value)
  then Err InvalidIdentifier else Ok tt.

Definition segment_byte (c : ascii) : bool :=
  is_ascii_alphanumeric c || bool_decide (c ∈ ["-"; "_"; "."]%char).

Definition segment_ok (segment : string) : bool :=
  negb (bool_decide (segment = "") || bool_decide (segment ∈ ["."; ".."]) || negb (str_all segment_byte segment)).

Definition validate_segmented_path (value : string) (maximum : N) : bool :=
  negb (bool_decide (value = "") || (maximum <? slen value)%N || starts_with "/" value || ends_with "/" value
        || negb (str_all (byte_in 0 127) value))
  && forallb segment_ok (split "/" value).

Definition validate_namespace (value : string) : SResult unit :=
  if validate_segmented_path value 1024 then Ok tt else Err InvalidNamespace.

Definition validate_resource (value : string) : SResult unit :=
  if validate_segmented_path value MAX_STRING_BYTES then Ok tt else Err InvalidResource.

(** * Digests *)
Section digests.
Context `{Sha256}.

Definition digest32 (domain : string) (bytes : list u8) : list u8 :=
  sha256 (le_bytes 8 (slen domain) ++ String.list_byte_of_string domain ++ le_bytes 8 (len bytes) ++ bytes).

Definition hex_digit (n : N) : ascii :=
  if (n <? 10)%N then ascii_of_N (48 + n) else ascii_of_N (87 + n).

Definition hex_pairs (bytes : list u8) : string :=
  foldr (λ b s, String (hex_digit (N.shiftr (U8.to_N b) 4)) (String (hex_digit (N.land (U8.to_N b) 15)) s)) "" bytes.

Definition recovery_reference (binding_digest : list u8) (generation intent_sequence : N) : string :=
  hex_pairs (take 16 (digest32 "heptabao.durable-service.recovery.v2"
    (binding_digest ++ le_bytes 8 generation ++ le_bytes 8 intent_sequence))).
End digests.

Definition context_with_u64 (domain : string) (value : N) : list u8 :=
  String.list_byte_of_string domain ++ le_bytes 8 value.
Definition snapshot_context (generation : N) : list u8 := context_with_u64 "heptabao.durable-service.snapshot.v2" generation.
Definition journal_context (sequence : N) : list u8 := context_with_u64 "heptabao.durable-service.journal.v2" sequence.
Definition ledger_context (generation : N) : list u8 := context_with_u64 "heptabao.durable-service.ledger.v2" generation.

(** [difference |= left ^ right] over the zipped bytes. *)
Fixpoint difference_loop (difference : u8) (l r : list u8) : u8 :=
  match l, r with
  | a :: l, b :: r => difference_loop (U8.wrap (N.lor (U8.to_N difference) (U8.to_N (U8.xor a b)))) l r
  | _, _ => difference
  end.

Definition constant_time_eq (l r : list u8) : bool :=
  if negb (length l =? length r) then false else U8.eqb (difference_loop x00 l r) x00.

(** * Data *)
Module RequestKey.
Record t := mk { principal : string; namespace : string; request_id : string }.
Definition fields (k : t) : string * (string * string) := (principal k, (namespace k, request_id k)).
End RequestKey.
Notation RequestKey := RequestKey.t.

#[export] Instance RequestKey_eq_dec : EqDecision RequestKey.
Proof. solve_decision. Defined.
#[export] Instance RequestKey_countable : Countable RequestKey.
Proof.
  apply (inj_countable RequestKey.fields (λ f, Some (RequestKey.mk f.1 f.2.1 f.2.2))). by intros [].
Defined.
#[export] Instance RequestKey_rust_ord : RustOrd RequestKey := λ a b, rust_le (RequestKey.fields a) (RequestKey.fields b).
#[export] Instance RequestKey_rust_ord_laws : RustOrdLaws RequestKey.
Proof.
  split; unfold rust_le, RequestKey_rust_ord.
  - intros a b. apply _.
  - intros a b. apply (total (rust_le (K := string * (string * string)))).
  - intros a b c. apply transitivity.
  - intros [] [] H1 H2.
    assert (∀ x y : string * (string * string), rust_le x y → rust_le y x → x = y) as Ha by (intros; by apply (anti_symm rust_le)).
    specialize (Ha _ _ H1 H2). unfold RequestKey.fields in Ha. simpl in Ha. congruence.
Defined.

Inductive MutationKind : Type := Put | Delete.

Module Binding.
Record t := mk {
  key : RequestKey;
  resource : string;
  kind : MutationKind;
  authorization_digest : list u8;
  value_digest : list u8;
}.

(** [encode_string], whose length prefix saturates. *)
Definition encode_string (value : string) : list u8 :=
  le_bytes 4 (N.min (slen value) U32_MAX) ++ String.list_byte_of_string value.

Definition digest `{Sha256} (self : t) : list u8 :=
  digest32 "heptabao.durable-service.binding.v1"
    (encode_string (RequestKey.principal (key self)) ++ encode_string (RequestKey.namespace (key self))
     ++ encode_string (RequestKey.request_id (key self)) ++ encode_string (resource self)
     ++ [match kind self with Put => x01 | Delete => x02 end]
     ++ authorization_digest self ++ value_digest self).

Definition storage_key (self : t) : string * string := (RequestKey.namespace (key self), resource self).
End Binding.
Notation Binding := Binding.t.

Module CommitMarker.
Record t := mk {
  key : RequestKey;
  binding_digest : list u8;
  recovery_reference : string;
  generation : N;
}.
End CommitMarker.
Notation CommitMarker := CommitMarker.t.
#[export] Instance CommitMarker_eq_dec : EqDecision CommitMarker.
Proof. solve_decision. Defined.

Module LedgerRecord.
Record t := mk {
  binding_digest : list u8;
  recovery_reference : string;
  generation : N;
}.
End LedgerRecord.
Notation LedgerRecord := LedgerRecord.t.

Notation Ledger := (gmap RequestKey LedgerRecord).

Module CheckpointMarker.
Record t := mk {
  generation : N;
  retained_requests : N;
  last_commit : option CommitMarker;
  ledger_digest : list u8;
}.
End CheckpointMarker.
Notation CheckpointMarker := CheckpointMarker.t.

Module Snapshot.
Record t := mk {
  generation : N;
  entries : gmap (string * string) (list u8);
  last_commit : option CommitMarker;
}.
End Snapshot.
Notation Snapshot := Snapshot.t.

Inductive JournalEvent : Type :=
| Intent (marker : CommitMarker)
| Commit (marker : CommitMarker)
| Abort (marker : CommitMarker)
| Checkpoint (checkpoint : CheckpointMarker).

Definition reference_ok (reference : string) : bool :=
  (String.length reference =? 32)
  && str_all (λ c, is_ascii_digit c || byte_in 65 70 c || byte_in 97 102 c) reference.

Definition validate_marker (marker : CommitMarker) : SResult unit :=
  let? _ := validate_identifier (RequestKey.principal (CommitMarker.key marker)) in
  let? _ := validate_namespace (RequestKey.namespace (CommitMarker.key marker)) in
  let? _ := validate_identifier (RequestKey.request_id (CommitMarker.key marker)) in
  if bool_decide (CommitMarker.binding_digest marker = zero32)
     || negb (reference_ok (CommitMarker.recovery_reference marker))
     || (CommitMarker.generation marker =? 0)%N
  then Err CorruptState else Ok tt.

Definition validate_ledger_record (record : LedgerRecord) : SResult unit :=
  if bool_decide (LedgerRecord.binding_digest record = zero32)
     || (LedgerRecord.generation record =? 0)%N
     || negb (reference_ok (LedgerRecord.recovery_reference record))
  then Err CorruptState else Ok tt.

(** * Writing *)
Definition write_u16 (value : N) : list u8 := le_bytes 2 value.
Definition write_u32 (value : N) : list u8 := le_bytes 4 value.
Definition write_u64 (value : N) : list u8 := le_bytes 8 value.

Definition write_bytes (value : list u8) : SResult (list u8) :=
  if (U32_MAX <? len value)%N then Err CorruptState else Ok (write_u32 (len value) ++ value).

Definition encode_string_checked (value : string) : SResult (list u8) :=
  if (MAX_STRING_BYTES * 2 <? slen value)%N then Err CorruptState
  else write_bytes (String.list_byte_of_string value).

Definition encode_request_key (key : RequestKey) : SResult (list u8) :=
  let? principal := encode_string_checked (RequestKey.principal key) in
  let? namespace := encode_string_checked (RequestKey.namespace key) in
  let? request_id := encode_string_checked (RequestKey.request_id key) in
  Ok (principal ++ namespace ++ request_id).

Definition encode_marker (marker : CommitMarker) : SResult (list u8) :=
  let? key := encode_request_key (CommitMarker.key marker) in
  let? reference := encode_string_checked (CommitMarker.recovery_reference marker) in
  Ok (key ++ CommitMarker.binding_digest marker ++ reference ++ write_u64 (CommitMarker.generation marker)).

(** An optional marker behind its presence byte. *)
Definition encode_last_commit (last_commit : option CommitMarker) : SResult (list u8) :=
  match last_commit with
  | Some marker => let? bytes := encode_marker marker in Ok (x01 :: bytes)
  | None => Ok [x00]
  end.

Fixpoint encode_all {A} (encode : A → SResult (list u8)) (items : list A) : SResult (list u8) :=
  match items with
  | [] => Ok []
  | item :: items =>
      let? bytes := encode item in
      let? rest := encode_all encode items in
      Ok (bytes ++ rest)
  end.

(** The pairs of a [BTreeMap] in the order of its keys. *)
Definition btree_pairs {K V} `{Countable K, RustOrdLaws K} (m : gmap K V) : list (K * V) :=
  omap (λ k, (λ v, (k, v)) <$> m !! k) (btree_keys m).

Definition count_u32 (n : nat) : SResult N :=
  if (U32_MAX <? N.of_nat n)%N then Err CorruptState else Ok (N.of_nat n).

Definition encode_entry (entry : (string * string) * list u8) : SResult (list u8) :=
  let? namespace := encode_string_checked entry.1.1 in
  let? resource := encode_string_checked entry.1.2 in
  let? value := write_bytes entry.2 in
  Ok (namespace ++ resource ++ value).

Definition encode_snapshot (snapshot : Snapshot) : SResult (list u8) :=
  let? last_commit := encode_last_commit (Snapshot.last_commit snapshot) in
  let? count := count_u32 (size (Snapshot.entries snapshot)) in
  let? entries := encode_all encode_entry (btree_pairs (Snapshot.entries snapshot)) in
  Ok (SNAPSHOT_PLAINTEXT_MAGIC ++ write_u64 (Snapshot.generation snapshot) ++ last_commit
      ++ write_u32 count ++ entries).

Definition encode_journal_event (event : JournalEvent) : SResult (list u8) :=
  match event with
  | Intent marker => let? bytes := encode_marker marker in Ok (x01 :: bytes)
  | Commit marker => let? bytes := encode_marker marker in Ok (x02 :: bytes)
  | Abort marker => let? bytes := encode_marker marker in Ok (x03 :: bytes)
  | Checkpoint checkpoint =>
      let? last_commit := encode_last_commit (CheckpointMarker.last_commit checkpoint) in
      Ok (x04 :: write_u64 (CheckpointMarker.generation checkpoint)
          ++ write_u64 (CheckpointMarker.retained_requests checkpoint)
          ++ last_commit ++ CheckpointMarker.ledger_digest checkpoint)
  end.

Definition encode_ledger_record (pair : RequestKey * LedgerRecord) : SResult (list u8) :=
  let? key := encode_request_key pair.1 in
  let? reference := encode_string_checked (LedgerRecord.recovery_reference pair.2) in
  Ok (key ++ LedgerRecord.binding_digest pair.2 ++ reference ++ write_u64 (LedgerRecord.generation pair.2)).

Definition encode_ledger (ledger : Ledger) : SResult (list u8) :=
  let? count := count_u32 (size ledger) in
  let? records := encode_all encode_ledger_record (btree_pairs ledger) in
  Ok (LEDGER_PLAINTEXT_MAGIC ++ write_u32 count ++ records).

(** * Reading *)
Definition Cursor : Type := list u8.
Definition Reader (A : Type) : Type := Cursor → SResult (A * Cursor).

Definition read_exact (length : N) : Reader (list u8) := λ cursor,
  if (len cursor <? length)%N then Err CorruptState
  else Ok (take (N.to_nat length) cursor, drop (N.to_nat length) cursor).

Definition read_u8 : Reader u8 := λ cursor,
  let? (bytes, cursor) := read_exact 1 cursor in
  match bytes with b :: _ => Ok (b, cursor) | [] => Err CorruptState end.

Definition read_int (width : nat) : Reader N := λ cursor,
  let? (bytes, cursor) := read_exact (N.of_nat width) cursor in Ok (of_le bytes, cursor).
Definition read_u16 : Reader N := read_int 2.
Definition read_u32 : Reader N := read_int 4.
Definition read_u64 : Reader N := read_int 8.
Definition read_array_32 : Reader (list u8) := read_exact 32.

Definition read_bytes (maximum : N) : Reader (list u8) := λ cursor,
  let? (length, cursor) := read_u32 cursor in
  if (maximum <? length)%N then Err CorruptState else read_exact length cursor.

Definition read_string (maximum : N) : Reader string := λ cursor,
  let? (bytes, cursor) := read_bytes maximum cursor in
  let value := String.string_of_list_byte bytes in
  if utf8_valid value then Ok (value, cursor) else Err CorruptState.

Definition finish (cursor : Cursor) : SResult unit :=
  match cursor with [] => Ok tt | _ => Err CorruptState end.

Definition decode_request_key : Reader RequestKey := λ cursor,
  let? (principal, cursor) := read_string 256 cursor in
  let? (namespace, cursor) := read_string 1024 cursor in
  let? (request_id, cursor) := read_string 256 cursor in
  let? _ := validate_identifier principal in
  let? _ := validate_namespace namespace in
  let? _ := validate_identifier request_id in
  Ok (RequestKey.mk principal namespace request_id, cursor).

Definition decode_marker : Reader CommitMarker := λ cursor,
  let? (key, cursor) := decode_request_key cursor in
  let? (binding_digest, cursor) := read_array_32 cursor in
  let? (reference, cursor) := read_string 128 cursor in
  let? (generation, cursor) := read_u64 cursor in
  let marker := CommitMarker.mk key binding_digest reference generation in
  let? _ := validate_marker marker in
  Ok (marker, cursor).

Definition decode_last_commit : Reader (option CommitMarker) := λ cursor,
  let? (flag, cursor) := read_u8 cursor in
  match flag with
  | x00 => Ok (None, cursor)
  | x01 => let? (marker, cursor) := decode_marker cursor in Ok (Some marker, cursor)
  | _ => Err CorruptState
  end.

(** [for _ in 0..count]: every item is inserted, and none twice. *)
Fixpoint decode_items {K V} `{Countable K} (item : Reader (K * V)) (count : nat) (m : gmap K V) : Reader (gmap K V) :=
  λ cursor,
  match count with
  | O => Ok (m, cursor)
  | S count =>
      let? (kv, cursor) := item cursor in
      match m !! kv.1 with
      | Some _ => Err CorruptState
      | None => decode_items item count (<[kv.1 := kv.2]> m) cursor
      end
  end.

Definition decode_entry : Reader ((string * string) * list u8) := λ cursor,
  let? (namespace, cursor) := read_string 1024 cursor in
  let? (resource, cursor) := read_string MAX_STRING_BYTES cursor in
  let? _ := validate_namespace namespace in
  let? _ := validate_resource resource in
  let? (value, cursor) := read_bytes MAX_SECRET_BYTES cursor in
  match value with [] => Err CorruptState | _ => Ok ((namespace, resource, value), cursor) end.

(** The bytes after an expected magic. *)
Definition after_magic (magic bytes : list u8) : SResult Cursor :=
  if (len bytes <? 4)%N || negb (bool_decide (take 4 bytes = magic)) then Err CorruptState
  else Ok (drop 4 bytes).

Definition decode_snapshot (bytes : list u8) : SResult Snapshot :=
  let? cursor := after_magic SNAPSHOT_PLAINTEXT_MAGIC bytes in
  let? (generation, cursor) := read_u64 cursor in
  let? (last_commit, cursor) := decode_last_commit cursor in
  let? (count, cursor) := read_u32 cursor in
  if (MAX_RECORDS <? count)%N then Err CorruptState
  else
    let? (entries, cursor) := decode_items decode_entry (N.to_nat count) ∅ cursor in
    let? _ := finish cursor in
    Ok (Snapshot.mk generation entries last_commit).

Definition decode_journal_event (bytes : list u8) : SResult JournalEvent :=
  let? (kind, cursor) := read_u8 bytes in
  let? (event, cursor) :=
    match kind with
    | x01 => let? (marker, cursor) := decode_marker cursor in Ok (Intent marker, cursor)
    | x02 => let? (marker, cursor) := decode_marker cursor in Ok (Commit marker, cursor)
    | x03 => let? (marker, cursor) := decode_marker cursor in Ok (Abort marker, cursor)
    | x04 =>
        let? (generation, cursor) := read_u64 cursor in
        let? (retained_requests, cursor) := read_u64 cursor in
        let? (last_commit, cursor) := decode_last_commit cursor in
        let? (ledger_digest, cursor) := read_array_32 cursor in
        Ok (Checkpoint (CheckpointMarker.mk generation retained_requests last_commit ledger_digest), cursor)
    | _ => Err CorruptState
    end in
  let? _ := finish cursor in
  Ok event.

Definition decode_ledger_record : Reader (RequestKey * LedgerRecord) := λ cursor,
  let? (key, cursor) := decode_request_key cursor in
  let? (binding_digest, cursor) := read_array_32 cursor in
  let? (reference, cursor) := read_string 128 cursor in
  let? (generation, cursor) := read_u64 cursor in
  Ok ((key, LedgerRecord.mk binding_digest reference generation), cursor).

Definition decode_ledger (bytes : list u8) : SResult Ledger :=
  let? cursor := after_magic LEDGER_PLAINTEXT_MAGIC bytes in
  let? (count, cursor) := read_u32 cursor in
  if (MAX_RECORDS <? count)%N then Err CorruptState
  else
    let? (ledger, cursor) := decode_items decode_ledger_record (N.to_nat count) ∅ cursor in
    let? _ := finish cursor in
    Ok ledger.

(** * The sealed files of [crates/heptabao-durable-service/src/lib.rs]: snapshot,
    journal and ledger frames with their checksums, the consistency checks
    between snapshot and ledger, checkpoints and the backup bundle. *)

#[export] Instance N_rust_ord : RustOrd N := N.le.
#[export] Instance N_rust_ord_laws : RustOrdLaws N.
Proof. split; unfold rust_le, N_rust_ord; apply _. Defined.

Section frames.
Context `{Barrier, Sha256}.

(** A magic, a counter, the protected payload and a checksum of all of it. *)
Definition sealed_file (magic : list u8) (domain : string) (generation : N) (protected : list u8) : SResult (list u8) :=
  let? payload := write_bytes protected in
  let encoded := magic ++ write_u64 generation ++ payload in
  Ok (encoded ++ digest32 domain encoded).

(** The reverse: the counter and the protected payload. *)
Definition open_file (magic : list u8) (domain : string) (encoded : list u8) : SResult (N * list u8) :=
  if (len encoded <? 4 + 8 + 4 + 32)%N || negb (bool_decide (take 4 encoded = magic)) then Err CorruptState
  else
    let frame_len := length encoded - 32 in
    let expected := digest32 domain (take frame_len encoded) in
    if negb (constant_time_eq expected (drop frame_len encoded)) then Err CorruptState
    else
      let? (generation, cursor) := read_u64 (drop 4 (take frame_len encoded)) in
      let? (protected, cursor) := read_bytes MAX_FILE_BYTES cursor in
      let? _ := finish cursor in
      Ok (generation, protected).

Definition SNAPSHOT_DOMAIN : string := "heptabao.durable-service.snapshot-frame.v2".
Definition JOURNAL_DOMAIN : string := "heptabao.durable-service.journal-frame.v2".
Definition LEDGER_DOMAIN : string := "heptabao.durable-service.ledger-frame.v2".

Definition sealed_snapshot (nonce : option (list u8)) (snapshot : Snapshot) : SResult (list u8) :=
  let? plaintext := encode_snapshot snapshot in
  let? protected := ok_or (seal nonce (snapshot_context (Snapshot.generation snapshot)) plaintext) BarrierFailure in
  sealed_file SNAPSHOT_MAGIC SNAPSHOT_DOMAIN (Snapshot.generation snapshot) protected.

Definition decode_snapshot_frame (encoded : list u8) : SResult Snapshot :=
  if bool_decide (take 4 encoded = String.list_byte_of_string "HBS1") then Err LegacySchema
  else
    let? (generation, protected) := open_file SNAPSHOT_MAGIC SNAPSHOT_DOMAIN encoded in
    let? plaintext := ok_or (open (snapshot_context generation) protected) BarrierFailure in
    let? snapshot := decode_snapshot plaintext in
    if negb (Snapshot.generation snapshot =? generation)%N then Err CorruptState else Ok snapshot.

Definition sealed_ledger (nonce : option (list u8)) (generation : N) (ledger : Ledger) : SResult (list u8) :=
  let? plaintext := encode_ledger ledger in
  let? protected := ok_or (seal nonce (ledger_context generation) plaintext) BarrierFailure in
  sealed_file LEDGER_MAGIC LEDGER_DOMAIN generation protected.

Definition decode_ledger_frame (encoded : list u8) : SResult (N * Ledger) :=
  let? (generation, protected) := open_file LEDGER_MAGIC LEDGER_DOMAIN encoded in
  let? plaintext := ok_or (open (ledger_context generation) protected) BarrierFailure in
  let? ledger := decode_ledger plaintext in
  Ok (generation, ledger).

(** * The journal *)
Definition sealed_journal_record (nonce : option (list u8)) (sequence : N) (event : JournalEvent) : SResult (list u8) :=
  let? plaintext := encode_journal_event event in
  let? protected := ok_or (seal nonce (journal_context sequence) plaintext) BarrierFailure in
  let? payload := write_bytes protected in
  let frame := write_u64 sequence ++ payload in
  let frame := frame ++ digest32 JOURNAL_DOMAIN frame in
  if (U32_MAX <? len frame)%N then Err CorruptState
  else Ok (write_u32 (len frame) ++ frame).

(** One turn of the loop of [decode_journal_frames]: [None] at an incomplete
    tail, otherwise the event and the bytes behind its frame. *)
Definition decode_frame (expected_sequence : N) (cursor : Cursor) : SResult (option (JournalEvent * Cursor)) :=
  if (len cursor <? 4)%N then Ok None
  else
    let? (frame_len, cursor) := read_u32 cursor in
    if negb ((8 + 4 + 32 <=? frame_len)%N && (frame_len <=? MAX_FILE_BYTES)%N) then Err CorruptState
    else if (len cursor <? frame_len)%N then Ok None
    else
      let? (frame, cursor) := read_exact frame_len cursor in
      let payload_len := length frame - 32 in
      let expected := digest32 JOURNAL_DOMAIN (take payload_len frame) in
      if negb (constant_time_eq expected (drop payload_len frame)) then Err CorruptState
      else
        let? (sequence, frame_cursor) := read_u64 (take payload_len frame) in
        if negb (sequence =? expected_sequence)%N then Err CorruptState
        else
          let? (protected, frame_cursor) := read_bytes MAX_FILE_BYTES frame_cursor in
          let? _ := finish frame_cursor in
          let? plaintext := ok_or (open (journal_context sequence) protected) BarrierFailure in
          let? event := decode_journal_event plaintext in
          Ok (Some (event, cursor)).

(** What [decode_journal_frames] found: the last sequence number, the events, the
    number of verified bytes, and whether the tail is incomplete. *)
Record Journal := mk_journal {
  jn_sequence : N;
  jn_events : list JournalEvent;
  jn_bytes : N;
  jn_incomplete : bool;
}.

(** The loop; [verified] counts the bytes of the frames read so far.  Every frame
    has bytes, so the length of the input is fuel enough ([journal_fuel]). *)
Fixpoint journal_loop (fuel : nat) (cursor : Cursor) (expected_sequence : N) (events : list JournalEvent)
    (verified : N) : SResult Journal :=
  match cursor with
  | [] => Ok (mk_journal (expected_sequence - 1) events verified false)
  | _ =>
      match fuel with
      | O => Err CorruptState
      | S fuel =>
          let? frame := decode_frame expected_sequence cursor in
          match frame with
          | None => Ok (mk_journal (expected_sequence - 1) events verified true)
          | Some (event, rest) =>
              let events := events ++ [event] in
              let? expected_sequence := ok_or (checked_add expected_sequence 1) GenerationOverflow in
              if (MAX_RECORDS <? len events)%N then Err CorruptState
              else journal_loop fuel rest expected_sequence events (verified + (len cursor - len rest))
          end
      end
  end.

Definition decode_journal_frames (encoded : list u8) : SResult Journal :=
  if negb (bool_decide (take 4 encoded = JOURNAL_MAGIC)) then Err CorruptState
  else journal_loop (length encoded) (drop 4 encoded) 1 [] 4.

(** * Consistency of snapshot and ledger *)
Fixpoint validate_records (pairs : list (RequestKey * LedgerRecord)) (generation : N)
    (generations : gset N) (references : gset string) : SResult (gset N) :=
  match pairs with
  | [] => Ok generations
  | (key, record) :: pairs =>
      let? _ := validate_identifier (RequestKey.principal key) in
      let? _ := validate_namespace (RequestKey.namespace key) in
      let? _ := validate_identifier (RequestKey.request_id key) in
      let? _ := validate_ledger_record record in
      if (generation <? LedgerRecord.generation record)%N
         || bool_decide (LedgerRecord.generation record ∈ generations)
         || bool_decide (LedgerRecord.recovery_reference record ∈ references)
      then Err CorruptState
      else validate_records pairs generation ({[LedgerRecord.generation record]} ∪ generations)
             ({[LedgerRecord.recovery_reference record]} ∪ references)
  end.

Definition validate_ledger_generation (ledger : Ledger) (generation : N) : SResult unit :=
  if negb (N.of_nat (size ledger) =? generation)%N then Err CorruptState
  else
    let? generations := validate_records (btree_pairs ledger) generation ∅ ∅ in
    if negb (bool_decide (btree_elems generations = N.of_nat <$> seq 1 (N.to_nat generation))) then Err CorruptState else Ok tt.

Definition marker_from_ledger (key : RequestKey) (record : LedgerRecord) : SResult CommitMarker :=
  let? _ := validate_ledger_record record in
  let marker := CommitMarker.mk key (LedgerRecord.binding_digest record)
                  (LedgerRecord.recovery_reference record) (LedgerRecord.generation record) in
  let? _ := validate_marker marker in
  Ok marker.

(** The marker of the record of a generation, as [last_commit] must hold it. *)
Definition marker_at (ledger : Ledger) (generation : N) : SResult CommitMarker :=
  let? (key, record) := ok_or (snd <$> list_find (λ kr, LedgerRecord.generation kr.2 = generation) (btree_pairs ledger))
                          CorruptState in
  marker_from_ledger key record.

Definition validate_committed_state (snapshot : Snapshot) (ledger_generation : N) (ledger : Ledger) : SResult unit :=
  if negb (Snapshot.generation snapshot =? ledger_generation)%N then Err CorruptState
  else
    let? _ := validate_ledger_generation ledger ledger_generation in
    if (ledger_generation =? 0)%N then
      if negb (bool_decide (Snapshot.last_commit snapshot = None)) || negb (size ledger =? 0)
      then Err CorruptState else Ok tt
    else
      let? marker := marker_at ledger ledger_generation in
      if negb (bool_decide (Snapshot.last_commit snapshot = Some marker)) then Err CorruptState else Ok tt.

Definition ledger_prefix (ledger : Ledger) (generation : N) : SResult Ledger :=
  let prefix := filter (λ kr, (LedgerRecord.generation kr.2 ≤ generation)%N) ledger in
  let? _ := validate_ledger_generation prefix generation in
  Ok prefix.

Definition CHECKPOINT_DOMAIN : string := "heptabao.durable-service.checkpoint-ledger.v1".

Definition checkpoint_marker (snapshot : Snapshot) (ledger : Ledger) : SResult CheckpointMarker :=
  let? _ := validate_committed_state snapshot (Snapshot.generation snapshot) ledger in
  let? encoded := encode_ledger ledger in
  Ok (CheckpointMarker.mk (Snapshot.generation snapshot) (N.of_nat (size ledger)) (Snapshot.last_commit snapshot)
        (digest32 CHECKPOINT_DOMAIN encoded)).

Definition validate_checkpoint (checkpoint : CheckpointMarker) (prefix : Ledger) : SResult unit :=
  if negb (CheckpointMarker.retained_requests checkpoint =? CheckpointMarker.generation checkpoint)%N
     || negb (CheckpointMarker.retained_requests checkpoint =? N.of_nat (size prefix))%N
  then Err CorruptState
  else
    let? _ := validate_ledger_generation prefix (CheckpointMarker.generation checkpoint) in
    let? encoded := encode_ledger prefix in
    let expected := digest32 CHECKPOINT_DOMAIN encoded in
    if negb (constant_time_eq (CheckpointMarker.ledger_digest checkpoint) expected) then Err CorruptState
    else if (CheckpointMarker.generation checkpoint =? 0)%N then
      if bool_decide (CheckpointMarker.last_commit checkpoint = None) then Ok tt else Err CorruptState
    else
      let? marker := marker_at prefix (CheckpointMarker.generation checkpoint) in
      if negb (bool_decide (CheckpointMarker.last_commit checkpoint = Some marker)) then Err CorruptState else Ok tt.

(** * The backup bundle *)
Definition BACKUP_DOMAIN : string := "heptabao.durable-service.backup.v1".

Definition encode_backup (generation : N) (snapshot journal ledger : list u8) : SResult (list u8) :=
  if (MAX_FILE_BYTES <? len snapshot)%N || (MAX_FILE_BYTES <? len journal)%N || (MAX_FILE_BYTES <? len ledger)%N
  then Err CorruptState
  else
    let? snapshot := write_bytes snapshot in
    let? journal := write_bytes journal in
    let? ledger := write_bytes ledger in
    let encoded := BACKUP_MAGIC ++ write_u16 BACKUP_VERSION ++ write_u16 0 ++ write_u64 generation
                     ++ snapshot ++ journal ++ ledger in
    if (MAX_BACKUP_BYTES <? len encoded + 32)%N then Err CorruptState
    else Ok (encoded ++ digest32 BACKUP_DOMAIN encoded).

Record BackupComponents := mk_backup {
  bk_snapshot_bytes : list u8;
  bk_journal_bytes : list u8;
  bk_ledger_bytes : list u8;
  bk_snapshot : Snapshot;
  bk_ledger : Ledger;
  bk_journal_sequence : N;
}.

Definition backup_header (cursor : Cursor) : SResult Cursor :=
  let? (magic, cursor) := read_exact 4 cursor in
  if negb (bool_decide (magic = BACKUP_MAGIC)) then Err CorruptState
  else
    let? (version, cursor) := read_u16 cursor in
    if negb (version =? BACKUP_VERSION)%N then Err CorruptState
    else
      let? (reserved, cursor) := read_u16 cursor in
      if negb (reserved =? 0)%N then Err CorruptState else Ok cursor.

Definition decode_backup (encoded : list u8) (max_retained_requests : N) : SResult BackupComponents :=
  if (len encoded <? 4 + 2 + 2 + 8 + 4 * 3 + 32)%N || (MAX_BACKUP_BYTES <? len encoded)%N then Err CorruptState
  else
    let payload_len := length encoded - 32 in
    let expected := digest32 BACKUP_DOMAIN (take payload_len encoded) in
    if negb (constant_time_eq expected (drop payload_len encoded)) then Err CorruptState
    else
      let? cursor := backup_header (take payload_len encoded) in
      let? (generation, cursor) := read_u64 cursor in
      let? (snapshot_bytes, cursor) := read_bytes MAX_FILE_BYTES cursor in
      let? (journal_bytes, cursor) := read_bytes MAX_FILE_BYTES cursor in
      let? (ledger_bytes, cursor) := read_bytes MAX_FILE_BYTES cursor in
      let? _ := finish cursor in
      let? snapshot := decode_snapshot_frame snapshot_bytes in
      let? (ledger_generation, ledger) := decode_ledger_frame ledger_bytes in
      let? journal := decode_journal_frames journal_bytes in
      if jn_incomplete journal || negb (jn_bytes journal =? len journal_bytes)%N
         || negb (jn_sequence journal =? 1)%N || negb (length (jn_events journal) =? 1)
         || negb (generation =? Snapshot.generation snapshot)%N || negb (generation =? ledger_generation)%N
         || (max_retained_requests <? N.of_nat (size ledger))%N
      then Err CorruptState
      else
        let? _ := validate_committed_state snapshot ledger_generation ledger in
        match jn_events journal with
        | Checkpoint checkpoint :: _ =>
            let? _ := validate_checkpoint checkpoint ledger in
            if negb (CheckpointMarker.generation checkpoint =? generation)%N then Err CorruptState
            else Ok (mk_backup snapshot_bytes journal_bytes ledger_bytes snapshot ledger (jn_sequence journal))
        | _ => Err CorruptState
        end.
End frames.
