(* ===== verification/Durable.v ===== *)
(** [DurableService] of [crates/heptabao-durable-service/src/lib.rs]: creation,
    reopening with recovery, mutations through intent, snapshot, commit and ledger,
    compaction, backup and restore.

    The directory is a map from file names to contents.  Every call that touches it
    takes an [Io]: what the directory guard answers, the nonces the barrier draws,
    and the fate of each write.  A write that fails leaves the part of its effect
    that had happened, which also describes a process that stops at that point. *)
From Stdlib Require Import Ascii NArith Strings.Byte.
From S2P Require Import Prelude Str Gf256 Bytes DurableCodec.

(** * The directory *)
Notation Disk := (gmap string (list u8)).

(** A call succeeds, or fails after so many of its elementary effects. *)
Inductive Fate : Type := Done | Fails (effects : nat).

Module Io.
Record t := mk {
  root : SResult unit;              (** [validate_root] *)
  lock : SResult unit;              (** [acquire_writer_lock] *)
  verify : SResult unit;            (** [directory.verify()] *)
  fate : nat → Fate;                (** of the writes, in order *)
  nonce : nat → option (list u8);   (** of the sealed payloads, in order *)
}.
End Io.
Notation IoTrace := Io.t.

Definition snapshot_path : string := "state.hbs".
Definition journal_path : string := "journal.hbj".
Definition ledger_path : string := "ledger.hbl".

(** [target.with_extension("tmp")]. *)
Definition with_tmp (target : string) : string := default "" (head (split "." target)) +:+ ".tmp".

(** Write a temporary file, rename it over the target, sync the directory.  The
    effects of a failing call: opening the temporary file, its bytes, the rename. *)
Definition atomic_write (fate : Fate) (target : string) (bytes : list u8) : M Disk ServiceError unit := λ disk,
  if (MAX_FILE_BYTES <? len bytes)%N then (disk, Err CorruptState)
  else
    let renamed := <[target := bytes]> (delete (with_tmp target) disk) in
    match fate with
    | Done => (renamed, Ok tt)
    | Fails 0 => (disk, Err Io)
    | Fails (S n) => (if n <=? length bytes then <[with_tmp target := take n bytes]> disk else renamed, Err Io)
    end.

(** Append to the journal; a failing call leaves some of the bytes. *)
Definition append_journal_frame (fate : Fate) (frame : list u8) : M Disk ServiceError unit := λ disk,
  match disk !! journal_path with
  | None => (disk, Err Io)
  | Some journal =>
      match fate with
      | Done => (<[journal_path := journal ++ frame]> disk, Ok tt)
      | Fails n => (<[journal_path := journal ++ take n frame]> disk, Err Io)
      end
  end.

(** [create_new(true)], the magic, the syncs. *)
Definition initialize_journal (fate : Fate) : M Disk ServiceError unit := λ disk,
  match disk !! journal_path, fate with
  | Some _, _ => (disk, Err Io)
  | None, Done => (<[journal_path := JOURNAL_MAGIC]> disk, Ok tt)
  | None, Fails 0 => (disk, Err Io)
  | None, Fails (S n) => (<[journal_path := take n JOURNAL_MAGIC]> disk, Err Io)
  end.

(** [file.set_len(bytes)] and the sync of an incomplete journal. *)
Definition truncate_journal (fate : Fate) (bytes : N) : M Disk ServiceError unit := λ disk,
  match disk !! journal_path with
  | None => (disk, Err Io)
  | Some journal =>
      let cut := <[journal_path := take (N.to_nat bytes) journal]> disk in
      match fate with
      | Done => (cut, Ok tt)
      | Fails 0 => (disk, Err Io)
      | Fails (S _) => (cut, Err Io)
      end
  end.

Definition read_bounded (disk : Disk) (path : string) : SResult (list u8) :=
  let? bytes := ok_or (disk !! path) Io in
  if (MAX_FILE_BYTES <? len bytes)%N then Err CorruptState else Ok bytes.

(** * Requests *)
Definition Secret_new (bytes : list u8) : SResult (list u8) :=
  match bytes with
  | [] => Err InvalidSecret
  | _ => if (MAX_SECRET_BYTES <? len bytes)%N then Err InvalidSecret else Ok bytes
  end.

Module PutRequest.
Record t := mk {
  principal : string;
  namespace : string;
  request_id : string;
  resource : string;
  authorization_digest : list u8;
  value : list u8;
}.

Definition validate (self : t) : SResult unit :=
  let? _ := validate_identifier (principal self) in
  let? _ := validate_namespace (namespace self) in
  let? _ := validate_identifier (request_id self) in
  let? _ := validate_resource (resource self) in
  if bool_decide (authorization_digest self = zero32) then Err InvalidAuthorizationDigest else Ok tt.

Definition new (principal namespace request_id resource : string) (authorization_digest value : list u8) : SResult t :=
  let request := mk principal namespace request_id resource authorization_digest value in
  let? _ := validate request in
  Ok request.
End PutRequest.
Notation PutRequest := PutRequest.t.

Module DeleteRequest.
Record t := mk {
  principal : string;
  namespace : string;
  request_id : string;
  resource : string;
  authorization_digest : list u8;
}.

Definition validate (self : t) : SResult unit :=
  let? _ := validate_identifier (principal self) in
  let? _ := validate_namespace (namespace self) in
  let? _ := validate_identifier (request_id self) in
  let? _ := validate_resource (resource self) in
  if bool_decide (authorization_digest self = zero32) then Err InvalidAuthorizationDigest else Ok tt.

Definition new (principal namespace request_id resource : string) (authorization_digest : list u8) : SResult t :=
  let request := mk principal namespace request_id resource authorization_digest in
  let? _ := validate request in
  Ok request.
End DeleteRequest.
Notation DeleteRequest := DeleteRequest.t.

Inductive Failpoint : Type := NoFailpoint | AfterIntent | AfterSnapshotPublication | AfterCommitJournal.
#[export] Instance Failpoint_eq_dec : EqDecision Failpoint.
Proof. solve_decision. Defined.

Inductive MutationOutcome : Type :=
| Committed (generation : N) (recovery_reference : string)
| Duplicate (generation : N) (recovery_reference : string).

Inductive ReconciliationStatus : Type :=
| StatusCommitted (generation : N)
| StatusAborted
| StatusUnknown.

Record CompactionOutcome := mk_compaction {
  co_generation : N;
  co_retained_requests : N;
  co_journal_bytes_before : N;
  co_journal_bytes_after : N;
}.

Record RestoreOutcome := mk_restore {
  ro_previous_generation : N;
  ro_restored_generation : N;
  ro_retained_requests : N;
}.

(** * The service *)
Module DurableService.
Record t := mk {
  disk : Disk;
  snapshot : Snapshot;
  ledger : Ledger;
  reconciliation : gmap string ReconciliationStatus;
  journal_sequence : N;
  journal_bytes : N;
  journal_limit : N;
  max_retained_requests : N;
  unresolved : bool;
}.

Definition set_disk (d : Disk) (s : t) : t :=
  mk d (snapshot s) (ledger s) (reconciliation s) (journal_sequence s) (journal_bytes s) (journal_limit s)
     (max_retained_requests s) (unresolved s).
Definition set_snapshot (v : Snapshot) (s : t) : t :=
  mk (disk s) v (ledger s) (reconciliation s) (journal_sequence s) (journal_bytes s) (journal_limit s)
     (max_retained_requests s) (unresolved s).
Definition set_ledger (l : Ledger) (s : t) : t :=
  mk (disk s) (snapshot s) l (reconciliation s) (journal_sequence s) (journal_bytes s) (journal_limit s)
     (max_retained_requests s) (unresolved s).
Definition set_reconciliation (r : gmap string ReconciliationStatus) (s : t) : t :=
  mk (disk s) (snapshot s) (ledger s) r (journal_sequence s) (journal_bytes s) (journal_limit s)
     (max_retained_requests s) (unresolved s).
Definition set_journal (sequence bytes : N) (s : t) : t :=
  mk (disk s) (snapshot s) (ledger s) (reconciliation s) sequence bytes (journal_limit s)
     (max_retained_requests s) (unresolved s).
Definition set_unresolved (b : bool) (s : t) : t :=
  mk (disk s) (snapshot s) (ledger s) (reconciliation s) (journal_sequence s) (journal_bytes s) (journal_limit s)
     (max_retained_requests s) b.

(** A write to the directory of the service. *)
Definition on_disk (m : M Disk ServiceError unit) : M t ServiceError unit := λ self,
  let '(d, r) := m (disk self) in (set_disk d self, r).

Section service.
Context `{Barrier, Sha256}.

Definition create_new (io : IoTrace) (max_retained_requests : N) (disk : Disk) : Disk * SResult t :=
  let snapshot := Snapshot.mk 0 ∅ None in
  match validate_capacity max_retained_requests, Io.root io with
  | Err e, _ => (disk, Err e)
  | _, Err e => (disk, Err e)
  | Ok _, Ok _ =>
      if negb (size disk =? 0) then (disk, Err RootNotEmpty)
      else match Io.lock io with
      | Err e => (disk, Err e)
      | Ok _ =>
          let m : M Disk ServiceError unit :=
            do? bytes := mpure (λ _, sealed_snapshot (Io.nonce io 0) snapshot) in
            atomic_write (Io.fate io 0) snapshot_path bytes ;;?
            initialize_journal (Io.fate io 1) ;;?
            do? bytes := mpure (λ _, sealed_ledger (Io.nonce io 1) 0 ∅) in
            atomic_write (Io.fate io 2) ledger_path bytes in
          match m disk with
          | (disk, Err e) => (disk, Err e)
          | (disk, Ok _) => (disk, Ok (mk disk snapshot ∅ ∅ 0 4 MAX_FILE_BYTES max_retained_requests false))
          end
      end
  end.

Definition get (self : t) (namespace resource : string) : SResult (option (list u8)) :=
  let? _ := validate_namespace namespace in
  let? _ := validate_resource resource in
  if unresolved self then Err RecoveryRequired
  else Ok (Snapshot.entries (snapshot self) !! (namespace, resource)).

Definition recovery_required (self : t) : bool := unresolved self.

Definition reconcile (self : t) (reference : string) : ReconciliationStatus :=
  default StatusUnknown (reconciliation self !! reference).

Definition generation (self : t) : N := Snapshot.generation (snapshot self).

Definition retained_request_count (self : t) : N := N.of_nat (size (ledger self)).

(** * Mutations *)
Definition append_frame (fate : Fate) (frame : list u8) : M t ServiceError unit := λ self,
  match checked_add (journal_sequence self) 1 with
  | None => (self, Err GenerationOverflow)
  | Some next =>
      let size := (journal_bytes self + len frame)%N in
      if (journal_limit self <? size)%N || (MAX_RECORDS <? next)%N then (self, Err JournalCapacityExhausted)
      else
        (on_disk (append_journal_frame fate frame) ;;?
         λ self, (set_journal next size self, Ok tt)) self
  end.

Definition append_event (fate : Fate) (nonce : option (list u8)) (event : JournalEvent) : M t ServiceError unit := λ self,
  match (let? sequence := ok_or (checked_add (journal_sequence self) 1) GenerationOverflow in
         sealed_journal_record nonce sequence event) with
  | Err e => (self, Err e)
  | Ok frame => append_frame fate frame self
  end.

(** Everything a mutation has ready before its first durable write. *)
Record Prepared := mk_prepared {
  pr_marker : CommitMarker;
  pr_candidate : Snapshot;
  pr_candidate_ledger : Ledger;
  pr_snapshot_bytes : list u8;
  pr_ledger_bytes : list u8;
  pr_intent : list u8;
  pr_commit : list u8;
}.

Definition candidate_entries (entries : gmap (string * string) (list u8)) (binding : Binding) (value : option (list u8)) :
  SResult (gmap (string * string) (list u8)) :=
  match Binding.kind binding with
  | Put => let? value := ok_or value InvalidSecret in Ok (<[Binding.storage_key binding := value]> entries)
  | Delete => Ok (delete (Binding.storage_key binding) entries)
  end.

Definition prepare (io : IoTrace) (self : t) (binding : Binding) (value : option (list u8)) : SResult Prepared :=
  let binding_digest := Binding.digest binding in
  let? generation := ok_or (checked_add (Snapshot.generation (snapshot self)) 1) GenerationOverflow in
  let? intent_sequence := ok_or (checked_add (journal_sequence self) 1) GenerationOverflow in
  let? terminal_sequence := ok_or (checked_add intent_sequence 1) GenerationOverflow in
  let reference := recovery_reference binding_digest generation intent_sequence in
  let marker := CommitMarker.mk (Binding.key binding) binding_digest reference generation in
  let? entries := candidate_entries (Snapshot.entries (snapshot self)) binding value in
  let candidate := Snapshot.mk generation entries (Some marker) in
  let candidate_ledger :=
    <[Binding.key binding := LedgerRecord.mk binding_digest reference generation]> (ledger self) in
  let? snapshot_bytes := sealed_snapshot (Io.nonce io 0) candidate in
  let? ledger_bytes := sealed_ledger (Io.nonce io 1) generation candidate_ledger in
  let? intent := sealed_journal_record (Io.nonce io 2) intent_sequence (Intent marker) in
  let? commit := sealed_journal_record (Io.nonce io 3) terminal_sequence (Commit marker) in
  if (MAX_FILE_BYTES <? len snapshot_bytes)%N || (MAX_FILE_BYTES <? len ledger_bytes)%N
  then Err RequestCapacityExhausted
  else if (MAX_RECORDS <? terminal_sequence)%N
          || (journal_limit self <? journal_bytes self + len intent + len commit)%N
  then Err JournalCapacityExhausted
  else Ok (mk_prepared marker candidate candidate_ledger snapshot_bytes ledger_bytes intent commit).

Definition stop_at (failpoint here : Failpoint) : M t ServiceError unit := λ self,
  (self, if bool_decide (failpoint = here) then Err RecoveryRequired else Ok tt).

(** The durable writes of a mutation, in order. *)
Definition publish (io : IoTrace) (failpoint : Failpoint) (p : Prepared) : M t ServiceError unit :=
  append_frame (Io.fate io 0) (pr_intent p) ;;?
  stop_at failpoint AfterIntent ;;?
  on_disk (atomic_write (Io.fate io 1) snapshot_path (pr_snapshot_bytes p)) ;;?
  (λ self, (set_snapshot (pr_candidate p) self, Ok tt)) ;;?
  stop_at failpoint AfterSnapshotPublication ;;?
  append_frame (Io.fate io 2) (pr_commit p) ;;?
  stop_at failpoint AfterCommitJournal ;;?
  on_disk (atomic_write (Io.fate io 3) ledger_path (pr_ledger_bytes p)) ;;?
  (λ self, (set_ledger (pr_candidate_ledger p) self, Ok tt)).

Definition execute (io : IoTrace) (binding : Binding) (value : option (list u8)) (failpoint : Failpoint) :
  M t ServiceError MutationOutcome := λ self,
  if unresolved self then (self, Err RecoveryRequired)
  else match Io.verify io with
  | Err e => (self, Err e)
  | Ok _ =>
      match ledger self !! Binding.key binding with
      | Some existing =>
          if negb (bool_decide (LedgerRecord.binding_digest existing = Binding.digest binding))
          then (self, Err RequestBindingConflict)
          else (self, Ok (Duplicate (LedgerRecord.generation existing) (LedgerRecord.recovery_reference existing)))
      | None =>
          if (max_retained_requests self <=? N.of_nat (size (ledger self)))%N then (self, Err RequestCapacityExhausted)
          else match prepare io self binding value with
          | Err e => (self, Err e)
          | Ok p =>
              let reference := CommitMarker.recovery_reference (pr_marker p) in
              let generation := CommitMarker.generation (pr_marker p) in
              match publish io failpoint p (set_unresolved true self) with
              | (self, Err _) => (self, Err (OutcomeUnknown reference))
              | (self, Ok _) =>
                  (set_unresolved false
                     (set_reconciliation (<[reference := StatusCommitted generation]> (reconciliation self)) self),
                   Ok (Committed generation reference))
              end
          end
      end
  end.

Definition put_binding (request : PutRequest) : Binding :=
  Binding.mk (RequestKey.mk (PutRequest.principal request) (PutRequest.namespace request) (PutRequest.request_id request))
    (PutRequest.resource request) Put (PutRequest.authorization_digest request)
    (digest32 "heptabao.durable-service.value.v1" (PutRequest.value request)).

Definition put_with_failpoint (io : IoTrace) (request : PutRequest) (failpoint : Failpoint) :
  M t ServiceError MutationOutcome := λ self,
  match PutRequest.validate request with
  | Err e => (self, Err e)
  | Ok _ => execute io (put_binding request) (Some (PutRequest.value request)) failpoint self
  end.

Definition put (io : IoTrace) (request : PutRequest) : M t ServiceError MutationOutcome :=
  put_with_failpoint io request NoFailpoint.

Definition delete_binding (request : DeleteRequest) : Binding :=
  Binding.mk (RequestKey.mk (DeleteRequest.principal request) (DeleteRequest.namespace request)
                (DeleteRequest.request_id request))
    (DeleteRequest.resource request) Delete (DeleteRequest.authorization_digest request)
    (digest32 "heptabao.durable-service.delete.v1" (String.list_byte_of_string "delete")).

Definition delete_with_failpoint (io : IoTrace) (request : DeleteRequest) (failpoint : Failpoint) :
  M t ServiceError MutationOutcome := λ self,
  match DeleteRequest.validate request with
  | Err e => (self, Err e)
  | Ok _ => execute io (delete_binding request) None failpoint self
  end.

Definition delete (io : IoTrace) (request : DeleteRequest) : M t ServiceError MutationOutcome :=
  delete_with_failpoint io request NoFailpoint.

(** * Maintenance *)

(** A journal that holds one checkpoint of the committed state. *)
Definition checkpoint_journal (nonce : option (list u8)) (self : t) : SResult (list u8) :=
  let? checkpoint := checkpoint_marker (snapshot self) (ledger self) in
  let? frame := sealed_journal_record nonce 1 (Checkpoint checkpoint) in
  Ok (JOURNAL_MAGIC ++ frame).

Definition compact (io : IoTrace) : M t ServiceError CompactionOutcome := λ self,
  if unresolved self then (self, Err RecoveryRequired)
  else
    match (let? _ := Io.verify io in
           let? _ := validate_committed_state (snapshot self) (Snapshot.generation (snapshot self)) (ledger self) in
           checkpoint_journal (Io.nonce io 0) self) with
    | Err e => (self, Err e)
    | Ok journal =>
        if (journal_limit self <? len journal)%N then (self, Err JournalCapacityExhausted)
        else
          match on_disk (atomic_write (Io.fate io 0) journal_path journal) (set_unresolved true self) with
          | (self, Err e) => (self, Err e)
          | (self', Ok _) =>
              (set_unresolved false (set_journal 1 (len journal) self'),
               Ok (mk_compaction (Snapshot.generation (snapshot self)) (N.of_nat (size (ledger self)))
                     (journal_bytes self) (len journal)))
          end
    end.

Definition export_backup (io : IoTrace) (self : t) : SResult (list u8) :=
  if unresolved self then Err RecoveryRequired
  else
    let? _ := Io.verify io in
    let generation := Snapshot.generation (snapshot self) in
    let? _ := validate_committed_state (snapshot self) generation (ledger self) in
    let? snapshot_bytes := sealed_snapshot (Io.nonce io 0) (snapshot self) in
    let? ledger_bytes := sealed_ledger (Io.nonce io 1) generation (ledger self) in
    let? journal := checkpoint_journal (Io.nonce io 2) self in
    encode_backup generation snapshot_bytes journal ledger_bytes.

(** The loop of [rebuild_reconciliation]. *)
Fixpoint rebuild_loop (records : list LedgerRecord) (r : gmap string ReconciliationStatus) :
  gmap string ReconciliationStatus * SResult unit :=
  match records with
  | [] => (r, Ok tt)
  | record :: records =>
      match validate_ledger_record record with
      | Err e => (r, Err e)
      | Ok _ => rebuild_loop records
                  (<[LedgerRecord.recovery_reference record := StatusCommitted (LedgerRecord.generation record)]> r)
      end
  end.

Definition rebuild_reconciliation : M t ServiceError unit := λ self,
  let '(r, result) := rebuild_loop (btree_values (ledger self)) ∅ in
  (set_reconciliation r self, result).

Definition restore_backup (io : IoTrace) (backup : list u8) (allow_rollback : bool) : M t ServiceError RestoreOutcome :=
  λ self,
  if unresolved self then (self, Err RecoveryRequired)
  else
    match (let? _ := Io.verify io in decode_backup backup (max_retained_requests self)) with
    | Err e => (self, Err e)
    | Ok restored =>
        let previous_generation := Snapshot.generation (snapshot self) in
        if (Snapshot.generation (bk_snapshot restored) <? previous_generation)%N && negb allow_rollback
        then (self, Err BackupRollbackRejected)
        else
          (on_disk (atomic_write (Io.fate io 0) snapshot_path (bk_snapshot_bytes restored)) ;;?
           on_disk (atomic_write (Io.fate io 1) ledger_path (bk_ledger_bytes restored)) ;;?
           on_disk (atomic_write (Io.fate io 2) journal_path (bk_journal_bytes restored)) ;;?
           (λ self, (set_journal (bk_journal_sequence restored) (len (bk_journal_bytes restored))
                       (set_ledger (bk_ledger restored) (set_snapshot (bk_snapshot restored) self)), Ok tt)) ;;?
           rebuild_reconciliation ;;?
           (λ self, (set_unresolved false self,
                     Ok (mk_restore previous_generation (Snapshot.generation (snapshot self))
                           (N.of_nat (size (ledger self)))))))
          (set_unresolved true self)
    end.

(** * Recovery *)

(** What the journal says, event by event. *)
Record Scan := mk_scan {
  sc_pending : option CommitMarker;
  sc_committed : gmap RequestKey CommitMarker;
  sc_last_commit : option CommitMarker;
  sc_generation : N;
  sc_references : gset string;
  sc_saw_checkpoint : bool;
  sc_reconciliation : gmap string ReconciliationStatus;
}.

Definition scan_start : Scan := mk_scan None ∅ None 0 ∅ false ∅.

(** [for (key, record) in prefix] of a checkpoint. *)
Fixpoint scan_prefix (pairs : list (RequestKey * LedgerRecord)) (references : gset string)
    (committed : gmap RequestKey CommitMarker) : SResult (gset string * gmap RequestKey CommitMarker) :=
  match pairs with
  | [] => Ok (references, committed)
  | (key, record) :: pairs =>
      let? marker := marker_from_ledger key record in
      if bool_decide (CommitMarker.recovery_reference marker ∈ references) then Err CorruptState
      else scan_prefix pairs ({[CommitMarker.recovery_reference marker]} ∪ references) (<[key := marker]> committed)
  end.

Definition scan_checkpoint (ledger : Ledger) (offset : nat) (checkpoint : CheckpointMarker) (s : Scan) : SResult Scan :=
  if negb (offset =? 0) || sc_saw_checkpoint s || negb (bool_decide (sc_pending s = None))
     || negb (size (sc_committed s) =? 0)
  then Err CorruptState
  else
    let? prefix := ledger_prefix ledger (CheckpointMarker.generation checkpoint) in
    let? _ := validate_checkpoint checkpoint prefix in
    let? (references, committed) := scan_prefix (btree_pairs prefix) (sc_references s) (sc_committed s) in
    Ok (mk_scan (sc_pending s) committed (CheckpointMarker.last_commit checkpoint)
          (CheckpointMarker.generation checkpoint) references true (sc_reconciliation s)).

Definition scan_intent (offset : nat) (marker : CommitMarker) (s : Scan) : SResult Scan :=
  let? _ := validate_marker marker in
  let sequence := (N.of_nat offset + 1)%N in
  let reference := CommitMarker.recovery_reference marker in
  if negb (bool_decide (sc_pending s = None)) || bool_decide (is_Some (sc_committed s !! CommitMarker.key marker))
  then Err CorruptState
  else
    let? next := ok_or (checked_add (sc_generation s) 1) GenerationOverflow in
    if negb (CommitMarker.generation marker =? next)%N
       || negb (bool_decide (reference = recovery_reference (CommitMarker.binding_digest marker)
                                           (CommitMarker.generation marker) sequence))
       || bool_decide (reference ∈ sc_references s)
    then Err CorruptState
    else Ok (mk_scan (Some marker) (sc_committed s) (sc_last_commit s) (sc_generation s)
               ({[reference]} ∪ sc_references s) (sc_saw_checkpoint s) (sc_reconciliation s)).

Definition scan_event (ledger : Ledger) (offset : nat) (event : JournalEvent) (s : Scan) : SResult Scan :=
  match event with
  | Checkpoint checkpoint => scan_checkpoint ledger offset checkpoint s
  | Intent marker => scan_intent offset marker s
  | Commit marker =>
      if negb (bool_decide (sc_pending s = Some marker)) then Err CorruptState
      else Ok (mk_scan None (<[CommitMarker.key marker := marker]> (sc_committed s)) (Some marker)
                 (CommitMarker.generation marker) (sc_references s) (sc_saw_checkpoint s) (sc_reconciliation s))
  | Abort marker =>
      if negb (bool_decide (sc_pending s = Some marker)) then Err CorruptState
      else Ok (mk_scan None (sc_committed s) (sc_last_commit s) (sc_generation s) (sc_references s)
                 (sc_saw_checkpoint s)
                 (<[CommitMarker.recovery_reference marker := StatusAborted]> (sc_reconciliation s)))
  end.

Fixpoint scan_events (ledger : Ledger) (offset : nat) (events : list JournalEvent) (s : Scan) : SResult Scan :=
  match events with
  | [] => Ok s
  | event :: events =>
      let? s := scan_event ledger offset event s in
      scan_events ledger (S offset) events s
  end.

(** The snapshot is the publication of the pending intent. *)
Definition published_pending (snapshot : Snapshot) (s : Scan) : bool :=
  match sc_pending s with
  | Some marker => (Snapshot.generation snapshot =? CommitMarker.generation marker)%N
                   && bool_decide (Snapshot.last_commit snapshot = Some marker)
  | None => false
  end.

(** The ledger holds exactly the commits up to its generation. *)
Definition ledger_record_agrees (marker : CommitMarker) (record : LedgerRecord) : bool :=
  bool_decide (CommitMarker.binding_digest marker = LedgerRecord.binding_digest record)
  && (CommitMarker.generation marker =? LedgerRecord.generation record)%N
  && bool_decide (CommitMarker.recovery_reference marker = LedgerRecord.recovery_reference record).

Definition ledger_agrees (ledger : Ledger) (ledger_generation : N) (committed : gmap RequestKey CommitMarker) : bool :=
  forallb (λ km, if (CommitMarker.generation km.2 <=? ledger_generation)%N
                 then match ledger !! km.1 with
                      | Some record => ledger_record_agrees km.2 record
                      | None => false
                      end
                 else negb (bool_decide (is_Some (ledger !! km.1))))
    (btree_pairs committed)
  && forallb (λ key, bool_decide (is_Some (committed !! key))) (btree_keys ledger).

(** All the checks of [recover] between the journal scan and the first write. *)
Definition recover_checks (snapshot : Snapshot) (ledger : Ledger) (ledger_generation max_retained_requests : N)
    (s : Scan) : SResult unit :=
  if negb (N.of_nat (size (sc_committed s)) =? sc_generation s)%N then Err CorruptState
  else if negb (published_pending snapshot s)
          && (negb (Snapshot.generation snapshot =? sc_generation s)%N
              || negb (bool_decide (Snapshot.last_commit snapshot = sc_last_commit s)))
  then Err CorruptState
  else if (Snapshot.generation snapshot =? 0)%N
          && (negb (size (Snapshot.entries snapshot) =? 0) || negb (bool_decide (Snapshot.last_commit snapshot = None)))
  then Err CorruptState
  else if (sc_generation s <? ledger_generation)%N || (saturating_add ledger_generation 1 <? sc_generation s)%N
  then Err CorruptState
  else if negb (ledger_agrees ledger ledger_generation (sc_committed s)) then Err CorruptState
  else if (max_retained_requests
           <? N.of_nat (size (sc_committed s) + (if published_pending snapshot s then 1 else 0)))%N
  then Err RequestCapacityExhausted
  else Ok tt.

Definition record_of (marker : CommitMarker) : LedgerRecord :=
  LedgerRecord.mk (CommitMarker.binding_digest marker) (CommitMarker.recovery_reference marker)
    (CommitMarker.generation marker).

(** [for (key, marker) in committed] at the end of [recover]. *)
Definition settle (committed : gmap RequestKey CommitMarker) (self : t) : t :=
  set_ledger (record_of <$> committed)
    (set_reconciliation
       (foldl (λ r marker, <[CommitMarker.recovery_reference marker := StatusCommitted (CommitMarker.generation marker)]> r)
          (reconciliation self) (btree_values committed)) self).

(** The pending intent is finished: committed if its snapshot was published,
    aborted otherwise. *)
Definition finish_pending (io : IoTrace) (s : Scan) : M t ServiceError (gmap RequestKey CommitMarker) := λ self,
  match sc_pending s with
  | None => (self, Ok (sc_committed s))
  | Some marker =>
      if published_pending (snapshot self) s then
        (append_event (Io.fate io 1) (Io.nonce io 0) (Commit marker) ;;?
         mret (<[CommitMarker.key marker := marker]> (sc_committed s))) self
      else
        (append_event (Io.fate io 1) (Io.nonce io 0) (Abort marker) ;;?
         (λ self, (set_reconciliation
                     (<[CommitMarker.recovery_reference marker := StatusAborted]> (reconciliation self)) self,
                   Ok (sc_committed s)))) self
  end.

Definition recover (io : IoTrace) (events : list JournalEvent) (ledger_generation : N) (incomplete_tail : bool) :
  M t ServiceError unit := λ self,
  match (let? _ := validate_ledger_generation (ledger self) ledger_generation in
         let? s := scan_events (ledger self) 0 events scan_start in
         let? _ := recover_checks (snapshot self) (ledger self) ledger_generation (max_retained_requests self) s in
         Ok s) with
  | Err e => (self, Err e)
  | Ok s =>
      ((if incomplete_tail then on_disk (truncate_journal (Io.fate io 0) (journal_bytes self)) else mret tt) ;;?
       do? committed := finish_pending io s in
       (λ self, (settle committed self, Ok tt)) ;;?
       do? bytes := mpure (λ self, sealed_ledger (Io.nonce io 1) (Snapshot.generation (snapshot self)) (ledger self)) in
       on_disk (atomic_write (Io.fate io 2) ledger_path bytes) ;;?
       (λ self, (set_unresolved false self, Ok tt)))
      (set_reconciliation (sc_reconciliation s) self)
  end.

(** The instance [reopen] builds from the three files before it recovers. *)
Definition load (io : IoTrace) (max_retained_requests : N) (disk : Disk) : SResult (t * Journal * N) :=
  let? _ := validate_capacity max_retained_requests in
  let? _ := Io.root io in
  let? _ := Io.lock io in
  let? bytes := read_bounded disk snapshot_path in
  let? snapshot := decode_snapshot_frame bytes in
  let? bytes := read_bounded disk journal_path in
  let? journal := decode_journal_frames bytes in
  let? bytes := read_bounded disk ledger_path in
  let? (ledger_generation, ledger) := decode_ledger_frame bytes in
  Ok (mk disk snapshot ledger ∅ (jn_sequence journal) (jn_bytes journal) MAX_FILE_BYTES max_retained_requests false,
      journal, ledger_generation).

Definition reopen (io : IoTrace) (max_retained_requests : N) (disk : Disk) : Disk * SResult t :=
  match load io max_retained_requests disk with
  | Err e => (disk, Err e)
  | Ok (self, journal, ledger_generation) =>
      match recover io (jn_events journal) ledger_generation (jn_incomplete journal) self with
      | (self, Err e) => (DurableService.disk self, Err e)
      | (self, Ok _) => (DurableService.disk self, Ok self)
      end
  end.

(** * Listing *)
Definition child_of (namespace prefix : string) (key : string * string) : option string :=
  if negb (bool_decide (key.1 = namespace)) then None
  else
    suffix ← strip_prefix prefix key.2;
    match split "/" suffix with
    | child :: _ :: _ => Some (child +:+ "/")
    | _ => if bool_decide (suffix = "") then None else Some suffix
    end.

Definition list_children (self : t) (namespace prefix : string) : SResult (list string) :=
  let? _ := validate_namespace namespace in
  let prefix := if ends_with "/" prefix then String.substring 0 (String.length prefix - 1) prefix else prefix in
  let? _ := if bool_decide (prefix = "") then Ok tt else validate_resource prefix in
  if unresolved self then Err RecoveryRequired
  else
    let prefix := if bool_decide (prefix = "") then "" else prefix +:+ "/" in
    Ok (btree_elems (list_to_set (omap (child_of namespace prefix) (btree_keys (Snapshot.entries (snapshot self)))))).
End service.
End DurableService.
