(* ===== verification/DurableCodecSpec.v ===== *)
(** Correctness of the persistent formats of [crates/heptabao-durable-service]:
    every well-formed snapshot, ledger, journal event and sealed file is read back
    as it was written, and encoding a well-formed value succeeds. *)
From Stdlib Require Import Ascii NArith Strings.Byte.
From S2P Require Import Prelude Str Gf256 Bytes DurableCodec.

(** * Readers after writers *)
Lemma Ok_inj {A E} (a b : A) : Ok (E := E) a = Ok b → a = b.
Proof. congruence. Qed.

Lemma len_app {A} (a b : list A) : len (a ++ b) = (len a + len b)%N.
Proof. unfold len. rewrite length_app. lia. Qed.

Lemma read_exact_app n a r : len a = n → read_exact n (a ++ r) = Ok (a, r).
Proof.
  unfold read_exact. intros <-. rewrite len_app, (proj2 (N.ltb_ge _ _)) by lia.
  unfold len. by rewrite Nat2N.id, take_app_length, drop_app_length.
Qed.

Lemma read_u8_cons b r : read_u8 (b :: r) = Ok (b, r).
Proof. unfold read_u8. change (b :: r) with ([b] ++ r). by rewrite (read_exact_app 1 [b] r). Qed.

Lemma read_int_bytes width n r : (n < 256 ^ N.of_nat width)%N → read_int width (le_bytes width n ++ r) = Ok (n, r).
Proof.
  intros. unfold read_int. rewrite read_exact_app by (unfold len; by rewrite le_bytes_length).
  by rewrite of_le_bytes_small.
Qed.

Lemma read_u64_bytes n r : (n ≤ U64_MAX)%N → read_u64 (write_u64 n ++ r) = Ok (n, r).
Proof. intros. apply read_int_bytes. unfold U64_MAX in *. simpl. lia. Qed.

Lemma read_u32_bytes n r : (n ≤ U32_MAX)%N → read_u32 (write_u32 n ++ r) = Ok (n, r).
Proof. intros. apply read_int_bytes. unfold U32_MAX in *. simpl. lia. Qed.

Lemma write_bytes_ok v : (len v ≤ U32_MAX)%N → write_bytes v = Ok (write_u32 (len v) ++ v).
Proof. intros. unfold write_bytes. by rewrite (proj2 (N.ltb_ge _ _)). Qed.

Lemma write_bytes_Ok v b : write_bytes v = Ok b → (len v ≤ U32_MAX)%N ∧ b = write_u32 (len v) ++ v.
Proof. unfold write_bytes. destruct (N.ltb_spec U32_MAX (len v)); [done|]. by intros [= <-]. Qed.

Lemma read_bytes_app maximum v r :
  (len v ≤ maximum)%N → (len v ≤ U32_MAX)%N → read_bytes maximum ((write_u32 (len v) ++ v) ++ r) = Ok (v, r).
Proof.
  intros. unfold read_bytes. rewrite <- (assoc_L (++)), read_u32_bytes by done.
  rewrite (proj2 (N.ltb_ge _ _)) by done. by apply read_exact_app.
Qed.

Lemma len_list_byte s : len (String.list_byte_of_string s) = slen s.
Proof. unfold len, slen. f_equal. unfold String.list_byte_of_string. rewrite length_map. induction s; simpl; by f_equal. Qed.

(** A string short enough to be written. *)
Lemma encode_string_ok s :
  (slen s ≤ MAX_STRING_BYTES * 2)%N →
  encode_string_checked s = Ok (write_u32 (slen s) ++ String.list_byte_of_string s).
Proof.
  intros Hs. unfold encode_string_checked. rewrite (proj2 (N.ltb_ge _ _)) by done.
  rewrite write_bytes_ok, len_list_byte; [done|]. rewrite len_list_byte. unfold MAX_STRING_BYTES, U32_MAX in *. lia.
Qed.

Lemma read_string_app maximum s r :
  (slen s ≤ maximum)%N → (slen s ≤ MAX_STRING_BYTES * 2)%N → utf8_valid s →
  read_string maximum ((write_u32 (slen s) ++ String.list_byte_of_string s) ++ r) = Ok (s, r).
Proof.
  intros Hm Hs Hu. unfold read_string. pose proof (len_list_byte s) as Hl. rewrite <- Hl.
  rewrite read_bytes_app; [|by rewrite Hl|rewrite Hl; unfold MAX_STRING_BYTES, U32_MAX in *; lia].
  rewrite String.string_of_list_byte_of_string. apply Is_true_true in Hu. by rewrite Hu.
Qed.

(** * Validated text *)
Lemma ascii_utf8 s : str_all (byte_in 0 127) s → utf8_valid s.
Proof.
  induction s as [|a s IH]; [done|]. simpl. intros [Ha Hs]%andb_True.
  apply Is_true_true in Ha as ->. auto.
Qed.

Lemma byte_in_mono lo hi lo' hi' c : (lo' ≤ lo)%N → (hi ≤ hi')%N → byte_in lo hi c → byte_in lo' hi' c.
Proof.
  unfold byte_in. intros ?? [H1%Is_true_true H2%Is_true_true]%andb_True.
  apply andb_True; split; apply Is_true_true; apply N.leb_le; apply N.leb_le in H1, H2; lia.
Qed.

Lemma alphanumeric_ascii c : is_ascii_alphanumeric c → byte_in 0 127 c.
Proof.
  unfold is_ascii_alphanumeric. rewrite !orb_True. intros [[H|H]|H]; eapply byte_in_mono; try exact H; lia.
Qed.

Lemma identifier_byte_ascii c : identifier_byte c → byte_in 0 127 c.
Proof.
  unfold identifier_byte. intros [H|H]%orb_True; [by apply alphanumeric_ascii|].
  apply bool_decide_unpack in H. rewrite !elem_of_cons in H.
  destruct H as [->|[->|[->|[->|H]]]]; try reflexivity. by apply elem_of_nil in H.
Qed.

Lemma identifier_text s : validate_identifier s = Ok tt → (slen s ≤ 256)%N ∧ utf8_valid s.
Proof.
  unfold validate_identifier. destruct (_ || _) eqn:E; [done|]. intros _.
  rewrite !orb_false_iff in E. destruct E as [[_ Hl%N.ltb_ge] Ha%negb_false_iff]. split; [done|].
  apply ascii_utf8. eapply str_all_impl; [|by apply Is_true_true]. apply identifier_byte_ascii.
Qed.

Lemma segmented_text s maximum : validate_segmented_path s maximum → (slen s ≤ maximum)%N ∧ utf8_valid s.
Proof.
  unfold validate_segmented_path. intros [H _]%andb_True. apply negb_True in H.
  rewrite !orb_True in H. split.
  - destruct (N.ltb_spec maximum (slen s)); [exfalso; apply H; auto|done].
  - apply ascii_utf8. destruct (str_all (byte_in 0 127) s); [done|exfalso; apply H; auto].
Qed.

Lemma namespace_text s : validate_namespace s = Ok tt → (slen s ≤ 1024)%N ∧ utf8_valid s.
Proof.
  unfold validate_namespace. destruct (validate_segmented_path s 1024) eqn:E; [|done]. intros _.
  apply segmented_text. by rewrite E.
Qed.

Lemma resource_text s : validate_resource s = Ok tt → (slen s ≤ MAX_STRING_BYTES)%N ∧ utf8_valid s.
Proof.
  unfold validate_resource. destruct (validate_segmented_path s MAX_STRING_BYTES) eqn:E; [|done]. intros _.
  apply segmented_text. by rewrite E.
Qed.

Lemma reference_text s : reference_ok s → slen s = 32%N ∧ utf8_valid s.
Proof.
  unfold reference_ok. intros [H1 H2]%andb_True. split.
  { unfold slen. destruct (Nat.eqb_spec (String.length s) 32) as [->|]; done. }
  apply ascii_utf8. eapply str_all_impl; [|done]. intros c. rewrite !orb_True.
  intros [[H|H]|H]; [|eapply byte_in_mono; try exact H; lia..].
  unfold is_ascii_digit in H. eapply (byte_in_mono 48 57); [lia..|]. exact H.
Qed.

(** * Well-formed values *)
Definition key_ok (k : RequestKey) : Prop :=
  validate_identifier (RequestKey.principal k) = Ok tt ∧ validate_namespace (RequestKey.namespace k) = Ok tt
  ∧ validate_identifier (RequestKey.request_id k) = Ok tt.

Definition marker_ok (m : CommitMarker) : Prop :=
  validate_marker m = Ok tt ∧ length (CommitMarker.binding_digest m) = 32 ∧ (CommitMarker.generation m ≤ U64_MAX)%N.

Definition record_ok (r : LedgerRecord) : Prop :=
  validate_ledger_record r = Ok tt ∧ length (LedgerRecord.binding_digest r) = 32
  ∧ (LedgerRecord.generation r ≤ U64_MAX)%N.

Definition entry_ok (key : string * string) (value : list u8) : Prop :=
  validate_namespace key.1 = Ok tt ∧ validate_resource key.2 = Ok tt ∧ value ≠ [] ∧ (len value ≤ MAX_SECRET_BYTES)%N.

Definition last_ok (last_commit : option CommitMarker) : Prop :=
  match last_commit with Some m => marker_ok m | None => True end.

Definition ledger_wf (l : Ledger) : Prop :=
  (N.of_nat (size l) ≤ MAX_RECORDS)%N ∧ map_Forall (λ k r, key_ok k ∧ record_ok r) l.

Definition snapshot_wf (s : Snapshot) : Prop :=
  (Snapshot.generation s ≤ U64_MAX)%N ∧ last_ok (Snapshot.last_commit s)
  ∧ (N.of_nat (size (Snapshot.entries s)) ≤ MAX_RECORDS)%N ∧ map_Forall entry_ok (Snapshot.entries s).

Definition event_ok (e : JournalEvent) : Prop :=
  match e with
  | Intent m | Commit m | Abort m => marker_ok m
  | Checkpoint c =>
      (CheckpointMarker.generation c ≤ U64_MAX)%N ∧ (CheckpointMarker.retained_requests c ≤ U64_MAX)%N
      ∧ last_ok (CheckpointMarker.last_commit c) ∧ length (CheckpointMarker.ledger_digest c) = 32
  end.

Lemma marker_key_ok m : validate_marker m = Ok tt → key_ok (CommitMarker.key m).
Proof.
  unfold validate_marker, key_ok. destruct (validate_identifier _) as [[]|]; [|done].
  destruct (validate_namespace _) as [[]|]; [|done]. by destruct (validate_identifier _) as [[]|].
Qed.

Lemma marker_reference_ok m : validate_marker m = Ok tt → reference_ok (CommitMarker.recovery_reference m).
Proof.
  unfold validate_marker. destruct (validate_identifier _); [|done]. destruct (validate_namespace _); [|done].
  destruct (validate_identifier _); [|done]. destruct (_ || _) eqn:E; [done|]. intros _.
  rewrite !orb_false_iff, negb_false_iff in E. apply Is_true_true. tauto.
Qed.

Lemma record_reference_ok r : validate_ledger_record r = Ok tt → reference_ok (LedgerRecord.recovery_reference r).
Proof.
  unfold validate_ledger_record. destruct (_ || _) eqn:E; [done|]. intros _.
  rewrite !orb_false_iff, negb_false_iff in E. apply Is_true_true. tauto.
Qed.

(** * Round trips *)

(** Encoding succeeds, and reading what was written in front of any rest returns
    the value and the rest. *)
Definition codec {A} (encode : A → SResult (list u8)) (decode : Reader A) (a : A) : Prop :=
  ∃ b, encode a = Ok b ∧ ∀ r, decode (b ++ r) = Ok (a, r).

Ltac short := unfold MAX_STRING_BYTES, U32_MAX, MAX_SECRET_BYTES, MAX_RECORDS, U64_MAX, MAX_FILE_BYTES in *; lia.

Lemma key_codec k : key_ok k → codec encode_request_key decode_request_key k.
Proof.
  destruct k as [p n i]. intros (Hp & Hn & Hi). simpl in *.
  destruct (identifier_text p Hp), (namespace_text n Hn), (identifier_text i Hi).
  unfold codec, encode_request_key; simpl. rewrite !encode_string_ok by short.
  eexists; split; [done|]. intros r. unfold decode_request_key. rewrite <- !(assoc_L (++)).
  rewrite (assoc_L (++)), read_string_app by (done || short).
  rewrite (assoc_L (++)), read_string_app by (done || short).
  rewrite (assoc_L (++)), read_string_app by (done || short). by rewrite Hp, Hn, Hi.
Qed.

Lemma marker_codec m : marker_ok m → codec encode_marker decode_marker m.
Proof.
  intros (Hv & Hd & Hg). destruct (key_codec _ (marker_key_ok m Hv)) as (kb & Hk & Hkr).
  destruct (reference_text _ (marker_reference_ok m Hv)) as [Hl Hu].
  unfold codec, encode_marker. rewrite Hk, encode_string_ok by short.
  eexists; split; [done|]. intros r. unfold decode_marker. rewrite <- !(assoc_L (++)), Hkr.
  unfold read_array_32. rewrite read_exact_app by (unfold len; by rewrite Hd).
  rewrite (assoc_L (++)), read_string_app by (done || short). rewrite read_u64_bytes by done.
  destruct m; simpl in *. by rewrite Hv.
Qed.

Lemma last_codec o : last_ok o → codec encode_last_commit decode_last_commit o.
Proof.
  unfold codec, encode_last_commit, decode_last_commit. destruct o as [m|]; simpl.
  - intros (b & -> & Hr)%marker_codec. eexists; split; [done|]. intros r.
    cbn [app]. by rewrite read_u8_cons, Hr.
  - intros _. eexists; split; [done|]. intros r. cbn [app]. by rewrite read_u8_cons.
Qed.

Lemma record_codec k rec : key_ok k → record_ok rec → codec encode_ledger_record decode_ledger_record (k, rec).
Proof.
  intros Hk (Hv & Hd & Hg). destruct (key_codec k Hk) as (kb & He & Hkr).
  destruct (reference_text _ (record_reference_ok rec Hv)) as [Hl Hu].
  unfold codec, encode_ledger_record; simpl. rewrite He, encode_string_ok by short.
  eexists; split; [done|]. intros r. unfold decode_ledger_record. rewrite <- !(assoc_L (++)), Hkr.
  unfold read_array_32. rewrite read_exact_app by (unfold len; by rewrite Hd).
  rewrite (assoc_L (++)), read_string_app by (done || short). rewrite read_u64_bytes by done. by destruct rec.
Qed.

Lemma entry_codec k v : entry_ok k v → codec encode_entry decode_entry (k, v).
Proof.
  destruct k as [ns res]. intros (Hn & Hr & Hv & Hl); simpl in *.
  destruct (namespace_text ns Hn), (resource_text res Hr).
  unfold codec, encode_entry; simpl. rewrite !encode_string_ok, write_bytes_ok by short.
  eexists; split; [done|]. intros r. unfold decode_entry. rewrite <- !(assoc_L (++)).
  rewrite (assoc_L (++)), read_string_app by (done || short).
  rewrite (assoc_L (++)), read_string_app by (done || short). rewrite Hn, Hr.
  rewrite (assoc_L (++)), read_bytes_app by short. by destruct v.
Qed.

Lemma finish_nil : finish [] = Ok tt.
Proof. done. Qed.

Lemma event_codec e : event_ok e → ∃ b, encode_journal_event e = Ok b ∧ decode_journal_event b = Ok e.
Proof.
  unfold decode_journal_event. destruct e as [m|m|m|c]; cbn [event_ok encode_journal_event].
  1-3: intros (b & -> & Hr)%marker_codec; eexists; split; [done|];
       rewrite read_u8_cons; specialize (Hr []); rewrite app_nil_r in Hr; by rewrite Hr.
  intros (Hg & Hn & (b & -> & Hr)%last_codec & Hd). eexists; split; [done|].
  rewrite read_u8_cons, read_u64_bytes, read_u64_bytes, Hr by done.
  unfold read_array_32. rewrite <- (app_nil_r (CheckpointMarker.ledger_digest c)), read_exact_app by (unfold len; by rewrite Hd).
  by destruct c.
Qed.

(** ** Maps *)
Section maps.
Context {K V : Type} `{Countable K, !RustOrd K, !RustOrdLaws K}.
Implicit Types (m : gmap K V) (ps : list (K * V)).

Lemma elem_of_btree_pairs m k v : (k, v) ∈ btree_pairs m ↔ m !! k = Some v.
Proof.
  unfold btree_pairs. rewrite list_elem_of_omap. split.
  - intros (k' & _ & (v' & Hv & [= -> ->])%fmap_Some). done.
  - intros Hk. exists k. rewrite elem_of_btree_keys, Hk. eauto.
Qed.

Lemma btree_pairs_keys m : (btree_pairs m).*1 = btree_keys m.
Proof.
  unfold btree_pairs. assert (∀ k, k ∈ btree_keys m → is_Some (m !! k)) as Hin by (intros k; by rewrite elem_of_btree_keys).
  induction (btree_keys m) as [|k ks IH]; [done|]. simpl.
  destruct (Hin k ltac:(set_solver)) as [v ->]. simpl. f_equal. apply IH. set_solver.
Qed.

Lemma btree_pairs_NoDup m : NoDup (btree_pairs m).*1.
Proof. rewrite btree_pairs_keys. apply btree_keys_NoDup. Qed.

Lemma btree_pairs_map m : list_to_map (btree_pairs m) = m.
Proof.
  apply map_eq. intros k. apply option_eq. intros v.
  rewrite <- elem_of_list_to_map by apply btree_pairs_NoDup. apply elem_of_btree_pairs.
Qed.

Lemma btree_pairs_length m : length (btree_pairs m) = size m.
Proof.
  rewrite <- (length_fmap fst), btree_pairs_keys. unfold btree_keys.
  rewrite merge_sort_Permutation. rewrite <- size_dom. done.
Qed.

(** Reading the items of a map, each as it was encoded. *)
Lemma items_codec (encode : K * V → SResult (list u8)) (item : Reader (K * V)) ps :
  Forall (codec encode item) ps → NoDup ps.*1 →
  ∃ b, encode_all encode ps = Ok b ∧
    ∀ m r, (∀ k, k ∈ ps.*1 → m !! k = None) →
      decode_items item (length ps) m (b ++ r) = Ok (list_to_map ps ∪ m, r).
Proof.
  induction ps as [|[k v] ps IH]; intros Hc Hnd.
  { exists []. split; [done|]. intros m r _. simpl. by rewrite map_empty_union. }
  apply Forall_cons in Hc as [(b & He & Hd) Hc]. apply NoDup_cons in Hnd as [Hk Hnd].
  destruct (IH Hc Hnd) as (bs & Hes & Hds). simpl. rewrite He, Hes. eexists; split; [done|].
  intros m r Hm. rewrite <- (assoc_L (++)), Hd. simpl. rewrite (Hm k) by set_solver.
  rewrite Hds; [|intros k' Hk'; rewrite lookup_insert_ne by (intros ->; done); set_solver].
  f_equal. f_equal. rewrite <- insert_union_l, insert_union_r; [done|].
  by apply not_elem_of_list_to_map.
Qed.

Lemma map_codec (encode : K * V → SResult (list u8)) (item : Reader (K * V)) m :
  map_Forall (λ k v, codec encode item (k, v)) m →
  ∃ b, encode_all encode (btree_pairs m) = Ok b ∧ ∀ r, decode_items item (size m) ∅ (b ++ r) = Ok (m, r).
Proof.
  intros Hm. destruct (items_codec encode item (btree_pairs m)) as (b & He & Hd).
  { apply Forall_forall. intros [k v] Hkv%elem_of_btree_pairs. by apply Hm. }
  { apply btree_pairs_NoDup. }
  exists b. split; [done|]. intros r. rewrite <- btree_pairs_length, Hd by done.
  by rewrite btree_pairs_map, map_union_empty.
Qed.
End maps.

(** ** Snapshots and ledgers *)
Lemma after_magic_app magic r : length magic = 4 → after_magic magic (magic ++ r) = Ok r.
Proof.
  intros Hm. unfold after_magic. rewrite len_app. rewrite (proj2 (N.ltb_ge _ _)) by (unfold len; rewrite Hm; lia).
  pose proof (take_app_length magic r) as Ht. pose proof (drop_app_length magic r) as Hd. rewrite Hm in Ht, Hd.
  by rewrite Ht, Hd, bool_decide_eq_true_2.
Qed.

Lemma count_ok n : (N.of_nat n ≤ MAX_RECORDS)%N → count_u32 n = Ok (N.of_nat n).
Proof. intros. unfold count_u32. by rewrite (proj2 (N.ltb_ge _ _)) by short. Qed.

Lemma snapshot_codec s : snapshot_wf s → ∃ b, encode_snapshot s = Ok b ∧ decode_snapshot b = Ok s.
Proof.
  intros (Hg & Hl & Hn & He). destruct (last_codec _ Hl) as (lb & El & Dl).
  destruct (map_codec encode_entry decode_entry (Snapshot.entries s)) as (eb & Ee & De).
  { intros k v Hkv. apply entry_codec. by apply He. }
  unfold encode_snapshot. rewrite El, count_ok, Ee by done. eexists; split; [done|].
  unfold decode_snapshot. rewrite after_magic_app, read_u64_bytes, Dl, read_u32_bytes by (done || short).
  rewrite (proj2 (N.ltb_ge _ _)) by done. rewrite Nat2N.id. specialize (De []). rewrite app_nil_r in De. rewrite De.
  by destruct s.
Qed.

Lemma ledger_codec l : ledger_wf l → ∃ b, encode_ledger l = Ok b ∧ decode_ledger b = Ok l.
Proof.
  intros (Hn & Hl). destruct (map_codec encode_ledger_record decode_ledger_record l) as (b & Ee & De).
  { intros k r Hkr. apply record_codec; by apply (Hl k r). }
  unfold encode_ledger. rewrite count_ok, Ee by done. eexists; split; [done|].
  unfold decode_ledger. rewrite after_magic_app, read_u32_bytes by (done || short).
  rewrite (proj2 (N.ltb_ge _ _)) by done. rewrite Nat2N.id. specialize (De []). rewrite app_nil_r in De. by rewrite De.
Qed.

(** * Sealed files *)
Lemma lor_zero a b : U8.wrap (N.lor (U8.to_N a) (U8.to_N b)) = x00 ↔ a = x00 ∧ b = x00.
Proof.
  split; [|by intros [-> ->]]. intros He.
  assert (implb (U8.eqb (U8.wrap (N.lor (U8.to_N a) (U8.to_N b))) x00) (U8.eqb a x00 && U8.eqb b x00) = true) as Hi.
  { revert a b He. intros a b _. revert a b.
    apply (forall_bytes2 (λ a b, implb (U8.eqb (U8.wrap (N.lor (U8.to_N a) (U8.to_N b))) x00)
                                   (U8.eqb a x00 && U8.eqb b x00))).
    vm_compute. reflexivity. }
  rewrite He in Hi. apply andb_true_iff in Hi as [Ha Hb]. split; by apply u8_eqb_eq.
Qed.

Lemma xor_zero a b : U8.xor a b = x00 ↔ a = b.
Proof.
  split; [|intros ->; apply xor_nil]. intros He. rewrite <- (xor_0_r a), <- (xor_nil b), xor_assoc, He. apply xor_0_l.
Qed.

Lemma difference_zero d l r :
  length l = length r → difference_loop d l r = x00 ↔ d = x00 ∧ l = r.
Proof.
  revert d r. induction l as [|a l IH]; intros d [|b r] Hl; try done; simpl; [naive_solver|].
  injection Hl as Hl. rewrite IH, lor_zero, xor_zero by done. naive_solver.
Qed.

(** The comparison that does not leak timing is equality. *)
Lemma constant_time_eq_spec l r : constant_time_eq l r = bool_decide (l = r).
Proof.
  unfold constant_time_eq. destruct (Nat.eqb_spec (length l) (length r)) as [Hl|Hl]; simpl.
  - apply eq_true_iff_eq. rewrite bool_decide_eq_true. pose proof (difference_zero x00 l r Hl) as Hz. split.
    + intros He%u8_eqb_eq. by apply Hz.
    + intros ->. apply Byte.byte_dec_lb. by apply Hz.
  - symmetry. apply bool_decide_eq_false. by intros ->.
Qed.

(** Documented behaviour of the barrier: what it sealed it opens under the same
    context, sealing adds a fixed number of bytes, and it fails only without a
    nonce or on payloads larger than any file. *)
Class BarrierLaws `(B : Barrier) (overhead : N) : Prop := {
  open_seal nonce context plain x : seal nonce context plain = Some x → open context x = Some plain;
  seal_length nonce context plain x : seal nonce context plain = Some x → len x = (len plain + overhead)%N;
  seal_total nonce context plain : length nonce = 12 → (len plain ≤ MAX_FILE_BYTES)%N →
    is_Some (seal (Some nonce) context plain);
}.

Class Sha256Laws `(Sh : Sha256) : Prop := sha256_length bytes : length (sha256 bytes) = 32.

Section sealed.
Context `{B : Barrier, Sh : Sha256} {overhead : N} `{!BarrierLaws B overhead, !Sha256Laws Sh}.

Lemma digest32_length domain bytes : length (digest32 domain bytes) = 32.
Proof. apply sha256_length. Qed.

Lemma len_digest domain bytes : len (digest32 domain bytes) = 32%N.
Proof. unfold len. by rewrite digest32_length. Qed.

(** A checksummed payload splits where the checksum starts. *)
Lemma checksum_parts payload domain :
  take (length (payload ++ digest32 domain payload) - 32) (payload ++ digest32 domain payload) = payload
  ∧ drop (length (payload ++ digest32 domain payload) - 32) (payload ++ digest32 domain payload) = digest32 domain payload.
Proof.
  rewrite length_app, digest32_length. replace (length payload + 32 - 32) with (length payload) by lia.
  by rewrite take_app_length, drop_app_length.
Qed.

Lemma sealed_file_length magic domain g p b :
  length magic = 4 → sealed_file magic domain g p = Ok b → len b = (len p + 48)%N.
Proof.
  intros Hm. unfold sealed_file. destruct (write_bytes p) as [w|] eqn:Hw; [|done]. intros <-%Ok_inj.
  apply write_bytes_Ok in Hw as [_ ->]. rewrite !len_app, len_digest.
  unfold write_u64, write_u32, len. rewrite !le_bytes_length, Hm. lia.
Qed.

Lemma open_sealed_file magic domain g p b :
  length magic = 4 → (g ≤ U64_MAX)%N → (len b ≤ MAX_FILE_BYTES)%N →
  sealed_file magic domain g p = Ok b → open_file magic domain b = Ok (g, p).
Proof.
  intros Hm Hg Hb Hs. pose proof (sealed_file_length _ _ _ _ _ Hm Hs) as Hl.
  unfold sealed_file in Hs. destruct (write_bytes p) as [w|] eqn:Hw; [|done]. apply Ok_inj in Hs as <-.
  apply write_bytes_Ok in Hw as [Hp ->]. unfold open_file.
  rewrite (proj2 (N.ltb_ge _ _)) by lia.
  destruct (checksum_parts (magic ++ write_u64 g ++ write_u32 (len p) ++ p) domain) as [-> ->].
  rewrite constant_time_eq_spec, (bool_decide_eq_true_2 (digest32 _ _ = _)) by done.
  rewrite <- !(assoc_L (++)). pose proof (take_app_length magic) as Ht. pose proof (drop_app_length magic) as Hd.
  rewrite Hm in Ht, Hd. rewrite Ht, Hd, bool_decide_eq_true_2 by done. cbn [orb negb].
  rewrite read_u64_bytes by done. rewrite <- (app_nil_r (write_u32 (len p) ++ p)), read_bytes_app by short. done.
Qed.

Lemma decode_sealed_snapshot nonce s b :
  snapshot_wf s → sealed_snapshot nonce s = Ok b → (len b ≤ MAX_FILE_BYTES)%N → decode_snapshot_frame b = Ok s.
Proof.
  intros Hw Hs Hb. destruct (snapshot_codec s Hw) as (pl & He & Hd). unfold sealed_snapshot in Hs.
  rewrite He in Hs. destruct (seal nonce _ pl) as [x|] eqn:Hx; [|done]. cbn [ok_or] in Hs.
  pose proof (open_sealed_file SNAPSHOT_MAGIC _ _ _ _ eq_refl (proj1 Hw) Hb Hs) as Ho.
  unfold decode_snapshot_frame. rewrite Ho, (open_seal _ _ _ _ Hx). cbn [ok_or]. rewrite Hd, N.eqb_refl.
  unfold sealed_file in Hs. destruct (write_bytes x) as [w|]; [|done]. by apply Ok_inj in Hs as <-.
Qed.

Lemma decode_sealed_ledger nonce g l b :
  ledger_wf l → (g ≤ U64_MAX)%N → sealed_ledger nonce g l = Ok b → (len b ≤ MAX_FILE_BYTES)%N →
  decode_ledger_frame b = Ok (g, l).
Proof.
  intros Hw Hg Hs Hb. destruct (ledger_codec l Hw) as (pl & He & Hd). unfold sealed_ledger in Hs.
  rewrite He in Hs. destruct (seal nonce _ pl) as [x|] eqn:Hx; [|done]. cbn [ok_or] in Hs.
  pose proof (open_sealed_file LEDGER_MAGIC _ _ _ _ eq_refl Hg Hb Hs) as Ho.
  unfold decode_ledger_frame. rewrite Ho, (open_seal _ _ _ _ Hx). cbn [ok_or]. by rewrite Hd.
Qed.

(** Sealing a ledger again takes the same room, and succeeds if it did. *)
Lemma reseal_ledger nonce nonce' g g' l b :
  sealed_ledger nonce g l = Ok b → (len b ≤ MAX_FILE_BYTES)%N → length nonce' = 12 →
  ∃ b', sealed_ledger (Some nonce') g' l = Ok b' ∧ len b' = len b.
Proof.
  unfold sealed_ledger. destruct (encode_ledger l) as [pl|]; [|done].
  destruct (seal nonce (ledger_context g) pl) as [x|] eqn:Hx; [|done]. cbn [ok_or]. intros Hs Hb Hn.
  pose proof (sealed_file_length LEDGER_MAGIC _ _ _ _ eq_refl Hs) as Hl. pose proof (seal_length _ _ _ _ Hx) as Hlx.
  destruct (seal_total nonce' (ledger_context g') pl Hn ltac:(lia)) as [x' Hx']. rewrite Hx'. cbn [ok_or].
  pose proof (seal_length _ _ _ _ Hx') as Hlx'. unfold sealed_file in *.
  rewrite write_bytes_ok in Hs |- * by short. apply Ok_inj in Hs.
  eexists; split; [done|]. rewrite <- Hs, !len_app, !len_digest. unfold write_u64, write_u32, len in *.
  rewrite !le_bytes_length. lia.
Qed.

Lemma sealed_ledger_len nonce nonce' g g' l b b' :
  sealed_ledger nonce g l = Ok b → sealed_ledger nonce' g' l = Ok b' → len b' = len b.
Proof.
  unfold sealed_ledger. destruct (encode_ledger l) as [pl|]; [|done].
  destruct (seal nonce (ledger_context g) pl) as [x|] eqn:Hx; [|done].
  destruct (seal nonce' (ledger_context g') pl) as [x'|] eqn:Hx'; [|done]. cbn [ok_or]. intros Hb Hb'.
  apply (sealed_file_length LEDGER_MAGIC) in Hb, Hb'; [|done..]. apply seal_length in Hx, Hx'. lia.
Qed.

(** ** Journal frames *)

(** The bytes of a sealed record: a length, a sequence number, the payload and a
    checksum. *)
Lemma journal_record_parts nonce k e f :
  sealed_journal_record nonce k e = Ok f →
  ∃ pl x, encode_journal_event e = Ok pl ∧ seal nonce (journal_context k) pl = Some x
    ∧ (len x ≤ U32_MAX)%N ∧ (len x + 44 ≤ U32_MAX)%N ∧ len f = (len x + 48)%N
    ∧ let frame := write_u64 k ++ write_u32 (len x) ++ x in
      f = write_u32 (len x + 44) ++ frame ++ digest32 JOURNAL_DOMAIN frame.
Proof.
  unfold sealed_journal_record. destruct (encode_journal_event e) as [pl|]; [|done].
  destruct (seal nonce (journal_context k) pl) as [x|] eqn:Hx; [|done]. cbn [ok_or].
  destruct (write_bytes x) as [w|] eqn:Hw; [|done]. apply write_bytes_Ok in Hw as [Hl ->].
  assert (len ((write_u64 k ++ write_u32 (len x) ++ x)
               ++ digest32 JOURNAL_DOMAIN (write_u64 k ++ write_u32 (len x) ++ x)) = len x + 44)%N as ->.
  { rewrite !len_app, len_digest. unfold write_u64, write_u32, len. rewrite !le_bytes_length. lia. }
  destruct (N.ltb_spec U32_MAX (len x + 44)); [done|]. intros <-%Ok_inj. exists pl, x.
  split_and!; try done. rewrite !len_app, len_digest. unfold write_u64, write_u32, len. rewrite !le_bytes_length. lia.
Qed.

Lemma decode_frame_ok nonce k e f r :
  event_ok e → (k ≤ U64_MAX)%N → sealed_journal_record nonce k e = Ok f → (len f ≤ MAX_FILE_BYTES)%N →
  decode_frame k (f ++ r) = Ok (Some (e, r)).
Proof.
  intros He Hk (pl & x & Hp & Hx & Hl & Hl' & Hf & Hfr)%journal_record_parts Hb. cbv zeta in Hfr.
  set (fr := write_u64 k ++ write_u32 (len x) ++ x) in *.
  destruct (event_codec e He) as (pl' & Hp' & Hd). assert (pl' = pl) as -> by congruence.
  assert (len (fr ++ digest32 JOURNAL_DOMAIN fr) = len x + 44)%N as Hfl.
  { subst f. rewrite len_app in Hf. unfold write_u32, len in *. rewrite le_bytes_length in Hf. lia. }
  unfold decode_frame. rewrite len_app, (proj2 (N.ltb_ge _ _)) by lia.
  rewrite Hfr, <- (assoc_L (++)), read_u32_bytes by done.
  rewrite (proj2 (N.leb_le _ _)), (proj2 (N.leb_le _ _)) by lia. cbn [andb negb].
  rewrite len_app, (proj2 (N.ltb_ge _ _)) by lia. rewrite read_exact_app by done.
  destruct (checksum_parts fr JOURNAL_DOMAIN) as [-> ->].
  rewrite constant_time_eq_spec, bool_decide_eq_true_2 by done. cbn [negb].
  unfold fr. rewrite read_u64_bytes, N.eqb_refl by done. cbn [negb].
  rewrite <- (app_nil_r (write_u32 (len x) ++ x)), read_bytes_app by short. rewrite finish_nil.
  rewrite (open_seal _ _ _ _ Hx). cbn [ok_or]. by rewrite Hd.
Qed.

(** A proper prefix of a frame is an incomplete tail, whatever the sequence. *)
Lemma decode_frame_torn nonce k k' e f n :
  sealed_journal_record nonce k e = Ok f → (len f ≤ MAX_FILE_BYTES)%N → n < length f →
  decode_frame k' (take n f) = Ok None.
Proof.
  intros (pl & x & Hp & Hx & Hl & Hl' & Hf & Hfr)%journal_record_parts Hb Hn. cbv zeta in Hfr.
  unfold decode_frame. destruct (N.ltb_spec (len (take n f)) 4) as [|H4]; [done|].
  assert (4 ≤ n) as Hn4 by (unfold len in H4; rewrite length_take in H4; lia).
  set (rest := (write_u64 k ++ write_u32 (len x) ++ x) ++ digest32 JOURNAL_DOMAIN (write_u64 k ++ write_u32 (len x) ++ x)) in *.
  assert (take n f = write_u32 (len x + 44) ++ take (n - 4) rest) as ->.
  { assert (length (write_u32 (len x + 44)) = 4) as Hu by apply le_bytes_length.
    rewrite Hfr, take_app, Hu, take_ge by lia. done. }
  rewrite read_u32_bytes by done.
  rewrite (proj2 (N.leb_le _ _)), (proj2 (N.leb_le _ _)) by lia. cbn [andb negb].
  rewrite (proj2 (N.ltb_lt _ _)); [done|].
  assert (length f = 4 + length rest) as Hlf by (rewrite Hfr, length_app; unfold write_u32; by rewrite le_bytes_length).
  unfold len in *. rewrite length_take. lia.
Qed.

(** Sealing the end of the same request again takes the same room. *)
Lemma reseal_journal nonce nonce' k k' m e f :
  e = Commit m ∨ e = Abort m → sealed_journal_record nonce k (Commit m) = Ok f → (len f ≤ MAX_FILE_BYTES)%N →
  length nonce' = 12 → ∃ f', sealed_journal_record (Some nonce') k' e = Ok f' ∧ len f' = len f.
Proof.
  intros He (pl & x & Hp & Hx & Hl & Hl' & Hf & _)%journal_record_parts Hb Hn.
  assert (∃ pl', encode_journal_event e = Ok pl' ∧ len pl' = len pl) as (pl' & Hp' & Hpl).
  { cbn [encode_journal_event] in Hp. destruct (encode_marker m) as [b|] eqn:Hm; [|done]. apply Ok_inj in Hp as <-.
    destruct He as [->| ->]; cbn [encode_journal_event]; rewrite Hm; eexists; split; done. }
  pose proof (seal_length _ _ _ _ Hx) as Hlx.
  destruct (seal_total nonce' (journal_context k') pl' Hn ltac:(lia)) as [x' Hx'].
  pose proof (seal_length _ _ _ _ Hx') as Hlx'.
  unfold sealed_journal_record. rewrite Hp', Hx'. cbn [ok_or]. rewrite write_bytes_ok by lia.
  set (fr := write_u64 k' ++ write_u32 (len x') ++ x').
  assert (len (fr ++ digest32 JOURNAL_DOMAIN fr) = len x' + 44)%N as Hfr.
  { unfold fr. rewrite !len_app, len_digest. unfold write_u64, write_u32, len. rewrite !le_bytes_length. lia. }
  rewrite Hfr, (proj2 (N.ltb_ge _ _)) by lia. eexists; split; [done|].
  rewrite len_app, Hfr. unfold write_u32, len at 1. rewrite le_bytes_length. lia.
Qed.

Lemma journal_end_len nonce nonce' k k' m e f f' :
  e = Commit m ∨ e = Abort m → sealed_journal_record nonce k (Commit m) = Ok f →
  sealed_journal_record nonce' k' e = Ok f' → len f' = len f.
Proof.
  intros He (pl & x & Hp & Hx & _ & _ & Hf & _)%journal_record_parts (pl' & x' & Hp' & Hx' & _ & _ & Hf' & _)%journal_record_parts.
  apply seal_length in Hx, Hx'. assert (len pl' = len pl) as Hpl; [|lia].
  destruct He as [->| ->]; cbn [encode_journal_event] in Hp, Hp'; destruct (encode_marker m) as [b|]; try done;
    apply Ok_inj in Hp as <-, Hp' as <-; done.
Qed.

(** The frames of events numbered from [k]. *)
Inductive framed : N → list JournalEvent → list u8 → Prop :=
| framed_nil k : framed k [] []
| framed_cons k nonce e f es bs :
    sealed_journal_record nonce k e = Ok f → framed (k + 1) es bs → framed k (e :: es) (f ++ bs).

Lemma framed_snoc k es bs nonce e f :
  framed k es bs → sealed_journal_record nonce (k + len es) e = Ok f → framed k (es ++ [e]) (bs ++ f).
Proof.
  induction 1 as [k|k nonce' e' f' es bs Hs Hf IH]; intros Hn; simpl.
  - rewrite N.add_0_r in Hn. rewrite <- (app_nil_r f). econstructor; [done|constructor].
  - rewrite <- (assoc_L (++)). econstructor; [done|]. apply IH. rewrite <- Hn. f_equal. unfold len. simpl. lia.
Qed.

(** A tail that recovery cuts off: empty, or the beginning of a frame. *)
Definition torn (tail : list u8) : Prop :=
  tail = [] ∨ ∃ nonce k e f n, sealed_journal_record nonce k e = Ok f ∧ (len f ≤ MAX_FILE_BYTES)%N
    ∧ n < length f ∧ tail = take n f.

(** Reading a journal: every complete frame and nothing of the tail.  Every frame
    has bytes, so as many rounds as there are bytes are enough. *)
Lemma journal_fuel fuel k es bs tail evs ver :
  framed k es bs → torn tail → Forall event_ok es → (len bs ≤ MAX_FILE_BYTES)%N →
  (k + len es ≤ U64_MAX)%N → (len evs + len es ≤ MAX_RECORDS)%N → length (bs ++ tail) ≤ fuel →
  journal_loop fuel (bs ++ tail) k evs ver =
    Ok (mk_journal (k + len es - 1) (evs ++ es) (ver + len bs) (negb (bool_decide (tail = [])))).
Proof.
  intros Hf. revert fuel evs ver. induction Hf as [k|k nonce e f es bs Hs Hf IH];
    intros fuel evs ver Ht Hok Hb Hk Hn Hfuel.
  { rewrite app_nil_r, !N.add_0_r. destruct tail as [|b tl]; [by destruct fuel|].
    destruct fuel as [|fuel]; [simpl in Hfuel; lia|]. cbn [app journal_loop].
    destruct Ht as [?|(nonce & k' & e & f & n & Hs & Hl & Hlt & Htl)]; [done|].
    rewrite Htl, (decode_frame_torn _ _ _ _ _ _ Hs Hl Hlt), <- Htl. done. }
  apply Forall_cons in Hok as [He Hok]. rewrite len_app in Hb.
  assert (len (e :: es) = len es + 1)%N as Hle by (unfold len; simpl; lia). rewrite Hle in *.
  pose proof Hs as (_ & x & _ & _ & _ & _ & Hlf & _)%journal_record_parts.
  assert (1 ≤ length f) as Hf1 by (unfold len in Hlf; lia). rewrite !length_app in Hfuel.
  destruct fuel as [|fuel]; [lia|].
  destruct ((f ++ bs) ++ tail) as [|b0 all] eqn:Hall; [apply (f_equal length) in Hall; rewrite !length_app in Hall; simpl in Hall; lia|].
  cbn [journal_loop]. rewrite <- Hall, <- (assoc_L (++)).
  rewrite (decode_frame_ok nonce k e f (bs ++ tail)) by (done || lia).
  rewrite (proj2 (checked_add_Some k 1 (k + 1))) by (split; [done|lia]). cbn [ok_or].
  assert (len (evs ++ [e]) = len evs + 1)%N as Hle' by (rewrite len_app; unfold len; simpl; lia).
  rewrite Hle', (proj2 (N.ltb_ge _ _)) by lia.
  rewrite IH by (done || lia || (rewrite length_app; lia)).
  rewrite <- (assoc_L (++)), !len_app. f_equal. f_equal; lia.
Qed.

Lemma decode_journal_file es bs tail :
  framed 1 es bs → torn tail → Forall event_ok es → (len bs ≤ MAX_FILE_BYTES)%N → (len es ≤ MAX_RECORDS)%N →
  decode_journal_frames (JOURNAL_MAGIC ++ bs ++ tail) =
    Ok (mk_journal (len es) es (4 + len bs) (negb (bool_decide (tail = [])))).
Proof.
  intros Hf Ht Hok Hb Hn. unfold decode_journal_frames. cbn [JOURNAL_MAGIC].
  change (take 4 (JOURNAL_MAGIC ++ bs ++ tail)) with JOURNAL_MAGIC.
  change (drop 4 (JOURNAL_MAGIC ++ bs ++ tail)) with (bs ++ tail). rewrite bool_decide_eq_true_2 by done. cbn [negb].
  rewrite (journal_fuel _ 1 es bs tail [] 4) by (done || short || (rewrite !length_app; simpl; lia)).
  f_equal. f_equal. lia.
Qed.
End sealed.
