(* ===== verification/DurableSpec.v ===== *)
(** The abstract state of the durable service of [crates/heptabao-durable-service]:
    a history of committed changes.  Snapshot, ledger and the result of scanning the
    journal are functions of it, and every consistency check of the code holds of
    them. *)
From Stdlib Require Import Ascii NArith Strings.Byte.
From S2P Require Import Prelude Str Gf256 Bytes DurableCodec Durable DurableCodecSpec.

(** * Histories *)
Module Change.
Record t := mk {
  marker : CommitMarker;
  key : string * string;
  value : option (list u8);  (** [None] deletes *)
}.
Definition request (c : t) : RequestKey := CommitMarker.key (marker c).
Definition reference (c : t) : string := CommitMarker.recovery_reference (marker c).
Definition generation (c : t) : N := CommitMarker.generation (marker c).
Definition record (c : t) : LedgerRecord := DurableService.record_of (marker c).
End Change.
Notation Change := Change.t.

Definition apply_change (entries : gmap (string * string) (list u8)) (c : Change) : gmap (string * string) (list u8) :=
  match Change.value c with
  | Some v => <[Change.key c := v]> entries
  | None => delete (Change.key c) entries
  end.

Definition entries_of (h : list Change) : gmap (string * string) (list u8) := foldl apply_change ∅ h.
Definition snapshot_of (h : list Change) : Snapshot :=
  Snapshot.mk (len h) (entries_of h) (Change.marker <$> last h).
Definition ledger_of (h : list Change) : Ledger := list_to_map ((λ c, (Change.request c, Change.record c)) <$> h).
Definition committed_of (h : list Change) : gmap RequestKey CommitMarker :=
  list_to_map ((λ c, (Change.request c, Change.marker c)) <$> h).
Definition references_of (h : list Change) : gset string := list_to_set (Change.reference <$> h).

Definition change_ok (c : Change) : Prop :=
  marker_ok (Change.marker c) ∧ match Change.value c with Some v => entry_ok (Change.key c) v | None => True end.

(** Generations count the changes; requests and references are used once. *)
Record history_ok (h : list Change) : Prop := {
  ho_generation : ∀ i c, h !! i = Some c → Change.generation c = (N.of_nat i + 1)%N;
  ho_requests : NoDup (Change.request <$> h);
  ho_references : NoDup (Change.reference <$> h);
  ho_changes : Forall change_ok h;
  ho_length : (len h ≤ MAX_RECORDS)%N;
}.

Lemma history_ok_nil : history_ok [].
Proof. split; try done; try constructor. Qed.

Lemma history_ok_prefix h h' : history_ok (h ++ h') → history_ok h.
Proof.
  intros [Hg Hr Hf Hc Hl]. rewrite !fmap_app in *. split.
  - intros i c Hi. apply Hg. by apply lookup_app_l_Some.
  - by apply NoDup_app in Hr as [? _].
  - by apply NoDup_app in Hf as [? _].
  - by apply Forall_app in Hc as [? _].
  - rewrite len_app in Hl. lia.
Qed.

Lemma history_ok_snoc h c :
  history_ok h → change_ok c → Change.generation c = (len h + 1)%N →
  Change.request c ∉ Change.request <$> h → Change.reference c ∉ Change.reference <$> h →
  (len h + 1 ≤ MAX_RECORDS)%N → history_ok (h ++ [c]).
Proof.
  intros [Hg Hr Hf Hc Hl] Hok Hgen Hk Href Hn. split.
  - intros i c' [Hi|[Hi Hc']]%lookup_app_Some; [by apply Hg|].
    destruct (i - length h) as [|j] eqn:Hj; simpl in Hc'; [|by rewrite lookup_nil in Hc'].
    assert (c' = c) as -> by congruence. rewrite Hgen. unfold len. lia.
  - rewrite fmap_app. apply NoDup_app. split; [done|]. simpl. split; [set_solver|]. apply NoDup_singleton.
  - rewrite fmap_app. apply NoDup_app. split; [done|]. simpl. split; [set_solver|]. apply NoDup_singleton.
  - apply Forall_app. split; [done|]. by constructor.
  - rewrite len_app. unfold len at 2. simpl. lia.
Qed.

(** ** Lookups *)
Lemma fst_pairs {A} (f : Change → A) h : ((λ c, (Change.request c, f c)) <$> h).*1 = Change.request <$> h.
Proof. rewrite <- list_fmap_compose. done. Qed.

Lemma lookup_of {A} (f : Change → A) h k a :
  NoDup (Change.request <$> h) →
  (list_to_map ((λ c, (Change.request c, f c)) <$> h) : gmap RequestKey A) !! k = Some a
  ↔ ∃ c, c ∈ h ∧ Change.request c = k ∧ f c = a.
Proof.
  intros Hn. rewrite <- elem_of_list_to_map by (by rewrite fst_pairs). rewrite list_elem_of_fmap.
  split; [intros (c & [= -> ->] & Hc); eauto|intros (c & Hc & <- & <-); eauto].
Qed.

Lemma size_of {A} (f : Change → A) h :
  NoDup (Change.request <$> h) →
  size (list_to_map ((λ c, (Change.request c, f c)) <$> h) : gmap RequestKey A) = length h.
Proof.
  intros Hn. rewrite map_size_list_to_map by (by rewrite fst_pairs). by rewrite length_fmap.
Qed.

(** The pairs of a map built from pairs with distinct keys are those pairs. *)
Lemma btree_pairs_permutation {K V} `{Countable K, !RustOrd K, !RustOrdLaws K} (ps : list (K * V)) :
  NoDup ps.*1 → btree_pairs (list_to_map ps : gmap K V) ≡ₚ ps.
Proof.
  intros Hn. apply NoDup_Permutation.
  - apply (NoDup_fmap_1 fst), btree_pairs_NoDup.
  - by apply (NoDup_fmap_1 fst).
  - intros [k v]. rewrite elem_of_btree_pairs. by rewrite elem_of_list_to_map.
Qed.

Lemma ledger_pairs h :
  NoDup (Change.request <$> h) → btree_pairs (ledger_of h) ≡ₚ (λ c, (Change.request c, Change.record c)) <$> h.
Proof. intros. apply btree_pairs_permutation. by rewrite fst_pairs. Qed.

(** ** Well-formedness *)
Lemma entries_snoc h c : entries_of (h ++ [c]) = apply_change (entries_of h) c.
Proof. unfold entries_of. by rewrite foldl_snoc. Qed.

Lemma entries_size h : size (entries_of h) ≤ length h.
Proof.
  induction h as [|c h IH] using rev_ind; [done|]. rewrite entries_snoc, length_app. simpl.
  unfold apply_change. destruct (Change.value c).
  - rewrite map_size_insert. case_match; simpl; lia.
  - rewrite map_size_delete. case_match; simpl; lia.
Qed.

Lemma entries_ok h : Forall change_ok h → map_Forall entry_ok (entries_of h).
Proof.
  induction h as [|c h IH] using rev_ind; [intros _; apply map_Forall_empty|].
  intros [Hh [[_ Hc] _]%Forall_cons]%Forall_app. rewrite entries_snoc. unfold apply_change.
  destruct (Change.value c) as [v|].
  - apply map_Forall_insert_2; auto.
  - apply map_Forall_delete. auto.
Qed.

Lemma last_marker_ok h : Forall change_ok h → last_ok (Change.marker <$> last h).
Proof.
  intros Hh. destruct (last h) as [c|] eqn:Hl; [|done]. simpl.
  apply last_Some_elem_of in Hl. rewrite Forall_forall in Hh. by apply Hh.
Qed.

Lemma snapshot_of_wf h : history_ok h → snapshot_wf (snapshot_of h).
Proof.
  intros [_ _ _ Hc Hl]. pose proof (entries_size h). split_and!; simpl.
  - unfold len in *. short.
  - by apply last_marker_ok.
  - unfold len in *. lia.
  - by apply entries_ok.
Qed.

Lemma change_record_ok c : change_ok c → key_ok (Change.request c) ∧ record_ok (Change.record c).
Proof.
  intros [(Hv & Hd & Hg) _]. split; [by apply marker_key_ok|]. split; [|done].
  unfold Change.record, DurableService.record_of, validate_ledger_record, validate_marker in *.
  cbn [LedgerRecord.binding_digest LedgerRecord.generation LedgerRecord.recovery_reference].
  destruct (validate_identifier _); [|done]. destruct (validate_namespace _); [|done].
  destruct (validate_identifier _); [|done]. destruct (_ || _) eqn:E; [done|]. rewrite !orb_false_iff in E.
  destruct E as [[-> ->] ->]. done.
Qed.

Lemma ledger_of_wf h : history_ok h → ledger_wf (ledger_of h).
Proof.
  intros [_ Hr _ Hc Hl]. split.
  - unfold ledger_of. rewrite size_of by done. done.
  - intros k r (c & Hin & <- & <-)%lookup_of; [|done]. apply change_record_ok. rewrite Forall_forall in Hc. auto.
Qed.

(** * The consistency checks hold of histories *)
Lemma history_generations h :
  history_ok h → Change.generation <$> h = N.of_nat <$> seq 1 (length h).
Proof.
  intros Hok. apply list_eq. intros i. rewrite !list_lookup_fmap. destruct (h !! i) as [c|] eqn:Hi.
  - rewrite lookup_seq_lt by (by eapply lookup_lt_Some). simpl. f_equal. rewrite (ho_generation h Hok i c Hi). lia.
  - rewrite lookup_seq_ge by (by apply lookup_ge_None_1). done.
Qed.

Lemma seq_sorted k n : StronglySorted (rust_le (K := N)) (N.of_nat <$> seq k n).
Proof.
  revert k. induction n as [|n IH]; intros k; simpl; [constructor|]. constructor; [apply IH|].
  apply Forall_forall. intros x (i & -> & Hi)%list_elem_of_fmap. apply elem_of_seq in Hi. unfold rust_le, N_rust_ord. lia.
Qed.

Lemma seq_elements n (s : gset N) :
  s = list_to_set (N.of_nat <$> seq 1 n) → btree_elems s = N.of_nat <$> seq 1 n.
Proof.
  intros ->. apply (StronglySorted_unique rust_le).
  - apply (StronglySorted_merge_sort rust_le).
  - apply seq_sorted.
  - unfold btree_elems. rewrite merge_sort_Permutation. apply elements_list_to_set.
    apply NoDup_fmap; [apply _|apply NoDup_seq].
Qed.

Lemma validate_records_ok ps g (G : gset N) (R : gset string) :
  Forall (λ kr, key_ok kr.1 ∧ validate_ledger_record kr.2 = Ok tt ∧ (LedgerRecord.generation kr.2 ≤ g)%N) ps →
  NoDup ((λ kr, LedgerRecord.generation kr.2) <$> ps) → NoDup ((λ kr, LedgerRecord.recovery_reference kr.2) <$> ps) →
  (∀ kr, kr ∈ ps → LedgerRecord.generation kr.2 ∉ G ∧ LedgerRecord.recovery_reference kr.2 ∉ R) →
  validate_records ps g G R = Ok (list_to_set ((λ kr, LedgerRecord.generation kr.2) <$> ps) ∪ G).
Proof.
  revert G R. induction ps as [|[k r] ps IH]; intros G R Hf Hg Hr Hd; simpl; [by rewrite union_empty_l_L|].
  apply Forall_cons in Hf as [((Hp & Hn & Hi) & Hv & Hle) Hf]. simpl in *.
  apply NoDup_cons in Hg as [Hg1 Hg]. apply NoDup_cons in Hr as [Hr1 Hr].
  destruct (Hd (k, r)) as [Hd1 Hd2]; [set_solver|]. simpl in *.
  rewrite Hp, Hn, Hi, Hv, (proj2 (N.ltb_ge _ _)), !bool_decide_eq_false_2 by done. cbn [orb].
  rewrite IH; [f_equal; set_solver|done..|].
  intros kr Hkr. destruct (Hd kr) as [Hd3 Hd4]; [set_solver|]. split.
  - apply not_elem_of_union. split; [|done]. intros He%elem_of_singleton. apply Hg1. rewrite <- He. by apply (list_elem_of_fmap_2 (λ kr, LedgerRecord.generation kr.2)).
  - apply not_elem_of_union. split; [|done]. intros He%elem_of_singleton. apply Hr1. rewrite <- He. by apply (list_elem_of_fmap_2 (λ kr, LedgerRecord.recovery_reference kr.2)).
Qed.

Lemma generation_bound h c : history_ok h → c ∈ h → (1 ≤ Change.generation c ≤ len h)%N.
Proof.
  intros Hok [i Hi]%list_elem_of_lookup. rewrite (ho_generation h Hok i c Hi). apply lookup_lt_Some in Hi. unfold len. lia.
Qed.

Lemma validate_ledger_of h : history_ok h → validate_ledger_generation (ledger_of h) (len h) = Ok tt.
Proof.
  intros Hok. unfold validate_ledger_generation. unfold ledger_of at 1. rewrite size_of by apply Hok.
  rewrite N.eqb_refl. cbn [negb]. pose proof (ledger_pairs h (ho_requests h Hok)) as Hp.
  assert (((λ kr : RequestKey * LedgerRecord, LedgerRecord.generation kr.2) <$> btree_pairs (ledger_of h))
          ≡ₚ N.of_nat <$> seq 1 (length h)) as Hgen.
  { rewrite Hp, <- list_fmap_compose, <- history_generations by done. done. }
  rewrite validate_records_ok.
  - rewrite seq_elements with (n := length h).
    + unfold len. rewrite Nat2N.id. by rewrite bool_decide_eq_true_2.
    + rewrite union_empty_r_L. apply leibniz_equiv. by rewrite Hgen.
  - rewrite Hp. apply Forall_fmap, Forall_forall. intros c Hc. simpl.
    destruct (change_record_ok c) as (Hk & Hr & _); [pose proof (ho_changes h Hok) as Hf; rewrite Forall_forall in Hf; auto|].
    split_and!; [done..|]. by apply (generation_bound h c).
  - rewrite Hgen. apply NoDup_fmap; [apply _|apply NoDup_seq].
  - rewrite Hp, <- list_fmap_compose. apply (ho_references h Hok).
  - set_solver.
Qed.

Lemma generation_inj h c c' : history_ok h → c ∈ h → c' ∈ h → Change.generation c = Change.generation c' → c = c'.
Proof.
  intros Hok [i Hi]%list_elem_of_lookup [j Hj]%list_elem_of_lookup.
  rewrite (ho_generation h Hok i c Hi), (ho_generation h Hok j c' Hj). intros He.
  assert (i = j) as -> by lia. congruence.
Qed.

Lemma marker_from_record c : change_ok c → marker_from_ledger (Change.request c) (Change.record c) = Ok (Change.marker c).
Proof.
  intros Hc. destruct (change_record_ok c Hc) as (_ & Hr & _). destruct Hc as [[Hm _] _].
  unfold marker_from_ledger. rewrite Hr. unfold Change.record, Change.request. simpl.
  destruct (Change.marker c). simpl in *. by rewrite Hm.
Qed.

Lemma marker_at_generation h c :
  history_ok h → c ∈ h → marker_at (ledger_of h) (Change.generation c) = Ok (Change.marker c).
Proof.
  intros Hok Hc. unfold marker_at. pose proof (ledger_pairs h (ho_requests h Hok)) as Hp.
  destruct (list_find_elem_of (λ kr : RequestKey * LedgerRecord, LedgerRecord.generation kr.2 = Change.generation c)
    (btree_pairs (ledger_of h)) (Change.request c, Change.record c)) as [[i [k r]] Hf].
  { rewrite Hp. by apply (list_elem_of_fmap_2 (λ c, (Change.request c, Change.record c))). }
  { done. }
  rewrite Hf. simpl. apply list_find_Some in Hf as (Hin & Hg & _).
  apply list_elem_of_lookup_2 in Hin. rewrite Hp in Hin. apply list_elem_of_fmap in Hin as (c' & [= -> ->] & Hc').
  assert (c' = c) as -> by (by apply (generation_inj h)).
  apply marker_from_record. pose proof (ho_changes h Hok) as Hf. rewrite Forall_forall in Hf. auto.
Qed.

Lemma last_generation h c : history_ok h → last h = Some c → c ∈ h ∧ Change.generation c = len h.
Proof.
  intros Hok Hl. split; [by apply last_Some_elem_of|]. rewrite last_lookup in Hl.
  rewrite (ho_generation h Hok _ c Hl). apply lookup_lt_Some in Hl. unfold len. lia.
Qed.

Lemma ledger_of_nil : ledger_of [] = ∅.
Proof. done. Qed.

Lemma validate_committed_of h :
  history_ok h → validate_committed_state (snapshot_of h) (len h) (ledger_of h) = Ok tt.
Proof.
  intros Hok. unfold validate_committed_state, snapshot_of. cbn [Snapshot.generation Snapshot.last_commit].
  rewrite N.eqb_refl, validate_ledger_of by done. cbn [negb]. destruct (last h) as [c|] eqn:Hl.
  - destruct (last_generation h c Hok Hl) as [Hc Hg]. pose proof (generation_bound h c Hok Hc).
    rewrite (proj2 (N.eqb_neq _ _)) by lia. rewrite <- Hg, marker_at_generation by done.
    by rewrite bool_decide_eq_true_2.
  - apply last_None in Hl as ->. done.
Qed.

Lemma ledger_prefix_of h h' : history_ok (h ++ h') → ledger_prefix (ledger_of (h ++ h')) (len h) = Ok (ledger_of h).
Proof.
  intros Hok. pose proof (history_ok_prefix h h' Hok) as Hh. unfold ledger_prefix.
  assert (filter (λ kr : RequestKey * LedgerRecord, (LedgerRecord.generation kr.2 ≤ len h)%N) (ledger_of (h ++ h'))
          = ledger_of h) as ->; [|by rewrite validate_ledger_of].
  apply map_eq. intros k. apply option_eq. intros r. rewrite map_lookup_filter_Some. unfold ledger_of.
  rewrite !lookup_of by apply Hok || apply Hh. simpl. split.
  - intros [(c & [Hc|Hc]%elem_of_app & <- & <-) Hle]; [eauto|]. exfalso.
    apply list_elem_of_lookup in Hc as [i Hi].
    assert ((h ++ h') !! (length h + i) = Some c) as Hi' by (rewrite lookup_app_r by lia; rewrite <- Hi; f_equal; lia).
    pose proof (ho_generation _ Hok _ _ Hi') as Hg. unfold Change.generation, len in *. simpl in Hle. lia.
  - intros (c & Hc & <- & <-). split; [exists c; set_solver|]. by apply (generation_bound h c).
Qed.

Section checkpoints.
Context `{B : Barrier, Sh : Sha256} {overhead : N} `{!BarrierLaws B overhead, !Sha256Laws Sh}.

Lemma checkpoint_of h cp :
  history_ok h → checkpoint_marker (snapshot_of h) (ledger_of h) = Ok cp →
  CheckpointMarker.generation cp = len h ∧ CheckpointMarker.last_commit cp = Change.marker <$> last h
  ∧ event_ok (Checkpoint cp) ∧ validate_checkpoint cp (ledger_of h) = Ok tt.
Proof.
  intros Hok. unfold checkpoint_marker. change (Snapshot.generation (snapshot_of h)) with (len h).
  rewrite validate_committed_of by done. destruct (encode_ledger (ledger_of h)) as [pl|] eqn:He; [|done].
  assert (size (ledger_of h) = length h) as Hs by (apply size_of, Hok). rewrite Hs. fold (len h).
  intros <-%Ok_inj. cbn [CheckpointMarker.generation CheckpointMarker.last_commit]. pose proof (ho_length h Hok).
  split_and!; try done.
  - cbn [event_ok CheckpointMarker.generation CheckpointMarker.retained_requests CheckpointMarker.last_commit
      CheckpointMarker.ledger_digest].
    split_and!; [short|short|apply last_marker_ok, Hok|apply digest32_length].
  - unfold validate_checkpoint. cbn [CheckpointMarker.generation CheckpointMarker.last_commit
      CheckpointMarker.retained_requests CheckpointMarker.ledger_digest].
    rewrite Hs. fold (len h). rewrite N.eqb_refl, validate_ledger_of, He by done. cbn [orb negb].
    rewrite constant_time_eq_spec, bool_decide_eq_true_2 by done. cbn [negb].
    unfold snapshot_of. cbn [Snapshot.last_commit]. destruct (last h) as [c|] eqn:Hl.
    + destruct (last_generation h c Hok Hl) as [Hc Hg]. pose proof (generation_bound h c Hok Hc).
      rewrite (proj2 (N.eqb_neq _ _)) by lia. rewrite <- Hg, marker_at_generation by done.
      by rewrite bool_decide_eq_true_2.
    + apply last_None in Hl as ->. done.
Qed.
End checkpoints.

(** * What [recover] of [crates/heptabao-durable-service] finds in a journal: scanning
    the events a service has written yields the committed history, the pending
    intent and the aborted ones, and all the checks against snapshot and ledger
    pass. *)

Section scan.
Context `{B : Barrier, Sh : Sha256} {overhead : N} `{!BarrierLaws B overhead, !Sha256Laws Sh}.
Import DurableService.

(** [written h0 es h p A]: the events [es] record the history [h] on top of the
    checkpoint of [h0], with the intent of [p] pending and the intents with the
    references [A] aborted. *)
Inductive written : list Change → list JournalEvent → list Change → option Change → gset string → Prop :=
| written_fresh : written [] [] [] None ∅
| written_checkpoint h cp :
    history_ok h → checkpoint_marker (snapshot_of h) (ledger_of h) = Ok cp → written h [Checkpoint cp] h None ∅
| written_intent h0 es h A c :
    written h0 es h None A → history_ok (h ++ [c]) →
    Change.reference c = recovery_reference (CommitMarker.binding_digest (Change.marker c)) (Change.generation c) (len es + 1) →
    Change.reference c ∉ references_of h ∪ A →
    written h0 (es ++ [Intent (Change.marker c)]) h (Some c) A
| written_commit h0 es h A c :
    written h0 es h (Some c) A → written h0 (es ++ [Commit (Change.marker c)]) (h ++ [c]) None A
| written_abort h0 es h A c :
    written h0 es h (Some c) A →
    written h0 (es ++ [Abort (Change.marker c)]) h None ({[Change.reference c]} ∪ A).

Lemma written_history h0 es h p A : written h0 es h p A → history_ok (h ++ option_list p) ∧ ∃ h1, h = h0 ++ h1.
Proof.
  intros Hw. induction Hw as [|h' cp Hok Hcp|h' es' h'' A' c Hw [IH [h1 ->]] Hok Href Hfr|h' es' h'' A' c Hw [IH [h1 ->]]
    |h' es' h'' A' c Hw [IH [h1 ->]]];
    simpl; rewrite ?app_nil_r in *.
  - split; [apply history_ok_nil|by exists []].
  - split; [done|exists []; by rewrite app_nil_r].
  - eauto.
  - split; [done|]. exists (h1 ++ [c]). by rewrite (assoc_L (++)).
  - split; [by eapply history_ok_prefix|eauto].
Qed.

Lemma written_events_ok h0 es h p A : written h0 es h p A → Forall event_ok es.
Proof.
  assert (∀ h c, history_ok (h ++ [c]) → marker_ok (Change.marker c)) as Hm.
  { intros g c Hok. pose proof (ho_changes _ Hok) as [_ [[? _] _]%Forall_cons]%Forall_app. done. }
  induction 1 as [|h cp Hok Hcp|h0 es h A c Hw IH Hok Href Hfr|h0 es h A c Hw IH|h0 es h A c Hw IH].
  - constructor.
  - constructor; [|constructor]. by apply (checkpoint_of h cp).
  - apply Forall_app. split; [done|]. constructor; [by eapply Hm|constructor].
  - apply Forall_app. split; [done|]. constructor; [|constructor].
    destruct (written_history _ _ _ _ _ Hw) as [Hok _]. by eapply Hm.
  - apply Forall_app. split; [done|]. constructor; [|constructor].
    destruct (written_history _ _ _ _ _ Hw) as [Hok _]. by eapply Hm.
Qed.

(** ** Maps of histories *)
Lemma committed_of_snoc h c :
  Change.request c ∉ Change.request <$> h →
  committed_of (h ++ [c]) = <[Change.request c := Change.marker c]> (committed_of h).
Proof.
  intros Hc. unfold committed_of. rewrite fmap_app. simpl. apply list_to_map_snoc. by rewrite fst_pairs.
Qed.

Lemma ledger_of_snoc h c :
  Change.request c ∉ Change.request <$> h →
  ledger_of (h ++ [c]) = <[Change.request c := Change.record c]> (ledger_of h).
Proof.
  intros Hc. unfold ledger_of. rewrite fmap_app. simpl. apply list_to_map_snoc. by rewrite fst_pairs.
Qed.

Lemma references_of_snoc h c : references_of (h ++ [c]) = {[Change.reference c]} ∪ references_of h.
Proof. unfold references_of. rewrite fmap_app, list_to_set_app_L. simpl. set_solver. Qed.

Lemma record_of_committed h : record_of <$> committed_of h = ledger_of h.
Proof.
  unfold committed_of, ledger_of. rewrite <- list_to_map_fmap. f_equal. rewrite <- list_fmap_compose. done.
Qed.

Lemma snoc_request_fresh h c : history_ok (h ++ [c]) → Change.request c ∉ Change.request <$> h.
Proof.
  intros Hok. pose proof (ho_requests _ Hok) as Hn. rewrite fmap_app in Hn. apply NoDup_app in Hn as (_ & Hn & _).
  intros Hc. apply (Hn _ Hc). simpl. set_solver.
Qed.

Lemma committed_fresh h c : history_ok (h ++ [c]) → committed_of h !! Change.request c = None.
Proof. intros Hok. apply not_elem_of_list_to_map. rewrite fst_pairs. by apply snoc_request_fresh. Qed.

(** ** Scanning *)
Lemma scan_events_app L off es es' s :
  scan_events L off (es ++ es') s = (let? s := scan_events L off es s in scan_events L (off + length es) es' s).
Proof.
  revert off s. induction es as [|e es IH]; intros off s; simpl; [by rewrite Nat.add_0_r|].
  destruct (scan_event L off e s); [|done]. rewrite IH. by rewrite Nat.add_succ_r.
Qed.

Lemma scan_events_snoc L off es e s :
  scan_events L off (es ++ [e]) s = (let? s := scan_events L off es s in scan_event L (off + length es) e s).
Proof. rewrite scan_events_app. destruct (scan_events L off es s); [|done]. simpl. by destruct (scan_event _ _ _ _). Qed.

Lemma scan_prefix_ok hs R C :
  Forall change_ok hs → NoDup (Change.reference <$> hs) → (∀ c, c ∈ hs → Change.reference c ∉ R) →
  scan_prefix ((λ c, (Change.request c, Change.record c)) <$> hs) R C =
    Ok (list_to_set (Change.reference <$> hs) ∪ R, foldl (λ m c, <[Change.request c := Change.marker c]> m) C hs).
Proof.
  revert R C. induction hs as [|c hs IH]; intros R C Hok Hn Hd; simpl; [by rewrite union_empty_l_L|].
  apply Forall_cons in Hok as [Hc Hok]. apply NoDup_cons in Hn as [Hc1 Hn].
  rewrite marker_from_record by done. fold (Change.reference c).
  rewrite bool_decide_eq_false_2 by (apply Hd; set_solver).
  rewrite IH; [f_equal; f_equal; set_solver|done..|]. intros c' Hc'. apply not_elem_of_union. split.
  - intros He%elem_of_singleton. apply Hc1. rewrite <- He. by apply list_elem_of_fmap_2.
  - apply Hd. set_solver.
Qed.

Lemma foldl_committed hs :
  NoDup (Change.request <$> hs) →
  foldl (λ m c, <[Change.request c := Change.marker c]> m) ∅ hs = committed_of hs.
Proof.
  induction hs as [|c hs IH] using rev_ind; [done|]. rewrite fmap_app. intros (Hn & Hd & _)%NoDup_app.
  rewrite foldl_snoc, IH by done. symmetry. apply committed_of_snoc. intros Hc. apply (Hd _ Hc). simpl. set_solver.
Qed.

Lemma scan_prefix_of h :
  history_ok h → scan_prefix (btree_pairs (ledger_of h)) ∅ ∅ = Ok (references_of h, committed_of h).
Proof.
  intros Hok. pose proof (ledger_pairs h (ho_requests h Hok)) as Hp.
  apply Permutation_map_inv in Hp as (hs & -> & Hhs).
  rewrite (scan_prefix_ok hs ∅ ∅).
  - rewrite foldl_committed by (rewrite <- Hhs; apply Hok). f_equal. f_equal.
    + rewrite union_empty_r_L. unfold references_of. apply leibniz_equiv. by rewrite Hhs.
    + unfold committed_of. apply list_to_map_proper; [|by rewrite Hhs]. rewrite fst_pairs, <- Hhs. apply Hok.
  - rewrite <- Hhs. apply Hok.
  - rewrite <- Hhs. apply Hok.
  - set_solver.
Qed.

Definition pending_reference (p : option Change) : gset string :=
  match p with Some c => {[Change.reference c]} | None => ∅ end.

(** The state of the scan after the events of a journal. *)
Definition scanned (h : list Change) (p : option Change) (A : gset string) (saw : bool) : Scan :=
  mk_scan (Change.marker <$> p) (committed_of h) (Change.marker <$> last h) (len h)
    (references_of h ∪ A ∪ pending_reference p) saw (gset_to_gmap StatusAborted A).

Lemma scan_written L h0 es h p A :
  written h0 es h p A → ledger_prefix L (len h0) = Ok (ledger_of h0) →
  ∃ saw, scan_events L 0 es scan_start = Ok (scanned h p A saw).
Proof.
  intros Hw HL. induction Hw as [|h cp Hok Hcp|h0 es h A c Hw IH Hok Href Hfr|h0 es h A c Hw IH|h0 es h A c Hw IH].
  - exists false. unfold scanned. simpl. f_equal.
  - destruct (checkpoint_of h cp Hok Hcp) as (Hg & Hl & _ & Hv). exists true. simpl.
    unfold scan_checkpoint. simpl. rewrite Hg, HL, Hv, scan_prefix_of by done.
    unfold scanned. simpl. rewrite Hl. f_equal. f_equal. set_solver.
  - destruct (IH HL) as [saw Hs]. exists saw. rewrite scan_events_snoc, Hs. simpl. unfold scan_intent.
    pose proof (ho_changes _ Hok) as [_ [[(Hm & _ & _) _] _]%Forall_cons]%Forall_app. rewrite Hm. cbn [scanned].
    unfold scanned. cbn [sc_pending sc_committed sc_generation sc_references fmap option_fmap option_map].
    fold (Change.request c). rewrite committed_fresh by done.
    rewrite (bool_decide_eq_false_2 (is_Some None)) by (by intros [? ?]).
    assert (Change.generation c = len h + 1)%N as Hgen.
    { rewrite (ho_generation _ Hok (length h) c) by (by rewrite lookup_app_r, Nat.sub_diag by lia). done. }
    pose proof (ho_length _ Hok) as Hlen. rewrite len_app in Hlen. unfold len at 2 in Hlen. simpl in Hlen.
    rewrite (proj2 (checked_add_Some (len h) 1 (len h + 1))) by (split; [done|short]). cbn [ok_or negb orb].
    fold (Change.generation c). fold (Change.reference c).
    rewrite (bool_decide_eq_true_2 (Change.reference c = _)) by exact Href.
    rewrite Hgen, N.eqb_refl. cbn [negb orb].
    cbn [pending_reference]. rewrite !union_empty_r_L.
    rewrite (bool_decide_eq_true_2 (None = None)), (bool_decide_eq_false_2 (_ ∈ _)) by done.
    cbn [negb orb]. f_equal. f_equal. set_solver.
  - destruct (IH HL) as [saw Hs]. exists saw. destruct (written_history _ _ _ _ _ Hw) as [Hok _].
    rewrite scan_events_snoc, Hs. simpl. rewrite bool_decide_eq_true_2 by done. simpl.
    unfold scanned. simpl. rewrite last_snoc. simpl. fold (Change.request c).
    rewrite committed_of_snoc by (by apply snoc_request_fresh). f_equal. f_equal.
    + fold (Change.generation c). rewrite (ho_generation _ Hok (length h) c) by (simpl; by rewrite lookup_app_r, Nat.sub_diag by lia).
      unfold len. rewrite length_app. simpl. lia.
    + rewrite references_of_snoc. set_solver.
  - destruct (IH HL) as [saw Hs]. exists saw. rewrite scan_events_snoc, Hs. simpl.
    rewrite bool_decide_eq_true_2 by done. simpl. unfold scanned. simpl. f_equal. f_equal; [set_solver|].
    fold (Change.reference c). symmetry. apply gset_to_gmap_union_singleton.
Qed.

(** * The checks against snapshot and ledger *)

(** The history that recovery settles on: a pending change counts exactly when its
    snapshot was published. *)
Definition final (h : list Change) (p : option Change) (pub : bool) : list Change :=
  if pub then h ++ option_list p else h.

Lemma elem_of_take_generation h c g :
  history_ok h → c ∈ h → (Change.generation c ≤ N.of_nat g)%N ↔ c ∈ take g h.
Proof.
  intros Hok Hc. split.
  - apply list_elem_of_lookup in Hc as [i Hi]. rewrite (ho_generation h Hok i c Hi). intros Hg.
    apply list_elem_of_lookup. exists i. rewrite lookup_take_lt by lia. done.
  - intros [i Hi]%list_elem_of_lookup. apply lookup_take_Some in Hi as [Hi Hlt].
    rewrite (ho_generation h Hok i c Hi). lia.
Qed.

Lemma request_inj h c c' : history_ok h → c ∈ h → c' ∈ h → Change.request c = Change.request c' → c = c'.
Proof.
  intros Hok [i Hi]%list_elem_of_lookup [j Hj]%list_elem_of_lookup He.
  assert (i = j) as ->; [|congruence].
  eapply (NoDup_lookup _ _ _ (Change.request c) (ho_requests h Hok)); rewrite list_lookup_fmap.
  - by rewrite Hi.
  - by rewrite Hj, He.
Qed.

Lemma elem_of_take_sub (c : Change) g h : c ∈ take g h → c ∈ h.
Proof. intros (i & Hi & _)%elem_of_take. by eapply list_elem_of_lookup_2. Qed.

Lemma history_ok_take g h : history_ok h → history_ok (take g h).
Proof. intros Hok. apply (history_ok_prefix _ (drop g h)). by rewrite take_drop. Qed.

Lemma ledger_agrees_of h g :
  history_ok h → ledger_agrees (ledger_of (take g h)) (N.of_nat g) (committed_of h) = true.
Proof.
  intros Hok. pose proof (history_ok_take g h Hok) as Hg. unfold ledger_agrees. apply andb_true_iff.
  split; apply Is_true_true, forallb_True, Forall_forall.
  - intros [k m] (c & Hc & <- & <-)%elem_of_btree_pairs%lookup_of; [|apply Hok]. simpl.
    destruct (N.leb_spec (CommitMarker.generation (Change.marker c)) (N.of_nat g)) as [Hle|Hlt].
    + apply (elem_of_take_generation h c g Hok Hc) in Hle.
      assert (ledger_of (take g h) !! Change.request c = Some (Change.record c)) as ->
        by (apply lookup_of; [apply Hg|eauto]).
      unfold ledger_record_agrees, Change.record. simpl.
      by rewrite !bool_decide_eq_true_2, N.eqb_refl by done.
    + rewrite bool_decide_eq_false_2; [done|]. intros [r (c' & Hc' & He & _)%lookup_of]; [|apply Hg].
      assert (c' = c) as ->.
      { apply (request_inj h); [done| |done|done]. by apply elem_of_take_sub in Hc'. }
      apply (elem_of_take_generation h c g Hok Hc) in Hc'. unfold Change.generation in Hc'. lia.
  - intros k [r (c & Hc & <- & _)%lookup_of]%elem_of_btree_keys; [|apply Hg]. apply bool_decide_pack.
    exists (Change.marker c). apply lookup_of; [apply Hok|]. exists c. split; [|done]. by apply elem_of_take_sub in Hc.
Qed.

Lemma published_of h p pub A saw :
  history_ok (h ++ option_list p) → (pub = true → is_Some p) →
  published_pending (snapshot_of (final h p pub)) (scanned h p A saw) = pub.
Proof.
  intros Hok Hpub. unfold published_pending, scanned, final. simpl. destruct p as [c|]; simpl.
  - simpl in Hok. assert (CommitMarker.generation (Change.marker c) = len h + 1)%N as ->.
    { fold (Change.generation c). rewrite (ho_generation _ Hok (length h) c) by (by rewrite lookup_app_r, Nat.sub_diag by lia). done. }
    destruct pub; simpl.
    + rewrite last_snoc, len_app. simpl. rewrite bool_decide_eq_true_2 by done.
      rewrite andb_true_r. apply N.eqb_eq. unfold len. simpl. lia.
    + rewrite (proj2 (N.eqb_neq _ _)) by lia. done.
  - destruct pub; [|done]. by destruct (Hpub eq_refl).
Qed.

Lemma recover_checks_of h p pub A saw g max :
  history_ok (h ++ option_list p) → (pub = true → is_Some p) → g ≤ length h ≤ g + 1 →
  (len (final h p pub) ≤ max)%N →
  recover_checks (snapshot_of (final h p pub)) (ledger_of (take g h)) (N.of_nat g) max (scanned h p A saw) = Ok tt.
Proof.
  intros Hok Hpub Hg Hmax. pose proof (history_ok_prefix _ _ Hok) as Hh. unfold recover_checks.
  rewrite published_of by done.
  assert (size (committed_of h) = length h) as Hsz by (apply size_of, Hh).
  cbn [scanned sc_committed sc_generation sc_last_commit]. rewrite Hsz. unfold len at 1. rewrite N.eqb_refl. cbn [negb].
  assert (negb pub && (negb (Snapshot.generation (snapshot_of (final h p pub)) =? len h)%N
      || negb (bool_decide (Snapshot.last_commit (snapshot_of (final h p pub)) = Change.marker <$> last h))) = false) as ->.
  { destruct pub; [done|]. simpl. rewrite N.eqb_refl, bool_decide_eq_true_2 by done. done. }
  assert ((Snapshot.generation (snapshot_of (final h p pub)) =? 0)%N
    && (negb (size (Snapshot.entries (snapshot_of (final h p pub))) =? 0)
        || negb (bool_decide (Snapshot.last_commit (snapshot_of (final h p pub)) = None))) = false) as ->.
  { destruct (final h p pub) as [|c0 l]; [done|]. simpl. done. }
  pose proof (ho_length _ Hh) as Hlh.
  rewrite (proj2 (N.ltb_ge _ _)), (proj2 (N.ltb_ge _ _)) by (unfold saturating_add, len in *; short). cbn [orb].
  rewrite ledger_agrees_of by done. cbn [negb].
  rewrite (proj2 (N.ltb_ge _ _)); [done|]. unfold final, len in Hmax. destruct pub; [|lia].
  destruct (Hpub eq_refl) as [c ->]. rewrite length_app in Hmax. simpl in Hmax. lia.
Qed.
End scan.
