(* ===== verification/DurableRecovery.v ===== *)
(** Crash recovery of [crates/heptabao-durable-service].

    [stored] says what the three files hold at any moment of any execution: a
    history, perhaps one change on its way, perhaps the beginning of a journal
    frame.  Every write of a mutation, of compaction and of recovery itself moves
    between such states, however it fails, and [reopen] turns each of them back
    into a running service with the history the files hold. *)
From Stdlib Require Import Ascii NArith Strings.Byte.
From S2P Require Import Prelude Str Gf256 Bytes DurableCodec Durable DurableCodecSpec DurableSpec.

(** * What the files hold *)
Module Image.
Record t := mk {
  base : list Change;              (** the history of the journal's checkpoint *)
  events : list JournalEvent;
  frames : list u8;                (** the bytes of the events *)
  tail : list u8;                  (** an incomplete frame *)
  aborted : gset string;
  history : list Change;           (** the changes committed in the journal *)
  pending : option Change;         (** the intent at the end of the journal *)
  published : bool;                (** the snapshot already holds it *)
  ledger : nat;                    (** how many changes the ledger holds *)
}.
End Image.
Notation Image := Image.t.

Definition outcome (i : Image) : list Change := final (Image.history i) (Image.pending i) (Image.published i).

(** The three files agree. *)
Definition same_files (d d' : Disk) : Prop :=
  d' !! journal_path = d !! journal_path ∧ d' !! snapshot_path = d !! snapshot_path
  ∧ d' !! ledger_path = d !! ledger_path.

(** One of them was replaced. *)
Definition replaced (target : string) (bytes : list u8) (d d' : Disk) : Prop :=
  ∀ path, path ∈ [journal_path; snapshot_path; ledger_path] →
    d' !! path = if bool_decide (path = target) then Some bytes else d !! path.

Lemma atomic_write_cases fate target bytes d d' r :
  target ∈ [journal_path; snapshot_path; ledger_path] →
  atomic_write fate target bytes d = (d', r) →
  (r = Ok tt ∧ replaced target bytes d d') ∨ (is_ok r = false ∧ (same_files d d' ∨ replaced target bytes d d')).
Proof.
  intros Ht. unfold atomic_write.
  assert (∀ path v, path ∈ [journal_path; snapshot_path; ledger_path] →
            (<[with_tmp target := v]> d) !! path = d !! path
            ∧ (delete (with_tmp target) d) !! path = d !! path) as Htmp.
  { intros path v Hp. assert (with_tmp target ≠ path) as Hne.
    { rewrite !elem_of_cons in Ht, Hp. destruct Ht as [->|[->|[->|Ht]]]; [..|by apply elem_of_nil in Ht];
      (destruct Hp as [->|[->|[->|Hp]]]; [..|by apply elem_of_nil in Hp]); by vm_compute. }
    by rewrite lookup_insert_ne, lookup_delete_ne. }
  assert (replaced target bytes d (<[target := bytes]> (delete (with_tmp target) d))) as Hrep.
  { intros path Hp. case_bool_decide as Hd; [subst; by rewrite lookup_insert_eq|].
    rewrite lookup_insert_ne by done. by apply (Htmp path []). }
  destruct (MAX_FILE_BYTES <? len bytes)%N; [intros [= <- <-]; right; split; [done|left; split_and!; done]|].
  destruct fate as [|[|n]]; intros [= <- <-].
  - by left.
  - right. split; [done|left; split_and!; done].
  - right. split; [done|]. destruct (n <=? length bytes); [left|by right].
    split_and!; apply Htmp; set_solver.
Qed.

Lemma append_frame_cases fate f d j d' r :
  d !! journal_path = Some j → append_journal_frame fate f d = (d', r) →
  (r = Ok tt ∧ replaced journal_path (j ++ f) d d')
  ∨ (r = Err Io ∧ (replaced journal_path (j ++ f) d d'
                   ∨ ∃ n, n < length f ∧ replaced journal_path (j ++ take n f) d d')).
Proof.
  intros Hj. unfold append_journal_frame. rewrite Hj.
  assert (∀ v, replaced journal_path v d (<[journal_path := v]> d)) as Hrep.
  { intros v path Hp. case_bool_decide as Hd; [subst; by rewrite lookup_insert_eq|]. by rewrite lookup_insert_ne. }
  destruct fate as [|n]; intros [= <- <-]; [by left|right]. split; [done|].
  destruct (decide (n < length f)); [right; eauto|left]. rewrite take_ge by lia. apply Hrep.
Qed.

Lemma truncate_cases fate n d j d' r :
  d !! journal_path = Some j → truncate_journal fate n d = (d', r) →
  (r = Ok tt ∧ replaced journal_path (take (N.to_nat n) j) d d')
  ∨ (r = Err Io ∧ (same_files d d' ∨ replaced journal_path (take (N.to_nat n) j) d d')).
Proof.
  intros Hj. unfold truncate_journal. rewrite Hj.
  assert (∀ v, replaced journal_path v d (<[journal_path := v]> d)) as Hrep.
  { intros v path Hp. case_bool_decide as Hd; [subst; by rewrite lookup_insert_eq|]. by rewrite lookup_insert_ne. }
  destruct fate as [|[|k]]; intros [= <- <-]; [by left|right|right]; split; try done; [left|by right].
  split_and!; done.
Qed.

(** Compute the parts of a given image. *)
Ltac img :=
  cbn [Image.base Image.events Image.frames Image.tail Image.aborted Image.history Image.pending
       Image.published Image.ledger outcome final option_list pending_reference] in *.

Section stored.
Context `{B : Barrier, Sh : Sha256} {overhead : N} `{!BarrierLaws B overhead, !Sha256Laws Sh}.
(** The capacity every instance of the service is opened with. *)
Context (max : N).
Import DurableService.

(** The ledger of a history has a sealed form that fits into a file. *)
Definition fits (h : list Change) : Prop :=
  ∃ nonce g b, sealed_ledger nonce g (ledger_of h) = Ok b ∧ (len b ≤ MAX_FILE_BYTES)%N.

(** The end of a pending change fits into the journal. *)
Definition reserved (i : Image) : Prop :=
  match Image.pending i with
  | Some c => Image.ledger i = length (Image.history i) ∧ (len (Image.events i) + 1 ≤ MAX_RECORDS)%N ∧
      ∃ nonce k f, sealed_journal_record nonce k (Commit (Change.marker c)) = Ok f
        ∧ (4 + len (Image.frames i) + len f ≤ MAX_FILE_BYTES)%N
  | None => True
  end.

Record stored (used : gset string) (d : Disk) (i : Image) : Prop := {
  st_journal : d !! journal_path = Some (JOURNAL_MAGIC ++ Image.frames i ++ Image.tail i);
  st_framed : framed 1 (Image.events i) (Image.frames i);
  st_torn : torn (Image.tail i);
  st_written : written (Image.base i) (Image.events i) (Image.history i) (Image.pending i) (Image.aborted i);
  st_base : length (Image.base i) ≤ Image.ledger i;
  st_behind : Image.ledger i ≤ length (Image.history i) ≤ Image.ledger i + 1;
  st_published : Image.published i = true → is_Some (Image.pending i);
  st_used : references_of (Image.history i) ∪ Image.aborted i ∪ pending_reference (Image.pending i) ⊆ used;
  st_snapshot : ∃ nonce b, d !! snapshot_path = Some b ∧ sealed_snapshot nonce (snapshot_of (outcome i)) = Ok b
    ∧ (len b ≤ MAX_FILE_BYTES)%N;
  st_ledger : ∃ nonce b, d !! ledger_path = Some b
    ∧ sealed_ledger nonce (N.of_nat (Image.ledger i)) (ledger_of (take (Image.ledger i) (Image.history i))) = Ok b
    ∧ (len b ≤ MAX_FILE_BYTES)%N;
  st_fits : fits (outcome i);
  st_max : (len (outcome i) ≤ max)%N;
  st_bytes : (4 + len (Image.frames i) + len (Image.tail i) ≤ MAX_FILE_BYTES)%N;
  st_count : (len (Image.events i) ≤ MAX_RECORDS)%N;
  st_reserved : reserved i;
}.

(** The files hold a history, whatever is on its way. *)
Definition holds (used : gset string) (d : Disk) (h : list Change) : Prop := ∃ i, stored used d i ∧ outcome i = h.

Lemma stored_history used d i : stored used d i → history_ok (Image.history i ++ option_list (Image.pending i)).
Proof. intros Hs. by apply (written_history _ _ _ _ _ (st_written _ _ _ Hs)). Qed.

Lemma outcome_ok used d i : stored used d i → history_ok (outcome i).
Proof.
  intros Hs. pose proof (stored_history _ _ _ Hs) as Hok. unfold outcome, final.
  destruct (Image.published i); [done|by eapply history_ok_prefix].
Qed.

Lemma stored_same used d d' i : stored used d i → same_files d d' → stored used d' i.
Proof. intros [] (Hj & Hs & Hl). split; rewrite ?Hj, ?Hs, ?Hl; done. Qed.

Lemma stored_used used used' d i : stored used d i → used ⊆ used' → stored used' d i.
Proof. intros [] Hu. split; try done. set_solver. Qed.

Lemma replaced_journal d d' bytes :
  replaced journal_path bytes d d' →
  d' !! journal_path = Some bytes ∧ d' !! snapshot_path = d !! snapshot_path ∧ d' !! ledger_path = d !! ledger_path.
Proof. intros Hr. split_and!; rewrite (Hr _) by set_solver; done. Qed.

Lemma replaced_snapshot d d' bytes :
  replaced snapshot_path bytes d d' →
  d' !! journal_path = d !! journal_path ∧ d' !! snapshot_path = Some bytes ∧ d' !! ledger_path = d !! ledger_path.
Proof. intros Hr. split_and!; rewrite (Hr _) by set_solver; done. Qed.

Lemma replaced_ledger d d' bytes :
  replaced ledger_path bytes d d' →
  d' !! journal_path = d !! journal_path ∧ d' !! snapshot_path = d !! snapshot_path ∧ d' !! ledger_path = Some bytes.
Proof. intros Hr. split_and!; rewrite (Hr _) by set_solver; done. Qed.

(** * Transitions *)
Implicit Types (d : Disk) (h : list Change) (es : list JournalEvent) (bs f : list u8) (A used : gset string).

Lemma len_snoc {X} (l : list X) (x : X) : len (l ++ [x]) = (len l + 1)%N.
Proof. rewrite len_app. unfold len. simpl. lia. Qed.

Lemma torn_nil : torn [].
Proof. by left. Qed.

Lemma stored_tear used d d' h0 es bs A h p pub g nonce k e f n :
  stored used d (Image.mk h0 es bs [] A h p pub g) → sealed_journal_record nonce k e = Ok f → n < length f →
  (4 + len bs + len f ≤ MAX_FILE_BYTES)%N → replaced journal_path ((JOURNAL_MAGIC ++ bs ++ []) ++ take n f) d d' →
  stored used d' (Image.mk h0 es bs (take n f) A h p pub g).
Proof.
  intros [] Hf Hn Hroom (Hj & Hs & Hl)%replaced_journal. img. split; img; rewrite ?Hs, ?Hl; try done.
  - by rewrite Hj, app_nil_r, <- (assoc_L (++)).
  - right. exists nonce, k, e, f, n. split_and!; [done| |done|done]. lia.
  - unfold len in *. rewrite length_take. lia.
Qed.

Lemma stored_cut used d d' h0 es bs tail A h p pub g :
  stored used d (Image.mk h0 es bs tail A h p pub g) →
  replaced journal_path (take (N.to_nat (4 + len bs)) (JOURNAL_MAGIC ++ bs ++ tail)) d d' →
  stored used d' (Image.mk h0 es bs [] A h p pub g).
Proof.
  intros [] (Hj & Hs & Hl)%replaced_journal. img. split; img; rewrite ?Hs, ?Hl; try done.
  - rewrite Hj, app_nil_r, (assoc_L (++)). f_equal.
    replace (N.to_nat (4 + len bs)) with (length (JOURNAL_MAGIC ++ bs)); [apply take_app_length|].
    rewrite length_app. unfold len. simpl. lia.
  - apply torn_nil.
  - unfold len in *. simpl. lia.
Qed.

(** A complete frame behind the journal. *)
Lemma stored_frame d d' bs f :
  replaced journal_path ((JOURNAL_MAGIC ++ bs ++ []) ++ f) d d' →
  d' !! journal_path = Some (JOURNAL_MAGIC ++ (bs ++ f) ++ []) ∧ d' !! snapshot_path = d !! snapshot_path
  ∧ d' !! ledger_path = d !! ledger_path.
Proof. intros (-> & -> & ->)%replaced_journal. by rewrite !app_nil_r, <- (assoc_L (++)). Qed.

Lemma stored_intent used d d' h0 es bs A h c nonce k nonce' f f' :
  stored used d (Image.mk h0 es bs [] A h None false (length h)) →
  history_ok (h ++ [c]) →
  Change.reference c = recovery_reference (CommitMarker.binding_digest (Change.marker c)) (Change.generation c) (len es + 1) →
  Change.reference c ∉ used →
  sealed_journal_record nonce (len es + 1) (Intent (Change.marker c)) = Ok f →
  sealed_journal_record nonce' k (Commit (Change.marker c)) = Ok f' →
  (len es + 2 ≤ MAX_RECORDS)%N → (4 + len bs + len f + len f' ≤ MAX_FILE_BYTES)%N →
  replaced journal_path ((JOURNAL_MAGIC ++ bs ++ []) ++ f) d d' →
  stored ({[Change.reference c]} ∪ used) d'
    (Image.mk h0 (es ++ [Intent (Change.marker c)]) (bs ++ f) [] A h (Some c) false (length h)).
Proof.
  intros [] Hok Href Hfr Hf Hf' Hn Hroom (Hj & Hs & Hl)%stored_frame. img.
  split; img; rewrite ?Hs, ?Hl, ?len_snoc; try done.
  - eapply framed_snoc; [done|]. rewrite <- Hf. f_equal. lia.
  - constructor; [done|done|done|]. set_solver.
  - set_solver.
  - unfold len in *. rewrite length_app. simpl. lia.
  - lia.
  - split_and!; [done| |]; img; rewrite ?len_snoc; [lia|]. exists nonce', k, f'. split; [done|]. rewrite len_app. lia.
Qed.

Lemma stored_publish used d d' h0 es bs A h c g nonce b :
  stored used d (Image.mk h0 es bs [] A h (Some c) false g) →
  sealed_snapshot nonce (snapshot_of (h ++ [c])) = Ok b → (len b ≤ MAX_FILE_BYTES)%N →
  fits (h ++ [c]) → (len (h ++ [c]) ≤ max)%N → replaced snapshot_path b d d' →
  stored used d' (Image.mk h0 es bs [] A h (Some c) true g).
Proof.
  intros [] Hb Hlb Hfit Hmax (Hj & Hs & Hl)%replaced_snapshot. img. split; img; rewrite ?Hj, ?Hl; try done.
  exists nonce, b. done.
Qed.

Lemma stored_commit used d d' h0 es bs A h c g nonce f :
  stored used d (Image.mk h0 es bs [] A h (Some c) true g) →
  sealed_journal_record nonce (len es + 1) (Commit (Change.marker c)) = Ok f →
  (4 + len bs + len f ≤ MAX_FILE_BYTES)%N → replaced journal_path ((JOURNAL_MAGIC ++ bs ++ []) ++ f) d d' →
  stored used d' (Image.mk h0 (es ++ [Commit (Change.marker c)]) (bs ++ f) [] A (h ++ [c]) None false g).
Proof.
  intros [] Hf Hroom (Hj & Hs & Hl)%stored_frame. destruct st_reserved0 as (Hg & Hcount & _). img. subst g.
  split; img; rewrite ?Hs, ?Hl, ?len_snoc; try done.
  - eapply framed_snoc; [done|]. rewrite <- Hf. f_equal. lia.
  - by constructor.
  - rewrite length_app. simpl. lia.
  - rewrite references_of_snoc. set_solver.
  - destruct st_ledger0 as (n & b & Hd & Hb & Hlen). exists n, b. split_and!; [done| |done].
    rewrite take_app_length. by rewrite firstn_all in Hb.
  - change (option_list (Some c)) with [c] in st_max0. by rewrite len_snoc in st_max0.
  - unfold len in *. rewrite length_app. simpl. lia.
Qed.

Lemma stored_abort used d d' h0 es bs A h c g nonce f :
  stored used d (Image.mk h0 es bs [] A h (Some c) false g) →
  sealed_journal_record nonce (len es + 1) (Abort (Change.marker c)) = Ok f →
  (4 + len bs + len f ≤ MAX_FILE_BYTES)%N → replaced journal_path ((JOURNAL_MAGIC ++ bs ++ []) ++ f) d d' →
  stored used d' (Image.mk h0 (es ++ [Abort (Change.marker c)]) (bs ++ f) [] ({[Change.reference c]} ∪ A) h None false g).
Proof.
  intros [] Hf Hroom (Hj & Hs & Hl)%stored_frame. destruct st_reserved0 as (Hg & Hcount & _). img.
  split; img; rewrite ?Hs, ?Hl, ?len_snoc; try done.
  - eapply framed_snoc; [done|]. rewrite <- Hf. f_equal. lia.
  - by constructor.
  - set_solver.
  - unfold len in *. rewrite length_app. simpl. lia.
Qed.

Lemma stored_settle used d d' h0 es bs A h g nonce b :
  stored used d (Image.mk h0 es bs [] A h None false g) →
  sealed_ledger nonce (len h) (ledger_of h) = Ok b → (len b ≤ MAX_FILE_BYTES)%N → replaced ledger_path b d d' →
  stored used d' (Image.mk h0 es bs [] A h None false (length h)).
Proof.
  intros [] Hb Hlb (Hj & Hs & Hl)%replaced_ledger. img. split; img; rewrite ?Hj, ?Hs; try done.
  - lia.
  - lia.
  - exists nonce, b. rewrite firstn_all. done.
Qed.

Lemma stored_compact used d d' h0 es bs A h cp nonce f :
  stored used d (Image.mk h0 es bs [] A h None false (length h)) →
  checkpoint_marker (snapshot_of h) (ledger_of h) = Ok cp → sealed_journal_record nonce 1 (Checkpoint cp) = Ok f →
  (len (JOURNAL_MAGIC ++ f) ≤ MAX_FILE_BYTES)%N → replaced journal_path (JOURNAL_MAGIC ++ f) d d' →
  stored used d' (Image.mk h [Checkpoint cp] f [] ∅ h None false (length h)).
Proof.
  intros Hst Hcp Hf Hroom (Hj & Hs & Hl)%replaced_journal. pose proof (outcome_ok _ _ _ Hst) as Hok.
  destruct Hst. img. split; img; rewrite ?Hs, ?Hl; try done.
  - by rewrite Hj, app_nil_r.
  - rewrite <- (app_nil_r f). econstructor; [done|constructor].
  - by constructor.
  - set_solver.
  - rewrite len_app in Hroom. unfold len in *. simpl in *. lia.
Qed.
End stored.

(** * The operations of the durable service preserve what the files hold: mutations,
    compaction and recovery, for every fate of their writes. *)

(** * References *)
Lemma hex_digit_ok n : (n < 16)%N →
  (is_ascii_digit (hex_digit n) || byte_in 65 70 (hex_digit n) || byte_in 97 102 (hex_digit n)) = true.
Proof.
  intros Hn. assert (∃ k, k < 16 ∧ n = N.of_nat k) as (k & Hk & ->) by (exists (N.to_nat n); lia).
  do 16 (destruct k as [|k]; [by vm_compute|]). lia.
Qed.

Lemma hex_pairs_spec bytes :
  String.length (hex_pairs bytes) = 2 * length bytes
  ∧ str_all (λ c, is_ascii_digit c || byte_in 65 70 c || byte_in 97 102 c) (hex_pairs bytes) = true.
Proof.
  induction bytes as [|b bytes [IHl IHa]]; [done|]. simpl. fold (hex_pairs bytes). rewrite IHl, IHa.
  assert (U8.to_N b < 256)%N as Hb by (unfold U8.to_N; pose proof (Byte.to_N_bounded b); lia).
  rewrite !hex_digit_ok; [split; [lia|done]| |].
  - change 15%N with (N.ones 4). rewrite N.land_ones. apply N.mod_lt. done.
  - rewrite N.shiftr_div_pow2. apply N.Div0.div_lt_upper_bound. simpl. lia.
Qed.

Section steps.
Context `{B : Barrier, Sh : Sha256} {overhead : N} `{!BarrierLaws B overhead, !Sha256Laws Sh}.
Context (max : N) (Hcap : validate_capacity max = Ok tt).
Import DurableService.
Implicit Types (s : DurableService.t) (h : list Change) (used : gset string) (io : IoTrace).

Lemma recovery_reference_ok digest g q : reference_ok (recovery_reference digest g q) = true.
Proof.
  unfold reference_ok, recovery_reference.
  set (bytes := take 16 _). assert (length bytes = 16) as Hl by (unfold bytes; rewrite length_take, digest32_length; done).
  destruct (hex_pairs_spec bytes) as [-> ->]. by rewrite Hl.
Qed.

Lemma max_bounds : (0 < max ≤ MAX_RECORDS)%N.
Proof.
  unfold validate_capacity in Hcap. destruct (_ || _) eqn:E; [done|]. apply orb_false_iff in E as [E1 E2].
  apply N.eqb_neq in E1. apply N.ltb_ge in E2. lia.
Qed.

(** * A running service *)
Definition tracks s (i : Image) : Prop :=
  journal_sequence s = len (Image.events i) ∧ journal_bytes s = (4 + len (Image.frames i))%N
  ∧ journal_limit s = MAX_FILE_BYTES ∧ max_retained_requests s = max.

(** Reconciliation reports exactly the committed changes as committed. *)
Definition reconciled (r : gmap string ReconciliationStatus) h : Prop :=
  (∀ c, c ∈ h → r !! Change.reference c = Some (StatusCommitted (Change.generation c)))
  ∧ ∀ reference g, r !! reference = Some (StatusCommitted g) →
      ∃ c, c ∈ h ∧ Change.reference c = reference ∧ Change.generation c = g.

Record live used s h : Prop := {
  lv_image : ∃ h0 es bs A, let i := Image.mk h0 es bs [] A h None false (length h) in
    stored max used (disk s) i ∧ tracks s i;
  lv_snapshot : snapshot s = snapshot_of h;
  lv_ledger : ledger s = ledger_of h;
  lv_resolved : unresolved s = false;
  lv_reconciled : reconciled (reconciliation s) h;
}.

Lemma live_holds used s h : live used s h → holds max used (disk s) h.
Proof. intros [(h0 & es & bs & A & Hs & _) _ _ _ _]. eexists; split; [exact Hs|done]. Qed.

Lemma live_history used s h : live used s h → history_ok h.
Proof. intros [(h0 & es & bs & A & Hs & _) _ _ _ _]. apply (outcome_ok _ _ _ _ Hs). Qed.

(** * Mutations *)

(** The change a mutation proposes in a state. *)
Definition proposed s (b : Binding) (v : option (list u8)) : Change :=
  let generation := (Snapshot.generation (snapshot s) + 1)%N in
  Change.mk
    (CommitMarker.mk (Binding.key b) (Binding.digest b)
       (recovery_reference (Binding.digest b) generation (journal_sequence s + 1)) generation)
    (Binding.storage_key b) v.

(** The request was validated, and carries a value exactly if it writes one. *)
Definition binding_ok (b : Binding) (v : option (list u8)) : Prop :=
  key_ok (Binding.key b) ∧ validate_resource (Binding.resource b) = Ok tt ∧
  match Binding.kind b, v with
  | Put, Some value => value ≠ [] ∧ (len value ≤ MAX_SECRET_BYTES)%N
  | Delete, None => True
  | _, _ => False
  end.

Lemma proposed_ok used s h b v :
  live used s h → binding_ok b v → Binding.digest b ≠ zero32 → ledger s !! Binding.key b = None →
  Change.reference (proposed s b v) ∉ used → (len h < max)%N → history_ok (h ++ [proposed s b v]).
Proof.
  intros Hl (Hk & Hr & Hv) Hd Hnew Hfr Hlt. pose proof (live_history _ _ _ Hl) as Hok.
  destruct Hl as [(h0 & es & bs & A & Hs & _) Hsn Hle _ _]. pose proof max_bounds.
  assert (Snapshot.generation (snapshot s) = len h) as Hg by (by rewrite Hsn).
  apply history_ok_snoc; [done| | | | |lia].
  - unfold proposed. cbv zeta. rewrite Hg. split; cbn [Change.marker Change.value Change.key].
    + split_and!; cbn [CommitMarker.binding_digest CommitMarker.generation];
        [|apply digest32_length|pose proof (ho_length h Hok); short].
      unfold validate_marker. cbn [CommitMarker.key CommitMarker.binding_digest CommitMarker.recovery_reference CommitMarker.generation].
      destruct Hk as (-> & -> & ->). rewrite bool_decide_eq_false_2, recovery_reference_ok by done. cbn [negb orb].
      rewrite (proj2 (N.eqb_neq _ _)) by lia. done.
    + destruct v as [value|]; [|done]. destruct (Binding.kind b); [|done]. split_and!; try apply Hv; try done. apply Hk.
  - unfold Change.generation, proposed. cbn. by rewrite Hg.
  - unfold Change.request, proposed. cbn [Change.marker CommitMarker.key]. rewrite Hle in Hnew.
    intros Hin. apply list_elem_of_fmap in Hin as (c & Hc & Hin).
    assert (ledger_of h !! Binding.key b = Some (Change.record c)) as He; [|congruence].
    apply lookup_of; [apply Hok|eauto].
  - intros Hin. apply Hfr. pose proof (st_used _ _ _ _ Hs) as Hu. img.
    apply Hu. apply elem_of_union_l, elem_of_union_l. unfold references_of. by apply elem_of_list_to_set.
Qed.

Lemma snapshot_of_snoc h c :
  snapshot_of (h ++ [c]) = Snapshot.mk (len h + 1) (apply_change (entries_of h) c) (Some (Change.marker c)).
Proof. unfold snapshot_of. by rewrite len_snoc, entries_snoc, last_snoc. Qed.

(** What is ready before the first durable write. *)
Lemma prepare_facts used s h io b v p :
  live used s h → binding_ok b v → history_ok (h ++ [proposed s b v]) → prepare io s b v = Ok p →
  let c := proposed s b v in
  pr_marker p = Change.marker c ∧ pr_candidate p = snapshot_of (h ++ [c])
  ∧ pr_candidate_ledger p = ledger_of (h ++ [c])
  ∧ (∃ n, sealed_snapshot n (snapshot_of (h ++ [c])) = Ok (pr_snapshot_bytes p))
  ∧ (∃ n, sealed_ledger n (len h + 1) (ledger_of (h ++ [c])) = Ok (pr_ledger_bytes p))
  ∧ (∃ n, sealed_journal_record n (journal_sequence s + 1) (Intent (Change.marker c)) = Ok (pr_intent p))
  ∧ (∃ n, sealed_journal_record n (journal_sequence s + 2) (Commit (Change.marker c)) = Ok (pr_commit p))
  ∧ (len (pr_snapshot_bytes p) ≤ MAX_FILE_BYTES)%N ∧ (len (pr_ledger_bytes p) ≤ MAX_FILE_BYTES)%N
  ∧ (journal_sequence s + 2 ≤ MAX_RECORDS)%N
  ∧ (journal_bytes s + len (pr_intent p) + len (pr_commit p) ≤ journal_limit s)%N.
Proof.
  intros Hl (Hk & Hr & Hv) Hok Hp. cbv zeta. set (c := proposed s b v) in *.
  destruct Hl as [_ Hsn Hle _ _]. unfold prepare in Hp.
  destruct (checked_add (Snapshot.generation (snapshot s)) 1) as [g|] eqn:Hg; [|done]. cbn [ok_or] in Hp.
  destruct (checked_add (journal_sequence s) 1) as [q|] eqn:Hq; [|done]. cbn [ok_or] in Hp.
  destruct (checked_add q 1) as [q'|] eqn:Hq'; [|done]. cbn [ok_or] in Hp.
  apply checked_add_Some in Hg as [-> _], Hq as [-> _], Hq' as [-> _].
  replace (journal_sequence s + 1 + 1)%N with (journal_sequence s + 2)%N in Hp by lia.
  change (CommitMarker.mk (Binding.key b) (Binding.digest b)
    (recovery_reference (Binding.digest b) (Snapshot.generation (snapshot s) + 1) (journal_sequence s + 1))
    (Snapshot.generation (snapshot s) + 1)) with (Change.marker c) in Hp.
  assert (candidate_entries (Snapshot.entries (snapshot s)) b v = Ok (apply_change (entries_of h) c)) as He.
  { unfold candidate_entries, apply_change, c, proposed. cbn [Change.value Change.key]. rewrite Hsn.
    destruct (Binding.kind b), v; done. }
  rewrite He in Hp.
  assert (Snapshot.mk (Snapshot.generation (snapshot s) + 1) (apply_change (entries_of h) c) (Some (Change.marker c))
          = snapshot_of (h ++ [c])) as Hc by (rewrite snapshot_of_snoc, Hsn; done).
  rewrite Hc in Hp.
  assert (<[Binding.key b := LedgerRecord.mk (Binding.digest b)
      (recovery_reference (Binding.digest b) (Snapshot.generation (snapshot s) + 1) (journal_sequence s + 1))
      (Snapshot.generation (snapshot s) + 1)]> (ledger s) = ledger_of (h ++ [c])) as Hcl.
  { rewrite ledger_of_snoc by (by apply snoc_request_fresh). by rewrite Hle. }
  rewrite Hcl in Hp.
  destruct (sealed_snapshot _ _) as [sb|] eqn:Esb; [|done].
  assert (Snapshot.generation (snapshot s) = len h) as Hgl by (by rewrite Hsn). rewrite Hgl in Hp.
  destruct (sealed_ledger _ _ _) as [lb|] eqn:Elb; [|done].
  destruct (sealed_journal_record _ _ (Intent _)) as [ib|] eqn:Eib; [|done].
  destruct (sealed_journal_record _ _ (Commit _)) as [cb|] eqn:Ecb; [|done].
  destruct (_ || _) eqn:E1 in Hp; [done|]. destruct (_ || _) eqn:E2 in Hp; [done|].
  apply orb_false_iff in E1 as [E1 E1'], E2 as [E2 E2']. apply N.ltb_ge in E1, E1', E2, E2'.
  apply Ok_inj in Hp as <-. cbn [pr_marker pr_candidate pr_candidate_ledger pr_snapshot_bytes pr_ledger_bytes pr_intent pr_commit].
  split_and!; eauto.
Qed.

(** Appending a frame that fits. *)
Lemma append_frame_any fate f s s' r j :
  disk s !! journal_path = Some j → (journal_sequence s + 1 ≤ MAX_RECORDS)%N →
  (journal_bytes s + len f ≤ journal_limit s)%N → append_frame fate f s = (s', r) →
  ∃ d', (r = Ok tt ∧ replaced journal_path (j ++ f) (disk s) d'
         ∧ s' = set_journal (journal_sequence s + 1) (journal_bytes s + len f) (set_disk d' s))
    ∨ (is_ok r = false ∧ s' = set_disk d' s
       ∧ (replaced journal_path (j ++ f) (disk s) d'
          ∨ ∃ n, n < length f ∧ replaced journal_path (j ++ take n f) (disk s) d')).
Proof.
  intros Hj Hq Hb. unfold append_frame.
  rewrite (proj2 (checked_add_Some (journal_sequence s) 1 (journal_sequence s + 1))) by (split; [done|short]).
  rewrite (proj2 (N.ltb_ge _ _)), (proj2 (N.ltb_ge _ _)) by done. cbn [orb]. unfold mbind, on_disk.
  destruct (append_journal_frame fate f (disk s)) as [d' r'] eqn:Ha.
  apply append_frame_cases with (j := j) in Ha; [|done].
  destruct Ha as [[-> Hrep]|[-> Hrep]]; intros [= <- <-]; exists d'; [left|right]; auto.
Qed.

(** The writes of a mutation after its intent, and after its snapshot. *)
Definition publish_commit io (fp : Failpoint) (p : Prepared) : M t ServiceError unit :=
  append_frame (Io.fate io 2) (pr_commit p) ;;?
  stop_at fp AfterCommitJournal ;;?
  on_disk (atomic_write (Io.fate io 3) ledger_path (pr_ledger_bytes p)) ;;?
  (λ self, (set_ledger (pr_candidate_ledger p) self, Ok tt)).

Definition publish_snapshot io (fp : Failpoint) (p : Prepared) : M t ServiceError unit :=
  on_disk (atomic_write (Io.fate io 1) snapshot_path (pr_snapshot_bytes p)) ;;?
  (λ self, (set_snapshot (pr_candidate p) self, Ok tt)) ;;?
  stop_at fp AfterSnapshotPublication ;;?
  publish_commit io fp p.

(** The end of a mutation that went through. *)
Definition acknowledge (c : Change) s : t :=
  set_unresolved false
    (set_reconciliation (<[Change.reference c := StatusCommitted (Change.generation c)]> (reconciliation s)) s).

Lemma reconciled_snoc r h c :
  reconciled r h → Change.reference c ∉ Change.reference <$> h →
  reconciled (<[Change.reference c := StatusCommitted (Change.generation c)]> r) (h ++ [c]).
Proof.
  intros [H1 H2] Hc. split.
  - intros c' [Hin| ->%list_elem_of_singleton]%elem_of_app; [|by rewrite lookup_insert_eq].
    rewrite lookup_insert_ne; [by apply H1|]. intros He. apply Hc. rewrite He. by apply list_elem_of_fmap_2.
  - intros ref g [[<- [= <-]]|[_ Hr]]%lookup_insert_Some; [exists c; set_solver|].
    apply H2 in Hr as (c' & ? & ? & ?). exists c'. set_solver.
Qed.

Lemma snoc_reference_fresh h c : history_ok (h ++ [c]) → Change.reference c ∉ Change.reference <$> h.
Proof.
  intros Hok. pose proof (ho_references _ Hok) as Hn. rewrite fmap_app in Hn. apply NoDup_app in Hn as (_ & Hn & _).
  intros Hc. apply (Hn _ Hc). simpl. set_solver.
Qed.

(** Once the snapshot is published the change is there to stay. *)
Lemma publish_commit_any used s h c h0 es bs A io fp p s' r n n' :
  let i := Image.mk h0 es bs [] A h (Some c) true (length h) in
  stored max used (disk s) i → tracks s i → unresolved s = true → snapshot s = snapshot_of (h ++ [c]) →
  reconciled (reconciliation s) h →
  sealed_journal_record n (len es + 1) (Commit (Change.marker c)) = Ok (pr_commit p) →
  sealed_ledger n' (len h + 1) (ledger_of (h ++ [c])) = Ok (pr_ledger_bytes p) →
  (len es + 1 ≤ MAX_RECORDS)%N → (4 + len bs + len (pr_commit p) ≤ MAX_FILE_BYTES)%N →
  (len (pr_ledger_bytes p) ≤ MAX_FILE_BYTES)%N → pr_candidate_ledger p = ledger_of (h ++ [c]) →
  publish_commit io fp p s = (s', r) →
  (r = Ok tt ∧ live used (acknowledge c s') (h ++ [c]))
  ∨ (is_ok r = false ∧ unresolved s' = true ∧ holds max used (disk s') (h ++ [c])).
Proof.
  cbv zeta. intros Hst (Ht1 & Ht2 & Ht3 & Ht4) Hun Hsn Hrec Hcb Hlb Hq Hroom Hll Ecl. img.
  pose proof (stored_history _ _ _ _ Hst) as Hok. img. change (option_list (Some c)) with [c] in Hok.
  unfold publish_commit, mbind.
  destruct (append_frame (Io.fate io 2) (pr_commit p) s) as [s1 r1] eqn:E1.
  apply append_frame_any with (j := JOURNAL_MAGIC ++ bs ++ []) in E1; [|apply (st_journal _ _ _ _ Hst)|lia|lia].
  destruct E1 as (d1 & [(-> & Hr1 & ->)|(Hr1 & -> & Hd1)]).
  2: { destruct r1; [done|]. intros [= <- <-]. right. split_and!; [done|done|]. cbn [set_disk disk].
       destruct Hd1 as [Hr|(m & Hm & Hr)].
       - eexists; split; [eapply stored_commit; [exact Hst|exact Hcb|lia|exact Hr]|done].
       - eexists; split; [eapply stored_tear; [exact Hst|exact Hcb|done|lia|exact Hr]|done]. }
  eapply stored_commit in Hst; [|exact Hcb|lia|exact Hr1].
  unfold stop_at. destruct (bool_decide (fp = AfterCommitJournal)).
  { intros [= <- <-]. right. split_and!; [done|done|]. eexists; split; [exact Hst|done]. }
  unfold on_disk. cbn [set_journal set_disk disk].
  destruct (atomic_write (Io.fate io 3) ledger_path (pr_ledger_bytes p) d1) as [d2 r2] eqn:E2.
  apply atomic_write_cases in E2; [|set_solver].
  destruct E2 as [[-> Hr2]|[Hr2 Hd2]].
  2: { destruct r2; [done|]. intros [= <- <-]. right. split_and!; [done|done|]. cbn [set_disk disk].
       destruct Hd2 as [Hsame|Hr]; [by eexists; split; [eapply stored_same; [exact Hst|done]|]|].
       eexists; split; [eapply stored_settle; [exact Hst|by rewrite len_snoc|done|exact Hr]|done]. }
  intros [= <- <-]. left. split; [done|].
  eapply stored_settle in Hst; [|rewrite len_snoc; exact Hlb|done|exact Hr2].
  split; try done.
  - exists h0, (es ++ [Commit (Change.marker c)]), (bs ++ pr_commit p), A. cbv zeta. split; [exact Hst|].
    unfold tracks. cbn. rewrite len_snoc, len_app, Ht1, Ht2. split_and!; [lia|lia|done|done].
  - by apply reconciled_snoc; [|apply snoc_reference_fresh].
Qed.

Lemma publish_snapshot_any used s h c h0 es bs A io fp p s' r n n' n'' :
  let i := Image.mk h0 es bs [] A h (Some c) false (length h) in
  stored max used (disk s) i → tracks s i → unresolved s = true → reconciled (reconciliation s) h →
  pr_candidate p = snapshot_of (h ++ [c]) → sealed_snapshot n'' (snapshot_of (h ++ [c])) = Ok (pr_snapshot_bytes p) →
  sealed_journal_record n (len es + 1) (Commit (Change.marker c)) = Ok (pr_commit p) →
  sealed_ledger n' (len h + 1) (ledger_of (h ++ [c])) = Ok (pr_ledger_bytes p) →
  (len (pr_snapshot_bytes p) ≤ MAX_FILE_BYTES)%N → (len h < max)%N →
  (len es + 1 ≤ MAX_RECORDS)%N → (4 + len bs + len (pr_commit p) ≤ MAX_FILE_BYTES)%N →
  (len (pr_ledger_bytes p) ≤ MAX_FILE_BYTES)%N → pr_candidate_ledger p = ledger_of (h ++ [c]) →
  publish_snapshot io fp p s = (s', r) →
  (r = Ok tt ∧ live used (acknowledge c s') (h ++ [c]))
  ∨ (is_ok r = false ∧ unresolved s' = true ∧ (holds max used (disk s') h ∨ holds max used (disk s') (h ++ [c]))).
Proof.
  cbv zeta. intros Hst Ht Hun Hrec Ec Hsb Hcb Hlb Hls Hlt Hq Hroom Hll Ecl.
  assert (fits (h ++ [c])) as Hfit by (exists n', (len h + 1)%N, (pr_ledger_bytes p); done).
  unfold publish_snapshot, mbind at 1, on_disk.
  destruct (atomic_write (Io.fate io 1) snapshot_path (pr_snapshot_bytes p) (disk s)) as [d1 r1] eqn:E1.
  apply atomic_write_cases in E1; [|set_solver].
  assert (Hpub : replaced snapshot_path (pr_snapshot_bytes p) (disk s) d1 →
    stored max used d1 (Image.mk h0 es bs [] A h (Some c) true (length h))).
  { intros Hr. eapply stored_publish; [exact Hst|exact Hsb|done|done|rewrite len_snoc; lia|exact Hr]. }
  destruct E1 as [[-> Hr1]|[Hr1 Hd1]].
  2: { destruct r1; [done|]. intros [= <- <-]. right. split_and!; [done|done|]. cbn [set_disk disk].
       destruct Hd1 as [Hsame|Hr]; [left|right].
       - by eexists; split; [eapply stored_same; [exact Hst|done]|].
       - by eexists; split; [apply Hpub|]. }
  specialize (Hpub Hr1). unfold mbind at 1. unfold mbind at 1. unfold stop_at.
  destruct (bool_decide (fp = AfterSnapshotPublication)).
  { intros [= <- <-]. right. split_and!; [done|done|right]. by eexists; split; [exact Hpub|]. }
  intros Hrest. eapply publish_commit_any in Hrest; [|exact Hpub|exact Ht|done|done|done|done|done|done|done|done|done].
  destruct Hrest as [?|(?&?&?)]; auto.
Qed.

(** The durable writes of a mutation. *)
Lemma publish_any used s h io fp b v p s' r :
  live used s h → binding_ok b v → history_ok (h ++ [proposed s b v]) → prepare io s b v = Ok p →
  Change.reference (proposed s b v) ∉ used → (len h < max)%N →
  publish io fp p (set_unresolved true s) = (s', r) →
  let c := proposed s b v in let used' := {[Change.reference c]} ∪ used in
  (r = Ok tt ∧ live used' (acknowledge c s') (h ++ [c]))
  ∨ (is_ok r = false ∧ unresolved s' = true ∧ (holds max used' (disk s') h ∨ holds max used' (disk s') (h ++ [c]))).
Proof.
  intros Hl Hb Hok Hp Hfr Hlt. cbv zeta.
  pose proof (prepare_facts _ _ _ _ _ _ _ Hl Hb Hok Hp) as Hf. cbv zeta in Hf.
  set (c := proposed s b v) in *. set (used' := {[Change.reference c]} ∪ used).
  destruct Hf as (Em & Ec & Ecl & [n1 Hsb] & [n2 Hlb] & [n3 Hib] & [n4 Hcb] & Hls & Hll & Hq & Hroom).
  destruct Hl as [(h0 & es & bs & A & Hst & Htr1 & Htr2 & Htr3 & Htr4) Hsn Hle Hun Hrec]. img.
  assert (Change.reference c = recovery_reference (CommitMarker.binding_digest (Change.marker c)) (Change.generation c) (len es + 1)) as Href.
  { unfold Change.reference, Change.generation, c, proposed. cbn. by rewrite Htr1. }
  clearbody c. rewrite Htr1, Htr2, Htr3 in *.
  assert (Hst' : stored max used' (disk s) (Image.mk h0 es bs [] A h None false (length h)))
    by (eapply stored_used; [done|set_solver]).
  change (publish io fp p) with (append_frame (Io.fate io 0) (pr_intent p) ;;? stop_at fp AfterIntent ;;? publish_snapshot io fp p).
  unfold mbind at 1.
  destruct (append_frame (Io.fate io 0) (pr_intent p) (set_unresolved true s)) as [s1 r1] eqn:E1.
  apply append_frame_any with (j := JOURNAL_MAGIC ++ bs ++ []) in E1;
    [|apply (st_journal _ _ _ _ Hst)|cbn; rewrite Htr1; lia|cbn; rewrite Htr2, Htr3; lia].
  assert (Hint : ∀ d1, replaced journal_path ((JOURNAL_MAGIC ++ bs ++ []) ++ pr_intent p) (disk s) d1 →
    stored max used' d1
      (Image.mk h0 (es ++ [Intent (Change.marker c)]) (bs ++ pr_intent p) [] A h (Some c) false (length h))).
  { intros d1 Hr. eapply stored_intent; [exact Hst|done|done|done|exact Hib|exact Hcb|lia|lia|exact Hr]. }
  destruct E1 as (d1 & [(-> & Hr1 & ->)|(Hr1 & -> & Hd1)]).
  2: { destruct r1; [done|]. intros [= <- <-]. right. split_and!; [done|done|left]. cbn [set_disk disk].
       destruct Hd1 as [Hr|(m & Hm & Hr)].
       - by eexists; split; [apply Hint, Hr|].
       - by eexists; split; [eapply stored_tear; [exact Hst'|exact Hib|done|lia|exact Hr]|]. }
  unfold mbind at 1, stop_at. destruct (bool_decide (fp = AfterIntent)).
  { intros [= <- <-]. right. split_and!; [done|done|left]. by eexists; split; [apply Hint, Hr1|]. }
  intros Hrest. eapply publish_snapshot_any in Hrest; [exact Hrest|apply Hint, Hr1| |done|done|done|exact Hsb| |exact Hlb|done|done| | |done|done].
  - unfold tracks. cbn. rewrite len_snoc, len_app, Htr1, Htr2. split_and!; [lia|lia|done|done].
  - rewrite len_snoc. replace (len es + 1 + 1)%N with (len es + 2)%N by lia. exact Hcb.
  - rewrite len_snoc. lia.
  - rewrite len_app. lia.
Qed.

(** What a mutation can do, whatever its writes do. *)
Lemma execute_any used s h io b v fp s' r :
  live used s h → binding_ok b v → Binding.digest b ≠ zero32 → Change.reference (proposed s b v) ∉ used →
  execute io b v fp s = (s', r) →
  let c := proposed s b v in let used' := {[Change.reference c]} ∪ used in
  (s' = s ∧ is_ok r = false)
  ∨ (s' = s ∧ ∃ c', c' ∈ h ∧ Change.request c' = Binding.key b
       ∧ CommitMarker.binding_digest (Change.marker c') = Binding.digest b
       ∧ r = Ok (Duplicate (Change.generation c') (Change.reference c')))
  ∨ (r = Ok (Committed (Change.generation c) (Change.reference c)) ∧ live used' s' (h ++ [c]))
  ∨ (r = Err (OutcomeUnknown (Change.reference c)) ∧ unresolved s' = true
     ∧ (holds max used' (disk s') h ∨ holds max used' (disk s') (h ++ [c]))).
Proof.
  intros Hl Hb Hd Hfr. cbv zeta. pose proof (live_history _ _ _ Hl) as Hok. unfold execute.
  rewrite (lv_resolved _ _ _ Hl). destruct (Io.verify io) as [[]|e]; [|intros [= <- <-]; auto].
  destruct (ledger s !! Binding.key b) as [rec|] eqn:Hlk.
  { case_bool_decide as He; intros [= <- <-]; [|auto]. right; left. split; [done|].
    rewrite (lv_ledger _ _ _ Hl) in Hlk. apply lookup_of in Hlk as (c' & Hc' & Hk & <-); [|apply Hok]. exists c'. done. }
  destruct (N.leb_spec (max_retained_requests s) (N.of_nat (size (ledger s)))) as [|Hlt]; [intros [= <- <-]; auto|].
  assert (len h < max)%N as Hlt'.
  { destruct Hl as [(h0 & es & bs & A & _ & (_ & _ & _ & Hm)) _ Hle _ _]. rewrite Hm, Hle in Hlt.
    unfold ledger_of in Hlt. by rewrite size_of in Hlt by apply Hok. }
  pose proof (proposed_ok _ _ _ _ _ Hl Hb Hd Hlk Hfr Hlt') as Hok'.
  destruct (prepare io s b v) as [p|e] eqn:Hp; [|intros [= <- <-]; auto].
  destruct (prepare_facts _ _ _ _ _ _ _ Hl Hb Hok' Hp) as (Em & _). rewrite Em.
  fold (Change.reference (proposed s b v)). fold (Change.generation (proposed s b v)).
  destruct (publish io fp p (set_unresolved true s)) as [s1 r1] eqn:Hpub.
  eapply publish_any in Hpub; [|done..]. cbv zeta in Hpub.
  destruct Hpub as [[-> Hlive]|(Hr & Hun & Hh)].
  - intros [= <- <-]. right; right; left. split; [done|exact Hlive].
  - destruct r1; [done|]. intros [= <- <-]. right; right; right. done.
Qed.

(** * Compaction *)
Lemma compact_any used s h io s' r :
  live used s h → compact io s = (s', r) →
  live used s' h ∨ (is_ok r = false ∧ unresolved s' = true ∧ holds max used (disk s') h).
Proof.
  intros Hl. unfold compact. rewrite (lv_resolved _ _ _ Hl).
  destruct (Io.verify io) as [[]|e]; [|intros [= <- <-]; auto].
  destruct (validate_committed_state _ _ _) as [[]|]; [|intros [= <- <-]; auto].
  unfold checkpoint_journal. rewrite (lv_snapshot _ _ _ Hl), (lv_ledger _ _ _ Hl).
  destruct (checkpoint_marker _ _) as [cp|] eqn:Hcp; [|intros [= <- <-]; auto].
  destruct (sealed_journal_record _ _ _) as [f|] eqn:Hf; [|intros [= <- <-]; auto].
  destruct Hl as [(h0 & es & bs & A & Hst & Ht1 & Ht2 & Ht3 & Ht4) Hsn Hle Hun Hrec]. rewrite Ht3.
  destruct (N.ltb_spec MAX_FILE_BYTES (len (JOURNAL_MAGIC ++ f))) as [|Hroom].
  { intros [= <- <-]. left. split; try done. exists h0, es, bs, A. split; [done|split_and!; done]. }
  unfold on_disk. cbn [set_unresolved disk].
  destruct (atomic_write (Io.fate io 0) journal_path (JOURNAL_MAGIC ++ f) (disk s)) as [d1 r1] eqn:E1.
  apply atomic_write_cases in E1; [|set_solver].
  assert (Hc : replaced journal_path (JOURNAL_MAGIC ++ f) (disk s) d1 →
    stored max used d1 (Image.mk h [Checkpoint cp] f [] ∅ h None false (length h))).
  { intros Hr. by eapply stored_compact. }
  destruct E1 as [[-> Hr1]|[Hr1 Hd1]].
  - intros [= <- <-]. left. split; try done. exists h, [Checkpoint cp], f, ∅. split; [by apply Hc|].
    unfold tracks. img. cbn [set_unresolved set_journal set_disk journal_sequence journal_bytes journal_limit max_retained_requests].
    split_and!; [done| |done|done]. unfold len. simpl. lia.
  - destruct r1; [done|]. intros [= <- <-]. right. split_and!; [done|done|]. cbn [set_disk disk].
    destruct Hd1 as [Hsame|Hr]; eexists; (split; [|]); [by eapply stored_same|done|by apply Hc|done].
Qed.
End steps.
