(* ===== verification/DurableReopen.v ===== *)
(** Reopening the durable service: loading what the files hold, finishing a pending
    change, and writing the ledger, for every fate of the writes; and with working
    storage it succeeds. *)
From Stdlib Require Import Ascii NArith Strings.Byte.
From S2P Require Import Prelude Str Gf256 Bytes DurableCodec Durable DurableCodecSpec DurableSpec DurableRecovery.

Section reopen.
Context `{B : Barrier, Sh : Sha256} {overhead : N} `{!BarrierLaws B overhead, !Sha256Laws Sh}.
Context (max : N) (Hcap : validate_capacity max = Ok tt).
Import DurableService.
Implicit Types (s : DurableService.t) (h : list Change) (used : gset string) (io : IoTrace) (d : Disk).

(** Storage, lock and random generator work. *)
Definition io_works io : Prop :=
  Io.root io = Ok tt ∧ Io.lock io = Ok tt ∧ (∀ k, Io.fate io k = Done)
  ∧ ∀ k, ∃ n, Io.nonce io k = Some n ∧ length n = 12.

(** * Loading *)
Definition loaded d (i : Image) : t :=
  mk d (snapshot_of (outcome i)) (ledger_of (take (Image.ledger i) (Image.history i))) ∅
     (len (Image.events i)) (4 + len (Image.frames i)) MAX_FILE_BYTES max false.

Lemma load_stored io used d i :
  stored max used d i → Io.root io = Ok tt → Io.lock io = Ok tt →
  load io max d = Ok (loaded d i,
    mk_journal (len (Image.events i)) (Image.events i) (4 + len (Image.frames i)) (negb (bool_decide (Image.tail i = []))),
    N.of_nat (Image.ledger i)).
Proof.
  intros Hst Hr Hlk. pose proof (outcome_ok _ _ _ _ Hst) as Hok. pose proof (stored_history _ _ _ _ Hst) as Hh%history_ok_prefix.
  destruct Hst. unfold load. rewrite Hcap, Hr, Hlk. unfold read_bounded.
  destruct st_snapshot as (n1 & sb & -> & Hsb & Hlsb). destruct st_ledger as (n2 & lb & -> & Hlb & Hllb). rewrite st_journal.
  cbn [ok_or]. rewrite (proj2 (N.ltb_ge _ _)) by done.
  rewrite (decode_sealed_snapshot n1 _ _ (snapshot_of_wf _ Hok) Hsb Hlsb).
  rewrite (proj2 (N.ltb_ge _ _)) by (rewrite !len_app; unfold len at 1; simpl; lia).
  rewrite (decode_journal_file (Image.events i) (Image.frames i) (Image.tail i)) by (done || lia || by eapply written_events_ok).
  rewrite (proj2 (N.ltb_ge _ _)) by done.
  assert (N.of_nat (Image.ledger i) ≤ U64_MAX)%N as Hg by (pose proof (ho_length _ Hh) as Hlen; unfold len in Hlen; short).
  by rewrite (decode_sealed_ledger n2 _ _ _ (ledger_of_wf _ (history_ok_take (Image.ledger i) _ Hh)) Hg Hlb Hllb).
Qed.

(** * Recovering *)

(** An instance that has read the files and not settled yet. *)
Definition recovering used s (i : Image) : Prop :=
  stored max used (disk s) i ∧ tracks max s i ∧ snapshot s = snapshot_of (outcome i)
  ∧ reconciliation s = gset_to_gmap StatusAborted (Image.aborted i).

(** A step of recovery: it went on, or it failed with the same outcome in the
    files; with working storage it goes on. *)
Definition recovers {A} io used s (i : Image) (m : M t ServiceError A) (next : t → A → Prop) : Prop :=
  ∀ s' r, m s = (s', r) →
    match r with Ok a => next s' a | Err _ => holds max used (disk s') (outcome i) ∧ ¬ io_works io end.

Lemma cut_recovers io used s h0 es bs tail A h p pub g :
  let i := Image.mk h0 es bs tail A h p pub g in
  recovering used s i →
  recovers io used s i
    (if negb (bool_decide (tail = [])) then on_disk (truncate_journal (Io.fate io 0) (journal_bytes s)) else mret tt)
    (λ s' _, recovering used s' (Image.mk h0 es bs [] A h p pub g)).
Proof.
  cbv zeta. intros (Hst & Ht & Hsn & Hrec) s' r. case_bool_decide as Htl; cbn [negb].
  { intros [= <- <-]. subst tail. done. }
  pose proof Ht as (_ & Hb & _). img. unfold on_disk.
  destruct (truncate_journal (Io.fate io 0) (journal_bytes s) (disk s)) as [d1 r1] eqn:E.
  assert (Io.fate io 0 = Done → r1 = Ok tt) as Hgood.
  { intros Hf. unfold truncate_journal in E. rewrite Hf, (st_journal _ _ _ _ Hst) in E. by injection E as <- <-. }
  eapply truncate_cases in E; [|apply (st_journal _ _ _ _ Hst)]. rewrite Hb in E. img. intros [= <- <-].
  assert (Hcut : replaced journal_path (take (N.to_nat (4 + len bs)) (JOURNAL_MAGIC ++ bs ++ tail)) (disk s) d1 →
    stored max used d1 (Image.mk h0 es bs [] A h p pub g)) by (intros; by eapply stored_cut).
  destruct E as [[-> Hr]|[-> Hr]].
  - split_and!; [by apply Hcut|done|done|done].
  - split; [|intros (_ & _ & Hf & _); by specialize (Hgood (Hf 0))]. cbn [set_disk disk].
    destruct Hr as [Hsame|Hr]; eexists; (split; [|]); [by eapply stored_same|done|by apply Hcut|done].
Qed.

(** Appending the end of the pending change. *)
Lemma append_end used s h0 es bs A h c pub g fate nonce e s' r :
  let i := Image.mk h0 es bs [] A h (Some c) pub g in
  stored max used (disk s) i → tracks max s i → e = Commit (Change.marker c) ∨ e = Abort (Change.marker c) →
  append_event fate nonce e s = (s', r) →
  (∃ f d', (∃ n, sealed_journal_record n (len es + 1) e = Ok f) ∧ (4 + len bs + len f ≤ MAX_FILE_BYTES)%N
     ∧ ((r = Ok tt ∧ replaced journal_path ((JOURNAL_MAGIC ++ bs ++ []) ++ f) (disk s) d'
         ∧ s' = set_journal (len es + 1) (4 + len bs + len f) (set_disk d' s))
        ∨ (is_ok r = false ∧ s' = set_disk d' s
           ∧ (replaced journal_path ((JOURNAL_MAGIC ++ bs ++ []) ++ f) (disk s) d'
              ∨ ∃ n, n < length f ∧ replaced journal_path ((JOURNAL_MAGIC ++ bs ++ []) ++ take n f) (disk s) d'))))
  ∨ (is_ok r = false ∧ s' = s).
Proof.
  cbv zeta. intros Hst (Ht1 & Ht2 & Ht3 & Ht4) He. img. unfold append_event. rewrite Ht1.
  destruct (st_reserved _ _ _ _ Hst) as (Hg & Hcount & n0 & k0 & f0 & Hf0 & Hroom). img.
  rewrite (proj2 (checked_add_Some (len es) 1 (len es + 1))) by (split; [done|short]). cbn [ok_or].
  destruct (sealed_journal_record nonce (len es + 1) e) as [f|err] eqn:Hf; [|intros [= <- <-]; by right].
  pose proof (journal_end_len _ _ _ _ _ _ _ _ He Hf0 Hf) as Hlen. intros Ha.
  apply append_frame_any with (j := JOURNAL_MAGIC ++ bs ++ []) in Ha;
    [|apply (st_journal _ _ _ _ Hst)|lia|rewrite Ht2, Ht3; lia].
  rewrite Ht1, Ht2 in Ha. destruct Ha as (d' & Ha). left. exists f, d'. split_and!; [eauto|lia|exact Ha].
Qed.

(** With working storage the end of the pending change is appended. *)
Lemma append_end_works used s h0 es bs A h c pub g nonce e :
  let i := Image.mk h0 es bs [] A h (Some c) pub g in
  stored max used (disk s) i → tracks max s i → e = Commit (Change.marker c) ∨ e = Abort (Change.marker c) →
  length nonce = 12 → is_ok (append_event Done (Some nonce) e s).2 = true.
Proof.
  cbv zeta. intros Hst (Ht1 & Ht2 & Ht3 & Ht4) He Hn. img.
  destruct (st_reserved _ _ _ _ Hst) as (Hg & Hcount & n0 & k0 & f0 & Hf0 & Hroom). img.
  destruct (reseal_journal n0 nonce k0 (len es + 1) _ e f0 He Hf0) as (f & Hf & Hlen); [lia|done|].
  unfold append_event. rewrite Ht1.
  rewrite (proj2 (checked_add_Some (len es) 1 (len es + 1))) by (split; [done|short]). cbn [ok_or]. rewrite Hf.
  unfold append_frame. rewrite Ht1, Ht2, Ht3.
  rewrite (proj2 (checked_add_Some (len es) 1 (len es + 1))) by (split; [done|short]).
  rewrite (proj2 (N.ltb_ge _ _)), (proj2 (N.ltb_ge _ _)) by lia. cbn [orb].
  unfold mbind, on_disk, append_journal_frame. by rewrite (st_journal _ _ _ _ Hst).
Qed.

(** An append that failed left the outcome as it was, and storage did not work. *)
Lemma end_failed io used s h0 es bs A h c pub g e s' r :
  let i := Image.mk h0 es bs [] A h (Some c) pub g in
  stored max used (disk s) i → tracks max s i → e = (if pub then Commit else Abort) (Change.marker c) →
  append_event (Io.fate io 1) (Io.nonce io 0) e s = (s', r) → is_ok r = false →
  holds max used (disk s') (outcome i) ∧ ¬ io_works io.
Proof.
  cbv zeta. intros Hst Ht He Ha Hr.
  assert (e = Commit (Change.marker c) ∨ e = Abort (Change.marker c)) as He' by (destruct pub; auto). split.
  - pose proof (append_end _ _ _ _ _ _ _ _ _ _ _ _ _ _ _ Hst Ht He' Ha) as [(f & d' & [n Hf] & Hroom & [(-> & _)|(_ & -> & Hd)])|[_ ->]].
    + done.
    + cbn [set_disk disk]. destruct Hd as [Hrep|(m & Hm & Hrep)].
      * destruct pub; subst e; eexists; (split; [|]); [by eapply stored_commit|done|by eapply stored_abort|done].
      * eexists; split; [eapply stored_tear; [exact Hst|exact Hf|done|lia|exact Hrep]|done].
    + eexists; split; [exact Hst|done].
  - intros (_ & _ & Hfate & Hnonce). destruct (Hnonce 0) as (n & Hn & Hl).
    pose proof (append_end_works _ _ _ _ _ _ _ _ _ _ n e Hst Ht He' Hl) as Hok.
    rewrite (Hfate 1), Hn in Ha. rewrite Ha in Hok. simpl in Hok. congruence.
Qed.

Lemma finish_recovers io used s h0 es bs A h p pub g saw :
  let i := Image.mk h0 es bs [] A h p pub g in
  recovering used s i →
  recovers io used s i (finish_pending io (scanned h p A saw))
    (λ s' committed, committed = committed_of (outcome i)
       ∧ ∃ es' bs' A', recovering used s' (Image.mk h0 es' bs' [] A' (outcome i) None false g)).
Proof.
  cbv zeta. intros (Hst & Ht & Hsn & Hrec) s' r. unfold finish_pending. rewrite Hsn.
  assert (Hok : history_ok (h ++ option_list p)) by apply (stored_history _ _ _ _ Hst).
  assert (Hpub : pub = true → is_Some p) by apply (st_published _ _ _ _ Hst).
  unfold outcome at 1. cbn [Image.history Image.pending Image.published].
  rewrite published_of by done. unfold scanned at 1. cbn [sc_pending]. destruct p as [c|]; cbn [fmap option_fmap option_map].
  2: { destruct pub; [by destruct (Hpub eq_refl)|]. intros [= <- <-]. split; [done|]. exists es, bs, A. done. }
  change (option_list (Some c)) with [c] in *.
  pose proof (end_failed io used s h0 es bs A h c pub g ((if pub then Commit else Abort) (Change.marker c))) as Hfail.
  pose proof (append_end used s h0 es bs A h c pub g (Io.fate io 1) (Io.nonce io 0)
    ((if pub then Commit else Abort) (Change.marker c))) as Hend. cbv zeta in *.
  destruct pub; unfold mbind; destruct (append_event _ _ _ s) as [s1 r1].
  - specialize (Hfail _ _ Hst Ht eq_refl eq_refl). specialize (Hend _ _ Hst Ht ltac:(auto) eq_refl).
    destruct r1 as [[]|e]; [|intros [= <- <-]; by apply Hfail]. intros [= <- <-].
    destruct Hend as [(f & d' & [n Hf] & Hroom & [(_ & Hrep & ->)|(? & _)])|[? _]]; [|done|done].
    img. change (option_list (Some c)) with [c] in *. split.
    { cbn. rewrite committed_of_snoc; [done|]. by apply snoc_request_fresh. }
    exists (es ++ [Commit (Change.marker c)]), (bs ++ f), A. split_and!; [by eapply stored_commit| |done|done].
    destruct Ht as (Ht1 & Ht2 & Ht3 & Ht4). unfold tracks. cbn. rewrite len_snoc, len_app. split_and!; [done|lia|done|done].
  - specialize (Hfail _ _ Hst Ht eq_refl eq_refl). specialize (Hend _ _ Hst Ht ltac:(auto) eq_refl).
    destruct r1 as [[]|e]; [|intros [= <- <-]; by apply Hfail]. intros [= <- <-].
    destruct Hend as [(f & d' & [n Hf] & Hroom & [(_ & Hrep & ->)|(? & _)])|[? _]]; [|done|done].
    img. split; [done|].
    exists (es ++ [Abort (Change.marker c)]), (bs ++ f), ({[Change.reference c]} ∪ A).
    split_and!; [by eapply stored_abort| |done|].
    + destruct Ht as (Ht1 & Ht2 & Ht3 & Ht4). unfold tracks. cbn. rewrite len_snoc, len_app. split_and!; [done|lia|done|done].
    + cbn. rewrite Hrec. symmetry. apply gset_to_gmap_union_singleton.
Qed.

(** ** The settled instance *)
Lemma foldl_statuses ms (r : gmap string ReconciliationStatus) ref :
  (foldl (λ r marker, <[CommitMarker.recovery_reference marker := StatusCommitted (CommitMarker.generation marker)]> r) r ms)
    !! ref = r !! ref ∧ (∀ m, m ∈ ms → CommitMarker.recovery_reference m ≠ ref)
  ∨ ∃ m, m ∈ ms ∧ CommitMarker.recovery_reference m = ref
      ∧ (foldl (λ r marker, <[CommitMarker.recovery_reference marker := StatusCommitted (CommitMarker.generation marker)]> r) r ms)
          !! ref = Some (StatusCommitted (CommitMarker.generation m)).
Proof.
  induction ms as [|m ms IH] using rev_ind; [left; split; [done|set_solver]|]. rewrite foldl_snoc.
  destruct (decide (CommitMarker.recovery_reference m = ref)) as [<-|Hne].
  - right. exists m. split_and!; [set_solver|done|]. by rewrite lookup_insert_eq.
  - rewrite lookup_insert_ne by done. destruct IH as [[-> IH]|(m' & Hm' & He & ->)].
    + left. split; [done|]. intros m' [Hm'| ->%list_elem_of_singleton]%elem_of_app; auto.
    + right. exists m'. split_and!; [set_solver|done|done].
Qed.

Lemma settled_reconciled h A :
  history_ok h →
  reconciled (foldl (λ r marker, <[CommitMarker.recovery_reference marker := StatusCommitted (CommitMarker.generation marker)]> r)
    (gset_to_gmap StatusAborted A) (btree_values (committed_of h))) h.
Proof.
  intros Hok.
  assert (∀ m, m ∈ btree_values (committed_of h) ↔ ∃ c, c ∈ h ∧ Change.marker c = m) as Hv.
  { intros m. rewrite elem_of_btree_values. unfold committed_of. setoid_rewrite lookup_of; [|apply Hok]. naive_solver. }
  split.
  - intros c Hc. pose proof (foldl_statuses (btree_values (committed_of h)) (gset_to_gmap StatusAborted A) (Change.reference c)) as [[_ Hn]|(m & Hm & He & Hs)].
    { exfalso. apply (Hn (Change.marker c)); [apply Hv; eauto|done]. }
    apply Hv in Hm as (c' & Hc' & <-). rewrite Hs. do 2 f_equal.
    assert (c' = c) as ->; [|done]. apply list_elem_of_lookup in Hc as [j Hj], Hc' as [k Hk].
    assert (k = j) as ->; [|congruence].
    eapply (NoDup_lookup _ _ _ (Change.reference c) (ho_references h Hok)); rewrite list_lookup_fmap; [rewrite Hk; simpl; f_equal; exact He|by rewrite Hj].
  - intros ref gen Hr. pose proof (foldl_statuses (btree_values (committed_of h)) (gset_to_gmap StatusAborted A) ref) as [[Hs _]|(m & Hm & He & Hs)];
      rewrite Hr in Hs.
    + symmetry in Hs. apply lookup_gset_to_gmap_Some in Hs as [_ ?]. done.
    + injection Hs as ->. apply Hv in Hm as (c & Hc & <-). by exists c.
Qed.

(** A running service of a history. *)
Definition running s h : Prop := ∃ used, live max used s h.

Lemma stored_exact used d i :
  stored max used d i →
  stored max (references_of (Image.history i) ∪ Image.aborted i ∪ pending_reference (Image.pending i)) d i.
Proof. intros []. by split. Qed.

(** The last steps of recovery. *)
Definition settle_steps io (committed : gmap RequestKey CommitMarker) : M t ServiceError unit :=
  (λ self, (settle committed self, Ok tt)) ;;?
  do? bytes := mpure (λ self, sealed_ledger (Io.nonce io 1) (Snapshot.generation (snapshot self)) (ledger self)) in
  on_disk (atomic_write (Io.fate io 2) ledger_path bytes) ;;?
  (λ self, (set_unresolved false self, Ok tt)).

Lemma settle_recovers io used s h0 es bs A h g :
  let i := Image.mk h0 es bs [] A h None false g in
  recovering used s i → recovers io used s i (settle_steps io (committed_of h)) (λ s' _, running s' h).
Proof.
  cbv zeta. intros (Hst & Ht & Hsn & Hrec) s' r. unfold settle_steps, mbind, mpure.
  assert (Hok : history_ok h) by apply (outcome_ok _ _ _ _ Hst).
  pose proof (st_fits _ _ _ _ Hst) as (n0 & g0 & b0 & Hb0 & Hl0). img.
  unfold settle. cbn [set_ledger set_reconciliation snapshot ledger disk]. rewrite Hsn, record_of_committed.
  change (Snapshot.generation (snapshot_of h)) with (len h).
  destruct (sealed_ledger (Io.nonce io 1) (len h) (ledger_of h)) as [b|e] eqn:Hb.
  2: { intros [= <- <-]. cbn [disk]. split; [by eexists; split; [exact Hst|]|]. intros (_ & _ & _ & Hn).
       destruct (Hn 1) as (n & Hn1 & Hl). rewrite Hn1 in Hb.
       destruct (reseal_ledger n0 n g0 (len h) _ b0 Hb0 Hl0 Hl) as (b' & Hb' & _). congruence. }
  pose proof (sealed_ledger_len _ _ _ _ _ _ _ Hb0 Hb) as Hlen.
  unfold on_disk. cbn [disk set_ledger set_reconciliation].
  destruct (atomic_write (Io.fate io 2) ledger_path b (disk s)) as [d1 r1] eqn:E.
  assert (Io.fate io 2 = Done → r1 = Ok tt) as Hgood.
  { intros Hf. unfold atomic_write in E. rewrite Hf, (proj2 (N.ltb_ge _ _)) in E by lia. by injection E as <- <-. }
  apply atomic_write_cases in E; [|set_solver].
  assert (Hset : replaced ledger_path b (disk s) d1 →
    stored max used d1 (Image.mk h0 es bs [] A h None false (length h))).
  { intros Hr. eapply stored_settle; [exact Hst|exact Hb|lia|exact Hr]. }
  destruct E as [[-> Hr]|[Hr Hd]].
  - intros [= <- <-]. exists used. split; cbn; try done.
    + exists h0, es, bs, A. split; [exact (Hset Hr)|exact Ht].
    + rewrite Hrec. by apply settled_reconciled.
  - destruct r1; [done|]. intros [= <- <-]. split; [|intros (_ & _ & Hf & _); by specialize (Hgood (Hf 2))].
    cbn [set_disk disk]. destruct Hd as [Hsame|Hrep]; eexists; (split; [|]); [by eapply stored_same|done|by apply Hset|done].
Qed.

(** Reading a stored state passes every check. *)
Lemma scan_stored used d i :
  stored max used d i →
  ∃ saw, (let? _ := validate_ledger_generation (ledger (loaded d i)) (N.of_nat (Image.ledger i)) in
          let? sc := scan_events (ledger (loaded d i)) 0 (Image.events i) scan_start in
          let? _ := recover_checks (snapshot (loaded d i)) (ledger (loaded d i)) (N.of_nat (Image.ledger i)) max sc in
          Ok sc) = Ok (scanned (Image.history i) (Image.pending i) (Image.aborted i) saw).
Proof.
  intros Hst. pose proof (stored_history _ _ _ _ Hst) as Hok. pose proof (history_ok_prefix _ _ Hok) as Hh.
  pose proof (st_behind _ _ _ _ Hst) as Hbeh. pose proof (st_base _ _ _ _ Hst) as Hbase.
  pose proof (st_written _ _ _ _ Hst) as Hw. destruct (written_history _ _ _ _ _ Hw) as [_ [h1 Hh1]].
  pose proof (history_ok_take (Image.ledger i) _ Hh) as Ht.
  unfold loaded. cbn [snapshot ledger].
  assert (len (take (Image.ledger i) (Image.history i)) = N.of_nat (Image.ledger i)) as Hlen
    by (unfold len; rewrite length_take; lia).
  pose proof (validate_ledger_of _ Ht) as Hval. rewrite Hlen in Hval. rewrite Hval. clear Hval.
  assert (take (Image.ledger i) (Image.history i) = Image.base i ++ take (Image.ledger i - length (Image.base i)) h1) as Htake.
  { rewrite Hh1. rewrite take_app, take_ge by lia. done. }
  destruct (scan_written (ledger_of (take (Image.ledger i) (Image.history i))) _ _ _ _ _ Hw) as [saw ->].
  { rewrite Htake in *. by apply ledger_prefix_of. }
  exists saw. unfold outcome. rewrite recover_checks_of; [done|done|apply Hst|done|apply (st_max _ _ _ _ Hst)].
Qed.

Lemma recover_any io used d i :
  stored max used d i →
  recovers io used (loaded d i) i
    (recover io (Image.events i) (N.of_nat (Image.ledger i)) (negb (bool_decide (Image.tail i = []))))
    (λ s' _, running s' (outcome i)).
Proof.
  intros Hst s' r. destruct (scan_stored _ _ _ Hst) as [saw Hscan].
  unfold recover. change (max_retained_requests (loaded d i)) with max. rewrite Hscan.
  set (s0 := set_reconciliation _ _).
  assert (Hrec : recovering used s0 i) by (split_and!; [exact Hst|done|done|done]).
  destruct i as [h0 es bs tl A h p pub g]. cbn [Image.tail Image.history Image.pending Image.aborted] in *.
  unfold mbind at 1. change (journal_bytes (loaded d (Image.mk h0 es bs tl A h p pub g))) with (journal_bytes s0).
  pose proof (cut_recovers io used s0 h0 es bs tl A h p pub g Hrec) as Hcut. cbv zeta in Hcut.
  match goal with |- (match ?c s0 with _ => _ end) = _ → _ => destruct (c s0) as [s1 r1] eqn:E1 end.
  specialize (Hcut _ _ E1). destruct r1 as [[]|e]; [|intros [= <- <-]; exact Hcut].
  unfold mbind at 1. pose proof (finish_recovers io used s1 h0 es bs A h p pub g saw Hcut) as Hfin. cbv zeta in Hfin.
  destruct (finish_pending io (scanned h p A saw) s1) as [s2 r2] eqn:E2.
  specialize (Hfin _ _ E2). destruct r2 as [committed|e]; [|intros [= <- <-]; exact Hfin].
  destruct Hfin as (-> & es' & bs' & A' & Hrec2). intros Hset.
  pose proof (settle_recovers io used s2 h0 es' bs' A' _ g Hrec2) as Hs. cbv zeta in Hs.
  specialize (Hs s' r Hset). destruct r; [exact Hs|]. exact Hs.
Qed.

(** Whatever happens, the files keep holding the history; a reopened service has
    it; and with working storage reopening succeeds. *)
Lemma reopen_any io used d h d' r :
  holds max used d h → reopen io max d = (d', r) →
  match r with
  | Ok s => running s h ∧ disk s = d'
  | Err _ => holds max used d' h ∧ ¬ io_works io
  end.
Proof.
  intros (i & Hst & <-). unfold reopen.
  destruct (Io.root io) as [[]|e] eqn:Hr.
  2: { unfold load. rewrite Hcap, Hr. intros [= <- <-]. split; [by exists i|]. intros (H & _). congruence. }
  destruct (Io.lock io) as [[]|e] eqn:Hk.
  2: { unfold load. rewrite Hcap, Hr, Hk. intros [= <- <-]. split; [by exists i|]. intros (_ & H & _). congruence. }
  rewrite (load_stored io used d i Hst Hr Hk). cbn [jn_events jn_incomplete].
  destruct (recover io _ _ _ (loaded d i)) as [s1 r1] eqn:E.
  pose proof (recover_any io used d i Hst _ _ E) as Hrec.
  destruct r1; intros [= <- <-]; auto.
Qed.
End reopen.

(** * Backups of the durable service: what an export contains, and what restoring it
    does to a running service. *)

Lemma read_u16_bytes n r : (n < 65536)%N → read_u16 (write_u16 n ++ r) = Ok (n, r).
Proof. intros. by apply read_int_bytes. Qed.

Section backup.
Context `{B : Barrier, Sh : Sha256} {overhead : N} `{!BarrierLaws B overhead, !Sha256Laws Sh}.
Context (max : N) (Hcap : validate_capacity max = Ok tt).
Import DurableService.
Implicit Types (s : DurableService.t) (h : list Change) (used : gset string) (io : IoTrace).

(** The parts of a bundle: the sealed snapshot and ledger of a history and a journal
    that is one checkpoint of it. *)
Definition bundle h (b : list u8) (sb jb lb : list u8) : Prop :=
  (∃ n, sealed_snapshot n (snapshot_of h) = Ok sb) ∧ (∃ n, sealed_ledger n (len h) (ledger_of h) = Ok lb)
  ∧ (∃ cp n f, checkpoint_marker (snapshot_of h) (ledger_of h) = Ok cp
       ∧ sealed_journal_record n 1 (Checkpoint cp) = Ok f ∧ jb = JOURNAL_MAGIC ++ f)
  ∧ (len sb ≤ MAX_FILE_BYTES)%N ∧ (len jb ≤ MAX_FILE_BYTES)%N ∧ (len lb ≤ MAX_FILE_BYTES)%N
  ∧ encode_backup (len h) sb jb lb = Ok b.

Lemma export_bundle used s h io b :
  live max used s h → export_backup io s = Ok b → ∃ sb jb lb, bundle h b sb jb lb.
Proof.
  intros Hl. pose proof (live_history _ _ _ _ Hl) as Hok. unfold export_backup, checkpoint_journal.
  rewrite (lv_resolved _ _ _ _ Hl), (lv_snapshot _ _ _ _ Hl), (lv_ledger _ _ _ _ Hl).
  change (Snapshot.generation (snapshot_of h)) with (len h). destruct (Io.verify io); [|done].
  rewrite validate_committed_of by done.
  destruct (sealed_snapshot _ _) as [sb|] eqn:Hsb; [|done]. destruct (sealed_ledger _ _ _) as [lb|] eqn:Hlb; [|done].
  destruct (checkpoint_marker _ _) as [cp|] eqn:Hcp; [|done]. destruct (sealed_journal_record _ _ _) as [f|] eqn:Hf; [|done].
  intros He. exists sb, (JOURNAL_MAGIC ++ f), lb. pose proof He as He'. unfold encode_backup in He'.
  destruct (N.ltb_spec MAX_FILE_BYTES (len sb)); [done|]. destruct (N.ltb_spec MAX_FILE_BYTES (len (JOURNAL_MAGIC ++ f))); [done|].
  destruct (N.ltb_spec MAX_FILE_BYTES (len lb)); [done|]. split_and!; eauto 10.
Qed.

(** A bundle decodes to the committed state it was taken of. *)
Lemma decode_bundle h b sb jb lb :
  history_ok h → bundle h b sb jb lb →
  decode_backup b max =
    if (max <? len h)%N then Err CorruptState else Ok (mk_backup sb jb lb (snapshot_of h) (ledger_of h) 1).
Proof.
  intros Hok ([n1 Hsb] & [n2 Hlb] & (cp & n3 & f & Hcp & Hf & Hjb) & Hs & Hj & Hl & He).
  destruct (checkpoint_of h cp Hok Hcp) as (Hcg & _ & Hev & Hcv).
  pose proof (ho_length h Hok) as Hlen. unfold encode_backup in He.
  rewrite !(proj2 (N.ltb_ge _ _)) in He by done. cbn [orb] in He. rewrite !write_bytes_ok in He by short.
  set (p := BACKUP_MAGIC ++ _) in He. destruct (N.ltb_spec MAX_BACKUP_BYTES (len p + 32)) as [|Hp]; [done|].
  apply Ok_inj in He as <-. unfold decode_backup.
  assert (28 ≤ len p)%N as Hp'.
  { subst p. rewrite !len_app. unfold write_u16, write_u64, write_u32, len. rewrite !le_bytes_length. simpl. lia. }
  rewrite len_app, len_digest, (proj2 (N.ltb_ge _ _)), (proj2 (N.ltb_ge _ _)) by lia. cbn [orb].
  destruct (checksum_parts p BACKUP_DOMAIN) as [-> ->].
  rewrite constant_time_eq_spec, bool_decide_eq_true_2 by done. cbn [negb].
  subst p. unfold backup_header. rewrite read_exact_app by done. rewrite bool_decide_eq_true_2 by done. cbn [negb].
  rewrite !read_u16_bytes by done. rewrite !N.eqb_refl. cbn [negb]. rewrite read_u64_bytes by short.
  rewrite read_bytes_app by short. rewrite read_bytes_app by short.
  rewrite <- (app_nil_r (write_u32 (len lb) ++ lb)), read_bytes_app by short. rewrite finish_nil.
  rewrite (decode_sealed_snapshot n1 _ _ (snapshot_of_wf _ Hok) Hsb Hs).
  assert (len h ≤ U64_MAX)%N as Hlen64 by short.
  rewrite (decode_sealed_ledger n2 _ _ _ (ledger_of_wf _ Hok) Hlen64 Hlb Hl).
  assert (decode_journal_frames jb = Ok (mk_journal 1 [Checkpoint cp] (len jb) false)) as ->.
  { subst jb. rewrite len_app in *. rewrite <- (app_nil_r f) at 1.
    rewrite (decode_journal_file [Checkpoint cp] f []); [done| |by left|by constructor| |done].
    - rewrite <- (app_nil_r f). econstructor; [done|constructor].
    - unfold len in *. simpl in *. lia. }
  cbn [jn_incomplete jn_bytes jn_sequence jn_events length Nat.eqb orb negb].
  change (Snapshot.generation (snapshot_of h)) with (len h). rewrite !N.eqb_refl. cbn [orb negb].
  assert (size (ledger_of h) = length h) as Hsz by (apply size_of, Hok). rewrite Hsz. fold (len h).
  destruct (max <? len h)%N; [done|]. rewrite validate_committed_of, Hcv, Hcg, N.eqb_refl by done. done.
Qed.

(** ** Restoring *)
Lemma atomic_write_done target bytes d :
  target ∈ [journal_path; snapshot_path; ledger_path] → (len bytes ≤ MAX_FILE_BYTES)%N →
  ∃ d', atomic_write Done target bytes d = (d', Ok tt) ∧ replaced target bytes d d'.
Proof.
  intros Ht Hl. destruct (atomic_write Done target bytes d) as [d' r] eqn:E. exists d'.
  assert (r = Ok tt) as -> by (unfold atomic_write in E; rewrite (proj2 (N.ltb_ge _ _)) in E by done; by simplify_eq).
  split; [done|]. by apply atomic_write_cases in E as [[_ ?]|[? _]].
Qed.

Lemma rebuild_loop_ok ms r :
  Forall (λ m, validate_ledger_record (record_of m) = Ok tt) ms →
  rebuild_loop (record_of <$> ms) r =
    (foldl (λ r marker, <[CommitMarker.recovery_reference marker := StatusCommitted (CommitMarker.generation marker)]> r) r ms, Ok tt).
Proof.
  intros Hf. revert r. induction Hf as [|m ms Hm _ IH]; intros r; [done|]. simpl. rewrite Hm. apply IH.
Qed.

Lemma btree_values_fmap {V W} (f : V → W) (m : gmap RequestKey V) : btree_values (f <$> m) = f <$> btree_values m.
Proof.
  unfold btree_values. assert (btree_keys (f <$> m) = btree_keys m) as ->.
  { unfold btree_keys. by rewrite dom_fmap_L. }
  rewrite list_fmap_omap. apply list_omap_ext, Forall2_same_length_lookup_2; [done|].
  intros i k k' -> [= ->]. by rewrite lookup_fmap.
Qed.

Lemma rebuild_reconciled h :
  history_ok h → ∃ r, rebuild_loop (btree_values (ledger_of h)) ∅ = (r, Ok tt) ∧ reconciled r h.
Proof.
  intros Hok. rewrite <- record_of_committed, btree_values_fmap, rebuild_loop_ok.
  - eexists. split; [done|]. pose proof (settled_reconciled max Hcap h ∅ Hok) as Hr. by rewrite gset_to_gmap_empty in Hr.
  - apply Forall_forall. intros m Hm. apply elem_of_btree_values in Hm as [k Hm].
    apply lookup_of in Hm as (c & Hc & _ & <-); [|apply Hok]. pose proof (ho_changes h Hok) as Hall.
    rewrite Forall_forall in Hall. by apply (change_record_ok c (Hall c Hc)).
Qed.

(** A bundle that replaces the three files gives a service of its history. *)
Lemma restored_running s h b sb jb lb r d1 d2 d3 :
  history_ok h → (len h ≤ max)%N → bundle h b sb jb lb → reconciled r h →
  replaced snapshot_path sb (disk s) d1 → replaced ledger_path lb d1 d2 → replaced journal_path jb d2 d3 →
  running max (mk d3 (snapshot_of h) (ledger_of h) r 1 (len jb) MAX_FILE_BYTES max false) h.
Proof.
  intros Hok Hmax ([n1 Hsb] & [n2 Hlb] & (cp & n3 & f & Hcp & Hf & Hjb) & Hs & Hj & Hl & _) Hr R1 R2 R3.
  exists (references_of h). split; try done.
  exists h, [Checkpoint cp], f, ∅. cbv zeta.
  assert (len jb = 4 + len f)%N as Hlj by (subst jb; rewrite len_app; done).
  split; [|by unfold tracks; img; cbn; rewrite Hlj]. split; img; cbn [disk]; try done.
  - rewrite (R3 journal_path) by set_solver. cbn. by rewrite app_nil_r, Hjb.
  - rewrite <- (app_nil_r f). econstructor; [done|constructor].
  - by left.
  - by constructor.
  - lia.
  - set_solver.
  - exists n1, sb. split_and!; [|done|done]. rewrite (R3 snapshot_path), (R2 snapshot_path), (R1 snapshot_path) by set_solver. done.
  - exists n2, lb. rewrite firstn_all. split_and!; [|done|done]. rewrite (R3 ledger_path), (R2 ledger_path) by set_solver. done.
  - by exists n2, (len h), lb.
  - unfold len in *. simpl. lia.
Qed.

(** Restoring a bundle replaces the state by the bundle's, unless it is older and
    rollback was not allowed. *)
Lemma restore_any io s h0 h b sb jb lb allow :
  running max s h0 → history_ok h → (len h ≤ max)%N → bundle h b sb jb lb → io_works io → Io.verify io = Ok tt →
  if (len h <? len h0)%N && negb allow then restore_backup io b allow s = (s, Err BackupRollbackRejected)
  else ∃ s', restore_backup io b allow s = (s', Ok (mk_restore (len h0) (len h) (len h))) ∧ running max s' h.
Proof.
  intros [used Hl] Hok Hmax Hb (_ & _ & Hdone & _) Hver. unfold restore_backup.
  rewrite (lv_resolved _ _ _ _ Hl), Hver. destruct (lv_image _ _ _ _ Hl) as (h1 & es & bs & A & _ & _ & _ & Hlim & Hm).
  rewrite Hm, (decode_bundle h b sb jb lb Hok Hb), (proj2 (N.ltb_ge _ _) Hmax). cbn [bk_snapshot]. rewrite (lv_snapshot _ _ _ _ Hl).
  change (Snapshot.generation (snapshot_of h)) with (len h). change (Snapshot.generation (snapshot_of h0)) with (len h0).
  destruct ((len h <? len h0)%N && negb allow); [done|]. rewrite !Hdone. pose proof Hb as (_ & _ & _ & Hs & Hj & Hlb & _).
  destruct (atomic_write_done snapshot_path sb (disk s)) as (d1 & E1 & R1); [set_solver|done|].
  destruct (atomic_write_done ledger_path lb d1) as (d2 & E2 & R2); [set_solver|done|].
  destruct (atomic_write_done journal_path jb d2) as (d3 & E3 & R3); [set_solver|done|].
  destruct (rebuild_reconciled h Hok) as (r & Er & Hr).
  unfold mbind, on_disk, rebuild_reconciliation.
  cbn [bk_snapshot_bytes bk_ledger_bytes bk_journal_bytes bk_ledger bk_snapshot bk_journal_sequence set_unresolved disk].
  rewrite E1. cbn [set_disk disk]. rewrite E2. cbn [set_disk disk]. rewrite E3.
  cbn [set_disk disk set_snapshot set_ledger set_journal ledger snapshot]. rewrite Er.
  assert (size (ledger_of h) = length h) as Hsz by (apply size_of, Hok).
  exists (mk d3 (snapshot_of h) (ledger_of h) r 1 (len jb) (journal_limit s) (max_retained_requests s) false).
  rewrite Hlim, Hm. split; [|by eapply restored_running]. f_equal; [by rewrite <- Hlim, <- Hm|].
  f_equal. f_equal. exact (f_equal N.of_nat Hsz).
Qed.

(** A bundle of more requests than the service retains is refused. *)
Lemma restore_too_large io s h0 h b sb jb lb allow :
  running max s h0 → history_ok h → (max < len h)%N → bundle h b sb jb lb → Io.verify io = Ok tt →
  restore_backup io b allow s = (s, Err CorruptState).
Proof.
  intros [used Hl] Hok Hmax Hb Hver. unfold restore_backup. rewrite (lv_resolved _ _ _ _ Hl), Hver.
  destruct (lv_image _ _ _ _ Hl) as (h1 & es & bs & A & _ & _ & _ & _ & Hm).
  by rewrite Hm, (decode_bundle h b sb jb lb Hok Hb), (proj2 (N.ltb_lt _ _) Hmax).
Qed.
End backup.
