(* ===== verification/DurableSystem.v ===== *)
(** The durable service over its lifetime: a directory created once, then any
    sequence of writes, deletions, compactions, crashes and reopenings, each with
    its own failures. *)
From Stdlib Require Import Ascii NArith Strings.Byte.
From S2P Require Import Prelude Str Gf256 Bytes DurableCodec Durable DurableCodecSpec DurableSpec DurableRecovery DurableReopen.

(** * The system *)

(** A process that runs the service, or only its files. *)
Inductive System : Type :=
| Up (service : DurableService.t)
| Down (disk : Disk).

Inductive Action : Type :=
| DoPut (io : IoTrace) (request : PutRequest) (failpoint : Failpoint)
| DoDelete (io : IoTrace) (request : DeleteRequest) (failpoint : Failpoint)
| DoCompact (io : IoTrace)
| DoCrash
| DoReopen (io : IoTrace).

(** What the clients were told of a change. *)
Inductive Told : Type :=
| Acknowledged (c : Change)
| Unresolved (c : Change).

(** The histories a log of answers allows: what was acknowledged is there, and a
    change of unknown outcome either is or is not. *)
Inductive resolves : list Told → list Change → Prop :=
| resolves_nil : resolves [] []
| resolves_acknowledged log h c : resolves log h → resolves (log ++ [Acknowledged c]) (h ++ [c])
| resolves_kept log h c : resolves log h → resolves (log ++ [Unresolved c]) (h ++ [c])
| resolves_dropped log h c : resolves log h → resolves (log ++ [Unresolved c]) h.

Lemma resolves_acked log h c : resolves log h → Acknowledged c ∈ log → c ∈ h.
Proof. induction 1; set_solver. Qed.

Lemma resolves_told log h c : resolves log h → c ∈ h → Acknowledged c ∈ log ∨ Unresolved c ∈ log.
Proof. induction 1; set_solver. Qed.

Section system.
Context `{B : Barrier, Sh : Sha256}.
Context (max : N).
Import DurableService.

Definition told (s : t) (b : Binding) (v : option (list u8)) (r : SResult MutationOutcome) : list Told :=
  match r with
  | Ok (Committed _ _) => [Acknowledged (proposed s b v)]
  | Err (OutcomeUnknown _) => [Unresolved (proposed s b v)]
  | _ => []
  end.

Definition act (a : Action) (sys : System) : System * list Told :=
  match a, sys with
  | DoPut io request fp, Up s =>
      let '(s', r) := put_with_failpoint io request fp s in
      (Up s', told s (put_binding request) (Some (PutRequest.value request)) r)
  | DoDelete io request fp, Up s =>
      let '(s', r) := delete_with_failpoint io request fp s in
      (Up s', told s (delete_binding request) None r)
  | DoCompact io, Up s => (Up (compact io s).1, [])
  | DoCrash, Up s => (Down (disk s), [])
  | DoReopen io, Down d =>
      match reopen io max d with
      | (_, Ok s) => (Up s, [])
      | (d, Err _) => (Down d, [])
      end
  | _, _ => (sys, [])
  end.

Fixpoint act_all (actions : list Action) (sys : System) : System * list Told :=
  match actions with
  | [] => (sys, [])
  | a :: actions =>
      let '(sys, log) := act a sys in
      let '(sys, log') := act_all actions sys in
      (sys, log ++ log')
  end.

Definition files (sys : System) : Disk := match sys with Up s => disk s | Down d => d end.

(** The references the files of a service hold: those of the requests in its ledger
    and those of the changes in its journal. *)
Definition event_reference (e : JournalEvent) : option string :=
  match e with
  | Intent m | Commit m | Abort m => Some (CommitMarker.recovery_reference m)
  | Checkpoint _ => None
  end.

Definition journal_references (d : Disk) : list string :=
  match (let? bytes := read_bounded d journal_path in decode_journal_frames bytes) with
  | Ok journal => omap event_reference (jn_events journal)
  | Err _ => []
  end.

Definition taken (s : t) : gset string :=
  list_to_set (LedgerRecord.recovery_reference <$> btree_values (ledger s)) ∪ list_to_set (journal_references (disk s)).

(** The two hashes of a mutation meet no other value: the digest of the request is
    not the zero digest, and the reference, a hash of the digest, the generation and
    the journal sequence, is none of those in the files.  Those were hashed with an
    earlier generation, if they are in the ledger, or an earlier sequence number, if
    they are in the journal, so only a collision of the hash is excluded. *)
Definition no_collision (s : t) (b : Binding) (v : option (list u8)) : bool :=
  negb (bool_decide (Binding.digest b = zero32))
  && bool_decide (Change.reference (proposed s b v) ∉ taken s).

Definition admissible (a : Action) (sys : System) : bool :=
  match a, sys with
  | DoPut _ request _, Up s =>
      is_ok (Secret_new (PutRequest.value request))
      && no_collision s (put_binding request) (Some (PutRequest.value request))
  | DoDelete _ request _, Up s => no_collision s (delete_binding request) None
  | _, _ => true
  end.

Fixpoint all_admissible (actions : list Action) (sys : System) : bool :=
  match actions with
  | [] => true
  | a :: actions => admissible a sys && all_admissible actions (act a sys).1
  end.
End system.

(** * What every reachable system satisfies *)
Section invariant.
Context `{B : Barrier, Sh : Sha256} {overhead : N} `{!BarrierLaws B overhead, !Sha256Laws Sh}.
Context (max : N) (Hcap : validate_capacity max = Ok tt).
Import DurableService.

Definition kept (d : Disk) (h : list Change) : Prop := ∃ used, holds max used d h.

Lemma running_kept s h : running max s h → kept (disk s) h.
Proof. intros [used Hl]. exists used. by eapply live_holds. Qed.

(** A running service, a service that must recover, or files, all of one history. *)
Definition consistent (sys : System) (h : list Change) : Prop :=
  match sys with
  | Up s => running max s h ∨ (unresolved s = true ∧ kept (disk s) h)
  | Down d => kept d h
  end.

Lemma consistent_kept sys h : consistent sys h → kept (files sys) h.
Proof. destruct sys as [s|d]; [intros [Hr|[_ Hk]]; [by apply running_kept|done]|done]. Qed.

(** The references in the journal of a running service, and those of its history,
    are taken. *)
Lemma written_aborted h0 es h p A : written h0 es h p A → A ⊆ list_to_set (omap event_reference es).
Proof. induction 1; rewrite ?omap_app; simpl; set_solver. Qed.

Lemma stored_references used d i :
  stored max used d i → journal_references d = omap event_reference (Image.events i).
Proof.
  intros [? ? ? Hw]. unfold journal_references, read_bounded. rewrite st_journal. cbn [ok_or].
  rewrite (proj2 (N.ltb_ge _ _)) by (rewrite !len_app; unfold len at 1; simpl; lia).
  by rewrite (decode_journal_file (Image.events i) (Image.frames i) (Image.tail i)) by (done || lia || by eapply written_events_ok).
Qed.

Lemma running_taken s h : running max s h → ∃ used, live max used s h ∧ used ⊆ taken s.
Proof.
  intros [used Hl]. pose proof (live_history _ _ _ _ Hl) as Hok.
  destruct Hl as [(h0 & es & bs & A & Hst & Ht) Hsn Hle Hun Hrec].
  eexists. split; [split; [do 4 eexists; split; [exact (stored_exact _ _ _ _ Hst)|exact Ht]|done..]|]. img.
  unfold taken. rewrite (stored_references _ _ _ Hst), Hle. img.
  pose proof (written_aborted _ _ _ _ _ (st_written _ _ _ _ Hst)) as HA. img.
  assert (references_of h ⊆ list_to_set (LedgerRecord.recovery_reference <$> btree_values (ledger_of h))); [|set_solver].
  intros ref (c & -> & Hc)%elem_of_list_to_set%list_elem_of_fmap. apply elem_of_list_to_set, list_elem_of_fmap.
  exists (Change.record c). split; [done|]. apply elem_of_btree_values. exists (Change.request c).
  apply lookup_of; [apply Hok|eauto].
Qed.

(** ** Creation *)
Lemma atomic_write_small fate target bytes d d' : atomic_write fate target bytes d = (d', Ok tt) → (len bytes ≤ MAX_FILE_BYTES)%N.
Proof. unfold atomic_write. destruct (N.ltb_spec MAX_FILE_BYTES (len bytes)); [done|lia]. Qed.

Lemma running_references s h c : running max s h → c ∈ h → Change.reference c ∈ taken s.
Proof.
  intros (used & Hl & Hu)%running_taken Hc. apply Hu. destruct (lv_image _ _ _ _ Hl) as (h0 & es & bs & A & Hst & _).
  apply (st_used _ _ _ _ Hst). img. apply elem_of_union_l, elem_of_union_l, elem_of_list_to_set, list_elem_of_fmap. eauto.
Qed.

Lemma fresh_taken s : ledger s = ∅ → disk s !! journal_path = Some JOURNAL_MAGIC → taken s = ∅.
Proof.
  intros Hl Hj. unfold taken, journal_references, read_bounded. rewrite Hl, Hj. cbn [ok_or].
  change (MAX_FILE_BYTES <? len JOURNAL_MAGIC)%N with false. cbv iota.
  rewrite (decode_journal_file [] [] []); [done|constructor|by left|constructor|done|done].
Qed.

Lemma create_running io d s : create_new io max ∅ = (d, Ok s) → running max s [] ∧ disk s = d ∧ taken s = ∅.
Proof.
  unfold create_new. rewrite Hcap. destruct (Io.root io); [|done]. rewrite map_size_empty. cbn [Nat.eqb negb].
  destruct (Io.lock io); [|done]. unfold mbind, mpure.
  destruct (sealed_snapshot _ _) as [sb|] eqn:Hsb; [|done].
  destruct (atomic_write (Io.fate io 0) snapshot_path sb ∅) as [d1 [[]|]] eqn:E1; [|done].
  destruct (initialize_journal (Io.fate io 1) d1) as [d2 [[]|]] eqn:E2; [|done].
  destruct (sealed_ledger _ _ _) as [lb|] eqn:Hlb; [|done].
  destruct (atomic_write (Io.fate io 2) ledger_path lb d2) as [d3 [[]|]] eqn:E3; [|done]. intros [= <- <-].
  pose proof (atomic_write_small _ _ _ _ _ E1) as Hs. pose proof (atomic_write_small _ _ _ _ _ E3) as Hl.
  apply atomic_write_cases in E1 as [[_ R1]|[? _]]; [|done|set_solver].
  apply atomic_write_cases in E3 as [[_ R3]|[? _]]; [|done|set_solver].
  assert (d2 = <[journal_path := JOURNAL_MAGIC]> d1) as ->.
  { unfold initialize_journal in E2. destruct (d1 !! journal_path), (Io.fate io 1) as [|[]]; by simplify_eq. }
  assert (d3 !! journal_path = Some JOURNAL_MAGIC) as Hj
    by (rewrite (R3 journal_path) by set_solver; cbn; by rewrite lookup_insert_eq).
  split; [|split; [done|by apply fresh_taken]]. exists ∅. split; try done.
  2: { split; [set_solver|]. intros ? ?. cbn. by rewrite lookup_empty. }
  exists [], [], [], ∅. cbv zeta. split; [|by split_and!]. split; img; cbn [disk]; try done.
  - constructor.
  - by left.
  - constructor.
  - simpl. lia.
  - exists (Io.nonce io 0), sb. split_and!; [|done|done].
    rewrite (R3 snapshot_path) by set_solver. cbn. rewrite lookup_insert_ne by done. by rewrite (R1 snapshot_path) by set_solver.
  - exists (Io.nonce io 1), lb. split_and!; [|done|done]. by rewrite (R3 ledger_path) by set_solver.
  - exists (Io.nonce io 1), 0%N, lb. done.
  - unfold len. simpl. lia.
Qed.

(** ** Mutations *)

(** A computation that leaves the reconciliation alone. *)
Definition steady {A} (m : M t ServiceError A) : Prop := ∀ s, reconciliation (m s).1 = reconciliation s.

Lemma steady_bind {A C} (m : M t ServiceError A) (k : A → M t ServiceError C) :
  steady m → (∀ a, steady (k a)) → steady (mbind m k).
Proof.
  intros Hm Hk s. unfold mbind. pose proof (Hm s) as Hs. destruct (m s) as [s1 [a|e]]; simpl in *; [|done].
  by rewrite (Hk a s1).
Qed.

Lemma steady_on_disk m : steady (on_disk m).
Proof. intros s. unfold on_disk. by destruct (m (disk s)). Qed.

Lemma steady_append_frame fate f : steady (append_frame fate f).
Proof.
  intros s. unfold append_frame. destruct (checked_add _ _); [|done]. destruct (_ || _); [done|].
  apply (steady_bind (on_disk _)); [apply steady_on_disk|by intros ? ?].
Qed.

Lemma steady_publish io fp p : steady (publish io fp p).
Proof.
  unfold publish.
  repeat (apply steady_bind; [first [apply steady_append_frame|apply steady_on_disk|by intros ?]|intros _]). by intros ?.
Qed.

(** An instance that must recover has learnt nothing. *)
Lemma execute_unknown io b v fp s :
  unresolved (execute io b v fp s).1 = true → reconciliation (execute io b v fp s).1 = reconciliation s.
Proof.
  unfold execute. destruct (unresolved s); [done|]. destruct (Io.verify io); [|done].
  destruct (ledger s !! _); [by case_match|]. case_match; [done|]. destruct (prepare _ _ _ _) as [p|]; [|done].
  pose proof (steady_publish io fp p (set_unresolved true s)) as Hp.
  by destruct (publish _ _ _ _) as [s1 [|]].
Qed.

Lemma no_collision_spec s b v :
  no_collision s b v = true →
  Binding.digest b ≠ zero32 ∧ Change.reference (proposed s b v) ∉ taken s.
Proof. unfold no_collision. by rewrite andb_true_iff, negb_true_iff, bool_decide_eq_false, bool_decide_eq_true. Qed.

Lemma execute_running s h io b v fp s' r :
  running max s h → binding_ok b v → no_collision s b v = true → execute io b v fp s = (s', r) →
  let c := proposed s b v in
  (s' = s ∧ is_ok r = false)
  ∨ (s' = s ∧ ∃ g ref, r = Ok (Duplicate g ref))
  ∨ (r = Ok (Committed (Change.generation c) (Change.reference c)) ∧ running max s' (h ++ [c]))
  ∨ (r = Err (OutcomeUnknown (Change.reference c)) ∧ unresolved s' = true
     ∧ (kept (disk s') h ∨ kept (disk s') (h ++ [c]))).
Proof.
  intros (used & Hl & Hu)%running_taken Hb [Hd Hfr]%no_collision_spec He. cbv zeta.
  pose proof (execute_any max Hcap used s h io b v fp s' r Hl Hb Hd (λ Hin, Hfr (Hu _ Hin)) He) as Hc. cbv zeta in Hc.
  destruct Hc as [[-> Hr]|[(-> & c' & _ & _ & _ & ->)|[[-> Hl']|(-> & Hun & Hk)]]].
  - auto.
  - right; left. eauto.
  - right; right; left. split; [done|]. by eexists.
  - right; right; right. split_and!; [done|done|]. destruct Hk; [left|right]; by eexists.
Qed.

Lemma execute_consistent log s h io b v fp :
  resolves log h → consistent (Up s) h → binding_ok b v → no_collision s b v = true →
  ∃ h', resolves (log ++ told s b v (execute io b v fp s).2) h' ∧ consistent (Up (execute io b v fp s).1) h'.
Proof.
  intros Hres [Hrun|[Hun Hk]] Hb Hn.
  2: { unfold execute. rewrite Hun. exists h. rewrite app_nil_r. split; [done|by right]. }
  destruct (execute io b v fp s) as [s' r] eqn:He. simpl.
  pose proof (execute_running s h io b v fp s' r Hrun Hb Hn He) as Hc. cbv zeta in Hc.
  destruct Hc as [[-> Hr]|[(-> & g & ref & ->)|[[-> Hl']|(-> & Hun & Hk)]]].
  - exists h. split; [|by left]. destruct r as [|e]; [done|]. destruct e; simpl; rewrite ?app_nil_r; try done. by constructor.
  - exists h. rewrite app_nil_r. split; [done|by left].
  - exists (h ++ [proposed s b v]). split; [by constructor|by left].
  - destruct Hk as [Hk|Hk]; [exists h|exists (h ++ [proposed s b v])]; (split; [by constructor|by right]).
Qed.

Lemma put_binding_ok request :
  PutRequest.validate request = Ok tt → is_ok (Secret_new (PutRequest.value request)) = true →
  binding_ok (put_binding request) (Some (PutRequest.value request)).
Proof.
  unfold PutRequest.validate, Secret_new, binding_ok, put_binding, key_ok. cbn. intros Hv Hs.
  destruct (validate_identifier (PutRequest.principal request)) as [[]|]; [|done].
  destruct (validate_namespace _) as [[]|]; [|done].
  destruct (validate_identifier (PutRequest.request_id request)) as [[]|]; [|done].
  destruct (validate_resource _) as [[]|]; [|done].
  destruct (PutRequest.value request) as [|x v]; [done|].
  destruct (N.ltb_spec MAX_SECRET_BYTES (len (x :: v))); [done|]. by split_and!.
Qed.

Lemma delete_binding_ok request : DeleteRequest.validate request = Ok tt → binding_ok (delete_binding request) None.
Proof.
  unfold DeleteRequest.validate, binding_ok, delete_binding, key_ok. cbn. intros Hv.
  destruct (validate_identifier (DeleteRequest.principal request)) as [[]|]; [|done].
  destruct (validate_namespace _) as [[]|]; [|done].
  destruct (validate_identifier (DeleteRequest.request_id request)) as [[]|]; [|done].
  destruct (validate_resource _) as [[]|]; [|done]. by split_and!.
Qed.

(** A request that does not validate changes nothing. *)
Lemma told_rejected log h s b v e : resolves log h → resolves (log ++ told s b v (Err e)) h.
Proof. intros. destruct e; simpl; rewrite ?app_nil_r; try done. by constructor. Qed.

Lemma compact_consistent io s h : consistent (Up s) h → consistent (Up (compact io s).1) h.
Proof.
  intros [[used Hl]|[Hun Hk]].
  2: { unfold compact. rewrite Hun. by right. }
  destruct (compact io s) as [s' r] eqn:E. simpl in *.
  destruct (compact_any max Hcap _ _ _ _ _ _ Hl E) as [Hl'|(_ & Hun & Hk)].
  - left. by exists used.
  - right. split; [done|]. by exists used.
Qed.

(** ** Every action *)
Lemma act_consistent a sys log h :
  resolves log h → consistent sys h → admissible a sys = true →
  ∃ h', resolves (log ++ (act max a sys).2) h' ∧ consistent (act max a sys).1 h'.
Proof.
  intros Hres Hc Ha.
  assert (∃ h', resolves (log ++ []) h' ∧ consistent sys h') as Hsame by (exists h; by rewrite app_nil_r).
  destruct a as [io q fp|io q fp|io| |io], sys as [s|d]; try exact Hsame; cbn [act admissible] in *.
  - apply andb_true_iff in Ha as [Hs Ha]. unfold put_with_failpoint.
    destruct (PutRequest.validate q) as [[]|e] eqn:Hv; [|exists h; split; [by apply told_rejected|done]].
    pose proof (execute_consistent log s h io _ _ fp Hres Hc (put_binding_ok q Hv Hs) Ha) as He.
    by destruct (execute _ _ _ _ s).
  - unfold delete_with_failpoint.
    destruct (DeleteRequest.validate q) as [[]|e] eqn:Hv; [|exists h; split; [by apply told_rejected|done]].
    pose proof (execute_consistent log s h io _ _ fp Hres Hc (delete_binding_ok q Hv) Ha) as He.
    by destruct (execute _ _ _ _ s).
  - exists h. rewrite app_nil_r. split; [done|]. by apply compact_consistent.
  - exists h. rewrite app_nil_r. split; [done|]. by apply (consistent_kept (Up s)).
  - destruct Hc as [used Hk]. destruct (reopen io max d) as [d' r] eqn:E.
    pose proof (reopen_any max Hcap _ _ _ _ _ _ Hk E) as Hr. exists h.
    destruct r as [s|e]; simpl; rewrite app_nil_r; (split; [done|]); [by left; apply Hr|exists used; apply Hr].
Qed.

Lemma act_all_consistent actions sys log h :
  resolves log h → consistent sys h → all_admissible max actions sys = true →
  ∃ h', resolves (log ++ (act_all max actions sys).2) h' ∧ consistent (act_all max actions sys).1 h'.
Proof.
  revert sys log h. induction actions as [|a actions IH]; intros sys log h Hres Hc Ha; simpl in *.
  { exists h. by rewrite app_nil_r. }
  apply andb_true_iff in Ha as [Ha Hs]. destruct (act_consistent a sys log h Hres Hc Ha) as (h1 & Hres1 & Hc1).
  destruct (act max a sys) as [sys1 log1]. simpl in *. specialize (IH sys1 _ _ Hres1 Hc1 Hs).
  destruct (act_all max actions sys1) as [sys2 log2]. simpl in *. by rewrite app_assoc.
Qed.

(** What reopening with working storage gives. *)
Lemma kept_reopens io d h :
  kept d h → io_works io → ∃ d' s, reopen io max d = (d', Ok s) ∧ running max s h ∧ disk s = d'.
Proof.
  intros [used Hk] Hio. destruct (reopen io max d) as [d' [s|e]] eqn:E.
  - exists d', s. split; [done|]. apply (reopen_any max Hcap _ _ _ _ _ _ Hk E).
  - by destruct (reopen_any max Hcap _ _ _ _ _ _ Hk E).
Qed.
End invariant.
