(* ===== verification/DurableTheorems.v ===== *)
(** What the durable service guarantees: recovery from every crash, at most one
    effect per request, definite answers while storage works, refusal to guess while
    it does not, and backups that carry the committed state. *)
From Stdlib Require Import Ascii NArith Strings.Byte.
From S2P Require Import Prelude Str Gf256 Bytes DurableCodec Durable DurableCodecSpec DurableSpec DurableRecovery DurableReopen DurableSystem.

(** The requests a log acknowledges. *)
Definition acknowledged (log : list Told) : list Change :=
  omap (λ t, match t with Acknowledged c => Some c | Unresolved _ => None end) log.

Lemma resolves_sublist log h : resolves log h → acknowledged log `sublist_of` h.
Proof.
  unfold acknowledged. induction 1 as [|log h c _ IH|log h c _ IH|log h c _ IH]; rewrite ?omap_app; simpl; rewrite ?app_nil_r.
  - done.
  - by apply sublist_app.
  - by apply sublist_inserts_r.
  - done.
Qed.

Section theorems.
Context `{B : Barrier, Sh : Sha256} {overhead : N} `{!BarrierLaws B overhead, !Sha256Laws Sh}.
Context (max : N).
Import DurableService.
Implicit Types (s : DurableService.t) (h : list Change) (io : IoTrace) (d : Disk).

(** A system that started from an empty directory and went through the actions. *)
Definition lived (io0 : IoTrace) (actions : list Action) (sys : System) (log : list Told) : Prop :=
  validate_capacity max = Ok tt ∧
  ∃ s0, (create_new io0 max ∅).2 = Ok s0 ∧ all_admissible max actions (Up s0) = true
        ∧ act_all max actions (Up s0) = (sys, log).

Lemma lived_consistent io0 actions sys log :
  lived io0 actions sys log → validate_capacity max = Ok tt ∧ ∃ h, resolves log h ∧ consistent max sys h.
Proof.
  intros (Hcap & s0 & Hc & Ha & Hr). split; [done|]. destruct (create_new io0 max ∅) as [d0 r0] eqn:E. simpl in Hc. subst r0.
  destruct (create_running max Hcap io0 d0 s0 E) as (Hrun & _ & _).
  destruct (act_all_consistent max Hcap actions (Up s0) [] [] resolves_nil (or_introl Hrun) Ha) as (h & Hres & Hcon).
  rewrite Hr in Hres, Hcon. by exists h.
Qed.

Lemma consistent_running s h : consistent max (Up s) h → unresolved s = false → running max s h.
Proof. intros [?|[Hun _]]; [done|congruence]. Qed.

Lemma running_get s h namespace resource :
  running max s h → validate_namespace namespace = Ok tt → validate_resource resource = Ok tt →
  get s namespace resource = Ok (entries_of h !! (namespace, resource)).
Proof.
  intros [used Hl] Hn Hr. unfold get. by rewrite Hn, Hr, (lv_resolved _ _ _ _ Hl), (lv_snapshot _ _ _ _ Hl).
Qed.

Lemma running_reconcile s h :
  running max s h →
  (∀ c, c ∈ h → reconcile s (Change.reference c) = StatusCommitted (Change.generation c))
  ∧ (∀ reference g, reconcile s reference = StatusCommitted g →
       ∃ c, c ∈ h ∧ Change.reference c = reference ∧ Change.generation c = g).
Proof.
  intros [used Hl]. destruct (lv_reconciled _ _ _ _ Hl) as [H1 H2]. unfold reconcile. split.
  - intros c Hc. by rewrite (H1 c Hc).
  - intros ref g Hr. apply H2. destruct (reconciliation s !! ref); simpl in Hr; congruence.
Qed.

(** C3: Recovery.  Start the durable service on an empty directory and let anything
    happen: writes and deletions (with a failing call at any byte of any of their
    writes), compactions, crashes, and recoveries that themselves fail half-way.
    Once storage works, reopening succeeds, and the service then holds a history
    that contains every acknowledged change in order and each change of unknown
    outcome either completely or not at all; reads answer from exactly that history,
    and reconciliation reports exactly its changes as committed.  Assumed of every
    mutation of the run is that its hashes do not collide: its digest is not zero and
    its recovery reference is none of those in the ledger and the journal. *)
Theorem durable_recovery io0 actions sys log io :
  lived io0 actions sys log → io_works io →
  ∃ d s h, reopen io max (files sys) = (d, Ok s) ∧ resolves log h ∧ generation s = len h
    ∧ (∀ namespace resource, validate_namespace namespace = Ok tt → validate_resource resource = Ok tt →
         get s namespace resource = Ok (entries_of h !! (namespace, resource)))
    ∧ (∀ c, c ∈ h → reconcile s (Change.reference c) = StatusCommitted (Change.generation c))
    ∧ (∀ reference g, reconcile s reference = StatusCommitted g →
         ∃ c, c ∈ h ∧ Change.reference c = reference ∧ Change.generation c = g).
Proof.
  intros (Hcap & h & Hres & Hcon)%lived_consistent Hio.
  destruct (kept_reopens max Hcap io _ _ (consistent_kept max _ _ Hcon) Hio) as (d & s & Hr & Hrun & _).
  exists d, s, h. destruct (running_reconcile s h Hrun) as [H1 H2].
  split_and!; [done|done| |intros; by apply running_get|done|done].
  destruct Hrun as [used Hl]. unfold generation. by rewrite (lv_snapshot _ _ _ _ Hl).
Qed.

(** C4: At most one effect.  Over the whole life of a directory no two acknowledged
    changes are of the same request; and repeating an acknowledged request to a
    running service, with any failure of its writes, answers the original generation
    and reference when the request is the same and a binding conflict when it is
    not, and changes nothing.  Assumed of the run is, as for recovery, that no two
    hashes of it collide. *)
Theorem durable_exactly_once io0 actions s log c io fp :
  lived io0 actions (Up s) log → unresolved s = false → Acknowledged c ∈ log → Io.verify io = Ok tt →
  NoDup (Change.request <$> acknowledged log)
  ∧ (∀ request, PutRequest.validate request = Ok tt → Binding.key (put_binding request) = Change.request c →
       put_with_failpoint io request fp s =
         (s, if bool_decide (CommitMarker.binding_digest (Change.marker c) = Binding.digest (put_binding request))
             then Ok (Duplicate (Change.generation c) (Change.reference c)) else Err RequestBindingConflict))
  ∧ (∀ request, DeleteRequest.validate request = Ok tt → Binding.key (delete_binding request) = Change.request c →
       delete_with_failpoint io request fp s =
         (s, if bool_decide (CommitMarker.binding_digest (Change.marker c) = Binding.digest (delete_binding request))
             then Ok (Duplicate (Change.generation c) (Change.reference c)) else Err RequestBindingConflict)).
Proof.
  intros (Hcap & h & Hres & Hcon)%lived_consistent Hun Hc Hver.
  destruct (consistent_running _ _ Hcon Hun) as [used Hl]. pose proof (live_history _ _ _ _ Hl) as Hok.
  assert (∀ b v, Binding.key b = Change.request c → execute io b v fp s =
    (s, if bool_decide (CommitMarker.binding_digest (Change.marker c) = Binding.digest b)
        then Ok (Duplicate (Change.generation c) (Change.reference c)) else Err RequestBindingConflict)) as Hexec.
  { intros b v Hb. unfold execute. rewrite Hun, Hver, Hb, (lv_ledger _ _ _ _ Hl).
    assert (ledger_of h !! Change.request c = Some (Change.record c)) as ->.
    { apply lookup_of; [apply Hok|]. exists c. by split_and!; [eapply resolves_acked| |]. }
    cbn. by case_bool_decide. }
  split_and!.
  - eapply sublist_NoDup; [apply (ho_requests h Hok)|apply fmap_sublist, resolves_sublist, Hres].
  - intros request Hv Hk. unfold put_with_failpoint. by rewrite Hv, Hexec.
  - intros request Hv Hk. unfold delete_with_failpoint. by rewrite Hv, Hexec.
Qed.

(** ** Working storage *)
Lemma append_frame_done f s j :
  disk s !! journal_path = Some j → (journal_sequence s + 1 ≤ MAX_RECORDS)%N →
  (journal_bytes s + len f ≤ journal_limit s)%N →
  append_frame Done f s =
    (set_journal (journal_sequence s + 1) (journal_bytes s + len f) (set_disk (<[journal_path := j ++ f]> (disk s)) s), Ok tt).
Proof.
  intros Hj Hq Hb. unfold append_frame.
  rewrite (proj2 (checked_add_Some (journal_sequence s) 1 (journal_sequence s + 1))) by (split; [done|short]).
  rewrite (proj2 (N.ltb_ge _ _)), (proj2 (N.ltb_ge _ _)) by done. cbn [orb].
  unfold mbind, on_disk, append_journal_frame. by rewrite Hj.
Qed.

Lemma publish_works io p s j :
  (∀ k, Io.fate io k = Done) → disk s !! journal_path = Some j →
  (journal_sequence s + 2 ≤ MAX_RECORDS)%N →
  (journal_bytes s + len (pr_intent p) + len (pr_commit p) ≤ journal_limit s)%N →
  (len (pr_snapshot_bytes p) ≤ MAX_FILE_BYTES)%N → (len (pr_ledger_bytes p) ≤ MAX_FILE_BYTES)%N →
  (publish io NoFailpoint p s).2 = Ok tt.
Proof.
  intros Hf Hj Hq Hb Hs Hl. unfold publish, mbind at 1. rewrite !Hf, (append_frame_done _ s j) by (done || lia).
  unfold mbind at 1, stop_at at 1. rewrite bool_decide_eq_false_2 by done. unfold mbind at 1, on_disk at 1.
  cbn [set_journal set_disk disk].
  destruct (atomic_write_done snapshot_path (pr_snapshot_bytes p) (<[journal_path:=j ++ pr_intent p]> (disk s)))
    as (d1 & -> & R1); [set_solver|done|].
  unfold mbind at 1. unfold mbind at 1. unfold stop_at at 1. rewrite bool_decide_eq_false_2 by done. unfold mbind at 1.
  rewrite (append_frame_done _ _ (j ++ pr_intent p)).
  - unfold mbind at 1, stop_at at 1. rewrite bool_decide_eq_false_2 by done. unfold mbind at 1, on_disk at 1.
    cbn [set_journal set_disk disk set_snapshot].
    destruct (atomic_write_done ledger_path (pr_ledger_bytes p) (<[journal_path:=(j ++ pr_intent p) ++ pr_commit p]> d1))
      as (d2 & -> & _); [set_solver|done|done].
  - cbn [set_snapshot set_disk disk]. rewrite (R1 journal_path) by set_solver. cbn. by rewrite lookup_insert_eq.
  - cbn [set_snapshot set_disk set_journal journal_sequence]. lia.
  - cbn [set_snapshot set_disk set_journal journal_bytes journal_limit]. lia.
Qed.

Lemma prepare_bounds io s b v p :
  prepare io s b v = Ok p →
  (len (pr_snapshot_bytes p) ≤ MAX_FILE_BYTES)%N ∧ (len (pr_ledger_bytes p) ≤ MAX_FILE_BYTES)%N
  ∧ (journal_sequence s + 2 ≤ MAX_RECORDS)%N
  ∧ (journal_bytes s + len (pr_intent p) + len (pr_commit p) ≤ journal_limit s)%N.
Proof.
  unfold prepare. destruct (checked_add (Snapshot.generation (snapshot s)) 1); [|done]. cbn [ok_or].
  destruct (checked_add (journal_sequence s) 1) as [q|] eqn:Hq; [|done]. cbn [ok_or].
  destruct (checked_add q 1) as [q'|] eqn:Hq'; [|done]. cbn [ok_or]. apply checked_add_Some in Hq as [-> _], Hq' as [-> _].
  destruct (candidate_entries _ _ _); [|done]. repeat (case_match; [|done]).
  repeat match goal with |- context [(?a <? ?b)%N] => destruct (N.ltb_spec a b); [done|] end. cbn [orb].
  intros <-%Ok_inj. cbn. split_and!; lia.
Qed.

(** With working storage no mutation leaves the service in need of recovery. *)
Lemma execute_resolved s h io b v :
  running max s h → io_works io → unresolved (execute io b v NoFailpoint s).1 = false.
Proof.
  intros [used Hl] (_ & _ & Hf & _). pose proof (lv_resolved _ _ _ _ Hl) as Hun.
  destruct (lv_image _ _ _ _ Hl) as (h0 & es & bs & A & Hst & _).
  unfold execute. rewrite Hun. destruct (Io.verify io); [|done]. destruct (ledger s !! _); [by case_bool_decide|].
  case_match; [done|]. destruct (prepare io s b v) as [p|] eqn:Hp; [|done].
  destruct (prepare_bounds _ _ _ _ _ Hp) as (Hs & Hlb & Hq & Hb).
  pose proof (publish_works io p (set_unresolved true s) _ Hf (st_journal _ _ _ _ Hst) Hq Hb Hs Hlb) as Hpub.
  destruct (publish io NoFailpoint p (set_unresolved true s)) as [s1 r1]. simpl in Hpub. by subst r1.
Qed.

(** C24: Definite answers.  While storage works, a write to a running service is never
    in doubt: either it is committed, under a new generation, and reading the
    resource gives back the value and every other resource what it held; or it is a
    duplicate or refused and the service is exactly as before.  Assumed is that the
    hashes of this write and of the run before it do not collide. *)
Theorem durable_definite io0 actions s log io request :
  lived io0 actions (Up s) log → unresolved s = false → io_works io →
  admissible (DoPut io request NoFailpoint) (Up s) = true →
  let '(s', r) := put io request s in
  unresolved s' = false ∧
  ((∃ reference, r = Ok (Committed (generation s + 1) reference) ∧ generation s' = (generation s + 1)%N
      ∧ Snapshot.entries (snapshot s') =
          <[(PutRequest.namespace request, PutRequest.resource request) := PutRequest.value request]>
            (Snapshot.entries (snapshot s)))
   ∨ (s' = s ∧ ∀ g reference, r ≠ Ok (Committed g reference))).
Proof.
  intros (Hcap & h & Hres & Hcon)%lived_consistent Hun Hio [Hs Hn]%andb_true_iff.
  pose proof (consistent_running _ _ Hcon Hun) as Hrun.
  unfold put, put_with_failpoint. destruct (PutRequest.validate request) as [[]|] eqn:Hv; [|split; [done|by right]].
  pose proof (execute_resolved s h io (put_binding request) (Some (PutRequest.value request)) Hrun Hio) as Hun'.
  destruct (execute _ _ _ _ s) as [s' r] eqn:He. simpl in Hun'. split; [done|].
  pose proof (execute_running max Hcap _ _ _ _ _ _ _ _ Hrun (put_binding_ok request Hv Hs) Hn He) as Hc. cbv zeta in Hc.
  destruct Hrun as [used Hl].
  destruct Hc as [[-> Hr]|[(-> & g & ref & ->)|[[-> [used' Hl']]|(-> & Hu & _)]]]; [..|congruence].
  - right. split; [done|]. by intros g ref ->.
  - by right.
  - left. eexists. split; [done|]. unfold generation.
    rewrite (lv_snapshot _ _ _ _ Hl'), (lv_snapshot _ _ _ _ Hl), snapshot_of_snoc. done.
Qed.

(** A reference that is not taken is not reported as committed. *)
Lemma fresh_uncommitted s h b v g :
  validate_capacity max = Ok tt → running max s h → no_collision s b v = true →
  reconcile s (Change.reference (proposed s b v)) ≠ StatusCommitted g.
Proof.
  intros Hcap Hrun [_ Hfr]%no_collision_spec Hg. apply Hfr.
  destruct (proj2 (running_reconcile s h Hrun) _ _ Hg) as (c & Hc & He & _). rewrite <-He. exact (running_references max Hcap s h c Hrun Hc).
Qed.

(** C25: Fail-stop.  A write to a running service that leaves recovery required has
    answered so, with a reference, and the instance stops: it answers no read, no
    listing, no further mutation and no maintenance request, and none of them changes
    it or its files.  Nor has it learnt anything of the reference it handed out:
    reconciliation answers what it did before the write, and never that the change is
    committed.  Assumed is that the hashes of this write and of the run before it do
    not collide. *)
Theorem durable_fail_stop io0 actions s log io request fp s' r :
  lived io0 actions (Up s) log → recovery_required s = false → admissible (DoPut io request fp) (Up s) = true →
  put_with_failpoint io request fp s = (s', r) → recovery_required s' = true →
  (∃ reference, r = Err (OutcomeUnknown reference) ∧ reconcile s' reference = reconcile s reference
     ∧ ∀ g, reconcile s' reference ≠ StatusCommitted g)
  ∧ (∀ namespace resource, validate_namespace namespace = Ok tt → validate_resource resource = Ok tt →
       get s' namespace resource = Err RecoveryRequired)
  ∧ (∀ namespace prefix children, list_children s' namespace prefix ≠ Ok children)
  ∧ (∀ io2 q fp2, PutRequest.validate q = Ok tt → put_with_failpoint io2 q fp2 s' = (s', Err RecoveryRequired))
  ∧ (∀ io2 q fp2, DeleteRequest.validate q = Ok tt → delete_with_failpoint io2 q fp2 s' = (s', Err RecoveryRequired))
  ∧ (∀ io2, compact io2 s' = (s', Err RecoveryRequired) ∧ export_backup io2 s' = Err RecoveryRequired)
  ∧ (∀ io2 b allow, restore_backup io2 b allow s' = (s', Err RecoveryRequired)).
Proof.
  unfold recovery_required. intros (Hcap & h & Hres & Hcon)%lived_consistent Hun [Hs Hn]%andb_true_iff Hput Hun'.
  pose proof (consistent_running _ _ Hcon Hun) as Hrun. split_and!.
  - unfold put_with_failpoint in Hput. destruct (PutRequest.validate request) as [[]|] eqn:Hv; [|simplify_eq; congruence].
    pose proof (execute_unknown io (put_binding request) (Some (PutRequest.value request)) fp s) as Hrec.
    rewrite Hput in Hrec. simpl in Hrec. specialize (Hrec Hun').
    pose proof (execute_running max Hcap _ _ _ _ _ _ _ _ Hrun (put_binding_ok request Hv Hs) Hn Hput) as Hc. cbv zeta in Hc.
    destruct Hc as [[-> Hr]|[(-> & g & ref & ->)|[[-> [used' Hl']]|(-> & _ & _)]]]; [congruence|congruence| |].
    + rewrite (lv_resolved _ _ _ _ Hl') in Hun'. congruence.
    + eexists. split; [done|]. unfold reconcile. rewrite Hrec. split; [done|]. intros g. exact (fresh_uncommitted s h _ _ g Hcap Hrun Hn).
  - intros namespace resource Hns Hr. unfold get. by rewrite Hns, Hr, Hun'.
  - intros namespace prefix children. unfold list_children. rewrite Hun'. by repeat case_match.
  - intros io2 q fp2 Hv. unfold put_with_failpoint, execute. by rewrite Hv, Hun'.
  - intros io2 q fp2 Hv. unfold delete_with_failpoint, execute. by rewrite Hv, Hun'.
  - intros io2. unfold compact, export_backup. by rewrite Hun'.
  - intros io2 b allow. unfold restore_backup. by rewrite Hun'.
Qed.

End theorems.

(** C26: Backups.  Take an export of one running service and restore it, with working
    storage, into another one, opened under the same barrier and with a capacity of
    its own.  A bundle that holds more requests than the target retains is refused as
    corrupt, and an older state is refused unless rollback is allowed; a refusal
    changes nothing.  Otherwise the target then holds exactly the entries, the last
    commit and the request ledger of the source, so duplicates of its requests are
    still recognised, and keeps holding them when it is reopened.  Assumed is that the
    hashes within each of the two runs do not collide. *)
Theorem durable_backup `{B : Barrier, Sh : Sha256} {overhead : N} `{!BarrierLaws B overhead, !Sha256Laws Sh}
    max max' io0 actions s log io b io0' actions' s' log' io' allow :
  lived max io0 actions (Up s) log → DurableService.unresolved s = false → DurableService.export_backup io s = Ok b →
  lived max' io0' actions' (Up s') log' → DurableService.unresolved s' = false → io_works io' → Io.verify io' = Ok tt →
  if (max' <? DurableService.retained_request_count s)%N then
    DurableService.restore_backup io' b allow s' = (s', Err CorruptState)
  else if (DurableService.generation s <? DurableService.generation s')%N && negb allow then
    DurableService.restore_backup io' b allow s' = (s', Err BackupRollbackRejected)
  else ∃ t, DurableService.restore_backup io' b allow s' =
        (t, Ok (mk_restore (DurableService.generation s') (DurableService.generation s) (DurableService.retained_request_count s)))
    ∧ DurableService.snapshot t = DurableService.snapshot s ∧ DurableService.ledger t = DurableService.ledger s
    ∧ ∀ io2, io_works io2 → ∃ d t2, DurableService.reopen io2 max' (DurableService.disk t) = (d, Ok t2)
        ∧ DurableService.snapshot t2 = DurableService.snapshot s ∧ DurableService.ledger t2 = DurableService.ledger s.
Proof.
  intros (_ & h & _ & Hcon)%lived_consistent Hun Hex (Hcap & h' & _ & Hcon')%lived_consistent Hun' Hio Hver.
  pose proof (consistent_running _ _ _ Hcon Hun) as [used Hl]. pose proof (consistent_running _ _ _ Hcon' Hun') as Hrun'.
  pose proof (live_history _ _ _ _ Hl) as Hok. destruct (export_bundle max _ _ _ _ _ Hl Hex) as (sb & jb & lb & Hb).
  unfold DurableService.generation, DurableService.retained_request_count. pose proof Hrun' as [used' Hl'].
  rewrite (lv_snapshot _ _ _ _ Hl), (lv_snapshot _ _ _ _ Hl'), (lv_ledger _ _ _ _ Hl).
  change (Snapshot.generation (snapshot_of h)) with (len h). change (Snapshot.generation (snapshot_of h')) with (len h').
  assert (size (ledger_of h) = length h) as -> by (apply size_of, Hok). fold (len h).
  destruct (N.ltb_spec max' (len h)) as [Hmax|Hmax]; [by eapply restore_too_large|].
  pose proof (restore_any max' Hcap io' s' h' h b sb jb lb allow Hrun' Hok Hmax Hb Hio Hver) as Hre.
  destruct (_ && _); [done|]. destruct Hre as (t & Ht & Hrun). exists t. pose proof Hrun as [u Hlt].
  split_and!; [done|apply (lv_snapshot _ _ _ _ Hlt)|apply (lv_ledger _ _ _ _ Hlt)|].
  intros io2 Hio2. destruct (kept_reopens max' Hcap io2 _ _ (running_kept max' _ _ Hrun) Hio2) as (d & t2 & Hr & [u2 Hl2] & _).
  exists d, t2. split_and!; [done|apply (lv_snapshot _ _ _ _ Hl2)|apply (lv_ledger _ _ _ _ Hl2)].
Qed.

(** * A concrete instance *)

(** A checksum in place of the hash and a barrier that marks a payload with the
    checksum of its context: enough to run the service. *)
Definition toy_sum (bytes : list u8) : list u8 :=
  let pair := be_bytes 2 (foldl (λ a x, (a * 257 + U8.to_N x + 1) mod 65521)%N 7%N bytes) in
  mjoin (repeat pair 16).

#[local] Instance toy_sha256 : Sha256 := toy_sum.

#[local] Instance toy_barrier : Barrier := {|
  seal nonce context plain := match nonce with Some _ => Some (toy_sum context ++ plain) | None => None end;
  open context x := if bool_decide (take 32 x = toy_sum context) then Some (drop 32 x) else None;
|}.

Lemma toy_sum_length bytes : length (toy_sum bytes) = 32.
Proof. done. Qed.

#[local] Instance toy_sha256_laws : Sha256Laws toy_sha256.
Proof. exact toy_sum_length. Qed.

#[local] Instance toy_barrier_laws : BarrierLaws toy_barrier 32.
Proof.
  split.
  - intros [n|] context plain x; [|done]. intros Hx. apply (inj Some) in Hx as <-. cbn [open toy_barrier].
    pose proof (take_app_length (toy_sum context) plain) as Ht. pose proof (drop_app_length (toy_sum context) plain) as Hd.
    rewrite toy_sum_length in Ht, Hd. rewrite Ht, Hd. by rewrite bool_decide_eq_true_2.
  - intros [n|] context plain x; [|done]. intros Hx. apply (inj Some) in Hx as <-. rewrite len_app. unfold len at 1. rewrite toy_sum_length. lia.
  - intros nonce context plain _ _. by eexists.
Qed.

Module DurableToy.
Import DurableService.
Definition io_good : IoTrace := Io.mk (Ok tt) (Ok tt) (Ok tt) (λ _, Done) (λ _, Some (repeat x01 12)).
Definition io_bad (k n : nat) : IoTrace :=
  Io.mk (Ok tt) (Ok tt) (Ok tt) (λ i, if i =? k then Fails n else Done) (λ _, Some (repeat x01 12)).
Definition a_put (id resource value : string) : PutRequest :=
  PutRequest.mk "p" "sys" id resource (repeat x01 32) (String.list_byte_of_string value).
Definition a_delete (id resource : string) : DeleteRequest := DeleteRequest.mk "p" "sys" id resource (repeat x01 32).

Definition blank : t := mk ∅ (Snapshot.mk 0 ∅ None) ∅ ∅ 0 0 0 0 true.
Definition fresh : t := match (create_new io_good 10 ∅).2 with Ok s => s | Err _ => blank end.

(** Two writes, the second torn in its intent; recovery fails once; then a write
    whose snapshot is published and whose commit is lost, recovery, a deletion and a
    compaction. *)
Definition story : list Action :=
  [DoPut io_good (a_put "r1" "state" "one") NoFailpoint;
   DoPut (io_bad 0 9) (a_put "r2" "state" "two") NoFailpoint; DoCrash;
   DoReopen (io_bad 0 0); DoReopen io_good;
   DoPut (io_bad 2 3) (a_put "r3" "other" "three") NoFailpoint; DoCrash; DoReopen io_good;
   DoDelete io_good (a_delete "r4" "state") NoFailpoint; DoCompact io_good].
Definition stage (n : nat) : System * list Told := act_all 10 (take n story) (Up fresh).
Definition at_stage (n : nat) : t := match (stage n).1 with Up s => s | Down _ => blank end.

Lemma io_good_works : io_works io_good.
Proof. split_and!; [done|done|done|]. intros k. by exists (repeat x01 12). Qed.

Ltac run := vm_compute; reflexivity.

(** A reference that recovery aborted is known until the journal is compacted: a
    checkpoint holds committed changes only. *)
Definition after (actions : list Action) : t := match (act_all 10 actions (Up fresh)).1 with Up s => s | Down _ => blank end.
Definition abort_story : list Action := [DoPut (io_bad 1 0) (a_put "r1" "state" "one") NoFailpoint; DoCrash; DoReopen io_good].
Definition aborted_reference : string :=
  match (act_all 10 abort_story (Up fresh)).2 with [Unresolved c] => Change.reference c | _ => "" end.

(** Compaction restarts the sequence, so a retry of an aborted request in the same
    process can be given the reference of its first attempt; the stopped instance
    then still reports that attempt as aborted, although the files hold the change. *)
Definition retry : Action := DoPut (io_bad 2 0) (a_put "r1" "state" "one") NoFailpoint.
Definition retry_story : list Action :=
  [DoCompact io_good; DoPut (io_bad 1 0) (a_put "r1" "state" "one") NoFailpoint; DoCrash; DoReopen io_good; DoCompact io_good; retry].
Definition retried_reference : string :=
  match (act_all 10 retry_story (Up fresh)).2 with [Unresolved c; Unresolved c'] => Change.reference c' | _ => "" end.

Example retried_reference_stale :
  all_admissible 10 retry_story (Up fresh) = true
  ∧ reconcile (after retry_story) retried_reference = StatusAborted
  ∧ reconcile (after (retry_story ++ [DoCrash; DoReopen io_good])) retried_reference = StatusCommitted 1.
Proof. split_and!; run. Qed.

Example compaction_forgets_aborted :
  reconcile (after abort_story) aborted_reference = StatusAborted
  ∧ reconcile (after (abort_story ++ [DoCompact io_good; DoCrash; DoReopen io_good])) aborted_reference = StatusUnknown.
Proof. split; run. Qed.

(** The story is admissible up to any stage, and after two of them the service runs. *)
Lemma story_admissible n : n ∈ [1; 7; 10] → all_admissible 10 (take n story) (Up fresh) = true.
Proof.
  assert (forallb (λ n, all_admissible 10 (take n story) (Up fresh)) [1; 7; 10] = true) as Hall by run.
  rewrite forallb_forall in Hall. intros Hn. by apply Hall, list_elem_of_In.
Qed.

Definition up (sys : System) : bool := match sys with Up s => negb (unresolved s) | Down _ => false end.

Lemma story_up n : n ∈ [1; 10] → (stage n).1 = Up (at_stage n) ∧ unresolved (at_stage n) = false.
Proof.
  assert (forallb (λ n, up (stage n).1) [1; 10] = true) as Hall by run.
  rewrite forallb_forall in Hall. intros Hn%list_elem_of_In. specialize (Hall n Hn). cbv beta in Hall.
  unfold at_stage. destruct (stage n) as [[s|d] log]; [|done]. by apply negb_true_iff in Hall.
Qed.

Lemma story_lived n : n ∈ [1; 7; 10] → lived 10 io_good (take n story) (stage n).1 (stage n).2.
Proof.
  intros Hn. split; [done|]. exists fresh. split_and!; [|by apply story_admissible|apply surjective_pairing].
  assert (is_ok (create_new io_good 10 ∅).2 = true) as Hok by run.
  unfold fresh. by destruct (create_new io_good 10 ∅) as [d [s|e]].
Qed.

Lemma lived_7 : lived 10 io_good (take 7 story) (stage 7).1 (stage 7).2.
Proof. apply story_lived. set_solver. Qed.

Lemma lived_1 : lived 10 io_good (take 1 story) (Up (at_stage 1)) (stage 1).2 ∧ unresolved (at_stage 1) = false.
Proof.
  assert (1 ∈ [1; 10] ∧ 1 ∈ [1; 7; 10]) as [H1 H2] by set_solver.
  destruct (story_up 1 H1) as [<- Hun]. exact (conj (story_lived 1 H2) Hun).
Qed.

Lemma lived_10 : lived 10 io_good (take 10 story) (Up (at_stage 10)) (stage 10).2 ∧ unresolved (at_stage 10) = false.
Proof.
  assert (10 ∈ [1; 10] ∧ 10 ∈ [1; 7; 10]) as [H1 H2] by set_solver.
  destruct (story_up 10 H1) as [<- Hun]. exact (conj (story_lived 10 H2) Hun).
Qed.
End DurableToy.

Import DurableService DurableToy.

(** After a lost commit and a crash, reopening succeeds and keeps what was told. *)
Lemma durable_recovery_witness :
  ∃ d s h, reopen io_good 10 (files (stage 7).1) = (d, Ok s) ∧ resolves (stage 7).2 h ∧ generation s = len h.
Proof.
  destruct (durable_recovery 10 io_good (take 7 story) (stage 7).1 (stage 7).2 io_good) as (d & s & h & Hr & Hres & Hg & _).
  - exact lived_7.
  - exact io_good_works.
  - exact (ex_intro _ d (ex_intro _ s (ex_intro _ h (conj Hr (conj Hres Hg))))).
Defined.

Definition first : Change := match (stage 1).2 with [Acknowledged c] => c | _ => Change.mk (CommitMarker.mk (RequestKey.mk "" "" "") [] "" 0) ("", "") None end.

Lemma durable_exactly_once_witness :
  put_with_failpoint io_good (a_put "r1" "state" "one") NoFailpoint (at_stage 1) =
    (at_stage 1, Ok (Duplicate (Change.generation first) (Change.reference first)))
  ∧ put_with_failpoint io_good (a_put "r1" "state" "two") NoFailpoint (at_stage 1) =
    (at_stage 1, Err RequestBindingConflict).
Proof.
  destruct lived_1 as [Hlived Hun].
  destruct (durable_exactly_once 10 io_good (take 1 story) (at_stage 1) (stage 1).2 first io_good NoFailpoint) as (_ & Hput & _).
  - exact Hlived.
  - exact Hun.
  - assert ((stage 1).2 = [Acknowledged first]) as -> by (vm_compute; reflexivity). apply list_elem_of_here.
  - exact eq_refl.
  - split; rewrite Hput by (vm_compute; reflexivity).
    + rewrite bool_decide_eq_true_2 by (vm_compute; reflexivity). exact eq_refl.
    + rewrite bool_decide_eq_false_2 by (vm_compute; discriminate). exact eq_refl.
Defined.

Lemma durable_definite_witness :
  let '(s', r) := put io_good (a_put "r5" "state" "five") (at_stage 10) in
  unresolved s' = false ∧ ∃ reference, r = Ok (Committed (generation (at_stage 10) + 1) reference).
Proof.
  destruct lived_10 as [Hlived Hun].
  pose proof (durable_definite 10 io_good (take 10 story) (at_stage 10) (stage 10).2 io_good (a_put "r5" "state" "five")) as Hd.
  specialize (Hd Hlived Hun io_good_works ltac:(vm_compute; reflexivity)).
  assert (match (put io_good (a_put "r5" "state" "five") (at_stage 10)).2 with Ok (Committed _ _) => true | _ => false end = true) as Hok
    by (vm_compute; reflexivity).
  destruct (put _ _ _) as [s' r]. destruct Hd as (Hr & [(ref & -> & _)|(_ & Hn)]); [exact (conj Hr (ex_intro _ ref eq_refl))|].
  cbn [snd] in Hok. destruct r as [[g ref|g ref]|]; [destruct (Hn g ref eq_refl)|discriminate Hok|discriminate Hok].
Defined.

Lemma durable_fail_stop_witness :
  let '(s', r) := put_with_failpoint (io_bad 1 3) (a_put "r5" "state" "five") NoFailpoint (at_stage 10) in
  (∃ reference, r = Err (OutcomeUnknown reference) ∧ reconcile s' reference = reconcile (at_stage 10) reference
     ∧ ∀ g, reconcile s' reference ≠ StatusCommitted g)
  ∧ get s' "sys" "state" = Err RecoveryRequired.
Proof.
  destruct lived_10 as [Hlived Hun].
  assert (unresolved (put_with_failpoint (io_bad 1 3) (a_put "r5" "state" "five") NoFailpoint (at_stage 10)).1 = true) as Hrec
    by (vm_compute; reflexivity).
  destruct (put_with_failpoint _ _ _ _) as [s' r] eqn:Hput. cbn [fst] in Hrec.
  pose proof (durable_fail_stop 10 io_good (take 10 story) (at_stage 10) (stage 10).2 (io_bad 1 3) (a_put "r5" "state" "five")
    NoFailpoint s' r) as Hd.
  destruct (Hd Hlived Hun ltac:(vm_compute; reflexivity) Hput Hrec) as (Href & Hget & _).
  exact (conj Href (Hget "sys" "state" ltac:(vm_compute; reflexivity) ltac:(vm_compute; reflexivity))).
Defined.

Definition backup_of (n : nat) : list u8 := match export_backup io_good (at_stage n) with Ok b => b | Err _ => [] end.

Lemma backup_of_ok n : n ∈ [1; 10] → export_backup io_good (at_stage n) = Ok (backup_of n).
Proof.
  assert (forallb (λ n, is_ok (export_backup io_good (at_stage n))) [1; 10] = true) as Hall by run.
  rewrite forallb_forall in Hall. intros Hn%list_elem_of_In. specialize (Hall n Hn). cbv beta in Hall.
  unfold backup_of. by destruct (export_backup io_good (at_stage n)).
Qed.

Lemma backup_1 : export_backup io_good (at_stage 1) = Ok (backup_of 1).
Proof. apply backup_of_ok. set_solver. Qed.
Lemma backup_10 : export_backup io_good (at_stage 10) = Ok (backup_of 10).
Proof. apply backup_of_ok. set_solver. Qed.

(** An older bundle is refused, and a newer one replaces the state. *)
Lemma durable_backup_witness :
  restore_backup io_good (backup_of 1) false (at_stage 10) = (at_stage 10, Err BackupRollbackRejected)
  ∧ ∃ t, restore_backup io_good (backup_of 10) false (at_stage 1) = (t, Ok (mk_restore 1 3 3))
      ∧ snapshot t = snapshot (at_stage 10) ∧ ledger t = ledger (at_stage 10).
Proof.
  destruct lived_1 as [Hlived1 Hun1], lived_10 as [Hlived Hun]. split.
  - pose proof (durable_backup 10 10 io_good (take 1 story) (at_stage 1) (stage 1).2 io_good (backup_of 1)
      io_good (take 10 story) (at_stage 10) (stage 10).2 io_good false) as Hd.
    specialize (Hd Hlived1 Hun1 backup_1 Hlived Hun io_good_works eq_refl).
    assert ((10 <? retained_request_count (at_stage 1))%N = false) as Hroom by run. rewrite Hroom in Hd.
    assert ((generation (at_stage 1) <? generation (at_stage 10))%N && negb false = true) as Hold by run.
    rewrite Hold in Hd. exact Hd.
  - pose proof (durable_backup 10 10 io_good (take 10 story) (at_stage 10) (stage 10).2 io_good (backup_of 10)
      io_good (take 1 story) (at_stage 1) (stage 1).2 io_good false) as Hd.
    specialize (Hd Hlived Hun backup_10 Hlived1 Hun1 io_good_works eq_refl).
    assert ((10 <? retained_request_count (at_stage 10))%N = false) as Hroom by run. rewrite Hroom in Hd.
    assert ((generation (at_stage 10) <? generation (at_stage 1))%N && negb false = false) as Hnew by run.
    rewrite Hnew in Hd. destruct Hd as (t & Ht & Hs & Hl & _). exists t. split; [|exact (conj Hs Hl)].
    assert (generation (at_stage 1) = 1%N) as G1 by run. assert (generation (at_stage 10) = 3%N) as G10 by run.
    assert (retained_request_count (at_stage 10) = 3%N) as R10 by run. rewrite G1, G10, R10 in Ht. exact Ht.
Defined.
