(* ===== verification/Seal.v ===== *)
(** The seal of the running server, [crates/heptabao-server/src/service.rs]: the
    metadata of the wrapped barrier key, key material as operators type it, and the
    collection of shares; and [AeadBarrier] of [crypto.rs] as the barrier of the
    durable service.

    JSON text and base64 are libraries: the classes [Serde] and [Base64]. *)
From Stdlib Require Import Ascii NArith Strings.Byte.
From S2P Require Import Prelude Str Json Gf256 Shamir Bytes Base32 DurableCodec.

(** * Libraries *)

(** [serde_json::to_vec] and [from_slice] of a type with derived instances. *)
Class Serde (A : Type) := {
  to_vec : A → option (list u8);
  from_slice : list u8 → option A;
}.
Class SerdeLaws (A : Type) `{!Serde A} : Prop :=
  from_to_vec (a : A) bytes : to_vec a = Some bytes → from_slice bytes = Some a.

(** The [STANDARD] engine. *)
Class Base64 := {
  b64_encode : list u8 → string;
  b64_decode : string → option (list u8);
}.
Class Base64Laws `{!Base64} : Prop := b64_decode_encode bytes : b64_decode (b64_encode bytes) = Some bytes.

(** * [AeadBarrier] *)

(** A nonce is an array of twelve bytes. *)
Definition nonce_array (nonce : option (list u8)) : option (list u8) :=
  bytes ← nonce; if length bytes =? 12 then Some bytes else None.

#[export] Instance aead_barrier `{Aead} (key : Key) : Barrier := {|
  seal nonce := barrier_seal (nonce_array nonce) key;
  open := barrier_open key;
|}.

(** * Text *)
Definition hex (bytes : list u8) : string := hex_pairs bytes.

(** [u8::from_str_radix(pair, 16)] of each pair of bytes. *)
Fixpoint decode_pairs (value : string) : option (list u8) :=
  match value with
  | EmptyString => Some []
  | String a (String b rest) =>
      n ← hex_pair a b;
      bytes ← decode_pairs rest;
      Some (U8.wrap n :: bytes)
  | String _ EmptyString => Some []
  end.

Definition decode_hex (value : string) : option (list u8) :=
  if negb (String.length value mod 2 =? 0) then None else decode_pairs value.

Definition is_ascii_hexdigit (c : ascii) : bool := is_ascii_digit c || byte_in 65 70 c || byte_in 97 102 c.

Definition valid_nonce (value : string) : bool := (String.length value =? 32) && str_all is_ascii_hexdigit value.
Definition valid_recovery_reference (value : string) : bool :=
  (String.length value =? 32) && str_all is_ascii_hexdigit value.

(** * Seal metadata *)
Definition MAX_SEAL_SHARES : nat := 16.
Definition SEAL_METADATA_LIMIT : N := 64 * 1024.
Definition REKEY_METADATA_LIMIT : N := 96 * 1024.

Definition seal_associated_data (schema generation : N) (share_format : string) (shares threshold : u8) : list u8 :=
  String.list_byte_of_string "heptabao.seal-metadata.v1" ++ [x00] ++ le_bytes 4 schema ++ le_bytes 8 generation
  ++ le_bytes 8 (N.of_nat (String.length share_format)) ++ String.list_byte_of_string share_format ++ [shares; threshold].

Module SealMetadata.
Record t := mk {
  schema : N;
  generation : N;
  share_format : string;
  secret_shares : u8;
  secret_threshold : u8;
  wrapped_barrier_key : string;
}.
#[global] Instance eq_dec : EqDecision t.
Proof. solve_decision. Defined.

Definition validate `{Base64} (self : t) : Result unit string :=
  if negb (schema self =? 1)%N || (generation self =? 0)%N
     || negb (bool_decide (share_format self ∈ ["shamir-v1"; "raw-v1"]))
     || (u8_nat (secret_shares self) =? 0) || (MAX_SEAL_SHARES <? u8_nat (secret_shares self))
     || (u8_nat (secret_threshold self) =? 0) || (u8_nat (secret_shares self) <? u8_nat (secret_threshold self))
     || (bool_decide (share_format self = "raw-v1")
         && (negb (u8_nat (secret_shares self) =? 1) || negb (u8_nat (secret_threshold self) =? 1)))
  then Err "unsupported or invalid seal metadata"
  else
    let? wrapped := ok_or (b64_decode (wrapped_barrier_key self)) "invalid wrapped barrier key encoding" in
    if negb (length wrapped =? 64) then Err "invalid wrapped barrier key size" else Ok tt.

Definition associated_data (self : t) : list u8 :=
  seal_associated_data (schema self) (generation self) (share_format self) (secret_shares self) (secret_threshold self).

Definition set_wrapped (wrapped : string) (self : t) : t :=
  mk (schema self) (generation self) (share_format self) (secret_shares self) (secret_threshold self) wrapped.
End SealMetadata.
Notation SealMetadata := SealMetadata.t.

Module PendingRekeyMetadata.
Record t := mk {
  schema : N;
  active_generation : N;
  nonce : string;
  verification_nonce : string;
  candidate : SealMetadata;
}.
Definition validate_shape `{Base64} (self : t) : Result unit string :=
  if negb (schema self =? 1)%N || negb (valid_nonce (nonce self)) || negb (valid_nonce (verification_nonce self))
     || (active_generation self =? 0)%N
  then Err "unsupported or invalid pending rekey metadata"
  else
    let? next := ok_or (checked_add (active_generation self) 1) "pending rekey generation exhausted" in
    if negb (SealMetadata.generation (candidate self) =? next)%N
       || negb (bool_decide (SealMetadata.share_format (candidate self) = "shamir-v1"))
    then Err "unsupported or invalid pending rekey metadata"
    else SealMetadata.validate (candidate self).
End PendingRekeyMetadata.
Notation PendingRekeyMetadata := PendingRekeyMetadata.t.

(** * Request fields *)
Definition bounded_u8_field (body : Value) (field : string) (default : u8) : Result u8 string :=
  match Json.get body field with
  | None => Ok default
  | Some value =>
      let? value := ok_or (Json.as_u64 value) "share configuration fields must be unsigned integers" in
      if (255 <? value)%N then Err "share configuration field exceeds supported range" else Ok (U8.wrap value)
  end.

Section material.
Context `{Base64}.

Definition decode_key_material (encoded : string) : Result (list u8) string :=
  if bool_decide (encoded = "") || (1024 <? String.length encoded) then Err "invalid bounded key encoding"
  else if (String.length encoded mod 2 =? 0) && str_all is_ascii_hexdigit encoded then
    ok_or (decode_hex encoded) "invalid hexadecimal key encoding"
  else ok_or (b64_decode encoded) "key must be hexadecimal or standard base64".

#[export] Instance SecretShare_eq_dec : EqDecision SecretShare.
Proof. solve_decision. Defined.

(** The collected shares by index. *)
Notation Shares := (gmap N SecretShare).

(** One more share; the key once there are enough. *)
Definition collect_seal_key (sha256 : list u8 → list u8) (seal : SealMetadata) (encoded : string) :
  M Shares string (option (list u8)) := λ provided,
  match decode_key_material encoded with
  | Err e => (provided, Err e)
  | Ok decoded =>
      if bool_decide (SealMetadata.share_format seal = "raw-v1") then
        (provided, if length decoded =? 32 then Ok (Some decoded) else Err "invalid legacy unseal key length")
      else
        match decode sha256 decoded with
        | Err e => (provided, Err e)
        | Ok share =>
            if negb (bool_decide (SecretShare.total share = SealMetadata.secret_shares seal))
               || negb (bool_decide (SecretShare.threshold share = SealMetadata.secret_threshold seal))
            then (provided, Err "Shamir share does not match this seal generation")
            else
              let index := U8.to_N (SecretShare.index share) in
              let threshold := u8_nat (SealMetadata.secret_threshold seal) in
              let finish := λ provided : Shares,
                (provided,
                 if size provided <? threshold then Ok None
                 else map_ok Some (combine_shares (take threshold (btree_values provided)))) in
              match provided !! index with
              | Some existing =>
                  if negb (bool_decide (existing = share)) then (provided, Err "conflicting Shamir share index")
                  else finish provided
              | None => finish (<[index := share]> provided)
              end
        end
  end.
End material.
Notation Shares := (gmap N SecretShare).
