(* ===== verification/Transit.v ===== *)
(** The transit engine, [crates/heptabao-server/src/engines/transit.rs]: named keys
    with versions, encryption, signing, authentication codes, data keys, export,
    hashing and random bytes, single and in batches.

    The ciphers, HMAC, the hash functions and Ed25519 are the class [TransitCrypto],
    JSON text and base64 the classes [Serde] and [Base64], and the draws of a
    request's random generator an argument ([Draws]).  Erasure has no counterpart. *)
From Stdlib Require Import Ascii NArith Strings.Byte.
From S2P Require Import Prelude Str Json Engine Gf256 EngineState DurableCodec Seal.
Import Engine.

Inductive AeadAlgorithm : Type := AES_128_GCM | AES_256_GCM | CHACHA20_POLY1305.
Inductive HashAlgorithm : Type := SHA256 | SHA384 | SHA512.

(** [aead::Algorithm::key_len]. *)
Definition key_len (a : AeadAlgorithm) : nat := match a with AES_128_GCM => 16 | _ => 32 end.

(** * Libraries *)
Class TransitCrypto := {
  (** [LessSafeKey::seal_in_place_append_tag] and [open_in_place]. *)
  aead_seal : AeadAlgorithm → list u8 → list u8 → list u8 → list u8 → option (list u8);
  aead_open : AeadAlgorithm → list u8 → list u8 → list u8 → list u8 → option (list u8);
  mac : HashAlgorithm → list u8 → list u8 → list u8;
  hash_digest : HashAlgorithm → list u8 → list u8;
  KeyPair : Type;
  from_pkcs8 : list u8 → option KeyPair;
  public_key : KeyPair → list u8;
  ed25519_sign : KeyPair → list u8 → list u8;
  ed25519_verify : list u8 → list u8 → list u8 → bool;
}.

(** The tuple [aad] encodes. *)
Notation AadTuple := (string * string * string * string * list u8)%type.

(** The random generator of one request: its [i]-th draw of so many bytes, and its
    [i]-th generated key pair. *)
Record Draws := mk_draws { fill : nat → nat → option (list u8); generate_pkcs8 : nat → option (list u8) }.

(** * Data *)
Module KeyVersion.
Record t := mk { material : string; hmac_material : string; created_at : N; encryptions : N }.
Definition count_encryption (v : t) : t := mk (material v) (hmac_material v) (created_at v) (encryptions v + 1).
End KeyVersion.
Notation KeyVersion := KeyVersion.t.

Module Key.
Record t := mk {
  kind : string;
  latest_version : N;
  min_decryption_version : N;
  min_encryption_version : N;
  deletion_allowed : bool;
  exportable : bool;
  deleted : bool;
  versions : gmap N KeyVersion;
}.
Definition set_min_decryption (n : N) (k : t) : t :=
  mk (kind k) (latest_version k) n (min_encryption_version k) (deletion_allowed k) (exportable k) (deleted k) (versions k).
Definition set_min_encryption (n : N) (k : t) : t :=
  mk (kind k) (latest_version k) (min_decryption_version k) n (deletion_allowed k) (exportable k) (deleted k) (versions k).
Definition set_deletion_allowed (b : bool) (k : t) : t :=
  mk (kind k) (latest_version k) (min_decryption_version k) (min_encryption_version k) b (exportable k) (deleted k) (versions k).
Definition set_exportable (b : bool) (k : t) : t :=
  mk (kind k) (latest_version k) (min_decryption_version k) (min_encryption_version k) (deletion_allowed k) b (deleted k) (versions k).
Definition set_deleted (b : bool) (k : t) : t :=
  mk (kind k) (latest_version k) (min_decryption_version k) (min_encryption_version k) (deletion_allowed k) (exportable k) b (versions k).
Definition set_versions (vs : gmap N KeyVersion) (k : t) : t :=
  mk (kind k) (latest_version k) (min_decryption_version k) (min_encryption_version k) (deletion_allowed k) (exportable k) (deleted k) vs.
Definition set_latest (n : N) (k : t) : t :=
  mk (kind k) n (min_decryption_version k) (min_encryption_version k) (deletion_allowed k) (exportable k) (deleted k) (versions k).
End Key.
Notation Key := Key.t.

Module Transit.
Record t := mk { keys : gmap string Key; disable_upsert : bool }.
Definition default : t := mk ∅ false.
Definition set_keys (ks : gmap string Key) (s : t) : t := mk ks (disable_upsert s).
Definition contains (self : t) (name : string) : bool := bool_decide (is_Some (keys self !! name)).
End Transit.
Notation Transit := Transit.t.

Definition MAX_INPUT_BYTES : N := 4 * 1024 * 1024.
Definition MAX_BATCH : nat := 256.
Definition MAX_ENCRYPTIONS_PER_VERSION : N := N.shiftl 1 32.
Definition MAX_KEY_VERSIONS : N := 10000.

Definition encryption_kind (kind : string) : bool :=
  bool_decide (kind ∈ ["aes128-gcm96"; "aes256-gcm96"; "chacha20-poly1305"]).

(** * Parameters *)
Definition is_some {A} (o : option A) : bool := match o with Some _ => true | None => false end.

(** An optional string parameter. *)
Definition optional_str (body : Value) (field message : string) : EResult (option string) :=
  match Json.get body field with
  | None => Ok None
  | Some v => map_ok Some (ok_or (Json.as_str v) (bad message))
  end.

(** Flags that must be absent or false. *)
Fixpoint reject_features (body : Value) (flags : list string) (message : string) : EResult unit :=
  match flags with
  | [] => Ok tt
  | flag :: flags =>
      let? v := optional_bool body flag in
      if default false v then Err (error 501 message) else reject_features body flags message
  end.

Definition reject_rotation (body : Value) : EResult unit :=
  let? period := match Json.get body "auto_rotate_period" with
                 | None => Ok 0%N
                 | Some v => duration_seconds v
                 end in
  if negb (period =? 0)%N then Err (error 501 "automatic time-based rotation is not implemented") else Ok tt.

Definition FEATURES : list string := ["derived"; "convergent_encryption"; "allow_plaintext_backup"].

Fixpoint reject_nonempty (body : Value) (fields : list string) : EResult unit :=
  match fields with
  | [] => Ok tt
  | field :: fields =>
      match Json.get body field with
      | Some v =>
          if bool_decide (Json.as_str v = Some "") then reject_nonempty body fields
          else Err (error 501 "derived contexts and caller-supplied nonces are not implemented")
      | None => reject_nonempty body fields
      end
  end.

Definition reject_context (body : Value) : EResult unit :=
  let? _ := reject_nonempty body ["context"; "nonce"] in
  reject_features body ["convergent_encryption"] "convergent encryption is not implemented".

Definition select_algorithm (path : string) (body : Value) (field otherwise : string) : EResult string :=
  let? value := optional_str body field "algorithm must be a string" in
  if negb (bool_decide (path = "")) then
    if match value with Some v => negb (bool_decide (v = path)) | None => false end
    then Err (bad "conflicting path and body algorithms") else Ok path
  else Ok (default otherwise value).

Definition aead_algorithm (kind : string) : EResult AeadAlgorithm :=
  if bool_decide (kind = "aes128-gcm96") then Ok AES_128_GCM
  else if bool_decide (kind = "aes256-gcm96") then Ok AES_256_GCM
  else if bool_decide (kind = "chacha20-poly1305") then Ok CHACHA20_POLY1305
  else Err (bad "key type does not support encryption").

(** The three hash functions by name, with the message for any other. *)
Definition hash_algorithm (name message : string) : EResult HashAlgorithm :=
  if bool_decide (name = "sha2-256") then Ok SHA256
  else if bool_decide (name = "sha2-384") then Ok SHA384
  else if bool_decide (name = "sha2-512") then Ok SHA512
  else Err (error 501 message).
Definition hmac_algorithm (name : string) : EResult HashAlgorithm :=
  hash_algorithm name "HMAC algorithm is not implemented".

Section transit.
Context `{TransitCrypto, Base64, Serde AadTuple} (draws : Draws).

Definition random_bytes (i : nat) (count : N) : EResult (list u8) :=
  ok_or (fill draws i (N.to_nat count)) (error 503 "system entropy is unavailable").

Definition decode (value : string) : EResult (list u8) :=
  if (MAX_INPUT_BYTES * 4 / 3 + 4 <? N.of_nat (String.length value))%N
  then Err (error 413 "cryptographic input exceeds the supported size")
  else ok_or (b64_decode value) (bad "invalid base64 input").

Definition decode_field (body : Value) (field : string) : EResult (list u8) :=
  let? text := string_param body field in decode text.

Definition stored_material (value : string) : EResult (list u8) :=
  ok_or (b64_decode value) (error 500 "stored key material is invalid").

(** * Keys *)

(** Draws [i] and [i + 1]. *)
Definition generate (i : nat) (kind : string) (now : N) : EResult KeyVersion :=
  let? material :=
    if bool_decide (kind = "aes128-gcm96") then random_bytes i 16
    else if bool_decide (kind ∈ ["aes256-gcm96"; "chacha20-poly1305"; "hmac"]) then random_bytes i 32
    else if bool_decide (kind = "ed25519") then ok_or (generate_pkcs8 draws i) (error 503 "key generation failed")
    else Err (error 501 "key type is not implemented") in
  let? hmac_material := random_bytes (i + 1) 32 in
  Ok (KeyVersion.mk (b64_encode material) (b64_encode hmac_material) now 0).

Definition new_key (body : Value) (now : N) : EResult Key :=
  let? kind := optional_str body "type" "key type must be a string" in
  let kind := default "aes256-gcm96" kind in
  let? _ := reject_features body FEATURES
    "derived keys, convergent encryption and plaintext backups are not implemented" in
  let? _ := reject_rotation body in
  let? exportable := optional_bool body "exportable" in
  let? version := generate 0 kind now in
  Ok (Key.mk kind 1 1 0 false (default false exportable) false {[1%N := version]}).

Definition version_value (kind : string) (version : KeyVersion) : EResult Value :=
  if bool_decide (kind = "ed25519") then
    let? material := stored_material (KeyVersion.material version) in
    let? keypair := ok_or (from_pkcs8 material) (error 500 "stored signing key is invalid") in
    Ok (Json.object [("creation_time", VString (timestamp (KeyVersion.created_at version)));
                     ("public_key", VString (b64_encode (public_key keypair)))])
  else Ok (Json.u64 (KeyVersion.created_at version)).

Fixpoint version_values (kind : string) (versions : list (N * KeyVersion)) (map : list (string * Value)) :
  EResult (list (string * Value)) :=
  match versions with
  | [] => Ok map
  | (number, version) :: versions =>
      let? value := version_value kind version in
      version_values kind versions (obj_insert (render_u64 number) value map)
  end.

Definition descriptor (self : Key) (name : string) : EResult Value :=
  let kind := Key.kind self in
  let? versions := version_values kind (btree_pairs (Key.versions self)) [] in
  let encryption := encryption_kind kind in
  Ok (Json.object [("name", VString name); ("type", VString kind); ("keys", VObject versions);
    ("latest_version", Json.u64 (Key.latest_version self));
    ("min_decryption_version", Json.u64 (Key.min_decryption_version self));
    ("min_encryption_version", Json.u64 (Key.min_encryption_version self));
    ("deletion_allowed", VBool (Key.deletion_allowed self)); ("exportable", VBool (Key.exportable self));
    ("allow_plaintext_backup", VBool false); ("derived", VBool false); ("convergent_encryption", VBool false);
    ("supports_derivation", VBool false); ("supports_encryption", VBool encryption);
    ("supports_decryption", VBool encryption); ("supports_signing", VBool (bool_decide (kind = "ed25519")));
    ("supports_hmac", VBool true); ("imported_key", VBool false); ("auto_rotate_period", Json.u64 0);
    ("soft_deleted", VBool (Key.deleted self)); ("min_available_version", Json.u64 0)]).

Definition alive (self : Key) : EResult unit :=
  if Key.deleted self then Err (bad "key is soft deleted") else Ok tt.

Definition selected_version (self : Key) (body : Value) : EResult N :=
  let? _ := alive self in
  let? requested := optional_u64 body "key_version" in
  let version := match requested with
                 | Some v => if (v =? 0)%N then Key.latest_version self else v
                 | None => Key.latest_version self
                 end in
  if (version <? N.max (Key.min_encryption_version self) 1)%N || negb (is_some (Key.versions self !! version))
  then Err (bad "key version is unavailable or disallowed by encryption policy")
  else Ok version.

Definition decrypt_version (self : Key) (version : N) : EResult KeyVersion :=
  let? _ := alive self in
  if (version <? Key.min_decryption_version self)%N then Err (bad "key version is disallowed by decryption policy")
  else ok_or (Key.versions self !! version) (bad "key version is unavailable").

Definition configure (body : Value) : M Key EngineError unit :=
  do? _ := mpure (λ _, reject_unknown body ["min_decryption_version"; "min_encryption_version"; "deletion_allowed";
                                           "exportable"; "allow_plaintext_backup"; "auto_rotate_period"]) in
  do? value := mpure (λ _, optional_u64 body "min_decryption_version") in
  (λ self, (match value with Some n => Key.set_min_decryption (N.max n 1) self | None => self end, Ok tt)) ;;?
  do? value := mpure (λ _, optional_u64 body "min_encryption_version") in
  (λ self, (match value with Some n => Key.set_min_encryption n self | None => self end, Ok tt)) ;;?
  (λ self,
     (self,
      if (Key.latest_version self <? Key.min_decryption_version self)%N
         || (Key.latest_version self <? Key.min_encryption_version self)%N
         || (negb (Key.min_encryption_version self =? 0)%N
             && (Key.min_encryption_version self <? Key.min_decryption_version self)%N)
      then Err (bad "minimum key versions are inconsistent or exceed the latest version") else Ok tt)) ;;?
  do? value := mpure (λ _, optional_bool body "deletion_allowed") in
  (λ self, (match value with Some b => Key.set_deletion_allowed b self | None => self end, Ok tt)) ;;?
  do? value := mpure (λ _, optional_bool body "exportable") in
  (λ self, match value with
           | Some b => if Key.exportable self && negb b
                       then (self, Err (bad "exportability cannot be revoked once enabled"))
                       else (Key.set_exportable b self, Ok tt)
           | None => (self, Ok tt)
           end) ;;?
  mpure (λ _, reject_features body ["allow_plaintext_backup"] "plaintext backup is not implemented") ;;?
  mpure (λ _, reject_rotation body).

(** * Operations on one key *)
Definition signing_options (key : Key) (body : Value) (path_algorithm : string) : EResult unit :=
  if negb (bool_decide (Key.kind key = "ed25519")) then Err (bad "key does not support Ed25519 signing")
  else
    let? _ := reject_features body ["prehashed"] "Ed25519ph is not implemented" in
    if is_some (Json.get body "signature_algorithm") || is_some (Json.get body "marshaling_algorithm")
    then Err (error 501 "signature algorithm options are not implemented for Ed25519")
    else
      let? algorithm := select_algorithm path_algorithm body "hash_algorithm" "sha2-256" in
      if negb (bool_decide (algorithm = "sha2-256"))
      then Err (error 501 "explicit hash selection is not implemented for Ed25519") else Ok tt.

Definition aad (namespace mount name : string) (body : Value) : EResult (list u8) :=
  let? associated :=
    match Json.get body "associated_data" with
    | None => Ok []
    | Some v => let? text := ok_or (Json.as_str v) (bad "associated_data must be base64") in decode text
    end in
  ok_or (to_vec ("heptabao-transit-aead-v1", namespace, mount, name, associated))
    (error 500 "associated data encoding failed").

(** [UnboundKey::new]: the material has the length the algorithm asks for. *)
Definition unbound_key (algorithm : AeadAlgorithm) (material : list u8) : EResult unit :=
  if length material =? key_len algorithm then Ok tt else Err (error 500 "stored encryption key is invalid").

Definition wrapped_text (version : N) (bytes : list u8) : string :=
  "vault:v" +:+ render_u64 version +:+ ":" +:+ b64_encode bytes.

(** The nonce is draw [i]. *)
Definition encrypt (i : nat) (namespace mount name : string) (body : Value) (plaintext : list u8) :
  M Key EngineError Value := λ key,
  let r :=
    let? algorithm := aead_algorithm (Key.kind key) in
    let? version_number := selected_version key body in
    let? version := ok_or (Key.versions key !! version_number) not_found in
    if (MAX_ENCRYPTIONS_PER_VERSION <=? KeyVersion.encryptions version)%N
    then Err (bad "key version reached its encryption limit; rotate the key")
    else
      let? material := stored_material (KeyVersion.material version) in
      let? _ := unbound_key algorithm material in
      let? nonce := random_bytes i 12 in
      let? associated := aad namespace mount name body in
      let? ciphertext := ok_or (aead_seal algorithm material nonce associated plaintext) (error 500 "encryption failed") in
      Ok (version_number, version, wrapped_text version_number (nonce ++ ciphertext)) in
  match r with
  | Err e => (key, Err e)
  | Ok (version_number, version, text) =>
      (Key.set_versions (<[version_number := KeyVersion.count_encryption version]> (Key.versions key)) key,
       Ok (Json.object [("ciphertext", VString text); ("key_version", Json.u64 version_number)]))
  end.

Definition parse_wrapped (input : string) : EResult (N * list u8) :=
  let? rest := ok_or (strip_prefix "vault:v" input) (bad "invalid versioned cryptographic value") in
  let? parts := ok_or (split_once ":" rest) (bad "invalid versioned cryptographic value") in
  let '(version, data) := parts in
  if has_prefix "0" version || negb (str_all is_ascii_digit version)
  then Err (bad "invalid cryptographic key version")
  else
    let? version := ok_or (match parse_u64 version with
                           | Some v => if (0 <? v)%N then Some v else None
                           | None => None
                           end) (bad "invalid cryptographic key version") in
    let? bytes := decode data in
    Ok (version, bytes).

Definition decrypt (key : Key) (namespace mount name : string) (body : Value) : EResult (list u8) :=
  let? algorithm := aead_algorithm (Key.kind key) in
  let? text := string_param body "ciphertext" in
  let? wrapped := parse_wrapped text in
  let '(version_number, ciphertext) := wrapped in
  let? version := decrypt_version key version_number in
  if length ciphertext <? 28 then Err (bad "invalid ciphertext")
  else
    let? material := stored_material (KeyVersion.material version) in
    let? _ := unbound_key algorithm material in
    let? associated := aad namespace mount name body in
    ok_or (aead_open algorithm material (take 12 ciphertext) associated (drop 12 ciphertext))
      (bad "ciphertext authentication failed").

Definition allowed_fields (operation : string) : EResult (list string) :=
  if bool_decide (operation = "encrypt") then
    Ok ["plaintext"; "key_version"; "associated_data"; "context"; "nonce"; "type"; "convergent_encryption"; "reference";
        "batch_input"; "partial_failure_response_code"]
  else if bool_decide (operation = "decrypt") then
    Ok ["ciphertext"; "associated_data"; "context"; "nonce"; "reference"; "batch_input"; "partial_failure_response_code"]
  else if bool_decide (operation = "rewrap") then
    Ok ["ciphertext"; "key_version"; "associated_data"; "context"; "nonce"; "reference"; "batch_input";
        "partial_failure_response_code"]
  else if bool_decide (operation = "hmac") then
    Ok ["input"; "key_version"; "algorithm"; "reference"; "batch_input"; "partial_failure_response_code"]
  else if bool_decide (operation = "sign") then
    Ok ["input"; "key_version"; "hash_algorithm"; "context"; "prehashed"; "signature_algorithm"; "marshaling_algorithm";
        "reference"; "batch_input"; "partial_failure_response_code"]
  else if bool_decide (operation = "verify") then
    Ok ["input"; "signature"; "hmac"; "algorithm"; "hash_algorithm"; "context"; "prehashed"; "signature_algorithm";
        "marshaling_algorithm"; "reference"; "batch_input"; "partial_failure_response_code"]
  else Err unsupported.

Definition hmac_data (key : Key) (algorithm : string) (body : Value) : EResult Value :=
  let? version := selected_version key body in
  let? algorithm := select_algorithm algorithm body "algorithm" "sha2-256" in
  let? stored := ok_or (Key.versions key !! version) not_found in
  let? material := stored_material (KeyVersion.hmac_material stored) in
  let? algorithm := hmac_algorithm algorithm in
  let? input := decode_field body "input" in
  Ok (Json.object [("hmac", VString (wrapped_text version (mac algorithm material input)))]).

Definition sign_data (key : Key) (algorithm : string) (body : Value) : EResult Value :=
  let? _ := signing_options key body algorithm in
  let? version := selected_version key body in
  let? stored := ok_or (Key.versions key !! version) not_found in
  let? material := stored_material (KeyVersion.material stored) in
  let? keypair := ok_or (from_pkcs8 material) (error 500 "stored signing key is invalid") in
  let? input := decode_field body "input" in
  Ok (Json.object [("signature", VString (wrapped_text version (ed25519_sign keypair input))); ("key_version", Json.u64 version)]).

(** [hmac::verify] compares the tags. *)
Definition verify_mac (key : Key) (algorithm : string) (body claimed : Value) (input : list u8) : EResult bool :=
  if is_some (Json.get body "signature") then Err (bad "provide exactly one of hmac or signature")
  else
    let? text := ok_or (Json.as_str claimed) (bad "hmac must be a string") in
    let? wrapped := parse_wrapped text in
    let? version := decrypt_version key wrapped.1 in
    let? material := stored_material (KeyVersion.hmac_material version) in
    let? algorithm := select_algorithm algorithm body "algorithm" "sha2-256" in
    let? algorithm := hmac_algorithm algorithm in
    Ok (bool_decide (wrapped.2 = mac algorithm material input)).

Definition verify_signature (key : Key) (algorithm : string) (body : Value) (input : list u8) : EResult bool :=
  let? _ := signing_options key body algorithm in
  let? text := string_param body "signature" in
  let? wrapped := parse_wrapped text in
  let? version := decrypt_version key wrapped.1 in
  let? material := stored_material (KeyVersion.material version) in
  let? keypair := ok_or (from_pkcs8 material) (error 500 "stored signing key is invalid") in
  Ok (ed25519_verify (public_key keypair) input wrapped.2).

Definition verify_data (key : Key) (algorithm : string) (body : Value) : EResult Value :=
  let? input := decode_field body "input" in
  let? valid := match Json.get body "hmac" with
                | Some claimed => verify_mac key algorithm body claimed input
                | None => verify_signature key algorithm body input
                end in
  Ok (Json.object [("valid", VBool valid)]).

(** The operation itself, on a body without a batch. *)
Definition crypto_data (i : nat) (namespace mount name operation algorithm : string) (body : Value) :
  M Key EngineError Value :=
  if bool_decide (operation = "encrypt") then
    do? plaintext := mpure (λ key,
      if match Json.get body "type" with Some v => negb (bool_decide (v = VString (Key.kind key))) | None => false end
      then Err (bad "requested encryption type does not match the key")
      else decode_field body "plaintext") in
    encrypt i namespace mount name body plaintext
  else if bool_decide (operation = "decrypt") then
    do? plaintext := mpure (λ key, decrypt key namespace mount name body) in
    mret (Json.object [("plaintext", VString (b64_encode plaintext))])
  else if bool_decide (operation = "rewrap") then
    do? plaintext := mpure (λ key, decrypt key namespace mount name body) in
    encrypt i namespace mount name body plaintext
  else if bool_decide (operation = "hmac") then mpure (λ key, hmac_data key algorithm body)
  else if bool_decide (operation = "sign") then mpure (λ key, sign_data key algorithm body)
  else if bool_decide (operation = "verify") then mpure (λ key, verify_data key algorithm body)
  else mfail unsupported.

(** The body of one item: the shared parameters without payloads, and the item's own. *)
Definition item_body (body item : Value) : Value :=
  match body with
  | VObject map =>
      let map := foldl (λ m field, obj_remove field m) map
                   ["batch_input"; "partial_failure_response_code"; "input"; "plaintext"; "ciphertext"; "context";
                    "associated_data"; "signature"; "hmac"; "reference"] in
      VObject (match item with
               | VObject fields => foldl (λ m kv, obj_insert kv.1 kv.2 m) map fields
               | _ => map
               end)
  | _ => body
  end.

Definition valid_item (item : Value) : bool :=
  Json.is_object item && negb (is_some (Json.get item "batch_input"))
  && negb (is_some (Json.get item "partial_failure_response_code")).

(** The items in order; [handle_item i body] is the call on item [i]. *)
Section batch.
Variable handle_item : nat → Value → M Key EngineError EngineResponse.

Record Batch := mk_batch { responses : list Value; failed : nat; mutated : bool }.

Definition run_item (i : nat) (body item : Value) (key : Key) (b : Batch) : Key * Batch :=
  let '(candidate, result) :=
    if valid_item item then handle_item i (item_body body item) key
    else (key, Err (bad "batch items must be objects without nested batches")) in
  let labelled value := match Json.get item "reference" with
                        | Some reference => Json.set value "reference" reference
                        | None => value
                        end in
  match result with
  | Ok response =>
      (if EngineResponse.mutated response then candidate else key,
       mk_batch (responses b ++ [labelled (default Null (Json.get (EngineResponse.body response) "data"))]) (failed b)
         (mutated b || EngineResponse.mutated response))
  | Err failure =>
      (key, mk_batch (responses b ++ [labelled (Json.object [("error", VString (EngineError.message failure))])])
              (S (failed b)) (mutated b))
  end.

Fixpoint run_items (i : nat) (body : Value) (items : list Value) (key : Key) (b : Batch) : Key * Batch :=
  match items with
  | [] => (key, b)
  | item :: items =>
      let '(key, b) := run_item i body item key b in
      run_items (S i) body items key b
  end.

Definition handle_batch (i : nat) (body items : Value) : M Key EngineError EngineResponse := λ key,
  match (let? items := ok_or (match Json.as_array items with
                              | Some l => if negb (bool_decide (l = [])) && (length l <=? MAX_BATCH) then Some l else None
                              | None => None
                              end) (bad "batch_input must contain between 1 and 256 items") in
         let? partial_code := optional_u64 body "partial_failure_response_code" in
         let partial_code := default 400%N partial_code in
         if negb ((200 <=? partial_code)%N && (partial_code <=? 599)%N)
         then Err (bad "partial failure response code must be between 200 and 599")
         else Ok (items, partial_code)) with
  | Err e => (key, Err e)
  | Ok (items, partial_code) =>
      let '(key, b) := run_items i body items key (mk_batch [] 0 false) in
      let status := if failed b =? 0 then 200%N
                    else if failed b =? length items then 400%N
                    else partial_code in
      (key, Ok (EngineResponse.mk status
                  (Json.object [("data", Json.object [("batch_results", VArray (responses b))])]) (mutated b)))
  end.
End batch.

(** One level of [handle_crypto]; [recur] is the recursive call on an item. *)
Definition crypto_level (recur : nat → Value → M Key EngineError EngineResponse) (i : nat)
    (namespace mount name operation algorithm : string) (body : Value) : M Key EngineError EngineResponse :=
  do? allowed := mpure (λ _, allowed_fields operation) in
  mpure (λ _, reject_unknown body allowed) ;;?
  match Json.get body "batch_input" with
  | Some items => handle_batch recur i body items
  | None =>
      mpure (λ _, reject_context body) ;;?
      do? data := crypto_data i namespace mount name operation algorithm body in
      mret (ok data (bool_decide (operation = "encrypt") || bool_decide (operation = "rewrap")))
  end.

(** An item carries no batch, so two levels are all there are ([crypto_depth]). *)
Definition handle_crypto (i : nat) (namespace mount name operation algorithm : string) (body : Value) :
  M Key EngineError EngineResponse :=
  crypto_level (λ i body, crypto_level (λ _ _, mfail unsupported) i namespace mount name operation algorithm body)
    i namespace mount name operation algorithm body.

(** * Routes *)
Definition set_key (name : string) (key : Key) (self : Transit) : Transit :=
  Transit.set_keys (<[name := key]> (Transit.keys self)) self.

(** [self.keys.get_mut(name)] and a method on the key. *)
Definition on_key {A} (name : string) (m : M Key EngineError A) : M Transit EngineError A := λ self,
  match Transit.keys self !! name with
  | None => (self, Err not_found)
  | Some key => let '(key, r) := m key in (set_key name key self, r)
  end.

Definition rotate_key (now : N) : M Key EngineError unit := λ key,
  match (let? _ := alive key in
         if (MAX_KEY_VERSIONS <=? N.of_nat (size (Key.versions key)))%N then Err (bad "key version retention limit reached")
         else
           let? next := ok_or (checked_add (Key.latest_version key) 1) (bad "key version limit reached") in
           let? version := generate 0 (Key.kind key) now in
           Ok (next, version)) with
  | Err e => (key, Err e)
  | Ok (next, version) =>
      (Key.set_latest next (Key.set_versions (<[next := version]> (Key.versions key)) key), Ok tt)
  end.

(** [keys/<name>] of a key that exists: nothing may change. *)
Definition same_key (key : Key) (name : string) (body : Value) : EResult EngineResponse :=
  if match Json.get body "type" with Some v => negb (bool_decide (v = VString (Key.kind key))) | None => false end
  then Err (bad "key already exists with a different immutable type")
  else
    let? _ := reject_features body FEATURES "requested key feature is not implemented" in
    let? exportable := optional_bool body "exportable" in
    if match exportable with Some b => negb (eqb b (Key.exportable key)) | None => false end
    then Err (bad "use the key config endpoint to change exportability")
    else
      let? _ := reject_rotation body in
      let? value := descriptor key name in
      Ok (ok value false).

Definition create_key (name : string) (body : Value) (now : N) : M Transit EngineError EngineResponse := λ self,
  match reject_unknown body ["type"; "derived"; "convergent_encryption"; "exportable"; "allow_plaintext_backup";
                             "auto_rotate_period"] with
  | Err e => (self, Err e)
  | Ok _ =>
      match Transit.keys self !! name with
      | Some key => (self, same_key key name body)
      | None =>
          match new_key body now with
          | Err e => (self, Err e)
          | Ok key => (set_key name key self, map_ok (λ value, ok value true) (descriptor key name))
          end
      end
  end.

Definition delete_key (name : string) : M Transit EngineError EngineResponse := λ self,
  match Transit.keys self !! name with
  | None => (self, Ok (empty false))
  | Some key =>
      if negb (Key.deletion_allowed key)
      then (self, Err (bad "key deletion is disabled; explicitly enable deletion_allowed first"))
      else (Transit.set_keys (delete name (Transit.keys self)) self, Ok (empty true))
  end.

Definition key_operation (name operation : string) (body : Value) (now : N) : M Key EngineError EngineResponse :=
  if bool_decide (operation = "config") then configure body ;;? mret (empty true)
  else if bool_decide (operation = "rotate") then
    mpure (λ _, reject_unknown body []) ;;? rotate_key now ;;?
    do? value := mpure (λ key, descriptor key name) in
    mret (ok value true)
  else if bool_decide (operation = "soft-delete") then
    mpure (λ _, reject_unknown body []) ;;? (λ key, (Key.set_deleted true key, Ok (empty true)))
  else if bool_decide (operation = "soft-delete-restore") then
    mpure (λ _, reject_unknown body []) ;;? (λ key, (Key.set_deleted false key, Ok (empty true)))
  else mfail (error 404 "unknown or unsupported transit key operation").

Definition handle_key (method rest : string) (body : Value) (now : N) : M Transit EngineError EngineResponse :=
  let '(name, operation) := default (rest, "") (split_once "/" rest) in
  mpure (λ _, valid_path name) ;;?
  if bool_decide (operation = "") then
    if bool_decide (method = "GET") then
      mpure (λ self, let? key := ok_or (Transit.keys self !! name) not_found in
                     let? value := descriptor key name in
                     Ok (ok value false))
    else if bool_decide (method = "DELETE") then delete_key name
    else if negb (write_method method) then mfail unsupported
    else create_key name body now
  else if negb (write_method method) && negb (bool_decide (operation = "soft-delete") && bool_decide (method = "DELETE"))
  then mfail unsupported
  else on_key name (key_operation name operation body now).

(** The version an export asks for. *)
Definition export_selection (key : Key) (part : option string) : EResult (option N) :=
  match part with
  | None => Ok None
  | Some version =>
      if bool_decide (version = "latest") then Ok (Some (Key.latest_version key))
      else map_ok Some (ok_or (parse_u64 version) (bad "invalid key version"))
  end.

Definition exported_versions (key : Key) (kind : string) (selected : option N) : list (string * Value) :=
  omap (λ '(version, value),
          if (Key.min_decryption_version key <=? version)%N
             && match selected with None => true | Some number => (version =? number)%N end
          then Some (render_u64 version,
                     VString (if bool_decide (kind = "hmac-key") then KeyVersion.hmac_material value
                              else KeyVersion.material value))
          else None) (btree_pairs (Key.versions key)).

Definition export (self : Transit) (method rest : string) : EResult EngineResponse :=
  if negb (bool_decide (method = "GET")) then Err unsupported
  else
    let? parts := match split "/" rest with
                  | [kind; name] => Ok (kind, name, None)
                  | [kind; name; version] => Ok (kind, name, Some version)
                  | _ => Err (bad "invalid key export path")
                  end in
    let '(kind, name, part) := parts in
    let? key := ok_or (Transit.keys self !! name) not_found in
    let? _ := alive key in
    if negb (Key.exportable key) then Err (error 403 "key is not exportable")
    else if negb (bool_decide (kind = "hmac-key"))
            && negb (bool_decide (kind = "encryption-key") && encryption_kind (Key.kind key))
    then Err (error 501 "requested key export format is not implemented")
    else
      let? selected := export_selection key part in
      let? _ := match selected with
                | Some version => map_ok (λ _, tt) (decrypt_version key version)
                | None => Ok tt
                end in
      Ok (ok (Json.object [("name", VString name); ("type", VString (Key.kind key));
                           ("keys", Json.object (exported_versions key kind selected))]) false).

(** Draw 0 is the data key, draw 1 the nonce. *)
Definition datakey (namespace mount rest : string) (body : Value) : M Transit EngineError EngineResponse :=
  do? (mode, name, bits) := mpure (λ _,
    let? _ := reject_unknown body ["bits"; "key_version"; "associated_data"; "context"; "nonce"] in
    let? parts := ok_or (split_once "/" rest) (bad "data key path requires mode and key name") in
    let '(mode, name) := parts in
    if negb (bool_decide (mode ∈ ["plaintext"; "wrapped"])) then Err (bad "data key mode must be plaintext or wrapped")
    else
      let? _ := valid_path name in
      if str_contains "/" name then Err (bad "transit key names cannot contain path separators")
      else
        let? _ := reject_context body in
        let? bits := optional_u64 body "bits" in
        let bits := default 256%N bits in
        if negb (bool_decide (bits ∈ [128; 256; 512]%N)) then Err (bad "data key bits must be 128, 256 or 512")
        else Ok (mode, name, bits)) in
  do? plaintext := mpure (λ _, random_bytes 0 (bits / 8)) in
  do? data := on_key name (encrypt 1 namespace mount name body plaintext) in
  mret (ok (if bool_decide (mode = "plaintext") then Json.set data "plaintext" (VString (b64_encode plaintext)) else data)
          true).

Definition encoded (bytes : list u8) (format : string) : EResult string :=
  if bool_decide (format = "base64") then Ok (b64_encode bytes)
  else if bool_decide (format = "hex") then Ok (hex bytes)
  else Err (bad "output format must be hex or base64").

(** The source and the byte count of [random]. *)
Definition random_path (path source : string) (count : N) : EResult (string * N) :=
  if bool_decide (path = "") then Ok (source, count)
  else match split "/" path with
  | [part] =>
      if str_all is_ascii_digit part then
        let? count := ok_or (parse_u64 part) (bad "invalid byte count") in Ok (source, count)
      else Ok (part, count)
  | [selected; bytes] =>
      let? count := ok_or (parse_u64 bytes) (bad "invalid byte count") in Ok (selected, count)
  | _ => Err (bad "invalid random endpoint path")
  end.

Definition random (path : string) (body : Value) : EResult EngineResponse :=
  let? _ := reject_unknown body ["bytes"; "source"; "format"] in
  let? count := optional_u64 body "bytes" in
  let? source := optional_str body "source" "random source must be a string" in
  let? selected := random_path path (default "platform" source) (default 32%N count) in
  let '(source, count) := selected in
  if negb (bool_decide (source ∈ ["platform"; "all"])) then Err (error 501 "external entropy source is not implemented")
  else if negb ((1 <=? count)%N && (count <=? MAX_INPUT_BYTES)%N)
  then Err (bad "random byte count is outside supported bounds")
  else
    let? format := optional_str body "format" "format must be a string" in
    let? bytes := random_bytes 0 count in
    let? text := encoded bytes (default "base64" format) in
    Ok (ok (Json.object [("random_bytes", VString text)]) false).

Definition hash (path : string) (body : Value) : EResult EngineResponse :=
  let? _ := reject_unknown body ["input"; "algorithm"; "format"] in
  let? name := select_algorithm path body "algorithm" "sha2-256" in
  let? algorithm := hash_algorithm name "hash algorithm is not implemented" in
  let? input := decode_field body "input" in
  let? format := optional_str body "format" "format must be a string" in
  let? text := encoded (hash_digest algorithm input) (default "hex" format) in
  Ok (ok (Json.object [("sum", VString text)]) false).

Definition config_keys (method : string) (body : Value) : M Transit EngineError EngineResponse := λ self,
  if bool_decide (method = "GET")
  then (self, Ok (ok (Json.object [("disable_upsert", VBool (Transit.disable_upsert self))]) false))
  else match (if negb (write_method method) then Err unsupported
              else
                let? _ := reject_unknown body ["disable_upsert"] in
                let? value := optional_bool body "disable_upsert" in
                ok_or value (bad "disable_upsert is required")) with
  | Err e => (self, Err e)
  | Ok b => (Transit.mk (Transit.keys self) b, Ok (empty true))
  end.

(** A key that [encrypt] finds missing is created with draws 0 and 1; the operation
    draws from 2 on. *)
Definition use_key (namespace mount operation rest : string) (body : Value) (now : N) :
  M Transit EngineError EngineResponse :=
  let '(name, algorithm) := default (rest, "") (split_once "/" rest) in
  mpure (λ _, valid_path name) ;;?
  mpure (λ _, if negb (bool_decide (algorithm = "")) && negb (bool_decide (operation ∈ ["hmac"; "sign"; "verify"]))
              then Err (bad "unexpected transit path suffix") else Ok tt) ;;?
  (λ self,
     if bool_decide (operation = "encrypt") && negb (Transit.contains self name) then
       match (if Transit.disable_upsert self then Err (bad "key does not exist and upsert is disabled")
              else let? _ := reject_context body in new_key body now) with
       | Err e => (self, Err e)
       | Ok key => (set_key name key self, Ok tt)
       end
     else (self, Ok tt)) ;;?
  on_key name (mpure alive ;;? handle_crypto 2 namespace mount name operation algorithm body).

Definition handle (namespace mount method path : string) (body : Value) (now : N) :
  M Transit EngineError EngineResponse :=
  if bool_decide (path = "config/keys") then config_keys method body
  else if bool_decide (path = "keys") || bool_decide (path = "keys/") then
    mpure (λ self,
      if negb (bool_decide (method = "LIST")) then Err unsupported
      else
        let? keys := list_keys (btree_keys (Transit.keys self)) "" false body in
        if bool_decide (keys = []) then Err not_found
        else Ok (ok (Json.object [("keys", VArray (VString <$> keys))]) false))
  else match strip_prefix "keys/" path with
  | Some rest => handle_key method rest body now
  | None =>
      match strip_prefix "export/" path with
      | Some rest => mpure (λ self, export self method rest)
      | None =>
          let '(operation, rest) := default (path, "") (split_once "/" path) in
          if negb (write_method method) then mfail unsupported
          else if bool_decide (operation = "random") then mpure (λ _, random rest body)
          else if bool_decide (operation = "hash") then mpure (λ _, hash rest body)
          else if bool_decide (operation ∈ ["encrypt"; "decrypt"; "rewrap"; "hmac"; "sign"; "verify"])
          then use_key namespace mount operation rest body now
          else if bool_decide (operation = "datakey") then datakey namespace mount rest body
          else mfail (error 404 "unknown or unsupported transit operation")
      end
  end.

(** The transit engine as a backend of the engine front end. *)
#[export] Instance transit_ops : EngineOps Transit := {|
  engine_default := Transit.default;
  engine_contains := Transit.contains;
  engine_handle := handle;
|}.
End transit.
