(* ===== verification/TransitSpec.v ===== *)
(** What the transit engine keeps of its keys, and that what it encrypts, signs and
    authenticates stays usable. *)
From Stdlib Require Import Ascii NArith Strings.Byte.
From S2P Require Import Prelude Str Json Engine Gf256 EngineState DurableCodec Seal Transit.
Import Engine.

(** The next call of a successful sequence of fallible calls. *)
Tactic Notation "step_ok" hyp(E) "as" ident(H) :=
  match type of E with (match ?x with Ok _ => _ | Err _ => _ end) = Ok _ => destruct x eqn:H; [|discriminate E] end.
Tactic Notation "step_ok" hyp(E) := let H := fresh "Hok" in step_ok E as H.

(** * The invariant of a key, and what no request may change *)
Record key_inv (k : Key) : Prop := {
  ki_range : (1 ≤ Key.latest_version k)%N;
  ki_versions n : is_Some (Key.versions k !! n) ↔ (1 ≤ n ≤ Key.latest_version k)%N;
  ki_retained : (Key.latest_version k ≤ MAX_KEY_VERSIONS)%N;
  ki_decryption : (1 ≤ Key.min_decryption_version k ≤ Key.latest_version k)%N;
  ki_encryption : Key.min_encryption_version k = 0%N ∨
    (Key.min_decryption_version k ≤ Key.min_encryption_version k ≤ Key.latest_version k)%N;
  ki_limit n v : Key.versions k !! n = Some v → (KeyVersion.encryptions v ≤ MAX_ENCRYPTIONS_PER_VERSION)%N;
}.

(** The same secret, used at least as often. *)
Record version_evolves (v v' : KeyVersion) : Prop := {
  ve_material : KeyVersion.material v' = KeyVersion.material v;
  ve_hmac : KeyVersion.hmac_material v' = KeyVersion.hmac_material v;
  ve_created : KeyVersion.created_at v' = KeyVersion.created_at v;
  ve_encryptions : (KeyVersion.encryptions v ≤ KeyVersion.encryptions v')%N;
}.

Record key_evolves (k k' : Key) : Prop := {
  ke_kind : Key.kind k' = Key.kind k;
  ke_latest : (Key.latest_version k ≤ Key.latest_version k')%N;
  ke_exportable : Key.exportable k = true → Key.exportable k' = true;
  ke_versions n v : Key.versions k !! n = Some v → ∃ v', Key.versions k' !! n = Some v' ∧ version_evolves v v';
}.

#[export] Instance version_evolves_preorder : PreOrder version_evolves.
Proof.
  split; [by intros v; split|]. intros v1 v2 v3 [] []. split; [congruence..|lia].
Qed.

#[export] Instance key_evolves_preorder : PreOrder key_evolves.
Proof.
  split; [intros k; split; [done..|]; intros n v Hv; by exists v|]. intros k1 k2 k3 H1 H2. split.
  - by rewrite (ke_kind _ _ H2), (ke_kind _ _ H1).
  - etrans; [apply (ke_latest _ _ H1)|apply (ke_latest _ _ H2)].
  - intros ?. by apply (ke_exportable _ _ H2), (ke_exportable _ _ H1).
  - intros n v (v' & Hv & E)%(ke_versions _ _ H1). apply (ke_versions _ _ H2) in Hv as (v'' & Hv & E').
    exists v''. split; [done|]. by etrans.
Qed.

Lemma size_versions {V} (m : gmap N V) (r : N) : (∀ n, is_Some (m !! n) ↔ (1 ≤ n ≤ r)%N) → size m = N.to_nat r.
Proof.
  intros Hk. rewrite <-(size_dom (D := gset N) m). unfold size, set_size. simpl.
  transitivity (length (N.of_nat <$> seq 1 (N.to_nat r))); [|by rewrite length_fmap, length_seq].
  apply Permutation_length, NoDup_Permutation.
  - apply NoDup_elements.
  - apply NoDup_fmap; [apply _|apply NoDup_seq].
  - intros n. rewrite elem_of_elements, elem_of_dom, Hk, list_elem_of_fmap. split.
    + intros Hn. exists (N.to_nat n). split; [lia|]. apply elem_of_seq. lia.
    + intros (i & -> & Hi%elem_of_seq). lia.
Qed.

Section keys.
Context `{TC : TransitCrypto, B64 : Base64, SA : Serde AadTuple}.

(** A successful call keeps the invariant and the secrets. *)
Class Keeps {A} (m : M Key EngineError A) : Prop :=
  keeps_ok k k' a : m k = (k', Ok a) → key_inv k → key_inv k' ∧ key_evolves k k'.

#[export] Instance keeps_bind {A B} (m : M Key EngineError A) (f : A → M Key EngineError B) :
  Keeps m → (∀ a, Keeps (f a)) → Keeps (mbind m f).
Proof.
  intros Hm Hf k k' b. unfold mbind. destruct (m k) as [k1 [a|e]] eqn:E; [|done]. intros Hb Hk.
  destruct (Hm _ _ _ E Hk) as [H1 V1]. destruct (Hf a _ _ _ Hb H1) as [H2 V2]. split; [done|]. by etrans.
Qed.
#[export] Instance keeps_pure {A} (f : Key → EResult A) : Keeps (mpure f).
Proof. intros k k' a [= <- _] Hk. done. Qed.
#[export] Instance keeps_ret {A} (a : A) : Keeps (mret a).
Proof. intros k k' b [= <- _] Hk. done. Qed.
#[export] Instance keeps_fail {A} e : Keeps (mfail e : M Key EngineError A).
Proof. intros k k' a [=]. Qed.

Lemma encrypt_Ok draws i ns mt name body p k k' r :
  encrypt draws i ns mt name body p k = (k', Ok r) →
  ∃ alg n v material nonce ad c,
    aead_algorithm (Key.kind k) = Ok alg ∧ selected_version k body = Ok n ∧ Key.versions k !! n = Some v ∧
    (KeyVersion.encryptions v < MAX_ENCRYPTIONS_PER_VERSION)%N ∧
    b64_decode (KeyVersion.material v) = Some material ∧ length material = key_len alg ∧
    fill draws i 12 = Some nonce ∧ aad ns mt name body = Ok ad ∧ aead_seal alg material nonce ad p = Some c ∧
    k' = Key.set_versions (<[n := KeyVersion.count_encryption v]> (Key.versions k)) k ∧
    r = Json.object [("ciphertext", VString (wrapped_text n (nonce ++ c))); ("key_version", Json.u64 n)].
Proof.
  unfold encrypt. destruct (aead_algorithm _) as [alg|] eqn:Ea; [|done]. simpl.
  destruct (selected_version k body) as [n|] eqn:En; [|done]. simpl.
  destruct (Key.versions k !! n) as [v|] eqn:Ev; [|done]. simpl. destruct (N.leb_spec MAX_ENCRYPTIONS_PER_VERSION (KeyVersion.encryptions v)) as [|Hl]; [done|].
  unfold stored_material. destruct (b64_decode _) as [material|] eqn:Em; [|done]. simpl.
  unfold unbound_key. destruct (Nat.eqb_spec (length material) (key_len alg)) as [Hlen|]; [|done]. simpl.
  unfold random_bytes. change (N.to_nat 12) with 12. destruct (fill draws i 12) as [nonce|] eqn:Ef; [|done]. simpl.
  destruct (aad ns mt name body) as [ad|] eqn:Ead; [|done]. simpl.
  destruct (aead_seal alg material nonce ad p) as [c|] eqn:Ec; [|done]. simpl. intros [= <- <-].
  exists alg, n, v, material, nonce, ad, c. done.
Qed.

Lemma count_encryption_evolves v : version_evolves v (KeyVersion.count_encryption v).
Proof. split; simpl; try done. lia. Qed.

#[export] Instance keeps_encrypt draws i ns mt name body p : Keeps (encrypt draws i ns mt name body p).
Proof.
  intros k k' r (alg & n & v & _ & _ & _ & _ & _ & _ & Hv & Hl & _ & _ & _ & _ & _ & -> & _)%encrypt_Ok Hk.
  destruct Hk as [Hr Hvs Hret Hd He Hlim]. split; split; simpl; try done.
  - intros m. rewrite <-Hvs. destruct (decide (m = n)) as [->|]; [by rewrite lookup_insert_eq, Hv|by rewrite lookup_insert_ne].
  - intros m w [[<- <-]|[_ Hw]]%lookup_insert_Some; [simpl; lia|eauto].
  - intros m w Hw. destruct (decide (m = n)) as [->|].
    + rewrite lookup_insert_eq. eexists. split; [done|]. simplify_eq. apply count_encryption_evolves.
    + rewrite lookup_insert_ne by done. by exists w.
Qed.

#[export] Instance keeps_crypto_data draws i ns mt name op alg body : Keeps (crypto_data draws i ns mt name op alg body).
Proof. unfold crypto_data. repeat case_bool_decide; apply _. Qed.

Lemma run_items_keeps recur i body items k b k' b' :
  (∀ i v, Keeps (recur i v)) → run_items recur i body items k b = (k', b') → key_inv k → key_inv k' ∧ key_evolves k k'.
Proof.
  intros Hrec. revert i k b. induction items as [|item items IH]; intros i k b; simpl; [by intros [= <- _]|].
  destruct (run_item recur i body item k b) as [k1 b1] eqn:E1. intros E Hk.
  assert (key_inv k1 ∧ key_evolves k k1) as [H1 V1].
  { unfold run_item in E1. destruct (valid_item item); [|by simplify_eq].
    destruct (recur _ _ k) as [c [resp|e]] eqn:Er; [|by simplify_eq].
    destruct (EngineResponse.mutated resp); simplify_eq; [|done]. exact (Hrec _ _ _ _ _ Er Hk). }
  destruct (IH _ _ _ E H1) as [H2 V2]. split; [done|]. by etrans.
Qed.

#[export] Instance keeps_level draws recur i ns mt name op alg body :
  (∀ i v, Keeps (recur i v)) → Keeps (crypto_level draws recur i ns mt name op alg body).
Proof.
  intros Hrec. unfold crypto_level. apply keeps_bind; [apply _|intros allowed]. apply keeps_bind; [apply _|intros _].
  destruct (Json.get body "batch_input") as [items|]; [|apply _].
  intros k k' r. unfold handle_batch. destruct (let? _ := _ in _) as [[l code]|]; [|done].
  destruct (run_items _ _ _ _ _ _) as [k1 b1] eqn:E. intros [= <- _]. exact (run_items_keeps _ _ _ _ _ _ _ _ Hrec E).
Qed.

#[export] Instance keeps_handle_crypto draws i ns mt name op alg body : Keeps (handle_crypto draws i ns mt name op alg body).
Proof. unfold handle_crypto. apply _. Qed.

(** The checks of [configure] are those of the invariant. *)
#[export] Instance keeps_configure body : Keeps (configure body).
Proof.
  intros k k' []. unfold configure. intros E [Hr Hvs Hret Hd He Hlim].
  run_in E; repeat match goal with H : (_ || _)%bool = false |- _ => apply orb_false_iff in H as [? ?] end.
  all: split; split; simpl in *; try done.
  all: try (intros m w Hw; by exists w).
  all: try match goal with H : Key.exportable _ && negb ?b = false |- _ → ?b = true => intros Hx; rewrite Hx in H; by destruct b end.
  all: repeat match goal with
    | H : (_ <? _)%N = false |- _ => apply N.ltb_ge in H
    | H : negb (_ =? _)%N && _ = false |- _ => apply andb_false_iff in H as [H%negb_false_iff%N.eqb_eq|H]
    end; lia.
Qed.

Lemma generate_Ok draws i kind now v : generate draws i kind now = Ok v → KeyVersion.encryptions v = 0%N.
Proof.
  unfold generate. intros E. repeat (case_bool_decide || case_match || simplify_eq/=); try done.
Qed.

#[export] Instance keeps_rotate draws now : Keeps (rotate_key draws now).
Proof.
  intros k k' []. unfold rotate_key. destruct (alive k); [|done]. simpl.
  destruct (N.leb_spec MAX_KEY_VERSIONS (N.of_nat (size (Key.versions k)))) as [|Hsz]; [done|].
  unfold checked_add. destruct (N.leb_spec (Key.latest_version k + 1) U64_MAX); [|done]. simpl.
  destruct (generate draws 0 (Key.kind k) now) as [v|] eqn:Ev; [|done]. simpl. intros [= <-] [Hr Hvs Hret Hd He Hlim].
  rewrite (size_versions _ _ Hvs) in Hsz. split; split; simpl; try done; try lia.
  - intros n. destruct (decide (n = Key.latest_version k + 1)%N) as [->|].
    + rewrite lookup_insert_eq. split; [lia|by eexists].
    + rewrite lookup_insert_ne, Hvs by done. lia.
  - intros n w [[_ <-]|[_ Hw]]%lookup_insert_Some; [by rewrite (generate_Ok _ _ _ _ _ Ev)|eauto].
  - intros n w Hw. exists w. split; [|done]. rewrite lookup_insert_ne; [done|]. intros <-.
    assert (is_Some (Key.versions k !! (Key.latest_version k + 1)%N)) as ?%Hvs by (by exists w). lia.
Qed.

#[export] Instance keeps_set_deleted b : Keeps (λ key, (Key.set_deleted b key, Ok (empty true))).
Proof.
  intros k k' r [= <- _] [Hr Hvs Hret Hd He Hlim]. split; split; simpl; try done. intros n v Hv. by exists v.
Qed.

#[export] Instance keeps_operation draws name op body now : Keeps (key_operation draws name op body now).
Proof. unfold key_operation. repeat case_bool_decide; apply _. Qed.

Lemma new_key_inv draws body now k : new_key draws body now = Ok k → key_inv k.
Proof.
  unfold new_key. intros E. step_ok E. step_ok E. step_ok E. step_ok E. step_ok E as Ev. injection E as <-.
  split; simpl; try lia.
  - intros n. destruct (decide (n = 1%N)) as [->|]; [by rewrite lookup_singleton_eq|]. rewrite lookup_singleton_ne by done.
    split; [by intros [? ?]|lia].
  - done.
  - intros n w [<- <-]%lookup_singleton_Some. by rewrite (generate_Ok _ _ _ _ _ Ev).
Qed.
End keys.

(** * The engine *)
Section engine.
Context `{TC : TransitCrypto, B64 : Base64, SA : Serde AadTuple}.

Definition transit_inv (s : Transit) : Prop := map_Forall (λ _ k, key_inv k) (Transit.keys s).

(** Every key evolves, except those that are removed. *)
Definition keys_evolve (removed : string → Prop) (s s' : Transit) : Prop :=
  ∀ name k, Transit.keys s !! name = Some k → removed name ∨ ∃ k', Transit.keys s' !! name = Some k' ∧ key_evolves k k'.

Class KeepsAll {A} (removed : string → Prop) (m : M Transit EngineError A) : Prop :=
  keeps_all s s' a : m s = (s', Ok a) → transit_inv s → transit_inv s' ∧ keys_evolve removed s s'.

Lemma keys_evolve_refl removed s : keys_evolve removed s s.
Proof. intros name k Hk. right. by exists k. Qed.

Lemma keys_evolve_trans removed s1 s2 s3 : keys_evolve removed s1 s2 → keys_evolve removed s2 s3 → keys_evolve removed s1 s3.
Proof.
  intros H1 H2 name k [?|(k' & Hk & E)]%H1; [by left|]. apply H2 in Hk as [?|(k'' & Hk & E')]; [by left|].
  right. exists k''. split; [done|]. by etrans.
Qed.

#[export] Instance all_bind {A B} removed (m : M Transit EngineError A) (f : A → M Transit EngineError B) :
  KeepsAll removed m → (∀ a, KeepsAll removed (f a)) → KeepsAll removed (mbind m f).
Proof.
  intros Hm Hf s s' b. unfold mbind. destruct (m s) as [s1 [a|e]] eqn:E; [|done]. intros Hb Hs.
  destruct (Hm _ _ _ E Hs) as [H1 V1]. destruct (Hf a _ _ _ Hb H1) as [H2 V2]. split; [done|].
  by eapply keys_evolve_trans.
Qed.
#[export] Instance all_pure {A} removed (f : Transit → EResult A) : KeepsAll removed (mpure f).
Proof. intros s s' a [= <- _] Hs. split; [done|]. apply keys_evolve_refl. Qed.
#[export] Instance all_ret {A} removed (a : A) : KeepsAll removed (mret a).
Proof. intros s s' b [= <- _] Hs. split; [done|]. apply keys_evolve_refl. Qed.
#[export] Instance all_fail {A} removed e : KeepsAll removed (mfail e : M Transit EngineError A).
Proof. intros s s' a [=]. Qed.

Lemma set_key_keeps removed name k s :
  key_inv k → (∀ k0, Transit.keys s !! name = Some k0 → key_evolves k0 k) → transit_inv s →
  transit_inv (set_key name k s) ∧ keys_evolve removed s (set_key name k s).
Proof.
  intros Hk Hev Hs. split; [by apply map_Forall_insert_2|]. intros n k0 Hn. right. simpl.
  destruct (decide (n = name)) as [->|]; [rewrite lookup_insert_eq; eauto|].
  rewrite lookup_insert_ne by done. by exists k0.
Qed.

#[export] Instance all_on_key {A} removed name (m : M Key EngineError A) : Keeps m → KeepsAll removed (on_key name m).
Proof.
  intros Hm s s' a. unfold on_key. destruct (Transit.keys s !! name) as [k|] eqn:Ek; [|done].
  destruct (m k) as [k' r] eqn:Em. intros [= <- ->] Hs. destruct (Hm _ _ _ Em (Hs _ _ Ek)) as [Hk Hev].
  apply set_key_keeps; [done| |done]. intros k0 ?. by simplify_eq.
Qed.

#[export] Instance all_create draws removed name body now : KeepsAll removed (create_key draws name body now).
Proof.
  intros s s' r. unfold create_key. destruct (reject_unknown _ _); [|done].
  destruct (Transit.keys s !! name) as [k|] eqn:Ek.
  - intros [= <- _] Hs. split; [done|]. apply keys_evolve_refl.
  - destruct (new_key draws body now) as [k|] eqn:En; [|done]. intros [= <- _] Hs.
    apply set_key_keeps; [by eapply new_key_inv| |done]. intros k0 ?. congruence.
Qed.

#[export] Instance all_delete removed name : removed name → KeepsAll removed (delete_key name).
Proof.
  intros Hr s s' r. unfold delete_key. destruct (Transit.keys s !! name) as [k|] eqn:Ek.
  - destruct (negb _); [done|]. intros [= <- _] Hs. split; [by apply map_Forall_delete|]. intros n k0 Hn. simpl.
    destruct (decide (n = name)) as [->|]; [by left|]. right. rewrite lookup_delete_ne by done. by exists k0.
  - intros [= <- _] Hs. split; [done|]. apply keys_evolve_refl.
Qed.

#[export] Instance all_config removed method body : KeepsAll removed (config_keys method body).
Proof.
  intros s s' r. unfold config_keys. case_bool_decide.
  - intros [= <- _] Hs. split; [done|]. apply keys_evolve_refl.
  - match goal with |- context [match ?x with Ok _ => _ | Err _ => _ end] => destruct x end; [|done]. intros [= <- _] Hs. split; [done|]. intros n k Hn. right. by exists k.
Qed.

#[export] Instance all_datakey draws removed ns mt rest body : KeepsAll removed (datakey draws ns mt rest body).
Proof. unfold datakey. apply all_bind; [apply _|intros [[mode name] bits]]. apply _. Qed.

#[export] Instance all_use_key draws removed ns mt op rest body now : KeepsAll removed (use_key draws ns mt op rest body now).
Proof.
  unfold use_key. destruct (default (rest, "") _) as [name alg]. apply all_bind; [apply _|intros _]. apply all_bind; [apply _|intros _].
  apply all_bind; [|intros _; apply _]. intros s s' []. destruct (_ && _) eqn:Ec.
  - destruct (if Transit.disable_upsert s then _ else _) as [k|e] eqn:En; [|done]. intros [= <-] Hs.
    destruct (Transit.disable_upsert s); [done|]. step_ok En. apply set_key_keeps; [by eapply new_key_inv| |done].
    intros k0 Hk0. apply andb_true_iff in Ec as [_ Ec]. unfold Transit.contains in Ec. rewrite Hk0 in Ec.
    by rewrite bool_decide_true in Ec.
  - intros [= <-] Hs. split; [done|]. apply keys_evolve_refl.
Qed.

(** The one request that removes a key. *)
Definition deletes (method path name : string) : Prop :=
  method = "DELETE" ∧ (path = "keys/" +:+ name ∨ path = "keys/" +:+ name +:+ "/").

#[export] Instance all_handle draws ns mt method path body now :
  KeepsAll (deletes method path) (handle draws ns mt method path body now).
Proof.
  unfold handle. case_bool_decide; [apply _|]. destruct (_ || _); [apply _|].
  destruct (strip_prefix "keys/" path) as [rest|] eqn:Ek.
  - apply strip_prefix_Some in Ek as ->. unfold handle_key.
    destruct (split_once "/" rest) as [[name op]|] eqn:Es; simpl.
    + apply split_once_Some in Es as [-> _]. apply all_bind; [apply _|intros _]. case_bool_decide as Hop; [|destruct (_ && _); apply _].
      subst op. case_bool_decide; [apply _|]. case_bool_decide as Hm; [|destruct (negb _); apply _].
      subst method. apply all_delete. split; [done|]. by right.
    + apply all_bind; [apply _|intros _]. 
      case_bool_decide; [apply _|]. case_bool_decide as Hm; [|destruct (negb _); apply _].
      subst method. apply all_delete. split; [done|]. by left.
  - destruct (strip_prefix "export/" path); [apply _|]. destruct (default (path, "") _) as [op rest].
    destruct (negb _); [apply _|]. repeat (case_bool_decide; [apply _|]). apply _.
Qed.
End engine.
