(* ===== verification/TransitTheorems.v ===== *)
(** What the transit engine promises over any history of requests. *)
From Stdlib Require Import Ascii NArith Strings.Byte.
From S2P Require Import Prelude Str Json Engine Gf256 EngineState DurableCodec Seal Transit TransitSpec.
Import Engine.

(** * Laws of the libraries *)

(** Documented behaviour: opening with the same key, nonce and associated data
    recovers the plaintext, sealing adds a tag, a signature verifies, and signatures
    and authentication codes have 64 bytes at most. *)
Class TransitLaws `(TC : TransitCrypto) : Prop := {
  transit_open_seal alg key nonce ad p c : aead_seal alg key nonce ad p = Some c → aead_open alg key nonce ad c = Some p;
  transit_seal_length alg key nonce ad p c : aead_seal alg key nonce ad p = Some c → length c = length p + 16;
  transit_sign_verify keypair m : ed25519_verify (public_key keypair) m (ed25519_sign keypair m) = true;
  transit_sign_length keypair m : length (ed25519_sign keypair m) = 64;
  transit_mac_length alg key m : length (mac alg key m) ≤ 64;
}.

(** Padded base64 has four characters for every three bytes begun. *)
Class Base64Size `(B64 : Base64) : Prop := b64_size bytes : String.length (b64_encode bytes) = 4 * ((length bytes + 2) / 3).

(** * Versioned values *)
Lemma render_digits_head fuel n acc :
  (0 < n < 10 ^ N.of_nat fuel)%N → ∃ d rest, (0 < d < 10)%N ∧ render_digits fuel n acc = String (digit d) rest.
Proof.
  revert n acc. induction fuel as [|fuel IH]; intros n acc [Hpos Hn]; [change (10 ^ N.of_nat 0)%N with 1%N in Hn; lia|].
  cbn [render_digits]. destruct (N.ltb_spec n 10).
  - eexists _, _. split; [|done]. rewrite N.mod_small; lia.
  - apply IH. split; [apply N.div_str_pos; lia|]. apply N.Div0.div_lt_upper_bound.
    by rewrite <-N.pow_succ_r', <-Nat2N.inj_succ.
Qed.

Lemma render_lacks_colon n : lacks ":" (render_u64 n).
Proof.
  unfold lacks. eapply str_all_impl; [|apply render_u64_all]. intros a Ha. rewrite negb_True, bool_decide_spec. intros ->. done.
Qed.

Section versioned.
Context `{TC : TransitCrypto, B64 : Base64, !Base64Laws, !Base64Size B64}.

(** The size limit is on the encoded form: it admits two bytes more than the limit. *)
Definition too_large : EngineError := error 413 "cryptographic input exceeds the supported size".

Lemma decode_encode bytes :
  decode (b64_encode bytes) = if (N.of_nat (length bytes) <=? MAX_INPUT_BYTES + 2)%N then Ok bytes else Err too_large.
Proof.
  unfold decode. rewrite b64_size, b64_decode_encode. change (MAX_INPUT_BYTES * 4 / 3 + 4)%N with 5592409%N.
  change (MAX_INPUT_BYTES + 2)%N with 4194306%N. pose proof (Nat.div_mod_eq (length bytes + 2) 3).
  pose proof (Nat.mod_upper_bound (length bytes + 2) 3 ltac:(done)).
  destruct (N.leb_spec (N.of_nat (length bytes)) 4194306); [rewrite (proj2 (N.ltb_ge _ _)) by lia|rewrite (proj2 (N.ltb_lt _ _)) by lia]; done.
Qed.

Lemma parse_wrapped_any n bytes :
  (1 ≤ n ≤ U64_MAX)%N →
  parse_wrapped (wrapped_text n bytes) =
    if (N.of_nat (length bytes) <=? MAX_INPUT_BYTES + 2)%N then Ok (n, bytes) else Err too_large.
Proof.
  intros [Hpos Hn]. unfold parse_wrapped, wrapped_text. rewrite strip_prefix_app. cbn [ok_or].
  change (":" +:+ b64_encode bytes) with (String ":" (b64_encode bytes)).
  rewrite (split_once_app ":" (render_u64 n) (b64_encode bytes) (render_lacks_colon n)). cbn [ok_or].
  assert (has_prefix "0" (render_u64 n) = false) as ->.
  { unfold has_prefix. apply bool_decide_eq_false_2. intros [r Hr%strip_prefix_Some].
    destruct (render_digits_head 20 n "") as (d & rest & Hd & E); [split; [lia|by apply u64_fuel]|].
    unfold render_u64 in Hr. rewrite E in Hr. injection Hr as Hr _. pose proof (N_of_digit d ltac:(lia)) as Hc.
    rewrite Hr in Hc. change (N_of_ascii "0") with 48%N in Hc. lia. }
  pose proof (render_u64_all n) as Hall. destruct (str_all _ (render_u64 n)); [|done]. simpl orb. cbn match.
  rewrite parse_render by done. rewrite (proj2 (N.ltb_lt _ _)) by lia. cbn [ok_or]. rewrite decode_encode.
  by destruct (_ <=? _)%N.
Qed.

Lemma parse_wrapped_text n bytes :
  (1 ≤ n ≤ U64_MAX)%N → (N.of_nat (length bytes) ≤ MAX_INPUT_BYTES)%N → parse_wrapped (wrapped_text n bytes) = Ok (n, bytes).
Proof. intros Hn Hl. rewrite parse_wrapped_any, (proj2 (N.leb_le _ _)) by (done || lia). done. Qed.
End versioned.

(** * Histories *)
Record TransitReq := treq {
  tr_draws : Draws; tr_namespace : string; tr_mount : string; tr_method : string; tr_path : string; tr_body : Value; tr_now : N;
}.

(** The draws of the random generator have the length asked for. *)
Definition draws_ok (d : Draws) : Prop := ∀ i n bytes, fill d i n = Some bytes → length bytes = n.

Lemma split_once_None c s : lacks c s → split_once c s = None.
Proof.
  unfold lacks. induction s as [|a s IH]; simpl; [done|]. rewrite andb_True, negb_True, bool_decide_spec. intros [Hne Hs].
  rewrite decide_False by done. by rewrite IH.
Qed.

Section history.
Context `{TC : TransitCrypto, B64 : Base64, SA : Serde AadTuple}.

(** A request as the engine front end commits it: only successful changes stay. *)
Definition transit_exec (o : TransitReq) (s : Transit) : Transit :=
  match handle (tr_draws o) (tr_namespace o) (tr_mount o) (tr_method o) (tr_path o) (tr_body o) (tr_now o) s with
  | (s', Ok r) => if EngineResponse.mutated r then s' else s
  | (_, Err _) => s
  end.

Lemma transit_exec_keeps o s :
  transit_inv s → transit_inv (transit_exec o s) ∧ keys_evolve (deletes (tr_method o) (tr_path o)) s (transit_exec o s).
Proof.
  intros Hs. unfold transit_exec. destruct (handle _ _ _ _ _ _ _ s) as [s' [r|e]] eqn:E; [|split; [done|apply keys_evolve_refl]].
  destruct (EngineResponse.mutated r); [|split; [done|apply keys_evolve_refl]]. exact (all_handle _ _ _ _ _ _ _ _ _ _ E Hs).
Qed.

Lemma transit_default_inv : transit_inv Transit.default.
Proof. apply map_Forall_empty. Qed.

Lemma transit_run_keeps ops s :
  transit_inv s → transit_inv (run transit_exec ops s) ∧
  keys_evolve (λ name, Exists (λ o, deletes (tr_method o) (tr_path o) name) ops) s (run transit_exec ops s).
Proof.
  revert s. induction ops as [|o ops IH]; intros s Hs; simpl; [split; [done|apply keys_evolve_refl]|].
  destruct (transit_exec_keeps o s Hs) as [H1 V1]. destruct (IH _ H1) as [H2 V2]. split; [done|].
  intros name k Hk. apply V1 in Hk as [?|(k1 & Hk1 & E1)]; [left; by left|].
  apply V2 in Hk1 as [?|(k2 & Hk2 & E2)]; [left; by right|]. right. exists k2. split; [done|]. by etrans.
Qed.

(** * One operation on one key *)
Definition OPERATIONS : list string := ["encrypt"; "decrypt"; "rewrap"; "hmac"; "sign"; "verify"].

Lemma handle_operation d ns mt method op name body now :
  op ∈ OPERATIONS → write_method method = true →
  handle d ns mt method (op +:+ "/" +:+ name) body now = use_key d ns mt op name body now.
Proof.
  intros Hop Hm. unfold OPERATIONS in Hop. repeat (apply elem_of_cons in Hop as [->|Hop]; [|]); [..|by apply not_elem_of_nil in Hop].
  all: unfold handle; rewrite Hm; repeat (case_bool_decide; [done|]).
  all: reflexivity.
Qed.

(** The key an operation works on: the stored one, or one [encrypt] creates. *)
Lemma use_key_Ok d ns mt op name body now s s' r :
  lacks "/" name → transit_inv s → use_key d ns mt op name body now s = (s', Ok r) →
  valid_path name = Ok tt ∧ ∃ k k', key_inv k ∧ (Transit.keys s !! name = Some k ∨ op = "encrypt") ∧ Key.deleted k = false ∧
    handle_crypto d 2 ns mt name op "" body k = (k', Ok r) ∧ Transit.keys s' !! name = Some k'.
Proof.
  intros Hl Hs. unfold use_key. rewrite (split_once_None "/" name Hl). cbn [default from_option].
  unfold mbind at 1. cbn [mpure]. destruct (valid_path name) as [[]|] eqn:Ev; [|done].
  unfold mbind at 1. cbn [mpure]. rewrite (bool_decide_true ("" = "")) by done. cbn [negb andb].
  unfold mbind at 1. intros E. split; [done|].
  assert (∃ s1 k, transit_inv s1 ∧ (Transit.keys s !! name = Some k ∨ op = "encrypt") ∧ Transit.keys s1 !! name = Some k ∧
    on_key name (mpure alive;;? handle_crypto d 2 ns mt name op "" body) s1 = (s', Ok r)) as (s1 & k & H1 & Hor & Hk & E1).
  { destruct (bool_decide (op = "encrypt") && negb (Transit.contains s name)) eqn:Ec.
    - destruct (Transit.disable_upsert s); [done|]. destruct (reject_context body); [|done].
      destruct (new_key d body now) as [k|] eqn:En; [|done]. apply andb_true_iff in Ec as [?%bool_decide_eq_true Hc].
      eexists _, k. split; [|split; [by right|split; [|exact E]]]; [|by apply lookup_insert_eq].
      by apply map_Forall_insert_2; [eapply new_key_inv|].
    - unfold on_key in E at 1. destruct (Transit.keys s !! name) as [k|] eqn:Ek; [|done]. exists s, k.
      split_and!; [done|by left|done|]. unfold on_key. by rewrite Ek. }
  unfold on_key in E1. rewrite Hk in E1. destruct (mbind _ _ k) as [k' r'] eqn:Em. injection E1 as <- ->.
  unfold mbind, mpure, alive in Em. destruct (Key.deleted k) eqn:Ed; [done|].
  exists k, k'. split_and!; [by apply (H1 name)|done|done|done|]. by apply lookup_insert_eq.
Qed.

(** Without a batch the operation answers with its data. *)
Lemma crypto_single d i ns mt name op alg body k k' r :
  Json.get body "batch_input" = None → handle_crypto d i ns mt name op alg body k = (k', Ok r) →
  ∃ data, crypto_data d i ns mt name op alg body k = (k', Ok data) ∧ EngineResponse.body r = Json.object [("data", data)] ∧
    EngineResponse.mutated r = bool_decide (op = "encrypt") || bool_decide (op = "rewrap").
Proof.
  intros Hb. unfold handle_crypto, crypto_level. unfold mbind at 1. cbn [mpure]. destruct (allowed_fields op); [|done].
  unfold mbind at 1. cbn [mpure]. destruct (reject_unknown _ _); [|done]. rewrite Hb.
  unfold mbind at 1. cbn [mpure]. destruct (reject_context body); [|done].
  unfold mbind. destruct (crypto_data _ _ _ _ _ _ _ _ k) as [k1 [data|]]; [|done]. intros [= <- <-]. by exists data.
Qed.

(** What [decrypt] needs of the body it is given. *)
Lemma aad_ext ns mt name body body' :
  Json.get body' "associated_data" = Json.get body "associated_data" → aad ns mt name body' = aad ns mt name body.
Proof. unfold aad. by intros ->. Qed.

Lemma selected_version_Ok k body n :
  selected_version k body = Ok n → Key.deleted k = false ∧ (1 ≤ n)%N ∧ is_Some (Key.versions k !! n).
Proof.
  unfold selected_version, alive. destruct (Key.deleted k); [done|]. intros E. step_ok E. destruct (_ || _) eqn:Eo in E; [done|].
  injection E as <-. apply orb_false_iff in Eo as [?%N.ltb_ge Hs%negb_false_iff]. split_and!; [done|lia|].
  by destruct (Key.versions k !! _).
Qed.

Context `{!Base64Laws, !Base64Size B64, !TransitLaws TC}.

(** A ciphertext opens under every later state of its key that still allows its version. *)
Lemma decrypt_later d i ns mt name body p k k1 r k2 :
  encrypt d i ns mt name body p k = (k1, Ok r) → key_inv k → key_evolves k1 k2 → draws_ok d →
  ∃ n text, r = Json.object [("ciphertext", VString text); ("key_version", Json.u64 n)] ∧
    ∀ body', Key.deleted k2 = false → (Key.min_decryption_version k2 ≤ n)%N →
      string_param body' "ciphertext" = Ok text → Json.get body' "associated_data" = Json.get body "associated_data" →
      decrypt k2 ns mt name body' =
        if (N.of_nat (length p) + 28 <=? MAX_INPUT_BYTES + 2)%N then Ok p else Err too_large.
Proof.
  intros (alg & n & v & material & nonce & ad & c & Halg & Hsel & Hv & _ & Hm & Hlen & Hf & Had & Hseal & -> & ->)%encrypt_Ok Hk Hev Hd.
  apply selected_version_Ok in Hsel as (_ & Hn & Hsome). apply (ki_versions _ Hk) in Hsome as [_ Hle].
  exists n, (wrapped_text n (nonce ++ c)). split; [done|]. intros body' Hal Hmin Htext Hassoc.
  destruct (ke_versions _ _ Hev n (KeyVersion.count_encryption v)) as (v2 & Hv2 & Ev); [by apply lookup_insert_eq|].
  pose proof (transit_seal_length _ _ _ _ _ _ Hseal) as Hc. pose proof (Hd _ _ _ Hf) as Hnl.
  pose proof (ki_retained _ Hk). unfold MAX_KEY_VERSIONS, U64_MAX in *.
  unfold decrypt. rewrite (ke_kind _ _ Hev). cbn [Key.kind Key.set_versions]. rewrite Halg, Htext.
  rewrite parse_wrapped_any by (unfold U64_MAX; lia). rewrite length_app, Hnl, Hc.
  replace (N.of_nat (12 + (length p + 16))) with (N.of_nat (length p) + 28)%N by lia. destruct (_ <=? _)%N; [|done].
  unfold decrypt_version, alive. rewrite Hal. rewrite (proj2 (N.ltb_ge _ _)) by done. rewrite Hv2. cbn [ok_or].
  rewrite (proj2 (Nat.ltb_ge _ _)) by (rewrite length_app; lia).
  unfold stored_material. rewrite (ve_material _ _ Ev). cbn [KeyVersion.material KeyVersion.count_encryption]. rewrite Hm. cbn [ok_or].
  unfold unbound_key. rewrite (proj2 (Nat.eqb_eq _ _) Hlen), (aad_ext _ _ _ _ _ Hassoc), Had.
  rewrite take_app_length', drop_app_length' by done. by rewrite (transit_open_seal _ _ _ _ _ _ Hseal).
Qed.

(** The request that decrypts [text], with the associated data of an earlier one. *)
Definition decrypt_request (text : string) (body : Value) : Value :=
  Json.object (("ciphertext", VString text) ::
    match Json.get body "associated_data" with Some v => [("associated_data", v)] | None => [] end).

Definition ciphertext_of (r : EngineResponse) : option (string * N) :=
  data ← Json.get (EngineResponse.body r) "data";
  text ← Json.get data "ciphertext" ≫= Json.as_str;
  version ← Json.get data "key_version" ≫= Json.as_u64;
  Some (text, version).

Lemma decrypt_request_handled d ns mt method name text body now s k :
  write_method method = true → lacks "/" name → valid_path name = Ok tt → Transit.keys s !! name = Some k →
  Key.deleted k = false →
  handle d ns mt method ("decrypt/" +:+ name) (decrypt_request text body) now s =
    (s, let? p := decrypt k ns mt name (decrypt_request text body) in
        Ok (ok (Json.object [("plaintext", VString (b64_encode p))]) false)).
Proof.
  intros Hm Hl Hv Hk Hal. change ("decrypt/" +:+ name) with ("decrypt" +:+ "/" +:+ name).
  rewrite handle_operation by (done || set_solver). unfold use_key. rewrite (split_once_None "/" name Hl). cbn [default from_option].
  unfold mbind, mpure. rewrite Hv. rewrite (bool_decide_true ("" = "")) by done. cbn [negb andb].
  rewrite (bool_decide_false ("decrypt" = "encrypt")) by done. cbn [andb]. unfold on_key. rewrite Hk. unfold alive. rewrite Hal.
  assert (E : handle_crypto d 2 ns mt name "decrypt" "" (decrypt_request text body) k =
    (k, let? p := decrypt k ns mt name (decrypt_request text body) in
        Ok (ok (Json.object [("plaintext", VString (b64_encode p))]) false))).
  { unfold handle_crypto, crypto_level, mbind, mpure.
    assert (Hu : ∃ l, allowed_fields "decrypt" = Ok l ∧ reject_unknown (decrypt_request text body) l = Ok tt).
    { eexists. split; [reflexivity|]. unfold decrypt_request. destruct (Json.get body _); vm_compute; reflexivity. }
    destruct Hu as (l & -> & ->).
    assert (Json.get (decrypt_request text body) "batch_input" = None) as ->.
    { unfold decrypt_request. destruct (Json.get body _); vm_compute; reflexivity. }
    assert (reject_context (decrypt_request text body) = Ok tt) as ->.
    { unfold decrypt_request. destruct (Json.get body _); vm_compute; reflexivity. }
    unfold crypto_data. rewrite bool_decide_false, bool_decide_true by done. unfold mbind, mpure.
    by destruct (decrypt k ns mt name _). }
  rewrite E. f_equal. unfold set_key, Transit.set_keys. rewrite insert_id by done. by destruct s.
Qed.

(** C12: What the engine encrypts it decrypts.  Take any history of requests and a
    successful [encrypt] of a plaintext, or [rewrap] of a ciphertext of it.  After
    any further requests that do not delete the key, decrypting the returned
    ciphertext with the same associated data answers the plaintext, as long as the
    key is not soft-deleted and its configuration allows the version; except that the
    ciphertext of a plaintext of more than 4 MiB less 26 bytes, which [encrypt]
    accepts, exceeds the size limit of [decrypt], and the answer is 413.  The request
    is a single one (no batch), on a key whose name has no slash, and random draws
    have the length asked for. *)
Theorem transit_decrypts ops d ns mt method op name body now p s1 r ops' :
  let s := run transit_exec ops Transit.default in
  draws_ok d → lacks "/" name → write_method method = true → Json.get body "batch_input" = None →
  (op = "encrypt" ∧ decode_field body "plaintext" = Ok p
   ∨ op = "rewrap" ∧ ∃ k, Transit.keys s !! name = Some k ∧ decrypt k ns mt name body = Ok p) →
  handle d ns mt method (op +:+ "/" +:+ name) body now s = (s1, Ok r) →
  Forall (λ o, ¬ deletes (tr_method o) (tr_path o) name) ops' →
  let s2 := run transit_exec ops' s1 in
  ∃ text n k, ciphertext_of r = Some (text, n) ∧ Transit.keys s2 !! name = Some k ∧
    ∀ d' method' now', Key.deleted k = false → (Key.min_decryption_version k ≤ n)%N → write_method method' = true →
      handle d' ns mt method' ("decrypt/" +:+ name) (decrypt_request text body) now' s2 =
        (s2, if (N.of_nat (length p) + 28 <=? MAX_INPUT_BYTES + 2)%N
             then Ok (ok (Json.object [("plaintext", VString (b64_encode p))]) false) else Err too_large).
Proof.
  intros s Hd Hl Hm Hb Hop Hh Hnd s2.
  assert (Hs : transit_inv s) by (apply transit_run_keeps, transit_default_inv).
  assert (Hs1 : transit_inv s1) by (apply (all_handle _ _ _ _ _ _ _ _ _ _ Hh Hs)).
  rewrite handle_operation in Hh; [|destruct Hop as [[-> _]|[-> _]]; set_solver|done].
  destruct (use_key_Ok _ _ _ _ _ _ _ _ _ _ Hl Hs Hh) as (Hv & k & k1 & Hk & Hor & Hal & Hcr & Hk1).
  destruct (crypto_single _ _ _ _ _ _ _ _ _ _ _ Hb Hcr) as (data & Hdata & Hbody & _).
  assert (Henc : encrypt d 2 ns mt name body p k = (k1, Ok data)).
  { unfold crypto_data in Hdata. destruct Hop as [[-> Hpl]|[-> (k0 & Hk0 & Hdec)]].
    - rewrite bool_decide_true in Hdata by done. unfold mbind, mpure in Hdata. destruct (match _ with Some _ => _ | None => _ end); [done|].
      by rewrite Hpl in Hdata.
    - rewrite !bool_decide_false, bool_decide_true in Hdata by done. destruct Hor as [Hk0'|]; [|done]. simplify_eq.
      unfold mbind, mpure in Hdata. by rewrite Hdec in Hdata. }
  destruct (proj2 (transit_run_keeps ops' s1 Hs1) name k1 Hk1) as [Hex|(k2 & Hk2 & Hev)].
  { apply Exists_exists in Hex as (o & Ho & Hdel). rewrite Forall_forall in Hnd. by destruct (Hnd o Ho). }
  destruct (decrypt_later _ _ _ _ _ _ _ _ _ _ k2 Henc Hk Hev Hd) as (n & text & -> & Hdec).
  exists text, n, k2. split; [unfold ciphertext_of; by rewrite Hbody|]. split; [done|].
  intros d' method' now' Hal2 Hmin Hm'. rewrite (decrypt_request_handled _ _ _ _ _ _ _ _ _ k2) by done.
  rewrite Hdec; [by destruct (_ <=? _)%N|done|done|..];
    unfold decrypt_request; destruct (Json.get body "associated_data"); vm_compute; reflexivity.
Qed.

(** C13: Keys keep their secrets.  Over any history of requests a key that is not
    deleted stays, well-formed: its versions are exactly 1 to the latest, at most ten
    thousand, its minimum versions lie among them, and no version has encrypted more
    than 2^32 times; and its type, the material of its versions and an enabled
    exportability never change. *)
Theorem transit_keys_persist ops ops' name k :
  let s := run transit_exec ops Transit.default in
  Transit.keys s !! name = Some k → Forall (λ o, ¬ deletes (tr_method o) (tr_path o) name) ops' →
  ∃ k', Transit.keys (run transit_exec ops' s) !! name = Some k' ∧ key_inv k' ∧ key_evolves k k'.
Proof.
  intros s Hk Hnd. assert (Hs : transit_inv s) by (apply transit_run_keeps, transit_default_inv).
  destruct (transit_run_keeps ops' s Hs) as [Hs' Hev]. destruct (Hev name k Hk) as [Hex|(k' & Hk' & E)].
  - apply Exists_exists in Hex as (o & Ho & Hdel). rewrite Forall_forall in Hnd. by destruct (Hnd o Ho).
  - exists k'. split; [done|]. split; [|done]. by apply (Hs' name).
Qed.

(** * Batches *)

(** The draws from the [j]-th on. *)
Definition shift (j : nat) (d : Draws) : Draws := mk_draws (λ i, fill d (i + j)) (λ i, generate_pkcs8 d (i + j)).

(** The items of a batch as requests of their own. *)
Fixpoint item_requests (j : nat) (d : Draws) (ns mt method path : string) (body : Value) (now : N) (items : list Value) :
  list TransitReq :=
  match items with
  | [] => []
  | item :: items => treq (shift j d) ns mt method path (item_body body item) now :: item_requests (S j) d ns mt method path body now items
  end.

Definition transit_answer (o : TransitReq) (s : Transit) : EResult EngineResponse :=
  (handle (tr_draws o) (tr_namespace o) (tr_mount o) (tr_method o) (tr_path o) (tr_body o) (tr_now o) s).2.

Fixpoint transit_answers (ops : list TransitReq) (s : Transit) : list (EResult EngineResponse) :=
  match ops with
  | [] => []
  | o :: ops => transit_answer o s :: transit_answers ops (transit_exec o s)
  end.

(** The entry of a batch for the answer to one item. *)
Definition item_result (item : Value) (answer : EResult EngineResponse) : Value :=
  let value := match answer with
               | Ok r => default Null (Json.get (EngineResponse.body r) "data")
               | Err e => Json.object [("error", VString (EngineError.message e))]
               end in
  match Json.get item "reference" with Some reference => Json.set value "reference" reference | None => value end.

Lemma obj_removes_sorted {V} fields (m : list (string * V)) :
  obj_sorted m → obj_sorted (foldl (λ m field, obj_remove field m) m fields).
Proof. revert m. induction fields as [|f fields IH]; intros m Hm; simpl; [done|]. by apply IH, obj_remove_sorted. Qed.

Lemma obj_removes_get {V} fields (m : list (string * V)) f :
  obj_sorted m → f ∈ fields → obj_get f (foldl (λ m field, obj_remove field m) m fields) = None.
Proof.
  revert m. induction fields as [|g fields IH]; intros m Hm Hf; [by apply not_elem_of_nil in Hf|]. simpl.
  destruct (decide (f ∈ fields)); [apply IH; [by apply obj_remove_sorted|done]|].
  apply elem_of_cons in Hf as [->|]; [|done].
  assert (Hg : obj_get g (obj_remove g m) = None) by (by rewrite obj_get_remove, decide_True).
  assert (Hs : obj_sorted (obj_remove g m)) by (by apply obj_remove_sorted).
  revert Hg Hs. generalize (obj_remove g m). clear -n. induction fields as [|h fields IH]; intros m Hg Hs; simpl; [done|].
  apply IH; [set_solver| |by apply obj_remove_sorted]. rewrite obj_get_remove by done. by case_decide.
Qed.

Lemma obj_inserts_get {V} (fields m : list (string * V)) f :
  obj_get f fields = None → obj_get f (foldl (λ m kv, obj_insert kv.1 kv.2 m) m fields) = obj_get f m.
Proof.
  revert m. induction fields as [|[g v] fields IH]; intros m; simpl; [done|]. case_decide as Hg; [done|]. intros Hf.
  rewrite IH by done. simpl. rewrite obj_get_insert. by rewrite decide_False.
Qed.

(** An item carries no batch of its own. *)
Lemma item_body_single body item :
  value_wf body → valid_item item = true → is_Some (Json.get body "batch_input") → Json.get (item_body body item) "batch_input" = None.
Proof.
  intros Hwf Hv. destruct body as [| | | | |m]; try by intros [? ?]. intros _. simpl in Hwf. destruct Hwf as [Hm _].
  unfold valid_item in Hv. destruct item as [| | | | |fields]; try done. simpl in Hv. unfold item_body. simpl.
  rewrite obj_inserts_get; [|by destruct (obj_get "batch_input" fields)].
  apply (obj_removes_get ["batch_input"; "partial_failure_response_code"; "input"; "plaintext"; "ciphertext"; "context";
    "associated_data"; "signature"; "hmac"; "reference"] m "batch_input"); [done|set_solver].
Qed.

Lemma crypto_depth d recur i ns mt name op alg body k :
  Json.get body "batch_input" = None →
  crypto_level d recur (2 + i) ns mt name op alg body k = handle_crypto (shift i d) 2 ns mt name op alg body k.
Proof. intros Hb. unfold handle_crypto, crypto_level. by rewrite Hb. Qed.

Lemma encrypt_deleted d i ns mt name body p k k' r : encrypt d i ns mt name body p k = (k', Ok r) → Key.deleted k' = Key.deleted k.
Proof. by intros (? & ? & ? & ? & ? & ? & ? & _ & _ & _ & _ & _ & _ & _ & _ & _ & -> & _)%encrypt_Ok. Qed.

Lemma single_deleted d i ns mt name op alg body k k' r :
  Json.get body "batch_input" = None → handle_crypto d i ns mt name op alg body k = (k', Ok r) → Key.deleted k' = Key.deleted k.
Proof.
  intros Hb (data & E & _)%crypto_single; [|done]. unfold crypto_data, mbind, mpure, mret, mfail in E.
  repeat (case_bool_decide || case_match); simplify_eq; try done; by eapply encrypt_deleted.
Qed.

Lemma set_key_id name k s : Transit.keys s !! name = Some k → set_key name k s = s.
Proof. intros Hk. unfold set_key, Transit.set_keys. rewrite insert_id by done. by destruct s. Qed.

Lemma set_key_set name k k' s : set_key name k' (set_key name k s) = set_key name k' s.
Proof. unfold set_key, Transit.set_keys. simpl. by rewrite insert_insert_eq. Qed.

Section items.
Context (ns mt method op name : string) (now : N).
Hypothesis Hop : op ∈ OPERATIONS.
Hypothesis Hl : lacks "/" name.
Hypothesis Hm : write_method method = true.
Hypothesis Hv : valid_path name = Ok tt.

Lemma handle_existing d body s k :
  Transit.keys s !! name = Some k → Key.deleted k = false →
  handle d ns mt method (op +:+ "/" +:+ name) body now s =
    (let '(k', r) := handle_crypto d 2 ns mt name op "" body k in (set_key name k' s, r)).
Proof.
  intros Hk Hal. rewrite handle_operation by done. unfold use_key. rewrite (split_once_None "/" name Hl). cbn [default from_option].
  unfold mbind at 1 2 3, mpure at 1 2. rewrite Hv. rewrite (bool_decide_true ("" = "")) by done. cbn [negb andb].
  assert (Transit.contains s name = true) as -> by (unfold Transit.contains; by rewrite Hk, bool_decide_true).
  rewrite andb_false_r. unfold on_key. rewrite Hk. unfold mbind, mpure, alive. by rewrite Hal.
Qed.

Lemma run_items_requests d body j items k b s :
  value_wf body → is_Some (Json.get body "batch_input") → Forall (λ item, valid_item item = true) items →
  Transit.keys s !! name = Some k → Key.deleted k = false →
  let reqs := item_requests j d ns mt method (op +:+ "/" +:+ name) body now items in
  let '(k', b') := run_items (λ i v, crypto_level d (λ _ _, mfail unsupported) i ns mt name op "" v) (2 + j) body items k b in
  run transit_exec reqs s = set_key name k' s ∧
  responses b' = responses b ++ zip_with item_result items (transit_answers reqs s) ∧
  (mutated b' = false → mutated b = false ∧ k' = k).
Proof.
  intros Hwf Hsome. revert j k b s. induction items as [|item items IH]; intros j k b s Hvs Hk Hal; simpl.
  { rewrite set_key_id, app_nil_r by done. done. }
  apply Forall_cons in Hvs as [Hvi Hvs]. unfold run_item. rewrite Hvi.
  pose proof (item_body_single body item Hwf Hvi Hsome) as Hsingle. change (S (S j)) with (2 + j). rewrite crypto_depth by done.
  pose proof (handle_existing (shift j d) (item_body body item) s k Hk Hal) as Hh.
  destruct (handle_crypto (shift j d) 2 ns mt name op "" (item_body body item) k) as [k1 r] eqn:Ec.
  set (o := treq _ _ _ _ _ _ _).
  assert (transit_answer o s = r) as -> by (unfold transit_answer, o; cbn [tr_draws tr_namespace tr_mount tr_method tr_path tr_body tr_now]; by rewrite Hh).
  assert (transit_exec o s = match r with Ok r' => if EngineResponse.mutated r' then set_key name k1 s else s | Err _ => s end) as ->
    by (unfold transit_exec, o; cbn [tr_draws tr_namespace tr_mount tr_method tr_path tr_body tr_now]; by rewrite Hh).
  assert (Hgo : ∀ k2 b2 s2, Transit.keys s2 !! name = Some k2 → Key.deleted k2 = false → set_key name k2 s = s2 →
    let '(k', b') := run_items (λ i v, crypto_level d (λ _ _, mfail unsupported) i ns mt name op "" v) (2 + S j) body items k2 b2 in
    run transit_exec (item_requests (S j) d ns mt method (op +:+ "/" +:+ name) body now items) s2 = set_key name k' s ∧
    responses b' = responses b2 ++ zip_with item_result items
      (transit_answers (item_requests (S j) d ns mt method (op +:+ "/" +:+ name) body now items) s2) ∧
    (mutated b' = false → mutated b2 = false ∧ k' = k2)).
  { intros k2 b2 s2 Hk2 Hal2 <-. specialize (IH (S j) k2 b2 _ Hvs Hk2 Hal2). cbv zeta in IH.
    destruct (run_items _ (2 + S j) body items k2 b2) as [k' b']. destruct IH as (E1 & E2 & E3).
    rewrite E1, set_key_set. done. }
  clear IH Hvs. change (2 + S j) with (S (2 + j)) in Hgo.
  destruct r as [r|e]; cbv iota beta; [destruct (EngineResponse.mutated r)|].
  - specialize (Hgo k1 (mk_batch (responses b ++ [item_result item (Ok r)]) (failed b) (mutated b || true)) (set_key name k1 s)
      (lookup_insert_eq _ _ _) ltac:(by rewrite (single_deleted _ _ _ _ _ _ _ _ _ _ _ Hsingle Ec)) eq_refl).
    cbv zeta. unfold item_result at 1 in Hgo. destruct (run_items _ _ _ items _ _) as [k' b']. destruct Hgo as (E1 & E2 & E3).
    rewrite E1, E2. simpl. rewrite <-app_assoc. split; [done|]. split; [done|]. intros [Hb _]%E3. simpl in Hb.
    by rewrite orb_true_r in Hb.
  - specialize (Hgo k (mk_batch (responses b ++ [item_result item (Ok r)]) (failed b) (mutated b || false)) s Hk Hal (set_key_id _ _ _ Hk)).
    unfold item_result at 1 in Hgo. destruct (run_items _ _ _ items _ _) as [k' b']. destruct Hgo as (E1 & E2 & E3).
    rewrite E1, E2. simpl. rewrite <-app_assoc. split; [done|]. split; [done|]. intros [Hb ->]%E3. simpl in Hb.
    by rewrite orb_false_r in Hb.
  - specialize (Hgo k (mk_batch (responses b ++ [item_result item (Err e)]) (S (failed b)) (mutated b)) s Hk Hal (set_key_id _ _ _ Hk)).
    unfold item_result at 1 in Hgo. destruct (run_items _ _ _ items _ _) as [k' b']. destruct Hgo as (E1 & E2 & E3).
    rewrite E1, E2. simpl. rewrite <-app_assoc. done.
Qed.
End items.

(** The entries of a batch. *)
Definition batch_results (r : EngineResponse) : option (list Value) :=
  data ← Json.get (EngineResponse.body r) "data"; Json.get data "batch_results" ≫= Json.as_array.

(** C14: A batch on an existing key is its items sent one after the other.  Take a
    batch of any operation that is answered, on a key that exists and whose name has
    no slash, with a well-formed body and items that are objects without batch fields
    of their own.  The state it leaves, and the entry it reports for each item, are
    those of sending each item, completed by the shared parameters, as a request of
    its own in the same order with the same random draws: a failed item changes
    nothing, and the next one sees what the earlier ones did.  (A batch that creates
    its key does so from the shared parameters alone and can differ:
    [batch_upsert_differs].) *)
Theorem transit_batch d ns mt method op name body items now s k s' r :
  op ∈ OPERATIONS → lacks "/" name → write_method method = true → value_wf body →
  transit_inv s → Transit.keys s !! name = Some k →
  Json.get body "batch_input" = Some (VArray items) → Forall (λ item, valid_item item = true) items →
  handle d ns mt method (op +:+ "/" +:+ name) body now s = (s', Ok r) →
  let reqs := item_requests 0 d ns mt method (op +:+ "/" +:+ name) body now items in
  (if EngineResponse.mutated r then s' else s) = run transit_exec reqs s ∧
  batch_results r = Some (zip_with item_result items (transit_answers reqs s)).
Proof.
  intros Hop Hl Hm Hwf Hs Hk Hb Hvs Hh. pose proof Hh as Hu. rewrite handle_operation in Hu by done.
  destruct (use_key_Ok _ _ _ _ _ _ _ _ _ _ Hl Hs Hu) as (Hv & _).
  assert (Hal : Key.deleted k = false).
  { unfold use_key in Hu. rewrite (split_once_None "/" name Hl) in Hu. cbn [default from_option] in Hu.
    unfold mbind at 1 2 3, mpure at 1 2 in Hu. rewrite Hv, (bool_decide_true ("" = "")) in Hu by done. cbn [negb andb] in Hu.
    unfold Transit.contains in Hu. rewrite Hk, (bool_decide_true (is_Some _)), andb_false_r in Hu by done.
    unfold on_key in Hu. rewrite Hk in Hu. unfold mbind, mpure, alive in Hu. by destruct (Key.deleted k). }
  rewrite (handle_existing ns mt method op name now Hop Hl Hm Hv d body s k Hk Hal) in Hh. unfold handle_crypto, crypto_level at 1 in Hh.
  unfold mbind, mpure at 1 2 in Hh. destruct (allowed_fields op); [|done]. destruct (reject_unknown body _); [|done].
  rewrite Hb in Hh. unfold handle_batch in Hh. destruct (let? _ := _ in _) as [[l code]|] eqn:El in Hh; [|done].
  assert (l = items) as ->.
  { step_ok El. cbn [Json.as_array ok_or] in Hok. destruct (negb _ && _) in Hok; [|done]. injection Hok as ->.
    step_ok El. destruct (negb _) in El; [done|]. by injection El. }
  pose proof (run_items_requests ns mt method op name now Hop Hl Hm Hv d body 0 items k (mk_batch [] 0 false) s Hwf ltac:(eauto) Hvs Hk Hal) as Hr.
  cbv zeta in Hr. simpl plus in Hr. destruct (run_items _ 2 body items k _) as [k' b']. destruct Hr as (E1 & E2 & E3).
  injection Hh as <- <-. cbn [EngineResponse.mutated]. rewrite E1. split.
  - destruct (mutated b') eqn:Em; [done|]. destruct (E3 eq_refl) as [_ ->]. by rewrite set_key_id.
  - unfold batch_results. simpl. by rewrite E2.
Qed.
(** * Signatures and authentication codes *)

(** The field of an answer and of a verification, by operation. *)
Definition proof_field (op : string) : string := if bool_decide (op = "sign") then "signature" else "hmac".

Definition verify_request (op text : string) (body : Value) : Value :=
  Json.object ([("input", default Null (Json.get body "input")); (proof_field op, VString text)] ++
    match Json.get body "algorithm" with Some v => [("algorithm", v)] | None => [] end).

Definition proof_of (op : string) (r : EngineResponse) : option string :=
  data ← Json.get (EngineResponse.body r) "data"; Json.get data (proof_field op) ≫= Json.as_str.

(** What [selected_version] picks can be verified while the configuration allows it. *)
Lemma select_version_later k k2 n v :
  Key.versions k !! n = Some v → key_evolves k k2 → Key.deleted k2 = false → (Key.min_decryption_version k2 ≤ n)%N →
  ∃ v2, decrypt_version k2 n = Ok v2 ∧ version_evolves v v2.
Proof.
  intros Hv Hev Hal Hmin. destruct (ke_versions _ _ Hev n v Hv) as (v2 & Hv2 & E). exists v2. split; [|done].
  unfold decrypt_version, alive. by rewrite Hal, (proj2 (N.ltb_ge _ _) Hmin), Hv2.
Qed.

Lemma verify_request_get op text body field :
  op ∈ ["sign"; "hmac"] →
  Json.get (verify_request op text body) field =
    if decide (field = "input") then Some (default Null (Json.get body "input"))
    else if decide (field = proof_field op) then Some (VString text)
    else if decide (field = "algorithm") then Json.get body "algorithm" else None.
Proof.
  intros Hop. unfold verify_request, Json.object, obj_of.
  assert (Hne : "input" ≠ proof_field op ∧ "algorithm" ≠ proof_field op).
  { by repeat (apply elem_of_cons in Hop as [->|Hop]; [done|]); apply not_elem_of_nil in Hop. }
  destruct Hne as [Hne1 Hne2]. destruct (Json.get body "algorithm"); cbn [app foldl fst snd Json.get]; rewrite !obj_get_insert;
    cbn [obj_get]; repeat (case_decide; try done); by subst.
Qed.

Section verified.
Context (op : string) (Hop : op ∈ ["sign"; "hmac"]).

Lemma verify_request_input text body m :
  decode_field body "input" = Ok m → decode_field (verify_request op text body) "input" = Ok m.
Proof.
  unfold decode_field, string_param. rewrite (verify_request_get op text body "input" Hop).
  by destruct (Json.get body "input").
Qed.

Lemma verify_request_handled d ns mt method name text body now s k :
  write_method method = true → lacks "/" name → valid_path name = Ok tt → Transit.keys s !! name = Some k →
  Key.deleted k = false → verify_data k "" (verify_request op text body) = Ok (Json.object [("valid", VBool true)]) →
  handle d ns mt method ("verify/" +:+ name) (verify_request op text body) now s =
    (s, Ok (ok (Json.object [("valid", VBool true)]) false)).
Proof.
  intros Hm Hl Hv Hk Hal Hver. change ("verify/" +:+ name) with ("verify" +:+ "/" +:+ name).
  rewrite (handle_existing ns mt method "verify" name now ltac:(set_solver) Hl Hm Hv d _ s k Hk Hal).
  unfold handle_crypto, crypto_level, mbind, mpure.
  assert (Hu : ∃ l, allowed_fields "verify" = Ok l ∧ reject_unknown (verify_request op text body) l = Ok tt).
  { eexists. split; [reflexivity|]. repeat (apply elem_of_cons in Hop as [->|Hop]; [unfold verify_request; destruct (Json.get body "algorithm"), (Json.get body "input"); vm_compute; reflexivity|]).
    by apply not_elem_of_nil in Hop. }
  destruct Hu as (l & -> & ->). rewrite (verify_request_get _ _ _ "batch_input" Hop).
  assert (proof_field op = "signature" ∨ proof_field op = "hmac") as Hpf by (unfold proof_field; case_bool_decide; auto).
  rewrite decide_False, decide_False, decide_False by (done || by destruct Hpf as [->| ->]).
  assert (reject_context (verify_request op text body) = Ok tt) as ->.
  { unfold reject_context, reject_nonempty, reject_features, optional_bool. rewrite !(verify_request_get _ _ _ _ Hop).
    by destruct Hpf as [->| ->]. }
  unfold crypto_data. rewrite !bool_decide_false, bool_decide_true by done. unfold mpure. rewrite Hver.
  cbn. by rewrite set_key_id.
Qed.
End verified.

Lemma sign_later k body data m :
  sign_data k "" body = Ok data → key_inv k → decode_field body "input" = Ok m →
  ∃ n bytes, let text := wrapped_text n bytes in
    data = Json.object [("signature", VString text); ("key_version", Json.u64 n)] ∧
    ∀ k2, key_evolves k k2 → Key.deleted k2 = false → (Key.min_decryption_version k2 ≤ n)%N →
      verify_data k2 "" (verify_request "sign" text body) = Ok (Json.object [("valid", VBool true)]).
Proof.
  intros E Hk Hin. unfold sign_data in E. step_ok E as Hso. step_ok E as Hsel. step_ok E as Hv. step_ok E as Hm.
  step_ok E as Hkp. rewrite Hin in E. injection E as <-. apply selected_version_Ok in Hsel as (_ & Hn & [_ Hle]%(ki_versions _ Hk)).
  pose proof (ki_retained _ Hk) as Hret. unfold MAX_KEY_VERSIONS in Hret. destruct (Key.versions k !! _) as [v|] eqn:Ev; [|done]. injection Hv as ->.
  eexists _, _. split; [done|]. intros k2 Hev Hal Hmin. destruct (select_version_later _ _ _ _ Ev Hev Hal Hmin) as (v2 & Hdv & Ev2).
  assert (Hop : "sign" ∈ ["sign"; "hmac"]) by set_solver.
  unfold verify_data. rewrite (verify_request_input "sign" Hop _ _ _ Hin). set (text := wrapped_text _ _). set (req := verify_request _ _ _).
  assert (Hg : Json.get req "hmac" = None ∧ Json.get req "signature" = Some (VString text) ∧ Json.get req "prehashed" = None ∧
    Json.get req "signature_algorithm" = None ∧ Json.get req "marshaling_algorithm" = None ∧ Json.get req "hash_algorithm" = None)
    by (unfold req; rewrite !(verify_request_get _ _ _ _ Hop); done).
  destruct Hg as (G1 & G2 & G3 & G4 & G5 & G6). rewrite G1. unfold verify_signature.
  assert (signing_options k2 req "" = Ok tt) as ->.
  { unfold signing_options in *. rewrite (ke_kind _ _ Hev). destruct (negb (bool_decide (Key.kind k = "ed25519"))); [done|].
    unfold reject_features, optional_bool, select_algorithm, optional_str. by rewrite G3, G4, G5, G6. }
  unfold string_param. rewrite G2. cbn [Json.as_str ok_or]. unfold text.
  rewrite parse_wrapped_text by (rewrite ?transit_sign_length; unfold U64_MAX, MAX_INPUT_BYTES; lia). cbn [fst snd].
  rewrite Hdv, (ve_material _ _ Ev2), Hm, Hkp. by rewrite transit_sign_verify.
Qed.

Lemma hmac_later k body data m :
  hmac_data k "" body = Ok data → key_inv k → decode_field body "input" = Ok m →
  ∃ n bytes, let text := wrapped_text n bytes in data = Json.object [("hmac", VString text)] ∧
    ∀ k2, key_evolves k k2 → Key.deleted k2 = false → (Key.min_decryption_version k2 ≤ n)%N →
      verify_data k2 "" (verify_request "hmac" text body) = Ok (Json.object [("valid", VBool true)]).
Proof.
  intros E Hk Hin. unfold hmac_data in E. step_ok E as Hsel. step_ok E as Halg. step_ok E as Hv. step_ok E as Hm.
  step_ok E as Hmac. rewrite Hin in E. injection E as <-. apply selected_version_Ok in Hsel as (_ & Hn & [_ Hle]%(ki_versions _ Hk)).
  pose proof (ki_retained _ Hk) as Hret. unfold MAX_KEY_VERSIONS in Hret. destruct (Key.versions k !! _) as [v|] eqn:Ev; [|done]. injection Hv as ->.
  eexists _, _. split; [done|]. intros k2 Hev Hal Hmin. destruct (select_version_later _ _ _ _ Ev Hev Hal Hmin) as (v2 & Hdv & Ev2).
  assert (Hop : "hmac" ∈ ["sign"; "hmac"]) by set_solver.
  unfold verify_data. rewrite (verify_request_input "hmac" Hop _ _ _ Hin). set (text := wrapped_text _ _). set (req := verify_request _ _ _).
  assert (Hg : Json.get req "hmac" = Some (VString text) ∧ Json.get req "signature" = None ∧
    Json.get req "algorithm" = Json.get body "algorithm") by (unfold req; rewrite !(verify_request_get _ _ _ _ Hop); done).
  destruct Hg as (G1 & G2 & G3). rewrite G1. unfold verify_mac. rewrite G2. cbn [is_some Json.as_str ok_or]. unfold text.
  pose proof (transit_mac_length a3 a2 m). rewrite parse_wrapped_text by (unfold U64_MAX, MAX_INPUT_BYTES; lia). cbn [fst snd].
  rewrite Hdv, (ve_hmac _ _ Ev2), Hm.
  assert (select_algorithm "" req "algorithm" "sha2-256" = Ok a0) as -> by (unfold select_algorithm, optional_str in *; by rewrite G3).
  rewrite Hmac. by rewrite bool_decide_true.
Qed.

(** What the engine signs or authenticates it verifies.  Take any history of
    requests and a successful [sign] or [hmac] of an input.  After any further
    requests that do not delete the key, verifying the returned value on the same
    input answers that it is valid, as long as the key is not soft-deleted and its
    configuration allows the version. *)
Theorem transit_verifies ops d ns mt method op name body now m s1 r ops' :
  let s := run transit_exec ops Transit.default in
  op ∈ ["sign"; "hmac"] → lacks "/" name → write_method method = true → Json.get body "batch_input" = None →
  decode_field body "input" = Ok m →
  handle d ns mt method (op +:+ "/" +:+ name) body now s = (s1, Ok r) →
  Forall (λ o, ¬ deletes (tr_method o) (tr_path o) name) ops' →
  let s2 := run transit_exec ops' s1 in
  ∃ n bytes k, let text := wrapped_text n bytes in proof_of op r = Some text ∧ Transit.keys s2 !! name = Some k ∧
    ∀ d' method' now', Key.deleted k = false → (Key.min_decryption_version k ≤ n)%N → write_method method' = true →
      handle d' ns mt method' ("verify/" +:+ name) (verify_request op text body) now' s2 =
        (s2, Ok (ok (Json.object [("valid", VBool true)]) false)).
Proof.
  intros s Hop Hl Hm Hb Hin Hh Hnd s2.
  assert (Hs : transit_inv s) by (apply transit_run_keeps, transit_default_inv).
  assert (Hs1 : transit_inv s1) by (apply (all_handle _ _ _ _ _ _ _ _ _ _ Hh Hs)).
  rewrite handle_operation in Hh; [|set_solver|done].
  destruct (use_key_Ok _ _ _ _ _ _ _ _ _ _ Hl Hs Hh) as (Hv & k & k1 & Hk & Hor & Hal & Hcr & Hk1).
  destruct (crypto_single _ _ _ _ _ _ _ _ _ _ _ Hb Hcr) as (data & Hdata & Hbody & _).
  assert (Hlater : k1 = k ∧ ∃ n bytes, let text := wrapped_text n bytes in Json.get data (proof_field op) = Some (VString text) ∧
    ∀ k2, key_evolves k k2 → Key.deleted k2 = false → (Key.min_decryption_version k2 ≤ n)%N →
      verify_data k2 "" (verify_request op text body) = Ok (Json.object [("valid", VBool true)])).
  { unfold crypto_data in Hdata. apply elem_of_cons in Hop as [->|Hop]; [|apply list_elem_of_singleton in Hop as ->].
    - rewrite !bool_decide_false, bool_decide_true in Hdata by done. injection Hdata as <- Hdata. split; [done|].
      destruct (sign_later k body data m Hdata Hk Hin) as (n & bytes & -> & H'). by exists n, bytes.
    - rewrite !bool_decide_false, bool_decide_true in Hdata by done. injection Hdata as <- Hdata. split; [done|].
      destruct (hmac_later k body data m Hdata Hk Hin) as (n & bytes & -> & H'). by exists n, bytes. }
  destruct Hlater as (-> & n & bytes & Htext & Hver).
  destruct (proj2 (transit_run_keeps ops' s1 Hs1) name k Hk1) as [Hex|(k2 & Hk2 & Hev)].
  { apply Exists_exists in Hex as (o & Ho & Hdel). rewrite Forall_forall in Hnd. by destruct (Hnd o Ho). }
  exists n, bytes, k2. split; [unfold proof_of; rewrite Hbody; simpl; by rewrite Htext|]. split; [done|].
  intros d' method' now' Hal2 Hmin Hm'. apply (verify_request_handled op Hop _ _ _ _ _ _ _ _ _ k2); auto.
Qed.
End history.

(** * A concrete engine *)
Module TransitToy.
Definition byte_char (b : u8) : ascii := ascii_of_N (Byte.to_N b).
Definition char_byte (c : ascii) : u8 := default x00 (Byte.of_N (N_of_ascii c)).

(** Three bytes and a count to every four characters. *)
Fixpoint encode64 (bytes : list u8) : string :=
  match bytes with
  | a :: b :: c :: rest =>
      String (byte_char a) (String (byte_char b) (String (byte_char c) (String "3" (encode64 rest))))
  | [a; b] => String (byte_char a) (String (byte_char b) "=2")
  | [a] => String (byte_char a) "==1"
  | [] => ""
  end.
Fixpoint decode64 (text : string) : option (list u8) :=
  match text with
  | EmptyString => Some []
  | String a (String b (String c (String n rest))) =>
      if bool_decide (n = "3"%char) then bytes ← decode64 rest; Some (char_byte a :: char_byte b :: char_byte c :: bytes)
      else if bool_decide (n = "2"%char) then Some [char_byte a; char_byte b]
      else Some [char_byte a]
  | _ => None
  end.
#[export] Instance base64 : Base64 := {| b64_encode := encode64; b64_decode := decode64 |}.

Lemma char_byte_char b : char_byte (byte_char b) = b.
Proof. by destruct b. Qed.

Lemma triples (P : list u8 → Prop) :
  P [] → (∀ a, P [a]) → (∀ a b, P [a; b]) → (∀ a b c rest, P rest → P (a :: b :: c :: rest)) → ∀ l, P l.
Proof.
  intros H0 H1 H2 H3 l. remember (length l) as n eqn:E. revert l E. induction (lt_wf n) as [n _ IH]. intros l ->.
  destruct l as [|a [|b [|c rest]]]; [done..|]. apply H3. apply (IH (length rest)); [simpl; lia|done].
Qed.

#[export] Instance base64_laws : Base64Laws.
Proof.
  intros l. induction l as [|a|a b|a b c rest IH] using triples; cbn; rewrite ?char_byte_char; [done..|].
  cbn in IH. by rewrite IH.
Qed.
#[export] Instance base64_size : Base64Size base64.
Proof.
  intros l. induction l as [|a|a b|a b c rest IH] using triples; [done..|]. cbn [b64_encode base64 encode64 String.length length].
  cbn [b64_encode base64] in IH. rewrite IH. replace (S (S (S (length rest))) + 2) with (length rest + 2 + 1 * 3) by lia.
  rewrite Nat.div_add by done. lia.
Qed.

#[export] Instance crypto : TransitCrypto := {|
  aead_seal _ _ _ _ p := Some (p ++ repeat x00 16);
  aead_open _ _ _ _ c := Some (take (length c - 16) c);
  mac _ _ _ := repeat x05 32;
  hash_digest _ bytes := bytes;
  KeyPair := list u8;
  from_pkcs8 bytes := Some bytes;
  public_key bytes := bytes;
  ed25519_sign _ _ := repeat x06 64;
  ed25519_verify _ _ signed := bool_decide (signed = repeat x06 64);
|}.
#[export] Instance crypto_laws : TransitLaws crypto.
Proof.
  split.
  - intros alg key nonce ad p c E. apply (inj Some) in E as <-. cbn [aead_open crypto]. rewrite length_app, repeat_length, Nat.add_sub. by rewrite take_app_length.
  - intros alg key nonce ad p c E. apply (inj Some) in E as <-. by rewrite length_app, repeat_length.
  - intros keypair m. by apply bool_decide_true.
  - intros keypair m. apply repeat_length.
  - intros alg key m. cbn. lia.
Qed.
#[export] Instance aad_serde : Serde AadTuple := {| to_vec _ := Some []; from_slice _ := None |}.

Definition draws : Draws := mk_draws (λ i n, Some (repeat x07 n)) (λ _, Some [x01; x02]).
Lemma draws_lawful : draws_ok draws.
Proof. intros i n bytes [= <-]. apply repeat_length. Qed.

Definition secret : list u8 := [x41; x42].
Definition encrypt_body : Value := VObject [("plaintext", VString (b64_encode secret))].
Definition create : TransitReq := treq draws "" "transit/" "POST" "encrypt/app" encrypt_body 5.
Definition rotate : TransitReq := treq draws "" "transit/" "POST" "keys/app/rotate" (Json.object []) 6.
Definition created : Transit := run transit_exec [create] Transit.default.
Definition app_key : Key := default (Key.mk "" 0 0 0 false false false ∅) (Transit.keys created !! "app").
Definition batch_items : list Value := [encrypt_body; VObject [("plaintext", VString "?")]; encrypt_body].
Definition batch_body : Value := VObject [("batch_input", VArray batch_items)].
Definition no_response : EngineResponse := EngineResponse.mk 0 Null false.
Definition answered (o : TransitReq) (s : Transit) : EngineResponse :=
  match transit_answer o s with Ok r => r | Err _ => no_response end.
Definition after (o : TransitReq) (s : Transit) : Transit :=
  (handle (tr_draws o) (tr_namespace o) (tr_mount o) (tr_method o) (tr_path o) (tr_body o) (tr_now o) s).1.
End TransitToy.
Import TransitToy.

Lemma transit_decrypts_witness :
  ∃ text n k, ciphertext_of (answered create Transit.default) = Some (text, n) ∧
    Transit.keys (run transit_exec [rotate] (after create Transit.default)) !! "app" = Some k ∧
    ∀ d' method' now', Key.deleted k = false → (Key.min_decryption_version k ≤ n)%N → write_method method' = true →
      handle d' "" "transit/" method' "decrypt/app" (decrypt_request text encrypt_body) now'
        (run transit_exec [rotate] (after create Transit.default)) =
      (run transit_exec [rotate] (after create Transit.default),
       Ok (ok (Json.object [("plaintext", VString (b64_encode secret))]) false)).
Proof.
  apply (transit_decrypts [] draws "" "transit/" "POST" "encrypt" "app" encrypt_body 5 secret).
  - exact draws_lawful.
  - done.
  - reflexivity.
  - reflexivity.
  - left. split; reflexivity.
  - vm_compute. reflexivity.
  - constructor; [|constructor]. intros [? _]. discriminate.
Defined.

Lemma transit_keys_persist_witness :
  ∃ k', Transit.keys (run transit_exec [rotate] created) !! "app" = Some k' ∧ key_inv k' ∧ key_evolves app_key k'.
Proof.
  apply (transit_keys_persist [create] [rotate] "app" app_key).
  - vm_compute. reflexivity.
  - constructor; [|constructor]. intros [? _]. discriminate.
Defined.

(** A key that does not exist is created from the batch and not from its items: the
    item that asks for another type is refused, and sent alone it is not. *)
Definition typed_item : Value := VObject [("plaintext", VString (b64_encode secret)); ("type", VString "aes128-gcm96")].
Definition typed_batch : TransitReq :=
  treq draws "" "transit/" "POST" "encrypt/app" (VObject [("batch_input", VArray [typed_item])]) 5.
Definition typed_single : TransitReq := treq draws "" "transit/" "POST" "encrypt/app" typed_item 5.

Example batch_upsert_differs :
  (Key.kind <$> Transit.keys (after typed_batch Transit.default) !! "app") = Some "aes256-gcm96"
  ∧ batch_results (answered typed_batch Transit.default) =
      Some [Json.object [("error", VString "requested encryption type does not match the key")]]
  ∧ (Key.kind <$> Transit.keys (after typed_single Transit.default) !! "app") = Some "aes128-gcm96"
  ∧ is_Some (ciphertext_of (answered typed_single Transit.default)).
Proof. split_and!; [vm_compute; reflexivity..|]. eexists. vm_compute. reflexivity. Qed.

Lemma transit_batch_witness :
  let o := treq draws "" "transit/" "POST" "encrypt/app" batch_body 7 in
  let reqs := item_requests 0 draws "" "transit/" "POST" "encrypt/app" batch_body 7 batch_items in
  (if EngineResponse.mutated (answered o created) then after o created else created) = run transit_exec reqs created ∧
  batch_results (answered o created) = Some (zip_with item_result batch_items (transit_answers reqs created)).
Proof.
  apply (transit_batch draws "" "transit/" "POST" "encrypt" "app" batch_body batch_items 7 created app_key).
  - set_solver.
  - done.
  - reflexivity.
  - simpl. repeat constructor.
  - apply transit_run_keeps, transit_default_inv.
  - vm_compute. reflexivity.
  - vm_compute. reflexivity.
  - repeat constructor.
  - vm_compute. reflexivity.
Defined.

Definition sign_body : Value := VObject [("input", VString (b64_encode secret))].
Definition create_signing : TransitReq :=
  treq draws "" "transit/" "POST" "keys/app" (VObject [("type", VString "ed25519")]) 5.
Definition signing : Transit := run transit_exec [create_signing] Transit.default.
Definition sign : TransitReq := treq draws "" "transit/" "POST" "sign/app" sign_body 6.

Lemma transit_verifies_witness :
  ∃ n bytes k, let text := wrapped_text n bytes in proof_of "sign" (answered sign signing) = Some text ∧
    Transit.keys (run transit_exec [rotate] (after sign signing)) !! "app" = Some k ∧
    ∀ d' method' now', Key.deleted k = false → (Key.min_decryption_version k ≤ n)%N → write_method method' = true →
      handle d' "" "transit/" method' "verify/app" (verify_request "sign" text sign_body) now'
        (run transit_exec [rotate] (after sign signing)) =
      (run transit_exec [rotate] (after sign signing), Ok (ok (Json.object [("valid", VBool true)]) false)).
Proof.
  apply (transit_verifies [create_signing] draws "" "transit/" "POST" "sign" "app" sign_body 6 secret).
  - set_solver.
  - done.
  - reflexivity.
  - reflexivity.
  - reflexivity.
  - vm_compute. reflexivity.
  - constructor; [|constructor]. intros [? _]. discriminate.
Defined.
