(* ===== verification/RateLimit.v ===== *)
(** The admission of connections, [RateLimiter] of [crates/heptabao-server/src/http.rs]:
    a token bucket per peer address, in a table of bounded size.

    Addresses are any countable type; the time since the start is an argument, in
    nanoseconds. *)
From Stdlib Require Import NArith.
From S2P Require Import Prelude.

Definition TOKEN_SCALE : N := 1000000000.
Definition RATE_BUCKET_IDLE_NANOS : N := 60 * TOKEN_SCALE.

(** [u128]. *)
Definition U128_MAX : N := 2 ^ 128 - 1.
Definition saturating_add128 (a b : N) : N := N.min (a + b) U128_MAX.
Definition saturating_mul128 (a b : N) : N := N.min (a * b) U128_MAX.

Module RateBucket.
Record t := mk { tokens : N; last_nanos : N }.
End RateBucket.
Notation RateBucket := RateBucket.t.

Section limiter.
Context {IpAddr : Type} `{Countable IpAddr}.

Record RateLimiter := mk_limiter {
  rate_per_second : N;
  burst_tokens : N;
  max_entries : N;
  buckets : gmap IpAddr RateBucket;
}.

Definition set_buckets (bs : gmap IpAddr RateBucket) (self : RateLimiter) : RateLimiter :=
  mk_limiter (rate_per_second self) (burst_tokens self) (max_entries self) bs.

Definition new_limiter (rate burst entries : N) : Result RateLimiter string :=
  if (rate =? 0)%N || (100000 <? rate)%N || (burst =? 0)%N || (1000000 <? burst)%N
     || negb ((64 <=? entries)%N && (entries <=? 65536)%N)
  then Err "invalid bounded rate-limit policy"
  else Ok (mk_limiter rate (burst * TOKEN_SCALE) entries ∅).

(** The buckets that [retain] keeps. *)
Definition retained (now : N) (bs : gmap IpAddr RateBucket) : gmap IpAddr RateBucket :=
  filter (λ pb, now - RateBucket.last_nanos pb.2 < RATE_BUCKET_IDLE_NANOS)%N bs.

Definition full (self : RateLimiter) : bool := (max_entries self <=? N.of_nat (size (buckets self)))%N.

(** The bucket after refilling it. *)
Definition refill (self : RateLimiter) (bucket : RateBucket) (now : N) : RateBucket :=
  let elapsed := (now - RateBucket.last_nanos bucket)%N in
  let refill := saturating_mul128 elapsed (rate_per_second self) in
  RateBucket.mk (N.min (saturating_add128 (RateBucket.tokens bucket) refill) (burst_tokens self)) now.

Definition allow_at (peer : IpAddr) (now : N) (self : RateLimiter) : RateLimiter * bool :=
  let room :=
    match buckets self !! peer with
    | Some _ => (self, true)
    | None =>
        if full self then
          let self := set_buckets (retained now (buckets self)) self in (self, negb (full self))
        else (self, true)
    end in
  let '(self, room) := room in
  if negb room then (self, false)
  else
    let bucket := refill self (default (RateBucket.mk (burst_tokens self) now) (buckets self !! peer)) now in
    if (RateBucket.tokens bucket <? TOKEN_SCALE)%N then (set_buckets (<[peer := bucket]> (buckets self)) self, false)
    else
      let bucket := RateBucket.mk (RateBucket.tokens bucket - TOKEN_SCALE) now in
      (set_buckets (<[peer := bucket]> (buckets self)) self, true).

(** * The bound *)

(** The tokens a peer could spend at a time. *)
Definition potential (p : IpAddr) (now : N) (self : RateLimiter) : N :=
  match buckets self !! p with
  | Some b => N.min (burst_tokens self) (RateBucket.tokens b + (now - RateBucket.last_nanos b) * rate_per_second self)
  | None => burst_tokens self
  end.

(** What holds after a call at time [t]; a bucket that was idle long enough to be
    dropped is full. *)
Record limiter_inv (rate burst entries t : N) (self : RateLimiter) : Prop := {
  li_rate : rate_per_second self = rate;
  li_burst : burst_tokens self = burst;
  li_entries : max_entries self = entries;
  li_size : (N.of_nat (size (buckets self)) ≤ entries)%N;
  li_past p b : buckets self !! p = Some b → (RateBucket.last_nanos b ≤ t)%N;
}.

Section bound.
Context (rate burst entries : N).
Hypothesis Hidle : (burst ≤ RATE_BUCKET_IDLE_NANOS * rate)%N.
Hypothesis Hmax : (burst ≤ U128_MAX)%N.
Hypothesis Hone : (TOKEN_SCALE ≤ burst)%N.
Hypothesis Hentries : (0 < entries)%N.

Lemma refill_tokens self b now :
  burst_tokens self = burst → rate_per_second self = rate →
  RateBucket.tokens (refill self b now) = N.min burst (RateBucket.tokens b + (now - RateBucket.last_nanos b) * rate)%N.
Proof.
  intros <- <-. unfold refill, saturating_add128, saturating_mul128. simpl.
  set (x := ((now - _) * _)%N). lia.
Qed.

Lemma potential_later p t now self :
  limiter_inv rate burst entries t self → (t ≤ now)%N → (potential p now self ≤ potential p t self + (now - t) * rate)%N.
Proof.
  intros [Hr Hb _ _ Hp] Hle. unfold potential. destruct (buckets self !! p) as [b|] eqn:E; [|apply N.le_add_r].
  specialize (Hp p b E). rewrite Hr. replace (now - RateBucket.last_nanos b)%N with ((t - RateBucket.last_nanos b) + (now - t))%N by lia.
  rewrite N.mul_add_distr_r. generalize ((t - RateBucket.last_nanos b) * rate)%N, ((now - t) * rate)%N. lia.
Qed.

(** Making room takes no tokens from a peer and gives none. *)
Lemma retained_potential p now self :
  burst_tokens self = burst → rate_per_second self = rate →
  potential p now (set_buckets (retained now (buckets self)) self) = potential p now self.
Proof.
  intros Hb Hr. unfold potential, retained. simpl. destruct (buckets self !! p) as [b|] eqn:E.
  - destruct (decide (now - RateBucket.last_nanos b < RATE_BUCKET_IDLE_NANOS)%N) as [Hl|Hl].
    + by rewrite (map_lookup_filter_Some_2 _ _ p b E Hl).
    + rewrite map_lookup_filter_None_2; [|right; intros b' ?; by simplify_eq].
      rewrite Hb, Hr. apply N.nlt_ge in Hl.
      assert (RATE_BUCKET_IDLE_NANOS * rate ≤ (now - RateBucket.last_nanos b) * rate)%N by (by apply N.mul_le_mono_r). lia.
  - by rewrite map_lookup_filter_None_2 by auto.
Qed.

Lemma retained_size now bs : size (retained now bs) ≤ size bs.
Proof. apply map_subseteq_size. apply map_filter_subseteq. Qed.

(** Every admitted request takes one token from its peer, and nobody gains one. *)
Lemma allow_potential p q t now self self' ok :
  limiter_inv rate burst entries t self → (t ≤ now)%N → allow_at q now self = (self', ok) →
  limiter_inv rate burst entries now self' ∧
  (potential p now self' + (if ok && bool_decide (q = p) then TOKEN_SCALE else 0) ≤ potential p now self)%N.
Proof.
  intros [Hr Hb He Hs Hp] Hle. unfold allow_at.
  assert (Hroom : ∃ s1 room, (match buckets self !! q with
      | Some _ => (self, true)
      | None => if full self then (set_buckets (retained now (buckets self)) self, negb (full (set_buckets (retained now (buckets self)) self)))
                else (self, true)
      end) = (s1, room) ∧ limiter_inv rate burst entries now s1 ∧ potential p now s1 = potential p now self ∧
      (room = true → is_Some (buckets s1 !! q) ∨ (N.of_nat (size (buckets s1)) < entries)%N)).
  { assert (limiter_inv rate burst entries now self) by (split; try done; intros p' b' E; specialize (Hp p' b' E); lia).
    destruct (buckets self !! q) as [b|] eqn:Eq; [eexists _, _; split_and!; [done|done|done|]; rewrite Eq; eauto|].
    unfold full. destruct (N.leb_spec (max_entries self) (N.of_nat (size (buckets self)))) as [Hf|Hf].
    - eexists _, _. split; [done|]. split_and!.
      + split; try done; simpl.
        * pose proof (retained_size now (buckets self)). lia.
        * intros p' b' [E _]%map_lookup_filter_Some. specialize (Hp p' b' E). lia.
      + by apply retained_potential.
      + simpl. destruct (N.leb_spec (max_entries self) (N.of_nat (size (retained now (buckets self))))); [done|]. rewrite <-He. auto.
    - eexists _, _. split_and!; [done|done|done|]. rewrite <-He. auto. }
  destruct Hroom as (s1 & room & -> & [Hr1 Hb1 He1 Hs1 Hp1] & <- & Hsp). destruct room; cbn [negb].
  2: { intros [= <- <-]. split; [done|]. simpl. lia. }
  specialize (Hsp eq_refl). set (b0 := default _ (buckets s1 !! q)). pose proof (refill_tokens s1 b0 now Hb1 Hr1) as Htok.
  assert (Hinv : ∀ n, limiter_inv rate burst entries now (set_buckets (<[q := RateBucket.mk n now]> (buckets s1)) s1)).
  { intros n. split; try done; simpl.
    - destruct (decide (is_Some (buckets s1 !! q))) as [Hq|Hq].
      + by rewrite map_size_insert_Some.
      + rewrite map_size_insert_None by (by apply eq_None_not_Some). destruct Hsp as [?|Hlt]; [done|]. lia.
    - intros p' b' [[_ <-]|[_ E]]%lookup_insert_Some; [simpl; lia|by eapply Hp1]. }
  assert (Hpot : ∀ n, potential p now (set_buckets (<[q := RateBucket.mk n now]> (buckets s1)) s1) =
    if decide (q = p) then N.min burst n else potential p now s1).
  { intros n. unfold potential. simpl. rewrite Hb1, Hr1. destruct (decide (q = p)) as [->|].
    - rewrite lookup_insert_eq. simpl. rewrite N.sub_diag, N.mul_0_l, N.add_0_r. done.
    - by rewrite lookup_insert_ne. }
  assert (Hq : q = p → potential p now s1 = RateBucket.tokens (refill s1 b0 now)).
  { intros ->. rewrite Htok. unfold potential, b0. destruct (buckets s1 !! p) as [b|]; simpl; rewrite ?Hb1, ?Hr1; [done|].
    rewrite N.sub_diag. lia. }
  fold b0. assert (refill s1 b0 now = RateBucket.mk (RateBucket.tokens (refill s1 b0 now)) now) as Heta by done.
  cbv zeta. rewrite Heta at 2. clear Heta. revert Hq Htok. generalize (RateBucket.tokens (refill s1 b0 now)). intros T Hq Htok.
  assert (T ≤ burst)%N by (rewrite Htok; apply N.le_min_l). clear Htok.
  destruct (N.ltb_spec T TOKEN_SCALE); intros [= <- <-]; (split; [apply Hinv|]);
    rewrite Hpot; destruct (decide (q = p)) as [E|E]; rewrite ?(bool_decide_true _ E), ?(bool_decide_false _ E); cbn [andb];
    try specialize (Hq E); lia.
Qed.

(** * Sequences of connections *)
Fixpoint admitted (p : IpAddr) (calls : list (IpAddr * N)) (self : RateLimiter) : N :=
  match calls with
  | [] => 0
  | (q, now) :: calls =>
      let '(self, ok) := allow_at q now self in
      ((if ok && bool_decide (q = p) then 1 else 0) + admitted p calls self)%N
  end.

Definition after_calls (calls : list (IpAddr * N)) (self : RateLimiter) : RateLimiter :=
  foldl (λ self call, (allow_at call.1 call.2 self).1) self calls.

(** The times of the calls do not decrease from [t] on, and end before [t']. *)
Fixpoint ordered (t : N) (calls : list (IpAddr * N)) (t' : N) : Prop :=
  match calls with
  | [] => (t ≤ t')%N
  | (_, now) :: calls => (t ≤ now)%N ∧ ordered now calls t'
  end.

Lemma ordered_le t calls t' : ordered t calls t' → (t ≤ t')%N.
Proof. revert t. induction calls as [|[q now] calls IH]; intros t; simpl; [done|]. intros [? ?%IH]. lia. Qed.

Lemma after_calls_inv t calls t' self :
  limiter_inv rate burst entries t self → ordered t calls t' → limiter_inv rate burst entries t' (after_calls calls self).
Proof.
  revert t self. induction calls as [|[q now] calls IH]; intros t self Hi; simpl.
  - intros Hle. destruct Hi as [Hr Hb He Hs Hp]. split; try done. intros p b E. specialize (Hp p b E). lia.
  - intros [Hle Ho]. destruct (allow_at q now self) as [s1 ok] eqn:E. eapply IH; [|exact Ho].
    by apply (allow_potential q q t now self s1 ok).
Qed.

Lemma admitted_bound p t calls t' self :
  limiter_inv rate burst entries t self → ordered t calls t' →
  (admitted p calls self * TOKEN_SCALE + potential p t' (after_calls calls self) ≤ potential p t self + (t' - t) * rate)%N.
Proof.
  revert t self. induction calls as [|[q now] calls IH]; intros t self Hi; simpl.
  - intros Hle. rewrite N.mul_0_l, N.add_0_l. by apply potential_later.
  - intros [Hle Ho]. pose proof (potential_later p t now self Hi Hle) as Hl. pose proof (ordered_le _ _ _ Ho) as Hle'.
    destruct (allow_at q now self) as [s1 ok] eqn:E. destruct (allow_potential p q t now self s1 ok Hi Hle E) as [Hi1 Hp1].
    specialize (IH now s1 Hi1 Ho). simpl. replace (t' - t)%N with ((now - t) + (t' - now))%N by lia. rewrite !N.mul_add_distr_r.
    revert Hl Hp1 IH. generalize ((now - t) * rate)%N, ((t' - now) * rate)%N. intros x y Hl Hp1 IH.
    destruct (ok && bool_decide (q = p)); lia.
Qed.

(** A peer that waited for a token since its last attempt is not refused. *)
Lemma allow_waited p t now self b :
  limiter_inv rate burst entries t self → buckets self !! p = Some b → (TOKEN_SCALE ≤ (now - RateBucket.last_nanos b) * rate)%N →
  (allow_at p now self).2 = true.
Proof.
  intros [Hr Hb _ _ _] Hp Hw. unfold allow_at. rewrite Hp. cbn [negb default from_option].
  pose proof (refill_tokens self b now Hb Hr) as Ht. cbv beta iota zeta. rewrite Hp. cbn [default from_option id].
  destruct (N.ltb_spec (RateBucket.tokens (refill self b now)) TOKEN_SCALE) as [Hlt|]; [|done].
  revert Ht Hw Hlt. generalize ((now - RateBucket.last_nanos b) * rate)%N. lia.
Qed.
End bound.

Lemma new_limiter_Ok rate burst entries self :
  new_limiter rate burst entries = Ok self →
  self = mk_limiter rate (burst * TOKEN_SCALE) entries ∅ ∧ (1 ≤ burst ≤ 1000000)%N ∧ (64 ≤ entries)%N.
Proof.
  unfold new_limiter. destruct (_ || _) eqn:E; [done|]. intros [= <-]. split; [done|].
  repeat rewrite orb_false_iff in E. destruct E as ((((_ & _) & Hb%N.eqb_neq) & Hm%N.ltb_ge) & [He%N.leb_le _]%negb_false_iff%andb_true_iff). lia.
Qed.

(** C39: The rate limit holds.  Take a limiter whose burst is at most sixty times its
    rate, and any attempts of any peers in the order of time.  In any part of the
    sequence, from [t] to [t'], a peer is admitted at most its burst plus the rate
    times the length of that part, also when its bucket is dropped to make room; a
    peer whose bucket is still in the table and that waited for one token since its
    last attempt is admitted (a peer whose bucket was dropped is a new peer, and is
    refused while the table is full of peers seen within a minute); and the table
    never outgrows its bound. *)
Theorem rate_limit_bound rate burst entries self0 earlier calls p t t' :
  new_limiter rate burst entries = Ok self0 → (burst ≤ 60 * rate)%N → ordered 0 earlier t → ordered t calls t' →
  let self := after_calls earlier self0 in
  (admitted p calls self * TOKEN_SCALE ≤ burst * TOKEN_SCALE + (t' - t) * rate)%N ∧
  (∀ b now, buckets self !! p = Some b → (TOKEN_SCALE ≤ (now - RateBucket.last_nanos b) * rate)%N → (allow_at p now self).2 = true) ∧
  (N.of_nat (size (buckets self)) ≤ entries)%N.
Proof.
  intros (-> & Hb & He)%new_limiter_Ok Hr Ho1 Ho2 self.
  assert (Hidle : (burst * TOKEN_SCALE ≤ RATE_BUCKET_IDLE_NANOS * rate)%N).
  { unfold RATE_BUCKET_IDLE_NANOS. nia. }
  assert (Hmax : (burst * TOKEN_SCALE ≤ U128_MAX)%N).
  { etrans; [by apply N.mul_le_mono_r, Hb|]. vm_compute. discriminate. }
  assert (Hone : (TOKEN_SCALE ≤ burst * TOKEN_SCALE)%N) by (unfold TOKEN_SCALE; lia).
  assert (Hpos : (0 < entries)%N) by lia.
  assert (Hi : limiter_inv rate (burst * TOKEN_SCALE) entries t self).
  { eapply after_calls_inv; [done|done|done|lia| |done]. split; simpl; [done..|rewrite map_size_empty; lia|]. intros q b. by rewrite lookup_empty. }
  split_and!; [| |apply Hi].
  - pose proof (admitted_bound _ _ _ Hidle Hmax Hone Hpos p t calls t' self Hi Ho2) as Hbound.
    assert (potential p t self ≤ burst * TOKEN_SCALE)%N.
    { unfold potential. rewrite (li_burst _ _ _ _ _ Hi). destruct (buckets self !! p); [apply N.le_min_l|done]. }
    revert Hbound. generalize ((t' - t) * rate)%N. lia.
  - intros b now Hbk Hw. eapply allow_waited; eauto.
Qed.
End limiter.

(** * A concrete limiter *)
Module RateDemo.
Definition limiter : RateLimiter (IpAddr := N) := mk_limiter 1 (2 * TOKEN_SCALE) 64 ∅.
Definition earlier : list (N * N) := [(7, 0); (7, 1)]%N.
Definition attempts : list (N * N) := [(7, 2); (8, 2); (7, 1000000002)]%N.
End RateDemo.

(** The peer spends its burst of two; a second later it is admitted again. *)
Lemma rate_limit_bound_witness :
  let self := after_calls RateDemo.earlier RateDemo.limiter in
  (admitted 7%N RateDemo.attempts self * TOKEN_SCALE ≤ 2 * TOKEN_SCALE + (2000000000 - 2) * 1)%N ∧
  (allow_at 7%N 2 self).2 = false ∧ (allow_at 7%N 1000000001 self).2 = true ∧ (N.of_nat (size (buckets self)) ≤ 64)%N.
Proof.
  intros self.
  destruct (rate_limit_bound 1 2 64 RateDemo.limiter RateDemo.earlier RateDemo.attempts 7%N 2 2000000000) as (Ha & Hw & Hs).
  - reflexivity.
  - vm_compute. discriminate.
  - repeat split; vm_compute; discriminate.
  - repeat split; vm_compute; discriminate.
  - split; [exact Ha|]. split; [vm_compute; reflexivity|]. split; [|exact Hs].
    eapply Hw; [vm_compute; reflexivity|]. vm_compute. discriminate.
Defined.

(** Without the condition on the burst the bound fails: a bucket dropped to make
    room comes back full. *)
Example dropped_bucket_refills :
  let crowd := (λ i, (100 + N.of_nat i, 61 * TOKEN_SCALE)%N) <$> seq 0 62 in
  let spend := (6, 0)%N :: repeat (7, 0)%N 100 in
  let limiter := mk_limiter 1 (100 * TOKEN_SCALE) 64 ∅ in
  let attempts := spend ++ crowd ++ [(200, 61 * TOKEN_SCALE)%N] ++ repeat (7, 61 * TOKEN_SCALE)%N 100 in
  admitted 7%N attempts limiter = 200%N.
Proof. vm_compute. reflexivity. Qed.
