(* ===== verification/Http.v ===== *)
(** The wire of the server, [crates/heptabao-server/src/http.rs]: reading one request
    from a connection, and writing the response.

    A connection is the bytes that will arrive and a schedule: for each round of a
    reading loop, whether the deadline has passed, whether the read fails, and how
    many bytes it delivers.  Bytes are strings; JSON text is the class [JsonText].
    TLS, the listener's threads and the socket options have no counterpart. *)
From Stdlib Require Import Ascii NArith.
From S2P Require Import Prelude Str Json Gf256 Base32 Engine EngineState Acl.

Definition MAX_HEADERS : N := 16 * 1024.
Definition MAX_BODY : N := 256 * 1024.
Definition MAX_SNAPSHOT_BODY : N := 32 * 1024 * 1024.
Definition MAX_RESPONSE : N := 32 * 1024 * 1024.

Definition str_len (s : string) : N := N.of_nat (String.length s).

(** * Text of the standard library *)
Fixpoint str_take (n : nat) (s : string) : string :=
  match n, s with S n, String c s => String c (str_take n s) | _, _ => "" end.
Fixpoint str_drop (n : nat) (s : string) : string :=
  match n, s with S n, String _ s => str_drop n s | _, _ => s end.

Definition CR : ascii := ascii_of_N 13.
Definition LF : ascii := ascii_of_N 10.
Definition CRLF : string := String CR (String LF "").

(** [bytes.windows(4).position(|w| w == b"\r\n\r\n")]. *)
Fixpoint find_blank (s : string) : option nat :=
  match s with
  | EmptyString => None
  | String _ rest =>
      match strip_prefix (CRLF +:+ CRLF) s with
      | Some _ => Some 0
      | None => S <$> find_blank rest
      end
  end.

(** [str::split("\r\n")]. *)
Fixpoint split_crlf (s : string) : list string :=
  match s with
  | EmptyString => [""]
  | String a rest =>
      match rest with
      | String b rest' =>
          if decide (a = CR ∧ b = LF) then "" :: split_crlf rest'
          else match split_crlf rest with
               | piece :: pieces => String a piece :: pieces
               | [] => [String a ""]
               end
      | EmptyString => [String a ""]
      end
  end.

Definition ascii_lower (c : ascii) : ascii := if byte_in 65 90 c then ascii_of_N (N_of_ascii c + 32) else c.
Fixpoint to_ascii_lowercase (s : string) : string :=
  match s with EmptyString => "" | String c s => String (ascii_lower c) (to_ascii_lowercase s) end.

(** [str::contains("//")]. *)
Fixpoint contains_slashes (s : string) : bool :=
  match s with
  | String a ((String b _) as rest) => (bool_decide (a = "/"%char) && bool_decide (b = "/"%char)) || contains_slashes rest
  | _ => false
  end.

(** * Data *)
Module ParseError.
Record t := mk { status : N; message : string }.
End ParseError.
Notation ParseError := ParseError.t.

Definition bad (message : string) : ParseError := ParseError.mk 400 message.
(** [From<io::Error>]. *)
Definition io_error : ParseError := bad "incomplete or timed out HTTP request".

Module Request.
Record t := mk { method : string; path : string; namespace : string; token : string; body : Value }.
End Request.
Notation Request := Request.t.

Module ReadStep.
Record t := mk { late : bool; fails : bool; arrives : nat }.
Definition prompt : t := mk false false 4095.
End ReadStep.
Notation ReadStep := ReadStep.t.

(** What a peer sends, and the schedule of its arrival; after the schedule every
    round is in time and delivers what fits. *)
Module Conn.
Record t := mk { incoming : string; steps : list ReadStep }.
Definition step (c : t) : ReadStep := default ReadStep.prompt (head (steps c)).
Definition advance (c : t) : t := mk (incoming c) (tail (steps c)).
(** [reader.read(&mut buffer[..limit])]: at least one byte, unless there is none. *)
Definition read (limit : nat) (c : t) : string * t :=
  let count := Nat.min (S (ReadStep.arrives (step c))) limit in
  (str_take count (incoming c), mk (str_drop count (incoming c)) (tail (steps c))).
End Conn.
Notation Conn := Conn.t.

(** * [read_request] *)

(** The loop up to the blank line; every round but the last reads a byte, so there
    are at most as many rounds as bytes ([read_head_fuel]). *)
Fixpoint read_head (fuel : nat) (bytes : string) (conn : Conn) : Result (string * nat * Conn) ParseError :=
  match fuel with
  | O => Err (bad "incomplete headers")
  | S fuel =>
      if ReadStep.late (Conn.step conn) then Err (bad "request deadline exceeded")
      else match find_blank bytes with
      | Some index =>
          if (MAX_HEADERS <? N.of_nat index)%N then Err (bad "headers too large")
          else Ok (bytes, index + 4, Conn.advance conn)
      | None =>
          if (MAX_HEADERS <? str_len bytes)%N then Err (bad "headers too large")
          else if ReadStep.fails (Conn.step conn) then Err io_error
          else
            let '(chunk, conn) := Conn.read 4096 conn in
            if bool_decide (chunk = "") then Err (bad "incomplete headers")
            else read_head fuel (bytes +:+ chunk) conn
      end
  end.

Definition METHODS : list string := ["GET"; "POST"; "PUT"; "DELETE"; "LIST"; "SCAN"; "PATCH"; "HEAD"].

Definition request_line (line : string) : Result (string * string) ParseError :=
  match split " " line with
  | [method; target; version] =>
      if negb (bool_decide (version = "HTTP/1.1")) || negb (bool_decide (method ∈ METHODS))
      then Err (bad "unsupported HTTP method or version")
      else if (8192 <? str_len target)%N || negb (has_prefix "/v1/" target) then Err (bad "request must use /v1/ API")
      else Ok (method, target)
  | _ => Err (bad "unsupported HTTP method or version")
  end.

Definition header_byte (c : ascii) : bool := is_ascii_alphanumeric c || bool_decide (c = "-"%char).
Definition value_byte (c : ascii) : bool := negb (byte_in 0 31 c) || byte_in 9 9 c.

Definition header_line (count : nat) (line : string) : Result (string * string) ParseError :=
  if (100 <=? count) || starts_with " " line || starts_with (ascii_of_N 9) line then Err (bad "invalid header framing")
  else
    let? nv := ok_or (split_once ":" line) (bad "invalid header") in
    let '(name, value) := nv in
    if bool_decide (name = "") || negb (str_all header_byte name) || negb (str_all value_byte value)
    then Err (bad "invalid header bytes")
    else Ok (to_ascii_lowercase name, str_trim value).

Fixpoint header_map (count : nat) (lines : list string) (map : gmap string string) :
  Result (gmap string string) ParseError :=
  match lines with
  | [] => Ok map
  | line :: lines =>
      let? nv := header_line count line in
      if bool_decide (is_Some (map !! nv.1)) then Err (bad "duplicate headers are not supported")
      else header_map (S count) lines (<[nv.1 := nv.2]> map)
  end.

Definition unsupported_header (name : string) : bool :=
  (has_prefix "x-vault-" name || has_prefix "x-bao-" name)
  && negb (bool_decide (name ∈ ["x-vault-token"; "x-vault-namespace"; "x-vault-request"])).

Definition content_length (map : gmap string string) : Result N ParseError :=
  match map !! "content-length" with
  | None => Ok 0%N
  | Some v =>
      if negb (bool_decide (v = "")) && str_all is_ascii_digit v then ok_or (parse_u64 v) (bad "invalid content length")
      else Err (bad "invalid content length")
  end.

(** What the head of a request says. *)
Module Head.
Record t := mk { method : string; target : string; namespace : string; token : string; length : N }.
End Head.
Notation Head := Head.t.

Definition json_content (v : string) : bool :=
  bool_decide (default "" (head (split ";" v)) ∈ ["application/json"; "application/merge-patch+json"]).

Definition check_headers (method target : string) (map : gmap string string) : Result Head ParseError :=
  if negb (bool_decide (is_Some (map !! "host"))) then Err (bad "Host header is required")
  else if existsb unsupported_header (btree_keys map)
  then Err (ParseError.mk 501 "requested OpenBao header semantics are not implemented")
  else if bool_decide (is_Some (map !! "transfer-encoding")) || bool_decide (is_Some (map !! "expect"))
  then Err (bad "streamed request bodies are not supported")
  else
    let? length := content_length map in
    let maximum_body := if has_prefix "/v1/sys/storage/raft/snapshot" target then MAX_SNAPSHOT_BODY else MAX_BODY in
    if (maximum_body <? length)%N then Err (ParseError.mk 413 "request body exceeds limit")
    else
      let raw_namespace := default "" (map !! "x-vault-namespace") in
      if bool_decide (raw_namespace = "/") || contains_slashes raw_namespace then Err (bad "ambiguous namespace segments")
      else
        let namespace := default raw_namespace (strip_suffix "/" raw_namespace) in
        let token := default "" (map !! "x-vault-token") in
        if (16 * 1024 <? str_len token)%N then Err (bad "token header exceeds limit")
        else if (0 <? length)%N && match map !! "content-type" with Some v => negb (json_content v) | None => false end
        then Err (bad "JSON content type required")
        else Ok (Head.mk method target namespace token length).

Definition parse_head (headers : string) : Result Head ParseError :=
  if negb (str_all (byte_in 0 127) headers) then Err (bad "headers must be ASCII")
  else
    let lines := split_crlf (str_take (String.length headers - 4) headers) in
    let? mt := request_line (default "" (head lines)) in
    let? map := header_map 0 (tail lines) ∅ in
    check_headers mt.1 mt.2 map.

(** The loop over the body; again at most a round per byte. *)
Fixpoint read_body (fuel : nat) (bytes : string) (total : N) (conn : Conn) : Result (string * Conn) ParseError :=
  if (total <=? str_len bytes)%N then Ok (bytes, conn)
  else match fuel with
  | O => Err (bad "incomplete body")
  | S fuel =>
      if ReadStep.late (Conn.step conn) then Err (bad "request deadline exceeded")
      else if ReadStep.fails (Conn.step conn) then Err io_error
      else
        let remaining := N.to_nat (N.min (total - str_len bytes) 4096) in
        let '(chunk, conn) := Conn.read remaining conn in
        if bool_decide (chunk = "") then Err (bad "incomplete body")
        else read_body fuel (bytes +:+ chunk) total conn
  end.

Fixpoint query_bytes (s : string) : Result string ParseError :=
  match s with
  | EmptyString => Ok ""
  | String c rest =>
      if decide (c = "%"%char) then
        match rest with
        | String a (String b rest) =>
            let? v := ok_or (hex_pair a b) (bad "invalid query escape") in
            let? output := query_bytes rest in
            Ok (String (ascii_of_N v) output)
        | _ => Err (bad "invalid query escape")
        end
      else
        let? output := query_bytes rest in
        Ok (String (if decide (c = "+"%char) then " "%char else c) output)
  end.

Definition decode_query (value : string) : Result string ParseError :=
  let? result := query_bytes value in
  if negb (str_all (λ c, negb (byte_in 0 31 c || byte_in 127 127 c)) result) then Err (bad "invalid query bytes")
  else if utf8_valid result then Ok result else Err (bad "invalid query text").

Definition query_value (key value : string) : Result Value ParseError :=
  if bool_decide (key ∈ ["version"; "depth"; "limit"])
  then map_ok Json.u64 (ok_or (parse_u64 value) (bad "invalid numeric query"))
  else if bool_decide (value = "true") then Ok (VBool true)
  else if bool_decide (value = "false") then Ok (VBool false)
  else Ok (VString value).

Fixpoint query_params (pairs : list string) (object : list (string * Value)) : Result (list (string * Value)) ParseError :=
  match pairs with
  | [] => Ok object
  | pair_ :: pairs =>
      let? kv := ok_or (split_once "=" pair_) (bad "query parameters require values") in
      let? key := decode_query kv.1 in
      let? value := decode_query kv.2 in
      if negb (bool_decide (key ∈ ["version"; "depth"; "limit"; "list"; "after"; "exclude_deleted"]))
      then Err (bad "unsupported query parameter; request fields belong in JSON body")
      else if bool_decide (is_Some (obj_get key object)) then Err (bad "duplicate body/query parameter")
      else
        let? parsed := query_value key value in
        query_params pairs (obj_insert key parsed object)
  end.

Section request.
Context `{JsonText}.

(** The request, from its head and the text of its body. *)
Definition build_request (head : Head) (text : string) : Result Request ParseError :=
  let? body := if (Head.length head =? 0)%N then Ok (VObject [])
               else ok_or (parse_strict_json text) (bad "invalid JSON object") in
  let? object := ok_or (Json.as_object body) (bad "JSON object required") in
  let target := str_drop 4 (Head.target head) in
  let '(path, query) := default (target, "") (split_once "?" target) in
  if str_contains "%" path || str_contains "#" path then Err (bad "ambiguous encoded paths are not supported")
  else
    let? object := query_params (filter (λ p, p ≠ "") (split "&" query)) object in
    let listing := obj_get "list" object in
    if bool_decide (Head.method head = "GET") && match listing with Some (VBool _) | None => false | Some _ => true end
    then Err (bad "list parameter must be boolean")
    else
      let '(method, object) :=
        if bool_decide (Head.method head = "GET") && bool_decide (listing = Some (VBool true))
        then ("LIST", obj_remove "list" object) else (Head.method head, object) in
      Ok (Request.mk method path (Head.namespace head) (Head.token head) (VObject object)).

(** The request, with the connection after it. *)
Definition read_request (conn : Conn) : Result (Request * Conn) ParseError :=
  let fuel := S (String.length (Conn.incoming conn)) in
  let? head_read := read_head fuel "" conn in
  let '(bytes, header_end, conn) := head_read in
  let? head := parse_head (str_take header_end bytes) in
  let total := (N.of_nat header_end + Head.length head)%N in
  let? body_read := read_body fuel bytes total conn in
  let '(bytes, conn) := body_read in
  if negb (str_len bytes =? total)%N then Err (bad "pipelining and trailing bytes are not supported")
  else
    let? request := build_request head (str_drop header_end bytes) in
    Ok (request, conn).

(** * [write_response] *)
Definition reason (status : N) : string :=
  match status with
  | 200 => "OK" | 204 => "No Content" | 400 => "Bad Request" | 403 => "Forbidden" | 404 => "Not Found" | 409 => "Conflict"
  | 413 => "Payload Too Large" | 429 => "Too Many Requests" | 501 => "Not Implemented" | 503 => "Service Unavailable"
  | 507 => "Insufficient Storage" | _ => "Error"
  end%N.

Definition OVERSIZED : string :=
  let q := String (ascii_of_N 34) "" in "{" +:+ q +:+ "errors" +:+ q +:+ ":[" +:+ q +:+ "response exceeds limit" +:+ q +:+ "]}".

Definition response_bytes (status : N) (body : Value) (head : bool) : string :=
  let bytes := if (status =? 204)%N then "" else json_to_string body in
  let '(bytes, status) := if (MAX_RESPONSE <? str_len bytes)%N then (OVERSIZED, 500%N) else (bytes, status) in
  let retry_after := if (status =? 429)%N then "Retry-After: 1" +:+ CRLF else "" in
  "HTTP/1.1 " +:+ render_u64 status +:+ " " +:+ reason status +:+ CRLF
  +:+ "Content-Type: application/json" +:+ CRLF
  +:+ "Content-Length: " +:+ render_u64 (str_len bytes) +:+ CRLF
  +:+ retry_after +:+ "Connection: close" +:+ CRLF +:+ "Cache-Control: no-store" +:+ CRLF
  +:+ "X-Content-Type-Options: nosniff" +:+ CRLF +:+ CRLF
  +:+ (if head then "" else bytes).
End request.
