(* ===== verification/HttpSpec.v ===== *)
(** Reading a request does not depend on how its bytes arrive. *)
From Stdlib Require Import Ascii NArith.
From S2P Require Import Prelude Str Json Gf256 Base32 Engine EngineState Acl Http.

(** * Pieces of text *)
Lemma str_take_drop n s : str_take n s +:+ str_drop n s = s.
Proof. revert s. induction n as [|n IH]; intros [|c s]; [done..|]. simpl. by rewrite str_app_cons, IH. Qed.

Lemma str_take_length n s : String.length (str_take n s) = Nat.min n (String.length s).
Proof. revert s. induction n as [|n IH]; intros [|c s]; simpl; [done..|]. by rewrite IH. Qed.

Lemma str_drop_length n s : String.length (str_drop n s) = String.length s - n.
Proof. revert s. induction n as [|n IH]; intros [|c s]; simpl; [done..|]. by rewrite IH. Qed.

Lemma str_take_app n s t : n ≤ String.length s → str_take n (s +:+ t) = str_take n s.
Proof.
  revert s. induction n as [|n IH]; intros [|c s] Hn; simpl in *; [done..|lia|]. rewrite IH; [done|lia].
Qed.

Lemma str_take_all s t : str_take (String.length s) (s +:+ t) = s.
Proof. induction s as [|c s IH]; [done|]. rewrite str_app_cons. simpl. by rewrite IH. Qed.

Lemma str_drop_all s t : str_drop (String.length s) (s +:+ t) = t.
Proof. induction s as [|c s IH]; [done|]. rewrite str_app_cons. simpl. by rewrite IH. Qed.

Lemma str_drop_app n s t : n ≤ String.length s → str_drop n (s +:+ t) = str_drop n s +:+ t.
Proof.
  revert s. induction n as [|n IH]; intros [|c s] Hn; simpl in *; [done..|lia|]. apply IH. lia.
Qed.

Lemma str_app_inj s1 s2 t1 t2 : String.length s1 = String.length s2 → s1 +:+ t1 = s2 +:+ t2 → s1 = s2 ∧ t1 = t2.
Proof.
  revert s2. induction s1 as [|c s1 IH]; intros [|c' s2] Hl E; simpl in *; [done..|].
  injection E as -> E. injection Hl as Hl. by destruct (IH _ Hl E) as [-> ->].
Qed.

Lemma str_length_nil s : String.length s = 0 → s = "".
Proof. by destruct s. Qed.

(** * The blank line *)
Lemma strip_prefix_shorter pre p t :
  strip_prefix pre p = None → String.length pre ≤ String.length p → strip_prefix pre (p +:+ t) = None.
Proof.
  revert p. induction pre as [|c pre IH]; intros [|c' p] Hs Hl; simpl in *; [done..|lia|].
  case_decide; [|done]. apply IH; [done|lia].
Qed.

Lemma find_blank_inside p i : find_blank p = Some i → i + 4 ≤ String.length p.
Proof.
  revert i. induction p as [|c p IH]; intros i; [done|]. cbn [find_blank].
  destruct (strip_prefix _ _) as [r|] eqn:E.
  - intros [= <-]. apply strip_prefix_Some in E. rewrite E, str_length_app. simpl. lia.
  - destruct (find_blank p) as [j|]; [|done]. intros [= <-]. specialize (IH j eq_refl). simpl. lia.
Qed.

Lemma find_blank_app p t i : find_blank p = Some i → find_blank (p +:+ t) = Some i.
Proof.
  revert i. induction p as [|c p IH]; intros i Hp; [done|]. pose proof (find_blank_inside _ _ Hp) as Hl.
  rewrite str_app_cons. cbn [find_blank] in *. rewrite <-str_app_cons. destruct (strip_prefix _ (String c p)) as [r|] eqn:E.
  - apply strip_prefix_Some in E. rewrite E, str_app_assoc, strip_prefix_app. done.
  - rewrite strip_prefix_shorter; [|done|simpl in *; lia]. destruct (find_blank p) as [j|]; [|done]. by rewrite (IH j eq_refl).
Qed.

Lemma find_blank_within p t i : find_blank (p +:+ t) = Some i → i + 4 ≤ String.length p → find_blank p = Some i.
Proof.
  revert i. induction p as [|c p IH]; intros i Hp Hl; simpl in Hl; [lia|].
  rewrite str_app_cons in Hp. cbn [find_blank] in *. rewrite <-str_app_cons in Hp.
  destruct (strip_prefix _ (String c p)) as [r|] eqn:E.
  - apply strip_prefix_Some in E. rewrite E, str_app_assoc, strip_prefix_app in Hp. done.
  - destruct (strip_prefix (CRLF +:+ CRLF) (String c p +:+ t)) as [r|] eqn:E'.
    { rewrite strip_prefix_shorter in E'; [done|done|]. injection Hp as <-. simpl. lia. }
    destruct (find_blank (p +:+ t)) as [j|] eqn:Ej; [|done]. injection Hp as <-. rewrite (IH j eq_refl); [done|lia].
Qed.

(** Of a prefix of the stream. *)
Lemma find_blank_prefix p t i :
  find_blank (p +:+ t) = Some i → find_blank p = if i + 4 <=? String.length p then Some i else None.
Proof.
  intros Hs. destruct (Nat.leb_spec (i + 4) (String.length p)) as [|Hlt]; [by eapply find_blank_within|].
  destruct (find_blank p) as [j|] eqn:Ej; [|done]. pose proof (find_blank_inside _ _ Ej).
  rewrite (find_blank_app _ t _ Ej) in Hs. simplify_eq. lia.
Qed.

(** * The loops *)
Lemma conn_read_stream limit conn chunk conn' :
  Conn.read limit conn = (chunk, conn') → Conn.incoming conn = chunk +:+ Conn.incoming conn'.
Proof. unfold Conn.read. intros [= <- <-]. simpl. by rewrite str_take_drop. Qed.

Lemma conn_read_some limit conn chunk conn' :
  0 < limit → Conn.incoming conn ≠ "" → Conn.read limit conn = (chunk, conn') → chunk ≠ "".
Proof.
  unfold Conn.read. intros Hl Hi [= <- _]. destruct (Conn.incoming conn) as [|c s]; [done|].
  destruct limit as [|limit]; [lia|]. simpl. done.
Qed.

Lemma read_head_sound fuel bytes conn bytes' he conn' :
  read_head fuel bytes conn = Ok (bytes', he, conn') →
  bytes +:+ Conn.incoming conn = bytes' +:+ Conn.incoming conn' ∧ ∃ i, he = i + 4 ∧ find_blank bytes' = Some i.
Proof.
  revert bytes conn. induction fuel as [|fuel IH]; intros bytes conn; cbn [read_head]; [done|].
  destruct (ReadStep.late _); [done|]. destruct (find_blank bytes) as [i|] eqn:Ei.
  - destruct (_ <? _)%N; [done|]. intros [= <- <- <-]. split; [done|]. by exists i.
  - destruct (_ <? _)%N; [done|]. destruct (ReadStep.fails _); [done|].
    destruct (Conn.read 4096 conn) as [chunk conn1] eqn:Er. case_bool_decide; [done|]. intros E.
    destruct (IH _ _ E) as [E1 E2]. split; [|done]. by rewrite <-E1, (conn_read_stream _ _ _ _ Er), str_app_assoc.
Qed.

Lemma read_body_sound fuel bytes total conn bytes' conn' :
  read_body fuel bytes total conn = Ok (bytes', conn') → bytes +:+ Conn.incoming conn = bytes' +:+ Conn.incoming conn'.
Proof.
  revert bytes conn. induction fuel as [|fuel IH]; intros bytes conn; cbn [read_body]; (destruct (_ <=? _)%N; [by intros [= <- <-]|]); [done|].
  destruct (ReadStep.late _); [done|]. destruct (ReadStep.fails _); [done|].
  destruct (Conn.read _ conn) as [chunk conn1] eqn:Er. case_bool_decide; [done|]. intros E.
  by rewrite <-(IH _ _ E), (conn_read_stream _ _ _ _ Er), str_app_assoc.
Qed.

(** A schedule on which nothing goes wrong. *)
Definition timely (conn : Conn) : Prop := Forall (λ s, ReadStep.late s = false ∧ ReadStep.fails s = false) (Conn.steps conn).

Lemma timely_step conn : timely conn → ReadStep.late (Conn.step conn) = false ∧ ReadStep.fails (Conn.step conn) = false.
Proof. unfold timely, Conn.step. destruct (Conn.steps conn); [done|]. by intros [? _]%Forall_cons. Qed.

Lemma timely_advance conn : timely conn → timely (Conn.advance conn).
Proof. unfold timely. simpl. destruct (Conn.steps conn); [done|]. by intros [_ ?]%Forall_cons. Qed.

Lemma timely_read limit conn chunk conn' : timely conn → Conn.read limit conn = (chunk, conn') → timely conn'.
Proof. intros Ht [= _ <-]. exact (timely_advance conn Ht). Qed.

Lemma read_head_complete fuel bytes conn i :
  timely conn → find_blank (bytes +:+ Conn.incoming conn) = Some i → (N.of_nat i + 3 ≤ MAX_HEADERS)%N →
  String.length (Conn.incoming conn) < fuel →
  ∃ bytes' conn', read_head fuel bytes conn = Ok (bytes', i + 4, conn') ∧ timely conn'.
Proof.
  revert bytes conn. induction fuel as [|fuel IH]; intros bytes conn Ht Hi Hmax Hf; [lia|]. cbn [read_head].
  destruct (timely_step conn Ht) as [-> ->]. rewrite (find_blank_prefix _ _ _ Hi).
  destruct (Nat.leb_spec (i + 4) (String.length bytes)) as [|Hlt].
  - destruct (N.ltb_spec MAX_HEADERS (N.of_nat i)); [lia|]. eexists _, _. split; [done|]. by apply timely_advance.
  - destruct (N.ltb_spec MAX_HEADERS (str_len bytes)) as [Hb|_]; [unfold str_len in Hb; lia|].
    destruct (Conn.read 4096 conn) as [chunk conn1] eqn:Er.
    assert (Hne : Conn.incoming conn ≠ "").
    { intros E. rewrite E, str_app_nil_r in Hi. apply find_blank_inside in Hi. lia. }
    pose proof (conn_read_some 4096 conn chunk conn1 ltac:(lia) Hne Er) as Hc. rewrite bool_decide_false by done.
    pose proof (conn_read_stream _ _ _ _ Er) as Es. apply IH.
    + by eapply timely_read.
    + by rewrite str_app_assoc, <-Es.
    + done.
    + rewrite Es, str_length_app in Hf. destruct chunk; [done|]. simpl in Hf. lia.
Qed.

Lemma read_body_complete fuel bytes total conn :
  timely conn → (str_len bytes ≤ total)%N → str_len (bytes +:+ Conn.incoming conn) = total →
  String.length (Conn.incoming conn) < fuel →
  ∃ conn', read_body fuel bytes total conn = Ok (bytes +:+ Conn.incoming conn, conn') ∧ Conn.incoming conn' = "".
Proof.
  revert bytes conn. induction fuel as [|fuel IH]; intros bytes conn Ht Hle Htot Hf; [lia|].
  unfold str_len in *. rewrite str_length_app in Htot. cbn [read_body].
  destruct (N.leb_spec total (str_len bytes)) as [Hb|Hb]; unfold str_len in Hb.
  { assert (Conn.incoming conn = "") as E by (apply str_length_nil; lia). exists conn. by rewrite E, str_app_nil_r. }
  destruct (timely_step conn Ht) as [-> ->]. set (remaining := N.to_nat _).
  assert (Hr : 0 < remaining) by (unfold remaining, str_len; lia).
  destruct (Conn.read remaining conn) as [chunk conn1] eqn:Er.
  assert (Hne : Conn.incoming conn ≠ "") by (intros E; rewrite E in Htot; simpl in Htot; lia).
  pose proof (conn_read_some remaining conn chunk conn1 Hr Hne Er) as Hc. rewrite bool_decide_false by done.
  pose proof (conn_read_stream _ _ _ _ Er) as Es. rewrite Es, str_length_app in Htot. rewrite Es, str_length_app in Hf. rewrite Es, <-str_app_assoc.
  apply IH.
  - by eapply timely_read.
  - unfold str_len. rewrite str_length_app. lia.
  - unfold str_len. rewrite !str_length_app. lia.
  - destruct chunk; [done|]. simpl in Hf. lia.
Qed.

(** * One message *)
Section messages.
Context `{JT : JsonText}.

(** The request a stream starts with, and the rest of the stream. *)
Definition decode_message (s : string) : option (Request * string) :=
  i ← find_blank s;
  if (MAX_HEADERS <? N.of_nat i)%N then None
  else match parse_head (str_take (i + 4) s) with
  | Err _ => None
  | Ok head =>
      let total := i + 4 + N.to_nat (Head.length head) in
      if String.length s <? total then None
      else match build_request head (str_drop (i + 4) (str_take total s)) with
      | Err _ => None
      | Ok request => Some (request, str_drop total s)
      end
  end.

Lemma read_head_index fuel bytes conn bytes' he conn' :
  read_head fuel bytes conn = Ok (bytes', he, conn') → (N.of_nat he ≤ MAX_HEADERS + 4)%N.
Proof.
  revert bytes conn. induction fuel as [|fuel IH]; intros bytes conn; cbn [read_head]; [done|].
  destruct (ReadStep.late _); [done|]. destruct (find_blank bytes) as [i|].
  - destruct (N.ltb_spec MAX_HEADERS (N.of_nat i)); [done|]. intros [= <- <- <-]. lia.
  - destruct (_ <? _)%N; [done|]. destruct (ReadStep.fails _); [done|].
    destruct (Conn.read 4096 conn) as [chunk conn1]. case_bool_decide; [done|]. apply IH.
Qed.

(** A request that is read is the one the bytes start with. *)
Lemma read_is_message conn r conn' :
  read_request conn = Ok (r, conn') → decode_message (Conn.incoming conn) = Some (r, Conn.incoming conn').
Proof.
  unfold read_request. destruct (read_head _ "" conn) as [[[bytes he] conn1]|] eqn:Eh; [|done].
  pose proof (read_head_index _ _ _ _ _ _ Eh) as Hm.
  destruct (read_head_sound _ _ _ _ _ _ Eh) as (Es & i & -> & Hi). change ("" +:+ Conn.incoming conn) with (Conn.incoming conn) in Es. pose proof (find_blank_inside _ _ Hi) as Hl.
  destruct (parse_head _) as [head|] eqn:Ep; [|done]. destruct (read_body _ _ _ _) as [[bytes' conn2]|] eqn:Eb; [|done].
  pose proof (read_body_sound _ _ _ _ _ _ Eb) as Es2. destruct (N.eqb_spec (str_len bytes') (N.of_nat (i + 4) + Head.length head)) as [Ht|]; [|done].
  simpl negb. cbn match. destruct (build_request _ _) as [r'|] eqn:Er; [|done]. intros [= <- <-].
  unfold decode_message. rewrite Es, (find_blank_app _ _ _ Hi). simpl.
  rewrite (proj2 (N.ltb_ge _ _)) by lia. rewrite str_take_app by done. rewrite Ep, Es2.
  assert (Htot : i + 4 + N.to_nat (Head.length head) = String.length bytes') by (unfold str_len in Ht; lia).
  rewrite Htot, str_length_app, (proj2 (Nat.ltb_ge _ _)) by lia. by rewrite str_take_all, Er, str_drop_all.
Qed.

(** One message is read completely. *)
Lemma read_message conn r i :
  decode_message (Conn.incoming conn) = Some (r, "") → find_blank (Conn.incoming conn) = Some i →
  (N.of_nat i + 3 ≤ MAX_HEADERS)%N → timely conn → ∃ conn', read_request conn = Ok (r, conn') ∧ Conn.incoming conn' = "".
Proof.
  intros Hd Hi Hmax Ht. unfold decode_message in Hd. rewrite Hi in Hd. simpl in Hd.
  rewrite (proj2 (N.ltb_ge _ _)) in Hd by lia. destruct (parse_head _) as [head|] eqn:Ep; [|done].
  destruct (Nat.ltb_spec (String.length (Conn.incoming conn)) (i + 4 + N.to_nat (Head.length head))) as [|Hle]; [done|].
  destruct (build_request _ _) as [r'|] eqn:Er; [|done]. injection Hd as -> Hrest.
  assert (Htot : String.length (Conn.incoming conn) = i + 4 + N.to_nat (Head.length head)).
  { pose proof (str_drop_length (i + 4 + N.to_nat (Head.length head)) (Conn.incoming conn)) as E. rewrite Hrest in E. simpl in E. lia. }
  unfold read_request.
  destruct (read_head_complete (S (String.length (Conn.incoming conn))) "" conn i Ht Hi Hmax ltac:(lia)) as (bytes & conn1 & Eh & Ht1).
  rewrite Eh. destruct (read_head_sound _ _ _ _ _ _ Eh) as (Es & j & Ej & Hj). change ("" +:+ Conn.incoming conn) with (Conn.incoming conn) in Es. assert (j = i) as -> by lia.
  pose proof (find_blank_inside _ _ Hj) as Hl. rewrite Es, str_take_app in Ep by done. rewrite Ep.
  destruct (read_body_complete (S (String.length (Conn.incoming conn))) bytes (N.of_nat (i + 4) + Head.length head) conn1 Ht1) as (conn2 & Eb & Hin).
  - rewrite Es, str_length_app in Htot. unfold str_len. lia.
  - rewrite <-Es. unfold str_len. lia.
  - rewrite Es, str_length_app. destruct bytes; simpl in *; lia.
  - rewrite Eb, <-Es. rewrite (proj2 (N.eqb_eq _ _)) by (unfold str_len; lia). simpl negb. cbn match.
    rewrite <-Htot in Er. assert (str_take (String.length (Conn.incoming conn)) (Conn.incoming conn) = Conn.incoming conn) as Eall.
    { rewrite <-(str_app_nil_r (Conn.incoming conn)) at 2. apply str_take_all. }
    rewrite Eall in Er. rewrite Er. eauto.
Qed.

(** C38: Reading a request is decoding a message.  Whatever the schedule of arrivals,
    a request that is read is the one the bytes of the connection start with, and
    exactly its bytes have been taken; and a connection that carries one message whose
    head is within the limit is read completely, on every schedule without a failure
    or a missed deadline. *)
Theorem http_reads_messages conn :
  (∀ r conn', read_request conn = Ok (r, conn') → decode_message (Conn.incoming conn) = Some (r, Conn.incoming conn')) ∧
  (∀ r i, decode_message (Conn.incoming conn) = Some (r, "") → find_blank (Conn.incoming conn) = Some i →
     (N.of_nat i + 3 ≤ MAX_HEADERS)%N → timely conn → ∃ conn', read_request conn = Ok (r, conn') ∧ Conn.incoming conn' = "").
Proof. split; [intros r conn'; apply read_is_message|intros r i; apply read_message]. Qed.
End messages.

(** * Rendering a request *)

(** The text of a head: its lines, each with its line end. *)
Fixpoint join_crlf (lines : list string) : string :=
  match lines with
  | [] => ""
  | [line] => line
  | line :: lines => line +:+ CRLF +:+ join_crlf lines
  end.

(** A line that can be sent: not empty, and without a carriage return. *)
Definition sendable (line : string) : Prop := line ≠ "" ∧ lacks CR line.

Lemma find_blank_skip line s : lacks CR line → find_blank (line +:+ s) = (λ i, String.length line + i) <$> find_blank s.
Proof.
  unfold lacks. induction line as [|c line IH]; intros Hl; [change ("" +:+ s) with s; by destruct (find_blank s)|]. simpl in Hl.
  rewrite andb_True, negb_True, bool_decide_spec in Hl. destruct Hl as [Hc Hl]. rewrite str_app_cons. cbn [find_blank].
  assert (strip_prefix (CRLF +:+ CRLF) (String c (line +:+ s)) = None) as ->.
  { change (CRLF +:+ CRLF) with (String CR (String LF CRLF)). cbn [strip_prefix]. by rewrite decide_False by congruence. }
  rewrite (IH Hl). by destruct (find_blank s).
Qed.

Lemma find_blank_crlf c s : c ≠ CR → find_blank (CRLF +:+ String c s) = (λ i, 2 + i) <$> find_blank (String c s).
Proof.
  intros Hc. change (CRLF +:+ String c s) with (String CR (String LF (String c s))). set (s' := String c s).
  cbn [find_blank]. change (CRLF +:+ CRLF) with (String CR (String LF CRLF)). cbn [strip_prefix].
  rewrite (decide_True (P := CR = CR)), (decide_True (P := LF = LF)) by done. unfold s' at 1. unfold CRLF at 1. cbn [strip_prefix].
  rewrite (decide_False (P := CR = c)) by congruence. rewrite (decide_False (P := CR = LF)) by (vm_compute; discriminate).
  by destruct (find_blank s').
Qed.

Lemma find_blank_lines lines s :
  lines ≠ [] → Forall sendable lines → find_blank (join_crlf lines +:+ CRLF +:+ CRLF +:+ s) = Some (String.length (join_crlf lines)).
Proof.
  intros Hne Hs. induction Hs as [|line lines [Hl1 Hl2] Hs IH]; [done|]. destruct lines as [|line2 lines].
  - cbn [join_crlf]. rewrite find_blank_skip by done. change (CRLF +:+ CRLF +:+ s) with ((CRLF +:+ CRLF) +:+ s).
    assert (find_blank ((CRLF +:+ CRLF) +:+ s) = Some 0) as ->.
    { change ((CRLF +:+ CRLF) +:+ s) with (String CR (String LF CRLF) +:+ s). cbn [find_blank]. rewrite str_app_cons. cbn [find_blank].
      change (String CR (String LF CRLF +:+ s)) with ((CRLF +:+ CRLF) +:+ s). by rewrite strip_prefix_app. }
    simpl. f_equal. lia.
  - specialize (IH ltac:(done)). change (join_crlf (line :: line2 :: lines)) with (line +:+ CRLF +:+ join_crlf (line2 :: lines)).
    apply Forall_cons in Hs as [[Hn2 Hl2'] _].
    assert (∃ c t, join_crlf (line2 :: lines) = String c t ∧ c ≠ CR) as (c & t & Ej & Hc).
    { destruct line2 as [|c line2]; [done|]. unfold lacks in Hl2'. simpl in Hl2'. rewrite andb_True, negb_True, bool_decide_spec in Hl2'. destruct Hl2' as [Hc _].
      destruct lines; simpl; eauto. }
    rewrite !str_app_assoc, find_blank_skip by done. rewrite Ej in IH |- *. rewrite str_app_cons, find_blank_crlf by done.
    rewrite <-str_app_cons, IH. simpl. f_equal. rewrite !str_length_app. simpl. lia.
Qed.

Lemma split_crlf_line line s : lacks CR line → split_crlf (line +:+ CRLF +:+ s) = line :: split_crlf s.
Proof.
  unfold lacks. induction line as [|c line IH]; intros Hl.
  - change ("" +:+ CRLF +:+ s) with (String CR (String LF s)). cbn [split_crlf]. by rewrite decide_True.
  - simpl in Hl. rewrite andb_True, negb_True, bool_decide_spec in Hl. destruct Hl as [Hc Hl]. specialize (IH Hl).
    rewrite str_app_cons. cbn [split_crlf]. destruct (line +:+ CRLF +:+ s) as [|b rest] eqn:E.
    { by destruct line. }
    rewrite decide_False by (by intros [? _]). by rewrite IH.
Qed.

Lemma split_crlf_last line : lacks CR line → split_crlf line = [line].
Proof.
  unfold lacks. induction line as [|c line IH]; intros Hl; [done|]. simpl in Hl.
  rewrite andb_True, negb_True, bool_decide_spec in Hl. destruct Hl as [Hc Hl]. specialize (IH Hl).
  cbn [split_crlf]. destruct line as [|b rest]; [done|]. rewrite decide_False by (by intros [? _]). by rewrite IH.
Qed.

Lemma split_crlf_lines lines : lines ≠ [] → Forall sendable lines → split_crlf (join_crlf lines) = lines.
Proof.
  intros Hne Hs. induction Hs as [|line lines [_ Hl] Hs IH]; [done|]. destruct lines as [|line2 lines]; [by apply split_crlf_last|].
  change (join_crlf (line :: line2 :: lines)) with (line +:+ CRLF +:+ join_crlf (line2 :: lines)).
  rewrite split_crlf_line by done. by rewrite IH.
Qed.

(** * Field values *)

(** Visible characters: nothing that is trimmed. *)
Definition visible (s : string) : bool := str_all (byte_in 33 126) s.

Definition invisible_start (p : string) : bool := match p with String c _ => negb (byte_in 33 126 c) | EmptyString => false end.

Lemma strip_any_visible pieces a s :
  forallb invisible_start pieces = true → byte_in 33 126 a = true → strip_any pieces (String a s) = None.
Proof.
  induction pieces as [|p pieces IH]; intros Hp Ha; [done|]. simpl in Hp. apply andb_true_iff in Hp as [Hp1 Hp2].
  cbn [strip_any]. destruct p as [|c p]; [done|]. cbn [strip_prefix]. simpl in Hp1.
  rewrite decide_False by (intros ->; by rewrite Ha in Hp1). by apply IH.
Qed.

Lemma trim_loop_visible fuel pieces s :
  forallb invisible_start pieces = true → visible s = true → trim_loop fuel pieces s = s.
Proof.
  intros Hp Hs. destruct fuel as [|fuel]; [done|]. cbn [trim_loop]. destruct s as [|a s].
  - clear Hs. assert (strip_any pieces "" = None) as ->; [|done].
    induction pieces as [|p pieces IH]; [done|]. simpl in Hp. apply andb_true_iff in Hp as [Hp1 Hp2]. cbn [strip_any].
    destruct p; [done|]. by apply IH.
  - unfold visible in Hs. simpl in Hs. apply andb_true_iff in Hs as [Ha _]. by rewrite strip_any_visible.
Qed.

Lemma str_rev_all f s acc : str_all f s = true → str_all f acc = true → str_all f (str_rev s acc) = true.
Proof. revert acc. induction s as [|c s IH]; intros acc Hs Ha; simpl in *; [done|]. apply andb_true_iff in Hs as [Hc Hs]. apply IH; [done|]. simpl. by rewrite Hc. Qed.

Lemma str_rev_append s t acc : str_rev (str_rev s t) acc = str_rev t (s +:+ acc).
Proof. revert t acc. induction s as [|c s IH]; intros t acc; [done|]. simpl. by rewrite IH. Qed.

Lemma str_rev_rev s : str_rev (str_rev s "") "" = s.
Proof. rewrite str_rev_append. simpl. apply str_app_nil_r. Qed.

Lemma trim_visible s : visible s = true → str_trim (String " " s) = s.
Proof.
  intros Hs. assert (trim_start (String " " s) = s) as E.
  { unfold trim_start. cbn [String.length trim_loop]. assert (strip_any (white_space ++ wide_space) (String " " s) = Some s) as -> by (vm_compute; reflexivity).
    apply trim_loop_visible; [vm_compute; reflexivity|done]. }
  unfold str_trim. rewrite E. unfold trim_end. rewrite trim_loop_visible; [apply str_rev_rev|vm_compute; reflexivity|].
  by apply str_rev_all.
Qed.

Lemma visible_impl (f : ascii → bool) s : (∀ c, byte_in 33 126 c = true → f c = true) → visible s = true → str_all f s = true.
Proof.
  intros Hf Hs. apply Is_true_true. eapply str_all_impl; [|by apply Is_true_true, Hs]. intros c Hc. apply Is_true_true, Hf. by apply Is_true_true.
Qed.

Lemma visible_range c : byte_in 33 126 c = true → (33 ≤ N_of_ascii c ≤ 126)%N.
Proof. unfold byte_in. intros [?%N.leb_le ?%N.leb_le]%andb_true_iff. lia. Qed.

Lemma visible_lacks c s : byte_in 33 126 c = false → visible s = true → lacks c s.
Proof.
  intros Hc Hs. apply Is_true_true. unfold lacks. apply visible_impl; [|done]. intros a Ha. apply negb_true_iff, bool_decide_eq_false_2.
  intros ->. congruence.
Qed.

Lemma render_visible n : visible (render_u64 n) = true.
Proof.
  apply Is_true_true. eapply str_all_impl; [|apply render_u64_all]. intros c Hc. unfold is_ascii_digit in Hc. unfold byte_in.
  rewrite andb_True, !Is_true_true, !N.leb_le in *. lia.
Qed.

(** * The round trip *)
Section roundtrip.
Context `{JT : JsonText}.

(** A request as a client sends it. *)
Record Sent := mk_sent { s_method : string; s_path : string; s_namespace : string; s_token : string; s_text : string }.

Definition field (name value : string) : string := name +:+ String ":" (String " " value).

Definition head_lines (r : Sent) : list string :=
  [s_method r +:+ String " " (("/v1/" +:+ s_path r) +:+ String " " "HTTP/1.1");
   field "Host" "heptabao"; field "X-Vault-Namespace" (s_namespace r); field "X-Vault-Token" (s_token r);
   field "Content-Length" (render_u64 (str_len (s_text r)))].

Definition render_request (r : Sent) : string := join_crlf (head_lines r) +:+ CRLF +:+ CRLF +:+ s_text r.

(** What a client may send: visible characters, a path without escapes and query, a
    canonical namespace, and sizes within the limits. *)
Record sent_ok (r : Sent) : Prop := {
  so_method : s_method r ∈ METHODS;
  so_path : visible (s_path r) = true ∧ lacks "?" (s_path r) ∧ lacks "%" (s_path r) ∧ lacks "#" (s_path r) ∧
    (str_len (s_path r) ≤ 8188)%N;
  so_namespace : visible (s_namespace r) = true ∧ contains_slashes (s_namespace r) = false ∧ strip_suffix "/" (s_namespace r) = None;
  so_token : visible (s_token r) = true ∧ (str_len (s_token r) ≤ 16 * 1024)%N;
  so_text : (str_len (s_text r) ≤ MAX_BODY)%N;
  so_head : (str_len (join_crlf (head_lines r)) + 3 ≤ MAX_HEADERS)%N;
}.

Lemma field_sendable name value : name ≠ "" → lacks CR name → visible value = true → sendable (field name value).
Proof.
  intros Hn Hl Hv. split; [by destruct name|]. unfold field, lacks in *. rewrite str_all_app, andb_True. split; [done|]. simpl.
  by apply (visible_lacks CR value).
Qed.

Lemma header_line_field n name value :
  n < 100 → starts_with " " name = false → starts_with (ascii_of_N 9) name = false → name ≠ "" →
  lacks ":" name → str_all header_byte name = true → visible value = true →
  header_line n (field name value) = Ok (to_ascii_lowercase name, value).
Proof.
  intros Hn Hs1 Hs2 Hne Hl Hb Hv. unfold header_line, field. rewrite (proj2 (Nat.leb_gt _ _)) by lia.
  assert (starts_with " " (name +:+ String ":" (String " " value)) = false) as -> by (by destruct name).
  assert (starts_with (ascii_of_N 9) (name +:+ String ":" (String " " value)) = false) as -> by (by destruct name).
  simpl orb. cbn match. rewrite split_once_app by done. cbn [ok_or]. rewrite bool_decide_false by done. rewrite Hb.
  assert (str_all value_byte (String " " value) = true) as ->.
  { simpl. apply visible_impl; [|done]. intros c Hc%visible_range. unfold value_byte. apply orb_true_iff. left.
    unfold byte_in. apply negb_true_iff, andb_false_iff. right. apply N.leb_gt. lia. }
  simpl. by rewrite trim_visible.
Qed.

Lemma request_line_parsed r :
  sent_ok r → request_line (default "" (head (head_lines r))) = Ok (s_method r, "/v1/" +:+ s_path r).
Proof.
  intros [Hm (Hv & _ & _ & _ & Hl) _ _ _ _]. unfold request_line, head_lines. cbn [head default from_option id].
  assert (Hms : lacks " " (s_method r)).
  { unfold METHODS in Hm. by repeat (apply elem_of_cons in Hm as [->|Hm]; [done|]); apply not_elem_of_nil in Hm. }
  rewrite split_app, (split_lacks _ _ Hms), split_app.
  rewrite (split_lacks " " ("/v1/" +:+ s_path r)) by (unfold lacks; rewrite str_all_app, andb_True; split; [done|]; by apply visible_lacks).
  change (split " " "HTTP/1.1") with ["HTTP/1.1"]. cbn [app]. rewrite !bool_decide_true by done. cbn [negb orb].
  assert (has_prefix "/v1/" ("/v1/" +:+ s_path r) = true) as -> by (unfold has_prefix; by rewrite strip_prefix_app, bool_decide_true).
  unfold str_len in *. rewrite str_length_app. simpl (String.length "/v1/"). by rewrite (proj2 (N.ltb_ge _ _)) by lia.
Qed.

Definition sent_headers (r : Sent) : gmap string string :=
  <["content-length" := render_u64 (str_len (s_text r))]> (<["x-vault-token" := s_token r]>
    (<["x-vault-namespace" := s_namespace r]> (<["host" := "heptabao"]> ∅))).

Lemma header_map_parsed r : sent_ok r → header_map 0 (tail (head_lines r)) ∅ = Ok (sent_headers r).
Proof.
  intros [_ _ (Hns & _) (Htk & _) _ _]. unfold head_lines. cbn [tail header_map].
  rewrite !header_line_field; try done; try lia; apply render_visible.
Qed.

Lemma check_headers_sent r :
  sent_ok r → check_headers (s_method r) ("/v1/" +:+ s_path r) (sent_headers r) =
    Ok (Head.mk (s_method r) ("/v1/" +:+ s_path r) (s_namespace r) (s_token r) (str_len (s_text r))).
Proof.
  intros [_ _ (Hns & Hsl & Hsuf) (Htk & Htl) Htx _]. unfold check_headers.
  rewrite (bool_decide_true (is_Some (sent_headers r !! "host"))) by (by eexists). cbn [negb].
  assert (existsb unsupported_header (btree_keys (sent_headers r)) = false) as ->.
  { unfold sent_headers. generalize (render_u64 (str_len (s_text r))), (s_token r), (s_namespace r). intros. vm_compute. reflexivity. }
  rewrite (bool_decide_false (is_Some (sent_headers r !! "transfer-encoding"))) by (by intros [? ?]).
  rewrite (bool_decide_false (is_Some (sent_headers r !! "expect"))) by (by intros [? ?]). cbn [orb].
  assert (content_length (sent_headers r) = Ok (str_len (s_text r))) as ->.
  { unfold content_length. change (sent_headers r !! "content-length") with (Some (render_u64 (str_len (s_text r)))).
    cbv beta iota. rewrite bool_decide_false by apply render_u64_nonempty. pose proof (render_u64_all (str_len (s_text r))) as Hd.
    apply Is_true_true in Hd. rewrite Hd. cbn [negb andb]. rewrite parse_render; [done|]. unfold MAX_BODY, U64_MAX in *. lia. }
  rewrite (proj2 (N.ltb_ge _ _)); [|destruct (has_prefix _ _); [etrans; [exact Htx|vm_compute; discriminate]|done]].
  change (sent_headers r !! "x-vault-namespace") with (Some (s_namespace r)). change (sent_headers r !! "x-vault-token") with (Some (s_token r)).
  cbn [default from_option id]. rewrite Hsl, Hsuf. rewrite bool_decide_false; [|intros E; rewrite E in Hsuf; by vm_compute in Hsuf].
  cbn [orb default from_option]. rewrite (proj2 (N.ltb_ge _ _)) by done.
  change (sent_headers r !! "content-type") with (@None string). by rewrite andb_false_r.
Qed.

Lemma head_lines_sendable r : sent_ok r → Forall sendable (head_lines r).
Proof.
  intros [Hm (Hv & _) (Hns & _) (Htk & _) _ _].
  assert (Hmc : s_method r ≠ "" ∧ lacks CR (s_method r)).
  { unfold METHODS in Hm. by repeat (apply elem_of_cons in Hm as [->|Hm]; [done|]); apply not_elem_of_nil in Hm. }
  unfold head_lines. rewrite !Forall_cons, Forall_nil. split_and!; [|by apply field_sendable..| |done].
  - destruct Hmc as [Hm1 Hm2]. split; [by destruct (s_method r)|]. unfold lacks in *. rewrite str_all_app, andb_True. split; [done|].
    cbn [str_all]. rewrite andb_True. split; [done|].
    rewrite str_all_app, andb_True. split; [|done]. rewrite str_all_app, andb_True. split; [done|]. by apply visible_lacks.
  - apply field_sendable; [done|done|]. apply render_visible.
Qed.

Lemma sent_ascii lines : Forall (λ l, str_all (byte_in 0 127) l = true) lines → str_all (byte_in 0 127) (join_crlf lines) = true.
Proof.
  intros Hl. induction Hl as [|line lines Hl Hls IH]; [done|]. destruct lines as [|line2 lines]; [done|].
  change (join_crlf (line :: line2 :: lines)) with (line +:+ CRLF +:+ join_crlf (line2 :: lines)).
  by rewrite !str_all_app, Hl, IH.
Qed.

Lemma visible_ascii s : visible s = true → str_all (byte_in 0 127) s = true.
Proof.
  apply visible_impl. intros c Hc%visible_range. unfold byte_in. apply andb_true_iff. rewrite !N.leb_le. lia.
Qed.

Lemma head_lines_ascii r : sent_ok r → Forall (λ l, str_all (byte_in 0 127) l = true) (head_lines r).
Proof.
  intros [Hm (Hv & _) (Hns & _) (Htk & _) _ _].
  assert (Hf : ∀ name value, str_all (byte_in 0 127) name = true → visible value = true → str_all (byte_in 0 127) (field name value) = true).
  { intros name value Hn Hx%visible_ascii. unfold field. rewrite str_all_app, Hn. simpl. exact Hx. }
  assert (Hma : str_all (byte_in 0 127) (s_method r) = true).
  { unfold METHODS in Hm. by repeat (apply elem_of_cons in Hm as [->|Hm]; [done|]); apply not_elem_of_nil in Hm. }
  unfold head_lines. rewrite !Forall_cons, Forall_nil. split_and!; [|by apply Hf..| |done].
  - rewrite str_all_app, Hma. cbn [str_all]. rewrite str_all_app, str_all_app, (visible_ascii _ Hv). done.
  - apply Hf; [done|]. apply render_visible.
Qed.

Lemma parse_head_sent r :
  sent_ok r → parse_head (join_crlf (head_lines r) +:+ CRLF +:+ CRLF) =
    Ok (Head.mk (s_method r) ("/v1/" +:+ s_path r) (s_namespace r) (s_token r) (str_len (s_text r))).
Proof.
  intros Hr. unfold parse_head. rewrite !str_all_app, (sent_ascii _ (head_lines_ascii r Hr)).
  change (str_all (byte_in 0 127) CRLF) with true. cbn [andb negb].
  rewrite !str_length_app. change (String.length CRLF) with 2.
  replace (String.length (join_crlf (head_lines r)) + (2 + 2) - 4) with (String.length (join_crlf (head_lines r))) by lia.
  rewrite str_take_all, split_crlf_lines by (done || by apply head_lines_sendable).
  rewrite (request_line_parsed r Hr), (header_map_parsed r Hr). exact (check_headers_sent r Hr).
Qed.

(** The object a body denotes; an empty body is the empty object. *)
Definition denotes (text : string) (m : list (string * Value)) : Prop :=
  text = "" ∧ m = [] ∨ text ≠ "" ∧ parse_strict_json text = Some (VObject m).

Lemma build_request_sent r m :
  sent_ok r → denotes (s_text r) m → (s_method r = "GET" → obj_get "list" m = None) →
  build_request (Head.mk (s_method r) ("/v1/" +:+ s_path r) (s_namespace r) (s_token r) (str_len (s_text r))) (s_text r) =
    Ok (Request.mk (s_method r) (s_path r) (s_namespace r) (s_token r) (VObject m)).
Proof.
  intros [_ (Hv & Hq & Hp & Hh & _) _ _ _ _] Hd Hlist. unfold build_request. cbn [Head.length Head.target Head.method Head.namespace Head.token].
  assert ((if (str_len (s_text r) =? 0)%N then Ok (VObject []) else ok_or (parse_strict_json (s_text r)) (bad "invalid JSON object")) =
    Ok (VObject m)) as ->.
  { destruct Hd as [[-> ->]|[Hne ->]]; [done|]. destruct (N.eqb_spec (str_len (s_text r)) 0) as [E|]; [|done].
    destruct (s_text r); [done|]. unfold str_len in E. simpl in E. lia. }
  cbn [Json.as_object ok_or]. change (str_drop 4 ("/v1/" +:+ s_path r)) with (s_path r).
  assert (split_once "?" (s_path r) = None) as ->.
  { destruct (split_once "?" (s_path r)) as [[h t]|] eqn:E; [|done]. apply split_once_Some in E as [E _]. rewrite E in Hq.
    unfold lacks in Hq. rewrite str_all_app, andb_True in Hq. destruct Hq as [_ Hq]. cbn [str_all] in Hq. done. }
  cbn [default from_option]. unfold str_contains. unfold lacks in Hp, Hh. apply Is_true_true in Hp, Hh. rewrite Hp, Hh. cbn [negb orb].
  change (filter (λ p : string, p ≠ "") (split "&" "")) with (@nil string). cbn [query_params].
  destruct (bool_decide_reflect (s_method r = "GET")) as [E|E]; [|done]. cbn [andb]. by rewrite (Hlist E).
Qed.

(** What a client sends is what the server reads.  Every request a client may
    send, rendered as an HTTP message, is read back with the same method, path,
    namespace, token and body, however the bytes are cut on their way. *)
Theorem http_roundtrip r m steps :
  sent_ok r → denotes (s_text r) m → (s_method r = "GET" → obj_get "list" m = None) →
  timely (Conn.mk (render_request r) steps) →
  ∃ conn', read_request (Conn.mk (render_request r) steps) =
    Ok (Request.mk (s_method r) (s_path r) (s_namespace r) (s_token r) (VObject m), conn') ∧ Conn.incoming conn' = "".
Proof.
  intros Hr Hd Hl Ht. set (conn := Conn.mk (render_request r) steps).
  pose proof (find_blank_lines (head_lines r) (s_text r) ltac:(done) (head_lines_sendable r Hr)) as Hb.
  set (i := String.length (join_crlf (head_lines r))) in Hb. set (head := join_crlf (head_lines r) +:+ CRLF +:+ CRLF).
  assert (Eh : render_request r = head +:+ s_text r) by (unfold render_request, head; by rewrite !str_app_assoc).
  assert (Hhl : String.length head = i + 4).
  { unfold head. rewrite !str_length_app. change (String.length CRLF) with 2. unfold i. lia. }
  apply (read_message conn _ i); simpl.
  - unfold decode_message. rewrite Eh.
    assert (find_blank (head +:+ s_text r) = Some i) as -> by (rewrite <-Eh; exact Hb). simpl.
    pose proof (so_head r Hr) as Hhead. unfold str_len in Hhead. fold i in Hhead. rewrite (proj2 (N.ltb_ge _ _)) by lia.
    rewrite <-Hhl, str_take_all. unfold head at 1. rewrite (parse_head_sent r Hr). cbn [Head.length].
    unfold str_len. rewrite Nat2N.id, <-str_length_app. rewrite (proj2 (Nat.ltb_ge _ _)) by lia.
    assert (str_take (String.length (head +:+ s_text r)) (head +:+ s_text r) = head +:+ s_text r) as ->.
    { rewrite <-(str_app_nil_r (head +:+ s_text r)) at 2. apply str_take_all. }
    rewrite str_drop_all. fold (str_len (s_text r)). rewrite (build_request_sent r m Hr Hd Hl).
    rewrite <-(str_app_nil_r (head +:+ s_text r)) at 2. by rewrite str_drop_all.
  - exact Hb.
  - pose proof (so_head r Hr) as Hhead. unfold str_len in Hhead. fold i in Hhead. lia.
  - done.
Qed.
End roundtrip.

(** * A concrete request *)
Module HttpDemo.
#[export] Instance json : JsonText := {|
  json_string s := Some s;
  json_document s := Some (VObject [("text", VString s)]);
  json_to_string _ := "{}";
|}.
Definition sent : Sent := mk_sent "POST" "secret/data/app" "team" "hvs.demo" "{}".
(** One byte at a time for a while. *)
Definition trickle : list ReadStep := repeat (ReadStep.mk false false 0) 40.
End HttpDemo.
Import HttpDemo.

Lemma http_roundtrip_witness :
  ∃ conn', read_request (Conn.mk (render_request HttpDemo.sent) HttpDemo.trickle) =
    Ok (Request.mk "POST" "secret/data/app" "team" "hvs.demo" (VObject [("text", VString "{}")]), conn') ∧ Conn.incoming conn' = "".
Proof.
  apply (http_roundtrip HttpDemo.sent [("text", VString "{}")] HttpDemo.trickle).
  - split; vm_compute; repeat split; try discriminate. right. left.
  - right. split; [discriminate|reflexivity].
  - discriminate.
  - unfold timely. simpl. repeat constructor.
Defined.
