(* ===== verification/AuditChain.v ===== *)
(** The authenticated audit chain of the running server,
    [crates/heptabao-server/src/service.rs]: one JSON object a line, each naming the
    tag of its predecessor, and the verification of a file of them. *)
From Stdlib Require Import Ascii NArith Strings.Byte.
From S2P Require Import Prelude Str Json Gf256 Shamir Bytes Base32 EngineState Totp DurableCodec Seal.

Definition MAX_AUDIT_BYTES : N := 32 * 1024 * 1024.
Definition newline : u8 := x0a.

Module AuditUnsigned.
Record t := mk {
  schema : N;
  sequence : N;
  previous : string;
  time : N;
  kind : string;
  path_digest : string;
  status : option N;
}.
End AuditUnsigned.
Notation AuditUnsigned := AuditUnsigned.t.

Module AuditRecord.
Record t := mk { event : AuditUnsigned; mac : string }.
End AuditRecord.
Notation AuditRecord := AuditRecord.t.

(** [bytes.split(|b| *b == b'\n')]. *)
Fixpoint split_lines (bytes : list u8) : list (list u8) :=
  match bytes with
  | [] => [[]]
  | b :: bytes =>
      if bool_decide (b = newline) then [] :: split_lines bytes
      else match split_lines bytes with
           | line :: lines => (b :: line) :: lines
           | [] => [[b]]
           end
  end.

(** [take_while(|line| !line.is_empty())]. *)
Fixpoint full_lines (lines : list (list u8)) : list (list u8) :=
  match lines with
  | [] :: _ | [] => []
  | line :: lines => line :: full_lines lines
  end.

(** [bytes.windows(2).any(|pair| pair == b"\n\n")]. *)
Fixpoint blank_line (bytes : list u8) : bool :=
  match bytes with
  | [] => false
  | a :: rest =>
      match rest with
      | [] => false
      | b :: _ => (bool_decide (a = newline) && bool_decide (b = newline)) || blank_line rest
      end
  end.

Section chain.
Context `{Hmac, Base64, Serde AuditUnsigned, Serde AuditRecord}.

(** The signed record of an event. *)
Definition signed_record (key : list u8) (unsigned : AuditUnsigned) : option (list u8 * list u8) :=
  payload ← to_vec unsigned;
  let tag := hmac_sign HMAC_SHA256 key payload in
  bytes ← to_vec (AuditRecord.mk unsigned (b64_encode tag));
  Some (bytes ++ [newline], tag).

(** The loop of [verify_audit_from] over the lines. *)
Fixpoint verify_lines (key : list u8) (lines : list (list u8)) (sequence : N) (previous : list u8) :
  Result (N * list u8) string :=
  match lines with
  | [] => Ok (sequence, previous)
  | line :: lines =>
      let? record := ok_or (from_slice (A := AuditRecord) line) "unsupported or corrupt authenticated audit format" in
      let event := AuditRecord.event record in
      if negb (AuditUnsigned.schema event =? 2)%N
         || negb (bool_decide (Some (AuditUnsigned.sequence event) = checked_add sequence 1))
         || negb (bool_decide (AuditUnsigned.previous event = b64_encode previous))
      then Err "audit chain is inconsistent"
      else
        let? tag := ok_or (b64_decode (AuditRecord.mac record)) "invalid audit authenticator" in
        if negb (length tag =? 32) then Err "invalid audit authenticator length"
        else
          let? payload := ok_or (to_vec event) "invalid audit payload" in
          if negb (bool_decide (tag = hmac_sign HMAC_SHA256 key payload)) then Err "audit authentication failed"
          else verify_lines key lines (AuditUnsigned.sequence event) tag
  end.

Definition verify_audit_from (bytes : list u8) (key : list u8) (sequence : N) (previous : list u8) :
  Result (N * list u8) string :=
  if (MAX_AUDIT_BYTES <? len bytes)%N then Err "audit capacity exceeded"
  else if negb (bool_decide (bytes = [])) && negb (bool_decide (last bytes = Some newline))
  then Err "audit is truncated or oversized; preserve evidence for recovery"
  else if blank_line bytes || bool_decide (head bytes = Some newline) then Err "audit contains empty records"
  else verify_lines key (full_lines (split_lines bytes)) sequence previous.
End chain.
