(* ===== verification/AuditChainSpec.v ===== *)
(** The audit chain: a file that verifies is a sequence of records, appending a
    signed record extends it, a torn record never verifies, and two chains with one
    frontier hold the same events. *)
From Stdlib Require Import Ascii NArith Strings.Byte.
From S2P Require Import Prelude Str Json Gf256 Shamir Bytes Base32 EngineState Totp DurableCodec DurableSpec Seal AuditChain.

(** Compact JSON text is not empty and escapes control characters. *)
Class LineLaws (A : Type) `{!Serde A} : Prop :=
  to_vec_line (a : A) bytes : to_vec a = Some bytes → bytes ≠ [] ∧ newline ∉ bytes.

Lemma serde_inj `{SerdeLaws A} (a b : A) bytes : to_vec a = Some bytes → to_vec b = Some bytes → a = b.
Proof. intros Ha%from_to_vec Hb%from_to_vec. congruence. Qed.

#[export] Instance b64_inj `{Base64Laws} : Inj (=) (=) b64_encode.
Proof. intros a b E%(f_equal b64_decode). rewrite !b64_decode_encode in E. by simplify_eq. Qed.

(** * Lines *)
Definition line_ok (line : list u8) : Prop := line ≠ [] ∧ newline ∉ line.
Definition as_lines (lines : list (list u8)) : list u8 := concat ((λ l, l ++ [newline]) <$> lines).

Lemma as_lines_app l l' : as_lines (l ++ l') = as_lines l ++ as_lines l'.
Proof. unfold as_lines. by rewrite fmap_app, concat_app. Qed.

Lemma as_lines_snoc lines line : as_lines (lines ++ [line]) = (as_lines lines ++ line) ++ [newline].
Proof. rewrite as_lines_app. unfold as_lines at 2. simpl. by rewrite app_nil_r, app_assoc. Qed.

Lemma split_lines_app line rest :
  newline ∉ line → split_lines (line ++ newline :: rest) = line :: split_lines rest.
Proof.
  induction line as [|b line IH]; intros Hn; simpl.
  - done.
  - rewrite bool_decide_false by set_solver. rewrite IH by set_solver. done.
Qed.

Lemma full_lines_as_lines lines : Forall line_ok lines → full_lines (split_lines (as_lines lines)) = lines.
Proof.
  induction 1 as [|line lines [Hne Hn] _ IH]; [done|].
  change (as_lines (line :: lines)) with ((line ++ [newline]) ++ as_lines lines).
  rewrite <-app_assoc. simpl. rewrite split_lines_app by done.
  destruct line; [done|]. simpl. by rewrite IH.
Qed.

Lemma blank_line_app line rest :
  line_ok line → blank_line (line ++ newline :: rest) = bool_decide (head rest = Some newline) || blank_line rest.
Proof.
  intros [Hne Hn]. induction line as [|a line IH]; [done|]. destruct line as [|b line].
  - change (blank_line ([a] ++ newline :: rest)) with
      ((bool_decide (a = newline) && bool_decide (newline = newline)) || blank_line (newline :: rest)).
    rewrite bool_decide_false by set_solver. destruct rest as [|c rest]; [done|].
    change (blank_line (newline :: c :: rest)) with
      ((bool_decide (newline = newline) && bool_decide (c = newline)) || blank_line (c :: rest)).
    rewrite (bool_decide_true (newline = newline)) by done. simpl orb. f_equal. apply bool_decide_ext. simpl. naive_solver.
  - change (blank_line ((a :: b :: line) ++ newline :: rest)) with
      ((bool_decide (a = newline) && bool_decide (b = newline)) || blank_line ((b :: line) ++ newline :: rest)).
    rewrite bool_decide_false by set_solver. apply IH; set_solver.
Qed.

Definition well_framed (bytes : list u8) : bool :=
  (bool_decide (bytes = []) || bool_decide (last bytes = Some newline))
  && negb (blank_line bytes) && negb (bool_decide (head bytes = Some newline)).

Lemma head_as_lines lines : Forall line_ok lines → head (as_lines lines) ≠ Some newline.
Proof.
  destruct 1 as [|line lines [Hne Hn] _]; [done|]. destruct line as [|b line]; [done|].
  simpl. intros [= ->]. set_solver.
Qed.

Lemma well_framed_as_lines lines : Forall line_ok lines → well_framed (as_lines lines).
Proof.
  intros Hok. assert (Hb : blank_line (as_lines lines) = false).
  { induction Hok as [|line lines Hl Hls IH]; [done|].
    change (as_lines (line :: lines)) with ((line ++ [newline]) ++ as_lines lines).
    rewrite <-app_assoc. simpl. rewrite blank_line_app, IH by done.
    by rewrite bool_decide_false by by apply head_as_lines. }
  unfold well_framed. rewrite Hb, (bool_decide_false (head _ = _)) by by apply head_as_lines.
  destruct lines as [|line lines _] using rev_ind; [done|].
  rewrite as_lines_snoc, last_snoc.
  rewrite (bool_decide_true (Some _ = _)) by done. by rewrite orb_true_r.
Qed.

Lemma framed_tail bytes :
  last bytes = Some newline → blank_line bytes = false →
  ∃ first lines, newline ∉ first ∧ Forall line_ok lines ∧ bytes = first ++ newline :: as_lines lines.
Proof.
  induction bytes as [|a rest IH]; [done|]. intros Hlast Hblank. destruct rest as [|b rest].
  { simpl in Hlast. simplify_eq. exists [], []. split_and!; [set_solver|constructor|done]. }
  change (blank_line (a :: b :: rest)) with
    ((bool_decide (a = newline) && bool_decide (b = newline)) || blank_line (b :: rest)) in Hblank.
  apply orb_false_elim in Hblank as [Hab Hblank].
  destruct IH as (first & lines & Hn & Hok & E); [done|done|].
  destruct (decide (a = newline)) as [->|Hne].
  - exists [], (first :: lines). split_and!; [set_solver| |by rewrite E; unfold as_lines; simpl; rewrite <-app_assoc].
    constructor; [|done]. split; [|done]. intros ->. simpl in E. injection E as -> _.
    by rewrite !bool_decide_true in Hab.
  - exists (a :: first), lines. split_and!; [set_solver|done|by rewrite E].
Qed.

(** The framing checks of the verifier accept exactly the sequences of lines. *)
Lemma well_framed_lines bytes : well_framed bytes → ∃ lines, Forall line_ok lines ∧ bytes = as_lines lines.
Proof.
  unfold well_framed. intros [[[Hl|Hl]%orb_prop_elim Hb]%andb_prop_elim Hh]%andb_prop_elim;
    apply bool_decide_unpack in Hl.
  - exists []. split; [constructor|done].
  - destruct (framed_tail bytes) as (first & lines & Hn & Hok & E); [done|by destruct (blank_line bytes)|].
    exists (first :: lines). split; [|by rewrite E; unfold as_lines; simpl; rewrite <-app_assoc].
    constructor; [|done]. split; [|done]. intros ->. rewrite E in Hh. done.
Qed.

(** * The chain *)
Section chain.
Context `{Hm : Hmac, B64 : Base64, Su : Serde AuditUnsigned, Sr : Serde AuditRecord}.
Implicit Types (lines : list (list u8)) (bytes key previous : list u8).

Lemma verify_audit_from_framed bytes key s p :
  verify_audit_from bytes key s p =
  if (MAX_AUDIT_BYTES <? len bytes)%N then Err "audit capacity exceeded"
  else if well_framed bytes then verify_lines key (full_lines (split_lines bytes)) s p
  else if negb (bool_decide (bytes = [])) && negb (bool_decide (last bytes = Some newline))
  then Err "audit is truncated or oversized; preserve evidence for recovery"
  else Err "audit contains empty records".
Proof.
  unfold verify_audit_from, well_framed.
  destruct (MAX_AUDIT_BYTES <? len bytes)%N, (bool_decide (bytes = [])), (bool_decide (last bytes = Some newline)),
    (blank_line bytes), (bool_decide (head bytes = Some newline)); reflexivity.
Qed.

(** A file that verifies is a sequence of lines whose records verify. *)
Lemma verify_audit_Ok bytes key s p f :
  verify_audit_from bytes key s p = Ok f ↔
  (len bytes ≤ MAX_AUDIT_BYTES)%N ∧
  ∃ lines, Forall line_ok lines ∧ bytes = as_lines lines ∧ verify_lines key lines s p = Ok f.
Proof.
  rewrite verify_audit_from_framed. destruct (N.ltb_spec MAX_AUDIT_BYTES (len bytes)) as [Hl|Hl].
  { split; [done|lia]. }
  split.
  - destruct (well_framed bytes) eqn:Ew; [|by case_match].
    destruct (well_framed_lines bytes) as (lines & Hok & ->); [by rewrite Ew|].
    rewrite full_lines_as_lines by done. eauto 10.
  - intros (_ & lines & Hok & -> & Hv). pose proof (well_framed_as_lines lines Hok) as Hw.
    destruct (well_framed _); [|done]. by rewrite full_lines_as_lines.
Qed.

Lemma verify_lines_app key l l' s p :
  verify_lines key (l ++ l') s p =
  match verify_lines key l s p with Ok (s', p') => verify_lines key l' s' p' | Err e => Err e end.
Proof.
  revert s p. induction l as [|line l IH]; intros s p; simpl; [done|].
  repeat (case_match; simplify_eq/=; try done).
Qed.

(** What a verified record says. *)
Lemma verify_line_inv key line s p s' p' :
  verify_lines key [line] s p = Ok (s', p') →
  ∃ record payload, from_slice line = Some record ∧ to_vec (AuditRecord.event record) = Some payload ∧
    AuditUnsigned.sequence (AuditRecord.event record) = s' ∧ s' = (s + 1)%N ∧
    AuditUnsigned.previous (AuditRecord.event record) = b64_encode p ∧ p' = hmac_sign HMAC_SHA256 key payload.
Proof.
  simpl. destruct (from_slice line) as [record|] eqn:Er; simpl; [|done].
  destruct (_ || _) eqn:Eg; [done|].
  destruct (b64_decode _) as [tag|]; simpl; [|done]. destruct (negb (length tag =? 32)); [done|].
  destruct (to_vec _) as [payload|] eqn:Ep; simpl; [|done].
  destruct (bool_decide (tag = _)) eqn:Et; simpl; [|done]. intros [= <- <-].
  apply bool_decide_eq_true in Et. apply orb_false_elim in Eg as [[_ Es]%orb_false_elim Epr].
  apply negb_false_iff, bool_decide_eq_true in Es. symmetry in Es. apply checked_add_Some in Es as [Es _].
  apply negb_false_iff, bool_decide_eq_true in Epr. eauto 10.
Qed.

Definition events bytes : list AuditUnsigned :=
  omap (λ line, AuditRecord.event <$> from_slice line) (full_lines (split_lines bytes)).

Definition line_events lines : list AuditUnsigned :=
  omap (λ line, AuditRecord.event <$> from_slice line) lines.

Lemma verify_lines_sequence key lines s p s' p' :
  verify_lines key lines s p = Ok (s', p') → s' = (s + len lines)%N.
Proof.
  revert s' p'. induction lines as [|line lines IH] using rev_ind; intros s' p'.
  { intros [= <- <-]. unfold len. simpl. lia. }
  rewrite verify_lines_app. intros H. destruct (verify_lines key lines s p) as [[s1 p1]|] eqn:E; [|done].
  specialize (IH _ _ eq_refl). apply verify_line_inv in H as (?&?&_&_&_& -> &_). unfold len in *. rewrite length_app. simpl. lia.
Qed.

Lemma line_events_length key lines s p f :
  verify_lines key lines s p = Ok f → length (line_events lines) = length lines.
Proof.
  revert f. induction lines as [|line lines IH] using rev_ind; intros f; [done|].
  rewrite verify_lines_app. intros H. destruct (verify_lines key lines s p) as [[s1 p1]|] eqn:E; [|done].
  destruct f as [s2 p2]. apply verify_line_inv in H as (r & m & Hr & _). specialize (IH _ eq_refl).
  unfold line_events in *. rewrite omap_app, !length_app, IH. simpl. by rewrite Hr.
Qed.

(** Two logs clash when, at one position, they hold events that are signed as
    different messages and yet have one tag. *)
Definition tags_clash key (log log' : list AuditUnsigned) : Prop :=
  ∃ i e e' m m', log !! i = Some e ∧ log' !! i = Some e' ∧ to_vec e = Some m ∧ to_vec e' = Some m' ∧
    m ≠ m' ∧ hmac_sign HMAC_SHA256 key m = hmac_sign HMAC_SHA256 key m'.

Lemma tags_clash_app key log log' more more' :
  tags_clash key log log' → tags_clash key (log ++ more) (log' ++ more').
Proof.
  intros (i & e & e' & m & m' & H1 & H2 & H). exists i, e, e', m, m'.
  split_and!; [by apply lookup_app_l_Some..|apply H|apply H|apply H|apply H].
Qed.

Lemma tags_clash_last key log log' e e' m m' :
  length log = length log' → to_vec e = Some m → to_vec e' = Some m' → m ≠ m' →
  hmac_sign HMAC_SHA256 key m = hmac_sign HMAC_SHA256 key m' → tags_clash key (log ++ [e]) (log' ++ [e']).
Proof.
  intros Hl Hv Hv' Hne Ht. exists (length log), e, e', m, m'. split_and!; [..|done|done|done|done].
  - by apply list_lookup_middle.
  - rewrite Hl. by apply list_lookup_middle.
Qed.

Lemma verified_events_agree `{!Base64Laws, !SerdeLaws AuditUnsigned} key lines lines' s p f :
  verify_lines key lines s p = Ok f → verify_lines key lines' s p = Ok f →
  line_events lines = line_events lines' ∨ tags_clash key (line_events lines) (line_events lines').
Proof.
  revert lines' f. induction lines as [|line lines IH] using rev_ind; intros lines' [s' p'] Hv1 Hv2.
  { apply verify_lines_sequence in Hv1, Hv2. destruct lines'; [by left|]. unfold len in *; simpl in *. lia. }
  destruct lines' as [|line' lines' _] using rev_ind.
  { apply verify_lines_sequence in Hv1, Hv2. unfold len in *. rewrite length_app in Hv1; simpl in *. lia. }
  rewrite verify_lines_app in Hv1, Hv2.
  destruct (verify_lines key lines s p) as [[s1 p1]|] eqn:E; [|done].
  destruct (verify_lines key lines' s p) as [[s2 p2]|] eqn:E'; [|done].
  apply verify_line_inv in Hv1 as (r & m & Hr & Hm1 & _ & Hs & Hp & Ht).
  apply verify_line_inv in Hv2 as (r' & m' & Hr' & Hm' & _ & Hs' & Hp' & Ht').
  assert (s1 = s2) as <- by lia.
  assert (Hlen : length (line_events lines) = length (line_events lines')).
  { rewrite (line_events_length _ _ _ _ _ E), (line_events_length _ _ _ _ _ E').
    apply verify_lines_sequence in E, E'. unfold len in *. lia. }
  assert (Hsnoc : ∀ l line r, from_slice line = Some r → line_events (l ++ [line]) = line_events l ++ [AuditRecord.event r]).
  { intros l0 line0 r0 Hr0. unfold line_events. rewrite omap_app. simpl. by rewrite Hr0. }
  rewrite (Hsnoc _ _ _ Hr), (Hsnoc _ _ _ Hr').
  destruct (decide (m = m')) as [->|Hne]; [|right; eapply tags_clash_last; [done|done|done|done|congruence]].
  assert (Hev : AuditRecord.event r = AuditRecord.event r') by by eapply serde_inj.
  rewrite Hev, Hp' in Hp. apply (inj b64_encode) in Hp as <-.
  destruct (IH lines' (s1, p2)) as [Hl|Hc]; [done|done|left; by rewrite Hl, Hev|right; by apply tags_clash_app].
Qed.

(** * Appending *)
Lemma signed_record_verifies `{!HmacLaws, !Base64Laws, !SerdeLaws AuditRecord, !LineLaws AuditRecord} key s p s' now kind fp status bytes tag :
  checked_add s 1 = Some s' →
  signed_record key (AuditUnsigned.mk 2 s' (b64_encode p) now kind fp status) = Some (bytes, tag) →
  ∃ line, line_ok line ∧ bytes = as_lines [line] ∧ verify_lines key [line] s p = Ok (s', tag) ∧
    line_events [line] = [AuditUnsigned.mk 2 s' (b64_encode p) now kind fp status].
Proof.
  intros Hs Hr. unfold signed_record in Hr. set (ev := AuditUnsigned.mk _ _ _ _ _ _ _) in *.
  destruct (to_vec ev) as [payload|] eqn:Ep; simpl in Hr; [|done].
  destruct (to_vec (AuditRecord.mk _ _)) as [line|] eqn:El; simpl in Hr; [|done]. simplify_eq.
  exists line. split; [by apply (to_vec_line (A := AuditRecord)) in El|].
  split; [unfold as_lines; simpl; by rewrite app_nil_r|].
  apply from_to_vec in El. unfold line_events. simpl. rewrite El. simpl.
  rewrite Hs, !bool_decide_true by done. simpl. rewrite b64_decode_encode. simpl.
  rewrite hmac_length. simpl. rewrite Ep. simpl. rewrite bool_decide_true by done. done.
Qed.

Lemma verify_audit_append bytes more key s p s1 p1 f line :
  line_ok line → more = as_lines [line] →
  verify_audit_from bytes key s p = Ok (s1, p1) → verify_lines key [line] s1 p1 = Ok f →
  (len (bytes ++ more) ≤ MAX_AUDIT_BYTES)%N →
  verify_audit_from (bytes ++ more) key s p = Ok f.
Proof.
  intros Hok -> (_ & lines & Hlines & -> & Hv)%verify_audit_Ok Hl Hlen. apply verify_audit_Ok. split; [done|].
  exists (lines ++ [line]). rewrite as_lines_app, verify_lines_app, Hv. split; [|done].
  apply Forall_app. eauto.
Qed.

(** The start of a record is refused. *)
Lemma torn_record_refused bytes line n key s p :
  line_ok line → 0 < n → n ≤ length line →
  ∃ e, verify_audit_from (bytes ++ take n (as_lines [line])) key s p = Err e.
Proof.
  intros [Hne Hn] H0 Hle. destruct (verify_audit_from _ key s p) as [f|e] eqn:E; [|by exists e].
  exfalso. apply verify_audit_Ok in E as (_ & lines & Hok & E & _).
  assert (Hlast : last (as_lines lines) = last (take n line)).
  { rewrite <-E. unfold as_lines. simpl. rewrite app_nil_r, take_app_le by done.
    destruct (take n line) as [|b l _] eqn:Et using rev_ind.
    - apply (f_equal length) in Et. rewrite length_take in Et. simpl in Et. lia.
    - by rewrite app_assoc, !last_snoc. }
  destruct lines as [|line' lines _] using rev_ind.
  - apply (f_equal length) in E. rewrite length_app, length_take in E. unfold as_lines in E. simpl in E.
    rewrite app_nil_r, length_app in E. lia.
  - rewrite as_lines_snoc, last_snoc in Hlast. symmetry in Hlast.
    apply last_Some_elem_of in Hlast. apply Hn. apply elem_of_take in Hlast as (i&Hi&_). by eapply list_elem_of_lookup_2.
Qed.
End chain.
