(* ===== verification/AuditRotation.v ===== *)
(** The crash-recoverable rotation of the audit stream,
    [crates/heptabao-server/src/audit_rotation.rs].

    The active file is a byte string, the files beside it a map from the suffix of
    their name.  Every call that changes them takes its fate from a list: it
    succeeds, or it stops after some of its elementary effects, which also describes
    a process that stops there; when the list is used up, calls succeed.  A file
    that exists can be read: a failing read leaves what a call that stops before
    its first effect leaves. *)
From Stdlib Require Import Ascii NArith Strings.Byte.
From S2P Require Import Prelude Str Gf256 Shamir Bytes Json EngineState Base32 Totp DurableCodec Durable Seal AuditChain.

Definition MAX_SEGMENT_BYTES : N := 32 * 1024 * 1024.
Definition MAX_MANIFEST_BYTES : N := 128 * 1024.
Definition STAGING_MAGIC : list u8 := String.list_byte_of_string "heptabao-audit-manifest-staging-v1" ++ [newline].
Definition MANIFEST_CONTEXT : list u8 := String.list_byte_of_string "heptabao.audit.rotation.manifest.v1" ++ [x00].

(** [io::Error]: the operating system's, or [invalid] with its message. *)
Inductive IoError : Type := Os | Invalid (message : string).

Module AuditConfig.
Record t := mk { segment_bytes : N; retained_segments : nat }.
Definition default : t := mk MAX_SEGMENT_BYTES 8.
Definition validate (self : t) : Result t IoError :=
  if negb ((4096 <=? segment_bytes self)%N && (segment_bytes self <=? MAX_SEGMENT_BYTES)%N)
     || negb ((1 <=? retained_segments self) && (retained_segments self <=? 64))
  then Err (Invalid "invalid audit rotation/retention bounds") else Ok self.
End AuditConfig.
Notation AuditConfig := AuditConfig.t.

Module Frontier.
Record t := mk { sequence : N; mac : list u8 }.
Definition default : t := mk 0 zero32.
#[global] Instance eq_dec : EqDecision t.
Proof. solve_decision. Defined.
End Frontier.
Notation Frontier := Frontier.t.

Module Segment.
Record t := mk { id : N; length : N; digest : list u8; start : Frontier; end_ : Frontier }.
#[global] Instance eq_dec : EqDecision t.
Proof. solve_decision. Defined.
End Segment.
Notation Segment := Segment.t.

Module Manifest.
Record t := mk {
  schema : N;
  generation : N;
  base : Frontier;
  segments : list Segment;
  pending : option Segment;
  garbage : list Segment;
}.
#[global] Instance eq_dec : EqDecision t.
Proof. solve_decision. Defined.

(** [Manifest { schema: 1, ..Manifest::default() }]. *)
Definition initial : t := mk 1 0 Frontier.default [] None [].
Definition clear_pending (m : t) : t := mk (schema m) (generation m) (base m) (segments m) None (garbage m).
Definition clear_garbage (m : t) : t := mk (schema m) (generation m) (base m) (segments m) (pending m) [].
End Manifest.
Notation Manifest := Manifest.t.

Module SignedManifest.
Record t := mk { manifest : Manifest; mac : string }.
End SignedManifest.
Notation SignedManifest := SignedManifest.t.

(** * Files *)
Definition manifest_name : string := "rotation.json".
Definition staging_name : string := "rotation.tmp".
Definition key_name : string := "hmac-key".
Definition segment_prefix : string := "segment-".

(** [format!("{id:020}")]: a 64-bit number has at most twenty digits. *)
Fixpoint digits (width : nat) (n : N) : string :=
  match width with
  | O => ""
  | S width => digits width (n / 10) +:+ String (ascii_of_N (48 + n mod 10)) ""
  end.
Definition segment_path (id : N) : string := segment_prefix +:+ digits 20 id +:+ ".jsonl".

(** What is on the file system. *)
Module AuditFiles.
Record t := mk { active : option (list u8); sidecars : gmap string (list u8) }.
End AuditFiles.
Notation AuditFiles := AuditFiles.t.

Module Rotation.
Record t := mk {
  active : list u8;
  sidecars : gmap string (list u8);
  fates : list Fate;
  config : AuditConfig;
  manifest : Manifest;
  manifest_exists : bool;
}.
Definition set_active (bytes : list u8) (r : t) : t :=
  mk bytes (sidecars r) (fates r) (config r) (manifest r) (manifest_exists r).
Definition set_sidecars (files : gmap string (list u8)) (r : t) : t :=
  mk (active r) files (fates r) (config r) (manifest r) (manifest_exists r).
Definition set_fates (fates : list Fate) (r : t) : t :=
  mk (active r) (sidecars r) fates (config r) (manifest r) (manifest_exists r).
Definition set_manifest (m : Manifest) (r : t) : t :=
  mk (active r) (sidecars r) (fates r) (config r) m true.

Definition files (r : t) : AuditFiles := AuditFiles.mk (Some (active r)) (sidecars r).

Definition active_start (self : t) : Frontier :=
  match last (Manifest.segments (manifest self)) with
  | Some segment => Segment.end_ segment
  | None => Manifest.base (manifest self)
  end.
End Rotation.
Notation Rotation := Rotation.t.

(** * Calls that change files

    [effects n] is what the first [n] of [total] elementary effects do. *)
Definition perform (total : nat) (effects : nat → Rotation → Rotation) : M Rotation IoError unit := λ self,
  let rest := Rotation.set_fates (tail (Rotation.fates self)) self in
  match head (Rotation.fates self) with
  | None | Some Done => (effects total rest, Ok tt)
  | Some (Fails n) => (effects (min n total) rest, Err Os)
  end.

(** A check of the operating system, of a file's identity for instance. *)
Definition inspect : M Rotation IoError unit := perform 0 (λ _ self, self).

Definition put_sidecar (name : string) (bytes : list u8) (self : Rotation) : Rotation :=
  Rotation.set_sidecars (<[name := bytes]> (Rotation.sidecars self)) self.

(** [create_new(true)], [write_all] and the syncs. *)
Definition create_file (name : string) (bytes : list u8) : M Rotation IoError unit := λ self,
  match Rotation.sidecars self !! name with
  | Some _ => (self, Err Os)
  | None => perform (S (length bytes)) (λ n self,
      match n with O => self | S n => put_sidecar name (take n bytes) self end) self
  end.

Definition append_file (name : string) (old extra : list u8) : M Rotation IoError unit :=
  perform (length extra) (λ n, put_sidecar name (old ++ take n extra)).

Definition remove_file (name : string) : M Rotation IoError unit :=
  perform 1 (λ n self, match n with
    | O => self
    | S _ => Rotation.set_sidecars (delete name (Rotation.sidecars self)) self
    end).

Definition rename_file (from to : string) : M Rotation IoError unit := λ self,
  match Rotation.sidecars self !! from with
  | None => (self, Err Os)
  | Some bytes => perform 1 (λ n self, match n with
      | O => self
      | S _ => Rotation.set_sidecars (<[to := bytes]> (delete from (Rotation.sidecars self))) self
      end) self
  end.

(** [audit.set_len(0)] and the sync. *)
Definition truncate_active : M Rotation IoError unit :=
  perform 1 (λ n self, match n with O => self | S _ => Rotation.set_active [] self end).

Definition read_to (maximum : N) (bytes : list u8) : Result (list u8) IoError :=
  if (maximum <? len bytes)%N then Err (Invalid "audit file exceeds bound") else Ok bytes.

Section rotation.
Context `{Hmac, Sha256, Base64, Serde AuditUnsigned, Serde AuditRecord, Serde Manifest, Serde SignedManifest}.

(** * The manifest *)
Definition manifest_tag (key payload : list u8) : list u8 := hmac_sign HMAC_SHA256 key (MANIFEST_CONTEXT ++ payload).

Definition strip_bytes_prefix (prefix bytes : list u8) : option (list u8) :=
  if bool_decide (take (length prefix) bytes = prefix) then Some (drop (length prefix) bytes) else None.

Definition decode_manifest (key bytes : list u8) : Result Manifest IoError :=
  let? bytes := read_to (MAX_MANIFEST_BYTES + len STAGING_MAGIC) bytes in
  let? json := ok_or (strip_bytes_prefix STAGING_MAGIC bytes) (Invalid "invalid audit manifest framing") in
  let? signed := ok_or (from_slice (A := SignedManifest) json) Os in
  let? payload := ok_or (to_vec (SignedManifest.manifest signed)) Os in
  let? tag := ok_or (b64_decode (SignedManifest.mac signed)) (Invalid "invalid audit manifest tag") in
  if negb (bool_decide (tag = manifest_tag key payload)) then Err (Invalid "audit manifest authentication failed")
  else Ok (SignedManifest.manifest signed).

Definition discard_staging : M Rotation IoError unit := λ self,
  match Rotation.sidecars self !! staging_name with
  | None => (self, Ok tt)
  | Some bytes =>
      match read_to (MAX_MANIFEST_BYTES + len STAGING_MAGIC) bytes with
      | Err e => (self, Err e)
      | Ok bytes =>
          let prefix_length := min (length bytes) (length STAGING_MAGIC) in
          if negb (bool_decide (take prefix_length bytes = take prefix_length STAGING_MAGIC))
          then (self, Err (Invalid "unrecognized file occupies audit staging path"))
          else remove_file staging_name self
      end
  end.

(** The stored form of a manifest. *)
Definition signed_manifest (key : list u8) (manifest : Manifest) : Result (list u8) IoError :=
  let? payload := ok_or (to_vec manifest) Os in
  let? bytes := ok_or (to_vec (SignedManifest.mk manifest (b64_encode (manifest_tag key payload)))) Os in
  if (MAX_MANIFEST_BYTES <? len bytes)%N then Err (Invalid "audit manifest exceeds bound")
  else Ok (STAGING_MAGIC ++ bytes).

(** The stored manifest is the one the writer knows. *)
Definition check_stored (key : list u8) (self : Rotation) : Result unit IoError :=
  match Rotation.sidecars self !! manifest_name with
  | Some bytes =>
      if negb (Rotation.manifest_exists self) then Err (Invalid "audit manifest changed outside its writer")
      else
        let? stored := decode_manifest key bytes in
        if negb (bool_decide (stored = Rotation.manifest self))
        then Err (Invalid "audit manifest changed outside its writer") else Ok tt
  | None => if Rotation.manifest_exists self then Err Os else Ok tt
  end.

Definition publish (manifest : Manifest) (key : list u8) : M Rotation IoError unit :=
  mpure (check_stored key) ;;?
  inspect ;;?
  discard_staging ;;?
  do? bytes := mpure (λ _, signed_manifest key manifest) in
  create_file staging_name bytes ;;?
  inspect ;;?
  rename_file staging_name manifest_name ;;?
  λ self, (Rotation.set_manifest manifest self, Ok tt).

(** * Archived segments *)
Definition verify_segment (sidecars : gmap string (list u8)) (key : list u8) (segment : Segment) : Result unit IoError :=
  let? bytes := ok_or (sidecars !! segment_path (Segment.id segment)) Os in
  let? bytes := read_to MAX_SEGMENT_BYTES bytes in
  if negb (len bytes =? Segment.length segment)%N || negb (bool_decide (sha256 bytes = Segment.digest segment))
  then Err (Invalid "audit archive content does not match authenticated manifest")
  else
    let start := Segment.start segment in
    let? end_ := map_err Invalid (verify_audit_from bytes key (Frontier.sequence start) (Frontier.mac start)) in
    if negb (bool_decide (end_ = (Frontier.sequence (Segment.end_ segment), Frontier.mac (Segment.end_ segment))))
    then Err (Invalid "audit archive frontier mismatch") else Ok tt.

Fixpoint verify_segments (sidecars : gmap string (list u8)) (key : list u8) (generation : N)
    (segments : list Segment) (frontier : Frontier) (id : N) : Result N IoError :=
  match segments with
  | [] => Ok id
  | segment :: segments =>
      if (Segment.id segment <=? id)%N || (generation <? Segment.id segment)%N
         || negb (bool_decide (Segment.start segment = frontier))
         || (Frontier.sequence (Segment.end_ segment) <=? Frontier.sequence (Segment.start segment))%N
         || (Segment.length segment =? 0)%N || (MAX_SEGMENT_BYTES <? Segment.length segment)%N
      then Err (Invalid "inconsistent audit segment chain")
      else
        let? _ := verify_segment sidecars key segment in
        verify_segments sidecars key generation segments (Segment.end_ segment) (Segment.id segment)
  end.

Definition garbage_ok (m : Manifest) (segment : Segment) : bool :=
  negb ((from_option Segment.id 0 (head (Manifest.segments m)) <=? Segment.id segment)%N
        || (Frontier.sequence (Manifest.base m) <? Frontier.sequence (Segment.end_ segment))%N).

Definition manifest_structure (m : Manifest) : bool :=
  (Manifest.schema m =? 1)%N && (length (Manifest.segments m) <=? 64) && (length (Manifest.garbage m) <=? 64)
  && Bool.eqb (bool_decide (Manifest.segments m = [])) (Manifest.generation m =? 0)%N
  && match Manifest.pending m with
     | Some p => bool_decide (last (Manifest.segments m) = Some p)
     | None => true
     end.

Definition verify_manifest (key : list u8) (self : Rotation) : Result unit IoError :=
  let m := Rotation.manifest self in
  if negb (manifest_structure m) then Err (Invalid "invalid audit manifest structure")
  else
    let? id := verify_segments (Rotation.sidecars self) key (Manifest.generation m) (Manifest.segments m) (Manifest.base m) 0 in
    if negb (bool_decide (Manifest.segments m = [])) && negb (id =? Manifest.generation m)%N
    then Err (Invalid "missing latest audit segment")
    else if forallb (garbage_ok m) (Manifest.garbage m) then Ok tt else Err (Invalid "invalid obsolete audit segment").

(** * Collecting obsolete segments *)
Fixpoint remove_garbage (key : list u8) (garbage : list Segment) : M Rotation IoError unit :=
  match garbage with
  | [] => mret tt
  | segment :: garbage => λ self,
      match Rotation.sidecars self !! segment_path (Segment.id segment) with
      | None => remove_garbage key garbage self
      | Some _ =>
          (mpure (λ self, verify_segment (Rotation.sidecars self) key segment) ;;?
           inspect ;;?
           remove_file (segment_path (Segment.id segment)) ;;?
           remove_garbage key garbage) self
      end
  end.

Definition collect_garbage (key : list u8) : M Rotation IoError unit := λ self,
  if bool_decide (Manifest.pending (Rotation.manifest self) ≠ None)
     || bool_decide (Manifest.garbage (Rotation.manifest self) = [])
  then (self, Ok tt)
  else
    (remove_garbage key (Manifest.garbage (Rotation.manifest self)) ;;?
     λ self, publish (Manifest.clear_garbage (Rotation.manifest self)) key self) self.

(** * Rotation *)
Fixpoint retire (retained : nat) (fuel : nat) (m : Manifest) : Manifest :=
  match fuel, Manifest.segments m with
  | S fuel, old :: rest =>
      if retained <? length (Manifest.segments m) then
        retire retained fuel (Manifest.mk (Manifest.schema m) (Manifest.generation m) (Segment.end_ old) rest
                                (Manifest.pending m) (Manifest.garbage m ++ [old]))
      else m
  | _, _ => m
  end.

(** The manifest that announces a new segment; the oldest ones become garbage. *)
Definition pending_manifest (retained : nat) (segment : Segment) (m : Manifest) : Manifest :=
  let segments := Manifest.segments m ++ [segment] in
  retire retained (length segments)
    (Manifest.mk (Manifest.schema m) (Segment.id segment) (Manifest.base m) segments (Some segment) (Manifest.garbage m)).

(** Copy the active stream, resuming an interrupted copy. *)
Definition archive (path : string) (bytes : list u8) : M Rotation IoError unit := λ self,
  match Rotation.sidecars self !! path with
  | None => create_file path bytes self
  | Some prefix =>
      match read_to MAX_SEGMENT_BYTES prefix with
      | Err e => (self, Err e)
      | Ok prefix =>
          if negb (bool_decide (take (length prefix) bytes = prefix))
          then (self, Err (Invalid "unrecognized audit archive occupant"))
          else append_file path prefix (drop (length prefix) bytes) self
      end
  end.

Definition new_segment (key : list u8) (end_ : Frontier) (self : Rotation) : Result (Segment * list u8) IoError :=
  let start := Rotation.active_start self in
  let? observed := map_err Invalid
    (verify_audit_from (Rotation.active self) key (Frontier.sequence start) (Frontier.mac start)) in
  if negb (bool_decide (observed = (Frontier.sequence end_, Frontier.mac end_)))
     || (Frontier.sequence end_ <=? Frontier.sequence start)%N
  then Err (Invalid "audit rotation frontier disagrees with active chain")
  else
    let? bytes := read_to MAX_SEGMENT_BYTES (Rotation.active self) in
    let? id := ok_or (checked_add (Manifest.generation (Rotation.manifest self)) 1) (Invalid "audit generation exhausted") in
    Ok (Segment.mk id (len bytes) (sha256 bytes) start end_, bytes).

Definition rotate (key : list u8) (end_ : Frontier) : M Rotation IoError unit :=
  inspect ;;?
  collect_garbage key ;;?
  do? (segment, bytes) := mpure (new_segment key end_) in
  archive (segment_path (Segment.id segment)) bytes ;;?
  (λ self, publish (pending_manifest (AuditConfig.retained_segments (Rotation.config self)) segment
                      (Rotation.manifest self)) key self) ;;?
  truncate_active ;;?
  (λ self, publish (Manifest.clear_pending (Rotation.manifest self)) key self) ;;?
  collect_garbage key.

Definition before_append (key : list u8) (added : N) (sequence : N) (previous : list u8) : M Rotation IoError unit :=
  inspect ;;?
  λ self,
    let segment_bytes := AuditConfig.segment_bytes (Rotation.config self) in
    if (segment_bytes <? added)%N then (self, Err (Invalid "single audit record exceeds segment capacity"))
    else if from_option (λ n, n <=? segment_bytes)%N false (checked_add (len (Rotation.active self)) added) then (self, Ok tt)
    else rotate key (Frontier.mk sequence previous) self.

(** * Opening and recovery *)
Definition valid_audit_name (name : string) : bool :=
  negb (bool_decide (name = "")) && (String.length name <=? 128)
  && str_all (λ c, is_ascii_alphanumeric c || bool_decide (c ∈ ["."; "_"; "-"]%char)) name.

Definition open_rotation (name : string) (config : AuditConfig) (fates : list Fate) (files : AuditFiles) :
  AuditFiles * Result Rotation IoError :=
  let sidecars := AuditFiles.sidecars files in
  match AuditConfig.validate config with
  | Err e => (files, Err e)
  | Ok config =>
      if negb (valid_audit_name name) then (files, Err (Invalid "invalid audit filename"))
      else
        let established := bool_decide (is_Some (sidecars !! key_name)) in
        let checkpoint := bool_decide (is_Some (sidecars !! manifest_name)) in
        match AuditFiles.active files with
        | None =>
            if established || checkpoint then (files, Err (Invalid "established audit activity file is missing"))
            else match head fates with
            | Some (Fails O) => (files, Err Os)
            | Some (Fails (S _)) => (AuditFiles.mk (Some []) sidecars, Err Os)
            | _ => (AuditFiles.mk (Some []) sidecars, Ok (Rotation.mk [] sidecars (tail fates) config Manifest.initial false))
            end
        | Some active =>
            if checkpoint && negb established then (files, Err (Invalid "audit checkpoint has no authentication key"))
            else match head fates with
            | Some (Fails _) => (files, Err Os)
            | _ => (files, Ok (Rotation.mk active sidecars (tail fates) config Manifest.initial false))
            end
        end
  end.

(** The authentication key beside the audit file, created for a new audit. *)
Definition load_audit_key (random : option (list u8)) : M Rotation string (list u8) := λ self,
  match Rotation.sidecars self !! key_name with
  | Some material => (self, if negb (length material =? 32) then Err "invalid audit key size" else Ok material)
  | None =>
      if negb (bool_decide (Rotation.active self = []))
      then (self, Err "existing audit has no authentication key; explicit migration required")
      else match random with
      | None => (self, Err "operating system randomness unavailable")
      | Some material =>
          let '(self, r) := create_file key_name material self in
          (self, match r with Ok _ => Ok material | Err _ => Err "cannot persist audit key" end)
      end
  end.

Definition inventory_ok (m : Manifest) (next : N) (active : list u8) (path : string) (copied : list u8) : Result unit IoError :=
  if negb (has_prefix segment_prefix path) then Ok tt
  else if existsb (λ segment, bool_decide (path = segment_path (Segment.id segment))) (Manifest.segments m) then Ok tt
  else if negb (bool_decide (path = segment_path next)) then Err (Invalid "unexplained audit archive generation")
  else
    let? bytes := read_to MAX_SEGMENT_BYTES active in
    let? copied := read_to MAX_SEGMENT_BYTES copied in
    if bool_decide (bytes = []) || negb (bool_decide (take (length copied) bytes = copied))
    then Err (Invalid "unexplained audit archive content") else Ok tt.

Fixpoint check_entries (m : Manifest) (next : N) (active : list u8) (entries : list (string * list u8)) : Result unit IoError :=
  match entries with
  | [] => Ok tt
  | (path, copied) :: entries =>
      let? _ := inventory_ok m next active path copied in
      check_entries m next active entries
  end.

Definition verify_archive_inventory (self : Rotation) : Result unit IoError :=
  let m := Rotation.manifest self in
  let? next := ok_or (checked_add (Manifest.generation m) 1) (Invalid "audit generation exhausted") in
  check_entries m next (Rotation.active self) (map_to_list (Rotation.sidecars self)).

Definition load_manifest (key : list u8) : M Rotation IoError unit := λ self,
  match Rotation.sidecars self !! manifest_name with
  | None => (self, Ok tt)
  | Some bytes =>
      match decode_manifest key bytes with
      | Err e => (self, Err e)
      | Ok m => (Rotation.set_manifest m self, Ok tt)
      end
  end.

(** Finish a rotation that was interrupted after its announcement. *)
Definition finish_pending (key : list u8) : M Rotation IoError unit := λ self,
  match Manifest.pending (Rotation.manifest self) with
  | None => (self, Ok tt)
  | Some segment =>
      (do? bytes := mpure (λ self, read_to MAX_SEGMENT_BYTES (Rotation.active self)) in
       (if bool_decide (bytes = []) then mret tt
        else if negb (len bytes =? Segment.length segment)%N || negb (bool_decide (sha256 bytes = Segment.digest segment))
        then mfail (Invalid "pending audit rotation does not match active file")
        else truncate_active) ;;?
       λ self, publish (Manifest.clear_pending (Rotation.manifest self)) key self) self
  end.

Definition recover (key : list u8) : M Rotation IoError (N * list u8) :=
  inspect ;;?
  load_manifest key ;;?
  mpure (verify_manifest key) ;;?
  discard_staging ;;?
  finish_pending key ;;?
  collect_garbage key ;;?
  do? frontier := mpure (λ self,
    let start := Rotation.active_start self in
    map_err Invalid (verify_audit_from (Rotation.active self) key (Frontier.sequence start) (Frontier.mac start))) in
  mpure verify_archive_inventory ;;?
  mret frontier.
End rotation.

(** * The audit trail of the running server, [crates/heptabao-server/src/service.rs]:
    the fields of [Service] that belong to it, its start, and the recording of one
    event. *)

Module Audit.
Record t := mk {
  rotation : Rotation;
  key : list u8;
  sequence : N;
  previous : list u8;
  failed : bool;
}.
Definition set_rotation (r : Rotation) (a : t) : t := mk r (key a) (sequence a) (previous a) (failed a).
Definition fail (a : t) : t := mk (rotation a) (key a) (sequence a) (previous a) true.
Definition advance (s : N) (tag : list u8) (a : t) : t := mk (rotation a) (key a) s tag (failed a).
End Audit.
Notation Audit := Audit.t.

(** [write_all] and the sync of a record. *)
Definition append_active (bytes : list u8) : M Rotation IoError unit :=
  perform (length bytes) (λ n self, Rotation.set_active (Rotation.active self ++ take n bytes) self).

Section audit.
Context `{Hmac, Sha256, Base64, Serde AuditUnsigned, Serde AuditRecord, Serde Manifest, Serde SignedManifest}.

Definition audit_event (kind fingerprint : string) (now : N) (status : option N) : M Audit unit unit := λ self,
  if Audit.failed self then (self, Err tt)
  else match checked_add (Audit.sequence self) 1 with
  | None => (self, Err tt)
  | Some sequence =>
      match signed_record (Audit.key self)
              (AuditUnsigned.mk 2 sequence (b64_encode (Audit.previous self)) now kind fingerprint status) with
      | None => (self, Err tt)
      | Some (bytes, tag) =>
          match (before_append (Audit.key self) (len bytes) (Audit.sequence self) (Audit.previous self) ;;?
                 append_active bytes) (Audit.rotation self) with
          | (rotation, Err _) => (Audit.fail (Audit.set_rotation rotation self), Err tt)
          | (rotation, Ok _) => (Audit.advance sequence tag (Audit.set_rotation rotation self), Ok tt)
          end
      end
  end.

(** The audit part of [new_inner]. *)
Definition start_audit (name : string) (config : AuditConfig) (fates : list Fate) (random_key : option (list u8))
    (files : AuditFiles) : AuditFiles * Result Audit string :=
  match open_rotation name config fates files with
  | (files, Err _) => (files, Err "cannot safely open audit rotation files")
  | (_, Ok rotation) =>
      match load_audit_key random_key rotation with
      | (rotation, Err e) => (Rotation.files rotation, Err e)
      | (rotation, Ok key) =>
          match recover key rotation with
          | (rotation, Err _) => (Rotation.files rotation, Err "audit verification or rotation recovery failed")
          | (rotation, Ok (sequence, previous)) =>
              (Rotation.files rotation, Ok (Audit.mk rotation key sequence previous false))
          end
      end
  end.
End audit.
