(* ===== verification/AuditRotationSpec.v ===== *)
(** Rotation of the audit stream is atomic with respect to interruptions: whatever
    call it stops in, the files still hold the chain, and recovery finds its
    frontier and its events again. *)
From Stdlib Require Import Ascii NArith Strings.Byte.
From S2P Require Import Prelude Str Json Gf256 Shamir Bytes Base32 EngineState Totp DurableCodec DurableCodecSpec Durable DurableSpec Seal AuditChain AuditChainSpec AuditRotation.

(** * File names *)
Lemma str_snoc_inj (s t : string) a b :
  s +:+ String a "" = t +:+ String b "" → s = t ∧ a = b.
Proof.
  revert t. induction s as [|c s IH]; intros [|d t]; simpl.
  - by intros [= ->].
  - intros [= -> E]. by destruct t.
  - intros [= -> E]. by destruct s.
  - intros [= -> E]. by destruct (IH t E) as [-> ->].
Qed.

Lemma str_app_inj_same (s t u v : string) :
  String.length s = String.length t → s +:+ u = t +:+ v → s = t ∧ u = v.
Proof.
  revert t. induction s as [|c s IH]; intros [|d t]; simpl; try done.
  intros [= Hl] [= -> E]. by destruct (IH t Hl E) as [-> ->].
Qed.

Lemma digits_length w n : String.length (digits w n) = w.
Proof.
  revert n. induction w as [|w IH]; intros n; [done|]. simpl.
  assert (Happ : ∀ s a, String.length (s +:+ String a "") = S (String.length s)).
  { intros s a. induction s; simpl; auto. }
  by rewrite Happ, IH.
Qed.

Lemma digit_ascii_inj n m : (n < 10)%N → (m < 10)%N → ascii_of_N (48 + n) = ascii_of_N (48 + m) → n = m.
Proof.
  intros Hn Hm E%(f_equal N_of_ascii). rewrite !N_ascii_embedding in E by lia. lia.
Qed.

Lemma digits_inj w n m : (n < 10 ^ N.of_nat w)%N → (m < 10 ^ N.of_nat w)%N → digits w n = digits w m → n = m.
Proof.
  revert n m. induction w as [|w IH]; intros n m; [simpl; lia|].
  rewrite Nat2N.inj_succ, N.pow_succ_r' by lia. intros Hn Hm [Hd Ha]%str_snoc_inj.
  apply IH in Hd; [|apply N.Div0.div_lt_upper_bound; lia..].
  apply digit_ascii_inj in Ha; [|by apply N.mod_lt..].
  rewrite (N.Div0.div_mod n 10), (N.Div0.div_mod m 10). congruence.
Qed.

Lemma segment_path_inj i j : (i ≤ U64_MAX)%N → (j ≤ U64_MAX)%N → segment_path i = segment_path j → i = j.
Proof.
  unfold segment_path. intros Hi Hj E%str_app_inj_l.
  apply str_app_inj_same in E as [E _]; [|by rewrite !digits_length].
  eapply digits_inj; [| |exact E]; unfold U64_MAX in *; simpl; lia.
Qed.

Lemma segment_path_prefix i : has_prefix segment_prefix (segment_path i) = true.
Proof. unfold has_prefix, segment_path, segment_prefix. apply bool_decide_eq_true. by eexists. Qed.

#[local] Opaque STAGING_MAGIC MANIFEST_CONTEXT.

(** * Widths of the fields *)
Definition frontier_sized (f : Frontier) : Prop := (Frontier.sequence f ≤ U64_MAX)%N ∧ length (Frontier.mac f) = 32.
Definition segment_sized (s : Segment) : Prop :=
  (Segment.id s ≤ U64_MAX)%N ∧ (Segment.length s ≤ MAX_SEGMENT_BYTES)%N ∧ length (Segment.digest s) = 32 ∧
  frontier_sized (Segment.start s) ∧ frontier_sized (Segment.end_ s).
Definition bounded (m : Manifest) : Prop := length (Manifest.segments m) ≤ 64 ∧ length (Manifest.garbage m) ≤ 64.
Definition manifest_sized (m : Manifest) : Prop :=
  (Manifest.generation m ≤ U64_MAX)%N ∧ frontier_sized (Manifest.base m) ∧
  Forall segment_sized (Manifest.segments m) ∧ Forall segment_sized (Manifest.garbage m).

(** JSON of a manifest whose fields have their widths is far below the limit: it
    has at most 129 segments of less than a thousand bytes. *)
Class ManifestText `{!Serde Manifest, !Serde SignedManifest} : Prop :=
  manifest_text m mac : Manifest.schema m = 1%N → manifest_sized m → bounded m → from_option segment_sized True (Manifest.pending m) →
    String.length mac = 44 →
    is_Some (to_vec m) ∧ ∃ bytes, to_vec (SignedManifest.mk m mac) = Some bytes ∧ (len bytes ≤ MAX_MANIFEST_BYTES)%N.

(** Base64 writes four characters for three bytes, padded. *)
Class Base64Length `{!Base64} : Prop := b64_length32 bytes : length bytes = 32 → String.length (b64_encode bytes) = 44.

Section rotation.
Context `{Hm : Hmac, Sh : Sha256, B64 : Base64, Su : Serde AuditUnsigned, Sr : Serde AuditRecord,
  Sm : Serde Manifest, Ss : Serde SignedManifest}.
Context `{!HmacLaws, !Sha256Laws Sh, !Base64Laws, !Base64Length, !SerdeLaws AuditUnsigned, !SerdeLaws AuditRecord,
  !LineLaws AuditRecord, !SerdeLaws SignedManifest, !ManifestText}.
Variable key : list u8.
Implicit Types (m : Manifest) (r : Rotation) (f : Frontier) (active : list u8) (files : gmap string (list u8))
  (log : list AuditUnsigned).

Definition start_of m : Frontier :=
  match last (Manifest.segments m) with Some s => Segment.end_ s | None => Manifest.base m end.

Definition pair_of f : N * list u8 := (Frontier.sequence f, Frontier.mac f).

Definition seg_events files (segments : list Segment) : list AuditUnsigned :=
  concat ((λ s, events (default [] (files !! segment_path (Segment.id s)))) <$> segments).

(** The archives and the active file, against a manifest, a frontier and the events
    recorded so far.  Between the announcement of a segment and the end of its
    rotation the active file is a copy of that segment, or empty. *)
Record coherent active files m f log : Prop := {
  co_key : files !! key_name = Some key;
  co_schema : Manifest.schema m = 1%N;
  co_empty : Manifest.segments m = [] ↔ Manifest.generation m = 0%N;
  co_pending : from_option (λ p, last (Manifest.segments m) = Some p) True (Manifest.pending m);
  co_segments : ∃ id, verify_segments files key (Manifest.generation m) (Manifest.segments m) (Manifest.base m) 0 = Ok id ∧
    (Manifest.segments m ≠ [] → id = Manifest.generation m);
  co_garbage : Forall (λ g, garbage_ok m g = true ∧
    (files !! segment_path (Segment.id g) = None ∨ verify_segment files key g = Ok tt)) (Manifest.garbage m);
  co_files : ∀ path bytes, files !! path = Some bytes → has_prefix segment_prefix path = true →
    (∃ s, s ∈ Manifest.segments m ++ Manifest.garbage m ∧ path = segment_path (Segment.id s)) ∨
    (Manifest.pending m = None ∧ path = segment_path (Manifest.generation m + 1) ∧ active ≠ [] ∧
     take (length bytes) active = bytes);
  co_generation : (Manifest.generation m ≤ Frontier.sequence (start_of m))%N;
  co_next : (Manifest.generation m < U64_MAX)%N;
  co_sized : manifest_sized m;
  co_frontier : frontier_sized f;
  co_active : match Manifest.pending m with
    | None => verify_audit_from active key (Frontier.sequence (start_of m)) (Frontier.mac (start_of m)) = Ok (pair_of f) ∧
              ∃ dropped, log = dropped ++ seg_events files (Manifest.segments m) ++ events active
    | Some s => f = Segment.end_ s ∧
                (active = [] ∨ len active = Segment.length s ∧ sha256 active = Segment.digest s) ∧
                ∃ dropped, log = dropped ++ seg_events files (Manifest.segments m)
    end;
}.

(** The stored manifest. *)
Definition known files m (there : bool) : Prop :=
  if there then ∃ bytes, files !! manifest_name = Some bytes ∧ decode_manifest key bytes = Ok m
  else files !! manifest_name = None ∧ m = Manifest.initial.

(** A staging file the next writer may discard. *)
Definition staging_ok files : Prop :=
  ∀ bytes, files !! staging_name = Some bytes → ∃ m n content, signed_manifest key m = Ok content ∧ bytes = take n content.

(** What every interruption leaves. *)
Definition holds f log r : Prop :=
  ∃ m there, known (Rotation.sidecars r) m there ∧ staging_ok (Rotation.sidecars r) ∧ bounded m ∧
    coherent (Rotation.active r) (Rotation.sidecars r) m f log.

(** A rotation in operation. *)
Record live f log r : Prop := {
  lv_known : known (Rotation.sidecars r) (Rotation.manifest r) (Rotation.manifest_exists r);
  lv_staging : staging_ok (Rotation.sidecars r);
  lv_bounded : bounded (Rotation.manifest r);
  lv_coherent : coherent (Rotation.active r) (Rotation.sidecars r) (Rotation.manifest r) f log;
  lv_config : AuditConfig.validate (Rotation.config r) = Ok (Rotation.config r);
}.

Lemma live_stored f log r : live f log r → holds f log r.
Proof. intros []. by exists (Rotation.manifest r), (Rotation.manifest_exists r). Qed.

Lemma live_fates f log r l : live f log r → live f log (Rotation.set_fates l r).
Proof. by intros []. Qed.

(** The outcome of a call: an error needs a fault, and keeps the chain on disk. *)
Definition outcome {A} f log r (x : Rotation * Result A IoError) (Q : A → Rotation → Prop) : Prop :=
  match x with
  | (r', Ok a) => Q a r' ∧ (Rotation.fates r = [] → Rotation.fates r' = [])
  | (r', Err _) => holds f log r' ∧ Rotation.fates r ≠ []
  end.

Lemma outcome_bind {A B} f log r (c : M Rotation IoError A) (k : A → M Rotation IoError B) Q Q' :
  outcome f log r (c r) Q → (∀ a r', Q a r' → outcome f log r' (k a r') Q') → outcome f log r (mbind c k r) Q'.
Proof.
  unfold mbind. destruct (c r) as [r' [a|e]]; simpl; [|done]. intros [HQ Hf] Hk.
  specialize (Hk a r' HQ). destruct (k a r') as [r'' [b|e]]; simpl in *; naive_solver.
Qed.

Lemma outcome_mono {A} f log r (x : Rotation * Result A IoError) (Q Q' : A → Rotation → Prop) :
  outcome f log r x Q → (∀ a r', Q a r' → Q' a r') → outcome f log r x Q'.
Proof. destruct x as [r' [a|e]]; simpl; naive_solver. Qed.

Lemma outcome_pure {A} f log r (g : Rotation → Result A IoError) a (Q : A → Rotation → Prop) :
  g r = Ok a → Q a r → outcome f log r (mpure g r) Q.
Proof. intros E HQ. unfold mpure. rewrite E. simpl. auto. Qed.

Lemma outcome_ret {A} f log r (a : A) (Q : A → Rotation → Prop) : Q a r → outcome f log r (mret a r) Q.
Proof. simpl. auto. Qed.

(** An interrupted call leaves the chain after each of its effects. *)
Lemma outcome_perform f log r total effects (Q : unit → Rotation → Prop) :
  (∀ n l, n ≤ total → holds f log (effects n (Rotation.set_fates l r))) →
  (∀ l, Q tt (effects total (Rotation.set_fates l r))) →
  (∀ r', Rotation.fates (effects total r') = Rotation.fates r') →
  outcome f log r (perform total effects r) Q.
Proof.
  intros Hn HQ Hf. unfold perform. destruct (Rotation.fates r) as [|[|n] l] eqn:E; simpl; rewrite ?Hf; simpl.
  - rewrite E. auto.
  - rewrite E. split; [apply HQ|done].
  - rewrite E. split; [apply Hn; lia|done].
Qed.

Lemma outcome_inspect f log r (Q : unit → Rotation → Prop) :
  holds f log r → (∀ l, Q tt (Rotation.set_fates l r)) → outcome f log r (inspect r) Q.
Proof. intros Hh HQ. apply outcome_perform; [|done|done]. intros n l _. exact Hh. Qed.

(** * The parts a change of a file leaves alone *)
Lemma verify_segment_ext files files' s :
  files' !! segment_path (Segment.id s) = files !! segment_path (Segment.id s) →
  verify_segment files' key s = verify_segment files key s.
Proof. intros E. unfold verify_segment. by rewrite E. Qed.

Lemma verify_segments_ext files files' generation segments f id :
  Forall (λ s, files' !! segment_path (Segment.id s) = files !! segment_path (Segment.id s)) segments →
  verify_segments files' key generation segments f id = verify_segments files key generation segments f id.
Proof.
  intros Hs. revert f id. induction Hs as [|s segments Es Hs IH]; intros f id; simpl; [done|].
  rewrite (verify_segment_ext files files' s Es). case_match; [done|]. case_match; [apply IH|done].
Qed.

Lemma seg_events_ext files files' segments :
  Forall (λ s, files' !! segment_path (Segment.id s) = files !! segment_path (Segment.id s)) segments →
  seg_events files' segments = seg_events files segments.
Proof.
  unfold seg_events. induction 1 as [|s segments Es _ IH]; [done|]. simpl. rewrite Es. f_equal. exact IH.
Qed.

(** Identifiers of verified segments ascend up to the generation. *)
Lemma verify_segments_ids files generation segments f id id' :
  verify_segments files key generation segments f id = Ok id' →
  Forall (λ s, id < Segment.id s ∧ Segment.id s ≤ generation)%N segments ∧
  (segments ≠ [] → id' = from_option Segment.id 0%N (last segments)).
Proof.
  revert f id. induction segments as [|s segments IH]; intros f id; simpl; [done|].
  destruct (_ || _) eqn:Eg; [done|]. destruct (verify_segment files key s); [|done].
  intros Hv. pose proof Hv as Hv'. apply IH in Hv as [Hs Hlast].
  apply orb_false_elim in Eg as [[[[[E1 E2]%orb_false_elim _]%orb_false_elim _]%orb_false_elim _]%orb_false_elim _].
  apply N.leb_gt in E1. apply N.ltb_ge in E2. split.
  - constructor; [lia|]. eapply Forall_impl; [exact Hs|]. simpl. intros x Hx. lia.
  - intros _. destruct segments as [|s' segments]; [simpl in *; congruence|]. by apply Hlast.
Qed.


(** The archives and the key agree. *)
Definition archival (path : string) : bool := has_prefix segment_prefix path || bool_decide (path = key_name).
Definition agree files files' : Prop := ∀ path, archival path = true → files' !! path = files !! path.

Definition same_archive r r' : Prop :=
  Rotation.active r' = Rotation.active r ∧ Rotation.config r' = Rotation.config r ∧
  agree (Rotation.sidecars r) (Rotation.sidecars r').

Lemma same_archive_trans r r' r'' : same_archive r r' → same_archive r' r'' → same_archive r r''.
Proof.
  intros (Ha & Hc & Hs) (Ha' & Hc' & Hs'). split_and!; [congruence|congruence|].
  intros path Hp. by rewrite Hs', Hs.
Qed.

Lemma agree_segments files files' segments :
  agree files files' →
  Forall (λ s, files' !! segment_path (Segment.id s) = files !! segment_path (Segment.id s)) segments.
Proof. intros Ha. apply Forall_true. intros s. apply Ha. unfold archival. by rewrite segment_path_prefix. Qed.

(** Agreement on the files of the listed segments is enough, when no other file appears. *)
Lemma coherent_ext active files files' m f log :
  files' !! key_name = files !! key_name →
  Forall (λ s, files' !! segment_path (Segment.id s) = files !! segment_path (Segment.id s)) (Manifest.segments m) →
  Forall (λ s, files' !! segment_path (Segment.id s) = files !! segment_path (Segment.id s) ∨
               files' !! segment_path (Segment.id s) = None) (Manifest.garbage m) →
  (∀ path bytes, files' !! path = Some bytes → has_prefix segment_prefix path = true → files !! path = Some bytes ∨
     Manifest.pending m = None ∧ path = segment_path (Manifest.generation m + 1) ∧ active ≠ [] ∧
     take (length bytes) active = bytes) →
  coherent active files m f log → coherent active files' m f log.
Proof.
  intros Hkey Hseg Hgar Hfiles []. split; try done.
  - by rewrite Hkey.
  - by rewrite (verify_segments_ext files files').
  - apply Forall_forall. intros g Hg. rewrite Forall_forall in co_garbage0, Hgar.
    destruct (co_garbage0 g Hg) as [Hok Hv]. split; [done|].
    destruct (Hgar g Hg) as [E|E]; [|by left]. rewrite E, (verify_segment_ext files files' g E). done.
  - intros path bytes Hp Hpre. destruct (Hfiles path bytes Hp Hpre); [eauto|by right].
  - by rewrite (seg_events_ext files files') by done.
Qed.

Lemma coherent_agree active files files' m f log :
  agree files files' → coherent active files m f log → coherent active files' m f log.
Proof.
  intros Ha. apply coherent_ext.
  - by apply Ha.
  - by apply agree_segments.
  - eapply Forall_impl; [by apply agree_segments|]. intros s ?. by left.
  - intros path bytes Hp Hpre. left. rewrite <-Ha; [done|]. unfold archival. by rewrite Hpre.
Qed.

Lemma agree_insert files name bytes : archival name = false → agree files (<[name := bytes]> files).
Proof. intros Hn path Hp. rewrite lookup_insert_ne; [done|]. intros ->. congruence. Qed.

Lemma agree_delete files name : archival name = false → agree files (delete name files).
Proof. intros Hn path Hp. rewrite lookup_delete_ne; [done|]. intros ->. congruence. Qed.

Lemma agree_trans files files' files'' : agree files files' → agree files' files'' → agree files files''.
Proof. intros Ha Ha' path Hp. by rewrite Ha', Ha. Qed.

(** * The stored manifest *)
Lemma signed_manifest_Ok m :
  Manifest.schema m = 1%N → bounded m → manifest_sized m → from_option (λ p, last (Manifest.segments m) = Some p) True (Manifest.pending m) →
  ∃ content, signed_manifest key m = Ok content ∧ decode_manifest key content = Ok m.
Proof.
  intros Hsch Hb Hs Hp. unfold signed_manifest.
  destruct (manifest_text m (b64_encode (manifest_tag key (default [] (to_vec m))))) as [[payload Epay] (bytes & Eb & Hl)];
    [done|done|done| |by apply b64_length32, hmac_length|].
  { destruct (Manifest.pending m) as [p|]; [|done]. simpl in *. destruct Hs as (_ & _ & Hs & _).
    rewrite Forall_forall in Hs. apply Hs. by apply last_Some_elem_of. }
  rewrite Epay in *. simpl in *. rewrite Eb. simpl. rewrite (proj2 (N.ltb_ge _ _) Hl).
  exists (STAGING_MAGIC ++ bytes). split; [done|]. unfold decode_manifest, read_to.
  destruct (N.ltb_spec (MAX_MANIFEST_BYTES + len STAGING_MAGIC) (len (STAGING_MAGIC ++ bytes))) as [Hbig|_].
  { exfalso. unfold len in *. rewrite length_app, Nat2N.inj_add in Hbig. lia. }
  unfold strip_bytes_prefix. rewrite take_app_length, drop_app_length, bool_decide_true by done. simpl.
  apply from_to_vec in Eb. rewrite Eb. simpl. rewrite Epay. simpl. rewrite b64_decode_encode. simpl.
  by rewrite bool_decide_true.
Qed.

Lemma signed_manifest_shape m content :
  signed_manifest key m = Ok content →
  ∃ bytes, content = STAGING_MAGIC ++ bytes ∧ (len content ≤ MAX_MANIFEST_BYTES + len STAGING_MAGIC)%N.
Proof.
  unfold signed_manifest. destruct (to_vec m); simpl; [|done]. destruct (to_vec (SignedManifest.mk _ _)) as [bytes|]; simpl; [|done].
  destruct (N.ltb_spec MAX_MANIFEST_BYTES (len bytes)); [done|]. intros <-%Ok_inj. exists bytes. split; [done|].
  unfold len in *. rewrite length_app, Nat2N.inj_add. lia.
Qed.

Lemma take_take_prefix {A} (n k : nat) (l l' : list A) :
  k ≤ length (take n (l ++ l')) → k ≤ length l → take k (take n (l ++ l')) = take k l.
Proof.
  rewrite length_take. intros Hk Hl. rewrite take_take, take_app_le by lia. f_equal. lia.
Qed.

(** A change outside the archives of a rotation in operation. *)
Lemma live_sidecars f log r files :
  live f log r → agree (Rotation.sidecars r) files → files !! manifest_name = Rotation.sidecars r !! manifest_name →
  staging_ok files → live f log (Rotation.set_sidecars files r).
Proof.
  intros [] Ha Hman Hs. split; simpl; try done.
  - unfold known in *. by rewrite Hman.
  - by eapply coherent_agree.
Qed.

Lemma discard_staging_outcome f log r :
  live f log r →
  outcome f log r (discard_staging r) (λ _ r', live f log r' ∧ Rotation.manifest r' = Rotation.manifest r ∧
    Rotation.sidecars r' !! staging_name = None ∧ same_archive r r').
Proof.
  intros Hl. unfold discard_staging. destruct (Rotation.sidecars r !! staging_name) as [bytes|] eqn:Es.
  2:{ simpl. split; [|done]. split_and!; try done. }
  destruct (lv_staging _ _ _ Hl bytes Es) as (m & n & content & Hc & ->).
  apply signed_manifest_shape in Hc as (rest & -> & Hlen). unfold read_to.
  destruct (N.ltb_spec (MAX_MANIFEST_BYTES + len STAGING_MAGIC) (len (take n (STAGING_MAGIC ++ rest)))) as [Hbig|_].
  { exfalso. unfold len in *. rewrite length_take in Hbig. lia. }
  rewrite take_take_prefix by lia. rewrite bool_decide_true by done. simpl.
  assert (Hdel : ∀ l, live f log (Rotation.set_sidecars (delete staging_name (Rotation.sidecars r)) (Rotation.set_fates l r))).
  { intros l. apply live_sidecars; [by apply live_fates|by apply agree_delete|by rewrite lookup_delete_ne|].
    intros bytes. simpl. by rewrite lookup_delete_eq. }
  apply outcome_perform; [|intros l; split_and!|done]; simpl.
  - intros [|n'] l _; [by apply live_stored, live_fates|]. apply live_stored, Hdel.
  - apply Hdel.
  - done.
  - by rewrite lookup_delete_eq.
  - split_and!; try done. by apply agree_delete.
Qed.

Lemma check_stored_Ok f log r : live f log r → check_stored key r = Ok tt.
Proof.
  intros []. unfold check_stored, known in *. destruct (Rotation.manifest_exists r).
  - destruct lv_known0 as (bytes & -> & ->). simpl. by rewrite bool_decide_true.
  - by destruct lv_known0 as [-> _].
Qed.

End rotation.
