(* ===== verification/AuditRotationSteps.v ===== *)
(** Every step of a rotation, and of the recovery from one, keeps the chain. *)
From Stdlib Require Import Ascii NArith Strings.Byte.
From S2P Require Import Prelude Str Gf256 Shamir Bytes Json EngineState Base32 Totp DurableCodec Durable DurableCodecSpec DurableSpec Seal AuditChain AuditChainSpec AuditRotation AuditRotationSpec.

#[local] Opaque STAGING_MAGIC MANIFEST_CONTEXT.

Section steps.
Context `{Hm : Hmac, Sh : Sha256, B64 : Base64, Su : Serde AuditUnsigned, Sr : Serde AuditRecord,
  Sm : Serde Manifest, Ss : Serde SignedManifest}.
Context `{!HmacLaws, !Sha256Laws Sh, !Base64Laws, !Base64Length, !SerdeLaws AuditUnsigned, !SerdeLaws AuditRecord,
  !LineLaws AuditRecord, !SerdeLaws SignedManifest, !ManifestText}.
Variable key : list u8.
Implicit Types (m : Manifest) (r : Rotation) (f : Frontier) (active : list u8) (files : gmap string (list u8))
  (log : list AuditUnsigned).

Notation coherent := (coherent key).
Notation known := (known key).
Notation staging_ok := (staging_ok key).
Notation holds := (holds key).
Notation live := (live key).
Notation outcome := (outcome key).

Lemma live_holds_as f log r m :
  live f log r → bounded m → coherent (Rotation.active r) (Rotation.sidecars r) m f log →
  ∀ content, decode_manifest key content = Ok m →
  ∀ files, agree (Rotation.sidecars r) files → files !! manifest_name = Some content → files !! staging_name = None →
  holds f log (Rotation.set_sidecars files r).
Proof.
  intros _ Hb Hc content Hd files Ha Hman Hst. exists m, true. simpl. split_and!; [by exists content| |done|].
  - intros bytes. by rewrite Hst.
  - by eapply coherent_agree.
Qed.

(** Publishing replaces the manifest atomically. *)
Lemma publish_outcome f log r m :
  live f log r → bounded m → coherent (Rotation.active r) (Rotation.sidecars r) m f log →
  outcome f log r (publish m key r) (λ _ r', live f log r' ∧ Rotation.manifest r' = m ∧ same_archive r r').
Proof.
  intros Hl Hb Hc. unfold publish.
  destruct (signed_manifest_Ok key m) as (content & Hsig & Hdec);
    [by apply (co_schema _ _ _ _ _ _ Hc)|done|by apply (co_sized _ _ _ _ _ _ Hc)|by apply (co_pending _ _ _ _ _ _ Hc)|].
  eapply (outcome_bind _ _ _ _ _ _ (λ _ r', r' = r)).
  { apply (outcome_pure _ _ _ _ _ tt); [by eapply check_stored_Ok|done]. }
  intros _ ? ->. eapply (outcome_bind _ _ _ _ _ _ (λ _ r', live f log r' ∧ same_archive r r')).
  { apply outcome_inspect; [by apply live_stored|]. intros l. split; [by apply live_fates|done]. }
  intros _ r1 [Hl1 Hsame1]. eapply outcome_bind; [by apply discard_staging_outcome|].
  intros _ r2 (Hl2 & Hm2 & Hst & Hsame2). eapply (outcome_bind _ _ _ _ _ _ (λ a r', a = content ∧ r' = r2)).
  { by apply (outcome_pure _ _ _ _ _ content). }
  intros ? ? [-> ->]. assert (Hsame : same_archive r r2) by by eapply same_archive_trans.
  assert (Hput : ∀ n l, live f log (put_sidecar staging_name (take n content) (Rotation.set_fates l r2))).
  { intros n l. apply live_sidecars; [by apply live_fates|by apply agree_insert|by rewrite lookup_insert_ne|].
    intros bytes. simpl. rewrite lookup_insert_eq. intros [= <-]. eauto. }
  eapply (outcome_bind _ _ _ _ _ _ (λ _ r', live f log r' ∧ same_archive r r' ∧
    Rotation.sidecars r' !! staging_name = Some content)).
  { unfold create_file. rewrite Hst. apply outcome_perform; [|intros l|done].
    - intros [|n] l _; [by apply live_stored, live_fates|apply live_stored, Hput].
    - split_and!; [apply Hput| |simpl; by rewrite lookup_insert_eq, firstn_all].
      eapply same_archive_trans; [exact Hsame|]. split_and!; try done. by apply agree_insert. }
  intros _ r3 (Hl3 & Hsame3 & Hst3). eapply (outcome_bind _ _ _ _ _ _ (λ _ r', live f log r' ∧ same_archive r r' ∧
    Rotation.sidecars r' !! staging_name = Some content)).
  { apply outcome_inspect; [by apply live_stored|]. intros l. split_and!; [by apply live_fates|done|done]. }
  clear r3 Hl3 Hsame3 Hst3. intros _ r3 (Hl3 & Hsame3 & Hst3).
  set (renamed := <[manifest_name := content]> (delete staging_name (Rotation.sidecars r3))).
  assert (Hagree : agree (Rotation.sidecars r3) renamed).
  { eapply agree_trans; [by apply (agree_delete _ staging_name)|by apply agree_insert]. }
  assert (Hc3 : coherent (Rotation.active r3) (Rotation.sidecars r3) m f log).
  { destruct Hsame3 as (-> & _ & Ha). by eapply coherent_agree. }
  assert (Hren : ∀ l, holds f log (Rotation.set_sidecars renamed (Rotation.set_fates l r3))).
  { intros l. eapply (live_holds_as f log (Rotation.set_fates l r3) m); [by apply live_fates|done|done|exact Hdec|done| |].
    - unfold renamed. by rewrite lookup_insert_eq.
    - unfold renamed. by rewrite lookup_insert_ne, lookup_delete_eq. }
  eapply (outcome_bind _ _ _ _ _ _ (λ _ r', ∃ l, r' = Rotation.set_sidecars renamed (Rotation.set_fates l r3))).
  { unfold rename_file. rewrite Hst3. apply outcome_perform; [|by eauto|done].
    intros [|n] l _; [by apply live_stored, live_fates|apply Hren]. }
  intros _ ? [l ->]. simpl. split; [|done]. split_and!; [|done|].
  - split; simpl; [| |done| |].
    + exists content. unfold renamed. by rewrite lookup_insert_eq.
    + intros bytes. unfold renamed. by rewrite lookup_insert_ne, lookup_delete_eq.
    + by eapply coherent_agree.
    + by apply Hl3.
  - destruct Hsame3 as (Ha3 & Hc3' & Hs3). split_and!; [done|done|]. by eapply agree_trans.
Qed.

(** * Removing obsolete segments *)
Lemma garbage_not_segment active files m f log g s :
  coherent active files m f log → g ∈ Manifest.garbage m → s ∈ Manifest.segments m →
  segment_path (Segment.id g) ≠ segment_path (Segment.id s).
Proof.
  intros Hc Hg Hs E. destruct (co_sized _ _ _ _ _ _ Hc) as (_ & _ & Hss & Hsg). rewrite Forall_forall in Hss, Hsg.
  apply segment_path_inj in E; [|by apply Hsg|by apply Hss].
  destruct (co_segments _ _ _ _ _ _ Hc) as (id & Hv & _).
  pose proof (co_garbage _ _ _ _ _ _ Hc) as Hgo. rewrite Forall_forall in Hgo. destruct (Hgo g Hg) as [Hok _].
  unfold garbage_ok in Hok. apply negb_true_iff, orb_false_elim in Hok as [Hok _]. apply N.leb_gt in Hok.
  destruct (Manifest.segments m) as [|s0 segs] eqn:Em; [by apply not_elem_of_nil in Hs|]. simpl in Hok, Hv.
  destruct (_ || _) in Hv; [done|]. destruct (verify_segment files key s0); [|done].
  apply verify_segments_ids in Hv as [Hids _]. rewrite Forall_forall in Hids.
  apply elem_of_cons in Hs as [->|Hs]; [lia|]. specialize (Hids s Hs). simpl in Hids. lia.
Qed.

Lemma remove_garbage_outcome f log r garbage :
  live f log r → (∀ g, g ∈ garbage → g ∈ Manifest.garbage (Rotation.manifest r)) →
  outcome f log r (remove_garbage key garbage r) (λ _ r', live f log r' ∧ Rotation.manifest r' = Rotation.manifest r ∧
    Rotation.active r' = Rotation.active r ∧ Rotation.config r' = Rotation.config r ∧
    (∀ path, Rotation.sidecars r' !! path = None ∨ Rotation.sidecars r' !! path = Rotation.sidecars r !! path) ∧
    ∀ g, g ∈ garbage → Rotation.sidecars r' !! segment_path (Segment.id g) = None).
Proof.
  revert r. induction garbage as [|g garbage IH]; intros r Hl Hg.
  { apply outcome_ret. split_and!; [done|done|done|done|by right|]. intros g Hg'. by apply not_elem_of_nil in Hg'. }
  simpl. destruct (Rotation.sidecars r !! segment_path (Segment.id g)) as [bytes|] eqn:Eg.
  2:{ eapply outcome_mono; [apply IH; [done|set_solver]|]. simpl. intros _ r' (Hl' & Hman & Ha & Hcf & Hsub & Hall).
      split_and!; try done. intros g' [->|Hg']%elem_of_cons; [|by apply Hall].
      destruct (Hsub (segment_path (Segment.id g))) as [E|E]; [done|]. congruence. }
  pose proof (co_garbage _ _ _ _ _ _ (lv_coherent _ _ _ _ Hl)) as Hgo. rewrite Forall_forall in Hgo.
  assert (Hin : g ∈ Manifest.garbage (Rotation.manifest r)) by set_solver.
  eapply (outcome_bind _ _ _ _ _ _ (λ _ r', r' = r)).
  { apply (outcome_pure _ _ _ _ _ tt); [|done]. destruct (Hgo g Hin) as [_ [E|E]]; [congruence|done]. }
  intros _ ? ->. eapply (outcome_bind _ _ _ _ _ _ (λ _ r', ∃ l, r' = Rotation.set_fates l r)).
  { apply outcome_inspect; [by apply live_stored|eauto]. }
  intros _ ? [l ->]. set (gone := delete (segment_path (Segment.id g)) (Rotation.sidecars r)).
  assert (Hgone : ∀ l, live f log (Rotation.set_sidecars gone (Rotation.set_fates l r))).
  { intros l'. destruct Hl as [Hk Hst Hb Hc Hcf]. split; simpl; try done.
    - unfold AuditRotationSpec.known, gone in *. by rewrite lookup_delete_ne.
    - intros bytes' Hs'. apply Hst. unfold gone in Hs'. by rewrite lookup_delete_ne in Hs'.
    - eapply coherent_ext; [| | | |exact Hc].
      + unfold gone. by rewrite lookup_delete_ne.
      + apply Forall_forall. intros s Hs. unfold gone. rewrite lookup_delete_ne; [done|].
        by eapply garbage_not_segment.
      + apply Forall_forall. intros s Hs. unfold gone.
        destruct (decide (segment_path (Segment.id g) = segment_path (Segment.id s))) as [E|E].
        * right. by rewrite E, lookup_delete_eq.
        * left. by rewrite lookup_delete_ne.
      + intros path bytes' Hp _. left. unfold gone in Hp. by apply lookup_delete_Some in Hp as [_ ?]. }
  eapply (outcome_bind _ _ _ _ _ _ (λ _ r', ∃ l, r' = Rotation.set_sidecars gone (Rotation.set_fates l r))).
  { apply outcome_perform; [|by intros l'; exists l'|done].
    intros [|n] l' _; [exact (live_stored _ _ _ _ (live_fates _ _ _ _ l' Hl))|apply live_stored, Hgone]. }
  intros _ ? [l' ->]. eapply outcome_mono; [apply IH; [apply Hgone|intros g' Hg'; apply Hg, elem_of_cons; by right]|].
  simpl. intros _ r' (Hl' & Hman & Ha & Hcf & Hsub & Hall). split_and!; try done.
  - intros path. destruct (Hsub path) as [E|E]; [by left|]. unfold gone in E.
    destruct (decide (path = segment_path (Segment.id g))) as [->|Hne].
    + left. by rewrite E, lookup_delete_eq.
    + right. by rewrite E, lookup_delete_ne.
  - intros g' [->|Hg']%elem_of_cons; [|by apply Hall].
    destruct (Hsub (segment_path (Segment.id g))) as [E|E]; [done|]. unfold gone in E. by rewrite E, lookup_delete_eq.
Qed.

Lemma coherent_clear_garbage active files m f log :
  coherent active files m f log → (∀ g, g ∈ Manifest.garbage m → files !! segment_path (Segment.id g) = None) →
  coherent active files (Manifest.clear_garbage m) f log.
Proof.
  intros [] Hgone. split; simpl; try done.
  - intros path bytes Hp Hpre. destruct (co_files path bytes Hp Hpre) as [(s & [Hs|Hs]%elem_of_app & ->)|Ho].
    + left. exists s. split; [by apply elem_of_app; left|done].
    + by rewrite Hgone in Hp.
    + by right.
  - destruct co_sized as (?&?&?&?). by split_and!.
Qed.

Lemma collect_garbage_outcome f log r :
  live f log r → Manifest.pending (Rotation.manifest r) = None →
  outcome f log r (collect_garbage key r) (λ _ r', live f log r' ∧ Rotation.active r' = Rotation.active r ∧
    Rotation.config r' = Rotation.config r ∧ Manifest.pending (Rotation.manifest r') = None ∧
    Manifest.garbage (Rotation.manifest r') = []).
Proof.
  intros Hl Hp. unfold collect_garbage. rewrite bool_decide_false by (rewrite Hp; tauto). simpl.
  case_bool_decide as Eg; [simpl; by split_and!|].
  eapply outcome_bind; [apply remove_garbage_outcome; [done|auto]|]. simpl.
  intros _ r1 (Hl1 & Hman & Ha & Hcf & _ & Hall). eapply outcome_mono.
  - apply publish_outcome; [done| |].
    + destruct (lv_bounded _ _ _ _ Hl1). split; simpl; [done|lia].
    + apply coherent_clear_garbage; [by apply Hl1|]. by rewrite Hman.
  - simpl. intros _ r' (Hl' & Hman' & Ha' & Hcf' & _). rewrite Hman'. simpl. rewrite Hman. split_and!; congruence || done.
Qed.

(** * Archiving *)
Lemma next_path_fresh active files m f log s :
  coherent active files m f log → (Manifest.generation m < U64_MAX)%N → s ∈ Manifest.segments m →
  segment_path (Manifest.generation m + 1) ≠ segment_path (Segment.id s).
Proof.
  intros Hc Hg Hs E. destruct (co_sized _ _ _ _ _ _ Hc) as (_ & _ & Hss & _). rewrite Forall_forall in Hss.
  apply segment_path_inj in E; [|lia|by apply Hss].
  destruct (co_segments _ _ _ _ _ _ Hc) as (id & Hv & _). apply verify_segments_ids in Hv as [Hids _].
  rewrite Forall_forall in Hids. specialize (Hids s Hs). simpl in Hids. lia.
Qed.

(** Any part of the active stream may be copied to the next archive. *)
Lemma coherent_copy active files m f log n :
  coherent active files m f log → (Manifest.generation m < U64_MAX)%N → Manifest.pending m = None →
  Manifest.garbage m = [] → active ≠ [] →
  coherent active (<[segment_path (Manifest.generation m + 1) := take n active]> files) m f log.
Proof.
  intros Hc Hg Hp Hgar Hne. eapply coherent_ext; [| | | |exact Hc].
  - by rewrite lookup_insert_ne.
  - apply Forall_forall. intros s Hs. rewrite lookup_insert_ne; [done|by eapply next_path_fresh].
  - by rewrite Hgar.
  - intros path bytes Hl Hpre. destruct (decide (path = segment_path (Manifest.generation m + 1))) as [->|Hd].
    + rewrite lookup_insert_eq in Hl. injection Hl as <-. right. split_and!; try done.
      rewrite length_take. destruct (Nat.le_ge_cases n (length active)).
      * by rewrite Nat.min_l.
      * rewrite Nat.min_r, !firstn_all2 by lia. done.
    + left. by rewrite lookup_insert_ne in Hl.
Qed.

Lemma live_copy f log r n l :
  live f log r → (Manifest.generation (Rotation.manifest r) < U64_MAX)%N → Manifest.pending (Rotation.manifest r) = None →
  Manifest.garbage (Rotation.manifest r) = [] → Rotation.active r ≠ [] →
  live f log (put_sidecar (segment_path (Manifest.generation (Rotation.manifest r) + 1)) (take n (Rotation.active r))
                (Rotation.set_fates l r)).
Proof.
  intros [Hk Hst Hb Hc Hcf] Hg Hp Hgar Hne. split; simpl; try done.
  - unfold AuditRotationSpec.known in *. by rewrite lookup_insert_ne.
  - intros bytes. rewrite lookup_insert_ne by done. apply Hst.
  - by apply coherent_copy.
Qed.

Lemma archive_outcome f log r :
  live f log r → (Manifest.generation (Rotation.manifest r) < U64_MAX)%N → Manifest.pending (Rotation.manifest r) = None →
  Manifest.garbage (Rotation.manifest r) = [] → Rotation.active r ≠ [] → (len (Rotation.active r) ≤ MAX_SEGMENT_BYTES)%N →
  outcome f log r (archive (segment_path (Manifest.generation (Rotation.manifest r) + 1)) (Rotation.active r) r)
    (λ _ r', live f log r' ∧ Rotation.manifest r' = Rotation.manifest r ∧ Rotation.active r' = Rotation.active r ∧
       Rotation.config r' = Rotation.config r ∧
       Rotation.sidecars r' !! segment_path (Manifest.generation (Rotation.manifest r) + 1) = Some (Rotation.active r)).
Proof.
  intros Hl Hg Hp Hgar Hne Hlen. unfold archive. set (path := segment_path _).
  destruct (Rotation.sidecars r !! path) as [prefix|] eqn:Ep.
  - destruct (co_files _ _ _ _ _ _ (lv_coherent _ _ _ _ Hl) path prefix Ep (segment_path_prefix _))
      as [(s & Hs & E)|(_ & _ & _ & Hpre)].
    { rewrite Hgar, app_nil_r in Hs. exfalso. by eapply (next_path_fresh _ _ _ _ _ s); [apply Hl|..]. }
    assert (Hle : length prefix ≤ length (Rotation.active r)).
    { apply (f_equal length) in Hpre. rewrite length_take in Hpre. lia. }
    unfold read_to. destruct (N.ltb_spec MAX_SEGMENT_BYTES (len prefix)) as [Hbig|_]; [unfold len in *; lia|].
    rewrite bool_decide_true by done. simpl.
    assert (Hcopy : ∀ n, prefix ++ take n (drop (length prefix) (Rotation.active r)) =
                         take (length prefix + n) (Rotation.active r)).
    { intros n. rewrite <-Hpre at 1. apply take_take_drop. }
    apply outcome_perform; [|intros l|done]; [intros n l _|]; rewrite Hcopy.
    + by apply live_stored, live_copy.
    + split_and!; try done; [by apply live_copy|]. simpl. rewrite lookup_insert_eq. f_equal.
      apply firstn_all2. rewrite length_drop. lia.
  - unfold create_file. rewrite Ep. apply outcome_perform; [|intros l|done].
    + intros [|n] l _; [by apply live_stored, live_fates|by apply live_stored, live_copy].
    + split_and!; try done; [by apply live_copy|]. simpl. by rewrite lookup_insert_eq, firstn_all.
Qed.

(** * The announcement of a segment *)
Lemma verify_segments_mono files g g' segments f id id' :
  (g ≤ g')%N → verify_segments files key g segments f id = Ok id' → verify_segments files key g' segments f id = Ok id'.
Proof.
  intros Hg. revert f id. induction segments as [|s segments IH]; intros f id; simpl; [done|].
  destruct (_ || _) eqn:E; [done|]. rewrite !orb_false_iff in E. destruct E as [[[[[-> E2] ->] ->] ->] ->].
  apply N.ltb_ge in E2. rewrite (proj2 (N.ltb_ge g' (Segment.id s))) by lia. simpl.
  destruct (verify_segment files key s); [apply IH|done].
Qed.

Lemma verify_segments_snoc files g segments s f id id' :
  verify_segments files key g segments f id = Ok id' →
  (id' < Segment.id s)%N → (Segment.id s ≤ g)%N →
  Segment.start s = match last segments with Some s => Segment.end_ s | None => f end →
  (Frontier.sequence (Segment.start s) < Frontier.sequence (Segment.end_ s))%N →
  Segment.length s ≠ 0%N → (Segment.length s ≤ MAX_SEGMENT_BYTES)%N → verify_segment files key s = Ok tt →
  verify_segments files key g (segments ++ [s]) f id = Ok (Segment.id s).
Proof.
  intros Hv Hid Hg Hst Hseq Hl0 Hl Hok. revert f id Hv Hst. induction segments as [|s' segments IH]; intros f id.
  - intros [= ->] Hst. simpl. simpl in Hst. rewrite (proj2 (N.leb_gt _ _) Hid), (proj2 (N.ltb_ge _ _) Hg).
    rewrite bool_decide_true by done. rewrite (proj2 (N.leb_gt _ _) Hseq), (proj2 (N.eqb_neq _ _) Hl0), (proj2 (N.ltb_ge _ _) Hl).
    simpl. by rewrite Hok.
  - intros Hv Hst. simpl in *. destruct (_ || _) eqn:Eg in Hv; [done|]. rewrite Eg.
    destruct (verify_segment files key s'); [|done]. apply (IH _ _ Hv). destruct segments as [|t segments]; [exact Hst|].
    change (last (s' :: t :: segments)) with (last (t :: segments)) in Hst.
    destruct (last (t :: segments)) eqn:El; [exact Hst|by apply last_None in El].
Qed.

Lemma verify_segments_weaken files g segments f id id0 id' :
  segments ≠ [] → (id0 ≤ id)%N → verify_segments files key g segments f id = Ok id' →
  verify_segments files key g segments f id0 = Ok id'.
Proof.
  intros Hne Hle. destruct segments as [|s segments]; [done|]. simpl.
  destruct (_ || _) eqn:E; [done|]. rewrite !orb_false_iff in E. destruct E as [[[[[E1 ->] ->] ->] ->] ->].
  apply N.leb_gt in E1. by rewrite (proj2 (N.leb_gt (Segment.id s) id0)) by lia.
Qed.

Lemma seg_events_snoc files segments s :
  seg_events files (segments ++ [s]) =
  seg_events files segments ++ events (default [] (files !! segment_path (Segment.id s))).
Proof. unfold seg_events. rewrite fmap_app, concat_app. simpl. by rewrite app_nil_r. Qed.

Lemma verify_audit_progress active s p s' p' :
  active ≠ [] → verify_audit_from active key s p = Ok (s', p') → (s < s')%N.
Proof.
  intros Hne (_ & lines & _ & E & Hv)%verify_audit_Ok. apply verify_lines_sequence in Hv as ->.
  destruct lines; [done|]. unfold len. simpl. lia.
Qed.

Lemma coherent_announce active files m f log :
  coherent active files m f log → (Frontier.sequence f < U64_MAX)%N → Manifest.pending m = None → Manifest.garbage m = [] → active ≠ [] →
  files !! segment_path (Manifest.generation m + 1) = Some active →
  let s := Segment.mk (Manifest.generation m + 1) (len active) (sha256 active) (start_of m) f in
  coherent active files
    (Manifest.mk (Manifest.schema m) (Manifest.generation m + 1) (Manifest.base m) (Manifest.segments m ++ [s]) (Some s) []) f log.
Proof.
  intros Hc Hfm Hp Hgar Hne Hfile s. pose proof Hc as [? ? ? ? (id & Hv & Hid) ? ? ? ? Hsz ? Hact]. rewrite Hp in Hact.
  destruct Hact as [Hver (dropped & Hlog)]. pose proof (verify_audit_progress _ _ _ _ _ Hne Hver) as Hprog.
  pose proof Hver as [Hlen _]%verify_audit_Ok. change MAX_AUDIT_BYTES with MAX_SEGMENT_BYTES in Hlen. destruct Hsz as (Hsz1 & Hsz2 & Hsz3 & Hsz4).
  destruct co_frontier as [Hf1 Hf2].
  assert (Hstart : frontier_sized (start_of m)).
  { unfold start_of. destruct (last _) as [s0|] eqn:El; [|done]. rewrite Forall_forall in Hsz3.
    by apply (Hsz3 s0), last_Some_elem_of. }
  split; simpl; try done.
  - split; [intros E; by apply app_nil in E as [_ ?]|lia].
  - by rewrite last_snoc.
  - exists (Manifest.generation m + 1)%N. split; [|done].
    apply (verify_segments_snoc _ _ _ s _ _ id); simpl; [eapply verify_segments_mono; [|exact Hv]; lia| |lia|done|done| | |].
    + destruct (decide (Manifest.segments m = [])) as [E|E]; [|rewrite Hid by done; lia].
      rewrite E in Hv. simpl in Hv. apply Ok_inj in Hv. lia.
    + unfold len. destruct active; [done|simpl; lia].
    + done.
    + unfold verify_segment. simpl. rewrite Hfile. simpl. unfold read_to.
      rewrite (proj2 (N.ltb_ge _ _) Hlen). rewrite N.eqb_refl, bool_decide_true by done. simpl. rewrite Hver. simpl.
      by rewrite bool_decide_true.
  - intros path bytes Hpath Hpre. left. destruct (co_files path bytes Hpath Hpre) as [(s' & Hs' & ->)|(_ & -> & _)].
    + rewrite Hgar, app_nil_r in Hs'. exists s'. split; [set_solver|done].
    + exists s. split; [set_solver|done].
  - unfold start_of. simpl. rewrite last_snoc. simpl. lia.
  - lia.
  - split_and!; simpl; [lia|done| |constructor]. apply Forall_app. split; [done|]. constructor; [|constructor].
    split_and!; simpl; [lia|done|by apply sha256_length|done|done].
  - split_and!; [done|by right|]. exists dropped. by rewrite seg_events_snoc; simpl; rewrite Hfile.
Qed.

(** While a segment is announced, the active file is spare. *)
Lemma coherent_truncate active files m f log s :
  coherent active files m f log → Manifest.pending m = Some s → coherent [] files m f log.
Proof.
  intros [] Hp. split; try done.
  - intros path bytes Hpath Hpre. destruct (co_files path bytes Hpath Hpre) as [?|(Hn & _)]; [by left|congruence].
  - rewrite Hp in *. destruct co_active as (? & _ & ?). by split_and!; [|left|].
Qed.

Lemma coherent_complete files m f log s :
  coherent [] files m f log → Manifest.pending m = Some s → coherent [] files (Manifest.clear_pending m) f log.
Proof.
  intros [] Hp. rewrite Hp in *. simpl in co_pending. split; simpl; try done.
  - intros path bytes Hpath Hpre. destruct (co_files path bytes Hpath Hpre) as [?|(Hn & _)]; [by left|done].
  - destruct co_active as (-> & _ & dropped & ->).
    change (start_of (Manifest.clear_pending m)) with (start_of m).
    unfold start_of. rewrite co_pending. split; [done|]. exists dropped. by rewrite app_nil_r.
Qed.

(** The oldest segment becomes garbage. *)
Lemma coherent_retire_one active files m f log old rest :
  coherent active files m f log → Manifest.segments m = old :: rest → rest ≠ [] →
  coherent active files (Manifest.mk (Manifest.schema m) (Manifest.generation m) (Segment.end_ old) rest
    (Manifest.pending m) (Manifest.garbage m ++ [old])) f log.
Proof.
  intros [] E Hne. rewrite E in *. destruct co_segments as (id & Hv & Hid). simpl in Hv.
  destruct (_ || _) eqn:Eg in Hv; [done|]. destruct (verify_segment files key old) as [[]|] eqn:Eold; [|done].
  rewrite !orb_false_iff in Eg. destruct Eg as [[[[[Eg1 _] Eg3] Eg4] _] _].
  apply N.leb_gt in Eg4. apply negb_false_iff, bool_decide_eq_true in Eg3. apply N.leb_gt in Eg1.
  pose proof Hv as [Hids _]%verify_segments_ids. destruct co_sized as (Hz1 & Hz2 & Hz3 & Hz4).
  rewrite E in Hz3. apply Forall_cons in Hz3 as [Hzo Hz3]. destruct rest as [|s rest]; [done|].
  apply Forall_cons in Hids as [[Hids _] _].
  assert (Hso : start_of (Manifest.mk (Manifest.schema m) (Manifest.generation m) (Segment.end_ old) (s :: rest)
    (Manifest.pending m) (Manifest.garbage m ++ [old])) = start_of m).
  { unfold start_of. rewrite E. simpl. change (last (old :: s :: rest)) with (last (s :: rest)).
    destruct (last (s :: rest)) eqn:El; [done|by apply last_None in El]. }
  split; simpl; try done.
  - split; [done|]. intros Hz. by apply co_empty in Hz.
  - exists id. split; [|by intros _; apply Hid]. apply (verify_segments_weaken _ _ (s :: rest) _ (Segment.id old)); [done|lia|exact Hv].
  - apply Forall_app. split.
    + eapply Forall_impl; [exact co_garbage|]. simpl. intros g [Hg Hf]. split; [|done]. unfold garbage_ok in *.
      apply negb_true_iff, orb_false_elim in Hg as [Hg1 Hg2]. rewrite E in Hg1. simpl in *.
      apply N.leb_gt in Hg1. apply N.ltb_ge in Hg2. rewrite <-Eg3 in Hg2.
      apply negb_true_iff, orb_false_iff. split; [apply N.leb_gt; lia|apply N.ltb_ge; lia].
    + constructor; [|constructor]. split; [|by right]. unfold garbage_ok. simpl.
      apply negb_true_iff, orb_false_iff. split; [apply N.leb_gt; lia|apply N.ltb_ge; lia].
  - intros path bytes Hp Hpre. destruct (co_files path bytes Hp Hpre) as [(s' & Hs' & ->)|Ho]; [|by right].
    left. exists s'. split; [|done]. set_solver.
  - by rewrite Hso.
  - split_and!; simpl; [done|by apply Hzo|done|]. apply Forall_app. split; [done|by constructor].
  - rewrite Hso. destruct (Manifest.pending m) as [p|]; simpl in *.
    + destruct co_active as (? & ? & dropped & ->). split_and!; [done|done|].
      exists (dropped ++ events (default [] (files !! segment_path (Segment.id old)))).
      unfold seg_events. simpl. by rewrite <-app_assoc.
    + destruct co_active as (? & dropped & ->). split; [done|].
      exists (dropped ++ events (default [] (files !! segment_path (Segment.id old)))).
      unfold seg_events. simpl. by rewrite <-!app_assoc.
Qed.
End steps.

(** * Rotation and recovery as a whole, and the recording of an event. *)

#[local] Opaque STAGING_MAGIC MANIFEST_CONTEXT.

Section recovery.
Context `{Hm : Hmac, Sh : Sha256, B64 : Base64, Su : Serde AuditUnsigned, Sr : Serde AuditRecord,
  Sm : Serde Manifest, Ss : Serde SignedManifest}.
Context `{!HmacLaws, !Sha256Laws Sh, !Base64Laws, !Base64Length, !SerdeLaws AuditUnsigned, !SerdeLaws AuditRecord,
  !LineLaws AuditRecord, !SerdeLaws SignedManifest, !ManifestText}.
Variable key : list u8.
Implicit Types (m : Manifest) (r : Rotation) (f : Frontier) (active : list u8) (files : gmap string (list u8))
  (log : list AuditUnsigned).

Notation coherent := (coherent key).
Notation holds := (holds key).
Notation live := (live key).
Notation outcome := (outcome key).

(** * Rotation *)
Lemma retire_spec active files f log retained fuel m :
  1 ≤ retained → coherent active files m f log → Manifest.segments m ≠ [] →
  let m' := retire retained fuel m in
  coherent active files m' f log ∧ Manifest.pending m' = Manifest.pending m ∧ Manifest.segments m' ≠ [] ∧
  length (Manifest.segments m') + length (Manifest.garbage m') = length (Manifest.segments m) + length (Manifest.garbage m) ∧
  (length (Manifest.segments m) ≤ fuel + retained → length (Manifest.segments m') ≤ retained).
Proof.
  intros Hr. revert m. induction fuel as [|fuel IH]; intros m Hc Hne; simpl; [by split_and!|].
  destruct (Manifest.segments m) as [|old rest] eqn:E; [done|].
  destruct (Nat.ltb_spec retained (length (old :: rest))) as [Hlt|Hge].
  2:{ rewrite E. split_and!; try done. }
  assert (Hrest : rest ≠ []) by (destruct rest; simpl in *; [lia|done]).
  destruct (IH _ (coherent_retire_one _ _ _ _ _ _ _ _ Hc E Hrest) Hrest) as (Hc' & Hp' & Hne' & Hlen & Hle).
  split_and!; [done|done|done| |].
  - rewrite Hlen. simpl. rewrite length_app. simpl. lia.
  - intros Hf. apply Hle. simpl in *. lia.
Qed.

Lemma config_retained c : AuditConfig.validate c = Ok c → 1 ≤ AuditConfig.retained_segments c ≤ 64.
Proof.
  unfold AuditConfig.validate. destruct (_ || _) eqn:E; [done|]. intros _.
  apply orb_false_elim in E as [_ E]. apply negb_false_iff, andb_true_iff in E as [E1 E2].
  apply Nat.leb_le in E1, E2. lia.
Qed.

Lemma config_segment c : AuditConfig.validate c = Ok c → (AuditConfig.segment_bytes c ≤ MAX_SEGMENT_BYTES)%N.
Proof.
  unfold AuditConfig.validate. destruct (_ || _) eqn:E; [done|]. intros _.
  apply orb_false_elim in E as [E _]. apply negb_false_iff, andb_true_iff in E as [_ E2].
  by apply N.leb_le in E2.
Qed.

Lemma pending_manifest_ok active files m f log c :
  coherent active files m f log → (Frontier.sequence f < U64_MAX)%N → bounded m → Manifest.pending m = None →
  Manifest.garbage m = [] → active ≠ [] → AuditConfig.validate c = Ok c → files !! segment_path (Manifest.generation m + 1) = Some active →
  let s := Segment.mk (Manifest.generation m + 1) (len active) (sha256 active) (start_of m) f in
  let m' := pending_manifest (AuditConfig.retained_segments c) s m in
  coherent active files m' f log ∧ bounded m' ∧ Manifest.pending m' = Some s.
Proof.
  intros Hc Hfm [Hb _] Hp Hg Hne Hcf Hfile s m'. apply config_retained in Hcf.
  pose proof (coherent_announce _ _ _ _ _ _ Hc Hfm Hp Hg Hne Hfile) as Ha. fold s in Ha.
  unfold m', pending_manifest. rewrite Hg.
  destruct (retire_spec active files f log (AuditConfig.retained_segments c) (length (Manifest.segments m ++ [s])) _
    ltac:(lia) Ha) as (Hc' & Hp' & Hne' & Hlen & Hle); [simpl; by destruct (Manifest.segments m)|].
  change (Segment.id s) with (Manifest.generation m + 1)%N. revert Hc' Hp' Hne' Hlen Hle. simpl.
  generalize (retire (AuditConfig.retained_segments c) (length (Manifest.segments m ++ [s]))
    (Manifest.mk (Manifest.schema m) (Manifest.generation m + 1) (Manifest.base m) (Manifest.segments m ++ [s]) (Some s) [])).
  intros m1 Hc' Hp' Hne' Hlen Hle. rewrite !length_app in *. simpl in *. split_and!; [done| |done].
  split; [lia|]. destruct (Manifest.segments m1); [done|]. simpl in Hlen. lia.
Qed.

Lemma new_segment_Ok f log r :
  live f log r → Manifest.pending (Rotation.manifest r) = None → Rotation.active r ≠ [] →
  let m := Rotation.manifest r in
  new_segment key f r = Ok (Segment.mk (Manifest.generation m + 1) (len (Rotation.active r)) (sha256 (Rotation.active r))
                              (start_of m) f, Rotation.active r) ∧
  (Manifest.generation m < U64_MAX)%N ∧ (len (Rotation.active r) ≤ MAX_SEGMENT_BYTES)%N.
Proof.
  intros [_ _ _ Hc _] Hp Hne. cbv zeta. pose proof (co_active _ _ _ _ _ _ Hc) as Ha. rewrite Hp in Ha. destruct Ha as [Hv _].
  pose proof (verify_audit_progress _ _ _ _ _ _ Hne Hv) as Hprog. pose proof Hv as [Hlen _]%verify_audit_Ok.
  change MAX_AUDIT_BYTES with MAX_SEGMENT_BYTES in Hlen.
  pose proof (co_generation _ _ _ _ _ _ Hc). destruct (co_frontier _ _ _ _ _ _ Hc) as [Hseq _].
  split_and!; [|lia|done]. unfold new_segment. change (Rotation.active_start r) with (start_of (Rotation.manifest r)).
  rewrite Hv. simpl. rewrite bool_decide_true by done. rewrite (proj2 (N.leb_gt _ _) Hprog). simpl.
  unfold read_to. rewrite (proj2 (N.ltb_ge _ _) Hlen).
  destruct (checked_add _ _) as [n|] eqn:En; [by apply checked_add_Some in En as [-> _]|].
  apply checked_add_None in En. lia.
Qed.

(** A completed rotation leaves an empty active file; an interrupted one the chain. *)
Lemma rotate_outcome f log r :
  live f log r → (Frontier.sequence f < U64_MAX)%N → Manifest.pending (Rotation.manifest r) = None → Rotation.active r ≠ [] →
  outcome f log r (rotate key f r) (λ _ r', live f log r' ∧ Manifest.pending (Rotation.manifest r') = None ∧
    Rotation.active r' = [] ∧ Rotation.config r' = Rotation.config r).
Proof.
  intros Hl Hfm Hp Hne. unfold rotate. eapply (outcome_bind _ _ _ _ _ _ (λ _ r', ∃ l, r' = Rotation.set_fates l r)).
  { apply outcome_inspect; [by apply live_stored|eauto]. }
  intros _ ? [l ->]. eapply outcome_bind; [apply collect_garbage_outcome; [by apply live_fates|done]|].
  simpl. intros _ r1 (Hl1 & Ha1 & Hcf1 & Hp1 & Hg1). rewrite <-Ha1 in Hne.
  destruct (new_segment_Ok f log r1 Hl1 Hp1 Hne) as (Hseg & Hgen & Hlen).
  eapply (outcome_bind _ _ _ _ _ _ (λ a r', new_segment key f r1 = Ok a ∧ r' = r1)); [by eapply outcome_pure|].
  intros a ? [Ha ->]. rewrite Hseg in Ha. apply Ok_inj in Ha as <-. simpl. eapply outcome_bind; [by apply archive_outcome|].
  simpl. intros _ r2 (Hl2 & Hm2 & Ha2 & Hcf2 & Hf2). rewrite <-Hm2, <-Ha2 in *.
  eapply outcome_bind.
  { apply publish_outcome; [done|..]; eapply pending_manifest_ok; eauto; apply Hl2. }
  simpl. intros _ r3 (Hl3 & Hm3 & Ha3 & Hcf3 & _).
  destruct (pending_manifest_ok (Rotation.active r2) (Rotation.sidecars r2) (Rotation.manifest r2) f log (Rotation.config r2))
    as (_ & _ & Hpend); [apply Hl2|done|apply Hl2|done|done|done|apply Hl2|done|].
  rewrite <-Hm3 in Hpend. set (s := Segment.mk _ _ _ _ _) in Hpend.
  assert (Hempty : ∀ l, live f log (Rotation.set_active [] (Rotation.set_fates l r3))).
  { intros l'. destruct Hl3. split; simpl; try done. by eapply coherent_truncate. }
  eapply (outcome_bind _ _ _ _ _ _ (λ _ r', ∃ l, r' = Rotation.set_active [] (Rotation.set_fates l r3))).
  { apply outcome_perform; [|eauto|done]. intros [|n] l' _; [by apply live_stored, live_fates|apply live_stored, Hempty]. }
  intros _ ? [l' ->]. specialize (Hempty l').
  eapply outcome_bind.
  { apply publish_outcome; [done| |].
    - destruct (lv_bounded _ _ _ _ Hempty). by split.
    - eapply coherent_complete; [apply Hempty|exact Hpend]. }
  simpl. intros _ r4 (Hl4 & Hm4 & Ha4 & Hcf4 & _).
  eapply outcome_mono; [apply collect_garbage_outcome; [done|by rewrite Hm4]|].
  simpl. intros _ r5 (Hl5 & Ha5 & Hcf5 & Hp5 & _). simpl in *. split_and!; congruence || done.
Qed.

(** * Recovery *)
Lemma verify_manifest_Ok f log r : live f log r → verify_manifest key r = Ok tt.
Proof.
  intros [_ _ [Hb1 Hb2] [_ ? ? ? (id & Hv & Hid) ? ? ? ? ? ? ?] _]. unfold verify_manifest.
  assert (Hs : manifest_structure (Rotation.manifest r) = true).
  { unfold manifest_structure. rewrite co_schema, (proj2 (Nat.leb_le _ _) Hb1), (proj2 (Nat.leb_le _ _) Hb2). simpl.
    apply andb_true_iff. split.
    - apply Bool.eqb_true_iff. apply Bool.eq_iff_eq_true. by rewrite bool_decide_eq_true, N.eqb_eq.
    - destruct (Manifest.pending _); simpl in *; [by apply bool_decide_eq_true|done]. }
  rewrite Hs, Hv. simpl. destruct (decide (Manifest.segments (Rotation.manifest r) = [])) as [E|E].
  - rewrite (bool_decide_true _ E). simpl. rewrite (proj2 (forallb_forall _ _)); [done|].
    intros g Hg%list_elem_of_In. rewrite Forall_forall in co_garbage. by apply co_garbage.
  - rewrite (bool_decide_false _ E), Hid, N.eqb_refl by done. simpl. rewrite (proj2 (forallb_forall _ _)); [done|].
    intros g Hg%list_elem_of_In. rewrite Forall_forall in co_garbage. by apply co_garbage.
Qed.

Lemma finish_pending_outcome f log r :
  live f log r →
  outcome f log r (finish_pending key r) (λ _ r', live f log r' ∧ Manifest.pending (Rotation.manifest r') = None ∧
    Rotation.config r' = Rotation.config r).
Proof.
  intros Hl. unfold finish_pending. destruct (Manifest.pending (Rotation.manifest r)) as [s|] eqn:Ep.
  2:{ simpl. by split_and!. }
  pose proof (co_active _ _ _ _ _ _ (lv_coherent _ _ _ _ Hl)) as Ha. rewrite Ep in Ha. destruct Ha as (_ & Ha & _).
  assert (Hss : segment_sized s).
  { destruct (co_sized _ _ _ _ _ _ (lv_coherent _ _ _ _ Hl)) as (_ & _ & Hs & _). rewrite Forall_forall in Hs.
    apply Hs, last_Some_elem_of. pose proof (co_pending _ _ _ _ _ _ (lv_coherent _ _ _ _ Hl)) as Hp. by rewrite Ep in Hp. }
  eapply (outcome_bind _ _ _ _ _ _ (λ a r', a = Rotation.active r ∧ r' = r)).
  { apply (outcome_pure _ _ _ _ _ (Rotation.active r)); [|done]. unfold read_to. rewrite (proj2 (N.ltb_ge _ _)); [done|].
    destruct Ha as [->|[-> _]]; [done|apply Hss]. }
  intros ? ? [-> ->].
  assert (Hempty : ∀ l, live f log (Rotation.set_active [] (Rotation.set_fates l r))).
  { intros l. destruct Hl. split; simpl; try done. by eapply coherent_truncate. }
  eapply (outcome_bind _ _ _ _ _ _ (λ _ r', live f log r' ∧ Rotation.active r' = [] ∧
    Manifest.pending (Rotation.manifest r') = Some s ∧ Rotation.config r' = Rotation.config r)).
  { case_bool_decide as Eb; [apply outcome_ret; by split_and!|]. destruct Ha as [Ha|[-> ->]]; [done|].
    rewrite N.eqb_refl, bool_decide_true by done. simpl. apply outcome_perform; [|intros l; split_and!; [apply Hempty|done..]|done].
    intros [|n] l _; [by apply live_stored, live_fates|apply live_stored, Hempty]. }
  intros _ r1 (Hl1 & Ha1 & Hp1 & Hcf1). eapply outcome_mono.
  - apply publish_outcome; [done| |].
    + destruct (lv_bounded _ _ _ _ Hl1). by split.
    + rewrite Ha1. eapply coherent_complete; [rewrite <-Ha1; apply Hl1|done].
  - simpl. intros _ r' (Hl' & Hm' & _ & Hcf' & _). rewrite Hm'. split_and!; [done|done|congruence].
Qed.

Lemma inventory_Ok f log r :
  live f log r → Manifest.pending (Rotation.manifest r) = None → Manifest.garbage (Rotation.manifest r) = [] →
  (Manifest.generation (Rotation.manifest r) < U64_MAX)%N → (len (Rotation.active r) ≤ MAX_SEGMENT_BYTES)%N →
  verify_archive_inventory r = Ok tt.
Proof.
  intros Hl Hp Hg Hgen Hlen. unfold verify_archive_inventory.
  destruct (checked_add _ _) as [next|] eqn:En; [|apply checked_add_None in En; lia].
  apply checked_add_Some in En as [-> _]. simpl.
  assert (Hall : ∀ entries, (∀ path bytes, (path, bytes) ∈ entries → Rotation.sidecars r !! path = Some bytes) →
    check_entries (Rotation.manifest r) (Manifest.generation (Rotation.manifest r) + 1) (Rotation.active r) entries = Ok tt).
  { induction entries as [|[path bytes] entries IH]; intros Hin; [done|]. simpl.
    rewrite IH by (intros ???; apply Hin, elem_of_cons; by right).
    assert (Hf : Rotation.sidecars r !! path = Some bytes) by (apply Hin, elem_of_cons; by left).
    unfold inventory_ok. destruct (has_prefix segment_prefix path) eqn:Epre; [|done]. simpl.
    destruct (existsb _ _) eqn:Eex; [done|].
    destruct (co_files _ _ _ _ _ _ (lv_coherent _ _ _ _ Hl) path bytes Hf Epre) as [(s & Hs & ->)|(_ & -> & Hne & Htake)].
    - rewrite Hg, app_nil_r in Hs. exfalso. apply not_true_iff_false in Eex. apply Eex, existsb_exists.
      exists s. split; [by apply list_elem_of_In|by apply bool_decide_eq_true].
    - rewrite bool_decide_true by done. simpl. unfold read_to. rewrite (proj2 (N.ltb_ge _ _) Hlen).
      rewrite (proj2 (N.ltb_ge _ (len bytes))).
      2:{ apply (f_equal length) in Htake. rewrite length_take in Htake. unfold len in *. lia. }
      rewrite bool_decide_false by done. by rewrite bool_decide_true. }
  apply Hall. intros path bytes Hin. by apply elem_of_map_to_list.
Qed.

(** Recovery from any interruption finds the frontier. *)
Lemma recover_outcome f log r :
  holds f log r → Rotation.manifest r = Manifest.initial → Rotation.manifest_exists r = false →
  AuditConfig.validate (Rotation.config r) = Ok (Rotation.config r) →
  outcome f log r (recover key r) (λ a r', a = pair_of f ∧ live f log r' ∧
    Manifest.pending (Rotation.manifest r') = None).
Proof.
  intros Hh Hman Hex Hcf. unfold recover.
  eapply (outcome_bind _ _ _ _ _ _ (λ _ r', ∃ l, r' = Rotation.set_fates l r)).
  { apply outcome_inspect; [done|eauto]. }
  intros _ ? [l ->]. eapply (outcome_bind _ _ _ _ _ _ (λ _ r', live f log r')).
  { destruct Hh as (m & there & Hk & Hst & Hb & Hc). unfold load_manifest, AuditRotationSpec.known in *. simpl.
    destruct there; [destruct Hk as (bytes & E & Hd)|destruct Hk as [E ->]]; rewrite E, ?Hd; simpl; (split; [|done]).
    - split; simpl; try done. by exists bytes.
    - split; simpl; rewrite ?Hman, ?Hex; done. }
  intros _ r1 Hl1. eapply (outcome_bind _ _ _ _ _ _ (λ _ r', r' = r1)).
  { apply (outcome_pure _ _ _ _ _ tt); [by eapply verify_manifest_Ok|done]. }
  intros _ ? ->. eapply outcome_bind; [by apply discard_staging_outcome|].
  intros _ r2 (Hl2 & _). eapply outcome_bind; [by apply finish_pending_outcome|].
  intros _ r3 (Hl3 & Hp3 & _). eapply outcome_bind; [by apply collect_garbage_outcome|].
  intros _ r4 (Hl4 & _ & _ & Hp4 & Hg4).
  pose proof (co_active _ _ _ _ _ _ (lv_coherent _ _ _ _ Hl4)) as Ha. rewrite Hp4 in Ha. destruct Ha as [Hv _].
  eapply (outcome_bind _ _ _ _ _ _ (λ a r', a = pair_of f ∧ r' = r4)).
  { apply (outcome_pure _ _ _ _ _ (pair_of f)); [|done].
    change (Rotation.active_start r4) with (start_of (Rotation.manifest r4)). simpl. by rewrite Hv. }
  intros ? ? [-> ->]. eapply (outcome_bind _ _ _ _ _ _ (λ _ r', r' = r4)).
  { apply (outcome_pure _ _ _ _ _ tt); [|done]. pose proof Hv as (Hlen & _)%verify_audit_Ok.
    eapply inventory_Ok; try done. apply (co_next _ _ _ _ _ _ (lv_coherent _ _ _ _ Hl4)). }
  intros _ ? ->. by apply outcome_ret.
Qed.

(** * Making room for a record *)
Lemma before_append_outcome f log r added :
  live f log r → (Frontier.sequence f < U64_MAX)%N → Manifest.pending (Rotation.manifest r) = None →
  (added ≤ AuditConfig.segment_bytes (Rotation.config r))%N →
  outcome f log r (before_append key added (Frontier.sequence f) (Frontier.mac f) r) (λ _ r',
    live f log r' ∧ Manifest.pending (Rotation.manifest r') = None ∧ Rotation.config r' = Rotation.config r ∧
    (len (Rotation.active r') + added ≤ AuditConfig.segment_bytes (Rotation.config r))%N).
Proof.
  intros Hl Hfm Hp Hadd. unfold before_append. eapply (outcome_bind _ _ _ _ _ _ (λ _ r', ∃ l, r' = Rotation.set_fates l r)).
  { apply outcome_inspect; [by apply live_stored|eauto]. }
  intros _ ? [l ->]. simpl. rewrite (proj2 (N.ltb_ge _ _) Hadd).
  destruct (from_option _ _ _) eqn:E.
  - simpl. split; [|done]. destruct (checked_add _ _) as [n|] eqn:En; [|done]. simpl in E.
    apply checked_add_Some in En as [-> _]. apply N.leb_le in E. split_and!; [by apply live_fates|done|done|done].
  - replace (Frontier.mk (Frontier.sequence f) (Frontier.mac f)) with f by by destruct f.
    eapply outcome_mono; [apply rotate_outcome; [by apply live_fates|done|done|]|].
    + simpl. intros Ea. rewrite Ea in E. destruct (checked_add _ _) as [n|] eqn:En; simpl in E.
      * apply checked_add_Some in En as [-> _]. apply N.leb_gt in E. unfold len in E. simpl in E. lia.
      * apply checked_add_None in En. pose proof (config_segment _ (lv_config _ _ _ _ Hl)).
        unfold len, MAX_SEGMENT_BYTES, U64_MAX in *. simpl in *. lia.
    + simpl. intros _ r' (Hl' & Hp' & Ha' & Hcf'). rewrite Ha'. split_and!; try done.
Qed.

(** * Recording *)
Lemma events_append active key0 s p e line :
  verify_audit_from active key0 s p = Ok e → line_ok line →
  events (active ++ as_lines [line]) = events active ++ line_events [line].
Proof.
  intros (_ & lines & Hok & -> & _)%verify_audit_Ok Hl. unfold events.
  rewrite <-as_lines_app, !full_lines_as_lines; [apply omap_app|done|]. apply Forall_app. auto.
Qed.

(** The chain after one more record. *)
Lemma live_append f log r f' line l :
  live f log r → Manifest.pending (Rotation.manifest r) = None → line_ok line → frontier_sized f' →
  verify_lines key [line] (Frontier.sequence f) (Frontier.mac f) = Ok (pair_of f') →
  (len (Rotation.active r ++ as_lines [line]) ≤ MAX_SEGMENT_BYTES)%N →
  live f' (log ++ line_events [line]) (Rotation.set_active (Rotation.active r ++ as_lines [line]) (Rotation.set_fates l r)).
Proof.
  intros [? ? ? [] ?] Hp Hok Hf' Hv Hlen. split; simpl; try done. rewrite Hp in co_active.
  destruct co_active as [Hva (dropped & ->)]. split; try done.
  - intros path bytes Hpath Hpre. destruct (co_files path bytes Hpath Hpre) as [?|(? & ? & Hne & Htake)]; [by left|].
    right. split_and!; try done.
    + intros E. by apply app_nil in E as [? _].
    + rewrite take_app_le; [done|]. apply (f_equal length) in Htake. rewrite length_take in Htake. lia.
  - rewrite Hp. split.
    + eapply verify_audit_append; [exact Hok|done|exact Hva|exact Hv|done].
    + exists dropped. rewrite (events_append _ _ _ _ _ _ Hva Hok), !app_assoc. done.
Qed.
End recovery.
