(* ===== verification/AuditToy.v ===== *)
(** A small instance of the libraries the audit trail uses: records written field by
    field, in binary. *)
From Stdlib Require Import Ascii NArith Strings.Byte.
From S2P Require Import Prelude Str Json Gf256 Shamir Bytes Base32 EngineState Totp TotpSpec DurableCodec DurableCodecSpec Durable DurableSpec DurableTheorems Seal AuditChain AuditChainSpec AuditRotation AuditRotationSpec.

(** A reader that undoes a writer, on the values that fit. *)
Module Codec.
Record t (A : Type) := mk {
  enc : A → list u8;
  dec : list u8 → option (A * list u8);
  fits : A → bool;
  dec_enc : ∀ a rest, fits a = true → dec (enc a ++ rest) = Some (a, rest);
}.
Arguments mk {A}.
Arguments enc {A}.
Arguments dec {A}.
Arguments fits {A}.
Arguments dec_enc {A}.
End Codec.
Notation Codec := Codec.t.
Import Codec.

Definition of_result {A} (x : SResult A) : option A := match x with Ok a => Some a | Err _ => None end.

Definition number : Codec N.
Proof.
  refine (mk write_u64 (λ l, of_result (read_u64 l)) (λ n, n <=? U64_MAX)%N _).
  intros n rest Hn%N.leb_le. by rewrite read_u64_bytes.
Defined.

Definition fixed (width : nat) : Codec (list u8).
Proof.
  refine (mk id (λ l, of_result (read_exact (N.of_nat width) l)) (λ v, length v =? width) _).
  intros v rest Hv%Nat.eqb_eq. unfold id. rewrite read_exact_app; [done|]. unfold len. by rewrite Hv.
Defined.

Definition text : Codec string.
Proof.
  refine (mk (λ s, write_u64 (slen s) ++ String.list_byte_of_string s)
    (λ l, of_result (let? (n, l) := read_u64 l in let? (v, l) := read_exact n l in Ok (String.string_of_list_byte v, l)))
    (λ s, slen s <=? U64_MAX)%N _).
  intros s rest Hs%N.leb_le. rewrite <-app_assoc, read_u64_bytes by done.
  rewrite read_exact_app by apply len_list_byte. simpl. by rewrite String.string_of_list_byte_of_string.
Defined.

Definition pair {A B} (a : Codec A) (b : Codec B) : Codec (A * B).
Proof.
  refine (mk (λ p, enc a p.1 ++ enc b p.2) (λ l, '(x, l) ← dec a l; '(y, l) ← dec b l; Some ((x, y), l))
    (λ p, fits a p.1 && fits b p.2) _).
  intros [x y] rest [Hx Hy]%andb_true_iff. simpl. rewrite <-app_assoc, dec_enc by done. simpl. by rewrite dec_enc.
Defined.

Definition maybe {A} (a : Codec A) : Codec (option A).
Proof.
  refine (mk (λ o, match o with Some x => x01 :: enc a x | None => [x00] end)
    (λ l, match l with
          | x00 :: l => Some (None, l)
          | _ :: l => '(x, l) ← dec a l; Some (Some x, l)
          | [] => None
          end)
    (λ o, match o with Some x => fits a x | None => true end) _).
  intros [x|] rest Hx; [|done]. simpl. by rewrite dec_enc.
Defined.

Fixpoint dec_times {A} (a : Codec A) (n : nat) (l : list u8) : option (list A * list u8) :=
  match n with
  | O => Some ([], l)
  | S n => '(x, l) ← dec a l; '(xs, l) ← dec_times a n l; Some (x :: xs, l)
  end.

Definition many {A} (a : Codec A) : Codec (list A).
Proof.
  refine (mk (λ xs, enc number (len xs) ++ concat (enc a <$> xs)) (λ l, match dec number l with Some (n, l) => dec_times a (N.to_nat n) l | None => None end)
    (λ xs, fits number (len xs) && forallb (fits a) xs) _).
  intros xs rest [Hn Hxs]%andb_true_iff. rewrite <-app_assoc, dec_enc by done.
  unfold len. rewrite Nat2N.id. clear Hn. induction xs as [|x xs IH]; [done|]. simpl in Hxs.
  apply andb_true_iff in Hxs as [Hx Hxs]. change (concat (enc a <$> x :: xs)) with (enc a x ++ concat (enc a <$> xs)).
  cbn [length dec_times]. rewrite <-app_assoc, dec_enc by done. cbn. by rewrite (IH Hxs).
Defined.

Definition along {A B} (f : A → B) (g : B → A) (gf : ∀ a, g (f a) = a) (b : Codec B) : Codec A.
Proof.
  refine (mk (λ a, enc b (f a)) (λ l, '(x, l) ← dec b l; Some (g x, l)) (λ a, fits b (f a)) _).
  intros a rest Ha. rewrite dec_enc by done. simpl. by rewrite gf.
Defined.

(** A codec as a serializer. *)
Definition serde_of {A} (a : Codec A) : Serde A := {|
  to_vec x := if fits a x then Some (enc a x) else None;
  from_slice l := match dec a l with Some (x, []) => Some x | _ => None end;
|}.
Lemma serde_of_laws {A} (a : Codec A) : @SerdeLaws A (serde_of a).
Proof.
  intros x bytes. simpl. destruct (fits a x) eqn:E; [|done]. intros [= <-].
  pose proof (dec_enc a x [] E) as H. rewrite app_nil_r in H. by rewrite H.
Qed.

(** * Formats of the audit trail *)
Definition frontier_codec : Codec Frontier :=
  along (λ f, (Frontier.sequence f, Frontier.mac f)) (λ p, Frontier.mk p.1 p.2) ltac:(by intros []) (pair number (fixed 32)).
Definition segment_codec : Codec Segment :=
  along (λ s, (Segment.id s, (Segment.length s, (Segment.digest s, (Segment.start s, Segment.end_ s)))))
    (λ p, Segment.mk p.1 p.2.1 p.2.2.1 p.2.2.2.1 p.2.2.2.2) ltac:(by intros [])
    (pair number (pair number (pair (fixed 32) (pair frontier_codec frontier_codec)))).
Definition manifest_codec : Codec Manifest :=
  along (λ m, (Manifest.schema m, (Manifest.generation m, (Manifest.base m, (Manifest.segments m, (Manifest.pending m, Manifest.garbage m))))))
    (λ p, Manifest.mk p.1 p.2.1 p.2.2.1 p.2.2.2.1 p.2.2.2.2.1 p.2.2.2.2.2) ltac:(by intros [])
    (pair number (pair number (pair frontier_codec (pair (many segment_codec) (pair (maybe segment_codec) (many segment_codec)))))).
Definition signed_codec : Codec SignedManifest :=
  along (λ s, (SignedManifest.manifest s, SignedManifest.mac s)) (λ p, SignedManifest.mk p.1 p.2) ltac:(by intros [])
    (pair manifest_codec text).
Definition unsigned_codec : Codec AuditUnsigned :=
  along (λ e, (AuditUnsigned.schema e, (AuditUnsigned.sequence e, (AuditUnsigned.previous e, (AuditUnsigned.time e,
      (AuditUnsigned.kind e, (AuditUnsigned.path_digest e, AuditUnsigned.status e)))))))
    (λ p, AuditUnsigned.mk p.1 p.2.1 p.2.2.1 p.2.2.2.1 p.2.2.2.2.1 p.2.2.2.2.2.1 p.2.2.2.2.2.2) ltac:(by intros [])
    (pair number (pair number (pair text (pair number (pair text (pair text (maybe number))))))).

(** A byte as two letters, so that a record is one line. *)
Definition letters (b : u8) : list u8 := [U8.wrap (97 + N.shiftr (U8.to_N b) 4); U8.wrap (97 + N.land (U8.to_N b) 15)].
Fixpoint lettered (l : list u8) : list u8 := match l with [] => [] | b :: l => letters b ++ lettered l end.
Fixpoint unletters (l : list u8) : list u8 :=
  match l with
  | a :: b :: l => U8.wrap ((U8.to_N a - 97) * 16 + (U8.to_N b - 97)) :: unletters l
  | _ => []
  end.
Lemma unletters_letters l : unletters (lettered l) = l.
Proof. induction l as [|b l IH]; [done|]. simpl. rewrite IH. f_equal. by destruct b. Qed.
Lemma letters_line l : newline ∉ lettered l.
Proof.
  induction l as [|b l IH]; simpl; [set_solver|]. rewrite !not_elem_of_cons. split_and!; [by destruct b..|done].
Qed.

Definition record_codec : Codec AuditRecord :=
  along (λ r, (AuditRecord.event r, AuditRecord.mac r)) (λ p, AuditRecord.mk p.1 p.2) ltac:(by intros []) (pair unsigned_codec text).

#[export] Instance serde_unsigned : Serde AuditUnsigned := serde_of unsigned_codec.
#[export] Instance serde_record : Serde AuditRecord := {|
  to_vec r := if fits record_codec r then Some (lettered (enc record_codec r)) else None;
  from_slice l := match dec record_codec (unletters l) with Some (x, []) => Some x | _ => None end;
|}.
#[export] Instance serde_manifest : Serde Manifest := serde_of manifest_codec.
#[export] Instance serde_signed : Serde SignedManifest := serde_of signed_codec.
#[export] Instance toy_base64 : Base64 := {|
  b64_encode bytes := String.string_of_list_byte (repeat x3d 12 ++ bytes);
  b64_decode s := Some (drop 12 (String.list_byte_of_string s));
|}.
#[export] Instance toy_sha : Sha256 := toy_sum.
#[export] Existing Instance TotpDemo.toy_hmac.
#[export] Existing Instance TotpDemo.toy_hmac_laws.

#[export] Instance toy_sha_laws : Sha256Laws toy_sha.
Proof. exact toy_sum_length. Qed.
#[export] Instance serde_unsigned_laws : SerdeLaws AuditUnsigned := serde_of_laws unsigned_codec.
#[export] Instance serde_signed_laws : SerdeLaws SignedManifest := serde_of_laws signed_codec.
#[export] Instance serde_record_laws : SerdeLaws AuditRecord.
Proof.
  intros r bytes. unfold to_vec, from_slice, serde_record. destruct (fits record_codec r) eqn:E; [|done].
  intros Hb. apply (inj Some) in Hb as <-. rewrite unletters_letters.
  pose proof (dec_enc record_codec r [] E) as H. rewrite app_nil_r in H. by rewrite H.
Qed.
#[export] Instance line_record_laws : LineLaws AuditRecord.
Proof.
  intros r bytes. unfold to_vec, serde_record. destruct (fits record_codec r) eqn:E; [|done].
  intros Hb. apply (inj Some) in Hb as <-. split; [|apply letters_line].
  intros Hl%(f_equal unletters). rewrite unletters_letters in Hl. apply (f_equal length) in Hl.
  cbn [enc record_codec along pair fst snd unsigned_codec number] in Hl. rewrite !length_app in Hl.
  unfold write_u64 in Hl. rewrite le_bytes_length in Hl. simpl in Hl. lia.
Qed.

#[export] Instance toy_base64_laws : Base64Laws.
Proof.
  intros bytes. unfold b64_decode, b64_encode, toy_base64. rewrite String.list_byte_of_string_of_list_byte.
  by change 12 with (length (repeat x3d 12)) at 1; rewrite drop_app_length.
Qed.
Lemma string_of_list_byte_length l : String.length (String.string_of_list_byte l) = length l.
Proof. induction l as [|b l IH]; [done|]. unfold String.string_of_list_byte in *. simpl. by f_equal. Qed.
#[export] Instance toy_base64_length : Base64Length.
Proof. intros bytes H. unfold b64_encode, toy_base64. by rewrite string_of_list_byte_length, length_app, H. Qed.

(** * Sizes *)
Lemma enc_number n : length (enc number n) = 8.
Proof. unfold enc, number, write_u64. apply le_bytes_length. Qed.

Lemma fits_number n : (n ≤ U64_MAX)%N → fits number n = true.
Proof. apply N.leb_le. Qed.

Lemma enc_frontier f : frontier_sized f → fits frontier_codec f = true ∧ length (enc frontier_codec f) = 40.
Proof.
  intros [Hs Hl]. unfold frontier_codec, along, pair, fixed. cbn [enc fits fst snd]. rewrite length_app, enc_number.
  unfold id. rewrite Hl. split; [|done]. by rewrite Nat.eqb_refl, andb_true_r, fits_number.
Qed.

Lemma enc_segment s : segment_sized s → fits segment_codec s = true ∧ length (enc segment_codec s) = 128.
Proof.
  intros (Hi & Hl & Hd & [Hf1 Hl1]%enc_frontier & [Hf2 Hl2]%enc_frontier). unfold segment_codec. cbn [along pair enc fits fst snd].
  rewrite !length_app, !enc_number, Hl1, Hl2, Hf1, Hf2. cbn [fixed enc fits]. unfold id. rewrite Hd. split; [|done].
  rewrite !fits_number; [done| |done]. unfold MAX_SEGMENT_BYTES, U64_MAX in *. lia.
Qed.

Lemma enc_segments l :
  Forall segment_sized l → length l ≤ 64 →
  fits (many segment_codec) l = true ∧ length (enc (many segment_codec) l) ≤ 8 + 64 * 128.
Proof.
  intros Hl Hn. unfold many. cbn [enc fits]. rewrite length_app, enc_number.
  assert (Hc : forallb (fits segment_codec) l = true ∧ length (concat (enc segment_codec <$> l)) = 128 * length l).
  { clear Hn. induction Hl as [|s l [Hf Hs]%enc_segment _ [IH1 IH2]]; [done|]. cbn [forallb fmap list_fmap concat length].
    rewrite Hf, IH1, length_app, Hs, IH2. split; [done|lia]. }
  destruct Hc as [-> ->]. split; [|lia]. rewrite andb_true_r. apply fits_number. unfold len, U64_MAX. lia.
Qed.

#[export] Instance toy_manifest_text : ManifestText.
Proof.
  intros m mac Hsch (Hg & [Hb1 Hb2]%enc_frontier & Hs & Hr) [Hls Hlr] Hp Hmac.
  destruct (enc_segments _ Hs Hls) as [Hs1 Hs2]. destruct (enc_segments _ Hr Hlr) as [Hr1 Hr2].
  assert (Hpend : fits (maybe segment_codec) (Manifest.pending m) = true ∧
                  length (enc (maybe segment_codec) (Manifest.pending m)) ≤ 129).
  { destruct (Manifest.pending m) as [s|]; [|split; [done|simpl; lia]]. destruct (enc_segment s Hp) as [H1 H2].
    cbn [maybe fits enc length]. split; [done|lia]. }
  destruct Hpend as [Hp1 Hp2].
  assert (Hfit : fits manifest_codec m = true).
  { unfold manifest_codec. cbn [along pair fits fst snd]. rewrite Hb1, Hs1, Hp1, Hr1, Hsch.
    by rewrite !fits_number. }
  assert (Hlen : length (enc manifest_codec m) ≤ 8 + 8 + 40 + (8 + 64 * 128) + 129 + (8 + 64 * 128)).
  { unfold manifest_codec. cbn [along pair enc fst snd]. rewrite !length_app, !enc_number, Hb2. lia. }
  unfold to_vec, serde_manifest, serde_signed, serde_of. rewrite Hfit. split; [by eexists|].
  assert (Hsfit : fits signed_codec (SignedManifest.mk m mac) = true).
  { unfold signed_codec. cbn [along pair fits fst snd SignedManifest.manifest SignedManifest.mac]. rewrite Hfit.
    cbn [text fits]. apply N.leb_le. unfold slen, U64_MAX. lia. }
  rewrite Hsfit. eexists. split; [done|]. unfold signed_codec, len.
  cbn [along pair enc fst snd SignedManifest.manifest SignedManifest.mac text].
  rewrite !length_app. unfold write_u64. rewrite le_bytes_length. pose proof (len_list_byte mac) as Hm.
  unfold len, slen in Hm. unfold MAX_MANIFEST_BYTES. lia.
Qed.
