(* ===== verification/AuditTheorems.v ===== *)
(** The audit trail keeps what it acknowledged, through rotations, failures and
    restarts, and its frontier commits to its contents. *)
From Stdlib Require Import Ascii NArith Strings.Byte.
From S2P Require Import Prelude Str Json Gf256 Shamir Bytes Base32 EngineState Totp DurableCodec DurableCodecSpec Durable DurableSpec Seal AuditChain AuditChainSpec AuditRotation AuditRotationSpec AuditRotationSteps.
#[local] Opaque STAGING_MAGIC MANIFEST_CONTEXT.

(** A request to record: kind, fingerprint, time, status. *)
Module AuditRequest.
Record t := mk { kind : string; fingerprint : string; now : N; status : option N }.
End AuditRequest.
Notation AuditRequest := AuditRequest.t.

(** * Calls that leave the active file and the known manifest alone *)
Definition inert {A} (c : M Rotation IoError A) : Prop :=
  ∀ r, Rotation.active (c r).1 = Rotation.active r ∧ Rotation.manifest (c r).1 = Rotation.manifest r.

Lemma inert_bind {A B} (c : M Rotation IoError A) (k : A → M Rotation IoError B) :
  inert c → (∀ a, inert (k a)) → inert (mbind c k).
Proof.
  intros Hc Hk r. unfold mbind. specialize (Hc r). destruct (c r) as [r' [a|e]]; simpl in *; [|done].
  destruct (Hk a r') as [-> ->]. done.
Qed.

Lemma inert_perform total effects :
  (∀ n r, Rotation.active (effects n r) = Rotation.active r ∧ Rotation.manifest (effects n r) = Rotation.manifest r) →
  inert (perform total effects).
Proof. intros He r. unfold perform. repeat case_match; apply (He _ (Rotation.set_fates (tail (Rotation.fates r)) r)). Qed.

Lemma inert_pure {A} (g : Rotation → Result A IoError) : inert (mpure g).
Proof. done. Qed.

Lemma inert_remove name : inert (remove_file name).
Proof. apply inert_perform. by intros [|n] r. Qed.

Lemma inert_inspect : inert inspect.
Proof. by apply inert_perform. Qed.

Lemma inert_create name bytes : inert (create_file name bytes).
Proof.
  intros r. unfold create_file. case_match; [done|].
  refine (inert_perform _ _ _ r). by intros [|n] r'.
Qed.

Lemma inert_rename from to : inert (rename_file from to).
Proof.
  intros r. unfold rename_file. case_match; [|done].
  refine (inert_perform _ _ _ r). by intros [|n] r'.
Qed.
#[local] Hint Resolve inert_bind inert_pure inert_remove inert_inspect inert_create inert_rename : hepta.

Lemma mbind_Ok {S E A B} (c : M S E A) (k : A → M S E B) s s' b :
  mbind c k s = (s', Ok b) → ∃ a s1, c s = (s1, Ok a) ∧ k a s1 = (s', Ok b).
Proof. unfold mbind. destruct (c s) as [s1 [a|e]]; [eauto|done]. Qed.

Section audit.
Context `{Hm : Hmac, Sh : Sha256, B64 : Base64, Su : Serde AuditUnsigned, Sr : Serde AuditRecord,
  Sm : Serde Manifest, Ss : Serde SignedManifest}.
Implicit Types (r : Rotation) (a : Audit) (log : list AuditUnsigned) (f : Frontier).

Lemma inert_discard : inert discard_staging.
Proof. intros r. unfold discard_staging. repeat case_match; try done. apply inert_remove. Qed.

Lemma inert_remove_garbage key garbage : inert (remove_garbage key garbage).
Proof.
  induction garbage as [|g garbage IH]; [done|]. intros r. simpl. case_match; [|apply IH].
  refine (inert_bind _ _ _ _ r); eauto 10 with hepta.
Qed.

Lemma publish_effect m key r :
  Rotation.active (publish m key r).1 = Rotation.active r ∧
  ((publish m key r).2 = Ok tt → Rotation.manifest (publish m key r).1 = m).
Proof.
  set (prefix := mpure (check_stored key) ;;? inspect ;;? discard_staging ;;?
    do? bytes := mpure (λ _, signed_manifest key m) in
    create_file staging_name bytes ;;? inspect ;;? rename_file staging_name manifest_name).
  assert (E : publish m key r = (prefix ;;? λ self, (Rotation.set_manifest m self, Ok tt)) r).
  { unfold publish, prefix, mbind, mpure. repeat (case_match; simplify_eq/=; try done). }
  assert (Hp : inert prefix) by (unfold prefix; eauto 20 using inert_discard with hepta).
  rewrite E. unfold mbind at 1 2 3. specialize (Hp r). destruct (prefix r) as [r' [[]|e]]; simpl in *; naive_solver.
Qed.

Lemma collect_garbage_effect key r :
  Rotation.active (collect_garbage key r).1 = Rotation.active r ∧
  ((collect_garbage key r).2 = Ok tt →
   Rotation.active_start (collect_garbage key r).1 = Rotation.active_start r).
Proof.
  unfold collect_garbage. case_match; [done|]. unfold mbind.
  pose proof (inert_remove_garbage key (Manifest.garbage (Rotation.manifest r)) r) as [Ha Hman].
  destruct (remove_garbage _ _ r) as [r' [[]|e]]; simpl in *; [|done].
  destruct (publish_effect (Manifest.clear_garbage (Rotation.manifest r')) key r') as [Ha' Hman'].
  split; [congruence|]. intros Hok. unfold Rotation.active_start. rewrite (Hman' Hok). simpl. by rewrite Hman.
Qed.

(** Recovery accepts only an active file that verifies. *)
Lemma recover_verified key r r' e m :
  recover key r = (r', Ok e) → Manifest.pending m = None →
  (if Rotation.sidecars r !! manifest_name is Some bytes then decode_manifest key bytes = Ok m else Rotation.manifest r = m) →
  ∃ s p, verify_audit_from (Rotation.active r) key s p = Ok e.
Proof.
  unfold recover. intros (u1 & r1 & E1 & (u2 & r2 & E2 & (u3 & r3 & E3 & (u4 & r4 & E4 & (u5 & r5 & E5 & (u6 & r6 & E6 &
    (e' & r7 & E7 & (u7 & r8 & E8 & E9)%mbind_Ok)%mbind_Ok)%mbind_Ok)%mbind_Ok)%mbind_Ok)%mbind_Ok)%mbind_Ok)%mbind_Ok Hp Hload.
  assert (e' = e) as -> by by injection E9. destruct (inert_inspect r) as [Ha1 Hm1]. rewrite E1 in Ha1, Hm1. simpl in Ha1, Hm1.
  assert (Hs1 : Rotation.sidecars r1 = Rotation.sidecars r).
  { unfold inspect, perform in E1. by repeat case_match; simplify_eq. }
  assert (Rotation.active r2 = Rotation.active r ∧ Rotation.manifest r2 = m) as [Ha2 Hm2].
  { unfold load_manifest in E2. rewrite Hs1 in E2. destruct (Rotation.sidecars r !! manifest_name).
    - rewrite Hload in E2. simplify_eq/=. auto.
    - simplify_eq/=. split; congruence. }
  unfold mpure in E3, E7, E8. assert (r3 = r2) as -> by congruence.
  destruct (inert_discard r2) as [Ha4 Hm4]. rewrite E4 in Ha4, Hm4. simpl in Ha4, Hm4.
  unfold finish_pending in E5. rewrite Hm4, Hm2, Hp in E5. assert (r5 = r4) as -> by congruence.
  destruct (collect_garbage_effect key r4) as [Ha6 _]. rewrite E6 in Ha6. simpl in Ha6.
  assert (r7 = r6) as -> by congruence. apply (f_equal snd) in E7. simpl in E7.
  destruct (verify_audit_from (Rotation.active r6) _ _ _) eqn:Ev; [|done]. simpl in E7. simplify_eq.
  eexists _, _. rewrite <-Ha2, <-Ha4, <-Ha6. exact Ev.
Qed.

(** * The trail in operation *)
Definition frontier_of a : Frontier := Frontier.mk (Audit.sequence a) (Audit.previous a).

(** The events in the files: the retained segments and the active one. *)
Definition retained a : list AuditUnsigned :=
  let r := Audit.rotation a in
  seg_events (Rotation.sidecars r) (Manifest.segments (Rotation.manifest r)) ++ events (Rotation.active r).

(** [log] is everything acknowledged since the audit was created. *)
Definition ready a log : Prop :=
  Audit.failed a = false ∧ length (Audit.key a) = 32 ∧ Manifest.pending (Rotation.manifest (Audit.rotation a)) = None ∧
  live (Audit.key a) (frontier_of a) log (Audit.rotation a).

Lemma ready_retained a log : ready a log → ∃ dropped, log = dropped ++ retained a.
Proof.
  intros (_ & _ & Hp & Hl). pose proof (co_active _ _ _ _ _ _ (lv_coherent _ _ _ _ Hl)) as Ha.
  rewrite Hp in Ha. by destruct Ha as [_ Hd].
Qed.

(** The event a request records. *)
Definition event_of (q : AuditRequest) a : AuditUnsigned :=
  AuditUnsigned.mk 2 (Audit.sequence a + 1) (b64_encode (Audit.previous a)) (AuditRequest.now q) (AuditRequest.kind q)
    (AuditRequest.fingerprint q) (AuditRequest.status q).

Definition attempt (q : AuditRequest) : M Audit unit unit :=
  audit_event (AuditRequest.kind q) (AuditRequest.fingerprint q) (AuditRequest.now q) (AuditRequest.status q).

(** A sequence of requests, and the events that were acknowledged. *)
Fixpoint record_all (qs : list AuditRequest) a : Audit * list AuditUnsigned :=
  match qs with
  | [] => (a, [])
  | q :: qs =>
      match attempt q a with
      | (a', Ok _) => let '(a'', told) := record_all qs a' in (a'', event_of q a :: told)
      | (a', Err _) => record_all qs a'
      end
  end.

(** A file that stops in the middle of a record. *)
Definition torn (active : list u8) : Prop := active ≠ [] ∧ last active ≠ Some newline.

(** What a failed recording leaves. *)
Inductive remains a log (extra : list AuditUnsigned) : Prop :=
| remains_whole f : holds (Audit.key a) f (log ++ extra) (Audit.rotation a) → remains a log extra
| remains_torn r f n line :
    extra = [] → live (Audit.key a) f log r → Manifest.pending (Rotation.manifest r) = None → line_ok line →
    0 < n ≤ length line → Rotation.sidecars (Audit.rotation a) = Rotation.sidecars r →
    Rotation.active (Audit.rotation a) = Rotation.active r ++ take n (as_lines [line]) → remains a log extra.

Context `{!HmacLaws, !Sha256Laws Sh, !Base64Laws, !Base64Length, !SerdeLaws AuditUnsigned, !SerdeLaws AuditRecord,
  !LineLaws AuditRecord, !SerdeLaws SignedManifest, !ManifestText}.

Lemma append_active_any key f log r f' line x :
  live key f log r → Manifest.pending (Rotation.manifest r) = None → line_ok line → frontier_sized f' →
  verify_lines key [line] (Frontier.sequence f) (Frontier.mac f) = Ok (pair_of f') →
  (len (Rotation.active r ++ as_lines [line]) ≤ MAX_SEGMENT_BYTES)%N →
  append_active (as_lines [line]) r = x →
  match x with
  | (r', Ok _) => live key f' (log ++ line_events [line]) r' ∧ Manifest.pending (Rotation.manifest r') = None
  | (r', Err _) => ∀ a, Audit.rotation a = r' → Audit.key a = key →
      remains a log [] ∨ remains a log (line_events [line])
  end.
Proof.
  intros Hl Hp Hok Hf' Hv Hlen <-. pose proof (λ l, live_append key f log r f' line l Hl Hp Hok Hf' Hv Hlen) as Happ.
  assert (Hall : length (as_lines [line]) = S (length line)).
  { unfold as_lines. simpl. rewrite app_nil_r, length_app. simpl. lia. }
  unfold append_active, perform. destruct (head (Rotation.fates r)) as [[|n]|]; simpl; rewrite ?firstn_all; auto.
  intros a Ha <-. destruct (decide (min n (length (as_lines [line])) = 0)) as [En0|En0];
    [|destruct (decide (min n (length (as_lines [line])) = length (as_lines [line]))) as [En1|En1]].
  - left. apply (remains_whole _ _ _ f). rewrite app_nil_r, Ha, En0, take_0, app_nil_r.
    exact (live_stored _ _ _ _ (live_fates _ _ _ _ (tail (Rotation.fates r)) Hl)).
  - right. apply (remains_whole _ _ _ f'). rewrite Ha, En1, firstn_all. apply live_stored, Happ.
  - left. apply (remains_torn _ _ _ r f (min n (length (as_lines [line]))) line); try done.
    + lia.
    + by rewrite Ha.
    + by rewrite Ha.
Qed.

(** One recording. *)
Lemma attempt_spec q a log :
  ready a log →
  match attempt q a with
  | (a', Ok _) => ready a' (log ++ [event_of q a])
  | (a', Err _) => a' = a ∨ Audit.failed a' = true ∧ (remains a' log [] ∨ remains a' log [event_of q a])
  end.
Proof.
  intros (Hfail & Hkey & Hp & Hl). unfold attempt, audit_event. rewrite Hfail.
  destruct (checked_add (Audit.sequence a) 1) as [s|] eqn:Es; [|by left].
  pose proof Es as [Hs1 Hs2]%checked_add_Some.
  destruct (signed_record _ _) as [[bytes tag]|] eqn:Er; [|by left].
  destruct (signed_record_verifies _ _ _ _ _ _ _ _ _ _ Es Er) as (line & Hok & -> & Hv & Hev). rewrite Hs1 in Hev.
  change (AuditUnsigned.mk _ _ _ _ _ _ _) with (event_of q a) in Hev.
  set (f' := Frontier.mk s tag). change (s, tag) with (pair_of f') in Hv.
  assert (Hf' : frontier_sized f').
  { split; simpl; [lia|]. apply verify_line_inv in Hv as (? & ? & _ & _ & _ & _ & _ & Et).
    simpl in Et. rewrite Et. apply hmac_length. }
  unfold mbind. destruct (N.leb_spec (len (as_lines [line])) (AuditConfig.segment_bytes (Rotation.config (Audit.rotation a)))) as [Hle|Hgt].
  - pose proof (before_append_outcome _ (frontier_of a) _ _ (len (as_lines [line])) Hl ltac:(simpl; lia) Hp Hle) as Hb.
    change (Frontier.sequence (frontier_of a)) with (Audit.sequence a) in *.
    change (Frontier.mac (frontier_of a)) with (Audit.previous a) in *.
    destruct (before_append _ _ _ _ _) as [r1 [[]|e]]; simpl in Hb.
    2:{ right. split; [done|]. left. apply (remains_whole _ _ _ (frontier_of a)). rewrite app_nil_r. apply Hb. }
    destruct Hb as [(Hl1 & Hp1 & Hcf & Hroom) _].
    assert (Hlen : (len (Rotation.active r1 ++ as_lines [line]) ≤ MAX_SEGMENT_BYTES)%N).
    { pose proof (config_segment _ (lv_config _ _ _ _ Hl)). unfold len in *. rewrite length_app. lia. }
    pose proof (append_active_any _ _ _ _ _ _ _ Hl1 Hp1 Hok Hf' Hv Hlen eq_refl) as Ha. rewrite Hev in Ha.
    destruct (append_active _ r1) as [r2 [[]|e]].
    + destruct Ha as [Hl2 Hp2]. done.
    + right. split; [done|]. by apply Ha.
  - unfold before_append, mbind. pose proof (outcome_inspect (Audit.key a) (frontier_of a) log (Audit.rotation a)
      (λ _ r, ∃ l, r = Rotation.set_fates l (Audit.rotation a)) (live_stored _ _ _ _ Hl) ltac:(by intros l; exists l)) as Hi.
    destruct (inspect (Audit.rotation a)) as [r1 [[]|e]]; simpl in Hi |- *.
    + destruct Hi as [[l ->] _]. simpl. rewrite (proj2 (N.ltb_lt _ _) Hgt). simpl. right. split; [done|]. left.
      apply (remains_whole _ _ _ (frontier_of a)). rewrite app_nil_r. by apply live_stored, live_fates.
    + right. split; [done|]. left. apply (remains_whole _ _ _ (frontier_of a)). rewrite app_nil_r. apply Hi.
Qed.

Lemma attempt_failed q a : Audit.failed a = true → attempt q a = (a, Err tt).
Proof. intros Hf. unfold attempt, audit_event. by rewrite Hf. Qed.

Lemma record_all_failed qs a : Audit.failed a = true → record_all qs a = (a, []).
Proof. intros Hf. induction qs as [|q qs IH]; simpl; [done|]. by rewrite attempt_failed. Qed.

(** The event of the request whose failure left the audit in this state. *)
Definition refused_by (qs : list AuditRequest) a' (e : AuditUnsigned) : Prop :=
  ∃ q a0, q ∈ qs ∧ Audit.failed a0 = false ∧ attempt q a0 = (a', Err tt) ∧ e = event_of q a0.

Lemma refused_by_cons q qs a' extra : Forall (refused_by qs a') extra → Forall (refused_by (q :: qs) a') extra.
Proof.
  intros Hf. eapply Forall_impl; [exact Hf|]. intros e (q0 & a0 & Hq & Hrest). exists q0, a0. split; [by right|done].
Qed.

Lemma record_all_spec qs a log a' told :
  ready a log → record_all qs a = (a', told) →
  ready a' (log ++ told) ∨
  Audit.failed a' = true ∧ ∃ extra, length extra ≤ 1 ∧ Forall (refused_by qs a') extra ∧ remains a' (log ++ told) extra.
Proof.
  revert a log told. induction qs as [|q qs IH]; intros a log told Hr; simpl.
  { intros [= <- <-]. left. by rewrite app_nil_r. }
  pose proof (attempt_spec q a log Hr) as Ha. destruct (attempt q a) as [a1 [[]|[]]] eqn:Eq.
  - destruct (record_all qs a1) as [a2 told2] eqn:E. intros [= <- <-].
    destruct (IH _ _ _ Ha E) as [?|(Hf & extra & Hx & Hb & Hrem)]; rewrite <-app_assoc in *; [by left|right].
    split; [done|]. exists extra. auto using refused_by_cons.
  - destruct Ha as [->|[Hf Hrem]].
    { intros Hall. destruct (IH _ _ _ Hr Hall) as [?|(Hf & extra & Hx & Hb & Hrem)]; [by left|right].
      split; [done|]. exists extra. auto using refused_by_cons. }
    rewrite record_all_failed by done. intros [= <- <-]. rewrite app_nil_r. right. split; [done|].
    destruct Hrem as [?|?]; [by exists []; split_and!; [simpl; lia|constructor|]|].
    exists [event_of q a]. split_and!; [simpl; lia| |done]. constructor; [|constructor].
    exists q, a. split_and!; [left|apply Hr|done|done].
Qed.

(** * Restarting *)
Lemma record_all_key qs a a' told : record_all qs a = (a', told) → Audit.key a' = Audit.key a.
Proof.
  revert a told. induction qs as [|q qs IH]; intros a told; simpl; [by intros [= <- _]|].
  assert (Hk : Audit.key (attempt q a).1 = Audit.key a).
  { unfold attempt, audit_event. repeat case_match; done. }
  destruct (attempt q a) as [a1 [[]|e]]; simpl in Hk.
  - destruct (record_all qs a1) as [a2 told2] eqn:E. intros [= <- _]. apply IH in E. congruence.
  - intros Hall. apply IH in Hall. congruence.
Qed.

Lemma start_whole key f log r name config fates random :
  holds key f log r → length key = 32 → valid_audit_name name = true → AuditConfig.validate config = Ok config →
  match start_audit name config fates random (Rotation.files r) with
  | (_, Ok a) => ready a log ∧ frontier_of a = f
  | (_, Err _) => fates ≠ []
  end.
Proof.
  intros Hh Hkey Hname Hcf. pose proof Hh as (m & there & _ & _ & _ & Hc). pose proof (co_key _ _ _ _ _ _ Hc) as Hk.
  unfold start_audit, open_rotation. rewrite Hcf, Hname. simpl. rewrite Hk, (bool_decide_true (is_Some (Some _))) by done.
  rewrite andb_false_r. destruct (head fates) as [[|n]|] eqn:Eh; [|by destruct fates|];
    unfold load_audit_key; simpl; rewrite Hk, Hkey; simpl.
  all: set (r0 := Rotation.mk _ _ _ _ _ _).
  all: pose proof (recover_outcome key f log r0 Hh eq_refl eq_refl Hcf) as Ho.
  all: destruct (recover key r0) as [r1 [[s p]|e]]; simpl in Ho.
  all: try (destruct Ho as [(Ef & Hl & Hp) _]; injection Ef as -> ->; unfold ready, frontier_of; simpl;
    by replace (Frontier.mk (Frontier.sequence f) (Frontier.mac f)) with f by by destruct f).
  all: by destruct Ho as [_ Hne]; destruct fates.
Qed.

Lemma torn_last active line n :
  line_ok line → 0 < n ≤ length line → torn (active ++ take n (as_lines [line])).
Proof.
  intros [_ Hn] [Hn0 Hle]. unfold as_lines. simpl. rewrite app_nil_r, take_app_le by done.
  destruct (take n line) as [|b l _] eqn:Et using rev_ind.
  { apply (f_equal length) in Et. rewrite length_take in Et. simpl in Et. lia. }
  split; [by destruct active, l|]. rewrite app_assoc, last_snoc. intros [= ->].
  assert (Hin : newline ∈ take n line) by (rewrite Et; set_solver).
  apply elem_of_take in Hin as (i & Hi & _). apply Hn. by eapply list_elem_of_lookup_2.
Qed.

Lemma start_torn key f log r n line r' name config fates random :
  live key f log r → Manifest.pending (Rotation.manifest r) = None → length key = 32 → line_ok line → 0 < n ≤ length line →
  Rotation.sidecars r' = Rotation.sidecars r → Rotation.active r' = Rotation.active r ++ take n (as_lines [line]) →
  ∃ files e, start_audit name config fates random (Rotation.files r') = (files, Err e).
Proof.
  intros Hl Hp Hkey Hok [Hn0 Hn] Hs Ha. pose proof (co_key _ _ _ _ _ _ (lv_coherent _ _ _ _ Hl)) as Hk.
  assert (Hrec : ∀ l c r1 e,
    recover key (Rotation.mk (Rotation.active r') (Rotation.sidecars r) l c Manifest.initial false) = (r1, Ok e) → False).
  { intros l c r1 [s p] Er. apply (recover_verified _ _ _ _ (Rotation.manifest r)) in Er as (s0 & p0 & Hv); [|done|].
    - simpl in Hv. rewrite Ha in Hv. destruct (torn_record_refused (Rotation.active r) line n key s0 p0 Hok Hn0 Hn). congruence.
    - simpl. pose proof (lv_known _ _ _ _ Hl) as Hkn. unfold known in Hkn.
      destruct (Rotation.manifest_exists r); [by destruct Hkn as (bytes & -> & Hd)|by destruct Hkn as [-> ->]]. }
  unfold start_audit, open_rotation. destruct (AuditConfig.validate config) as [c|]; [|eauto].
  destruct (negb (valid_audit_name name)); [eauto|]. simpl. rewrite Hs, Hk, (bool_decide_true (is_Some (Some _))) by done.
  rewrite andb_false_r. specialize (Hrec (tail fates) c).
  destruct (head fates) as [[|k]|]; [|eauto|]; unfold load_audit_key; simpl; rewrite Hk, Hkey; simpl;
    destruct (recover _ _) as [r1 [[s p]|e]]; eauto; destruct (Hrec _ _ eq_refl).
Qed.

(** C8: Whatever fails while events are recorded and files are rotated, a restart
    finds every acknowledged event: the audit continues from the acknowledged ones,
    followed by at most one more, the event of the request whose recording failed, and the files hold the
    latest of them without a gap; a restart refuses only when its own calls fail, or
    when the last write was torn in the middle of a record. *)
Theorem audit_durable qs a log a' told name config fates random files res :
  ready a log → record_all qs a = (a', told) → valid_audit_name name = true → AuditConfig.validate config = Ok config →
  start_audit name config fates random (Rotation.files (Audit.rotation a')) = (files, res) →
  match res with
  | Ok a'' => ∃ extra dropped, length extra ≤ (if Audit.failed a' then 1 else 0) ∧ Forall (refused_by qs a') extra ∧ ready a'' (log ++ told ++ extra) ∧
      log ++ told ++ extra = dropped ++ retained a''
  | Err _ => fates ≠ [] ∨ Audit.failed a' = true ∧ torn (Rotation.active (Audit.rotation a'))
  end.
Proof.
  intros Hr Hall Hname Hcf Hstart.
  assert (Hkey : length (Audit.key a') = 32).
  { apply (record_all_key qs) in Hall as ->. apply Hr. }
  destruct (record_all_spec qs a log a' told Hr Hall) as [Hr'|[Hf (extra & Hex & Hby & Hrem)]].
  - destruct Hr' as (Hf & _ & _ & Hl).
    pose proof (start_whole _ _ _ _ name config fates random (live_stored _ _ _ _ Hl) Hkey Hname Hcf) as Hs.
    rewrite Hstart in Hs. destruct res as [a''|e]; [|by left]. destruct Hs as [Hs _].
    destruct (ready_retained _ _ Hs) as [dropped Hd]. exists [], dropped. rewrite app_nil_r, Hf. auto.
  - rewrite Hf. destruct Hrem as [f Hh|r f n line -> Hl Hp Hok Hn Hside Hact].
    + pose proof (start_whole _ _ _ _ name config fates random Hh Hkey Hname Hcf) as Hs.
      rewrite Hstart in Hs. destruct res as [a''|e]; [|by left]. destruct Hs as [Hs _].
      destruct (ready_retained _ _ Hs) as [dropped Hd]. exists extra, dropped. rewrite app_assoc. auto.
    + destruct (start_torn _ _ _ _ _ _ (Audit.rotation a') name config fates random Hl Hp Hkey Hok Hn Hside Hact)
        as (files' & e & E). rewrite E in Hstart. simplify_eq. right. rewrite Hact. split; [done|]. by apply torn_last.
Qed.

(** C40: The frontier of an audit file commits to its events: two files that verify
    from one starting point to one frontier record the same events, or the files
    themselves exhibit a forgery: at one position they hold two events, serialised as
    two different messages, which have the same authentication tag under the audit
    key. *)
Theorem audit_tamper_evident key bytes bytes' s p frontier :
  verify_audit_from bytes key s p = Ok frontier → verify_audit_from bytes' key s p = Ok frontier →
  events bytes = events bytes' ∨ tags_clash key (events bytes) (events bytes').
Proof.
  intros (_ & lines & Hok & -> & Hv)%verify_audit_Ok (_ & lines' & Hok' & -> & Hv')%verify_audit_Ok.
  unfold events. rewrite !full_lines_as_lines by done. exact (verified_events_agree _ _ _ _ _ _ Hv Hv').
Qed.

(** A new audit. *)
Lemma start_fresh key name config :
  length key = 32 → valid_audit_name name = true → AuditConfig.validate config = Ok config →
  ∃ files a, start_audit name config [] (Some key) (AuditFiles.mk None ∅) = (files, Ok a) ∧ ready a [] ∧ Audit.key a = key.
Proof.
  intros Hkey Hname Hcf. unfold start_audit, open_rotation. rewrite Hcf, Hname. simpl.
  rewrite lookup_empty, bool_decide_false by (by intros [? ?]). simpl.
  rewrite lookup_empty, bool_decide_false by (by intros [? ?]). simpl.
  unfold load_audit_key. simpl. rewrite lookup_empty. unfold create_file, perform. simpl. rewrite lookup_empty. simpl.
  rewrite firstn_all. set (r := put_sidecar _ _ _).
  assert (Hh : holds key Frontier.default [] r).
  { exists Manifest.initial, false. unfold r. split_and!; [done|done|by split; simpl; lia|].
    split; simpl; try done.
    - by exists 0%N.
    - intros path bytes [[<- _]|[_ E]]%lookup_insert_Some; [done|]. by rewrite lookup_empty in E.
    - split; [done|]. by exists []. }
  pose proof (recover_outcome key _ _ r Hh eq_refl eq_refl Hcf) as Ho.
  destruct (recover key r) as [r1 [[s p]|e]]; simpl in Ho; [|by destruct Ho].
  destruct Ho as [(Ef & Hl & Hp) _]. injection Ef as -> ->. eexists _, _. split; [done|]. done.
Qed.
End audit.

(** * A concrete trail *)
From S2P Require Import AuditToy.
Module AuditDemo.
Definition a_key : list u8 := repeat x07 32.
Definition config : AuditConfig := AuditConfig.mk 4096 2.
Definition fresh : AuditFiles * Result Audit string := start_audit "audit.log" config [] (Some a_key) (AuditFiles.mk None ∅).
Definition blank : Audit := Audit.mk (Rotation.mk [] ∅ [] config Manifest.initial false) [] 0 [] true.
(** The trail whose calls have the given fates. *)
Definition trail (fates : list Fate) : Audit :=
  let a := match fresh.2 with Ok a => a | Err _ => blank end in
  Audit.set_rotation (Rotation.set_fates fates (Audit.rotation a)) a.
Definition ask (path : string) : AuditRequest := AuditRequest.mk "request" path 5 None.

Lemma trail_ready fates : ready (trail fates) [].
Proof.
  destruct (start_fresh a_key "audit.log" config) as (files & a & E & (Hf & Hk & Hp & Hl) & _); [done|done|done|].
  unfold trail, fresh. rewrite E. simpl. split_and!; [done|done|done|]. by apply live_fates.
Qed.
End AuditDemo.
Import AuditDemo.

(** The second record is torn after nine bytes: the first is acknowledged, and the
    restart refuses.  Without the fault both are found again. *)
Lemma audit_durable_witness :
  (record_all [ask "a"; ask "b"] (trail [Done; Done; Done; Fails 9])).2 = [event_of (ask "a") (trail [])] ∧
  (∃ e, (start_audit "audit.log" config [] None
           (Rotation.files (Audit.rotation (record_all [ask "a"; ask "b"] (trail [Done; Done; Done; Fails 9])).1))).2 = Err e) ∧
  match (start_audit "audit.log" config [] None
           (Rotation.files (Audit.rotation (record_all [ask "a"; ask "b"] (trail [])).1))).2 with
  | Ok a'' => ∃ extra dropped, length extra ≤ 0 ∧ Forall (refused_by [ask "a"; ask "b"] (record_all [ask "a"; ask "b"] (trail [])).1) extra ∧
      ready a'' ([] ++ (record_all [ask "a"; ask "b"] (trail [])).2 ++ extra) ∧
      [] ++ (record_all [ask "a"; ask "b"] (trail [])).2 ++ extra = dropped ++ retained a''
  | Err _ => False
  end.
Proof.
  split; [vm_compute; reflexivity|]. split; [eexists; vm_compute; reflexivity|].
  pose proof (audit_durable [ask "a"; ask "b"] (trail []) [] _ _ "audit.log" config [] None _ _ (trail_ready [])
    (surjective_pairing _) eq_refl eq_refl (surjective_pairing _)) as H.
  assert (Hf : Audit.failed (record_all [ask "a"; ask "b"] (trail [])).1 = false) by (vm_compute; reflexivity).
  rewrite Hf in H. destruct (start_audit _ _ _ _ _).2; [exact H|]. destruct H as [H|[H _]]; [by destruct H|discriminate H].
Defined.

(** Two events in a file, and the same file again. *)
Lemma audit_tamper_evident_witness :
  length (events (Rotation.active (Audit.rotation (record_all [ask "a"; ask "b"] (trail [])).1))) = 2 ∧
  (events (Rotation.active (Audit.rotation (record_all [ask "a"; ask "b"] (trail [])).1)) =
   events (Rotation.active (Audit.rotation (record_all [ask "a"; ask "b"] (trail [Done])).1)) ∨
   tags_clash a_key (events (Rotation.active (Audit.rotation (record_all [ask "a"; ask "b"] (trail [])).1)))
     (events (Rotation.active (Audit.rotation (record_all [ask "a"; ask "b"] (trail [Done])).1)))).
Proof.
  split; [vm_compute; reflexivity|].
  apply (audit_tamper_evident a_key _ _ 0 zero32
    (2%N, Audit.previous (record_all [ask "a"; ask "b"] (trail [])).1)); vm_compute; reflexivity.
Defined.
