(* ===== verification/ServerBase.v ===== *)
(** The running server, [crates/heptabao-server/src/service.rs]: its state, what one
    request sees of the world around it, the small files of the data directory, and
    the helpers of the request path.

    The data directory holds the files of the durable service and three files of the
    server: the seal metadata, a pending rekey, the initialization recovery.  A call
    that replaces or removes one of them takes its fate: it succeeds, it fails
    before the rename or removal, or it fails after it. *)
From Stdlib Require Import Ascii NArith Strings.Byte.
From S2P Require Import Prelude Str Json Gf256 Shamir Bytes Base32 Engine EngineState Totp Acl AuthState DurableCodec Durable Seal AuditChain AuditRotation.

Definition MAX_STATE_BYTES : N := 768 * 1024.
Definition MAX_OPERATIONS : N := 32000.
Definition INIT_RECOVERY_LIMIT : N := 16 * 1024.
Definition MAX_BACKUP_TRANSFER_BYTES : N := 20 * 1024 * 1024.

(** * Responses *)
Module Response.
Record t := mk { status : N; body : Value }.
Definition error (status : N) (message : string) : t :=
  mk status (Json.object [("errors", VArray [VString message])]).
Definition ok (body : Value) : t := mk 200 body.
Definition no_content : t := mk 204 Null.
End Response.
Notation Response := Response.t.

Inductive WireRejection : Type := RateLimited | ParseRejected.
Definition WireRejection_code (r : WireRejection) : string :=
  match r with RateLimited => "rate-limited" | ParseRejected => "parse-rejected" end.

Module RekeyState.
Record t := mk {
  nonce : string;
  new_shares : u8;
  new_threshold : u8;
  require_verification : bool;
  provided : Shares;
  verification : option PendingRekeyMetadata;
  verification_provided : Shares;
}.
Definition set_provided (p : Shares) (r : t) : t :=
  mk (nonce r) (new_shares r) (new_threshold r) (require_verification r) p (verification r) (verification_provided r).
Definition set_verification_provided (p : Shares) (r : t) : t :=
  mk (nonce r) (new_shares r) (new_threshold r) (require_verification r) (provided r) (verification r) p.
(** [provided] and [verification_provided] cleared, [pending] announced. *)
Definition announce (pending : PendingRekeyMetadata) (r : t) : t :=
  mk (nonce r) (new_shares r) (new_threshold r) (require_verification r) ∅ (Some pending) ∅.
End RekeyState.
Notation RekeyState := RekeyState.t.

Module State.
Record t {Transit Totp : Type} := mk {
  schema : N;
  cluster_id : string;
  auth : AuthState;
  engines : EngineState Transit Totp;
}.
Arguments t : clear implicits.
Arguments mk {Transit Totp}.
Definition set_auth {Transit Totp} (a : AuthState) (s : t Transit Totp) : t Transit Totp :=
  mk (schema s) (cluster_id s) a (engines s).
Definition set_engines {Transit Totp} (e : EngineState Transit Totp) (s : t Transit Totp) : t Transit Totp :=
  mk (schema s) (cluster_id s) (auth s) e.
End State.
Notation State := State.t.

(** * The data directory *)
Module Dir.
Record t := mk {
  store : Disk;
  seal_file : option (list u8);
  rekey_file : option (list u8);
  recovery_file : option (list u8);
}.
Definition set_store (d : Disk) (x : t) : t := mk d (seal_file x) (rekey_file x) (recovery_file x).
Definition set_seal_file (b : option (list u8)) (x : t) : t := mk (store x) b (rekey_file x) (recovery_file x).
Definition set_rekey_file (b : option (list u8)) (x : t) : t := mk (store x) (seal_file x) b (recovery_file x).
Definition set_recovery_file (b : option (list u8)) (x : t) : t := mk (store x) (seal_file x) (rekey_file x) b.
End Dir.
Notation Dir := Dir.t.

Definition initialized_dir (dir : option Dir) : bool :=
  match dir with Some d => bool_decide (is_Some (Dir.store d !! snapshot_path)) | None => false end.

(** A file replaced through a temporary one, or removed: the new content and
    whether the call succeeded. *)
Definition change_file (fate : Fate) (old new : option (list u8)) : option (list u8) * bool :=
  match fate with
  | Done => (new, true)
  | Fails 0 => (old, false)
  | Fails (S _) => (new, false)
  end.

(** * The world of a request *)
Inductive HaError : Type := HaLock | HaFailed.

(** What the high-availability process answers. *)
Module HaView.
Record t := mk {
  leader : Result (option N) HaError;
  local_id : Result N HaError;
  is_leader : Result bool HaError;
  cluster_id : Result string HaError;
  ensure_linearizable : bool;
  commit_state : string → list u8 → list u8 → Result unit (option string);
  latest_committed_state : Result (option (list u8 * list u8)) HaError;   (** bytes and digest *)
  trigger_snapshot : bool;
  forward_request : Result (option Response) HaError;
}.
End HaView.
Notation HaView := HaView.t.

(** Random draws, fates and outcomes of the calls a request makes. *)
Module World.
Record t {Transit Totp : Type} := mk {
  transit_ops : EngineOps Transit;
  totp_ops : EngineOps Totp;
  rng : Rng;                                   (** of the authentication state *)
  unseal_nonce : option (list u8);
  seal_key : option (list u8);
  barrier_key : option (list u8);
  share_bytes : nat → nat → option (list u8);
  wrap_nonce : option (list u8);
  recovery_nonce : option (list u8);
  cluster : option (list u8);
  operation : option (list u8);
  use_operation : option (list u8);            (** of the commit of a consumed token use *)
  rekey_nonce : option (list u8);
  verification_nonce : option (list u8);
  temp_suffix : option (list u8);
  private_dir : bool;                          (** [private_directory] *)
  recovery_stat : bool;                        (** [path_present] can look *)
  stage_fate : bool;
  publish_fate : Fate;
  seal_fate : Fate;
  rekey_fate : Fate;
  delete_rekey_fate : Fate;
  recovery_fate : Fate;
  ack_fate : Fate;
  parent_sync : bool;
  io_create : IoTrace;
  io_init : IoTrace;
  io_reopen : IoTrace;
  io_sync : IoTrace;
  io_use : IoTrace;
  io_commit : IoTrace;
  io_compact : IoTrace;
  io_export : IoTrace;
  io_restore : IoTrace;
  ha : HaView;
}.
Arguments t : clear implicits.
End World.
Notation World := World.t.

(** * The service *)
Module Service.
Record t {Key Transit Totp : Type} := mk {
  dir : option Dir;
  audit : Audit;
  durable : option (Key * DurableService.t);
  state : option (State Transit Totp);
  seal : option SealMetadata;
  unseal_shares : Shares;
  unseal_nonce : string;
  barrier_key : option (list u8);
  rekey : option RekeyState;
  recovery_required : bool;
  ha : bool;
}.
Arguments t : clear implicits.
Arguments mk {Key Transit Totp}.
Section setters.
Context {Key Transit Totp : Type}.
Notation T := (t Key Transit Totp).
Definition set_dir (d : option Dir) (s : T) : T :=
  mk d (audit s) (durable s) (state s) (seal s) (unseal_shares s) (unseal_nonce s) (barrier_key s) (rekey s) (recovery_required s) (ha s).
Definition set_audit (a : Audit) (s : T) : T :=
  mk (dir s) a (durable s) (state s) (seal s) (unseal_shares s) (unseal_nonce s) (barrier_key s) (rekey s) (recovery_required s) (ha s).
Definition set_state (x : option (State Transit Totp)) (s : T) : T :=
  mk (dir s) (audit s) (durable s) x (seal s) (unseal_shares s) (unseal_nonce s) (barrier_key s) (rekey s) (recovery_required s) (ha s).
Definition set_seal (x : option SealMetadata) (s : T) : T :=
  mk (dir s) (audit s) (durable s) (state s) x (unseal_shares s) (unseal_nonce s) (barrier_key s) (rekey s) (recovery_required s) (ha s).
Definition set_shares (x : Shares) (s : T) : T :=
  mk (dir s) (audit s) (durable s) (state s) (seal s) x (unseal_nonce s) (barrier_key s) (rekey s) (recovery_required s) (ha s).
Definition set_nonce (x : string) (s : T) : T :=
  mk (dir s) (audit s) (durable s) (state s) (seal s) (unseal_shares s) x (barrier_key s) (rekey s) (recovery_required s) (ha s).
Definition set_rekey (x : option RekeyState) (s : T) : T :=
  mk (dir s) (audit s) (durable s) (state s) (seal s) (unseal_shares s) (unseal_nonce s) (barrier_key s) x (recovery_required s) (ha s).
Definition set_recovery (b : bool) (s : T) : T :=
  mk (dir s) (audit s) (durable s) (state s) (seal s) (unseal_shares s) (unseal_nonce s) (barrier_key s) (rekey s) b (ha s).

(** [state], [durable] and [barrier_key] dropped together. *)
Definition lock (s : T) : T :=
  mk (dir s) (audit s) None None (seal s) (unseal_shares s) (unseal_nonce s) None (rekey s) (recovery_required s) (ha s).
(** [durable] and [state] dropped, as at the start of [activate_barrier]. *)
Definition detach (s : T) : T :=
  mk (dir s) (audit s) None None (seal s) (unseal_shares s) (unseal_nonce s) (barrier_key s) (rekey s) (recovery_required s) (ha s).
(** The durable service after a call: its directory is the data directory. *)
Definition put_durable (key : Key) (d : DurableService.t) (s : T) : T :=
  mk (Some (Dir.set_store (DurableService.disk d) (default (Dir.mk ∅ None None None) (dir s)))) (audit s) (Some (key, d))
     (state s) (seal s) (unseal_shares s) (unseal_nonce s) (barrier_key s) (rekey s) (recovery_required s) (ha s).
Definition put_store (disk : Disk) (s : T) : T :=
  set_dir (Dir.set_store disk <$> dir s) s.
Definition initialized (s : T) : bool := initialized_dir (dir s).
End setters.
End Service.
Notation Service := Service.t.

(** A handler that may return early: both outcomes are responses. *)
Definition respond {S} (m : M S Response Response) (s : S) : S * Response :=
  match m s with (s, Ok r) | (s, Err r) => (s, r) end.

(** * Checks of a request *)
Definition service_segment_byte (c : ascii) : bool :=
  is_ascii_alphanumeric c || bool_decide (c ∈ ["-"; "_"; "."]%char).

Definition valid_namespace (value : string) : bool :=
  bool_decide (value = "")
  || ((String.length value <=? 1024)
      && forallb (λ s, negb (bool_decide (s = "")) && negb (bool_decide (s ∈ ["."; ".."])) && str_all service_segment_byte s)
           (split "/" value)).

Definition valid_path (value : string) : bool :=
  (String.length value <=? 4096) && negb (contains_sub "//" value) && negb (starts_with "/" value)
  && forallb (λ s, negb (bool_decide (s = "")) && negb (bool_decide (s ∈ ["."; ".."]))
                   && str_all (λ c, service_segment_byte c || bool_decide (c = ":"%char)) s)
       (split "/" (trim_end_matches "/" value)).

Definition health_status (initialized sealed recovery_required ha_enabled standby ha_active : bool) : N :=
  if negb initialized then 501
  else if sealed || recovery_required then 503
  else if ha_enabled && standby then 429
  else if ha_enabled && negb ha_active then 503
  else 200.

(** [matches!(key, ..)] over the keys of an object. *)
Definition keys_within (allowed : list string) (object : list (string * Value)) : bool :=
  forallb (λ kv, bool_decide (kv.1 ∈ allowed)) object.

(** * Fingerprints *)
Section fingerprints.
Context `{Hmac, Base64}.

Definition length_prefixed (field : string) : list u8 :=
  le_bytes 8 (slen field) ++ String.list_byte_of_string field.

Definition request_fingerprint (audit_key : list u8) (method path namespace token : string) : string :=
  b64_encode (hmac_sign HMAC_SHA256 audit_key
    (String.list_byte_of_string "heptabao.audit.request-fingerprint.v2"
     ++ concat (length_prefixed <$> [method; namespace; path; token]))).

Definition wire_rejection_fingerprint (audit_key attempt_id : list u8) (rejection : WireRejection) (status : N) : string :=
  b64_encode (hmac_sign HMAC_SHA256 audit_key
    (String.list_byte_of_string "heptabao.audit.wire-rejection.v1"
     ++ length_prefixed (WireRejection_code rejection) ++ le_bytes 2 status ++ attempt_id)).
End fingerprints.

(** * Files of the data directory *)
Section files.
Context `{Base64, Serde SealMetadata, Serde PendingRekeyMetadata, Serde Value}.

Definition load_seal_metadata (dir : option Dir) : Result (option SealMetadata) string :=
  match dir ≫= Dir.seal_file with
  | None => Ok None
  | Some encoded =>
      if (SEAL_METADATA_LIMIT <? len encoded)%N then Err "seal metadata exceeds the supported bound"
      else
        let? metadata := ok_or (from_slice (A := SealMetadata) encoded) "invalid seal metadata" in
        let? _ := SealMetadata.validate metadata in
        Ok (Some metadata)
  end.

(** Reads the pending rekey; one that was completed is removed. *)
Definition load_pending_rekey (fate : Fate) (active : option SealMetadata) (dir : option Dir) :
  option Dir * Result (option PendingRekeyMetadata) string :=
  match dir ≫= Dir.rekey_file with
  | None => (dir, Ok None)
  | Some encoded =>
      if (REKEY_METADATA_LIMIT <? len encoded)%N then (dir, Err "pending rekey metadata exceeds the supported bound")
      else match from_slice (A := PendingRekeyMetadata) encoded with
      | None => (dir, Err "invalid pending rekey metadata")
      | Some pending =>
          match PendingRekeyMetadata.validate_shape pending with
          | Err e => (dir, Err e)
          | Ok _ =>
              match active with
              | None => (dir, Err "pending rekey exists without active seal metadata")
              | Some active =>
                  if bool_decide (PendingRekeyMetadata.candidate pending = active) then
                    let '(file, done) := change_file fate (Some encoded) None in
                    (Dir.set_rekey_file file <$> dir,
                     if done then Ok None else Err "cannot reconcile completed pending rekey marker")
                  else if negb (PendingRekeyMetadata.active_generation pending =? SealMetadata.generation active)%N
                  then (dir, Err "pending rekey does not match the active seal generation")
                  else (dir, Ok (Some pending))
              end
          end
      end
  end.

(** What [persist_seal_metadata] and [persist_pending_rekey] write, before any file is touched. *)
Definition seal_bytes (private_dir : bool) (suffix : option (list u8)) (seal : SealMetadata) : option (list u8) :=
  match SealMetadata.validate seal with
  | Err _ => None
  | Ok _ =>
      if negb private_dir then None
      else
        encoded ← to_vec seal;
        if (SEAL_METADATA_LIMIT <? len encoded)%N then None else _ ← suffix; Some encoded
  end.

Definition pending_bytes (private_dir : bool) (suffix : option (list u8)) (pending : PendingRekeyMetadata) : option (list u8) :=
  match PendingRekeyMetadata.validate_shape pending with
  | Err _ => None
  | Ok _ =>
      if negb private_dir then None
      else
        encoded ← to_vec pending;
        if (REKEY_METADATA_LIMIT <? len encoded)%N then None else _ ← suffix; Some encoded
  end.
End files.
