(* ===== verification/ServerSeal.v ===== *)
(** Sealing, unsealing and rekeying of the running server, and its commits:
    [crates/heptabao-server/src/service.rs]. *)
From Stdlib Require Import Ascii NArith Strings.Byte.
From S2P Require Import Prelude Str Json Gf256 Shamir Bytes Base32 Engine EngineState Totp Acl AuthState DurableCodec Durable Seal AuditChain AuditRotation ServerBase.

Section seal.
Context `{Aead, Sha256, Hmac, Base64, Serde SealMetadata, Serde PendingRekeyMetadata}.
Context {Transit Totp : Type} `{Serde (State Transit Totp)}.
Notation S := (Service Shamir.Key Transit Totp).
Notation W := (World Transit Totp).
Notation error := Response.error.

(** * Commits *)
Definition persist_local (io : IoTrace) (bytes : list u8) (operation_id : string) : M S Response unit := λ self,
  match Secret_new bytes with
  | Err _ => (self, Err (error 507 "state capacity exhausted"))
  | Ok value =>
      match PutRequest.new "heptabao-server" "system" operation_id "state" (sha256 bytes) value with
      | Err _ => (self, Err (error 500 "invalid server commit envelope"))
      | Ok request =>
          match Service.durable self with
          | None => (self, Err (error 503 "server is sealed"))
          | Some (key, durable) =>
              let '(durable, r) := @DurableService.put (aead_barrier key) _ io request durable in
              let self := Service.put_durable key durable self in
              match r with
              | Ok _ => (self, Ok tt)
              | Err (OutcomeUnknown recovery_reference) =>
                  (Service.set_recovery true self,
                   Err (Response.mk 503 (Json.object
                     [("errors", VArray [VString "durable outcome unknown; do not blindly retry"]);
                      ("recovery_reference", VString recovery_reference)])))
              | Err _ => (self, Err (error 503 "durable state rejected; no response released"))
              end
          end
      end
  end.

Definition persist (w : W) (operation : option (list u8)) (io : IoTrace) (bytes base_digest : list u8) : M S Response unit :=
  λ self,
  match operation with
  | None => (self, Err (error 503 "operating system randomness unavailable"))
  | Some id =>
      let operation_id := hex id in
      let replicated :=
        if Service.ha self then
          match HaView.commit_state (World.ha w) operation_id base_digest bytes with
          | Ok _ => Ok tt
          | Err None => Err (error 503 "HA control state is unavailable")
          | Err (Some message) => Err (error 503 message)
          end
        else Ok tt in
      match replicated with
      | Err e => (self, Err e)
      | Ok _ =>
          match persist_local io bytes operation_id self with
          | (self, Ok _) => (self, Ok tt)
          | (self, Err e) => (if Service.ha self then Service.set_recovery true self else self, Err e)
          end
      end
  end.

Definition current_state_digest (self : S) : Result (list u8) Response :=
  let? state := ok_or (Service.state self) (error 503 "server is sealed") in
  let? bytes := ok_or (to_vec state) (error 500 "state serialization failed") in
  Ok (sha256 bytes).

Definition commit_state_bytes (w : W) (operation : option (list u8)) (io : IoTrace) (bytes : list u8) : M S Response unit :=
  if (MAX_STATE_BYTES <? len bytes)%N then mfail (error 507 "state capacity exhausted")
  else
    do? base_digest := mpure current_state_digest in
    persist w operation io bytes base_digest.

Definition commit_state (w : W) (operation : option (list u8)) (io : IoTrace) (state : State Transit Totp) : M S Response unit :=
  do? bytes := mpure (λ _, ok_or (to_vec state) (error 500 "state serialization failed")) in
  commit_state_bytes w operation io bytes.

(** The state behind committed bytes. *)
Definition decode_state (absent invalid unsupported : string) (bytes : option (list u8)) : Result (State Transit Totp) Response :=
  let? bytes := ok_or bytes (error 503 absent) in
  let? state := ok_or (from_slice (A := State Transit Totp) bytes) (error 503 invalid) in
  if negb (State.schema state =? 1)%N then Err (error 503 unsupported) else Ok state.

Definition stored_state (durable : DurableService.t) : Result (State Transit Totp) Response :=
  let? bytes := map_err (λ _, error 503 "server state is unavailable") (DurableService.get durable "system" "state") in
  decode_state "server state is absent; recovery required" "server state schema is invalid"
    "unsupported server state schema" bytes.

Definition refresh_state_from_durable : M S Response unit := λ self,
  match Service.durable self with
  | None => (self, Err (error 503 "server is sealed"))
  | Some (_, durable) =>
      match stored_state durable with
      | Err e => (self, Err e)
      | Ok state => (Service.set_recovery false (Service.set_state (Some state) self), Ok tt)
      end
  end.

Definition sync_from_ha (w : W) : M S Response unit := λ self,
  if negb (Service.ha self) then (self, Ok tt)
  else match HaView.latest_committed_state (World.ha w) with
  | Err HaLock => (self, Err (error 503 "HA control state is unavailable"))
  | Err HaFailed => (self, Err (error 503 "HA linearizable state is unavailable"))
  | Ok None => (self, Ok tt)
  | Ok (Some (bytes, digest)) =>
      match current_state_digest self with
      | Err e => (self, Err e)
      | Ok current =>
          if bool_decide (current = digest) then (self, Ok tt)
          else
            match (let? state := decode_state "" "HA committed state schema is invalid"
                                   "unsupported HA committed state schema" (Some bytes) in
                   let? expected_cluster := map_err (λ _, error 503 "HA control state is unavailable")
                                              (HaView.cluster_id (World.ha w)) in
                   if negb (bool_decide (State.cluster_id state = expected_cluster))
                   then Err (error 503 "HA committed state belongs to a different cluster") else Ok state) with
            | Err e => (self, Err e)
            | Ok state =>
                match persist_local (World.io_sync w) bytes ("hasync-" +:+ hex digest) self with
                | (self, Err e) => (self, Err e)
                | (self, Ok _) => (Service.set_recovery false (Service.set_state (Some state) self), Ok tt)
                end
            end
      end
  end.

(** * Observations *)
Definition ha_observation (w : W) (self : S) : bool * bool * bool * option N * option N :=
  if negb (Service.ha self) then (false, false, true, None, None)
  else match HaView.local_id (World.ha w) with
  | Err _ => (true, false, false, None, None)
  | Ok local =>
      match HaView.leader (World.ha w) with
      | Err _ => (true, false, false, None, Some local)
      | Ok leader =>
          (true, bool_decide (is_Some leader) && negb (bool_decide (leader = Some local)),
           bool_decide (leader = Some local) && HaView.ensure_linearizable (World.ha w), leader, Some local)
      end
  end.

Definition leader_response (w : W) (self : S) : Response :=
  let '(ha_enabled, _, ha_active, leader, local) := ha_observation w self in
  let fields is_self := [("ha_enabled", VBool ha_enabled); ("is_self", VBool is_self); ("leader_address", VString "");
    ("leader_cluster_address", VString ""); ("performance_standby", VBool false);
    ("performance_standby_last_remote_wal", Json.u64 0)] in
  Response.ok (Json.object (fields (if negb ha_enabled then true
                                    else ha_active && bool_decide (is_Some leader) && bool_decide (leader = local)))).

Definition seal_status (self : S) : Response :=
  let '(seal_type, shares, threshold) :=
    match Service.seal self with
    | Some seal => (if bool_decide (SealMetadata.share_format seal = "raw-v1") then "shamir-legacy" else "shamir",
                    U8.to_N (SealMetadata.secret_shares seal), U8.to_N (SealMetadata.secret_threshold seal))
    | None => ("shamir-legacy", 1%N, 1%N)
    end in
  let sealed := bool_decide (Service.state self = None) in
  let progress := if sealed then N.min (N.of_nat (size (Service.unseal_shares self))) 255 else 0%N in
  Response.ok (Json.object [
    ("type", VString seal_type); ("initialized", VBool (Service.initialized self)); ("sealed", VBool sealed);
    ("t", Json.u64 threshold); ("n", Json.u64 shares); ("progress", Json.u64 progress);
    ("nonce", VString (if (progress =? 0)%N then "" else Service.unseal_nonce self)); ("version", VString "HeptaBao-0.2.0");
    ("migration", VBool false); ("recovery_seal", VBool false);
    ("storage_type", VString (if Service.ha self then "heptabao-raft-v1" else "heptabao-durable-v2"));
    ("seal_generation", Json.u64 (match Service.seal self with Some seal => SealMetadata.generation seal | None => 0 end))]).

Definition rotate_unseal_nonce (w : W) (self : S) : S * bool :=
  match World.unseal_nonce w with
  | Some bytes => (Service.set_nonce (hex bytes) self, true)
  | None => (self, false)
  end.

(** * Unsealing *)
Definition activate_barrier (w : W) (key : list u8) : M S Response unit := λ self,
  let self := Service.detach self in
  match unbound_key key with
  | None => (self, Err (error 400 "invalid unseal key"))
  | Some k =>
      match Service.dir self with
      | None => (self, Err (error 400 "unseal or recovery failed"))
      | Some dir =>
          let '(disk, reopened) := @DurableService.reopen (aead_barrier k) _ (World.io_reopen w) MAX_OPERATIONS (Dir.store dir) in
          let self := Service.put_store disk self in
          match reopened with
          | Err _ => (self, Err (error 400 "unseal or recovery failed"))
          | Ok durable =>
              match (let? state := stored_state durable in
                     if Service.ha self then
                       let? cluster := map_err (λ _, error 503 "HA identity is unavailable during unseal")
                                         (HaView.cluster_id (World.ha w)) in
                       if negb (bool_decide (State.cluster_id state = cluster))
                       then Err (error 503 "HA configuration belongs to a different cluster") else Ok state
                     else Ok state) with
              | Err e => (self, Err e)
              | Ok state =>
                  let self := Service.mk (Service.dir self) (Service.audit self) (Some (k, durable)) (Some state)
                                (Service.seal self) (Service.unseal_shares self) (Service.unseal_nonce self) (Some key)
                                (Service.rekey self) false (Service.ha self) in
                  if negb (Service.ha self) then (self, Ok tt)
                  else match HaView.is_leader (World.ha w) with
                  | Err _ => (Service.set_recovery true self, Err (error 503 "HA role is unavailable during unseal"))
                  | Ok false => (self, Ok tt)
                  | Ok true =>
                      match sync_from_ha w self with
                      | (self, Err e) => (Service.set_recovery true self, Err e)
                      | (self, Ok _) => (self, Ok tt)
                      end
                  end
              end
          end
      end
  end.

(** [persist_seal_metadata] and [persist_pending_rekey]. *)
Definition persist_seal_metadata (w : W) (seal : SealMetadata) : M S unit unit := λ self,
  match seal_bytes (World.private_dir w) (World.temp_suffix w) seal with
  | None => (self, Err tt)
  | Some encoded =>
      let dir := default (Dir.mk ∅ None None None) (Service.dir self) in
      let '(file, done) := change_file (World.seal_fate w) (Dir.seal_file dir) (Some encoded) in
      (Service.set_dir (Some (Dir.set_seal_file file dir)) self, if done then Ok tt else Err tt)
  end.

Definition persist_pending_rekey (w : W) (pending : PendingRekeyMetadata) : M S unit unit := λ self,
  match pending_bytes (World.private_dir w) (World.temp_suffix w) pending with
  | None => (self, Err tt)
  | Some encoded =>
      let dir := default (Dir.mk ∅ None None None) (Service.dir self) in
      let '(file, done) := change_file (World.rekey_fate w) (Dir.rekey_file dir) (Some encoded) in
      (Service.set_dir (Some (Dir.set_rekey_file file dir)) self, if done then Ok tt else Err tt)
  end.

Definition delete_pending_rekey (w : W) : M S unit unit := λ self,
  match Service.dir self ≫= Dir.rekey_file with
  | None => (self, Ok tt)
  | Some old =>
      let '(file, done) := change_file (World.delete_rekey_fate w) (Some old) None in
      (Service.set_dir (Dir.set_rekey_file file <$> Service.dir self) self, if done then Ok tt else Err tt)
  end.

(** The first unsealing of an installation without seal metadata. *)
Definition unseal_legacy (w : W) (encoded : string) : M S Response Response := λ self,
  match (let? decoded := map_err (error 400) (decode_key_material encoded) in
         if length decoded =? 32 then Ok decoded else Err (error 400 "invalid legacy unseal key length")) with
  | Err e => (self, Err e)
  | Ok key =>
      match activate_barrier w key self with
      | (self, Err e) => (self, Err e)
      | (self, Ok _) =>
          let seal := SealMetadata.mk 1 1 "raw-v1" x01 x01 "" in
          match wrap_barrier_key (World.wrap_nonce w) key (SealMetadata.associated_data seal) key with
          | Err _ => (Service.lock self, Err (error 503 "legacy seal metadata migration failed"))
          | Ok wrapped =>
              let seal := SealMetadata.set_wrapped (b64_encode wrapped) seal in
              match persist_seal_metadata w seal self with
              | (self, Err _) => (Service.lock self, Err (error 503 "legacy seal metadata migration failed"))
              | (self, Ok _) => let self := Service.set_seal (Some seal) self in (self, Ok (seal_status self))
              end
          end
      end
  end.

Definition forget_shares (w : W) (self : S) : S := (rotate_unseal_nonce w (Service.set_shares ∅ self)).1.

Definition unseal_share (w : W) (seal : SealMetadata) (encoded : string) : M S Response Response := λ self,
  let '(shares, collected) := collect_seal_key sha256 seal encoded (Service.unseal_shares self) in
  let self := Service.set_shares shares self in
  match collected with
  | Err e => (self, Err (error 400 e))
  | Ok None => (self, Ok (seal_status self))
  | Ok (Some seal_key) =>
      match b64_decode (SealMetadata.wrapped_barrier_key seal) with
      | None => (Service.set_shares ∅ self, Err (error 503 "seal metadata is corrupt"))
      | Some wrapped =>
          match unwrap_barrier_key seal_key (SealMetadata.associated_data seal) wrapped with
          | Err _ => (forget_shares w self, Err (error 400 "unseal failed"))
          | Ok barrier_key =>
              match activate_barrier w barrier_key self with
              | (self, Err e) => (forget_shares w self, Err e)
              | (self, Ok _) =>
                  match rotate_unseal_nonce w (Service.set_shares ∅ self) with
                  | (self, false) => (Service.lock self, Err (error 503 "operating system randomness unavailable"))
                  | (self, true) => (self, Ok (seal_status self))
                  end
              end
          end
      end
  end.

Definition flag (body : Value) (field : string) (default : bool) : option bool :=
  match Json.get body field with None => Some default | Some (VBool b) => Some b | Some _ => None end.

Definition unseal (w : W) (body : Value) : M S Response Response := λ self,
  if negb (bool_decide (Service.state self = None)) && negb (Service.recovery_required self) then (self, Ok (seal_status self))
  else if negb (Service.initialized self) then (self, Err (error 400 "not initialized"))
  else match Json.as_object body with
  | None => (self, Err (error 400 "invalid unseal request"))
  | Some object =>
      if negb (keys_within ["key"; "reset"; "migrate"] object) then (self, Err (error 400 "unsupported unseal options"))
      else match flag body "migrate" false with
      | None => (self, Err (error 400 "migrate must be a boolean"))
      | Some true => (self, Err (error 501 "seal migration is not implemented by this endpoint"))
      | Some false =>
          match flag body "reset" false with
          | None => (self, Err (error 400 "reset must be a boolean"))
          | Some true =>
              if bool_decide (is_Some (Json.get body "key")) then (self, Err (error 400 "reset and key cannot be supplied together"))
              else match rotate_unseal_nonce w (Service.set_shares ∅ self) with
              | (self, false) => (self, Err (error 503 "operating system randomness unavailable"))
              | (self, true) => (self, Ok (seal_status self))
              end
          | Some false =>
              if negb (World.private_dir w) then (self, Err (error 400 "unsafe data directory"))
              else match Json.get body "key" ≫= Json.as_str with
              | None => (self, Err (error 400 "key is required"))
              | Some encoded =>
                  match Service.seal self with
                  | None => unseal_legacy w encoded self
                  | Some seal => unseal_share w seal encoded self
                  end
              end
          end
      end
  end.

(** [sys/seal] after its permission check. *)
Definition seal_server (w : W) : M S Response Response := λ self,
  let self := Service.set_shares ∅ (Service.lock self) in
  let rekey := match Service.rekey self with
               | Some rekey =>
                   match RekeyState.verification rekey with
                   | None => None
                   | Some _ => Some (RekeyState.set_verification_provided ∅ (RekeyState.set_provided ∅ rekey))
                   end
               | None => None
               end in
  match rotate_unseal_nonce w (Service.set_rekey rekey self) with
  | (self, false) => (self, Err (error 503 "operating system randomness unavailable"))
  | (self, true) => (self, Ok Response.no_content)
  end.
End seal.
