(* ===== verification/ServerRekey.v ===== *)
(** Rekeying of the running server, [crates/heptabao-server/src/service.rs]: a
    threshold of the current shares authorizes a new set, which is either published
    at once or staged until a threshold of the new shares verifies it. *)
From Stdlib Require Import Ascii NArith Strings.Byte.
From S2P Require Import Prelude Str Json Gf256 Shamir Bytes Base32 Engine EngineState Totp Acl AuthState DurableCodec Durable Seal AuditChain AuditRotation ServerBase ServerSeal.

Section rekey.
Context `{Aead, Sha256, Hmac, Base64, Serde SealMetadata, Serde PendingRekeyMetadata}.
Context {Transit Totp : Type}.
Notation S := (Service Shamir.Key Transit Totp).
Notation W := (World Transit Totp).
Notation error := Response.error.

Definition rekey_status (self : S) : Response :=
  let count := λ n : nat, Json.u64 (N.of_nat n) in
  let threshold := match Service.seal self with Some seal => U8.to_N (SealMetadata.secret_threshold seal) | None => 1%N end in
  match Service.rekey self with
  | Some rekey =>
      let '(progress, required, verifying, verification_nonce, verification_progress) :=
        match RekeyState.verification rekey with
        | Some pending => (0, 0%N, true, PendingRekeyMetadata.verification_nonce pending, size (RekeyState.verification_provided rekey))
        | None => (size (RekeyState.provided rekey), threshold, false, "", 0)
        end in
      Response.ok (Json.object [
        ("started", VBool (negb verifying)); ("nonce", VString (RekeyState.nonce rekey));
        ("t", Json.u64 (U8.to_N (RekeyState.new_threshold rekey))); ("n", Json.u64 (U8.to_N (RekeyState.new_shares rekey)));
        ("progress", count progress); ("required", Json.u64 required); ("verification_required", VBool verifying);
        ("verification_nonce", VString verification_nonce); ("verification_progress", count verification_progress);
        ("verification_required_shares", Json.u64 (if verifying then U8.to_N (RekeyState.new_threshold rekey) else 0))])
  | None =>
      Response.ok (Json.object [
        ("started", VBool false); ("nonce", VString ""); ("t", Json.u64 0); ("n", Json.u64 0); ("progress", Json.u64 0);
        ("required", Json.u64 threshold); ("verification_required", VBool false); ("verification_nonce", VString "");
        ("verification_progress", Json.u64 0); ("verification_required_shares", Json.u64 0)])
  end.

Definition BARRIER_PROOF : list u8 := String.list_byte_of_string "heptabao.barrier-key-proof.v1".

Definition verify_active_barrier (self : S) (candidate : list u8) : Result unit Response :=
  match Service.barrier_key self with
  | None => Err (error 503 "server must be unsealed for rekey")
  | Some active_key =>
      if bool_decide (hmac_sign HMAC_SHA256 active_key BARRIER_PROOF = hmac_sign HMAC_SHA256 candidate BARRIER_PROOF)
      then Ok tt else Err (error 400 "seal shares do not match the active barrier")
  end.

(** A response that keeps the rekey in progress. *)
Definition keep (rekey : RekeyState) (r : Result Response Response) (self : S) : S * Result Response Response :=
  (Service.set_rekey (Some rekey) self, r).

Definition verify_rekey_share (w : W) (rekey : RekeyState) (supplied_nonce supplied_key : string) :
  M S Response Response := λ self,
  match RekeyState.verification rekey with
  | None => keep rekey (Err (error 500 "missing pending rekey metadata")) self
  | Some pending =>
      let candidate := PendingRekeyMetadata.candidate pending in
      if negb (bool_decide (supplied_nonce = PendingRekeyMetadata.verification_nonce pending))
      then keep rekey (Err (error 400 "rekey verification nonce mismatch")) self
      else
        let '(provided, collected) := collect_seal_key sha256 candidate supplied_key (RekeyState.verification_provided rekey) in
        let rekey := RekeyState.set_verification_provided provided rekey in
        let failed := RekeyState.set_verification_provided ∅ rekey in
        match collected with
        | Err e => keep rekey (Err (error 400 e)) self
        | Ok None =>
            keep rekey (Ok (Response.ok (Json.object [
              ("started", VBool false); ("complete", VBool false); ("verification_required", VBool true);
              ("verification_nonce", VString (PendingRekeyMetadata.verification_nonce pending));
              ("verification_progress", Json.u64 (N.of_nat (size provided)));
              ("verification_required_shares", Json.u64 (U8.to_N (SealMetadata.secret_threshold candidate)))]))) self
        | Ok (Some next_seal_key) =>
            match b64_decode (SealMetadata.wrapped_barrier_key candidate) with
            | None => keep rekey (Err (error 503 "pending rekey metadata is corrupt")) self
            | Some wrapped =>
                match unwrap_barrier_key next_seal_key (SealMetadata.associated_data candidate) wrapped with
                | Err _ => keep failed (Err (error 400 "rekey verification failed")) self
                | Ok candidate_barrier =>
                    match verify_active_barrier self candidate_barrier with
                    | Err e => keep failed (Err e) self
                    | Ok _ =>
                        match persist_seal_metadata w candidate self with
                        | (self, Err _) => keep rekey (Err (error 503 "cannot durably promote verified seal generation")) self
                        | (self, Ok _) =>
                            let self := Service.set_rekey None (Service.set_shares ∅ (Service.set_seal (Some candidate) self)) in
                            match delete_pending_rekey w self with
                            | (self, Err _) =>
                                (Service.set_recovery true self,
                                 Err (error 503 "verified seal promoted but pending marker cleanup failed; restart required"))
                            | (self, Ok _) =>
                                (self, Ok (Response.ok (Json.object [
                                  ("started", VBool false); ("complete", VBool true); ("verification_required", VBool false);
                                  ("verification_nonce", VString (PendingRekeyMetadata.verification_nonce pending))])))
                            end
                        end
                    end
                end
            end
        end
  end.

Definition hex_key (sh : SecretShare) : Value := VString (hex (encode sha256 sh)).
Definition base64_key (sh : SecretShare) : Value := VString (b64_encode (encode sha256 sh)).

(** The seal and shares that replace the current ones. *)
Definition next_seal (w : W) (rekey : RekeyState) (seal : SealMetadata) (current_barrier_key : list u8) :
  Result (SealMetadata * list SecretShare) Response :=
  let? next_seal_key := ok_or (World.seal_key w) (error 503 "operating system randomness unavailable") in
  let? next_shares := map_err (error 503)
    (split_secret (World.share_bytes w) next_seal_key (RekeyState.new_shares rekey) (RekeyState.new_threshold rekey)) in
  let? generation := ok_or (checked_add (SealMetadata.generation seal) 1) (error 507 "seal generation exhausted") in
  let next := SealMetadata.mk 1 generation "shamir-v1" (RekeyState.new_shares rekey) (RekeyState.new_threshold rekey) "" in
  let? wrapped := map_err (error 503)
    (wrap_barrier_key (World.wrap_nonce w) next_seal_key (SealMetadata.associated_data next) current_barrier_key) in
  Ok (SealMetadata.set_wrapped (b64_encode wrapped) next, next_shares).

(** The new seal, once the shares of the current one authorize it. *)
Definition publish_rekey (w : W) (rekey : RekeyState) (seal next : SealMetadata) (next_shares : list SecretShare) :
  M S Response Response := λ self,
  let answer := λ required verification_nonce, Response.ok (Json.object [
    ("started", VBool false); ("complete", VBool true); ("nonce", VString (RekeyState.nonce rekey));
    ("keys", VArray (hex_key <$> next_shares)); ("keys_base64", VArray (base64_key <$> next_shares));
    ("verification_required", VBool required); ("verification_nonce", VString verification_nonce)]) in
  if RekeyState.require_verification rekey then
    match World.verification_nonce w with
    | None => keep rekey (Err (error 503 "operating system randomness unavailable")) self
    | Some bytes =>
        let pending := PendingRekeyMetadata.mk 1 (SealMetadata.generation seal) (RekeyState.nonce rekey) (hex bytes) next in
        match persist_pending_rekey w pending self with
        | (self, Err _) => keep rekey (Err (error 503 "cannot durably stage rekey verification")) self
        | (self, Ok _) => keep (RekeyState.announce pending rekey) (Ok (answer true (hex bytes))) self
        end
    end
  else
    match persist_seal_metadata w next self with
    | (self, Err _) => keep rekey (Err (error 503 "cannot durably publish new seal generation")) self
    | (self, Ok _) =>
        (Service.set_shares ∅ (Service.set_rekey None (Service.set_seal (Some next) self)), Ok (answer false ""))
    end.

(** A share of the current seal for the rekey in progress. *)
Definition rekey_share (w : W) (rekey : RekeyState) (supplied_nonce supplied_key : string) : M S Response Response := λ self,
  if negb (bool_decide (supplied_nonce = RekeyState.nonce rekey)) then keep rekey (Err (error 400 "rekey nonce mismatch")) self
  else match Service.seal self with
  | None => keep rekey (Err (error 503 "seal metadata unavailable")) self
  | Some seal =>
      let '(provided, collected) := collect_seal_key sha256 seal supplied_key (RekeyState.provided rekey) in
      let rekey := RekeyState.set_provided provided rekey in
      match collected with
      | Err e => keep rekey (Err (error 400 e)) self
      | Ok None =>
          keep rekey (Ok (Response.ok (Json.object [
            ("started", VBool true); ("nonce", VString (RekeyState.nonce rekey));
            ("t", Json.u64 (U8.to_N (RekeyState.new_threshold rekey))); ("n", Json.u64 (U8.to_N (RekeyState.new_shares rekey)));
            ("progress", Json.u64 (N.of_nat (size provided)));
            ("required", Json.u64 (U8.to_N (SealMetadata.secret_threshold seal))); ("complete", VBool false);
            ("verification_required", VBool false)]))) self
      | Ok (Some seal_key) =>
          match (let? wrapped := ok_or (b64_decode (SealMetadata.wrapped_barrier_key seal)) (error 503 "seal metadata is corrupt") in
                 let? current := map_err (λ _, error 400 "unseal shares do not authorize rekey")
                   (unwrap_barrier_key seal_key (SealMetadata.associated_data seal) wrapped) in
                 let? _ := verify_active_barrier self current in
                 next_seal w rekey seal current) with
          | Err e => keep rekey (Err e) self
          | Ok (next, next_shares) => publish_rekey w rekey seal next next_shares self
          end
      end
  end.

Definition rekey_start (w : W) (body : Value) : M S Response Response := λ self,
  if bool_decide (is_Some (Service.rekey self)) then (self, Err (error 400 "rekey is already in progress"))
  else
    match (let? object := ok_or (Json.as_object body) (error 400 "invalid rekey request") in
           if negb (keys_within ["secret_shares"; "secret_threshold"; "backup"; "require_verification"] object)
           then Err (error 400 "unsupported rekey options")
           else
             let? backup := ok_or (flag body "backup" false) (error 400 "backup must be a boolean") in
             if backup : bool then Err (error 501 "PGP-encrypted rekey backup is not implemented")
             else
               let? require_verification := ok_or (flag body "require_verification" true)
                 (error 400 "require_verification must be a boolean") in
               let? shares := map_err (error 400) (bounded_u8_field body "secret_shares" x05) in
               let? threshold := map_err (error 400) (bounded_u8_field body "secret_threshold" x03) in
               if (u8_nat shares =? 0) || (MAX_SEAL_SHARES <? u8_nat shares) || (u8_nat threshold =? 0)
                  || (u8_nat shares <? u8_nat threshold)
               then Err (error 400 "invalid rekey share configuration")
               else
                 let? nonce := ok_or (World.rekey_nonce w) (error 503 "operating system randomness unavailable") in
                 Ok (RekeyState.mk (hex nonce) shares threshold require_verification ∅ None ∅)) with
    | Err e => (self, Err e)
    | Ok rekey => let self := Service.set_rekey (Some rekey) self in (self, Ok (rekey_status self))
    end.

Definition rekey_cancel (w : W) : M S Response Response := λ self,
  match Service.rekey self ≫= RekeyState.verification with
  | Some _ =>
      match delete_pending_rekey w self with
      | (self, Err _) => (self, Err (error 503 "cannot durably cancel pending rekey"))
      | (self, Ok _) => (Service.set_rekey None self, Ok Response.no_content)
      end
  | None => (Service.set_rekey None self, Ok Response.no_content)
  end.

Definition recovery_pending (w : W) (self : S) : option bool :=
  if World.recovery_stat w then Some (bool_decide (is_Some (Service.dir self ≫= Dir.recovery_file))) else None.

Definition rekey_route (w : W) (method path : string) (body : Value) : M S Response Response := λ self,
  match recovery_pending w self with
  | None => (self, Err (error 503 "initialization recovery state is unavailable"))
  | Some true => (self, Err (error 409 "acknowledge initialization recovery before rekey"))
  | Some false =>
      let writes := bool_decide (method = "POST") || bool_decide (method = "PUT") in
      if bool_decide (path = "sys/rekey/init") then
        if bool_decide (method = "GET") then (self, Ok (rekey_status self))
        else if bool_decide (method = "DELETE") then rekey_cancel w self
        else if negb writes then (self, Err (error 405 "method not allowed"))
        else rekey_start w body self
      else if negb (bool_decide (path = "sys/rekey/update")) then (self, Err (error 404 "unsupported rekey path"))
      else if negb writes then (self, Err (error 405 "method not allowed"))
      else
        match (let? object := ok_or (Json.as_object body) (error 400 "invalid rekey request") in
               if negb (keys_within ["key"; "nonce"] object) then Err (error 400 "unsupported rekey update fields")
               else
                 let? nonce := ok_or (Json.get body "nonce" ≫= Json.as_str) (error 400 "rekey nonce is required") in
                 let? key := ok_or (Json.get body "key" ≫= Json.as_str) (error 400 "unseal share is required") in
                 let? rekey := ok_or (Service.rekey self) (error 400 "rekey is not in progress") in
                 Ok (rekey, nonce, key)) with
        | Err e => (self, Err e)
        | Ok (rekey, nonce, key) =>
            let self := Service.set_rekey None self in
            if bool_decide (is_Some (RekeyState.verification rekey)) then verify_rekey_share w rekey nonce key self
            else rekey_share w rekey nonce key self
        end
  end.
End rekey.
