(* ===== verification/ServerInit.v ===== *)
(** Initialization of the running server, [crates/heptabao-server/src/service.rs]:
    a complete data directory is staged, audited and renamed into place; the answer
    can be recovered until it is acknowledged. *)
From Stdlib Require Import Ascii NArith Strings.Byte.
From S2P Require Import Prelude Str Json Gf256 Shamir Bytes Base32 Engine EngineState Totp Acl AuthState DurableCodec Durable Seal AuditChain AuditRotation ServerBase ServerSeal ServerRekey.

Definition is_lower_hex (c : ascii) : bool := is_ascii_digit c || byte_in 97 102 c.

Section recovery.
Context `{Aead, Sha256, Hmac, Base64, Serde SealMetadata, Serde Value}.

Definition decode_initialization_secret (value : Value) : Result (list u8) string :=
  let? encoded := ok_or (Json.as_str value) "recovery_nonce must be a string" in
  if negb (String.length encoded =? 44) && negb (String.length encoded =? 64)
  then Err "recovery_nonce must contain 32 random bytes"
  else
    let? decoded :=
      (if (String.length encoded =? 64) && str_all is_lower_hex encoded
       then ok_or (decode_hex encoded) "invalid recovery_nonce encoding"
       else
         let? decoded := ok_or (b64_decode encoded) "invalid recovery_nonce encoding" in
         if negb (bool_decide (b64_encode decoded = encoded))
         then Err "recovery_nonce must use canonical base64 or lowercase hex" else Ok decoded) in
    if negb (length decoded =? 32) then Err "recovery_nonce must contain 32 random bytes"
    else if bool_decide (decoded = zero32) then Err "recovery_nonce must be generated with cryptographic randomness"
    else Ok decoded.

Definition RECOVERY_CONTEXT : list u8 := String.list_byte_of_string "heptabao.initialization-recovery.v2" ++ [x00].

(** The key derived from the secret of the client, and the context it binds. *)
Definition initialization_recovery_barrier (secret : list u8) (seal : SealMetadata) : option (Shamir.Key * list u8) :=
  encoded ← to_vec seal;
  let context := RECOVERY_CONTEXT ++ sha256 encoded in
  key ← unbound_key (hmac_sign HMAC_SHA256 secret context);
  Some (key, context).

(** The bytes of the recovery file. *)
Definition initialization_recovery_bytes (nonce : option (list u8)) (seal : SealMetadata) (secret : list u8) (response : Value) :
  option (list u8) :=
  plaintext ← to_vec response;
  '(key, context) ← initialization_recovery_barrier secret seal;
  protected ← barrier_seal nonce key context plaintext;
  if (INIT_RECOVERY_LIMIT <? len protected)%N then None else Some protected.

Definition read_initialization_recovery (dir : option Dir) : Result (option (list u8)) unit :=
  match dir ≫= Dir.recovery_file with
  | None => Ok None
  | Some protected => if (INIT_RECOVERY_LIMIT <? len protected)%N then Err tt else Ok (Some protected)
  end.
End recovery.

Section init.
Context `{Aead, Sha256, Hmac, Base64, AuthCrypto, Serde SealMetadata, Serde PendingRekeyMetadata, Serde Value}.
Context `{Serde AuditUnsigned, Serde AuditRecord, Serde Manifest, Serde SignedManifest}.
Context {Transit Totp : Type} `{Serde (State Transit Totp)}.
Notation S := (Service Shamir.Key Transit Totp).
Notation W := (World Transit Totp).
Notation error := Response.error.

Definition recover_initialization (w : W) (self : S) (secret : list u8) (shares threshold : u8) : Response :=
  match (let? seal := ok_or (match Service.seal self with
                             | Some seal =>
                                 if bool_decide (SealMetadata.secret_shares seal = shares)
                                    && bool_decide (SealMetadata.secret_threshold seal = threshold) then Some seal else None
                             | None => None
                             end) (error 400 "initialization recovery parameters do not match") in
         let? _ := (match load_seal_metadata (Service.dir self) with
                    | Ok (Some stored) => if bool_decide (stored = seal) then Ok tt
                                          else Err (error 503 "initialization recovery seal binding changed")
                    | _ => Err (error 503 "initialization recovery seal binding changed")
                    end) in
         let? protected := (match read_initialization_recovery (Service.dir self) with
                            | Ok (Some protected) => Ok protected
                            | Ok None => Err (error 409 "initialization recovery is not pending")
                            | Err _ => Err (error 503 "initialization recovery file is unavailable")
                            end) in
         let? (key, context) := ok_or (initialization_recovery_barrier secret seal)
                                  (error 503 "initialization recovery provider unavailable") in
         let? plaintext := ok_or (barrier_open key context protected) (error 403 "initialization recovery authentication failed") in
         if negb (World.parent_sync w) then Err (error 503 "initialization publication durability is unknown")
         else
           let? body := ok_or (from_slice (A := Value) plaintext) (error 503 "initialization recovery response is corrupt") in
           Ok (Response.ok body)) with
  | Ok r | Err r => r
  end.

Definition ack_initialization (w : W) (method : string) (body : Value) : M S Response Response := λ self,
  if negb (bool_decide (method = "POST") || bool_decide (method = "PUT"))
  then (self, Err (error 405 "initialization acknowledgement requires POST or PUT"))
  else if negb (bool_decide (Json.as_object body = Some []))
  then (self, Err (error 400 "initialization acknowledgement accepts an empty object"))
  else
    let gone := Service.set_dir (Dir.set_recovery_file None <$> Service.dir self) self in
    let unknown := (Service.set_recovery true gone,
                    Err (error 503 "initialization acknowledgement outcome unknown; directory sync failed")) in
    match Service.dir self ≫= Dir.recovery_file, World.ack_fate w with
    | Some _, Fails 0 => (self, Err (error 503 "cannot remove initialization recovery file"))
    | _, Fails _ => unknown
    | _, Done => (gone, Ok Response.no_content)
    end.

(** Everything [initialize] needs before it stages a directory. *)
Record Plan := mk_plan {
  pl_seal : SealMetadata;
  pl_key : Shamir.Key;
  pl_shares : list SecretShare;
  pl_root_token : string;
  pl_state : State Transit Totp;
}.

Definition prepare_init (w : W) (now : N) (shares threshold : u8) : Result Plan Response :=
  let unavailable := error 503 "operating system randomness unavailable" in
  let? seal_key := ok_or (World.seal_key w) unavailable in
  let? barrier_key := ok_or (World.barrier_key w) unavailable in
  let? generated := map_err (error 503) (split_secret (World.share_bytes w) seal_key shares threshold) in
  let seal := SealMetadata.mk 1 1 "shamir-v1" shares threshold "" in
  let? wrapped := map_err (error 503)
    (wrap_barrier_key (World.wrap_nonce w) seal_key (SealMetadata.associated_data seal) barrier_key) in
  let seal := SealMetadata.set_wrapped (b64_encode wrapped) seal in
  let? _ := map_err (error 500) (SealMetadata.validate seal) in
  let? key := ok_or (unbound_key barrier_key) (error 503 "cannot construct storage provider") in
  let? (auth, root_token) := map_err (λ e, error (AuthError.status e) (AuthError.message e))
    (AuthState.bootstrap (World.rng w) now) in
  let? cluster := ok_or (World.cluster w) unavailable in
  Ok (mk_plan seal key generated root_token (State.mk 1 (b64_encode cluster) auth ∅)).

(** The staged directory: the durable service with the first state, and the seal. *)
Definition stage_dir (w : W) (plan : Plan) : Result Dir Response :=
  if negb (World.stage_fate w) then Err (error 503 "cannot create private initialization stage")
  else
    let? durable := map_err (λ _, error 503 "cannot prepare durable initialization state")
      (@DurableService.create_new (aead_barrier (pl_key plan)) _ (World.io_create w) MAX_OPERATIONS ∅).2 in
    let? bytes := ok_or (to_vec (pl_state plan)) (error 500 "state serialization failed") in
    if (MAX_STATE_BYTES <? len bytes)%N then Err (error 507 "single-node state capacity exhausted")
    else
      let? operation := ok_or (World.operation w) (error 503 "operating system randomness unavailable") in
      let? value := map_err (λ _, error 507 "state capacity exhausted") (Secret_new bytes) in
      let? request := map_err (λ _, error 500 "invalid server commit envelope")
        (PutRequest.new "heptabao-server" "system" (hex operation) "state" (sha256 bytes) value) in
      let '(durable, r) := @DurableService.put (aead_barrier (pl_key plan)) _ (World.io_init w) request durable in
      let? _ := map_err (λ _, error 503 "staged initialization state was rejected") r in
      match seal_bytes (World.private_dir w) (World.temp_suffix w) (pl_seal plan), World.seal_fate w with
      | Some encoded, Done => Ok (Dir.mk (DurableService.disk durable) (Some encoded) None None)
      | _, _ => Err (error 503 "cannot prepare seal metadata")
      end.

(** The answer, with the recovery file when the client asked for one. *)
Definition init_answer (w : W) (plan : Plan) (secret : option (list u8)) (dir : Dir) : Result (Value * Dir) Response :=
  let body := Json.object [
    ("keys", VArray (hex_key <$> pl_shares plan)); ("keys_base64", VArray (base64_key <$> pl_shares plan));
    ("root_token", VString (pl_root_token plan)); ("recovery_keys", VArray []); ("recovery_keys_base64", VArray [])] in
  match secret with
  | None => Ok (body, dir)
  | Some secret =>
      let body := Json.set body "init_ack_required" (VBool true) in
      match initialization_recovery_bytes (World.recovery_nonce w) (pl_seal plan) secret body, World.recovery_fate w with
      | Some protected, Done => Ok (body, Dir.set_recovery_file (Some protected) dir)
      | _, _ => Err (error 503 "cannot prepare initialization recovery")
      end
  end.

Definition init_options (body : Value) : Result (u8 * u8 * option (list u8)) Response :=
  let? object := ok_or (Json.as_object body) (error 400 "unsupported initialization options") in
  if negb (keys_within ["secret_shares"; "secret_threshold"; "recovery_nonce"] object)
  then Err (error 400 "unsupported initialization options")
  else
    let? shares := map_err (error 400) (bounded_u8_field body "secret_shares" x05) in
    let? threshold := map_err (error 400) (bounded_u8_field body "secret_threshold" x03) in
    if (u8_nat shares =? 0) || (MAX_SEAL_SHARES <? u8_nat shares) || (u8_nat threshold =? 0) || (u8_nat shares <? u8_nat threshold)
    then Err (error 400 "secret shares must be 1..=16 and threshold must be within that set")
    else match Json.get body "recovery_nonce" with
    | None => Ok (shares, threshold, None)
    | Some value =>
        let? secret := map_err (error 400) (decode_initialization_secret value) in
        Ok (shares, threshold, Some secret)
    end.

(** Record an audit event; whether it was recorded. *)
Definition audited (kind fingerprint : string) (now : N) (status : option N) (self : S) : S * bool :=
  let '(audit, r) := audit_event kind fingerprint now status (Service.audit self) in
  (Service.set_audit audit self, is_ok r).

(** [stage.publish], and the seal of the new directory: [None] when it was not
    renamed, otherwise whether the rename was synced. *)
Definition publish_stage (w : W) (dir : Dir) (seal : SealMetadata) (self : S) : S * option bool :=
  match Service.dir self, World.publish_fate w with
  | Some _, _ | None, Fails 0 => (self, None)
  | None, fate =>
      (Service.mk (Some dir) (Service.audit self) None None (Some seal) ∅ (Service.unseal_nonce self) None None
         (Service.recovery_required self) (Service.ha self),
       Some (match fate with Done => true | _ => false end))
  end.

(** The response, and whether it has been audited. *)
Definition initialize (w : W) (body : Value) (now : N) (fingerprint : string) (self : S) : S * (Response * bool) :=
  if Service.ha self then
    (self, (error 409 "initialize and unseal a node before enabling HA; HA initialization requires an existing durable state", false))
  else match init_options body with
  | Err e => (self, (e, false))
  | Ok (shares, threshold, secret) =>
      if Service.initialized self then
        (self, (match secret with
                | Some secret => recover_initialization w self secret shares threshold
                | None => error 400 "already initialized"
                end, false))
      else
        match (let? plan := prepare_init w now shares threshold in
               if bool_decide (is_Some (Service.dir self)) then Err (error 503 "cannot create private initialization stage")
               else
                 let? dir := stage_dir w plan in
                 let? (answer, dir) := init_answer w plan secret dir in
                 Ok (plan, answer, dir)) with
        | Err e => (self, (e, false))
        | Ok (plan, answer, dir) =>
            match audited "initialization-response-prepared" fingerprint now (Some 200%N) self with
            | (self, false) => (self, (error 503 "initialization response audit unavailable; no active state published", true))
            | (self, true) =>
                match publish_stage w dir (pl_seal plan) self with
                | (self, None) => (self, (error 503 "initialization publication failed before activation", false))
                | (self, Some true) => (self, (Response.ok answer, true))
                | (self, Some false) =>
                    (Service.set_recovery true self,
                     (match secret with
                      | Some _ => error 503 "initialization publication outcome unknown; retry with the same recovery nonce"
                      | None => Response.ok (Json.set answer "warnings" (VArray [VString
                          "initialization published but parent directory sync requires recovery review"]))
                      end, true))
                end
            end
        end
  end.
End init.
