(* ===== verification/Server.v ===== *)
(** Requests to the running server, [crates/heptabao-server/src/service.rs]: the
    audited entry points, the routes, and the start of the process. *)
From Stdlib Require Import Ascii NArith Strings.Byte.
From S2P Require Import Prelude Str Json Gf256 Shamir Bytes Base32 Engine EngineState Totp Acl AclParse AuthState AuthLogin Federated DurableCodec Durable Seal AuditChain AuditRotation ServerBase ServerSeal ServerRekey ServerInit.

Module RequestDispatch.
Record t := mk {
  method : string;
  path : string;
  namespace : string;
  token : string;
  body : Value;
  now : N;
  allow_forward : bool;
}.
End RequestDispatch.
Notation RequestDispatch := RequestDispatch.t.

(** What the start of a process finds. *)
Module Boot.
Record t := mk {
  paths_separate : bool;                 (** absolute paths, the audit outside the data *)
  escrow : Result bool string;           (** a legacy escrow beside the audit file *)
  recovery_stat : bool;
  audit_name : string;
  audit_config : AuditConfig;
  audit_fates : list Fate;
  audit_key : option (list u8);
  delete_rekey_fate : Fate;
  unseal_nonce : option (list u8);
}.
End Boot.
Notation Boot := Boot.t.

Section server.
Context `{Aead, Sha256, Hmac, Base64, AuthCrypto, JsonText, FederatedCrypto}.
Context `{Serde SealMetadata, Serde PendingRekeyMetadata, Serde Value}.
Context `{Serde AuditUnsigned, Serde AuditRecord, Serde Manifest, Serde SignedManifest}.
Context {Transit Totp : Type} `{Serde (State Transit Totp)}.
Notation S := (Service Shamir.Key Transit Totp).
Notation W := (World Transit Totp).
Notation error := Response.error.

Definition auth_error (e : AuthError) : Response := error (AuthError.status e) (AuthError.message e).

(** * The engines and the authentication state *)
Definition fallback_capability (method : string) : string :=
  if bool_decide (method ∈ ["GET"; "HEAD"]) then "read"
  else if bool_decide (method = "LIST") then "list"
  else if bool_decide (method = "DELETE") then "delete"
  else if bool_decide (method = "PATCH") then "patch"
  else "update".

(** The engine part of [dispatch], for an authenticated principal. *)
Definition dispatch_engine (w : W) (state : State Transit Totp) (principal : Principal) (namespace method path : string)
    (body : Value) (now : N) : State Transit Totp * Response :=
  let authorize := λ capability, AuthState.authorize_request (State.auth state) principal namespace path capability now in
  let capability := default (fallback_capability method)
    (@required_capability _ _ (World.transit_ops w) (World.totp_ops w) (State.engines state) namespace method path) in
  match (if has_prefix "sys/mounts" path && negb (bool_decide (method ∈ ["GET"; "LIST"; "HEAD"]))
         then authorize "sudo" else Ok tt) with
  | Err e => (state, auth_error e)
  | Ok _ =>
      match authorize capability with
      | Err e => (state, auth_error e)
      | Ok _ =>
          match @EngineState.handle _ _ (World.transit_ops w) (World.totp_ops w) namespace method path body now (State.engines state) with
          | (engines, Ok (Some response)) =>
              (if EngineResponse.mutated response then State.set_engines engines state else state,
               Response.mk (EngineResponse.status response) (EngineResponse.body response))
          | (_, Ok None) => (state, error 404 "unsupported path")
          | (_, Err e) => (state, error (EngineError.status e) (EngineError.message e))
          end
      end
  end.

Definition dispatch (w : W) (state : State Transit Totp) (principal : option Principal) (namespace method path : string)
    (body : Value) (now : N) : State Transit Totp * Response :=
  match AuthLogin.handle (World.rng w) principal namespace method path body now (State.auth state) with
  | (auth, Ok (Some response)) =>
      (if AuthResponse.mutated response then State.set_auth auth state else state,
       Response.mk (AuthResponse.status response) (AuthResponse.body response))
  | (_, Err e) => (state, auth_error e)
  | (_, Ok None) =>
      match principal with
      | None => (state, error 403 "missing client token")
      | Some principal =>
          if bool_decide (path = "sys/leader") && bool_decide (method = "GET")
          then (state, error 500 "leader route escaped service HA boundary")
          else if bool_decide (path = "sys/step-down") || has_prefix "sys/storage/raft" path
          then (state, error 501 "Raft administrative route is not implemented by this request profile")
          else dispatch_engine w state principal namespace method path body now
      end
  end.

(** * Maintenance *)
Definition reconcile_response (durable : DurableService.t) (reference : string) : Response :=
  let data := λ fields, Response.ok (Json.object [("data", Json.object (("recovery_reference", VString reference) :: fields))]) in
  match DurableService.reconcile durable reference with
  | StatusCommitted generation => data [("status", VString "committed"); ("generation", Json.u64 generation)]
  | StatusAborted => data [("status", VString "aborted")]
  | StatusUnknown => error 404 "recovery reference is unknown"
  end.

(** [ha.trigger_snapshot()], when the node is part of a cluster. *)
Definition snapshot_triggered (w : W) (self : S) : bool := negb (Service.ha self) || HaView.trigger_snapshot (World.ha w).

Definition compact_route (w : W) (method : string) (body : Value) : M S Response Response := λ self,
  if negb (bool_decide (method ∈ ["POST"; "PUT"])) then (self, Err (error 405 "storage compaction requires POST or PUT"))
  else if negb (bool_decide (Json.as_object body = Some []))
  then (self, Err (error 400 "storage compaction accepts an empty JSON object"))
  else if negb (snapshot_triggered w self) then (self, Err (error 503 "HA snapshot trigger failed"))
  else match Service.durable self with
  | None => (self, Err (error 503 "server is sealed"))
  | Some (key, durable) =>
      let '(durable, r) := @DurableService.compact (aead_barrier key) _ (World.io_compact w) durable in
      let self := Service.put_durable key durable self in
      let self := if DurableService.recovery_required durable then Service.set_recovery true self else self in
      match r with
      | Err _ => (self, Err (error 503 "storage compaction failed; inspect durable state"))
      | Ok outcome =>
          (self, Ok (Response.ok (Json.object [("data", Json.object [
            ("generation", Json.u64 (co_generation outcome)); ("retained_requests", Json.u64 (co_retained_requests outcome));
            ("journal_bytes_before", Json.u64 (co_journal_bytes_before outcome));
            ("journal_bytes_after", Json.u64 (co_journal_bytes_after outcome))])])))
      end
  end.

Definition export_route (w : W) (self : S) : Result Response Response :=
  if negb (snapshot_triggered w self) then Err (error 503 "HA snapshot trigger failed")
  else
    let? (key, durable) := ok_or (Service.durable self) (error 503 "server is sealed") in
    let? backup := map_err (λ _, error 503 "cannot export durable snapshot")
      (@DurableService.export_backup (aead_barrier key) _ (World.io_export w) durable) in
    if (MAX_BACKUP_TRANSFER_BYTES <? len backup)%N then Err (error 507 "durable snapshot exceeds transfer limit")
    else Ok (Response.ok (Json.object [("data", Json.object [
      ("snapshot", VString (b64_encode backup)); ("sha256", VString (hex (sha256 backup)));
      ("generation", Json.u64 (DurableService.generation durable));
      ("retained_requests", Json.u64 (DurableService.retained_request_count durable));
      ("format", VString "heptabao-encrypted-backup-v1")])])).

Definition snapshot_argument (method : string) (body : Value) : Result (list u8) Response :=
  if negb (bool_decide (method ∈ ["POST"; "PUT"])) then Err (error 405 "snapshot restore requires POST or PUT")
  else
    let? object := ok_or (Json.as_object body) (error 400 "snapshot restore requires a JSON object") in
    if negb (keys_within ["snapshot"] object) then Err (error 400 "unsupported snapshot restore field")
    else
      let? encoded := ok_or (Json.get body "snapshot" ≫= Json.as_str) (error 400 "snapshot is required") in
      if (MAX_BACKUP_TRANSFER_BYTES * 2 <? slen encoded)%N then Err (error 413 "encoded snapshot exceeds transfer limit")
      else
        let? backup := ok_or (b64_decode encoded) (error 400 "invalid snapshot encoding") in
        if (MAX_BACKUP_TRANSFER_BYTES <? len backup)%N then Err (error 413 "snapshot exceeds transfer limit") else Ok backup.

Definition restore_route (w : W) (method : string) (body : Value) (allow_rollback : bool) : M S Response Response := λ self,
  if Service.ha self then (self, Err (error 409 "direct local snapshot restore is forbidden while HA is enabled"))
  else match snapshot_argument method body with
  | Err e => (self, Err e)
  | Ok backup =>
      match Service.durable self with
      | None => (self, Err (error 503 "server is sealed"))
      | Some (key, durable) =>
          let '(durable, r) := @DurableService.restore_backup (aead_barrier key) _ (World.io_restore w) backup allow_rollback durable in
          let self := Service.put_durable key durable self in
          match r with
          | Err BackupRollbackRejected =>
              (self, Err (error 400 "snapshot is older than live state; use snapshot-force only after review"))
          | Err CorruptState | Err BarrierFailure => (self, Err (error 400 "snapshot authentication or structure failed"))
          | Err _ =>
              (if DurableService.recovery_required durable then Service.set_recovery true self else self,
               Err (error 503 "snapshot restore failed; authoritative recovery required"))
          | Ok outcome =>
              match refresh_state_from_durable self with
              | (self, Err e) => (Service.set_recovery true self, Err e)
              | (self, Ok _) =>
                  (self, Ok (Response.ok (Json.object [("data", Json.object [
                    ("previous_generation", Json.u64 (ro_previous_generation outcome));
                    ("restored_generation", Json.u64 (ro_restored_generation outcome));
                    ("retained_requests", Json.u64 (ro_retained_requests outcome));
                    ("rollback", VBool (ro_restored_generation outcome <? ro_previous_generation outcome)%N)])])))
              end
          end
      end
  end.

Definition maintenance_route (w : W) (method path : string) (body : Value) : M S Response Response := λ self,
  match strip_prefix "sys/internal/recovery/" path with
  | Some reference =>
      (self, if negb (bool_decide (method = "GET")) then Err (error 405 "recovery lookup requires GET")
             else if negb (valid_recovery_reference reference) then Err (error 400 "invalid recovery reference")
             else
               let? (_, durable) := ok_or (Service.durable self) (error 503 "server is sealed") in
               Ok (reconcile_response durable reference))
  | None =>
      if bool_decide (path = "sys/storage/raft/compact") then compact_route w method body self
      else if bool_decide (path = "sys/storage/raft/snapshot") && bool_decide (method = "GET") then (self, export_route w self)
      else if bool_decide (path ∈ ["sys/storage/raft/snapshot"; "sys/storage/raft/snapshot-force"])
      then restore_route w method body (bool_decide (path = "sys/storage/raft/snapshot-force")) self
      else (self, Err (error 404 "unsupported maintenance path"))
  end.

(** * Requests *)
Definition health_response (w : W) (now : N) (self : S) : Response :=
  let sealed := bool_decide (Service.state self = None) in
  let '(ha_enabled, standby, ha_active, _, _) := ha_observation w self in
  Response.mk (health_status (Service.initialized self) sealed (Service.recovery_required self) ha_enabled standby ha_active)
    (Json.object [
      ("initialized", VBool (Service.initialized self)); ("sealed", VBool sealed); ("standby", VBool standby);
      ("performance_standby", VBool false);
      ("replication_performance_mode", VString (if ha_enabled then "enabled" else "disabled"));
      ("replication_dr_mode", VString "disabled"); ("server_time_utc", Json.u64 now); ("version", VString "HeptaBao-0.2.0");
      ("cluster_name", VString (if ha_enabled then "heptabao-ha" else "heptabao-single-node"));
      ("cluster_id", match Service.state self with Some s => VString (State.cluster_id s) | None => Null end);
      ("ha_enabled", VBool ha_enabled); ("ha_active", VBool ha_active);
      ("recovery_required", VBool (Service.recovery_required self))]).

(** The cluster's part of a request: a standby forwards it, the leader catches up. *)
Definition cluster_gate (w : W) (allow_forward : bool) : M S Response unit := λ self,
  if negb (Service.ha self) then (self, Ok tt)
  else match HaView.leader (World.ha w) with
  | Err HaLock => (self, Err (error 503 "HA process lock is unavailable"))
  | Err HaFailed => (self, Err (error 503 "HA leader state is unavailable"))
  | Ok leader =>
      match HaView.local_id (World.ha w) with
      | Err _ => (self, Err (error 503 "HA local identity is unavailable"))
      | Ok local =>
          if bool_decide (leader = Some local) then sync_from_ha w self
          else match leader with
          | None => (self, Err (error 503 "HA cluster has no elected leader"))
          | Some _ =>
              (self, Err (if negb allow_forward then error 503 "forwarded request reached a standby node"
                          else match HaView.forward_request (World.ha w) with
                          | Ok (Some response) => response
                          | Ok None => error 503 "HA leader forwarding failed"
                          | Err _ => error 503 "HA process lock is unavailable"
                          end))
          end
      end
  end.

(** The token of the request against a copy of the state; a consumed use is
    committed before the request is served. *)
Definition admit_token (w : W) (token : string) (now : N) : M S Response (State Transit Totp * option Principal) := λ self,
  match Service.state self with
  | None => (self, Err (error 503 "server is sealed"))
  | Some state =>
      if bool_decide (token = "") then (self, Ok (state, None))
      else match AuthState.authenticate token now (State.auth state) with
      | (_, Err e) => (self, Err (auth_error e))
      | (auth, Ok principal) =>
          let admitted := State.set_auth auth state in
          if Principal.consumed_use principal then
            match commit_state w (World.use_operation w) (World.io_use w) admitted self with
            | (self, Err e) => (self, Err e)
            | (self, Ok _) => (Service.set_state (Some admitted) self, Ok (admitted, Some principal))
            end
          else (self, Ok (admitted, Some principal))
      end
  end.

Definition is_root_principal (principal : option Principal) : bool :=
  match principal with Some p => Principal.is_root p | None => false end.

(** Serve a request and commit the state it leaves, if that changed. *)
Definition serve (w : W) (admitted : State Transit Totp) (principal : option Principal) (namespace method path : string)
    (body : Value) (now : N) : M S Response Response := λ self,
  match to_vec admitted with
  | None => (self, Err (error 500 "state serialization failed"))
  | Some before =>
      let '(state, response) := dispatch w admitted principal namespace method path body now in
      match to_vec state with
      | None => (self, Err (error 500 "state serialization failed"))
      | Some serialized =>
          if bool_decide (serialized = before) then (self, Ok response)
          else match commit_state_bytes w (World.operation w) (World.io_commit w) serialized self with
          | (self, Err e) => (self, Err e)
          | (self, Ok _) => (Service.set_state (Some state) self, Ok response)
          end
      end
  end.

Definition denied_response : Response := error 403 "permission denied".

(** The routes behind the admission of the token. *)
Definition route (w : W) (r : RequestDispatch) (admitted : State Transit Totp) (principal : option Principal) :
  M S Response Response :=
  let 'RequestDispatch.mk method path namespace _ body now _ := r in
  let writes := bool_decide (method ∈ ["PUT"; "POST"]) in
  if bool_decide (path = "sys/leader") && bool_decide (method = "GET") then λ self,
    (self, let? principal := ok_or principal (error 403 "missing client token") in
           let? _ := map_err auth_error (AuthState.authorize_request (State.auth admitted) principal namespace path "read" now) in
           Ok (leader_response w self))
  else if bool_decide (path = "sys/init/ack") then
    if negb (bool_decide (namespace = "")) || negb (is_root_principal principal) then mfail denied_response
    else ack_initialization w method body
  else if bool_decide (path ∈ ["sys/rekey/init"; "sys/rekey/update"]) then
    if negb (is_root_principal principal) then mfail denied_response else rekey_route w method path body
  else if has_prefix "sys/internal/recovery/" path
          || bool_decide (path ∈ ["sys/storage/raft/compact"; "sys/storage/raft/snapshot"; "sys/storage/raft/snapshot-force"]) then
    if negb (is_root_principal principal) then mfail denied_response else maintenance_route w method path body
  else if bool_decide (path = "sys/seal") && writes then
    if negb (is_root_principal principal) then mfail denied_response else seal_server w
  else serve w admitted principal namespace method path body now.

Definition handle_inner (w : W) (r : RequestDispatch) : M S Response Response := λ self,
  let 'RequestDispatch.mk method path namespace token body now allow_forward := r in
  if negb (valid_namespace namespace) || negb (valid_path path) then (self, Err (error 400 "invalid canonical namespace or path"))
  else if bool_decide (path = "sys/health") && bool_decide (method ∈ ["GET"; "HEAD"]) then (self, Ok (health_response w now self))
  else if bool_decide (path = "sys/init") && bool_decide (method = "GET")
  then (self, Ok (Response.ok (Json.object [("initialized", VBool (Service.initialized self))])))
  else if bool_decide (path = "sys/seal-status") && bool_decide (method = "GET") then (self, Ok (seal_status self))
  else if bool_decide (path = "sys/unseal") && bool_decide (method ∈ ["PUT"; "POST"]) then unseal w body self
  else if bool_decide (Service.state self = None) then (self, Err (error 503 "server is sealed"))
  else
    (cluster_gate w allow_forward ;;?
     (λ self, (self, if Service.recovery_required self
                     then Err (error 503 "authoritative recovery required; unseal with the stored key before retry") else Ok tt)) ;;?
     do? (admitted, principal) := admit_token w token now in
     route w r admitted principal) self.

Definition handle_at_mode (w : W) (r : RequestDispatch) (self : S) : S * Response :=
  let 'RequestDispatch.mk method path namespace token body now allow_forward := r in
  let fingerprint := request_fingerprint (Audit.key (Service.audit self)) method path namespace token in
  match audited "request" fingerprint now None self with
  | (self, false) => (self, error 503 "audit unavailable before entry")
  | (self, true) =>
      if bool_decide (path = "sys/init") && bool_decide (method ∈ ["PUT"; "POST"]) then
        let '(self, (response, response_audited)) :=
          if negb (valid_path path) || negb (valid_namespace namespace) || negb (bool_decide (namespace = ""))
          then (self, (error 400 "initialization requires the root namespace", false))
          else initialize w body now fingerprint self in
        if response_audited then (self, response)
        else match audited "response" fingerprint now (Some (Response.status response)) self with
        | (self, true) => (self, response)
        | (self, false) => (Service.set_recovery (Service.initialized self) self, error 503 "initialization response audit unavailable")
        end
      else
        let '(self, response) := respond (handle_inner w r) self in
        match audited "response" fingerprint now (Some (Response.status response)) self with
        | (self, true) => (self, response)
        | (self, false) =>
            (Service.set_recovery true self,
             error 503 "response audit failed; outcome unknown; authoritative recovery required")
        end
  end.

Definition handle_wire_rejection (attempt_id : list u8) (rejection : WireRejection) (status : N) (message : string) (now : N)
    (self : S) : S * Response :=
  let fingerprint := wire_rejection_fingerprint (Audit.key (Service.audit self)) attempt_id rejection status in
  match audited "wire-rejection" fingerprint now None self with
  | (self, false) => (self, error 503 "wire rejection audit unavailable")
  | (self, true) =>
      match audited "wire-response" fingerprint now (Some status) self with
      | (self, true) => (self, error status message)
      | (self, false) => (Service.set_recovery true self, error 503 "wire rejection response audit unavailable")
      end
  end.

(** * Starting *)

Definition pending_state (pending : PendingRekeyMetadata) : RekeyState :=
  let candidate := PendingRekeyMetadata.candidate pending in
  RekeyState.mk (PendingRekeyMetadata.nonce pending) (SealMetadata.secret_shares candidate) (SealMetadata.secret_threshold candidate)
    true ∅ (Some pending) ∅.

Definition check_boot (b : Boot) (ha : bool) (dir : option Dir) : Result unit string :=
  if negb (Boot.paths_separate b) then Err "data and audit paths must be absolute and separate"
  else
    let? escrow := Boot.escrow b in
    if escrow : bool then Err "legacy initialization escrow requires explicit offline migration"
    else if negb ha then Ok tt
    else if negb (Boot.recovery_stat b) then Err "cannot inspect initialization recovery path"
    else if bool_decide (is_Some (dir ≫= Dir.recovery_file)) then Err "acknowledge initialization recovery before enabling HA"
    else Ok tt.

(** [new_inner]: the files of the data directory and of the audit, and the service. *)
Definition start (b : Boot) (ha : bool) (dir : option Dir) (files : AuditFiles) : option Dir * AuditFiles * Result S string :=
  match check_boot b ha dir with
  | Err e => (dir, files, Err e)
  | Ok _ =>
      let '(files, started) := start_audit (Boot.audit_name b) (Boot.audit_config b) (Boot.audit_fates b) (Boot.audit_key b) files in
      match (let? audit := started in let? seal := load_seal_metadata dir in Ok (audit, seal)) with
      | Err e => (dir, files, Err e)
      | Ok (audit, seal) =>
          let '(dir, pending) := load_pending_rekey (Boot.delete_rekey_fate b) seal dir in
          match (let? pending := pending in
                 let? nonce := ok_or (Boot.unseal_nonce b) "operating system randomness unavailable" in
                 Ok (pending, nonce)) with
          | Err e => (dir, files, Err e)
          | Ok (pending, nonce) =>
              (dir, files, Ok (Service.mk dir audit None None seal ∅ (hex nonce) None (pending_state <$> pending) false ha))
          end
      end
  end.
End server.
