(* ===== verification/ServerSpec.v ===== *)
(** The running server: its memory is its durable store, whatever requests it
    handles and whatever fails. *)
From Stdlib Require Import Ascii NArith Strings.Byte.
From S2P Require Import Prelude Str Json Gf256 Shamir Bytes Base32 Engine EngineState Totp Acl AclParse AuthState AuthLogin Federated DurableCodec DurableCodecSpec Durable DurableRecovery Seal AuditChain AuditRotation ServerBase ServerSeal ServerRekey ServerInit Server.

(** * The store, one call at a time *)
Section store.
Context `{B : Barrier, Sh : Sha256}.
Import DurableService.
Implicit Types (d : DurableService.t) (io : IoTrace).

Lemma append_frame_keeps fate f d d' r :
  append_frame fate f d = (d', r) → snapshot d' = snapshot d ∧ ledger d' = ledger d.
Proof.
  unfold append_frame, mbind, on_disk. destruct (checked_add _ _); [|by intros [= <- _]].
  destruct (_ || _); [by intros [= <- _]|]. destruct (append_journal_frame _ _ _) as [x [[]|]]; by intros [= <- _].
Qed.

Lemma publish_Ok io p d d' :
  publish io NoFailpoint p d = (d', Ok tt) → snapshot d' = pr_candidate p ∧ ledger d' = pr_candidate_ledger p.
Proof.
  unfold publish, mbind, stop_at, on_disk.
  destruct (append_frame (Io.fate io 0) (pr_intent p) d) as [d1 [[]|]]; [|done]. cbn [bool_decide].
  rewrite bool_decide_false by done.
  destruct (atomic_write (Io.fate io 1) _ _ (disk d1)) as [x1 [[]|]]; [|done].
  rewrite bool_decide_false by done.
  destruct (append_frame (Io.fate io 2) (pr_commit p) _) as [d2 [[]|]] eqn:E2; [|done].
  apply append_frame_keeps in E2 as [Es _]. rewrite bool_decide_false by done.
  destruct (atomic_write (Io.fate io 3) _ _ (disk d2)) as [x3 [[]|]]; [|done]. intros [= <-]. simpl in *. done.
Qed.

(** What a write can do: be refused, repeat an earlier one, be left unknown, or be committed. *)
Inductive Put (request : PutRequest) d : DurableService.t → SResult MutationOutcome → Prop :=
| put_refused e : Put request d d (Err e)
| put_repeated g reference : is_Some (ledger d !! Binding.key (put_binding request)) → Put request d d (Ok (Duplicate g reference))
| put_unknown d' reference : Put request d d' (Err (OutcomeUnknown reference))
| put_committed d' g reference record :
    unresolved d' = false →
    Snapshot.entries (snapshot d') =
      <[(PutRequest.namespace request, PutRequest.resource request) := PutRequest.value request]> (Snapshot.entries (snapshot d)) →
    ledger d' = <[Binding.key (put_binding request) := record]> (ledger d) →
    Put request d d' (Ok (Committed g reference)).

Lemma prepare_facts_put io d request p :
  prepare io d (put_binding request) (Some (PutRequest.value request)) = Ok p →
  (∃ marker g, pr_candidate p = Snapshot.mk g
     (<[(PutRequest.namespace request, PutRequest.resource request) := PutRequest.value request]> (Snapshot.entries (snapshot d))) marker) ∧
  ∃ record, pr_candidate_ledger p = <[Binding.key (put_binding request) := record]> (ledger d).
Proof.
  unfold prepare. intros Hp. repeat (case_match; simplify_eq/=; try done). eauto 10.
Qed.

Lemma put_cases io request d d' r : put io request d = (d', r) → Put request d d' r.
Proof.
  unfold put, put_with_failpoint. destruct (PutRequest.validate request); [|by intros [= <- <-]; constructor].
  unfold execute. destruct (unresolved d) eqn:Eu; [by intros [= <- <-]; constructor|].
  destruct (Io.verify io); [|by intros [= <- <-]; constructor].
  destruct (ledger d !! _) as [existing|] eqn:El.
  { destruct (negb _); intros [= <- <-]; [constructor|]. apply put_repeated. by rewrite El. }
  destruct (max_retained_requests d <=? _)%N; [by intros [= <- <-]; constructor|].
  destruct (prepare _ _ _ _) as [p|] eqn:Ep; [|by intros [= <- <-]; constructor].
  destruct (publish _ _ _ _) as [d1 [[]|]] eqn:E; intros [= <- <-]; [|constructor].
  apply publish_Ok in E as [Es El'].
  apply prepare_facts_put in Ep as [(marker & g & Ec) (record & Er)].
  eapply put_committed; simpl; [done|by rewrite Es, Ec|by rewrite El', Er].
Qed.

Lemma compact_keeps io d d' r :
  compact io d = (d', r) → snapshot d' = snapshot d ∧ (unresolved d' = true ∨ unresolved d' = unresolved d).
Proof.
  unfold compact, on_disk. destruct (unresolved d) eqn:Eu; [by intros [= <- _]; auto|].
  repeat case_match; intros; simplify_eq/=; auto.
Qed.

Lemma validate_records_each pairs g G R G' :
  validate_records pairs g G R = Ok G' → Forall (λ kr, validate_ledger_record kr.2 = Ok tt) pairs.
Proof.
  revert G R. induction pairs as [|[key record] pairs IH]; intros G R; simpl; [by constructor|].
  destruct (validate_identifier _); [|done]. destruct (DurableCodec.validate_namespace _); [|done].
  destruct (validate_identifier _); [|done]. destruct (validate_ledger_record record) as [[]|] eqn:E; [|done].
  destruct (_ || _); [done|]. intros Hv. constructor; [done|eauto].
Qed.

Lemma rebuild_loop_total records r :
  Forall (λ record, validate_ledger_record record = Ok tt) records → (rebuild_loop records r).2 = Ok tt.
Proof. intros Hr. revert r. induction Hr as [|x l Hx _ IH]; intros r; simpl; [done|]. by rewrite Hx. Qed.

Lemma read_bytes_bound maximum c v c' : read_bytes maximum c = Ok (v, c') → (len v ≤ maximum)%N.
Proof.
  unfold read_bytes. destruct (read_u32 c) as [[n c1]|]; [|done]. destruct (N.ltb_spec maximum n); [done|].
  unfold read_exact. destruct (N.ltb_spec (len c1) n); [done|]. intros [= <- _]. unfold len in *. rewrite length_take. lia.
Qed.

Lemma decode_backup_facts encoded max x :
  decode_backup encoded max = Ok x →
  ((len (bk_snapshot_bytes x) ≤ MAX_FILE_BYTES) ∧ (len (bk_ledger_bytes x) ≤ MAX_FILE_BYTES) ∧
   (len (bk_journal_bytes x) ≤ MAX_FILE_BYTES))%N ∧
  Forall (λ record, validate_ledger_record record = Ok tt) (btree_values (bk_ledger x)).
Proof.
  unfold decode_backup. destruct (_ || _); [done|]. destruct (negb _); [done|].
  destruct (backup_header _) as [c0|]; [|done]. destruct (read_u64 c0) as [[g c1]|]; [|done].
  destruct (read_bytes _ c1) as [[sb c2]|] eqn:E1; [|done]. destruct (read_bytes _ c2) as [[jb c3]|] eqn:E2; [|done].
  destruct (read_bytes _ c3) as [[lb c4]|] eqn:E3; [|done]. destruct (finish c4); [|done].
  destruct (decode_snapshot_frame sb) as [sn|]; [|done]. destruct (decode_ledger_frame lb) as [[lg ld]|]; [|done].
  destruct (decode_journal_frames jb) as [jn|]; [|done]. destruct (_ || _); [done|].
  destruct (validate_committed_state sn lg ld) as [[]|] eqn:Ev; [|done].
  destruct (jn_events jn) as [|[| | |cp] es]; try done. destruct (validate_checkpoint cp ld); [|done].
  destruct (negb _); [done|]. intros [= <-]. simpl.
  apply read_bytes_bound in E1, E2, E3. split; [done|].
  unfold validate_committed_state in Ev. destruct (negb _); [done|].
  destruct (validate_ledger_generation ld lg) as [[]|] eqn:El; [|done].
  unfold validate_ledger_generation in El. destruct (negb _); [done|].
  destruct (validate_records _ _ _ _) as [G|] eqn:Er; [|done]. apply validate_records_each in Er.
  rewrite Forall_forall in Er. apply Forall_forall. intros record (k & Hk)%elem_of_btree_values.
  apply (Er (k, record)). by apply elem_of_btree_pairs.
Qed.

Lemma atomic_write_err fate target bytes disk disk' e :
  (len bytes ≤ MAX_FILE_BYTES)%N → atomic_write fate target bytes disk = (disk', Err e) → e = DurableCodec.Io.
Proof.
  intros Hl. unfold atomic_write. rewrite (proj2 (N.ltb_ge _ _) Hl). destruct fate as [|[|n]]; congruence.
Qed.

(** A failed restoration left everything alone, or the store demands recovery. *)
Lemma restore_cases io backup allow d d' e :
  restore_backup io backup allow d = (d', Err e) → d' = d ∨ unresolved d' = true ∧ e = DurableCodec.Io.
Proof.
  unfold restore_backup. destruct (unresolved d); [by intros [= <- _]; left|].
  destruct (Io.verify io); [|by intros [= <- _]; left].
  destruct (decode_backup _ _) as [x|] eqn:Ex; [|by intros [= <- _]; left].
  apply decode_backup_facts in Ex as [(H1 & H2 & H3) Hv]. destruct (_ && _); [by intros [= <- _]; left|].
  unfold mbind, on_disk. intros E. right. revert E.
  destruct (atomic_write (Io.fate io 0) _ _ _) as [x1 [[]|e1]] eqn:E1; [|intros [= <- <-]; eauto using atomic_write_err].
  destruct (atomic_write (Io.fate io 1) _ _ _) as [x2 [[]|e2]] eqn:E2; [|intros [= <- <-]; eauto using atomic_write_err].
  destruct (atomic_write (Io.fate io 2) _ _ _) as [x3 [[]|e3]] eqn:E3; [|intros [= <- <-]; eauto using atomic_write_err].
  unfold rebuild_reconciliation. simpl. pose proof (rebuild_loop_total _ ∅ Hv) as Hr.
  destruct (rebuild_loop _ _) as [rc res]. simpl in Hr. subst res. done.
Qed.

(** * The snapshot file stays *)
Definition present d : Prop := is_Some (disk d !! snapshot_path).
Definition stays {E R} (m : M DurableService.t E R) : Prop := ∀ d, present d → present (m d).1.

Lemma stays_run {E R} (m : M DurableService.t E R) d d' r : stays m → m d = (d', r) → present d → present d'.
Proof. intros Hm Heq Hd. specialize (Hm d Hd). by rewrite Heq in Hm. Qed.

Lemma stays_bind {E X Y} (m : M DurableService.t E X) (f : X → M DurableService.t E Y) :
  stays m → (∀ x, stays (f x)) → stays (mbind m f).
Proof.
  intros Hm Hf d Hd. unfold mbind. specialize (Hm d Hd). destruct (m d) as [d1 [x|e]]; simpl in *; [by apply Hf|done].
Qed.

Lemma stays_frame {E R} (m : M DurableService.t E R) : (∀ d, disk (m d).1 = disk d) → stays m.
Proof. intros Hm d. unfold present. by rewrite Hm. Qed.

Lemma stays_atomic_write fate target bytes :
  target ∈ [journal_path; snapshot_path; ledger_path] → stays (on_disk (atomic_write fate target bytes)).
Proof.
  intros Ht d [v Hv]. unfold present, on_disk. destruct (atomic_write _ _ _ _) as [x r] eqn:E. simpl.
  assert (Hrep : replaced target bytes (disk d) x → is_Some (x !! snapshot_path)).
  { intros Hr. rewrite (Hr snapshot_path) by set_solver. case_bool_decide; eauto. }
  apply atomic_write_cases in E as [[_ Hr]|[_ [(_ & Hs & _)|Hr]]]; [auto| |auto|done]. rewrite Hs. eauto.
Qed.

Lemma stays_append_frame fate f : stays (append_frame fate f).
Proof.
  intros d [v Hv]. unfold append_frame, mbind, on_disk, append_journal_frame. destruct (checked_add _ _); [|by eexists].
  destruct (_ || _); [by eexists|]. destruct (disk d !! journal_path); [|by eexists].
  destruct fate; unfold present; simpl; rewrite lookup_insert_ne by done; eauto.
Qed.

Lemma stays_publish io fp p : stays (publish io fp p).
Proof.
  unfold publish. repeat (apply stays_bind; [|intros ?]); try (by apply stays_frame; intros ?);
    first [apply stays_append_frame | apply stays_atomic_write; set_solver].
Qed.

Lemma put_present io request : stays (put io request).
Proof.
  intros d Hd. unfold put, put_with_failpoint. destruct (PutRequest.validate request); [|done].
  unfold execute. repeat (case_match; simpl; try done);
    match goal with E : publish ?io ?f ?p ?d0 = (?t, _) |- _ =>
      pose proof (stays_publish io f p d0 Hd) as Hp; rewrite E in Hp; exact Hp end.
Qed.

Lemma compact_present io : stays (compact io).
Proof.
  intros d Hd. unfold compact. repeat (case_match; simpl; try done);
    match goal with E : on_disk (atomic_write ?f _ ?b) ?d0 = (?t, _) |- _ =>
      pose proof (stays_atomic_write f journal_path b ltac:(set_solver) d0 Hd) as Hp; rewrite E in Hp; exact Hp end.
Qed.

Lemma restore_present io backup allow : stays (restore_backup io backup allow).
Proof.
  intros d Hd. unfold restore_backup. destruct (unresolved d); [done|]. destruct (Io.verify io); [|done].
  destruct (decode_backup _ _); [|done]. destruct (_ && _); [done|].
  assert (Hd' : present (set_unresolved true d)) by done. revert Hd'. generalize (set_unresolved true d).
  repeat (apply stays_bind; [|intros ?]); try (by apply stays_frame; intros ?);
    try (apply stays_atomic_write; set_solver).
  apply stays_frame. intros d2. unfold rebuild_reconciliation. by destruct (rebuild_loop _ _).
Qed.

Lemma reopen_present io max x x' d : reopen io max x = (x', Ok d) → present d.
Proof.
  unfold reopen. destruct (load io max x) as [[[d0 j] g]|] eqn:El; [|done].
  assert (Hd0 : present d0).
  { unfold load in El. repeat (case_match; simplify_eq/=; try done). unfold present. simpl.
    match goal with E : read_bounded x snapshot_path = Ok _ |- _ => unfold read_bounded in E end.
    destruct (x !! snapshot_path); [by eexists|done]. }
  destruct (recover _ _ _ _ d0) as [d1 [u|]] eqn:Er; [|done]. intros [= _ <-].
  assert (Hr : stays (recover io (jn_events j) g (jn_incomplete j))).
  { clear. intros d Hd. unfold recover.
    match goal with |- present (match ?x with _ => _ end).1 => destruct x as [s|]; [|done] end.
    assert (Hd' : present (set_reconciliation (sc_reconciliation s) d)) by done. revert Hd'.
    generalize (set_reconciliation (sc_reconciliation s) d). clear Hd.
    apply stays_bind; [|intros ?].
    - destruct (jn_incomplete j); [|by apply stays_frame]. intros d' [v Hv]. unfold on_disk, truncate_journal.
      destruct (disk d' !! journal_path); [|by eexists].
      destruct (Io.fate io 0) as [|[|]]; unfold present; simpl; rewrite ?lookup_insert_ne by done; eauto.
    - apply stays_bind; [|intros ?].
      + intros d' Hd'. unfold finish_pending. destruct (sc_pending s) as [marker|]; [|done].
        assert (Ha : ∀ e, stays (append_event (Io.fate io 1) (Io.nonce io 0) e)).
        { intros e d1 Hd1. unfold append_event. case_match; [|done]. by apply stays_append_frame. }
        destruct (published_pending _ _); (apply stays_bind; [apply Ha|intros ?; by apply stays_frame|done]).
      + repeat (apply stays_bind; [|intros ?]); try (by apply stays_frame; intros ?).
        apply stays_atomic_write; set_solver. }
  specialize (Hr d0 Hd0). by rewrite Er in Hr.
Qed.
End store.

(** * Requests by their effect *)
Definition initializes (r : RequestDispatch) : bool :=
  bool_decide (RequestDispatch.path r = "sys/init") && bool_decide (RequestDispatch.method r ∈ ["PUT"; "POST"]).

Definition restores (r : RequestDispatch) : bool :=
  bool_decide (RequestDispatch.path r ∈ ["sys/storage/raft/snapshot"; "sys/storage/raft/snapshot-force"])
  && negb (bool_decide (RequestDispatch.path r = "sys/storage/raft/snapshot") && bool_decide (RequestDispatch.method r = "GET")).

(** * The server *)
Section server.
Context `{A : Aead, Sh : Sha256, HM : Hmac, B64 : Base64, AC : AuthCrypto, JT : JsonText, FC : FederatedCrypto}.
Context `{S1 : Serde SealMetadata, S2 : Serde PendingRekeyMetadata, S3 : Serde Value}.
Context `{S4 : Serde AuditUnsigned, S5 : Serde AuditRecord, S6 : Serde Manifest, S7 : Serde SignedManifest}.
Context {Transit Totp : Type} `{S8 : Serde (State Transit Totp)} `{!SerdeLaws (State Transit Totp)}.
Notation S := (Service Shamir.Key Transit Totp).
Notation W := (World Transit Totp).
Implicit Types (s : S) (w : W) (d : DurableService.t).

(** The durable store holds this state. *)
Definition holds_state d (state : State Transit Totp) : Prop :=
  ∃ bytes, DurableService.get d "system" "state" = Ok (Some bytes) ∧ from_slice bytes = Some state.

(** A single node: the state in memory is the committed one, unless the server demands recovery;
    it is there exactly when the store is open, and the store is the data directory. *)
Record sound s : Prop := {
  so_single : Service.ha s = false;
  so_open : is_Some (Service.state s) ↔ is_Some (Service.durable s);
  so_dir k d : Service.durable s = Some (k, d) → ∃ x, Service.dir s = Some x ∧ Dir.store x = DurableService.disk d;
  so_present k d : Service.durable s = Some (k, d) → present d;
  so_key k d : Service.durable s = Some (k, d) → ∃ key, Service.barrier_key s = Some key ∧ unbound_key key = Some k;
  so_memory k d state : Service.durable s = Some (k, d) → Service.state s = Some state →
    Service.recovery_required s = false → holds_state d state;
}.

Definition server_key (operation_id : string) : RequestKey := RequestKey.mk "heptabao-server" "system" operation_id.

(** No retained request has this identifier. *)
Definition unused (operation_id : string) s : Prop :=
  ∀ k d, Service.durable s = Some (k, d) → DurableService.ledger d !! server_key operation_id = None.

Lemma get_entry d bytes :
  DurableService.unresolved d = false → Snapshot.entries (DurableService.snapshot d) !! ("system", "state") = Some bytes →
  DurableService.get d "system" "state" = Ok (Some bytes).
Proof. intros Hu He. unfold DurableService.get. simpl. by rewrite Hu, He. Qed.

(** A commit: the store holds the bytes, or the server is as sound as before. *)
Lemma persist_local_spec io bytes op s s' r :
  sound s → unused op s → persist_local io bytes op s = (s', r) →
  match r with
  | Err _ => sound s'
  | Ok _ => (∀ state b, from_slice bytes = Some state → sound (Service.set_recovery b (Service.set_state (Some state) s'))) ∧
            ∀ op', op' ≠ op → unused op' s → unused op' s'
  end.
Proof.
  intros Hs Hun. unfold persist_local.
  destruct (Secret_new bytes) as [value|] eqn:Ev; [|by intros [= <- <-]].
  destruct (PutRequest.new _ _ _ _ _ _) as [request|] eqn:Er; [|by intros [= <- <-]].
  assert (value = bytes) as ->.
  { unfold Secret_new in Ev. destruct bytes; [done|]. case_match; congruence. }
  assert (request = PutRequest.mk "heptabao-server" "system" op "state" (sha256 bytes) bytes) as ->.
  { unfold PutRequest.new in Er. case_match; congruence. }
  destruct (Service.durable s) as [[k d]|] eqn:Ed; [|by intros [= <- <-]].
  destruct (so_dir s Hs k d Ed) as (x & Hdir & Hstore). destruct (so_key s Hs k d Ed) as (key & Hkey & Hub).
  pose proof (proj2 (so_open s Hs)) as Hopen. rewrite Ed in Hopen. specialize (Hopen ltac:(by eexists)).
  destruct (DurableService.put _ _ _) as [d' r'] eqn:Ep.
  pose proof (stays_run _ _ _ _ (put_present _ _) Ep (so_present s Hs k d Ed)) as Hpresent. apply put_cases in Ep.
  assert (Hput : ∀ b (m : option (State Transit Totp)),
    (∀ state, m = Some state → b = false → holds_state d' state) → is_Some m →
    sound (Service.set_recovery b (Service.set_state m (Service.put_durable k d' s)))).
  { intros b m Hm Hsome. split; simpl.
    - apply Hs.
    - split; [by eexists|done].
    - intros k' d0 [= <- <-]. eexists. split; [done|done].
    - by intros k' d0 [= <- <-].
    - intros k' d0 [= <- <-]. by exists key.
    - intros k' d0 state [= <- <-] Hst Hb. by apply Hm. }
  assert (Hsame : Service.put_durable k d' s =
    Service.set_recovery (Service.recovery_required s) (Service.set_state (Service.state s) (Service.put_durable k d' s))).
  { by destruct s. }
  destruct Ep as [e|g ref Hrep|d' ref|d' g ref record Hu He Hl].
  - destruct e; intros [= <- <-]; try (rewrite Hsame; apply Hput; [|done]; intros state Hst Hb; by eapply so_memory).
  - exfalso. change (Binding.key _) with (server_key op) in Hrep. rewrite (Hun k d Ed) in Hrep. by destruct Hrep.
  - intros [= <- <-]. apply (Hput true (Service.state s)); done.
  - intros [= <- <-]. split.
    + intros state b Hfrom. apply Hput; [|by eexists]. intros ? [= <-] _. exists bytes. split; [|done].
      apply get_entry; [done|]. rewrite He. simpl. by rewrite lookup_insert_eq.
    + intros op' Hne Hun' k' d0 [= <- <-]. rewrite Hl. simpl. rewrite lookup_insert_ne; [by eapply Hun'|].
      intros [= ->]. done.
Qed.

(** Steps that only change what the soundness does not speak of. *)
Lemma sound_frame s s' :
  sound s → Service.ha s' = Service.ha s → Service.durable s' = Service.durable s → Service.state s' = Service.state s →
  (∀ x, Service.dir s = Some x → ∃ x', Service.dir s' = Some x' ∧ Dir.store x' = Dir.store x) →
  Service.barrier_key s' = Service.barrier_key s →
  (Service.recovery_required s' = false → Service.recovery_required s = false) → sound s'.
Proof.
  intros [] Hha Hd Hst Hdir Hk Hr. split; rewrite ?Hha, ?Hd, ?Hst, ?Hk; try done.
  - intros k d E. destruct (so_dir0 k d E) as (x & Hx & Hs). destruct (Hdir x Hx) as (x' & Hx' & Es). exists x'. split; congruence.
  - intros k d state E Es Hf. eauto.
Qed.

Lemma sound_locked s : Service.ha s = false → Service.durable s = None → Service.state s = None → sound s.
Proof. intros Hha Hd Hs. by split; rewrite ?Hd, ?Hs. Qed.

Ltac framed H := eapply sound_frame; [exact H|done|done|done| |done|done]; simpl; intros ? ->; by eexists.

(** The drawn identifiers are new, and differ. *)
Record fresh_ids w s : Prop := {
  fi_operation id : World.operation w = Some id → unused (hex id) s;
  fi_use id : World.use_operation w = Some id → unused (hex id) s;
  fi_distinct id id' : World.operation w = Some id → World.use_operation w = Some id' → hex id ≠ hex id';
}.

Lemma persist_spec w op io bytes digest s s' r :
  sound s → (∀ id, op = Some id → unused (hex id) s) → persist w op io bytes digest s = (s', r) →
  match r with
  | Err _ => sound s'
  | Ok _ => (∀ state, from_slice bytes = Some state → sound (Service.set_state (Some state) s')) ∧
            ∀ op', hex <$> op ≠ Some op' → unused op' s → unused op' s'
  end.
Proof.
  intros Hs Hun. unfold persist. destruct op as [id|]; [|by intros [= <- <-]]. rewrite (so_single s Hs).
  destruct (persist_local io bytes (hex id) s) as [s1 r1] eqn:E.
  pose proof (persist_local_spec _ _ _ _ _ _ Hs (Hun id eq_refl) E) as Hp. destruct r1 as [[]|e].
  - intros [= <- <-]. destruct Hp as [Hst Hother]. split.
    + intros state Hf. specialize (Hst state (Service.recovery_required s1) Hf). by destruct s1.
    + intros op' Hne. apply Hother. simpl in Hne. congruence.
  - rewrite (so_single _ Hp). by intros [= <- <-].
Qed.
End server.
