(* ===== verification/ServerSound.v ===== *)
(** Every handler of the running server keeps it sound. *)
From Stdlib Require Import Ascii NArith Strings.Byte.
From S2P Require Import Prelude Str Json Gf256 Shamir Bytes Base32 Engine EngineState Totp Acl AclParse AuthState AuthLogin Federated DurableCodec DurableCodecSpec Durable Seal AuditChain AuditRotation ServerBase ServerSeal ServerRekey ServerInit Server ServerSpec.

Section sound.
Context `{A : Aead, Sh : Sha256, HM : Hmac, B64 : Base64, AC : AuthCrypto, JT : JsonText, FC : FederatedCrypto}.
Context `{S1 : Serde SealMetadata, S2 : Serde PendingRekeyMetadata, S3 : Serde Value}.
Context `{S4 : Serde AuditUnsigned, S5 : Serde AuditRecord, S6 : Serde Manifest, S7 : Serde SignedManifest}.
Context {Transit Totp : Type} `{S8 : Serde (State Transit Totp)} `{!SerdeLaws (State Transit Totp)}.
Notation S := (Service Shamir.Key Transit Totp).
Notation W := (World Transit Totp).
Implicit Types (s : S) (w : W) (d : DurableService.t).

Definition keeps {E R} (m : M S E R) : Prop := ∀ s, sound s → sound (m s).1.

Ltac framed H := eapply sound_frame; [exact H|done|done|done| |done|done]; simpl; intros ? ->; by eexists.

(** * Files *)
Lemma keeps_persist_seal w seal : keeps (persist_seal_metadata w seal).
Proof.
  intros s Hs. unfold persist_seal_metadata. destruct (seal_bytes _ _ _); [|done].
  destruct (change_file _ _ _) as [file done']. simpl. framed Hs.
Qed.

Lemma keeps_persist_pending w pending : keeps (persist_pending_rekey w pending).
Proof.
  intros s Hs. unfold persist_pending_rekey. destruct (pending_bytes _ _ _); [|done].
  destruct (change_file _ _ _) as [file done']. simpl. framed Hs.
Qed.

Lemma keeps_delete_pending w : keeps (delete_pending_rekey w).
Proof.
  intros s Hs. unfold delete_pending_rekey. destruct (_ ≫= _); [|done].
  destruct (change_file _ _ _) as [file done']. simpl. framed Hs.
Qed.

Lemma sound_lock s : sound s → sound (Service.lock s).
Proof. intros Hs. apply sound_locked; [apply Hs|done|done]. Qed.

Lemma sound_set_rekey x s : sound s → sound (Service.set_rekey x s).
Proof. intros Hs. framed Hs. Qed.
Lemma sound_set_seal x s : sound s → sound (Service.set_seal x s).
Proof. intros Hs. framed Hs. Qed.
Lemma sound_set_shares x s : sound s → sound (Service.set_shares x s).
Proof. intros Hs. framed Hs. Qed.
Lemma sound_set_audit x s : sound s → sound (Service.set_audit x s).
Proof. intros Hs. framed Hs. Qed.
Lemma sound_fence s : sound s → sound (Service.set_recovery true s).
Proof. intros Hs. eapply sound_frame; [exact Hs|done|done|done| |done|done]. simpl. intros ? ->. by eexists. Qed.
Lemma sound_rotate w s : sound s → sound (rotate_unseal_nonce w s).1.
Proof. intros Hs. unfold rotate_unseal_nonce. destruct (World.unseal_nonce w); [simpl; framed Hs|done]. Qed.
#[local] Hint Resolve sound_lock sound_set_rekey sound_set_seal sound_set_shares sound_set_audit sound_fence sound_rotate : hepta.

Lemma sound_rotate_eq w s s' b : rotate_unseal_nonce w s = (s', b) → sound s → sound s'.
Proof. intros E Hs. pose proof (sound_rotate w s Hs) as H. by rewrite E in H. Qed.

Lemma sound_fst {E R} (m : M S E R) s s' r : keeps m → m s = (s', r) → sound s → sound s'.
Proof. intros Hk Heq Hs. pose proof (Hk s Hs) as H. by rewrite Heq in H. Qed.

(** * Unsealing *)
Lemma reopen_disk `{Barrier} io max x x' d : DurableService.reopen io max x = (x', Ok d) → DurableService.disk d = x'.
Proof.
  unfold DurableService.reopen. destruct (DurableService.load _ _ _) as [[[d0 j] g]|]; [|done].
  destruct (DurableService.recover _ _ _ _ _) as [d1 [u|]]; [|done]. by intros [= <- <-].
Qed.

(** Activating a barrier loads the committed state, whatever was there before. *)
Lemma activate_sound w key s : Service.ha s = false → sound (activate_barrier w key s).1.
Proof.
  intros Hha. unfold activate_barrier. destruct (unbound_key key) as [k|] eqn:Ek; [|by apply sound_locked].
  cbn [Service.dir Service.detach]. destruct (Service.dir s) as [x|] eqn:Ex; [|by apply sound_locked].
  destruct (DurableService.reopen _ _ _) as [disk [d|]] eqn:Er.
  2:{ by apply sound_locked. }
  pose proof (reopen_present _ _ _ _ _ Er) as Hpresent. apply reopen_disk in Er. unfold Service.put_store. cbn [Service.dir Service.set_dir Service.ha Service.detach].
  rewrite Hha. destruct (stored_state d) as [state|] eqn:Es; [|by apply sound_locked]. simpl.
  split; cbn; try done.
  - intros k' d' [= <- <-]. rewrite Ex. eexists. by split.
  - by intros k' d' [= <- <-].
  - intros k' d' [= <- <-]. by exists key.
  - intros k' d' st [= <- <-] [= <-] _. unfold stored_state in Es. unfold holds_state.
    destruct (DurableService.get d "system" "state") as [[bytes|]|]; [|done..]. cbn [map_err] in Es.
    unfold decode_state in Es. cbn [ok_or] in Es. destruct (from_slice bytes) as [st|] eqn:Ef; [|done]. cbn [ok_or] in Es.
    destruct (negb _); [done|]. injection Es as <-. by exists bytes.
Qed.

Lemma activate_single w key s : Service.ha s = false → Service.ha (activate_barrier w key s).1 = false.
Proof. intros Hha. apply so_single, activate_sound, Hha. Qed.

Lemma keeps_unseal_legacy w encoded : keeps (unseal_legacy w encoded).
Proof.
  intros s Hs. unfold unseal_legacy. destruct (decode_key_material encoded) as [decoded|]; [|done]. cbn [map_err].
  destruct (length decoded =? 32); [|done].
  pose proof (activate_sound w decoded s (so_single s Hs)) as Ha.
  destruct (activate_barrier w decoded s) as [s1 [[]|]]; simpl in Ha; [|done].
  destruct (wrap_barrier_key _ _ _ _) as [wrapped|]; [|simpl; auto with hepta].
  destruct (persist_seal_metadata _ _ s1) as [s2 [[]|]] eqn:Ep; simpl;
    apply (sound_fst _ _ _ _ (keeps_persist_seal _ _)) in Ep; auto with hepta.
Qed.

Lemma keeps_unseal_share w seal encoded : keeps (unseal_share w seal encoded).
Proof.
  intros s Hs. unfold unseal_share. destruct (collect_seal_key _ _ _ _) as [shares [[seal_key|]|]]; [|simpl; auto with hepta..].
  destruct (b64_decode _) as [wrapped|]; [|simpl; auto with hepta].
  unfold forget_shares. destruct (unwrap_barrier_key _ _ _) as [key|]; [|simpl; auto with hepta].
  pose proof (activate_sound w key (Service.set_shares shares s) (so_single s Hs)) as Ha.
  destruct (activate_barrier w key _) as [s1 [[]|]]; simpl in Ha; [|simpl; auto with hepta].
  destruct (rotate_unseal_nonce w _) as [s2 [|]] eqn:Er; apply sound_rotate_eq in Er; simpl; auto with hepta.
Qed.

Lemma keeps_unseal w body : keeps (unseal w body).
Proof.
  intros s Hs. unfold unseal. destruct (_ && _); [done|]. destruct (negb (Service.initialized s)); [done|].
  destruct (Json.as_object body); [|done]. destruct (negb _); [done|].
  destruct (flag body "migrate" false) as [[|]|]; [done| |done].
  destruct (flag body "reset" false) as [[|]|]; [| |done].
  - destruct (bool_decide _); [done|].
    destruct (rotate_unseal_nonce w _) as [s2 [|]] eqn:Er; apply sound_rotate_eq in Er; simpl; auto with hepta.
  - destruct (negb (World.private_dir w)); [done|]. destruct (_ ≫= _) as [encoded|]; [|done].
    destruct (Service.seal s); [by apply keeps_unseal_share|by apply keeps_unseal_legacy].
Qed.

Lemma keeps_seal_server w : keeps (seal_server w).
Proof.
  intros s Hs. unfold seal_server.
  destruct (rotate_unseal_nonce w _) as [s2 [|]] eqn:Er; apply sound_rotate_eq in Er; simpl; auto with hepta.
Qed.

(** * Rekeying *)
Lemma keeps_keep rekey r s : sound s → sound (keep rekey r s).1.
Proof. simpl. auto with hepta. Qed.

Lemma keeps_verify_rekey w rekey nonce key : keeps (verify_rekey_share w rekey nonce key).
Proof.
  intros s Hs. unfold verify_rekey_share. destruct (RekeyState.verification rekey) as [pending|]; [|by apply keeps_keep].
  destruct (negb _); [by apply keeps_keep|].
  destruct (collect_seal_key _ _ _ _) as [provided [[seal_key|]|]]; [|by apply keeps_keep..].
  destruct (b64_decode _); [|by apply keeps_keep]. destruct (unwrap_barrier_key _ _ _); [|by apply keeps_keep].
  destruct (verify_active_barrier _ _); [|by apply keeps_keep].
  destruct (persist_seal_metadata _ _ _) as [s1 [[]|]] eqn:Ep; apply (sound_fst _ _ _ _ (keeps_persist_seal _ _)) in Ep; [|done| |done].
  2:{ by apply keeps_keep. }
  destruct (delete_pending_rekey w _) as [s2 [[]|]] eqn:Ed; apply (sound_fst _ _ _ _ (keeps_delete_pending _)) in Ed;
    simpl; auto with hepta.
Qed.

Lemma keeps_publish_rekey w rekey seal next shares : keeps (publish_rekey w rekey seal next shares).
Proof.
  intros s Hs. unfold publish_rekey. destruct (RekeyState.require_verification rekey).
  - destruct (World.verification_nonce w); [|by apply keeps_keep].
    destruct (persist_pending_rekey _ _ _) as [s1 [[]|]] eqn:Ep; apply (sound_fst _ _ _ _ (keeps_persist_pending _ _)) in Ep;
      try done; by apply keeps_keep.
  - destruct (persist_seal_metadata _ _ _) as [s1 [[]|]] eqn:Ep; apply (sound_fst _ _ _ _ (keeps_persist_seal _ _)) in Ep;
      simpl; auto with hepta.
Qed.

Lemma keeps_rekey_route w method path body : keeps (rekey_route w method path body).
Proof.
  intros s Hs. unfold rekey_route. destruct (recovery_pending w s) as [[|]|]; [done| |done].
  destruct (bool_decide (path = _)).
  - destruct (bool_decide (method = "GET")); [done|]. destruct (bool_decide (method = "DELETE")).
    + unfold rekey_cancel. destruct (_ ≫= _); [|simpl; auto with hepta].
      destruct (delete_pending_rekey w s) as [s2 [[]|]] eqn:Ed; apply (sound_fst _ _ _ _ (keeps_delete_pending _)) in Ed;
        simpl; auto with hepta.
    + destruct (negb _); [done|]. unfold rekey_start. destruct (bool_decide _); [done|].
      match goal with |- sound (match ?x with _ => _ end).1 => destruct x end; simpl; auto with hepta.
  - destruct (negb (bool_decide (path = _))); [done|]. destruct (negb _); [done|].
    match goal with |- sound (match ?x with _ => _ end).1 => destruct x as [[[rekey nonce] key]|] end; [|done].
    assert (Hs' : sound (Service.set_rekey None s)) by auto with hepta.
    destruct (bool_decide _); [by apply keeps_verify_rekey|]. unfold rekey_share.
    destruct (negb _); [by apply keeps_keep|]. destruct (Service.seal _); [|by apply keeps_keep].
    destruct (collect_seal_key _ _ _ _) as [provided [[seal_key|]|]]; [|by apply keeps_keep..].
    match goal with |- sound (match ?x with _ => _ end).1 => destruct x as [[next shares]|] end;
      [by apply keeps_publish_rekey|by apply keeps_keep].
Qed.

(** * Maintenance *)
Lemma keeps_ack w method body : keeps (ack_initialization w method body).
Proof.
  intros s Hs. unfold ack_initialization. destruct (negb _); [done|]. destruct (negb _); [done|].
  assert (Hgone : sound (Service.set_dir (Dir.set_recovery_file None <$> Service.dir s) s)) by framed Hs.
  destruct (_ ≫= _), (World.ack_fate w) as [|[|]]; simpl; auto with hepta.
Qed.

(** The store after a call that left its snapshot, or demands recovery. *)
Lemma sound_store k d d' s :
  sound s → Service.durable s = Some (k, d) →
  (DurableService.snapshot d' = DurableService.snapshot d ∧ DurableService.unresolved d' = DurableService.unresolved d) → present d' →
  sound (Service.put_durable k d' s).
Proof.
  intros Hs Hd [Hsn Hun] Hpresent. pose proof (so_open s Hs) as Ho. rewrite Hd in Ho. destruct (so_key s Hs k d Hd) as (key & Hk).
  split; simpl; [apply Hs| | | | |].
  - split; [by eexists|]. intros _. by apply Ho.
  - intros k' d0 [= <- <-]. eexists. by split.
  - by intros k' d0 [= <- <-].
  - intros k' d0 [= <- <-]. by exists key.
  - intros k' d0 state [= <- <-] Hst Hr. destruct (so_memory s Hs k d state Hd Hst Hr) as (bytes & Hg & Hf).
    exists bytes. split; [|done]. unfold DurableService.get in *. simpl in *. by rewrite Hsn, Hun.
Qed.

Lemma sound_store_fenced k d d' s :
  sound s → Service.durable s = Some (k, d) → present d' → sound (Service.set_recovery true (Service.put_durable k d' s)).
Proof.
  intros Hs Hd Hpresent. pose proof (so_open s Hs) as Ho. rewrite Hd in Ho. destruct (so_key s Hs k d Hd) as (key & Hk).
  split; simpl; [apply Hs| | | | |done].
  - split; [by eexists|]. intros _. by apply Ho.
  - intros k' d0 [= <- <-]. eexists. by split.
  - by intros k' d0 [= <- <-].
  - intros k' d0 [= <- <-]. by exists key.
Qed.

Lemma keeps_compact w method body : keeps (compact_route w method body).
Proof.
  intros s Hs. unfold compact_route. destruct (negb _); [done|]. destruct (negb _); [done|]. destruct (negb _); [done|].
  destruct (Service.durable s) as [[k d]|] eqn:Ed; [|done].
  destruct (DurableService.compact _ _) as [d' r] eqn:Ec.
  pose proof (stays_run _ _ _ _ (compact_present _) Ec (so_present s Hs k d Ed)) as Hpresent. apply compact_keeps in Ec as [Hsn Hun].
  assert (Hkept : sound (if DurableService.recovery_required d' then Service.set_recovery true (Service.put_durable k d' s)
                         else Service.put_durable k d' s)).
  { unfold DurableService.recovery_required. destruct (DurableService.unresolved d') eqn:Eu.
    - by eapply sound_store_fenced.
    - eapply sound_store; [done|done| |done]. split; [done|]. destruct Hun; congruence. }
  destruct r; exact Hkept.
Qed.

Lemma refresh_sound k d s :
  Service.ha s = false → Service.durable s = Some (k, d) →
  (∃ x, Service.dir s = Some x ∧ Dir.store x = DurableService.disk d) →
  present d → (∃ key, Service.barrier_key s = Some key ∧ unbound_key key = Some k) → is_Some (Service.state s) →
  match refresh_state_from_durable s with
  | (s', Ok _) => sound s'
  | (s', Err _) => sound (Service.set_recovery true s')
  end.
Proof.
  intros Hha Hd Hdir Hpresent Hkey Hst. unfold refresh_state_from_durable. rewrite Hd. destruct (stored_state d) as [state|] eqn:Es.
  2:{ split; simpl; rewrite ?Hd; [done|done|intros k' d0 [= <- <-]; done..|done]. }
  split; simpl; rewrite ?Hd; [done|by split; eexists|intros k' d0 [= <- <-]; done..|].
  intros k' d' st [= <- <-] [= <-] _. unfold stored_state in Es. unfold holds_state.
  destruct (DurableService.get d "system" "state") as [[bytes|]|]; [|done..]. cbn [map_err] in Es.
  unfold decode_state in Es. cbn [ok_or] in Es. destruct (from_slice bytes) as [st|] eqn:Ef; [|done]. cbn [ok_or] in Es.
  destruct (negb _); [done|]. injection Es as <-. by exists bytes.
Qed.

Lemma keeps_restore w method body allow : keeps (restore_route w method body allow).
Proof.
  intros s Hs. unfold restore_route. destruct (Service.ha s) eqn:Eha; [done|]. destruct (snapshot_argument _ _); [|done].
  destruct (Service.durable s) as [[k d]|] eqn:Ed; [|done].
  destruct (DurableService.restore_backup _ _ _ _) as [d' r] eqn:Er. pose proof (stays_run _ _ _ _ (restore_present _ _ _) Er (so_present s Hs k d Ed)) as Hpresent.
  pose proof (sound_store_fenced k d d' s Hs Ed Hpresent) as Hfenced. destruct r as [outcome|e].
  - destruct (so_key s Hs k d Ed) as (key & Hk). pose proof (so_open s Hs) as Ho. rewrite Ed in Ho.
    pose proof (refresh_sound k d' (Service.put_durable k d' s) Eha eq_refl ltac:(by eexists) Hpresent ltac:(by exists key)
      ltac:(by apply Ho; eexists)) as Hr.
    destruct (refresh_state_from_durable _) as [s' [[]|]]; exact Hr.
  - apply restore_cases in Er as [->|[Hun ->]].
    + assert (Hput : sound (Service.put_durable k d s)) by (eapply sound_store; [done|done|done|exact (so_present s Hs k d Ed)]).
      destruct e; simpl; try exact Hput; by destruct (DurableService.recovery_required d).
    + unfold DurableService.recovery_required. rewrite Hun. exact Hfenced.
Qed.

Lemma keeps_maintenance w method path body : keeps (maintenance_route w method path body).
Proof.
  intros s Hs. unfold maintenance_route. destruct (strip_prefix _ _); [done|].
  destruct (bool_decide _); [by apply keeps_compact|]. destruct (_ && _); [done|].
  destruct (bool_decide (path ∈ _)); [by apply keeps_restore|done].
Qed.

(** * Requests *)
Lemma commit_bytes_spec w op io bytes s s' r :
  sound s → (∀ id, op = Some id → unused (hex id) s) → commit_state_bytes w op io bytes s = (s', r) →
  match r with
  | Err _ => sound s'
  | Ok _ => (∀ state, from_slice bytes = Some state → sound (Service.set_state (Some state) s')) ∧
            ∀ op', hex <$> op ≠ Some op' → unused op' s → unused op' s'
  end.
Proof.
  intros Hs Hun. unfold commit_state_bytes, mbind, mpure, mfail. destruct (MAX_STATE_BYTES <? len bytes)%N; [by intros [= <- <-]|].
  destruct (current_state_digest s); [|by intros [= <- <-]]. by apply persist_spec.
Qed.

Lemma admit_spec w token now s s' r :
  sound s → fresh_ids w s → admit_token w token now s = (s', r) →
  sound s' ∧ (is_ok r = true → ∀ id, World.operation w = Some id → unused (hex id) s').
Proof.
  intros Hs Hf. unfold admit_token. destruct (Service.state s) as [state|]; [|by intros [= <- <-]].
  assert (Hop : ∀ id, World.operation w = Some id → unused (hex id) s) by apply Hf.
  destruct (bool_decide _); [by intros [= <- <-]|].
  destruct (AuthState.authenticate _ _ _) as [auth [principal|]]; [|by intros [= <- <-]].
  destruct (Principal.consumed_use principal); [|by intros [= <- <-]].
  unfold commit_state, mbind, mpure. destruct (to_vec _) as [bytes|] eqn:Ev; [|by intros [= <- <-]]. cbn [ok_or].
  destruct (commit_state_bytes _ _ _ _ _) as [s1 r1] eqn:Ec.
  pose proof (commit_bytes_spec _ _ _ _ _ _ _ Hs (fi_use w s Hf) Ec) as Hc. destruct r1 as [[]|e]; intros [= <- <-]; [|done].
  destruct Hc as [Hst Hun]. apply from_to_vec in Ev. split; [by apply Hst|].
  intros _ id Hid. apply (Hun (hex id)); [|by apply Hop].
  destruct (World.use_operation w) as [id'|] eqn:Eu; simpl; [|done].
  intros [= Heq]. by apply (fi_distinct w s Hf id id').
Qed.

Lemma serve_sound w admitted principal namespace method path body now s :
  sound s → (∀ id, World.operation w = Some id → unused (hex id) s) →
  sound (serve w admitted principal namespace method path body now s).1.
Proof.
  intros Hs Hun. unfold serve. destruct (to_vec admitted); [|done].
  destruct (dispatch _ _ _ _ _ _ _ _) as [state response]. destruct (to_vec state) as [bytes|] eqn:Ev; [|done].
  case_bool_decide; [done|]. destruct (commit_state_bytes _ _ _ _ _) as [s1 r1] eqn:Ec.
  pose proof (commit_bytes_spec _ _ _ _ _ _ _ Hs Hun Ec) as Hc. destruct r1 as [[]|e]; [|done].
  apply from_to_vec in Ev. simpl. by apply Hc.
Qed.

Lemma route_sound w r admitted principal s :
  sound s → (∀ id, World.operation w = Some id → unused (hex id) s) → sound (route w r admitted principal s).1.
Proof.
  intros Hs Hun. destruct r as [method path namespace token body now forward]. unfold route.
  destruct (bool_decide (path = "sys/leader") && _); [done|].
  destruct (bool_decide (path = "sys/init/ack")); [destruct (_ || _); [done|by apply keeps_ack]|].
  destruct (bool_decide (path ∈ ["sys/rekey/init"; "sys/rekey/update"])); [destruct (negb _); [done|by apply keeps_rekey_route]|].
  destruct (has_prefix _ _ || _); [destruct (negb _); [done|by apply keeps_maintenance]|].
  destruct (_ && _); [destruct (negb _); [done|by apply keeps_seal_server]|]. by apply serve_sound.
Qed.

Lemma handle_inner_sound w r s : sound s → fresh_ids w s → sound (handle_inner w r s).1.
Proof.
  intros Hs Hf. unfold handle_inner. destruct r as [method path namespace token body now forward] eqn:Er.
  destruct (_ || _); [done|]. destruct (_ && _); [done|]. destruct (_ && _); [done|]. destruct (_ && _); [done|].
  destruct (_ && _); [by apply keeps_unseal|]. case_bool_decide; [done|].
  unfold mbind, cluster_gate. rewrite (so_single s Hs). cbn [negb]. destruct (Service.recovery_required s); [done|].
  destruct (admit_token w token now s) as [s1 r1] eqn:Ea. destruct (admit_spec _ _ _ _ _ _ Hs Hf Ea) as [Hs1 Hun].
  destruct r1 as [[admitted principal]|]; [|done]. apply route_sound; [done|by apply Hun].
Qed.

Lemma audited_sound kind fp now status s : sound s → sound (audited kind fp now status s).1.
Proof. intros Hs. unfold audited. destruct (audit_event _ _ _ _ _) as [a r]. simpl. auto with hepta. Qed.

Lemma initialize_sound w body now fp s : sound s → sound (initialize w body now fp s).1.
Proof.
  intros Hs. unfold initialize. destruct (Service.ha s); [done|]. destruct (init_options body) as [[[shares threshold] secret]|]; [|done].
  destruct (Service.initialized s); [done|].
  match goal with |- sound (match ?x with _ => _ end).1 => destruct x as [[[plan answer] dir]|] end; [|done].
  pose proof (audited_sound "initialization-response-prepared" fp now (Some 200%N) s Hs) as Ha.
  destruct (audited _ _ _ _ s) as [s1 [|]]; [|done]. simpl in Ha.
  assert (Hpub : sound (publish_stage w dir (pl_seal plan) s1).1).
  { unfold publish_stage. destruct (Service.dir s1); [done|].
    destruct (World.publish_fate w) as [|[|]]; try done; apply sound_locked; try done; apply Ha. }
  destruct (publish_stage _ _ _ _) as [s2 [[|]|]]; simpl in *; auto with hepta.
Qed.

Lemma fresh_audited w kind fp now status s : fresh_ids w s → fresh_ids w (audited kind fp now status s).1.
Proof. intros []. unfold audited. destruct (audit_event _ _ _ _ _) as [a r]. by split. Qed.

Lemma handle_sound w r s : sound s → (initializes r = false → fresh_ids w s) → sound (handle_at_mode w r s).1.
Proof.
  intros Hs Hf. unfold handle_at_mode. destruct r as [method path namespace token body now forward] eqn:Er.
  set (fp := request_fingerprint _ _ _ _ _).
  pose proof (audited_sound "request" fp now None s Hs) as Hs1.
  assert (Hf1 : initializes r = false → fresh_ids w (audited "request" fp now None s).1).
  { intros Hi. apply fresh_audited, Hf. by rewrite <-Er. }
  rewrite Er in Hf1. unfold initializes in Hf1. cbn [RequestDispatch.path RequestDispatch.method] in Hf1.
  destruct (audited "request" fp now None s) as [s1 [|]]; [|done]. simpl in Hs1, Hf1.
  destruct (bool_decide (path = "sys/init") && _).
  - match goal with |- sound (match ?x with (_, _) => _ end).1 => assert (Hx : sound x.1); [|destruct x as [s2 [response b]]] end.
    { destruct (_ || _); [done|by apply initialize_sound]. }
    destruct b; [done|]. simpl in Hx.
    pose proof (audited_sound "response" fp now (Some (Response.status response)) s2 Hx) as Ha.
    destruct (audited _ _ _ _ s2) as [s3 [|]]; [done|]. simpl in *.
    destruct (Service.initialized s3) eqn:Ei; [auto with hepta|].
    assert (Hnone : Service.durable s3 = None).
    { destruct (Service.durable s3) as [[k d]|] eqn:Ed; [|done]. exfalso.
      destruct (so_dir s3 Ha k d Ed) as (x & Hdir & Hd). pose proof (so_present s3 Ha k d Ed) as Hp. unfold present in Hp. revert Ei.
      unfold Service.initialized, initialized_dir. rewrite Hdir, Hd. by case_bool_decide. }
    apply sound_locked; [apply Ha|done|]. pose proof (so_open s3 Ha) as Ho. simpl. rewrite Hnone in Ho.
    destruct (Service.state s3); [|done]. by destruct (proj1 Ho ltac:(by eexists)).
  - unfold respond. pose proof (handle_inner_sound w (RequestDispatch.mk method path namespace token body now forward) s1 Hs1 (Hf1 eq_refl)) as Hi.
    destruct (handle_inner _ _ s1) as [s2 [response|response]]; simpl in Hi;
      pose proof (audited_sound "response" fp now (Some (Response.status response)) s2 Hi) as Ha;
      destruct (audited _ _ _ _ s2) as [s3 [|]]; simpl in *; auto with hepta.
Qed.
End sound.
