(* ===== verification/ServerStore.v ===== *)
(** The running server over its durable store: every request moves the store from
    one committed state to the next, whatever fails. *)
From Stdlib Require Import Ascii NArith Strings.Byte.
From S2P Require Import Prelude Str Json Gf256 Shamir Bytes Base32 Engine EngineState Totp Acl AclParse AuthState AuthLogin Federated DurableCodec DurableCodecSpec Durable DurableSpec DurableRecovery DurableReopen DurableSystem Seal AuditChain AuditRotation ServerBase ServerSeal ServerRekey ServerInit Server ServerSpec ServerSound.

(** Sealing succeeds for every payload the server stores. *)
Class AeadTotal `(A : Aead) : Prop :=
  aead_seal_total key nonce aad plain : length nonce = 12 → (len plain ≤ MAX_FILE_BYTES)%N →
    is_Some (seal_in_place_append_tag key nonce aad plain).

Lemma nonce_array_length nonce bytes : nonce_array nonce = Some bytes → length bytes = 12.
Proof. unfold nonce_array. destruct nonce; simpl; [|done]. case_match eqn:E; [|done]. intros [= <-]. by apply Nat.eqb_eq. Qed.

#[export] Instance aead_barrier_laws `{A : Aead, !AeadLaws A, !AeadTotal A} (key : Shamir.Key) : BarrierLaws (aead_barrier key) 32.
Proof.
  assert (Hseal : ∀ nonce context plain x, barrier_seal (nonce_array nonce) key context plain = Some x →
    ∃ n c, length n = 12 ∧ seal_in_place_append_tag key n context plain = Some c ∧ x = BARRIER_MAGIC ++ n ++ c).
  { intros nonce context plain x. unfold barrier_seal. destruct (nonce_array nonce) as [n|] eqn:En; [|done].
    destruct (seal_in_place_append_tag _ _ _ _) as [c|] eqn:Ec; [|done]. intros [= <-]. exists n, c. split; [by eapply nonce_array_length|done]. }
  split; simpl.
  - intros nonce context plain x (n & c & Hn & Hc & ->)%Hseal. unfold barrier_open.
    destruct (envelope_parts BARRIER_MAGIC n c eq_refl Hn) as (-> & -> & ->).
    pose proof (aead_seal_length _ _ _ _ _ Hc) as Hl. rewrite !length_app, Hn, bool_decide_true by done.
    rewrite (proj2 (Nat.ltb_ge _ _)) by (simpl; lia). by eapply aead_open_seal.
  - intros nonce context plain x (n & c & Hn & Hc & ->)%Hseal. pose proof (aead_seal_length _ _ _ _ _ Hc) as Hl.
    unfold len. rewrite !length_app, Hn. simpl. lia.
  - intros nonce context plain Hn Hp. unfold barrier_seal, nonce_array. simpl. rewrite Hn. simpl.
    destruct (aead_seal_total key nonce context plain Hn Hp) as [c ->]. by eexists.
Qed.

(** * One call on the store *)
Section calls.
Context `{B : Barrier, Sh : Sha256} {overhead : N} `{!BarrierLaws B overhead, !Sha256Laws Sh}.
Context (max : N) (Hcap : validate_capacity max = Ok tt).
Import DurableService.

Lemma put_consistent io q d h d' r :
  consistent max (Up d) h → is_ok (Secret_new (PutRequest.value q)) = true →
  no_collision d (put_binding q) (Some (PutRequest.value q)) = true → put io q d = (d', r) →
  let c := proposed d (put_binding q) (Some (PutRequest.value q)) in
  (consistent max (Up d') h ∧ ∀ g ref, r ≠ Ok (Committed g ref)) ∨ consistent max (Up d') (h ++ [c]).
Proof.
  intros Hc Hs Hn. unfold put, put_with_failpoint. destruct (PutRequest.validate q) as [[]|e] eqn:Hv; [|by intros [= <- <-]; left].
  destruct Hc as [Hrun|[Hun Hk]].
  2:{ unfold execute. rewrite Hun. intros [= <- <-]. left. split; [by right|done]. }
  intros He. destruct (execute_running max Hcap d h io _ _ _ _ _ Hrun (put_binding_ok q Hv Hs) Hn He)
    as [[-> Hr]|[(-> & g & ref & ->)|[[-> Hl']|(-> & Hun & [Hk|Hk])]]].
  - left. split; [by left|]. by intros g ref ->.
  - left. split; [by left|]. done.
  - right. by left.
  - left. split; [by right|done].
  - right. by right.
Qed.

End calls.

(** * The server *)
Section server.
Context `{A : Aead, Sh : Sha256, HM : Hmac, B64 : Base64, AC : AuthCrypto, JT : JsonText, FC : FederatedCrypto}.
Context `{S1 : Serde SealMetadata, S2 : Serde PendingRekeyMetadata, S3 : Serde Value}.
Context `{S4 : Serde AuditUnsigned, S5 : Serde AuditRecord, S6 : Serde Manifest, S7 : Serde SignedManifest}.
Context {Transit Totp : Type} `{S8 : Serde (State Transit Totp)}.
Notation S := (Service Shamir.Key Transit Totp).
Notation W := (World Transit Totp).
Implicit Types (s : S) (w : W) (d : DurableService.t) (k : Shamir.Key) (h : list Change).

Definition store_of s : Disk := from_option Dir.store ∅ (Service.dir s).

(** The files of the data directory and the open store are of one history, under one key. *)
Record backed k h s : Prop := {
  bk_kept : kept (B := aead_barrier k) MAX_OPERATIONS (store_of s) h;
  bk_open k' d : Service.durable s = Some (k', d) → k' = k ∧ consistent (B := aead_barrier k) MAX_OPERATIONS (Up d) h;
}.

(** A handler that leaves the store alone, or closes it. *)
Class Idle {R} (m : S → S * R) : Prop :=
  idle s : store_of (m s).1 = store_of s ∧ (Service.durable (m s).1 = Service.durable s ∨ Service.durable (m s).1 = None).

Lemma idle_backed {R} (m : S → S * R) `{!Idle m} k h s : backed k h s → backed k h (m s).1.
Proof. intros [Hk Ho]. destruct (idle (m := m) s) as [Hs Hd]. split; [by rewrite Hs|]. intros k' d E. apply Ho. destruct Hd; congruence. Qed.

Ltac idle_done := unfold store_of in *; simpl in *; split; [congruence|intuition congruence].
Ltac idle_step :=
  match goal with
  | |- store_of (?m ?s).1 = _ ∧ _ => let H := fresh in pose proof (idle (m := m) s) as H; simpl in H; destruct H as [? ?]; idle_done
  | |- context [match ?m ?s with (_, _) => _ end] =>
      let Hq := fresh "Hq" in pose proof (idle (m := m) s) as Hq; destruct (m s) as [? ?]; simpl in Hq; destruct Hq as [? ?]
  | |- context [match ?x with _ => _ end] => destruct x eqn:?
  | |- context [if ?x then _ else _] => destruct x eqn:?
  end.
Ltac idle_solve := intros ?; cbv beta; repeat (idle_step; simpl; try solve [auto]); idle_done.

Lemma change_dir (f : Dir → Dir) s :
  (∀ x, Dir.store (f x) = Dir.store x) → store_of (Service.set_dir (f <$> Service.dir s) s) = store_of s.
Proof. intros Hf. unfold store_of. simpl. destruct (Service.dir s); simpl; auto. Qed.

#[local] Instance idle_rotate w : Idle (rotate_unseal_nonce w).
Proof. unfold rotate_unseal_nonce. idle_solve. Qed.
#[local] Instance idle_persist_seal w seal : Idle (persist_seal_metadata w seal).
Proof.
  intros s. unfold persist_seal_metadata. destruct (seal_bytes _ _ _); [|by auto]. destruct (change_file _ _ _). simpl.
  split; [|by auto]. unfold store_of. simpl. by destruct (Service.dir s).
Qed.
#[local] Instance idle_persist_pending w pending : Idle (persist_pending_rekey w pending).
Proof.
  intros s. unfold persist_pending_rekey. destruct (pending_bytes _ _ _); [|by auto]. destruct (change_file _ _ _). simpl.
  split; [|by auto]. unfold store_of. simpl. by destruct (Service.dir s).
Qed.
#[local] Instance idle_delete_pending w : Idle (delete_pending_rekey w).
Proof.
  intros s. unfold delete_pending_rekey. destruct (_ ≫= _); [|by auto]. destruct (change_file _ _ _). simpl.
  split; [by apply change_dir|by auto].
Qed.
#[local] Instance idle_seal_server w : Idle (seal_server w).
Proof. unfold seal_server. idle_solve. Qed.
#[local] Instance idle_verify_rekey w rekey nonce key : Idle (verify_rekey_share w rekey nonce key).
Proof. unfold verify_rekey_share, keep. idle_solve. Qed.
#[local] Instance idle_publish_rekey w rekey seal next shares : Idle (publish_rekey w rekey seal next shares).
Proof. unfold publish_rekey, keep. idle_solve. Qed.
#[local] Instance idle_rekey_share w rekey nonce key : Idle (rekey_share w rekey nonce key).
Proof. unfold rekey_share, keep. idle_solve. Qed.
#[local] Instance idle_rekey_start w body : Idle (rekey_start w body).
Proof. unfold rekey_start. idle_solve. Qed.
#[local] Instance idle_rekey_cancel w : Idle (rekey_cancel w).
Proof. unfold rekey_cancel. idle_solve. Qed.
#[local] Instance idle_rekey_route w method path body : Idle (rekey_route w method path body).
Proof. unfold rekey_route. idle_solve. Qed.
#[local] Instance idle_ack w method body : Idle (ack_initialization w method body).
Proof.
  intros s. unfold ack_initialization. destruct (negb _); [by auto|]. destruct (negb _); [by auto|].
  destruct (_ ≫= _), (World.ack_fate w) as [|[|]]; simpl; (split; [done || by apply change_dir|by auto]).
Qed.

Context `{!AeadLaws A, !AeadTotal A, !Sha256Laws Sh, !SerdeLaws (State Transit Totp)}.

(** The snapshot file opens under one key only. *)
Definition opens_only k s : Prop :=
  ∀ k' bytes, store_of s !! snapshot_path = Some bytes →
    is_ok (decode_snapshot_frame (H := aead_barrier k') bytes) = true → k' = k.

Lemma capacity_ok : validate_capacity MAX_OPERATIONS = Ok tt.
Proof. done. Qed.

Lemma reopen_other io k k' s x r :
  opens_only k s → DurableService.reopen (H := aead_barrier k') io MAX_OPERATIONS (store_of s) = (x, r) →
  k' = k ∨ (x = store_of s ∧ is_ok r = false).
Proof.
  intros Ho. unfold DurableService.reopen. destruct (DurableService.load _ _ _) as [[[d j] g]|e] eqn:El; [|by intros [= <- <-]; right].
  intros _. left. unfold DurableService.load in El. repeat (case_match; simplify_eq/=; try done).
  match goal with E : read_bounded _ snapshot_path = Ok _ |- _ => unfold read_bounded in E end.
  destruct (store_of s !! snapshot_path) as [b|] eqn:Eb; [|done]. simpl in *. case_match; simplify_eq.
  apply (Ho k' _ Eb). match goal with E : decode_snapshot_frame _ = Ok _ |- _ => by rewrite E end.
Qed.

Lemma backed_put_store k h x s :
  is_Some (Service.dir s) → kept (B := aead_barrier k) MAX_OPERATIONS x h → Service.durable s = None →
  backed k h (Service.put_store x s).
Proof. intros [y Hy] Hk Hd. split; [|simpl; by rewrite Hd]. unfold store_of, Service.put_store. simpl. by rewrite Hy. Qed.

(** Activating a barrier: the files stay of the same history, and the store opens under the right key only. *)
Lemma activate_backed w key k h s :
  Service.ha s = false → backed k h s → opens_only k s → backed k h (activate_barrier w key s).1.
Proof.
  intros Hha [Hkept Hopen] Ho. unfold activate_barrier.
  assert (Hdet : backed k h (Service.detach s)) by by split.
  destruct (unbound_key key) as [k'|]; [|done]. cbn [Service.dir Service.detach].
  destruct (Service.dir s) as [y|] eqn:Ey; [|done].
  assert (Est : Dir.store y = store_of s) by (unfold store_of; by rewrite Ey). rewrite Est.
  destruct (DurableService.reopen _ _ _) as [x [d|e]] eqn:Er; (destruct (reopen_other _ _ _ _ _ _ Ho Er) as [->|[-> Hf]];
    try discriminate Hf).
  - destruct Hkept as [used Hh]. destruct (reopen_any (B := aead_barrier k) MAX_OPERATIONS capacity_ok _ _ _ _ _ _ Hh Er) as [Hrun Hx].
    assert (Hput : backed k h (Service.put_store x (Service.detach s))).
    { apply backed_put_store; [simpl; rewrite Ey; by eexists|rewrite <-Hx; by apply running_kept|done]. }
    cbn [Service.ha Service.put_store Service.set_dir Service.detach]. rewrite Hha.
    destruct (stored_state d) as [state|]; [|done]. simpl. destruct Hput as [Hk _]. split; [done|]. simpl.
    intros k' d' [= <- <-]. split; [done|by left].
  - destruct Hkept as [used Hh]. destruct (reopen_any (B := aead_barrier k) MAX_OPERATIONS capacity_ok _ _ _ _ _ _ Hh Er) as [Hh' _].
    apply backed_put_store; [simpl; rewrite Ey; by eexists|by exists used|done].
  - apply backed_put_store; [simpl; rewrite Ey; by eexists|done|done].
Qed.

Lemma unseal_backed w body k h s :
  Service.ha s = false → backed k h s → opens_only k s → backed k h (unseal w body s).1.
Proof.
  intros Hha Hb Ho. unfold unseal. destruct (_ && _); [done|]. destruct (negb (Service.initialized s)); [done|].
  destruct (Json.as_object body); [|done]. destruct (negb _); [done|].
  destruct (flag body "migrate" false) as [[|]|]; [done| |done].
  destruct (flag body "reset" false) as [[|]|]; [| |done].
  { destruct (bool_decide _); [done|]. assert (Hs : backed k h (Service.set_shares ∅ s)) by (by destruct Hb).
    apply (idle_backed (rotate_unseal_nonce w)) in Hs. by destruct (rotate_unseal_nonce w _) as [s2 [|]]. }
  destruct (negb (World.private_dir w)); [done|]. destruct (_ ≫= _) as [encoded|]; [|done].
  destruct (Service.seal s) as [seal|].
  - unfold unseal_share. destruct (collect_seal_key _ _ _ _) as [shares r].
    assert (Hs : ∀ x, backed k h (Service.set_shares x s)) by (intros x; by destruct Hb).
    assert (Hf : ∀ s, backed k h s → backed k h (forget_shares w s)).
    { intros s0 Hs0. unfold forget_shares. apply (idle_backed (rotate_unseal_nonce w)). by destruct Hs0. }
    destruct r as [[seal_key|]|]; [|apply Hs..]. destruct (b64_decode _) as [wrapped|]; [|apply Hs].
    destruct (unwrap_barrier_key _ _ _) as [key|]; [|apply Hf, Hs].
    pose proof (activate_backed w key k h (Service.set_shares shares s) Hha (Hs shares) Ho) as Ha.
    destruct (activate_barrier w key _) as [s1 [[]|]]; simpl in Ha; [|by apply Hf].
    assert (Hs1 : backed k h (Service.set_shares ∅ s1)) by (by destruct Ha).
    apply (idle_backed (rotate_unseal_nonce w)) in Hs1. destruct (rotate_unseal_nonce w _) as [s2 [|]]; [done|]. by destruct Hs1.
  - unfold unseal_legacy. destruct (decode_key_material encoded) as [decoded|]; [|done]. cbn [map_err].
    destruct (length decoded =? 32); [|done].
    pose proof (activate_backed w decoded k h s Hha Hb Ho) as Ha.
    destruct (activate_barrier w decoded s) as [s1 [[]|]]; simpl in Ha; [|done].
    destruct (wrap_barrier_key _ _ _ _) as [wrapped|]; [|by destruct Ha].
    match goal with |- context [persist_seal_metadata w ?x s1] => apply (idle_backed (persist_seal_metadata w x)) in Ha end.
    destruct (persist_seal_metadata _ _ s1) as [s2 [[]|]]; by destruct Ha.
Qed.

(** * Committing *)
Definition state_put (operation_id : string) (bytes : list u8) : PutRequest :=
  PutRequest.mk "heptabao-server" "system" operation_id "state" (sha256 bytes) bytes.

(** The hashes of this write do not collide with those in the files. *)
Definition distinct_put (operation_id : string) (bytes : list u8) s : Prop :=
  ∀ k d, Service.durable s = Some (k, d) →
    no_collision (B := aead_barrier k) d (DurableService.put_binding (state_put operation_id bytes)) (Some bytes) = true.

(** The history went on by changes of the state, to bytes the predicate allows. *)
Definition writes (P : list u8 → Prop) (c : Change) : Prop :=
  Change.key c = ("system", "state") ∧ ∃ bytes, Change.value c = Some bytes ∧ P bytes.
Definition moves (P : list u8 → Prop) h h' : Prop := ∃ cs, h' = h ++ cs ∧ Forall (writes P) cs.

Lemma moves_refl P h : moves P h h.
Proof. exists []. by rewrite app_nil_r. Qed.
Lemma moves_trans P h h1 h2 : moves P h h1 → moves P h1 h2 → moves P h h2.
Proof. intros (c1 & -> & H1) (c2 & -> & H2). exists (c1 ++ c2). by rewrite app_assoc, Forall_app. Qed.

Lemma persist_local_backed (P : list u8 → Prop) io bytes op k h s :
  backed k h s → distinct_put op bytes s → P bytes → ∃ h', backed k h' (persist_local io bytes op s).1 ∧ moves P h h'.
Proof.
  intros Hb Hd HP. assert (Hsame : ∃ h', backed k h' s ∧ moves P h h') by (exists h; auto using moves_refl).
  unfold persist_local. destruct (Secret_new bytes) as [value|] eqn:Ev; [|done].
  assert (value = bytes) as ->. { unfold Secret_new in Ev. destruct bytes; [done|]. case_match; congruence. }
  destruct (PutRequest.new _ _ _ _ _ _) as [request|] eqn:Er; [|done].
  assert (request = state_put op bytes) as ->. { unfold PutRequest.new in Er. case_match; by simplify_eq. }
  destruct (Service.durable s) as [[k' d]|] eqn:Ed; [|done]. destruct (bk_open _ _ _ Hb k' d Ed) as [-> Hc].
  destruct (DurableService.put io _ d) as [d' r] eqn:Ep.
  assert (Hput : ∀ h' b, consistent (B := aead_barrier k) MAX_OPERATIONS (Up d') h' →
    backed k h' (Service.put_durable k d' s) ∧ backed k h' (Service.set_recovery b (Service.put_durable k d' s))).
  { intros h' b Hc'. split; (split; [apply (consistent_kept MAX_OPERATIONS (Up d') h' Hc')|by intros k' d0 [= <- <-]]). }
  assert (Hany : ∃ h', consistent (B := aead_barrier k) MAX_OPERATIONS (Up d') h' ∧ moves P h h').
  { destruct (put_consistent (B := aead_barrier k) MAX_OPERATIONS capacity_ok io (state_put op bytes) d h d' r Hc) as [[Hc' _]|Hc'].
    - simpl. by rewrite Ev.
    - by apply (Hd k d).
    - done.
    - exists h. auto using moves_refl.
    - eexists. split; [exact Hc'|]. eexists. split; [done|]. repeat constructor. by exists bytes. }
  destruct Hany as (h' & Hc' & Hm). exists h'. split; [|done].
  destruct (Hput h' true Hc') as [? ?]. by destruct r as [|[]].
Qed.

Lemma commit_bytes_backed (P : list u8 → Prop) w op io bytes k h s :
  Service.ha s = false → backed k h s → (∀ id, op = Some id → distinct_put (hex id) bytes s) → P bytes →
  ∃ h', backed k h' (commit_state_bytes w op io bytes s).1 ∧ moves P h h'.
Proof.
  intros Hha Hb Hd HP. assert (Hsame : ∃ h', backed k h' s ∧ moves P h h') by (exists h; auto using moves_refl).
  unfold commit_state_bytes, mbind, mpure, mfail. destruct (_ <? _)%N; [done|]. destruct (current_state_digest s); [|done].
  unfold persist. destruct op as [id|]; [|done]. rewrite Hha.
  destruct (persist_local_backed P io bytes (hex id) k h s Hb (Hd id eq_refl) HP) as (h' & Hb' & Hm).
  destruct (persist_local _ _ _ s) as [s1 [[]|e]]; simpl in *; [by eauto|]. exists h'. split; [|done].
  by destruct (Service.ha s1), Hb'.
Qed.

(** ** One request *)

(** The state a request is served from: that of the server, its token used. *)
Inductive admission (token : string) (now : N) (state : State Transit Totp) : State Transit Totp → option Principal → Prop :=
| anonymous : token = "" → admission token now state state None
| authenticated auth principal :
    AuthState.authenticate token now (State.auth state) = (auth, Ok principal) →
    admission token now state (State.set_auth auth state) (Some principal).

(** What the request may write: the state with the token used, and what the dispatch makes of it. *)
Definition candidate w (r : RequestDispatch) s (bytes : list u8) : Prop :=
  Service.recovery_required s = false ∧
  ∃ state admitted principal, Service.state s = Some state ∧
    admission (RequestDispatch.token r) (RequestDispatch.now r) state admitted principal ∧
    (to_vec admitted = Some bytes ∨
     to_vec (dispatch w admitted principal (RequestDispatch.namespace r) (RequestDispatch.method r) (RequestDispatch.path r)
               (RequestDispatch.body r) (RequestDispatch.now r)).1 = Some bytes).

Lemma admit_backed w r k h s s' res :
  Service.ha s = false → Service.recovery_required s = false → backed k h s →
  (∀ id bytes, World.use_operation w = Some id → candidate w r s bytes → distinct_put (hex id) bytes s) →
  admit_token w (RequestDispatch.token r) (RequestDispatch.now r) s = (s', res) →
  ∃ h', backed k h' s' ∧ moves (candidate w r s) h h' ∧
    ∀ admitted principal, res = Ok (admitted, principal) →
      ∃ state, Service.state s = Some state ∧ admission (RequestDispatch.token r) (RequestDispatch.now r) state admitted principal.
Proof.
  intros Hha Hrq Hb Hd. unfold admit_token. pose proof (moves_refl (candidate w r s) h) as Hrefl.
  destruct (Service.state s) as [state|] eqn:Est; [|intros [= <- <-]; by exists h].
  case_bool_decide as Et.
  { intros [= <- <-]. exists h. split_and!; [done|done|]. intros ? ? [= <- <-]. exists state. split; [done|by constructor]. }
  destruct (AuthState.authenticate _ _ _) as [auth [principal|]] eqn:Ea.
  2:{ intros [= <- <-]. by exists h. }
  assert (Hadm : admission (RequestDispatch.token r) (RequestDispatch.now r) state (State.set_auth auth state) (Some principal))
    by by constructor.
  destruct (Principal.consumed_use principal).
  2:{ intros [= <- <-]. exists h. split_and!; [done|done|]. intros ? ? [= <- <-]. eauto. }
  unfold commit_state, mbind, mpure. destruct (to_vec _) as [bytes|] eqn:Ev; cbn [ok_or].
  2:{ intros [= <- <-]. by exists h. }
  assert (Hcand : candidate w r s bytes) by (split; [done|]; eexists _, _, _; eauto).
  destruct (commit_bytes_backed (candidate w r s) w (World.use_operation w) (World.io_use w) bytes k h s Hha Hb) as (h' & Hb' & Hm);
    [by eauto|done|].
  destruct (commit_state_bytes _ _ _ _ s) as [s1 [[]|e]]; simpl in Hb'; intros [= <- <-].
  - exists h'. split_and!; [by destruct Hb'|done|]. intros ? ? [= <- <-]. eauto.
  - by exists h'.
Qed.

Lemma serve_backed w r admitted principal (P : list u8 → Prop) k h s :
  Service.ha s = false → backed k h s →
  (∀ bytes, to_vec (dispatch w admitted principal (RequestDispatch.namespace r) (RequestDispatch.method r) (RequestDispatch.path r)
                      (RequestDispatch.body r) (RequestDispatch.now r)).1 = Some bytes →
     P bytes ∧ ∀ id, World.operation w = Some id → distinct_put (hex id) bytes s) →
  ∃ h', backed k h' (serve w admitted principal (RequestDispatch.namespace r) (RequestDispatch.method r) (RequestDispatch.path r)
                       (RequestDispatch.body r) (RequestDispatch.now r) s).1 ∧ moves P h h'.
Proof.
  intros Hha Hb HP. assert (Hsame : ∃ h', backed k h' s ∧ moves P h h') by (exists h; auto using moves_refl).
  unfold serve. destruct (to_vec admitted) as [before|]; [|done].
  destruct (dispatch _ _ _ _ _ _ _ _) as [state response]. simpl in HP.
  destruct (to_vec state) as [bytes|]; [|done]. destruct (bool_decide (bytes = before)); [done|].
  destruct (HP bytes eq_refl) as [HPb Hd].
  destruct (commit_bytes_backed P w (World.operation w) (World.io_commit w) bytes k h s Hha Hb Hd HPb) as (h' & Hb' & Hm).
  exists h'. split; [|done]. destruct (commit_state_bytes _ _ _ _ s) as [s1 [[]|e]]; by destruct Hb'.
Qed.

Lemma maintenance_backed w r k h s :
  backed k h s → restores r = false →
  backed k h (maintenance_route w (RequestDispatch.method r) (RequestDispatch.path r) (RequestDispatch.body r) s).1.
Proof.
  intros Hb Hr. unfold maintenance_route. destruct (strip_prefix _ _); [done|].
  destruct (bool_decide (_ = "sys/storage/raft/compact")).
  - unfold compact_route. destruct (negb _); [done|]. destruct (negb _); [done|]. destruct (negb _); [done|].
    destruct (Service.durable s) as [[k' d]|] eqn:Ed; [|done]. destruct (bk_open _ _ _ Hb k' d Ed) as [-> Hc].
    pose proof (compact_consistent (B := aead_barrier k) MAX_OPERATIONS capacity_ok (World.io_compact w) d h Hc) as Hc'.
    destruct (DurableService.compact _ d) as [d' res]. simpl in Hc'.
    assert (Hb' : backed k h (Service.put_durable k d' s)).
    { split; [exact (consistent_kept MAX_OPERATIONS (Up d') h Hc')|by intros k' d0 [= <- <-]]. }
    destruct res; destruct (DurableService.recovery_required d'); simpl; try done; by destruct Hb'.
  - unfold restores in Hr. destruct (bool_decide (_ = "sys/storage/raft/snapshot") && _); [done|].
    cbn [negb] in Hr. rewrite andb_true_r in Hr. by rewrite Hr.
Qed.

(** The drawn identifiers and the digests of the request are new, and no other key opens the snapshot. *)
Record calm k w (r : RequestDispatch) s : Prop := {
  ca_ids : fresh_ids w s;
  ca_key : opens_only k s;
  ca_use id bytes : World.use_operation w = Some id → candidate w r s bytes → distinct_put (hex id) bytes s;
  ca_commit a id bytes : World.operation w = Some id → candidate w r s bytes →
    distinct_put (hex id) bytes (admit_token w (RequestDispatch.token r) (RequestDispatch.now r) (Service.set_audit a s)).1;
}.

Lemma route_backed w r admitted principal (P : list u8 → Prop) k h s :
  Service.ha s = false → backed k h s → restores r = false →
  (∀ bytes, to_vec (dispatch w admitted principal (RequestDispatch.namespace r) (RequestDispatch.method r) (RequestDispatch.path r)
                      (RequestDispatch.body r) (RequestDispatch.now r)).1 = Some bytes →
     P bytes ∧ ∀ id, World.operation w = Some id → distinct_put (hex id) bytes s) →
  ∃ h', backed k h' (route w r admitted principal s).1 ∧ moves P h h'.
Proof.
  intros Hha Hb Hr HP. pose proof (maintenance_backed w r k h s Hb Hr) as Hm. pose proof (serve_backed w r admitted principal P k h s Hha Hb HP) as Hs.
  assert (Hsame : ∀ s', backed k h s' → ∃ h', backed k h' s' ∧ moves P h h') by (intros; exists h; auto using moves_refl).
  destruct r as [method path namespace token body now forward]. simpl in Hm, Hs. unfold route.
  destruct (bool_decide (path = "sys/leader") && _); [by apply Hsame|].
  destruct (bool_decide (path = "sys/init/ack")); [destruct (_ || _); apply Hsame; [done|by apply (idle_backed (ack_initialization w method body))]|].
  destruct (bool_decide (path ∈ ["sys/rekey/init"; "sys/rekey/update"]));
    [destruct (negb _); apply Hsame; [done|by apply (idle_backed (rekey_route w method path body))]|].
  destruct (has_prefix _ _ || _); [destruct (negb _); apply Hsame; done|].
  destruct (_ && _); [destruct (negb _); apply Hsame; [done|by apply (idle_backed (seal_server w))]|]. exact Hs.
Qed.

Lemma inner_backed w r k h s :
  sound s → backed k h s → fresh_ids w s → opens_only k s → restores r = false →
  (∀ id bytes, World.use_operation w = Some id → candidate w r s bytes → distinct_put (hex id) bytes s) →
  (∀ id bytes, World.operation w = Some id → candidate w r s bytes →
     distinct_put (hex id) bytes (admit_token w (RequestDispatch.token r) (RequestDispatch.now r) s).1) →
  ∃ h', backed k h' (handle_inner w r s).1 ∧ moves (candidate w r s) h h'.
Proof.
  intros Hs Hb Hf Ho Hr Huse Hcommit.
  pose proof (λ s' res Hrq, admit_backed w r k h s s' res (so_single s Hs) Hrq Hb Huse) as Hadmit.
  pose proof (λ adm pr, route_backed w r adm pr (candidate w r s)) as Hroute.
  assert (Hsame : ∀ s', backed k h s' → ∃ h', backed k h' s' ∧ moves (candidate w r s) h h') by (intros; exists h; auto using moves_refl).
  unfold handle_inner. destruct r as [method path namespace token body now forward].
  set (r := RequestDispatch.mk _ _ _ _ _ _ _) in *. 
  destruct (_ || _); [by apply Hsame|]. destruct (_ && _); [by apply Hsame|]. destruct (_ && _); [by apply Hsame|].
  destruct (_ && _); [by apply Hsame|].
  destruct (_ && _); [apply Hsame, unseal_backed; [apply (so_single s Hs)|done|done]|]. case_bool_decide; [by apply Hsame|].
  unfold mbind, cluster_gate. rewrite (so_single s Hs). cbn [negb]. destruct (Service.recovery_required s) eqn:Hrq; [by apply Hsame|].
  destruct (admit_token w token now s) as [s1 r1] eqn:Ea.
  destruct (Hadmit s1 r1 eq_refl Ea) as (h1 & Hb1 & Hm1 & Hadm). destruct (admit_spec _ _ _ _ _ _ Hs Hf Ea) as [Hs1 _].
  destruct r1 as [[admitted principal]|]; [|by eauto]. destruct (Hadm admitted principal eq_refl) as (state & Hst & Hadm').
  change (admit_token w _ _ s) with (admit_token w token now s) in Hcommit. rewrite Ea in Hcommit.
  destruct (Hroute admitted principal k h1 s1 (so_single s1 Hs1) Hb1 Hr) as (h2 & Hb2 & Hm2).
  - intros bytes Hv. assert (Hc : candidate w r s bytes) by (split; [done|]; exists state, admitted, principal; auto).
    split; [done|]. intros id Hid. by apply Hcommit.
  - exists h2. split; [done|]. by eapply moves_trans.
Qed.

Lemma handle_backed w r k h s :
  sound s → backed k h s → calm k w r s → initializes r = false → restores r = false →
  ∃ h', backed k h' (handle_at_mode w r s).1 ∧ moves (candidate w r s) h h'.
Proof.
  intros Hs Hb [Hids Hkey Huse Hcommit] Hi Hr. unfold handle_at_mode.
  pose proof (λ a, inner_backed w r k h (Service.set_audit a s)) as Hinner.
  destruct r as [method path namespace token body now forward] eqn:Er. unfold initializes in Hi. cbn [RequestDispatch.path RequestDispatch.method] in Hi.
  set (fp := request_fingerprint _ _ _ _ _). unfold audited at 1. destruct (audit_event _ _ _ _ (Service.audit s)) as [a [[]|]]; simpl is_ok; cbv iota.
  2:{ exists h. split; [by destruct Hb|apply moves_refl]. }
  rewrite Hi. destruct (Hinner a) as (h' & Hb' & Hm).
  - apply (sound_set_audit a s Hs).
  - by destruct Hb.
  - by destruct Hids.
  - done.
  - done.
  - done.
  - intros id bytes. apply Hcommit.
  - exists h'. split; [|done]. unfold respond. destruct (handle_inner _ _ _) as [s2 res]. simpl in Hb'.
    destruct res as [response|response]; unfold audited; destruct (audit_event _ _ _ _ _) as [a2 [[]|]]; simpl; by destruct Hb'.
Qed.
End server.
