(* ===== verification/ServerToy.v ===== *)
(** A small instance of the libraries the server uses, and an installation. *)
From Stdlib Require Import Ascii NArith Strings.Byte.
From S2P Require Import Prelude Str Json Gf256 Shamir Bytes Base32 Engine Kv2 EngineState Totp TotpSpec Acl AclParse AuthState AuthLogin AuthSpec Federated DurableCodec DurableCodecSpec Durable DurableTheorems Seal AuditChain AuditChainSpec AuditRotation AuditRotationSpec AuditToy AuditTheorems ServerBase ServerSeal ServerRekey ServerInit Server ServerSpec ServerStore.

(** * Equality of states *)
#[local] Instance AuthToken_eq_dec : EqDecision AuthToken.
Proof. solve_decision. Defined.
#[local] Instance TotpEnrollment_eq_dec : EqDecision TotpEnrollment.
Proof. solve_decision. Defined.
#[local] Instance User_eq_dec : EqDecision User.
Proof. solve_decision. Defined.
#[local] Instance SecretId_eq_dec : EqDecision SecretId.
Proof. solve_decision. Defined.
#[local] Instance Role_eq_dec : EqDecision AuthState.Role.
Proof. solve_decision. Defined.
#[local] Instance AclRule_eq_dec : EqDecision Acl.Rule.
Proof. solve_decision. Defined.
#[local] Instance AclPolicy_eq_dec : EqDecision AclPolicy.
Proof. solve_decision. Defined.
#[local] Instance ExternalIdentity_eq_dec : EqDecision ExternalIdentity.
Proof. solve_decision. Defined.
#[local] Instance JwtMountState_eq_dec : EqDecision JwtMountState.
Proof. solve_decision. Defined.
#[local] Instance AuthState_eq_dec : EqDecision AuthState.
Proof. solve_decision. Defined.
#[local] Instance KvConfig_eq_dec : EqDecision Config.
Proof. solve_decision. Defined.
#[local] Instance KvVersion_eq_dec : EqDecision Version.
Proof. solve_decision. Defined.
#[local] Instance KvEntry_eq_dec : EqDecision Entry.
Proof. solve_decision. Defined.
#[local] Instance Kv2_eq_dec : EqDecision Kv2.
Proof. solve_decision. Defined.
#[local] Instance Backend_eq_dec : EqDecision (@Backend unit unit).
Proof. solve_decision. Defined.
#[local] Instance Mount_eq_dec : EqDecision (@Mount unit unit).
Proof. solve_decision. Defined.
#[export] Instance State_eq_dec : EqDecision (State unit unit).
Proof. solve_decision. Defined.

(** * Libraries *)
Module ServerToy.
Import Codec.
#[export] Existing Instance AuthDemo.crypto.
#[export] Existing Instance AuthDemo.federated.
#[export] Existing Instance AuthDemo.json.

(** A cipher whose tag is the key. *)
#[export] Instance cipher : Aead := {|
  Shamir.Key := u8;
  unbound_key k := if length k =? 32 then head k else None;
  seal_in_place_append_tag k n a p := Some (p ++ repeat k 16);
  open_in_place k n a c :=
    if bool_decide (drop (length c - 16) c = repeat k 16) then Some (take (length c - 16) c) else None;
|}.
#[export] Instance cipher_laws : AeadLaws cipher.
Proof.
  split; intros k n a p c E; cbn [seal_in_place_append_tag open_in_place cipher] in *; apply (inj Some) in E as <-;
    rewrite length_app; change (length (repeat k 16)) with 16; [|done].
  rewrite Nat.add_sub, drop_app_length, bool_decide_true by done. f_equal. apply take_app_length.
Qed.
#[export] Instance cipher_total : AeadTotal cipher.
Proof. intros k n a p _ _. simpl. by eexists. Qed.

Lemma cipher_key k k' n a c m m' : open_in_place k n a c = Some m → open_in_place k' n a c = Some m' → k' = k.
Proof. simpl. intros H1 H2. do 2 (case_bool_decide; [|done]). assert (E : repeat k' 16 = repeat k 16) by congruence. by injection E. Qed.

Lemma snapshot_key k k' b :
  is_ok (decode_snapshot_frame (H := aead_barrier k) b) = true → is_ok (decode_snapshot_frame (H := aead_barrier k') b) = true → k' = k.
Proof.
  unfold decode_snapshot_frame. case_bool_decide; [done|]. destruct (open_file _ _ b) as [[g protected]|]; [|done].
  cbn [DurableCodec.open aead_barrier]. unfold barrier_open. destruct (_ || _); [done|].
  destruct (open_in_place k _ _ _) as [m|] eqn:E1; [|done]. destruct (open_in_place k' _ _ _) as [m'|] eqn:E2; [|done].
  intros _ _. by eapply cipher_key.
Qed.

Lemma opens_only_toy {Transit Totp} k (s : Service Shamir.Key Transit Totp) :
  match store_of s !! snapshot_path with Some b => is_ok (decode_snapshot_frame (H := aead_barrier k) b) | None => true end = true →
  opens_only k s.
Proof. intros H k' b Hb. rewrite Hb in H. by apply snapshot_key. Qed.

(** The files of the seal, field by field. *)
Definition byte : Codec u8.
Proof. refine (along U8.to_N U8.wrap _ number). by intros []. Defined.
Definition seal_codec : Codec SealMetadata :=
  along (λ s, (SealMetadata.schema s, (SealMetadata.generation s, (SealMetadata.share_format s,
      (SealMetadata.secret_shares s, (SealMetadata.secret_threshold s, SealMetadata.wrapped_barrier_key s))))))
    (λ p, SealMetadata.mk p.1 p.2.1 p.2.2.1 p.2.2.2.1 p.2.2.2.2.1 p.2.2.2.2.2) ltac:(by intros [])
    (pair number (pair number (pair text (pair byte (pair byte text))))).
Definition pending_codec : Codec PendingRekeyMetadata :=
  along (λ s, (PendingRekeyMetadata.schema s, (PendingRekeyMetadata.active_generation s, (PendingRekeyMetadata.nonce s,
      (PendingRekeyMetadata.verification_nonce s, PendingRekeyMetadata.candidate s)))))
    (λ p, PendingRekeyMetadata.mk p.1 p.2.1 p.2.2.1 p.2.2.2.1 p.2.2.2.2) ltac:(by intros [])
    (pair number (pair number (pair text (pair text seal_codec)))).
#[export] Instance serde_seal : Serde SealMetadata := serde_of seal_codec.
#[export] Instance serde_pending : Serde PendingRekeyMetadata := serde_of pending_codec.
#[export] Instance serde_value : Serde Value := {| to_vec _ := None; from_slice _ := None |}.

(** States of a table, by their position. *)
Fixpoint position {A} `{EqDecision A} (x : A) (table : list A) : option nat :=
  match table with
  | [] => None
  | y :: table => if decide (y = x) then Some 0 else S <$> position x table
  end.
Lemma position_lookup {A} `{EqDecision A} (x : A) table n : position x table = Some n → table !! n = Some x.
Proof.
  revert n. induction table as [|y table IH]; intros n; simpl; [done|]. destruct (decide (y = x)) as [->|]; [by intros [= <-]|].
  destruct (position x table) as [m|]; [|done]. intros [= <-]. by apply IH.
Qed.
Definition table_serde {A} `{EqDecision A} (table : list A) : Serde A := {|
  to_vec x := (λ n, [U8.wrap (N.of_nat n)]) <$> (n ← position x table; if n <? 256 then Some n else None);
  from_slice l := match l with [b] => table !! N.to_nat (U8.to_N b) | _ => None end;
|}.
Lemma table_serde_laws {A} `{EqDecision A} (table : list A) : @SerdeLaws A (table_serde table).
Proof.
  intros x bytes. simpl. destruct (position x table) as [n|] eqn:E; [|done]. simpl. destruct (Nat.ltb_spec n 256); [|done].
  simpl. intros [= <-]. rewrite to_N_wrap by lia. rewrite Nat2N.id. by apply position_lookup.
Qed.
End ServerToy.

(** * An installation *)
Module ServerDemo.
Import ServerToy.
#[export] Instance ops : EngineOps unit := {|
  engine_default := tt;
  engine_contains _ _ := false;
  engine_handle _ _ _ _ _ _ := λ self, (self, Err (EngineError.mk 404 "unsupported path"));
|}.

Definition io : IoTrace := Io.mk (Ok tt) (Ok tt) (Ok tt) (λ _, Done) (λ n, Some (repeat (U8.wrap (N.of_nat n)) 12)).
Definition alone : HaView :=
  HaView.mk (Err HaLock) (Err HaLock) (Err HaLock) (Err HaLock) false (λ _ _ _, Err None) (Err HaLock) false (Err HaLock).

(** A request whose calls work, with these identifiers, and this fate of the second write of its commit. *)
Definition world (id use : u8) (commit : IoTrace) : World unit unit :=
  World.mk _ _ ops ops (AuthDemo.rng "root") (Some [x01]) (Some (repeat x41 32)) (Some (repeat x42 32)) ShamirDemo.rand
    (Some (repeat x00 12)) (Some (repeat x00 12)) (Some [x63]) (Some [id]) (Some [use]) (Some [x02]) (Some [x03]) (Some [x04])
    true true true Done Done Done Done Done Done true io io io io io commit io io io alone.

(** The first state, and the state after a policy was stored. *)
Definition first : State unit unit := State.mk 1 (b64_encode [x63]) AuthDemo.installed ∅.
Definition policy : Value := Json.object [("policy", VString AuthDemo.source)].
Definition second : State unit unit :=
  (dispatch (world x0a x0b io) first (Principal.mk "hvs.root" <$> AuthState.tokens AuthDemo.installed !! "hvs.root") "" "POST"
     "sys/policies/acl/dev" policy 11).1.
#[export] Instance serde_state : Serde (State unit unit) := table_serde [first; second].
#[export] Instance serde_state_laws : SerdeLaws (State unit unit) := table_serde_laws [first; second].

Definition boot : Boot :=
  Boot.mk true (Ok false) true "audit.log" AuditDemo.config [] (Some AuditDemo.a_key) Done (Some [x05]).
Notation Server := (Service Shamir.Key unit unit).
Definition blank : Server := Service.mk None AuditDemo.blank None None None ∅ "" None None false false.
Definition started : Server := Eval vm_compute in
  match start boot false None (AuditFiles.mk None ∅) with (_, _, Ok s) => s | _ => blank end.

Definition request (method path token : string) (body : Value) : RequestDispatch :=
  RequestDispatch.mk method path "" token body 11 true.
Definition init_request : RequestDispatch :=
  RequestDispatch.mk "POST" "sys/init" "" "" (Json.object [("secret_shares", Json.u64 2); ("secret_threshold", Json.u64 2)]) 10 true.
Definition initialized : Server := Eval vm_compute in (handle_at_mode (world x01 x02 io) init_request started).1.
Definition plan : option Plan :=
  match prepare_init (world x01 x02 io) 10 x02 x02 with Ok plan => Some plan | Err _ => None end.
Definition shares : list SecretShare := Eval vm_compute in default [] (pl_shares <$> plan).
Definition share (i : nat) : SecretShare := default (SecretShare.mk x00 x00 x00 []) (shares !! i).
Definition unseal_request (sh : SecretShare) : RequestDispatch :=
  request "POST" "sys/unseal" "" (Json.object [("key", VString (hex (encode sha256 sh)))]).
Definition half : Server := Eval vm_compute in
  (handle_at_mode (world x03 x04 io) (unseal_request (share 1)) initialized).1.
Definition opened : Server := Eval vm_compute in
  (handle_at_mode (world x03 x04 io) (unseal_request (share 0)) half).1.
Definition write_request : RequestDispatch := request "POST" "sys/policies/acl/dev" "hvs.root" policy.
End ServerDemo.
