(* ===== verification/ServerAudit.v ===== *)
(** What the running server records of a request, and what it does when it cannot. *)
From Stdlib Require Import Ascii NArith Strings.Byte.
From S2P Require Import Prelude Str Json Gf256 Shamir Bytes Base32 Engine EngineState Totp Acl AclParse AuthState AuthLogin Federated DurableCodec DurableCodecSpec Durable DurableSpec Seal AuditChain AuditChainSpec AuditRotation AuditRotationSpec AuditTheorems ServerBase ServerSeal ServerRekey ServerInit Server ServerSpec.

Section quiet.
Context `{A : Aead, Sh : Sha256, HM : Hmac, B64 : Base64, AC : AuthCrypto, JT : JsonText, FC : FederatedCrypto}.
Context `{S1 : Serde SealMetadata, S2 : Serde PendingRekeyMetadata, S3 : Serde Value}.
Context `{S4 : Serde AuditUnsigned, S5 : Serde AuditRecord, S6 : Serde Manifest, S7 : Serde SignedManifest}.
Context {Transit Totp : Type} `{S8 : Serde (State Transit Totp)}.
Notation S := (Service Shamir.Key Transit Totp).
Notation W := (World Transit Totp).
Implicit Types (s : S) (w : W).

(** A handler that records nothing. *)
Class Quiet {R} (m : S → S * R) : Prop := quiet s : Service.audit (m s).1 = Service.audit s.

(** Follow every branch; a call to another handler is quiet by its instance. *)
Ltac quiet_step :=
  match goal with
  | |- Service.audit (?m ?s).1 = _ => rewrite (quiet (m := m) s)
  | |- context [match ?m ?s with (_, _) => _ end] =>
      let Hq := fresh "Hq" in pose proof (quiet (m := m) s) as Hq; destruct (m s) as [? ?]; simpl in Hq
  | |- context [match ?x with _ => _ end] => destruct x
  | |- context [if ?x then _ else _] => destruct x
  end.
Ltac quiet_solve := intros ?; cbv beta; repeat (quiet_step; simpl; try congruence); try done; congruence.

#[local] Instance quiet_bind {E X Y} (m : M S E X) (k : X → M S E Y) : Quiet m → (∀ x, Quiet (k x)) → Quiet (mbind m k).
Proof. intros Hm Hk s. unfold mbind. specialize (Hm s). destruct (m s) as [s1 [x|e]]; simpl in *; [|done]. by rewrite (Hk x s1). Qed.
#[local] Instance quiet_pure {E X} (f : S → Result X E) : Quiet (mpure f).
Proof. done. Qed.
#[local] Instance quiet_fail {E X} (e : E) : Quiet (mfail e : M S E X).
Proof. done. Qed.

#[local] Instance quiet_persist_local io bytes op : Quiet (persist_local (Transit := Transit) (Totp := Totp) io bytes op).
Proof. unfold persist_local. quiet_solve. Qed.
#[local] Instance quiet_persist w op io bytes digest : Quiet (persist w op io bytes digest).
Proof. unfold persist. quiet_solve. Qed.
#[local] Instance quiet_commit_bytes w op io bytes : Quiet (commit_state_bytes w op io bytes).
Proof. unfold commit_state_bytes. destruct (_ <? _)%N; apply _. Qed.
#[local] Instance quiet_commit w op io state : Quiet (commit_state w op io state).
Proof. unfold commit_state. apply _. Qed.
#[local] Instance quiet_refresh : Quiet (refresh_state_from_durable (Transit := Transit) (Totp := Totp)).
Proof. unfold refresh_state_from_durable. quiet_solve. Qed.
#[local] Instance quiet_sync w : Quiet (sync_from_ha w).
Proof. unfold sync_from_ha. quiet_solve. Qed.
#[local] Instance quiet_rotate w : Quiet (rotate_unseal_nonce w).
Proof. unfold rotate_unseal_nonce. quiet_solve. Qed.
#[local] Instance quiet_activate w key : Quiet (activate_barrier w key).
Proof. unfold activate_barrier. quiet_solve. Qed.
#[local] Instance quiet_persist_seal w seal : Quiet (persist_seal_metadata w seal).
Proof. unfold persist_seal_metadata. quiet_solve. Qed.
#[local] Instance quiet_persist_pending w pending : Quiet (persist_pending_rekey w pending).
Proof. unfold persist_pending_rekey. quiet_solve. Qed.
#[local] Instance quiet_delete_pending w : Quiet (delete_pending_rekey w).
Proof. unfold delete_pending_rekey. quiet_solve. Qed.
#[local] Instance quiet_unseal_legacy w encoded : Quiet (unseal_legacy w encoded).
Proof. unfold unseal_legacy. quiet_solve. Qed.
#[local] Instance quiet_unseal_share w seal encoded : Quiet (unseal_share w seal encoded).
Proof. unfold unseal_share, forget_shares. quiet_solve. Qed.
#[local] Instance quiet_unseal w body : Quiet (unseal w body).
Proof. unfold unseal. quiet_solve. Qed.
#[local] Instance quiet_seal_server w : Quiet (seal_server w).
Proof. unfold seal_server. quiet_solve. Qed.
#[local] Instance quiet_keep rekey r : Quiet (keep (Transit := Transit) (Totp := Totp) rekey r).
Proof. done. Qed.
#[local] Instance quiet_verify_rekey w rekey nonce key : Quiet (verify_rekey_share w rekey nonce key).
Proof. unfold verify_rekey_share. quiet_solve. Qed.
#[local] Instance quiet_publish_rekey w rekey seal next shares : Quiet (publish_rekey w rekey seal next shares).
Proof. unfold publish_rekey. quiet_solve. Qed.
#[local] Instance quiet_rekey_share w rekey nonce key : Quiet (rekey_share w rekey nonce key).
Proof. unfold rekey_share. quiet_solve. Qed.
#[local] Instance quiet_rekey_start w body : Quiet (rekey_start w body).
Proof. unfold rekey_start. quiet_solve. Qed.
#[local] Instance quiet_rekey_cancel w : Quiet (rekey_cancel w).
Proof. unfold rekey_cancel. quiet_solve. Qed.
#[local] Instance quiet_rekey_route w method path body : Quiet (rekey_route w method path body).
Proof. unfold rekey_route. quiet_solve. Qed.
#[local] Instance quiet_ack w method body : Quiet (ack_initialization w method body).
Proof. unfold ack_initialization. quiet_solve. Qed.
#[local] Instance quiet_compact w method body : Quiet (compact_route w method body).
Proof. unfold compact_route. quiet_solve. Qed.
#[local] Instance quiet_restore w method body allow : Quiet (restore_route w method body allow).
Proof. unfold restore_route. quiet_solve. Qed.
#[local] Instance quiet_maintenance w method path body : Quiet (maintenance_route w method path body).
Proof. unfold maintenance_route. quiet_solve. Qed.
#[local] Instance quiet_cluster w allow : Quiet (cluster_gate w allow).
Proof. unfold cluster_gate. quiet_solve. Qed.
#[local] Instance quiet_admit w token now : Quiet (admit_token w token now).
Proof. unfold admit_token. quiet_solve. Qed.
#[local] Instance quiet_serve w admitted principal namespace method path body now : Quiet (serve w admitted principal namespace method path body now).
Proof. unfold serve. quiet_solve. Qed.
#[local] Instance quiet_route w r admitted principal : Quiet (route w r admitted principal).
Proof. unfold route. quiet_solve. Qed.
#[local] Instance quiet_inner w r : Quiet (handle_inner w r).
Proof.
  intros s. unfold handle_inner. destruct r as [method path namespace token body now forward].
  repeat (match goal with |- context [if ?x then _ else _] => destruct x; [try done|] end); [apply quiet|].
  refine (quiet_bind _ _ _ _ s). intros _. apply quiet_bind; [by intros ?|]. intros _. apply quiet_bind; [apply _|].
  intros [admitted principal]. apply _.
Qed.

(** * The record of a request *)
Context `{!HmacLaws, !Sha256Laws Sh, !Base64Laws, !Base64Length, !SerdeLaws AuditUnsigned, !SerdeLaws AuditRecord,
  !LineLaws AuditRecord, !SerdeLaws SignedManifest, !ManifestText}.

(** Kind and status of the events, all with this fingerprint and time. *)
Definition says (fingerprint : string) (now : N) (told : list AuditUnsigned) (shape : list (string * option N)) : Prop :=
  (λ e, (AuditUnsigned.kind e, AuditUnsigned.status e)) <$> told = shape ∧
  Forall (λ e, AuditUnsigned.path_digest e = fingerprint ∧ AuditUnsigned.time e = now) told.

Lemma says_nil fp now : says fp now [] [].
Proof. by split. Qed.

(** Recording: the event is the last of the log, or only the audit has changed. *)
Lemma audited_spec kind fp now status s log told shape :
  ready (Service.audit s) (log ++ told) → says fp now told shape →
  match audited kind fp now status s with
  | (s', true) => ∃ e, ready (Service.audit s') (log ++ told ++ [e]) ∧ says fp now (told ++ [e]) (shape ++ [(kind, status)])
      ∧ s' = Service.set_audit (Service.audit s') s
  | (s', false) => ∃ a, s' = Service.set_audit a s
  end.
Proof.
  intros Hr [Hsh Hall]. unfold audited.
  pose proof (attempt_spec (AuditRequest.mk kind fp now status) (Service.audit s) (log ++ told) Hr) as Ha.
  unfold attempt in Ha. simpl in Ha. destruct (audit_event _ _ _ _ _) as [a [[]|]]; simpl; [|by exists a].
  eexists. rewrite app_assoc. split; [exact Ha|]. split; [|done]. split; [by rewrite fmap_app, Hsh|].
  apply Forall_app. split; [done|]. by repeat constructor.
Qed.

(** What initialization leaves: a recorded response, or no new directory. *)
Lemma initialize_recorded w body now fp s log told shape :
  ready (Service.audit s) (log ++ told) → says fp now told shape →
  match initialize w body now fp s with
  | (s', (response, true)) =>
      (∃ e, ready (Service.audit s') (log ++ told ++ [e])
         ∧ says fp now (told ++ [e]) (shape ++ [("initialization-response-prepared", Some 200%N)]))
      ∨ (Response.status response = 503%N ∧ Service.dir s' = Service.dir s)
  | (s', (response, false)) =>
      Service.dir s' = Service.dir s ∧
      ∃ told' shape', (shape' = shape ∨ shape' = shape ++ [("initialization-response-prepared", Some 200%N)]) ∧
        ready (Service.audit s') (log ++ told') ∧ says fp now told' shape'
  end.
Proof.
  intros Hr Hs. unfold initialize.
  assert (Hsame : Service.dir s = Service.dir s ∧ ∃ told' shape',
    (shape' = shape ∨ shape' = shape ++ [("initialization-response-prepared", Some 200%N)]) ∧
    ready (Service.audit s) (log ++ told') ∧ says fp now told' shape').
  { split; [done|]. exists told, shape. auto. }
  destruct (Service.ha s); [exact Hsame|]. destruct (init_options body) as [[[shares threshold] secret]|]; [|exact Hsame].
  destruct (Service.initialized s); [exact Hsame|].
  match goal with |- context [match ?x with Ok _ => _ | Err _ => _ end] => destruct x as [[[plan answer] dir]|]; [|exact Hsame] end.
  pose proof (audited_spec "initialization-response-prepared" fp now (Some 200%N) s log told shape Hr Hs) as Ha.
  destruct (audited _ _ _ _ s) as [s1 [|]]; [|destruct Ha as [a ->]; by right]. destruct Ha as (e & Ha & Hs1 & Eq).
  unfold publish_stage. rewrite Eq in Ha |- *. cbn [Service.audit Service.set_audit Service.dir] in *.
  destruct (Service.dir s) eqn:Ed; [split; [done|]; eauto 10|].
  destruct (World.publish_fate w) as [|[|n]]; simpl; [left; eauto|split; [done|]; eauto 10|left; eauto].
Qed.

(** The record of a request.  On a server whose audit is in order, a request is
    refused with nothing but the audit changed; or the audit has taken the request and
    the response, in this order, with the status of the response (an initialization
    records its prepared response before it publishes the new directory); or the
    answer is 503 and the server refuses all further work until it is unsealed again,
    or, for an initialization, has published nothing. *)
Lemma answers_recorded w r s log :
  ready (Service.audit s) log →
  let fp := request_fingerprint (Audit.key (Service.audit s)) (RequestDispatch.method r) (RequestDispatch.path r)
              (RequestDispatch.namespace r) (RequestDispatch.token r) in
  let '(s', response) := handle_at_mode w r s in
  (Response.status response = 503%N ∧ ∃ a, s' = Service.set_audit a s)
  ∨ (∃ told shape, ready (Service.audit s') (log ++ told) ∧ says fp (RequestDispatch.now r) told shape ∧
       (shape = [("request", None); ("response", Some (Response.status response))]
        ∨ initializes r = true ∧
          ((shape = [("request", None); ("initialization-response-prepared", Some 200%N)])
           ∨ (shape = [("request", None); ("initialization-response-prepared", Some 200%N);
                      ("response", Some (Response.status response))]))))
  ∨ (Response.status response = 503%N ∧
     (Service.recovery_required s' = true ∨ initializes r = true ∧ Service.dir s' = Service.dir s)).
Proof.
  intros Hr. destruct r as [method path namespace token body now forward]. simpl. unfold handle_at_mode.
  set (fp := request_fingerprint _ _ _ _ _). rewrite <-(app_nil_r log) in Hr.
  pose proof (audited_spec "request" fp now None s log [] [] Hr (says_nil _ _)) as Hreq.
  destruct (audited "request" fp now None s) as [s1 [|]]; [|left; destruct Hreq as [a ->]; eauto].
  destruct Hreq as (e1 & Hr1 & Hs1 & Eq1). simpl in Hs1, Hr1. unfold initializes. simpl. destruct (_ && _) eqn:Einit.
  - match goal with |- context [match ?x with (_, _) => _ end] => assert (Hi : match x with
      | (s', (response, true)) =>
          (∃ e, ready (Service.audit s') (log ++ [e1] ++ [e])
             ∧ says fp now ([e1] ++ [e]) ([("request", None)] ++ [("initialization-response-prepared", Some 200%N)]))
          ∨ (Response.status response = 503%N ∧ Service.dir s' = Service.dir s1)
      | (s', (response, false)) =>
          Service.dir s' = Service.dir s1 ∧
          ∃ told' shape', (shape' = [("request", None)] ∨ shape' = [("request", None)] ++ [("initialization-response-prepared", Some 200%N)]) ∧
            ready (Service.audit s') (log ++ told') ∧ says fp now told' shape'
      end); [|destruct x as [s2 [response [|]]]] end.
    + destruct (_ || _); [simpl; split; [done|]; eauto 10|]. by apply initialize_recorded.
    + simpl. right. destruct Hi as [(e & Ha & Hs)|[Hst Hd]]; [left|right].
      * eexists _, _. split; [exact Ha|]. split; [exact Hs|]. auto.
      * split; [done|]. right. split; [done|]. by rewrite Hd, Eq1.
    + destruct Hi as [Hd (told' & shape' & Hshape & Ha & Hs)].
      pose proof (audited_spec "response" fp now (Some (Response.status response)) s2 log told' shape' Ha Hs) as Hresp.
      destruct (audited _ _ _ _ s2) as [s3 [|]]; right.
      * destruct Hresp as (e2 & Hr2 & Hs2 & _). left. eexists _, _. split; [exact Hr2|]. split; [exact Hs2|].
        destruct Hshape as [->| ->]; auto.
      * destruct Hresp as [a ->]. right. split; [done|]. right. split; [done|]. simpl. by rewrite Hd, Eq1.
  - pose proof (quiet (m := handle_inner w (RequestDispatch.mk method path namespace token body now forward)) s1) as Hq.
    unfold respond. destruct (handle_inner _ _ s1) as [s2 [response|response]]; simpl in Hq;
      pose proof (audited_spec "response" fp now (Some (Response.status response)) s2 log [e1] _ ltac:(by rewrite Hq) Hs1) as Hresp;
      destruct (audited _ _ _ _ s2) as [s3 [|]]; try (destruct Hresp as [a ->]; right; right; by auto);
      destruct Hresp as (e2 & Hr2 & Hs2 & _); right; left; eauto 10.
Qed.

(** The record of a refused connection. *)
Lemma rejection_recorded attempt rejection status message now s log :
  ready (Service.audit s) log →
  let fp := wire_rejection_fingerprint (Audit.key (Service.audit s)) attempt rejection status in
  let '(s', response) := handle_wire_rejection attempt rejection status message now s in
  (Response.status response = 503%N ∧ ∃ a, s' = Service.set_audit a s)
  ∨ (∃ told, ready (Service.audit s') (log ++ told) ∧
       says fp now told [("wire-rejection", None); ("wire-response", Some (Response.status response))])
  ∨ (Response.status response = 503%N ∧ Service.recovery_required s' = true).
Proof.
  intros Hr fp. unfold handle_wire_rejection. fold fp. rewrite <-(app_nil_r log) in Hr.
  pose proof (audited_spec "wire-rejection" fp now None s log [] [] Hr (says_nil _ _)) as Ha1.
  destruct (audited "wire-rejection" fp now None s) as [s1 [|]]; [|left; destruct Ha1 as [a ->]; eauto].
  destruct Ha1 as (e1 & Hr1 & Hs1 & _).
  pose proof (audited_spec "wire-response" fp now (Some status) s1 log [e1] _ Hr1 Hs1) as Ha2.
  destruct (audited "wire-response" fp now (Some status) s1) as [s2 [|]].
  - right. left. destruct Ha2 as (e2 & Hr2 & Hs2 & _). eexists. split; [exact Hr2|]. exact Hs2.
  - right. right. destruct Ha2 as [a ->]. done.
Qed.
End quiet.
