(* ===== verification/HttpServer.v ===== *)
(** One connection of the running server, the worker of [serve_inner] in
    [crates/heptabao-server/src/http.rs]: the rate limit, the request, the service, the
    response; and that nothing is written that the audit did not record.

    The service is behind a mutex, so a connection has it to itself; a mutex poisoned by
    a panic, the TLS session and the socket's deadline have no counterpart here. *)
From Stdlib Require Import Ascii NArith Strings.Byte.
From S2P Require Import Prelude Str Json Gf256 Shamir Bytes Base32 Engine EngineState Totp Acl AclParse AuthState AuthLogin Federated DurableCodec DurableCodecSpec Durable DurableSpec Seal AuditChain AuditChainSpec AuditRotation AuditRotationSpec AuditTheorems ServerBase ServerSeal ServerRekey ServerInit Server ServerSpec ServerAudit RateLimit Http HttpSpec.

Section connection.
Context `{A : Aead, Sh : Sha256, HM : Hmac, B64 : Base64, AC : AuthCrypto, JT : JsonText, FC : FederatedCrypto}.
Context `{S1 : Serde SealMetadata, S2 : Serde PendingRekeyMetadata, S3 : Serde Value}.
Context `{S4 : Serde AuditUnsigned, S5 : Serde AuditRecord, S6 : Serde Manifest, S7 : Serde SignedManifest}.
Context {Transit Totp : Type} `{E1 : EngineOps Transit, E2 : EngineOps Totp, S8 : Serde (State Transit Totp)}.
Notation S := (Service Shamir.Key Transit Totp).
Notation W := (World Transit Totp).
Implicit Types (s : S) (w : W).

(** The request as the service gets it. *)
Definition dispatched (request : Request) (now : N) : RequestDispatch :=
  RequestDispatch.mk (if bool_decide (Request.method request = "HEAD") then "GET" else Request.method request)
    (Request.path request) (Request.namespace request) (Request.token request) (Request.body request) now true.

(** What is sent for a response. *)
Definition written (response : Response) (head : bool) : string :=
  response_bytes (Response.status response) (Response.body response) head.

(** The worker of one connection; [attempt] are its random bytes. *)
Definition serve_connection w (attempt : option (list u8)) (rate_limited : bool) (conn : Conn) (now : N) s :
  S * option string :=
  match attempt with
  | None => (s, None)
  | Some attempt_id =>
      if rate_limited then
        let '(s, response) := handle_wire_rejection attempt_id RateLimited 429 "request rate limit exceeded" now s in
        (s, Some (written response false))
      else match read_request conn with
      | Ok (request, _) =>
          let '(s, response) := handle_at_mode w (dispatched request now) s in
          (s, Some (written response (bool_decide (Request.method request = "HEAD"))))
      | Err e =>
          let '(s, response) := handle_wire_rejection attempt_id ParseRejected (ParseError.status e) (ParseError.message e) now s in
          (s, Some (written response false))
      end
  end.

(** The connection of a peer: the limiter first. *)
Definition serve_peer {IpAddr} `{Countable IpAddr} w (peer : IpAddr) (nanos : N) (attempt : option (list u8)) (conn : Conn)
    (now : N) (limiter : RateLimiter (IpAddr := IpAddr)) s :
    RateLimiter (IpAddr := IpAddr) * (S * option string) :=
  let '(limiter, allowed) := allow_at peer nanos limiter in
  (limiter, serve_connection w attempt (negb allowed) conn now s).

(** * What the audit knows of a connection *)
Context `{!HmacLaws, !Sha256Laws Sh, !Base64Laws, !Base64Length, !SerdeLaws AuditUnsigned, !SerdeLaws AuditRecord,
  !LineLaws AuditRecord, !SerdeLaws SignedManifest, !ManifestText}.

(** The fingerprint under which a connection is recorded. *)
Definition connection_fingerprint (key attempt : list u8) (rate_limited : bool) (conn : Conn) : string :=
  if rate_limited then wire_rejection_fingerprint key attempt RateLimited 429
  else match read_request conn with
  | Ok (q, _) => request_fingerprint key (RequestDispatch.method (dispatched q 0)) (Request.path q) (Request.namespace q) (Request.token q)
  | Err e => wire_rejection_fingerprint key attempt ParseRejected (ParseError.status e)
  end.

(** The connection asks for an initialization. *)
Definition asks_initialization (rate_limited : bool) (conn : Conn) : bool :=
  negb rate_limited && match read_request conn with Ok (q, _) => initializes (dispatched q 0) | Err _ => false end.

(** The kinds and statuses a connection with this status is recorded with. *)
Definition recorded_as (init : bool) (status : N) (shape : list (string * option N)) : Prop :=
  shape = [("wire-rejection", None); ("wire-response", Some status)] ∨
  shape = [("request", None); ("response", Some status)] ∨
  init = true ∧
    (shape = [("request", None); ("initialization-response-prepared", Some 200%N)] ∨
     shape = [("request", None); ("initialization-response-prepared", Some 200%N); ("response", Some status)]).

(** C7: Nothing leaves the server unrecorded.  On a server whose audit is in order,
    a connection, rate limited or not, with any bytes arriving on any schedule, ends
    without a response and without a change; or what is written is a response whose
    status the audit has taken, under the fingerprint of the request or of the
    rejection, after the event that announced it (an initialization records its
    prepared response before it publishes the new directory; a body over the limit is
    sent as a 500 by [response_bytes]); or it is a 503 and the
    audit alone has changed, or the server refuses all further work until it is
    unsealed again, or, for an initialization, has published nothing. *)
Theorem connection_audited w attempt rate_limited conn now s log :
  ready (Service.audit s) log →
  let '(s', out) := serve_connection w attempt rate_limited conn now s in
  match attempt, out with
  | Some attempt, Some bytes => ∃ status body head, bytes = response_bytes status body head ∧
      ((∃ told shape, ready (Service.audit s') (log ++ told) ∧
          says (connection_fingerprint (Audit.key (Service.audit s)) attempt rate_limited conn) now told shape ∧
          recorded_as (asks_initialization rate_limited conn) status shape)
       ∨ status = 503%N ∧
         ((∃ a, s' = Service.set_audit a s) ∨ Service.recovery_required s' = true
          ∨ asks_initialization rate_limited conn = true ∧ Service.dir s' = Service.dir s))
  | Some _, None => False
  | None, out => s' = s ∧ out = None
  end.
Proof.
  intros Hr. unfold serve_connection, connection_fingerprint, asks_initialization, recorded_as.
  destruct attempt as [attempt|]; [|done].
  assert (Hreject : ∀ rejection status message,
    let '(s', response) := handle_wire_rejection attempt rejection status message now s in
    ∃ status' body head, written response false = response_bytes status' body head ∧
      ((∃ told shape, ready (Service.audit s') (log ++ told) ∧
          says (wire_rejection_fingerprint (Audit.key (Service.audit s)) attempt rejection status) now told shape ∧
          recorded_as false status' shape)
       ∨ status' = 503%N ∧ ((∃ a, s' = Service.set_audit a s) ∨ Service.recovery_required s' = true ∨ False))).
  { intros rejection status message. pose proof (rejection_recorded attempt rejection status message now s log Hr) as Hj.
    cbv zeta in Hj. destruct (handle_wire_rejection _ _ _ _ _ _) as [s' response]. unfold recorded_as.
    eexists _, _, _. split; [reflexivity|]. naive_solver. }
  destruct rate_limited.
  - specialize (Hreject RateLimited 429%N "request rate limit exceeded"). destruct (handle_wire_rejection _ _ _ _ _ _) as [s' response].
    unfold recorded_as in Hreject. naive_solver.
  - destruct (read_request conn) as [[q conn']|e].
    + pose proof (answers_recorded w (dispatched q now) s log Hr) as Ha. cbv zeta in Ha.
      destruct (handle_at_mode w (dispatched q now) s) as [s' response]. eexists _, _, _. split; [reflexivity|].
      change (initializes (dispatched q now)) with (initializes (dispatched q 0)) in Ha. simpl in *. naive_solver.
    + specialize (Hreject ParseRejected (ParseError.status e) (ParseError.message e)). destruct (handle_wire_rejection _ _ _ _ _ _) as [s' response].
      unfold recorded_as in Hreject. naive_solver.
Qed.
End connection.

From S2P Require Import AuthSpec AuditToy ServerToy.

Module ConnectionDemo.
Import ServerToy ServerDemo.
(** A request for the health of the server, a byte at a time. *)
Definition health : Conn := Conn.mk ("GET /v1/sys/health HTTP/1.1" +:+ CRLF +:+ "Host: h" +:+ CRLF +:+ CRLF) (repeat (ReadStep.mk false false 0) 8).
Definition watched : Server := Service.set_audit (AuditDemo.trail []) opened.
End ConnectionDemo.
Import ConnectionDemo ServerToy ServerDemo.

Lemma connection_audited_witness :
  let '(s', out) := serve_connection (A := cipher) (world x05 x06 io) (Some [x01]) false health 11 watched in
  out = Some (response_bytes 200 Null false) ∧ length (AuditTheorems.retained (Service.audit s')) = 2 ∧
  ∃ status body head, response_bytes 200 Null false = response_bytes status body head ∧
    ((∃ told shape, ready (Service.audit s') ([] ++ told) ∧
        says (connection_fingerprint (Audit.key (Service.audit watched)) [x01] false health) 11 told shape ∧
        recorded_as (asks_initialization false health) status shape)
     ∨ status = 503%N ∧
       ((∃ a, s' = Service.set_audit a watched) ∨ Service.recovery_required s' = true
        ∨ asks_initialization false health = true ∧ Service.dir s' = Service.dir watched)).
Proof.
  assert (Hc : (serve_connection (A := cipher) (world x05 x06 io) (Some [x01]) false health 11 watched).2
      = Some (response_bytes 200 Null false) ∧
    length (AuditTheorems.retained (Service.audit (serve_connection (A := cipher) (world x05 x06 io) (Some [x01]) false health 11 watched).1)) = 2)
    by (split; vm_compute; reflexivity).
  pose proof (connection_audited (A := cipher) (world x05 x06 io) (Some [x01]) false health 11 watched [] (AuditDemo.trail_ready [])) as H.
  destruct (serve_connection (A := cipher) (world x05 x06 io) (Some [x01]) false health 11 watched) as [s' out].
  simpl in Hc. destruct Hc as [-> H2]. split; [reflexivity|]. split; [exact H2|]. exact H.
Defined.
