(* ===== verification/HaService.v ===== *)
(** The service layer of the HA cluster, [crates/heptabao-ha-service/src/lib.rs]:
    client operations with their idempotence table, authenticated peer frames, the
    persistent sequence numbers that refuse replays, snapshot manifests and
    membership transitions.

    SHA-256 and HMAC are the classes [Sha256] and [Hmac]; the consensus driver and the
    forwarding client are the classes [ConsensusDriver] and [ForwardClient], as the
    traits of the source.  A cursor into a frame is the rest of the frame.  The file
    of the sequence numbers is an optional content, and each write has a fate.
    Sockets, TLS, the directory checks and the lock file enter as their results. *)
From Stdlib Require Import Ascii NArith Strings.Byte.
From S2P Require Import Prelude Str Gf256 Shamir Bytes Domain Json EngineState Base32 Totp DurableCodec DurableCodecSpec.

Definition MAX_NODE_ID_BYTES : N := 128.
Definition MAX_CLUSTER_ID_BYTES : N := 128.
Definition MAX_PAYLOAD_BYTES : N := 1024 * 1024.
Definition MAX_PEERS : N := 255.
Definition MAX_SNAPSHOT_CHUNKS : N := 65536.
Definition PEER_STATE_MAGIC : list u8 := String.list_byte_of_string "HBPS1".
Definition PEER_FRAME_MAGIC : list u8 := String.list_byte_of_string "HBPF1".

Inductive HaError : Type :=
| InvalidNode | InvalidCluster | InvalidOperation | InvalidFrame | InvalidSnapshot
| InvalidMembership | UnknownPeer | PeerAuthenticationFailed | ReplayDetected | WriterBusy
| QuorumUnavailable | NotLeader | OperationIdConflict | StaleLeaderResponse | CapacityExceeded
| Transport | OutcomeUnknown | InvalidRoot | Tampered | Io.

Notation HResult A := (Result A HaError).

(** An array of zeros. *)
Definition zeros (bytes : list u8) : bool := forallb (λ b, bool_decide (b = x00)) bytes.

(** * Node identifiers *)
Module NodeId.
Definition node_byte (a : ascii) : bool := is_ascii_alphanumeric a || bool_decide (a ∈ ["-"; "_"; "."]%char).

Definition check (value : string) : HResult unit :=
  if bool_decide (value = "") || (MAX_NODE_ID_BYTES <? slen value)%N || negb (str_all node_byte value)
  then Err InvalidNode else Ok tt.

Record t := mk { as_str : string; valid : Is_true (is_ok (check as_str)) }.

Definition parse (value : string) : HResult t := checked (check value) (mk value).
End NodeId.
Notation NodeId := NodeId.t.

Lemma NodeId_ext (i j : NodeId) : NodeId.as_str i = NodeId.as_str j → i = j.
Proof. destruct i, j; simpl. intros ->. f_equal. apply proof_irrel. Qed.

Lemma NodeId_parse_as_str i : NodeId.parse (NodeId.as_str i) = Ok i.
Proof. destruct i as [s H]. apply checked_Ok. Qed.

#[export] Instance NodeId_eq_dec : EqDecision NodeId.
Proof.
  intros i j. destruct (decide (NodeId.as_str i = NodeId.as_str j)) as [E|E]; [left; by apply NodeId_ext|right; congruence].
Defined.

#[export] Instance NodeId_countable : Countable NodeId.
Proof.
  apply (inj_countable NodeId.as_str (λ s, match NodeId.parse s with Ok i => Some i | Err _ => None end)).
  intros i. by rewrite NodeId_parse_as_str.
Defined.

#[export] Instance NodeId_rust_ord : RustOrd NodeId := λ i j, rust_le (NodeId.as_str i) (NodeId.as_str j).
#[export] Instance NodeId_rust_ord_laws : RustOrdLaws NodeId.
Proof.
  split; unfold rust_le, NodeId_rust_ord.
  - intros i j. apply _.
  - intros i j. apply total, _.
  - intros i j k. apply transitivity.
  - intros i j Hij Hji. apply NodeId_ext. by apply (anti_symm rust_le).
Defined.

(** * Client operations *)
Inductive OperationKind : Type := LinearizableRead | Mutation.
Definition operation_tag (k : OperationKind) : u8 := match k with LinearizableRead => x01 | Mutation => x02 end.

Module ClientOperation.
Record t := mk { operation_id : list u8; kind : OperationKind; payload : list u8 }.

Definition new (operation_id : list u8) (kind : OperationKind) (payload : list u8) : HResult t :=
  if zeros operation_id || bool_decide (payload = []) || (MAX_PAYLOAD_BYTES <? len payload)%N then Err InvalidOperation
  else Ok (mk operation_id kind payload).

Definition request_digest `{Sha256} (self : t) : list u8 :=
  sha256 (operation_id self ++ [operation_tag (kind self)] ++ payload self).
End ClientOperation.
Notation ClientOperation := ClientOperation.t.

Module ClientResult.
Record t := mk { term : N; applied_index : N; payload : list u8 }.
Definition new (term applied_index : N) (payload : list u8) : HResult t :=
  if (term =? 0)%N || (applied_index =? 0)%N || (MAX_PAYLOAD_BYTES <? len payload)%N then Err InvalidOperation
  else Ok (mk term applied_index payload).
End ClientResult.
Notation ClientResult := ClientResult.t.

Module LeaderView.
Record t := mk { leader : NodeId; term : N; commit_index : N; quorum_available : bool }.
End LeaderView.
Notation LeaderView := LeaderView.t.

Class ConsensusDriver (D : Type) := {
  local_node : D → NodeId;
  leader_view : D → HResult LeaderView;
  execute_leader_mutation : ClientOperation → M D HaError ClientResult;
  execute_linearizable_read : ClientOperation → M D HaError ClientResult;
}.

Class ForwardClient (F : Type) := forward : NodeId → N → ClientOperation → M F HaError ClientResult.

(** [HaService]. *)
Section service.
Context {D F : Type} `{ConsensusDriver D, ForwardClient F, Sha256}.

Record HaService := mk_service {
  driver : D;
  forwarder : F;
  completed : gmap (list u8) (list u8 * ClientResult);
  completed_limit : N;
}.

Definition new_service (d : D) (f : F) (limit : N) : HResult HaService :=
  if (limit =? 0)%N || (1000000 <? limit)%N then Err CapacityExceeded else Ok (mk_service d f ∅ limit).

Definition set_driver (d : D) (s : HaService) : HaService := mk_service d (forwarder s) (completed s) (completed_limit s).
Definition set_forwarder (f : F) (s : HaService) : HaService := mk_service (driver s) f (completed s) (completed_limit s).

(** The operation, by the leader. *)
Definition perform_operation (view : LeaderView) (operation : ClientOperation) : M HaService HaError ClientResult := λ self,
  if bool_decide (LeaderView.leader view = local_node (driver self)) then
    let '(d, result) :=
      match ClientOperation.kind operation with
      | Mutation => execute_leader_mutation operation (driver self)
      | LinearizableRead => execute_linearizable_read operation (driver self)
      end in
    (set_driver d self, result)
  else
    let '(f, result) := forward (LeaderView.leader view) (LeaderView.term view) operation (forwarder self) in
    (set_forwarder f self, result).

Definition execute (operation : ClientOperation) : M HaService HaError ClientResult := λ self,
  let digest := ClientOperation.request_digest operation in
  match completed self !! ClientOperation.operation_id operation with
  | Some (known_digest, result) =>
      if bool_decide (known_digest = digest) then (self, Ok result) else (self, Err OperationIdConflict)
  | None =>
      match leader_view (driver self) with
      | Err e => (self, Err e)
      | Ok view =>
          if negb (LeaderView.quorum_available view) then (self, Err QuorumUnavailable)
          else
            match perform_operation view operation self with
            | (self, Err e) => (self, Err e)
            | (self, Ok result) =>
                if negb (ClientResult.term result =? LeaderView.term view)%N
                   || (ClientResult.applied_index result <? LeaderView.commit_index view)%N
                then (self, Err StaleLeaderResponse)
                else if (completed_limit self <=? N.of_nat (size (completed self)))%N then (self, Err CapacityExceeded)
                else (mk_service (driver self) (forwarder self)
                        (<[ClientOperation.operation_id operation := (digest, result)]> (completed self)) (completed_limit self),
                      Ok result)
            end
      end
  end.
End service.
Arguments HaService D F : clear implicits.

(** * Peer frames *)
Inductive PeerMessageKind : Type := ForwardRequest | ForwardResponse | ReadIndex | SnapshotChunk | Membership.
Definition peer_tag (k : PeerMessageKind) : u8 :=
  match k with ForwardRequest => x01 | ForwardResponse => x02 | ReadIndex => x03 | SnapshotChunk => x04 | Membership => x05 end.
Definition peer_kind (value : u8) : HResult PeerMessageKind :=
  match value with
  | x01 => Ok ForwardRequest
  | x02 => Ok ForwardResponse
  | x03 => Ok ReadIndex
  | x04 => Ok SnapshotChunk
  | x05 => Ok Membership
  | _ => Err InvalidFrame
  end.

Module PeerEnvelope.
Record t := mk {
  cluster_id : string;
  sender : NodeId;
  receiver : NodeId;
  term : N;
  sequence : N;
  kind : PeerMessageKind;
  payload : list u8;
  tag : list u8;
}.
End PeerEnvelope.
Notation PeerEnvelope := PeerEnvelope.t.

(** [u16::try_from(value.len())] and the bytes of the text. *)
Definition put_string (value : string) (e : HaError) : HResult (list u8) :=
  if (65535 <? slen value)%N then Err e else Ok (be_bytes 2 (slen value) ++ String.list_byte_of_string value).

Definition encode_envelope_body (cluster_id : string) (sender receiver : NodeId) (term sequence : N)
    (kind : PeerMessageKind) (payload : list u8) : HResult (list u8) :=
  if bool_decide (cluster_id = "") || (MAX_CLUSTER_ID_BYTES <? slen cluster_id)%N || (MAX_PAYLOAD_BYTES <? len payload)%N
  then Err InvalidFrame
  else
    let? cluster := put_string cluster_id InvalidFrame in
    let? from := put_string (NodeId.as_str sender) InvalidFrame in
    let? to := put_string (NodeId.as_str receiver) InvalidFrame in
    Ok (PEER_FRAME_MAGIC ++ cluster ++ from ++ to ++ be_bytes 8 term ++ be_bytes 8 sequence ++ [peer_tag kind]
        ++ be_bytes 4 (len payload) ++ payload).

(** The body of an envelope. *)
Definition body_of (e : PeerEnvelope) : HResult (list u8) :=
  encode_envelope_body (PeerEnvelope.cluster_id e) (PeerEnvelope.sender e) (PeerEnvelope.receiver e)
    (PeerEnvelope.term e) (PeerEnvelope.sequence e) (PeerEnvelope.kind e) (PeerEnvelope.payload e).

Definition encode_peer_envelope (envelope : PeerEnvelope) : HResult (list u8) :=
  let? body := body_of envelope in
  Ok (body ++ PeerEnvelope.tag envelope).

Definition take_string (frame : list u8) (maximum : N) : HResult (string * list u8) :=
  if (len frame <? 2)%N then Err InvalidFrame
  else
    let length := of_be (take 2 frame) in
    let frame := drop 2 frame in
    if (length =? 0)%N || (maximum <? length)%N || (len frame <? length)%N then Err InvalidFrame
    else
      let value := String.string_of_list_byte (take (N.to_nat length) frame) in
      if utf8_valid value then Ok (value, drop (N.to_nat length) frame) else Err InvalidFrame.

Definition take_int (width : nat) (frame : list u8) : HResult (N * list u8) :=
  if (len frame <? N.of_nat width)%N then Err InvalidFrame else Ok (of_be (take width frame), drop width frame).
Notation take_u64 := (take_int 8).
Notation take_u32 := (take_int 4).

Definition take_node (frame : list u8) : HResult (NodeId * list u8) :=
  let? sc := take_string frame MAX_NODE_ID_BYTES in
  let? node := NodeId.parse sc.1 in
  Ok (node, sc.2).

Definition decode_peer_envelope (frame : list u8) : HResult PeerEnvelope :=
  if (len frame <? 5 + 2 + 2 + 2 + 8 + 8 + 1 + 4 + 32)%N || (MAX_PAYLOAD_BYTES + 4096 <? len frame)%N
     || negb (bool_decide (take 5 frame = PEER_FRAME_MAGIC))
  then Err InvalidFrame
  else
    let? (cluster_id, cursor) := take_string (drop 5 frame) MAX_CLUSTER_ID_BYTES in
    let? (sender, cursor) := take_node cursor in
    let? (receiver, cursor) := take_node cursor in
    let? (term, cursor) := take_u64 cursor in
    let? (sequence, cursor) := take_u64 cursor in
    match cursor with
    | [] => Err InvalidFrame
    | b :: cursor =>
        let? kind := peer_kind b in
        let? (payload_len, cursor) := take_u32 cursor in
        if (MAX_PAYLOAD_BYTES <? payload_len)%N || negb (payload_len + 32 =? len cursor)%N then Err InvalidFrame
        else if (term =? 0)%N || (sequence =? 0)%N then Err InvalidFrame
        else Ok (PeerEnvelope.mk cluster_id sender receiver term sequence kind
                   (take (N.to_nat payload_len) cursor) (drop (N.to_nat payload_len) cursor))
    end.

Module PeerAuthenticator.
Record t := mk { cluster_id : string; keys : gmap NodeId (list u8) }.

Definition new (cluster_id : string) (keys : gmap NodeId (list u8)) : HResult t :=
  if bool_decide (cluster_id = "") || (MAX_CLUSTER_ID_BYTES <? slen cluster_id)%N
     || bool_decide (keys = ∅) || (MAX_PEERS <? N.of_nat (size keys))%N || existsb zeros (btree_values keys)
  then Err InvalidCluster else Ok (mk cluster_id keys).

Section mac.
Context `{Hmac}.

Definition seal (self : t) (sender receiver : NodeId) (term sequence : N) (kind : PeerMessageKind) (payload : list u8) :
  HResult PeerEnvelope :=
  if (term =? 0)%N || (sequence =? 0)%N || (MAX_PAYLOAD_BYTES <? len payload)%N then Err InvalidFrame
  else
    let? key := ok_or (keys self !! sender) UnknownPeer in
    let? body := encode_envelope_body (cluster_id self) sender receiver term sequence kind payload in
    Ok (PeerEnvelope.mk (cluster_id self) sender receiver term sequence kind payload (hmac_sign HMAC_SHA256 key body)).

Definition verify (self : t) (receiver : NodeId) (envelope : PeerEnvelope) : HResult unit :=
  if negb (bool_decide (PeerEnvelope.cluster_id envelope = cluster_id self))
     || negb (bool_decide (PeerEnvelope.receiver envelope = receiver))
  then Err PeerAuthenticationFailed
  else
    let? key := ok_or (keys self !! PeerEnvelope.sender envelope) UnknownPeer in
    let? body := body_of envelope in
    if bool_decide (PeerEnvelope.tag envelope = hmac_sign HMAC_SHA256 key body) then Ok tt else Err PeerAuthenticationFailed.
End mac.
End PeerAuthenticator.
Notation PeerAuthenticator := PeerAuthenticator.t.

(** * Persistent sequence numbers *)

(** The fate of [atomic_write]: the temporary file cannot be made; its bytes, or the
    rename, fail; the rename happens but the directory is not synced. *)
Inductive WriteFate : Type := Written | NotOpened | NotWritten | NotSynced.

(** The state file and its replacement. *)
Definition atomic_write (fate : WriteFate) (bytes : list u8) : M (option (list u8)) HaError unit := λ file,
  match fate with
  | Written => (Some bytes, Ok tt)
  | NotOpened => (file, Err Io)
  | NotWritten => (file, Err OutcomeUnknown)
  | NotSynced => (Some bytes, Err OutcomeUnknown)
  end.

Section sequences.
Context `{Hmac}.

(** One entry of the state. *)
Definition put_peer (incoming outgoing : gmap NodeId N) (peer : NodeId) : list u8 :=
  be_bytes 2 (slen (NodeId.as_str peer)) ++ String.list_byte_of_string (NodeId.as_str peer)
  ++ be_bytes 8 (default 0%N (incoming !! peer)) ++ be_bytes 8 (default 0%N (outgoing !! peer)).

Definition state_peers (incoming outgoing : gmap NodeId N) : gset NodeId := dom incoming ∪ dom outgoing.

Definition encode_peer_state (incoming outgoing : gmap NodeId N) (key : list u8) : HResult (list u8) :=
  let peers := state_peers incoming outgoing in
  if (MAX_PEERS <? N.of_nat (size peers))%N then Err CapacityExceeded
  else
    let body := PEER_STATE_MAGIC ++ be_bytes 2 (N.of_nat (size peers))
                ++ concat (put_peer incoming outgoing <$> btree_elems peers) in
    Ok (body ++ hmac_sign HMAC_SHA256 key body).

Fixpoint take_peers (count : nat) (cursor : list u8) (incoming outgoing : gmap NodeId N) :
  HResult (gmap NodeId N * gmap NodeId N * list u8) :=
  match count with
  | O => Ok (incoming, outgoing, cursor)
  | S count =>
      let? (peer, cursor) := take_node cursor in
      let? (i, cursor) := take_u64 cursor in
      let? (o, cursor) := take_u64 cursor in
      if bool_decide (is_Some (incoming !! peer)) || bool_decide (is_Some (outgoing !! peer)) then Err Tampered
      else take_peers count cursor (<[peer := i]> incoming) (<[peer := o]> outgoing)
  end.

Definition decode_peer_state (bytes key : list u8) : HResult (gmap NodeId N * gmap NodeId N) :=
  if (len bytes <? 5 + 2 + 32)%N || negb (bool_decide (take 5 bytes = PEER_STATE_MAGIC)) then Err Tampered
  else
    let body := take (length bytes - 32) bytes in
    if negb (bool_decide (drop (length bytes - 32) bytes = hmac_sign HMAC_SHA256 key body)) then Err Tampered
    else
      let count := of_be (slice 5 2 bytes) in
      if (MAX_PEERS <? count)%N then Err Tampered
      else
        let? (incoming, outgoing, cursor) := take_peers (N.to_nat count) (drop 7 body) ∅ ∅ in
        if bool_decide (cursor = []) then Ok (incoming, outgoing) else Err Tampered.
End sequences.

Module PersistentPeerSequences.
Record t := mk { file : option (list u8); key : list u8; incoming : gmap NodeId N; outgoing : gmap NodeId N }.

Definition set_file (f : option (list u8)) (s : t) : t := mk f (key s) (incoming s) (outgoing s).
Definition set_incoming (m : gmap NodeId N) (s : t) : t := mk (file s) (key s) m (outgoing s).
Definition set_outgoing (m : gmap NodeId N) (s : t) : t := mk (file s) (key s) (incoming s) m.

Section ops.
Context `{Hmac}.

(** [guard]: the answer of the directory checks and of the lock file; [readable]: the
    file can be read. *)
Definition open (guard : HResult unit) (readable : bool) (file : option (list u8)) (key : list u8) : HResult t :=
  if zeros key then Err InvalidCluster
  else
    let? _ := guard in
    match file with
    | None => Ok (mk None key ∅ ∅)
    | Some bytes =>
        if negb readable then Err Io
        else
          let? (incoming, outgoing) := decode_peer_state bytes key in
          Ok (mk (Some bytes) key incoming outgoing)
    end.

Definition persist (fate : WriteFate) : M t HaError unit := λ self,
  match encode_peer_state (incoming self) (outgoing self) (key self) with
  | Err e => (self, Err e)
  | Ok bytes => let '(file, result) := atomic_write fate bytes (file self) in (set_file file self, result)
  end.

(** [previous] put back. *)
Definition restore (peer : NodeId) (previous : option N) (m : gmap NodeId N) : gmap NodeId N :=
  match previous with Some value => <[peer := value]> m | None => delete peer m end.

Definition accept_incoming (fate : WriteFate) (sender : NodeId) (sequence : N) : M t HaError unit := λ self,
  if (sequence =? 0)%N || match incoming self !! sender with Some observed => (sequence <=? observed)%N | None => false end
  then (self, Err ReplayDetected)
  else
    let previous := incoming self !! sender in
    match persist fate (set_incoming (<[sender := sequence]> (incoming self)) self) with
    | (self, Err e) => (set_incoming (restore sender previous (incoming self)) self, Err e)
    | (self, Ok _) => (self, Ok tt)
    end.

Definition next_outgoing (fate : WriteFate) (receiver : NodeId) : M t HaError N := λ self,
  match checked_add (default 0%N (outgoing self !! receiver)) 1 with
  | None => (self, Err CapacityExceeded)
  | Some next =>
      let previous := outgoing self !! receiver in
      match persist fate (set_outgoing (<[receiver := next]> (outgoing self)) self) with
      | (self, Err e) => (set_outgoing (restore receiver previous (outgoing self)) self, Err e)
      | (self, Ok _) => (self, Ok next)
      end
  end.
End ops.
End PersistentPeerSequences.
Notation PersistentPeerSequences := PersistentPeerSequences.t.

Definition admit_peer_envelope `{Hmac} (fate : WriteFate) (local_node : NodeId) (authenticator : PeerAuthenticator)
    (envelope : PeerEnvelope) : M PersistentPeerSequences HaError unit := λ sequences,
  match PeerAuthenticator.verify authenticator local_node envelope with
  | Err e => (sequences, Err e)
  | Ok _ => PersistentPeerSequences.accept_incoming fate (PeerEnvelope.sender envelope) (PeerEnvelope.sequence envelope) sequences
  end.

(** * Snapshots *)
Module SnapshotManifest.
Record t := mk {
  snapshot_id : list u8;
  term : N;
  index : N;
  total_bytes : N;
  chunk_digests : list (list u8);
  root_digest : list u8;
}.

Section hash.
Context `{Sha256}.

Definition snapshot_root (snapshot_id : list u8) (term index total_bytes : N) (chunks : list (list u8)) : list u8 :=
  sha256 (snapshot_id ++ be_bytes 8 term ++ be_bytes 8 index ++ be_bytes 8 total_bytes ++ concat chunks).

(** The sum of the lengths, [None] on overflow. *)
Definition total (chunks : list (list u8)) : option N :=
  foldl (λ t chunk, t ≫= λ t, checked_add t (len chunk)) (Some 0%N) chunks.

Definition build (snapshot_id : list u8) (term index : N) (chunks : list (list u8)) : HResult t :=
  if zeros snapshot_id || (term =? 0)%N || (index =? 0)%N || bool_decide (chunks = []) || (MAX_SNAPSHOT_CHUNKS <? len chunks)%N
     || existsb (λ chunk, bool_decide (chunk = []) || (MAX_PAYLOAD_BYTES <? len chunk)%N) chunks
  then Err InvalidSnapshot
  else
    let? total_bytes := ok_or (total chunks) InvalidSnapshot in
    let chunk_digests := sha256 <$> chunks in
    Ok (mk snapshot_id term index total_bytes chunk_digests (snapshot_root snapshot_id term index total_bytes chunk_digests)).

Definition verify (self : t) (chunks : list (list u8)) : HResult unit :=
  if negb (len chunks =? len (chunk_digests self))%N then Err InvalidSnapshot
  else
    let? total := ok_or (total chunks) InvalidSnapshot in
    if negb (total =? total_bytes self)%N
       || existsb (λ p, negb (bool_decide (sha256 p.1 = p.2))) (zip chunks (chunk_digests self))
       || negb (bool_decide (snapshot_root (snapshot_id self) (term self) (index self) (total_bytes self) (chunk_digests self)
                             = root_digest self))
    then Err InvalidSnapshot else Ok tt.
End hash.
End SnapshotManifest.
Notation SnapshotManifest := SnapshotManifest.t.

(** * Membership *)
Inductive MembershipPhase : Type := Joint | Final.

Definition has_majority (voters acknowledgements : gset NodeId) : bool := size voters / 2 <? size (voters ∩ acknowledgements).

Module MembershipTransition.
Record t := mk { phase : MembershipPhase; old_voters : gset NodeId; new_voters : gset NodeId }.

Definition new (phase : MembershipPhase) (old_voters new_voters : gset NodeId) : HResult t :=
  if bool_decide (old_voters = ∅) || bool_decide (new_voters = ∅)
     || (MAX_PEERS <? N.of_nat (size old_voters))%N || (MAX_PEERS <? N.of_nat (size new_voters))%N
     || match phase with Final => negb (bool_decide (old_voters = new_voters)) | Joint => false end
  then Err InvalidMembership else Ok (mk phase old_voters new_voters).

Definition joint_quorum (self : t) (acknowledgements : gset NodeId) : bool :=
  has_majority (old_voters self) acknowledgements && has_majority (new_voters self) acknowledgements.
End MembershipTransition.
Notation MembershipTransition := MembershipTransition.t.

(** * The transport's frames and identities *)
Definition write_bounded_frame (frame : list u8) : HResult (list u8) :=
  if bool_decide (frame = []) || (MAX_PAYLOAD_BYTES + 4096 <? len frame)%N then Err InvalidFrame
  else Ok (be_bytes 4 (len frame) ++ frame).

(** [read_exact] of what arrives. *)
Definition read_bounded_frame (incoming : list u8) : HResult (list u8 * list u8) :=
  if (len incoming <? 4)%N then Err Transport
  else
    let length := of_be (take 4 incoming) in
    let rest := drop 4 incoming in
    if (length =? 0)%N || (MAX_PAYLOAD_BYTES + 4096 <? length)%N then Err InvalidFrame
    else if (len rest <? length)%N then Err Transport
    else Ok (take (N.to_nat length) rest, drop (N.to_nat length) rest).

Definition new_certificate_map (by_leaf_sha256 : gmap (list u8) NodeId) : HResult (gmap (list u8) NodeId) :=
  if bool_decide (by_leaf_sha256 = ∅) || (MAX_PEERS <? N.of_nat (size by_leaf_sha256))%N
     || existsb zeros (elements (dom by_leaf_sha256))
  then Err InvalidCluster else Ok by_leaf_sha256.

Definition identify `{Sha256} (by_leaf_sha256 : gmap (list u8) NodeId) (leaf_der : list u8) : HResult NodeId :=
  if bool_decide (leaf_der = []) || (1024 * 1024 <? len leaf_der)%N then Err PeerAuthenticationFailed
  else ok_or (by_leaf_sha256 !! sha256 leaf_der) PeerAuthenticationFailed.
