(* ===== verification/HaTheorems.v ===== *)
(** What the HA service layer guarantees: frames arrive as they were sealed, a peer's
    frame is admitted once whatever crashes and failed writes come between, a
    completed operation is answered without running again, and quorums meet. *)
From Stdlib Require Import Ascii NArith Strings.Byte.
From S2P Require Import Prelude Str Gf256 Shamir Bytes Domain Json EngineState Base32 Totp DurableCodec DurableCodecSpec HaService.

(** * Fields *)
Lemma of_be_lt bytes : (of_be bytes < 256 ^ len bytes)%N.
Proof.
  induction bytes as [|b bytes IH] using rev_ind; [by vm_compute|]. rewrite of_be_snoc. unfold len. rewrite length_app.
  replace (N.of_nat (length bytes + length [b])) with (N.succ (len bytes)) by (unfold len; simpl; lia). rewrite N.pow_succ_r'.
  pose proof (Byte.to_N_bounded b). unfold U8.to_N. lia.
Qed.

Lemma take_int_put width n rest :
  (n < 256 ^ N.of_nat width)%N → take_int width (be_bytes width n ++ rest) = Ok (n, rest).
Proof.
  intros Hn. unfold take_int, len. rewrite length_app, be_bytes_length, (proj2 (N.ltb_ge _ _)) by lia.
  rewrite take_app_length', drop_app_length' by (by rewrite be_bytes_length). by rewrite of_be_bytes_small.
Qed.

Lemma take_int_bound width frame n rest : take_int width frame = Ok (n, rest) → (n < 256 ^ N.of_nat width)%N.
Proof.
  unfold take_int. destruct (N.ltb_spec (len frame) (N.of_nat width)) as [|Hl]; [done|]. intros [= <- _].
  pose proof (of_be_lt (take width frame)) as Hb. unfold len in *. rewrite length_take, Nat.min_l in Hb by lia. done.
Qed.

Lemma take_string_put s maximum rest :
  s ≠ "" → (slen s ≤ maximum)%N → (slen s ≤ 65535)%N → utf8_valid s →
  take_string (be_bytes 2 (slen s) ++ String.list_byte_of_string s ++ rest) maximum = Ok (s, rest).
Proof.
  intros Hne Hm Hs Hu. unfold take_string. pose proof (len_list_byte s) as Hl.
  assert (0 < slen s)%N as Hpos by (destruct s; [done|unfold slen; simpl; lia]).
  rewrite (proj2 (N.ltb_ge _ _)) by (unfold len; rewrite length_app, be_bytes_length; lia).
  rewrite take_app_length', drop_app_length' by (by rewrite be_bytes_length). rewrite of_be_bytes_small by (simpl; lia).
  assert ((slen s =? 0)%N || (maximum <? slen s)%N || (len (String.list_byte_of_string s ++ rest) <? slen s)%N = false) as ->.
  { unfold len in *. rewrite length_app, !orb_false_iff, N.eqb_neq, !N.ltb_ge. lia. }
  assert (N.to_nat (slen s) = length (String.list_byte_of_string s)) as -> by (unfold len in Hl; lia).
  rewrite take_app_length, drop_app_length, String.string_of_list_byte_of_string. apply Is_true_true in Hu. by rewrite Hu.
Qed.

Lemma node_text p : NodeId.as_str p ≠ "" ∧ (slen (NodeId.as_str p) ≤ MAX_NODE_ID_BYTES)%N ∧ utf8_valid (NodeId.as_str p).
Proof.
  destruct p as [s Hv]. simpl. unfold NodeId.check in Hv. destruct (_ || _) eqn:E in Hv; [done|].
  rewrite !orb_false_iff, bool_decide_eq_false, N.ltb_ge, negb_false_iff in E. destruct E as [[H1 H2] E].
  split_and!; [done..|]. apply ascii_utf8. eapply str_all_impl; [|by apply Is_true_true]. intros a. unfold NodeId.node_byte.
  intros [Ha|Ha]%orb_True; [by apply alphanumeric_ascii|]. apply bool_decide_unpack in Ha. rewrite !elem_of_cons in Ha.
  destruct Ha as [->|[->|[->|Ha]]]; try reflexivity. by apply elem_of_nil in Ha.
Qed.

Lemma take_node_put p rest :
  take_node (be_bytes 2 (slen (NodeId.as_str p)) ++ String.list_byte_of_string (NodeId.as_str p) ++ rest) = Ok (p, rest).
Proof.
  destruct (node_text p) as (H1 & H2 & H3). unfold take_node. rewrite take_string_put; [|done|done|unfold MAX_NODE_ID_BYTES in H2; lia|done].
  simpl. by rewrite NodeId_parse_as_str.
Qed.

Lemma put_node p e :
  put_string (NodeId.as_str p) e = Ok (be_bytes 2 (slen (NodeId.as_str p)) ++ String.list_byte_of_string (NodeId.as_str p)).
Proof.
  destruct (node_text p) as (_ & H2 & _). unfold put_string. rewrite (proj2 (N.ltb_ge _ _)); [done|].
  unfold MAX_NODE_ID_BYTES in H2. lia.
Qed.

Lemma peer_kind_tag k : peer_kind (peer_tag k) = Ok k.
Proof. by destruct k. Qed.

(** * Envelopes *)
Record envelope_ok (e : PeerEnvelope) : Prop := {
  eo_cluster : PeerEnvelope.cluster_id e ≠ "";
  eo_short : (slen (PeerEnvelope.cluster_id e) ≤ MAX_CLUSTER_ID_BYTES)%N;
  eo_text : utf8_valid (PeerEnvelope.cluster_id e);
  eo_term : (0 < PeerEnvelope.term e ≤ U64_MAX)%N;
  eo_sequence : (0 < PeerEnvelope.sequence e ≤ U64_MAX)%N;
  eo_payload : (len (PeerEnvelope.payload e) ≤ MAX_PAYLOAD_BYTES)%N;
  eo_tag : length (PeerEnvelope.tag e) = 32;
}.

(** The fields of a frame, one after the other. *)
Definition frame_of (e : PeerEnvelope) : list u8 :=
  let text s := be_bytes 2 (slen s) ++ String.list_byte_of_string s in
  PEER_FRAME_MAGIC ++ text (PeerEnvelope.cluster_id e) ++ text (NodeId.as_str (PeerEnvelope.sender e))
  ++ text (NodeId.as_str (PeerEnvelope.receiver e)) ++ be_bytes 8 (PeerEnvelope.term e) ++ be_bytes 8 (PeerEnvelope.sequence e)
  ++ [peer_tag (PeerEnvelope.kind e)] ++ be_bytes 4 (len (PeerEnvelope.payload e)) ++ PeerEnvelope.payload e.

Lemma body_of_ok e :
  PeerEnvelope.cluster_id e ≠ "" → (slen (PeerEnvelope.cluster_id e) ≤ MAX_CLUSTER_ID_BYTES)%N →
  (len (PeerEnvelope.payload e) ≤ MAX_PAYLOAD_BYTES)%N → body_of e = Ok (frame_of e).
Proof.
  intros H1 H2 H3. unfold body_of, encode_envelope_body.
  rewrite bool_decide_false, !(proj2 (N.ltb_ge _ _)) by done. cbn [orb].
  unfold put_string at 1. rewrite (proj2 (N.ltb_ge _ _)) by (unfold MAX_CLUSTER_ID_BYTES in H2; lia).
  by rewrite !put_node.
Qed.


Lemma decode_frame e : envelope_ok e → decode_peer_envelope (frame_of e ++ PeerEnvelope.tag e) = Ok e.
Proof.
  intros []. unfold decode_peer_envelope.
  assert (Hlen : (64 ≤ len (frame_of e ++ PeerEnvelope.tag e) ≤ MAX_PAYLOAD_BYTES + 4096)%N).
  { unfold frame_of, len. rewrite !length_app, !be_bytes_length, eo_tag0. cbn [length].
    pose proof (len_list_byte (PeerEnvelope.cluster_id e)) as L1. pose proof (len_list_byte (NodeId.as_str (PeerEnvelope.sender e))) as L2.
    pose proof (len_list_byte (NodeId.as_str (PeerEnvelope.receiver e))) as L3.
    destruct (node_text (PeerEnvelope.sender e)) as (_ & S1 & _). destruct (node_text (PeerEnvelope.receiver e)) as (_ & S2 & _).
    unfold len, MAX_PAYLOAD_BYTES, MAX_CLUSTER_ID_BYTES, MAX_NODE_ID_BYTES in *.
    change (length PEER_FRAME_MAGIC) with 5. lia. }
  rewrite !(proj2 (N.ltb_ge _ _)) by (by apply Hlen). cbn [orb]. clear Hlen.
  destruct e as [cid sd rc tm sq kd pl tg]; simpl in * |-; cbn [PeerEnvelope.tag].
  assert (take 5 (frame_of (PeerEnvelope.mk cid sd rc tm sq kd pl tg) ++ tg) = PEER_FRAME_MAGIC) as -> by reflexivity.
  rewrite bool_decide_true by done. cbn [negb].
  assert (drop 5 (frame_of (PeerEnvelope.mk cid sd rc tm sq kd pl tg) ++ tg) =
    be_bytes 2 (slen cid) ++ String.list_byte_of_string cid ++ (be_bytes 2 (slen (NodeId.as_str sd)) ++ String.list_byte_of_string (NodeId.as_str sd)
    ++ (be_bytes 2 (slen (NodeId.as_str rc)) ++ String.list_byte_of_string (NodeId.as_str rc) ++ (be_bytes 8 tm ++ (be_bytes 8 sq ++
    (peer_tag kd :: (be_bytes 4 (len pl) ++ (pl ++ tg)))))))) as ->.
  { unfold frame_of. cbn -[be_bytes slen]. by rewrite <- !(assoc_L (++)). }
  rewrite take_string_put by (done || (unfold MAX_CLUSTER_ID_BYTES in *; lia)). rewrite !take_node_put.
  unfold U64_MAX, MAX_PAYLOAD_BYTES in *.
  do 2 (rewrite take_int_put by (simpl; lia); cbv iota beta). rewrite peer_kind_tag. rewrite take_int_put by (simpl; lia). cbv iota beta.
  rewrite (proj2 (N.ltb_ge _ _)) by (unfold MAX_PAYLOAD_BYTES; lia).
  rewrite (proj2 (N.eqb_eq _ _)) by (unfold len; rewrite length_app; lia). cbn [negb orb].
  rewrite !(proj2 (N.eqb_neq _ _)) by lia. cbn [orb].
  unfold len. rewrite Nat2N.id, take_app_length, drop_app_length. done.
Qed.

Lemma be_bytes_of_be bytes : be_bytes (length bytes) (of_be bytes) = bytes.
Proof.
  induction bytes as [|b bytes IH] using rev_ind; [done|]. rewrite length_app, Nat.add_comm, of_be_snoc. cbn [Nat.add length be_bytes].
  pose proof (Byte.to_N_bounded b) as Hb.
  assert (U8.to_N b < 256)%N as Hb' by (unfold U8.to_N; lia).
  rewrite N.div_add_l, (N.div_small _ _ Hb'), N.add_0_r, IH by done. do 2 f_equal.
  assert (U8.wrap (of_be bytes * 256 + U8.to_N b) = U8.wrap (U8.to_N b)) as ->.
  { unfold U8.wrap. by rewrite N.add_comm, N.Div0.mod_add. }
  unfold U8.wrap, U8.to_N in *. by rewrite N.mod_small, Byte.of_to_N by done.
Qed.

Lemma take_int_inv width frame n rest :
  take_int width frame = Ok (n, rest) → frame = be_bytes width n ++ rest ∧ (n < 256 ^ N.of_nat width)%N.
Proof.
  intros E. split; [|by eapply take_int_bound]. revert E. unfold take_int.
  destruct (N.ltb_spec (len frame) (N.of_nat width)) as [|Hl]; [done|]. intros [= <- <-]. unfold len in Hl.
  assert (length (take width frame) = width) as Hw by (rewrite length_take; lia).
  pose proof (be_bytes_of_be (take width frame)) as Hb. rewrite Hw in Hb. by rewrite Hb, take_drop.
Qed.

Lemma take_string_inv frame maximum s rest :
  take_string frame maximum = Ok (s, rest) →
  frame = be_bytes 2 (slen s) ++ String.list_byte_of_string s ++ rest ∧ s ≠ "" ∧ (slen s ≤ maximum)%N ∧ utf8_valid s.
Proof.
  unfold take_string. destruct (N.ltb_spec (len frame) 2) as [|Hl]; [done|].
  destruct (_ || _) eqn:E; [done|]. destruct (utf8_valid _) eqn:Hu; [|done]. intros [= <- <-].
  rewrite !orb_false_iff, N.eqb_neq, !N.ltb_ge in E. destruct E as [[H1 H2] H3]. unfold len in *.
  set (n := of_be (take 2 frame)) in *.
  assert (length (take (N.to_nat n) (drop 2 frame)) = N.to_nat n) as Hn by (rewrite length_take; lia).
  assert (slen (String.string_of_list_byte (take (N.to_nat n) (drop 2 frame))) = n) as Hs.
  { rewrite <- len_list_byte, String.list_byte_of_string_of_list_byte. unfold len. lia. }
  rewrite Hs, String.list_byte_of_string_of_list_byte, take_drop.
  assert (length (take 2 frame) = 2) as Hw by (rewrite length_take; lia).
  split_and!; [|intros Hz; rewrite Hz in Hs; by rewrite <- Hs in H1|done|by apply Is_true_true].
  pose proof (be_bytes_of_be (take 2 frame)) as Hb. rewrite Hw in Hb. unfold n. by rewrite Hb, take_drop.
Qed.

Lemma take_node_inv frame p rest :
  take_node frame = Ok (p, rest) →
  frame = be_bytes 2 (slen (NodeId.as_str p)) ++ String.list_byte_of_string (NodeId.as_str p) ++ rest.
Proof.
  unfold take_node. destruct (take_string _ _) as [[s r]|] eqn:E; [|done]. simpl.
  destruct (NodeId.parse s) as [q|] eqn:Hp; [|done]. intros [= <- <-].
  apply checked_inv in Hp as [Hv ->]. by apply take_string_inv in E as [-> _].
Qed.

Lemma peer_kind_inv b k : peer_kind b = Ok k → b = peer_tag k.
Proof. destruct b; simpl; intros [= <-] || done; reflexivity. Qed.

(** Decoding is exact: a frame is read as the one envelope it encodes. *)
Lemma decode_frame_inv frame e :
  decode_peer_envelope frame = Ok e → frame = frame_of e ++ PeerEnvelope.tag e ∧ envelope_ok e.
Proof.
  unfold decode_peer_envelope. destruct (_ || _) eqn:E0; [done|].
  rewrite !orb_false_iff, negb_false_iff, bool_decide_eq_true in E0. destruct E0 as [_ Hmagic].
  destruct (take_string _ _) as [[cid c1]|] eqn:E1; [|done]. destruct (take_node c1) as [[sd c2]|] eqn:E2; [|done].
  destruct (take_node c2) as [[rc c3]|] eqn:E3; [|done]. destruct (take_int 8 c3) as [[tm c4]|] eqn:E4; [|done].
  destruct (take_int 8 c4) as [[sq c5]|] eqn:E5; [|done]. destruct c5 as [|b c5]; [done|].
  destruct (peer_kind b) as [kd|] eqn:E6; [|done]. destruct (take_int 4 c5) as [[n c6]|] eqn:E7; [|done].
  destruct (_ || _) eqn:E8; [done|]. destruct ((tm =? 0)%N || (sq =? 0)%N) eqn:E9; [done|]. intros [= <-].
  rewrite orb_false_iff, N.ltb_ge, negb_false_iff, N.eqb_eq in E8. destruct E8 as [Hn Hc]. rewrite orb_false_iff, !N.eqb_neq in E9.
  apply take_string_inv in E1 as (Hf & ? & ? & ?). apply take_node_inv in E2 as ->. apply take_node_inv in E3 as ->.
  apply take_int_inv in E4 as [-> Ht]. apply take_int_inv in E5 as [-> Hs]. apply peer_kind_inv in E6 as ->.
  apply take_int_inv in E7 as [-> _]. unfold len in Hc.
  assert (len (take (N.to_nat n) c6) = n) as Hp by (unfold len; rewrite length_take; lia).
  change (256 ^ N.of_nat 8)%N with 18446744073709551616%N in *.
  split; [|split; simpl; try done; unfold U64_MAX; [lia|lia|by rewrite Hp|rewrite length_drop; lia]].
  unfold frame_of. cbn [PeerEnvelope.cluster_id PeerEnvelope.sender PeerEnvelope.receiver PeerEnvelope.term PeerEnvelope.sequence
    PeerEnvelope.kind PeerEnvelope.payload PeerEnvelope.tag]. rewrite Hp, <- (take_drop 5 frame), Hmagic, Hf, <- !(assoc_L (++)).
  rewrite <- (take_drop (N.to_nat n) c6) at 1. done.
Qed.

Lemma frame_of_inj e e' :
  envelope_ok e → envelope_ok e' → frame_of e = frame_of e' → PeerEnvelope.tag e = PeerEnvelope.tag e' → e = e'.
Proof.
  intros H H' Hf Ht. apply decode_frame in H, H'. rewrite Hf, Ht in H. congruence.
Qed.

(** * The stored sequence numbers *)
Section store.
Context `{Hm : Hmac} `{!HmacLaws}.

Definition seq_at (m : gmap NodeId N) (p : NodeId) : N := default 0%N (m !! p).
Definition bounded (m : gmap NodeId N) : Prop := ∀ p n, m !! p = Some n → (n ≤ U64_MAX)%N.

Lemma seq_at_bounded m p : bounded m → (seq_at m p < 256 ^ N.of_nat 8)%N.
Proof. intros Hb. unfold seq_at. destruct (m !! p) as [n|] eqn:E; simpl; [|lia]. specialize (Hb p n E). unfold U64_MAX in Hb. lia. Qed.

Lemma take_peers_put peers mi mo ai ao rest :
  bounded mi → bounded mo → NoDup peers → (∀ p, p ∈ peers → ai !! p = None ∧ ao !! p = None) →
  take_peers (length peers) (concat (put_peer mi mo <$> peers) ++ rest) ai ao =
    Ok (foldl (λ m p, <[p := seq_at mi p]> m) ai peers, foldl (λ m p, <[p := seq_at mo p]> m) ao peers, rest).
Proof.
  intros Hi Ho. revert ai ao. induction peers as [|p peers IH]; intros ai ao Hnd Hnone; [done|].
  apply NoDup_cons in Hnd as [Hp Hnd]. cbn [length take_peers fmap list_fmap concat foldl].
  unfold put_peer at 1. rewrite <- !(assoc_L (++)), take_node_put. cbv iota beta.
  rewrite take_int_put by (by apply seq_at_bounded). cbv iota beta. rewrite take_int_put by (by apply seq_at_bounded). cbv iota beta.
  destruct (Hnone p) as [-> ->]; [by left|]. rewrite !bool_decide_false by (by intros [? ?]). cbn [orb].
  apply IH; [done|]. intros q Hq. assert (p ≠ q) by (by intros ->). rewrite !lookup_insert_ne by done. apply Hnone. by right.
Qed.

Lemma foldl_seq_at m peers q acc :
  seq_at (foldl (λ m' p, <[p := seq_at m p]> m') acc peers) q = if decide (q ∈ peers) then seq_at m q else seq_at acc q.
Proof.
  revert acc. induction peers as [|p peers IH]; intros acc; cbn [foldl].
  { by rewrite decide_False by (by intros ?%elem_of_nil). }
  rewrite IH. destruct (decide (q ∈ peers)); [by rewrite decide_True by (by right)|].
  destruct (decide (q = p)) as [->|Hne].
  - rewrite decide_True by (by left). unfold seq_at at 1. by rewrite lookup_insert_eq.
  - rewrite decide_False by (by intros [?|?]%elem_of_cons). unfold seq_at at 1. by rewrite lookup_insert_ne.
Qed.

Lemma btree_elems_NoDup (s : gset NodeId) : NoDup (btree_elems s).
Proof. unfold btree_elems. rewrite merge_sort_Permutation. apply NoDup_elements. Qed.

Lemma btree_elems_length (s : gset NodeId) : length (btree_elems s) = size s.
Proof. unfold btree_elems. by rewrite merge_sort_Permutation. Qed.

(** What is stored is read back, up to absent entries, which count as zero. *)
Lemma decode_encode_state mi mo key bytes :
  bounded mi → bounded mo → encode_peer_state mi mo key = Ok bytes →
  ∃ mi' mo', decode_peer_state bytes key = Ok (mi', mo') ∧ bounded mi' ∧ bounded mo' ∧
    (∀ p, seq_at mi' p = seq_at mi p) ∧ (∀ p, seq_at mo' p = seq_at mo p).
Proof.
  intros Hi Ho. unfold encode_peer_state. destruct (N.ltb_spec MAX_PEERS (N.of_nat (size (state_peers mi mo)))) as [|Hsize]; [done|].
  unfold MAX_PEERS in Hsize. set (peers := btree_elems (state_peers mi mo)).
  assert (Hlen : length peers = size (state_peers mi mo)) by apply btree_elems_length.
  set (entries := concat _). set (body := PEER_STATE_MAGIC ++ _). intros E.
  assert (bytes = body ++ hmac_sign HMAC_SHA256 key body) as -> by congruence. clear E. unfold decode_peer_state.
  assert (Hb : len (body ++ hmac_sign HMAC_SHA256 key body) = (len entries + 39)%N).
  { unfold len, body. rewrite !length_app, be_bytes_length, hmac_length. cbn. lia. }
  rewrite (proj2 (N.ltb_ge _ _)) by (rewrite Hb; lia).
  assert (take 5 (body ++ hmac_sign HMAC_SHA256 key body) = PEER_STATE_MAGIC) as -> by reflexivity.
  rewrite bool_decide_true by done. cbn [negb orb].
  assert (length (body ++ hmac_sign HMAC_SHA256 key body) - 32 = length body) as ->.
  { rewrite length_app, hmac_length. cbn. lia. }
  rewrite take_app_length, drop_app_length, bool_decide_true by done. cbn [negb].
  assert (slice 5 2 (body ++ hmac_sign HMAC_SHA256 key body) = be_bytes 2 (N.of_nat (size (state_peers mi mo)))) as ->.
  { unfold body. rewrite <- !(assoc_L (++)). by apply slice_app; [|apply be_bytes_length]. }
  rewrite of_be_bytes_small by (simpl; lia). rewrite (proj2 (N.ltb_ge _ _)) by (unfold MAX_PEERS; lia).
  assert (drop 7 body = entries ++ []) as ->.
  { unfold body. rewrite (assoc_L (++)), drop_app_length'; [by rewrite app_nil_r|]. rewrite length_app, be_bytes_length. done. }
  rewrite Nat2N.id, <- Hlen. unfold entries. rewrite take_peers_put; [|done|done|apply btree_elems_NoDup|done].
  rewrite bool_decide_true by done. eexists _, _. split; [reflexivity|].
  assert (Hat : ∀ m p, dom m ⊆ state_peers mi mo →
    seq_at (foldl (λ m' p, <[p := seq_at m p]> m') ∅ peers) p = seq_at m p).
  { intros m p Hd. rewrite foldl_seq_at. case_decide as Hp; [done|]. unfold seq_at. rewrite lookup_empty.
    unfold peers in Hp. rewrite elem_of_btree_elems in Hp. rewrite (not_elem_of_dom_1 m p) by set_solver. done. }
  assert (Hbd : ∀ m, bounded m → bounded (foldl (λ m' p, <[p := seq_at m p]> m') ∅ peers)).
  { intros m Hm'. assert (∀ acc, bounded acc → bounded (foldl (λ m' p, <[p := seq_at m p]> m') acc peers)) as Hgo; [|by apply Hgo].
    generalize peers. intros l. induction l as [|q l IH]; intros acc Hacc; [done|]. cbn [foldl]. apply IH.
    intros r n Hr. apply lookup_insert_Some in Hr as [[<- <-]|[_ Hr]]; [|by eapply Hacc].
    pose proof (seq_at_bounded m q Hm') as Hq. change (256 ^ N.of_nat 8)%N with 18446744073709551616%N in Hq. unfold U64_MAX. lia. }
  split_and!; [by apply Hbd|by apply Hbd|..]; intros p; apply Hat; unfold state_peers; set_solver.
Qed.
End store.

(** * A node and its peers *)
Section node.
Context `{Hm : Hmac} `{!HmacLaws}.
Context (key : list u8) (auth : PeerAuthenticator) (local : NodeId).
Notation Sequences := PersistentPeerSequences.
Import PersistentPeerSequences.

(** A node runs, or is down with its file. *)
Inductive Node : Type := Up (s : Sequences) | Down (f : option (list u8)).
Definition node_file (n : Node) : option (list u8) := match n with Up s => file s | Down f => f end.

(** It stops and tries to start again; a frame arrives; a number for a frame to a peer
    is drawn. *)
Inductive Action : Type :=
| Restart (guard : HResult unit) (readable : bool)
| Deliver (fate : WriteFate) (frame : list u8)
| Draw (fate : WriteFate) (receiver : NodeId).
Inductive Event : Type := Accepted (e : PeerEnvelope) | Issued (receiver : NodeId) (sequence : N).

Definition act (a : Action) (n : Node) : Node * list Event :=
  match a, n with
  | Restart guard readable, _ =>
      match PersistentPeerSequences.open guard readable (node_file n) key with Ok s => (Up s, []) | Err _ => (Down (node_file n), []) end
  | Deliver fate frame, Up s =>
      match decode_peer_envelope frame with
      | Err _ => (n, [])
      | Ok e => match admit_peer_envelope fate local auth e s with (s, Ok _) => (Up s, [Accepted e]) | (s, Err _) => (Up s, []) end
      end
  | Draw fate receiver, Up s =>
      match next_outgoing fate receiver s with (s, Ok m) => (Up s, [Issued receiver m]) | (s, Err _) => (Up s, []) end
  | _, Down _ => (n, [])
  end.

Fixpoint act_all (acts : list Action) (n : Node) : Node * list Event :=
  match acts with
  | [] => (n, [])
  | a :: acts => let '(n, e1) := act a n in let '(n, e2) := act_all acts n in (n, e1 ++ e2)
  end.

(** Later numbers of a peer are larger. *)
Definition before (x y : Event) : Prop :=
  match x, y with
  | Accepted e, Accepted e' => PeerEnvelope.sender e = PeerEnvelope.sender e' → (PeerEnvelope.sequence e < PeerEnvelope.sequence e')%N
  | Issued p m, Issued p' m' => p = p' → (m < m')%N
  | _, _ => True
  end.

(** The numbers known account for the event. *)
Definition accounts (i o : gmap NodeId N) (x : Event) : Prop :=
  match x with
  | Accepted e => (PeerEnvelope.sequence e ≤ seq_at i (PeerEnvelope.sender e))%N ∧ PeerAuthenticator.verify auth local e = Ok tt
  | Issued p m => (m ≤ seq_at o p)%N
  end.

Record known (events : list Event) (i o : gmap NodeId N) : Prop := {
  kn_incoming : bounded i;
  kn_outgoing : bounded o;
  kn_events : Forall (accounts i o) events;
}.

Definition file_ok (events : list Event) (f : option (list u8)) : Prop :=
  match f with
  | None => known events ∅ ∅
  | Some bytes => ∃ i o, encode_peer_state i o key = Ok bytes ∧ known events i o
  end.

Definition node_ok (events : list Event) (n : Node) : Prop :=
  file_ok events (node_file n) ∧
  match n with Up s => PersistentPeerSequences.key s = key ∧ known events (incoming s) (outgoing s) | Down _ => True end.

Lemma known_at events i o i' o' :
  known events i o → bounded i' → bounded o' → (∀ p, (seq_at i p ≤ seq_at i' p)%N) → (∀ p, (seq_at o p ≤ seq_at o' p)%N) →
  known events i' o'.
Proof.
  intros [_ _ He] Hi Ho Li Lo. split; [done..|]. eapply Forall_impl; [exact He|]. intros [e|p m]; simpl.
  - intros [? ?]. split; [|done]. by etrans.
  - intros ?. by etrans.
Qed.

(** What a write leaves. *)
Lemma persist_any fate s s' r :
  persist fate s = (s', r) →
  ∃ f, s' = set_file f s ∧
    ((∃ bytes, encode_peer_state (incoming s) (outgoing s) (PersistentPeerSequences.key s) = Ok bytes ∧ f = Some bytes)
     ∨ is_ok r = false ∧ f = file s).
Proof.
  unfold persist. destruct (encode_peer_state _ _ _) as [bytes|e] eqn:E.
  - unfold atomic_write. destruct fate; intros [= <- <-]; eexists; (split; [reflexivity|]); eauto.
  - intros [= <- <-]. exists (file s). split; [by destruct s|]. by right.
Qed.

Lemma restore_insert m p (n : N) : restore p (m !! p) (<[p := n]> m) = m.
Proof.
  unfold restore. destruct (m !! p) as [v|] eqn:E.
  - by rewrite insert_insert_eq, insert_id.
  - by rewrite delete_insert_id.
Qed.

Lemma seq_at_insert m p n q : seq_at (<[p := n]> m) q = if decide (q = p) then n else seq_at m q.
Proof. unfold seq_at. destruct (decide (q = p)) as [->|]; [by rewrite lookup_insert_eq|by rewrite lookup_insert_ne]. Qed.

Lemma bounded_insert m p n : bounded m → (n ≤ U64_MAX)%N → bounded (<[p := n]> m).
Proof. intros Hb Hn q v [[<- <-]|[_ Hv]]%lookup_insert_Some; [done|by eapply Hb]. Qed.

Lemma known_prefix events events' i o : known (events ++ events') i o → known events i o.
Proof. intros [? ? [? _]%Forall_app]. by split. Qed.

(** A write of numbers that account for one more event. *)
Lemma persist_ok events x fate s s' r :
  PersistentPeerSequences.key s = key → file_ok events (file s) → known (events ++ [x]) (incoming s) (outgoing s) →
  persist fate s = (s', r) →
  ∃ f, s' = set_file f s ∧ (if is_ok r then file_ok (events ++ [x]) f else file_ok events f).
Proof.
  intros Hkey Hf Hk (f & -> & Hw)%persist_any. exists f. split; [done|]. rewrite Hkey in Hw.
  destruct Hw as [(bytes & Eb & ->)|[-> ->]]; [|done]. destruct (is_ok r); eexists _, _; (split; [exact Eb|]); [done|].
  by eapply known_prefix.
Qed.

Lemma accept_keeps events e fate s s' r :
  node_ok events (Up s) → (PeerEnvelope.sequence e ≤ U64_MAX)%N → PeerAuthenticator.verify auth local e = Ok tt →
  accept_incoming fate (PeerEnvelope.sender e) (PeerEnvelope.sequence e) s = (s', r) →
  if is_ok r then node_ok (events ++ [Accepted e]) (Up s') ∧ Forall (λ x, before x (Accepted e)) events else node_ok events (Up s').
Proof.
  intros (Hf & Hkey & Hk) Hmax Hv. unfold accept_incoming. simpl in Hf. destruct (_ || _) eqn:E; [by intros [= <- <-]|].
  rewrite orb_false_iff, N.eqb_neq in E. destruct E as [Hpos Hnew].
  assert (Hlt : (seq_at (incoming s) (PeerEnvelope.sender e) < PeerEnvelope.sequence e)%N).
  { unfold seq_at. destruct (incoming s !! _); simpl; [by apply N.leb_gt|lia]. }
  set (s1 := set_incoming _ s). destruct (persist fate s1) as [s2 r2] eqn:Ep.
  assert (Hk1 : known (events ++ [Accepted e]) (incoming s1) (outgoing s1)).
  { assert (known events (incoming s1) (outgoing s1)) as [Bi Bo He].
    { eapply known_at; [exact Hk|by apply bounded_insert; [apply Hk|]|apply Hk| |done].
      intros p. simpl. rewrite seq_at_insert. case_decide; [subst; lia|done]. }
    split; [done..|]. apply Forall_app. split; [done|]. apply Forall_singleton. simpl. rewrite seq_at_insert, decide_True by done. done. }
  apply (persist_ok events (Accepted e)) in Ep as (f & -> & Hf'); [|done|done|done].
  destruct r2 as [u|err]; intros [= <- <-]; simpl.
  - split; [split; [exact Hf'|split; [exact Hkey|exact Hk1]]|]. destruct Hk as [_ _ He]. eapply Forall_impl; [exact He|]. intros [e'|p m]; simpl; [|done].
    intros [Hle _] Hs. rewrite <- Hs in Hlt. lia.
  - split; [done|]. split; [done|]. simpl. by rewrite restore_insert.
Qed.

Lemma draw_keeps events p fate s s' r :
  node_ok events (Up s) → next_outgoing fate p s = (s', r) →
  match r with
  | Ok m => node_ok (events ++ [Issued p m]) (Up s') ∧ Forall (λ x, before x (Issued p m)) events
  | Err _ => node_ok events (Up s')
  end.
Proof.
  intros (Hf & Hkey & Hk). unfold next_outgoing. simpl in Hf. fold (seq_at (outgoing s) p).
  unfold checked_add. destruct (N.leb_spec (seq_at (outgoing s) p + 1) U64_MAX) as [Hmax|]; [|by intros [= <- <-]].
  set (m := (seq_at (outgoing s) p + 1)%N) in *. set (s1 := set_outgoing _ s). destruct (persist fate s1) as [s2 r2] eqn:Ep.
  assert (Hk1 : known (events ++ [Issued p m]) (incoming s1) (outgoing s1)).
  { assert (known events (incoming s1) (outgoing s1)) as [Bi Bo He].
    { eapply known_at; [exact Hk|apply Hk|by apply bounded_insert; [apply Hk|]|done|].
      intros q. simpl. rewrite seq_at_insert. case_decide; [subst; lia|done]. }
    split; [done..|]. apply Forall_app. split; [done|]. apply Forall_singleton. simpl. by rewrite seq_at_insert, decide_True. }
  apply (persist_ok events (Issued p m)) in Ep as (f & -> & Hf'); [|done|done|done].
  destruct r2 as [u|err]; intros [= <- <-]; simpl.
  - split; [split; [exact Hf'|split; [exact Hkey|exact Hk1]]|]. destruct Hk as [_ _ He]. eapply Forall_impl; [exact He|]. intros [e'|q m']; simpl; [done|].
    intros Hle ->. lia.
  - split; [done|]. split; [done|]. simpl. by rewrite restore_insert.
Qed.

Lemma open_keeps events guard readable f s :
  file_ok events f → PersistentPeerSequences.open guard readable f key = Ok s → node_ok events (Up s).
Proof.
  intros Hf. unfold PersistentPeerSequences.open. destruct (zeros key); [done|]. destruct guard; [|done].
  destruct f as [bytes|]; [|by intros [= <-]]. destruct readable; [|done]. simpl.
  destruct Hf as (i & o & Eb & Hk). destruct (decode_encode_state i o key bytes) as (i' & o' & -> & Bi & Bo & Hi & Ho);
    [apply Hk|apply Hk|done|]. intros [= <-].
  split; [simpl; eauto|]. split; [done|]. simpl. eapply known_at; [exact Hk|done|done|..]; intros p; [by rewrite Hi|by rewrite Ho].
Qed.

Lemma act_keeps a events n :
  node_ok events n → let '(n', new) := act a n in
  node_ok (events ++ new) n' ∧ (∀ x y, x ∈ events → y ∈ new → before x y) ∧ length new ≤ 1.
Proof.
  intros Hn. assert (Hnone : ∀ n', node_ok events n' →
    node_ok (events ++ []) n' ∧ (∀ x y, x ∈ events → y ∈ [] → before x y) ∧ length ([] : list Event) ≤ 1).
  { intros n' H'. rewrite app_nil_r. split_and!; [done| |simpl; lia]. by intros x y _ ?%elem_of_nil. }
  assert (Hone : ∀ n' x, node_ok (events ++ [x]) n' → Forall (λ y, before y x) events →
    node_ok (events ++ [x]) n' ∧ (∀ y z, y ∈ events → z ∈ [x] → before y z) ∧ length [x] ≤ 1).
  { intros n' x H' Hb. split_and!; [done| |done]. intros y z Hy ->%list_elem_of_singleton. by eapply Forall_forall in Hb. }
  unfold act. destruct a as [guard readable|fate frame|fate p].
  - destruct (PersistentPeerSequences.open _ _ _ _) as [s|] eqn:E; apply Hnone; [|by split; [apply Hn|]].
    eapply open_keeps; [apply Hn|exact E].
  - destruct n as [s|]; [|by apply Hnone]. destruct (decode_peer_envelope frame) as [e|] eqn:Ed; [|by apply Hnone].
    unfold admit_peer_envelope. destruct (PeerAuthenticator.verify auth local e) as [[]|] eqn:Ev; [|by apply Hnone].
    destruct (accept_incoming _ _ _ s) as [s' r] eqn:Ea. apply decode_frame_inv in Ed as [_ Hok].
    apply (accept_keeps events) in Ea; [|done|apply Hok|done]. destruct r; [by apply Hone; apply Ea|by apply Hnone].
  - destruct n as [s|]; [|by apply Hnone]. destruct (next_outgoing fate p s) as [s' r] eqn:Ea.
    apply (draw_keeps events) in Ea; [|done]. destruct r; [by apply Hone; apply Ea|by apply Hnone].
Qed.

Lemma act_all_keeps acts events n :
  node_ok events n → StronglySorted before events →
  let '(n', new) := act_all acts n in node_ok (events ++ new) n' ∧ StronglySorted before (events ++ new).
Proof.
  revert events n. induction acts as [|a acts IH]; intros events n Hn Hs; simpl; [by rewrite app_nil_r|].
  pose proof (act_keeps a events n Hn) as Ha. destruct (act a n) as [n1 e1]. destruct Ha as (Hn1 & Hb & Hl).
  assert (StronglySorted before (events ++ e1)) as Hs1.
  { apply StronglySorted_app_2; [done|done|]. destruct e1 as [|x [|]]; [constructor|by repeat constructor|simpl in Hl; lia]. }
  specialize (IH _ _ Hn1 Hs1). destruct (act_all acts n1) as [n2 e2]. by rewrite (assoc_L (++)).
Qed.

(** C18: A peer's frame is admitted at most once.  Take a node that starts without a
    file and any sequence of arriving frames, whatever their bytes, of numbers drawn
    for its own frames, and of restarts, where each write of the numbers may fail
    before or after its effect and each start may fail.  Every admitted frame was
    authenticated; the numbers admitted from one peer, and the numbers drawn for one
    peer, strictly increase over all restarts; and a frame that was admitted is
    refused whenever it arrives again. *)
Theorem peer_admitted_once acts :
  let '(n, events) := act_all acts (Down None) in
  StronglySorted before events ∧
  (∀ e, Accepted e ∈ events → PeerAuthenticator.verify auth local e = Ok tt) ∧
  (∀ frame e fate restarts, decode_peer_envelope frame = Ok e → Accepted e ∈ events →
     (act (Deliver fate frame) (act_all restarts n).1).2 = []).
Proof.
  pose proof (act_all_keeps acts [] (Down None)) as H0.
  assert (node_ok [] (Down None)) as Hn by (split; [split; [by intros ? ? ?%lookup_empty_Some..|constructor]|done]).
  specialize (H0 Hn (SSorted_nil _)). destruct (act_all acts (Down None)) as [n events]. destruct H0 as [Hok Hs]. simpl in *.
  split; [done|]. split.
  - intros e He. destruct Hok as [Hf _]. unfold file_ok in Hf.
    assert (∃ i o, known events i o) as (i & o & [_ _ Hk]) by (destruct (node_file n) as [b|]; [destruct Hf as (?&?&_&?)|]; eauto).
    rewrite Forall_forall in Hk. by destruct (Hk _ He).
  - intros frame e fate restarts Hd He. pose proof (act_all_keeps restarts events n Hok Hs) as H1.
    destruct (act_all restarts n) as [n1 e1]. destruct H1 as [Hok1 _]. simpl.
    pose proof (act_keeps (Deliver fate frame) _ n1 Hok1) as H2. unfold act in *. destruct n1 as [s|]; [|done]. rewrite Hd in *.
    destruct (admit_peer_envelope fate local auth e s) as [s' [u|]]; [|done]. destruct H2 as (_ & Hb & _).
    specialize (Hb (Accepted e) (Accepted e)). simpl in Hb.
    assert (PeerEnvelope.sequence e < PeerEnvelope.sequence e)%N; [|lia]. apply Hb; [set_solver|by left|done].
Qed.
End node.

(** * Sending and receiving *)
Section delivery.
Context `{Hm : Hmac} `{!HmacLaws}.
Import PersistentPeerSequences.

Lemma sealed_ok cluster keys auth sender receiver term sequence kind payload e :
  PeerAuthenticator.new cluster keys = Ok auth → utf8_valid cluster → (term ≤ U64_MAX)%N → (sequence ≤ U64_MAX)%N →
  PeerAuthenticator.seal auth sender receiver term sequence kind payload = Ok e →
  envelope_ok e ∧ ∃ key, keys !! sender = Some key ∧
    e = PeerEnvelope.mk cluster sender receiver term sequence kind payload (hmac_sign HMAC_SHA256 key (frame_of e)) ∧
    auth = PeerAuthenticator.mk cluster keys.
Proof.
  unfold PeerAuthenticator.new. destruct (_ || _) eqn:E; [done|]. intros [= <-] Hu Ht Hs.
  rewrite !orb_false_iff, bool_decide_eq_false, N.ltb_ge in E. destruct E as [[[[Hc Hc'] _] _] _].
  unfold PeerAuthenticator.seal. simpl. destruct (_ || _) eqn:E; [done|].
  rewrite !orb_false_iff, !N.eqb_neq, N.ltb_ge in E. destruct E as [[H1 H2] H3].
  destruct (keys !! sender) as [key|]; [simpl|done].
  pose proof (body_of_ok (PeerEnvelope.mk cluster sender receiver term sequence kind payload [])) as Hb. unfold body_of in Hb. simpl in Hb.
  rewrite Hb by done. intros [= <-]. split; [|by exists key].
  split; simpl; try done; lia.
Qed.

Lemma frame_bounds e : envelope_ok e → frame_of e ++ PeerEnvelope.tag e ≠ [] ∧ (len (frame_of e ++ PeerEnvelope.tag e) ≤ MAX_PAYLOAD_BYTES + 4096)%N.
Proof.
  intros Hok. pose proof (decode_frame e Hok) as Hd. unfold decode_peer_envelope in Hd. destruct (_ || _) eqn:E in Hd; [done|].
  rewrite !orb_false_iff, !N.ltb_ge in E. destruct E as [[H1 H2] _]. split; [|done]. intros Hz. by rewrite Hz in H1.
Qed.

Lemma bounded_frame frame wire rest :
  write_bounded_frame frame = Ok wire → read_bounded_frame (wire ++ rest) = Ok (frame, rest).
Proof.
  unfold write_bounded_frame. destruct (_ || _) eqn:E; [done|]. intros Hw. assert (wire = be_bytes 4 (len frame) ++ frame) as -> by congruence.
  rewrite orb_false_iff, bool_decide_eq_false, N.ltb_ge in E. destruct E as [Hne Hmax]. unfold MAX_PAYLOAD_BYTES in Hmax.
  assert (0 < len frame)%N as Hpos by (destruct frame; [done|unfold len; simpl; lia]).
  unfold read_bounded_frame. rewrite <- (assoc_L (++)).
  rewrite (proj2 (N.ltb_ge _ _)) by (unfold len; rewrite length_app, be_bytes_length; lia).
  rewrite take_app_length', drop_app_length' by (by rewrite be_bytes_length). rewrite of_be_bytes_small by (simpl; lia).
  rewrite (proj2 (N.eqb_neq _ _)), (proj2 (N.ltb_ge _ _)) by (unfold MAX_PAYLOAD_BYTES; lia). cbn [orb].
  rewrite (proj2 (N.ltb_ge _ _)) by (unfold len; rewrite length_app; lia).
  unfold len. by rewrite Nat2N.id, take_app_length, drop_app_length.
Qed.

(** C19: What a node seals reaches its peer, and nothing else does under its tag.  A
    sealed envelope has a frame; the frame crosses the transport unchanged, is decoded
    to the same envelope, and is admitted by the receiver when its number is new and
    the numbers can be stored, which then hold it.  Any frame that decodes to an
    envelope of the same sender with the same tag and passes verification is this
    envelope, unless it is itself a forgery: the bodies of the two envelopes, which
    cover every field but the tag, differ and have one tag under the sender's key. *)
Theorem peer_frame_delivered cluster keys auth sender receiver term sequence kind payload e :
  PeerAuthenticator.new cluster keys = Ok auth → utf8_valid cluster → (term ≤ U64_MAX)%N → (sequence ≤ U64_MAX)%N →
  PeerAuthenticator.seal auth sender receiver term sequence kind payload = Ok e →
  ∃ frame wire, encode_peer_envelope e = Ok frame ∧ write_bounded_frame frame = Ok wire ∧
    (∀ rest, read_bounded_frame (wire ++ rest) = Ok (frame, rest)) ∧ decode_peer_envelope frame = Ok e ∧
    (∀ s, (seq_at (incoming s) sender < sequence)%N →
       (N.of_nat (size (state_peers (incoming s) (outgoing s) ∪ {[sender]})) ≤ MAX_PEERS)%N →
       ∃ s', admit_peer_envelope Written receiver auth e s = (s', Ok tt) ∧ incoming s' = <[sender := sequence]> (incoming s)) ∧
    (∀ frame' e', decode_peer_envelope frame' = Ok e' → PeerEnvelope.sender e' = sender →
       PeerEnvelope.tag e' = PeerEnvelope.tag e → PeerAuthenticator.verify auth receiver e' = Ok tt →
       e' = e ∨ ∃ key body body', keys !! sender = Some key ∧ body_of e = Ok body ∧ body_of e' = Ok body' ∧
         body' ≠ body ∧ hmac_sign HMAC_SHA256 key body' = hmac_sign HMAC_SHA256 key body).
Proof.
  intros Hnew Hu Ht Hs Hseal. destruct (sealed_ok _ _ _ _ _ _ _ _ _ _ Hnew Hu Ht Hs Hseal) as (Hok & key & Hkey & He & ->).
  assert (Hbody : ∀ x, envelope_ok x → body_of x = Ok (frame_of x)) by (intros x Hx; apply body_of_ok; apply Hx).
  destruct (frame_bounds e Hok) as [Hne Hmax].
  assert (PeerEnvelope.cluster_id e = cluster ∧ PeerEnvelope.sender e = sender ∧ PeerEnvelope.receiver e = receiver ∧
    PeerEnvelope.sequence e = sequence) as (F1 & F2 & F3 & F4) by (rewrite He; done).
  assert (PeerEnvelope.tag e = hmac_sign HMAC_SHA256 key (frame_of e)) as F5 by (rewrite He at 1; done).
  assert (Hw : write_bounded_frame (frame_of e ++ PeerEnvelope.tag e) = Ok (be_bytes 4 (len (frame_of e ++ PeerEnvelope.tag e)) ++ frame_of e ++ PeerEnvelope.tag e)).
  { unfold write_bounded_frame. by rewrite bool_decide_false, (proj2 (N.ltb_ge _ _)) by done. }
  exists (frame_of e ++ PeerEnvelope.tag e). eexists. unfold encode_peer_envelope. rewrite Hbody by done.
  split; [done|]. split; [exact Hw|]. split; [intros rest; by apply bounded_frame|]. split; [by apply decode_frame|]. split.
  - intros s Hlt Hsize. unfold admit_peer_envelope, PeerAuthenticator.verify. rewrite Hbody, F1, F2, F3, F4, F5 by done.
    rewrite !bool_decide_true by done. simpl. rewrite Hkey. simpl. rewrite bool_decide_true by done. unfold accept_incoming.
    assert ((sequence =? 0)%N || match incoming s !! sender with Some observed => (sequence <=? observed)%N | None => false end = false) as ->.
    { apply orb_false_iff. split; [apply N.eqb_neq; lia|]. unfold seq_at in Hlt. destruct (incoming s !! sender); [by apply N.leb_gt|done]. }
    unfold persist, encode_peer_state. simpl.
    assert (state_peers (<[sender := sequence]> (incoming s)) (outgoing s) = state_peers (incoming s) (outgoing s) ∪ {[sender]}) as ->.
    { unfold state_peers. rewrite dom_insert_L. set_solver. }
    rewrite (proj2 (N.ltb_ge _ _)) by done. eexists. split; [reflexivity|]. done.
  - intros frame' e' Hd Hsd Htag. apply decode_frame_inv in Hd as [_ Hok']. unfold PeerAuthenticator.verify.
    destruct (_ || _); [done|]. rewrite Hsd. simpl. rewrite Hkey. simpl. rewrite Hbody by done.
    destruct (bool_decide_reflect (PeerEnvelope.tag e' = hmac_sign HMAC_SHA256 key (frame_of e'))) as [Htag'|]; [|done]. intros _.
    destruct (decide (frame_of e' = frame_of e)) as [Hf|Hf]; [left; by apply frame_of_inj|right].
    exists key, (frame_of e), (frame_of e'). split_and!; [done..|].
    by rewrite <- Htag', Htag, F5.
Qed.
End delivery.

(** * Operations *)
Section operations.
Context {D F : Type} `{CD : ConsensusDriver D, FC : ForwardClient F, Sh : Sha256}.
Implicit Types (s : HaService D F) (op : ClientOperation).

Definition execute_all (ops : list ClientOperation) s : HaService D F := foldl (λ s op, (execute op s).1) s ops.

Lemma perform_completed view op s : completed (perform_operation view op s).1 = completed s.
Proof.
  unfold perform_operation. destruct (bool_decide _); [destruct (ClientOperation.kind op)|];
    [destruct (execute_linearizable_read _ _)|destruct (execute_leader_mutation _ _)|destruct (forward _ _ _ _)]; done.
Qed.

Lemma execute_completed op s id v : completed s !! id = Some v → completed (execute op s).1 !! id = Some v.
Proof.
  intros Hid. unfold execute. destruct (completed s !! ClientOperation.operation_id op) as [[k r]|] eqn:E; [by case_bool_decide|].
  destruct (leader_view _) as [view|]; [|done]. destruct (negb _); [done|].
  pose proof (perform_completed view op s) as Hp. destruct (perform_operation view op s) as [s1 [r|]]; simpl in *; [|by rewrite Hp].
  destruct (_ || _); [by simpl; rewrite Hp|]. destruct (_ <=? _)%N; simpl; [by rewrite Hp|].
  rewrite lookup_insert_ne by (intros He; rewrite He in E; congruence). by rewrite Hp.
Qed.

Lemma execute_records op s s' r :
  execute op s = (s', Ok r) → completed s' !! ClientOperation.operation_id op = Some (ClientOperation.request_digest op, r).
Proof.
  unfold execute. destruct (completed s !! _) as [[k r']|] eqn:E.
  { case_bool_decide as Hk; intros [= <- <-]. by rewrite E, Hk. }
  destruct (leader_view _) as [view|]; [|done]. destruct (negb _); [done|].
  destruct (perform_operation view op s) as [s1 [r1|]]; [|done]. destruct (_ || _); [done|]. destruct (_ <=? _)%N; [done|].
  intros [= <- <-]. apply lookup_insert_eq.
Qed.

(** C20: An operation that was answered is never run again.  After any further
    operations, the same request under its identifier gets the same answer, and a
    different request under that identifier is refused; neither reaches the consensus
    driver or the leader, nor changes anything. *)
Theorem retries_answered op s s' r later op' :
  execute op s = (s', Ok r) → ClientOperation.operation_id op' = ClientOperation.operation_id op →
  let now := execute_all later s' in
  execute op' now =
    (now, if decide (ClientOperation.request_digest op = ClientOperation.request_digest op') then Ok r else Err OperationIdConflict).
Proof.
  intros He Hid. cbv zeta. apply execute_records in He.
  assert (Hl : completed (execute_all later s') !! ClientOperation.operation_id op = Some (ClientOperation.request_digest op, r)).
  { clear Hid. revert s' He. induction later as [|o later IH]; intros s' He; [done|]. simpl. apply IH. by apply execute_completed. }
  unfold execute at 1. rewrite Hid, Hl. case_bool_decide; [by rewrite decide_True|by rewrite decide_False].
Qed.
End operations.

(** * Quorums *)
Lemma majorities_meet (voters a b : gset NodeId) :
  has_majority voters a = true → has_majority voters b = true → ∃ p, p ∈ voters ∧ p ∈ a ∧ p ∈ b.
Proof.
  unfold has_majority. rewrite !Nat.ltb_lt. intros Ha Hb.
  destruct (set_choose_or_empty ((voters ∩ a) ∩ (voters ∩ b))) as [[p Hp]|Hempty]; [exists p; set_solver|].
  assert (size ((voters ∩ a) ∪ (voters ∩ b)) = size (voters ∩ a) + size (voters ∩ b)) as Hs by (apply size_union; set_solver).
  assert (size ((voters ∩ a) ∪ (voters ∩ b)) ≤ size voters) by (apply subseteq_size; set_solver).
  pose proof (Nat.div_mod_eq (size voters) 2). pose proof (Nat.mod_upper_bound (size voters) 2). lia.
Qed.

(** Two quorums of a membership change share a voter of the old and one of the new
    configuration, so neither configuration can decide alone against the other. *)
Lemma joint_quorums_meet t a b :
  MembershipTransition.joint_quorum t a = true → MembershipTransition.joint_quorum t b = true →
  (∃ p, p ∈ MembershipTransition.old_voters t ∧ p ∈ a ∧ p ∈ b) ∧ (∃ p, p ∈ MembershipTransition.new_voters t ∧ p ∈ a ∧ p ∈ b).
Proof.
  unfold MembershipTransition.joint_quorum. rewrite !andb_true_iff. intros [? ?] [? ?]. split; by apply majorities_meet.
Qed.

(** * Snapshots *)
Section snapshots.
Context `{Sh : Sha256}.
Import SnapshotManifest.

(** A built manifest accepts its chunks, and no others unless the hash collides. *)
Lemma snapshot_verified id tm ix chunks m :
  build id tm ix chunks = Ok m →
  verify m chunks = Ok tt ∧
  ∀ chunks', verify m chunks' = Ok tt → chunks' = chunks ∨ ∃ x y, x ≠ y ∧ sha256 x = sha256 y.
Proof.
  unfold build. destruct (_ || _); [done|]. destruct (total chunks) as [t|] eqn:Et; [|done]. simpl. intros [= <-]. unfold verify. simpl. split.
  - rewrite Et. simpl. unfold len. rewrite length_fmap, !N.eqb_refl, bool_decide_true by done. simpl.
    destruct (existsb _ _) eqn:E; [|done]. apply existsb_exists in E as ([c d] & Hin & Hne).
    apply list_elem_of_In, elem_of_lookup_zip_with in Hin as (i & c' & d' & [= <- <-] & Hc & Hd).
    rewrite list_lookup_fmap, Hc in Hd. simplify_eq/=. by rewrite bool_decide_true in Hne.
  - intros chunks'. destruct (negb (len chunks' =? _)%N) eqn:El; [done|]. apply negb_false_iff, N.eqb_eq in El. unfold len in El.
    rewrite length_fmap in El. destruct (total chunks'); [|done]. simpl. destruct (_ || _) eqn:E; [done|]. intros _.
    rewrite !orb_false_iff in E. destruct E as [[_ E] _]. apply Nat2N.inj in El.
    assert (Hd : sha256 <$> chunks' = sha256 <$> chunks).
    { apply list_eq_same_length with (length chunks); [by rewrite length_fmap|by rewrite length_fmap|]. intros i x y Hi Hx Hy.
      rewrite list_lookup_fmap in Hx. destruct (chunks' !! i) as [c|] eqn:Hc; [|done]. simplify_eq/=.
      destruct (decide (sha256 c = y)) as [|Hne]; [done|].
      assert (existsb (λ p, negb (bool_decide (sha256 p.1 = p.2))) (zip chunks' (sha256 <$> chunks)) = true) as Ht; [|congruence].
      apply existsb_exists. exists (c, y). split; [|by rewrite bool_decide_false].
      apply list_elem_of_In, elem_of_lookup_zip_with. eauto 10. }
    clear -Hd. revert chunks' Hd. induction chunks as [|c chunks IH]; intros [|c' chunks'] Hd; simplify_eq/=; [by left|].
    destruct (decide (c' = c)) as [->|Hne]; [|right; by exists c', c]. destruct (IH chunks') as [->|?]; [done|by left|by right].
Qed.
End snapshots.

(** * Runs *)
From S2P Require Import TotpSpec.

Module HaDemo.
#[export] Existing Instance TotpDemo.toy_hmac.
#[export] Existing Instance TotpDemo.toy_hmac_laws.

Definition alpha : NodeId := NodeId.mk "a" I.
Definition beta : NodeId := NodeId.mk "b" I.
Definition keys : gmap NodeId (list u8) := {[ alpha := [x07] ]}.
Definition auth : PeerAuthenticator := PeerAuthenticator.mk "c" keys.
Definition envelope (sequence : N) : PeerEnvelope :=
  PeerEnvelope.mk "c" alpha beta 1 sequence ReadIndex [] (hmac_sign HMAC_SHA256 [x07]
    (frame_of (PeerEnvelope.mk "c" alpha beta 1 sequence ReadIndex [] []))).
Definition frame (sequence : N) : list u8 := frame_of (envelope sequence) ++ PeerEnvelope.tag (envelope sequence).

(** A replay, a replay after a restart, a frame whose number is not stored. *)
Definition story : list Action :=
  [Restart (Ok tt) true; Deliver Written (frame 1); Deliver Written (frame 1); Restart (Ok tt) true; Deliver Written (frame 1);
   Deliver NotWritten (frame 2); Deliver Written (frame 2); Draw Written beta].

(** A driver that counts the mutations it runs. *)
#[export] Instance counter : ConsensusDriver nat := {|
  local_node _ := alpha;
  leader_view _ := Ok (LeaderView.mk alpha 1 0 true);
  execute_leader_mutation _ n := (S n, Ok (ClientResult.mk 1 (N.of_nat (S n)) []));
  execute_linearizable_read _ n := (n, Ok (ClientResult.mk 1 (N.of_nat n) []));
|}.
#[export] Instance no_peer : ForwardClient unit := λ _ _ _ u, (u, Err Transport).
#[export] Instance hash : Sha256 := λ bytes, bytes.
Definition fresh (limit : N) : HaService nat unit := mk_service 0 tt ∅ limit.
Definition write (id : u8) : ClientOperation := ClientOperation.mk [id] Mutation [x01].
End HaDemo.
Import HaDemo.

Lemma peer_admitted_once_witness :
  let '(n, events) := act_all [x09] auth beta story (Down None) in
  events = [Accepted (envelope 1); Accepted (envelope 2); Issued beta 1] ∧
  StronglySorted before events ∧
  (∀ e, Accepted e ∈ events → PeerAuthenticator.verify auth beta e = Ok tt) ∧
  (∀ frame e fate restarts, decode_peer_envelope frame = Ok e → Accepted e ∈ events →
     (act [x09] auth beta (Deliver fate frame) (act_all [x09] auth beta restarts n).1).2 = []).
Proof.
  assert (He : (act_all [x09] auth beta story (Down None)).2 = [Accepted (envelope 1); Accepted (envelope 2); Issued beta 1])
    by (vm_compute; reflexivity).
  pose proof (peer_admitted_once [x09] auth beta story) as H. destruct (act_all [x09] auth beta story (Down None)) as [n events].
  simpl in He. split; [exact He|exact H].
Defined.

Lemma peer_frame_delivered_witness :
  ∃ frame wire, encode_peer_envelope (envelope 3) = Ok frame ∧ write_bounded_frame frame = Ok wire ∧
    (∀ rest, read_bounded_frame (wire ++ rest) = Ok (frame, rest)) ∧ decode_peer_envelope frame = Ok (envelope 3) ∧
    (∀ s, (seq_at (PersistentPeerSequences.incoming s) alpha < 3)%N →
       (N.of_nat (size (state_peers (PersistentPeerSequences.incoming s) (PersistentPeerSequences.outgoing s) ∪ {[alpha]})) ≤ MAX_PEERS)%N →
       ∃ s', admit_peer_envelope Written beta auth (envelope 3) s = (s', Ok tt) ∧
         PersistentPeerSequences.incoming s' = <[alpha := 3%N]> (PersistentPeerSequences.incoming s)) ∧
    (∀ frame' e', decode_peer_envelope frame' = Ok e' → PeerEnvelope.sender e' = alpha →
       PeerEnvelope.tag e' = PeerEnvelope.tag (envelope 3) → PeerAuthenticator.verify auth beta e' = Ok tt →
       e' = envelope 3 ∨ ∃ key body body', keys !! alpha = Some key ∧ body_of (envelope 3) = Ok body ∧ body_of e' = Ok body' ∧
         body' ≠ body ∧ hmac_sign HMAC_SHA256 key body' = hmac_sign HMAC_SHA256 key body).
Proof.
  apply (peer_frame_delivered "c" keys auth alpha beta 1 3 ReadIndex [] (envelope 3)).
  - vm_compute. reflexivity.
  - exact I.
  - discriminate.
  - discriminate.
  - vm_compute. reflexivity.
Defined.

Lemma retries_answered_witness :
  let now := execute_all [write x02] (execute (write x01) (fresh 9)).1 in
  execute (write x01) now = (now, Ok (ClientResult.mk 1 1 [])) ∧ driver now = 2.
Proof.
  split; [|reflexivity].
  exact (retries_answered (write x01) (fresh 9) (execute (write x01) (fresh 9)).1 (ClientResult.mk 1 1 []) [write x02] (write x01)
    eq_refl eq_refl).
Defined.

(** When the table of answers is full, an operation is run before it is refused, and
    runs again when it is repeated. *)
Example full_table_runs_again :
  let s := (execute (write x01) (fresh 1)).1 in
  (execute (write x02) s).2 = Err CapacityExceeded ∧
  driver s = 1 ∧ driver (execute (write x02) s).1 = 2 ∧ driver (execute (write x02) (execute (write x02) s).1).1 = 3.
Proof. by vm_compute. Qed.
