(* ===== verification/HaState.v ===== *)
(** The replicated state of the server: the sealed proposals of
    [crates/heptabao-server/src/ha_state.rs], their text in the state machine
    ([crates/heptabao-raft-runtime/src/lib.rs], [process/node.rs]), and the commit and
    the reading of [crates/heptabao-server/src/ha.rs].

    The consensus library is the class [OpenRaft]: the leader it reports, its read
    index, the applied state, and the write of a client.  A call sees one state of the
    cluster: between its steps no other node commits.  The cipher is the class [Aead],
    the nonce an argument. *)
From Stdlib Require Import Ascii NArith Strings.Byte.
From S2P Require Import Prelude Str Gf256 Shamir Bytes Json Engine EngineState Base32 Acl DurableCodec DurableCodecSpec Seal Http HttpSpec.

(** * [ReplicatedStateProposal] *)
Definition MAGIC : list u8 := String.list_byte_of_string "HBSR1".
Definition NONCE_BYTES : nat := 12.
Definition DIGEST_BYTES : nat := 32.
Definition TAG_BYTES : nat := 16.
Definition MAX_CLUSTER_ID_BYTES : N := 128.
Definition MAX_OPERATION_ID_BYTES : N := 128.
Definition MAX_STATE_BYTES : N := 768 * 1024.
Definition HEADER_BYTES : nat := 5 + DIGEST_BYTES + NONCE_BYTES.

Inductive ReplicatedStateError : Type :=
| InvalidKey | InvalidCluster | InvalidState | InvalidEnvelope | BaseStateConflict
| AuthenticationFailed | DigestMismatch | RandomnessUnavailable.

Definition state_error_text (e : ReplicatedStateError) : string :=
  match e with
  | InvalidKey => "cluster replication key is invalid"
  | InvalidCluster => "cluster replication identity is invalid"
  | InvalidState => "replicated state is empty or exceeds the bounded maximum"
  | InvalidEnvelope => "replicated state envelope is malformed"
  | BaseStateConflict => "replicated state was derived from a stale base"
  | AuthenticationFailed => "replicated state authentication failed"
  | DigestMismatch => "replicated state digest does not match the committed envelope"
  | RandomnessUnavailable => "operating system randomness is unavailable"
  end.

Notation RResult A := (Result A ReplicatedStateError).

Definition zeros (bytes : list u8) : bool := forallb (λ b, bool_decide (b = x00)) bytes.
Definition operation_byte (c : ascii) : bool := is_ascii_alphanumeric c || bool_decide (c ∈ ["-"; "_"; "."; ":"]%char).
Definition operation_ok (id : string) : bool :=
  negb (bool_decide (id = "")) && (slen id <=? MAX_OPERATION_ID_BYTES)%N && str_all operation_byte id.

Module ReplicatedStateProposal.
Record t := mk { operation_id : string; digest : list u8; sealed : list u8 }.

Definition sealed_size (sealed : list u8) : bool :=
  (N.of_nat (HEADER_BYTES + TAG_BYTES) <=? len sealed)%N
  && (len sealed <=? N.of_nat HEADER_BYTES + MAX_STATE_BYTES + N.of_nat TAG_BYTES)%N.

Definition new (operation_id : string) (digest sealed : list u8) : RResult t :=
  if negb (operation_ok operation_id) || zeros digest || negb (sealed_size sealed) then Err InvalidEnvelope
  else Ok (mk operation_id digest sealed).
End ReplicatedStateProposal.
Notation ReplicatedStateProposal := ReplicatedStateProposal.t.

(** The base digest, the nonce and the payload. *)
Definition validate_envelope (proposal : ReplicatedStateProposal) : RResult (list u8 * list u8 * list u8) :=
  let sealed := ReplicatedStateProposal.sealed proposal in
  if negb (ReplicatedStateProposal.sealed_size sealed) then Err InvalidEnvelope
  else if negb (bool_decide (take 5 sealed = MAGIC)) then Err InvalidEnvelope
  else Ok (slice 5 DIGEST_BYTES sealed, slice (5 + DIGEST_BYTES) NONCE_BYTES sealed, drop HEADER_BYTES sealed).

Section codec.
Context `{A : Aead, Sh : Sha256, B64 : Base64}.

Record ClusterStateCodec := mk_codec { cluster_id : string; codec_key : Shamir.Key }.

Definition cluster_byte (c : ascii) : bool := is_ascii_alphanumeric c || bool_decide (c ∈ ["-"; "_"; "."]%char).

Definition new_codec (cluster_id : string) (key : list u8) : RResult ClusterStateCodec :=
  if bool_decide (cluster_id = "") || (MAX_CLUSTER_ID_BYTES <? slen cluster_id)%N
     || negb (str_all cluster_byte cluster_id
              || match b64_decode cluster_id with
                 | Some bytes => (length bytes =? 16) && bool_decide (b64_encode bytes = cluster_id)
                 | None => false
                 end)
  then Err InvalidCluster
  else if zeros key then Err InvalidKey
  else
    let? unbound := ok_or (Shamir.unbound_key key) InvalidKey in
    Ok (mk_codec cluster_id unbound).

Definition aad (self : ClusterStateCodec) (operation_id : string) (base_digest next_digest : list u8) : RResult (list u8) :=
  if bool_decide (operation_id = "") || (MAX_OPERATION_ID_BYTES <? slen operation_id)%N then Err InvalidEnvelope
  else if (65535 <? slen (cluster_id self))%N then Err InvalidCluster
  else if (65535 <? slen operation_id)%N then Err InvalidEnvelope
  else Ok (MAGIC ++ be_bytes 2 (slen (cluster_id self)) ++ String.list_byte_of_string (cluster_id self)
           ++ be_bytes 2 (slen operation_id) ++ String.list_byte_of_string operation_id ++ base_digest ++ next_digest).

(** [nonce]: twelve random bytes. *)
Definition seal_state (self : ClusterStateCodec) (nonce : option (list u8)) (operation_id : string)
    (base_digest plaintext_state : list u8) : RResult ReplicatedStateProposal :=
  if bool_decide (plaintext_state = []) || (MAX_STATE_BYTES <? len plaintext_state)%N then Err InvalidState
  else
    let next_digest := sha256 plaintext_state in
    let? aad := aad self operation_id base_digest next_digest in
    let? nonce := ok_or (nonce_array nonce) RandomnessUnavailable in
    let? ciphertext := ok_or (seal_in_place_append_tag (codec_key self) nonce aad plaintext_state) AuthenticationFailed in
    ReplicatedStateProposal.new operation_id next_digest (MAGIC ++ base_digest ++ nonce ++ ciphertext).

Definition open_validated (self : ClusterStateCodec) (proposal : ReplicatedStateProposal) (base_digest nonce payload : list u8) :
  RResult (list u8) :=
  let? aad := aad self (ReplicatedStateProposal.operation_id proposal) base_digest (ReplicatedStateProposal.digest proposal) in
  let? plaintext := ok_or (open_in_place (codec_key self) nonce aad payload) AuthenticationFailed in
  if bool_decide (plaintext = []) || (MAX_STATE_BYTES <? len plaintext)%N then Err InvalidState
  else if negb (bool_decide (sha256 plaintext = ReplicatedStateProposal.digest proposal)) then Err DigestMismatch
  else Ok plaintext.

Definition open_state (self : ClusterStateCodec) (proposal : ReplicatedStateProposal) (expected_base_digest : list u8) :
  RResult (list u8) :=
  let? (base_digest, nonce, payload) := validate_envelope proposal in
  if negb (bool_decide (base_digest = expected_base_digest)) then Err BaseStateConflict
  else open_validated self proposal base_digest nonce payload.

Definition open_committed_parts (self : ClusterStateCodec) (operation_id : string) (digest sealed : list u8) : RResult (list u8) :=
  let? proposal := ReplicatedStateProposal.new operation_id digest sealed in
  let? (base_digest, nonce, payload) := validate_envelope proposal in
  open_validated self proposal base_digest nonce payload.

Definition base_digest (proposal : ReplicatedStateProposal) : RResult (list u8) :=
  let? (base_digest, _, _) := validate_envelope proposal in
  Ok base_digest.
End codec.

(** * [ReplicatedEnvelope] of the consensus runtime *)
Definition MAX_SEALED_ENVELOPE_BYTES : N := 1024 * 1024.
Definition ENVELOPE_V1_PREFIX : string := "hbr1:".
Definition ENVELOPE_V2_PREFIX : string := "hbr2:".

Inductive RaftRuntimeError : Type := InvalidReplicatedEnvelope | InvalidSerial | Shutdown | Consensus (message : string).
Definition runtime_error_text (e : RaftRuntimeError) : string :=
  match e with
  | InvalidReplicatedEnvelope => "replicated envelope is invalid or unbounded"
  | InvalidSerial => "client serial must be nonzero"
  | Shutdown => "Raft runtime is shut down"
  | Consensus message => "Raft consensus failed: " +:+ message
  end.

(** [decode_hex]. *)
Fixpoint hex_bytes (s : string) : option (list u8) :=
  match s with
  | EmptyString => Some []
  | String a (String b rest) => v ← hex_pair a b; output ← hex_bytes rest; Some (U8.wrap v :: output)
  | String _ EmptyString => None
  end.
Definition is_ascii_hexdigit (c : ascii) : bool := byte_in 48 57 c || byte_in 65 70 c || byte_in 97 102 c.
Definition decode_hex (encoded : string) : option (list u8) :=
  if bool_decide (encoded = "") || negb (slen encoded mod 2 =? 0)%N || negb (str_all is_ascii_hexdigit encoded) then None
  else hex_bytes encoded.
Definition decode_hex_array (width : nat) (encoded : string) : option (list u8) :=
  decoded ← decode_hex encoded; if length decoded =? width then Some decoded else None.

(** [str::is_char_boundary] of an index inside the text. *)
Definition is_char_boundary (index : nat) (s : string) : bool :=
  match String.get index s with Some c => negb (byte_in 128 191 c) | None => true end.

Module ReplicatedEnvelope.
Record t := mk { operation_id : string; digest : list u8; sealed : list u8 }.

Definition new (operation_id : string) (digest sealed : list u8) : option t :=
  if negb (operation_ok operation_id) || zeros digest || bool_decide (sealed = []) || (MAX_SEALED_ENVELOPE_BYTES <? len sealed)%N
  then None else Some (mk operation_id digest sealed).

Definition from_encoded_fields (operation_id digest sealed : string) : option t :=
  digest ← decode_hex_array 32 digest;
  sealed ← decode_hex sealed;
  new operation_id digest sealed.

Definition decode_v2 (rest : string) : option t :=
  '(length, rest) ← split_once ":" rest;
  if bool_decide (length = "") || negb (str_all is_ascii_digit length) then None
  else
    operation_len ← parse_u64 length;
    let n := N.to_nat operation_len in
    if (operation_len =? 0)%N || (MAX_OPERATION_ID_BYTES <? operation_len)%N || (slen rest <=? operation_len)%N
       || negb (is_char_boundary n rest)
    then None
    else
      suffix ← strip_prefix ":" (str_drop n rest);
      '(digest, sealed) ← split_once ":" suffix;
      from_encoded_fields (str_take n rest) digest sealed.

Definition decode_v1 (rest : string) : option t :=
  match split ":" rest with
  | [operation_id; digest; sealed] => from_encoded_fields operation_id digest sealed
  | _ => None
  end.

(** [None] is [InvalidEnvelope], the only error. *)
Definition decode_status (encoded : string) : option t :=
  match strip_prefix ENVELOPE_V2_PREFIX encoded with
  | Some rest => decode_v2 rest
  | None => match strip_prefix ENVELOPE_V1_PREFIX encoded with Some rest => decode_v1 rest | None => None end
  end.

Definition encoded_status (self : t) : string :=
  ENVELOPE_V2_PREFIX +:+ render_u64 (slen (operation_id self)) +:+ ":" +:+ operation_id self +:+ ":"
  +:+ hex_pairs (digest self) +:+ ":" +:+ hex_pairs (sealed self).
End ReplicatedEnvelope.
Notation ReplicatedEnvelope := ReplicatedEnvelope.t.

Module CommitReceipt.
Record t := mk { leader_id : N; log_index : N; envelope_digest : list u8 }.
End CommitReceipt.
Notation CommitReceipt := CommitReceipt.t.

(** * The node *)
Definition PRODUCTION_CLIENT_ID : string := "heptabao-production-ha".

(** The consensus library, on the state of the cluster as this node sees it. *)
Class OpenRaft (R : Type) := {
  raft_leader : R → option N;
  read_index : R → Result unit string;
  client_status : R → gmap string string;
  last_applied : R → option N;
  client_write : string → N → string → M R string N;
}.

Section node.
Context `{A : Aead, Sh : Sha256, B64 : Base64} {R : Type} `{Raft : OpenRaft R}.
Implicit Types (r : R).

Definition next_production_client_serial r : Result N RaftRuntimeError :=
  match last_applied r with
  | Some index => ok_or (checked_add index 1) InvalidSerial
  | None => Ok 1%N
  end.

Definition replicate (id client_serial : N) (envelope : ReplicatedEnvelope) : M R RaftRuntimeError CommitReceipt := λ r,
  if (client_serial =? 0)%N then (r, Err InvalidSerial)
  else match client_write PRODUCTION_CLIENT_ID client_serial (ReplicatedEnvelope.encoded_status envelope) r with
  | (r, Err message) => (r, Err (Consensus message))
  | (r, Ok log_index) => (r, Ok (CommitReceipt.mk id log_index (ReplicatedEnvelope.digest envelope)))
  end.

Definition latest_envelope r : Result (option ReplicatedEnvelope) string :=
  match client_status r !! PRODUCTION_CLIENT_ID with
  | None => Ok None
  | Some status =>
      match ReplicatedEnvelope.decode_status status with
      | Some envelope => Ok (Some envelope)
      | None => Err ("invalid committed application envelope: " +:+ runtime_error_text InvalidReplicatedEnvelope)
      end
  end.

(** * [HaProcess] *)

(** The process: its node's identifier while it runs, and its codec. *)
Record HaProcess := mk_process { node : option N; codec : ClusterStateCodec }.

Definition shut_down : string := "HA process is shut down".
Definition local_id (self : HaProcess) : Result N string := ok_or (node self) shut_down.
Definition leader (self : HaProcess) r : Result (option N) string :=
  let? _ := ok_or (node self) shut_down in Ok (raft_leader r).
Definition is_leader (self : HaProcess) r : Result bool string :=
  let? local_id := local_id self in
  let? leader := leader self r in
  Ok (bool_decide (leader = Some local_id)).
Definition ensure_linearizable (self : HaProcess) r : Result unit string :=
  let? _ := ok_or (node self) shut_down in read_index r.

(** The checks of [commit_state] and the envelope it replicates. *)
Definition prepare_commit (self : HaProcess) (nonce : option (list u8)) (operation_id : string)
    (expected_base_digest bytes : list u8) r : Result (N * N * ReplicatedEnvelope) string :=
  let? local_id := local_id self in
  let? leader := ok_or (raft_leader r) "HA cluster has no elected leader" in
  if negb (leader =? local_id)%N then Err ("HA write requires current leader node " +:+ render_u64 leader)
  else
    let? _ := read_index r in
    let? latest := latest_envelope r in
    if match latest with Some envelope => negb (bool_decide (ReplicatedEnvelope.digest envelope = expected_base_digest)) | None => false end
    then Err "HA application base conflicts with latest committed state"
    else
      let? proposal := map_err state_error_text (seal_state (codec self) nonce operation_id expected_base_digest bytes) in
      let? envelope := ok_or (ReplicatedEnvelope.new (ReplicatedStateProposal.operation_id proposal)
                                (ReplicatedStateProposal.digest proposal) (ReplicatedStateProposal.sealed proposal))
                             (runtime_error_text InvalidReplicatedEnvelope) in
      let? serial := map_err runtime_error_text (next_production_client_serial r) in
      Ok (local_id, serial, envelope).

Definition commit_state (self : HaProcess) (nonce : option (list u8)) (operation_id : string)
    (expected_base_digest bytes : list u8) : M R string CommitReceipt := λ r,
  match prepare_commit self nonce operation_id expected_base_digest bytes r with
  | Err e => (r, Err e)
  | Ok (local_id, serial, envelope) =>
      match replicate local_id serial envelope r with
      | (r, Err e) => (r, Err (runtime_error_text e))
      | (r, Ok receipt) =>
          if negb (CommitReceipt.leader_id receipt =? local_id)%N
             || negb (bool_decide (CommitReceipt.envelope_digest receipt = ReplicatedEnvelope.digest envelope))
          then (r, Err "HA commit receipt did not bind the submitted application state")
          else (r, Ok receipt)
      end
  end.

(** The digest and the bytes. *)
Definition latest_committed_state (self : HaProcess) r : Result (option (list u8 * list u8)) string :=
  let? _ := ok_or (node self) shut_down in
  let? _ := read_index r in
  let? latest := latest_envelope r in
  match latest with
  | None => Ok None
  | Some envelope =>
      let? bytes := map_err state_error_text
        (open_committed_parts (codec self) (ReplicatedEnvelope.operation_id envelope) (ReplicatedEnvelope.digest envelope)
           (ReplicatedEnvelope.sealed envelope)) in
      Ok (Some (ReplicatedEnvelope.digest envelope, bytes))
  end.
End node.

(** * The text of an envelope *)

(** A byte, its two characters, and back. *)
Lemma hex_byte b :
  let hi := DurableCodec.hex_digit (N.shiftr (U8.to_N b) 4) in let lo := DurableCodec.hex_digit (N.land (U8.to_N b) 15) in
  hex_pair hi lo = Some (U8.to_N b) ∧ is_ascii_hexdigit hi = true ∧ is_ascii_hexdigit lo = true ∧ hi ≠ ":"%char ∧ lo ≠ ":"%char.
Proof. destruct b; vm_compute; split_and!; congruence. Qed.

Lemma hex_bytes_pairs bytes : hex_bytes (hex_pairs bytes) = Some bytes.
Proof.
  induction bytes as [|b bytes IH]; [done|]. destruct (hex_byte b) as [Hp _].
  change (hex_pairs (b :: bytes)) with (String (DurableCodec.hex_digit (N.shiftr (U8.to_N b) 4)) (String (DurableCodec.hex_digit (N.land (U8.to_N b) 15)) (hex_pairs bytes))).
  cbn [hex_bytes]. rewrite Hp. simpl. rewrite IH. simpl. do 2 f_equal. unfold U8.wrap, U8.to_N.
  pose proof (Byte.to_N_bounded b). by rewrite N.mod_small, Byte.of_to_N by lia.
Qed.

Lemma hex_pairs_text bytes :
  slen (hex_pairs bytes) = (2 * len bytes)%N ∧ str_all is_ascii_hexdigit (hex_pairs bytes) ∧ lacks ":" (hex_pairs bytes).
Proof.
  induction bytes as [|b bytes (IH1 & IH2 & IH3)]; [done|]. destruct (hex_byte b) as (_ & H1 & H2 & H3 & H4).
  change (hex_pairs (b :: bytes)) with (String (DurableCodec.hex_digit (N.shiftr (U8.to_N b) 4)) (String (DurableCodec.hex_digit (N.land (U8.to_N b) 15)) (hex_pairs bytes))).
  unfold slen, len, lacks in *. cbn [String.length str_all length]. rewrite H1, H2, !bool_decide_false by done. cbn [negb andb].
  split_and!; [lia|done|done].
Qed.

Lemma decode_hex_pairs bytes : bytes ≠ [] → decode_hex (hex_pairs bytes) = Some bytes.
Proof.
  intros Hne. destruct (hex_pairs_text bytes) as (Hl & Ha & _). unfold decode_hex.
  assert (hex_pairs bytes ≠ "") by (intros E; destruct bytes; [done|discriminate E]).
  rewrite bool_decide_false by done. rewrite Hl, N.mul_comm, N.Div0.mod_mul. apply Is_true_true in Ha. rewrite Ha. apply hex_bytes_pairs.
Qed.

Record envelope_ok (e : ReplicatedEnvelope) : Prop := {
  en_operation : operation_ok (ReplicatedEnvelope.operation_id e) = true;
  en_digest : length (ReplicatedEnvelope.digest e) = 32;
  en_zeros : zeros (ReplicatedEnvelope.digest e) = false;
  en_sealed : ReplicatedEnvelope.sealed e ≠ [];
  en_size : (len (ReplicatedEnvelope.sealed e) ≤ MAX_SEALED_ENVELOPE_BYTES)%N;
}.

Lemma new_envelope_ok op digest sealed e :
  ReplicatedEnvelope.new op digest sealed = Some e → length digest = 32 →
  envelope_ok e ∧ e = ReplicatedEnvelope.mk op digest sealed.
Proof.
  unfold ReplicatedEnvelope.new. destruct (_ || _) eqn:E; [done|]. intros [= <-] Hd.
  rewrite !orb_false_iff, negb_false_iff, bool_decide_eq_false, N.ltb_ge in E. destruct E as [[[? ?] ?] ?]. done.
Qed.

Lemma envelope_new e :
  envelope_ok e →
  ReplicatedEnvelope.new (ReplicatedEnvelope.operation_id e) (ReplicatedEnvelope.digest e) (ReplicatedEnvelope.sealed e) = Some e.
Proof.
  intros []. unfold ReplicatedEnvelope.new. rewrite en_operation0, en_zeros0, bool_decide_false, (proj2 (N.ltb_ge _ _)) by done.
  by destruct e.
Qed.

(** What the state machine stores is read back. *)
Lemma decode_encoded_status e : envelope_ok e → ReplicatedEnvelope.decode_status (ReplicatedEnvelope.encoded_status e) = Some e.
Proof.
  intros Hok. pose proof (envelope_new e Hok) as Hnew. destruct Hok as [Hop Hd _ Hs _].
  unfold operation_ok in Hop. rewrite !andb_true_iff, negb_true_iff, bool_decide_eq_false, N.leb_le in Hop. destruct Hop as [[Hne Hlen] Hall].
  unfold ReplicatedEnvelope.decode_status, ReplicatedEnvelope.encoded_status. rewrite strip_prefix_app. unfold ReplicatedEnvelope.decode_v2.
  set (op := ReplicatedEnvelope.operation_id e) in *. set (rest := op +:+ _).
  change (":" +:+ rest) with (String ":" rest). rewrite split_once_app.
  2:{ eapply str_all_impl; [|apply render_u64_all]. intros c Hc. rewrite bool_decide_false; [done|]. by intros ->. }
  simpl. rewrite bool_decide_false by apply render_u64_nonempty. pose proof (render_u64_all (slen op)) as Hr. apply Is_true_true in Hr. rewrite Hr.
  unfold MAX_OPERATION_ID_BYTES in *. rewrite parse_render by (unfold U64_MAX; lia). simpl.
  assert (0 < slen op)%N as Hpos by (destruct op; [done|unfold slen; simpl; lia]).
  assert (Hnat : N.to_nat (slen op) = String.length op) by (unfold slen; lia).
  assert (slen rest = slen op + N.succ (slen (hex_pairs (ReplicatedEnvelope.digest e) +:+ ":" +:+ hex_pairs (ReplicatedEnvelope.sealed e))))%N as Hrest
    by (unfold slen, rest; rewrite !str_length_app; cbn [String.length]; lia).
  rewrite (proj2 (N.eqb_neq _ _)), !(proj2 (N.ltb_ge _ _)), (proj2 (N.leb_gt _ _)), Hnat by lia. cbn [orb].
  assert (is_char_boundary (String.length op) rest = true) as ->.
  { unfold is_char_boundary, rest. clear. induction op as [|c op IH]; [done|exact IH]. }
  unfold rest. rewrite str_drop_all, str_take_all. simpl. destruct (hex_pairs_text (ReplicatedEnvelope.digest e)) as (_ & _ & Hl).
  change (":" +:+ hex_pairs (ReplicatedEnvelope.sealed e)) with (String ":" (hex_pairs (ReplicatedEnvelope.sealed e))).
  change ("" +:+ ?x) with x. rewrite split_once_app by done. simpl. unfold ReplicatedEnvelope.from_encoded_fields, decode_hex_array.
  rewrite !decode_hex_pairs by (done || (intros E; by rewrite E in Hd)). simpl. rewrite (proj2 (Nat.eqb_eq _ _)) by done. exact Hnew.
Qed.

(** * Sealing and opening *)
Section sealing.
Context `{A : Aead, Sh : Sha256, B64 : Base64} `{!AeadLaws A, !Sha256Laws Sh}.

(** The associated data bind the cluster, the operation and both digests. *)
Lemma aad_inj self self' op op' base base' next next' x :
  length base = length base' → length next = length next' →
  aad self op base next = Ok x → aad self' op' base' next' = Ok x →
  cluster_id self = cluster_id self' ∧ op = op' ∧ base = base' ∧ next = next'.
Proof.
  intros Hb Hn. unfold aad. destruct (_ || _); [done|]. destruct (N.ltb_spec 65535 (slen (cluster_id self))) as [|H1]; [done|].
  destruct (N.ltb_spec 65535 (slen op)) as [|H2]; [done|]. intros E1.
  destruct (_ || _); [done|]. destruct (N.ltb_spec 65535 (slen (cluster_id self'))) as [|H3]; [done|].
  destruct (N.ltb_spec 65535 (slen op')) as [|H4]; [done|]. rewrite <- E1. clear E1. intros E%Ok_inj%app_inv_head.
  assert (Htext : ∀ s s' r r', (slen s ≤ 65535)%N → (slen s' ≤ 65535)%N →
    be_bytes 2 (slen s) ++ String.list_byte_of_string s ++ r = be_bytes 2 (slen s') ++ String.list_byte_of_string s' ++ r' → s = s' ∧ r = r').
  { intros s s' r r' L L' He. apply app_inj_1 in He as [Hlen He]; [|by rewrite !be_bytes_length].
    apply be_bytes_inj in Hlen; [|simpl; lia..]. apply app_inj_1 in He as [Hs ->].
    - split; [|done]. by rewrite <- (String.string_of_list_byte_of_string s), Hs, String.string_of_list_byte_of_string.
    - pose proof (len_list_byte s). pose proof (len_list_byte s'). unfold len in *. lia. }
  apply Htext in E as [Hc E]; [|done..]. apply Htext in E as [Ho E]; [|done..].
  apply app_inj_1 in E as [-> ->]; done.
Qed.

(** A sealed proposal opens, on its own base only. *)
Lemma sealed_opens self nonce op base bytes p :
  length base = 32 → seal_state self nonce op base bytes = Ok p →
  ReplicatedStateProposal.operation_id p = op ∧ ReplicatedStateProposal.digest p = sha256 bytes ∧
  open_committed_parts self op (sha256 bytes) (ReplicatedStateProposal.sealed p) = Ok bytes ∧
  (∀ expected, open_state self p expected = if decide (base = expected) then Ok bytes else Err BaseStateConflict) ∧
  ∃ e, ReplicatedEnvelope.new op (sha256 bytes) (ReplicatedStateProposal.sealed p) = Some e ∧ envelope_ok e.
Proof.
  intros Hb. unfold seal_state. destruct (bool_decide (bytes = []) || _) eqn:Es; [done|].
  destruct (aad self op base (sha256 bytes)) as [x|] eqn:Ea; [|done].
  destruct (nonce_array nonce) as [n|] eqn:En; cbn [ok_or]; [|done].
  destruct (seal_in_place_append_tag _ n x bytes) as [c|] eqn:Ec; cbn [ok_or]; [|done].
  assert (Hn : length n = 12).
  { unfold nonce_array in En. destruct nonce; simpl in En; [|done]. case_match eqn:E; [|done]. simplify_eq. by apply Nat.eqb_eq. }
  intros Hp. pose proof Hp as Hnew. unfold ReplicatedStateProposal.new in Hp. destruct (_ || _) eqn:Ev in Hp; [done|].
  apply Ok_inj in Hp. subst p. cbn [ReplicatedStateProposal.operation_id ReplicatedStateProposal.digest ReplicatedStateProposal.sealed].
  rewrite !orb_false_iff, !negb_false_iff in Ev. destruct Ev as [[Hop Hz] Hsize].
  assert (Hval : validate_envelope (ReplicatedStateProposal.mk op (sha256 bytes) (MAGIC ++ base ++ n ++ c)) = Ok (base, n, c)).
  { unfold validate_envelope. cbn [ReplicatedStateProposal.sealed]. rewrite Hsize. cbn [negb]. rewrite bool_decide_true by done. cbn [negb].
    unfold DIGEST_BYTES, NONCE_BYTES, HEADER_BYTES. do 2 f_equal; [f_equal|].
    - by apply slice_app.
    - rewrite (assoc_L (++)). apply slice_app; [|done]. rewrite length_app, Hb. done.
    - rewrite !(assoc_L (++)), drop_app_length'; [done|]. rewrite !length_app, Hb, Hn. done. }
  assert (Hopen : open_validated self (ReplicatedStateProposal.mk op (sha256 bytes) (MAGIC ++ base ++ n ++ c)) base n c = Ok bytes).
  { unfold open_validated. cbn [ReplicatedStateProposal.operation_id ReplicatedStateProposal.digest]. rewrite Ea.
    rewrite (aead_open_seal _ _ _ _ _ Ec). cbn [ok_or]. rewrite Es, bool_decide_true by done. done. }
  split_and!; [done|done|..].
  - unfold open_committed_parts. rewrite Hnew. by rewrite Hval.
  - intros expected. unfold open_state. rewrite Hval. destruct (decide (base = expected)); [by rewrite bool_decide_true|by rewrite bool_decide_false].
  - exists (ReplicatedEnvelope.mk op (sha256 bytes) (MAGIC ++ base ++ n ++ c)). unfold ReplicatedStateProposal.sealed_size in Hsize.
    rewrite andb_true_iff, !N.leb_le in Hsize. unfold MAX_STATE_BYTES, HEADER_BYTES, DIGEST_BYTES, NONCE_BYTES, TAG_BYTES in Hsize.
    assert (envelope_ok (ReplicatedEnvelope.mk op (sha256 bytes) (MAGIC ++ base ++ n ++ c))) as Hok.
    { split; [done|apply sha256_length|done|done|]. unfold MAX_SEALED_ENVELOPE_BYTES. cbn [ReplicatedEnvelope.sealed]. lia. }
    split; [|done]. exact (envelope_new _ Hok).
Qed.
End sealing.

(** * The register *)

(** Documented behaviour of the library with its state machine: a write that succeeds
    is applied under its client; one that fails may have been. *)
Class OpenRaftLaws (R : Type) `{OpenRaft R} : Prop := {
  write_applied client serial status r r' index :
    client_write client serial status r = (r', Ok index) → client_status r' = <[client := status]> (client_status r);
  write_failed client serial status r r' message :
    client_write client serial status r = (r', Err message) →
    client_status r' = client_status r ∨ client_status r' = <[client := status]> (client_status r);
}.

Section register.
Context `{A : Aead, Sh : Sha256, B64 : Base64} {R : Type} `{Raft : OpenRaft R}.

(** A call of [commit_state] by some node. *)
Record Commit := commit {
  c_node : option N; c_nonce : option (list u8); c_operation : string; c_base : list u8; c_bytes : list u8;
}.

Definition commit_one (codec : ClusterStateCodec) (acc : R * list bool) (c : Commit) : R * list bool :=
  let '(r, result) := commit_state (mk_process (c_node c) codec) (c_nonce c) (c_operation c) (c_base c) (c_bytes c) acc.1 in
  (r, acc.2 ++ [is_ok result]).
Definition commit_all (codec : ClusterStateCodec) (calls : list Commit) (r : R) : R * list bool :=
  foldl (commit_one codec) (r, []) calls.

(** The specification: one register; a write replaces the state it was derived from,
    and may do so although it reports a failure. *)
Inductive register_step (c : Commit) (x : option (list u8)) : bool → option (list u8) → Prop :=
| step_refused : register_step c x false x
| step_replaced reported :
    (∀ old, x = Some old → sha256 old = c_base c) → register_step c x reported (Some (c_bytes c)).

Inductive register_run : list Commit → option (list u8) → list bool → option (list u8) → Prop :=
| run_nil x : register_run [] x [] x
| run_step c calls x b y results z :
    register_step c x b y → register_run calls y results z → register_run (c :: calls) x (b :: results) z.

(** The state machine shows the register. *)
Definition shows (codec : ClusterStateCodec) (r : R) (x : option (list u8)) : Prop :=
  match client_status r !! PRODUCTION_CLIENT_ID, x with
  | None, None => True
  | Some status, Some bytes => ∃ e, ReplicatedEnvelope.decode_status status = Some e ∧ ReplicatedEnvelope.digest e = sha256 bytes ∧
      open_committed_parts codec (ReplicatedEnvelope.operation_id e) (ReplicatedEnvelope.digest e) (ReplicatedEnvelope.sealed e) = Ok bytes
  | _, _ => False
  end.

Context `{!AeadLaws A, !Sha256Laws Sh, !OpenRaftLaws R}.

(** The latest envelope is the register's. *)
Lemma shows_latest codec r x :
  shows codec r x → ∃ latest, latest_envelope r = Ok latest ∧
    (∀ d, match latest with Some e => negb (bool_decide (ReplicatedEnvelope.digest e = d)) | None => false end = false
          ↔ ∀ old, x = Some old → sha256 old = d).
Proof.
  unfold shows, latest_envelope. destruct (client_status r !! _) as [status|], x as [old|]; try done.
  - intros (e & -> & Hd & _). exists (Some e). split; [done|]. intros d. rewrite negb_false_iff, bool_decide_eq_true, Hd. naive_solver.
  - intros _. exists None. split; [done|]. by intros d.
Qed.

(** What a prepared commit replicates. *)
Lemma prepare_commit_ok codec c r x id serial e :
  shows codec r x → length (c_base c) = 32 →
  prepare_commit (mk_process (c_node c) codec) (c_nonce c) (c_operation c) (c_base c) (c_bytes c) r = Ok (id, serial, e) →
  (∀ old, x = Some old → sha256 old = c_base c) ∧ envelope_ok e ∧ ReplicatedEnvelope.digest e = sha256 (c_bytes c) ∧
  open_committed_parts codec (ReplicatedEnvelope.operation_id e) (ReplicatedEnvelope.digest e) (ReplicatedEnvelope.sealed e) = Ok (c_bytes c).
Proof.
  intros Hx Hb. unfold prepare_commit. destruct (local_id _) as [id'|]; [|done]. destruct (ok_or (raft_leader r) _) as [l|]; [|done].
  destruct (negb (l =? id')%N); [done|]. destruct (read_index r); [|done].
  destruct (shows_latest codec r x Hx) as (latest & -> & Hl). destruct (match latest with Some _ => _ | None => _ end) eqn:Em; [done|].
  pose proof (proj1 (Hl (c_base c)) Em) as Hbase. clear Em Hl. cbn [HaState.codec]. destruct (seal_state _ _ _ _ _) as [p|] eqn:Es; cbn [map_err]; [|done].
  destruct (sealed_opens _ _ _ _ _ _ Hb Es) as (Ho & Hd & Hopen & _ & e' & Hnew & Hok). rewrite Ho, Hd, Hnew. cbn [ok_or].
  destruct (map_err _ _) as [n|]; [|done]. intros [= <- <- <-]. split; [exact Hbase|]. split; [done|].
  apply new_envelope_ok in Hnew as [_ ->]; [|apply sha256_length]. done.
Qed.

Lemma shows_written codec r r' e bytes :
  envelope_ok e → ReplicatedEnvelope.digest e = sha256 bytes →
  open_committed_parts codec (ReplicatedEnvelope.operation_id e) (ReplicatedEnvelope.digest e) (ReplicatedEnvelope.sealed e) = Ok bytes →
  client_status r' = <[PRODUCTION_CLIENT_ID := ReplicatedEnvelope.encoded_status e]> (client_status r) → shows codec r' (Some bytes).
Proof.
  intros Hok Hd Hopen Hw. unfold shows. rewrite Hw, lookup_insert_eq. exists e. by rewrite decode_encoded_status.
Qed.

Lemma commit_step codec c r x r' res :
  shows codec r x → length (c_base c) = 32 →
  commit_state (mk_process (c_node c) codec) (c_nonce c) (c_operation c) (c_base c) (c_bytes c) r = (r', res) →
  ∃ y, register_step c x (is_ok res) y ∧ shows codec r' y.
Proof.
  intros Hx Hb. unfold commit_state. destruct (prepare_commit _ _ _ _ _ r) as [[[id serial] e]|] eqn:Ep.
  2:{ intros [= <- <-]. exists x. split; [constructor|done]. }
  destruct (prepare_commit_ok _ _ _ _ _ _ _ Hx Hb Ep) as (Hbase & Hok & Hd & Hopen). unfold replicate.
  destruct (serial =? 0)%N; [intros [= <- <-]; exists x; by split; [constructor|]|].
  destruct (client_write _ _ _ r) as [r1 [index|message]] eqn:Ew.
  - cbn [CommitReceipt.leader_id CommitReceipt.envelope_digest]. rewrite N.eqb_refl, bool_decide_true by done. cbn [negb orb].
    intros [= <- <-]. exists (Some (c_bytes c)). split; [by constructor|]. eapply shows_written; [done..|by eapply write_applied].
  - intros [= <- <-]. destruct (write_failed _ _ _ _ _ _ Ew) as [E|E].
    + exists x. split; [constructor|]. unfold shows. by rewrite E.
    + exists (Some (c_bytes c)). split; [by constructor|]. by eapply shows_written.
Qed.

Lemma commit_all_runs codec calls r x results :
  shows codec r x → Forall (λ c, length (c_base c) = 32) calls →
  ∃ new y, (foldl (commit_one codec) (r, results) calls).2 = results ++ new ∧ register_run calls x new y ∧
    shows codec (foldl (commit_one codec) (r, results) calls).1 y.
Proof.
  revert r x results. induction calls as [|c calls IH]; intros r x results Hx Hb.
  { exists [], x. rewrite app_nil_r. split; [done|]. split; [constructor|done]. }
  apply Forall_cons in Hb as [Hc Hb]. cbn [foldl]. unfold commit_one at 2 4. cbn [fst snd].
  destruct (commit_state _ _ _ _ _ r) as [r1 res] eqn:Ec. destruct (commit_step _ _ _ _ _ _ Hx Hc Ec) as (y & Hstep & Hy).
  destruct (IH r1 y (results ++ [is_ok res]) Hy Hb) as (new & z & -> & Hrun & Hz).
  exists (is_ok res :: new), z. rewrite <- (assoc_L (++)). split; [done|]. split; [by econstructor|done].
Qed.

Lemma read_register codec r x self :
  shows codec r x → HaState.codec self = codec → is_Some (node self) → read_index r = Ok tt →
  latest_committed_state self r = Ok ((λ b, (sha256 b, b)) <$> x).
Proof.
  intros Hx <- [id Hid] Hread. unfold latest_committed_state. rewrite Hid, Hread. cbn [ok_or].
  unfold shows, latest_envelope in *. destruct (client_status r !! _) as [status|], x as [bytes|]; try done.
  destruct Hx as (e & -> & Hd & ->). simpl. by rewrite Hd.
Qed.

(** C17: The replicated state is one register.  Take a cluster without a committed state
    and any sequence of commits by its nodes, each derived from some state, in which
    the consensus layer may refuse a write or fail after it took effect.  What the
    calls report and what they leave is a run of a register where a write takes effect
    only when it was derived from the present state; a node that reads it then gets
    exactly the bytes in the register, deciphered and checked; and a commit derived
    from the present state by the leader succeeds when its write does. *)
Theorem replicated_register codec calls r0 r results :
  client_status r0 !! PRODUCTION_CLIENT_ID = None → Forall (λ c, length (c_base c) = 32) calls →
  commit_all codec calls r0 = (r, results) →
  ∃ x, register_run calls None results x ∧
    (∀ self, HaState.codec self = codec → is_Some (node self) → read_index r = Ok tt →
       latest_committed_state self r = Ok ((λ b, (sha256 b, b)) <$> x)) ∧
    (∀ c id, c_node c = Some id → raft_leader r = Some id → read_index r = Ok tt → length (c_base c) = 32 →
       (∀ old, x = Some old → sha256 old = c_base c) →
       is_ok (seal_state codec (c_nonce c) (c_operation c) (c_base c) (c_bytes c)) = true →
       (∀ index, last_applied r = Some index → (index < U64_MAX)%N) →
       (∀ serial status, is_ok (client_write PRODUCTION_CLIENT_ID serial status r).2 = true) →
       is_ok (commit_state (mk_process (c_node c) codec) (c_nonce c) (c_operation c) (c_base c) (c_bytes c) r).2 = true).
Proof.
  intros Hnone Hb Hrun. assert (shows codec r0 None) as Hx by (unfold shows; by rewrite Hnone).
  destruct (commit_all_runs codec calls r0 None [] Hx Hb) as (new & y & H1 & H2 & H3). unfold commit_all in Hrun. rewrite Hrun in H1, H3.
  simpl in H1, H3. subst new. exists y. split; [done|]. split; [intros self; by apply read_register|].
  intros c id Hid Hleader Hread Hbase Hold Hseal Hindex Hwrite. unfold commit_state, prepare_commit, local_id.
  cbn [node HaState.codec]. rewrite Hid. cbn [ok_or]. rewrite Hleader. cbn [ok_or]. rewrite N.eqb_refl. cbn [negb]. rewrite Hread.
  destruct (shows_latest codec r y H3) as (latest & -> & Hl). pose proof (proj2 (Hl (c_base c)) Hold) as Hm.
  destruct (match latest with Some _ => _ | None => _ end); [done|]. clear Hm.
  destruct (seal_state _ _ _ _ _) as [p|] eqn:Es; [|done]. cbn [map_err].
  destruct (sealed_opens _ _ _ _ _ _ Hbase Es) as (Ho & Hd & _ & _ & e & Hnew & _). rewrite Ho, Hd, Hnew. cbn [ok_or].
  assert (∃ serial, next_production_client_serial r = Ok serial ∧ serial ≠ 0%N) as (serial & Hserial & Hpos).
  { unfold next_production_client_serial. destruct (last_applied r) as [index|]; [|by exists 1%N]. specialize (Hindex index eq_refl).
    exists (index + 1)%N. unfold checked_add. rewrite (proj2 (N.leb_le _ _)) by lia. split; [done|lia]. }
  rewrite Hserial. cbn [map_err]. unfold replicate. rewrite (proj2 (N.eqb_neq _ _)) by done.
  specialize (Hwrite serial (ReplicatedEnvelope.encoded_status e)). destruct (client_write _ _ _ r) as [r1 [index|]]; [|done].
  cbn [CommitReceipt.leader_id CommitReceipt.envelope_digest]. by rewrite N.eqb_refl, bool_decide_true.
Qed.
End register.

(** * Frames between the nodes *)
Definition RAFT_FRAME_MAGIC : list u8 := String.list_byte_of_string "HBRT1".
Definition RAFT_FRAME_REQUEST : u8 := x01.
Definition RAFT_FRAME_RESPONSE : u8 := x02.
Definition MAX_RAFT_FRAME_BYTES : N := 896 * 1024.

Inductive RaftRpcKind : Type := AppendEntries | Vote | PreVote | SnapshotChunk.
Definition kind_tag (k : RaftRpcKind) : u8 :=
  match k with AppendEntries => x01 | Vote => x02 | PreVote => x03 | SnapshotChunk => x04 end.
Definition decode_kind (value : u8) : option RaftRpcKind :=
  match value with x01 => Some AppendEntries | x02 => Some Vote | x03 => Some PreVote | x04 => Some SnapshotChunk | _ => None end.

Module RaftWireFrame.
Record t := mk { role : u8; source : N; target : N; kind : RaftRpcKind; payload : list u8 }.
End RaftWireFrame.
Notation RaftWireFrame := RaftWireFrame.t.

Definition valid_role (role : u8) : bool := bool_decide (role = RAFT_FRAME_REQUEST) || bool_decide (role = RAFT_FRAME_RESPONSE).

(** [None] is [InvalidRpc], the only error. *)
Definition encode_raft_frame (frame : RaftWireFrame) : option (list u8) :=
  let '(RaftWireFrame.mk role source target kind payload) := frame in
  if (source =? 0)%N || (target =? 0)%N || (source =? target)%N || negb (valid_role role) || bool_decide (payload = []) then None
  else if (4294967295 <? len payload)%N then None
  else
    let encoded := RAFT_FRAME_MAGIC ++ [role] ++ be_bytes 8 source ++ be_bytes 8 target ++ [kind_tag kind]
                   ++ be_bytes 4 (len payload) ++ payload in
    if (MAX_RAFT_FRAME_BYTES <? len encoded)%N then None else Some encoded.

Definition decode_raft_frame (encoded : list u8) : option RaftWireFrame :=
  if (len encoded <? 27)%N || (MAX_RAFT_FRAME_BYTES <? len encoded)%N || negb (bool_decide (take 5 encoded = RAFT_FRAME_MAGIC)) then None
  else
    role ← encoded !! 5;
    if negb (valid_role role) then None
    else
      let source := of_be (slice 6 8 encoded) in
      let target := of_be (slice 14 8 encoded) in
      tag ← encoded !! 22;
      kind ← decode_kind tag;
      let length := of_be (slice 23 4 encoded) in
      if (source =? 0)%N || (target =? 0)%N || (source =? target)%N || (length =? 0)%N || negb (len encoded =? 27 + length)%N
      then None else Some (RaftWireFrame.mk role source target kind (drop 27 encoded)).

(** What is encoded is decoded. *)
Lemma raft_frame_roundtrip frame encoded :
  (RaftWireFrame.source frame ≤ U64_MAX)%N → (RaftWireFrame.target frame ≤ U64_MAX)%N →
  encode_raft_frame frame = Some encoded → decode_raft_frame encoded = Some frame.
Proof.
  destruct frame as [role source target kind payload]. unfold U64_MAX. cbn [RaftWireFrame.source RaftWireFrame.target]. intros Hs Ht.
  unfold encode_raft_frame. destruct (_ || _) eqn:E; [done|]. destruct (N.ltb_spec 4294967295 (len payload)) as [|Hl]; [done|].
  destruct (N.ltb_spec MAX_RAFT_FRAME_BYTES (len (RAFT_FRAME_MAGIC ++ [role] ++ be_bytes 8 source ++ be_bytes 8 target ++ [kind_tag kind]
    ++ be_bytes 4 (len payload) ++ payload))) as [|Hmax]; [done|].
  intros He. assert (encoded = RAFT_FRAME_MAGIC ++ [role] ++ be_bytes 8 source ++ be_bytes 8 target ++ [kind_tag kind]
    ++ be_bytes 4 (len payload) ++ payload) as -> by congruence. clear He.
  rewrite !orb_false_iff, !N.eqb_neq, negb_false_iff, bool_decide_eq_false in E. destruct E as [[[[E1 E2] E3] E4] E5].
  assert (0 < len payload)%N as Hpos by (destruct payload; [done|unfold len; simpl; lia]).
  set (enc := RAFT_FRAME_MAGIC ++ _) in *.
  assert (Hlen : len enc = (27 + len payload)%N) by (unfold enc, len; rewrite !length_app, !be_bytes_length; cbn [length]; change (length RAFT_FRAME_MAGIC) with 5; lia).
  unfold decode_raft_frame. rewrite (proj2 (N.ltb_ge _ 27)), (proj2 (N.ltb_ge MAX_RAFT_FRAME_BYTES _)) by lia.
  assert (take 5 enc = RAFT_FRAME_MAGIC) as -> by done. rewrite bool_decide_true by done. cbn [negb orb].
  assert (enc !! 5 = Some role) as -> by done. cbn [base.mbind option_bind]. rewrite E4. cbn [negb].
  assert (slice 6 8 enc = be_bytes 8 source) as -> by (unfold enc; rewrite (assoc_L (++)); apply slice_app; [done|apply be_bytes_length]).
  assert (slice 14 8 enc = be_bytes 8 target) as -> by exact (slice_app (RAFT_FRAME_MAGIC ++ [role] ++ be_bytes 8 source) (be_bytes 8 target) ([kind_tag kind] ++ be_bytes 4 (len payload) ++ payload) 14 8 eq_refl eq_refl).
  assert (enc !! 22 = Some (kind_tag kind)) as -> by done. cbn [base.mbind option_bind].
  assert (slice 23 4 enc = be_bytes 4 (len payload)) as -> by exact (slice_app (RAFT_FRAME_MAGIC ++ [role] ++ be_bytes 8 source ++ be_bytes 8 target ++ [kind_tag kind]) (be_bytes 4 (len payload)) payload 23 4 eq_refl eq_refl).
  rewrite !of_be_bytes_small by (simpl; lia).
  assert (decode_kind (kind_tag kind) = Some kind) as -> by (by destruct kind). cbn [base.mbind option_bind].
  rewrite !(proj2 (N.eqb_neq _ _)), (proj2 (N.eqb_eq _ _)) by (done || lia). cbn [negb orb].
  assert (drop 27 enc = payload) as ->; [|done]. unfold enc. rewrite !(assoc_L (++)), drop_app_length'; [done|]. by rewrite !length_app, !be_bytes_length.
Qed.

(** * A run *)
From S2P Require Import AuditToy ServerToy.

Module RegisterDemo.
(** A cluster led by node 1 that applies every write. *)
#[export] Instance raft : OpenRaft (gmap string string * N) := {|
  raft_leader _ := Some 1%N;
  read_index _ := Ok tt;
  client_status r := r.1;
  last_applied r := Some r.2;
  client_write client _ status r := ((<[client := status]> r.1, r.2 + 1)%N, Ok (r.2 + 1)%N);
|}.
#[export] Instance raft_laws : OpenRaftLaws (gmap string string * N).
Proof. split; simpl; intros; by simplify_eq. Qed.

Definition codec : ClusterStateCodec (A := ServerToy.cipher) := mk_codec (A := ServerToy.cipher) "c" x07.
Definition first : Commit := commit (Some 1%N) (Some (repeat x00 12)) "op-1" (repeat x00 32) [x41].
Definition stale : Commit := commit (Some 1%N) (Some (repeat x00 12)) "op-2" (repeat x00 32) [x42].
Definition next : Commit := commit (Some 1%N) (Some (repeat x00 12)) "op-3" (sha256 [x41]) [x43].
End RegisterDemo.
Import RegisterDemo ServerToy.

Lemma replicated_register_witness :
  let calls := [first; stale; next] in
  let '(r, results) := commit_all (A := cipher) codec calls (∅, 0%N) in
  results = [true; false; true] ∧
  ∃ x, register_run calls None results x ∧
    (∀ self, HaState.codec self = codec → is_Some (node self) → read_index r = Ok tt →
       latest_committed_state (A := cipher) self r = Ok ((λ b, (sha256 b, b)) <$> x)) ∧
    (∀ c id, c_node c = Some id → raft_leader r = Some id → read_index r = Ok tt → length (c_base c) = 32 →
       (∀ old, x = Some old → sha256 old = c_base c) →
       is_ok (seal_state (A := cipher) codec (c_nonce c) (c_operation c) (c_base c) (c_bytes c)) = true →
       (∀ index, last_applied r = Some index → (index < U64_MAX)%N) →
       (∀ serial status, is_ok (client_write PRODUCTION_CLIENT_ID serial status r).2 = true) →
       is_ok (commit_state (A := cipher) (mk_process (c_node c) codec) (c_nonce c) (c_operation c) (c_base c) (c_bytes c) r).2 = true).
Proof.
  cbv zeta.
  assert (Hc : (commit_all (A := cipher) codec [first; stale; next] (∅, 0%N)).2 = [true; false; true]) by (vm_compute; reflexivity).
  destruct (commit_all (A := cipher) codec [first; stale; next] (∅, 0%N)) as [r results] eqn:E. simpl in Hc. split; [exact Hc|].
  refine (replicated_register (A := cipher) codec [first; stale; next] (∅, 0%N) r results _ _ E).
  - reflexivity.
  - repeat constructor.
Defined.
