(* ===== verification/Contracts.v ===== *)
(** The contracts between the providers of durable state: the journal
    ([crates/heptabao-journal-api/src/lib.rs]), the generation store
    ([crates/heptabao-storage-api/src/lib.rs]) and the barrier
    ([crates/heptabao-barrier-api/src/lib.rs]).

    The checked newtypes are their values together with the constructors that check
    them.  The traits are classes of operations; their documented behaviour is the
    classes [JournalLaws] and [StoreLaws], over an abstract state of each provider:
    the committed payloads and the published generations, with at most one append or
    commit whose outcome is not known. *)
From Stdlib Require Import Ascii NArith Strings.Byte.
From S2P Require Import Prelude Str Gf256 Bytes DurableCodec DurableCodecSpec.

(** * Reading bytes

    A [SliceCursor] is the part of its slice that is not read yet; each crate has its
    own, with its own error for a short slice.  Lengths are bounded before they are
    used, so [offset + length] does not overflow. *)
Section cursor.
Context {E : Type} (short : E).

Definition take_n (n : N) (cursor : list u8) : Result (list u8 * list u8) E :=
  if (len cursor <? n)%N then Err short else Ok (take (N.to_nat n) cursor, drop (N.to_nat n) cursor).

Definition take_int (width : nat) (cursor : list u8) : Result (N * list u8) E :=
  let? (bytes, cursor) := take_n (N.of_nat width) cursor in Ok (of_be bytes, cursor).

Lemma take_n_app n a r : len a = n → take_n n (a ++ r) = Ok (a, r).
Proof.
  intros <-. unfold take_n. rewrite len_app. destruct (N.ltb_spec (len a + len r) (len a)); [lia|].
  unfold len. rewrite Nat2N.id. by rewrite take_app_length, drop_app_length.
Qed.

Lemma take_n_inv n c a r : take_n n c = Ok (a, r) → c = a ++ r ∧ len a = n.
Proof.
  unfold take_n. case_match eqn:Hl; [done|]. intros [= <- <-]. apply N.ltb_ge in Hl.
  split; [by rewrite take_drop|]. unfold len in *. rewrite length_take. lia.
Qed.

Lemma take_int_app width n r : (n < 256 ^ N.of_nat width)%N → take_int width (be_bytes width n ++ r) = Ok (n, r).
Proof.
  intros Hn. unfold take_int. rewrite (take_n_app _ (be_bytes width n)).
  - by rewrite of_be_bytes_small.
  - unfold len. by rewrite be_bytes_length.
Qed.
End cursor.

Lemma byte_bound b : (U8.to_N b < 256)%N.
Proof. pose proof (Byte.to_N_bounded b). unfold U8.to_N. lia. Qed.

(** Reading a big-endian integer back and writing it again. *)
Lemma be_of_be l : be_bytes (length l) (of_be l) = l.
Proof.
  induction l as [|b l IH] using rev_ind; [done|]. rewrite length_app, of_be_snoc, Nat.add_comm. simpl.
  pose proof (byte_bound b) as Hb.
  f_equal.
  - by rewrite N.div_add_l, N.div_small, N.add_0_r.
  - f_equal. apply to_N_inj. rewrite wrap_to_N. rewrite N.add_comm, N.Div0.mod_add. by apply N.mod_small.
Qed.

Lemma cursor_int_inv {E} (short : E) width c n r :
  take_int short width c = Ok (n, r) → c = be_bytes width n ++ r ∧ (n < 256 ^ N.of_nat width)%N.
Proof.
  unfold take_int. destruct (take_n _ _ _) as [[a c']|] eqn:Ht; [|done]. intros [= <- <-].
  apply take_n_inv in Ht as [-> Hl]. unfold len in Hl.
  assert (length a = width) as <- by lia. rewrite be_of_be. split; [done|].
  clear. induction a as [|b a IH] using rev_ind; [by vm_compute|].
  rewrite of_be_snoc, length_app, Nat2N.inj_add. simpl. rewrite N.pow_add_r.
  pose proof (byte_bound b). change (256 ^ 1)%N with 256%N. nia.
Qed.

(** * The journal *)
Definition MAX_JOURNAL_PAYLOAD_BYTES : N := 1024 * 1024.
Definition MAX_JOURNAL_DOMAIN_BYTES : N := 128.
Definition MAX_AUTHENTICATOR_ID_BYTES : N := 128.

Inductive JournalContractError : Type :=
| InvalidJournalDomain | InvalidAuthenticatorId | ZeroJournalSequence | JournalSequenceOverflow
| ZeroJournalTag | InvalidJournalPayload.

Definition identity_byte (c : ascii) : bool :=
  is_ascii_alphanumeric c || bool_decide (c ∈ ["-"; "_"; "."; ":"; "/"]%char).

Definition valid_identity (value : string) (maximum : N) : bool :=
  negb (bool_decide (value = "")) && (slen value <=? maximum)%N && str_all (byte_in 0 127) value
  && str_all identity_byte value.

Definition JournalDomain_new (value : string) : Result string JournalContractError :=
  if negb (valid_identity value MAX_JOURNAL_DOMAIN_BYTES) then Err InvalidJournalDomain else Ok value.
Definition AuthenticatorId_new (value : string) : Result string JournalContractError :=
  if negb (valid_identity value MAX_AUTHENTICATOR_ID_BYTES) then Err InvalidAuthenticatorId else Ok value.

Module JournalSequence.
Definition INITIAL : N := 1.
Definition new (value : N) : Result N JournalContractError :=
  if (value =? 0)%N then Err ZeroJournalSequence else Ok value.
Definition checked_next (self : N) : Result N JournalContractError :=
  match checked_add self 1 with Some value => Ok value | None => Err JournalSequenceOverflow end.
End JournalSequence.

Definition JournalTag_new (value : list u8) : Result (list u8) JournalContractError :=
  if bool_decide (value = zero32) then Err ZeroJournalTag else Ok value.

Definition JournalPayload_new (value : list u8) : Result (list u8) JournalContractError :=
  if bool_decide (value = []) || (MAX_JOURNAL_PAYLOAD_BYTES <? len value)%N then Err InvalidJournalPayload
  else Ok value.

Module JournalRecord.
Record t := mk { sequence : N; previous_tag : option (list u8); tag : list u8; payload : list u8 }.
End JournalRecord.
Notation JournalRecord := JournalRecord.t.

Module JournalTail.
Record t := mk { sequence : N; tag : list u8 }.
End JournalTail.
Notation JournalTail := JournalTail.t.
#[export] Instance JournalTail_eq_dec : EqDecision JournalTail.
Proof. solve_decision. Defined.

Module AppendReceipt.
Record t := mk { previous_tail : option JournalTail; appended : JournalTail }.
End AppendReceipt.
Notation AppendReceipt := AppendReceipt.t.

Inductive AppendFailureDisposition : Type := DefinitelyNotAppended | OutcomeUnknown.
#[export] Instance AppendFailureDisposition_eq_dec : EqDecision AppendFailureDisposition.
Proof. solve_decision. Defined.

Class DurableJournal (J JE : Type) := {
  journal_tail : J → option JournalTail;
  recover_authoritative : J → J * Result (list JournalRecord) JE;
  append : J → option N → list u8 → J * Result AppendReceipt JE;
  classify_append_failure : J → JE → AppendFailureDisposition;
}.

(** [journal_at j xs pending]: the payloads [xs] are committed in [j], and [pending] is
    one whose append failed without a proof that it left nothing. *)
Class JournalLaws (J JE : Type) `{DurableJournal J JE} := {
  journal_at : J → list (list u8) → option (list u8) → Prop;
  append_law j xs payload j' r :
    journal_at j xs None → JournalPayload_new payload = Ok payload →
    append j (JournalTail.sequence <$> journal_tail j) payload = (j', r) →
    match r with
    | Ok _ => journal_at j' (xs ++ [payload]) None
    | Err e =>
        match classify_append_failure j' e with
        | DefinitelyNotAppended => journal_at j' xs None
        | OutcomeUnknown => journal_at j' xs (Some payload)
        end
    end;
  recover_law j xs pending j' r :
    journal_at j xs pending →
    recover_authoritative j = (j', r) →
    match r with
    | Ok records =>
        ∃ ys, JournalRecord.payload <$> records = ys ∧ journal_at j' ys None ∧
              (ys = xs ∨ ∃ payload, pending = Some payload ∧ ys = xs ++ [payload])
    | Err _ => journal_at j' xs pending
    end;
}.

(** * The generation store *)
Definition MAX_OPAQUE_STATE_BYTES : N := 16 * 1024 * 1024.
Definition MAX_STORE_DOMAIN_BYTES : N := 128.
Definition MAX_INTEGRITY_ALGORITHM_ID_BYTES : N := 128.

Inductive StorageContractError : Type :=
| InvalidStoreDomain | InvalidIntegrityAlgorithmId | ZeroGeneration | GenerationOverflow | ZeroStateDigest
| InvalidOpaqueState | InvalidCommitIntent.

(** [is_ascii_control]. *)
Definition control_byte (c : ascii) : bool := byte_in 0 31 c || byte_in 127 127 c.
Definition store_identity_bad (c : ascii) : bool :=
  control_byte c || is_ascii_whitespace c || negb (identity_byte c).
Definition store_identity (value : string) (maximum : N) : bool :=
  bool_decide (value = "") || (maximum <? slen value)%N || negb (str_all (byte_in 0 127) value)
  || negb (str_all (λ c, negb (store_identity_bad c)) value).

Definition StoreDomain_new (value : string) : Result string StorageContractError :=
  if store_identity value MAX_STORE_DOMAIN_BYTES then Err InvalidStoreDomain else Ok value.
Definition IntegrityAlgorithmId_new (value : string) : Result string StorageContractError :=
  if store_identity value MAX_INTEGRITY_ALGORITHM_ID_BYTES then Err InvalidIntegrityAlgorithmId else Ok value.

Module Generation.
Definition INITIAL : N := 1.
Definition new (value : N) : Result N StorageContractError :=
  if (value =? 0)%N then Err ZeroGeneration else Ok value.
Definition previous (self : N) : option N :=
  if (self =? 0)%N then None else if (self - 1 =? 0)%N then None else Some (self - 1)%N.
Definition checked_next (self : N) : Result N StorageContractError :=
  match checked_add self 1 with Some value => Ok value | None => Err GenerationOverflow end.
End Generation.

Definition StateDigest_new (value : list u8) : Result (list u8) StorageContractError :=
  if bool_decide (value = zero32) then Err ZeroStateDigest else Ok value.

Definition OpaqueState_new (value : list u8) : Result (list u8) StorageContractError :=
  if bool_decide (value = []) || (MAX_OPAQUE_STATE_BYTES <? len value)%N then Err InvalidOpaqueState else Ok value.

Module GenerationSnapshot.
Record t := mk { generation : N; digest : list u8; state : list u8 }.
End GenerationSnapshot.
Notation GenerationSnapshot := GenerationSnapshot.t.

Module CommitReceipt.
Record t := mk { previous : option N; committed : N; digest : list u8 }.
End CommitReceipt.
Notation CommitReceipt := CommitReceipt.t.
#[export] Instance CommitReceipt_eq_dec : EqDecision CommitReceipt.
Proof. solve_decision. Defined.

Module CommitIntent.
Record t := mk { previous : option N; committed : N; digest : list u8 }.

Definition new (previous : option N) (committed : N) (digest : list u8) : Result t StorageContractError :=
  let? expected := match previous with Some value => Generation.checked_next value | None => Ok Generation.INITIAL end in
  if negb (committed =? expected)%N then Err InvalidCommitIntent else Ok (mk previous committed digest).

Definition receipt (self : t) : CommitReceipt := CommitReceipt.mk (previous self) (committed self) (digest self).
End CommitIntent.
Notation CommitIntent := CommitIntent.t.

Inductive CommitRecovery : Type :=
| Committed (receipt : CommitReceipt)
| NotCommitted
| Conflict (actual : option (N * list u8)).

Class DurableGenerationStore (S SE : Type) := {
  store_domain : S → string;
  current_generation : S → option N;
  load_current : S → Result (option GenerationSnapshot) SE;
  prepare_commit : S → option N → list u8 → Result CommitIntent SE;
  recover_commit : S → CommitIntent → S * Result CommitRecovery SE;
  commit : S → option N → list u8 → S * Result CommitReceipt SE;
}.

Notation target := (N * list u8)%type.

Definition intent_target (i : CommitIntent) : target := (CommitIntent.committed i, CommitIntent.digest i).

(** What the checked constructors promise. *)
Definition digest_ok (d : list u8) : Prop := length d = 32 ∧ d ≠ zero32.
Definition generation_ok (g : N) : Prop := (0 < g ≤ U64_MAX)%N.
Definition target_ok (t : target) : Prop := generation_ok t.1 ∧ digest_ok t.2.

(** [store_at s h pending]: the generations [h] have been published by [s], oldest
    first, and [pending] is a prepared commit that failed without a proof that it was
    not published.  A prepared generation follows the published ones and a commit
    publishes what was prepared; recovering the intent of the pending commit, of the
    last generation or of one that was never attempted classifies it. *)
Class StoreLaws (S SE : Type) `{DurableGenerationStore S SE} := {
  store_at : S → list target → option target → Prop;
  commit_law s h expected candidate intent s' r :
    store_at s h None →
    prepare_commit s expected candidate = Ok intent →
    commit s (CommitIntent.previous intent) candidate = (s', r) →
    match r with
    | Ok receipt =>
        receipt = CommitIntent.receipt intent ∧ store_at s' (h ++ [intent_target intent]) None
    | Err _ => store_at s' h (Some (intent_target intent))
    end;
  prepare_law s h expected candidate intent :
    store_at s h None → prepare_commit s expected candidate = Ok intent →
    target_ok (intent_target intent) ∧ ∀ t, t ∈ h → (t.1 < CommitIntent.committed intent)%N;
  recover_commit_law s h pending intent s' r :
    store_at s h pending →
    pending = Some (intent_target intent) ∨
    pending = None ∧ (last h = Some (intent_target intent) ∨ ∀ t, t ∈ h → (t.1 < CommitIntent.committed intent)%N) →
    recover_commit s intent = (s', r) →
    match r with
    | Ok (Committed receipt) =>
        store_at s' h None ∧ pending = None ∧ last h = Some (intent_target intent) ∨
        pending = Some (intent_target intent) ∧ store_at s' (h ++ [intent_target intent]) None
    | Ok NotCommitted => store_at s' h None ∧ last h ≠ Some (intent_target intent)
    | Ok (Conflict _) | Err _ => store_at s' h pending
    end;
}.

(** * The barrier *)
Definition SEALED_ENVELOPE_VERSION : N := 1.
Definition MAX_BARRIER_FIELD_BYTES : N := 16 * 1024 * 1024.
Definition MAX_ASSOCIATED_DATA_BYTES : N := 64 * 1024.
Definition ENVELOPE_MAGIC : list u8 := String.list_byte_of_string "HEPTABAO-BARRIER-V1" ++ [x00].

Inductive BarrierContractError : Type :=
| ZeroKeyEpoch | KeyEpochOverflow | InvalidSecretState | AssociatedDataTooLarge | LengthOverflow
| UnsupportedEnvelopeVersion | InvalidEnvelopeShape | TruncatedEnvelope | TrailingEnvelopeBytes.

Module KeyEpoch.
Definition INITIAL : N := 1.
Definition new (value : N) : Result N BarrierContractError :=
  if (value =? 0)%N then Err ZeroKeyEpoch else Ok value.
Definition checked_next (self : N) : Result N BarrierContractError :=
  match checked_add self 1 with Some value => Ok value | None => Err KeyEpochOverflow end.
End KeyEpoch.

Inductive BarrierPurpose : Type := AuthoritativeState | PurposeSnapshot | AuditSegment | RecoveryObject.

Definition purpose_code (self : BarrierPurpose) : u8 :=
  match self with AuthoritativeState => x01 | PurposeSnapshot => x02 | AuditSegment => x03 | RecoveryObject => x04 end.

(** [u64::try_from(value.len())] succeeds for every length of a slice. *)
Definition append_field (value : list u8) : list u8 := be_bytes 8 (len value) ++ value.

Module BarrierContext.
Record t := mk {
  domain : string;
  generation : N;
  key_epoch : N;
  purpose : BarrierPurpose;
  caller_associated_data : list u8;
}.

Definition new (domain : string) (generation key_epoch : N) (purpose : BarrierPurpose) (data : list u8) :
    Result t BarrierContractError :=
  if (MAX_ASSOCIATED_DATA_BYTES <? len data)%N then Err AssociatedDataTooLarge
  else Ok (mk domain generation key_epoch purpose data).

Definition canonical_associated_data (self : t) : list u8 :=
  append_field (String.list_byte_of_string "heptabao-barrier-context-v1")
  ++ append_field (String.list_byte_of_string (domain self))
  ++ append_field (be_bytes 8 (generation self))
  ++ append_field (be_bytes 8 (key_epoch self))
  ++ append_field [purpose_code (purpose self)]
  ++ append_field (caller_associated_data self).
End BarrierContext.
Notation BarrierContext := BarrierContext.t.

Definition SecretState_new (value : list u8) : Result (list u8) BarrierContractError :=
  if bool_decide (value = []) || (MAX_BARRIER_FIELD_BYTES <? len value)%N then Err InvalidSecretState else Ok value.

Definition field_bad (field : list u8) : bool :=
  bool_decide (field = []) || (MAX_BARRIER_FIELD_BYTES <? len field)%N.

Module SealedEnvelope.
Record t := mk {
  version : N;
  key_epoch : N;
  nonce : list u8;
  ciphertext : list u8;
  authentication_tag : list u8;
}.

Definition new (version key_epoch : N) (nonce ciphertext authentication_tag : list u8) :
    Result t BarrierContractError :=
  if negb (version =? SEALED_ENVELOPE_VERSION)%N then Err UnsupportedEnvelopeVersion
  else if field_bad nonce || field_bad ciphertext || field_bad authentication_tag then Err InvalidEnvelopeShape
  else Ok (mk version key_epoch nonce ciphertext authentication_tag).

Definition encode (self : t) : Result (list u8) BarrierContractError :=
  if (U32_MAX <? len (nonce self))%N then Err LengthOverflow
  else if (U32_MAX <? len (authentication_tag self))%N then Err LengthOverflow
  else Ok (ENVELOPE_MAGIC ++ be_bytes 2 (version self) ++ be_bytes 8 (key_epoch self)
           ++ be_bytes 4 (len (nonce self)) ++ be_bytes 8 (len (ciphertext self))
           ++ be_bytes 4 (len (authentication_tag self))
           ++ nonce self ++ ciphertext self ++ authentication_tag self).

Definition length_bad (n : N) : bool := (n =? 0)%N || (MAX_BARRIER_FIELD_BYTES <? n)%N.

Definition decode (encoded : list u8) : Result t BarrierContractError :=
  let? (magic, cursor) := take_n TruncatedEnvelope (len ENVELOPE_MAGIC) encoded in
  if negb (bool_decide (magic = ENVELOPE_MAGIC)) then Err InvalidEnvelopeShape else
  let? (version, cursor) := take_int TruncatedEnvelope 2 cursor in
  if negb (version =? SEALED_ENVELOPE_VERSION)%N then Err UnsupportedEnvelopeVersion else
  let? (epoch, cursor) := take_int TruncatedEnvelope 8 cursor in
  let? key_epoch := KeyEpoch.new epoch in
  let? (nonce_len, cursor) := take_int TruncatedEnvelope 4 cursor in
  let? (ciphertext_len, cursor) := take_int TruncatedEnvelope 8 cursor in
  let? (tag_len, cursor) := take_int TruncatedEnvelope 4 cursor in
  if length_bad nonce_len || length_bad ciphertext_len || length_bad tag_len then Err InvalidEnvelopeShape else
  let? (nonce, cursor) := take_n TruncatedEnvelope nonce_len cursor in
  let? (ciphertext, cursor) := take_n TruncatedEnvelope ciphertext_len cursor in
  let? (authentication_tag, cursor) := take_n TruncatedEnvelope tag_len cursor in
  if negb (bool_decide (cursor = [])) then Err TrailingEnvelopeBytes
  else new version key_epoch nonce ciphertext authentication_tag.
End SealedEnvelope.
Notation SealedEnvelope := SealedEnvelope.t.

Class BarrierProvider (B BE : Type) := {
  active_key_epoch : B → Result N BE;
  seal_state : B → BarrierContext → list u8 → Result SealedEnvelope BE;
  open_state : B → BarrierContext → SealedEnvelope → Result (list u8) BE;
}.

(** ** Envelopes are exact

    An envelope of the constructor is read back from its encoding, and an encoding that is
    read is the encoding of what was read. *)
Definition envelope_ok (e : SealedEnvelope) : Prop :=
  SealedEnvelope.new (SealedEnvelope.version e) (SealedEnvelope.key_epoch e) (SealedEnvelope.nonce e)
    (SealedEnvelope.ciphertext e) (SealedEnvelope.authentication_tag e) = Ok e ∧
  (0 < SealedEnvelope.key_epoch e ≤ U64_MAX)%N.

Lemma field_length f : field_bad f = SealedEnvelope.length_bad (len f).
Proof.
  unfold field_bad, SealedEnvelope.length_bad. f_equal. destruct f; [done|].
  rewrite bool_decide_eq_false_2 by done. symmetry. apply N.eqb_neq. unfold len. simpl. lia.
Qed.

Lemma length_good n : SealedEnvelope.length_bad n = false → (0 < n ≤ MAX_BARRIER_FIELD_BYTES)%N.
Proof. unfold SealedEnvelope.length_bad. intros [H1%N.eqb_neq H2%N.ltb_ge]%orb_false_iff. lia. Qed.

Lemma envelope_shape e :
  envelope_ok e →
  SealedEnvelope.version e = 1%N ∧ Forall (λ f, SealedEnvelope.length_bad (len f) = false)
    [SealedEnvelope.nonce e; SealedEnvelope.ciphertext e; SealedEnvelope.authentication_tag e].
Proof.
  intros [H _]. unfold SealedEnvelope.new in H. case_match eqn:Hv; [done|]. case_match eqn:Hf; [done|].
  apply orb_false_iff in Hf as [[Hf1 Hf2]%orb_false_iff Hf3]. rewrite field_length in Hf1, Hf2, Hf3.
  apply negb_false_iff, N.eqb_eq in Hv. split; [done|]. by repeat constructor.
Qed.

Lemma envelope_roundtrip e : envelope_ok e → ∃ b, SealedEnvelope.encode e = Ok b ∧ SealedEnvelope.decode b = Ok e.
Proof.
  intros He. destruct (envelope_shape e He) as [Hv HF]. destruct He as [Hn He].
  apply Forall_cons in HF as [F1 HF]. apply Forall_cons in HF as [F2 HF]. apply Forall_cons in HF as [F3 _].
  pose proof (length_good _ F1). pose proof (length_good _ F2). pose proof (length_good _ F3).
  unfold MAX_BARRIER_FIELD_BYTES in *. unfold SealedEnvelope.encode.
  destruct (N.ltb_spec U32_MAX (len (SealedEnvelope.nonce e))); [unfold U32_MAX in *; lia|].
  destruct (N.ltb_spec U32_MAX (len (SealedEnvelope.authentication_tag e))); [unfold U32_MAX in *; lia|].
  eexists. split; [done|]. unfold SealedEnvelope.decode. rewrite take_n_app by done.
  rewrite bool_decide_eq_true_2 by done. cbn [negb]. rewrite Hv in *.
  rewrite take_int_app by (vm_compute; done). change (1 =? SEALED_ENVELOPE_VERSION)%N with true. cbn [negb].
  rewrite take_int_app by (change (256 ^ _)%N with (U64_MAX + 1)%N; lia).
  unfold KeyEpoch.new. destruct (N.eqb_spec (SealedEnvelope.key_epoch e) 0); [lia|].
  rewrite take_int_app by (change (256 ^ _)%N with (U32_MAX + 1)%N; lia).
  rewrite take_int_app by (change (256 ^ _)%N with (U64_MAX + 1)%N; unfold U64_MAX; lia).
  rewrite take_int_app by (change (256 ^ _)%N with (U32_MAX + 1)%N; lia).
  rewrite F1, F2, F3. cbn [orb]. rewrite !take_n_app by done.
  rewrite <- (app_nil_r (SealedEnvelope.authentication_tag e)) at 2. by rewrite take_n_app.
Qed.

(** The context of a sealed state is bound byte for byte. *)
Definition context_ok (c : BarrierContext) : Prop :=
  (BarrierContext.generation c ≤ U64_MAX)%N ∧ (BarrierContext.key_epoch c ≤ U64_MAX)%N ∧
  (slen (BarrierContext.domain c) ≤ U64_MAX)%N ∧ (len (BarrierContext.caller_associated_data c) ≤ U64_MAX)%N.

Lemma append_field_inj a b r s :
  (len a ≤ U64_MAX)%N → (len b ≤ U64_MAX)%N → append_field a ++ r = append_field b ++ s → a = b ∧ r = s.
Proof.
  intros Ha Hb Heq. unfold append_field in Heq. rewrite <- !(assoc (++)) in Heq.
  apply app_inj_1 in Heq as [H1 H2]; [|by rewrite !be_bytes_length].
  apply be_bytes_inj in H1; [|change (256 ^ _)%N with (U64_MAX + 1)%N; lia ..].
  apply app_inj_1 in H2; [done|]. unfold len in H1. lia.
Qed.

Lemma purpose_code_inj p q : purpose_code p = purpose_code q → p = q.
Proof. by destruct p, q. Qed.

Lemma context_inj c d :
  context_ok c → context_ok d →
  BarrierContext.canonical_associated_data c = BarrierContext.canonical_associated_data d → c = d.
Proof.
  destruct c as [cd cg ck cp ca], d as [dd dg dk dp da]. unfold context_ok, BarrierContext.canonical_associated_data.
  cbn [BarrierContext.domain BarrierContext.generation BarrierContext.key_epoch BarrierContext.purpose BarrierContext.caller_associated_data].
  intros (H1 & H2 & H3 & H4) (G1 & G2 & G3 & G4) Heq.
  apply app_inv_head in Heq.
  apply append_field_inj in Heq as [E1 Heq]; [|by rewrite len_list_byte ..].
  apply append_field_inj in Heq as [E2 Heq]; [|unfold len; rewrite be_bytes_length; vm_compute; done ..].
  apply append_field_inj in Heq as [E3 Heq]; [|unfold len; rewrite be_bytes_length; vm_compute; done ..].
  apply append_field_inj in Heq as [E4 Heq]; [|vm_compute; done ..].
  rewrite <- (app_nil_r (append_field ca)), <- (app_nil_r (append_field da)) in Heq.
  apply append_field_inj in Heq as [E5 _]; [|done ..].
  apply be_bytes_inj in E2; [|change (256 ^ _)%N with (U64_MAX + 1)%N; lia ..].
  apply be_bytes_inj in E3; [|change (256 ^ _)%N with (U64_MAX + 1)%N; lia ..].
  injection E4 as E4%purpose_code_inj.
  assert (cd = dd) as -> by (by rewrite <- (String.string_of_list_byte_of_string cd), E1, String.string_of_list_byte_of_string).
  by subst.
Qed.
