(* ===== verification/OperationLedger.v ===== *)
(** The operation ledger of [crates/heptabao-operation-ledger/src/lib.rs]: the events of
    an operation, their binary form, the transitions between phases, and the ledger that
    records them through a [DurableJournal].

    Definitions first; then the codec is exact in both directions, and what a record of the
    ledger means. *)
From Stdlib Require Import Ascii NArith Strings.Byte.
From S2P Require Import Prelude Str Gf256 Bytes DurableCodec DurableCodecSpec Contracts.

(** * Identities and digests *)
Definition EVENT_MAGIC : list u8 := String.list_byte_of_string "HEPTABAO-OPERATION-EVENT-V2" ++ [x00].
Definition EVENT_VERSION : N := 2.
Definition MAX_OPERATION_ID_BYTES : N := 128.
Definition MAX_DETAIL_CODE_BYTES : N := 128.

Inductive OperationContractError : Type :=
| InvalidOperationId | InvalidDetailCode | ZeroOperationDigest | LengthOverflow | InvalidEventShape
| InvalidTransition | ImmutableFieldDrift | DuplicateAcceptedOperation | MissingPreviousOperation
| UnsupportedEventVersion | MalformedEvent | TrailingEventBytes.

Notation OResult A := (Result A OperationContractError).

Definition operation_id_byte (c : ascii) : bool :=
  is_ascii_alphanumeric c || bool_decide (c ∈ ["-"; "_"; "."; ":"]%char).

Definition OperationId_new (value : string) : OResult string :=
  if (slen value <? 8)%N || (MAX_OPERATION_ID_BYTES <? slen value)%N || negb (str_all (byte_in 0 127) value)
     || negb (str_all operation_id_byte value)
  then Err InvalidOperationId else Ok value.

Definition detail_byte (c : ascii) : bool :=
  byte_in 97 122 c || byte_in 48 57 c || bool_decide (c ∈ ["-"; "_"]%char).

Definition StableDetailCode_new (value : string) : OResult string :=
  if bool_decide (value = "") || (MAX_DETAIL_CODE_BYTES <? slen value)%N || negb (str_all (byte_in 0 127) value)
     || negb (str_all detail_byte value)
  then Err InvalidDetailCode else Ok value.

Definition OperationDigest_new (value : list u8) : OResult (list u8) :=
  if bool_decide (value = zero32) then Err ZeroOperationDigest else Ok value.

(** * Phases *)
Inductive OperationClass : Type := DurableMutation | ExternalEffect.
#[export] Instance OperationClass_eq_dec : EqDecision OperationClass.
Proof. solve_decision. Defined.

Definition class_code (self : OperationClass) : u8 :=
  match self with DurableMutation => x01 | ExternalEffect => x02 end.
Definition class_from_code (value : u8) : OResult OperationClass :=
  match value with x01 => Ok DurableMutation | x02 => Ok ExternalEffect | _ => Err MalformedEvent end.

Inductive OperationPhase : Type :=
| Accepted | RejectedBeforeDispatch | IntentCommitted | AbortedBeforeStateCommit | EffectStarted
| EffectSucceeded | EffectFailed | EffectUnknown | StateCommitted | ResponseAudited
| ResponseAuditFailedAfterCommit | Delivered | DeliveryFailedAfterCommit | Reconciled.
#[export] Instance OperationPhase_eq_dec : EqDecision OperationPhase.
Proof. solve_decision. Defined.

Definition phase_code (self : OperationPhase) : u8 :=
  match self with
  | Accepted => x01
  | RejectedBeforeDispatch => x02
  | IntentCommitted => x03
  | AbortedBeforeStateCommit => x0e
  | EffectStarted => x04
  | EffectSucceeded => x05
  | EffectFailed => x06
  | EffectUnknown => x07
  | StateCommitted => x08
  | ResponseAudited => x09
  | ResponseAuditFailedAfterCommit => x0a
  | Delivered => x0b
  | DeliveryFailedAfterCommit => x0c
  | Reconciled => x0d
  end.

Definition phase_from_code (value : u8) : OResult OperationPhase :=
  match value with
  | x01 => Ok Accepted
  | x02 => Ok RejectedBeforeDispatch
  | x03 => Ok IntentCommitted
  | x04 => Ok EffectStarted
  | x05 => Ok EffectSucceeded
  | x06 => Ok EffectFailed
  | x07 => Ok EffectUnknown
  | x08 => Ok StateCommitted
  | x09 => Ok ResponseAudited
  | x0a => Ok ResponseAuditFailedAfterCommit
  | x0b => Ok Delivered
  | x0c => Ok DeliveryFailedAfterCommit
  | x0d => Ok Reconciled
  | x0e => Ok AbortedBeforeStateCommit
  | _ => Err MalformedEvent
  end.

(** * Events *)
Module OperationEvent.
Record t := mk {
  operation_id : string;
  request_digest : list u8;
  class : OperationClass;
  previous_phase : option OperationPhase;
  phase : OperationPhase;
  state_generation : option N;
  state_digest : option (list u8);
  effect_key_digest : option (list u8);
  response_digest : option (list u8);
  detail_code : string;
}.
End OperationEvent.
Notation OperationEvent := OperationEvent.t.
Import OperationEvent (operation_id, request_digest, class, previous_phase, phase, state_generation, state_digest,
  effect_key_digest, response_digest, detail_code).
#[export] Instance OperationEvent_eq_dec : EqDecision OperationEvent.
Proof. solve_decision. Defined.

Definition is_some {A} (o : option A) : bool := match o with Some _ => true | None => false end.

Definition state_required (event : OperationEvent) : bool :=
  (bool_decide (class event = DurableMutation)
   && match phase event with IntentCommitted | AbortedBeforeStateCommit => true | _ => false end)
  || match phase event with
     | StateCommitted | ResponseAudited | ResponseAuditFailedAfterCommit | Delivered | DeliveryFailedAfterCommit => true
     | _ => false
     end.

Definition response_required (event : OperationEvent) : bool :=
  match phase event with
  | ResponseAudited | ResponseAuditFailedAfterCommit | Delivered | DeliveryFailedAfterCommit => true
  | _ => false
  end.

Definition validate_event_shape (event : OperationEvent) : OResult unit :=
  if negb (eqb (is_some (state_generation event)) (is_some (state_digest event))) then Err InvalidEventShape
  else if bool_decide (phase event = Accepted) then
    if is_some (previous_phase event) || is_some (state_generation event) || is_some (effect_key_digest event)
       || is_some (response_digest event)
    then Err InvalidEventShape else Ok tt
  else if negb (is_some (previous_phase event)) then Err InvalidEventShape
  else if bool_decide (class event = DurableMutation) && is_some (effect_key_digest event) then Err InvalidEventShape
  else if bool_decide (phase event = AbortedBeforeStateCommit) && negb (bool_decide (class event = DurableMutation))
  then Err InvalidEventShape
  else if bool_decide (class event = ExternalEffect) && negb (bool_decide (phase event = RejectedBeforeDispatch))
          && negb (is_some (effect_key_digest event))
  then Err InvalidEventShape
  else if bool_decide (phase event = RejectedBeforeDispatch) then
    if is_some (state_generation event) || is_some (effect_key_digest event) || is_some (response_digest event)
    then Err InvalidEventShape else Ok tt
  else if bool_decide (phase event = Reconciled) then
    if is_some (response_digest event) && negb (is_some (state_generation event)) then Err InvalidEventShape else Ok tt
  else if negb (eqb (state_required event) (is_some (state_generation event))) then Err InvalidEventShape
  else if negb (eqb (response_required event) (is_some (response_digest event))) then Err InvalidEventShape
  else Ok tt.

Definition allowed_transition (c : OperationClass) (previous next : OperationPhase) : bool :=
  match c, previous, next with
  | _, Accepted, RejectedBeforeDispatch => true
  | _, Accepted, IntentCommitted => true
  | DurableMutation, IntentCommitted, (StateCommitted | AbortedBeforeStateCommit) => true
  | ExternalEffect, IntentCommitted, EffectStarted => true
  | ExternalEffect, EffectStarted, (EffectSucceeded | EffectFailed | EffectUnknown) => true
  | ExternalEffect, EffectSucceeded, StateCommitted => true
  | ExternalEffect, (EffectFailed | EffectUnknown), Reconciled => true
  | _, StateCommitted, (ResponseAudited | ResponseAuditFailedAfterCommit) => true
  | _, ResponseAudited, (Delivered | DeliveryFailedAfterCommit) => true
  | _, (ResponseAuditFailedAfterCommit | DeliveryFailedAfterCommit), Reconciled => true
  | _, _, _ => false
  end.

(** A field of [previous] that is set may not change. *)
Definition kept {A} `{EqDecision A} (previous next : option A) : bool :=
  negb (is_some previous && negb (bool_decide (next = previous))).

Definition validate_transition (previous : option OperationEvent) (next : OperationEvent) : OResult unit :=
  let? _ := validate_event_shape next in
  match previous with
  | None =>
      if negb (bool_decide (phase next = Accepted)) || is_some (previous_phase next) then
        if bool_decide (phase next = Accepted) then Err DuplicateAcceptedOperation else Err MissingPreviousOperation
      else Ok tt
  | Some previous =>
      if bool_decide (phase next = Accepted) then Err DuplicateAcceptedOperation
      else if negb (bool_decide (previous_phase next = Some (phase previous))) then Err InvalidTransition
      else if negb (bool_decide (operation_id next = operation_id previous))
              || negb (bool_decide (request_digest next = request_digest previous))
              || negb (bool_decide (class next = class previous))
      then Err ImmutableFieldDrift
      else if is_some (state_generation previous)
              && (negb (bool_decide (state_generation next = state_generation previous))
                  || negb (bool_decide (state_digest next = state_digest previous)))
      then Err ImmutableFieldDrift
      else if negb (kept (effect_key_digest previous) (effect_key_digest next)) then Err ImmutableFieldDrift
      else if negb (kept (response_digest previous) (response_digest next)) then Err ImmutableFieldDrift
      else if negb (allowed_transition (class previous) (phase previous) (phase next)) then Err InvalidTransition
      else Ok tt
  end.

Definition accepted (operation_id : string) (request_digest : list u8) (class : OperationClass) (detail : string) :
    OResult OperationEvent :=
  let event := OperationEvent.mk operation_id request_digest class None Accepted None None None None detail in
  let? _ := validate_event_shape event in Ok event.

Definition next (self : OperationEvent) (phase' : OperationPhase) (state : option target)
    (effect_key_digest' response_digest' : option (list u8)) (detail : string) : OResult OperationEvent :=
  let event := OperationEvent.mk (operation_id self) (request_digest self) (class self) (Some (phase self)) phase'
                 (fst <$> state) (snd <$> state) effect_key_digest' response_digest' detail in
  let? _ := validate_transition (Some self) event in Ok event.

Definition state (self : OperationEvent) : option target :=
  match state_generation self, state_digest self with
  | Some generation, Some digest => Some (generation, digest)
  | _, _ => None
  end.

(** * The binary form *)
Definition event_flags (self : OperationEvent) : u8 :=
  U8.wrap (N.lor (N.lor (if is_some (state_generation self) then 1 else 0)
                        (if is_some (effect_key_digest self) then 2 else 0))
                 (if is_some (response_digest self) then 4 else 0))%N.

(** The optional fields follow in a fixed order, then the two strings. *)
Definition state_bytes (self : OperationEvent) : list u8 :=
  match state_generation self, state_digest self with
  | Some generation, Some digest => be_bytes 8 generation ++ digest
  | _, _ => []
  end.

Definition event_output (self : OperationEvent) : list u8 :=
  EVENT_MAGIC ++ be_bytes 2 EVENT_VERSION
  ++ [class_code (class self); from_option phase_code x00 (previous_phase self); phase_code (phase self);
      event_flags self]
  ++ be_bytes 2 (slen (operation_id self)) ++ be_bytes 2 (slen (detail_code self))
  ++ request_digest self ++ state_bytes self
  ++ default [] (effect_key_digest self) ++ default [] (response_digest self)
  ++ String.list_byte_of_string (operation_id self) ++ String.list_byte_of_string (detail_code self).

Definition encode (self : OperationEvent) : OResult (list u8) :=
  let? _ := validate_event_shape self in
  if (65535 <? slen (operation_id self))%N then Err LengthOverflow
  else if (65535 <? slen (detail_code self))%N then Err LengthOverflow
  else match JournalPayload_new (event_output self) with Ok payload => Ok payload | Err _ => Err LengthOverflow end.

Definition take_u8 (cursor : list u8) : OResult (u8 * list u8) :=
  match cursor with b :: cursor => Ok (b, cursor) | [] => Err MalformedEvent end.

Definition flag (flags : u8) (bit : N) : bool := negb (N.land (U8.to_N flags) bit =? 0)%N.

(** A 32-byte digest present when its flag is set. *)
Definition take_digest (present : bool) (cursor : list u8) : OResult (option (list u8) * list u8) :=
  if present then
    let? (bytes, cursor) := take_n MalformedEvent 32 cursor in
    let? digest := OperationDigest_new bytes in Ok (Some digest, cursor)
  else Ok (None, cursor).

Definition take_state (present : bool) (cursor : list u8) :
    OResult (option N * option (list u8) * list u8) :=
  if present then
    let? (value, cursor) := take_int MalformedEvent 8 cursor in
    match Generation.new value with
    | Err _ => Err MalformedEvent
    | Ok generation =>
        let? (bytes, cursor) := take_n MalformedEvent 32 cursor in
        match StateDigest_new bytes with
        | Err _ => Err MalformedEvent
        | Ok digest => Ok (Some generation, Some digest, cursor)
        end
    end
  else Ok (None, None, cursor).

Definition take_text (length : N) (cursor : list u8) : OResult (string * list u8) :=
  let? (bytes, cursor) := take_n MalformedEvent length cursor in
  let value := String.string_of_list_byte bytes in
  if utf8_valid value then Ok (value, cursor) else Err MalformedEvent.

Definition decode (bytes : list u8) : OResult OperationEvent :=
  let? (magic, cursor) := take_n MalformedEvent (len EVENT_MAGIC) bytes in
  if negb (bool_decide (magic = EVENT_MAGIC)) then Err MalformedEvent else
  let? (version, cursor) := take_int MalformedEvent 2 cursor in
  if negb (version =? EVENT_VERSION)%N then Err UnsupportedEventVersion else
  let? (class_byte, cursor) := take_u8 cursor in
  let? class := class_from_code class_byte in
  let? (previous_code, cursor) := take_u8 cursor in
  let? previous_phase :=
    if U8.eqb previous_code x00 then Ok None
    else let? previous := phase_from_code previous_code in Ok (Some previous) in
  let? (phase_byte, cursor) := take_u8 cursor in
  let? phase := phase_from_code phase_byte in
  let? (flags, cursor) := take_u8 cursor in
  if flag flags 248 then Err MalformedEvent else
  let? (operation_id_len, cursor) := take_int MalformedEvent 2 cursor in
  let? (detail_len, cursor) := take_int MalformedEvent 2 cursor in
  let? (request_bytes, cursor) := take_n MalformedEvent 32 cursor in
  let? request_digest := OperationDigest_new request_bytes in
  let? (state_generation, state_digest, cursor) := take_state (flag flags 1) cursor in
  let? (effect_key_digest, cursor) := take_digest (flag flags 2) cursor in
  let? (response_digest, cursor) := take_digest (flag flags 4) cursor in
  if (operation_id_len =? 0)%N || (detail_len =? 0)%N then Err MalformedEvent else
  let? (operation_id, cursor) := take_text operation_id_len cursor in
  let? (detail_code, cursor) := take_text detail_len cursor in
  if negb (bool_decide (cursor = [])) then Err TrailingEventBytes else
  let? operation_id := OperationId_new operation_id in
  let? detail_code := StableDetailCode_new detail_code in
  let event := OperationEvent.mk operation_id request_digest class previous_phase phase state_generation state_digest
                 effect_key_digest response_digest detail_code in
  let? _ := validate_event_shape event in
  Ok event.

(** * Directives *)
Inductive RetryDirective : Type :=
| SafeToRetryNewOperation | LookupOnly | ReconcileOnly | ManualHold | NoAutomaticRetry.

Definition phase_blocks_new_mutation (phase : OperationPhase) : bool :=
  match phase with
  | Accepted | IntentCommitted | EffectStarted | EffectSucceeded | EffectUnknown => true
  | _ => false
  end.

Definition retry_directive_for_event (event : OperationEvent) : RetryDirective :=
  match phase event with
  | RejectedBeforeDispatch | AbortedBeforeStateCommit => SafeToRetryNewOperation
  | StateCommitted | ResponseAudited | Delivered => LookupOnly
  | IntentCommitted | EffectStarted | EffectSucceeded | EffectUnknown | ResponseAuditFailedAfterCommit
  | DeliveryFailedAfterCommit => ReconcileOnly
  | Accepted => ManualHold
  | EffectFailed | Reconciled => NoAutomaticRetry
  end.

(** * The ledger *)
Inductive LedgerWriteState : Type := Writable | ReplayRequired.
#[export] Instance LedgerWriteState_eq_dec : EqDecision LedgerWriteState.
Proof. solve_decision. Defined.

Inductive OperationLedgerError (JE : Type) : Type :=
| ContractError (error : OperationContractError)
| JournalError (error : JE)
| ReplayRequiredAfterAppendFailure
| RecoveryNotRequired.
Arguments ContractError {_} _.
Arguments JournalError {_} _.
Arguments ReplayRequiredAfterAppendFailure {_}.
Arguments RecoveryNotRequired {_}.

Module OperationLedger.
Record t (J : Type) := mk {
  journal : J;
  operations : gmap string OperationEvent;
  write_state : LedgerWriteState;
}.
End OperationLedger.
Notation OperationLedger := OperationLedger.t.
Arguments OperationLedger.mk {_} _ _ _.
Arguments OperationLedger.journal {_} _.
Arguments OperationLedger.operations {_} _.
Arguments OperationLedger.write_state {_} _.

Definition apply_replayed_event (operations : gmap string OperationEvent) (event : OperationEvent) :
    OResult (gmap string OperationEvent) :=
  let? _ := validate_transition (operations !! operation_id event) event in
  Ok (<[operation_id event := event]> operations).

(** [for record in records]. *)
Fixpoint replay_records (operations : gmap string OperationEvent) (records : list JournalRecord) :
    OResult (gmap string OperationEvent) :=
  match records with
  | [] => Ok operations
  | record :: records =>
      let? event := decode (JournalRecord.payload record) in
      let? operations := apply_replayed_event operations event in
      replay_records operations records
  end.

Section ledger.
Context {J JE : Type} `{DurableJournal J JE}.
Notation LResult A := (Result A (OperationLedgerError JE)).

(** The journal of a failed open is dropped; what it left on the medium is [j']. *)
Definition open_ledger (j : J) : J * LResult (OperationLedger J) :=
  match recover_authoritative j with
  | (j', Err error) => (j', Err (JournalError error))
  | (j', Ok records) =>
      match replay_records ∅ records with
      | Err error => (j', Err (ContractError error))
      | Ok operations => (j', Ok (OperationLedger.mk j' operations Writable))
      end
  end.

Definition replay_required (self : OperationLedger J) : bool :=
  bool_decide (OperationLedger.write_state self = ReplayRequired).
Definition current (self : OperationLedger J) (operation_id : string) : option OperationEvent :=
  OperationLedger.operations self !! operation_id.
Definition operation_count (self : OperationLedger J) : nat := size (OperationLedger.operations self).

(** The first blocking phase, in the order of the identities. *)
Definition blocking_phase (self : OperationLedger J) : option OperationPhase :=
  head (omap (λ event, if phase_blocks_new_mutation (phase event) then Some (phase event) else None)
    (btree_values (OperationLedger.operations self))).

Definition retry_directive (self : OperationLedger J) (operation_id : string) : option RetryDirective :=
  retry_directive_for_event <$> current self operation_id.

Definition record (event : OperationEvent) : M (OperationLedger J) (OperationLedgerError JE) AppendReceipt := λ self,
  if replay_required self then (self, Err ReplayRequiredAfterAppendFailure)
  else
    let previous := current self (operation_id event) in
    match validate_transition previous event with
    | Err error => (self, Err (ContractError error))
    | Ok _ =>
        match encode event with
        | Err error => (self, Err (ContractError error))
        | Ok payload =>
            let expected_tail := JournalTail.sequence <$> journal_tail (OperationLedger.journal self) in
            match append (OperationLedger.journal self) expected_tail payload with
            | (j, Ok receipt) =>
                (OperationLedger.mk j (<[operation_id event := event]> (OperationLedger.operations self))
                   (OperationLedger.write_state self), Ok receipt)
            | (j, Err error) =>
                let write_state :=
                  if bool_decide (classify_append_failure j error = OutcomeUnknown) then ReplayRequired
                  else OperationLedger.write_state self in
                (OperationLedger.mk j (OperationLedger.operations self) write_state, Err (JournalError error))
            end
        end
    end.

Definition recover_after_append_failure : M (OperationLedger J) (OperationLedgerError JE) unit := λ self,
  if negb (replay_required self) then (self, Err RecoveryNotRequired)
  else
    match recover_authoritative (OperationLedger.journal self) with
    | (j, Err error) =>
        (OperationLedger.mk j (OperationLedger.operations self) (OperationLedger.write_state self),
         Err (JournalError error))
    | (j, Ok records) =>
        match replay_records ∅ records with
        | Err error =>
            (OperationLedger.mk j (OperationLedger.operations self) (OperationLedger.write_state self),
             Err (ContractError error))
        | Ok operations => (OperationLedger.mk j operations Writable, Ok tt)
        end
    end.

Definition reopen (self : OperationLedger J) : J * LResult (OperationLedger J) :=
  if replay_required self then
    match recover_after_append_failure self with
    | (ledger, Ok _) => (OperationLedger.journal ledger, Ok ledger)
    | (ledger, Err error) => (OperationLedger.journal ledger, Err error)
    end
  else open_ledger (OperationLedger.journal self).
End ledger.

(** * The codec is exact *)

(** What the checked constructors of the fields promise. *)

Record fields_ok (e : OperationEvent) : Prop := {
  id_ok : OperationId_new (operation_id e) = Ok (operation_id e);
  request_ok : digest_ok (request_digest e);
  generation_fits : ∀ g, state_generation e = Some g → generation_ok g;
  state_ok : ∀ d, state_digest e = Some d → digest_ok d;
  effect_ok : ∀ d, effect_key_digest e = Some d → digest_ok d;
  response_ok : ∀ d, response_digest e = Some d → digest_ok d;
  detail_ok : StableDetailCode_new (detail_code e) = Ok (detail_code e);
}.

Definition event_wf (e : OperationEvent) : Prop := fields_ok e ∧ validate_event_shape e = Ok tt.

Lemma OperationId_text s t :
  OperationId_new s = Ok t → t = s ∧ (0 < slen s ≤ 128)%N ∧ str_all (byte_in 0 127) s.
Proof.
  unfold OperationId_new, MAX_OPERATION_ID_BYTES. case_match eqn:Hb; [done|]. intros [= <-].
  apply orb_false_iff in Hb as [[[H1%N.ltb_ge H2%N.ltb_ge]%orb_false_iff H3%negb_false_iff]%orb_false_iff _].
  rewrite H3. split_and!; [done|lia|lia|done].
Qed.

Lemma StableDetailCode_text s t :
  StableDetailCode_new s = Ok t → t = s ∧ (0 < slen s ≤ 128)%N ∧ str_all (byte_in 0 127) s.
Proof.
  unfold StableDetailCode_new, MAX_DETAIL_CODE_BYTES. case_match eqn:Hb; [done|]. intros [= <-].
  apply orb_false_iff in Hb as [[[H1%bool_decide_eq_false H2%N.ltb_ge]%orb_false_iff H3%negb_false_iff]%orb_false_iff _].
  rewrite H3. split_and!; [done| |lia|done]. destruct s; [done|]. unfold slen. simpl. lia.
Qed.

Lemma take_text_app s r : str_all (byte_in 0 127) s → take_text (slen s) (String.list_byte_of_string s ++ r) = Ok (s, r).
Proof.
  intros Hs. unfold take_text. rewrite take_n_app by apply len_list_byte.
  rewrite String.string_of_list_byte_of_string. pose proof (ascii_utf8 s Hs). by destruct (utf8_valid s).
Qed.

Lemma take_text_inv n c s r :
  take_text n c = Ok (s, r) → c = String.list_byte_of_string s ++ r ∧ slen s = n.
Proof.
  unfold take_text. destruct (take_n _ _ _) as [[b c']|] eqn:Ht; [|done]. case_match; [|done]. intros [= <- <-].
  apply take_n_inv in Ht as [-> Hl]. rewrite <- len_list_byte, String.list_byte_of_string_of_list_byte. done.
Qed.

Lemma digest_new d : digest_ok d → OperationDigest_new d = Ok d ∧ StateDigest_new d = Ok d ∧ len d = 32%N.
Proof.
  intros [Hl Hz]. unfold OperationDigest_new, StateDigest_new. rewrite bool_decide_eq_false_2 by done.
  split_and!; [done..|]. unfold len. by rewrite Hl.
Qed.

Lemma take_digest_app o r :
  (∀ d, o = Some d → digest_ok d) → take_digest (is_some o) (default [] o ++ r) = Ok (o, r).
Proof.
  intros Ho. destruct o as [d|]; [|done]. destruct (digest_new d (Ho d eq_refl)) as (H1 & _ & H3).
  unfold take_digest. simpl. rewrite take_n_app by done. by rewrite H1.
Qed.

Lemma phase_codes p : phase_from_code (phase_code p) = Ok p ∧ U8.eqb (phase_code p) x00 = false.
Proof. by destruct p. Qed.

Lemma flags_read e :
  flag (event_flags e) 248 = false ∧ flag (event_flags e) 1 = is_some (state_generation e) ∧
  flag (event_flags e) 2 = is_some (effect_key_digest e) ∧ flag (event_flags e) 4 = is_some (response_digest e).
Proof. unfold event_flags. by destruct (state_generation e), (effect_key_digest e), (response_digest e). Qed.

Lemma shape_paired e : validate_event_shape e = Ok tt → is_some (state_generation e) = is_some (state_digest e).
Proof. unfold validate_event_shape. case_match eqn:Hp; [done|]. intros _. by apply negb_false_iff, eqb_prop in Hp. Qed.

Lemma take_state_app e r :
  fields_ok e → is_some (state_generation e) = is_some (state_digest e) →
  take_state (is_some (state_generation e))
    (state_bytes e ++ r) = Ok (state_generation e, state_digest e, r).
Proof.
  unfold state_bytes. intros [_ _ Hg Hd _ _ _] Hp. destruct (state_generation e) as [g|], (state_digest e) as [d|]; try done.
  specialize (Hg g eq_refl) as [Hg1 Hg2]. destruct (digest_new d (Hd d eq_refl)) as (_ & H2 & H3).
  unfold take_state. simpl is_some. cbn iota. rewrite <- (assoc (++)).
  rewrite take_int_app by (change (256 ^ _)%N with (U64_MAX + 1)%N; lia).
  unfold Generation.new. destruct (N.eqb_spec g 0); [lia|]. rewrite take_n_app by done. by rewrite H2.
Qed.


Lemma default_len (o : option (list u8)) : (∀ d, o = Some d → digest_ok d) → (len (default [] o) ≤ 32)%N.
Proof. destruct o as [d|]; intros Ho; [|done]. destruct (digest_new d (Ho d eq_refl)) as (_ & _ & H). simpl. lia. Qed.

Lemma state_bytes_len e : (∀ d, state_digest e = Some d → digest_ok d) → (len (state_bytes e) ≤ 40)%N.
Proof.
  unfold state_bytes. intros Hd. destruct (state_generation e), (state_digest e) as [d|]; [|done..].
  destruct (digest_new d (Hd d eq_refl)) as (_ & _ & H). rewrite len_app, H. unfold len. rewrite be_bytes_length. lia.
Qed.

(** The output fits into a payload. *)
Lemma encode_output e : event_wf e → encode e = Ok (event_output e).
Proof.
  intros [Hf Hs]. pose proof Hf as [Hid [Hreq _] _ Hd He Hr Hdet].
  apply OperationId_text in Hid as (_ & Hid & _). apply StableDetailCode_text in Hdet as (_ & Hdet & _).
  unfold encode. rewrite Hs. destruct (N.ltb_spec 65535 (slen (operation_id e))); [lia|].
  destruct (N.ltb_spec 65535 (slen (detail_code e))); [lia|].
  unfold JournalPayload_new. rewrite bool_decide_eq_false_2 by done. cbn [orb].
  assert (len (event_output e) ≤ 1000)%N as Hlen.
  { pose proof (default_len _ He). pose proof (default_len _ Hr). pose proof (state_bytes_len _ Hd).
    unfold event_output. rewrite !len_app, !len_list_byte. unfold len in *. rewrite !be_bytes_length, Hreq.
    change (length EVENT_MAGIC) with 28. simpl length. lia. }
  unfold MAX_JOURNAL_PAYLOAD_BYTES. destruct (N.ltb_spec (1024 * 1024) (len (event_output e))); [lia|done].
Qed.

Lemma encode_payload e b : encode e = Ok b → JournalPayload_new b = Ok b.
Proof.
  unfold encode. destruct (validate_event_shape e); [|done]. do 2 (case_match; [done|]).
  destruct (JournalPayload_new (event_output e)) as [b'|] eqn:Hp; [|done]. intros [= <-].
  assert (b' = event_output e) as ->; [|done]. unfold JournalPayload_new in Hp. case_match; [done|]. by injection Hp.
Qed.

Lemma event_decode_encode e : event_wf e → ∃ b, encode e = Ok b ∧ decode b = Ok e.
Proof.
  intros Hwf. eexists. split; [by apply encode_output|]. destruct Hwf as [Hf Hs].
  pose proof Hf as [Hid Hreq _ _ He Hr Hdet]. destruct (digest_new _ Hreq) as (Hreq1 & _ & Hreq2).
  destruct (OperationId_text _ _ Hid) as (_ & Hid1 & Hid2). destruct (StableDetailCode_text _ _ Hdet) as (_ & Hdet1 & Hdet2).
  destruct (flags_read e) as (F0 & F1 & F2 & F3). destruct (phase_codes (phase e)) as [Hph _].
  unfold decode, event_output. rewrite take_n_app by done. rewrite bool_decide_eq_true_2 by done. cbn [negb].
  rewrite take_int_app by (vm_compute; done). change (EVENT_VERSION =? EVENT_VERSION)%N with true. cbn [negb app take_u8].
  replace (class_from_code (class_code (class e))) with (Ok (E := OperationContractError) (class e)) by (by destruct (class e)).
  replace (if U8.eqb (from_option phase_code x00 (previous_phase e)) x00 then Ok None
           else let? previous := phase_from_code (from_option phase_code x00 (previous_phase e)) in Ok (Some previous))
    with (Ok (E := OperationContractError) (previous_phase e)).
  2:{ destruct (previous_phase e) as [p|]; [|done]. simpl. destruct (phase_codes p) as [-> ->]. done. }
  rewrite Hph, F0, F1, F2, F3.
  rewrite take_int_app by (change (256 ^ _)%N with 65536%N; lia).
  rewrite take_int_app by (change (256 ^ _)%N with 65536%N; lia).
  rewrite take_n_app by done. rewrite Hreq1. rewrite take_state_app by (try done; by apply shape_paired).
  rewrite !take_digest_app by done.
  destruct (N.eqb_spec (slen (operation_id e)) 0); [lia|]. destruct (N.eqb_spec (slen (detail_code e)) 0); [lia|].
  cbn [orb]. rewrite take_text_app by done. rewrite <- (app_nil_r (String.list_byte_of_string (detail_code e))).
  rewrite take_text_app by done. rewrite bool_decide_eq_true_2 by done. cbn [negb]. rewrite Hid, Hdet.
  destruct e; simpl in *. by rewrite Hs.
Qed.

Lemma take_u8_inv c b r : take_u8 c = Ok (b, r) → c = b :: r.
Proof. destruct c; [done|]. by intros [= -> ->]. Qed.

Lemma class_code_inv b c : class_from_code b = Ok c → b = class_code c.
Proof. by destruct b; intros [= <-]. Qed.

Lemma phase_code_inv b p : phase_from_code b = Ok p → b = phase_code p.
Proof. by destruct b; intros [= <-]. Qed.

Lemma previous_code_inv b o :
  (if U8.eqb b x00 then Ok None else let? p := phase_from_code b in Ok (Some p)) = Ok (E := OperationContractError) o →
  b = from_option phase_code x00 o.
Proof.
  destruct (U8.eqb b x00) eqn:Hb; [intros [= <-]; by destruct b|].
  destruct (phase_from_code b) eqn:Hp; [|done]. intros [= <-]. by apply phase_code_inv.
Qed.

Lemma take_digest_inv present c o r :
  take_digest present c = Ok (o, r) →
  c = default [] o ++ r ∧ is_some o = present ∧ ∀ d, o = Some d → digest_ok d.
Proof.
  unfold take_digest. destruct present; [|by intros [= <- <-]].
  destruct (take_n _ _ _) as [[b c']|] eqn:Ht; [|done]. unfold OperationDigest_new. case_bool_decide; [done|].
  intros [= <- <-]. apply take_n_inv in Ht as [-> Hl]. split_and!; [done..|]. intros d [= <-]. split; [|done].
  unfold len in Hl. lia.
Qed.

Lemma take_state_inv present c g d r :
  take_state present c = Ok (g, d, r) →
  c = match g, d with Some g, Some d => be_bytes 8 g ++ d | _, _ => [] end ++ r ∧
  is_some g = present ∧ is_some d = present ∧ (∀ x, g = Some x → generation_ok x) ∧ ∀ x, d = Some x → digest_ok x.
Proof.
  unfold take_state. destruct present; [|by intros [= <- <- <-]].
  destruct (take_int _ _ _) as [[v c1]|] eqn:Hi; [|done]. unfold Generation.new.
  destruct (N.eqb_spec v 0) as [|Hv]; [done|].
  destruct (take_n _ _ _) as [[b c2]|] eqn:Ht; [|done]. unfold StateDigest_new. case_bool_decide as Hz; [done|].
  intros [= <- <- <-]. apply cursor_int_inv in Hi as [-> Hb]. apply take_n_inv in Ht as [-> Hl].
  change (256 ^ N.of_nat 8)%N with (U64_MAX + 1)%N in Hb. rewrite (assoc (++)). split_and!; [done..| |].
  - intros x [= <-]. unfold generation_ok. lia.
  - intros x [= <-]. split; [unfold len in Hl; lia|done].
Qed.

Lemma flags_inv f (a b c : bool) :
  flag f 248 = false → a = flag f 1 → b = flag f 2 → c = flag f 4 →
  f = U8.wrap (N.lor (N.lor (if a then 1 else 0) (if b then 2 else 0)) (if c then 4 else 0))%N.
Proof. intros Hf -> -> ->. by destruct f. Qed.

(** What is read is well formed, and its encoding is what was read. *)
Lemma encode_decode b e : decode b = Ok e → event_wf e ∧ encode e = Ok b.
Proof.
  intros H. unfold decode in H.
  destruct (take_n _ (len EVENT_MAGIC) b) as [[magic c1]|] eqn:T1; [|done]. case_bool_decide as Hm; [|done]. cbn [negb] in H.
  destruct (take_int _ 2 c1) as [[v c2]|] eqn:T2; [|done]. destruct (N.eqb_spec v EVENT_VERSION) as [->|]; [|done]. cbn [negb] in H.
  destruct (take_u8 c2) as [[cb c3]|] eqn:T3; [|done]. destruct (class_from_code cb) as [cl|] eqn:D1; [|done].
  destruct (take_u8 c3) as [[pb c4]|] eqn:T4; [|done].
  match type of H with match ?x with _ => _ end = _ => destruct x as [pp|] eqn:D2; [|done] end.
  destruct (take_u8 c4) as [[hb c5]|] eqn:T5; [|done]. destruct (phase_from_code hb) as [ph|] eqn:D3; [|done].
  destruct (take_u8 c5) as [[fl c6]|] eqn:T6; [|done]. destruct (flag fl 248) eqn:F0; [done|].
  destruct (take_int _ 2 c6) as [[n1 c7]|] eqn:T7; [|done]. destruct (take_int _ 2 c7) as [[n2 c8]|] eqn:T8; [|done].
  destruct (take_n _ 32 c8) as [[rq c9]|] eqn:T9; [|done]. unfold OperationDigest_new in H. case_bool_decide as Hz; [done|].
  destruct (take_state _ c9) as [[[g d] c10]|] eqn:T10; [|done].
  destruct (take_digest _ c10) as [[ek c11]|] eqn:T11; [|done]. destruct (take_digest _ c11) as [[rs c12]|] eqn:T12; [|done].
  destruct (_ || _) eqn:Hn in H; [done|].
  destruct (take_text n1 c12) as [[id c13]|] eqn:T13; [|done]. destruct (take_text n2 c13) as [[dt c14]|] eqn:T14; [|done].
  case_bool_decide as Hend; [|done]. cbn [negb] in H.
  destruct (OperationId_new id) as [id'|] eqn:N1; [|done]. destruct (StableDetailCode_new dt) as [dt'|] eqn:N2; [|done].
  destruct (OperationId_text _ _ N1) as (-> & _). destruct (StableDetailCode_text _ _ N2) as (-> & _).
  destruct (validate_event_shape _) as [[]|] eqn:Hs in H; [|done]. injection H as <-.
  apply take_n_inv in T1 as [-> _]. apply cursor_int_inv in T2 as [-> _]. apply take_u8_inv in T3 as ->.
  apply take_u8_inv in T4 as ->. apply take_u8_inv in T5 as ->. apply take_u8_inv in T6 as ->.
  apply cursor_int_inv in T7 as [-> _]. apply cursor_int_inv in T8 as [-> _]. apply take_n_inv in T9 as [-> Hl].
  apply take_state_inv in T10 as (-> & G1 & G2 & G3 & G4). apply take_digest_inv in T11 as (-> & E1 & E2).
  apply take_digest_inv in T12 as (-> & R1 & R2). apply take_text_inv in T13 as [-> L1]. apply take_text_inv in T14 as [-> L2].
  match type of Hs with validate_event_shape ?ev = _ => assert (event_wf ev) as Hwf end.
  { split; [|done]. split; simpl; try done. split; [unfold len in Hl; lia|done]. }
  split; [done|]. rewrite (encode_output _ Hwf). f_equal. unfold event_output, state_bytes, event_flags. simpl.
  rewrite (class_code_inv _ _ D1), (previous_code_inv _ _ D2), (phase_code_inv _ _ D3), L1, L2.
  rewrite (flags_inv fl _ _ _ F0 G1 E1 R1), Hm, Hend. by rewrite app_nil_r.
Qed.

(** * Replay

    The ledger of a list of events; the journal of a ledger stores their encodings. *)
Fixpoint replay_events (m : gmap string OperationEvent) (es : list OperationEvent) : OResult (gmap string OperationEvent) :=
  match es with
  | [] => Ok m
  | e :: es => let? m := apply_replayed_event m e in replay_events m es
  end.

Definition stores (xs : list (list u8)) (es : list OperationEvent) : Prop := Forall2 (λ x e, decode x = Ok e) xs es.

Lemma replay_stored m records es :
  stores (JournalRecord.payload <$> records) es → replay_records m records = replay_events m es.
Proof.
  revert m es. induction records as [|r records IH]; intros m es Hs; simpl in *.
  - by apply Forall2_nil_inv_l in Hs as ->.
  - apply Forall2_cons_inv_l in Hs as (e & es' & He & Hs & ->). rewrite He. simpl.
    destruct (apply_replayed_event m e); [|done]. by apply IH.
Qed.

Lemma replay_snoc es m m' e :
  replay_events m es = Ok m' → replay_events m (es ++ [e]) = apply_replayed_event m' e.
Proof.
  revert m. induction es as [|e' es IH]; intros m; simpl.
  - intros [= <-]. by destruct (apply_replayed_event m e).
  - destruct (apply_replayed_event m e'); [|done]. apply IH.
Qed.

Lemma stores_snoc xs es e x : stores xs es → event_wf e → encode e = Ok x → stores (xs ++ [x]) (es ++ [e]).
Proof.
  intros Hs Hwf Hx. apply Forall2_app; [done|]. constructor; [|done].
  destruct (event_decode_encode e Hwf) as (b & Hb & Hd). by rewrite Hx in Hb; injection Hb as <-.
Qed.

(** What a valid transition checks, for the events of durable mutations. *)
Lemma transition_shape o e : validate_transition o e = Ok tt → validate_event_shape e = Ok tt.
Proof. unfold validate_transition. by destruct (validate_event_shape e) as [[]|]. Qed.

Lemma first_transition e : validate_transition None e = Ok tt → phase e = Accepted.
Proof.
  unfold validate_transition. destruct (validate_event_shape e); [|done].
  case_bool_decide; [done|]. by case_match.
Qed.

Lemma later_transition p e :
  validate_transition (Some p) e = Ok tt →
  operation_id e = operation_id p ∧ class e = class p ∧ request_digest e = request_digest p ∧
  allowed_transition (class p) (phase p) (phase e) ∧
  (is_some (state_generation p) → state_generation e = state_generation p ∧ state_digest e = state_digest p).
Proof.
  unfold validate_transition. destruct (validate_event_shape e); [|done].
  case_bool_decide; [done|]. case_bool_decide; [|done]. cbn [negb].
  destruct (negb _ || _ || _) eqn:H1; [done|]. destruct (is_some (state_generation p) && _) eqn:H2; [done|].
  do 2 (case_match; [done|]). destruct (allowed_transition _ _ _); [|done]. intros _.
  apply orb_false_iff in H1 as [[A1%negb_false_iff%bool_decide_eq_true A2%negb_false_iff%bool_decide_eq_true]%orb_false_iff
    A3%negb_false_iff%bool_decide_eq_true].
  split_and!; [done..|]. intros Hi. destruct (is_some _); [|done]. cbn [andb] in H2.
  by apply orb_false_iff in H2 as [A4%negb_false_iff%bool_decide_eq_true A5%negb_false_iff%bool_decide_eq_true].
Qed.

(** A recorded event is well formed when its strings and digests are. *)
Lemma applied_transition m e m' :
  apply_replayed_event m e = Ok m' →
  validate_transition (m !! operation_id e) e = Ok tt ∧ m' = <[operation_id e := e]> m.
Proof. unfold apply_replayed_event. destruct (validate_transition _ _) as [[]|]; [|done]. by intros [= <-]. Qed.

Lemma replay_snoc_inv es m m' e :
  replay_events m (es ++ [e]) = Ok m' → ∃ m0, replay_events m es = Ok m0 ∧ apply_replayed_event m0 e = Ok m'.
Proof.
  revert m. induction es as [|e' es IH]; intros m; simpl.
  - destruct (apply_replayed_event m e) eqn:He; [|done]. intros [= <-]. eauto.
  - destruct (apply_replayed_event m e'); [|done]. apply IH.
Qed.

(** The keys of a replayed map are the identities of its events. *)
Lemma replay_keys es m :
  replay_events ∅ es = Ok m → ∀ id e, m !! id = Some e → operation_id e = id ∧ e ∈ es.
Proof.
  revert m. induction es as [|e' es IH] using rev_ind; intros m; [by intros [= <-]|].
  intros (m0 & Hm & [_ ->]%applied_transition)%replay_snoc_inv id e.
  intros [[<- <-]|[_ He]]%lookup_insert_Some; [set_solver|]. destruct (IH _ Hm id e He). set_solver.
Qed.

(** The binary form of an event is canonical: the well-formed events are exactly the ones that
    are read from some bytes, and each is read from its own encoding only. *)
Theorem operation_event_codec e b :
  (decode b = Ok e ↔ event_wf e ∧ encode e = Ok b) ∧ (event_wf e ↔ ∃ b, decode b = Ok e).
Proof.
  split; split.
  - apply encode_decode.
  - intros [Hwf He]. destruct (event_decode_encode e Hwf) as (b' & Hb & Hd). rewrite He in Hb. by injection Hb as <-.
  - intros Hwf. destruct (event_decode_encode e Hwf) as (b' & _ & Hd). eauto.
  - intros (b' & Hb). by apply encode_decode in Hb as [].
Qed.
