(* ===== verification/JournaledCore.v ===== *)
(** The durable core ([crates/heptabao-durable-core/src/lib.rs]), which seals a state and
    commits it to a generation store, and the journaled core
    ([crates/heptabao-journaled-core/src/lib.rs]), which records every step of a mutation
    in the operation ledger before and after it.

    The store, the barrier and the journal are the classes of [Contracts]. *)
From Stdlib Require Import Ascii NArith Strings.Byte.
From S2P Require Import Prelude Str Gf256 Bytes DurableCodec DurableCodecSpec Contracts OperationLedger.

(** * The durable core *)
Module DurableStateEngine.
Record t (S B : Type) := mk { store : S; barrier : B }.
End DurableStateEngine.
Notation DurableStateEngine := DurableStateEngine.t.
Arguments DurableStateEngine.mk {_ _} _ _.
Arguments DurableStateEngine.store {_ _} _.
Arguments DurableStateEngine.barrier {_ _} _.

Module PreparedDurableMutation.
Record t := mk { intent : CommitIntent; candidate : list u8 }.
End PreparedDurableMutation.
Notation PreparedDurableMutation := PreparedDurableMutation.t.

Module LoadedSecretState.
Record t := mk { generation : N; digest : list u8; key_epoch : N; state : list u8 }.
End LoadedSecretState.
Notation LoadedSecretState := LoadedSecretState.t.

Inductive DurableCoreError (SE BE : Type) : Type :=
| Storage (error : SE)
| BarrierError (error : BE)
| StorageContract (error : StorageContractError)
| BarrierContract (error : BarrierContractError)
| GenerationConflict (expected actual : option N)
| BarrierEpochMismatch (requested returned : N)
| CommitIntentMismatch
| CommitReceiptMismatch.
Arguments Storage {_ _} _.
Arguments BarrierError {_ _} _.
Arguments StorageContract {_ _} _.
Arguments BarrierContract {_ _} _.
Arguments GenerationConflict {_ _} _ _.
Arguments BarrierEpochMismatch {_ _} _ _.
Arguments CommitIntentMismatch {_ _}.
Arguments CommitReceiptMismatch {_ _}.

(** [Result::map_err]. *)
Definition map_err {A E F} (f : E → F) (r : Result A E) : Result A F :=
  match r with Ok a => Ok a | Err e => Err (f e) end.

Section engine.
Context {S SE B BE : Type} `{DurableGenerationStore S SE} `{BarrierProvider B BE}.
Notation DResult A := (Result A (DurableCoreError SE BE)).

Definition prepare_persist (self : DurableStateEngine S B) (expected_current : option N) (plaintext data : list u8) :
    DResult PreparedDurableMutation :=
  let actual := current_generation (DurableStateEngine.store self) in
  if negb (bool_decide (expected_current = actual)) then Err (GenerationConflict expected_current actual)
  else
    let? generation :=
      match actual with
      | Some value => map_err StorageContract (Generation.checked_next value)
      | None => Ok Generation.INITIAL
      end in
    let? key_epoch := map_err BarrierError (active_key_epoch (DurableStateEngine.barrier self)) in
    let? context :=
      map_err BarrierContract
        (BarrierContext.new (store_domain (DurableStateEngine.store self)) generation key_epoch AuthoritativeState data) in
    let? envelope := map_err BarrierError (seal_state (DurableStateEngine.barrier self) context plaintext) in
    if negb (SealedEnvelope.key_epoch envelope =? key_epoch)%N
    then Err (BarrierEpochMismatch key_epoch (SealedEnvelope.key_epoch envelope))
    else
      let? encoded := map_err BarrierContract (SealedEnvelope.encode envelope) in
      let? candidate := map_err StorageContract (OpaqueState_new encoded) in
      let? intent := map_err Storage (prepare_commit (DurableStateEngine.store self) expected_current candidate) in
      if negb (bool_decide (CommitIntent.previous intent = expected_current))
         || negb (CommitIntent.committed intent =? generation)%N
      then Err CommitIntentMismatch
      else Ok (PreparedDurableMutation.mk intent candidate).

Definition commit_prepared (prepared : PreparedDurableMutation) :
    M (DurableStateEngine S B) (DurableCoreError SE BE) CommitReceipt := λ self,
  let intent := PreparedDurableMutation.intent prepared in
  match commit (DurableStateEngine.store self) (CommitIntent.previous intent) (PreparedDurableMutation.candidate prepared) with
  | (s, Err error) => (DurableStateEngine.mk s (DurableStateEngine.barrier self), Err (Storage error))
  | (s, Ok receipt) =>
      (DurableStateEngine.mk s (DurableStateEngine.barrier self),
       if bool_decide (receipt = CommitIntent.receipt intent) then Ok receipt else Err CommitReceiptMismatch)
  end.

Definition engine_recover_commit (intent : CommitIntent) :
    M (DurableStateEngine S B) (DurableCoreError SE BE) CommitRecovery := λ self,
  match recover_commit (DurableStateEngine.store self) intent with
  | (s, r) => (DurableStateEngine.mk s (DurableStateEngine.barrier self), map_err Storage r)
  end.

Definition persist (expected_current : option N) (plaintext data : list u8) :
    M (DurableStateEngine S B) (DurableCoreError SE BE) CommitReceipt := λ self,
  match prepare_persist self expected_current plaintext data with
  | Err error => (self, Err error)
  | Ok prepared => commit_prepared prepared self
  end.

Definition engine_load_current (self : DurableStateEngine S B) (data : list u8) : DResult (option LoadedSecretState) :=
  let? snapshot := map_err Storage (load_current (DurableStateEngine.store self)) in
  match snapshot with
  | None => Ok None
  | Some snapshot =>
      let? envelope := map_err BarrierContract (SealedEnvelope.decode (GenerationSnapshot.state snapshot)) in
      let key_epoch := SealedEnvelope.key_epoch envelope in
      let? context :=
        map_err BarrierContract
          (BarrierContext.new (store_domain (DurableStateEngine.store self)) (GenerationSnapshot.generation snapshot)
             key_epoch AuthoritativeState data) in
      let? state := map_err BarrierError (open_state (DurableStateEngine.barrier self) context envelope) in
      Ok (Some (LoadedSecretState.mk (GenerationSnapshot.generation snapshot) (GenerationSnapshot.digest snapshot)
                  key_epoch state))
  end.
End engine.

(** * The journaled core *)
Module JournaledDurableCore.
Record t (S B J : Type) := mk { state : DurableStateEngine S B; ledger : OperationLedger J }.
End JournaledDurableCore.
Notation JournaledDurableCore := JournaledDurableCore.t.
Arguments JournaledDurableCore.mk {_ _ _} _ _.
Arguments JournaledDurableCore.state {_ _ _} _.
Arguments JournaledDurableCore.ledger {_ _ _} _.

Module JournaledCommitReceipt.
Record t := mk { operation_id : string; commit : CommitReceipt }.
End JournaledCommitReceipt.
Notation JournaledCommitReceipt := JournaledCommitReceipt.t.

Inductive DurableIntentRecovery : Type :=
| RecoveredCommit (receipt : CommitReceipt)
| RecoveredAbort (intent : CommitIntent).

Inductive JournaledCoreError (SE BE JE : Type) : Type :=
| OperationContract (error : OperationContractError)
| Ledger (error : OperationLedgerError JE)
| DurableState (error : DurableCoreError SE BE)
| ExistingOperation (phase : OperationPhase) (directive : RetryDirective)
| UnresolvedOperationBlocksMutation (phase : OperationPhase)
| OperationMissing
| DurableIntentTargetMissing
| DurableIntentConflict (expected : target) (actual : option target)
| StateCommittedLedgerIncomplete (commit : CommitReceipt) (ledger_error : OperationLedgerError JE).
Arguments OperationContract {_ _ _} _.
Arguments Ledger {_ _ _} _.
Arguments DurableState {_ _ _} _.
Arguments ExistingOperation {_ _ _} _ _.
Arguments UnresolvedOperationBlocksMutation {_ _ _} _.
Arguments OperationMissing {_ _ _}.
Arguments DurableIntentTargetMissing {_ _ _}.
Arguments DurableIntentConflict {_ _ _} _ _.
Arguments StateCommittedLedgerIncomplete {_ _ _} _ _.

Section core.
Context {S SE B BE J JE : Type} `{DurableGenerationStore S SE} `{BarrierProvider B BE} `{DurableJournal J JE}.
Notation Core := (JournaledDurableCore S B J).
Notation CoreError := (JournaledCoreError SE BE JE).
Notation CM A := (M Core CoreError A).

(** A call of the ledger or of the engine inside the core, with its error wrapped. *)
Definition with_ledger {A} (m : M (OperationLedger J) (OperationLedgerError JE) A)
    (wrap : OperationLedgerError JE → CoreError) : CM A := λ self,
  match m (JournaledDurableCore.ledger self) with
  | (l, r) => (JournaledDurableCore.mk (JournaledDurableCore.state self) l, map_err wrap r)
  end.

Definition with_state {A} (m : M (DurableStateEngine S B) (DurableCoreError SE BE) A) : CM A := λ self,
  match m (JournaledDurableCore.state self) with
  | (s, r) => (JournaledDurableCore.mk s (JournaledDurableCore.ledger self), map_err DurableState r)
  end.

Definition contract {A} (r : OResult A) : CM A := λ self, (self, map_err OperationContract r).

Definition recover_ledger_after_append_failure : CM unit := with_ledger recover_after_append_failure Ledger.

Definition persist_mutation (operation_id : string) (request_digest : list u8) (expected_current : option N)
    (plaintext data : list u8) : CM JournaledCommitReceipt := λ self,
  match current (JournaledDurableCore.ledger self) operation_id with
  | Some existing =>
      (self, Err (ExistingOperation (OperationEvent.phase existing)
                    (default ManualHold (retry_directive (JournaledDurableCore.ledger self) operation_id))))
  | None =>
      match blocking_phase (JournaledDurableCore.ledger self) with
      | Some phase => (self, Err (UnresolvedOperationBlocksMutation phase))
      | None =>
          match prepare_persist (JournaledDurableCore.state self) expected_current plaintext data with
          | Err error => (self, Err (DurableState error))
          | Ok prepared =>
              let storage_intent := PreparedDurableMutation.intent prepared in
              (do? accepted :=
                 contract (let? detail := StableDetailCode_new "request-accepted" in
                           accepted operation_id request_digest DurableMutation detail) in
               with_ledger (record accepted) Ledger ;;?
               do? intent :=
                 contract (let? detail := StableDetailCode_new "mutation-intent-bound-to-target" in
                           next accepted IntentCommitted (Some (intent_target storage_intent)) None None detail) in
               with_ledger (record intent) Ledger ;;?
               do? commit := with_state (commit_prepared prepared) in
               do? committed :=
                 contract (let? detail := StableDetailCode_new "state-committed" in
                           next intent StateCommitted (state intent) None None detail) in
               with_ledger (record committed) (StateCommittedLedgerIncomplete commit) ;;?
               mret (JournaledCommitReceipt.mk operation_id commit)) self
          end
      end
  end.

(** [self.ledger.current(operation_id).cloned().ok_or(OperationMissing)]. *)
Definition current_event (operation_id : string) : CM OperationEvent :=
  mpure (λ self, match current (JournaledDurableCore.ledger self) operation_id with
                 | Some event => Ok event
                 | None => Err OperationMissing
                 end).

Definition record_next (current : OperationEvent) (phase : OperationPhase) (state : option target)
    (effect_key_digest response_digest : option (list u8)) (detail : OResult string) : CM unit :=
  do? event := contract (let? detail := detail in next current phase state effect_key_digest response_digest detail) in
  with_ledger (record event) Ledger ;;?
  mret tt.

Definition record_rejected_before_dispatch (operation_id detail : string) : CM unit :=
  do? current := current_event operation_id in
  record_next current RejectedBeforeDispatch None None None (Ok detail).

Definition recover_durable_intent (operation_id : string) : CM DurableIntentRecovery :=
  (λ self, if replay_required (JournaledDurableCore.ledger self)
           then with_ledger recover_after_append_failure Ledger self else (self, Ok tt)) ;;?
  do? current := current_event operation_id in
  if negb (bool_decide (OperationEvent.class current = DurableMutation))
     || negb (match OperationEvent.phase current with
              | IntentCommitted | StateCommitted | AbortedBeforeStateCommit => true
              | _ => false
              end)
  then mfail (OperationContract InvalidTransition)
  else
    match state current with
    | None => mfail DurableIntentTargetMissing
    | Some (generation, digest) =>
        match CommitIntent.new (Generation.previous generation) generation digest with
        | Err error => mfail (DurableState (StorageContract error))
        | Ok intent =>
            match OperationEvent.phase current with
            | StateCommitted => mret (RecoveredCommit (CommitIntent.receipt intent))
            | AbortedBeforeStateCommit => mret (RecoveredAbort intent)
            | IntentCommitted =>
                do? recovery := with_state (engine_recover_commit intent) in
                match recovery with
                | Committed receipt =>
                    if negb (bool_decide (receipt = CommitIntent.receipt intent))
                    then mfail (DurableState CommitReceiptMismatch)
                    else
                      record_next current StateCommitted (state current) None None
                        (StableDetailCode_new "state-commit-recovered") ;;?
                      mret (RecoveredCommit receipt)
                | NotCommitted =>
                    record_next current AbortedBeforeStateCommit (state current) None None
                      (StableDetailCode_new "state-commit-not-observed") ;;?
                    mret (RecoveredAbort intent)
                | Conflict actual => mfail (DurableIntentConflict (generation, digest) actual)
                end
            | _ => mfail (OperationContract InvalidTransition)
            end
        end
    end.

Definition record_response_phase (operation_id : string) (phase : OperationPhase) (response_digest : list u8)
    (detail : string) : CM unit :=
  do? current := current_event operation_id in
  record_next current phase (state current) (OperationEvent.effect_key_digest current) (Some response_digest)
    (StableDetailCode_new detail).

Definition record_response_audited (operation_id : string) (response_digest : list u8) : CM unit :=
  record_response_phase operation_id ResponseAudited response_digest "response-audited".

Definition record_response_audit_failure_after_commit (operation_id : string) (response_digest : list u8) : CM unit :=
  record_response_phase operation_id ResponseAuditFailedAfterCommit response_digest "response-audit-failed-after-commit".

Definition record_delivery (operation_id : string) (delivered : bool) : CM unit :=
  do? current := current_event operation_id in
  match OperationEvent.response_digest current with
  | None => mfail (OperationContract InvalidEventShape)
  | Some response_digest =>
      let '(phase, detail) :=
        if delivered then (Delivered, "response-delivered")
        else (DeliveryFailedAfterCommit, "response-delivery-failed-after-commit") in
      record_next current phase (state current) (OperationEvent.effect_key_digest current) (Some response_digest)
        (StableDetailCode_new detail)
  end.

Definition reconcile (operation_id detail : string) : CM unit :=
  do? current := current_event operation_id in
  if bool_decide (OperationEvent.class current = DurableMutation)
     && bool_decide (OperationEvent.phase current = IntentCommitted)
  then mfail (OperationContract InvalidTransition)
  else
    record_next current Reconciled (state current) (OperationEvent.effect_key_digest current)
      (OperationEvent.response_digest current) (Ok detail).
End core.
