(* ===== verification/JournaledSpec.v ===== *)
(** The invariant of the journaled core, for any journal and any store that keep their
    contracts.  [consistent] relates the recorded events to the published generations,
    [core_inv] a running core to them; every call of the core keeps it and only adds
    events ([moves]). *)
From Stdlib Require Import Ascii NArith Strings.Byte.
From S2P Require Import Prelude Str Gf256 Bytes DurableCodec DurableCodecSpec Contracts OperationLedger JournaledCore.
Import OperationEvent (operation_id, class, phase, state_generation, state_digest, detail_code).

(** * Events and what they say about the store *)

(** A phase that a durable mutation reaches only after its state was committed. *)
Definition after_commit (p : OperationPhase) : bool :=
  match p with
  | StateCommitted | ResponseAudited | ResponseAuditFailedAfterCommit | Delivered | DeliveryFailedAfterCommit
  | Reconciled => true
  | _ => false
  end.

Definition unresolved (e : OperationEvent) : Prop := phase e = Accepted ∨ phase e = IntentCommitted.

(** The commits that a list of events records, in their order. *)
Definition commit_of (e : OperationEvent) : option (string * target) :=
  if bool_decide (phase e = StateCommitted) then (λ t, (operation_id e, t)) <$> state e else None.
Definition commits (es : list OperationEvent) : list (string * target) := omap commit_of es.

Lemma commits_snoc es e : commits (es ++ [e]) = commits es ++ option_list (commit_of e).
Proof. unfold commits. rewrite omap_app. simpl. by destruct (commit_of e). Qed.

Lemma commit_of_other e : phase e ≠ StateCommitted → commit_of e = None.
Proof. intros. unfold commit_of. by rewrite bool_decide_eq_false_2. Qed.

(** A durable mutation that has an intent or is past it has a target. *)
Lemma shape_state e :
  validate_event_shape e = Ok tt → class e = DurableMutation →
  phase e = IntentCommitted ∨ phase e = StateCommitted ∨ phase e = AbortedBeforeStateCommit → ∃ t, state e = Some t.
Proof.
  intros Hs Hc Hp. pose proof (shape_paired e Hs) as Hpair. unfold validate_event_shape in Hs.
  assert (is_some (state_generation e)) as Hg.
  { unfold state_required in Hs. rewrite Hc in Hs. destruct Hp as [Hp|[Hp|Hp]]; rewrite Hp in Hs;
      destruct (is_some (state_generation e)); [done| |done| |done|]; repeat (case_match; try done). }
  unfold state. destruct (state_generation e), (state_digest e); try done. eauto.
Qed.

Lemma state_kept p e :
  (is_some (state_generation p) → state_generation e = state_generation p ∧ state_digest e = state_digest p) →
  ∀ t, state p = Some t → state e = Some t.
Proof.
  unfold state. intros Hk t. destruct (state_generation p) as [g|]; [|done]. destruct (Hk I) as [-> ->]. done.
Qed.

Lemma allowed_phases p q :
  allowed_transition DurableMutation p q →
  (p = Accepted ∧ (q = RejectedBeforeDispatch ∨ q = IntentCommitted)) ∨
  (p = IntentCommitted ∧ (q = StateCommitted ∨ q = AbortedBeforeStateCommit)) ∨
  (after_commit p ∧ after_commit q ∧ q ≠ StateCommitted).
Proof. destruct p, q; try done; simpl; intros _; eauto 7. all: right; right; split_and!; done. Qed.

(** The ledger [m] reports the operation as committed with target [t]. *)
Definition reports (m : gmap string OperationEvent) (id : string) (t : target) : Prop :=
  ∃ e, m !! id = Some e ∧ after_commit (phase e) ∧ state e = Some t.

Lemma reports_insert m e id t :
  reports (<[operation_id e := e]> m) id t ↔
  (id = operation_id e ∧ after_commit (phase e) ∧ state e = Some t) ∨ (id ≠ operation_id e ∧ reports m id t).
Proof.
  unfold reports. destruct (decide (id = operation_id e)) as [->|Hne].
  - rewrite lookup_insert_eq. naive_solver.
  - rewrite lookup_insert_ne by done. naive_solver.
Qed.

(** A transition that records no commit leaves what is reported for its operation. *)
Definition stateful (m : gmap string OperationEvent) : Prop :=
  ∀ id e, m !! id = Some e → after_commit (phase e) → is_Some (state e).

Lemma transition_reports m e :
  stateful m → class e = DurableMutation → validate_transition (m !! operation_id e) e = Ok tt →
  (after_commit (phase e) → is_Some (state e)) ∧
  match commit_of e with
  | Some c => c.1 = operation_id e ∧ after_commit (phase e) ∧ state e = Some c.2 ∧ ∀ t, ¬ reports m (operation_id e) t
  | None => ∀ t, (after_commit (phase e) ∧ state e = Some t) ↔ reports m (operation_id e) t
  end.
Proof.
  intros Hst He Ht. unfold reports. destruct (m !! operation_id e) as [p|] eqn:Hp.
  2:{ apply first_transition in Ht. rewrite commit_of_other by (by rewrite Ht). rewrite Ht. naive_solver. }
  pose proof (transition_shape _ _ Ht) as Hshape. apply later_transition in Ht as (_ & Hcl & _ & Hal & Hk).
  rewrite <- Hcl, He in Hal. apply allowed_phases in Hal as [[Hq Hq']|[[Hq Hq']|(Hq & Hq' & Hne)]].
  - rewrite commit_of_other by (by destruct Hq' as [-> | ->]). split; [by destruct Hq' as [-> | ->]|].
    intros t. split; [intros [Ha _]; by destruct Hq' as [Hx|Hx]; rewrite Hx in Ha|]. intros (? & [= <-] & Ha & _). by rewrite Hq in Ha.
  - destruct Hq' as [Hq'|Hq'].
    + destruct (shape_state e Hshape He) as [t Hs]; [by right; left|]. unfold commit_of.
      rewrite bool_decide_eq_true_2, Hs, Hq' by done. simpl. split; [done|]. split_and!; [done..|].
      intros t' (? & [= <-] & Ha & _). by rewrite Hq in Ha.
    + rewrite commit_of_other by (by rewrite Hq'). rewrite Hq'. split; [done|]. intros t. split; [by intros [? _]|].
      intros (? & [= <-] & Ha & _). by rewrite Hq in Ha.
  - destruct (Hst _ _ Hp Hq) as [tp Htp]. pose proof (state_kept p e Hk tp Htp) as Hse.
    rewrite commit_of_other, Hse by done. split; [eauto|]. intros t. split.
    + intros [_ [= <-]]. eauto.
    + intros (? & [= <-] & _ & Hs). by rewrite Htp in Hs.
Qed.

(** The operations that a replayed ledger reports as committed are the commits of the
    events, each once. *)
Lemma replay_commits es m :
  replay_events ∅ es = Ok m → Forall (λ e, class e = DurableMutation) es →
  NoDup (commits es).*1 ∧ stateful m ∧ ∀ id t, (id, t) ∈ commits es ↔ reports m id t.
Proof.
  revert m. induction es as [|e es IH] using rev_ind; intros m Hm Hc.
  { injection Hm as <-. split_and!; [constructor|done|]. intros id t. split; [by intros ?%not_elem_of_nil|by intros (? & ? & _)]. }
  apply replay_snoc_inv in Hm as (m0 & Hm & [Ht ->]%applied_transition).
  apply Forall_app in Hc as [Hc [He _]%Forall_cons]. destruct (IH m0 Hm Hc) as (Hnd & Hst & Hiff). rewrite commits_snoc.
  destruct (transition_reports m0 e Hst He Ht) as [Hs Hown]. split_and!.
  - destruct (commit_of e) as [[id t]|]; simpl; [|by rewrite app_nil_r]. destruct Hown as (Heq & _ & _ & Hno). simpl in Heq. subst id.
    rewrite fmap_app. apply NoDup_app. split_and!; [done| |apply NoDup_singleton].
    intros x ([id' t'] & Hx' & Hx)%list_elem_of_fmap Hx''%list_elem_of_singleton. cbn in Hx', Hx''. subst. by apply Hiff, Hno in Hx.
  - intros id e' [[<- <-]|[_ Hl]]%lookup_insert_Some; eauto.
  - intros id t. rewrite reports_insert, elem_of_app, Hiff.
    destruct (commit_of e) as [[id' t']|]; simpl in *.
    + destruct Hown as (Heq & Ha & Hse & Hno). cbn in Heq, Hse. subst id'. rewrite list_elem_of_singleton. split.
      * intros [Hr|[= -> ->]]; [|by left]. right. split; [|done]. intros ->. by apply Hno in Hr.
      * intros [(-> & _ & Hs')|[_ Hr]]; [|by left]. right. congruence.
    + split.
      * intros [Hr|?%not_elem_of_nil]; [|done]. destruct (decide (id = operation_id e)) as [->|]; [|by right].
        left. split; [done|]. by apply Hown.
      * intros [(-> & Hx)|[_ Hr]]; left; [by apply Hown|done].
Qed.

(** * Ledger and store together *)
Definition in_doubt (m : gmap string OperationEvent) (id : string) (t : target) : Prop :=
  ∃ e, m !! id = Some e ∧ phase e = IntentCommitted ∧ state e = Some t.

(** At most one operation is unresolved. *)
Definition alone (m : gmap string OperationEvent) : Prop :=
  ∀ id id' e e', m !! id = Some e → m !! id' = Some e' → unresolved e → unresolved e' → id = id'.

Definition fresh (h : list target) (t : target) : Prop := ∀ u, u ∈ h → (u.1 < t.1)%N.

(** The published generations [h], the undecided commit [sp] and the recorded ones [c]. *)
Definition agrees (m : gmap string OperationEvent) (c h : list target) (sp : option target) : Prop :=
  ((∀ id t, ¬ in_doubt m id t) ∧ h = c ∧ sp = None) ∨
  ∃ id t, in_doubt m id t ∧ (h = c ∧ fresh h t ∧ (sp = None ∨ sp = Some t) ∨ h = c ++ [t] ∧ sp = None).

Section consistent.
Context (base : list target).

Definition consistent (es : list OperationEvent) (h : list target) (sp : option target) : Prop :=
  ∃ m, replay_events ∅ es = Ok m ∧ Forall (λ e, class e = DurableMutation) es ∧ alone m ∧
       agrees m (base ++ (commits es).*2) h sp.

Lemma consistent_at es h sp m :
  replay_events ∅ es = Ok m → consistent es h sp →
  Forall (λ e, class e = DurableMutation) es ∧ alone m ∧ agrees m (base ++ (commits es).*2) h sp.
Proof. intros Hm (m' & Hm' & H). rewrite Hm in Hm'. by injection Hm' as <-. Qed.

Lemma in_doubt_unresolved m id t : in_doubt m id t → ∃ e, m !! id = Some e ∧ unresolved e.
Proof. intros (e & He & Hp & _). exists e. unfold unresolved. auto. Qed.

Lemma in_doubt_insert m e id t :
  in_doubt (<[operation_id e := e]> m) id t ↔
  (id = operation_id e ∧ phase e = IntentCommitted ∧ state e = Some t) ∨ (id ≠ operation_id e ∧ in_doubt m id t).
Proof.
  unfold in_doubt. destruct (decide (id = operation_id e)) as [->|Hne].
  - rewrite lookup_insert_eq. naive_solver.
  - rewrite lookup_insert_ne by done. naive_solver.
Qed.

(** What the store can hold while an operation is in doubt. *)
Definition doubtful (c : list target) (t : target) (h : list target) (sp : option target) : Prop :=
  h = c ∧ fresh h t ∧ (sp = None ∨ sp = Some t) ∨ h = c ++ [t] ∧ sp = None.

Lemma consistent_doubt es h sp m id t :
  replay_events ∅ es = Ok m → in_doubt m id t → consistent es h sp →
  doubtful (base ++ (commits es).*2) t h sp ∧
  ∀ h' sp', doubtful (base ++ (commits es).*2) t h' sp' → consistent es h' sp'.
Proof.
  intros Hm Hd Hc. destruct (consistent_at _ _ _ _ Hm Hc) as (HF & Ha & Hag). split.
  - destruct Hag as [(Hno & _)|(id' & t' & Hd' & Hx)]; [by apply Hno in Hd|].
    assert (t' = t) as ->; [|done]. destruct Hd as (e & He & Hp & Hs), Hd' as (e' & He' & Hp' & Hs').
    assert (id' = id) as -> by (eapply Ha; [done..|by right|by right]). congruence.
  - intros h' sp' Hx. exists m. split_and!; [done..|]. right. by exists id, t.
Qed.

Section extend.
Context es m e h sp (Hm : replay_events ∅ es = Ok m) (Ht : validate_transition (m !! operation_id e) e = Ok tt)
  (Hc : class e = DurableMutation) (Hcons : consistent es h sp).

Lemma extend_with h' sp' :
  alone (<[operation_id e := e]> m) →
  agrees (<[operation_id e := e]> m) (base ++ (commits es).*2 ++ (option_list (commit_of e)).*2) h' sp' →
  consistent (es ++ [e]) h' sp'.
Proof.
  intros Ha Hg. destruct (consistent_at _ _ _ _ Hm Hcons) as (HF & _). exists (<[operation_id e := e]> m). split_and!.
  - rewrite (replay_snoc _ _ _ _ Hm). unfold apply_replayed_event. by rewrite Ht.
  - apply Forall_app. by repeat constructor.
  - done.
  - by rewrite commits_snoc, fmap_app.
Qed.

(** An operation that stays or becomes resolved, or was the unresolved one. *)
Lemma alone_insert :
  (unresolved e → ∀ id e', m !! id = Some e' → unresolved e' → id = operation_id e) →
  alone (<[operation_id e := e]> m).
Proof.
  destruct (consistent_at _ _ _ _ Hm Hcons) as (_ & Ha & _). intros Hu id id' e1 e2.
  intros [[<- <-]|[Hne1 H1]]%lookup_insert_Some [[<- <-]|[Hne2 H2]]%lookup_insert_Some; intros U1 U2; [done| | |by eapply Ha].
  - symmetry. by eapply Hu.
  - by eapply Hu.
Qed.

Lemma extend_accepted :
  phase e = Accepted → (∀ id e', m !! id = Some e' → ¬ unresolved e') → consistent (es ++ [e]) h sp.
Proof.
  intros Hp Hno. destruct (consistent_at _ _ _ _ Hm Hcons) as (_ & _ & Hag). apply extend_with.
  - apply alone_insert. intros _ id e' Hl U. by destruct (Hno id e' Hl).
  - rewrite commit_of_other by (by rewrite Hp). simpl. rewrite app_nil_r.
    assert (∀ id t, ¬ in_doubt m id t) as Hd.
    { intros id t (e' & Hl & U)%in_doubt_unresolved. by destruct (Hno id e' Hl). }
    destruct Hag as [(_ & -> & ->)|(id & t & Hx & _)]; [|by apply Hd in Hx]. left. split_and!; [|done..].
    intros id t [(-> & Hx & _)|[_ Hx]]%in_doubt_insert; [by rewrite Hp in Hx|by apply Hd in Hx].
Qed.

(** A step that is not about the commit. *)
Lemma extend_quiet p :
  m !! operation_id e = Some p → phase p ≠ IntentCommitted →
  ¬ unresolved e → phase e ≠ StateCommitted → consistent (es ++ [e]) h sp.
Proof.
  intros Hp Hpi Hu Hs. destruct (consistent_at _ _ _ _ Hm Hcons) as (_ & _ & Hag). apply extend_with.
  - apply alone_insert. done.
  - rewrite commit_of_other by done. simpl. rewrite app_nil_r.
    assert (∀ id t, in_doubt (<[operation_id e := e]> m) id t ↔ in_doubt m id t) as Hiff.
    { intros id t. rewrite in_doubt_insert. split; [intros [(-> & Hx & _)|[_ Hx]]; [by destruct Hu; right|done]|].
      intros Hx. right. split; [|done]. intros ->. destruct Hx as (p' & Hl & Hx & _). rewrite Hp in Hl. by injection Hl as <-. }
    destruct Hag as [(Hd & -> & ->)|(id & t & Hx & Hh)]; [left|right].
    + split_and!; [|done..]. intros id t Hx%Hiff. by apply Hd in Hx.
    + exists id, t. by rewrite Hiff.
Qed.

Lemma extend_intent p t :
  m !! operation_id e = Some p → phase p = Accepted → phase e = IntentCommitted → state e = Some t →
  fresh h t → consistent (es ++ [e]) h sp.
Proof.
  intros Hp Hpp He Hs Hf. destruct (consistent_at _ _ _ _ Hm Hcons) as (_ & Ha & Hag).
  assert (∀ id e', m !! id = Some e' → unresolved e' → id = operation_id e) as Honly.
  { intros id e' Hl U. apply (Ha id (operation_id e) e' p Hl Hp U). by left. }
  apply extend_with; [by apply alone_insert|]. rewrite commit_of_other by (by rewrite He). simpl. rewrite app_nil_r.
  assert (∀ id t, ¬ in_doubt m id t) as Hd.
  { intros id t' (e' & Hl & Hx & _). assert (id = operation_id e) as -> by (eapply Honly; [done|by right]).
    rewrite Hp in Hl. injection Hl as <-. by rewrite Hpp in Hx. }
  destruct Hag as [(_ & -> & ->)|(id & t' & Hx & _)]; [|by apply Hd in Hx]. right. exists (operation_id e), t.
  split; [apply in_doubt_insert; by left|]. left. auto.
Qed.

(** Deciding the operation in doubt. *)
Lemma extend_decided p t :
  m !! operation_id e = Some p → phase p = IntentCommitted → state p = Some t → state e = Some t →
  sp = None →
  phase e = StateCommitted ∧ h = base ++ (commits es).*2 ++ [t] ∨
  phase e = AbortedBeforeStateCommit ∧ h = base ++ (commits es).*2 →
  consistent (es ++ [e]) h sp.
Proof.
  intros Hp Hpp Hps Hes Hsp Hd. destruct (consistent_at _ _ _ _ Hm Hcons) as (_ & Ha & _).
  assert (∀ id t', ¬ in_doubt (<[operation_id e := e]> m) id t') as Hno.
  { intros id t' [(-> & Hx & _)|[Hne Hx]]%in_doubt_insert; [by destruct Hd as [[Hy _]|[Hy _]]; rewrite Hy in Hx|].
    apply in_doubt_unresolved in Hx as (e' & Hl & U). destruct Hne. apply (Ha _ _ e' p Hl Hp U). by right. }
  apply extend_with.
  - apply alone_insert. intros [Hx|Hx]; by destruct Hd as [[Hy _]|[Hy _]]; rewrite Hy in Hx.
  - left. split_and!; [done| |done]. unfold commit_of. destruct Hd as [[Hy ->]|[Hy ->]].
    + by rewrite bool_decide_eq_true_2, Hes.
    + rewrite bool_decide_eq_false_2 by (by rewrite Hy). simpl. by rewrite app_nil_r.
Qed.
End extend.
End consistent.

(** * The ledger over a journal *)
Lemma state_target_ok e t : fields_ok e → state e = Some t → target_ok t.
Proof.
  intros [_ _ Hg Hd _ _ _]. unfold state. destruct (state_generation e), (state_digest e); try done. intros [= <-].
  split; simpl; eauto.
Qed.

Lemma next_event cur ph st ek rd d e :
  next cur ph st ek rd d = Ok e →
  operation_id e = operation_id cur ∧ class e = class cur ∧ phase e = ph ∧ state e = st ∧
  validate_transition (Some cur) e = Ok tt ∧
  (fields_ok cur → (∀ t, st = Some t → target_ok t) → (∀ x, ek = Some x → digest_ok x) →
   (∀ x, rd = Some x → digest_ok x) → StableDetailCode_new d = Ok d → fields_ok e).
Proof.
  unfold next. destruct (validate_transition _ _) as [[]|] eqn:Hv; [|done]. intros [= <-]. simpl. split_and!; try done.
  - by destruct st as [[]|].
  - intros [Hid Hrq _ _ _ _ _] Hst Hek Hrd Hd. split; simpl; try done.
    + intros g ([? ?] & Hx & ->)%fmap_Some. by destruct (Hst _ Hx).
    + intros x ([? ?] & Hx & ->)%fmap_Some. by destruct (Hst _ Hx).
Qed.

Lemma accepted_event id rd cl d e :
  accepted id rd cl d = Ok e →
  operation_id e = id ∧ class e = cl ∧ phase e = Accepted ∧
  (OperationId_new id = Ok id → digest_ok rd → StableDetailCode_new d = Ok d → fields_ok e).
Proof.
  unfold accepted. destruct (validate_event_shape _) as [[]|]; [|done]. intros [= <-]. split_and!; [done..|].
  intros Hid Hrd Hd. by split.
Qed.

Section guarantees.
Context {S SE B BE J JE : Type} `{HS : DurableGenerationStore S SE} `{HB : BarrierProvider B BE} `{HJ : DurableJournal J JE}.
Context `{!JournalLaws J JE} `{!StoreLaws S SE} (base : list target).
Notation Core := (JournaledDurableCore S B J).
Notation cstore core := (DurableStateEngine.store (JournaledDurableCore.state core)).
Notation cledger core := (JournaledDurableCore.ledger core).

(** The journal stores [es], and perhaps the event [pe] whose append failed. *)
Definition journaled (j : J) (es : list OperationEvent) (pe : option OperationEvent) : Prop :=
  ∃ xs px, journal_at j xs px ∧ stores xs es ∧
    match px, pe with
    | None, None => True
    | Some x, Some e => decode x = Ok e
    | _, _ => False
    end.

Definition durable (j : J) (s : S) es h sp pe : Prop :=
  journaled j es pe ∧ store_at s h sp ∧ consistent base es h sp ∧
  ∀ e, pe = Some e → consistent base (es ++ [e]) h sp.

Definition ledger_inv (l : OperationLedger J) (s : S) es h sp pe : Prop :=
  durable (OperationLedger.journal l) s es h sp pe ∧ replay_events ∅ es = Ok (OperationLedger.operations l) ∧
  (is_Some pe → replay_required l).

Lemma record_inv l s es h sp pe e l' r :
  ledger_inv l s es h sp pe → fields_ok e →
  (pe = None → validate_transition (OperationLedger.operations l !! operation_id e) e = Ok tt →
   consistent base (es ++ [e]) h sp) →
  record e l = (l', r) →
  match r with
  | Ok _ => ledger_inv l' s (es ++ [e]) h sp None
  | Err _ => ∃ pe', ledger_inv l' s es h sp pe'
  end.
Proof.
  intros Hinv Hf Hext Hr. pose proof Hinv as ((Hj & Hst & Hco & Hpe) & Hm & Hreq). unfold record in Hr.
  destruct (replay_required l) eqn:Hrr; [injection Hr as <- <-; eauto|].
  assert (pe = None) as -> by (destruct pe; [by destruct Hreq|done]). specialize (Hext eq_refl). unfold current in Hr.
  destruct (validate_transition _ _) as [[]|] eqn:Hv; [|injection Hr as <- <-; eauto]. specialize (Hext eq_refl).
  assert (event_wf e) as Hwf by (split; [done|by eapply transition_shape]).
  pose proof (encode_payload _ _ (encode_output e Hwf)) as Hpay. rewrite (encode_output e Hwf) in Hr.
  destruct Hj as (xs & [x|] & Hj & Hx & Hp); [done|].
  destruct (append _ _ _) as [j' [receipt|error]] eqn:Ha in Hr; injection Hr as <- <-;
    pose proof (append_law _ _ _ _ _ Hj Hpay Ha) as Hlaw; simpl in Hlaw.
  - split_and!; [|simpl|by intros []]. 2:{ rewrite (replay_snoc _ _ _ _ Hm). unfold apply_replayed_event. by rewrite Hv. }
    split_and!; [|done..]. exists (xs ++ [event_output e]), None. split_and!; [done| |done].
    by apply stores_snoc; [..|apply encode_output].
  - destruct (classify_append_failure j' error) eqn:Hc.
    + exists None. split_and!; [|done|by intros []]. split_and!; [|done..]. by exists xs, None.
    + exists (Some e). split_and!; [|done..]. split_and!; [|done..|by intros ? [= <-]].
      exists xs, (Some (event_output e)). split_and!; [done..|].
      destruct (event_decode_encode e Hwf) as (b & Hb & Hd). rewrite (encode_output e Hwf) in Hb. by injection Hb as <-.
Qed.

(** Reading the journal back reaches the recorded events, or one more. *)
Lemma recover_durable j s es h sp pe j' r :
  durable j s es h sp pe → recover_authoritative j = (j', r) →
  match r with
  | Ok records => ∃ es' m, es `prefix_of` es' ∧ durable j' s es' h sp None ∧
                    replay_records ∅ records = Ok m ∧ replay_events ∅ es' = Ok m
  | Err _ => durable j' s es h sp pe
  end.
Proof.
  intros ((xs & px & Hj & Hx & Hp) & Hst & Hco & Hpe) Hr. pose proof (recover_law _ _ _ _ _ Hj Hr) as Hlaw.
  destruct r as [records|error].
  2:{ split_and!; [|done..]. by exists xs, px. }
  destruct Hlaw as (ys & Hys & Hj' & Hcase).
  assert (∃ es', es `prefix_of` es' ∧ stores ys es' ∧ consistent base es' h sp) as (es' & Hpre & Hs & Hc).
  { destruct Hcase as [-> |(payload & -> & ->)]; [by exists es|]. destruct pe as [e|]; [|done]. exists (es ++ [e]).
    split_and!; [by exists [e]| |by apply Hpe]. apply Forall2_app; [done|]. by constructor. }
  pose proof Hc as (m & Hm & _). exists es', m. split_and!; [done| |by rewrite (replay_stored _ _ es'); [|rewrite Hys]|done].
  split_and!; [|done..]. by exists ys, None.
Qed.

Lemma recover_inv l s es h sp pe l' r :
  ledger_inv l s es h sp pe → recover_after_append_failure l = (l', r) →
  match r with
  | Ok _ => ∃ es', es `prefix_of` es' ∧ ledger_inv l' s es' h sp None
  | Err _ => ∃ pe', ledger_inv l' s es h sp pe'
  end.
Proof.
  intros (Hd & Hm & Hreq) Hr. unfold recover_after_append_failure in Hr.
  destruct (replay_required l) eqn:Hrr; simpl in Hr. 2:{ injection Hr as <- <-. exists pe. by rewrite <- Hrr in Hreq. }
  destruct (recover_authoritative _) as [j' [records|error]] eqn:Ha;
    pose proof (recover_durable _ _ _ _ _ _ _ _ Hd Ha) as Hlaw; simpl in Hlaw.
  - destruct Hlaw as (es' & m & Hpre & Hd' & Hrep & Hm'). rewrite Hrep in Hr. injection Hr as <- <-.
    exists es'. split; [done|]. split_and!; [done..|by intros []].
  - injection Hr as <- <-. exists pe. split_and!; [done..|]. intros _. unfold replay_required in *. simpl. by rewrite Hrr.
Qed.

Lemma open_inv j s es h sp pe j' r :
  durable j s es h sp pe → open_ledger j = (j', r) →
  match r with
  | Ok l => ∃ es', es `prefix_of` es' ∧ ledger_inv l s es' h sp None
  | Err _ => ∃ pe', durable j' s es h sp pe'
  end.
Proof.
  intros Hd Hr. unfold open_ledger in Hr. destruct (recover_authoritative j) as [j1 [records|error]] eqn:Ha;
    pose proof (recover_durable _ _ _ _ _ _ _ _ Hd Ha) as Hlaw; simpl in Hlaw.
  - destruct Hlaw as (es' & m & Hpre & Hd' & Hrep & Hm'). rewrite Hrep in Hr. injection Hr as <- <-.
    exists es'. split; [done|]. split_and!; [done..|by intros []].
  - injection Hr as <- <-. eauto.
Qed.

(** * The calls of the core *)
Definition core_inv (core : Core) es h sp pe : Prop := ledger_inv (cledger core) (cstore core) es h sp pe.

Lemma inv_event core es h sp pe id e :
  core_inv core es h sp pe → current (cledger core) id = Some e →
  operation_id e = id ∧ class e = DurableMutation ∧ fields_ok e ∧ validate_event_shape e = Ok tt ∧ e ∈ es.
Proof.
  intros (((xs & px & _ & Hx & _) & _ & Hc & _) & Hm & _) Hl. destruct (replay_keys _ _ Hm _ _ Hl) as [Hid Hin].
  destruct (consistent_at _ _ _ _ _ Hm Hc) as (HF & _). rewrite Forall_forall in HF.
  apply list_elem_of_lookup in Hin as Hi. destruct Hi as [i Hi]. destruct (Forall2_lookup_r _ _ _ _ _ Hx Hi) as (x & _ & Hdec).
  apply encode_decode in Hdec as [[Hf Hs] _]. auto.
Qed.

Lemma inv_last core es h sp pe e :
  core_inv core (es ++ [e]) h sp pe → current (cledger core) (operation_id e) = Some e.
Proof.
  intros (_ & Hm & _). apply replay_snoc_inv in Hm as (m0 & _ & [_ Hx]%applied_transition). unfold current. rewrite Hx.
  apply lookup_insert_eq.
Qed.

Lemma blocking_none (l : OperationLedger J) id e : blocking_phase l = None → current l id = Some e → ¬ unresolved e.
Proof.
  unfold blocking_phase, current. intros Hb Hl Hu. apply head_None in Hb.
  assert (phase e ∈ omap (λ event, if phase_blocks_new_mutation (phase event) then Some (phase event) else None)
    (btree_values (OperationLedger.operations l))) as Hin.
  { apply list_elem_of_omap. exists e. split; [apply elem_of_btree_values; eauto|]. by destruct Hu as [-> | ->]. }
  rewrite Hb in Hin. by apply not_elem_of_nil in Hin.
Qed.

(** Recording an event of the core. *)
Lemma with_record_inv core es h sp pe e (wrap : OperationLedgerError JE → JournaledCoreError SE BE JE) core' r :
  core_inv core es h sp pe → fields_ok e →
  (pe = None → validate_transition (current (cledger core) (operation_id e)) e = Ok tt → consistent base (es ++ [e]) h sp) →
  with_ledger (record e) wrap core = (core', r) →
  JournaledDurableCore.state core' = JournaledDurableCore.state core ∧
  match r with
  | Ok _ => core_inv core' (es ++ [e]) h sp None
  | Err _ => ∃ pe', core_inv core' es h sp pe'
  end.
Proof.
  intros Hinv Hf Hext Hr. unfold with_ledger in Hr. destruct (record e (cledger core)) as [l r'] eqn:Hrec.
  pose proof (record_inv _ _ _ _ _ _ _ _ _ Hinv Hf Hext Hrec) as Hlaw. injection Hr as <- <-. split; [done|]. by destruct r'.
Qed.

Lemma record_next_inv core es h sp pe cur ph st ek rd d core' (r : Result unit (JournaledCoreError SE BE JE)) :
  core_inv core es h sp pe → current (cledger core) (operation_id cur) = Some cur →
  (∀ t, st = Some t → target_ok t) → (∀ x, ek = Some x → digest_ok x) → (∀ x, rd = Some x → digest_ok x) →
  (∀ x, d = Ok x → StableDetailCode_new x = Ok x) →
  (∀ e, pe = None → phase e = ph → state e = st → operation_id e = operation_id cur → class e = DurableMutation →
        validate_transition (Some cur) e = Ok tt → consistent base (es ++ [e]) h sp) →
  record_next cur ph st ek rd d core = (core', r) →
  JournaledDurableCore.state core' = JournaledDurableCore.state core ∧
  match r with
  | Ok _ => ∃ e, core_inv core' (es ++ [e]) h sp None
  | Err _ => ∃ pe', core_inv core' es h sp pe'
  end.
Proof.
  intros Hinv Hcur Hst Hek Hrd Hd Hext Hr. destruct (inv_event _ _ _ _ _ _ _ Hinv Hcur) as (_ & Hcl & Hf & _).
  unfold record_next, mbind, contract, map_err in Hr.
  destruct d as [d|]; [|injection Hr as <- <-; eauto]. destruct (next _ _ _ _ _ _) as [e|] eqn:Hn; [|injection Hr as <- <-; eauto].
  apply next_event in Hn as (Hid & Hcl' & Hph & Hse & Hv & Hfe).
  destruct (with_ledger _ _ _) as [core1 r1] eqn:Hw.
  apply (with_record_inv _ _ _ _ _ _ _ _ _ Hinv) in Hw as [Hs1 Hw].
  - split; [by destruct r1; injection Hr as <- <-|]. destruct r1; injection Hr as <- <-; eauto.
  - apply Hfe; auto.
  - intros -> _. apply Hext; [done..|by rewrite Hcl'|done].
Qed.

Definition reached (core : Core) es : Prop := ∃ h sp pe, core_inv core es h sp pe.
Definition moves (es : list OperationEvent) (core' : Core) : Prop := ∃ es', es `prefix_of` es' ∧ reached core' es'.

Lemma moves_same core es h sp pe : core_inv core es h sp pe → moves es core.
Proof. intros. exists es. split; [done|]. by exists h, sp, pe. Qed.

Lemma moves_snoc core es e h sp pe : core_inv core (es ++ [e]) h sp pe → moves es core.
Proof. intros. exists (es ++ [e]). split; [by exists [e]|]. by exists h, sp, pe. Qed.

Hint Resolve moves_same moves_snoc : core.

(** Phases that a core records without deciding a commit. *)
Definition quiet (p : OperationPhase) : bool :=
  match p with
  | RejectedBeforeDispatch | ResponseAudited | ResponseAuditFailedAfterCommit | Delivered | DeliveryFailedAfterCommit
  | Reconciled => true
  | _ => false
  end.

Lemma quiet_next core es h sp pe cur ph st ek rd d core' (r : Result unit (JournaledCoreError SE BE JE)) :
  core_inv core es h sp pe → current (cledger core) (operation_id cur) = Some cur → quiet ph →
  (∀ t, st = Some t → target_ok t) → (∀ x, ek = Some x → digest_ok x) → (∀ x, rd = Some x → digest_ok x) →
  (∀ x, d = Ok x → StableDetailCode_new x = Ok x) →
  record_next cur ph st ek rd d core = (core', r) → moves es core'.
Proof.
  intros Hinv Hcur Hq Hst Hek Hrd Hd Hr.
  apply (record_next_inv _ _ _ _ _ _ _ _ _ _ _ _ _ Hinv Hcur Hst Hek Hrd Hd) in Hr as [_ Hr].
  - destruct r; [destruct Hr as [e Hr]|destruct Hr as [pe' Hr]]; eauto.
  - intros e -> Hph _ Hid Hcl Hv. destruct Hinv as ((_ & _ & Hc & _) & Hm & _). unfold current in Hcur. rewrite <- Hid in Hcur.
    rewrite <- Hcur in Hv. apply (extend_quiet _ _ _ _ _ _ Hm Hv Hcl Hc cur Hcur).
    + rewrite Hcur in Hv. apply later_transition in Hv as (_ & Hcl' & _ & Hal & _). rewrite <- Hcl', Hcl, Hph in Hal.
      intros Hx. rewrite Hx in Hal. by destruct ph.
    + intros [Hx|Hx]; rewrite Hph in Hx; by rewrite Hx in Hq.
    + intros Hx. rewrite Hph in Hx. by rewrite Hx in Hq.
Qed.

Lemma current_cases (core : Core) id core' (r : Result OperationEvent (JournaledCoreError SE BE JE)) :
  current_event id core = (core', r) →
  core' = core ∧ match r with Ok e => current (cledger core) id = Some e | Err _ => True end.
Proof. unfold current_event, mpure. intros [= <- <-]. by destruct (current _ _). Qed.

(** The calls that record a step of an existing operation. *)
Lemma existing_call core es h sp pe id (k : OperationEvent → M Core (JournaledCoreError SE BE JE) unit) :
  core_inv core es h sp pe →
  (∀ e, current (cledger core) (operation_id e) = Some e → fields_ok e → moves es (k e core).1) →
  moves es (mbind (current_event id) k core).1.
Proof.
  intros Hinv Hk. unfold mbind. destruct (current_event id core) as [core1 r] eqn:Hc.
  apply current_cases in Hc as [-> Hc]. destruct r as [e|]; [|by eauto].
  destruct (inv_event _ _ _ _ _ _ _ Hinv Hc) as (Hid & _ & Hf & _). rewrite <- Hid in Hc. eauto.
Qed.

Lemma record_rejected_moves core es h sp pe id detail :
  core_inv core es h sp pe → StableDetailCode_new detail = Ok detail →
  moves es (record_rejected_before_dispatch (SE := SE) (BE := BE) id detail core).1.
Proof.
  intros Hinv Hd. eapply existing_call; [done|]. intros e Hcur Hf. destruct (record_next _ _ _ _ _ _ _) as [core' r] eqn:Hr.
  eapply quiet_next; [done|done|..|exact Hr]; try done. by intros x [= <-].
Qed.

Lemma record_response_moves core es h sp pe id ph rd detail :
  core_inv core es h sp pe → quiet ph → digest_ok rd → StableDetailCode_new detail = Ok detail →
  moves es (record_response_phase (SE := SE) (BE := BE) id ph rd detail core).1.
Proof.
  intros Hinv Hq Hrd Hd. eapply existing_call; [done|]. intros e Hcur Hf. destruct (record_next _ _ _ _ _ _ _) as [core' r] eqn:Hr.
  eapply quiet_next; [done|done|done|..|exact Hr].
  - intros t. by apply state_target_ok.
  - apply (effect_ok _ Hf).
  - by intros x [= <-].
  - intros x Hx. rewrite Hd in Hx. by injection Hx as <-.
Qed.

Lemma record_delivery_moves core es h sp pe id delivered :
  core_inv core es h sp pe → moves es (record_delivery (SE := SE) (BE := BE) id delivered core).1.
Proof.
  intros Hinv. eapply existing_call; [done|]. intros e Hcur Hf.
  destruct (OperationEvent.response_digest e) as [rd|] eqn:Hrd; [|by eauto].
  assert (∀ ph detail, quiet ph → StableDetailCode_new detail = Ok detail →
    moves es (record_next (SE := SE) (BE := BE) e ph (state e) (OperationEvent.effect_key_digest e) (Some rd) (StableDetailCode_new detail) core).1) as Hgo.
  { intros ph detail Hq Hd. destruct (record_next _ _ _ _ _ _ _) as [core' r] eqn:Hr.
    eapply quiet_next; [done|done|done|..|exact Hr].
    - intros t. by apply state_target_ok.
    - apply (effect_ok _ Hf).
    - rewrite <- Hrd. apply (response_ok _ Hf).
    - intros x Hx. rewrite Hd in Hx. by injection Hx as <-. }
  destruct delivered; by apply Hgo.
Qed.

Lemma reconcile_moves core es h sp pe id detail :
  core_inv core es h sp pe → StableDetailCode_new detail = Ok detail → moves es (reconcile (SE := SE) (BE := BE) id detail core).1.
Proof.
  intros Hinv Hd. eapply existing_call; [done|]. intros e Hcur Hf. case_match; [by eauto|].
  destruct (record_next _ _ _ _ _ _ _) as [core' r] eqn:Hr.
  eapply quiet_next; [exact Hinv|exact Hcur|..|exact Hr].
  { done. }
  - intros t. by apply state_target_ok.
  - apply (effect_ok _ Hf).
  - apply (response_ok _ Hf).
  - by intros x [= <-].
Qed.

(** A change of the store while the journal is settled. *)
Lemma with_store core es h sp s' h' sp' :
  core_inv core es h sp None → store_at s' h' sp' → consistent base es h' sp' →
  core_inv (JournaledDurableCore.mk (DurableStateEngine.mk s' (DurableStateEngine.barrier (JournaledDurableCore.state core)))
              (cledger core)) es h' sp' None.
Proof. intros ((Hj & _ & _ & _) & Hm & Hreq) Hs Hc. split_and!; [|done..]. by split_and!. Qed.

(** Recording the decision about the operation in doubt. *)
Lemma decide_next core es h sp cur t ph d core' (r : Result unit (JournaledCoreError SE BE JE)) :
  core_inv core es h sp None → current (cledger core) (operation_id cur) = Some cur →
  phase cur = IntentCommitted → state cur = Some t → sp = None →
  ph = StateCommitted ∧ h = base ++ (commits es).*2 ++ [t] ∨
  ph = AbortedBeforeStateCommit ∧ h = base ++ (commits es).*2 →
  StableDetailCode_new d = Ok d →
  record_next cur ph (state cur) None None (StableDetailCode_new d) core = (core', r) →
  moves es core'.
Proof.
  intros Hinv Hcur Hp Hs Hsp Hcase Hd Hr. destruct (inv_event _ _ _ _ _ _ _ Hinv Hcur) as (_ & _ & Hf & _).
  apply (record_next_inv _ _ _ _ _ _ _ _ _ _ _ _ _ Hinv Hcur) in Hr as [_ Hr].
  - destruct r; [destruct Hr as [e Hr]|destruct Hr as [pe' Hr]]; eauto.
  - intros t'. by apply state_target_ok.
  - done.
  - done.
  - intros x Hx. rewrite Hd in Hx. by injection Hx as <-.
  - intros e _ Hph Hse Hid Hcl Hv. destruct Hinv as ((_ & _ & Hc & _) & Hm & _). unfold current in Hcur. rewrite <- Hid in Hcur.
    rewrite <- Hcur in Hv. rewrite Hs in Hse.
    apply (extend_decided _ _ _ _ _ _ Hm Hv Hcl Hc cur t Hcur Hp Hs Hse Hsp). by rewrite Hph.
Qed.

Lemma intent_new p g d i : CommitIntent.new p g d = Ok i → intent_target i = (g, d).
Proof.
  unfold CommitIntent.new. destruct (match p with Some _ => _ | None => _ end); [|done]. case_match; [done|]. by intros [= <-].
Qed.

(** What the store answers about the operation in doubt. *)
Lemma recover_commit_inv core es h sp cur t i s' r :
  core_inv core es h sp None → current (cledger core) (operation_id cur) = Some cur →
  phase cur = IntentCommitted → state cur = Some t → intent_target i = t →
  recover_commit (cstore core) i = (s', r) →
  ∃ h' sp', store_at s' h' sp' ∧ consistent base es h' sp' ∧
    match r with
    | Ok (Committed _) => sp' = None ∧ h' = base ++ (commits es).*2 ++ [t]
    | Ok NotCommitted => sp' = None ∧ h' = base ++ (commits es).*2
    | _ => True
    end.
Proof.
  intros Hinv Hcur Hp Hs <- Hr. destruct Hinv as ((_ & Hst & Hc & _) & Hm & _).
  assert (in_doubt (OperationLedger.operations (cledger core)) (operation_id cur) (intent_target i)) as Hd by (by exists cur).
  destruct (consistent_doubt _ _ _ _ _ _ _ Hm Hd Hc) as [Hx Hback]. set (c := base ++ (commits es).*2) in *.
  assert (∀ u, last h = Some u → fresh h (intent_target i) → u ≠ intent_target i) as Hnot.
  { intros u Hu Hf ->. apply last_Some in Hu as (h0 & ->). specialize (Hf (intent_target i)).
    assert (intent_target i ∈ h0 ++ [intent_target i]) as Hin by set_solver. specialize (Hf Hin). lia. }
  assert (sp = Some (intent_target i) ∨ sp = None ∧
    (last h = Some (intent_target i) ∨ ∀ u, u ∈ h → (u.1 < CommitIntent.committed i)%N)) as Hpre.
  { destruct Hx as [(-> & Hf & [-> | ->])|[-> ->]]; [right|by left|right].
    - split; [done|]. right. apply Hf.
    - split; [done|]. left. apply last_snoc. }
  pose proof (recover_commit_law _ _ _ _ _ _ Hst Hpre Hr) as Hlaw.
  destruct r as [[receipt| |actual]|error].
  - destruct Hlaw as [(Hst' & -> & Hl)|[-> Hst']].
    + exists h, None. destruct Hx as [(Heq & Hf & _)|[Heq _]]; [by destruct (Hnot _ Hl Hf)|].
      split_and!; [done..|]. by rewrite Heq, (assoc (++)).
    + destruct Hx as [(Heq & Hf & _)|[_ ?]]; [|done]. exists (h ++ [intent_target i]), None. split_and!; [done| |done|].
      * apply Hback. right. by rewrite Heq.
      * by rewrite Heq, (assoc (++)).
  - destruct Hlaw as [Hst' Hl]. exists h, None. destruct Hx as [(Heq & Hf & _)|[Heq _]].
    + split_and!; [done| |done..]. apply Hback. left. auto.
    + destruct Hl. rewrite Heq. apply last_snoc.
  - exists h, sp. auto.
  - exists h, sp. auto.
Qed.

Lemma core_moves_trans es es' core : es `prefix_of` es' → moves es' core → moves es core.
Proof. intros Hp (es2 & Hp2 & H). exists es2. split; [by trans es'|done]. Qed.

(** The part of [recover_durable_intent] after the ledger is settled. *)
Lemma recover_settled core es h sp id :
  core_inv core es h sp None → replay_required (cledger core) = false →
  moves es (recover_durable_intent (SE := SE) (BE := BE) id core).1.
Proof.
  intros Hinv Hrr.
  unfold recover_durable_intent, mbind at 1. rewrite Hrr. unfold mbind at 1.
  destruct (current_event id core) as [core1 r] eqn:Hc. apply current_cases in Hc as [-> Hc].
  destruct r as [cur|]; [|by eauto]. destruct (inv_event _ _ _ _ _ _ _ Hinv Hc) as (Hid & _). rewrite <- Hid in Hc.
  case_match; [by eauto|]. destruct (state cur) as [[g d]|] eqn:Hs; [|by eauto].
  destruct (CommitIntent.new _ _ _) as [i|] eqn:Hi; [|by eauto]. apply intent_new in Hi.
  destruct (phase cur) eqn:Hp; try by eauto. rewrite <- Hs. unfold mbind at 1, with_state, engine_recover_commit.
  destruct (recover_commit (cstore core) i) as [s' r'] eqn:Hr.
  destruct (recover_commit_inv _ _ _ _ _ _ _ _ _ Hinv Hc Hp Hs Hi Hr) as (h' & sp' & Hst & Hco & Hcase).
  pose proof (with_store _ _ _ _ _ _ _ Hinv Hst Hco) as Hinv'.
  destruct r' as [[receipt| |actual]|error]; simpl.
  - destruct Hcase as [-> Hh]. case_match; [by eauto|]. unfold mbind at 1.
    destruct (record_next _ _ _ _ _ _ _) as [core2 r2] eqn:Hn.
    assert (moves es core2); [|by destruct r2]. eapply decide_next; [exact Hinv'|exact Hc|exact Hp|exact Hs|done|by left| |exact Hn]; done.
  - destruct Hcase as [-> Hh]. unfold mbind at 1.
    destruct (record_next _ _ _ _ _ _ _) as [core2 r2] eqn:Hn.
    assert (moves es core2); [|by destruct r2]. eapply decide_next; [exact Hinv'|exact Hc|exact Hp|exact Hs|done|by right| |exact Hn]; done.
  - eauto.
  - eauto.
Qed.

Lemma recovered_writable (l l' : OperationLedger J) u :
  recover_after_append_failure l = (l', Ok u) → replay_required l' = false.
Proof.
  unfold recover_after_append_failure. case_match; [done|].
  destruct (recover_authoritative _) as [j [records|]]; [|done]. destruct (replay_records _ _); [|done]. by intros [= <- _].
Qed.

Lemma recover_intent_moves core es h sp pe id :
  core_inv core es h sp pe → moves es (recover_durable_intent (SE := SE) (BE := BE) id core).1.
Proof.
  intros Hinv. destruct (replay_required (cledger core)) eqn:Hrr.
  2:{ assert (pe = None) as -> by (destruct pe; [destruct Hinv as (_ & _ & Hx); rewrite Hrr in Hx; by destruct Hx|done]).
      by eapply recover_settled. }
  destruct (recover_after_append_failure (cledger core)) as [l' r] eqn:Hr.
  pose proof (recover_inv _ _ _ _ _ _ _ _ Hinv Hr) as Hlaw.
  set (core1 := JournaledDurableCore.mk (JournaledDurableCore.state core) l').
  destruct r as [u|error].
  - destruct Hlaw as (es1 & Hpre & Hinv1). pose proof (recovered_writable _ _ _ Hr) as Hw. eapply core_moves_trans; [done|].
    replace (recover_durable_intent (SE := SE) (BE := BE) id core) with (recover_durable_intent (SE := SE) (BE := BE) id core1).
    { by eapply (recover_settled core1). }
    unfold recover_durable_intent. match goal with |- mbind _ ?k _ = _ => generalize k end. intros k.
    unfold mbind. rewrite Hrr. simpl. rewrite Hw. unfold with_ledger. rewrite Hr. by destruct u.
  - destruct Hlaw as (pe' & Hinv1). unfold recover_durable_intent, mbind at 1. rewrite Hrr. unfold with_ledger. rewrite Hr. simpl.
    by eapply (moves_same core1).
Qed.

Lemma prepared_intent (eng : DurableStateEngine S B) expected plaintext data prepared :
  prepare_persist eng expected plaintext data = Ok (E := DurableCoreError SE BE) prepared →
  prepare_commit (DurableStateEngine.store eng) expected (PreparedDurableMutation.candidate prepared) =
    Ok (PreparedDurableMutation.intent prepared).
Proof.
  unfold prepare_persist. case_match; [done|]. destruct (match current_generation _ with Some _ => _ | None => _ end); [|done].
  destruct (active_key_epoch _); [|done]. simpl. destruct (BarrierContext.new _ _ _ _ _); [|done]. simpl.
  destruct (seal_state _ _ _); [|done]. simpl. case_match; [done|]. destruct (SealedEnvelope.encode _); [|done]. simpl.
  destruct (OpaqueState_new _); [|done]. simpl. destruct (prepare_commit _ _ _) eqn:Hp; [|done]. simpl. case_match; [done|].
  by intros [= <-].
Qed.

(** Committing what was prepared, with its intent recorded. *)
Lemma commit_inv core es h id t prepared expected core' r :
  core_inv core es h None None → h = base ++ (commits es).*2 → fresh h t →
  in_doubt (OperationLedger.operations (cledger core)) id t →
  prepare_commit (cstore core) expected (PreparedDurableMutation.candidate prepared) = Ok (PreparedDurableMutation.intent prepared) →
  t = intent_target (PreparedDurableMutation.intent prepared) →
  with_state (SE := SE) (BE := BE) (JE := JE) (commit_prepared prepared) core = (core', r) →
  cledger core' = cledger core ∧
  match r with
  | Ok receipt => receipt = CommitIntent.receipt (PreparedDurableMutation.intent prepared) ∧ core_inv core' es (h ++ [t]) None None
  | Err _ => core_inv core' es h (Some t) None
  end.
Proof.
  intros Hinv Hh Hf Hd Hp -> Hr. pose proof Hinv as ((_ & Hst & Hc & _) & Hm & _).
  destruct (consistent_doubt _ _ _ _ _ _ _ Hm Hd Hc) as [_ Hback].
  unfold with_state, commit_prepared in Hr. destruct (commit _ _ _) as [s' [receipt|error]] eqn:Hcm;
    pose proof (commit_law _ _ _ _ _ _ _ Hst Hp Hcm) as Hlaw; simpl in Hlaw; injection Hr as <- <-; (split; [done|]).
  - destruct Hlaw as [-> Hst']. rewrite bool_decide_eq_true_2 by done. split; [done|].
    apply (with_store _ _ _ _ _ _ _ Hinv Hst'). apply Hback. right. by rewrite Hh.
  - apply (with_store _ _ _ _ _ _ _ Hinv Hlaw). apply Hback. left. auto.
Qed.

(** The target of an answered mutation. *)
Definition receipt_target (r : JournaledCommitReceipt) : target :=
  (CommitReceipt.committed (JournaledCommitReceipt.commit r), CommitReceipt.digest (JournaledCommitReceipt.commit r)).

(** The end of [persist_mutation], from the recorded intent and from the accepted event. *)
Definition after_intent (id : string) (intent : OperationEvent) (prepared : PreparedDurableMutation) :
    M Core (JournaledCoreError SE BE JE) JournaledCommitReceipt :=
  do? commit := with_state (commit_prepared prepared) in
  do? committed :=
    contract (let? detail := StableDetailCode_new "state-committed" in
              next intent StateCommitted (state intent) None None detail) in
  with_ledger (record committed) (StateCommittedLedgerIncomplete commit) ;;?
  mret (JournaledCommitReceipt.mk id commit).

Definition after_accepted (id : string) (accepted : OperationEvent) (prepared : PreparedDurableMutation) :
    M Core (JournaledCoreError SE BE JE) JournaledCommitReceipt :=
  do? intent :=
    contract (let? detail := StableDetailCode_new "mutation-intent-bound-to-target" in
              next accepted IntentCommitted (Some (intent_target (PreparedDurableMutation.intent prepared))) None None detail) in
  with_ledger (record intent) Ledger ;;?
  after_intent id intent prepared.

(** What a commit sequence leaves: more events, and the commit when it is answered. *)
Definition answered (es : list OperationEvent) (id : string) (core' : Core)
    (r : Result JournaledCommitReceipt (JournaledCoreError SE BE JE)) : Prop :=
  ∃ es', es `prefix_of` es' ∧ reached core' es' ∧ ∀ receipt, r = Ok receipt → (id, receipt_target receipt) ∈ commits es'.

Lemma answered_err es id core' e h sp pe : core_inv core' es h sp pe → answered es id core' (Err e).
Proof. intros. exists es. split_and!; [done| |done]. by exists h, sp, pe. Qed.

Lemma answered_trans es es' id core' r : es `prefix_of` es' → answered es' id core' r → answered es id core' r.
Proof. intros Hp (es2 & Hp2 & H). exists es2. split; [by trans es'|done]. Qed.

(** [contract] around a checked literal and [next]. *)
Lemma contract_next (core : Core) lit cur ph st ek rd :
  StableDetailCode_new lit = Ok lit →
  contract (SE := SE) (BE := BE) (JE := JE) (let? d := StableDetailCode_new lit in next cur ph st ek rd d) core =
  (core, map_err OperationContract (next cur ph st ek rd lit)).
Proof. by intros ->. Qed.

Lemma after_intent_inv core es h int t prepared expected core' r :
  core_inv core (es ++ [int]) h None None → h = base ++ (commits (es ++ [int])).*2 → fresh h t →
  phase int = IntentCommitted → state int = Some t → t = intent_target (PreparedDurableMutation.intent prepared) →
  prepare_commit (cstore core) expected (PreparedDurableMutation.candidate prepared) = Ok (PreparedDurableMutation.intent prepared) →
  after_intent (operation_id int) int prepared core = (core', r) → answered (es ++ [int]) (operation_id int) core' r.
Proof.
  intros Hinv Hh Hf Hp Hs Ht Hprep Hr. pose proof (inv_last _ _ _ _ _ _ Hinv) as Hcur.
  destruct (inv_event _ _ _ _ _ _ _ Hinv Hcur) as (_ & Hcl & Hfi & _).
  unfold after_intent, mbind at 1 in Hr. destruct (with_state (commit_prepared prepared) core) as [core2 r2] eqn:Hw2.
  apply (commit_inv _ _ _ (operation_id int) t _ expected _ _ Hinv) in Hw2 as [Hl2 Hw2]; [|done..|by exists int|done|done].
  destruct r2 as [receipt|error]; [|injection Hr as <- <-; by eapply answered_err]. destruct Hw2 as [Hrec Hw2].
  unfold mbind at 1 in Hr. rewrite contract_next in Hr by done.
  destruct (next int _ _ _ _ _) as [com|] eqn:Hcom; [|injection Hr as <- <-; by eapply answered_err].
  apply next_event in Hcom as (Hid2 & Hcl2 & Hph2 & Hse2 & Hv2 & Hfc). rewrite Hs in Hse2.
  assert (fields_ok com) as Hfcom by (apply Hfc; try done; intros ?; by apply state_target_ok).
  rewrite <- Hl2, <- Hid2 in Hcur. unfold mbind at 1 in Hr. cbn [map_err] in Hr.
  destruct (with_ledger (record com) _ core2) as [core3 r3] eqn:Hw3.
  apply (with_record_inv _ _ _ _ _ _ _ _ _ Hw2 Hfcom) in Hw3 as [_ Hw3].
  2:{ intros _ Hv'. pose proof Hw2 as ((_ & _ & Hc & _) & Hm & _).
      apply (extend_decided _ _ _ _ _ _ Hm Hv' ltac:(by rewrite Hcl2) Hc int t Hcur); try done.
      left. split; [done|]. by rewrite Hh, (assoc (++)). }
  destruct r3 as [u3|error]; [|injection Hr as <- <-; destruct Hw3 as [pe3 Hw3]; by eapply answered_err].
  injection Hr as <- <-. exists ((es ++ [int]) ++ [com]). split_and!; [by exists [com]|by exists (h ++ [t]), None, None|].
  intros receipt' [= <-]. rewrite commits_snoc. apply elem_of_app. right. unfold commit_of.
  rewrite bool_decide_eq_true_2, Hse2, Hid2, Ht by done. unfold receipt_target. simpl. rewrite Hrec. by apply list_elem_of_singleton.
Qed.

Lemma after_accepted_inv core es h acc prepared expected core' r :
  core_inv core (es ++ [acc]) h None None → h = base ++ (commits (es ++ [acc])).*2 → phase acc = Accepted →
  prepare_commit (cstore core) expected (PreparedDurableMutation.candidate prepared) = Ok (PreparedDurableMutation.intent prepared) →
  after_accepted (operation_id acc) acc prepared core = (core', r) → answered (es ++ [acc]) (operation_id acc) core' r.
Proof.
  intros Hinv Hh Hacc Hprep Hr. set (t := intent_target (PreparedDurableMutation.intent prepared)).
  destruct (inv_event _ _ _ _ _ _ _ Hinv (inv_last _ _ _ _ _ _ Hinv)) as (_ & Hcl & Hfa & _).
  pose proof Hinv as ((_ & Hst & _ & _) & _). destruct (prepare_law _ _ _ _ _ Hst Hprep) as [Htok Hfresh].
  unfold after_accepted, mbind at 1 in Hr. rewrite contract_next in Hr by done.
  destruct (next acc _ _ _ _ _) as [int|] eqn:Hint; [|injection Hr as <- <-; by eapply answered_err].
  apply next_event in Hint as (Hid & Hcl' & Hph & Hse & Hv & Hfi). fold t in Hse.
  assert (fields_ok int) as Hfint by (apply Hfi; try done; by intros ? [= <-]).
  unfold mbind at 1 in Hr. cbn [map_err] in Hr. destruct (with_ledger (record int) Ledger core) as [core1 r1] eqn:Hw1.
  apply (with_record_inv _ _ _ _ _ _ _ _ _ Hinv Hfint) in Hw1 as [Hs1 Hw1].
  2:{ intros _ Hv'. pose proof Hinv as ((_ & _ & Hc & _) & Hm & _).
      apply (extend_intent _ _ _ _ _ _ Hm Hv' ltac:(by rewrite Hcl') Hc acc t); [rewrite Hid; by eapply (inv_last core)|done..]. }
  destruct r1 as [u|error]; [|injection Hr as <- <-; destruct Hw1 as [pe1 Hw1]; by eapply answered_err].
  eapply (answered_trans _ ((es ++ [acc]) ++ [int])); [by exists [int]|]. rewrite <- Hid in Hr |- *.
  eapply (after_intent_inv core1 (es ++ [acc]) h int t); [exact Hw1| |exact Hfresh|done|done|done|by rewrite Hs1|exact Hr].
  rewrite commits_snoc, commit_of_other by (by rewrite Hph). simpl. by rewrite app_nil_r.
Qed.

Lemma persist_inv core es h sp pe id rd expected plaintext data core' r :
  core_inv core es h sp pe → OperationId_new id = Ok id → digest_ok rd →
  persist_mutation id rd expected plaintext data core = (core', r) → answered es id core' r.
Proof.
  intros Hinv Hid Hrd Hr. unfold persist_mutation in Hr.
  destruct (current (cledger core) id) eqn:Hcur; [injection Hr as <- <-; by eapply answered_err|].
  destruct (blocking_phase (cledger core)) eqn:Hb; [injection Hr as <- <-; by eapply answered_err|].
  destruct (prepare_persist _ _ _ _) as [prepared|] eqn:Hp; [|injection Hr as <- <-; by eapply answered_err].
  apply prepared_intent in Hp. unfold mbind at 1, contract at 1 in Hr.
  change (StableDetailCode_new "request-accepted") with (Ok (E := OperationContractError) "request-accepted") in Hr. cbn iota beta in Hr.
  destruct (accepted _ _ _ _) as [acc|] eqn:Hacc; [|injection Hr as <- <-; by eapply answered_err].
  apply accepted_event in Hacc as (Hida & Hcl & Hph & Hfa). specialize (Hfa Hid Hrd eq_refl). cbn [map_err] in Hr.
  fold (after_accepted id acc prepared) in Hr. unfold mbind at 1 in Hr.
  destruct (with_ledger (record acc) Ledger core) as [core1 r1] eqn:Hw1.
  assert (∀ i e, OperationLedger.operations (cledger core) !! i = Some e → ¬ unresolved e) as Hno by (intros i e; by apply blocking_none).
  pose proof Hinv as ((_ & _ & Hc & _) & Hm & _). destruct (consistent_at _ _ _ _ _ Hm Hc) as (_ & _ & Hag).
  apply (with_record_inv _ _ _ _ _ _ _ _ _ Hinv Hfa) in Hw1 as [Hs1 Hw1].
  2:{ intros _ Hv'. by apply (extend_accepted _ _ _ _ _ _ Hm Hv' Hcl Hc). }
  destruct r1 as [u|error]; [|injection Hr as <- <-; destruct Hw1 as [pe1 Hw1]; by eapply answered_err].
  eapply (answered_trans _ (es ++ [acc])); [by exists [acc]|]. rewrite <- Hida in Hr |- *.
  destruct Hag as [(_ & Hh & ->)|(i & t & (e & Hl & Hx & _) & _)]; [|destruct (Hno i e Hl); by right].
  eapply (after_accepted_inv core1 es h acc); [exact Hw1| |done|by rewrite Hs1|exact Hr].
  rewrite commits_snoc, commit_of_other by (by rewrite Hph). simpl. by rewrite app_nil_r.
Qed.
End guarantees.
