(* ===== verification/JournaledTheorems.v ===== *)
(** What the journaled core guarantees over histories of calls, failed appends and
    commits, crashes and restarts, for any journal and any store that keep their
    contracts; and a journal and a store in memory, with failures, on which it runs. *)
From Stdlib Require Import Ascii NArith Strings.Byte.
From S2P Require Import Prelude Str Gf256 Bytes DurableCodec DurableCodecSpec Contracts OperationLedger JournaledCore JournaledSpec.
Import OperationEvent (operation_id, class, phase, state_generation, state_digest, detail_code).

Section histories.
Context {S SE B BE J JE : Type} `{HS : DurableGenerationStore S SE} `{HB : BarrierProvider B BE} `{HJ : DurableJournal J JE}.
Context `{!JournalLaws J JE} `{!StoreLaws S SE} (base : list target).
Notation Core := (JournaledDurableCore S B J).
Notation cstore core := (DurableStateEngine.store (JournaledDurableCore.state core)).
Notation cledger core := (JournaledDurableCore.ledger core).

Notation reached := (JournaledSpec.reached base).
Notation moves := (JournaledSpec.moves base).
Notation durable := (JournaledSpec.durable base).

(** * Histories *)
Inductive call : Type :=
| Persist (id : string) (request_digest : list u8) (expected : option N) (plaintext data : list u8)
| Reject (id detail : string)
| RecoverIntent (id : string)
| RecoverLedger
| Audited (id : string) (response_digest : list u8)
| AuditFailed (id : string) (response_digest : list u8)
| Deliver (id : string) (delivered : bool)
| Reconcile (id detail : string).

(** The arguments are values of their checked types. *)
Definition call_ok (c : call) : Prop :=
  match c with
  | Persist id rd _ _ _ => OperationId_new id = Ok id ∧ digest_ok rd
  | Reject _ detail | Reconcile _ detail => StableDetailCode_new detail = Ok detail
  | Audited _ rd | AuditFailed _ rd => digest_ok rd
  | RecoverIntent _ | RecoverLedger | Deliver _ _ => True
  end.

Definition perform (c : call) (core : Core) : Core :=
  match c with
  | Persist id rd expected plaintext data => (persist_mutation (SE := SE) (BE := BE) id rd expected plaintext data core).1
  | Reject id detail => (record_rejected_before_dispatch (SE := SE) (BE := BE) id detail core).1
  | RecoverIntent id => (recover_durable_intent (SE := SE) (BE := BE) id core).1
  | RecoverLedger => (recover_ledger_after_append_failure (SE := SE) (BE := BE) core).1
  | Audited id rd => (record_response_audited (SE := SE) (BE := BE) id rd core).1
  | AuditFailed id rd => (record_response_audit_failure_after_commit (SE := SE) (BE := BE) id rd core).1
  | Deliver id delivered => (record_delivery (SE := SE) (BE := BE) id delivered core).1
  | Reconcile id detail => (reconcile (SE := SE) (BE := BE) id detail core).1
  end.

(** A running core, or its journal and store between two processes. *)
Inductive node : Type :=
| Up (core : Core)
| Down (state : DurableStateEngine S B) (j : J).

(** A crash keeps what the journal and the store hold; what a call had not finished is a
    failed append or commit of that call.  A restart opens the ledger again. *)
Inductive step : node → node → Prop :=
| step_call c core : call_ok c → step (Up core) (Up (perform c core))
| step_crash core j s b :
    (∀ xs px, journal_at (OperationLedger.journal (cledger core)) xs px → journal_at j xs px) →
    (∀ h sp, store_at (cstore core) h sp → store_at s h sp) →
    step (Up core) (Down (DurableStateEngine.mk s b) j)
| step_open eng j j' l : open_ledger j = (j', Ok l) → step (Down eng j) (Up (JournaledDurableCore.mk eng l))
| step_open_fails eng j j' e : open_ledger j = (j', Err e) → step (Down eng j) (Down eng j').

Definition holds_events (n : node) (es : list OperationEvent) : Prop :=
  match n with
  | Up core => reached core es
  | Down eng j => ∃ h sp pe, durable j (DurableStateEngine.store eng) es h sp pe
  end.

Lemma perform_moves c core es : reached core es → call_ok c → moves es (perform c core).
Proof.
  intros (h & sp & pe & Hinv) Hok. destruct c; simpl in *.
  - destruct (persist_mutation _ _ _ _ _ _) as [core' r] eqn:Hr. destruct Hok as [Hid Hrd].
    destruct (persist_inv _ _ _ _ _ _ _ _ _ _ _ _ _ Hinv Hid Hrd Hr) as (es' & Hp & Hx & _). by exists es'.
  - by eapply record_rejected_moves.
  - by eapply recover_intent_moves.
  - unfold recover_ledger_after_append_failure, with_ledger.
    destruct (recover_after_append_failure _) as [l r] eqn:Hr. pose proof (recover_inv _ _ _ _ _ _ _ _ _ Hinv Hr) as Hlaw.
    destruct r; [destruct Hlaw as (es' & Hp & Hlaw)|destruct Hlaw as (pe' & Hlaw)].
    + exists es'. split; [done|]. by exists h, sp, None.
    + exists es. split; [done|]. by exists h, sp, pe'.
  - by eapply record_response_moves.
  - by eapply record_response_moves.
  - by eapply record_delivery_moves.
  - by eapply reconcile_moves.
Qed.

Lemma step_holds n n' es : step n n' → holds_events n es → ∃ es', es `prefix_of` es' ∧ holds_events n' es'.
Proof.
  intros Hstep Hn. destruct Hstep as [c core Hok|core j s b Hj Hs|eng j j' l Ho|eng j j' e Ho]; simpl in *.
  - by apply perform_moves.
  - exists es. split; [done|]. destruct Hn as (h & sp & pe & ((xs & px & Hx & Hr) & Hst & Hc) & _). exists h, sp, pe.
    split_and!; [exists xs, px; auto|by apply Hs|by destruct Hc..].
  - destruct Hn as (h & sp & pe & Hd). destruct (open_inv _ _ _ _ _ _ _ _ _ Hd Ho) as (es' & Hp & Hl).
    exists es'. split; [done|]. by exists h, sp, None.
  - destruct Hn as (h & sp & pe & Hd). destruct (open_inv _ _ _ _ _ _ _ _ _ Hd Ho) as (pe' & Hd').
    exists es. split; [done|]. by exists h, sp, pe'.
Qed.

Lemma steps_hold n n' es : rtc step n n' → holds_events n es → ∃ es', es `prefix_of` es' ∧ holds_events n' es'.
Proof.
  intros Hs. revert es. induction Hs as [n|n1 n2 n3 H12 _ IH]; intros es Hn; [by exists es|].
  destruct (step_holds _ _ _ H12 Hn) as (es2 & Hp2 & H2). destruct (IH _ H2) as (es3 & Hp3 & H3).
  exists es3. split; [by trans es2|done].
Qed.

Lemma start_holds eng j :
  journal_at j [] None → store_at (DurableStateEngine.store eng) base None → holds_events (Down eng j) [].
Proof.
  intros Hj Hs. exists base, None, None. split_and!; [|done| |done]; [exists [], None; split_and!; [done|constructor|done]|].
  exists ∅. split_and!; [done|constructor|done|]. left. simpl. rewrite app_nil_r. split_and!; [|done..]. by intros id t (e & He & _).
Qed.

Lemma commits_prefix es es' : es `prefix_of` es' → ∀ c, c ∈ commits es → c ∈ commits es'.
Proof. intros [k ->] c Hc. unfold commits. rewrite omap_app. apply elem_of_app. by left. Qed.

(** What the ledger of a running core says about the store. *)
Lemma reached_facts (core : Core) es :
  reached core es →
  ∃ h sp, store_at (cstore core) h sp ∧ NoDup (commits es).*1 ∧
    (∀ id t, (id, t) ∈ commits es ↔ reports (OperationLedger.operations (cledger core)) id t) ∧
    (h = base ++ (commits es).*2 ∨
     ∃ id t, in_doubt (OperationLedger.operations (cledger core)) id t ∧ h = base ++ (commits es).*2 ++ [t]) ∧
    (blocking_phase (cledger core) = None → h = base ++ (commits es).*2 ∧ sp = None).
Proof.
  intros (h & sp & pe & ((_ & Hst & Hc & _) & Hm & _)). exists h, sp.
  destruct (consistent_at _ _ _ _ _ Hm Hc) as (HF & Ha & Hag). destruct (replay_commits _ _ Hm HF) as (Hnd & _ & Hiff).
  split_and!; [done..| |].
  - destruct Hag as [(_ & -> & _)|(id & t & Hd & [(-> & _)|[-> _]])]; [by left..|]. right. exists id, t. by rewrite <- (assoc (++)).
  - intros Hb. destruct Hag as [(_ & -> & ->)|(id & t & (e & Hl & Hp & _) & _)]; [done|].
    destruct (blocking_none _ _ _ Hb Hl). by right.
Qed.

(** C15: Over any history of a journaled core that starts on an empty journal, with calls,
    failed and undecided appends and commits, crashes and restarts: the store has published
    its first generations and then, each once and in order, exactly the targets of the
    operations that the ledger reports as committed, except for at most one more, the target of
    the single operation that the ledger still holds at its intent.  When the ledger blocks
    nothing there is no exception.  An operation that may be retried as a new one has
    published nothing, and one that is only to be looked up has published its target. *)
Theorem journaled_exactly_once eng j core :
  journal_at j [] None → store_at (DurableStateEngine.store eng) base None →
  rtc step (Down eng j) (Up core) →
  ∃ (done : list (string * target)) h sp,
    store_at (DurableStateEngine.store (JournaledDurableCore.state core)) h sp ∧ NoDup done.*1 ∧
    (∀ id t, (id, t) ∈ done ↔
       ∃ e, current (JournaledDurableCore.ledger core) id = Some e ∧ after_commit (phase e) ∧ state e = Some t) ∧
    (h = base ++ done.*2 ∨
     ∃ id e t, current (JournaledDurableCore.ledger core) id = Some e ∧ phase e = IntentCommitted ∧ state e = Some t ∧
       h = base ++ done.*2 ++ [t]) ∧
    (blocking_phase (JournaledDurableCore.ledger core) = None → h = base ++ done.*2 ∧ sp = None) ∧
    ∀ id, match retry_directive (JournaledDurableCore.ledger core) id with
          | Some SafeToRetryNewOperation => id ∉ done.*1
          | Some LookupOnly => id ∈ done.*1
          | _ => True
          end.
Proof.
  intros Hj Hs Hrtc. destruct (steps_hold _ _ _ Hrtc (start_holds _ _ Hj Hs)) as (es & _ & Hr).
  pose proof Hr as (h0 & sp0 & pe0 & ((_ & _ & Hc0 & _) & Hm0 & _)).
  destruct (consistent_at _ _ _ _ _ Hm0 Hc0) as (HF & _). destruct (replay_commits _ _ Hm0 HF) as (_ & Hst & _).
  destruct (reached_facts _ _ Hr) as (h & sp & H1 & H2 & H3 & H4 & H5). exists (commits es), h, sp. split_and!; [done..| |done|].
  - destruct H4 as [->|(id & t & (e & He & Hp & Hse) & ->)]; [by left|]. right. by exists id, e, t.
  - intros id. unfold retry_directive. destruct (current _ id) as [e|] eqn:He; simpl; [|done].
    assert (id ∈ (commits es).*1 ↔ after_commit (phase e)) as Hin.
    { split.
      - intros ([id' t] & -> & (e' & He' & Ha & _)%H3)%list_elem_of_fmap. unfold current in He. simpl in He. rewrite He in He'. by injection He' as <-.
      - intros Ha. destruct (Hst _ _ He Ha) as [t Hse]. apply list_elem_of_fmap. exists (id, t). split; [done|]. apply H3. by exists e. }
    unfold retry_directive_for_event. destruct (phase e); cbn in Hin |- *; tauto.
Qed.

(** C16: When [persist_mutation] answers a receipt, the ledger reports the operation as
    committed with the generation and digest of the receipt, and so it does after every later
    history of calls, failures, crashes and restarts; its generation stays published. *)
Theorem journaled_answer_durable eng j core id rd expected plaintext data core1 receipt core2 :
  journal_at j [] None → store_at (DurableStateEngine.store eng) base None →
  rtc step (Down eng j) (Up core) →
  OperationId_new id = Ok id → digest_ok rd →
  persist_mutation (SE := SE) (BE := BE) id rd expected plaintext data core = (core1, Ok receipt) →
  rtc step (Up core1) (Up core2) →
  ∃ e h sp,
    current (JournaledDurableCore.ledger core2) id = Some e ∧ after_commit (phase e) ∧
    state e = Some (receipt_target receipt) ∧
    store_at (DurableStateEngine.store (JournaledDurableCore.state core2)) h sp ∧ receipt_target receipt ∈ h.
Proof.
  intros Hj Hs Hrtc Hid Hrd Hp Hrtc2. destruct (steps_hold _ _ _ Hrtc (start_holds _ _ Hj Hs)) as (es & _ & (h & sp & pe & Hinv)).
  destruct (persist_inv _ _ _ _ _ _ _ _ _ _ _ _ _ Hinv Hid Hrd Hp) as (es1 & _ & Hr1 & Hc1).
  destruct (steps_hold _ _ es1 Hrtc2 Hr1) as (es2 & Hp2 & Hr2). specialize (Hc1 receipt eq_refl).
  apply (commits_prefix _ _ Hp2) in Hc1. destruct (reached_facts _ _ Hr2) as (h2 & sp2 & H1 & _ & H3 & H4 & _).
  pose proof Hc1 as (e & He & Ha & Hse)%H3. exists e, h2, sp2. split_and!; [done..|].
  assert (receipt_target receipt ∈ (commits es2).*2) as Hin by (apply list_elem_of_fmap; by exists (id, receipt_target receipt)).
  destruct H4 as [->|(? & ? & _ & ->)]; set_solver.
Qed.
End histories.

(** * Providers in memory

    A journal and a store that fail as scheduled: each append and each commit takes the next
    fate of a list and succeeds, or fails before or after it took effect. *)
Inductive Fate : Type := Works | FailsBefore | FailsAfter.

Module MemoryJournal.
Record t := mk { payloads : list (list u8); fates : list Fate }.
End MemoryJournal.
Notation MemoryJournal := MemoryJournal.t.

Definition memory_tag (sequence : N) : list u8 := be_bytes 32 sequence.
Definition memory_record (i : nat) (payload : list u8) : JournalRecord :=
  JournalRecord.mk (N.of_nat (S i)) (if decide (i = 0) then None else Some (memory_tag (N.of_nat i)))
    (memory_tag (N.of_nat (S i))) payload.
Definition memory_tail (payloads : list (list u8)) : option JournalTail :=
  match payloads with
  | [] => None
  | _ => Some (JournalTail.mk (len payloads) (memory_tag (len payloads)))
  end.

#[export] Instance memory_journal : DurableJournal MemoryJournal unit := {|
  journal_tail j := memory_tail (MemoryJournal.payloads j);
  recover_authoritative j := (j, Ok (imap memory_record (MemoryJournal.payloads j)));
  append j _ payload :=
    let before := MemoryJournal.payloads j in
    let after := before ++ [payload] in
    match MemoryJournal.fates j with
    | [] => (MemoryJournal.mk after [], Ok (AppendReceipt.mk (memory_tail before) (JournalTail.mk (len after) (memory_tag (len after)))))
    | Works :: fates =>
        (MemoryJournal.mk after fates, Ok (AppendReceipt.mk (memory_tail before) (JournalTail.mk (len after) (memory_tag (len after)))))
    | FailsBefore :: fates => (MemoryJournal.mk before fates, Err tt)
    | FailsAfter :: fates => (MemoryJournal.mk after fates, Err tt)
    end;
  classify_append_failure _ _ := OutcomeUnknown;
|}.

#[export] Instance memory_journal_laws : JournalLaws MemoryJournal unit.
Proof.
  refine {| journal_at j xs px := MemoryJournal.payloads j = xs ∨ ∃ x, px = Some x ∧ MemoryJournal.payloads j = xs ++ [x] |}.
  - intros j xs payload j' r [Hx|(? & ? & _)] _ Ha; [|done]. simpl in Ha.
    destruct (MemoryJournal.fates j) as [|[] fates]; injection Ha as <- <-; simpl; rewrite Hx; eauto.
  - intros j xs px j' r Hx [= <- <-]. exists (MemoryJournal.payloads j). split_and!; [|by left|].
    + generalize (MemoryJournal.payloads j). intros l. clear.
      assert (∀ f : nat → list u8 → JournalRecord, (∀ i x, JournalRecord.payload (f i x) = x) →
        JournalRecord.payload <$> imap f l = l) as Hf.
      { induction l as [|x l IH]; intros f Hf; [done|]. simpl. rewrite Hf. f_equal. apply (IH (f ∘ S)). intros. apply Hf. }
      by apply Hf.
    + destruct Hx as [->|(x & -> & ->)]; eauto.
Defined.

Module MemoryStore.
Record t := mk { generations : list (target * list u8); fates : list Fate }.
End MemoryStore.
Notation MemoryStore := MemoryStore.t.

Definition memory_digest (state : list u8) : list u8 := be_bytes 31 (of_be state) ++ [x01].
Definition memory_current (s : MemoryStore) : option N :=
  match MemoryStore.generations s with [] => None | l => Some (len l) end.
Definition memory_prepare (s : MemoryStore) (expected : option N) (candidate : list u8) : Result CommitIntent unit :=
  if negb (bool_decide (expected = memory_current s)) then Err tt
  else if (U64_MAX <=? len (MemoryStore.generations s))%N then Err tt
  else Ok (CommitIntent.mk expected (len (MemoryStore.generations s) + 1) (memory_digest candidate)).

#[export] Instance memory_store : DurableGenerationStore MemoryStore unit := {|
  store_domain _ := "memory/state";
  current_generation := memory_current;
  load_current s :=
    Ok ((λ g, GenerationSnapshot.mk g.1.1 g.1.2 g.2) <$> last (MemoryStore.generations s));
  prepare_commit := memory_prepare;
  recover_commit s intent :=
    (s, Ok (if bool_decide (fst <$> last (MemoryStore.generations s) = Some (intent_target intent))
            then Committed (CommitIntent.receipt intent)
            else if bool_decide (memory_current s = CommitIntent.previous intent) then NotCommitted
            else Conflict (fst <$> last (MemoryStore.generations s))));
  commit s expected candidate :=
    match memory_prepare s expected candidate with
    | Err e => (s, Err e)
    | Ok intent =>
        let after := MemoryStore.generations s ++ [(intent_target intent, candidate)] in
        match MemoryStore.fates s with
        | [] => (MemoryStore.mk after [], Ok (CommitIntent.receipt intent))
        | Works :: fates => (MemoryStore.mk after fates, Ok (CommitIntent.receipt intent))
        | FailsBefore :: fates => (MemoryStore.mk (MemoryStore.generations s) fates, Err tt)
        | FailsAfter :: fates => (MemoryStore.mk after fates, Err tt)
        end
    end;
|}.

Definition numbered (h : list target) : Prop := ∀ i t, h !! i = Some t → t.1 = N.of_nat (S i).

Lemma numbered_snoc h t : numbered h → t.1 = (len h + 1)%N → numbered (h ++ [t]).
Proof.
  intros Hn Ht i u [Hu|[Hi Hu]]%lookup_app_Some; [by apply Hn|].
  apply list_lookup_singleton_Some in Hu as [? <-]. rewrite Ht. unfold len. lia.
Qed.

Lemma numbered_below h t : numbered h → t ∈ h → (t.1 < len h + 1)%N.
Proof. intros Hn [i Hi]%list_elem_of_lookup. rewrite (Hn _ _ Hi). apply lookup_lt_Some in Hi. unfold len. lia. Qed.

Lemma memory_digest_ok state : digest_ok (memory_digest state).
Proof.
  unfold digest_ok, memory_digest. split; [by rewrite length_app, be_bytes_length|].
  intros Heq. apply (f_equal last) in Heq. by rewrite last_snoc in Heq.
Qed.

#[export] Instance memory_store_laws : StoreLaws MemoryStore unit.
Proof.
  refine {| store_at s h sp :=
    numbered h ∧ (∀ t, sp = Some t → t.1 = (len h + 1)%N) ∧
    ((MemoryStore.generations s).*1 = h ∨ ∃ t, sp = Some t ∧ (MemoryStore.generations s).*1 = h ++ [t]) |}.
  - intros s h expected candidate intent s' r (Hn & _ & [Hg|(? & ? & _)]) Hp Hc; [|done]. simpl in Hp, Hc.
    assert (len (MemoryStore.generations s) = len h) as Hlen by (unfold len; by rewrite <- Hg, length_fmap).
    assert (CommitIntent.previous intent = expected ∧ CommitIntent.committed intent = (len h + 1)%N) as [Hprev Hcom].
    { unfold memory_prepare in Hp. destruct (negb _); [done|]. destruct (_ <=? _)%N; [done|]. injection Hp as <-. simpl. by rewrite Hlen. }
    rewrite Hprev, Hp in Hc.
    destruct (MemoryStore.fates s) as [|[] fates]; injection Hc as <- <-; simpl; rewrite ?fmap_app, ?Hg; simpl;
      split_and!; try done; try (apply numbered_snoc; done); try (by left); try (by intros ? [= <-]); eauto.
  - intros s h expected candidate intent (Hn & _ & [Hg|(? & ? & _)]) Hp; [|done]. simpl in Hp.
    assert (len (MemoryStore.generations s) = len h) as Hlen by (unfold len; by rewrite <- Hg, length_fmap).
    unfold memory_prepare in Hp. destruct (negb _); [done|]. destruct (_ <=? _)%N eqn:Hmax; [done|]. injection Hp as <-. apply N.leb_gt in Hmax.
    rewrite Hlen in *. split.
    + split; [|apply memory_digest_ok]. unfold generation_ok. simpl. lia.
    + intros t. by apply numbered_below.
  - intros s h pending intent s' r (Hn & Hp & Hg) Hpre [= <- <-].
    rewrite <- fmap_last. case_bool_decide as Hl.
    + destruct Hg as [Hg|(t & -> & Hg)]; rewrite Hg in Hl.
      * left. destruct Hpre as [-> |(-> & _)]; [|by split_and!; auto].
        exfalso. specialize (Hp _ eq_refl). apply last_Some in Hl as (h0 & ->).
        assert (intent_target intent ∈ h0 ++ [intent_target intent]) as Hin by set_solver.
        apply (numbered_below _ _ Hn) in Hin. lia.
      * rewrite last_snoc in Hl. injection Hl as ->. right. split; [done|]. split_and!; [by apply numbered_snoc; auto|done|by left].
    + case_bool_decide; [|done]. destruct Hg as [Hg|(t & -> & Hg)]; rewrite Hg in Hl.
      * split; [|done]. split_and!; [done..|by left].
      * exfalso. destruct Hpre as [[= ->]|[? _]]; [|done]. by rewrite last_snoc in Hl.
Defined.

Lemma memory_settled (s : MemoryStore) h : store_at s h None → (MemoryStore.generations s).*1 = h.
Proof. intros (_ & _ & [?|(? & ? & _)]); done. Qed.

(** The identity as a barrier. *)
#[export] Instance memory_barrier : BarrierProvider unit unit := {|
  active_key_epoch _ := Ok KeyEpoch.INITIAL;
  seal_state _ _ plaintext := Ok (SealedEnvelope.mk SEALED_ENVELOPE_VERSION KeyEpoch.INITIAL [x01] plaintext [x01]);
  open_state _ _ envelope := Ok (SealedEnvelope.ciphertext envelope);
|}.

(** ** A run

    The first commit takes effect but fails; its intent is then recovered.  A second
    mutation is answered and its response recorded. *)
Notation MemoryCore := (JournaledDurableCore MemoryStore unit MemoryJournal).

Definition demo_engine : DurableStateEngine MemoryStore unit :=
  DurableStateEngine.mk (MemoryStore.mk [] [FailsAfter]) tt.
Definition demo_journal : MemoryJournal := MemoryJournal.mk [] [].
Definition demo_opened : MemoryCore := JournaledDurableCore.mk demo_engine (OperationLedger.mk demo_journal ∅ Writable).

Definition demo_request : list u8 := be_bytes 32 7.
Definition demo_first : call := Persist "op-000001" demo_request None [x61] [].
Definition demo_failed : MemoryCore := perform (SE := unit) (BE := unit) (JE := unit) demo_first demo_opened.
Definition demo_recovered : MemoryCore := perform (SE := unit) (BE := unit) (JE := unit) (RecoverIntent "op-000001") demo_failed.
Definition demo_second : MemoryCore * Result JournaledCommitReceipt (JournaledCoreError unit unit unit) :=
  persist_mutation "op-000002" demo_request (Some 1%N) [x62] [] demo_recovered.

Lemma demo_request_ok : digest_ok demo_request.
Proof. split; [done|]. intros Heq. apply (f_equal last) in Heq. done. Qed.

Lemma demo_empty : journal_at demo_journal [] None.
Proof. by left. Qed.

Lemma demo_unpublished : store_at (DurableStateEngine.store demo_engine) [] None.
Proof. split_and!; [done..|by left]. Qed.

Lemma demo_steps : rtc (step (SE := unit) (BE := unit) (JE := unit)) (Down demo_engine demo_journal) (Up demo_recovered).
Proof.
  apply rtc_l with (Up demo_opened); [by eapply step_open|].
  apply rtc_l with (Up demo_failed); [apply step_call; split; [done|apply demo_request_ok]|].
  apply rtc_once. by apply step_call.
Qed.

Example demo_in_doubt :
  retry_directive (JournaledDurableCore.ledger demo_failed) "op-000001" = Some ReconcileOnly ∧
  retry_directive (JournaledDurableCore.ledger demo_recovered) "op-000001" = Some LookupOnly.
Proof. split; reflexivity. Qed.

Lemma journaled_exactly_once_witness :
  ∃ done : list (string * target),
    (MemoryStore.generations (DurableStateEngine.store (JournaledDurableCore.state demo_recovered))).*1 = done.*2 ∧
    NoDup done.*1 ∧ "op-000001" ∈ done.*1.
Proof.
  destruct (journaled_exactly_once [] demo_engine demo_journal demo_recovered demo_empty demo_unpublished demo_steps)
    as (done & h & sp & Hst & Hnd & _ & _ & Hb & Hdir).
  destruct (Hb eq_refl) as [-> ->]. apply memory_settled in Hst. specialize (Hdir "op-000001").
  rewrite (proj2 demo_in_doubt) in Hdir. exists done. by split_and!.
Defined.

Definition demo_audited : MemoryCore :=
  perform (SE := unit) (BE := unit) (JE := unit) (Audited "op-000002" demo_request) demo_second.1.

Lemma demo_audits : rtc (step (SE := unit) (BE := unit) (JE := unit)) (Up demo_second.1) (Up demo_audited).
Proof. apply rtc_once, step_call, demo_request_ok. Qed.

Definition demo_receipt : JournaledCommitReceipt :=
  JournaledCommitReceipt.mk "op-000002" (CommitReceipt.mk (Some 1%N) 2 (memory_digest
    (match SealedEnvelope.encode (SealedEnvelope.mk 1 1 [x01] [x62] [x01]) with Ok b => b | Err _ => [] end))).

Lemma demo_answer : demo_second = (demo_second.1, Ok demo_receipt).
Proof. reflexivity. Qed.

Lemma journaled_answer_durable_witness :
  ∃ e h sp,
    current (JournaledDurableCore.ledger demo_audited) "op-000002" = Some e ∧ after_commit (phase e) ∧
    state e = Some (receipt_target demo_receipt) ∧
    store_at (DurableStateEngine.store (JournaledDurableCore.state demo_audited)) h sp ∧ receipt_target demo_receipt ∈ h.
Proof.
  exact (journaled_answer_durable [] demo_engine demo_journal demo_recovered "op-000002" demo_request (Some 1%N) [x62] []
    demo_second.1 demo_receipt demo_audited demo_empty demo_unpublished demo_steps eq_refl demo_request_ok demo_answer demo_audits).
Defined.
