(* ===== verification/ServerTheorems.v ===== *)
(** What the running server guarantees about its state: an installation survives
    every failure and restart, and each request takes effect completely or not at all. *)
From Stdlib Require Import Ascii NArith Strings.Byte.
From S2P Require Import Prelude Str Gf256 Shamir Bytes Json Engine EngineState Base32 Totp Federated Acl AuthState AuthLogin AclParse DurableCodec Durable DurableCodecSpec DurableSpec DurableRecovery DurableReopen DurableSystem DurableTheorems Seal AuditChain AuditRotation ServerBase ServerSeal ServerRekey ServerInit Server ServerSpec ServerSound ServerStore.

Section server.
Context `{A : Aead, Sh : Sha256, HM : Hmac, B64 : Base64, AC : AuthCrypto, JT : JsonText, FC : FederatedCrypto}.
Context `{S1 : Serde SealMetadata, S2 : Serde PendingRekeyMetadata, S3 : Serde Value}.
Context `{S4 : Serde AuditUnsigned, S5 : Serde AuditRecord, S6 : Serde Manifest, S7 : Serde SignedManifest}.
Context {Transit Totp : Type} `{S8 : Serde (State Transit Totp)}.
Notation S := (Service Shamir.Key Transit Totp).
Notation W := (World Transit Totp).
Implicit Types (s : S) (w : W) (d : DurableService.t) (k : Shamir.Key) (h : list Change).

(** * Reachable servers *)

(** A new process initialized its directory, under this barrier key. *)
Definition installed k s : Prop :=
  ∃ b files dir files' s0 w r shares threshold secret plan,
    start b false None files = (dir, files', Ok s0) ∧ initializes r = true ∧ s = (handle_at_mode w r s0).1 ∧
    is_Some (Service.dir s) ∧
    init_options (RequestDispatch.body r) = Ok (shares, threshold, secret) ∧
    prepare_init w (RequestDispatch.now r) shares threshold = Ok plan ∧ pl_key plan = k ∧
    ∀ id bytes, World.operation w = Some id → to_vec (pl_state plan) = Some bytes →
      Binding.digest (DurableService.put_binding (state_put (hex id) bytes)) ≠ zero32.

(** Requests, refused requests and restarts, each with its own failures. *)
Inductive life k : S → S → Prop :=
| life_refl s : life k s s
| life_request w r s s' :
    calm k w r s → initializes r = false → restores r = false → life k (handle_at_mode w r s).1 s' → life k s s'
| life_rejected attempt rejection status message now s s' :
    life k (handle_wire_rejection attempt rejection status message now s).1 s' → life k s s'
| life_restart b files dir files' s s1 s' :
    start b false (Service.dir s) files = (dir, files', Ok s1) → life k s1 s' → life k s s'.

Definition reachable k s : Prop := ∃ s0, installed k s0 ∧ life k s0 s.

(** Reopening with working storage finds these bytes as the state. *)
Definition recovers k s (bytes : list u8) : Prop :=
  ∀ io, io_works io → ∃ disk d,
    DurableService.reopen (H := aead_barrier k) io MAX_OPERATIONS (store_of s) = (disk, Ok d) ∧
    DurableService.get d "system" "state" = Ok (Some bytes).

Lemma recovers_unique k s b1 b2 : recovers k s b1 → recovers k s b2 → b1 = b2.
Proof.
  intros H1 H2. set (io := Io.mk (Ok tt) (Ok tt) (Ok tt) (λ _, Done) (λ _, Some (repeat x00 12))).
  assert (Hio : io_works io) by (split_and!; try done; intros n; by exists (repeat x00 12)).
  destruct (H1 io Hio) as (x1 & d1 & E1 & G1), (H2 io Hio) as (x2 & d2 & E2 & G2). congruence.
Qed.

Context `{!AeadLaws A, !AeadTotal A, !Sha256Laws Sh, !SerdeLaws (State Transit Totp)}.

(** * Histories of states *)
Definition state_bytes h : option (list u8) := entries_of h !! ("system", "state").
Definition serialized (bytes : list u8) : Prop :=
  ∃ state : State Transit Totp, to_vec state = Some bytes ∧ State.schema state = 1%N.
Definition stated h : Prop := h ≠ [] ∧ Forall (writes serialized) h.

Lemma state_bytes_snoc P h c : writes P c → ∃ bytes, state_bytes (h ++ [c]) = Some bytes ∧ P bytes.
Proof.
  intros (Hk & bytes & Hv & HP). exists bytes. split; [|done]. unfold state_bytes. rewrite entries_snoc.
  unfold apply_change. by rewrite Hv, Hk, lookup_insert_eq.
Qed.

Lemma stated_bytes h :
  stated h → ∃ bytes (state : State Transit Totp), state_bytes h = Some bytes ∧ from_slice bytes = Some state ∧ State.schema state = 1%N.
Proof.
  intros [Hne Hall]. destruct h as [|c h _] using rev_ind; [done|]. apply Forall_app in Hall as [_ [Hc _]%Forall_cons].
  destruct (state_bytes_snoc _ h c Hc) as (bytes & Hb & state & Hv & Hsc).
  exists bytes, state. split; [done|]. split; [by apply from_to_vec|done].
Qed.

Lemma moves_bytes P h h' :
  moves P h h' → state_bytes h' = state_bytes h ∨ ∃ bytes, state_bytes h' = Some bytes ∧ P bytes.
Proof.
  intros (cs & -> & Hall). destruct cs as [|c cs _] using rev_ind; [left; by rewrite app_nil_r|right].
  apply Forall_app in Hall as [_ [Hc _]%Forall_cons]. rewrite app_assoc. by apply state_bytes_snoc.
Qed.

Lemma moves_stated P h h' : (∀ bytes, P bytes → serialized bytes) → moves P h h' → stated h → stated h'.
Proof.
  intros HP (cs & -> & Hall) [Hne Hh]. split; [by destruct h|]. apply Forall_app. split; [done|].
  eapply Forall_impl; [exact Hall|]. intros c (Hk & bytes & Hv & Hb). split; [done|]. eauto.
Qed.

Lemma backed_recovers k h s bytes : backed k h s → state_bytes h = Some bytes → recovers k s bytes.
Proof.
  intros Hb Hs io Hio. destruct (kept_reopens (B := aead_barrier k) MAX_OPERATIONS capacity_ok io _ _ (bk_kept _ _ _ Hb) Hio)
    as (disk & d & Hr & Hrun & _). exists disk, d. split; [done|].
  rewrite (running_get (B := aead_barrier k) MAX_OPERATIONS d h "system" "state" Hrun eq_refl eq_refl). by rewrite <-Hs.
Qed.

(** The state in memory is the last of the history. *)
Lemma memory_bytes k h s state :
  sound s → backed k h s → Service.state s = Some state → Service.recovery_required s = false →
  ∃ bytes, state_bytes h = Some bytes ∧ from_slice bytes = Some state.
Proof.
  intros Hs Hb Hst Hr. destruct (proj1 (so_open s Hs) ltac:(by eexists)) as [[k' d] Hd].
  destruct (so_memory s Hs k' d state Hd Hst Hr) as (bytes & Hg & Hf). destruct (bk_open _ _ _ Hb k' d Hd) as [-> Hc].
  exists bytes. split; [|done].
  assert (Hrun : running (B := aead_barrier k) MAX_OPERATIONS d h).
  { destruct Hc as [?|[Hun _]]; [done|]. unfold DurableService.get in Hg. simpl in Hg. by rewrite Hun in Hg. }
  rewrite (running_get (B := aead_barrier k) MAX_OPERATIONS d h "system" "state" Hrun eq_refl eq_refl) in Hg. by injection Hg.
Qed.

Lemma dispatch_schema w state principal namespace method path body now :
  State.schema (dispatch w state principal namespace method path body now).1 = State.schema state.
Proof. unfold dispatch, dispatch_engine. repeat (case_match; simplify_eq/=; try done). Qed.

(** What a request of a server in this state writes is a state again. *)
Lemma candidate_serialized w r k h s bytes : sound s → backed k h s → stated h → candidate w r s bytes → serialized bytes.
Proof.
  intros Hs Hb Hh (Hrq & state & admitted & principal & Hst & Hadm & Hv).
  destruct (stated_bytes h Hh) as (b & state' & Hsb & Hf & Hsc). destruct (memory_bytes k h s state Hs Hb Hst Hrq) as (b' & Hsb' & Hf').
  assert (state' = state) as -> by congruence.
  assert (Hsc' : State.schema admitted = 1%N) by by destruct Hadm.
  destruct Hv as [Hv|Hv]; (eexists; split; [exact Hv|]); [done|by rewrite dispatch_schema].
Qed.

(** * Starting and initializing *)
Lemma load_pending_store fate active (dir dir' : option Dir) r :
  load_pending_rekey fate active dir = (dir', r) → from_option Dir.store ∅ dir' = from_option Dir.store ∅ dir.
Proof.
  unfold load_pending_rekey. intros E. repeat (case_match; simplify_eq/=; try done); by destruct dir.
Qed.

Lemma start_closed b dir files dir' files' s :
  start b false dir files = (dir', files', Ok s) →
  sound s ∧ store_of s = from_option Dir.store ∅ dir ∧ Service.durable s = None ∧ (dir = None → Service.dir s = None).
Proof.
  unfold start. destruct (check_boot b false dir); [|done]. destruct (start_audit _ _ _ _ _) as [files1 started].
  match goal with |- context [match ?x with Ok _ => _ | Err _ => _ end] => destruct x as [[audit seal]|]; [|done] end.
  destruct (load_pending_rekey _ _ _) as [dir1 pending] eqn:El.
  match goal with |- context [match ?x with Ok _ => _ | Err _ => _ end] => destruct x as [[p nonce]|]; [|done] end.
  intros [= <- <- <-]. split; [by apply sound_locked|]. split; [by eapply load_pending_store|]. split; [done|].
  intros ->. simpl. by injection El.
Qed.

Lemma start_backed b files dir files' k h s s1 :
  backed k h s → start b false (Service.dir s) files = (dir, files', Ok s1) → sound s1 ∧ backed k h s1.
Proof.
  intros [Hk _] (Hs & Hst & Hd & _)%start_closed. split; [done|]. split; [by rewrite Hst|by rewrite Hd].
Qed.

(** The staged store holds the first state and nothing else. *)
Lemma stage_kept w (plan : Plan) dir :
  stage_dir w plan = Ok dir →
  (∀ id bytes, World.operation w = Some id → to_vec (pl_state plan) = Some bytes →
     Binding.digest (DurableService.put_binding (state_put (hex id) bytes)) ≠ zero32) → State.schema (pl_state plan) = 1%N →
  ∃ h, kept (B := aead_barrier (pl_key plan)) MAX_OPERATIONS (Dir.store dir) h ∧ stated h.
Proof.
  unfold stage_dir. destruct (negb _); [done|].
  destruct (DurableService.create_new _ _ _) as [disk0 [d0|]] eqn:Ec; [|done]. cbn [snd map_err].
  destruct (create_running (B := aead_barrier (pl_key plan)) MAX_OPERATIONS capacity_ok _ _ _ Ec) as (Hrun & _ & Htaken).
  destruct (to_vec (pl_state plan)) as [bytes|] eqn:Ev; [|done]. cbn [ok_or]. destruct (_ <? _)%N; [done|].
  destruct (World.operation w) as [id|]; [|done]. cbn [ok_or].
  destruct (Secret_new bytes) as [value|] eqn:Es; [|done]. cbn [map_err].
  assert (value = bytes) as ->. { unfold Secret_new in Es. destruct bytes; [done|]. case_match; congruence. }
  destruct (PutRequest.new _ _ _ _ _ _) as [q|] eqn:Eq; [|done]. cbn [map_err].
  assert (q = state_put (hex id) bytes) as ->. { unfold PutRequest.new in Eq. case_match; by simplify_eq. }
  destruct (DurableService.put _ _ d0) as [d1 r] eqn:Ep. intros Hr Hdigest Hschema.
  assert (Hok : is_ok r = true) by by destruct r. assert (Hdir : Dir.store dir = DurableService.disk d1).
  { destruct r; [|done]. simpl in Hr. destruct (seal_bytes _ _ _); [|done]. destruct (World.seal_fate w); by simplify_eq. }
  assert (Hrec : DurableService.reconciliation d0 = ∅ ∧ DurableService.ledger d0 = ∅).
  { unfold DurableService.create_new in Ec. repeat (case_match; try done). by injection Ec as <- <-. }
  destruct Hrec as [Hrec Hled].
  destruct (put_consistent (B := aead_barrier (pl_key plan)) MAX_OPERATIONS capacity_ok (World.io_init w) (state_put (hex id) bytes) d0 [] d1 r (or_introl Hrun)) as [[_ Hno]|Hc].
  - simpl. by rewrite Es.
  - unfold no_collision. rewrite bool_decide_false, bool_decide_true by (eauto || (rewrite Htaken; apply not_elem_of_empty)). done.
  - exact Ep.
  - apply put_cases in Ep. destruct Ep as [e|g ref Hrep|d' ref|d' g ref record Hu He Hl]; try done.
    + rewrite Hled, lookup_empty in Hrep. by destruct Hrep.
    + by destruct (Hno g ref).
  - eexists. split; [rewrite Hdir; exact (consistent_kept MAX_OPERATIONS (Up d1) _ Hc)|]. split; [done|].
    repeat constructor. exists bytes. split; [done|]. by exists (pl_state plan).
Qed.

Lemma prepare_schema w now shares threshold (plan : Plan) :
  prepare_init w now shares threshold = Ok plan → State.schema (pl_state plan) = 1%N.
Proof. unfold prepare_init. intros E. by repeat (case_match; simplify_eq/=; try done). Qed.

Lemma init_answer_store w plan secret dir answer dir' :
  init_answer w plan secret dir = Ok (answer, dir') → Dir.store dir' = Dir.store dir.
Proof. unfold init_answer. intros E. repeat (case_match; simplify_eq/=; try done). Qed.

(** Initialization publishes the staged store, or nothing. *)
Lemma initialize_backed w body now fp s s' res shares threshold secret plan :
  Service.dir s = None → Service.durable s = None → initialize w body now fp s = (s', res) →
  init_options body = Ok (shares, threshold, secret) → prepare_init w now shares threshold = Ok plan →
  (∀ id bytes, World.operation w = Some id → to_vec (pl_state plan) = Some bytes →
     Binding.digest (DurableService.put_binding (state_put (hex id) bytes)) ≠ zero32) →
  is_Some (Service.dir s') → ∃ h, backed (pl_key plan) h s' ∧ stated h.
Proof.
  intros Hdir Hdur. unfold initialize. destruct (Service.ha s).
  { intros [= <- <-] _ _ _ [? ?]. congruence. }
  intros Hi Ho Hp Hdigest [x Hx]. rewrite Ho in Hi. unfold Service.initialized, initialized_dir in Hi. rewrite Hdir, Hp in Hi.
  cbn [bool_decide] in Hi. rewrite bool_decide_false in Hi by (by intros [? ?]).
  destruct (stage_dir w plan) as [staged|] eqn:Est; [|injection Hi as <- <-; congruence].
  destruct (init_answer w plan secret staged) as [[answer dir]|] eqn:Ean; [|injection Hi as <- <-; congruence].
  destruct (stage_kept w plan staged Est Hdigest (prepare_schema _ _ _ _ _ Hp)) as (h & Hk & Hst). rewrite <-(init_answer_store _ _ _ _ _ _ Ean) in Hk.
  exists h. split; [|done]. unfold audited in Hi. destruct (audit_event _ _ _ _ _) as [a [[]|]]; cbn [is_ok] in Hi.
  2:{ injection Hi as <- <-. simpl in Hx. congruence. }
  unfold publish_stage in Hi. cbn [Service.dir Service.set_audit] in Hi. rewrite Hdir in Hi.
  destruct (World.publish_fate w) as [|[|]]; injection Hi as <- <-; simpl in Hx; [..|congruence|]; by split.
Qed.

Lemma backed_audit k h a s : backed k h s → backed k h (Service.set_audit a s).
Proof. by intros []. Qed.
Lemma backed_recovery k h b s : backed k h s → backed k h (Service.set_recovery b s).
Proof. by intros []. Qed.

Lemma installed_backed k s : installed k s → sound s ∧ ∃ h, backed k h s ∧ stated h.
Proof.
  intros (b & files & dir & files' & s0 & w & r & shares & threshold & secret & plan & Hstart & Hi & -> & Hdir & Ho & Hp & <- & Hdigest).
  destruct (start_closed _ _ _ _ _ _ Hstart) as (Hs & _ & Hd & Hnone). specialize (Hnone eq_refl).
  split; [apply handle_sound; [done|by rewrite Hi]|].
  revert Hdir. unfold handle_at_mode. destruct r as [method path namespace token body now forward].
  unfold initializes in Hi. cbn [RequestDispatch.path RequestDispatch.method RequestDispatch.body RequestDispatch.now] in *.
  destruct (audited "request" _ now None s0) as [sa ok] eqn:Ea.
  assert (∃ a, sa = Service.set_audit a s0) as [a ->].
  { unfold audited in Ea. destruct (audit_event _ _ _ _ _) as [a r]. injection Ea as <- _. by exists a. }
  destruct ok; [|simpl; rewrite Hnone; by intros [? ?]].
  rewrite Hi. destruct (_ || _).
  { unfold audited. destruct (audit_event _ _ _ _ _) as [a' [[]|]]; simpl; rewrite Hnone; by intros [? ?]. }
  destruct (initialize _ _ _ _ _) as [s1 [response told]] eqn:E. intros Hdir.
  assert (Hb : is_Some (Service.dir s1) → ∃ h, backed (pl_key plan) h s1 ∧ stated h).
  { eapply initialize_backed; [| |exact E|exact Ho|exact Hp|exact Hdigest]; done. }
  destruct told; [exact (Hb Hdir)|]. unfold audited in Hdir |- *. destruct (audit_event _ _ _ _ _) as [a' [[]|]]; simpl in *;
    destruct (Hb Hdir) as (h & Hb' & Hst); exists h; split; try done; auto using backed_audit, backed_recovery.
Qed.

Lemma rejection_keeps attempt rejection status message now k h s :
  sound s → backed k h s →
  sound (handle_wire_rejection attempt rejection status message now s).1 ∧
  backed k h (handle_wire_rejection attempt rejection status message now s).1.
Proof.
  intros Hs Hb. unfold handle_wire_rejection, audited. destruct (audit_event _ _ _ _ _) as [a [[]|]]; simpl;
    [|split; [by apply sound_set_audit|by apply backed_audit]].
  destruct (audit_event _ _ _ _ _) as [a' [[]|]]; simpl; (split;
    [repeat first [apply sound_fence|apply sound_set_audit]; done|repeat first [apply backed_recovery|apply backed_audit]; done]).
Qed.

Lemma life_backed k s s' :
  life k s s' → ∀ h, sound s → backed k h s → stated h → sound s' ∧ ∃ h', backed k h' s' ∧ stated h' ∧ h `prefix_of` h'.
Proof.
  induction 1 as [s|w r s s' Hc Hi Hr _ IH|attempt rejection status message now s s' _ IH|b files dir files' s s1 s' Hst _ IH];
    intros h Hs Hb Hh.
  - split; [done|]. by exists h.
  - destruct (handle_backed w r k h s Hs Hb Hc Hi Hr) as (h1 & Hb1 & Hm).
    destruct (IH h1) as (Hs' & h' & Hb' & Hh' & Hp).
    + apply handle_sound; [done|]. intros _. apply Hc.
    + done.
    + eapply moves_stated; [|done|done]. intros bytes. by eapply candidate_serialized.
    + split; [done|]. exists h'. split_and!; [done|done|]. destruct Hm as (cs & -> & _). etrans; [by apply prefix_app_r|done].
  - destruct (rejection_keeps attempt rejection status message now k h s Hs Hb). by apply IH.
  - destruct (start_backed _ _ _ _ _ _ _ _ Hb Hst). by apply IH.
Qed.

Lemma reachable_backed k s : reachable k s → sound s ∧ ∃ h, backed k h s ∧ stated h.
Proof.
  intros (s0 & (Hs0 & h0 & Hb0 & Hh0)%installed_backed & Hl). destruct (life_backed k s0 s Hl h0 Hs0 Hb0 Hh0) as (Hs & h & Hb & Hh & _).
  split; [done|]. by exists h.
Qed.

(** C5: The committed state survives.  Install a single-node server and run it: any
    requests but those that restore a backup, with any failure of any of their writes,
    wire rejections, seals and unseals with right and wrong keys, compactions, rekeys,
    restarts, where identifiers drawn are fresh, hashes do not collide, and a wrong
    key opens nothing ([calm]).  (A restore replaces three files one by one, and one
    that fails between them can leave a set that is refused on reopening.)  At every
    moment the data directory recovers to one well-formed state under the barrier key
    of the installation, and while the server is unsealed and does not demand
    recovery that state is the one it serves from. *)
Theorem server_state_survives k s :
  reachable k s →
  ∃ bytes state, recovers k s bytes ∧ from_slice bytes = Some state ∧
    ∀ m, Service.state s = Some m → Service.recovery_required s = false → m = state.
Proof.
  intros (Hs & h & Hb & Hh)%reachable_backed. destruct (stated_bytes h Hh) as (bytes & state & Hsb & Hf & _).
  exists bytes, state. split_and!; [by eapply backed_recovers|done|]. intros m Hm Hr.
  destruct (memory_bytes k h s m Hs Hb Hm Hr) as (bytes' & Hsb' & Hf'). congruence.
Qed.

(** C6: A request takes effect completely or not at all.  On every reachable server,
    after a request that neither initializes nor restores a backup, whatever of its
    writes failed, the directory recovers to the state it recovered to before, to that
    state with the use of the token counted, or to the state the dispatch of the
    request computed from that; and while the server does not demand recovery it is
    the state in memory. *)
Theorem server_request_atomic k w r s before :
  reachable k s → calm k w r s → initializes r = false → restores r = false → recovers k s before →
  ∃ after, recovers k (handle_at_mode w r s).1 after ∧ (after = before ∨ candidate w r s after) ∧
    ∀ m, Service.state (handle_at_mode w r s).1 = Some m → Service.recovery_required (handle_at_mode w r s).1 = false →
      from_slice after = Some m.
Proof.
  intros (Hs & h & Hb & Hh)%reachable_backed Hc Hi Hr Hbefore.
  destruct (handle_backed w r k h s Hs Hb Hc Hi Hr) as (h' & Hb' & Hm).
  assert (Hs' : sound (handle_at_mode w r s).1) by (apply handle_sound; [done|intros _; apply Hc]).
  assert (Hh' : stated h') by (eapply moves_stated; [|done|done]; intros bytes; by eapply candidate_serialized).
  destruct (stated_bytes h Hh) as (bytes & state & Hsb & _). destruct (stated_bytes h' Hh') as (bytes' & state' & Hsb' & _).
  exists bytes'. split_and!; [by eapply backed_recovers| |].
  - destruct (moves_bytes _ _ _ Hm) as [E|(b & E & Hcand)]; [left|right; congruence].
    pose proof (backed_recovers k h s bytes Hb Hsb) as Hrec. assert (bytes' = bytes) as -> by congruence.
    by apply (recovers_unique k s).
  - intros m Hst Hrq. destruct (memory_bytes k h' _ m Hs' Hb' Hst Hrq) as (b & E & Hf). congruence.
Qed.
End server.

(** * A concrete installation *)
From S2P Require Import AuthSpec AuditTheorems AuditToy ServerToy.
Import ServerToy ServerDemo.

Lemma demo_installed : installed x42 initialized.
Proof.
  exists boot, (AuditFiles.mk None ∅), None, (start (Transit := unit) (Totp := unit) boot false None (AuditFiles.mk None ∅)).1.2, started, (world x01 x02 io), init_request, x02, x02, None.
  destruct plan as [p|] eqn:Ep; [|vm_compute in Ep; discriminate Ep]. exists p.
  assert (Hp : prepare_init (world x01 x02 io) 10 x02 x02 = Ok p).
  { unfold plan in Ep. destruct (prepare_init _ _ _ _) as [p'|]; [|discriminate Ep]. by injection Ep as ->. }
  assert (Hf : pl_key <$> plan = Some x42 ∧ pl_state <$> plan = Some first) by (split; vm_compute; reflexivity).
  rewrite Ep in Hf. destruct Hf as [Hk Hs]. cbn in Hk, Hs. apply (inj Some) in Hk, Hs.
  split_and!; [vm_compute; reflexivity|vm_compute; reflexivity|vm_compute; reflexivity|eexists; vm_compute; reflexivity|
    vm_compute; reflexivity|exact Hp|exact Hk|].
  intros id bytes Hid Hb. rewrite Hs in Hb. apply (inj Some) in Hid as <-.
  assert (Hv : to_vec first = Some [x00]) by (vm_compute; reflexivity). rewrite Hv in Hb. apply (inj Some) in Hb as <-. vm_compute. discriminate.
Qed.

Lemma calm_sealed k id use commit r (s : Service Shamir.Key unit unit) :
  Service.state s = None → Service.durable s = None → hex [id] ≠ hex [use] → opens_only k s → calm k (world id use commit) r s.
Proof.
  intros Hst Hd Hne Ho. split; [split| exact Ho| |].
  - intros i _ k' d E. by rewrite Hd in E.
  - intros i _ k' d E. by rewrite Hd in E.
  - intros i i' Hi Hi'. apply (inj Some) in Hi as <-, Hi' as <-. exact Hne.
  - intros i bytes _ (_ & state & _ & _ & E & _). by rewrite Hst in E.
  - intros a i bytes _ (_ & state & _ & _ & E & _). by rewrite Hst in E.
Qed.

Lemma demo_reachable : reachable x42 opened.
Proof.
  exists initialized. split; [exact demo_installed|].
  apply (life_request (A := cipher) x42 (world x03 x04 io) (unseal_request (share 1)) initialized opened);
    [apply calm_sealed; [reflexivity|reflexivity|vm_compute; discriminate|apply opens_only_toy; vm_compute; reflexivity]
    |vm_compute; reflexivity|vm_compute; reflexivity|].
  replace (handle_at_mode (world x03 x04 io) (unseal_request (share 1)) initialized).1 with half by (vm_compute; reflexivity).
  apply (life_request (A := cipher) x42 (world x03 x04 io) (unseal_request (share 0)) half opened);
    [apply calm_sealed; [reflexivity|reflexivity|vm_compute; discriminate|apply opens_only_toy; vm_compute; reflexivity]
    |vm_compute; reflexivity|vm_compute; reflexivity|].
  replace (handle_at_mode (world x03 x04 io) (unseal_request (share 0)) half).1 with opened by (vm_compute; reflexivity).
  apply life_refl.
Qed.

(** The server after its initialization and two unseal shares serves from the first state. *)
Lemma server_state_survives_witness :
  Service.state opened = Some first ∧ Service.recovery_required opened = false ∧
  ∃ bytes state, recovers x42 opened bytes ∧ from_slice bytes = Some state ∧
    ∀ m, Service.state opened = Some m → Service.recovery_required opened = false → m = state.
Proof.
  split; [vm_compute; reflexivity|]. split; [vm_compute; reflexivity|]. exact (server_state_survives (A := cipher) x42 opened demo_reachable).
Defined.

(** A write whose third file operation fails half-way. *)
Definition broken : IoTrace :=
  Io.mk (Ok tt) (Ok tt) (Ok tt) (λ n, match n with 2 => Fails 5 | _ => Done end) (λ n, Some (repeat (U8.wrap (N.of_nat n)) 12)).

Lemma demo_admission (admitted : State unit unit) principal :
  admission "hvs.root" 11 first admitted principal →
  admitted = first ∧ principal = Principal.mk "hvs.root" <$> AuthState.tokens AuthDemo.installed !! "hvs.root".
Proof.
  intros [E|auth p E]; [discriminate E|].
  assert (Ha : AuthState.authenticate "hvs.root" 11 (State.auth first) =
    (State.auth first, (λ t, Ok (Principal.mk "hvs.root" t)) (default (AuthToken.mk "" "" ∅ false None 0 None None 0 false None "" None false)
       (AuthState.tokens AuthDemo.installed !! "hvs.root")))) by (vm_compute; reflexivity).
  rewrite Ha in E. injection E as <- <-. split; vm_compute; reflexivity.
Qed.

Lemma demo_candidate commit bytes :
  candidate (world x05 x06 commit) write_request opened bytes → bytes = [x00] ∨ bytes = [x01].
Proof.
  intros (_ & state & admitted & principal & Hst & Hadm & Hv).
  assert (E : Service.state opened = Some first) by (vm_compute; reflexivity). rewrite E in Hst. apply (inj Some) in Hst as <-.
  apply demo_admission in Hadm as [-> ->].
  assert (H1 : to_vec first = Some [x00]) by (vm_compute; reflexivity).
  assert (H2 : to_vec second = Some [x01]) by (vm_compute; reflexivity).
  destruct Hv as [Hv|Hv]; [rewrite H1 in Hv; left; congruence|right].
  change (to_vec second = Some bytes) in Hv. rewrite H2 in Hv. congruence.
Qed.

Definition opened_store : DurableService.t := Eval vm_compute in
  match Service.durable opened with Some (_, d) => d | None => DurableService.mk ∅ (Snapshot.mk 0 ∅ None) ∅ ∅ 0 0 0 0 false end.

Lemma demo_calm commit : calm x42 (world x05 x06 commit) write_request opened.
Proof.
  assert (Hopen : ∀ a k d, Service.durable (Service.set_audit a opened) = Some (k, d) → k = x42 ∧ d = opened_store).
  { intros a k d. change (Service.durable (Service.set_audit a opened)) with (Some ((x42 : Shamir.Key), opened_store)). intros [= <- <-]. done. }
  split; [split| | |].
  - intros id Hid k d [-> ->]%(Hopen (Service.audit opened)). apply (inj Some) in Hid as <-. vm_compute. reflexivity.
  - intros id Hid k d [-> ->]%(Hopen (Service.audit opened)). apply (inj Some) in Hid as <-. vm_compute. reflexivity.
  - intros i i' Hi Hi'. apply (inj Some) in Hi as <-, Hi' as <-. vm_compute. discriminate.
  - apply opens_only_toy. vm_compute. reflexivity.
  - intros id bytes Hid Hc k d [-> ->]%(Hopen (Service.audit opened)). apply (inj Some) in Hid as <-.
    apply demo_candidate in Hc as [->| ->]; vm_compute; reflexivity.
  - intros a id bytes Hid Hc k d Hd. apply (inj Some) in Hid as <-.
    assert (Ha : (admit_token (world x05 x06 commit) "hvs.root" 11 (Service.set_audit a opened)).1 = Service.set_audit a opened)
      by (vm_compute; reflexivity).
    change (RequestDispatch.token write_request) with "hvs.root" in Hd. change (RequestDispatch.now write_request) with 11%N in Hd.
    rewrite Ha in Hd. apply Hopen in Hd as [-> ->]. apply demo_candidate in Hc as [->| ->]; vm_compute; reflexivity.
Qed.

Lemma demo_recovers : recovers x42 opened [x00].
Proof.
  destruct (reachable_backed (A := cipher) x42 opened demo_reachable) as (Hs & h & Hb & _).
  destruct (memory_bytes (A := cipher) x42 h opened first Hs Hb) as (bytes & Hsb & Hf); [vm_compute; reflexivity|vm_compute; reflexivity|].
  assert (bytes = [x00]) as ->; [|by eapply backed_recovers]. clear - Hf.
  destruct bytes as [|b [|b' l]]; [discriminate Hf| |discriminate Hf].
  change ([first; second] !! N.to_nat (U8.to_N b) = Some first) in Hf. f_equal. apply to_N_inj.
  destruct (N.to_nat (U8.to_N b)) as [|[|n]] eqn:E; [change (U8.to_N x00) with 0%N; lia| |discriminate Hf].
  assert (Hne : bool_decide (second = first) = false) by (vm_compute; reflexivity). apply bool_decide_eq_false in Hne.
  change (Some second = Some first) in Hf. congruence.
Qed.

(** The failed write leaves the server demanding recovery, and the directory at the
    first state or at the second. *)
Lemma server_request_atomic_witness :
  Service.recovery_required (handle_at_mode (world x05 x06 broken) write_request opened).1 = true ∧
  ∃ after, recovers x42 (handle_at_mode (world x05 x06 broken) write_request opened).1 after ∧
    (after = [x00] ∨ candidate (world x05 x06 broken) write_request opened after).
Proof.
  split; [vm_compute; reflexivity|].
  destruct (server_request_atomic (A := cipher) x42 (world x05 x06 broken) write_request opened [x00] demo_reachable
    (demo_calm broken) eq_refl eq_refl demo_recovers) as (after & Hr & Hc & _). exists after. split; [exact Hr|exact Hc].
Defined.

(** * Unsealing: a threshold of the issued shares opens the server with the
    committed state, fewer leave it sealed. *)

Notation indexes := (fmap (M:=list) SecretShare.index).

(** * Key material as text *)
Lemma hex_pair_digits b :
  hex_pair (DurableCodec.hex_digit (N.shiftr (U8.to_N b) 4)) (DurableCodec.hex_digit (N.land (U8.to_N b) 15)) = Some (U8.to_N b).
Proof. by destruct b; vm_compute. Qed.

Lemma decode_pairs_hex bytes : decode_pairs (hex bytes) = Some bytes.
Proof.
  induction bytes as [|b bytes IH]; [done|]. unfold hex in *. simpl. fold (hex_pairs bytes).
  rewrite hex_pair_digits. simpl. rewrite IH. simpl. unfold U8.wrap, U8.to_N. by destruct b.
Qed.

Lemma decode_hex_hex bytes : decode_hex (hex bytes) = Some bytes.
Proof.
  unfold decode_hex. destruct (hex_pairs_spec bytes) as [Hl _]. change (hex_pairs bytes) with (hex bytes) in Hl. rewrite Hl.
  rewrite Nat.mul_comm, Nat.Div0.mod_mul. simpl. apply decode_pairs_hex.
Qed.

Lemma decode_key_hex `{Base64} bytes :
  0 < length bytes ≤ 512 → decode_key_material (hex bytes) = Ok bytes.
Proof.
  intros Hb. unfold decode_key_material. destruct (hex_pairs_spec bytes) as [Hl Ha]. change (hex_pairs bytes) with (hex bytes) in Hl, Ha.
  assert (hex bytes ≠ "") as Hne by (intros E; rewrite E in Hl; simpl in Hl; lia).
  rewrite bool_decide_false by done. rewrite Hl, (proj2 (Nat.ltb_ge _ _)) by lia. cbn [orb].
  rewrite Nat.mul_comm, Nat.Div0.mod_mul. cbn [Nat.eqb andb].
  change (str_all is_ascii_hexdigit (hex bytes)) with (str_all (λ c, is_ascii_digit c || byte_in 65 70 c || byte_in 97 102 c) (hex bytes)).
  by rewrite Ha, decode_hex_hex.
Qed.

(** * Collected shares *)
Lemma values_by_index (m : Shares) (l : list N) :
  (∀ i sh, m !! i = Some sh → U8.to_N (SecretShare.index sh) = i) → (∀ i, i ∈ l → is_Some (m !! i)) →
  (λ sh, U8.to_N (SecretShare.index sh)) <$> omap (λ i, m !! i) l = l.
Proof.
  intros Hm. induction l as [|i l IH]; intros Hl; [done|]. simpl. destruct (Hl i ltac:(left)) as [sh Hsh]. rewrite Hsh. csimpl.
  rewrite (Hm i sh Hsh), IH; [done|]. intros j Hj. apply Hl. by right.
Qed.

Lemma collected_values (m : Shares) :
  (∀ i sh, m !! i = Some sh → U8.to_N (SecretShare.index sh) = i) →
  NoDup (indexes (btree_values m)) ∧ length (btree_values m) = size m.
Proof.
  intros Hm. pose proof (values_by_index m (btree_keys m) Hm ltac:(intros i; apply elem_of_btree_keys)) as Hv.
  change (omap _ (btree_keys m)) with (btree_values m) in Hv. split.
  - apply (NoDup_fmap_1 U8.to_N). rewrite <-list_fmap_compose. unfold compose. rewrite Hv. apply btree_keys_NoDup.
  - rewrite <-(length_fmap (λ sh, U8.to_N (SecretShare.index sh))), Hv. by rewrite <-btree_pairs_keys, length_fmap, btree_pairs_length.
Qed.

Lemma dealt_wf rand secret total threshold shares sh :
  split_secret rand secret total threshold = Ok shares → sh ∈ shares →
  share_wf sh ∧ SecretShare.total sh = total ∧ SecretShare.threshold sh = threshold.
Proof.
  intros (Hpar & _ & ->)%split_secret_Ok (b & -> & Hb)%list_elem_of_fmap.
  destruct (deal_fields (λ j, default [] (rand j (u8_nat threshold - 1))) 0 secret b) as (Et & Eth & Ei & El).
  destruct (elem_of_blank _ _ _ Hb) as (Ht & Hth & Hv & _).
  split; [split|by rewrite Et, Eth].
  - congruence.
  - by rewrite Et, Eth, Ht, Hth.
  - rewrite Et, Ei, Ht. unfold blank_shares in Hb. apply list_elem_of_fmap in Hb as (i & -> & Hi%elem_of_seq).
    pose proof (u8_nat_bound total). assert (u8_nat (U8.wrap (N.of_nat i)) = i) as Hw by (unfold u8_nat; rewrite to_N_wrap; lia).
    simpl. rewrite Hw. lia.
Qed.

(** The shares collected from a list. *)
Definition share_index (sh : SecretShare) : N := U8.to_N (SecretShare.index sh).
Definition gathered (l : list SecretShare) : Shares := foldl (λ m sh, <[share_index sh := sh]> m) ∅ l.

Lemma gathered_snoc l sh : gathered (l ++ [sh]) = <[share_index sh := sh]> (gathered l).
Proof. unfold gathered. by rewrite foldl_snoc. Qed.

Lemma gathered_lookup l i sh : gathered l !! i = Some sh → sh ∈ l ∧ share_index sh = i.
Proof.
  revert i sh. induction l as [|x l IH] using rev_ind; intros i sh; [unfold gathered; simpl; by rewrite lookup_empty|].
  rewrite gathered_snoc. intros [[<- <-]|[_ Hi]]%lookup_insert_Some; [set_solver|]. apply IH in Hi as [? ?]. set_solver.
Qed.

Lemma gathered_fresh l sh : NoDup (indexes (l ++ [sh])) → gathered l !! share_index sh = None.
Proof.
  intros Hnd. destruct (gathered l !! share_index sh) as [sh'|] eqn:E; [|done]. exfalso.
  apply gathered_lookup in E as [Hin Hidx]. rewrite fmap_app, NoDup_app in Hnd. destruct Hnd as (_ & Hd & _).
  apply (Hd (SecretShare.index sh')); [by apply list_elem_of_fmap_2|]. apply list_elem_of_fmap. exists sh.
  split; [|set_solver]. by apply to_N_inj in Hidx.
Qed.

Lemma gathered_size l : NoDup (indexes l) → size (gathered l) = length l.
Proof.
  induction l as [|x l IH] using rev_ind; intros Hnd; [done|]. rewrite gathered_snoc, map_size_insert_None by by apply gathered_fresh.
  rewrite IH, length_app; [simpl; lia|]. rewrite fmap_app, NoDup_app in Hnd. apply Hnd.
Qed.

Section unseal.
Context `{A : Aead, Sh : Sha256, HM : Hmac, B64 : Base64, AC : AuthCrypto, JT : JsonText, FC : FederatedCrypto}.
Context `{S1 : Serde SealMetadata, S2 : Serde PendingRekeyMetadata, S3 : Serde Value}.
Context `{S4 : Serde AuditUnsigned, S5 : Serde AuditRecord, S6 : Serde Manifest, S7 : Serde SignedManifest}.
Context {Transit Totp : Type} `{S8 : Serde (State Transit Totp)}.
Notation S := (Service Shamir.Key Transit Totp).
Notation W := (World Transit Totp).
Implicit Types (s : S) (w : W) (d : DurableService.t) (k : Shamir.Key) (h : list Change).

(** The random draws have the sizes of the arrays they fill. *)
Record drawn w : Prop := {
  dr_shares i n l : World.share_bytes w i n = Some l → length l = n;
  dr_seal key : World.seal_key w = Some key → length key = 32;
  dr_barrier key : World.barrier_key w = Some key → length key = 32;
  dr_nonce n : World.wrap_nonce w = Some n → length n = 12;
}.

(** A seal with its shares, from an initialization or from a rekey of a barrier key. *)
Inductive issued w : SealMetadata → list SecretShare → list u8 → Prop :=
| issued_init now total threshold plan key :
    prepare_init w now total threshold = Ok plan → World.barrier_key w = Some key → issued w (pl_seal plan) (pl_shares plan) key
| issued_rekey rekey old key next shares :
    length key = 32 → next_seal w rekey old key = Ok (next, shares) → issued w next shares key.

(** One share posted to [sys/unseal], and one after the other. *)
Definition offer w (sh : SecretShare) s : S := (unseal w (Json.object [("key", VString (hex (encode sha256 sh)))]) s).1.
Definition offer_all w (shares : list SecretShare) s : S := foldl (λ s sh, offer w sh s) s shares.

Context `{!AeadLaws A, !AeadTotal A, !Sha256Laws Sh, !Base64Laws, !SerdeLaws (State Transit Totp)}.

(** What an issued seal and its shares satisfy. *)
Lemma issued_facts w seal shares key :
  drawn w → issued w seal shares key →
  SealMetadata.share_format seal = "shamir-v1" ∧ 1 ≤ u8_nat (SealMetadata.secret_threshold seal) ∧
  (∀ sh, sh ∈ shares → share_wf sh ∧ SecretShare.total sh = SealMetadata.secret_shares seal
                       ∧ SecretShare.threshold sh = SealMetadata.secret_threshold seal) ∧
  ∃ seal_key wrapped,
    (∀ sel, (∀ sh, sh ∈ sel → sh ∈ shares) → NoDup (indexes sel) → u8_nat (SealMetadata.secret_threshold seal) ≤ length sel →
       combine_shares sel = Ok seal_key) ∧
    b64_decode (SealMetadata.wrapped_barrier_key seal) = Some wrapped ∧
    unwrap_barrier_key seal_key (SealMetadata.associated_data seal) wrapped = Ok key.
Proof.
  intros [Hsh Hsk Hbk Hn] Hi.
  assert (Hgen : ∀ seal_key total threshold shares seal wrapped,
    World.seal_key w = Some seal_key → split_secret (World.share_bytes w) seal_key total threshold = Ok shares →
    wrap_barrier_key (World.wrap_nonce w) seal_key (SealMetadata.associated_data seal) key = Ok wrapped → length key = 32 →
    SealMetadata.secret_shares seal = total → SealMetadata.secret_threshold seal = threshold →
    1 ≤ u8_nat threshold ∧
    (∀ sh, sh ∈ shares → share_wf sh ∧ SecretShare.total sh = total ∧ SecretShare.threshold sh = threshold) ∧
    ∃ seal_key wrapped',
      (∀ sel, (∀ sh, sh ∈ sel → sh ∈ shares) → NoDup (indexes sel) → u8_nat threshold ≤ length sel → combine_shares sel = Ok seal_key) ∧
      b64_decode (b64_encode wrapped) = Some wrapped' ∧
      unwrap_barrier_key seal_key (SealMetadata.associated_data seal) wrapped' = Ok key).
  { intros seal_key total threshold shares0 seal0 wrapped Hk Hs Hw Hlen <- <-.
    split; [by apply split_secret_Ok in Hs as [[? _] _]|]. split; [intros sh Hin; by eapply dealt_wf|].
    exists seal_key, wrapped. split_and!.
    - intros sel Hsel Hnd Hle. eapply combine_dealt; [exact Hsh|by apply Hsk|exact Hs|exact Hsel|exact Hnd|exact Hle].
    - apply b64_decode_encode.
    - eapply unwrap_wrapped; [done|exact Hn|exact Hlen|exact Hw]. }
  destruct Hi as [now total threshold plan key Hp Hkey|rekey old key next shares Hlen Hnx].
  - unfold prepare_init in Hp. rewrite Hkey in Hp. destruct (World.seal_key w) as [seal_key|] eqn:Ek; [|done]. cbn [ok_or] in Hp.
    destruct (split_secret _ _ _ _) as [generated|] eqn:Es; [|done]. cbn [map_err] in Hp.
    destruct (wrap_barrier_key _ _ _ _) as [wrapped|] eqn:Ew; [|done]. cbn [map_err] in Hp.
    destruct (SealMetadata.validate _); [|done]. cbn [map_err] in Hp. destruct (unbound_key key); [|done]. cbn [ok_or] in Hp.
    destruct (AuthState.bootstrap _ _) as [[auth root]|]; [|done]. cbn [map_err] in Hp. destruct (World.cluster w); [|done].
    cbn [ok_or] in Hp. injection Hp as <-. split; [done|]. simpl.
    eapply (Hgen seal_key total threshold generated (SealMetadata.mk 1 1 "shamir-v1" total threshold "") wrapped); eauto.
  - unfold next_seal in Hnx. destruct (World.seal_key w) as [seal_key|] eqn:Ek; [|done]. cbn [ok_or] in Hnx.
    destruct (split_secret _ _ _ _) as [generated|] eqn:Es; [|done]. cbn [map_err] in Hnx.
    destruct (checked_add _ _) as [g|]; [|done]. cbn [ok_or] in Hnx.
    destruct (wrap_barrier_key _ _ _ _) as [wrapped|] eqn:Ew; [|done]. cbn [map_err] in Hnx. injection Hnx as <- <-. split; [done|]. simpl.
    eapply (Hgen seal_key _ _ generated (SealMetadata.mk 1 g "shamir-v1" (RekeyState.new_shares rekey) (RekeyState.new_threshold rekey) "") wrapped); eauto.
Qed.

Lemma collect_share seal sh (provided : Shares) :
  SealMetadata.share_format seal = "shamir-v1" → share_wf sh → SecretShare.total sh = SealMetadata.secret_shares seal →
  SecretShare.threshold sh = SealMetadata.secret_threshold seal → provided !! share_index sh = None →
  collect_seal_key sha256 seal (hex (encode sha256 sh)) provided =
    (<[share_index sh := sh]> provided,
     if size (<[share_index sh := sh]> provided) <? u8_nat (SealMetadata.secret_threshold seal) then Ok None
     else map_ok Some (combine_shares (take (u8_nat (SealMetadata.secret_threshold seal))
                                         (btree_values (<[share_index sh := sh]> provided))))).
Proof.
  intros Hf Hwf Ht Hth Hnone. unfold collect_seal_key.
  assert (Hlen : length (encode sha256 sh) = 43).
  { unfold encode. rewrite !length_app, length_take. unfold share_checksum. rewrite (sha256_length _), (wf_value sh Hwf). done. }
  rewrite decode_key_hex by (rewrite Hlen; lia). rewrite Hf, bool_decide_false by done.
  rewrite (proj1 (share_codec sha256 sh [] (λ b, sha256_length b)) Hwf).
  rewrite !bool_decide_true by done. cbn [negb orb]. change (U8.to_N (SecretShare.index sh)) with (share_index sh). by rewrite Hnone.
Qed.

(** * Offering shares *)
Lemma offer_eq w sh s seal :
  Service.state s = None → Service.initialized s = true → World.private_dir w = true → Service.seal s = Some seal →
  offer w sh s = (unseal_share w seal (hex (encode sha256 sh)) s).1.
Proof.
  intros Hst Hin Hpriv Hseal. unfold offer, unseal. rewrite Hst, bool_decide_true, Hin by done. cbn [negb andb].
  change (Json.as_object _) with (Some [("key", VString (hex (encode sha256 sh)))]). cbn [negb]. cbv iota beta.
  change (keys_within _ _) with true. cbn [negb].
  change (flag _ "migrate" false) with (Some false). change (flag _ "reset" false) with (Some false). cbv iota beta. rewrite Hpriv, Hseal. done.
Qed.

Lemma kept_present k h (x : Disk) : kept (B := aead_barrier k) MAX_OPERATIONS x h → is_Some (x !! snapshot_path).
Proof. intros (used & i & Hst & _). destruct (st_snapshot _ _ _ _ Hst) as (n & b & Hb & _). by exists b. Qed.

Lemma backed_initialized k h s : backed k h s → Service.initialized s = true.
Proof.
  intros [Hk _]. destruct (kept_present _ _ _ Hk) as [b Hb]. unfold Service.initialized, initialized_dir. unfold store_of in Hb.
  destruct (Service.dir s) as [x|]; simpl in Hb; [|by rewrite lookup_empty in Hb]. rewrite bool_decide_true; [done|]. by exists b.
Qed.

Lemma offers_early w seal shares key s k h w' l :
  drawn w' → issued w' seal shares key → backed k h s → Service.state s = None → World.private_dir w = true →
  Service.seal s = Some seal → Service.unseal_shares s = ∅ →
  (∀ sh, sh ∈ l → sh ∈ shares) → NoDup (indexes l) → length l < u8_nat (SealMetadata.secret_threshold seal) →
  offer_all w l s = Service.set_shares (gathered l) s.
Proof.
  intros Hdr His Hb Hst Hpriv Hseal Hempty. destruct (issued_facts _ _ _ _ Hdr His) as (Hf & _ & Hwf & _).
  induction l as [|sh l IH] using rev_ind; intros Hsub Hnd Hlen.
  { simpl. change (gathered []) with (∅ : Shares). rewrite <-Hempty. by destruct s. }
  rewrite length_app in Hlen. simpl in Hlen. unfold offer_all in *. rewrite foldl_snoc.
  rewrite IH; [|set_solver| |lia]; [|rewrite fmap_app, NoDup_app in Hnd; apply Hnd].
  destruct (Hwf sh ltac:(set_solver)) as (Hw & Ht & Hth).
  rewrite (offer_eq w sh _ seal); [|done|exact (backed_initialized k h s Hb)|done|done].
  unfold unseal_share. cbn [Service.unseal_shares Service.set_shares].
  rewrite (collect_share seal sh _ Hf Hw Ht Hth (gathered_fresh l sh Hnd)), <-gathered_snoc, gathered_size by done.
  rewrite length_app. simpl length. rewrite (proj2 (Nat.ltb_lt _ _)) by lia. done.
Qed.

(** Activating the right key on working storage loads the committed state. *)
Lemma activate_loads w key k h s :
  Service.ha s = false → backed k h s → stated h → unbound_key key = Some k → io_works (World.io_reopen w) →
  ∃ s' bytes state, activate_barrier w key s = (s', Ok tt) ∧ state_bytes h = Some bytes ∧ from_slice bytes = Some state ∧
    Service.state s' = Some state ∧ Service.recovery_required s' = false ∧ Service.unseal_shares s' = Service.unseal_shares s.
Proof.
  intros Hha Hb Hh Hk Hio. destruct (stated_bytes h Hh) as (bytes & state & Hsb & Hf & Hsc).
  destruct (kept_reopens (B := aead_barrier k) MAX_OPERATIONS capacity_ok _ _ _ (bk_kept _ _ _ Hb) Hio) as (disk & d & Hr & Hrun & _).
  assert (Hss : stored_state d = Ok state).
  { unfold stored_state. rewrite (running_get (B := aead_barrier k) MAX_OPERATIONS d h "system" "state" Hrun eq_refl eq_refl).
    change (entries_of h !! _) with (state_bytes h). rewrite Hsb. cbn [map_err]. unfold decode_state. cbn [ok_or].
    rewrite Hf. cbn [ok_or]. by rewrite Hsc. }
  pose proof (backed_initialized k h s Hb) as Hin. unfold Service.initialized, initialized_dir in Hin.
  unfold activate_barrier. rewrite Hk. cbn [Service.dir Service.detach]. unfold store_of in Hr.
  destruct (Service.dir s) as [x|] eqn:Ex; [|done]. cbn [from_option] in Hr. rewrite Hr.
  cbn [Service.ha Service.put_store Service.set_dir Service.detach]. rewrite Hha, Hss. cbn [Service.ha negb].
  eexists _, bytes, state. split; [reflexivity|]. done.
Qed.

(** C9: A threshold of shares opens the server, and fewer do not.  Take any
    reachable server that is sealed and has collected no share yet, as after a start,
    a seal or a reset of the unseal progress, under a seal issued by its
    initialization or by a later rekey of its barrier key, and any of the issued
    shares with distinct indexes, in any order.  Posting fewer than the threshold one after the other
    leaves it sealed and its store untouched; posting exactly the threshold, with
    working storage and randomness, ends with the server serving from the state the
    data directory recovers to. *)
Theorem server_unseals w w' seal shares key k s sel :
  drawn w' → issued w' seal shares key → unbound_key key = Some k →
  reachable k s → Service.state s = None → Service.seal s = Some seal → Service.unseal_shares s = ∅ →
  World.private_dir w = true → io_works (World.io_reopen w) → is_Some (World.unseal_nonce w) →
  (∀ sh, sh ∈ sel → sh ∈ shares) → NoDup (indexes sel) →
  (length sel < u8_nat (SealMetadata.secret_threshold seal) →
     Service.state (offer_all w sel s) = None ∧ store_of (offer_all w sel s) = store_of s) ∧
  (length sel = u8_nat (SealMetadata.secret_threshold seal) →
     ∃ bytes state, recovers k s bytes ∧ from_slice bytes = Some state ∧
       Service.state (offer_all w sel s) = Some state ∧ Service.recovery_required (offer_all w sel s) = false).
Proof.
  intros Hdr His Hkey (Hs & h & Hb & Hh)%reachable_backed Hst Hseal Hempty Hpriv Hio [nonce Hnonce] Hsub Hnd.
  pose proof (offers_early w seal shares key s k h w') as Hearly. destruct (issued_facts _ _ _ _ Hdr His) as (Hf & Hpos & Hwf & Hcomb).
  split; [intros Hlen; by rewrite Hearly|]. intros Hlen.
  destruct Hcomb as (seal_key & wrapped & Hcomb & Hdec & Hunwrap).
  destruct sel as [|sh l _] using rev_ind.
  { simpl in Hlen. lia. }
  rewrite length_app in Hlen. simpl in Hlen.
  unfold offer_all. rewrite foldl_snoc. fold (offer_all w l s).
  assert (Hnd' : NoDup (indexes l)) by (rewrite fmap_app, NoDup_app in Hnd; apply Hnd).
  rewrite Hearly; [|done..|set_solver|done|lia].
  destruct (Hwf sh ltac:(set_solver)) as (Hw & Ht & Hth).
  rewrite (offer_eq w sh _ seal); [|done|exact (backed_initialized k h s Hb)|done|done].
  unfold unseal_share. cbn [Service.unseal_shares Service.set_shares].
  rewrite (collect_share seal sh _ Hf Hw Ht Hth (gathered_fresh l sh Hnd)), <-gathered_snoc, gathered_size by done.
  rewrite length_app. simpl length. rewrite (proj2 (Nat.ltb_ge _ _)) by lia.
  destruct (collected_values (gathered (l ++ [sh]))) as [Hvnd Hvlen]; [by intros i x [_ ?]%gathered_lookup|].
  rewrite Hcomb; cycle 1.
  { intros x Hx%subseteq_take. apply elem_of_btree_values in Hx as (i & [Hx _]%gathered_lookup). by apply Hsub. }
  { rewrite fmap_take. eapply sublist_NoDup; [exact Hvnd|apply sublist_take]. }
  { rewrite length_take, Hvlen, gathered_size, length_app by done. simpl. lia. }
  cbn [map_ok]. rewrite Hdec, Hunwrap.
  destruct (activate_loads w key k h (Service.set_shares (gathered (l ++ [sh])) (Service.set_shares (gathered l) s)))
    as (s1 & bytes & state & Ha & Hsb & Hfs & Hst1 & Hrq1 & _); [apply Hs|by destruct Hb|done|done|done|].
  rewrite Ha. unfold rotate_unseal_nonce. rewrite Hnonce. exists bytes, state. simpl. split_and!; try done. by eapply backed_recovers.
Qed.
End unseal.

(** * A concrete installation *)
From S2P Require Import AuthSpec AuditTheorems AuditToy ServerToy.
Import ServerToy ServerDemo.

(** Both shares of the demonstration, the second first, open it with its first state;
    one alone does not. *)
Lemma server_unseals_witness :
  Service.state (offer_all (world x03 x04 io) [share 1] initialized) = None ∧
  Service.state (offer_all (world x03 x04 io) [share 1; share 0] initialized) = Some first ∧
  ∃ bytes state, recovers x42 initialized bytes ∧ from_slice bytes = Some state ∧
    Service.state (offer_all (world x03 x04 io) [share 1; share 0] initialized) = Some state ∧
    Service.recovery_required (offer_all (world x03 x04 io) [share 1; share 0] initialized) = false.
Proof.
  split; [vm_compute; reflexivity|]. split; [vm_compute; reflexivity|].
  destruct plan as [p|] eqn:Ep; [|vm_compute in Ep; discriminate Ep].
  assert (Hp : prepare_init (world x01 x02 io) 10 x02 x02 = Ok p).
  { unfold plan in Ep. destruct (prepare_init _ _ _ _) as [p'|]; [|discriminate Ep]. by injection Ep as ->. }
  assert (Hf : Service.seal initialized = pl_seal <$> plan ∧ pl_shares <$> plan = Some shares
    ∧ SealMetadata.secret_threshold <$> (pl_seal <$> plan) = Some x02) by (split_and!; vm_compute; reflexivity).
  rewrite Ep in Hf. destruct Hf as (Hseal & Hsh & Hth). cbn in Hseal, Hsh, Hth. apply (inj Some) in Hsh, Hth.
  assert (Hw : drawn (world x01 x02 io)).
  { split; intros *; cbn; intros E; apply (inj Some) in E as <-; [apply repeat_length|reflexivity|reflexivity|reflexivity]. }
  assert (His : issued (world x01 x02 io) (pl_seal p) shares (repeat x42 32)).
  { rewrite <-Hsh. exact (issued_init _ 10 x02 x02 p _ Hp eq_refl). }
  assert (Hreach : reachable x42 initialized) by (exists initialized; split; [exact demo_installed|apply life_refl]).
  assert (Hio : io_works io) by (split_and!; try done; intros n; eexists; split; [reflexivity|reflexivity]).
  refine (proj2 (server_unseals (A := cipher) (world x03 x04 io) (world x01 x02 io) (pl_seal p) shares (repeat x42 32) x42 initialized
    [share 1; share 0] Hw His eq_refl Hreach eq_refl Hseal eq_refl eq_refl Hio ltac:(eexists; reflexivity) _ _) _).
  - assert (E : [share 1; share 0] = reverse shares) by (vm_compute; reflexivity). intros sh. rewrite E. by rewrite elem_of_reverse.
  - apply (bool_decide_unpack _). vm_compute. exact I.
  - rewrite Hth. vm_compute. reflexivity.
Defined.
